(* ===== verification/_CoqProject ===== *)
-Q . S2P
Prelude.v
Errno.v
Intervals.v
Dram.v
Boot.v
Frames.v
FramesLf.v
FrameAlloc.v
Paging.v
PagingProofs.v
PagingLife.v
Vma.v
Vmm.v
VmmProofs.v
VmmLife.v
Shm.v
Tmpfs.v
Traits.v
Naming.v
NamingTable.v
Procfs.v
NamingFs.v
NamingProofs.v
NamingIO.v
Pipe.v
PipeRun.v
Sched.v
SchedProofs.v
SchedRun.v
SchedJoin.v
SchedFair.v
SchedKill.v
ProcMgr.v
TextBuffer.v
TextBufferProofs.v
TextUndo.v
TermColor.v
Document.v
DocumentProofs.v
Verbs.v
Bytes.v
Mlx4Qp.v
Mlx4QpProofs.v
Mlx4Cq.v
Mlx4Card.v
Mlx4Run.v
Mlx4World.v
Mlx4Read.v
Mlx4Create.v
Mlx4Main.v
Mlx4Limits.v
ShellText.v
ShellToken.v
ShellLexer.v
ShellLexProofs.v
ShellParser.v
ShellParseProofs.v
ShellServices.v
ShellScreen.v
ShellSafe.v
Shell.v
ShellRun.v
ShellMain.v
Terminal.v
ShellTerminal.v
HcaLayout.v
HcaHw.v
HcaIcm.v
HcaDev.v
HcaIsolation.v
HcaRun.v
HcaSystem.v
HcaLedger.v
HcaReach.v
HcaModify.v
HcaPort.v
HcaEvents.v
HcaUverbs.v
HcaExample.v
