(* ===== verification/Prelude.v ===== *)
(** * A verification of D3OS

    D3OS is an operating system in Rust: a kernel ([os/kernel]), libraries that
    are linked into the kernel and into applications ([os/library]), and
    applications ([os/application]).  This library models parts of all three as Rocq
    definitions and proves them correct.  Of the kernel: the memory management, from
    the firmware's memory map at boot to the address spaces of processes; the naming
    service with its file systems and pipes; the scheduler with its threads,
    cores and processes; and the kernel part of the InfiniBand driver with its system
    call.  Of the libraries: the text buffer and the user part of the
    InfiniBand driver.  Of the applications: the text editor and the shell.

    ** The parts and how they fit together

    At boot, [boot.rs] collects the firmware's memory map into the region arrays
    of [memory/dram.rs], reserves the kernel's own memory and finalises the map.
    One of two frame allocators ([memory/frames.rs], a sorted list of free blocks,
    or [memory/frames_lf.rs], a wrapper over the lock-free [llfree] crate) is
    initialised from it; the rest of the kernel reaches it through
    [memory/mod.rs].  [memory/pages.rs] builds page tables in frames of the
    allocator; [memory/vma.rs] and [memory/vmm.rs] keep the areas of an address
    space and map memory into them; [memory/shm.rs] shares memory between
    processes.

    The naming service ([naming/api.rs] with [lookup.rs], [mount.rs] and
    [open_objects.rs]) resolves paths over mounted file systems and keeps the table
    of open objects.  It reaches files, directories and pipes through the traits of
    [naming/traits.rs], which the temporary file system ([tmpfs.rs], also the pipes)
    and the process file system ([procfs.rs]) implement.

    Every core has a scheduler ([process/scheduler.rs]); cores send each other
    threads and commands through inboxes.  [process/process_manager.rs] keeps the
    processes and ends their threads through the scheduler; the wait queues
    ([sync/wait_queue.rs]) of the pipes call its [park_current], [unblock] and
    [yield_now].

    The verbs library ([library/ibverbs]) lets an application talk to an InfiniBand
    adapter of the mlx4 family without the kernel: it writes work requests into rings
    that the adapter reads, and polls completions from a ring that the adapter writes.
    To create these rings and to register memory it makes a system call
    ([syscall/sys_uverbs.rs], [device/infiniband/uverbs.rs]).  The kernel's driver
    ([device/infiniband/mlx4]) gives each process that opens the device a context with a
    doorbell page of its own; objects belong to a context.  It checks what the process passes,
    writes the physical pages of its buffers into a translation table, and tells the adapter
    by commands what to use.  At the start it lays out the adapter's tables, lends memory for them and
    brings up the ports; events of the adapter arrive in a ring of their own.

    The text editor ([application/window_manager/src/apps/text_editor/model.rs]) keeps
    its text in the piece table of [library/text_buffer].

    The shell ([application/shell]) is a loop over a queue of events that passes each
    event to its services in their order.  The services share contexts: the command line
    and the history change the line, the lexer keeps its tokens, the auto completion makes
    suggestions, the writer updates the terminal, the parser makes executables of the
    tokens of a submitted line and the executor runs them.

    ** Files

    - [Prelude]: panics ([outcome]), [Result], machine integers, tactics.
    - [Errno] ([library/syscall/src/return_vals.rs]): error numbers and their
      conversion to and from return codes.
    - [Intervals]: half-open ranges, sorted lists of ranges ([chain]) and the
      points they cover; used for regions, frames, pages and areas alike.
    - [Dram] ([memory/dram.rs]): the region arrays; [insert_region] with its
      shifting and merging loops, [finalize], [boot_alloc].
    - [Boot] ([boot.rs], the memory part of [start]): scanning the EFI and
      Multiboot2 maps, reservations, the kernel heap.
    - [Frames] ([memory/frames.rs], counter of [memory/mod.rs]): the list
      allocator.
    - [FramesLf] ([memory/frames_lf.rs]): the lock-free allocator over the
      [llfree] crate.  The crate is not part of the sources: it is the type class
      [LLFree] with the laws [LLFreeLaws] (its documented behaviour), and
      [ref_llfree] is an instance that satisfies them.
    - [FrameAlloc] ([memory/mod.rs]): the interface [FrameAllocator] the rest of
      the kernel uses, with instances for both allocators.  Everything below is
      proved against the interface.
    - [Paging] ([memory/pages.rs]): page tables as trees, and every operation of
      [Paging].  [PagingProofs]: mapping and translation.  [PagingLife]: copying,
      dropping, changing flags, unmapping.
    - [Vma] ([memory/vma.rs]): areas and their tags.
    - [Vmm] ([memory/vmm.rs], [syscall/sys_vmem.rs]): address spaces.
      [VmmProofs]: the area map and its first-fit search, user buffers.
      [VmmLife]: which frames a process owns, from allocation to drop, and
      copying program images.
    - [Shm] ([memory/shm.rs]): shared memory.
    - [Tmpfs]: splitting and normalising path names ([naming/lookup.rs],
      [naming/api.rs]); files and directories over a store of inodes ([naming/tmpfs.rs],
      [stat.rs]).  [Traits] ([naming/traits.rs], [library/naming]): the
      traits as the class [Objects].
    - [Naming] ([naming/api.rs], [lookup.rs], [mount.rs], [open_objects.rs]): the
      naming service over any instance of [Objects].  [NamingTable]: the table of open
      objects refines a finite map.  [Procfs] ([naming/procfs.rs],
      [process/process_stats.rs]).  [NamingFs]: the instance of [Objects] with the two
      file systems, and the initialisation.  [NamingProofs], [NamingIO]: what paths
      name, creating, writing and reading.
    - [Pipe] ([naming/tmpfs.rs], [sync/wait_queue.rs]): pipes as a transition system of
      interleaved threads.  [PipeRun]: transfers through a pipe.
    - [Sched] ([process/scheduler.rs], [thread.rs]): the machine of all cores and every
      operation of the scheduler in a state monad with panics.  [SchedProofs]: what the
      operations do to the places of a thread.  [SchedRun]: the invariants over all
      runs.  [SchedJoin]: joining across cores.  [SchedFair]: round robin, balancing,
      interrupts.  [SchedKill]: killing threads.
    - [ProcMgr] ([process/process_manager.rs], [process.rs]): processes.
    - [TextBuffer] ([library/text_buffer]): the piece table.  [TextBufferProofs]: it
      refines an editor of plain text.  [TextUndo]: undo and redo.  [Document] (the text
      editor's [model.rs]): caret, modes and commands over the interface [TextStore],
      which the piece table implements.  [DocumentProofs]: its properties.
    - [Verbs] ([library/rdma/src/ib_core.rs], [library/ibverbs/src]): work requests and
      completions.  [Bytes]: numbers in big-endian order, buffers.  [Mlx4Qp]
      ([provider/mlx4/queue_pair.rs]): queue pairs.  [Mlx4QpProofs]: what posting writes.
      [Mlx4Cq] ([completion_queue.rs], [mod.rs]): completion queues.
      [Mlx4Card]: what the code relies on of the adapter, which is not part of the
      sources, the completion ring, and the runs of an application on it.  [Mlx4Run], [Mlx4World], [Mlx4Read],
      [Mlx4Create]: the invariant of these runs.  [Mlx4Main], [Mlx4Limits]: what
      applications can rely on, and what they cannot.
    - Kernel part of the InfiniBand driver ([os/kernel/src/device/infiniband]):
      [HcaLayout] ([mlx4/profile.rs], [fw.rs]): the layout of the adapter's tables.
      [HcaHw] ([cmd.rs] and the bit fields): commands and contexts;
      the adapter is the class [Card], a state and its answers to commands; the monad [M] of
      code that changes a state, fails or panics, and weakest preconditions for it.
      [HcaIcm] ([mod.rs], [icm.rs], [utils.rs]): the device; the world a verb works in, of adapter,
      physical memory, free frames, address spaces and device; tables, translation entries, memory regions.
      [HcaDev] ([queue_pair.rs], [completion_queue.rs], [mod.rs]): queues, contexts and verbs.
      [HcaPort] ([port.rs]): ports.  [HcaEvents] ([event_queue.rs]): event queues.
      [HcaIsolation], [HcaRun]: the invariant of the device, and that every verb and the end of a
      process keep it.  [HcaSystem] ([icm.rs]): mapping all tables, and the invariant over all runs.
      [HcaLedger]: what the adapter has registered is what the contexts hold.  [HcaReach]: what
      memory the adapter reaches.  [HcaModify]: changing the state of a queue pair.
      [HcaUverbs] ([uverbs.rs], [uverbs_cmd.rs], [syscall/sys_uverbs.rs]): the system call and
      what it can do.  [HcaExample]: an adapter and two processes, on which the theorems are applied.
    - [ShellText]: text as lists of characters with positions in bytes.  [ShellToken]
      ([shell/src/token], [context/tokens_context.rs]): tokens.  [ShellLexer]
      ([service/lexer.rs], [context/line_context.rs]): the line and the lexer.
      [ShellLexProofs]: removing undoes adding, so the tokens follow the line.
      [ShellParser] ([service/parser.rs], aliases, working directory, executables) and
      [ShellParseProofs]: the parser agrees with a reference reading of the segments.
      [ShellServices] (command line, history, auto completion and
      [service/writer.rs]), [Shell] ([service/executor.rs], [built_in], [shell.rs]): the
      services and the event loop, over any instance of the class [Kernel] of system calls.
      [ShellScreen]: the row of the terminal under the actions of the writer.
      [ShellSafe], [ShellRun]: the invariant of the shell.  [ShellMain]: its properties.
    - Terminal emulator ([os/application/terminal_emulator/src/terminal]) and colours
      ([os/library/graphic/src]): [Terminal] ([lfb_terminal.rs]) is the character buffer
      and the cursor under characters and escape sequences, [TermColor] the colours with
      their table ([color.rs], [ansi.rs]) and the colour state under colour sequences.
      [ShellTerminal] runs what the shell writes on the terminal.

    ** Conventions

    A function of the code is a function here, named like it.  State behind a
    lock is a record that the operations take and return; the operations are
    atomic, except for pipes, whose methods run step by step, and the cores of the
    scheduler, which interleave operations and exchange messages.  A panic of the code (a failed assertion, [expect], an index out of
    range, [panic!]) is the value [Panic]; arithmetic overflow panics, as in the
    default build profile.  Loops are structural recursions over the list they
    traverse or over the number of iterations left, so every function is total;
    some loops carry fuel.  [TextBuffer.to_string] and the line scans of [Document] take
    one more than the characters ahead, as they pass one a turn; [Frames.reserve_loop] takes
    more than twice the blocks, as a block is split at most once (the kernel never calls it); the event
    loop of the shell takes [ShellRun.EVENT_FUEL], as the events of one key weigh at most
    fourteen and handling an event reduces the weight; the handler of the adapter's events
    takes one more than the entries of the ring.  The theorems show that the fuel
    does not run out.  Frames and pages are numbers, and a
    [PhysFrameRange] or [PageRange] is a [range]; addresses, flags and bytes are
    numbers as well.  The types of the [x86_64] crate that the code uses are
    modelled by these numbers with the documented checks: [VirtAddr::new] panics
    on addresses that are not canonical, [PageTableEntry::set_frame] on huge-page
    flags.

    ** What is proved

    - Boot: the region arrays hold exactly the union of the available regions
      without the reserved ones, sorted and merged ([Dram.boot_map_correct],
      [Dram.insert_region_refines]); booting panics only if there is no room for
      the heap, and hands out only usable memory ([Boot.boot_efi_correct]).
    - Frames: allocation and release are exact, over any run no frame is lost or
      held twice ([Frames.frames_never_shared]), the counter is exact.
    - Paging: for any depth, mapping, unmapping, copying and dropping change
      exactly the translations and frames they should
      ([PagingProofs.map_user_correct], [PagingLife.unmap_correct], ...).
    - Address spaces: areas never overlap and are found by first fit
      ([VmmProofs.alloc_vma_correct]); a process owns exactly the frames it was
      given, and dropping its address space gives all of them back
      ([VmmLife.user_alloc_map_full_correct], [VmmLife.vas_drop_releases_all]);
      user memory is touched only after the checks
      ([VmmProofs.copy_bytes_user_correct]).
    - Shared memory: the tables stay consistent under creating and unlinking
      ([Shm.shm_open_correct], [Shm.shm_unlink_correct]).
    - Naming: paths name what they should after every operation
      ([NamingProofs.create_object_correct]), written data is read back
      ([NamingIO.write_seek_read]), the table of open objects is a map
      ([NamingTable.open_object_table_refines_map]).
    - Pipes: in every interleaving bytes arrive once and in order
      ([PipeRun.pipe_in_order], [Pipe.pipe_integrity]) and a transfer can always go on
      ([PipeRun.pipe_progress]); waiting threads poll, as the scheduler does not
      block them ([PipeRun.waiting_fills_queue]).
    - Scheduler: in every run on any number of cores a thread is in one place
      ([SchedRun.thread_in_one_place]), none is lost without [kill]
      ([SchedRun.threads_accounted]), joins are woken across cores
      ([SchedJoin.no_lost_wakeup], [SchedJoin.join_returns]), the ready queue is fair
      ([SchedFair.bounded_waiting]) and balancing does not overshoot
      ([SchedFair.balance_target]); ending a process ends exactly its ready threads
      ([ProcMgr.process_exit_threads]).
    - InfiniBand: in every run of an application and the adapter the completions polled
      are those of the requests they belong to ([Mlx4Main.completions_match]), the adapter
      reads the requests as they were posted ([Mlx4Main.adapter_reads_posted]) and the
      calls return ([Mlx4Main.verbs_return]).
    - InfiniBand in the kernel: whatever processes do and whatever the adapter answers,
      everything has one owner and verbs are local to their process
      ([HcaSystem.processes_isolated]), also as system calls with any arguments
      ([HcaUverbs.system_call_isolated]), which run the verb their request encodes
      ([HcaUverbs.system_call_runs_verb]).  What is registered at the adapter is what the contexts
      hold, so a process that was released leaves nothing behind
      ([HcaLedger.release_leaves_nothing]).  Through a region or a ring the adapter reaches the
      memory the process had mapped there, as long as it is registered
      ([HcaReach.registered_region_reached], [HcaReach.completion_queue_reached]).  Changing a
      queue pair does not panic and follows the states of InfiniBand
      ([HcaModify.modify_follows_states]).  The tables of the adapter do not overlap
      ([HcaLayout.profile_layout]), ports come up all or none
      ([HcaPort.init_ports_all_or_nothing]), and events are handled in order, each once
      ([HcaEvents.events_in_order]).  Isolation ends where the driver is at fault:
      [HcaReach.freed_domain_reused], [HcaReach.unaligned_ring_reaches_others],
      [HcaUverbs.bad_request_address_panics].
      Where a theorem needs more of the adapter than any answer, the class [CardLaws] (or
      [PortLaws]) says what: it answers in time with a status of the manual, a command that
      succeeds has its effect and a refused one none, and an entry can be read back.
    - Text editor: the piece table is an editor of plain text
      ([TextBufferProofs.text_buffer_refines]) whose edits can be undone
      ([TextUndo.edits_undone_redone]); every key is handled
      ([DocumentProofs.keys_are_handled]).
    - Shell: whatever ASCII keys are pressed, the events run out and nothing panics but
      one index of the auto completion ([ShellMain.shell_handles_keys]); the tokens kept
      up to date key by key are those of the whole line ([ShellMain.tokens_follow_keys]);
      the partial updates of the writer show the whole line, also on the terminal that
      performs them ([ShellTerminal.terminal_shows_line]); a line is parsed to its segments
      ([ShellMain.parse_segments]), which run as a chain
      ([ShellMain.execute_chains_segments]).
    - Where the code does not do what it means to, a theorem shows it on a
      concrete state, for example [PagingLife.sparse_unmap_hits_wrong_page],
      [Shm.detach_twice_frees_shared_frame], [SchedKill.remote_kill_hangs_core],
      [Mlx4Limits.unsignaled_requests_leak], [ShellMain.keys_panic] and
      [ShellTerminal.wrapped_line_panics].
    - Colours: no sequence of parameters panics and what is shown follows from the state
      ([TermColor.color_sequences_fine]); an index selects the colour of the palette
      ([TermColor.palette_selected]).

    ** What is not modelled

    Concurrency inside an operation (each holds its lock), the contents of page
    tables as raw memory (the tree is the contents), the TLB and CR3, the byte
    copies behind raw pointers other than [copy_to_addr_space], and debug output.
    The stacks of threads and the assembly that switches between them.  Of the
    InfiniBand driver: the registers through which commands go and their timeouts (a command
    is one step that may be late), packing bit fields into bytes (a crate), loading the
    firmware and reading its capabilities, the order of the whole initialisation and
    its undoing, more than one adapter, and the layout of padding.  The other device
    drivers and the network stack work on
    device registers and memory shared with the device; the window manager
    and the graphics libraries draw, as do the pixels of the terminal emulator, whose
    worker threads and sequence parser (a crate) are left out; the C library and the small
    applications are wrappers and demonstrations.  Of the shell, colours and the
    text that commands print are left out; the row in [ShellScreen] has no right margin, a
    cell per character, and begins where the prompt does: [ShellTerminal] states when the
    actions stay within the margin of a terminal. *)

From Stdlib Require Export ZArith Lia.
From stdpp Require Export base tactics numbers strings gmap list_numbers list.
Export stdpp.list_relations.list.

Create HintDb d3os.
Create Rewrite HintDb d3os_rw.

(** ** Panics

    A Rust computation either returns a value or panics.  A panic carries the
    head of its message, only to tell panic sites apart in statements. *)

Inductive outcome (A : Type) : Type :=
| Ret (a : A)
| Panic (msg : string).
Arguments Ret {A} a.
Arguments Panic {A} msg.

#[global] Instance outcome_ret : MRet outcome := @Ret.
#[global] Instance outcome_bind : MBind outcome := fun A B f m =>
  match m with
  | Ret a => f a
  | Panic s => Panic s
  end.
#[global] Instance outcome_fmap : FMap outcome := fun A B f m =>
  match m with
  | Ret a => Ret (f a)
  | Panic s => Panic s
  end.

Definition returns {A} (m : outcome A) : Prop := exists a, m = Ret a.
Definition panics {A} (m : outcome A) : Prop := exists s, m = Panic s.

(** [assert!(b, msg)] *)
Definition rust_assert (b : bool) (msg : string) : outcome unit :=
  if b then Ret tt else Panic msg.

(** [Option::expect] and [Option::unwrap] *)
Definition expect {A} (o : option A) (msg : string) : outcome A :=
  match o with
  | Some a => Ret a
  | None => Panic msg
  end.

(** Slice indexing: out of range panics, unlike stdpp's list insert. *)
Definition arr_get {A} (l : list A) (i : nat) : outcome A :=
  expect (l !! i) "index out of bounds".

Definition arr_set {A} (l : list A) (i : nat) (x : A) : outcome (list A) :=
  if decide (i < length l)%nat then Ret (<[i:=x]> l) else Panic "index out of bounds".

(** ** Rust's [Result] *)

Inductive result (E A : Type) : Type :=
| Ok (a : A)
| Err (e : E).
Arguments Ok {E A} a.
Arguments Err {E A} e.

#[global] Instance result_bind {E} : MBind (result E) := fun A B f m =>
  match m with
  | Ok a => f a
  | Err e => Err e
  end.
#[global] Instance result_ret {E} : MRet (result E) := @Ok E.

Definition is_ok {E A} (r : result E A) : bool :=
  match r with Ok _ => true | Err _ => false end.

(** ** Machine integers: [u32], [u64] and [usize] values are [Z] in range. *)

Definition U64_MAX : Z := 2 ^ 64 - 1.
Definition U32_MAX : Z := 2 ^ 32 - 1.

Definition u64 (z : Z) : Prop := (0 <= z <= U64_MAX)%Z.
Definition u32 (z : Z) : Prop := (0 <= z <= U32_MAX)%Z.

(** [u64::checked_add] and [u64::checked_mul] *)
Definition checked_add (a b : Z) : option Z :=
  if (a + b <=? U64_MAX)%Z then Some (a + b)%Z else None.
Definition checked_mul (a b : Z) : option Z :=
  if (a * b <=? U64_MAX)%Z then Some (a * b)%Z else None.

(** Wrapping arithmetic of the atomic counters. *)
Definition wrap64 (z : Z) : Z := (z mod 2 ^ 64)%Z.
Definition wrap32 (z : Z) : Z := (z mod 2 ^ 32)%Z.

(** [a - b] on [usize], for positions that are natural numbers. *)
Definition usub (a b : nat) : outcome nat :=
  if (b <=? a)%nat then Ret (a - b)%nat else Panic "attempt to subtract with overflow".

(** [a + b], [a - b] and [a * b] on [u32]. *)
Definition add32 (a b : Z) : outcome Z :=
  if (a + b <=? U32_MAX)%Z then Ret (a + b)%Z else Panic "attempt to add with overflow".
Definition sub32 (a b : Z) : outcome Z :=
  if (b <=? a)%Z then Ret (a - b)%Z else Panic "attempt to subtract with overflow".
Definition mul32 (a b : Z) : outcome Z :=
  if (a * b <=? U32_MAX)%Z then Ret (a * b)%Z else Panic "attempt to multiply with overflow".

(** ** Tactics *)

(** Simplify binds whose head is known. *)
Ltac outcome_simpl :=
  unfold mbind, outcome_bind, mret, outcome_ret, fmap, outcome_fmap in *; simpl in *.

(** Split a boolean test of the code into its two branches, as propositions. *)
Ltac case_test :=
  match goal with
  | |- context [if (?a <? ?b)%Z then _ else _] => destruct (Z.ltb_spec a b)
  | |- context [if (?a <=? ?b)%Z then _ else _] => destruct (Z.leb_spec a b)
  | |- context [if (?a >? ?b)%Z then _ else _] => destruct (Z.gtb_spec a b)
  | |- context [if (?a >=? ?b)%Z then _ else _] => destruct (Z.geb_spec a b)
  | |- context [if (?a =? ?b)%Z then _ else _] => destruct (Z.eqb_spec a b)
  | |- context [if decide ?P then _ else _] => destruct (decide P)
  | |- context [if ?b then _ else _] => destruct b eqn:?
  end.

Ltac case_test_in H :=
  match type of H with
  | context [if (?a <? ?b)%Z then _ else _] => destruct (Z.ltb_spec a b)
  | context [if (?a <=? ?b)%Z then _ else _] => destruct (Z.leb_spec a b)
  | context [if (?a >? ?b)%Z then _ else _] => destruct (Z.gtb_spec a b)
  | context [if (?a >=? ?b)%Z then _ else _] => destruct (Z.geb_spec a b)
  | context [if (?a =? ?b)%Z then _ else _] => destruct (Z.eqb_spec a b)
  | context [if decide ?P then _ else _] => destruct (decide P)
  | context [if ?b then _ else _] => destruct b eqn:?
  end.

(** ** Generic lemmas *)

Lemma arr_get_ok {A} (l : list A) i x : l !! i = Some x -> arr_get l i = Ret x.
Proof. intros H. unfold arr_get, expect. by rewrite H. Qed.

Lemma arr_set_ok {A} (l : list A) i x :
  (i < length l)%nat -> arr_set l i x = Ret (<[i:=x]> l).
Proof. intros H. unfold arr_set. by rewrite decide_True. Qed.

Lemma arr_get_middle {A} (l k : list A) x i :
  i = length l -> arr_get (l ++ x :: k) i = Ret x.
Proof. intros ->. apply arr_get_ok. by rewrite list_lookup_middle. Qed.

Lemma arr_set_middle {A} (l k : list A) x y i :
  i = length l -> arr_set (l ++ x :: k) i y = Ret (l ++ y :: k).
Proof.
  intros ->. rewrite arr_set_ok.
  - f_equal. rewrite insert_app_r_alt by lia. by rewrite Nat.sub_diag.
  - rewrite length_app. simpl. lia.
Qed.

Lemma outcome_bind_ret {A B} (m : outcome A) (f : A -> outcome B) b :
  (m ≫= f) = Ret b -> exists a, m = Ret a /\ f a = Ret b.
Proof. destruct m; simpl; [eauto | done]. Qed.

Lemma usub_ok a b : (b <= a)%nat -> usub a b = Ret (a - b)%nat.
Proof. intros H. unfold usub. by destruct (Nat.leb_spec b a); [|lia]. Qed.

Lemma add32_ok a b : (a + b <= U32_MAX)%Z -> add32 a b = Ret (a + b)%Z.
Proof. intros H. unfold add32. by destruct (Z.leb_spec (a + b) U32_MAX); [|lia]. Qed.

Lemma sub32_ok a b : (b <= a)%Z -> sub32 a b = Ret (a - b)%Z.
Proof. intros H. unfold sub32. by destruct (Z.leb_spec b a); [|lia]. Qed.

Lemma mul32_ok a b : (a * b <= U32_MAX)%Z -> mul32 a b = Ret (a * b)%Z.
Proof. intros H. unfold mul32. by destruct (Z.leb_spec (a * b) U32_MAX); [|lia]. Qed.

(** Take a successful sequence of binds apart. *)
Ltac inv_bind H :=
  let a := fresh "a" in
  let E := fresh "E" in
  apply outcome_bind_ret in H as (a & E & H).

#[export] Hint Resolve arr_get_ok arr_set_ok : d3os.

(** [Vec::swap_remove]: the last element takes the place of the removed one. *)
Definition swap_remove {B} (l : list B) (i : nat) : list B :=
  match last l with
  | Some x => take (length l - 1) (<[i := x]> l)
  | None => l
  end.

Lemma swap_remove_perm {A} (l : list A) i x : l !! i = Some x -> l ≡ₚ x :: swap_remove l i.
Proof.
  intros Hi. unfold swap_remove. destruct l as [|y l' _] using rev_ind; [done|].
  rewrite last_snoc, length_app. simpl. replace (length l' + 1 - 1)%nat with (length l') by lia.
  destruct (decide (i < length l')%nat) as [Hlt|Hge].
  - rewrite lookup_app_l in Hi by done. rewrite insert_app_l by done.
    rewrite take_app_le by (rewrite length_insert; lia). rewrite take_ge by (rewrite length_insert; lia).
    rewrite insert_take_drop by done. rewrite <- (take_drop_middle l' i x Hi) at 1.
    rewrite <- app_assoc. simpl. rewrite <- !Permutation_middle. f_equiv.
    by rewrite app_assoc, Permutation_app_comm.
  - apply lookup_lt_Some in Hi as Hlt. rewrite length_app in Hlt. simpl in Hlt.
    replace i with (length l') in * by lia. rewrite list_lookup_middle in Hi by done. injection Hi as ->.
    rewrite list_insert_id by (by rewrite list_lookup_middle). rewrite take_app_length.
    by rewrite Permutation_app_comm.
Qed.
