(* ===== verification/Errno.v ===== *)
(** * System call results ([os/library/syscall/src/return_vals.rs])

    A system call returns an [isize]: a value that is not negative on success, a
    negative error number otherwise. *)

From S2P Require Import Prelude.

Open Scope Z_scope.

(* [os/library/syscall/src/return_vals.rs:12-40] Errno *)
Inductive Errno :=
| EUNKN | ENOENT | ENOHANDLES | EBADF | EACCES | EEXIST | ENOTDIR | EINVAL | EINVALH | ENOTEMPTY | EBADSTR
| EBUSY | ENOTSUP | ECONNRESET | ERDONLY | EAGAIN | ESRCH | EOF | EPIPE | ENOMEM | EISDIR | EFAULT | ENOCMD.

#[global] Instance errno_eq_dec : EqDecision Errno.
Proof. solve_decision. Defined.

(** [Errno as isize] and the derived [Into<isize>] *)
(* os/library/syscall/src/return_vals.rs: Errno *)
Definition errno_to_isize (e : Errno) : Z :=
  match e with
  | EUNKN => -1 | ENOENT => -2 | ENOHANDLES => -3 | EBADF => -4 | EACCES => -5 | EEXIST => -6
  | ENOTDIR => -7 | EINVAL => -8 | EINVALH => -9 | ENOTEMPTY => -10 | EBADSTR => -11 | EBUSY => -12
  | ENOTSUP => -13 | ECONNRESET => -14 | ERDONLY => -15 | EAGAIN => -16 | ESRCH => -17 | EOF => -18
  | EPIPE => -19 | ENOMEM => -20 | EISDIR => -21 | EFAULT => -22 | ENOCMD => -23
  end.

Definition all_errnos : list Errno :=
  [EUNKN; ENOENT; ENOHANDLES; EBADF; EACCES; EEXIST; ENOTDIR; EINVAL; EINVALH; ENOTEMPTY; EBADSTR;
   EBUSY; ENOTSUP; ECONNRESET; ERDONLY; EAGAIN; ESRCH; EOF; EPIPE; ENOMEM; EISDIR; EFAULT; ENOCMD].

(** The derived [From<isize>]: the variant with that discriminant, or the variant marked
    as the default. *)
(* os/library/syscall/src/return_vals.rs: Errno *)
Definition errno_from_isize (z : Z) : Errno :=
  default EUNKN (head (filter (fun e => errno_to_isize e = z) all_errnos)).

(* os/library/syscall/src/return_vals.rs: SyscallResult *)
Definition SyscallResult := result Errno Z.

(** [t as isize] for a [usize]: the two's complement reading. *)
Definition as_isize (t : Z) : Z := if t <? 2 ^ 63 then t else t - 2 ^ 64.

(* [os/library/syscall/src/return_vals.rs:46-53] convert_ret_code_to_syscall_result *)
Definition convert_ret_code_to_syscall_result (ret_code : Z) : SyscallResult :=
  if ret_code <? 0 then Err (errno_from_isize ret_code) else Ok ret_code.

(* [os/library/syscall/src/return_vals.rs:55-61] convert_syscall_result_to_ret_code *)
Definition convert_syscall_result_to_ret_code (r : SyscallResult) : Z :=
  match r with
  | Ok t => as_isize t
  | Err e => errno_to_isize e
  end.

(** What the kernel packs into a return code, user mode unpacks: every error number,
    and every value below 2^63, crosses the system call boundary unchanged. *)
Theorem syscall_result_roundtrip (r : SyscallResult) :
  (forall t, r = Ok t -> 0 <= t < 2 ^ 63) ->
  convert_ret_code_to_syscall_result (convert_syscall_result_to_ret_code r) = r.
Proof.
  intros Hok. destruct r as [t|e].
  - specialize (Hok t eq_refl). unfold convert_syscall_result_to_ret_code, as_isize.
    rewrite (proj2 (Z.ltb_lt t (2 ^ 63))) by lia. unfold convert_ret_code_to_syscall_result.
    by rewrite (proj2 (Z.ltb_ge t 0)) by lia.
  - by destruct e.
Qed.

Lemma syscall_result_roundtrip_witness :
  convert_ret_code_to_syscall_result (convert_syscall_result_to_ret_code (Ok 4096)) = Ok 4096.
Proof. apply (syscall_result_roundtrip (Ok 4096)). intros t [= <-]. split; [discriminate|reflexivity]. Defined.
