(* ===== verification/Intervals.v ===== *)
(** * Half-open ranges and ordered lists of ranges

    The boot-time DRAM map ([os/kernel/src/memory/dram.rs]), the page frame
    allocator ([frames.rs]) and the page mapper ([pages.rs]) all work on lists
    of half-open ranges sorted by their start.  This file holds the ranges, the
    set of points a list covers and the ordering predicate shared by all of
    them. *)

From S2P Require Import Prelude.

Open Scope Z_scope.

(** A half-open range [\[r_start, r_end)]: the [PhysFrameRange] and [PageRange]
    values of the code, a frame or a page being its number, and the [Region] of
    physical addresses of [dram.rs]. *)
(* [os/kernel/src/memory/dram.rs:43-47] Region *)
Record range := mkRange { r_start : Z; r_end : Z }.

#[global] Instance range_eq_dec : EqDecision range.
Proof. solve_decision. Defined.
#[global] Instance range_inhabited : Inhabited range := populate (mkRange 0 0).

Definition in_range (a : Z) (r : range) : Prop := r_start r <= a < r_end r.

(** Number of frames or pages of a range ([range.end - range.start]). *)
Definition range_len (r : range) : Z := r_end r - r_start r.

Definition nonempty (r : range) : Prop := r_start r < r_end r.

Definition covers (l : list range) (a : Z) : Prop := exists r, r ∈ l /\ in_range a r.

(** [chain gap len lo l]: the ranges of [l] ascend from [lo]; two neighbours are
    at least [gap] apart and every range has at least [len] points.
    [chain 0 1] is "sorted, disjoint and non-empty", [chain 1 0] "sorted, never
    touching", [chain 1 1] the canonical form in which touching ranges are
    fused. *)
Fixpoint chain (gap len lo : Z) (l : list range) : Prop :=
  match l with
  | [] => True
  | r :: l' => lo + gap <= r_start r /\ r_start r + len <= r_end r /\ chain gap len (r_end r) l'
  end.

Lemma covers_nil a : covers [] a <-> False.
Proof. split; [intros (r & Hr & _); by apply elem_of_nil in Hr | done]. Qed.

Lemma covers_cons r l a : covers (r :: l) a <-> in_range a r \/ covers l a.
Proof.
  unfold covers. split.
  - intros (x & [-> | Hx]%elem_of_cons & Ha); eauto.
  - intros [Ha | (x & Hx & Ha)]; [exists r | exists x]; rewrite elem_of_cons; auto.
Qed.

Lemma covers_app l k a : covers (l ++ k) a <-> covers l a \/ covers k a.
Proof.
  induction l as [|r l IH]; simpl.
  - rewrite covers_nil. tauto.
  - rewrite !covers_cons, IH. tauto.
Qed.

#[global] Instance in_range_dec a r : Decision (in_range a r).
Proof. unfold in_range. apply _. Defined.

#[global] Instance covers_dec l a : Decision (covers l a).
Proof.
  destruct (decide (Exists (in_range a) l)) as [H|H].
  - left. by apply Exists_exists in H.
  - right. intros Hc. by apply H, Exists_exists.
Defined.

#[export] Hint Rewrite covers_nil covers_cons covers_app : d3os_rw.

Lemma chain_weaken gap len gap' len' lo lo' l :
  gap' <= gap -> len' <= len -> lo' + gap' <= lo + gap ->
  chain gap len lo l -> chain gap' len' lo' l.
Proof.
  intros Hg Hl. revert lo lo'. induction l as [|r l IH]; simpl; [done|].
  intros lo lo' Hlo (H1 & H2 & H3). split_and!; try lia. eapply IH; [|done]. lia.
Qed.

Lemma chain_lower gap len lo l a :
  0 <= gap -> 0 <= len -> chain gap len lo l -> covers l a -> lo + gap <= a.
Proof.
  intros Hg Hl. revert lo. induction l as [|r l IH]; intros lo.
  - by rewrite covers_nil.
  - simpl. rewrite covers_cons. intros (H1 & H2 & H3) [Ha | Ha].
    + unfold in_range in Ha. lia.
    + specialize (IH _ H3 Ha). lia.
Qed.

(** The end of the last range, [lo] for an empty list. *)
Fixpoint last_end (lo : Z) (l : list range) : Z :=
  match l with
  | [] => lo
  | r :: l' => last_end (r_end r) l'
  end.

Lemma chain_app gap len lo l k :
  chain gap len lo (l ++ k) <-> chain gap len lo l /\ chain gap len (last_end lo l) k.
Proof.
  revert lo. induction l as [|r l IH]; intros lo; simpl; [tauto|].
  rewrite IH. tauto.
Qed.

Lemma last_end_app lo l k : last_end lo (l ++ k) = last_end (last_end lo l) k.
Proof. revert lo. induction l; intros; simpl; auto. Qed.

Lemma chain_last_end gap len lo l :
  0 <= gap -> 0 <= len -> chain gap len lo l -> lo <= last_end lo l.
Proof.
  intros Hg Hl. revert lo. induction l as [|r l IH]; simpl; intros lo H; [lia|].
  destruct H as (H1 & H2 & H3). specialize (IH _ H3). lia.
Qed.

Lemma last_end_mono lo lo' l : lo <= lo' -> last_end lo l <= last_end lo' l.
Proof. destruct l; simpl; lia. Qed.

Lemma chain_upper gap len lo l a :
  0 <= gap -> 0 <= len -> chain gap len lo l -> covers l a -> a < last_end lo l.
Proof.
  intros Hg Hl. revert lo. induction l as [|r l IH]; intros lo.
  - by rewrite covers_nil.
  - simpl. rewrite covers_cons. intros (H1 & H2 & H3) [Ha | Ha]; [|eauto].
    apply chain_last_end in H3; [|done..]. unfold in_range in Ha. lia.
Qed.

(** Two canonical lists that cover the same points are the same list. *)
Lemma chain_head_le lo r l r' l' :
  chain 1 1 lo (r :: l) -> chain 1 1 lo (r' :: l') ->
  (forall a, covers (r :: l) a -> covers (r' :: l') a) ->
  r_start r' <= r_start r /\ (r_start r' = r_start r -> r_end r <= r_end r').
Proof.
  simpl. intros (H1 & H2 & H3) (H1' & H2' & H3') Hsub.
  assert (Hs : r_start r' <= r_start r).
  { assert (Hc : covers (r' :: l') (r_start r)).
    { apply Hsub, covers_cons. left. unfold in_range. lia. }
    apply covers_cons in Hc as [Hc | Hc]; [unfold in_range in Hc; lia|].
    apply (chain_lower 1 1 _ _ _ ltac:(lia) ltac:(lia) H3') in Hc; lia. }
  split; [done|]. intros Heq.
  destruct (Z.le_gt_cases (r_end r) (r_end r')) as [|Hlt]; [done|].
  assert (Hc : covers (r' :: l') (r_end r')).
  { apply Hsub, covers_cons. left. unfold in_range. lia. }
  apply covers_cons in Hc as [Hc | Hc]; [unfold in_range in Hc; lia|].
  apply (chain_lower 1 1 _ _ _ ltac:(lia) ltac:(lia) H3') in Hc; lia.
Qed.

Lemma covers_tail lo r l a :
  chain 1 1 lo (r :: l) -> covers l a <-> covers (r :: l) a /\ ~ in_range a r.
Proof.
  intros (H1 & H2 & H3). rewrite covers_cons. split; [|tauto].
  intros Hc. split; [by right|]. apply (chain_lower 1 1 _ _ _ ltac:(lia) ltac:(lia) H3) in Hc.
  unfold in_range. lia.
Qed.

Lemma chain_unique lo l l' :
  chain 1 1 lo l -> chain 1 1 lo l' -> (forall a, covers l a <-> covers l' a) -> l = l'.
Proof.
  revert lo l'. induction l as [|r l IH]; intros lo [|r' l'] H H' Heq; [done|..].
  - exfalso. apply (covers_nil (r_start r')), Heq, covers_cons. left.
    unfold in_range. simpl in H'. lia.
  - exfalso. apply (covers_nil (r_start r)), Heq, covers_cons. left.
    unfold in_range. simpl in H. lia.
  - destruct (chain_head_le _ _ _ _ _ H H') as [Hs He]; [intros a; apply Heq|].
    destruct (chain_head_le _ _ _ _ _ H' H) as [Hs' He']; [intros a; apply Heq|].
    assert (r = r') as ->.
    { destruct r as [s e], r' as [s' e']; simpl in *. f_equal; lia. }
    f_equal. apply (IH (r_end r')); [apply H | apply H' |].
    intros a. by rewrite (covers_tail _ _ _ _ H), (covers_tail _ _ _ _ H'), Heq.
Qed.

Lemma chain_elem gap len lo l r :
  0 <= gap -> 0 <= len -> chain gap len lo l -> r ∈ l ->
  lo + gap <= r_start r /\ r_start r + len <= r_end r /\ r_end r <= last_end lo l.
Proof.
  intros Hg Hl. revert lo. induction l as [|x l IH]; intros lo H Hr.
  - by apply elem_of_nil in Hr.
  - destruct H as (H1 & H2 & H3). apply elem_of_cons in Hr as [-> | Hr].
    + apply chain_last_end in H3; simpl; [lia..].
    + destruct (IH _ H3 Hr). simpl. lia.
Qed.

Lemma last_end_covered gap lo l :
  0 <= gap -> chain gap 1 lo l -> l <> [] -> exists a, covers l a /\ last_end lo l <= a + 1.
Proof.
  intros Hg. revert lo. induction l as [|r l IH]; intros lo; [done|]. intros (H1 & H2 & H3) _.
  destruct l as [|x l].
  - exists (r_end r - 1). rewrite covers_cons. unfold in_range. simpl. lia.
  - destruct (IH _ H3) as (a & Ha & Hle); [done|]. exists a.
    rewrite covers_cons. split; [by right|done].
Qed.

Lemma chain_nonempty gap lo l :
  chain gap 0 lo l -> Forall nonempty l -> chain gap 1 lo l.
Proof.
  intros H Hne. revert lo H. induction Hne as [|r l Hr Hl IH]; intros lo; simpl; [done|].
  intros (H1 & H2 & H3). unfold nonempty in Hr. split_and!; try lia. auto.
Qed.

#[export] Hint Resolve chain_lower chain_upper chain_last_end : d3os.
