(* ===== verification/Dram.v ===== *)
(** * Boot-time DRAM map ([os/kernel/src/memory/dram.rs])

    The kernel collects the available and the reserved memory regions reported
    by the firmware in two fixed arrays of 1024 regions, merges overlapping
    regions while inserting, and finally subtracts the reserved regions from the
    available ones.  The arrays are modelled as the code has them, in-place
    shifts and merges with panicking accesses included; the lemmas relate them
    to plain ordered lists of ranges.

    Physical addresses are numbers, page frames are frame numbers.  The two
    mutex-protected statics and the two atomics are the fields of [Dram]; each
    function holds the locks it needs for its whole run, so it is one step on
    that state. *)

From S2P Require Import Prelude Intervals.

Open Scope Z_scope.

(* os/kernel/src/memory/mod.rs: PAGE_SIZE *)
Definition PAGE_SIZE : Z := 4096.

(* os/kernel/src/memory/dram.rs: MAX_REGIONS *)
Definition MAX_REGIONS : nat := Z.to_nat 1024.

(** A region of physical addresses; [end] is exclusive. *)
Abbreviation Region := range (only parsing).

(* os/kernel/src/memory/dram.rs: EMPTY_REGION *)
Definition EMPTY_REGION : Region := mkRange 0 0.

(* [os/kernel/src/memory/dram.rs:54-58] RegionSet *)
Record RegionSet := mkRegionSet { count : nat; regions : list Region }.

(* os/kernel/src/memory/dram.rs: EMPTY_REGION_SET *)
Definition EMPTY_REGION_SET : RegionSet :=
  mkRegionSet 0 (replicate MAX_REGIONS EMPTY_REGION).

(** The statics [DRAM_LIMIT], [DRAM_FINALIZED], [AVAILABLE_REGIONS] and
    [RESERVED_REGIONS]. *)
(* os/kernel/src/memory/dram.rs: DRAM_LIMIT, DRAM_FINALIZED *)
Record Dram := mkDram {
  dram_limit : Z;
  dram_finalized : bool;
  available : RegionSet;
  reserved : RegionSet
}.

(* os/kernel/src/memory/dram.rs: AVAILABLE_REGIONS, RESERVED_REGIONS *)
Definition dram_init : Dram := mkDram 0 false EMPTY_REGION_SET EMPTY_REGION_SET.

(* os/kernel/src/memory/dram.rs: limit *)
Definition limit (s : Dram) : Z := dram_limit s.

(** [PhysFrame::start_address] and [PhysFrame::from_start_address] *)
Definition start_address (frame : Z) : Z := frame * PAGE_SIZE.
Definition from_start_address (a : Z) : option Z :=
  if a mod PAGE_SIZE =? 0 then Some (a / PAGE_SIZE) else None.

(** ** Insertion *)

(** The search loop; [n] is the number of regions left, [count - insert_at]. *)
(* os/kernel/src/memory/dram.rs: insert_region *)
Fixpoint find_insert_at (regions : list Region) (start : Z) (insert_at n : nat) : outcome nat :=
  match n with
  | O => Ret insert_at
  | S n' =>
      r ← arr_get regions insert_at;
      if r_start r <? start then find_insert_at regions start (S insert_at) n'
      else Ret insert_at
  end.

(** [for i in (insert_at..insert_at + n).rev()] *)
(* os/kernel/src/memory/dram.rs: insert_region *)
Fixpoint shift_right (regions : list Region) (insert_at n : nat) : outcome (list Region) :=
  match n with
  | O => Ret regions
  | S n' =>
      r ← arr_get regions (insert_at + n');
      regions' ← arr_set regions (insert_at + n' + 1) r;
      shift_right regions' insert_at n'
  end.

(** [for read in read..read + n], threading [write]. *)
(* os/kernel/src/memory/dram.rs: insert_region *)
Fixpoint merge_in_place (regions : list Region) (write read n : nat)
    : outcome (list Region * nat) :=
  match n with
  | O => Ret (regions, write)
  | S n' =>
      current ← arr_get regions write;
      next ← arr_get regions read;
      if r_start next <=? r_end current then
        regions' ← (if r_end next >? r_end current
                    then arr_set regions write (mkRange (r_start current) (r_end next))
                    else Ret regions);
        merge_in_place regions' write (S read) n'
      else
        regions' ← arr_set regions (S write) next;
        merge_in_place regions' (S write) (S read) n'
  end.

(** [for slot in &mut regions[from..to] { *slot = EMPTY_REGION }] *)
(* os/kernel/src/memory/dram.rs: insert_region *)
Definition clear_slots (regions : list Region) (from to : nat) : outcome (list Region) :=
  if decide (from <= to /\ to <= length regions)%nat
  then Ret (take from regions ++ replicate (to - from) EMPTY_REGION ++ drop to regions)
  else Panic "slice index out of range".

(* [os/kernel/src/memory/dram.rs:95-155] insert_region *)
Definition insert_region (s : Dram) (set : RegionSet) (new_region : range)
    : outcome (Z * RegionSet) :=
  if dram_finalized s then Panic "available: DRAM regions have already been finalized" else
  let start := start_address (r_start new_region) in
  let end_ := start_address (r_end new_region) in
  let limit' := Z.max (dram_limit s) end_ in
  let cnt := count set in
  _ ← rust_assert (bool_decide (cnt <= MAX_REGIONS)%nat) "available: region count exceeds MAX_REGIONS";
  if decide (cnt = MAX_REGIONS) then Panic "available: too many regions" else
  insert_at ← find_insert_at (regions set) start 0 cnt;
  regions1 ← shift_right (regions set) insert_at (cnt - insert_at);
  regions2 ← arr_set regions1 insert_at (mkRange start end_);
  '(regions3, write) ← merge_in_place regions2 0 1 cnt;
  let new_count := S write in
  regions4 ← clear_slots regions3 new_count (S cnt);
  Ret (limit', mkRegionSet new_count regions4).

(* [os/kernel/src/memory/dram.rs:70-86] insert_available *)
Definition insert_available (s : Dram) (region : range) : outcome Dram :=
  if start_address (r_start region) =? 0 then
    if start_address (r_end region) <=? PAGE_SIZE then Ret s
    else
      first ← expect (from_start_address 0x1000) "Invalid start address";
      '(lim, set) ← insert_region s (available s) (mkRange first (r_end region));
      Ret (mkDram lim (dram_finalized s) set (reserved s))
  else
    '(lim, set) ← insert_region s (available s) region;
    Ret (mkDram lim (dram_finalized s) set (reserved s)).

(* os/kernel/src/memory/dram.rs: insert_reserved *)
Definition insert_reserved (s : Dram) (region : range) : outcome Dram :=
  '(lim, set) ← insert_region s (reserved s) region;
  Ret (mkDram lim (dram_finalized s) (available s) set).

(** ** Finalisation *)

(** The first [count] regions of the array, as the loops [for i in 0..count]
    visit them. *)
Definition entries (set : RegionSet) : list Region := take (count set) (regions set).

(** The array after [count] is set to [length l], the first slots are written
    with [l] and all the others cleared. *)
(* os/kernel/src/memory/dram.rs: finalize_available_regions *)
Definition set_of (l : list Region) : RegionSet :=
  mkRegionSet (length l) (l ++ replicate (MAX_REGIONS - length l) EMPTY_REGION).

(* os/kernel/src/memory/dram.rs: finalize_available_regions *)
Definition push_region (result : list Region) (start end_ : Z) : outcome (list Region) :=
  if end_ <=? start then Ret result
  else if decide (MAX_REGIONS <= length result)%nat
       then Panic "available: too many regions after finalization"
       else Ret (result ++ [mkRange start end_]).

(** [r_idx] is represented by the reserved regions from [r_idx] on. *)
(* os/kernel/src/memory/dram.rs: finalize_available_regions *)
Fixpoint skip_reserved (rs : list Region) (f_start : Z) : list Region :=
  match rs with
  | [] => []
  | r :: rs' => if r_end r <=? f_start then skip_reserved rs' f_start else rs
  end.

(** The scan over the reserved regions that overlap [f]; gives back
    [cur_start] and the output buffer. *)
(* os/kernel/src/memory/dram.rs: finalize_available_regions *)
Fixpoint scan_reserved (f : Region) (cur_start : Z) (rs result : list Region)
    : outcome (Z * list Region) :=
  match rs with
  | [] => Ret (cur_start, result)
  | r :: rs' =>
      if r_end f <=? r_start r then Ret (cur_start, result) else
      result' ← (if cur_start <? r_start r
                 then push_region result cur_start
                        (if r_start r <? r_end f then r_start r else r_end f)
                 else Ret result);
      let cur' := if r_end r >? cur_start
                  then (if r_end r >? r_end f then r_end f else r_end r)
                  else cur_start in
      if r_end f <=? cur' then Ret (cur', result')
      else scan_reserved f cur' rs' result'
  end.

(* os/kernel/src/memory/dram.rs: finalize_available_regions *)
Fixpoint subtract_regions (fs rs result : list Region) : outcome (list Region) :=
  match fs with
  | [] => Ret result
  | f :: fs' =>
      if r_end f <=? r_start f then subtract_regions fs' rs result else
      let rs' := skip_reserved rs (r_start f) in
      '(cur_start, result') ← scan_reserved f (r_start f) rs' result;
      result'' ← (if cur_start <? r_end f then push_region result' cur_start (r_end f)
                  else Ret result');
      subtract_regions fs' rs' result''
  end.

(* [os/kernel/src/memory/dram.rs:166-265] finalize_available_regions *)
Definition finalize_available_regions (s : Dram) : outcome Dram :=
  if dram_finalized s then Panic "available: DRAM regions have already been finalized" else
  result ← subtract_regions (entries (available s)) (entries (reserved s)) [];
  Ret (mkDram (dram_limit s) true (set_of result) (reserved s)).

(* os/kernel/src/memory/dram.rs: finalize_reserved_regions *)
Definition push_reserved (out : list Region) (start end_ : Z) : outcome (list Region) :=
  if decide (MAX_REGIONS <= length out)%nat
  then Panic "reserved: too many regions after finalization"
  else Ret (out ++ [mkRange start end_]).

(* os/kernel/src/memory/dram.rs: finalize_reserved_regions *)
Fixpoint complement_regions (lim : Z) (fs : list Region) (cur : Z) (out : list Region)
    : outcome (Z * list Region) :=
  match fs with
  | [] => Ret (cur, out)
  | f :: fs' =>
      _ ← rust_assert (r_start f <=? r_end f) "start <= end";
      _ ← rust_assert (r_end f <=? lim) "end <= dram_limit";
      out' ← (if cur <? r_start f then push_reserved out cur (r_start f) else Ret out);
      complement_regions lim fs' (if r_end f >? cur then r_end f else cur) out'
  end.

(* [os/kernel/src/memory/dram.rs:269-336] finalize_reserved_regions *)
Definition finalize_reserved_regions (s : Dram) : outcome Dram :=
  if negb (dram_finalized s) then Panic "reserved: DRAM not finalized yet" else
  _ ← rust_assert (bool_decide (count (available s) <= MAX_REGIONS)%nat)
        "reserved: available region count exceeds MAX_REGIONS";
  if dram_limit s =? 0
  then Ret (mkDram (dram_limit s) (dram_finalized s) (available s) (set_of []))
  else
    '(cur, out) ← complement_regions (dram_limit s) (entries (available s)) 0 [];
    out' ← (if cur <? dram_limit s then push_reserved out cur (dram_limit s) else Ret out);
    Ret (mkDram (dram_limit s) (dram_finalized s) (available s) (set_of out')).

(* [os/kernel/src/memory/dram.rs:159-162] finalize *)
Definition finalize (s : Dram) : outcome Dram :=
  s' ← finalize_available_regions s;
  finalize_reserved_regions s'.

(** ** Boot allocation *)

(** [for j in i..i + n { regions[j] = regions[j + 1] }] *)
(* os/kernel/src/memory/dram.rs: boot_alloc *)
Fixpoint shift_left (regions : list Region) (i n : nat) : outcome (list Region) :=
  match n with
  | O => Ret regions
  | S n' =>
      r ← arr_get regions (i + 1);
      regions' ← arr_set regions i r;
      shift_left regions' (S i) n'
  end.

(** The body of the loop for a region that is large enough. *)
(* os/kernel/src/memory/dram.rs: boot_alloc *)
Definition boot_take (set : RegionSet) (i : nat) (region : Region) (byte_len : Z)
    : outcome (RegionSet * range) :=
  alloc_end ← expect (checked_add (r_start region) byte_len) "alloc: physical address overflow";
  start_frame ← expect (from_start_address (r_start region)) "alloc: invalid start frame address";
  end_frame ← expect (from_start_address alloc_end) "alloc: invalid end frame address";
  set' ← (if alloc_end =? r_end region then
            let last := (count set - 1)%nat in
            regions1 ← shift_left (regions set) i (last - i);
            regions2 ← arr_set regions1 last EMPTY_REGION;
            Ret (mkRegionSet last regions2)
          else
            regions1 ← arr_set (regions set) i (mkRange alloc_end (r_end region));
            Ret (mkRegionSet (count set) regions1));
  Ret (set', mkRange start_frame end_frame).

(** [for i in i..i + n]; the debug assertions are those of the (default) debug
    profile. *)
(* os/kernel/src/memory/dram.rs: boot_alloc *)
Fixpoint boot_alloc_loop (set : RegionSet) (byte_len : Z) (i n : nat)
    : outcome (RegionSet * option range) :=
  match n with
  | O => Ret (set, None)
  | S n' =>
      region ← arr_get (regions set) i;
      _ ← rust_assert (r_start region mod PAGE_SIZE =? 0) "start aligned";
      _ ← rust_assert (r_end region mod PAGE_SIZE =? 0) "end aligned";
      _ ← rust_assert (r_start region <? r_end region) "start < end";
      if r_end region - r_start region <? byte_len then boot_alloc_loop set byte_len (S i) n'
      else
        '(set', r) ← boot_take set i region byte_len;
        Ret (set', Some r)
  end.

(* [os/kernel/src/memory/dram.rs:344-406] boot_alloc *)
Definition boot_alloc (s : Dram) (num_frames : Z) : outcome (Dram * option range) :=
  _ ← rust_assert (0 <? num_frames) "alloc: num_frames must be > 0";
  byte_len ← expect (checked_mul num_frames PAGE_SIZE) "alloc: frame count overflow";
  _ ← rust_assert (bool_decide (count (available s) <= MAX_REGIONS)%nat)
        "alloc: available region count exceeds MAX_REGIONS";
  '(set, r) ← boot_alloc_loop (available s) byte_len 0 (count (available s));
  Ret (mkDram (dram_limit s) (dram_finalized s) set (reserved s), r).

(** [get_all_available().iter()] and [get_all_reserved().iter()] *)
(* [os/kernel/src/memory/dram.rs:508-517] get_all_available *)
Definition get_all_available (s : Dram) : outcome (list Region) :=
  if dram_finalized s then Ret (entries (available s))
  else Panic "available: DRAM not finalized yet".

(* [os/kernel/src/memory/dram.rs:497-506] get_all_reserved *)
Definition get_all_reserved (s : Dram) : outcome (list Region) :=
  if dram_finalized s then Ret (entries (reserved s))
  else Panic "available: DRAM not finalized yet".

(* [os/kernel/src/memory/dram.rs:477-483] RegionsGuard::get *)
Definition guard_get (set : RegionSet) (index : nat) : outcome (option Region) :=
  if decide (index < count set)%nat
  then r ← arr_get (regions set) index; Ret (Some r)
  else Ret None.

(* [os/kernel/src/memory/dram.rs:486-493] RegionsGuard::iter *)
Definition guard_iter (set : RegionSet) : outcome (list Region) :=
  if decide (count set <= length (regions set))%nat then Ret (entries set)
  else Panic "slice index out of range".

(** ** Reference definitions

    What the in-place routines compute, on plain lists. *)

Fixpoint insert_sorted (r : Region) (l : list Region) : list Region :=
  match l with
  | [] => [r]
  | x :: l' => if r_start x <? r_start r then x :: insert_sorted r l' else r :: l
  end.

Fixpoint merge_from (cur : Region) (l : list Region) : list Region :=
  match l with
  | [] => [cur]
  | next :: l' =>
      if r_start next <=? r_end cur
      then merge_from (mkRange (r_start cur) (Z.max (r_end cur) (r_end next))) l'
      else cur :: merge_from next l'
  end.

Definition merge (l : list Region) : list Region :=
  match l with
  | [] => []
  | r :: l' => merge_from r l'
  end.

(** Starts ascend from [lo] and no range is reversed. *)
Fixpoint ascending (lo : Z) (l : list Region) : Prop :=
  match l with
  | [] => True
  | r :: l' => lo <= r_start r <= r_end r /\ ascending (r_start r) l'
  end.

(** Number of regions that start strictly between [lo] and [hi]; strictly above
    [lo]. *)
Definition starts_in (lo hi : Z) (rs : list Region) : nat :=
  length (filter (fun r => lo < r_start r < hi) rs).
Definition starts_above (lo : Z) (rs : list Region) : nat :=
  length (filter (fun r => lo < r_start r) rs).

(** First fit on a plain list: the list afterwards and the address taken. *)
Fixpoint take_first (byte_len : Z) (l : list Region) : option (list Region * Z) :=
  match l with
  | [] => None
  | f :: l' =>
      if r_end f - r_start f <? byte_len then
        match take_first byte_len l' with
        | None => None
        | Some (l'', a) => Some (f :: l'', a)
        end
      else Some (if r_start f + byte_len =? r_end f then l'
                 else mkRange (r_start f + byte_len) (r_end f) :: l', r_start f)
  end.

Definition aligned (r : Region) : Prop :=
  r_start r mod PAGE_SIZE = 0 /\ r_end r mod PAGE_SIZE = 0.

(** The frame range as a region of addresses. *)
Definition region_of (r : range) : Region :=
  mkRange (start_address (r_start r)) (start_address (r_end r)).

(** A region array in the form every operation leaves it in: the first
    [count] slots hold the regions, all others are cleared. *)
Definition set_wf (set : RegionSet) : Prop :=
  set = set_of (entries set) /\ (length (entries set) <= MAX_REGIONS)%nat /\
  Forall aligned (entries set).

(** Well-formedness while regions are being collected.  The first page is never
    available. *)
Record dram_wf (s : Dram) : Prop := {
  wf_available : set_wf (available s);
  wf_reserved : set_wf (reserved s);
  wf_available_chain : chain 1 0 (PAGE_SIZE - 1) (entries (available s));
  wf_reserved_chain : chain 1 0 (-1) (entries (reserved s));
  wf_limit : last_end 0 (entries (available s)) <= dram_limit s;
  wf_limit_aligned : dram_limit s mod PAGE_SIZE = 0
}.

(** The available regions are page-aligned, non-empty, disjoint and ascending:
    what boot allocations need, and what finalisation establishes. *)
Record available_wf (g : Z) (s : Dram) : Prop := {
  av_set : set_wf (available s);
  av_chain : chain g 1 (PAGE_SIZE - 1) (entries (available s));
  av_limit : last_end 0 (entries (available s)) <= dram_limit s <= U64_MAX
}.

(** The map after finalisation, the state the frame allocators start from. *)
Record dram_ready (s : Dram) : Prop := {
  rd_finalized : dram_finalized s = true;
  rd_available : available_wf 0 s;
  rd_limit_aligned : dram_limit s mod PAGE_SIZE = 0;
  rd_reserved : set_wf (reserved s);
  rd_reserved_chain : chain 1 1 (-1) (entries (reserved s));
  rd_complement : forall a, covers (entries (reserved s)) a <->
    0 <= a < dram_limit s /\ ~ covers (entries (available s)) a
}.

(** The calls the boot code makes while it walks the firmware's memory map. *)
Inductive insertion :=
| Available (r : range)
| Reserved (r : range).

Definition insert_one (s : Dram) (i : insertion) : outcome Dram :=
  match i with
  | Available r => insert_available s r
  | Reserved r => insert_reserved s r
  end.

Fixpoint insert_all (s : Dram) (ins : list insertion) : outcome Dram :=
  match ins with
  | [] => Ret s
  | i :: ins' => s' ← insert_one s i; insert_all s' ins'
  end.

Definition ranges_of (ins : list insertion) : list range :=
  (fun i => match i with Available r | Reserved r => r end) <$> ins.
Definition available_ranges (ins : list insertion) : list Region :=
  omap (fun i => match i with Available r => Some (region_of r) | Reserved _ => None end) ins.
Definition reserved_ranges (ins : list insertion) : list Region :=
  omap (fun i => match i with Available _ => None | Reserved r => Some (region_of r) end) ins.

Definition valid_range (r : range) : Prop := 0 <= r_start r <= r_end r.

(** ** The in-place routines compute the reference definitions *)

Lemma entries_set_of l : entries (set_of l) = l.
Proof. unfold entries, set_of. simpl. apply take_app_length. Qed.

Lemma set_wf_intro l :
  (length l <= MAX_REGIONS)%nat -> Forall aligned l -> set_wf (set_of l).
Proof. intros. unfold set_wf. by rewrite entries_set_of. Qed.

Lemma find_insert_at_spec (pre l rest : list Region) r n :
  length l = n ->
  exists l1 l2, l = l1 ++ l2 /\ insert_sorted r l = l1 ++ r :: l2 /\
    find_insert_at (pre ++ l ++ rest) (r_start r) (length pre) n
      = Ret (length pre + length l1)%nat.
Proof.
  revert pre n. induction l as [|x l IH]; intros pre n <-; simpl.
  - exists [], []. simpl. rewrite Nat.add_0_r. done.
  - rewrite arr_get_middle by done. outcome_simpl. case_test.
    + destruct (IH (pre ++ [x]) (length l) eq_refl) as (l1 & l2 & -> & Hi & Hf).
      exists (x :: l1), l2. rewrite Hi. split_and!; [done..|].
      rewrite length_app in Hf. simpl in Hf. rewrite Nat.add_1_r in Hf.
      rewrite <- app_assoc in Hf. simpl in Hf. rewrite Hf. simpl. f_equal. lia.
    + exists [], (x :: l). simpl. rewrite Nat.add_0_r. done.
Qed.

Lemma shift_right_spec (pre l rest : list Region) y :
  exists z, shift_right (pre ++ l ++ y :: rest) (length pre) (length l)
    = Ret (pre ++ z :: l ++ rest).
Proof.
  revert y rest. induction l as [|x l IH] using rev_ind; intros y rest; simpl.
  - by exists y.
  - rewrite length_app, Nat.add_1_r. simpl. rewrite <- (app_assoc l). simpl.
    rewrite (app_assoc pre), (arr_get_middle (pre ++ l)) by (by rewrite length_app).
    outcome_simpl.
    replace ((pre ++ l) ++ x :: y :: rest) with (((pre ++ l) ++ [x]) ++ y :: rest)
      by (by rewrite <- app_assoc).
    rewrite arr_set_middle by (rewrite !length_app; simpl; lia). simpl.
    replace (((pre ++ l) ++ [x]) ++ x :: rest) with (pre ++ l ++ x :: (x :: rest))
      by (by rewrite <- !app_assoc).
    destruct (IH x (x :: rest)) as [z Hz]. exists z. rewrite Hz.
    by rewrite <- app_assoc.
Qed.

Lemma merge_in_place_spec (done_ junk todo rest : list Region) cur write read :
  write = length done_ -> read = (S (length done_) + length junk)%nat ->
  exists junk',
    merge_in_place (done_ ++ cur :: junk ++ todo ++ rest) write read (length todo)
      = Ret (done_ ++ merge_from cur todo ++ junk' ++ rest,
             (length done_ + length (merge_from cur todo) - 1)%nat) /\
    (length (merge_from cur todo) + length junk' = S (length junk + length todo))%nat.
Proof.
  revert done_ junk cur write read.
  induction todo as [|next todo IH]; intros done_ junk cur write read -> ->; simpl.
  - exists junk. split; [|lia]. do 3 f_equal. lia.
  - rewrite (arr_get_middle done_ _ _ (length done_)) by done. outcome_simpl.
    replace (done_ ++ cur :: junk ++ next :: todo ++ rest)
      with ((done_ ++ cur :: junk) ++ next :: todo ++ rest) by (by rewrite <- app_assoc).
    rewrite arr_get_middle by (rewrite length_app; simpl; lia). outcome_simpl.
    replace ((done_ ++ cur :: junk) ++ next :: todo ++ rest)
      with (done_ ++ cur :: (junk ++ [next]) ++ todo ++ rest)
      by (by rewrite <- !app_assoc).
    destruct (Z.leb_spec (r_start next) (r_end cur)) as [Hle|Hgt].
    + set (cur' := mkRange (r_start cur) (Z.max (r_end cur) (r_end next))).
      destruct (IH done_ (junk ++ [next]) cur' (length done_) (S (S (length done_ + length junk))))
        as (junk' & Hm & Hl); [done | rewrite length_app; simpl; lia |].
      rewrite length_app in Hl. simpl in Hl. exists junk'. split; [|lia].
      rewrite <- Hm. destruct (Z.gtb_spec (r_end next) (r_end cur)).
      * rewrite arr_set_middle by done. simpl.
        replace cur' with (mkRange (r_start cur) (r_end next)); [done|].
        unfold cur'. f_equal. lia.
      * replace cur' with cur; [done|]. unfold cur'. destruct cur; simpl in *. f_equal. lia.
    + destruct (junk ++ [next]) as [|j k] eqn:Hjk; [by destruct junk|].
      apply (f_equal length) in Hjk. rewrite length_app in Hjk. simpl in Hjk.
      destruct (IH (done_ ++ [cur]) k next (S (length done_)) (S (S (length done_ + length junk))))
        as (junk' & Hm & Hl); [rewrite length_app; simpl; lia.. |].
      exists junk'. simpl in *. split; [|lia].
      replace (done_ ++ cur :: j :: k ++ todo ++ rest)
        with ((done_ ++ [cur]) ++ j :: k ++ todo ++ rest) by (by rewrite <- app_assoc).
      rewrite arr_set_middle by (rewrite length_app; simpl; lia). simpl. rewrite Hm.
      rewrite length_app, <- app_assoc. simpl. do 3 f_equal. lia.
Qed.

Lemma length_insert_sorted r l : length (insert_sorted r l) = S (length l).
Proof. induction l as [|x l IH]; simpl; [done|]. case_test; simpl; by rewrite ?IH. Qed.

Lemma length_merge_from cur l : (1 <= length (merge_from cur l) <= S (length l))%nat.
Proof.
  revert cur. induction l as [|x l IH]; intros cur; simpl; [lia|].
  case_test; simpl; [specialize (IH (mkRange (r_start cur) (Z.max (r_end cur) (r_end x))))
                    |specialize (IH x)]; lia.
Qed.

Lemma length_merge l : (length (merge l) <= length l)%nat.
Proof. destruct l as [|r l]; simpl; [lia|]. apply length_merge_from. Qed.

Lemma clear_slots_spec (l junk rest : list Region) to :
  to = (length l + length junk)%nat ->
  clear_slots (l ++ junk ++ rest) (length l) to
    = Ret (l ++ replicate (length junk) EMPTY_REGION ++ rest).
Proof.
  intros ->. unfold clear_slots. rewrite decide_True by (rewrite !length_app; lia).
  rewrite take_app_length. do 3 f_equal.
  - f_equal. lia.
  - rewrite app_assoc, <- length_app. apply drop_app_length.
Qed.

Lemma insert_region_in_place s l r :
  dram_finalized s = false -> (length l < MAX_REGIONS)%nat ->
  insert_region s (set_of l) r
    = Ret (Z.max (dram_limit s) (start_address (r_end r)),
           set_of (merge (insert_sorted (region_of r) l))).
Proof.
  intros Hf Hl. unfold insert_region. rewrite Hf. simpl.
  rewrite bool_decide_true by lia. outcome_simpl. rewrite decide_False by lia.
  destruct (MAX_REGIONS - length l)%nat as [|m] eqn:Hm; [lia|]. simpl.
  destruct (find_insert_at_spec [] l (EMPTY_REGION :: replicate m EMPTY_REGION) (region_of r)
    (length l) eq_refl) as (l1 & l2 & -> & Hi & Hfind).
  simpl in Hfind. rewrite Hfind. rewrite <- app_assoc, length_app, Nat.add_comm, Nat.add_sub.
  destruct (shift_right_spec l1 l2 (replicate m EMPTY_REGION) EMPTY_REGION) as [z Hz].
  rewrite Hz, arr_set_middle by done. fold (region_of r).
  pose proof (length_insert_sorted (region_of r) (l1 ++ l2)) as Hlen.
  rewrite app_comm_cons, app_assoc, <- Hi.
  destruct (insert_sorted (region_of r) (l1 ++ l2)) as [|x k] eqn:Hx; [by destruct l1|].
  simpl in Hlen. rewrite length_app in Hlen.
  destruct (merge_in_place_spec [] [] k (replicate m EMPTY_REGION) x 0 1 eq_refl eq_refl)
    as (junk & Hmi & Hj). simpl in Hmi, Hj.
  replace (length l2 + length l1)%nat with (length k) by lia. simpl. rewrite Hmi.
  pose proof (length_merge_from x k).
  replace (S (length (merge_from x k) - 1)) with (length (merge_from x k)) by lia.
  rewrite clear_slots_spec by lia. unfold set_of. do 4 f_equal.
  rewrite <- replicate_add. f_equal. rewrite length_app in Hm. lia.
Qed.

(** ** What an insertion does to the covered addresses *)

Lemma chain_ascending lo l : chain 1 0 lo l -> ascending (lo + 1) l.
Proof.
  revert lo. induction l as [|r l IH]; intros lo; simpl; [done|].
  intros (H1 & H2 & H3). split; [lia|]. apply IH in H3.
  destruct l as [|x l]; simpl in *; [done|]. split; [lia | apply H3].
Qed.

Lemma insert_sorted_ascending lo r l :
  ascending lo l -> lo <= r_start r <= r_end r -> ascending lo (insert_sorted r l).
Proof.
  revert lo. induction l as [|x l IH]; intros lo; simpl; [tauto|].
  intros [H1 H2] Hr. case_test; simpl; [|auto with lia].
  split; [lia|]. apply IH; [done|lia].
Qed.

Lemma insert_sorted_covers r l a : covers (insert_sorted r l) a <-> in_range a r \/ covers l a.
Proof.
  induction l as [|x l IH]; simpl; [by rewrite covers_cons|].
  case_test; rewrite !covers_cons, ?IH; tauto.
Qed.

Lemma insert_sorted_Forall (P : Region -> Prop) r l :
  P r -> Forall P l -> Forall P (insert_sorted r l).
Proof.
  intros Hr. induction 1 as [|x l Hx Hl IH]; simpl; [by constructor|].
  case_test; repeat constructor; auto.
Qed.

Lemma merge_from_chain lo cur l :
  lo < r_start cur <= r_end cur -> ascending (r_start cur) l ->
  chain 1 0 lo (merge_from cur l).
Proof.
  revert lo cur. induction l as [|x l IH]; intros lo cur Hc; simpl; [lia|].
  intros [H1 H2]. case_test.
  - apply IH; simpl; [lia|]. destruct l; simpl in *; [done|]. split; [lia|apply H2].
  - simpl. split_and!; [lia..|]. apply IH; [lia|done].
Qed.

Lemma merge_from_covers cur l a :
  r_start cur <= r_end cur -> ascending (r_start cur) l ->
  covers (merge_from cur l) a <-> in_range a cur \/ covers l a.
Proof.
  revert cur. induction l as [|x l IH]; intros cur Hc; simpl; [by rewrite covers_cons|].
  intros [H1 H2]. case_test.
  - rewrite IH; simpl; [|lia|].
    + assert (Hu : in_range a (mkRange (r_start cur) (Z.max (r_end cur) (r_end x)))
                   <-> in_range a cur \/ in_range a x) by (unfold in_range; simpl; lia).
      rewrite covers_cons, Hu. tauto.
    + destruct l; simpl in *; [done|]. split; [lia|apply H2].
  - rewrite !covers_cons, IH by (lia || done). tauto.
Qed.

Lemma merge_from_aligned cur l :
  aligned cur -> Forall aligned l -> Forall aligned (merge_from cur l).
Proof.
  intros Hc Hl. revert cur Hc. induction Hl as [|x l Hx Hl IH]; intros cur Hc; simpl.
  - by constructor.
  - case_test; [|constructor; auto]. apply IH. unfold aligned in *. simpl.
    destruct (Z.max_spec (r_end cur) (r_end x)) as [[_ ->] | [_ ->]]; tauto.
Qed.

Lemma merge_from_nonempty cur l :
  nonempty cur -> Forall nonempty l -> Forall nonempty (merge_from cur l).
Proof.
  intros Hc Hl. revert cur Hc. induction Hl as [|x l Hx Hl IH]; intros cur Hc; simpl.
  - by constructor.
  - case_test; [|constructor; auto]. apply IH. unfold nonempty in *. simpl. lia.
Qed.

Lemma merge_from_last_end lo cur l M :
  r_end cur <= M -> Forall (fun r => r_end r <= M) l -> last_end lo (merge_from cur l) <= M.
Proof.
  intros Hc Hl. revert lo cur Hc. induction Hl as [|x l Hx Hl IH]; intros lo cur Hc; simpl; [done|].
  case_test; simpl; apply IH; simpl; lia.
Qed.

Lemma region_of_aligned r : aligned (region_of r).
Proof. unfold aligned, region_of, start_address. simpl. by rewrite !Z.mod_mul. Qed.

(** One insertion into a well-formed array: no panic, still well-formed, and
    exactly the addresses of the new region are added. *)
Lemma insert_region_spec s set lo r :
  dram_finalized s = false -> set_wf set -> (length (entries set) < MAX_REGIONS)%nat ->
  chain 1 0 lo (entries set) -> r_start r <= r_end r -> lo < start_address (r_start r) ->
  exists set', insert_region s set r
      = Ret (Z.max (dram_limit s) (start_address (r_end r)), set') /\
    set_wf set' /\ chain 1 0 lo (entries set') /\
    (forall a, covers (entries set') a <-> in_range a (region_of r) \/ covers (entries set) a) /\
    (forall lo' M, last_end lo' (entries set) <= M -> start_address (r_end r) <= M ->
       last_end lo' (entries set') <= M) /\
    (nonempty r -> Forall nonempty (entries set) -> Forall nonempty (entries set')) /\
    (length (entries set') <= S (length (entries set)))%nat.
Proof.
  intros Hf (Heq & Hlen & Hal) Hlt Hch Hr Hlo. set (l := entries set) in *.
  rewrite Heq, insert_region_in_place by done.
  eexists. split; [done|]. rewrite !entries_set_of.
  assert (Hr' : lo + 1 <= r_start (region_of r) <= r_end (region_of r)).
  { unfold region_of, start_address, PAGE_SIZE in *. simpl. lia. }
  pose proof (insert_sorted_ascending _ _ _ (chain_ascending _ _ Hch) Hr') as Hasc.
  pose proof (insert_sorted_Forall aligned (region_of r) l (region_of_aligned r) Hal) as Hal'.
  pose proof (insert_sorted_covers (region_of r) l) as Hcov.
  pose proof (length_insert_sorted (region_of r) l) as Hil.
  pose proof (length_merge (insert_sorted (region_of r) l)) as Hml.
  assert (HM : forall lo' M, last_end lo' l <= M -> start_address (r_end r) <= M ->
     Forall (fun x => r_end x <= M) (insert_sorted (region_of r) l)).
  { intros lo' M HM1 HM2. apply insert_sorted_Forall; [done|]. apply Forall_forall. intros x Hx.
    transitivity (last_end lo' l); [|done]. destruct l as [|y l']; [by apply elem_of_nil in Hx|].
    by apply (chain_elem 1 0 lo (y :: l')); [lia..| |]. }
  assert (Hne : nonempty r -> Forall nonempty l -> Forall nonempty (insert_sorted (region_of r) l)).
  { intros Hr1. apply insert_sorted_Forall. unfold nonempty, region_of, start_address, PAGE_SIZE in *.
    simpl. lia. }
  destruct (insert_sorted (region_of r) l) as [|x k] eqn:Hx; [by destruct l|].
  simpl in Hasc, Hml, Hil, HM. simpl merge. inversion_clear Hal' as [|? ? Hal1 Hal2].
  split_and!.
  - apply set_wf_intro; [simpl; lia|]. by apply merge_from_aligned.
  - apply merge_from_chain; [lia|apply Hasc].
  - intros a. rewrite <- Hcov, merge_from_covers, covers_cons; [done|lia|apply Hasc].
  - intros lo' M HM1 HM2. specialize (HM lo' M HM1 HM2). inversion_clear HM.
    by apply merge_from_last_end.
  - intros Hr1 Hl1. specialize (Hne Hr1 Hl1). apply Forall_cons in Hne as [Hne1 Hne2].
    by apply merge_from_nonempty.
  - simpl. lia.
Qed.

(** ** Subtracting the reserved regions *)

Lemma skip_reserved_chain g lo rs x :
  0 <= g -> chain 1 g lo rs -> chain 1 g lo (skip_reserved rs x).
Proof.
  intros Hg. revert lo. induction rs as [|r rs IH]; intros lo; simpl; [done|].
  intros (H1 & H2 & H3). case_test; [|simpl; auto].
  apply IH. eapply chain_weaken; [..|exact H3]; lia.
Qed.

Lemma skip_reserved_covers rs x a :
  x <= a -> covers (skip_reserved rs x) a <-> covers rs a.
Proof.
  intros Ha. induction rs as [|r rs IH]; simpl; [done|].
  case_test; [|done]. rewrite IH, covers_cons. unfold in_range. intuition lia.
Qed.

Lemma starts_in_cons lo hi r rs :
  starts_in lo hi (r :: rs)
    = ((if decide (lo < r_start r < hi)%Z then 1 else 0) + starts_in lo hi rs)%nat.
Proof. unfold starts_in. rewrite filter_cons. by case_decide. Qed.

Lemma starts_above_cons lo r rs :
  starts_above lo (r :: rs)
    = ((if decide (lo < r_start r)%Z then 1 else 0) + starts_above lo rs)%nat.
Proof. unfold starts_above. rewrite filter_cons. by case_decide. Qed.

Lemma starts_in_mono lo lo' hi rs :
  lo <= lo' -> (starts_in lo' hi rs <= starts_in lo hi rs)%nat.
Proof.
  intros H. induction rs as [|r rs IH]; [done|].
  rewrite !starts_in_cons. repeat case_decide; lia.
Qed.

Lemma starts_in_above lo mid rs :
  lo <= mid -> (starts_in lo mid rs + starts_above mid rs <= starts_above lo rs)%nat.
Proof.
  intros H. induction rs as [|r rs IH]; [done|].
  rewrite starts_in_cons, !starts_above_cons. repeat case_decide; lia.
Qed.

Lemma starts_above_skip lo x rs :
  (starts_above lo (skip_reserved rs x) <= starts_above lo rs)%nat.
Proof.
  induction rs as [|r rs IH]; simpl; [done|].
  rewrite starts_above_cons. case_test; [lia|]. rewrite starts_above_cons. lia.
Qed.

Lemma push_region_ok result start end_ :
  start < end_ -> (length result < MAX_REGIONS)%nat ->
  push_region result start end_ = Ret (result ++ [mkRange start end_]).
Proof.
  intros H1 H2. unfold push_region. rewrite (proj2 (Z.leb_gt _ _)) by done.
  by rewrite decide_False by lia.
Qed.

(** One reserved region [r] that starts before the end of [f]: the gap before it
    is emitted and [cur] moves behind it. *)
Lemma scan_step_spec g lo f cur r :
  0 <= g <= 1 -> r_start r + g <= r_end r -> lo + g <= cur < r_end f -> r_start r < r_end f ->
  let emit := if cur <? r_start r then [mkRange cur (r_start r)] else [] in
  let cur' := if r_end r >? cur
              then (if r_end r >? r_end f then r_end f else r_end r) else cur in
  cur <= cur' <= r_end f /\ chain g 1 lo emit /\ last_end lo emit <= r_end f /\
  (cur' < r_end f -> last_end lo emit + g <= cur') /\
  (forall a, covers emit a <-> cur <= a < cur' /\ ~ in_range a r) /\
  (forall a, cur' <= a < r_end f -> ~ in_range a r) /\
  (forall a, r_end r < a -> cur <= a -> cur' <= a).
Proof.
  intros Hg Hr Hc Hs. unfold in_range.
  destruct (Z.ltb_spec cur (r_start r)), (Z.gtb_spec (r_end r) cur),
    (Z.gtb_spec (r_end r) (r_end f)); simpl; split_and!; try lia;
    intros a; rewrite ?covers_cons, ?covers_nil; unfold in_range; simpl; lia.
Qed.

Lemma split_at_cur (cur mid cur' a : Z) (P Q : Prop) :
  (cur <= a < mid -> ~ Q) -> (mid <= a < cur' -> ~ P) -> cur <= mid <= cur' ->
  (cur <= a < mid /\ ~ P) \/ (mid <= a < cur' /\ ~ Q) <-> cur <= a < cur' /\ ~ (P \/ Q).
Proof.
  intros HQ HP Hm. destruct (Z.lt_ge_cases a mid); split.
  - intros [[? ?] | [? _]]; [|lia]. split; [lia|]. intros [|]; [done|]. by apply HQ.
  - intros [? Hn]. left. split; [lia|]. auto.
  - intros [[? _] | [? ?]]; [lia|]. split; [lia|]. intros [|]; [|done]. by apply HP.
  - intros [? Hn]. right. split; [lia|]. auto.
Qed.

(** The scan emits, from [cur] on, the part of [f] that no reserved region
    covers, up to the [cur'] it returns; from [cur'] to the end of [f] nothing
    is reserved. *)
Lemma scan_reserved_spec g lo lo' f cur rs result :
  0 <= g <= 1 -> chain 1 g lo' rs -> lo + g <= cur -> cur < r_end f ->
  (length result + starts_in cur (r_end f) rs <= MAX_REGIONS)%nat ->
  exists cur' new, scan_reserved f cur rs result = Ret (cur', result ++ new) /\
    cur <= cur' <= r_end f /\ chain g 1 lo new /\ last_end lo new <= r_end f /\
    (cur' < r_end f -> last_end lo new + g <= cur') /\
    (length new <= starts_in cur (r_end f) rs)%nat /\
    (forall a, covers new a <-> cur <= a < cur' /\ ~ covers rs a) /\
    (forall a, cur' <= a < r_end f -> ~ covers rs a).
Proof.
  intros Hg. revert lo lo' cur result.
  induction rs as [|r rs IH]; intros lo lo' cur result Hch Hlo Hcur Hlen; simpl.
  { exists cur, []. rewrite app_nil_r. simpl. split_and!; try done; try lia.
    - intros a. split; [by intros ?%covers_nil | intros [? _]; lia].
    - intros a _. by intros ?%covers_nil. }
  destruct Hch as (H1 & H2 & H3).
  assert (Hge : forall a, covers rs a -> r_end r < a).
  { intros a Ha. apply (chain_lower 1 g _ _ _ ltac:(lia) ltac:(lia) H3) in Ha. lia. }
  destruct (Z.leb_spec (r_end f) (r_start r)) as [Hout|Hin].
  { exists cur, []. rewrite app_nil_r. simpl. split_and!; try done; try lia.
    - intros a. split; [by intros ?%covers_nil | intros [? _]; lia].
    - intros a Ha. rewrite covers_cons. unfold in_range.
      intros [? | ?%Hge]; lia. }
  destruct (scan_step_spec g lo f cur r) as (S1 & S2 & S3 & S4 & S5 & S6 & S7); [lia..|].
  set (emit := if cur <? r_start r then [mkRange cur (r_start r)] else []) in *.
  set (cur1 := if r_end r >? cur then _ else cur) in *. cbv zeta in *.
  assert (Hemit : (length emit + starts_in cur (r_end f) rs
                   <= starts_in cur (r_end f) (r :: rs))%nat).
  { rewrite starts_in_cons. unfold emit. case_test; case_decide; simpl; lia. }
  assert (Hpush : (if cur <? r_start r
                   then push_region result cur
                          (if r_start r <? r_end f then r_start r else r_end f)
                   else Ret result) = Ret (result ++ emit)).
  { rewrite (proj2 (Z.ltb_lt _ _) Hin). unfold emit.
    destruct (Z.ltb_spec cur (r_start r)); [|by rewrite app_nil_r].
    apply push_region_ok; [done|]. simpl in Hemit. lia. }
  rewrite Hpush. outcome_simpl. destruct (Z.leb_spec (r_end f) cur1).
  - exists cur1, emit. split_and!; try done; try lia.
    + intros a. rewrite S5, covers_cons. specialize (Hge a). specialize (S7 a). intuition lia.
  - destruct (IH (last_end lo emit) (r_end r) cur1 (result ++ emit))
      as (cur' & new & Hscan & T1 & T2 & T3 & T4 & T5 & T6 & T7); [done|lia..| |].
    { rewrite length_app. pose proof (starts_in_mono cur cur1 (r_end f) rs). lia. }
    exists cur', (emit ++ new). rewrite Hscan, app_assoc, last_end_app, length_app, chain_app.
    pose proof (starts_in_mono cur cur1 (r_end f) rs).
    split_and!; try done; try lia.
    + intros a. rewrite covers_app, S5, T6, covers_cons. apply split_at_cur.
      * intros ? Hc%Hge. specialize (S7 a). lia.
      * intros ?. apply S6. lia.
      * lia.
    + intros a Ha [Hc|Hc]%covers_cons; [by apply (S6 a); [lia|]|by apply (T7 a)].
Qed.

(** One available region: scan and tail together emit [f] minus the reserved
    regions. *)
Lemma subtract_one_spec g lo lo' f rs result :
  0 <= g <= 1 -> chain 1 g lo' rs -> lo + 1 <= r_start f < r_end f ->
  (length result + starts_in (r_start f) (r_end f) rs < MAX_REGIONS)%nat ->
  exists cur' new tail, scan_reserved f (r_start f) rs result = Ret (cur', result ++ new) /\
    (if cur' <? r_end f then push_region (result ++ new) cur' (r_end f) else Ret (result ++ new))
      = Ret (result ++ new ++ tail) /\
    chain g 1 lo (new ++ tail) /\ last_end lo (new ++ tail) <= r_end f /\
    (length (new ++ tail) <= 1 + starts_in (r_start f) (r_end f) rs)%nat /\
    (forall a, covers (new ++ tail) a <-> in_range a f /\ ~ covers rs a).
Proof.
  intros Hg Hrs Hf Hlen.
  destruct (scan_reserved_spec g lo lo' f (r_start f) rs result)
    as (cur' & new & Hscan & T1 & T2 & T3 & T4 & T5 & T6 & T7); [done..|lia|lia|lia|].
  exists cur', new, (if cur' <? r_end f then [mkRange cur' (r_end f)] else []).
  split; [done|]. destruct (Z.ltb_spec cur' (r_end f)) as [Hlt|Hge].
  - rewrite push_region_ok by (rewrite ?length_app; lia).
    rewrite app_assoc, chain_app, last_end_app, length_app. simpl. split_and!; try done; try lia.
    intros a. rewrite covers_app, T6, covers_cons, covers_nil. specialize (T7 a).
    unfold in_range in *. simpl. destruct (Z.lt_ge_cases a cur'); intuition lia.
  - rewrite app_nil_r. split_and!; try done; try lia.
    intros a. rewrite T6. unfold in_range. replace cur' with (r_end f) by lia. done.
Qed.

(** The whole subtraction.  With [g = 1] (no empty reserved region) the result
    is even free of touching regions. *)
Lemma subtract_regions_spec g lo lo' fs rs result :
  0 <= g <= 1 -> chain 1 0 lo fs -> chain 1 g lo' rs ->
  (length result + length fs + starts_above lo rs <= MAX_REGIONS)%nat ->
  exists new, subtract_regions fs rs result = Ret (result ++ new) /\
    chain g 1 lo new /\ last_end lo new <= last_end lo fs /\
    (length new <= length fs + starts_above lo rs)%nat /\
    (forall a, covers new a <-> covers fs a /\ ~ covers rs a).
Proof.
  intros Hg. revert lo rs result.
  induction fs as [|f fs IH]; intros lo rs result Hfs Hrs Hlen; simpl.
  { exists []. rewrite app_nil_r. split_and!; try done; simpl; try lia.
    intros a. split; [by intros ?%covers_nil | by intros [?%covers_nil _]]. }
  destruct Hfs as (H1 & H2 & H3). simpl in Hlen.
  assert (Hmono : (starts_above (r_end f) rs <= starts_above lo rs)%nat).
  { pose proof (starts_in_above lo (r_end f) rs). lia. }
  destruct (Z.leb_spec (r_end f) (r_start f)).
  { destruct (IH (r_end f) rs result) as (new & Hnew & C1 & C2 & C3 & C4); [done..|lia|].
    exists new. rewrite Hnew. split_and!; try done; try lia.
    - eapply chain_weaken; [..|exact C1]; lia.
    - transitivity (last_end (r_end f) new); [apply last_end_mono; lia | done].
    - intros a. rewrite C4, covers_cons. unfold in_range. intuition lia. }
  set (rs' := skip_reserved rs (r_start f)).
  pose proof (starts_above_skip lo (r_start f) rs) as Hsk. fold rs' in Hsk.
  pose proof (starts_in_above lo (r_start f) rs' ltac:(lia)).
  pose proof (starts_in_above (r_start f) (r_end f) rs' ltac:(lia)).
  assert (Hrs' : chain 1 g lo' rs') by (apply skip_reserved_chain; [lia|done]).
  destruct (subtract_one_spec g lo lo' f rs' result)
    as (cur' & new & tail & Hscan & Hpush & C1 & C2 & C3 & C4); [done..|lia|lia|].
  rewrite Hscan. outcome_simpl. rewrite Hpush.
  set (n1 := new ++ tail) in *. clearbody n1.
  destruct (IH (r_end f) rs' (result ++ n1))
    as (new2 & Hnew2 & D1 & D2 & D3 & D4); [done..|rewrite length_app; lia|].
  exists (n1 ++ new2). rewrite Hnew2, chain_app, last_end_app, length_app.
  split_and!; try done; try lia.
  - by rewrite <- app_assoc.
  - eapply chain_weaken; [..|exact D1]; lia.
  - transitivity (last_end (r_end f) new2); [apply last_end_mono; lia | done].
  - intros a. rewrite covers_app, C4, D4, covers_cons.
    assert (Hf : covers fs a -> r_start f <= a).
    { intros Ha. apply (chain_lower 1 0 _ _ _ ltac:(lia) ltac:(lia) H3) in Ha. lia. }
    pose proof (skip_reserved_covers rs (r_start f) a) as Hskc. fold rs' in Hskc.
    unfold in_range in *. destruct (Z.le_gt_cases (r_start f) a); [|intuition lia].
    rewrite Hskc by done. intuition lia.
Qed.

Lemma push_region_aligned result start end_ out :
  push_region result start end_ = Ret out -> aligned (mkRange start end_) ->
  Forall aligned result -> Forall aligned out.
Proof.
  unfold push_region. intros H Ha Hr. repeat case_test_in H; simplify_eq; [done|].
  apply Forall_app. auto.
Qed.

Lemma scan_reserved_aligned f cur rs result cur' out :
  scan_reserved f cur rs result = Ret (cur', out) -> aligned f -> cur mod PAGE_SIZE = 0 ->
  Forall aligned rs -> Forall aligned result -> Forall aligned out /\ cur' mod PAGE_SIZE = 0.
Proof.
  intros H Hf Hcur Hrs. revert cur result H Hcur.
  induction Hrs as [|r rs Hr Hrs IH]; simpl; intros cur result H Hcur Hres; [by simplify_eq|].
  destruct Hf as [Hf1 Hf2], Hr as [Hr1 Hr2].
  destruct (Z.leb_spec (r_end f) (r_start r)); [by simplify_eq|].
  inv_bind H.
  assert (Ha : Forall aligned a).
  { case_test_in E; [|by simplify_eq]. eapply push_region_aligned; [exact E|..|done].
    split; [done|]. simpl. by case_test. }
  set (c := if r_end r >? cur then _ else cur) in *.
  assert (Hc : c mod PAGE_SIZE = 0) by (unfold c; by repeat case_test).
  case_test_in H; [by simplify_eq|]. by apply (IH c a).
Qed.

Lemma skip_reserved_Forall (P : Region -> Prop) rs x :
  Forall P rs -> Forall P (skip_reserved rs x).
Proof. induction 1; simpl; [done|]. case_test; [done|]. by constructor. Qed.

Lemma subtract_regions_aligned fs rs result out :
  subtract_regions fs rs result = Ret out ->
  Forall aligned fs -> Forall aligned rs -> Forall aligned result -> Forall aligned out.
Proof.
  intros H Hfs. revert rs result H.
  induction Hfs as [|f fs Hf Hfs IH]; simpl; intros rs result H Hrs Hres; [by simplify_eq|].
  case_test_in H; [by eapply IH|].
  inv_bind H. destruct a as [cur' res1]. inv_bind H.
  eapply scan_reserved_aligned in E as [Hr Hc]; [|done|apply Hf|by apply skip_reserved_Forall|done].
  eapply IH; [exact H|by apply skip_reserved_Forall|].
  case_test_in E0; [|by simplify_eq]. eapply push_region_aligned; [exact E0|..|done].
  split; [done|apply Hf].
Qed.

Lemma push_reserved_ok out start end_ :
  (length out < MAX_REGIONS)%nat -> push_reserved out start end_ = Ret (out ++ [mkRange start end_]).
Proof. intros H. unfold push_reserved. by rewrite decide_False by lia. Qed.

(** The gaps between the available regions, from [cur] up to the end of the
    last one. *)
Lemma complement_regions_spec lim lo fs cur out :
  chain 0 1 cur fs -> lo < cur -> last_end cur fs <= lim ->
  (length out + length fs <= MAX_REGIONS)%nat ->
  exists new, complement_regions lim fs cur out = Ret (last_end cur fs, out ++ new) /\
    chain 1 1 lo new /\ last_end lo new < last_end cur fs /\ (length new <= length fs)%nat /\
    (forall a, covers new a <-> cur <= a < last_end cur fs /\ ~ covers fs a).
Proof.
  revert lo cur out. induction fs as [|f fs IH]; intros lo cur out Hch Hlo Hlim Hlen; simpl in *.
  { exists []. rewrite app_nil_r. split_and!; try done.
    intros a. split; [by intros ?%covers_nil | intros [? _]; lia]. }
  destruct Hch as (H1 & H2 & H3).
  pose proof (chain_last_end 0 1 _ _ ltac:(lia) ltac:(lia) H3) as Hle.
  rewrite (proj2 (Z.leb_le _ _)) by lia. rewrite (proj2 (Z.leb_le _ _)) by lia. simpl.
  rewrite (proj2 (Z.gtb_lt _ _)) by lia.
  set (emit := if cur <? r_start f then [mkRange cur (r_start f)] else []).
  assert (Hpush : (if cur <? r_start f then push_reserved out cur (r_start f) else Ret out)
                  = Ret (out ++ emit)).
  { unfold emit. case_test; [by apply push_reserved_ok; lia | by rewrite app_nil_r]. }
  assert (Hemit : chain 1 1 lo emit /\ last_end lo emit < r_end f /\ (length emit <= 1)%nat /\
                  forall a, covers emit a <-> cur <= a < r_start f).
  { unfold emit. case_test; simpl; split_and!; try lia; intros a;
      rewrite ?covers_cons, covers_nil; unfold in_range; simpl; lia. }
  clearbody emit. destruct Hemit as (E1 & E2 & E3 & E4).
  rewrite Hpush. outcome_simpl.
  destruct (IH (last_end lo emit) (r_end f) (out ++ emit)) as (new & Hn & N1 & N2 & N3 & N4);
    [done|lia|done|rewrite length_app; lia|].
  exists (emit ++ new). rewrite Hn, chain_app, last_end_app, length_app, app_assoc.
  split_and!; try done; try lia.
  intros a. rewrite covers_app, E4, N4, covers_cons. unfold in_range.
  assert (Hup : covers fs a -> r_end f <= a).
  { intros Ha. apply (chain_lower 0 1 _ _ _ ltac:(lia) ltac:(lia) H3) in Ha. lia. }
  destruct (Z.lt_ge_cases a (r_end f)); intuition lia.
Qed.

(** ** Boot allocation *)

Lemma shift_left_spec (pre l rest : list Region) x i :
  i = length pre ->
  exists y, shift_left (pre ++ x :: l ++ rest) i (length l) = Ret (pre ++ l ++ y :: rest).
Proof.
  revert pre x i. induction l as [|z l IH]; intros pre x i ->; simpl; [by exists x|].
  replace (pre ++ x :: z :: l ++ rest) with ((pre ++ [x]) ++ z :: l ++ rest)
    by (by rewrite <- app_assoc).
  rewrite arr_get_middle by (rewrite length_app; simpl; lia). outcome_simpl.
  rewrite <- app_assoc. simpl. rewrite arr_set_middle by done.
  destruct (IH (pre ++ [z]) z (S (length pre))) as [y Hy]; [rewrite length_app; simpl; lia|].
  exists y. rewrite <- !app_assoc in Hy. simpl in Hy. done.
Qed.

Lemma from_start_address_ok a :
  a mod PAGE_SIZE = 0 -> from_start_address a = Some (a / PAGE_SIZE).
Proof. intros H. unfold from_start_address. by rewrite H. Qed.

Lemma boot_take_spec pre f l n :
  aligned f -> r_end f <= U64_MAX -> n * PAGE_SIZE <= r_end f - r_start f ->
  (length (pre ++ f :: l) <= MAX_REGIONS)%nat ->
  let stop := r_start f + n * PAGE_SIZE in
  boot_take (set_of (pre ++ f :: l)) (length pre) f (n * PAGE_SIZE)
    = Ret (set_of (pre ++ (if stop =? r_end f then l else mkRange stop (r_end f) :: l)),
           mkRange (r_start f / PAGE_SIZE) (r_start f / PAGE_SIZE + n)).
Proof.
  intros [Ha1 Ha2] Hmax Hfit Hlen stop.
  assert (Hstop : stop mod PAGE_SIZE = 0) by (unfold stop; by rewrite Z.mod_add).
  unfold boot_take, checked_add. fold stop. rewrite (proj2 (Z.leb_le _ _)) by lia. simpl.
  rewrite !from_start_address_ok by done. simpl.
  replace (stop / PAGE_SIZE) with (r_start f / PAGE_SIZE + n)
    by (unfold stop; by rewrite Z.div_add).
  rewrite length_app in *. simpl in *. case_test.
  - replace (length pre + S (length l) - 1 - length pre)%nat with (length l) by lia.
    rewrite <- app_assoc. simpl.
    destruct (shift_left_spec pre l (replicate (MAX_REGIONS - (length pre + S (length l))) EMPTY_REGION)
                f (length pre) eq_refl) as [y Hy].
    rewrite Hy. simpl. rewrite app_assoc, arr_set_middle by (rewrite length_app; lia). simpl.
    unfold set_of. rewrite length_app. do 4 f_equal; [lia|].
    replace (MAX_REGIONS - (length pre + length l))%nat
      with (S (MAX_REGIONS - (length pre + S (length l)))) by lia. done.
  - rewrite <- app_assoc. simpl. rewrite arr_set_middle by done. simpl.
    unfold set_of. rewrite !length_app, <- app_assoc. done.
Qed.

Lemma boot_alloc_loop_spec lo n pre l :
  0 < n -> chain 0 1 lo l -> last_end lo l <= U64_MAX -> Forall aligned l ->
  (length (pre ++ l) <= MAX_REGIONS)%nat ->
  boot_alloc_loop (set_of (pre ++ l)) (n * PAGE_SIZE) (length pre) (length l)
    = Ret (match take_first (n * PAGE_SIZE) l with
           | None => (set_of (pre ++ l), None)
           | Some (l', a) => (set_of (pre ++ l'), Some (mkRange (a / PAGE_SIZE) (a / PAGE_SIZE + n)))
           end).
Proof.
  intros Hn. revert lo pre. induction l as [|f l IH]; intros lo pre Hch Hmax Hal Hlen; simpl; [done|].
  destruct Hch as (H1 & H2 & H3). inversion_clear Hal as [|? ? Haf Hal'].
  rewrite <- app_assoc. simpl. rewrite arr_get_middle by done. outcome_simpl.
  destruct Haf as [Ha1 Ha2]. rewrite Ha1, Ha2. simpl.
  rewrite (proj2 (Z.ltb_lt _ _)) by lia. simpl.
  pose proof (chain_last_end 0 1 _ _ ltac:(lia) ltac:(lia) H3).
  destruct (Z.ltb_spec (r_end f - r_start f) (n * PAGE_SIZE)).
  - specialize (IH (r_end f) (pre ++ [f])). rewrite <- app_assoc in IH. simpl in IH.
    replace (length (pre ++ [f])) with (S (length pre)) in IH by (rewrite length_app; simpl; lia).
    rewrite IH by (done || lia).
    destruct (take_first _ l) as [[l' a]|]; [|done]. by rewrite <- app_assoc.
  - rewrite boot_take_spec by (done || lia). done.
Qed.

Lemma take_first_None bl l :
  take_first bl l = None <-> Forall (fun r => range_len r < bl) l.
Proof.
  unfold range_len. induction l as [|f l IH]; simpl; [by split|].
  rewrite Forall_cons. case_test; [|split; [done|lia]].
  rewrite <- IH. destruct (take_first bl l) as [[??]|]; by intuition.
Qed.

Lemma take_first_Some g bl lo l l' a :
  0 <= g -> 0 < bl -> chain g 1 lo l -> take_first bl l = Some (l', a) ->
  chain g 1 lo l' /\ last_end lo l' <= last_end lo l /\ (length l' <= length l)%nat /\
  (forall x, a <= x < a + bl -> covers l x) /\
  (forall x, covers l' x <-> covers l x /\ ~ a <= x < a + bl).
Proof.
  intros Hg Hbl. revert lo l'. induction l as [|f l IH]; intros lo l'; simpl; [done|].
  intros (H1 & H2 & H3). case_test.
  - destruct (take_first bl l) as [[k b]|] eqn:Ht; [|done]. intros [= <- <-].
    destruct (IH _ _ H3 eq_refl) as (I1 & I2 & I3 & I4 & I5). simpl.
    split_and!; try done; try lia.
    + intros x Hx. apply covers_cons. auto.
    + intros x. rewrite !covers_cons, I5.
      assert (b <= x < b + bl -> ~ in_range x f).
      { intros Hx Hf. apply I4 in Hx.
        apply (chain_lower g 1 _ _ _ ltac:(lia) ltac:(lia) H3) in Hx. unfold in_range in Hf. lia. }
      tauto.
  - intros [= <- <-].
    assert (Hlow : forall x, covers l x -> r_end f <= x).
    { intros x Hx. apply (chain_lower g 1 _ _ _ ltac:(lia) ltac:(lia) H3) in Hx. lia. }
    pose proof (chain_last_end g 1 _ _ ltac:(lia) ltac:(lia) H3).
    split_and!.
    + case_test; simpl; [|split_and!; try done; lia]. eapply chain_weaken; [..|exact H3]; lia.
    + case_test; simpl; [apply last_end_mono|]; lia.
    + case_test; simpl; lia.
    + intros x Hx. apply covers_cons. left. unfold in_range. lia.
    + intros x. specialize (Hlow x). case_test; rewrite ?covers_cons; unfold in_range; simpl;
        intuition lia.
Qed.

Lemma take_first_aligned bl l l' a :
  bl mod PAGE_SIZE = 0 -> Forall aligned l -> take_first bl l = Some (l', a) ->
  Forall aligned l' /\ a mod PAGE_SIZE = 0.
Proof.
  intros Hbl Hal. revert l'. induction Hal as [|f l Hf Hl IH]; intros l'; simpl; [done|].
  case_test.
  - destruct (take_first bl l) as [[k b]|]; [|done]. intros [= <- <-].
    destruct (IH k eq_refl). split; [by constructor|done].
  - intros [= <- <-]. destruct Hf as [Hf1 Hf2]. split; [|done].
    case_test; [done|]. constructor; [|done]. split; simpl; [|done].
    by rewrite Z.add_mod, Hf1, Hbl by done.
Qed.

Lemma boot_alloc_spec s g n :
  available_wf g s -> 0 <= g <= 1 -> 0 < n -> n * PAGE_SIZE <= U64_MAX ->
  exists s' o, boot_alloc s n = Ret (s', o) /\ available_wf g s' /\ reserved s' = reserved s /\
    dram_limit s' = dram_limit s /\ dram_finalized s' = dram_finalized s /\
    (length (entries (available s')) <= length (entries (available s)))%nat /\
    match o with
    | None => s' = s /\ Forall (fun r => range_len r < n * PAGE_SIZE) (entries (available s))
    | Some fr =>
        range_len fr = n /\
        (forall a, in_range a (region_of fr) -> covers (entries (available s)) a) /\
        (forall a, covers (entries (available s')) a <->
           covers (entries (available s)) a /\ ~ in_range a (region_of fr))
    end.
Proof.
  intros [(Req & Rlen & Ral) Rch Rlim] Hg Hn Hmax. unfold boot_alloc.
  rewrite (proj2 (Z.ltb_lt _ _)) by done. unfold checked_mul.
  rewrite (proj2 (Z.leb_le _ _)) by done. simpl.
  set (l := entries (available s)) in *.
  rewrite Req. simpl. rewrite bool_decide_true by done. simpl.
  assert (Hle : last_end (PAGE_SIZE - 1) l <= U64_MAX) by (destruct l; [done|simpl in *; lia]).
  assert (Rch0 : chain 0 1 (PAGE_SIZE - 1) l) by (eapply chain_weaken; [..|exact Rch]; lia).
  pose proof (boot_alloc_loop_spec (PAGE_SIZE - 1) n [] l Hn Rch0 Hle Ral Rlen) as Hloop.
  simpl in Hloop. rewrite Hloop. outcome_simpl.
  destruct (take_first (n * PAGE_SIZE) l) as [[l' a]|] eqn:Ht; simpl.
  - pose proof (take_first_aligned _ _ _ _ (Z.mod_mul n PAGE_SIZE ltac:(done)) Ral Ht) as [Hal Ha].
    assert (Hbl : 0 < n * PAGE_SIZE) by (unfold PAGE_SIZE; lia).
    apply (take_first_Some g _ _ _ _ _ ltac:(lia) Hbl Rch) in Ht as (T1 & T2 & T3 & T4 & T5).
    assert (Hreg : forall x, in_range x (region_of (mkRange (a / PAGE_SIZE) (a / PAGE_SIZE + n)))
                     <-> a <= x < a + n * PAGE_SIZE).
    { intros x. unfold in_range, region_of, start_address, PAGE_SIZE in *. simpl.
      pose proof (Z.div_mod a 4096). lia. }
    eexists _, _. split; [done|]. simpl. rewrite entries_set_of. split; [|split_and!; try done].
    + constructor; simpl; rewrite ?entries_set_of; try done; [apply set_wf_intro; [lia|done]|].
      split; [|apply Rlim]. destruct l' as [|x l']; [|destruct l; simpl in *; [lia|lia]].
      destruct l; simpl in *; [lia|].
      pose proof (chain_last_end g 1 _ _ ltac:(lia) ltac:(lia) (proj2 (proj2 Rch))).
      unfold PAGE_SIZE in *. lia.
    + unfold range_len. simpl. lia.
    + intros x Hx. apply T4, Hreg, Hx.
    + intros x. by rewrite T5, Hreg.
  - eexists _, _. split; [done|]. simpl.
    assert (Hs : mkDram (dram_limit s) (dram_finalized s) (set_of l) (reserved s) = s)
      by (rewrite <- Req; by destruct s).
    rewrite Hs. split_and!; try done; [by rewrite entries_set_of|]. by apply take_first_None.
Qed.

(** ** Theorems about the DRAM map *)

(** [insert_region], with its shift and merge loops over the fixed array, computes
    the reference definition (sorted insertion, then fusing overlapping and
    touching neighbours) and clears every slot behind the new count; it does
    not panic as long as a slot is free. *)
Theorem insert_region_refines (s : Dram) (l : list Region) (r : range) :
  dram_finalized s = false -> (length l < MAX_REGIONS)%nat ->
  insert_region s (set_of l) r
    = Ret (Z.max (limit s) (start_address (r_end r)),
           set_of (merge (insert_sorted (region_of r) l))).
Proof. apply insert_region_in_place. Qed.

Lemma insert_region_refines_witness :
  insert_region dram_init (set_of [mkRange 4096 8192; mkRange 16384 20480]) (mkRange 2 4)
    = Ret (16384, set_of [mkRange 4096 20480]).
Proof.
  refine (insert_region_refines dram_init [mkRange 4096 8192; mkRange 16384 20480]
            (mkRange 2 4) _ _); [reflexivity|]. apply Nat.ltb_lt. vm_compute. reflexivity.
Defined.

Lemma max_aligned x f :
  x mod PAGE_SIZE = 0 -> Z.max x (start_address f) mod PAGE_SIZE = 0.
Proof.
  intros H. destruct (Z.max_spec x (start_address f)) as [[_ ->] | [_ ->]]; [|done].
  unfold start_address. by rewrite Z.mod_mul.
Qed.

Lemma insert_available_wf s r :
  dram_wf s -> dram_finalized s = false -> (length (entries (available s)) < MAX_REGIONS)%nat ->
  valid_range r ->
  exists s', insert_available s r = Ret s' /\ dram_wf s' /\ dram_finalized s' = false /\
    reserved s' = reserved s /\
    (length (entries (available s')) <= S (length (entries (available s))))%nat /\
    dram_limit s' <= Z.max (dram_limit s) (start_address (r_end r)) /\
    (nonempty r -> Forall nonempty (entries (available s)) -> Forall nonempty (entries (available s'))) /\
    (forall a, covers (entries (available s')) a <->
       (in_range a (region_of r) /\ PAGE_SIZE <= a) \/ covers (entries (available s)) a).
Proof.
  intros [Wa Wr Wac Wrc Wl Wla] Hf Hlen Hr. unfold insert_available, valid_range in *.
  assert (Hps : PAGE_SIZE = 4096) by done.
  destruct (Z.eqb_spec (start_address (r_start r)) 0) as [H0|H0].
  - destruct (Z.leb_spec (start_address (r_end r)) PAGE_SIZE) as [Hle|Hgt].
    + exists s. split_and!; try done; [lia|lia|].
      intros a. unfold in_range, region_of. simpl. intuition lia.
    + change (from_start_address 0x1000) with (Some 1). simpl.
      destruct (insert_region_spec s (available s) (PAGE_SIZE - 1) (mkRange 1 (r_end r)))
        as (set' & -> & S1 & S2 & S3 & S4 & S6 & S5); try done;
        try (unfold start_address in *; simpl; lia).
      eexists. split; [done|]. split_and!; try done.
      * constructor; simpl; try done; [apply S4; simpl; lia|]. by apply max_aligned.
      * intros _. apply S6. unfold nonempty, start_address, PAGE_SIZE in *. simpl. lia.
      * intros a. simpl. rewrite S3. unfold in_range, region_of, start_address in *. simpl. intuition lia.
  - destruct (insert_region_spec s (available s) (PAGE_SIZE - 1) r)
      as (set' & -> & S1 & S2 & S3 & S4 & S6 & S5); try done;
      try (unfold start_address in *; simpl; lia).
    eexists. split; [done|]. split_and!; try done.
    + constructor; simpl; try done; [apply S4; simpl; lia|]. by apply max_aligned.
    + intros a. simpl. rewrite S3. unfold in_range, region_of, start_address in *. simpl. intuition lia.
Qed.

Lemma insert_reserved_wf s r :
  dram_wf s -> dram_finalized s = false -> (length (entries (reserved s)) < MAX_REGIONS)%nat ->
  valid_range r ->
  exists s', insert_reserved s r = Ret s' /\ dram_wf s' /\ dram_finalized s' = false /\
    available s' = available s /\
    (length (entries (reserved s')) <= S (length (entries (reserved s))))%nat /\
    dram_limit s' <= Z.max (dram_limit s) (start_address (r_end r)) /\
    (nonempty r -> Forall nonempty (entries (reserved s)) -> Forall nonempty (entries (reserved s'))) /\
    (forall a, covers (entries (reserved s')) a <->
       in_range a (region_of r) \/ covers (entries (reserved s)) a).
Proof.
  intros [Wa Wr Wac Wrc Wl Wla] Hf Hlen Hr. unfold insert_reserved, valid_range in *.
  destruct (insert_region_spec s (reserved s) (-1) r)
    as (set' & -> & S1 & S2 & S3 & S4 & S6 & S5); try done;
    try (unfold start_address, PAGE_SIZE in *; simpl; lia).
  eexists. split; [done|]. split_and!; try done.
  constructor; simpl; try done; [lia|]. by apply max_aligned.
Qed.

Lemma insert_all_wf ins s :
  dram_wf s -> dram_finalized s = false -> Forall valid_range (ranges_of ins) ->
  (length (entries (available s)) + length (entries (reserved s)) + length ins < MAX_REGIONS)%nat ->
  exists s', insert_all s ins = Ret s' /\ dram_wf s' /\ dram_finalized s' = false /\
    (length (entries (available s')) + length (entries (reserved s')) < MAX_REGIONS)%nat /\
    (forall a, covers (entries (available s')) a <->
       (covers (available_ranges ins) a /\ PAGE_SIZE <= a) \/ covers (entries (available s)) a) /\
    (forall a, covers (entries (reserved s')) a <->
       covers (reserved_ranges ins) a \/ covers (entries (reserved s)) a).
Proof.
  revert s. induction ins as [|i ins IH]; intros s Hwf Hf Hval Hlen; simpl in *.
  { exists s. split_and!; try done; [lia|intros a; rewrite covers_nil; tauto..]. }
  inversion_clear Hval as [|? ? Hv Hval'].
  destruct i as [r|r]; simpl in *.
  - destruct (insert_available_wf s r) as (s1 & -> & W1 & F1 & R1 & L1 & _ & _ & C1); [done..|lia|done|].
    destruct (IH s1) as (s' & Hs' & W' & F' & L' & A' & R'); [done..|rewrite R1; lia|].
    exists s'. split_and!; try done.
    + intros a. rewrite A', C1, covers_cons. tauto.
    + intros a. by rewrite R', R1.
  - destruct (insert_reserved_wf s r) as (s1 & -> & W1 & F1 & R1 & L1 & _ & _ & C1); [done..|lia|done|].
    destruct (IH s1) as (s' & Hs' & W' & F' & L' & A' & R'); [done..|rewrite R1; lia|].
    exists s'. split_and!; try done.
    + intros a. by rewrite A', R1.
    + intros a. rewrite R', C1, covers_cons. tauto.
Qed.

Lemma dram_init_wf : dram_wf dram_init.
Proof.
  assert (He : EMPTY_REGION_SET = set_of []) by done.
  assert (set_wf (set_of [])) by (apply set_wf_intro; [simpl; lia | constructor]).
  constructor; simpl; rewrite ?He, ?entries_set_of; simpl; try done.
Qed.

Lemma starts_above_length lo rs : (starts_above lo rs <= length rs)%nat.
Proof. apply length_filter. Qed.

Lemma complement_regions_aligned lim fs cur out cur' out' :
  complement_regions lim fs cur out = Ret (cur', out') -> cur mod PAGE_SIZE = 0 ->
  Forall aligned fs -> Forall aligned out -> Forall aligned out' /\ cur' mod PAGE_SIZE = 0.
Proof.
  intros H Hcur Hfs. revert cur out H Hcur.
  induction Hfs as [|f fs [Hf1 Hf2] Hfs IH]; simpl; intros cur out H Hcur Hout; [by simplify_eq|].
  inv_bind H. inv_bind H. inv_bind H.
  apply IH in H; [done| |].
  - by case_test.
  - unfold push_reserved in E1. repeat case_test_in E1; simplify_eq; [|done].
    apply Forall_app. split; [done|]. constructor; [|constructor]. by split.
Qed.

Lemma finalize_reserved_spec s l :
  dram_finalized s = true -> available s = set_of l -> chain 0 1 0 l ->
  last_end 0 l <= dram_limit s -> (length l < MAX_REGIONS)%nat ->
  Forall aligned l -> dram_limit s mod PAGE_SIZE = 0 ->
  exists R, finalize_reserved_regions s
      = Ret (mkDram (dram_limit s) true (set_of l) (set_of R)) /\
    set_wf (set_of R) /\ chain 1 1 (-1) R /\ last_end 0 R <= dram_limit s /\
    (forall a, covers R a <-> 0 <= a < dram_limit s /\ ~ covers l a).
Proof.
  intros Hf Hav Hch Hle Hlen Hal Hlim. unfold finalize_reserved_regions.
  rewrite Hf, Hav, entries_set_of. simpl. rewrite bool_decide_true by lia. simpl.
  pose proof (chain_last_end 0 1 _ _ ltac:(lia) ltac:(lia) Hch) as Hpos.
  destruct (Z.eqb_spec (dram_limit s) 0) as [H0|H0].
  { exists []. split_and!; try done; [apply set_wf_intro; [simpl; lia|done]|simpl; lia|].
    intros a. split; [by intros ?%covers_nil | intros [? _]; lia]. }
  destruct (complement_regions_spec (dram_limit s) (-1) l 0 []) as (N & HN & N1 & N2 & N3 & N4);
    [done|lia|done|simpl; lia|]. simpl in HN. rewrite HN. outcome_simpl.
  destruct (complement_regions_aligned _ _ _ _ _ _ HN) as [Na Nb]; [done|done|constructor|].
  assert (Hup : forall a, covers l a -> a < last_end 0 l).
  { intros a. apply (chain_upper 0 1); [lia..|done]. }
  case_test.
  - rewrite push_reserved_ok by lia. simpl. eexists. split; [done|].
    rewrite chain_app, last_end_app. simpl. split_and!; try done; try lia.
    + apply set_wf_intro; [rewrite length_app; simpl; lia|]. apply Forall_app. split; [done|].
      constructor; [|constructor]. by split.
    + intros a. rewrite covers_app, N4, covers_cons, covers_nil. specialize (Hup a).
      unfold in_range. simpl. destruct (Z.lt_ge_cases a (last_end 0 l)); intuition lia.
  - eexists. split; [done|]. split_and!; try done.
    + apply set_wf_intro; [lia|done].
    + destruct N; simpl in *; lia.
    + intros a. rewrite N4. replace (last_end 0 l) with (dram_limit s) by lia. done.
Qed.

Lemma subtract_last_end lo l l' M :
  chain 1 0 lo l -> chain 0 1 lo l' -> last_end lo l' <= last_end lo l -> 0 <= lo ->
  last_end 0 l <= M -> 0 <= M -> last_end 0 l' <= M.
Proof.
  intros H H' Hle Hlo Hl HM. destruct l' as [|x l']; [done|]. simpl in *.
  destruct l as [|y l]; simpl in *; [|lia].
  pose proof (chain_last_end 0 1 _ _ ltac:(lia) ltac:(lia) (proj2 (proj2 H'))). lia.
Qed.

(** Finalising a well-formed map. *)
Lemma finalize_spec s g :
  dram_wf s -> dram_finalized s = false -> 0 <= g <= 1 ->
  chain 1 g (-1) (entries (reserved s)) ->
  (length (entries (available s)) + length (entries (reserved s)) < MAX_REGIONS)%nat ->
  exists s', finalize s = Ret s' /\ dram_finalized s' = true /\ dram_limit s' = dram_limit s /\
    set_wf (available s') /\ chain g 1 (PAGE_SIZE - 1) (entries (available s')) /\
    set_wf (reserved s') /\ chain 1 1 (-1) (entries (reserved s')) /\
    last_end 0 (entries (available s')) <= dram_limit s' /\
    last_end 0 (entries (reserved s')) <= dram_limit s' /\
    (forall a, covers (entries (available s')) a <->
       covers (entries (available s)) a /\ ~ covers (entries (reserved s)) a) /\
    (forall a, covers (entries (reserved s')) a <->
       0 <= a < dram_limit s /\ ~ covers (entries (available s')) a).
Proof.
  intros [Wa Wr Wac Wrc Wl Wla] Hf Hg Hchr Hlen. set (A := entries (available s)) in *.
  set (R := entries (reserved s)) in *.
  pose proof (starts_above_length (PAGE_SIZE - 1) R).
  destruct (subtract_regions_spec g (PAGE_SIZE - 1) (-1) A R []) as (A' & HA & C1 & C2 & C3 & C4);
    [done..|simpl; lia|]. simpl in HA.
  assert (Hal : Forall aligned A').
  { eapply subtract_regions_aligned; [exact HA|apply Wa|apply Wr|done]. }
  assert (Hch : chain 0 1 (PAGE_SIZE - 1) A') by (eapply chain_weaken; [..|exact C1]; lia).
  assert (Hch0 : chain 0 1 0 A') by (eapply chain_weaken; [..|exact C1]; unfold PAGE_SIZE; lia).
  assert (H0 : 0 <= dram_limit s).
  { pose proof (chain_last_end 1 0 0 A ltac:(lia) ltac:(lia)) as H0.
    transitivity (last_end 0 A); [|done]. apply H0.
    eapply chain_weaken; [..|exact Wac]; unfold PAGE_SIZE; lia. }
  pose proof (subtract_last_end _ _ _ _ Wac Hch C2 ltac:(done) Wl H0).
  unfold finalize, finalize_available_regions. rewrite Hf. fold A R. rewrite HA. outcome_simpl.
  destruct (finalize_reserved_spec (mkDram (dram_limit s) true (set_of A') (reserved s)) A')
    as (N & HN & N0 & N1 & N2 & N3); [done..|simpl; lia|done|done|].
  rewrite HN. eexists. split; [done|]. simpl. rewrite !entries_set_of.
  split_and!; try done. by apply set_wf_intro; [lia|].
Qed.

Lemma finalize_ready s :
  dram_wf s -> dram_finalized s = false -> dram_limit s <= U64_MAX ->
  (length (entries (available s)) + length (entries (reserved s)) < MAX_REGIONS)%nat ->
  exists s', finalize s = Ret s' /\ dram_ready s' /\ dram_limit s' = dram_limit s /\
    (forall a, covers (entries (available s')) a <->
       covers (entries (available s)) a /\ ~ covers (entries (reserved s)) a).
Proof.
  intros W F B L.
  destruct (finalize_spec s 0) as (s' & Hs' & F1 & F2 & F3 & F4 & F5 & F6 & F7 & F8 & F9 & F10);
    [done..|lia|apply W|done|].
  exists s'. split_and!; try done. constructor; try done; [constructor; try done; lia|..].
  - rewrite F2. apply W.
  - by rewrite F2.
Qed.

(** A small finalised map, for the examples. *)
Lemma example_ready :
  dram_ready (mkDram 40960 true (set_of [mkRange 4096 8192; mkRange 12288 40960])
                (set_of [mkRange 0 4096; mkRange 8192 12288])).
Proof.
  constructor; simpl; rewrite ?entries_set_of; simpl; try lia; try done.
  - constructor; simpl; rewrite ?entries_set_of; simpl; unfold PAGE_SIZE, U64_MAX; try lia; [].
    apply set_wf_intro; [simpl; unfold MAX_REGIONS; lia | repeat constructor].
  - apply set_wf_intro; [simpl; unfold MAX_REGIONS; lia | repeat constructor].
  - intros a. rewrite !covers_cons, !covers_nil. unfold in_range. simpl. lia.
Qed.

(** Collecting any sequence of fewer than 1024 firmware regions (in any order,
    overlapping or not) and finalising succeeds without panic; afterwards an
    address is available exactly if some available region holds it, it is not
    in the first page and no reserved region holds it, and it is reserved
    exactly if it lies below the limit and is not available.  Both lists are
    sorted and disjoint. *)
Theorem boot_map_correct (ins : list insertion) :
  Forall valid_range (ranges_of ins) -> (length ins < MAX_REGIONS)%nat ->
  exists s s', insert_all dram_init ins = Ret s /\ finalize s = Ret s' /\
    chain 0 1 (PAGE_SIZE - 1) (entries (available s')) /\
    chain 1 1 (-1) (entries (reserved s')) /\
    (forall a, covers (entries (available s')) a <->
       covers (available_ranges ins) a /\ PAGE_SIZE <= a /\ ~ covers (reserved_ranges ins) a) /\
    (forall a, covers (entries (reserved s')) a <->
       0 <= a < limit s /\ ~ covers (entries (available s')) a).
Proof.
  intros Hval Hlen.
  destruct (insert_all_wf ins dram_init) as (s & Hs & W & F & L & A & R);
    [apply dram_init_wf|done|done|simpl; lia|].
  destruct (finalize_spec s 0) as (s' & Hs' & _ & Hl & _ & C1 & _ & C2 & _ & _ & C3 & C4);
    [done..|lia|apply W|lia|].
  exists s, s'. split_and!; try done. intros a. rewrite C3, A, R.
  change (entries (available dram_init)) with (@nil Region).
  change (entries (reserved dram_init)) with (@nil Region). rewrite covers_nil. tauto.
Qed.

Lemma boot_map_correct_witness :
  exists s s', insert_all dram_init [Available (mkRange 0 10); Reserved (mkRange 4 6)] = Ret s /\
    finalize s = Ret s' /\
    chain 0 1 (PAGE_SIZE - 1) (entries (available s')) /\
    chain 1 1 (-1) (entries (reserved s')) /\
    (forall a, covers (entries (available s')) a <->
       covers [mkRange 0 40960] a /\ PAGE_SIZE <= a /\ ~ covers [mkRange 16384 24576] a) /\
    (forall a, covers (entries (reserved s')) a <->
       0 <= a < limit s /\ ~ covers (entries (available s')) a).
Proof.
  refine (boot_map_correct [Available (mkRange 0 10); Reserved (mkRange 4 6)] _ _).
  - repeat constructor; simpl; lia.
  - apply Nat.ltb_lt. vm_compute. reflexivity.
Defined.

(** If no collected reserved region is empty, the finalised available regions are
    merged: sorted, non-empty and separated by at least one address, as the
    documentation of [finalize_available_regions] promises. *)
Theorem finalize_merges (s : Dram) :
  dram_wf s -> dram_finalized s = false ->
  (length (entries (available s)) + length (entries (reserved s)) < MAX_REGIONS)%nat ->
  Forall nonempty (entries (reserved s)) ->
  exists s', finalize s = Ret s' /\ chain 1 1 (PAGE_SIZE - 1) (entries (available s')).
Proof.
  intros W F L Hne.
  destruct (finalize_spec s 1) as (s' & Hs' & _ & _ & _ & C1 & _); [done..|lia| |done|].
  - apply chain_nonempty; [apply W|done].
  - eauto.
Qed.

Lemma finalize_merges_witness :
  exists s', finalize (mkDram 40960 false (set_of [mkRange 4096 40960]) (set_of [mkRange 16384 24576]))
      = Ret s' /\ chain 1 1 (PAGE_SIZE - 1) (entries (available s')).
Proof.
  apply (finalize_merges (mkDram 40960 false (set_of [mkRange 4096 40960]) (set_of [mkRange 16384 24576]))).
  - constructor; simpl; rewrite ?entries_set_of; simpl; unfold PAGE_SIZE; try lia;
      try reflexivity; (apply set_wf_intro; [simpl; unfold MAX_REGIONS; lia | repeat constructor]).
  - reflexivity.
  - apply Nat.ltb_lt. vm_compute. reflexivity.
  - repeat constructor.
Defined.

(** Once the map is finalised, it is frozen: a second [finalize], and every
    insertion except one that lies inside the excluded first page, panics. *)
Theorem finalized_is_frozen (s : Dram) (r : range) :
  dram_finalized s = true ->
  panics (finalize s) /\ panics (insert_reserved s r) /\
  (insert_available s r = Ret s /\ r_start r = 0 /\ start_address (r_end r) <= PAGE_SIZE
   \/ panics (insert_available s r)).
Proof.
  intros Hf. unfold finalize, finalize_available_regions, insert_reserved, insert_available.
  assert (Hir : forall set x, panics (insert_region s set x)).
  { intros set x. unfold insert_region. rewrite Hf. eexists. done. }
  assert (Hb : forall A B (m : outcome A) (f : A -> outcome B), panics m -> panics (m ≫= f)).
  { intros A B m f [msg ->]. by exists msg. }
  rewrite Hf. split_and!; [eexists; done | auto |].
  destruct (Z.eqb_spec (start_address (r_start r)) 0); [|right; by apply Hb]. case_test.
  - left. split_and!; [done| |done]. unfold start_address, PAGE_SIZE in *. lia.
  - right. apply (Hb _ _ (insert_region s (available s) (mkRange 1 (r_end r)))), Hir.
Qed.

Lemma finalized_is_frozen_witness :
  panics (finalize (mkDram 4096 true (set_of []) (set_of []))).
Proof.
  exact (proj1 (finalized_is_frozen (mkDram 4096 true (set_of []) (set_of [])) (mkRange 1 2) eq_refl)).
Defined.

(** A boot allocation takes the first region that is large enough: it never
    panics on a map of well-formed available regions, fails exactly if every
    region is too small, and otherwise returns [n] frames that were all
    available and are exactly the ones no longer available; the map stays
    well-formed. *)
Theorem boot_alloc_correct (s : Dram) (g n : Z) :
  available_wf g s -> 0 <= g <= 1 -> 0 < n -> n * PAGE_SIZE <= U64_MAX ->
  exists s' o, boot_alloc s n = Ret (s', o) /\ available_wf g s' /\ reserved s' = reserved s /\
    dram_limit s' = dram_limit s /\ dram_finalized s' = dram_finalized s /\
    (length (entries (available s')) <= length (entries (available s)))%nat /\
    match o with
    | None => s' = s /\ Forall (fun r => range_len r < n * PAGE_SIZE) (entries (available s))
    | Some fr =>
        range_len fr = n /\
        (forall a, in_range a (region_of fr) -> covers (entries (available s)) a) /\
        (forall a, covers (entries (available s')) a <->
           covers (entries (available s)) a /\ ~ in_range a (region_of fr))
    end.
Proof. apply boot_alloc_spec. Qed.

Lemma boot_alloc_correct_witness :
  exists s' o, boot_alloc (mkDram 40960 true (set_of [mkRange 4096 8192; mkRange 12288 40960]) (set_of [])) 3
    = Ret (s', o) /\ available_wf 0 s' /\ reserved s' = set_of [].
Proof.
  destruct (boot_alloc_correct (mkDram 40960 true (set_of [mkRange 4096 8192; mkRange 12288 40960]) (set_of [])) 0 3)
    as (s' & o & H1 & H2 & H3 & _).
  - constructor; simpl; rewrite ?entries_set_of; simpl; unfold PAGE_SIZE, U64_MAX; try lia; [].
    apply set_wf_intro; [simpl; unfold MAX_REGIONS; lia | repeat constructor].
  - lia.
  - reflexivity.
  - vm_compute. discriminate.
  - exists s', o. auto.
Defined.
