(* ===== verification/Boot.v ===== *)
(** * Physical memory at boot ([os/kernel/src/boot.rs])

    The part of [start] that collects the firmware's memory map, takes the kernel
    heap out of it, reserves the boot images and finalises the DRAM map, in the
    order the code does it.  The firmware tables are inputs: a list of memory
    areas and the frame ranges the linker and the bootloader occupy. *)

From S2P Require Import Prelude Intervals Dram.

Open Scope Z_scope.

(** The UEFI memory types the scan tells apart. *)
Inductive MemoryType :=
| CONVENTIONAL
| LOADER_CODE
| LOADER_DATA
| BOOT_SERVICES_CODE
| BOOT_SERVICES_DATA
| OTHER_MEMORY.

(** The fields of an EFI memory descriptor that the scan reads. *)
Record EfiArea := mkEfiArea {
  ty : MemoryType;
  virt_start : Z;
  phys_start : Z;
  page_count : Z
}.

(** The fields of a Multiboot2 memory area that the scan reads. *)
Record MbArea := mkMbArea { mb_available : bool; mb_start : Z; mb_end : Z }.

(** [PhysAddr::align_up(PAGE_SIZE)] and [align_down(PAGE_SIZE)] *)
Definition align_up_page (a : Z) : Z := (a + (PAGE_SIZE - 1)) / PAGE_SIZE * PAGE_SIZE.
Definition align_down_page (a : Z) : Z := a / PAGE_SIZE * PAGE_SIZE.

(* os/kernel/src/boot.rs: scan_efi_memory_map *)
Definition efi_usable (area : EfiArea) : bool :=
  match ty area with
  | CONVENTIONAL | LOADER_CODE | LOADER_DATA | BOOT_SERVICES_CODE | BOOT_SERVICES_DATA => true
  | OTHER_MEMORY => false
  end.

(** The frames of a usable area.  [unprotect_frames] only touches the firmware's
    page tables. *)
(* os/kernel/src/boot.rs: scan_efi_memory_map *)
Definition scan_efi_area (d : Dram) (area : EfiArea) : outcome Dram :=
  if negb (virt_start area =? 0) then Ret d else
  start ← expect (from_start_address (align_up_page (phys_start area))) "unwrap";
  insert_available d (mkRange start (start + page_count area)).

(* [os/kernel/src/boot.rs:570-596] scan_efi_memory_map *)
Fixpoint scan_efi_memory_map (d : Dram) (areas : list EfiArea) : outcome Dram :=
  match areas with
  | [] => Ret d
  | area :: areas' =>
      d' ← (if efi_usable area then scan_efi_area d area else Ret d);
      scan_efi_memory_map d' areas'
  end.

(* [os/kernel/src/boot.rs:524-536] scan_multiboot2_memory_map *)
Fixpoint scan_multiboot2_memory_map (d : Dram) (areas : list MbArea) : outcome Dram :=
  match areas with
  | [] => Ret d
  | area :: areas' =>
      d' ← (if mb_available area then
              start ← expect (from_start_address (align_up_page (mb_start area))) "unwrap";
              end_ ← expect (from_start_address (align_down_page (mb_end area))) "unwrap";
              insert_available d (mkRange start end_)
            else Ret d);
      scan_multiboot2_memory_map d' areas'
  end.

(* os/kernel/src/consts.rs: KERNEL_HEAP_PAGES *)
Definition KERNEL_HEAP_PAGES : Z := 0x1000.

(** The regions the linker script and the bootloader define. *)
Record BootImages := mkBootImages {
  kernel_image : range;
  ap_boot : range;
  initrd : range;
  multiboot_info : range
}.

(** The memory steps of [start], from the heap allocation to [dram::finalize];
    returns the map and the heap region. *)
(* [os/kernel/src/boot.rs:103-160] start *)
Definition boot_memory (d : Dram) (im : BootImages) : outcome (Dram * range) :=
  '(d1, heap) ← boot_alloc d KERNEL_HEAP_PAGES;
  heap_region ← expect heap "Failed to allocate kernel heap frames!";
  d2 ← insert_reserved d1 heap_region;
  d3 ← insert_reserved d2 (kernel_image im);
  d4 ← insert_reserved d3 (ap_boot im);
  d5 ← insert_reserved d4 (initrd im);
  d6 ← insert_reserved d5 (multiboot_info im);
  d7 ← finalize d6;
  Ret (d7, heap_region).

(* [os/kernel/src/boot.rs:504-505] multiboot2_search_memory_map *)
Definition boot_efi (areas : list EfiArea) (im : BootImages) : outcome (Dram * range) :=
  d ← scan_efi_memory_map dram_init areas;
  boot_memory d im.

(** ** Specification vocabulary *)

(** The frames an area contributes, as a region of addresses. *)
Definition area_region (area : EfiArea) : Region :=
  mkRange (align_up_page (phys_start area))
          (align_up_page (phys_start area) + page_count area * PAGE_SIZE).

Definition usable_regions (areas : list EfiArea) : list Region :=
  area_region <$> filter (fun a => efi_usable a = true /\ virt_start a = 0) areas.

Definition image_regions (im : BootImages) : list Region :=
  region_of <$> [kernel_image im; ap_boot im; initrd im; multiboot_info im].

(** A descriptor as firmware reports it: at least one page, inside the physical
    address space. *)
Definition area_ok (a : EfiArea) : Prop :=
  0 <= phys_start a /\ 0 < page_count a /\
  phys_start a + PAGE_SIZE + page_count a * PAGE_SIZE <= 2 ^ 52.

Definition image_ok (r : range) : Prop := valid_range r /\ start_address (r_end r) <= 2 ^ 52.
Definition images_ok (im : BootImages) : Prop :=
  Forall image_ok [kernel_image im; ap_boot im; initrd im; multiboot_info im].

(** ** Lemmas *)

Lemma align_up_page_spec a :
  0 <= a -> exists f, align_up_page a = start_address f /\ 0 <= f /\ a <= start_address f < a + PAGE_SIZE.
Proof.
  intros Ha. exists ((a + (PAGE_SIZE - 1)) / PAGE_SIZE). unfold align_up_page, start_address, PAGE_SIZE.
  pose proof (Z.div_mod (a + (4096 - 1)) 4096 ltac:(lia)).
  pose proof (Z.mod_pos_bound (a + (4096 - 1)) 4096 ltac:(lia)). lia.
Qed.

Lemma from_start_address_frame f : from_start_address (start_address f) = Some f.
Proof.
  unfold start_address. rewrite from_start_address_ok by (by rewrite Z.mod_mul).
  f_equal. by rewrite Z.div_mul.
Qed.

(** The map while the firmware's areas are scanned. *)
Record scanning (s : Dram) : Prop := {
  sc_wf : dram_wf s;
  sc_open : dram_finalized s = false;
  sc_nonempty : Forall nonempty (entries (available s));
  sc_limit : dram_limit s <= 2 ^ 52
}.

Lemma scan_efi_area_spec s a :
  scanning s -> (length (entries (available s)) < MAX_REGIONS)%nat -> area_ok a -> virt_start a = 0 ->
  exists s', scan_efi_area s a = Ret s' /\ scanning s' /\ reserved s' = reserved s /\
    (length (entries (available s')) <= S (length (entries (available s))))%nat /\
    (forall x, covers (entries (available s')) x <->
       (in_range x (area_region a) /\ PAGE_SIZE <= x) \/ covers (entries (available s)) x).
Proof.
  intros [W O N L] Hlen (Ha1 & Ha2 & Ha3) Hv. unfold scan_efi_area. rewrite Hv. simpl.
  destruct (align_up_page_spec (phys_start a) Ha1) as (f & Hf & Hf0 & Hf1).
  rewrite Hf, from_start_address_frame. simpl.
  destruct (insert_available_wf s (mkRange f (f + page_count a)))
    as (s' & Hs' & W' & O' & R' & L' & M' & N' & C'); [done..|unfold valid_range; simpl; lia|].
  assert (Hreg : region_of (mkRange f (f + page_count a)) = area_region a).
  { unfold region_of, area_region. rewrite Hf. unfold start_address. simpl. f_equal. lia. }
  rewrite Hreg in C'. exists s'. split_and!; try done. constructor; try done.
  - apply N'; [|done]. unfold nonempty. simpl. lia.
  - unfold start_address, PAGE_SIZE in *. simpl in *. lia.
Qed.

Lemma scan_efi_spec s areas :
  scanning s -> Forall area_ok areas ->
  (length (entries (available s)) + length areas < MAX_REGIONS)%nat ->
  exists s', scan_efi_memory_map s areas = Ret s' /\ scanning s' /\ reserved s' = reserved s /\
    (length (entries (available s')) <= length (entries (available s)) + length areas)%nat /\
    (forall x, covers (entries (available s')) x <->
       (covers (usable_regions areas) x /\ PAGE_SIZE <= x) \/ covers (entries (available s)) x).
Proof.
  intros Hs Hok. revert s Hs. induction Hok as [|a areas Ha Hok IH]; intros s Hs Hlen; simpl in *.
  { exists s. split_and!; try done; [lia|]. intros x. unfold usable_regions. simpl.
    rewrite covers_nil. tauto. }
  assert (Huse : forall x, covers (usable_regions (a :: areas)) x <->
     (efi_usable a = true /\ virt_start a = 0 /\ in_range x (area_region a)) \/ covers (usable_regions areas) x).
  { intros x. unfold usable_regions. rewrite filter_cons. case_decide as Hd.
    - rewrite fmap_cons, covers_cons. tauto.
    - split; [tauto|]. intros [(? & ? & ?)|?]; [|done]. by destruct Hd. }
  destruct (efi_usable a) eqn:Hu; [destruct (Z.eq_dec (virt_start a) 0) as [Hv|Hv]|].
  - destruct (scan_efi_area_spec s a) as (s1 & -> & S1 & R1 & L1 & C1); [done|lia|done..|]. simpl.
    destruct (IH s1) as (s' & Hs' & S' & R' & L' & C'); [done|lia|].
    exists s'. split_and!; try done; [by rewrite R'|lia|].
    intros x. rewrite C', C1, Huse. tauto.
  - unfold scan_efi_area. rewrite (proj2 (Z.eqb_neq _ _) Hv). simpl.
    destruct (IH s) as (s' & Hs' & S' & R' & L' & C'); [done|lia|].
    exists s'. split_and!; try done; [lia|]. intros x. rewrite C', Huse. tauto.
  - simpl. destruct (IH s) as (s' & Hs' & S' & R' & L' & C'); [done|lia|].
    exists s'. split_and!; try done; [lia|]. intros x. rewrite C', Huse. intuition congruence.
Qed.

Lemma scanning_init : scanning dram_init.
Proof. constructor; simpl; [apply dram_init_wf|done| |lia]. constructor. Qed.

(** Reserving a list of regions one after the other. *)
Lemma insert_reserved_step s r :
  dram_wf s -> dram_finalized s = false -> dram_limit s <= 2 ^ 52 -> image_ok r ->
  (length (entries (reserved s)) < MAX_REGIONS)%nat ->
  exists s', insert_reserved s r = Ret s' /\ dram_wf s' /\ dram_finalized s' = false /\
    dram_limit s' <= 2 ^ 52 /\ available s' = available s /\
    (length (entries (reserved s')) <= S (length (entries (reserved s))))%nat /\
    (forall a, covers (entries (reserved s')) a <->
       in_range a (region_of r) \/ covers (entries (reserved s)) a).
Proof.
  intros W O L [Hv Hb] Hlen.
  destruct (insert_reserved_wf s r) as (s' & Hs' & W' & O' & A' & L' & M' & _ & C'); [done..|].
  exists s'. split_and!; try done. lia.
Qed.

Lemma available_below g s a :
  available_wf g s -> 0 <= g -> covers (entries (available s)) a -> a < dram_limit s.
Proof.
  intros [_ Hch [Hl _]] Hg Hc.
  pose proof (chain_upper g 1 _ _ _ ltac:(lia) ltac:(lia) Hch Hc) as Hu.
  destruct (entries (available s)); [by apply covers_nil in Hc|]. simpl in *. lia.
Qed.

(** After the heap is taken out, reserving the images and finalising. *)
Lemma boot_reserve_spec s heap im :
  dram_wf s -> dram_finalized s = false -> dram_limit s <= 2 ^ 52 -> image_ok heap -> images_ok im ->
  (length (entries (available s)) + length (entries (reserved s)) + 5 < MAX_REGIONS)%nat ->
  exists d, (d2 ← insert_reserved s heap; d3 ← insert_reserved d2 (kernel_image im);
     d4 ← insert_reserved d3 (ap_boot im); d5 ← insert_reserved d4 (initrd im);
     d6 ← insert_reserved d5 (multiboot_info im); finalize d6) = Ret d /\ dram_ready d /\
    (forall a, covers (entries (available d)) a <-> covers (entries (available s)) a /\
       ~ (covers (region_of heap :: image_regions im) a \/ covers (entries (reserved s)) a)).
Proof.
  intros W O L Hh Him Hlen. unfold images_ok in Him.
  apply Forall_cons in Him as [I1 [I2 [I3 [I4 _]%Forall_cons]%Forall_cons]%Forall_cons].
  destruct (insert_reserved_step s heap) as (s1 & -> & W1 & O1 & L1 & A1 & N1 & C1); [done..|lia|]. simpl.
  destruct (insert_reserved_step s1 (kernel_image im)) as (s2 & -> & W2 & O2 & L2 & A2 & N2 & C2);
    [done..|lia|]. simpl.
  destruct (insert_reserved_step s2 (ap_boot im)) as (s3 & -> & W3 & O3 & L3 & A3 & N3 & C3);
    [done..|lia|]. simpl.
  destruct (insert_reserved_step s3 (initrd im)) as (s4 & -> & W4 & O4 & L4 & A4 & N4 & C4);
    [done..|lia|]. simpl.
  destruct (insert_reserved_step s4 (multiboot_info im)) as (s5 & -> & W5 & O5 & L5 & A5 & N5 & C5);
    [done..|lia|]. simpl.
  assert (HA : available s5 = available s) by congruence.
  destruct (finalize_ready s5) as (d & Hd & Rd & _ & Cd); [done..|unfold U64_MAX; lia|rewrite HA; lia|].
  exists d. split_and!; try done. intros a. rewrite Cd, HA, C5, C4, C3, C2, C1.
  unfold image_regions. simpl. rewrite !covers_cons, covers_nil. tauto.
Qed.

(** ** Theorems *)

(** C11 Booting with an EFI memory map: unless no usable region can hold the kernel
    heap (then the kernel panics), the boot code ends with a finalised map in
    which an address is available exactly if it lies in a usable area, not in the
    first page, not in the kernel heap and not in one of the boot images; the heap
    itself was taken from usable memory. *)
Theorem boot_efi_correct (areas : list EfiArea) (im : BootImages) :
  Forall area_ok areas -> images_ok im -> (length areas + 5 < MAX_REGIONS)%nat ->
  exists d0, scan_efi_memory_map dram_init areas = Ret d0 /\
    ((panics (boot_efi areas im) /\
      Forall (fun r => range_len r < KERNEL_HEAP_PAGES * PAGE_SIZE) (entries (available d0))) \/
     exists d heap, boot_efi areas im = Ret (d, heap) /\ dram_ready d /\
       range_len heap = KERNEL_HEAP_PAGES /\
       (forall a, in_range a (region_of heap) -> covers (usable_regions areas) a /\ PAGE_SIZE <= a) /\
       (forall a, covers (entries (available d)) a <->
          covers (usable_regions areas) a /\ PAGE_SIZE <= a /\
          ~ in_range a (region_of heap) /\ ~ covers (image_regions im) a)).
Proof.
  intros Hok Him Hlen.
  destruct (scan_efi_spec dram_init areas scanning_init Hok) as (s & Hs & [W O N L] & R & Hl & C);
    [simpl; lia|]. change (entries (available dram_init)) with (@nil Region) in *.
  exists s. split; [done|]. unfold boot_efi, boot_memory. rewrite Hs. simpl.
  assert (Hav : available_wf 1 s).
  { constructor; [apply W|apply chain_nonempty; [apply W|done]|].
    split; [apply W|unfold U64_MAX; lia]. }
  destruct (boot_alloc_spec s 1 KERNEL_HEAP_PAGES Hav) as (s1 & o & -> & Hav1 & R1 & M1 & O1 & Hle & Hcase);
    [lia|done|done|]. simpl.
  destruct o as [heap|]; simpl; [right | left; split; [by eexists|apply Hcase]].
  destruct Hcase as (Hh1 & Hh2 & Hh3).
  assert (Hr0 : entries (reserved s1) = []) by (by rewrite R1, R).
  assert (Hhu : forall a, in_range a (region_of heap) -> covers (usable_regions areas) a /\ PAGE_SIZE <= a).
  { intros a Ha%Hh2. rewrite C, covers_nil in Ha. tauto. }
  destruct (boot_reserve_spec s1 heap im) as (d & Hd & Rd & Cd); [|congruence|lia| |done| |].
  - destruct Hav1 as [V1 V2 V3]. rewrite M1 in V3. destruct W.
    constructor; rewrite ?R1, ?M1; try done; [|apply V3]. eapply chain_weaken; [..|exact V2]; lia.
  - assert (Hin : in_range (start_address (r_start heap)) (region_of heap) /\
                  in_range (start_address (r_end heap) - 1) (region_of heap)).
    { unfold in_range, region_of, start_address, range_len, KERNEL_HEAP_PAGES, PAGE_SIZE in *. simpl. lia. }
    destruct Hin as [Hi1 Hi2]. apply Hhu in Hi1 as [_ Hi1]. apply Hh2 in Hi2.
    apply (available_below 1 s) in Hi2; [|done|lia].
    unfold image_ok, valid_range, range_len, start_address, PAGE_SIZE, KERNEL_HEAP_PAGES in *. lia.
  - rewrite Hr0. simpl in *. lia.
  - exists d, heap. do 5 inv_bind Hd. rewrite E. simpl. rewrite E0. simpl. rewrite E1. simpl.
    rewrite E2. simpl. rewrite E3. simpl. rewrite Hd. split_and!; try done.
    intros x. rewrite Cd, Hh3, Hr0, C, !covers_cons, covers_nil. tauto.
Qed.

Lemma boot_efi_correct_witness :
  exists d heap,
    boot_efi [mkEfiArea CONVENTIONAL 0 0x100000 0x2000]
      (mkBootImages (mkRange 0x100 0x200) (mkRange 0x8 0x9) (mkRange 0x1800 0x1900) (mkRange 0x1900 0x1901))
      = Ret (d, heap) /\ dram_ready d /\ range_len heap = KERNEL_HEAP_PAGES.
Proof.
  destruct (boot_efi_correct [mkEfiArea CONVENTIONAL 0 0x100000 0x2000]
      (mkBootImages (mkRange 0x100 0x200) (mkRange 0x8 0x9) (mkRange 0x1800 0x1900) (mkRange 0x1900 0x1901)))
    as (d0 & _ & [[[msg H] _]|(d & heap & H1 & H2 & H3 & _)]).
  - repeat constructor; vm_compute; discriminate.
  - repeat constructor; vm_compute; discriminate.
  - apply Nat.ltb_lt. vm_compute. reflexivity.
  - vm_compute in H. discriminate.
  - exists d, heap. auto.
Defined.

(** The kernel heap can be placed on top of the kernel image: the image lies in
    memory the firmware reports as usable, and it is reserved only after the heap
    has been allocated with first fit. *)
Theorem heap_may_overlap_kernel :
  let im := mkBootImages (mkRange 0x100 0x200) (mkRange 0x8 0x9) (mkRange 0x1800 0x1900)
              (mkRange 0x1900 0x1901) in
  exists d heap, boot_efi [mkEfiArea CONVENTIONAL 0 0x100000 0x2000] im = Ret (d, heap) /\
    exists f, in_range f heap /\ in_range f (kernel_image im).
Proof.
  eexists _, (mkRange 0x100 0x1100). split; [vm_compute; reflexivity|].
  exists 0x100. unfold in_range. simpl. lia.
Qed.

(** A Multiboot2 area that holds no whole page is turned into a reversed region
    (its end below its start), on which the heap allocation panics. *)
Theorem small_area_breaks_boot :
  exists d, scan_multiboot2_memory_map dram_init [mkMbArea true 0x1001 0x1fff] = Ret d /\
    entries (available d) = [mkRange 0x2000 0x1000] /\ panics (boot_alloc d KERNEL_HEAP_PAGES).
Proof.
  eexists. split; [vm_compute; reflexivity|]. split; [vm_compute; reflexivity|].
  eexists. vm_compute. reflexivity.
Qed.
