(* ===== verification/Frames.v ===== *)
(** * Page frame allocator ([os/kernel/src/memory/frames.rs], [mod.rs])

    The allocator keeps the free frames as a linked list of blocks, sorted by
    address; a block's node is stored in its own first frame.  The list owns its
    nodes exclusively ([&'static mut]), so it is modelled as a list of nodes, a
    node being its frame number and its frame count.  [frames.rs] is compiled
    with the feature [frame_alloc_locking]; every entry point runs under the
    allocator's mutex. *)

From S2P Require Import Prelude Intervals Dram.

Open Scope Z_scope.

(* [os/kernel/src/memory/frames.rs:118-123] PageFrameNode *)
Record PageFrameNode := mkNode { node_frame : Z; frame_count : Z }.

(* os/kernel/src/memory/frames.rs: PageFrameNode::start *)
Definition node_start (b : PageFrameNode) : Z := node_frame b.

(* os/kernel/src/memory/frames.rs: PageFrameNode::end *)
Definition node_end (b : PageFrameNode) : Z := node_start b + frame_count b.

(** The list hanging off [PageFrameListAllocator::head]. *)
(* os/kernel/src/memory/frames.rs: PageFrameListAllocator::new *)
Definition free_list_new : list PageFrameNode := [].

(** The search loop of [insert]: behind the last block that does not start
    above the new one. *)
(* os/kernel/src/memory/frames.rs: PageFrameListAllocator::insert *)
Fixpoint insert_block (l : list PageFrameNode) (new_block : PageFrameNode) : list PageFrameNode :=
  match l with
  | [] => [new_block]
  | block :: l' =>
      if node_start block >? node_start new_block then new_block :: l
      else block :: insert_block l' new_block
  end.

(* [os/kernel/src/memory/frames.rs:173-210] PageFrameListAllocator::insert *)
Definition insert_frames (l : list PageFrameNode) (frames : range) : list PageFrameNode :=
  let new_block := mkNode (r_start frames) (r_end frames - r_start frames) in
  match l with
  | [] => [new_block]
  | _ => insert_block l new_block
  end.

(** The block found, and the list without it. *)
(* [os/kernel/src/memory/frames.rs:213-228] PageFrameListAllocator::find_free_block *)
Fixpoint find_free_block (l : list PageFrameNode) (n : Z)
    : option (PageFrameNode * list PageFrameNode) :=
  match l with
  | [] => None
  | block :: l' =>
      if n <=? frame_count block then Some (block, l')
      else match find_free_block l' n with
           | Some (b, rest) => Some (b, block :: rest)
           | None => None
           end
  end.

(* [os/kernel/src/memory/frames.rs:252-296] PageFrameListAllocator::alloc_block *)
Definition alloc_block (l : list PageFrameNode) (n : Z) : outcome (range * list PageFrameNode) :=
  match find_free_block l n with
  | Some (block, rest) =>
      let remaining := mkRange (node_start block + n) (node_end block) in
      let rest' := if range_len remaining >? 0 then insert_frames rest remaining else rest in
      Ret (mkRange (node_start block) (r_start remaining), rest')
  | None => Panic "PageFrameAllocator: Out of memory!"
  end.

(** Outcome of the fusion loop: the list after a fusion, or [None] when the loop
    ends or breaks and the block needs a node of its own. *)
(* os/kernel/src/memory/frames.rs: PageFrameListAllocator::free_block *)
Fixpoint fuse_block (l : list PageFrameNode) (frames : range)
    : outcome (option (list PageFrameNode)) :=
  match l with
  | [] => Ret None
  | block :: l' =>
      if negb ((r_end frames <=? node_start block) || (r_start frames >=? node_end block))
      then Panic "free_block: Double-free or overlapping free detected!"
      else if r_end frames =? node_start block then
        Ret (Some (mkNode (r_start frames) (frame_count block + range_len frames) :: l'))
      else if node_end block =? r_start frames then
        let block' := mkNode (node_frame block) (frame_count block + range_len frames) in
        match l' with
        | next :: l'' =>
            if node_end block' =? node_start next
            then Ret (Some (mkNode (node_frame block') (frame_count block' + frame_count next) :: l''))
            else Ret (Some (block' :: l'))
        | [] => Ret (Some [block'])
        end
      else if node_end block >? r_start frames then Ret None
      else
        r ← fuse_block l' frames;
        Ret (match r with Some k => Some (block :: k) | None => None end)
  end.

(* [os/kernel/src/memory/frames.rs:340-397] PageFrameListAllocator::free_block *)
Definition free_block (l : list PageFrameNode) (frames : range) : outcome (list PageFrameNode) :=
  r ← fuse_block l frames;
  Ret (match r with Some l' => l' | None => insert_frames l frames end).

(** Like [find_free_block], for a block that holds the frames at [addr]. *)
(* [os/kernel/src/memory/frames.rs:231-249] PageFrameListAllocator::find_free_block_at *)
Fixpoint find_free_block_at (l : list PageFrameNode) (addr n : Z)
    : option (PageFrameNode * list PageFrameNode) :=
  match l with
  | [] => None
  | block :: l' =>
      if (n <=? frame_count block) && (start_address (node_start block) <? addr)
         && (start_address (node_end block) >=? addr + PAGE_SIZE * n)
      then Some (block, l')
      else match find_free_block_at l' addr n with
           | Some (b, rest) => Some (b, block :: rest)
           | None => None
           end
  end.

(** The loop over the blocks, [l] being the list behind [current].  Every round
    moves [current] to its successor, which the last line unwraps.  [fuel]
    bounds the rounds: a round either consumes a block or splits one in two,
    and the upper half is consumed by the next round. *)
(* os/kernel/src/memory/frames.rs: PageFrameListAllocator::reserve_block *)
Fixpoint reserve_loop (fuel : nat) (l : list PageFrameNode) (reserved : range)
    : outcome (list PageFrameNode) :=
  match fuel, l with
  | O, _ => Panic "fuel"
  | _, [] => Ret []
  | S fuel', block :: l' =>
      if node_start block >? r_end reserved then Ret l
      else if (node_start block <? r_start reserved) && (node_end block >=? r_start reserved) then
        if node_end block <=? r_end reserved then
          let overlapping := node_end block - r_start reserved in
          k ← reserve_loop fuel' l' reserved;
          Ret (mkNode (node_frame block) (frame_count block - overlapping) :: k)
        else
          let below_size := r_start reserved - node_start block in
          let above_size := node_end block - r_end reserved in
          k ← reserve_loop fuel' (mkNode (r_end reserved) above_size :: l') reserved;
          Ret (mkNode (node_frame block) below_size :: k)
      else if (node_start block <=? r_end reserved) && (node_end block >=? r_start reserved) then
        if node_end block <=? r_end reserved then
          match l' with
          | [] => Panic "called `Option::unwrap()` on a `None` value"
          | next :: l'' => k ← reserve_loop fuel' l'' reserved; Ret (next :: k)
          end
        else
          let overlapping := r_end reserved - node_start block in
          k ← reserve_loop fuel' l' reserved;
          Ret (mkNode (node_start block + overlapping) (frame_count block - overlapping) :: k)
      else
        k ← reserve_loop fuel' l' reserved;
        Ret (block :: k)
  end.

(* [os/kernel/src/memory/frames.rs:400-450] PageFrameListAllocator::reserve_block *)
Definition reserve_block (l : list PageFrameNode) (reserved : range)
    : outcome (list PageFrameNode) :=
  reserve_loop (S (2 * length l)) l reserved.

(** [sum] of the frame counts, as the loop accumulates it. *)
(* [os/kernel/src/memory/frames.rs:52-61] get_total_free_frames *)
Fixpoint total_free_frames (l : list PageFrameNode) (available : Z) : Z :=
  match l with
  | [] => available
  | block :: l' => total_free_frames l' (available + frame_count block)
  end.

(* [os/kernel/src/memory/frames.rs:71-84] mark_avail *)
Definition mark_avail (l : list PageFrameNode) (region : range) : outcome (list PageFrameNode) :=
  if start_address (r_start region) =? 0 then
    first_page ← expect (from_start_address PAGE_SIZE) "unwrap";
    if r_end region <=? first_page then Ret l
    else free_block l (mkRange first_page (r_end region))
  else free_block l region.

(* os/kernel/src/memory/frames.rs: init *)
Fixpoint init_loop (l : list PageFrameNode) (rs : list Region) : outcome (list PageFrameNode) :=
  match rs with
  | [] => Ret l
  | r :: rs' =>
      let len := Z.max 0 (r_end r - r_start r) in
      if len =? 0 then init_loop l rs' else
      _ ← rust_assert (r_start r mod PAGE_SIZE =? 0) "start aligned";
      _ ← rust_assert (r_end r mod PAGE_SIZE =? 0) "end aligned";
      start ← expect (from_start_address (r_start r)) "start address not aligned";
      end_ ← expect (from_start_address (r_end r)) "end address not aligned";
      l' ← mark_avail l (mkRange start end_);
      init_loop l' rs'
  end.

(* [os/kernel/src/memory/frames.rs:31-49] init *)
Definition frames_init (d : Dram) : outcome (list PageFrameNode) :=
  rs ← get_all_available d;
  init_loop free_list_new rs.

(** The allocator together with the counter [FREE_FRAMES] of [mod.rs]. *)
(* os/kernel/src/memory/mod.rs: FREE_FRAMES *)
Record FrameState := mkFrameState {
  free_list : list PageFrameNode;
  free_frames_counter : Z
}.

(* os/kernel/src/memory/mod.rs: init_total_free_frames *)
Definition init_total_free_frames (s : FrameState) : FrameState :=
  mkFrameState (free_list s) (total_free_frames (free_list s) 0).

(* os/kernel/src/memory/mod.rs: get_free_frames *)
Definition get_free_frames (s : FrameState) : Z := free_frames_counter s.

(** [AtomicUsize::fetch_sub] and [fetch_add] wrap around. *)
(* os/kernel/src/memory/mod.rs: alloc_frames *)
Definition alloc_frames (s : FrameState) (n : Z) : outcome (range * FrameState) :=
  let counter := wrap64 (free_frames_counter s - n) in
  '(r, l) ← alloc_block (free_list s) n;
  Ret (r, mkFrameState l counter).

(* os/kernel/src/memory/mod.rs: free_frames *)
Definition free_frames (s : FrameState) (frames : range) : outcome FrameState :=
  let counter := wrap64 (free_frames_counter s + (r_end frames - r_start frames)) in
  l ← free_block (free_list s) frames;
  Ret (mkFrameState l counter).

(** The address is aligned up to the page size, so the conversion cannot fail. *)
(* os/kernel/src/memory/mod.rs: frame_from_u64 *)
Definition frame_from_u64 (addr : Z) : option Z :=
  let pa := (addr + (PAGE_SIZE - 1)) / PAGE_SIZE * PAGE_SIZE in
  from_start_address pa.

(** ** The invariant of the free list *)

Definition node_range (b : PageFrameNode) : range := mkRange (node_start b) (node_end b).

Definition free_ranges (l : list PageFrameNode) : list range := node_range <$> l.

(** A frame is free. *)
Definition is_free (l : list PageFrameNode) (f : Z) : Prop := covers (free_ranges l) f.

(** Frame 0 is never free; blocks ascend, are non-empty and never touch. *)
Definition free_list_wf (l : list PageFrameNode) : Prop := chain 1 1 0 (free_ranges l).

(** A range is apart from a block: at least one frame lies between them. *)
Definition apart (fr x : range) : Prop := r_end fr < r_start x \/ r_end x < r_start fr.

(** The counter agrees with the list. *)
Record frame_state_wf (s : FrameState) : Prop := {
  fs_list : free_list_wf (free_list s);
  fs_counter : free_frames_counter s = total_free_frames (free_list s) 0;
  fs_bound : total_free_frames (free_list s) 0 <= U64_MAX
}.

(** Two ranges share no frame. *)
Definition disjoint_ranges (x y : range) : Prop := forall f, in_range f x -> ~ in_range f y.

(** Clients allocate, and free what they own: the free list together with the
    ranges that are in use. *)
Inductive client_step : list PageFrameNode * list range -> list PageFrameNode * list range -> Prop :=
| step_alloc l live n r l' :
    0 < n -> alloc_block l n = Ret (r, l') -> client_step (l, live) (l', r :: live)
| step_free l live1 r live2 l' :
    free_block l r = Ret l' -> client_step (l, live1 ++ r :: live2) (l', live1 ++ live2).

(** Everything the clients own is really theirs: owned ranges are disjoint, not
    free, and together with the free list make up the memory [mem]. *)
Record ownership (mem : Z -> Prop) (s : list PageFrameNode * list range) : Prop := {
  own_list : free_list_wf s.1;
  own_live : Forall (fun r => 0 < r_start r < r_end r) s.2;
  own_disjoint : ForallOrdPairs disjoint_ranges s.2;
  own_not_free : forall f, covers s.2 f -> ~ is_free s.1 f;
  own_mem : forall f, mem f <-> is_free s.1 f \/ covers s.2 f
}.

(** ** Lemmas *)

Ltac nodes_simpl := unfold free_ranges, node_range, node_end, node_start in *; simpl in *.

Lemma free_ranges_cons b l : free_ranges (b :: l) = node_range b :: free_ranges l.
Proof. done. Qed.

Lemma node_range_inj b c : node_range b = node_range c -> b = c.
Proof.
  destruct b as [s n], c as [s' n']. unfold node_range, node_end, node_start. simpl.
  intros H. injection H as -> H. f_equal. lia.
Qed.

Lemma free_ranges_inj l k : free_ranges l = free_ranges k -> l = k.
Proof.
  revert k. induction l as [|b l IH]; intros [|c k]; simpl; try done.
  intros [= H1 H2]. f_equal; [|by apply IH].
  apply node_range_inj. unfold node_range. by f_equal.
Qed.

Lemma insert_frames_eq l fr :
  insert_frames l fr = insert_block l (mkNode (r_start fr) (r_end fr - r_start fr)).
Proof. by destruct l. Qed.

Lemma insert_block_chain lo l b :
  chain 1 1 lo (free_ranges l) -> lo < node_start b -> 0 < frame_count b ->
  Forall (apart (node_range b)) (free_ranges l) ->
  chain 1 1 lo (free_ranges (insert_block l b)).
Proof.
  intros Hch Hlo Hc. revert lo Hch Hlo. induction l as [|x l IH]; intros lo Hch Hlo Hap.
  - nodes_simpl. lia.
  - inversion_clear Hap as [|? ? Hx Hl]. specialize (IH (node_end x)).
    unfold apart in Hx. simpl insert_block. case_test; nodes_simpl;
      destruct Hch as (H1 & H2 & H3); split_and!; try lia; [done|]. apply IH; [done|lia|done].
Qed.

Lemma insert_block_covers l b a :
  covers (free_ranges (insert_block l b)) a
    <-> in_range a (node_range b) \/ covers (free_ranges l) a.
Proof.
  induction l as [|x l IH]; simpl; [by rewrite covers_cons|].
  case_test; rewrite ?free_ranges_cons; simpl; rewrite !covers_cons, ?IH; tauto.
Qed.

Lemma find_free_block_None l n :
  find_free_block l n = None <-> Forall (fun b => frame_count b < n) l.
Proof.
  induction l as [|b l IH]; simpl; [by split|]. rewrite Forall_cons, <- IH.
  case_test; [split; [done|lia]|]. destruct (find_free_block l n) as [[??]|]; by intuition.
Qed.

Lemma find_free_block_Some l n b rest :
  find_free_block l n = Some (b, rest) ->
  exists l1 l2, l = l1 ++ b :: l2 /\ rest = l1 ++ l2 /\ n <= frame_count b /\
    Forall (fun x => frame_count x < n) l1.
Proof.
  revert rest. induction l as [|x l IH]; intros rest; simpl; [done|]. case_test.
  - intros [= <- <-]. by exists [], l.
  - destruct (find_free_block l n) as [[c k]|]; [|done]. intros [= <- <-].
    destruct (IH k eq_refl) as (l1 & l2 & -> & -> & Hn & Hf).
    exists (x :: l1), l2. split_and!; try done. by constructor.
Qed.

Lemma insert_block_app l1 l2 b :
  Forall (fun x => node_start x <= node_start b) l1 ->
  Forall (fun x => node_start b < node_start x) l2 ->
  insert_block (l1 ++ l2) b = l1 ++ b :: l2.
Proof.
  intros H1 H2. induction H1 as [|x l1 Hx Hl1 IH]; simpl.
  - destruct H2; simpl; [done|]. by rewrite (proj2 (Z.gtb_lt _ _)).
  - rewrite IH. by case_test; [lia|].
Qed.

(** Blocks before and behind a block of a well-formed list. *)
Lemma free_list_split lo l1 b l2 :
  chain 1 1 lo (free_ranges (l1 ++ b :: l2)) ->
  Forall (fun x => node_end x < node_start b /\ node_start x < node_end x) l1 /\
  Forall (fun x => node_end b < node_start x) l2 /\ 0 < frame_count b.
Proof.
  unfold free_ranges. rewrite fmap_app, fmap_cons, chain_app. intros (H1 & H2 & H3 & H4).
  split_and!; [..|nodes_simpl; lia]; apply Forall_forall; intros x Hx.
  - apply (chain_elem 1 1 _ _ (node_range x)) in H1; [|lia..|by apply list_elem_of_fmap_2].
    nodes_simpl. lia.
  - apply (chain_elem 1 1 _ _ (node_range x)) in H4; [|lia..|by apply list_elem_of_fmap_2].
    nodes_simpl. lia.
Qed.

(** [alloc_block] cuts the frames off the front of the first block that is large
    enough. *)
Lemma alloc_block_eq lo l n :
  chain 1 1 lo (free_ranges l) -> 0 <= n ->
  (alloc_block l n = Panic "PageFrameAllocator: Out of memory!" /\
   Forall (fun b => frame_count b < n) l) \/
  exists l1 b l2, l = l1 ++ b :: l2 /\ n <= frame_count b /\
    Forall (fun x => frame_count x < n) l1 /\
    alloc_block l n
      = Ret (mkRange (node_start b) (node_start b + n),
             l1 ++ (if n <? frame_count b
                    then [mkNode (node_start b + n) (frame_count b - n)] else []) ++ l2).
Proof.
  intros Hch Hn. unfold alloc_block.
  destruct (find_free_block l n) as [[b rest]|] eqn:Hf.
  - right. apply find_free_block_Some in Hf as (l1 & l2 & -> & -> & Hb & Hl1).
    exists l1, b, l2. split_and!; try done. do 2 f_equal. unfold range_len. simpl.
    destruct (free_list_split _ _ _ _ Hch) as (S1 & S2 & S3). unfold node_end at 1.
    destruct (Z.gtb_spec (node_start b + frame_count b - (node_start b + n)) 0),
      (Z.ltb_spec n (frame_count b)); try lia; [|done].
    rewrite insert_frames_eq. simpl. unfold node_end at 1.
    replace (node_start b + frame_count b - (node_start b + n)) with (frame_count b - n) by lia.
    apply insert_block_app.
    + eapply Forall_impl; [exact S1|]. nodes_simpl. lia.
    + eapply Forall_impl; [exact S2|]. nodes_simpl. lia.
  - left. split; [done|]. by apply find_free_block_None.
Qed.

Lemma alloc_block_spec l n :
  free_list_wf l -> 0 <= n ->
  (alloc_block l n = Panic "PageFrameAllocator: Out of memory!" /\
   Forall (fun b => frame_count b < n) l) \/
  exists r l', alloc_block l n = Ret (r, l') /\ range_len r = n /\ free_list_wf l' /\
    0 < r_start r /\
    (forall f, in_range f r -> is_free l f) /\
    (forall f, is_free l' f <-> is_free l f /\ ~ in_range f r).
Proof.
  unfold free_list_wf, is_free. intros Hch Hn.
  destruct (alloc_block_eq 0 l n Hch Hn) as [H|(l1 & b & l2 & -> & Hb & Hl1 & Heq)]; [by left|].
  right. eexists _, _. split; [exact Heq|].
  set (mid := if n <? frame_count b then [mkNode (node_start b + n) (frame_count b - n)] else []).
  assert (Hmid : forall f, covers (free_ranges mid) f
                   <-> node_start b + n <= f < node_start b + frame_count b).
  { intros f. unfold mid. case_test; nodes_simpl; rewrite ?covers_cons, covers_nil;
      unfold in_range; simpl; lia. }
  destruct (free_list_split _ _ _ _ Hch) as (S1 & S2 & S3).
  unfold free_ranges in *. rewrite !fmap_app, !chain_app in *. simpl in Hch.
  destruct Hch as (H1 & H2 & H3 & H4). unfold node_end in *. simpl in *.
  pose proof (chain_last_end 1 1 0 _ ltac:(lia) ltac:(lia) H1) as Hle.
  split_and!.
  - unfold range_len. simpl. lia.
  - done.
  - unfold mid. case_test; nodes_simpl; [lia|done].
  - unfold mid. case_test; nodes_simpl;
      (eapply chain_weaken; [..|exact H4]; lia).
  - lia.
  - intros f Hf. rewrite covers_app, covers_cons. right. left.
    unfold in_range in *. nodes_simpl. lia.
  - intros f. rewrite !covers_app, covers_cons, Hmid.
    assert (Hlow : covers (node_range <$> l1) f -> f < node_start b).
    { intros Hc. apply (chain_upper 1 1 _ _ _ ltac:(lia) ltac:(lia) H1) in Hc. lia. }
    assert (Hup : covers (node_range <$> l2) f -> node_start b + frame_count b < f).
    { intros Hc. apply (chain_lower 1 1 _ _ _ ltac:(lia) ltac:(lia) H4) in Hc. lia. }
    unfold in_range, node_range, node_end. simpl. intuition lia.
Qed.

Lemma chain_apart_below lo l fr :
  chain 1 1 lo (free_ranges l) -> r_end fr <= lo -> Forall (apart fr) (free_ranges l).
Proof.
  intros Hch Hlo. apply Forall_forall. intros x Hx.
  apply (chain_elem 1 1 _ _ _ ltac:(lia) ltac:(lia) Hch) in Hx. left. lia.
Qed.

(** The freed range starts where block [b] ends. *)
Lemma fuse_top_spec b l fr :
  chain 1 1 (node_end b) (free_ranges l) -> node_end b = r_start fr -> r_start fr < r_end fr ->
  (forall f, in_range f fr -> ~ is_free l f) ->
  let b' := mkNode (node_frame b) (frame_count b + range_len fr) in
  exists b'' k, match l with
    | next :: l'' =>
        if node_end b' =? node_start next
        then Ret (Some (mkNode (node_frame b') (frame_count b' + frame_count next) :: l''))
        else Ret (Some (b' :: l))
    | [] => Ret (Some [b'])
    end = Ret (Some (b'' :: k)) /\
    node_start b'' = node_start b /\ r_end fr <= node_end b'' /\
    chain 1 1 (node_end b'') (free_ranges k) /\
    (forall f, node_end b <= f < node_end b'' \/ is_free k f <-> is_free l f \/ in_range f fr).
Proof.
  intros Hch Hb Hfr Hdis b'. unfold is_free in *.
  assert (He : node_end b' = r_end fr).
  { unfold b', range_len in *. nodes_simpl. lia. }
  destruct l as [|next l''].
  - exists b', []. rewrite He. split_and!; try done; try lia.
    intros f. unfold in_range. rewrite Hb. tauto.
  - rewrite free_ranges_cons in *. destruct Hch as (H1 & H2 & H3).
    unfold node_range in H1, H2, H3. simpl in H1, H2, H3.
    assert (Hle : r_end fr <= node_start next).
    { destruct (Z.le_gt_cases (r_end fr) (node_start next)) as [|Hgt]; [done|exfalso].
      apply (Hdis (node_start next)); [unfold in_range; lia|].
      rewrite covers_cons. left. unfold in_range, node_range. simpl. lia. }
    case_test.
    + eexists _, l''. split; [done|].
      assert (He' : node_end (mkNode (node_frame b') (frame_count b' + frame_count next)) = node_end next)
        by (nodes_simpl; lia).
      rewrite He'. split_and!; [done|lia|done|].
      intros f. rewrite covers_cons. unfold in_range, node_range. simpl. intuition lia.
    + exists b', (next :: l''). rewrite He. split_and!; try done; try lia.
      * rewrite free_ranges_cons. unfold node_range. simpl. split_and!; [lia|lia|done].
      * intros f. rewrite free_ranges_cons, covers_cons. unfold in_range, node_range. simpl. intuition lia.
Qed.

(** Fusion, from a suffix of the list whose predecessor ends at [lo]. *)
Lemma fuse_block_spec lo l fr :
  chain 1 1 lo (free_ranges l) -> lo < r_start fr < r_end fr ->
  (forall f, in_range f fr -> ~ is_free l f) ->
  (exists l', fuse_block l fr = Ret (Some l') /\ chain 1 1 lo (free_ranges l') /\
     (forall f, is_free l' f <-> is_free l f \/ in_range f fr)) \/
  (fuse_block l fr = Ret None /\ Forall (apart fr) (free_ranges l)).
Proof.
  unfold is_free. revert lo. induction l as [|b l IH]; intros lo Hch Hfr Hdis.
  { right. split; [done|]. constructor. }
  rewrite free_ranges_cons in *. simpl fuse_block.
  destruct Hch as (H1 & H2 & H3). unfold node_range in *. simpl in *.
  assert (Hdb : r_end fr <= node_start b \/ node_end b <= r_start fr).
  { destruct (Z.le_gt_cases (r_end fr) (node_start b)) as [|Hgt]; [by left|].
    destruct (Z.le_gt_cases (node_end b) (r_start fr)) as [|Hgt2]; [by right|]. exfalso.
    apply (Hdis (Z.max (node_start b) (r_start fr))); [unfold in_range; lia|].
    rewrite covers_cons. left. unfold in_range. simpl. lia. }
  assert (Hdl : forall f, in_range f fr -> ~ covers (free_ranges l) f).
  { intros f Hf Hc. apply (Hdis f Hf). rewrite covers_cons. by right. }
  assert (Htest : negb ((r_end fr <=? node_start b) || (r_start fr >=? node_end b)) = false).
  { destruct (Z.leb_spec (r_end fr) (node_start b)), (Z.geb_spec (r_start fr) (node_end b));
      simpl; try done; lia. }
  rewrite Htest. clear Htest. destruct (Z.eqb_spec (r_end fr) (node_start b)) as [He|He].
  { left. eexists. split; [done|]. rewrite free_ranges_cons.
    assert (Hr : node_range (mkNode (r_start fr) (frame_count b + range_len fr))
                 = mkRange (r_start fr) (node_end b)).
    { unfold range_len. nodes_simpl. f_equal. lia. }
    rewrite Hr. simpl. split; [split_and!; [lia|lia|done]|].
    intros f. rewrite !covers_cons. unfold in_range. simpl. intuition lia. }
  destruct (Z.eqb_spec (node_end b) (r_start fr)) as [Ht|Ht].
  { left. destruct (fuse_top_spec b l fr) as (b'' & k & Heq & F1 & F2 & F3 & F4);
      [done|done|lia|done|].
    exists (b'' :: k). split; [exact Heq|]. rewrite free_ranges_cons.
    unfold node_range. simpl. rewrite F1. split; [split_and!; [lia|lia|done]|].
    intros f. specialize (F4 f). rewrite !covers_cons. unfold in_range, node_range, is_free in *.
    simpl. assert (E : node_start b <= f < node_end b'' <->
      node_start b <= f < node_end b \/ node_end b <= f < node_end b'') by lia.
    rewrite E. tauto. }
  destruct (Z.gtb_spec (node_end b) (r_start fr)).
  { right. split; [done|]. constructor; [left; simpl; lia|].
    eapply chain_apart_below; [exact H3|lia]. }
  destruct (IH (node_end b)) as [(l' & -> & C1 & C2)|[-> C1]]; [done|lia|done|..].
  - left. exists (b :: l'). split; [done|]. rewrite free_ranges_cons. simpl.
    split; [done|]. intros f. rewrite !covers_cons, C2. tauto.
  - right. split; [done|]. constructor; [right; simpl; lia|done].
Qed.

Lemma free_block_spec l fr :
  free_list_wf l -> 0 < r_start fr < r_end fr -> (forall f, in_range f fr -> ~ is_free l f) ->
  exists l', free_block l fr = Ret l' /\ free_list_wf l' /\
    (forall f, is_free l' f <-> is_free l f \/ in_range f fr).
Proof.
  intros Hwf Hfr Hdis. unfold free_block.
  destruct (fuse_block_spec 0 l fr) as [(l' & -> & C1 & C2)|[-> C1]]; try done.
  - by exists l'.
  - eexists. split; [done|]. rewrite insert_frames_eq.
    assert (Hnr : node_range (mkNode (r_start fr) (r_end fr - r_start fr)) = fr).
    { destruct fr as [s e]. nodes_simpl. f_equal. lia. }
    split.
    + apply insert_block_chain; [done|nodes_simpl; lia..|]. by rewrite Hnr.
    + intros f. unfold is_free. rewrite insert_block_covers, Hnr. tauto.
Qed.

Lemma total_free_frames_acc l a : total_free_frames l a = a + total_free_frames l 0.
Proof.
  revert a. induction l as [|b l IH]; intros a; cbn [total_free_frames]; [lia|].
  rewrite (IH (a + frame_count b)), (IH (0 + frame_count b)). lia.
Qed.

Lemma total_cons b l : total_free_frames (b :: l) 0 = frame_count b + total_free_frames l 0.
Proof. cbn [total_free_frames]. rewrite total_free_frames_acc. lia. Qed.

Lemma total_app l k :
  total_free_frames (l ++ k) 0 = total_free_frames l 0 + total_free_frames k 0.
Proof.
  induction l as [|b l IH]; [done|]. rewrite <- app_comm_cons, !total_cons, IH. lia.
Qed.

Lemma total_insert_block l b :
  total_free_frames (insert_block l b) 0 = frame_count b + total_free_frames l 0.
Proof.
  induction l as [|x l IH]; simpl insert_block; [apply total_cons|]. case_test; rewrite !total_cons; [done|].
  rewrite IH. lia.
Qed.

Lemma total_fuse_block l fr l' :
  fuse_block l fr = Ret (Some l') ->
  total_free_frames l' 0 = total_free_frames l 0 + range_len fr.
Proof.
  revert l'. induction l as [|b l IH]; intros l' H; simpl in H; [done|].
  destruct (negb _); [done|].
  destruct (r_end fr =? node_start b); [simplify_eq; rewrite !total_cons; simpl; lia|].
  destruct (node_end b =? r_start fr).
  - destruct l as [|next l]; [|case_test_in H]; simplify_eq; rewrite !total_cons; simpl; lia.
  - case_test_in H; [done|]. inv_bind H. destruct a as [k|]; [|done]. simplify_eq.
    rewrite !total_cons, (IH k E). lia.
Qed.

Lemma total_free_block l fr l' :
  free_block l fr = Ret l' -> total_free_frames l' 0 = total_free_frames l 0 + range_len fr.
Proof.
  unfold free_block. intros H. inv_bind H. destruct a as [k|]; simplify_eq.
  - by apply total_fuse_block.
  - rewrite insert_frames_eq, total_insert_block. unfold range_len. simpl. lia.
Qed.

Lemma total_alloc_block l n r l' :
  free_list_wf l -> 0 <= n -> alloc_block l n = Ret (r, l') ->
  total_free_frames l' 0 = total_free_frames l 0 - n.
Proof.
  intros Hwf Hn H.
  destruct (alloc_block_eq 0 l n Hwf Hn) as [[H' _]|(l1 & b & l2 & -> & Hb & _ & H')];
    rewrite H' in H; [done|]. injection H as <- <-.
  rewrite !total_app, total_cons. case_test; simpl; lia.
Qed.

Lemma total_nonneg lo l : chain 1 1 lo (free_ranges l) -> 0 <= total_free_frames l 0.
Proof.
  revert lo. induction l as [|b l IH]; intros lo; [simpl; lia|].
  rewrite free_ranges_cons, total_cons. intros (H1 & H2 & H3). specialize (IH _ H3).
  nodes_simpl. lia.
Qed.

(** Filling the list from the regions of the DRAM map. *)
Lemma init_loop_spec lo l rs :
  free_list_wf l -> (forall f, is_free l f -> f * PAGE_SIZE < lo) ->
  PAGE_SIZE - 1 <= lo -> chain 0 1 lo rs -> Forall aligned rs ->
  exists l', init_loop l rs = Ret l' /\ free_list_wf l' /\
    (forall f, is_free l' f <-> is_free l f \/ covers rs (f * PAGE_SIZE)).
Proof.
  intros Hwf Hlow Hlo Hch Hal. revert lo l Hwf Hlow Hlo Hch.
  induction Hal as [|r rs [Ha1 Ha2] Hal IH]; intros lo l Hwf Hlow Hlo Hch; simpl.
  { exists l. split_and!; try done. intros f. rewrite covers_nil. tauto. }
  destruct Hch as (H1 & H2 & H3).
  rewrite (proj2 (Z.eqb_neq _ _)) by lia. rewrite Ha1, Ha2. simpl.
  rewrite !from_start_address_ok by done. outcome_simpl.
  unfold PAGE_SIZE in *. set (s := r_start r / 4096). set (e := r_end r / 4096).
  assert (Hs : r_start r = s * 4096) by (unfold s; pose proof (Z.div_mod (r_start r) 4096); lia).
  assert (He : r_end r = e * 4096) by (unfold e; pose proof (Z.div_mod (r_end r) 4096); lia).
  unfold mark_avail, start_address, PAGE_SIZE. simpl.
  rewrite (proj2 (Z.eqb_neq _ _)) by lia.
  destruct (free_block_spec l (mkRange s e)) as (l1 & -> & W1 & F1); [done|simpl; lia|..].
  { intros f Hf Hc%Hlow. unfold in_range in Hf. simpl in Hf. lia. }
  simpl. destruct (IH (r_end r) l1) as (l' & -> & W' & F'); [done| |lia|done|].
  { intros f. rewrite F1. unfold in_range. simpl. intros [?%Hlow|]; lia. }
  exists l'. split_and!; try done. intros f. rewrite F', F1, covers_cons.
  unfold in_range. simpl. intuition lia.
Qed.

Lemma disjoint_covers r live :
  Forall (disjoint_ranges r) live <-> forall f, in_range f r -> ~ covers live f.
Proof.
  induction live as [|x live IH]; [split; [by intros _ f _ ?%covers_nil | by constructor]|].
  rewrite Forall_cons, IH. unfold disjoint_ranges. setoid_rewrite covers_cons. firstorder.
Qed.

Lemma ForallOrdPairs_remove {A} (R : A -> A -> Prop) l1 x l2 :
  (forall a b, R a b -> R b a) -> ForallOrdPairs R (l1 ++ x :: l2) ->
  ForallOrdPairs R (l1 ++ l2) /\ Forall (R x) (l1 ++ l2).
Proof.
  intros Hsym. induction l1 as [|y l1 IH]; simpl; intros H; inversion_clear H as [|? ? Hy Hr].
  - done.
  - apply Forall_app in Hy as [Hy1 [Hyx Hy2]%Forall_cons]. destruct (IH Hr) as [I1 I2].
    split; constructor; auto. by apply Forall_app.
Qed.

Lemma covers_remove live1 r live2 f :
  covers (live1 ++ r :: live2) f <-> in_range f r \/ covers (live1 ++ live2) f.
Proof. rewrite !covers_app, covers_cons. tauto. Qed.

Lemma ownership_step mem s s' : ownership mem s -> client_step s s' -> ownership mem s'.
Proof.
  intros [W L D N M] Hstep. destruct Hstep as [l live n r l' Hn Ha|l live1 r live2 l' Hf]; simpl in *.
  - destruct (alloc_block_spec l n W ltac:(lia)) as [[Hp _]|(r' & k & Ha' & Hr & W' & Hs & A1 & A2)];
      [congruence|]. rewrite Ha in Ha'. injection Ha' as <- <-. unfold range_len in Hr.
    constructor; simpl; try done.
    + constructor; [lia|done].
    + constructor; [|done]. apply disjoint_covers. intros f Hf Hc. apply (N f Hc). auto.
    + intros f. rewrite covers_cons, A2. specialize (N f). tauto.
    + intros f. rewrite M, A2, covers_cons. specialize (A1 f).
      destruct (decide (r_start r <= f < r_end r)); unfold in_range in *; tauto.
  - apply ForallOrdPairs_remove in D as [D1 D2]; [|firstorder].
    apply Forall_app in L as [L1 [Lr L2]%Forall_cons].
    setoid_rewrite covers_remove in N. setoid_rewrite covers_remove in M.
    destruct (free_block_spec l r) as (k & Hk & W' & F'); [done|done|auto|].
    rewrite Hf in Hk. injection Hk as <-.
    constructor; simpl; try done.
    + by apply Forall_app.
    + intros f Hc. rewrite F'. rewrite disjoint_covers in D2. intros [?|Hr].
      * apply (N f); auto.
      * by apply (D2 f).
    + intros f. rewrite M, F'. tauto.
Qed.

Lemma fuse_block_overlap lo l fr f :
  chain 1 1 lo (free_ranges l) -> r_start fr < r_end fr -> in_range f fr -> is_free l f ->
  Forall (fun b => node_end b <> r_start fr) l -> panics (fuse_block l fr).
Proof.
  unfold is_free. revert lo. induction l as [|b l IH]; intros lo Hch Hfr Hf Hc Hne.
  { by apply covers_nil in Hc. }
  rewrite free_ranges_cons in *. destruct Hch as (H1 & H2 & H3).
  apply Forall_cons in Hne as [Hb Hne]. unfold node_range in H1, H2, H3. simpl in *.
  destruct (negb _) eqn:Ht; [by eexists|].
  assert (Hdis : r_end fr <= node_start b \/ node_end b <= r_start fr).
  { destruct (Z.leb_spec (r_end fr) (node_start b)), (Z.geb_spec (r_start fr) (node_end b));
      simpl in Ht; try done; lia. }
  assert (Hl : covers (free_ranges l) f).
  { apply covers_cons in Hc as [Hc|Hc]; [|done]. unfold in_range, node_range in *. simpl in *. lia. }
  pose proof (chain_lower 1 1 _ _ _ ltac:(lia) ltac:(lia) H3 Hl) as Hlf. unfold in_range in Hf.
  rewrite (proj2 (Z.eqb_neq (r_end fr) _)) by lia. rewrite (proj2 (Z.eqb_neq _ _)) by done.
  case_test; [lia|].
  destruct (IH (node_end b)) as [msg ->]; try done. by eexists.
Qed.

(** ** Theorems about the frame allocator *)

(** Allocation on a well-formed free list is first fit: it panics exactly if no
    block is large enough, and otherwise returns [n] consecutive frames from the
    front of the first block that is; all of them were free, exactly they are
    no longer free, and the list stays sorted and fused. *)
Theorem alloc_block_correct (l : list PageFrameNode) (n : Z) :
  free_list_wf l -> 0 <= n ->
  (Forall (fun b => frame_count b < n) l /\ panics (alloc_block l n)) \/
  exists l1 b l2 l', l = l1 ++ b :: l2 /\ Forall (fun x => frame_count x < n) l1 /\
    n <= frame_count b /\
    alloc_block l n = Ret (mkRange (node_start b) (node_start b + n), l') /\
    free_list_wf l' /\
    (forall f, node_start b <= f < node_start b + n -> is_free l f) /\
    (forall f, is_free l' f <-> is_free l f /\ ~ node_start b <= f < node_start b + n).
Proof.
  intros Hwf Hn.
  destruct (alloc_block_eq 0 l n Hwf Hn) as [[H1 H2]|(l1 & b & l2 & Hl & Hb & Hl1 & Heq)].
  - left. split; [done|]. by eexists.
  - right. destruct (alloc_block_spec l n Hwf Hn) as [[H _]|(r & l' & H & Hr & W & _ & A1 & A2)];
      [congruence|].
    rewrite Heq in H. injection H as <- <-. eexists l1, b, l2, _. split_and!; done.
Qed.

Lemma alloc_block_correct_witness :
  panics (alloc_block [mkNode 1 2; mkNode 8 4] 5) /\
  alloc_block [mkNode 1 2; mkNode 8 4] 3 = Ret (mkRange 8 11, [mkNode 1 2; mkNode 11 1]).
Proof.
  split; [|reflexivity].
  destruct (alloc_block_correct [mkNode 1 2; mkNode 8 4] 5)
    as [[_ H]|(l1 & b & l2 & l' & _ & _ & _ & H & _)].
  - unfold free_list_wf. nodes_simpl. lia.
  - discriminate.
  - exact H.
  - vm_compute in H. discriminate.
Defined.

(** Freeing frames that are not free returns a sorted, fused list in which exactly
    those frames became free: fusion with a lower neighbour, an upper neighbour
    or both, or a new node, never loses or duplicates a frame. *)
Theorem free_block_correct (l : list PageFrameNode) (frames : range) :
  free_list_wf l -> 0 < r_start frames < r_end frames ->
  (forall f, in_range f frames -> ~ is_free l f) ->
  exists l', free_block l frames = Ret l' /\ free_list_wf l' /\
    (forall f, is_free l' f <-> is_free l f \/ in_range f frames).
Proof. apply free_block_spec. Qed.

Lemma free_block_correct_witness :
  exists l', free_block [mkNode 1 2; mkNode 8 4] (mkRange 3 8) = Ret l' /\ free_list_wf l' /\
    (forall f, is_free l' f <-> is_free [mkNode 1 2; mkNode 8 4] f \/ in_range f (mkRange 3 8)).
Proof.
  apply (free_block_correct [mkNode 1 2; mkNode 8 4] (mkRange 3 8)).
  - unfold free_list_wf. nodes_simpl. lia.
  - simpl. lia.
  - intros f Hf Hc. unfold is_free in Hc. nodes_simpl. rewrite !covers_cons, covers_nil in Hc.
    unfold in_range in *. simpl in *. lia.
Defined.

(** Freeing what was just allocated restores the free list exactly, node for
    node. *)
Theorem alloc_free_roundtrip (l l' : list PageFrameNode) (n : Z) (r : range) :
  free_list_wf l -> 0 < n -> alloc_block l n = Ret (r, l') -> free_block l' r = Ret l.
Proof.
  intros Hwf Hn Ha.
  destruct (alloc_block_spec l n Hwf ltac:(lia)) as [[Hp _]|(r' & k & Ha' & Hr & W' & Hs & A1 & A2)];
    [congruence|].
  rewrite Ha in Ha'. injection Ha' as <- <-. unfold range_len in Hr.
  destruct (free_block_spec l' r) as (l2 & Hf & W2 & F2); [done|lia|intros f Hf; rewrite A2; tauto|].
  rewrite Hf. f_equal. apply free_ranges_inj. apply (chain_unique 0); [done..|].
  intros f. change (is_free l2 f <-> is_free l f). rewrite F2, A2. specialize (A1 f).
  destruct (decide (r_start r <= f < r_end r)); unfold in_range in *; tauto.
Qed.

Lemma alloc_free_roundtrip_witness :
  free_block [mkNode 1 2; mkNode 11 1] (mkRange 8 11) = Ret [mkNode 1 2; mkNode 8 4].
Proof.
  apply (alloc_free_roundtrip [mkNode 1 2; mkNode 8 4] [mkNode 1 2; mkNode 11 1] 3 (mkRange 8 11)).
  - unfold free_list_wf. nodes_simpl. lia.
  - lia.
  - reflexivity.
Defined.

(** C6 Over any sequence of allocations and frees by clients that free only what
    they own, no frame is ever handed out twice: owned ranges stay pairwise
    disjoint and disjoint from the free list, no frame is lost or invented, and
    freeing an owned range never panics. *)
Theorem frames_never_shared (mem : Z -> Prop) (s s' : list PageFrameNode * list range) :
  ownership mem s -> rtc client_step s s' ->
  ownership mem s' /\ (forall r, r ∈ s'.2 -> returns (free_block s'.1 r)).
Proof.
  intros Ho Hsteps. assert (Ho' : ownership mem s').
  { induction Hsteps as [|s s1 s' Hst _ IH]; [done|]. apply IH. by eapply ownership_step. }
  split; [done|]. intros r Hr. destruct Ho' as [W L D N M].
  destruct (free_block_spec s'.1 r) as (l' & H & _); [done| |..].
  - rewrite Forall_forall in L. auto.
  - intros f Hf. apply N. by exists r.
  - by exists l'.
Qed.

Lemma frames_never_shared_witness :
  let s' := ([mkNode 1 2; mkNode 11 1], [mkRange 8 11]) in
  ownership (is_free [mkNode 1 2; mkNode 8 4]) s' /\
  (forall r, r ∈ s'.2 -> returns (free_block s'.1 r)).
Proof.
  refine (frames_never_shared (is_free [mkNode 1 2; mkNode 8 4])
    ([mkNode 1 2; mkNode 8 4], []) ([mkNode 1 2; mkNode 11 1], [mkRange 8 11]) _ _).
  - constructor.
    + unfold free_list_wf. nodes_simpl. lia.
    + constructor.
    + constructor.
    + by intros f Hc%covers_nil.
    + intros f. split; [by left | by intros [Hf|Hf%covers_nil]].
  - eapply rtc_l; [|apply rtc_refl]. apply (step_alloc _ _ 3); [lia|reflexivity].
Defined.

(** A free that overlaps a free frame is detected (the allocator panics), unless
    the freed range starts exactly at the end of a free block. *)
Theorem double_free_detected (l : list PageFrameNode) (frames : range) (f : Z) :
  free_list_wf l -> in_range f frames -> is_free l f ->
  Forall (fun b => node_end b <> r_start frames) l -> panics (free_block l frames).
Proof.
  intros Hwf Hf Hfree Hne. unfold free_block.
  destruct (fuse_block_overlap 0 l frames f) as [msg ->]; try done.
  - unfold in_range in Hf. lia.
  - by eexists.
Qed.

Lemma double_free_detected_witness : panics (free_block [mkNode 1 2; mkNode 8 4] (mkRange 9 10)).
Proof.
  apply (double_free_detected [mkNode 1 2; mkNode 8 4] (mkRange 9 10) 9).
  - unfold free_list_wf. nodes_simpl. lia.
  - unfold in_range. simpl. lia.
  - exists (node_range (mkNode 8 4)). split; [right; left|]. unfold in_range. nodes_simpl. lia.
  - repeat constructor; discriminate.
Defined.

(** The exception is real: a range that starts at the end of one free block and
    reaches into the next one is accepted, and leaves two overlapping blocks. *)
Theorem double_free_missed :
  free_block [mkNode 1 2; mkNode 5 3] (mkRange 3 6) = Ret [mkNode 1 5; mkNode 5 3] /\
  is_free [mkNode 1 2; mkNode 5 3] 5 /\ ~ free_list_wf [mkNode 1 5; mkNode 5 3].
Proof.
  split_and!; [reflexivity| |unfold free_list_wf; nodes_simpl; lia].
  exists (node_range (mkNode 5 3)). split; [right; left|]. unfold in_range. nodes_simpl. lia.
Qed.

(** The counter [FREE_FRAMES] stays exact: while it agrees with the list it does so
    after every successful [alloc_frames] and [free_frames], and never wraps. *)
Theorem counter_exact (s : FrameState) (n : Z) (frames : range) :
  frame_state_wf s -> 0 <= n -> 0 < r_start frames < r_end frames ->
  (forall f, in_range f frames -> ~ is_free (free_list s) f) ->
  get_free_frames s + range_len frames <= U64_MAX ->
  (forall r s', alloc_frames s n = Ret (r, s') ->
     frame_state_wf s' /\ get_free_frames s' = get_free_frames s - n) /\
  (exists s', free_frames s frames = Ret s' /\ frame_state_wf s' /\
     get_free_frames s' = get_free_frames s + range_len frames).
Proof.
  intros [W C B] Hn Hfr Hdis Hb. unfold get_free_frames in *. split.
  - intros r s' H. unfold alloc_frames in H. inv_bind H. destruct a as [r' l]. simplify_eq. simpl.
    pose proof (total_alloc_block _ _ _ _ W Hn E) as Ht.
    destruct (alloc_block_spec _ n W Hn) as [[Hp _]|(r' & k & Ha & _ & W' & _)]; [congruence|].
    rewrite E in Ha. injection Ha as <- <-.
    pose proof (total_nonneg 0 l W'). unfold wrap64, U64_MAX in *.
    rewrite Z.mod_small by lia. split; [constructor; simpl; unfold U64_MAX; lia || done|lia].
  - destruct (free_block_spec _ frames W Hfr Hdis) as (l' & E & W' & _).
    pose proof (total_free_block _ _ _ E) as Ht. pose proof (total_nonneg 0 _ W).
    unfold free_frames. rewrite E. simpl. eexists. split; [done|]. simpl.
    unfold wrap64, U64_MAX, range_len in *. rewrite Z.mod_small by lia.
    split; [constructor; simpl; unfold U64_MAX; lia || done|lia].
Qed.

Lemma counter_exact_witness :
  exists s', free_frames (mkFrameState [mkNode 8 4] 4) (mkRange 3 8) = Ret s' /\ frame_state_wf s' /\
    get_free_frames s' = 9.
Proof.
  refine (proj2 (counter_exact (mkFrameState [mkNode 8 4] 4) 0 (mkRange 3 8) _ _ _ _ _)).
  - constructor; [unfold free_list_wf; nodes_simpl; lia | reflexivity | vm_compute; discriminate].
  - lia.
  - simpl. lia.
  - intros f Hf Hc. unfold is_free in Hc. nodes_simpl. rewrite !covers_cons, covers_nil in Hc.
    unfold in_range in *. simpl in *. lia.
  - vm_compute. discriminate.
Defined.

(** Initialised from a finalised DRAM map, the allocator holds exactly the frames
    whose page is available; nothing panics and the free list is well-formed. *)
Theorem frames_init_correct (d : Dram) :
  dram_ready d ->
  exists l, frames_init d = Ret l /\ free_list_wf l /\
    (forall f, is_free l f <-> covers (entries (available d)) (start_address f)).
Proof.
  intros [Rf [(Req & Rlen & Ral) Rch Rlim] _ _ _ _]. unfold frames_init, get_all_available. rewrite Rf. simpl.
  destruct (init_loop_spec (PAGE_SIZE - 1) free_list_new (entries (available d)))
    as (l & Hl & W & F); try done; [by intros f Hc%covers_nil|].
  exists l. split_and!; try done. intros f. rewrite F. unfold is_free, start_address. simpl.
  rewrite covers_nil. tauto.
Qed.

Lemma frames_init_correct_witness :
  exists l, frames_init (mkDram 40960 true (set_of [mkRange 4096 8192; mkRange 12288 40960])
                           (set_of [mkRange 0 4096; mkRange 8192 12288])) = Ret l /\
    free_list_wf l /\
    (forall f, is_free l f <->
       covers (entries (set_of [mkRange 4096 8192; mkRange 12288 40960])) (start_address f)).
Proof. exact (frames_init_correct _ example_ready).
Defined.

(** The unused [reserve_block] does not reserve: it skips the block behind one it
    removes, so a reserved frame stays free, and it panics when the removed
    block was the last one. *)
Theorem reserve_block_incomplete :
  reserve_block [mkNode 1 1; mkNode 3 1] (mkRange 1 10) = Ret [mkNode 3 1] /\
  panics (reserve_block [mkNode 1 1] (mkRange 1 10)).
Proof. split; [reflexivity|]. eexists. reflexivity. Qed.
