(* ===== verification/FramesLf.v ===== *)
(** * Lock-free page frame allocator ([os/kernel/src/memory/frames_lf.rs])

    The default allocator is a wrapper around the [llfree] crate.  The crate is
    a parameter: its state, [new], [get] and [put], with the behaviour its
    documentation promises stated as the laws of [LLFreeLaws].  The wrapper's
    rounding, its splitting of reserved regions into aligned power-of-two
    chunks and its initialisation from the DRAM map are modelled in full. *)

From S2P Require Import Prelude Intervals Dram.

Open Scope Z_scope.

(** ** Integer helpers of the language *)

(** [usize::trailing_zeros] of a positive number *)
Fixpoint pos_ctz (p : positive) : Z :=
  match p with
  | xO p' => 1 + pos_ctz p'
  | _ => 0
  end.
Definition trailing_zeros (n : Z) : Z :=
  match n with
  | Zpos p => pos_ctz p
  | _ => 64
  end.

(** [u64::is_power_of_two] *)
Definition is_power_of_two (n : Z) : bool := (0 <? n) && (2 ^ Z.log2 n =? n).

(** [usize::next_power_of_two]: overflow panics in the debug profile. *)
Definition next_power_of_two (n : Z) : outcome Z :=
  if n <=? 2 ^ 63 then Ret (2 ^ Z.log2_up n) else Panic "attempt to add with overflow".

(* [os/kernel/src/memory/frames_lf.rs:218-226] round_up_pow2 *)
Definition round_up_pow2 (n : Z) : outcome (option Z) :=
  if n =? 0 then Ret None else
  next ← next_power_of_two n;
  Ret (if next =? 0 then None else Some next).

(** The crate's interface: [LLFree::new(frames, FreeAll, ..)], [get] at a given
    frame or anywhere, [put]; the request is determined by its order. *)
Class LLFree := {
  LL : Type;
  ll_error : Type;
  MAX_ORDER : nat;
  ll_new : Z -> LL;
  ll_get : LL -> option Z -> Z -> result ll_error (Z * LL);
  ll_put : LL -> Z -> Z -> result ll_error LL;
  ll_free : LL -> Z -> Prop
}.

(** A block of [2 ^ order] frames starting at [f]. *)
Definition block_of (f order : Z) : range := mkRange f (f + 2 ^ order).

(** A block the crate manages: its order is supported and it is aligned. *)
Definition ll_block `{LLFree} (f order : Z) : Prop :=
  0 <= order <= Z.of_nat MAX_ORDER /\ (2 ^ order | f).

Class LLFreeLaws `{LLFree} := {
  ll_new_free n f : ll_free (ll_new n) f <-> 0 <= f < n;
  ll_get_at s f o :
    ll_block f o -> (forall g, in_range g (block_of f o) -> ll_free s g) ->
    exists s', ll_get s (Some f) o = Ok (f, s') /\
      (forall g, ll_free s' g <-> ll_free s g /\ ~ in_range g (block_of f o));
  ll_get_any s o f s' :
    ll_get s None o = Ok (f, s') ->
    ll_block f o /\ (forall g, in_range g (block_of f o) -> ll_free s g) /\
    (forall g, ll_free s' g <-> ll_free s g /\ ~ in_range g (block_of f o));
  ll_put_ok s f o :
    ll_block f o -> (forall g, in_range g (block_of f o) -> ~ ll_free s g) ->
    exists s', ll_put s f o = Ok s' /\
      (forall g, ll_free s' g <-> ll_free s g \/ in_range g (block_of f o))
}.

Section Wrapper.
Context `{LLFree}.

(* [os/kernel/src/memory/frames_lf.rs:159-180] alloc_internal *)
Definition alloc_internal (s : LL) (frame_start : option Z) (frame_count : Z)
    : outcome (range * LL) :=
  rounded ← round_up_pow2 frame_count;
  rounded_frame_count ← expect rounded "unwrap on None";
  let order := trailing_zeros rounded_frame_count in
  match ll_get s frame_start order with
  | Ok (frame_id, s') =>
      start_frame ← expect (from_start_address (frame_id * PAGE_SIZE))
                      "llfree returned unaligned frame address";
      Ret (mkRange start_frame (start_frame + rounded_frame_count), s')
  | Err _ => Panic "PageFrameAllocator: error"
  end.

(* os/kernel/src/memory/frames_lf.rs: alloc *)
Definition lf_alloc (s : LL) (frame_count : Z) : outcome (range * LL) :=
  alloc_internal s None frame_count.

(* [os/kernel/src/memory/frames_lf.rs:184-198] free *)
Definition lf_free (s : LL) (frames : range) : outcome LL :=
  let start_frame_number := start_address (r_start frames) / PAGE_SIZE in
  let nr_of_frames := (start_address (r_end frames) - start_address (r_start frames)) / PAGE_SIZE in
  _ ← rust_assert (is_power_of_two nr_of_frames) "page frame range length must be a power of two";
  let order := trailing_zeros nr_of_frames in
  match ll_put s start_frame_number order with
  | Ok s' => Ret s'
  | Err _ => Panic "PageFrameAllocator: free error!"
  end.

(** [while current_frame % chunk != 0 { chunk >>= 1 }]; [k] is the order of
    [chunk], which the loop lowers at most to 0. *)
(* os/kernel/src/memory/frames_lf.rs: mark_reserved *)
Fixpoint fit_chunk (current_frame : Z) (k : nat) : nat :=
  match k with
  | O => O
  | S k' => if current_frame mod 2 ^ Z.of_nat k =? 0 then k else fit_chunk current_frame k'
  end.

(* os/kernel/src/memory/frames_lf.rs: mark_reserved *)
Definition largest_chunk (remaining : Z) : nat :=
  if remaining >=? 2 ^ Z.of_nat MAX_ORDER then MAX_ORDER else Z.to_nat (Z.log2 remaining).

(** Every round reserves at least one frame, so [remaining] rounds suffice. *)
(* os/kernel/src/memory/frames_lf.rs: mark_reserved *)
Fixpoint mark_reserved_loop (fuel : nat) (s : LL) (current_addr remaining : Z) : outcome LL :=
  if remaining >? 0 then
    match fuel with
    | O => Panic "out of fuel"
    | S fuel' =>
        let current_frame := current_addr / PAGE_SIZE in
        let chunk := 2 ^ Z.of_nat (fit_chunk current_frame (largest_chunk remaining)) in
        '(_, s') ← alloc_internal s (Some current_frame) chunk;
        mark_reserved_loop fuel' s' (current_addr + chunk * PAGE_SIZE) (remaining - chunk)
    end
  else Ret s.

(* [os/kernel/src/memory/frames_lf.rs:122-154] mark_reserved *)
Definition mark_reserved (s : LL) (at_phys_addr frame_count : Z) : outcome LL :=
  _ ← rust_assert (at_phys_addr mod PAGE_SIZE =? 0) "Starting physical address must be aligned";
  _ ← rust_assert (frame_count >? 0) "frame_count must be greater than zero";
  mark_reserved_loop (Z.to_nat frame_count) s at_phys_addr frame_count.

(* [os/kernel/src/memory/frames_lf.rs:93-109] finalize *)
Fixpoint lf_finalize_loop (s : LL) (rs : list Region) : outcome LL :=
  match rs with
  | [] => Ret s
  | r :: rs' =>
      let start_addr := r_start r in
      let len := Z.max 0 (r_end r - start_addr) in
      if len =? 0 then lf_finalize_loop s rs' else
      _ ← rust_assert (start_addr mod PAGE_SIZE =? 0) "start aligned";
      _ ← rust_assert (r_end r mod PAGE_SIZE =? 0) "end aligned";
      s' ← mark_reserved s start_addr (len / PAGE_SIZE);
      lf_finalize_loop s' rs'
  end.

(* [os/kernel/src/memory/frames_lf.rs:39-74] init *)
Definition lf_init (d : Dram) : outcome LL :=
  let num_frames := dram_limit d / PAGE_SIZE in
  let s := ll_new num_frames in
  rs ← get_all_reserved d;
  lf_finalize_loop s rs.

End Wrapper.

(** ** Lemmas *)

Lemma trailing_zeros_pow2 k : 0 <= k -> trailing_zeros (2 ^ k) = k.
Proof.
  intros Hk. revert k Hk. apply natlike_ind; [done|]. intros k Hk IH.
  rewrite Z.pow_succ_r by done. pose proof (Z.pow_pos_nonneg 2 k ltac:(lia) Hk).
  destruct (2 ^ k) as [|p|p]; [lia| |lia].
  change (1 + trailing_zeros (Z.pos p) = Z.succ k). lia.
Qed.

Lemma round_up_pow2_pow2 k : 0 <= k <= 63 -> round_up_pow2 (2 ^ k) = Ret (Some (2 ^ k)).
Proof.
  intros Hk. pose proof (Z.pow_pos_nonneg 2 k ltac:(lia) ltac:(lia)).
  pose proof (Z.pow_le_mono_r 2 k 63 ltac:(lia) ltac:(lia)).
  unfold round_up_pow2, next_power_of_two.
  rewrite (proj2 (Z.eqb_neq (2 ^ k) 0)) by lia. rewrite (proj2 (Z.leb_le _ _)) by lia.
  rewrite Z.log2_up_pow2 by lia. simpl. by rewrite (proj2 (Z.eqb_neq _ _)) by lia.
Qed.

Lemma is_power_of_two_pow2 k : 0 <= k -> is_power_of_two (2 ^ k) = true.
Proof.
  intros Hk. unfold is_power_of_two. rewrite Z.log2_pow2, Z.eqb_refl by done.
  rewrite (proj2 (Z.ltb_lt _ _)); [done|]. by apply Z.pow_pos_nonneg.
Qed.

(** Requests for [n > 0] frames get the next power of two. *)
Lemma round_up_pow2_spec n :
  0 < n <= 2 ^ 63 -> exists k, 0 <= k <= 63 /\ round_up_pow2 n = Ret (Some (2 ^ k)) /\
    n <= 2 ^ k /\ (1 < n -> 2 ^ k < 2 * n) /\ (n = 1 -> k = 0).
Proof.
  intros Hn. exists (Z.log2_up n).
  pose proof (Z.log2_up_nonneg n) as H0.
  assert (H63 : Z.log2_up n <= 63).
  { change 63 with (Z.log2_up (2 ^ 63)). apply Z.log2_up_le_mono. lia. }
  pose proof (Z.pow_pos_nonneg 2 (Z.log2_up n) ltac:(lia) H0).
  unfold round_up_pow2, next_power_of_two. rewrite (proj2 (Z.eqb_neq n 0)) by lia.
  rewrite (proj2 (Z.leb_le _ _)) by lia. simpl. rewrite (proj2 (Z.eqb_neq _ _)) by lia.
  split_and!; try done.
  - destruct (Z.eq_dec n 1) as [->|]; [done|]. apply Z.log2_up_spec. lia.
  - intros H1. pose proof (Z.log2_up_spec n H1) as [Hlt _].
    assert (0 < Z.log2_up n) by (apply Z.log2_up_pos; lia).
    rewrite <- (Z.succ_pred (Z.log2_up n)), Z.pow_succ_r by lia. lia.
  - intros ->. done.
Qed.

Lemma from_start_address_mul f : from_start_address (f * PAGE_SIZE) = Some f.
Proof. rewrite from_start_address_ok by (by rewrite Z.mod_mul). f_equal. by rewrite Z.div_mul. Qed.

Lemma fit_chunk_spec f k : (fit_chunk f k <= k)%nat /\ (2 ^ Z.of_nat (fit_chunk f k) | f).
Proof.
  induction k as [|k IH]; simpl fit_chunk.
  - split; [done|]. apply Z.divide_1_l.
  - case_test; [|destruct IH; split; [lia|done]]. split; [done|].
    apply Z.mod_divide; [|done]. pose proof (Z.pow_pos_nonneg 2 (Z.of_nat (S k))). lia.
Qed.

Section Proofs.
Context `{LLFreeLaws}.

Lemma largest_chunk_spec rem :
  0 < rem -> 2 ^ Z.of_nat (largest_chunk rem) <= rem /\ (largest_chunk rem <= MAX_ORDER)%nat.
Proof.
  intros Hr. unfold largest_chunk. case_test; [lia|].
  pose proof (Z.log2_nonneg rem). rewrite Z2Nat.id by done.
  pose proof (Z.log2_spec rem Hr). split; [lia|].
  assert (Z.log2 rem < Z.of_nat MAX_ORDER); [|lia]. apply Z.log2_lt_pow2; lia.
Qed.

Lemma chunk_spec f rem :
  0 < rem -> let k := fit_chunk f (largest_chunk rem) in
  ll_block f (Z.of_nat k) /\ 1 <= 2 ^ Z.of_nat k <= rem.
Proof.
  intros Hr k. destruct (fit_chunk_spec f (largest_chunk rem)) as [Hle Hdiv]. fold k in Hle, Hdiv.
  clearbody k.
  destruct (largest_chunk_spec rem Hr) as [Hl Hm].
  pose proof (Z.pow_le_mono_r 2 (Z.of_nat k) (Z.of_nat (largest_chunk rem)) ltac:(lia) (inj_le _ _ Hle)).
  pose proof (Z.pow_pos_nonneg 2 (Z.of_nat k) ltac:(lia) ltac:(lia)).
  split; [|lia]. split; [lia|done].
Qed.

(** Reserving one aligned block of free frames. *)
Lemma alloc_internal_at s f k :
  ll_block f k -> k <= 63 -> (forall g, in_range g (block_of f k) -> ll_free s g) ->
  exists s', alloc_internal s (Some f) (2 ^ k) = Ret (block_of f k, s') /\
    (forall g, ll_free s' g <-> ll_free s g /\ ~ in_range g (block_of f k)).
Proof.
  intros Hb Hk Hfree. destruct (ll_get_at s f k Hb Hfree) as (s' & Hget & Hs').
  exists s'. split; [|done]. unfold alloc_internal.
  destruct Hb as [Ho _]. rewrite round_up_pow2_pow2 by lia. simpl.
  rewrite trailing_zeros_pow2, Hget, from_start_address_mul by lia. done.
Qed.

Lemma mark_reserved_loop_spec fuel s f rem :
  0 <= rem <= 2 ^ 52 -> rem <= Z.of_nat fuel ->
  (forall g, f <= g < f + rem -> ll_free s g) ->
  exists s', mark_reserved_loop fuel s (f * PAGE_SIZE) rem = Ret s' /\
    (forall g, ll_free s' g <-> ll_free s g /\ ~ f <= g < f + rem).
Proof.
  revert s f rem. induction fuel as [|fuel IH]; intros s f rem Hrem Hfuel Hfree; cbn [mark_reserved_loop].
  { rewrite Z.gtb_ltb, (proj2 (Z.ltb_ge _ _)) by lia. exists s. split; [done|]. intros g. intuition lia. }
  case_test; [|exists s; split; [done|]; intros g; intuition lia].
  rewrite Z.div_mul by done. set (k := fit_chunk f (largest_chunk rem)).
  destruct (chunk_spec f rem) as [Hb Hc]; [done|]. fold k in Hb, Hc.
  assert (Hk : Z.of_nat k <= 63).
  { destruct (Z.le_gt_cases (Z.of_nat k) 63) as [|Hgt]; [done|].
    assert (2 ^ 52 < 2 ^ Z.of_nat k) by (apply Z.pow_lt_mono_r; lia). lia. }
  destruct (alloc_internal_at s f (Z.of_nat k) Hb Hk) as (s1 & -> & Hs1).
  { intros g Hg. apply Hfree. unfold in_range, block_of in Hg. simpl in Hg. lia. }
  outcome_simpl. rewrite <- Z.mul_add_distr_r.
  unfold in_range, block_of in Hs1. simpl in Hs1.
  destruct (IH s1 (f + 2 ^ Z.of_nat k) (rem - 2 ^ Z.of_nat k)) as (s' & Hs' & Hfr); [lia|lia|..].
  { intros g Hg. apply Hs1. split; [apply Hfree; lia|lia]. }
  exists s'. split; [exact Hs'|]. intros g. rewrite Hfr, Hs1. intuition lia.
Qed.

Lemma lf_finalize_loop_spec lo s rs :
  chain 1 1 lo rs -> Forall aligned rs -> -1 <= lo -> last_end lo rs <= U64_MAX ->
  (forall g, covers rs (start_address g) -> ll_free s g) ->
  exists s', lf_finalize_loop s rs = Ret s' /\
    (forall g, ll_free s' g <-> ll_free s g /\ ~ covers rs (start_address g)).
Proof.
  intros Hch Hal. revert lo s Hch.
  induction Hal as [|r rs [Ha1 Ha2] Hal IH]; intros lo s Hch Hlo Hend Hfree; simpl.
  { exists s. split; [done|]. intros g. rewrite covers_nil. tauto. }
  destruct Hch as (H1 & H2 & H3).
  pose proof (chain_last_end 1 1 _ _ ltac:(lia) ltac:(lia) H3) as Hle. simpl in Hend.
  rewrite (proj2 (Z.eqb_neq _ _)) by lia. unfold mark_reserved. rewrite Ha1, Ha2. simpl.
  unfold start_address, PAGE_SIZE, U64_MAX in *.
  set (f := r_start r / 4096). set (n := Z.max 0 (r_end r - r_start r) / 4096).
  assert (Hf : r_start r = f * 4096) by (unfold f; pose proof (Z.div_mod (r_start r) 4096); lia).
  assert (Hn : r_end r = (f + n) * 4096).
  { unfold n. rewrite Z.max_r by lia.
    assert (Hm : (r_end r - r_start r) mod 4096 = 0) by (by rewrite Zminus_mod, Ha1, Ha2).
    pose proof (Z.div_mod (r_end r - r_start r) 4096). lia. }
  rewrite (proj2 (Z.gtb_lt _ _)) by lia. simpl.
  destruct (mark_reserved_loop_spec (Z.to_nat n) s f n) as (s1 & Hs1 & F1); [lia|lia|..].
  { intros g Hg. apply Hfree, covers_cons. left. unfold in_range. lia. }
  unfold PAGE_SIZE in Hs1. rewrite Hf, Hs1. simpl.
  destruct (IH (r_end r) s1) as (s' & -> & F'); [done|lia|lia|..].
  { intros g Hg. apply F1. split; [apply Hfree, covers_cons; by right|].
    apply (chain_lower 1 1 _ _ _ ltac:(lia) ltac:(lia) H3) in Hg. lia. }
  exists s'. split; [done|]. intros g. rewrite F', F1, covers_cons. unfold in_range. intuition lia.
Qed.

Lemma lf_init_spec d :
  dram_ready d ->
  exists s, lf_init d = Ret s /\
    (forall f, ll_free s f <-> covers (entries (available d)) (start_address f)).
Proof.
  intros [Rf [_ Rch Rlim] Rla [_ [_ Ral]] Rrc Rcomp].
  unfold lf_init, get_all_reserved. rewrite Rf. simpl.
  assert (Hz : forall f, 0 <= f < dram_limit d / PAGE_SIZE <-> 0 <= start_address f < dram_limit d).
  { intros f. unfold start_address, PAGE_SIZE in *. pose proof (Z.div_mod (dram_limit d) 4096). lia. }
  assert (Hup : last_end (-1) (entries (reserved d)) <= U64_MAX).
  { destruct (entries (reserved d)) as [|r rs] eqn:Hr; [done|].
    pose proof (chain_last_end 1 1 _ _ ltac:(lia) ltac:(lia) Rrc) as Hle.
    destruct (Z.le_gt_cases (last_end (-1) (r :: rs)) U64_MAX) as [|Hgt]; [done|].
    destruct (last_end_covered 1 (-1) (r :: rs)) as [a [Ha1 Ha2]]; [lia|done..|].
    apply Rcomp in Ha1. lia. }
  destruct (lf_finalize_loop_spec (-1) (ll_new (dram_limit d / PAGE_SIZE)) (entries (reserved d)))
    as (s & Hs & F); [done|done|lia|done|..].
  { intros g Hg%Rcomp. apply ll_new_free, Hz, Hg. }
  exists s. split; [done|]. intros f. rewrite F, ll_new_free, Hz, Rcomp.
  assert (Hav : covers (entries (available d)) (start_address f) ->
                0 <= start_address f < dram_limit d).
  { intros Hc. pose proof (chain_upper 0 1 _ _ _ ltac:(lia) ltac:(lia) Rch Hc) as Hu.
    pose proof (chain_lower 0 1 _ _ _ ltac:(lia) ltac:(lia) Rch Hc) as Hl.
    destruct (entries (available d)); [by apply covers_nil in Hc|].
    unfold PAGE_SIZE in *. simpl in *. lia. }
  destruct (decide (covers (entries (available d)) (start_address f))); tauto.
Qed.

Lemma lf_alloc_spec s n r s' :
  0 < n <= 2 ^ 63 -> lf_alloc s n = Ret (r, s') ->
  exists k, 0 <= k <= 63 /\ ll_block (r_start r) k /\ r = block_of (r_start r) k /\
    n <= 2 ^ k /\ (1 < n -> 2 ^ k < 2 * n) /\ (n = 1 -> k = 0) /\
    (forall g, in_range g r -> ll_free s g) /\
    (forall g, ll_free s' g <-> ll_free s g /\ ~ in_range g r).
Proof.
  intros Hn. unfold lf_alloc, alloc_internal.
  destruct (round_up_pow2_spec n Hn) as (k & Hk & -> & Hk1 & Hk2 & Hk3). simpl.
  rewrite trailing_zeros_pow2 by lia.
  destruct (ll_get s None k) as [[f s1]|e] eqn:Hget; [|done].
  rewrite from_start_address_mul. simpl. intros [= <- <-].
  apply ll_get_any in Hget as (Hb & Hg1 & Hg2). exists k. simpl. split; [done|]. split; [done|]. split; [done|]. auto.
Qed.

Lemma lf_free_spec s f k :
  ll_block f k -> (forall g, in_range g (block_of f k) -> ~ ll_free s g) ->
  exists s', lf_free s (block_of f k) = Ret s' /\
    (forall g, ll_free s' g <-> ll_free s g \/ in_range g (block_of f k)).
Proof.
  intros Hb Hdis. destruct (ll_put_ok s f k Hb Hdis) as (s' & Hput & Hs').
  exists s'. split; [|done]. destruct Hb as [Hk _].
  unfold lf_free, block_of, start_address. simpl.
  replace ((f + 2 ^ k) * PAGE_SIZE - f * PAGE_SIZE) with (2 ^ k * PAGE_SIZE) by lia.
  rewrite !Z.div_mul by done. rewrite is_power_of_two_pow2 by lia. simpl.
  rewrite trailing_zeros_pow2 by lia. by rewrite Hput.
Qed.

End Proofs.

(** ** A reference implementation of the crate's interface

    The free frames as a finite set; it satisfies the laws, so that they are
    consistent, and serves the examples. *)

Definition block_set (f order : Z) : gset Z := list_to_set (seqZ f (2 ^ order)).

Definition ref_block (f order : Z) : Prop := 0 <= order <= 10 /\ f mod 2 ^ order = 0.

#[global] Instance ref_block_dec f o : Decision (ref_block f o).
Proof. unfold ref_block. apply _. Defined.

Definition ref_get (s : gset Z) (at_ : option Z) (order : Z) : result unit (Z * gset Z) :=
  let ok f := ref_block f order /\ block_set f order ⊆ s in
  match at_ with
  | Some f => if decide (ok f) then Ok (f, s ∖ block_set f order) else Err tt
  | None =>
      match list_find ok (elements s) with
      | Some (_, f) => Ok (f, s ∖ block_set f order)
      | None => Err tt
      end
  end.

Definition ref_put (s : gset Z) (f order : Z) : result unit (gset Z) :=
  if decide (ref_block f order /\ block_set f order ## s)
  then Ok (s ∪ block_set f order) else Err tt.

#[export] Instance ref_llfree : LLFree := {|
  LL := gset Z;
  ll_error := unit;
  MAX_ORDER := 10;
  ll_new n := list_to_set (seqZ 0 n);
  ll_get := ref_get;
  ll_put := ref_put;
  ll_free s f := f ∈ s
|}.

Lemma elem_of_block_set g f o : g ∈ block_set f o <-> in_range g (block_of f o).
Proof.
  unfold block_set, in_range, block_of. rewrite elem_of_list_to_set, elem_of_seqZ. done.
Qed.

Lemma ref_block_iff f o : ref_block f o <-> ll_block f o.
Proof.
  unfold ref_block, ll_block. simpl. split; intros [H1 H2]; (split; [lia|]);
    apply Z.mod_divide; try done; apply Z.pow_nonzero; lia.
Qed.

#[export] Instance ref_llfree_laws : LLFreeLaws.
Proof.
  constructor; simpl.
  - intros n f. rewrite elem_of_list_to_set, elem_of_seqZ. lia.
  - intros s f o Hb Hfree. unfold ref_get. rewrite decide_True.
    + eexists. split; [done|]. intros g. rewrite elem_of_difference, elem_of_block_set. done.
    + split; [by apply ref_block_iff|]. intros g Hg%elem_of_block_set. auto.
  - intros s o f s' H. unfold ref_get in H.
    destruct (list_find _ _) as [[i x]|] eqn:Hfind; [|done]. injection H as <- <-.
    apply list_find_Some in Hfind as (_ & [Hb Hsub] & _). split_and!.
    + by apply ref_block_iff.
    + intros g Hg%elem_of_block_set. by apply Hsub.
    + intros g. rewrite elem_of_difference, elem_of_block_set. done.
  - intros s f o Hb Hdis. unfold ref_put. rewrite decide_True.
    + eexists. split; [done|]. intros g. rewrite elem_of_union, elem_of_block_set. done.
    + split; [by apply ref_block_iff|]. intros g Hg%elem_of_block_set Hs. by apply (Hdis g).
Qed.

(** ** Theorems about the lock-free wrapper *)

(** Initialised from a finalised DRAM map, the lock-free allocator holds exactly the
    frames whose page is available: the reserved regions, split into aligned
    power-of-two chunks, are taken out completely and nothing else is; no
    allocation of the boot phase fails. *)
Theorem lf_init_correct `{LLFreeLaws} (d : Dram) :
  dram_ready d ->
  exists s, lf_init d = Ret s /\
    (forall f, ll_free s f <-> covers (entries (available d)) (start_address f)).
Proof. apply lf_init_spec. Qed.

Lemma lf_init_correct_witness :
  exists s, lf_init (mkDram 40960 true (set_of [mkRange 4096 8192; mkRange 12288 40960])
                       (set_of [mkRange 0 4096; mkRange 8192 12288])) = Ret s /\
    (forall f, ll_free s f <->
       covers (entries (set_of [mkRange 4096 8192; mkRange 12288 40960])) (start_address f)).
Proof. exact (lf_init_correct _ example_ready). Defined.

(** An allocation of [n] frames returns an aligned power-of-two block of at least
    [n] and fewer than [2 * n] frames that were all free, and freeing that block
    succeeds and restores the set of free frames. *)
Theorem lf_alloc_free_roundtrip `{LLFreeLaws} (s s' : LL) (n : Z) (r : range) :
  0 < n <= 2 ^ 63 -> lf_alloc s n = Ret (r, s') ->
  n <= range_len r /\ (1 < n -> range_len r < 2 * n) /\
  (forall g, in_range g r -> ll_free s g /\ ~ ll_free s' g) /\
  exists s'', lf_free s' r = Ret s'' /\ (forall g, ll_free s'' g <-> ll_free s g).
Proof.
  intros Hn Ha.
  destruct (lf_alloc_spec s n r s' Hn Ha) as (k & Hk & Hb & Hr & K1 & K2 & K3 & A1 & A2).
  assert (Hl : range_len r = 2 ^ k) by (rewrite Hr; unfold range_len, block_of; simpl; lia).
  rewrite Hl. split_and!; try done.
  - intros g Hg. split; [auto|]. rewrite A2. tauto.
  - rewrite Hr in A1, A2 |- *. simpl in *.
    destruct (lf_free_spec s' (r_start r) k) as (s'' & Hs'' & F); [done|intros g Hg; rewrite A2; tauto|].
    exists s''. split; [done|]. intros g. rewrite F, A2. specialize (A1 g).
    destruct (decide (in_range g (block_of (r_start r) k))); tauto.
Qed.

Lemma lf_alloc_free_roundtrip_witness :
  exists s'' : LL, lf_free (ll_new 12 ∖ block_set 8 2 : LL) (mkRange 8 12) = Ret s'' /\
    (forall g, ll_free s'' g <-> ll_free (ll_new 12) g).
Proof.
  refine (proj2 (proj2 (proj2 (lf_alloc_free_roundtrip (ll_new 12) (ll_new 12 ∖ block_set 8 2 : LL) 3
    (mkRange 8 12) _ _)))).
  - lia.
  - vm_compute. reflexivity.
Defined.

(** A range whose length is not a power of two cannot be given back. *)
Lemma lf_free_rejects `{LLFree} (s : LL) (r : range) :
  is_power_of_two (range_len r) = false -> panics (lf_free s r).
Proof.
  intros Hp. unfold lf_free, start_address.
  replace (r_end r * PAGE_SIZE - r_start r * PAGE_SIZE) with (range_len r * PAGE_SIZE)
    by (unfold range_len; lia).
  rewrite !Z.div_mul, Hp by done. by eexists.
Qed.
