(* ===== verification/FrameAlloc.v ===== *)
(** * The frame allocator interface ([os/kernel/src/memory/mod.rs])

    The rest of the kernel calls [alloc_frames] and [free_frames] of [mod.rs],
    which forward to one of the two allocators, chosen by a cargo feature.  What
    the paging code relies on is stated once, as the laws of a type class, and
    proved for both: its theorems hold for either build. *)

From S2P Require Import Prelude Intervals Dram Frames FramesLf.

Open Scope Z_scope.

(** [fa_block] holds of the ranges the allocator hands out and takes back: any range
    for the list, aligned power-of-two blocks for the lock-free allocator. *)
Class FrameAllocator (S : Type) := {
  fa_alloc : S -> Z -> outcome (range * S);
  fa_free : S -> range -> outcome S;
  fa_is_free : S -> Z -> Prop;
  fa_inv : S -> Prop;
  fa_block : range -> Prop
}.

Class FrameAllocatorLaws (S : Type) `{FrameAllocator S} := {
  fa_alloc_ok s n r s' :
    fa_inv s -> 0 < n <= 2 ^ 63 -> fa_alloc s n = Ret (r, s') ->
    fa_inv s' /\ 0 < r_start r /\ n <= range_len r /\ (n = 1 -> range_len r = 1) /\
    (forall g, in_range g r -> fa_is_free s g) /\
    (forall g, fa_is_free s' g <-> fa_is_free s g /\ ~ in_range g r);
  fa_alloc_block s n r s' :
    fa_inv s -> 0 < n <= 2 ^ 63 -> fa_alloc s n = Ret (r, s') -> fa_block r;
  fa_free_block s r :
    fa_inv s -> fa_block r -> 0 < r_start r -> (forall f, in_range f r -> ~ fa_is_free s f) ->
    exists s', fa_free s r = Ret s' /\ fa_inv s' /\
      (forall g, fa_is_free s' g <-> fa_is_free s g \/ in_range g r);
  fa_block_one f : 0 < f -> fa_block (mkRange f (f + 1))
}.

Lemma fa_free_one {S} `{FrameAllocatorLaws S} (s : S) f :
  fa_inv s -> 0 < f -> ~ fa_is_free s f ->
  exists s', fa_free s (mkRange f (f + 1)) = Ret s' /\ fa_inv s' /\
    (forall g, fa_is_free s' g <-> fa_is_free s g \/ g = f).
Proof.
  intros Hi Hf Hn. destruct (fa_free_block s (mkRange f (f + 1)) Hi (fa_block_one f Hf)) as (s' & Hr & Hi' & Hg); [done|..].
  { intros g Hg. unfold in_range in Hg. simpl in Hg. by replace g with f by lia. }
  exists s'. split_and!; [done|done|]. intros g. rewrite Hg. unfold in_range. simpl. intuition lia.
Qed.

(** ** The list allocator *)

#[export] Instance list_frame_allocator : FrameAllocator FrameState := {|
  fa_alloc := alloc_frames;
  fa_free := free_frames;
  fa_is_free s := is_free (free_list s);
  fa_inv s := free_list_wf (free_list s);
  fa_block r := nonempty r
|}.

#[export] Instance list_frame_allocator_laws : FrameAllocatorLaws FrameState.
Proof.
  constructor; simpl.
  - intros s n r s' W Hn H. unfold alloc_frames in H. inv_bind H. destruct a as [r' l]. simplify_eq.
    destruct (alloc_block_spec (free_list s) n W ltac:(lia))
      as [[Hp _]|(r' & k & Ha & Hr & W' & Hs & A1 & A2)]; [congruence|].
    rewrite E in Ha. injection Ha as <- <-. simpl. split_and!; try done; lia.
  - intros s n r s' W Hn H. unfold alloc_frames in H. inv_bind H. destruct a as [r' l]. simplify_eq.
    destruct (alloc_block_spec (free_list s) n W ltac:(lia)) as [[Hp _]|(r' & k & Ha & Hr & _)]; [congruence|].
    rewrite E in Ha. injection Ha as <- <-. unfold nonempty, range_len in *. lia.
  - intros s r W Hr Hpos Hnf. unfold nonempty in Hr.
    destruct (free_block_spec (free_list s) r) as (l' & Hl & W' & F'); [done|lia|done|].
    unfold free_frames. rewrite Hl. simpl. eexists. done.
  - intros f Hf. unfold nonempty. simpl. lia.
Qed.

(** ** The lock-free allocator *)

(** The crate's state with the counter [FREE_FRAMES]. *)
Record LfState `{LLFree} := mkLfState { lf_ll : LL; lf_counter : Z }.

Section LockFree.
Context `{LLFreeLaws}.

(* [os/kernel/src/memory/mod.rs:64-69] alloc_frames *)
Definition lf_alloc_frames (s : LfState) (n : Z) : outcome (range * LfState) :=
  let counter := wrap64 (lf_counter s - n) in
  '(r, l) ← lf_alloc (lf_ll s) n;
  Ret (r, mkLfState _ l counter).

(* [os/kernel/src/memory/mod.rs:71-76] free_frames *)
Definition lf_free_frames (s : LfState) (frames : range) : outcome LfState :=
  let counter := wrap64 (lf_counter s + (r_end frames - r_start frames)) in
  l ← lf_free (lf_ll s) frames;
  Ret (mkLfState _ l counter).

#[export] Instance lf_frame_allocator : FrameAllocator LfState := {|
  fa_alloc := lf_alloc_frames;
  fa_free := lf_free_frames;
  fa_is_free s := ll_free (lf_ll s);
  fa_inv s := forall f, ll_free (lf_ll s) f -> 0 < f;
  fa_block r := exists k, 0 <= k <= 63 /\ ll_block (r_start r) k /\ r = block_of (r_start r) k
|}.

#[export] Instance lf_frame_allocator_laws : FrameAllocatorLaws LfState.
Proof.
  constructor; simpl.
  - intros s n r s' W Hn Ha. unfold lf_alloc_frames in Ha. inv_bind Ha. destruct a as [r' l].
    simplify_eq. simpl.
    destruct (lf_alloc_spec _ n r l Hn E) as (k & Hk & Hb & Hr & K1 & K2 & K3 & A1 & A2).
    pose proof (Z.pow_pos_nonneg 2 k ltac:(lia) ltac:(lia)).
    assert (Hl : range_len r = 2 ^ k) by (rewrite Hr; unfold range_len, block_of; simpl; lia).
    split_and!; try done.
    + intros f Hf%A2. apply W, Hf.
    + apply W, A1. unfold in_range, range_len in *. lia.
    + lia.
    + intros Hn1. rewrite Hl, (K3 Hn1). done.
  - intros s n r s' W Hn Ha. unfold lf_alloc_frames in Ha. inv_bind Ha. destruct a as [r' l].
    simplify_eq. simpl. destruct (lf_alloc_spec _ n r l Hn E) as (k & Hk & Hb & Hr & _). by exists k.
  - intros s r W (k & Hk & Hb & Hr) Hpos Hnf. rewrite Hr in Hnf |- *.
    destruct (lf_free_spec (lf_ll s) (r_start r) k) as (s' & Hs' & F'); [done|done|].
    unfold lf_free_frames. rewrite Hs'. simpl. eexists. split; [done|]. simpl. split; [|done].
    intros g [?|Hg]%F'; [auto|]. unfold in_range in Hg. simpl in Hg. lia.
  - intros f Hf. exists 0. split_and!; [lia|lia| |done]. split; [lia|]. apply Z.divide_1_l.
Qed.

End LockFree.
