(* ===== verification/Paging.v ===== *)
(** * Page tables ([os/kernel/src/memory/pages.rs])

    A page table hierarchy is a tree whose nodes are page frames taken from the
    frame allocator.  A table of level [n + 1] is modelled as [table n]: 512 page
    table entries at level 1, and above that 512 optional entries, each carrying
    the next-level table it points to (the code follows the entry's address; the
    tables are reachable only through their entry, under the root's lock).  The
    allocator state is threaded through every operation that allocates or frees
    frames; it is any implementation of the [FrameAllocator] interface.

    Pages and frames are numbers.  A [Page] the code computes always lies between
    the two ends of the range it was given, so the canonicality check of the
    [x86_64] crate's page arithmetic cannot fail there. *)

From S2P Require Import Prelude Intervals Dram FrameAlloc.

Open Scope Z_scope.

(** ** Entries and tables *)

(** An entry of the [x86_64] crate: a frame address and flag bits, all zero when
    unused. *)
Record PageTableEntry := mkPte { pte_frame : Z; pte_flags : Z }.

Definition pte_zero : PageTableEntry := mkPte 0 0.
Definition is_unused (e : PageTableEntry) : bool := (pte_frame e =? 0) && (pte_flags e =? 0).

(** Bit 7 of the flags. *)
Definition HUGE_PAGE : Z := 7.

(** [PageTableEntry::set_frame] asserts that the flags do not hold [HUGE_PAGE]. *)
Definition set_frame (frame flags : Z) : outcome PageTableEntry :=
  _ ← rust_assert (negb (Z.testbit flags HUGE_PAGE)) "assertion failed: !HUGE_PAGE";
  Ret (mkPte frame flags).

Fixpoint table (n : nat) : Type :=
  match n with
  | O => list PageTableEntry
  | S m => list (option (PageTableEntry * table m))
  end.

(** [PageTable::zero] *)
Definition zero_table (n : nat) : table n :=
  match n with
  | O => replicate (Z.to_nat 512) pte_zero
  | S m => replicate (Z.to_nat 512) None
  end.

(* [os/kernel/src/memory/mod.rs:31-36] MemorySpace *)
Inductive MemorySpace := Kernel | User.

(** [new_truncate((virt_addr >> 12 >> ((level - 1) * 9)) as u16)]; tables of level
    [n + 1] are [table n]. *)
(* os/kernel/src/memory/pages.rs: page_table_index *)
Definition page_table_index (virt_addr : Z) (n : nat) : nat :=
  Z.to_nat (Z.shiftr (Z.shiftr virt_addr 12) (Z.of_nat n * 9) mod 2 ^ 16 mod 512).

Definition page_address (page : Z) : Z := page * PAGE_SIZE.

(** ** Filling a level-1 table *)

(** Number of pages of the range that the level-1 table holds from
    [start_index] on. *)
Definition leaf_count (pages : range) (start_index : nat) : nat :=
  Z.to_nat (Z.min (r_end pages - r_start pages) (512 - Z.of_nat start_index)).

(* os/kernel/src/memory/pages.rs: identity_map_kernel *)
Fixpoint identity_loop (flags : Z) (count : nat) (frame : Z) (entries : list PageTableEntry)
    : list PageTableEntry :=
  match count, entries with
  | S count', _ :: rest => mkPte frame flags :: identity_loop flags count' (frame + 1) rest
  | _, _ => entries
  end.

(* [os/kernel/src/memory/pages.rs:411-426] identity_map_kernel *)
Definition identity_map_kernel (t : table 0) (pages : range) (flags : Z) : table 0 * Z :=
  let start_index := page_table_index (page_address (r_start pages)) 0 in
  let alloc_count := leaf_count pages start_index in
  (take start_index t ++ identity_loop flags alloc_count (r_start pages) (drop start_index t),
   Z.of_nat alloc_count).

(** [frame_iter.next().unwrap()] for each entry. *)
(* os/kernel/src/memory/pages.rs: map_user_physical *)
Fixpoint physical_loop (flags : Z) (count : nat) (frames : range) (entries : list PageTableEntry)
    : outcome (list PageTableEntry) :=
  match count, entries with
  | S count', _ :: rest =>
      if r_start frames <? r_end frames then
        e ← set_frame (r_start frames) flags;
        rest' ← physical_loop flags count' (mkRange (r_start frames + 1) (r_end frames)) rest;
        Ret (e :: rest')
      else Panic "called `Option::unwrap()` on a `None` value"
  | _, _ => Ret entries
  end.

(* [os/kernel/src/memory/pages.rs:447-461] map_user_physical *)
Definition map_user_physical (t : table 0) (frames pages : range) (flags : Z) : outcome (table 0 * Z) :=
  let start_index := page_table_index (page_address (r_start pages)) 0 in
  let alloc_count := leaf_count pages start_index in
  es ← physical_loop flags alloc_count frames (drop start_index t);
  Ret (take start_index t ++ es, Z.of_nat alloc_count).

Section Ops.
Context {A : Type} `{FrameAllocator A}.

(* [os/kernel/src/memory/pages.rs:433-441] map_user *)
Fixpoint user_loop (flags : Z) (count : nat) (a : A) (entries : list PageTableEntry)
    : outcome (list PageTableEntry * A) :=
  match count, entries with
  | S count', _ :: rest =>
      '(r, a1) ← fa_alloc a 1;
      e ← set_frame (r_start r) flags;
      '(rest', a2) ← user_loop flags count' a1 rest;
      Ret (e :: rest', a2)
  | _, _ => Ret (entries, a)
  end.

(* [os/kernel/src/memory/pages.rs:429-444] map_user *)
Definition map_user (a : A) (t : table 0) (pages : range) (flags : Z) : outcome (table 0 * A * Z) :=
  let start_index := page_table_index (page_address (r_start pages)) 0 in
  let alloc_count := leaf_count pages start_index in
  '(es, a') ← user_loop flags alloc_count a (drop start_index t);
  Ret (take start_index t ++ es, a', Z.of_nat alloc_count).

(** ** Mapping *)

(** The entries of a table above level 1, from the start index on. *)
(* [os/kernel/src/memory/pages.rs:242-266] map_in_table *)
Fixpoint map_entries {m} (rec : A -> table m -> range -> range -> outcome (table m * A * Z))
    (flags : Z) (a : A) (frames pages : range) (total : Z)
    (entries : list (option (PageTableEntry * table m)))
    : outcome (list (option (PageTableEntry * table m)) * A * Z) :=
  match entries with
  | [] => Ret ([], a, total)
  | entry :: rest =>
      '(e, sub, a1) ← match entry with
                      | None =>
                          '(r, a1) ← fa_alloc a 1;
                          e ← set_frame (r_start r) flags;
                          Ret (e, zero_table m, a1)
                      | Some (e, sub) => Ret (e, sub, a)
                      end;
      '(sub', a2, allocated_pages) ← rec a1 sub frames pages;
      let pages' := mkRange (r_start pages + allocated_pages) (r_end pages) in
      let frames' := if r_end frames >? r_start frames
                     then mkRange (r_start frames + allocated_pages) (r_end frames) else frames in
      if r_start pages' >=? r_end pages'
      then Ret (Some (e, sub') :: rest, a2, total + allocated_pages)
      else
        '(rest', a3, total') ← map_entries rec flags a2 frames' pages' (total + allocated_pages) rest;
        Ret (Some (e, sub') :: rest', a3, total')
  end.

(* [os/kernel/src/memory/pages.rs:238-281] map_in_table *)
Fixpoint map_in_table (space : MemorySpace) (flags : Z) (n : nat)
    : A -> table n -> range -> range -> outcome (table n * A * Z) :=
  match n with
  | S m => fun a t frames pages =>
      let start_index := page_table_index (page_address (r_start pages)) (S m) in
      '(es, a', total) ← map_entries (map_in_table space flags m) flags a frames pages 0
                           (drop start_index t);
      Ret (take start_index t ++ es, a', total)
  | O => fun a t frames pages =>
      match space with
      | Kernel => let '(t', total) := identity_map_kernel t pages flags in Ret (t', a, total)
      | User =>
          if r_start frames =? r_end frames then map_user a t pages flags
          else '(t', total) ← map_user_physical t frames pages flags; Ret (t', a, total)
      end
  end.

(** ** Translation *)

(** Offset arithmetic on addresses; the result of the level-1 entry plus the
    offset into the page. *)
(* [os/kernel/src/memory/pages.rs:394-408] translate_in_table *)
Fixpoint translate_in_table (n : nat) : table n -> Z -> outcome (option Z) :=
  match n with
  | O => fun t addr =>
      let aligned_addr := addr / PAGE_SIZE * PAGE_SIZE in
      e ← arr_get t (page_table_index aligned_addr 0);
      if is_unused e then Ret None
      else Ret (Some (start_address (pte_frame e) + (addr - aligned_addr)))
  | S m => fun t addr =>
      let aligned_addr := addr / PAGE_SIZE * PAGE_SIZE in
      entry ← arr_get t (page_table_index aligned_addr (S m));
      match entry with
      | None => Ret None
      | Some (_, sub) => translate_in_table m sub addr
      end
  end.

(** ** Unmapping *)

(* [os/kernel/src/memory/pages.rs:464-472] is_table_empty *)
Definition is_table_empty {n : nat} : table n -> bool :=
  match n with
  | O => fun t => forallb is_unused t
  | S m => fun t => forallb (fun e => match e with None => true | Some _ => false end) t
  end.

(* [os/kernel/src/memory/pages.rs:313-326] unmap_in_table *)
Fixpoint unmap_leaf (free_physical : bool) (count : nat) (a : A) (entries : list PageTableEntry)
    : outcome (list PageTableEntry * A) :=
  match count, entries with
  | S count', entry :: rest =>
      a1 ← (if negb (is_unused entry) && free_physical
            then fa_free a (mkRange (pte_frame entry) (pte_frame entry + 1)) else Ret a);
      '(rest', a2) ← unmap_leaf free_physical count' a1 rest;
      Ret ((if is_unused entry then entry else pte_zero) :: rest', a2)
  | _, _ => Ret (entries, a)
  end.

(* [os/kernel/src/memory/pages.rs:288-308] unmap_in_table *)
Fixpoint unmap_entries {m} (rec : A -> table m -> range -> outcome (table m * A * Z))
    (a : A) (pages : range) (total : Z) (entries : list (option (PageTableEntry * table m)))
    : outcome (list (option (PageTableEntry * table m)) * A * Z) :=
  match entries with
  | [] => Ret ([], a, total)
  | None :: rest =>
      '(rest', a', total') ← unmap_entries rec a pages total rest;
      Ret (None :: rest', a', total')
  | Some (e, sub) :: rest =>
      '(sub', a1, freed_pages) ← rec a sub pages;
      let pages' := mkRange (r_start pages + freed_pages) (r_end pages) in
      '(entry', a2) ← (if is_table_empty sub'
                       then a2 ← fa_free a1 (mkRange (pte_frame e) (pte_frame e + 1)); Ret (None, a2)
                       else Ret (Some (e, sub'), a1));
      if r_start pages' >=? r_end pages' then Ret (entry' :: rest, a2, total + freed_pages)
      else
        '(rest', a3, total') ← unmap_entries rec a2 pages' (total + freed_pages) rest;
        Ret (entry' :: rest', a3, total')
  end.

(* [os/kernel/src/memory/pages.rs:284-332] unmap_in_table *)
Fixpoint unmap_in_table (free_physical : bool) (n : nat)
    : A -> table n -> range -> outcome (table n * A * Z) :=
  match n with
  | S m => fun a t pages =>
      let start_index := page_table_index (page_address (r_start pages)) (S m) in
      '(es, a', total) ← unmap_entries (unmap_in_table free_physical m) a pages 0 (drop start_index t);
      Ret (take start_index t ++ es, a', total)
  | O => fun a t pages =>
      let start_index := page_table_index (page_address (r_start pages)) 0 in
      let free_count := leaf_count pages start_index in
      '(es, a') ← unmap_leaf free_physical free_count a (drop start_index t);
      Ret (take start_index t ++ es, a', Z.of_nat free_count)
  end.

(** ** Changing flags *)

(** [entry.set_flags(flags)]: the address stays. *)
(* os/kernel/src/memory/pages.rs: set_flags_in_table *)
Fixpoint set_flags_leaf (flags : Z) (count : nat) (entries : list PageTableEntry)
    : list PageTableEntry :=
  match count, entries with
  | S count', e :: rest => mkPte (pte_frame e) flags :: set_flags_leaf flags count' rest
  | _, _ => entries
  end.

(* os/kernel/src/memory/pages.rs: set_flags_in_table *)
Fixpoint set_flags_entries {m} (rec : table m -> range -> table m * Z)
    (pages : range) (total : Z) (entries : list (option (PageTableEntry * table m)))
    : list (option (PageTableEntry * table m)) * Z :=
  match entries with
  | [] => ([], total)
  | None :: rest =>
      let '(rest', total') := set_flags_entries rec pages total rest in (None :: rest', total')
  | Some (e, sub) :: rest =>
      let '(sub', edited_pages) := rec sub pages in
      let pages' := mkRange (r_start pages + edited_pages) (r_end pages) in
      if r_start pages' >=? r_end pages' then (Some (e, sub') :: rest, total + edited_pages)
      else
        let '(rest', total') := set_flags_entries rec pages' (total + edited_pages) rest in
        (Some (e, sub') :: rest', total')
  end.

(* [os/kernel/src/memory/pages.rs:355-391] set_flags_in_table *)
Fixpoint set_flags_in_table (flags : Z) (n : nat) : table n -> range -> table n * Z :=
  match n with
  | S m => fun t pages =>
      let start_index := page_table_index (page_address (r_start pages)) (S m) in
      let '(es, total) := set_flags_entries (set_flags_in_table flags m) pages 0 (drop start_index t) in
      (take start_index t ++ es, total)
  | O => fun t pages =>
      let start_index := page_table_index (page_address (r_start pages)) 0 in
      let edit_count := leaf_count pages start_index in
      (take start_index t ++ set_flags_leaf flags edit_count (drop start_index t), Z.of_nat edit_count)
  end.

(** ** Copying and dropping a hierarchy *)

(** The loop over the entries above level 1; the target is overwritten entry by
    entry, so the result depends on the source only. *)
(* [os/kernel/src/memory/pages.rs:210-225] copy_table *)
Fixpoint copy_entries {m} (rec : A -> table m -> outcome (table m * A)) (a : A)
    (source : list (option (PageTableEntry * table m)))
    : outcome (list (option (PageTableEntry * table m)) * A) :=
  match source with
  | [] => Ret ([], a)
  | None :: rest =>
      '(rest', a') ← copy_entries rec a rest;
      Ret (None :: rest', a')
  | Some (e, sub) :: rest =>
      '(r, a1) ← fa_alloc a 1;
      e' ← set_frame (r_start r) (pte_flags e);
      '(sub', a2) ← rec a1 sub;
      '(rest', a3) ← copy_entries rec a2 rest;
      Ret (Some (e', sub') :: rest', a3)
  end.

(* [os/kernel/src/memory/pages.rs:209-232] copy_table *)
Fixpoint copy_table (n : nat) : A -> table n -> outcome (table n * A) :=
  match n with
  | S m => fun a source => copy_entries (copy_table m) a source
  | O => fun a source => Ret ((fun e => mkPte (pte_frame e) (pte_flags e)) <$> source, a)
  end.

(* os/kernel/src/memory/pages.rs: drop_table *)
Fixpoint drop_entries {m} (rec : A -> table m -> Z -> outcome A) (a : A)
    (entries : list (option (PageTableEntry * table m))) : outcome A :=
  match entries with
  | [] => Ret a
  | None :: rest => drop_entries rec a rest
  | Some (e, sub) :: rest =>
      if pte_frame e =? 0 then drop_entries rec a rest
      else a1 ← rec a sub (pte_frame e); drop_entries rec a1 rest
  end.

(** [frame] is the frame the table itself is stored in. *)
(* [os/kernel/src/memory/pages.rs:335-352] drop_table *)
Fixpoint drop_table (n : nat) : A -> table n -> Z -> outcome A :=
  match n with
  | S m => fun a t frame =>
      a1 ← drop_entries (drop_table m) a t;
      fa_free a1 (mkRange frame (frame + 1))
  | O => fun a t frame => fa_free a (mkRange frame (frame + 1))
  end.

(** ** Address spaces *)

(** [depth] is [paging_level + 1]; the root table lies in [root_frame]. *)
(* [os/kernel/src/memory/pages.rs:37-41] Paging *)
Record Paging := mkPaging {
  paging_level : nat;
  root_frame : Z;
  root_table : table paging_level
}.

(* [os/kernel/src/memory/pages.rs:63-69] Paging::new *)
Definition paging_new (a : A) (level : nat) : outcome (Paging * A) :=
  '(r, a') ← fa_alloc a 1;
  Ret (mkPaging level (r_start r) (zero_table level), a').

(* [os/kernel/src/memory/pages.rs:72-85] Paging::from_other *)
Definition from_other (a : A) (other : Paging) : outcome (Paging * A) :=
  '(p, a1) ← paging_new a (paging_level other);
  '(t, a2) ← copy_table (paging_level other) a1 (root_table other);
  Ret (mkPaging (paging_level other) (root_frame p) t, a2).

(* [os/kernel/src/memory/pages.rs:94-100] Paging::page_table_address *)
Definition page_table_address (p : Paging) : Z := start_address (root_frame p).

(* [os/kernel/src/memory/pages.rs:106-112] Paging::map *)
Definition paging_map (a : A) (p : Paging) (pages : range) (space : MemorySpace) (flags : Z)
    : outcome (Paging * A) :=
  '(t, a', _) ← map_in_table space flags (paging_level p) a (root_table p) (mkRange 0 0) pages;
  Ret (mkPaging (paging_level p) (root_frame p) t, a').

(* [os/kernel/src/memory/pages.rs:116-124] Paging::map_physical *)
Definition paging_map_physical (a : A) (p : Paging) (frames pages : range) (space : MemorySpace)
    (flags : Z) : outcome (Paging * A) :=
  _ ← rust_assert (range_len frames =? range_len pages) "assertion failed: left == right";
  '(t, a', _) ← map_in_table space flags (paging_level p) a (root_table p) frames pages;
  Ret (mkPaging (paging_level p) (root_frame p) t, a').

(** [PRESENT | WRITABLE | NO_CACHE] *)
Definition IO_FLAGS : Z := 2 ^ 0 + 2 ^ 1 + 2 ^ 4.

(* [os/kernel/src/memory/pages.rs:129-141] Paging::map_io *)
Definition paging_map_io (a : A) (p : Paging) (frames : range) : outcome (Paging * A * range) :=
  let pages := mkRange (start_address (r_start frames) / PAGE_SIZE)
                       (start_address (r_end frames) / PAGE_SIZE) in
  '(p', a') ← paging_map a p pages Kernel IO_FLAGS;
  Ret (p', a', pages).

(* [os/kernel/src/memory/pages.rs:144-150] Paging::translate *)
Definition paging_translate (p : Paging) (addr : Z) : outcome (option Z) :=
  translate_in_table (paging_level p) (root_table p) addr.

(* [os/kernel/src/memory/pages.rs:154-160] Paging::unmap *)
Definition paging_unmap (a : A) (p : Paging) (pages : range) (free_physical : bool)
    : outcome (Paging * A) :=
  '(t, a', _) ← unmap_in_table free_physical (paging_level p) a (root_table p) pages;
  Ret (mkPaging (paging_level p) (root_frame p) t, a').

(* [os/kernel/src/memory/pages.rs:163-169] Paging::set_flags *)
Definition paging_set_flags (p : Paging) (pages : range) (flags : Z) : Paging :=
  mkPaging (paging_level p) (root_frame p)
    (fst (set_flags_in_table flags (paging_level p) (root_table p) pages)).

(* [os/kernel/src/memory/pages.rs:50-58] Paging::drop *)
Definition paging_drop (a : A) (p : Paging) : outcome A :=
  drop_table (paging_level p) a (root_table p) (root_frame p).

End Ops.

(** ** Specification vocabulary *)

(** Pages below one entry of [table n], and below the whole table. *)
Definition entry_span (n : nat) : Z := 512 ^ Z.of_nat n.
Definition table_span (n : nat) : Z := 512 * entry_span n.

(** Index of the entry of [table n] that [page] belongs to. *)
Definition page_index (page : Z) (n : nat) : nat := Z.to_nat ((page / entry_span n) mod 512).

(** The level-1 entry for [page], if every level has one. *)
Fixpoint lookup_page (n : nat) : table n -> Z -> option PageTableEntry :=
  match n with
  | O => fun t page =>
      match t !! page_index page 0 with
      | Some e => if is_unused e then None else Some e
      | None => None
      end
  | S m => fun t page =>
      match t !! page_index page (S m) with
      | Some (Some (_, sub)) => lookup_page m sub page
      | _ => None
      end
  end.

(** An entry that refers to a next-level table: not in frame 0, not a huge page. *)
Definition entry_ok (e : PageTableEntry) : Prop :=
  0 < pte_frame e /\ Z.testbit (pte_flags e) HUGE_PAGE = false.

(** 512 entries everywhere, and proper references to next-level tables. *)
Fixpoint table_wf (n : nat) : table n -> Prop :=
  match n with
  | O => fun t => length t = Z.to_nat 512
  | S m => fun t => length t = Z.to_nat 512 /\
      Forall (fun o => match o with
                       | None => True
                       | Some (e, sub) => entry_ok e /\ table_wf m sub
                       end) t
  end.

(** The frames of all tables below this one. *)
Fixpoint table_frames (n : nat) : table n -> list Z :=
  match n with
  | O => fun _ => []
  | S m => fun t => t ≫= fun o => match o with
                                  | None => []
                                  | Some (e, sub) => pte_frame e :: table_frames m sub
                                  end
  end.
