(* ===== verification/PagingProofs.v ===== *)
(** * Theorems about page tables

    Mapping, translation, flags, unmapping, copying and dropping of the page
    table hierarchy of [Paging], for any frame allocator that satisfies the
    interface laws.  The central notion is [lookup_page]: the level-1 entry a
    page has.  Each operation is characterised by what it does to the lookup of
    every page and to the set of free frames. *)

From S2P Require Import Prelude Intervals Dram Frames FrameAlloc Paging.

Open Scope Z_scope.

(** ** Index arithmetic *)

Lemma entry_span_pos n : 0 < entry_span n.
Proof. unfold entry_span. apply Z.pow_pos_nonneg; lia. Qed.

Lemma entry_span_S n : entry_span (S n) = table_span n.
Proof. unfold table_span, entry_span. rewrite Nat2Z.inj_succ, Z.pow_succ_r by lia. done. Qed.

#[export] Hint Resolve entry_span_pos : d3os.

Lemma page_table_index_spec page n :
  0 <= page -> page_table_index (page_address page) n = page_index page n.
Proof.
  intros Hp. unfold page_table_index, page_index, page_address, PAGE_SIZE. f_equal.
  rewrite !Z.shiftr_div_pow2 by lia. change (2 ^ 12) with 4096. rewrite Z.div_mul by lia.
  replace (2 ^ (Z.of_nat n * 9)) with (entry_span n).
  - set (q := page / entry_span n). apply Z.mod_mod_divide. by exists 128.
  - unfold entry_span. change 512 with (2 ^ 9). rewrite <- Z.pow_mul_r by lia. f_equal. lia.
Qed.

Lemma page_index_lt page n : (page_index page n < Z.to_nat 512)%nat.
Proof. unfold page_index. pose proof (Z.mod_pos_bound (page / entry_span n) 512). lia. Qed.

(** A page number in terms of the table's block number and the entry index. *)
Lemma page_split page n :
  page / entry_span n = 512 * (page / table_span n) + Z.of_nat (page_index page n).
Proof.
  unfold table_span, page_index. pose proof (entry_span_pos n) as Hc.
  replace (512 * entry_span n) with (entry_span n * 512) by lia.
  rewrite <- Z.div_div by lia.
  pose proof (Z.mod_pos_bound (page / entry_span n) 512 ltac:(lia)).
  pose proof (Z.div_mod (page / entry_span n) 512 ltac:(lia)). lia.
Qed.

Lemma div_bounds a c : 0 < c -> a / c * c <= a < (a / c + 1) * c.
Proof. intros Hc. pose proof (Z.div_mod a c). pose proof (Z.mod_pos_bound a c). nia. Qed.

Lemma div_unique_bounds a c q : 0 < c -> q * c <= a < (q + 1) * c -> a / c = q.
Proof. intros Hc H. symmetry. apply (Z.div_unique_pos a c q (a - q * c)); lia. Qed.

Lemma page_index_unique page n b i :
  page / entry_span n = 512 * b + Z.of_nat i -> (i < Z.to_nat 512)%nat ->
  page / table_span n = b /\ page_index page n = i.
Proof.
  intros Hp Hi. pose proof (entry_span_pos n) as Hc.
  assert (Hb : page / table_span n = b).
  { unfold table_span. rewrite (Z.mul_comm 512), <- Z.div_div, Hp by lia.
    symmetry. apply (Z.div_unique_pos _ 512 b (Z.of_nat i)); lia. }
  split; [done|]. pose proof (page_split page n). lia.
Qed.

(** ** Translation is lookup plus the page offset *)

Abbreviation upper m := (list (option (PageTableEntry * table m))) (only parsing).

Lemma lookup_page_0 (t : list PageTableEntry) page :
  lookup_page 0 t page
    = match t !! page_index page 0 with
      | Some e => if is_unused e then None else Some e
      | None => None
      end.
Proof. done. Qed.

Lemma lookup_page_S m (t : upper m) page :
  lookup_page (S m) t page
    = match t !! page_index page (S m) with
      | Some (Some (_, sub)) => lookup_page m sub page
      | _ => None
      end.
Proof. done. Qed.

Lemma translate_0 (t : list PageTableEntry) addr :
  translate_in_table 0 t addr
    = (e ← arr_get t (page_table_index (page_address (addr / PAGE_SIZE)) 0);
       if is_unused e then Ret None
       else Ret (Some (start_address (pte_frame e) + (addr - page_address (addr / PAGE_SIZE))))).
Proof. done. Qed.

Lemma translate_S m (t : upper m) addr :
  translate_in_table (S m) t addr
    = (entry ← arr_get t (page_table_index (page_address (addr / PAGE_SIZE)) (S m));
       match entry with
       | None => Ret None
       | Some (_, sub) => translate_in_table m sub addr
       end).
Proof. done. Qed.

Lemma table_wf_entry m (t : upper m) page :
  table_wf (S m) t -> exists o, t !! page_index page (S m) = Some o /\
    match o with None => True | Some (e, sub) => entry_ok e /\ table_wf m sub end.
Proof.
  intros [Hlen Hall]. assert (Hlen' : length t = Z.to_nat 512) by exact Hlen.
  destruct (lookup_lt_is_Some_2 t (page_index page (S m))) as [o Ho].
  - rewrite Hlen'. apply page_index_lt.
  - exists o. split; [done|]. by eapply Forall_lookup_1 in Hall.
Qed.

Lemma table_wf_leaf (t : list PageTableEntry) page :
  table_wf 0 t -> exists e, t !! page_index page 0 = Some e.
Proof.
  intros Hlen. apply (lookup_lt_is_Some_2 t). rewrite Hlen. apply page_index_lt.
Qed.

Lemma translate_lookup n (t : table n) addr :
  table_wf n t -> 0 <= addr ->
  translate_in_table n t addr
    = Ret ((fun e => start_address (pte_frame e) + addr mod PAGE_SIZE)
             <$> lookup_page n t (addr / PAGE_SIZE)).
Proof.
  intros Hwf Ha. assert (Hp : 0 <= addr / PAGE_SIZE) by (apply Z.div_pos; [done|unfold PAGE_SIZE; lia]).
  assert (Hoff : addr - page_address (addr / PAGE_SIZE) = addr mod PAGE_SIZE)
    by (unfold page_address; rewrite Z.mod_eq by done; lia).
  induction n as [|m IH].
  - destruct (table_wf_leaf t (addr / PAGE_SIZE) Hwf) as [e He].
    rewrite translate_0, page_table_index_spec, lookup_page_0 by done.
    rewrite (arr_get_ok _ _ _ He), He. simpl. rewrite Hoff. by destruct (is_unused e).
  - destruct (table_wf_entry m t (addr / PAGE_SIZE) Hwf) as (o & Ho & Hsub).
    rewrite translate_S, page_table_index_spec, lookup_page_S by done.
    rewrite (arr_get_ok _ _ _ Ho), Ho. simpl. destruct o as [[e sub]|]; [|done].
    apply IH, Hsub.
Qed.

(** ** Table frames and ownership *)

Lemma table_frames_app m (l k : upper m) :
  table_frames (S m) (l ++ k) = table_frames (S m) l ++ table_frames (S m) k.
Proof. simpl. apply bind_app. Qed.

Lemma table_frames_cons m e sub (l : upper m) :
  table_frames (S m) (Some (e, sub) :: l)
    = pte_frame e :: table_frames m sub ++ table_frames (S m) l.
Proof. done. Qed.

Lemma table_frames_none m (l : upper m) :
  table_frames (S m) (None :: l) = table_frames (S m) l.
Proof. done. Qed.

Lemma table_frames_zero n : table_frames n (zero_table n) = [].
Proof.
  destruct n as [|m]; [done|].
  assert (H : forall k, table_frames (S m) (replicate k None) = []) by (by induction k).
  apply H.
Qed.

Lemma lookup_page_zero n page : lookup_page n (zero_table n) page = None.
Proof.
  destruct n as [|m].
  - rewrite lookup_page_0. unfold zero_table. rewrite lookup_replicate_2 by apply page_index_lt. done.
  - rewrite lookup_page_S. unfold zero_table. rewrite lookup_replicate_2 by apply page_index_lt. done.
Qed.

Lemma table_wf_zero n : table_wf n (zero_table n).
Proof.
  destruct n as [|m]; cbn [table_wf zero_table].
  - apply length_replicate.
  - split; [apply length_replicate|]. by apply Forall_replicate.
Qed.

Lemma table_wf_upper m (t : upper m) :
  table_wf (S m) t <-> length t = Z.to_nat 512 /\
    Forall (fun o => match o with
                     | None => True
                     | Some (e, sub) => entry_ok e /\ table_wf m sub
                     end) t.
Proof. done. Qed.

(** Replacing the entry at the end of [pre]. *)
Lemma table_wf_replace m (pre rest : upper m) o o' :
  table_wf (S m) (pre ++ o :: rest) ->
  match o' with None => True | Some (e, sub) => entry_ok e /\ table_wf m sub end ->
  table_wf (S m) (pre ++ o' :: rest).
Proof.
  rewrite !table_wf_upper, !length_app, !Forall_app, !Forall_cons. simpl. tauto.
Qed.

Lemma lookup_page_replace m (pre rest : upper m) o o' page :
  page_index page (S m) <> length pre ->
  lookup_page (S m) (pre ++ o' :: rest) page = lookup_page (S m) (pre ++ o :: rest) page.
Proof.
  intros Hne. rewrite !lookup_page_S.
  destruct (decide (page_index page (S m) < length pre)%nat).
  - by rewrite !lookup_app_l by done.
  - rewrite !lookup_app_r by lia.
    by destruct (page_index page (S m) - length pre)%nat eqn:Hk; [lia|].
Qed.

Lemma lookup_page_at m (pre rest : upper m) e sub page :
  page_index page (S m) = length pre ->
  lookup_page (S m) (pre ++ Some (e, sub) :: rest) page = lookup_page m sub page.
Proof. intros He. rewrite lookup_page_S, He, list_lookup_middle by done. done. Qed.

Lemma lookup_page_at_none m (pre rest : upper m) page :
  page_index page (S m) = length pre -> lookup_page (S m) (pre ++ None :: rest) page = None.
Proof. intros He. rewrite lookup_page_S, He, list_lookup_middle by done. done. Qed.

Section Mapping.
Context {A : Type} `{FA : FrameAllocator A} `{FAL : !FrameAllocatorLaws A}.

(** The hierarchy owns its table frames: they are distinct and none is free. *)
Definition owns (a : A) (n : nat) (t : table n) : Prop :=
  NoDup (table_frames n t) /\ Forall (fun f => 0 < f /\ ~ fa_is_free a f) (table_frames n t).

Lemma owns_replace m a (pre rest : upper m) e sub a' sub' :
  (forall f, fa_is_free a' f -> fa_is_free a f) -> (owns a m sub -> owns a' m sub') ->
  (forall f, f ∈ table_frames m sub' -> f ∈ table_frames m sub \/ fa_is_free a f) ->
  owns a (S m) (pre ++ Some (e, sub) :: rest) -> owns a' (S m) (pre ++ Some (e, sub') :: rest).
Proof.
  intros Hmono Hown Hnew. unfold owns in *. rewrite !table_frames_app, !table_frames_cons.
  rewrite !NoDup_app, !Forall_app, !NoDup_cons, !Forall_cons, !NoDup_app, !Forall_app.
  setoid_rewrite elem_of_cons. setoid_rewrite elem_of_app.
  intros [(N1 & N2 & N3 & N4 & N5 & N6) (F1 & F2 & F3 & F4)].
  destruct Hown as [N4' F3']; [done|].
  assert (Hweak : forall f, 0 < f /\ ~ fa_is_free a f -> 0 < f /\ ~ fa_is_free a' f).
  { intros f [? Hf]. split; [done|]. by intros ?%Hmono. }
  assert (Hother : forall f, 0 < f /\ ~ fa_is_free a f -> f ∈ table_frames m sub' -> f ∈ table_frames m sub).
  { intros f [_ Hf] [?|?]%Hnew; done. }
  rewrite Forall_forall in F1, F4.
  split_and!; try done.
  - intros f Hf Hc. apply (N2 f Hf). destruct Hc as [?|[?|?]]; auto.
  - intros [Hc|Hc]; apply N3; auto.
  - intros f Hf Hc. apply (N5 f); auto.
  - apply Forall_forall. intros f Hf. apply Hweak. auto.
  - apply F2.
  - apply (Hweak (pte_frame e)), F2.
  - apply Forall_forall. intros f Hf. apply Hweak. auto.
Qed.

(** What a mapping is for, over the pages [\[s, e)] and between two allocator
    states, as a property of the lookup function. *)
Class Segment := {
  seg : A -> A -> Z -> Z -> (Z -> option PageTableEntry) -> Prop;
  seg_nil a a' s lk : seg a a' s s lk;
  seg_ext a a' s e lk lk' :
    (forall p, s <= p < e -> lk p = lk' p) -> seg a a' s e lk -> seg a a' s e lk';
  seg_comp a a1 a2 s m e lk :
    s <= m <= e ->
    (forall f, fa_is_free a1 f -> fa_is_free a f) -> (forall f, fa_is_free a2 f -> fa_is_free a1 f) ->
    seg a a1 s m lk -> seg a1 a2 m e lk -> seg a a2 s e lk
}.

(** The frames [lost] to level-1 entries, if the mapping allocates them. *)
Record mapped `{SEG : Segment} (flags : Z) (user : Prop) (n : nat) (a : A) (t : table n) (a' : A) (t' : table n)
    (s c : Z) : Prop := {
  mp_wf : table_wf n t';
  mp_inv : fa_inv a';
  mp_seg : seg a a' s (s + c) (lookup_page n t');
  mp_same p : p / table_span n = s / table_span n -> ~ s <= p < s + c ->
    lookup_page n t' p = lookup_page n t p;
  mp_mono f : fa_is_free a' f -> fa_is_free a f;
  mp_old f : f ∈ table_frames n t -> f ∈ table_frames n t';
  mp_new f : f ∈ table_frames n t' -> f ∈ table_frames n t \/ fa_is_free a f;
  mp_own : owns a n t -> owns a' n t';
  mp_lost f : fa_is_free a f -> fa_is_free a' f \/ f ∈ table_frames n t' \/
    (user /\ exists p, s <= p < s + c /\ lookup_page n t' p = Some (mkPte f flags));
  mp_apart p f : owns a n t -> user -> s <= p < s + c -> lookup_page n t' p = Some (mkPte f flags) ->
    fa_is_free a f /\ ~ fa_is_free a' f /\ f ∉ table_frames n t'
}.

Context `{SEG : Segment} (flags : Z) (user : Prop).

Lemma mapped_compose n a t a1 t1 a2 t2 s c1 c2 :
  0 <= c1 -> 0 <= c2 -> (s + c1) / table_span n = s / table_span n ->
  (forall p, s <= p < s + c1 -> p / table_span n = s / table_span n) ->
  mapped flags user n a t a1 t1 s c1 -> mapped flags user n a1 t1 a2 t2 (s + c1) c2 ->
  mapped flags user n a t a2 t2 s (c1 + c2).
Proof.
  intros Hc1 Hc2 Hblk Hin M1 M2.
  assert (Hsame : forall p, s <= p < s + c1 -> lookup_page n t2 p = lookup_page n t1 p).
  { intros p Hp. apply (mp_same _ _ _ _ _ _ _ _ _ M2); [rewrite Hblk; auto|lia]. }
  constructor.
  - apply M2.
  - apply M2.
  - apply (seg_comp a a1 a2 s (s + c1)); [lia|apply M1|apply M2|..].
    + eapply seg_ext; [|apply M1]. intros p Hp. by rewrite Hsame.
    + rewrite Z.add_assoc. apply M2.
  - intros p Hb Hp. rewrite (mp_same _ _ _ _ _ _ _ _ _ M2) by (congruence || lia).
    apply (mp_same _ _ _ _ _ _ _ _ _ M1); [done|lia].
  - intros f Hf. apply (mp_mono _ _ _ _ _ _ _ _ _ M1), (mp_mono _ _ _ _ _ _ _ _ _ M2), Hf.
  - intros f Hf. apply (mp_old _ _ _ _ _ _ _ _ _ M2), (mp_old _ _ _ _ _ _ _ _ _ M1), Hf.
  - intros f [Hf|Hf]%(mp_new _ _ _ _ _ _ _ _ _ M2).
    + by apply (mp_new _ _ _ _ _ _ _ _ _ M1).
    + right. by apply (mp_mono _ _ _ _ _ _ _ _ _ M1).
  - intros Ho. apply M2, M1, Ho.
  - intros f [Hf|[Hf|(Hu & p & Hp & Hl)]]%(mp_lost _ _ _ _ _ _ _ _ _ M1).
    + apply (mp_lost _ _ _ _ _ _ _ _ _ M2) in Hf as [?|[?|(Hu & p & Hp & Hl)]]; [auto..|].
      right. right. split; [done|]. exists p. split; [lia|done].
    + right. left. by apply (mp_old _ _ _ _ _ _ _ _ _ M2).
    + right. right. split; [done|]. exists p. split; [lia|]. by rewrite Hsame.
  - intros p f Ho Hu Hp Hl. destruct (Z.lt_ge_cases p (s + c1)).
    + rewrite Hsame in Hl by lia. destruct (mp_apart _ _ _ _ _ _ _ _ _ M1 p f) as (H1 & H2 & H3); [done|done|lia|done|].
      split_and!; [done|by intros ?%(mp_mono _ _ _ _ _ _ _ _ _ M2)|].
      intros [?|?]%(mp_new _ _ _ _ _ _ _ _ _ M2); done.
    + destruct (mp_apart _ _ _ _ _ _ _ _ _ M2 p f) as (H1 & H2 & H3); [by apply M1|done|lia|done|].
      split_and!; [by apply (mp_mono _ _ _ _ _ _ _ _ _ M1)|done|done].
Qed.

(** Allocating the next-level table of an unused entry changes no lookup. *)
Lemma mapped_alloc m a (pre rest : upper m) s r a1 :
  Z.testbit flags HUGE_PAGE = false ->
  fa_inv a -> table_wf (S m) (pre ++ None :: rest) -> fa_alloc a 1 = Ret (r, a1) ->
  mapped flags user (S m) a (pre ++ None :: rest) a1
    (pre ++ Some (mkPte (r_start r) flags, zero_table m) :: rest) s 0.
Proof.
  intros Hflags Hinv Hwf Ha.
  destruct (fa_alloc_ok a 1 r a1 Hinv) as (Hi & Hpos & _ & Hone & Hfree & Hfree'); [lia|done|].
  specialize (Hone eq_refl). unfold range_len in Hone.
  assert (Hr : forall g, in_range g r <-> g = r_start r) by (unfold in_range; lia).
  assert (Hin : fa_is_free a (r_start r)) by (apply Hfree, Hr; done).
  constructor.
  - eapply table_wf_replace; [exact Hwf|]. split; [done|apply table_wf_zero].
  - done.
  - rewrite Z.add_0_r. apply seg_nil.
  - intros p _ _. destruct (decide (page_index p (S m) = length pre)) as [Heq|Hne].
    + rewrite lookup_page_at, lookup_page_at_none by done. apply lookup_page_zero.
    + by apply lookup_page_replace.
  - intros f Hf%Hfree'. apply Hf.
  - intros f. rewrite !table_frames_app, table_frames_cons, table_frames_none, table_frames_zero.
    simpl. rewrite !elem_of_app, elem_of_cons. tauto.
  - intros f. rewrite !table_frames_app, table_frames_cons, table_frames_none, table_frames_zero. simpl.
    rewrite !elem_of_app, elem_of_cons. intros [?|[->|?]]; auto.
  - intros [Hnd Hall]. unfold owns. revert Hnd Hall.
    rewrite !table_frames_app, table_frames_cons, table_frames_none, table_frames_zero. simpl.
    intros Hnd Hall. split.
    + apply (NoDup_Permutation_proper _ _ (Permutation_middle _ _ _)).
      constructor; [|done]. intros Hc. rewrite Forall_forall in Hall. apply Hall in Hc. tauto.
    + eapply Permutation_Forall; [apply Permutation_middle|]. constructor.
      * split; [done|]. rewrite Hfree', Hr. tauto.
      * eapply Forall_impl; [exact Hall|]. intros f [? Hf]. split; [done|]. rewrite Hfree'. tauto.
  - intros f Hf. destruct (decide (f = r_start r)) as [->|Hne].
    + right. left. rewrite table_frames_app, table_frames_cons, elem_of_app, elem_of_cons. auto.
    + left. apply Hfree'. rewrite Hr. done.
  - lia.
Qed.

(** Mapping inside the table of one entry. *)
Lemma mapped_lift m a (pre rest : upper m) e sub a' sub' s c b :
  entry_ok e -> table_wf (S m) (pre ++ Some (e, sub) :: rest) ->
  s / entry_span (S m) = 512 * b + Z.of_nat (length pre) -> (length pre < Z.to_nat 512)%nat ->
  (forall p, s <= p < s + c -> p / entry_span (S m) = s / entry_span (S m)) ->
  mapped flags user m a sub a' sub' s c ->
  mapped flags user (S m) a (pre ++ Some (e, sub) :: rest) a' (pre ++ Some (e, sub') :: rest) s c.
Proof.
  intros He Hwf Hs Hlen Hin M.
  assert (Hidx : forall p, p / entry_span (S m) = s / entry_span (S m) ->
            page_index p (S m) = length pre /\ p / table_span m = s / table_span m).
  { intros p Hp. rewrite <- !entry_span_S. split; [|done]. rewrite Hs in Hp.
    by apply (page_index_unique p (S m) b). }
  constructor.
  - eapply table_wf_replace; [exact Hwf|]. split; [done|apply M].
  - apply M.
  - eapply seg_ext; [|apply M]. intros p Hp. symmetry. apply lookup_page_at, Hidx. auto.
  - intros p Hp Hout. destruct (decide (page_index p (S m) = length pre)) as [Heq|Hne].
    + rewrite !lookup_page_at by done. apply M; [|done].
      assert (Hps : p / entry_span (S m) = s / entry_span (S m)).
      { rewrite (page_split p), (page_split s), Hp, Heq.
        apply (page_index_unique s (S m) b) in Hs as [_ ->]; done. }
      by apply Hidx.
    + by apply lookup_page_replace.
  - apply M.
  - intros f. rewrite !table_frames_app, !table_frames_cons, !elem_of_app, !elem_of_cons, !elem_of_app.
    pose proof (mp_old _ _ _ _ _ _ _ _ _ M f). tauto.
  - intros f. rewrite !table_frames_app, !table_frames_cons, !elem_of_app, !elem_of_cons, !elem_of_app.
    pose proof (mp_new _ _ _ _ _ _ _ _ _ M f). tauto.
  - apply owns_replace; [apply M..|].
    intros f. apply (mp_new _ _ _ _ _ _ _ _ _ M).
  - intros f [Hf|[Hf|(Hu & p & Hp & Hl)]]%(mp_lost _ _ _ _ _ _ _ _ _ M); [auto|..].
    + right. left. rewrite table_frames_app, table_frames_cons, elem_of_app, elem_of_cons, elem_of_app. auto.
    + right. right. split; [done|]. exists p. split; [done|].
      rewrite lookup_page_at; [done|]. apply Hidx. auto.
  - intros p f [HN HF] Hu Hp Hl. rewrite lookup_page_at in Hl by (apply Hidx; auto).
    rewrite table_frames_app, table_frames_cons in HN, HF |- *.
    apply NoDup_app in HN as (_ & _ & [_ [HN _]%NoDup_app]%NoDup_cons).
    rewrite Forall_app, Forall_cons, Forall_app, !Forall_forall in HF. destruct HF as (F1 & F2 & F3 & F4).
    destruct (mp_apart _ _ _ _ _ _ _ _ _ M p f) as (H1 & H2 & H3); try done.
    { split; [done|]. by apply Forall_forall. }
    split_and!; [done|done|]. rewrite elem_of_app, elem_of_cons, elem_of_app.
    intros [Hf|[->|[Hf|Hf]]]; [apply F1 in Hf; tauto|tauto|done|apply F4 in Hf; tauto].
Qed.

(** The allocator ran out of memory. *)
Definition oom (msg : string) : Prop := exists a : A, fa_inv a /\ fa_alloc a 1 = Panic msg.

(** How the frame range that is passed down relates to the pages still to be
    mapped. *)
Context (frames_match : range -> range -> Prop).
Context (frames_match_step : forall frames s e c,
  frames_match frames (mkRange s e) -> 0 <= c -> s + c < e ->
  frames_match (if r_end frames >? r_start frames
                then mkRange (r_start frames + c) (r_end frames) else frames) (mkRange (s + c) e)).

Definition block_end (n : nat) (s : Z) : Z := (s / table_span n + 1) * table_span n.

(** Mapping starts at [s] and goes to the end of the range or of the table. *)
Definition map_spec (n : nat) (f : A -> table n -> range -> range -> outcome (table n * A * Z)) : Prop :=
  forall a t frames s e, fa_inv a -> table_wf n t -> 0 <= s < e -> frames_match frames (mkRange s e) ->
  match f a t frames (mkRange s e) with
  | Ret (t', a', c) => c = Z.min e (block_end n s) - s /\ mapped flags user n a t a' t' s c
  | Panic msg => oom msg
  end.

Lemma table_span_pos n : 0 < table_span n.
Proof. unfold table_span. pose proof (entry_span_pos n). lia. Qed.

(** Blocks of an entry inside the block of its table. *)
Lemma block_end_nested m s b i :
  s / entry_span (S m) = 512 * b + Z.of_nat i -> (i < Z.to_nat 512)%nat ->
  block_end m s = (512 * b + Z.of_nat i + 1) * entry_span (S m) /\
  block_end (S m) s = (512 * b + 512) * entry_span (S m) /\
  s < block_end m s <= block_end (S m) s.
Proof.
  intros Hs Hi. destruct (page_index_unique s (S m) b i Hs Hi) as [Hb _].
  pose proof (entry_span_pos (S m)) as Hc. pose proof (div_bounds s (entry_span (S m)) Hc) as Hd.
  rewrite Hs in Hd. unfold block_end. rewrite <- (entry_span_S m), Hs, Hb. unfold table_span.
  split; [lia|]. split; [lia|]. nia.
Qed.

Lemma mapped_cast n a t a' t' s c c' :
  c = c' -> mapped flags user n a t a' t' s c -> mapped flags user n a t a' t' s c'.
Proof. by intros ->. Qed.

(** The table of an entry, allocated if the entry is unused. *)
Lemma entry_table_spec m a (pre rest : upper m) o s :
  Z.testbit flags HUGE_PAGE = false -> fa_inv a -> table_wf (S m) (pre ++ o :: rest) ->
  match (match o with
         | None => '(r, a1) ← fa_alloc a 1; e ← set_frame (r_start r) flags; Ret (e, zero_table m, a1)
         | Some (e, sub) => Ret (e, sub, a)
         end) with
  | Ret (e0, sub, a1) => entry_ok e0 /\ table_wf m sub /\ fa_inv a1 /\
      mapped flags user (S m) a (pre ++ o :: rest) a1 (pre ++ Some (e0, sub) :: rest) s 0
  | Panic msg => oom msg
  end.
Proof.
  intros Hflags Hinv Hwf. destruct o as [[e sub]|].
  - assert (Hent : entry_ok e /\ table_wf m sub).
    { apply table_wf_upper in Hwf as [_ Hall]. rewrite Forall_app, Forall_cons in Hall. apply Hall. }
    split; [apply Hent|]. split; [apply Hent|]. split; [done|].
    constructor; try done; [rewrite Z.add_0_r; apply seg_nil|auto|auto|lia].
  - destruct (fa_alloc a 1) as [[r a1]|msg] eqn:Ha; [|by exists a].
    unfold set_frame. rewrite Hflags. simpl.
    destruct (fa_alloc_ok a 1 r a1 Hinv) as (Hi & Hpos & _); [lia|done|].
    split; [done|]. split; [apply table_wf_zero|]. split; [done|]. by apply mapped_alloc.
Qed.

Lemma in_entry_block m s b i p :
  s / entry_span (S m) = 512 * b + Z.of_nat i -> (i < Z.to_nat 512)%nat ->
  s <= p < block_end m s ->
  p / entry_span (S m) = s / entry_span (S m) /\ p / table_span (S m) = s / table_span (S m).
Proof.
  intros Hs Hi Hp. destruct (block_end_nested m s b i Hs Hi) as (Hbe & HbeS & Hble).
  pose proof (div_bounds s (entry_span (S m)) (entry_span_pos _)) as Hd. rewrite Hs in Hd.
  assert (Hps : p / entry_span (S m) = 512 * b + Z.of_nat i).
  { apply div_unique_bounds; [apply entry_span_pos|]. rewrite Hbe in Hp. lia. }
  split; [congruence|]. apply (page_index_unique _ _ b i) in Hs as [-> _]; [|done].
  by apply (page_index_unique _ _ b i) in Hps as [-> _].
Qed.

Lemma map_entries_spec m (rec : A -> table m -> range -> range -> outcome (table m * A * Z)) :
  Z.testbit flags HUGE_PAGE = false -> map_spec m rec ->
  forall (es pre : upper m) a frames s e total b,
  es <> [] -> table_wf (S m) (pre ++ es) -> fa_inv a -> 0 <= s < e -> frames_match frames (mkRange s e) ->
  s / entry_span (S m) = 512 * b + Z.of_nat (length pre) ->
  match map_entries rec flags a frames (mkRange s e) total es with
  | Ret (es', a', total') =>
      total' - total = Z.min e (block_end (S m) s) - s /\
      mapped flags user (S m) a (pre ++ es) a' (pre ++ es') s (total' - total)
  | Panic msg => oom msg
  end.
Proof.
  intros Hflags Hrec es. induction es as [|o rest IH]; intros pre a frames s e total b Hne Hwf Hinv Hs Hm Hb;
    [done|]. clear Hne. cbn [map_entries].
  assert (Hlen : (length pre + S (length rest) = Z.to_nat 512)%nat).
  { apply table_wf_upper in Hwf as [Hl _]. by rewrite length_app in Hl. }
  destruct (block_end_nested m s b (length pre) Hb ltac:(lia)) as (Hbe & HbeS & Hble).
  pose proof (entry_table_spec m a pre rest o s Hflags Hinv Hwf) as Hentry.
  destruct (match o with None => _ | Some _ => _ end) as [[[e0 sub] a1]|msg]; [|done]. simpl.
  destruct Hentry as (He0 & Hsub & Hinv1 & M1).
  specialize (Hrec a1 sub frames s e Hinv1 Hsub Hs Hm).
  destruct (rec a1 sub frames (mkRange s e)) as [[[sub' a2] c]|msg]; [|done]. simpl.
  destruct Hrec as [Hc M2].
  assert (Hin : forall p, s <= p < s + c -> p / entry_span (S m) = s / entry_span (S m) /\
                  p / table_span (S m) = s / table_span (S m)).
  { intros p Hp. apply (in_entry_block m s b (length pre)); [done|lia|lia]. }
  assert (M12 : mapped flags user (S m) a (pre ++ o :: rest) a2 (pre ++ Some (e0, sub') :: rest) s c).
  { eapply mapped_cast; [apply Z.add_0_l|].
    eapply mapped_compose; [lia|lia|by rewrite Z.add_0_r|intros p Hp; lia|exact M1|].
    rewrite Z.add_0_r. apply (mapped_lift m _ _ _ _ _ _ _ _ _ b); try done; [apply M1|lia|].
    intros p Hp. by apply Hin. }
  destruct (Z.geb_spec (s + c) e) as [Hge|Hlt].
  { replace (total + c - total) with c by lia. split; [lia|done]. }
  assert (Hsc : s + c = block_end m s) by lia.
  destruct rest as [|o2 rest].
  { cbn [map_entries]. simpl. replace (total + c - total) with c by lia. simpl in Hlen. split; [|done].
    replace (512 * b + Z.of_nat (length pre) + 1) with (512 * b + 512) in Hbe by lia. lia. }
  destruct (page_index_unique s (S m) b (length pre) Hb ltac:(lia)) as [Hblk _].
  assert (Hb' : (s + c) / entry_span (S m) = 512 * b + Z.of_nat (length (pre ++ [Some (e0, sub')]))).
  { rewrite Hsc, Hbe, Z.div_mul by (pose proof (entry_span_pos (S m)); lia).
    rewrite length_app. simpl. lia. }
  assert (Hblk' : (s + c) / table_span (S m) = b).
  { apply (page_index_unique _ _ b _ Hb'). rewrite length_app. simpl in *. lia. }
  specialize (IH (pre ++ [Some (e0, sub')]) a2
    (if r_end frames >? r_start frames then mkRange (r_start frames + c) (r_end frames) else frames)
    (s + c) e (total + c) b).
  rewrite <- !app_assoc in IH. cbn [app] in IH. specialize (IH ltac:(discriminate) (mp_wf _ _ _ _ _ _ _ _ _ M12)
    (mp_inv _ _ _ _ _ _ _ _ _ M12) ltac:(lia) ltac:(apply frames_match_step; [done|lia|lia]) Hb').
  destruct (map_entries rec flags a2 _ _ _ _) as [[[es' a3] total']|msg]; [|done]. simpl.
  destruct IH as [Htot M3]. rewrite <- app_assoc in M3. cbn [app] in M3.
  assert (HbeS' : block_end (S m) (s + c) = block_end (S m) s).
  { unfold block_end. by rewrite Hblk, Hblk'. }
  rewrite HbeS' in Htot. split; [lia|].
  eapply mapped_cast; [|eapply mapped_compose; [..|exact M12|exact M3]]; [lia|lia|lia|congruence|].
  intros p Hp. by apply Hin.
Qed.

Lemma map_in_table_S space m a (t : upper m) frames pages :
  map_in_table space flags (S m) a t frames pages
    = ('(es, a', total) ← map_entries (map_in_table space flags m) flags a frames pages 0
         (drop (page_table_index (page_address (r_start pages)) (S m)) t);
       Ret (take (page_table_index (page_address (r_start pages)) (S m)) t ++ es, a', total)).
Proof. done. Qed.

Lemma map_in_table_step space m a (t : upper m) frames s e :
  Z.testbit flags HUGE_PAGE = false -> map_spec m (map_in_table space flags m) ->
  fa_inv a -> table_wf (S m) t -> 0 <= s < e -> frames_match frames (mkRange s e) ->
  match map_in_table space flags (S m) a t frames (mkRange s e) with
  | Ret (t', a', c) => c = Z.min e (block_end (S m) s) - s /\ mapped flags user (S m) a t a' t' s c
  | Panic msg => oom msg
  end.
Proof.
  intros Hflags IH Hinv Hwf Hs Hm. rewrite map_in_table_S. simpl r_start.
  rewrite page_table_index_spec by lia. set (i := page_index s (S m)).
  assert (Hi : (i < length t)%nat).
  { destruct (proj1 (table_wf_upper m t) Hwf) as [-> _]. apply page_index_lt. }
  pose proof (map_entries_spec m _ Hflags IH (drop i t) (take i t) a frames s e 0
    (s / table_span (S m))) as Hloop.
  rewrite take_drop, length_take_le in Hloop by lia.
  assert (Hne : drop i t <> []).
  { intros Hd. apply (f_equal length) in Hd. rewrite length_drop in Hd. simpl in Hd. lia. }
  specialize (Hloop Hne Hwf Hinv Hs Hm (page_split s (S m))).
  destruct (map_entries _ _ _ _ _ _ _) as [[[es' a'] total]|msg]; [|done]. simpl.
  rewrite Z.sub_0_r in Hloop. done.
Qed.

Lemma map_in_table_spec space n :
  Z.testbit flags HUGE_PAGE = false -> map_spec 0 (map_in_table space flags 0) ->
  map_spec n (map_in_table space flags n).
Proof.
  intros Hflags Hleaf. induction n as [|m IH]; [done|].
  intros a t frames s e Hinv Hwf Hs Hm. by apply map_in_table_step.
Qed.

End Mapping.

(** ** Level-1 tables *)

Lemma leaf_overwrite (t new : list PageTableEntry) s e :
  let i := page_index s 0 in
  let count := leaf_count (mkRange s e) i in
  let t' := take i t ++ new ++ drop count (drop i t) in
  table_wf 0 t -> 0 <= s < e -> length new = count ->
  Z.of_nat count = Z.min e (block_end 0 s) - s /\ table_wf 0 t' /\
  (forall p, p / table_span 0 = s / table_span 0 ->
     t' !! page_index p 0
       = if decide (s <= p < s + Z.of_nat count) then new !! Z.to_nat (p - s) else t !! page_index p 0).
Proof.
  intros i count t' Hwf Hs Hnew.
  assert (Hspan : forall p, p / entry_span 0 = p) by (intros p; apply Z.div_1_r).
  assert (Hts : table_span 0 = 512) by done.
  pose proof (page_split s 0) as Hsplit. rewrite Hspan in Hsplit. fold i in Hsplit.
  pose proof (page_index_lt s 0) as Hi. fold i in Hi.
  assert (Hcount : Z.of_nat count = Z.min e (block_end 0 s) - s).
  { unfold count, leaf_count, block_end. simpl r_end. simpl r_start. rewrite Hts in *. lia. }
  assert (Hlt : length t = Z.to_nat 512) by done.
  assert (Hle : (i + count <= Z.to_nat 512)%nat).
  { unfold block_end in Hcount. rewrite Hts in *. lia. }
  split; [done|]. split.
  { change (length t' = Z.to_nat 512). unfold t'.
    rewrite !length_app, length_take, !length_drop, Hnew. lia. }
  intros p Hp. pose proof (page_split p 0) as Hpp. rewrite Hspan, Hp in Hpp.
  pose proof (page_index_lt p 0).
  assert (Htake : length (take i t) = i) by (rewrite length_take; lia).
  unfold t'. case_decide as Hd.
  - rewrite lookup_app_r, lookup_app_l by (rewrite Htake; lia). f_equal. lia.
  - destruct (decide (page_index p 0 < i)%nat).
    + rewrite lookup_app_l by (rewrite Htake; lia). by rewrite lookup_take_lt.
    + rewrite lookup_app_r, lookup_app_r by (rewrite Htake; lia).
      rewrite !lookup_drop. f_equal. lia.
Qed.

Lemma seqZ_succ f (count : nat) : seqZ f (Z.of_nat (S count)) = f :: seqZ (f + 1) (Z.of_nat count).
Proof. rewrite seqZ_cons by lia. f_equal. f_equal; lia. Qed.

Lemma identity_loop_spec flags count frame es :
  (count <= length es)%nat ->
  identity_loop flags count frame es
    = ((fun f => mkPte f flags) <$> seqZ frame (Z.of_nat count)) ++ drop count es.
Proof.
  revert frame es. induction count as [|count IH]; intros frame es Hle; [done|].
  destruct es as [|x es]; simpl in Hle; [lia|].
  rewrite seqZ_succ. simpl. rewrite IH by lia. done.
Qed.

Lemma physical_loop_spec flags count frames es :
  Z.testbit flags HUGE_PAGE = false -> (count <= length es)%nat ->
  Z.of_nat count <= r_end frames - r_start frames ->
  physical_loop flags count frames es
    = Ret (((fun f => mkPte f flags) <$> seqZ (r_start frames) (Z.of_nat count)) ++ drop count es).
Proof.
  intros Hflags. revert frames es. induction count as [|count IH]; intros frames es Hle Hfr; [done|].
  destruct es as [|x es]; simpl in Hle; [lia|]. cbn [physical_loop].
  rewrite (proj2 (Z.ltb_lt _ _)) by lia. unfold set_frame. rewrite Hflags, seqZ_succ. simpl.
  rewrite IH by (simpl; lia). done.
Qed.

Lemma user_loop_spec {A} `{FrameAllocatorLaws A} flags count (a : A) es :
  Z.testbit flags HUGE_PAGE = false -> fa_inv a -> (count <= length es)%nat ->
  match user_loop flags count a es with
  | Ret (es', a') => exists new, es' = ((fun f => mkPte f flags) <$> new) ++ drop count es /\
      length new = count /\ fa_inv a' /\ NoDup new /\
      Forall (fun f => 0 < f /\ fa_is_free a f) new /\
      (forall f, fa_is_free a' f <-> fa_is_free a f /\ f ∉ new)
  | Panic msg => exists a1 : A, fa_inv a1 /\ fa_alloc a1 1 = Panic msg
  end.
Proof.
  intros Hflags. revert a es. induction count as [|count IH]; intros a es Hinv Hle.
  - exists []. split_and!; try done; [apply NoDup_nil_2|].
    intros f. pose proof (not_elem_of_nil f). tauto.
  - destruct es as [|x es]; simpl in Hle; [lia|]. cbn [user_loop].
    destruct (fa_alloc a 1) as [[r a1]|msg] eqn:Ha; [|by exists a].
    destruct (fa_alloc_ok a 1 r a1 Hinv) as (Hi & Hpos & _ & Hone & Hfree & Hfree'); [lia|done|].
    specialize (Hone eq_refl). unfold range_len in Hone.
    assert (Hr : forall g, in_range g r <-> g = r_start r) by (unfold in_range; lia).
    unfold set_frame. rewrite Hflags. simpl.
    specialize (IH a1 es Hi ltac:(lia)).
    destruct (user_loop flags count a1 es) as [[es' a2]|msg]; [|done]. simpl.
    destruct IH as (new & -> & Hl & Hi2 & Hnd & Hall & Hfr). rewrite Forall_forall in Hall.
    exists (r_start r :: new). split_and!; try done; [simpl; lia|..].
    + constructor; [|done]. intros [_ [_ Hc]%Hfree']%Hall. rewrite Hr in Hc. done.
    + constructor; [split; [done|]; apply Hfree; by rewrite Hr|].
      apply Forall_forall. intros f [? [? _]%Hfree']%Hall. done.
    + intros f. rewrite Hfr, Hfree', Hr, not_elem_of_cons. tauto.
Qed.

(** ** The three kinds of mapping *)

Section Kinds.
Context {A : Type} `{FA : FrameAllocator A} `{FAL : !FrameAllocatorLaws A}.

(** Page [p] is mapped to frame [p + delta]. *)
Definition delta_segment (flags delta : Z) : Segment (A := A).
Proof.
  refine {| seg _ _ s e lk := forall p, s <= p < e -> lk p = Some (mkPte (p + delta) flags) |}.
  - intros. lia.
  - intros a a' s e lk lk' Hext Hseg p Hp. rewrite <- Hext by done. auto.
  - intros a a1 a2 s m e lk Hm _ _ H1 H2 p Hp. destruct (Z.lt_ge_cases p m); [apply H1|apply H2]; lia.
Defined.

(** Page [p] is mapped to a frame that was free and belongs to this page only. *)
Definition user_segment (flags : Z) : Segment (A := A).
Proof.
  refine {| seg a a' s e lk :=
    (forall p, s <= p < e -> exists f, lk p = Some (mkPte f flags) /\ 0 < f /\
       fa_is_free a f /\ ~ fa_is_free a' f) /\
    (forall p q, s <= p < e -> s <= q < e -> lk p = lk q -> p = q) |}.
  - intros. split; intros; lia.
  - intros a a' s e lk lk' Hext [H1 H2]. split.
    + intros p Hp. rewrite <- Hext by done. auto.
    + intros p q Hp Hq. rewrite <- !Hext by done. auto.
  - intros a a1 a2 s m e lk Hm M1 M2 [A1 A2] [B1 B2].
    assert (Hcross : forall p q, s <= p < m -> m <= q < e -> lk p <> lk q).
    { intros p q Hp Hq. destruct (A1 p Hp) as (f & -> & _ & _ & Hf).
      destruct (B1 q Hq) as (g & -> & _ & Hg & _). intros [= ->]. done. }
    split.
    + intros p Hp. destruct (Z.lt_ge_cases p m).
      * destruct (A1 p) as (f & ? & ? & ? & Hf); [lia|]. exists f. split_and!; try done. by intros ?%M2.
      * destruct (B1 p) as (f & ? & ? & Hf & ?); [lia|]. exists f. split_and!; try done. by apply M1.
    + intros p q Hp Hq Heq. destruct (Z.lt_ge_cases p m), (Z.lt_ge_cases q m).
      * apply A2; [lia|lia|done].
      * destruct (Hcross p q); [lia|lia|done].
      * destruct (Hcross q p); [lia|lia|done].
      * apply B2; [lia|lia|done].
Defined.

(** A level-1 table overwritten with used entries. *)
Lemma leaf_mapped (SEG : Segment (A := A)) flags user a a' (t : list PageTableEntry) (new : list Z) s e :
  let i := page_index s 0 in
  let count := leaf_count (mkRange s e) i in
  let t' := take i t ++ ((fun f => mkPte f flags) <$> new) ++ drop count (drop i t) in
  table_wf 0 t -> 0 <= s < e -> length new = count -> flags <> 0 ->
  fa_inv a' -> (forall f, fa_is_free a' f -> fa_is_free a f) ->
  (forall lk, (forall k, lk (s + Z.of_nat k) = (fun f => mkPte f flags) <$> new !! k) ->
     seg a a' s (s + Z.of_nat count) lk) ->
  (forall f, fa_is_free a f -> fa_is_free a' f \/ (user /\ f ∈ new)) ->
  (user -> forall f, f ∈ new -> fa_is_free a f /\ ~ fa_is_free a' f) ->
  Z.of_nat count = Z.min e (block_end 0 s) - s /\
  mapped flags user 0 a t a' t' s (Z.of_nat count).
Proof.
  intros i count t' Hwf Hs Hnew Hflags Hinv Hmono Hseg Hlost Hfresh.
  destruct (leaf_overwrite t ((fun f => mkPte f flags) <$> new) s e) as (Hc & Hwf' & Hlk);
    [done|done|by rewrite length_fmap|]. fold i count t' in Hc, Hwf', Hlk.
  split; [done|].
  assert (Hin : forall p, s <= p < s + Z.of_nat count -> p / table_span 0 = s / table_span 0).
  { intros p Hp. apply div_unique_bounds; [done|].
    pose proof (div_bounds s (table_span 0) ltac:(done)). unfold block_end in Hc. lia. }
  assert (Hlook : forall k, (k < count)%nat ->
            lookup_page 0 t' (s + Z.of_nat k) = (fun f => mkPte f flags) <$> new !! k).
  { intros k Hk. rewrite lookup_page_0, Hlk by (apply Hin; lia). rewrite decide_True by lia.
    rewrite list_lookup_fmap. replace (Z.to_nat (s + Z.of_nat k - s)) with k by lia.
    destruct (new !! k); [|done]. simpl. unfold is_unused. simpl.
    by rewrite (proj2 (Z.eqb_neq flags 0) Hflags), andb_false_r. }
  constructor; try done.
  - apply (seg_ext _ _ _ _ (fun p => (fun f => mkPte f flags) <$> new !! Z.to_nat (p - s))).
    + intros p Hp. replace p with (s + Z.of_nat (Z.to_nat (p - s))) at 2 by lia.
      by rewrite Hlook by lia.
    + apply Hseg. intros k. by replace (Z.to_nat (s + Z.of_nat k - s)) with k by lia.
  - intros p Hp Hout. by rewrite !lookup_page_0, Hlk, decide_False.
  - intros f Hf. by apply elem_of_nil in Hf.
  - intros _. split; [apply NoDup_nil_2|done].
  - intros f [Hf|[Hu Hf]]%Hlost; [by left|]. right. right. split; [done|].
    apply list_elem_of_lookup in Hf as [k Hk]. pose proof (lookup_lt_Some _ _ _ Hk).
    exists (s + Z.of_nat k). split; [lia|]. rewrite Hlook, Hk by lia. done.
  - intros p f _ Hu Hp Hl. replace p with (s + Z.of_nat (Z.to_nat (p - s))) in Hl by lia.
    rewrite Hlook in Hl by lia. apply fmap_Some_1 in Hl as (f' & Hk & [= ->]).
    destruct (Hfresh Hu f') as [H1 H2]; [by eapply list_elem_of_lookup_2|].
    split_and!; [done|done|apply not_elem_of_nil].
Qed.

Lemma delta_seg_seqZ flags delta a a' s count lk :
  (forall k, lk (s + Z.of_nat k) = (fun f => mkPte f flags) <$> seqZ (s + delta) (Z.of_nat count) !! k) ->
  seg (Segment := delta_segment flags delta) a a' s (s + Z.of_nat count) lk.
Proof.
  intros Hlk p Hp. replace p with (s + Z.of_nat (Z.to_nat (p - s))) at 1 by lia.
  rewrite Hlk, lookup_seqZ_lt by lia. simpl. do 2 f_equal. lia.
Qed.

Lemma leaf_drop_le (t : list PageTableEntry) s e :
  table_wf 0 t -> (leaf_count (mkRange s e) (page_index s 0) <= length (drop (page_index s 0) t))%nat.
Proof.
  intros Hwf. pose proof (page_index_lt s 0). change (length t = Z.to_nat 512) in Hwf.
  rewrite length_drop. unfold leaf_count. simpl. lia.
Qed.

(** Identity mapping of the kernel. *)
Lemma map_kernel_leaf flags :
  flags <> 0 ->
  map_spec (SEG := delta_segment flags 0) flags False (fun _ _ => True) 0 (map_in_table Kernel flags 0).
Proof.
  intros Hflags a t frames s e Hinv Hwf Hs _.
  cbn [map_in_table]. unfold identity_map_kernel. simpl r_start.
  rewrite page_table_index_spec by lia. rewrite identity_loop_spec by (by apply leaf_drop_le).
  set (count := leaf_count (mkRange s e) (page_index s 0)).
  apply (leaf_mapped (delta_segment flags 0) flags False a a t (seqZ s (Z.of_nat count))); try done.
  - rewrite length_seqZ. lia.
  - intros lk Hlk. apply delta_seg_seqZ. by rewrite Z.add_0_r.
  - auto.
Qed.

Definition physical_match (delta : Z) (frames pages : range) : Prop :=
  range_len frames = range_len pages /\ r_start frames = r_start pages + delta /\ nonempty pages.

(** Mapping of given frames. *)
Lemma map_physical_leaf flags delta :
  flags <> 0 -> Z.testbit flags HUGE_PAGE = false ->
  map_spec (SEG := delta_segment flags delta) flags False (physical_match delta) 0
    (map_in_table User flags 0).
Proof.
  intros Hflags Hhuge a t frames s e Hinv Hwf Hs (Hm1 & Hm2 & Hm3).
  unfold range_len, nonempty in *. simpl in Hm1, Hm2, Hm3.
  cbn [map_in_table]. rewrite (proj2 (Z.eqb_neq _ _)) by lia.
  unfold map_user_physical. simpl r_start. rewrite page_table_index_spec by lia.
  set (count := leaf_count (mkRange s e) (page_index s 0)).
  assert (Hcount : Z.of_nat count <= e - s) by (unfold count, leaf_count; simpl; lia).
  rewrite physical_loop_spec; [|done|by apply leaf_drop_le|fold count; lia]. fold count. simpl.
  apply (leaf_mapped (delta_segment flags delta) flags False a a t
    (seqZ (r_start frames) (Z.of_nat count))); try done.
  - rewrite length_seqZ. lia.
  - intros lk Hlk. apply delta_seg_seqZ. by rewrite <- Hm2.
  - auto.
Qed.

(** Mapping of freshly allocated frames. *)
Lemma map_user_leaf flags :
  flags <> 0 -> Z.testbit flags HUGE_PAGE = false ->
  map_spec (SEG := user_segment flags) flags True (fun frames _ => r_start frames = r_end frames) 0
    (map_in_table User flags 0).
Proof.
  intros Hflags Hhuge a t frames s e Hinv Hwf Hs Hm.
  cbn [map_in_table]. rewrite Hm, Z.eqb_refl. unfold map_user. simpl r_start.
  rewrite page_table_index_spec by lia.
  set (count := leaf_count (mkRange s e) (page_index s 0)).
  pose proof (user_loop_spec flags count a (drop (page_index s 0) t) Hhuge Hinv
    ltac:(by apply leaf_drop_le)) as Hloop.
  destruct (user_loop flags count a (drop (page_index s 0) t)) as [[es' a']|msg]; [|done]. simpl.
  destruct Hloop as (new & -> & Hl & Hinv' & Hnd & Hall & Hfree). rewrite Forall_forall in Hall.
  apply (leaf_mapped (user_segment flags) flags True a a' t new); try done.
  - intros f Hf%Hfree. apply Hf.
  - intros lk Hlk.
    assert (Hget : forall p, s <= p < s + Z.of_nat count -> exists f,
              new !! Z.to_nat (p - s) = Some f /\ lk p = Some (mkPte f flags)).
    { intros p Hp. destruct (lookup_lt_is_Some_2 new (Z.to_nat (p - s))) as [f Hf]; [lia|].
      exists f. split; [done|]. replace p with (s + Z.of_nat (Z.to_nat (p - s))) by lia.
      by rewrite Hlk, Hf. }
    split.
    + intros p Hp. destruct (Hget p Hp) as (f & Hf & ->). exists f. apply list_elem_of_lookup_2 in Hf.
      split; [done|]. rewrite Hfree. destruct (Hall f Hf). split_and!; try done. tauto.
    + intros p q Hp Hq. destruct (Hget p Hp) as (f & Hf & ->). destruct (Hget q Hq) as (g & Hg & ->).
      intros [= ->]. pose proof (NoDup_lookup _ _ _ _ Hnd Hf Hg). lia.
  - intros f Hf. destruct (decide (f ∈ new)); [by right|]. left. by apply Hfree.
  - intros _ f Hf. rewrite Hfree. destruct (Hall f Hf). tauto.
Qed.

Lemma physical_match_step delta frames s e c :
  physical_match delta frames (mkRange s e) -> 0 <= c -> s + c < e ->
  physical_match delta (if r_end frames >? r_start frames
    then mkRange (r_start frames + c) (r_end frames) else frames) (mkRange (s + c) e).
Proof.
  unfold physical_match, range_len, nonempty. simpl. intros (H1 & H2 & H3) Hc Hlt.
  rewrite (proj2 (Z.gtb_lt _ _)) by lia. simpl. lia.
Qed.

Lemma user_match_step (frames : range) (s e c : Z) :
  r_start frames = r_end frames -> 0 <= c -> s + c < e ->
  r_start (if r_end frames >? r_start frames then mkRange (r_start frames + c) (r_end frames) else frames)
  = r_end (if r_end frames >? r_start frames then mkRange (r_start frames + c) (r_end frames) else frames).
Proof. intros H _ _. case_test; simpl; lia. Qed.

(** ** Whole address spaces *)

Definition paging_frames (p : Paging) : list Z :=
  root_frame p :: table_frames (paging_level p) (root_table p).

Record paging_wf (a : A) (p : Paging) : Prop := {
  pg_table : table_wf (paging_level p) (root_table p);
  pg_nodup : NoDup (paging_frames p);
  pg_owned : Forall (fun f => 0 < f /\ ~ fa_is_free a f) (paging_frames p)
}.

(** Number of pages the address space has. *)
Definition space_pages (p : Paging) : Z := table_span (paging_level p).

Lemma space_block p s : 0 <= s < space_pages p -> s / space_pages p = 0.
Proof. intros Hs. by apply Z.div_small. Qed.

Lemma block_end_root p s : 0 <= s < space_pages p -> block_end (paging_level p) s = space_pages p.
Proof. intros Hs. unfold block_end. fold (space_pages p). rewrite space_block by done. lia. Qed.

(** A mapping at the root, as seen through [translate]. *)
Lemma mapped_paging (SEG : Segment (A := A)) flags user a p a' t' s e :
  paging_wf a p -> 0 <= s < e -> e <= space_pages p ->
  mapped flags user (paging_level p) a (root_table p) a' t' s (e - s) ->
  let p' := mkPaging (paging_level p) (root_frame p) t' in
  paging_wf a' p' /\
  (forall addr, 0 <= addr < space_pages p * PAGE_SIZE -> ~ s <= addr / PAGE_SIZE < e ->
     paging_translate p' addr = paging_translate p addr) /\
  (forall f, fa_is_free a f <-> fa_is_free a' f \/ (f ∈ paging_frames p' /\ f ∉ paging_frames p) \/
     (fa_is_free a f /\ user /\ exists pg, s <= pg < e /\
        lookup_page (paging_level p) t' pg = Some (mkPte f flags))).
Proof.
  intros [W N O] Hs He M p'. unfold paging_frames in *.
  rewrite NoDup_cons in N. rewrite Forall_cons in O. destruct N as [N1 N2], O as [O1 O2].
  destruct (mp_own _ _ _ _ _ _ _ _ _ M) as [N' O']; [by split|].
  rewrite Forall_forall in O2.
  assert (Hroot : root_frame p ∉ table_frames (paging_level p) t').
  { intros [?|?]%(mp_new _ _ _ _ _ _ _ _ _ M); tauto. }
  assert (Hnf : ~ fa_is_free a' (root_frame p)).
  { intros ?%(mp_mono _ _ _ _ _ _ _ _ _ M). tauto. }
  split; [|split].
  - constructor; simpl; [apply M|by constructor|]. constructor; [tauto|done].
  - intros addr Ha Hout. unfold paging_translate. simpl.
    assert (Hpg : 0 <= addr / PAGE_SIZE < space_pages p).
    { split; [apply Z.div_pos; [lia|done]|]. apply Z.div_lt_upper_bound; [done|lia]. }
    rewrite !translate_lookup by (try apply M; done || lia).
    rewrite (mp_same _ _ _ _ _ _ _ _ _ M); [done| |lia].
    unfold space_pages in Hpg. rewrite !Z.div_small; [done|unfold space_pages in *; lia|done].
  - intros f. simpl. rewrite !elem_of_cons. split.
    + intros Hf. destruct (mp_lost _ _ _ _ _ _ _ _ _ M f Hf) as [?|[?|(Hu & pg & Hpg & Hl)]]; [auto|..].
      * right. left. split; [auto|]. intros [->|?%O2]; tauto.
      * right. right. split; [done|]. split; [done|]. exists pg. split; [lia|done].
    + intros [Hf|[[[->|Hf] Hn]|[Hf _]]]; [|tauto| |done].
      * by apply (mp_mono _ _ _ _ _ _ _ _ _ M).
      * apply (mp_new _ _ _ _ _ _ _ _ _ M) in Hf. tauto.
Qed.

End Kinds.

(** ** Theorems: mapping *)

Section MapTheorems.
Context {A : Type} `{FA : FrameAllocator A} `{FAL : !FrameAllocatorLaws A}.

(** Identity mapping: [map] in kernel space translates every address of the mapped
    pages to itself and no other address differently than before; the page
    tables own their frames, and exactly the new table frames left the
    allocator.  The only panic is the allocator's out-of-memory panic. *)
Theorem map_kernel_correct (a : A) (p : Paging) (s e flags : Z) :
  fa_inv a -> paging_wf a p -> 0 <= s < e -> e <= space_pages p ->
  flags <> 0 -> Z.testbit flags HUGE_PAGE = false ->
  match paging_map a p (mkRange s e) Kernel flags with
  | Ret (p', a') =>
      fa_inv a' /\ paging_wf a' p' /\
      (forall addr, 0 <= addr < space_pages p * PAGE_SIZE ->
         paging_translate p' addr
           = if decide (s <= addr / PAGE_SIZE < e) then Ret (Some addr) else paging_translate p addr) /\
      (forall f, fa_is_free a f <->
         fa_is_free a' f \/ (f ∈ paging_frames p' /\ f ∉ paging_frames p))
  | Panic msg => oom (A := A) msg
  end.
Proof.
  intros Hinv Hp Hs He Hflags Hhuge. unfold paging_map.
  pose proof (map_in_table_spec (SEG := delta_segment flags 0) flags False (fun _ _ => True)
    ltac:(done) Kernel (paging_level p) Hhuge (map_kernel_leaf flags Hflags)) as Hspec.
  specialize (Hspec a (root_table p) (mkRange 0 0) s e Hinv (pg_table _ _ Hp) Hs I).
  destruct (map_in_table _ _ _ _ _ _ _) as [[[t' a'] c]|msg]; [|done]. simpl.
  destruct Hspec as [Hc M]. rewrite block_end_root, Z.min_l in Hc by lia. subst c.
  destruct (mapped_paging _ _ _ _ _ _ _ _ _ Hp Hs He M) as (W' & Hout & Hfree).
  split_and!; [apply M|done| |].
  - intros addr Ha. case_decide as Hd; [|auto]. unfold paging_translate. simpl.
    rewrite translate_lookup by (try apply M; lia).
    pose proof (mp_seg _ _ _ _ _ _ _ _ _ M) as Hseg. cbn [seg delta_segment] in Hseg.
    rewrite Hseg by lia. simpl. do 2 f_equal. unfold start_address.
    pose proof (Z.div_mod addr PAGE_SIZE ltac:(done)). lia.
  - intros f. rewrite Hfree. tauto.
Qed.

(** Mapping given frames: [map_physical] with as many frames as pages translates
    the addresses of the [i]-th page into the [i]-th frame, at the same offset,
    and no other address differently than before. *)
Theorem map_physical_correct (a : A) (p : Paging) (s e fs flags : Z) :
  fa_inv a -> paging_wf a p -> 0 <= s < e -> e <= space_pages p ->
  flags <> 0 -> Z.testbit flags HUGE_PAGE = false ->
  match paging_map_physical a p (mkRange fs (fs + (e - s))) (mkRange s e) User flags with
  | Ret (p', a') =>
      fa_inv a' /\ paging_wf a' p' /\
      (forall addr, 0 <= addr < space_pages p * PAGE_SIZE ->
         paging_translate p' addr
           = if decide (s <= addr / PAGE_SIZE < e)
             then Ret (Some (start_address (fs + (addr / PAGE_SIZE - s)) + addr mod PAGE_SIZE))
             else paging_translate p addr) /\
      (forall f, fa_is_free a f <->
         fa_is_free a' f \/ (f ∈ paging_frames p' /\ f ∉ paging_frames p))
  | Panic msg => oom (A := A) msg
  end.
Proof.
  intros Hinv Hp Hs He Hflags Hhuge. unfold paging_map_physical.
  assert (Hlen : range_len (mkRange fs (fs + (e - s))) = range_len (mkRange s e))
    by (unfold range_len; simpl; lia).
  rewrite Hlen, Z.eqb_refl. cbn [rust_assert mbind outcome_bind].
  pose proof (map_in_table_spec (SEG := delta_segment flags (fs - s)) flags False (physical_match (fs - s))
    (physical_match_step (fs - s)) User (paging_level p) Hhuge
    (map_physical_leaf flags (fs - s) Hflags Hhuge)) as Hspec.
  specialize (Hspec a (root_table p) (mkRange fs (fs + (e - s))) s e Hinv (pg_table _ _ Hp) Hs).
  lapply Hspec; [clear Hspec; intros Hspec|split_and!; [done|simpl; lia|unfold nonempty; simpl; lia]].
  destruct (map_in_table _ _ _ _ _ _ _) as [[[t' a'] c]|msg]; [|done]. simpl.
  destruct Hspec as [Hc M]. rewrite block_end_root, Z.min_l in Hc by lia. subst c.
  destruct (mapped_paging _ _ _ _ _ _ _ _ _ Hp Hs He M) as (W' & Hout & Hfree).
  split_and!; [apply M|done| |].
  - intros addr Ha. case_decide as Hd; [|auto]. unfold paging_translate. simpl.
    rewrite translate_lookup by (try apply M; lia).
    pose proof (mp_seg _ _ _ _ _ _ _ _ _ M) as Hseg. cbn [seg delta_segment] in Hseg.
    rewrite Hseg by lia. simpl. do 4 f_equal. lia.
  - intros f. rewrite Hfree. tauto.
Qed.

(** What [map] in user space does, in terms of entries. *)
Lemma map_user_spec (a : A) (p : Paging) (s e flags : Z) :
  fa_inv a -> paging_wf a p -> 0 <= s < e -> e <= space_pages p ->
  flags <> 0 -> Z.testbit flags HUGE_PAGE = false ->
  match paging_map a p (mkRange s e) User flags with
  | Ret (p', a') =>
      fa_inv a' /\ paging_wf a' p' /\ space_pages p' = space_pages p /\
      (forall f, f ∈ paging_frames p -> f ∈ paging_frames p') /\
      (exists frame_of : Z -> Z,
         (forall pg, 0 <= pg < space_pages p ->
            lookup_page (paging_level p') (root_table p') pg
              = if decide (s <= pg < e) then Some (mkPte (frame_of pg) flags)
                else lookup_page (paging_level p) (root_table p) pg) /\
         (forall pg, s <= pg < e -> 0 < frame_of pg /\ fa_is_free a (frame_of pg) /\
            ~ fa_is_free a' (frame_of pg) /\ frame_of pg ∉ paging_frames p') /\
         (forall pg qg, s <= pg < e -> s <= qg < e -> frame_of pg = frame_of qg -> pg = qg) /\
         (forall f, fa_is_free a f <-> fa_is_free a' f \/
            (f ∈ paging_frames p' /\ f ∉ paging_frames p) \/
            (exists pg, s <= pg < e /\ frame_of pg = f)))
  | Panic msg => oom (A := A) msg
  end.
Proof.
  intros Hinv Hp Hs He Hflags Hhuge. unfold paging_map.
  pose proof (map_in_table_spec (SEG := user_segment flags) flags True
    (fun frames _ => r_start frames = r_end frames) user_match_step User (paging_level p) Hhuge
    (map_user_leaf flags Hflags Hhuge)) as Hspec.
  specialize (Hspec a (root_table p) (mkRange 0 0) s e Hinv (pg_table _ _ Hp) Hs eq_refl).
  destruct (map_in_table _ _ _ _ _ _ _) as [[[t' a'] c]|msg]; [|done]. simpl.
  destruct Hspec as [Hc M]. rewrite block_end_root, Z.min_l in Hc by lia. subst c.
  destruct (mapped_paging _ _ _ _ _ _ _ _ _ Hp Hs He M) as (W' & _ & Hfree).
  pose proof (pg_owned _ _ Hp) as Hroot. unfold paging_frames at 1 in Hroot.
  split_and!; [apply M|done|done| |].
  { intros f. unfold paging_frames. simpl. rewrite !elem_of_cons.
    pose proof (mp_old _ _ _ _ _ _ _ _ _ M f). tauto. }
  pose proof (mp_seg _ _ _ _ _ _ _ _ _ M) as [S1 S2].
  replace (s + (e - s)) with e in S1, S2 by lia.
  set (frame_of pg := match lookup_page (paging_level p) t' pg with
                      | Some entry => pte_frame entry | None => 0 end).
  assert (Hown : owns a (paging_level p) (root_table p)).
  { destruct Hp as [_ N O]. unfold paging_frames in *. apply NoDup_cons in N as [_ N].
    apply Forall_cons in O as [_ O]. by split. }
  assert (Hfo : forall pg, s <= pg < e ->
            lookup_page (paging_level p) t' pg = Some (mkPte (frame_of pg) flags) /\ 0 < frame_of pg).
  { intros pg Hpg. destruct (S1 pg Hpg) as (f & Hf & ? & _). unfold frame_of. by rewrite Hf. }
  exists frame_of. split_and!.
  - intros pg Hpg. case_decide as Hd; [by apply Hfo|]. apply (mp_same _ _ _ _ _ _ _ _ _ M); [|lia].
    rewrite !Z.div_small; [done|unfold space_pages in *; lia..].
  - intros pg Hpg. destruct (Hfo pg Hpg) as [Hl Hpos].
    destruct (mp_apart _ _ _ _ _ _ _ _ _ M pg (frame_of pg) Hown I ltac:(lia) Hl) as (H1 & H2 & H3).
    split_and!; [done..|]. unfold paging_frames. simpl. rewrite not_elem_of_cons. split; [|done].
    intros Heq. apply Forall_cons in Hroot as [Hroot _]. rewrite <- Heq in Hroot. tauto.
  - intros pg qg Hpg Hqg Heq. apply S2; [done..|].
    by rewrite (proj1 (Hfo pg Hpg)), (proj1 (Hfo qg Hqg)), Heq.
  - intros f. rewrite Hfree. split; (intros [?|[?|Hx]]; [auto|auto|]).
    + destruct Hx as (_ & _ & pg & Hpg & Hl). right. right. exists pg. split; [done|].
      rewrite (proj1 (Hfo pg Hpg)) in Hl. by injection Hl.
    + destruct Hx as (pg & Hpg & <-). right. right. destruct (Hfo pg Hpg) as [Hl _].
      destruct (mp_apart _ _ _ _ _ _ _ _ _ M pg (frame_of pg) Hown I ltac:(lia) Hl) as (H1 & _ & _).
      split; [done|]. split; [done|]. by exists pg.
Qed.

(** Translation in a space whose entries are known. *)
Lemma translate_entry {B} `{FrameAllocator B} (b : B) (p : Paging) addr :
  paging_wf b p -> 0 <= addr ->
  paging_translate p addr = Ret ((fun en => start_address (pte_frame en) + addr mod PAGE_SIZE)
    <$> lookup_page (paging_level p) (root_table p) (addr / PAGE_SIZE)).
Proof. intros [W _ _] Ha. by apply translate_lookup. Qed.

Lemma page_in_space p addr : 0 <= addr < space_pages p * PAGE_SIZE -> 0 <= addr / PAGE_SIZE < space_pages p.
Proof.
  intros Ha. split; [apply Z.div_pos; [lia|done]|]. apply Z.div_lt_upper_bound; [done|lia].
Qed.

(** C4 Mapping fresh memory: [map] in user space gives every page of the range a frame
    of its own that was free before, is not free afterwards and holds no page
    table, so no two pages share memory; no other address translates differently than before, and
    exactly the new table frames and the pages' frames left the allocator. *)
Theorem map_user_correct (a : A) (p : Paging) (s e flags : Z) :
  fa_inv a -> paging_wf a p -> 0 <= s < e -> e <= space_pages p ->
  flags <> 0 -> Z.testbit flags HUGE_PAGE = false ->
  match paging_map a p (mkRange s e) User flags with
  | Ret (p', a') =>
      fa_inv a' /\ paging_wf a' p' /\
      (exists frame_of : Z -> Z,
         (forall addr, 0 <= addr < space_pages p * PAGE_SIZE ->
            paging_translate p' addr
              = if decide (s <= addr / PAGE_SIZE < e)
                then Ret (Some (start_address (frame_of (addr / PAGE_SIZE)) + addr mod PAGE_SIZE))
                else paging_translate p addr) /\
         (forall pg, s <= pg < e -> 0 < frame_of pg /\ fa_is_free a (frame_of pg) /\
            ~ fa_is_free a' (frame_of pg) /\ frame_of pg ∉ paging_frames p') /\
         (forall pg qg, s <= pg < e -> s <= qg < e -> frame_of pg = frame_of qg -> pg = qg) /\
         (forall f, fa_is_free a f <-> fa_is_free a' f \/
            (f ∈ paging_frames p' /\ f ∉ paging_frames p) \/
            (exists pg, s <= pg < e /\ frame_of pg = f)))
  | Panic msg => oom (A := A) msg
  end.
Proof.
  intros Hinv Hp Hs He Hflags Hhuge. pose proof (map_user_spec a p s e flags Hinv Hp Hs He Hflags Hhuge) as Hspec.
  destruct (paging_map _ _ _ _ _) as [[p' a']|msg]; [|done].
  destruct Hspec as (I' & W' & _ & _ & frame_of & Hl & Hf & Hinj & Hfree).
  split_and!; [done|done|]. exists frame_of. split_and!; [|done..].
  intros addr Ha. rewrite !translate_entry with (b := a') (p := p') by (done || lia).
  rewrite (translate_entry a p) by (done || lia).
  rewrite Hl by (by apply page_in_space). by case_decide.
Qed.

End MapTheorems.

(** ** Examples: an empty four-level address space over the list allocator *)

Definition example_frames : FrameState := mkFrameState [mkNode 10 100] 100.
Definition example_space : Paging := mkPaging 3 5 (zero_table 3).

Lemma example_inv : fa_inv example_frames.
Proof. simpl. unfold free_list_wf. nodes_simpl. lia. Qed.

Lemma example_free f : fa_is_free example_frames f <-> 10 <= f < 110.
Proof.
  simpl. unfold Frames.is_free. nodes_simpl. rewrite covers_cons, covers_nil.
  unfold in_range. simpl. lia.
Qed.

Lemma example_wf : paging_wf example_frames example_space.
Proof.
  constructor; [apply table_wf_zero|..]; unfold paging_frames; simpl root_table;
    cbn [paging_level example_space]; rewrite table_frames_zero; simpl.
  - apply NoDup_singleton.
  - constructor; [|constructor]. rewrite (example_free 5). lia.
Qed.

Lemma map_kernel_correct_witness :
  match paging_map example_frames example_space (mkRange 1000 1003) Kernel 3 with
  | Ret (p', a') => paging_translate p' (1001 * 4096 + 7) = Ret (Some (1001 * 4096 + 7))
  | Panic _ => False
  end.
Proof.
  pose proof (map_kernel_correct example_frames example_space 1000 1003 3 example_inv example_wf
    ltac:(lia) ltac:(vm_compute; discriminate) ltac:(lia) ltac:(reflexivity)) as Hmap.
  destruct (paging_map _ _ _ _ _) as [[p' a']|msg] eqn:E; [|vm_compute in E; discriminate].
  destruct Hmap as (_ & _ & Ht & _). exact (Ht (1001 * 4096 + 7) ltac:(vm_compute; split; [discriminate|reflexivity])).
Defined.

Lemma map_physical_correct_witness :
  match paging_map_physical example_frames example_space (mkRange 7000 (7000 + (1003 - 1000)))
          (mkRange 1000 1003) User 7 with
  | Ret (p', a') => paging_translate p' (1001 * 4096 + 7) = Ret (Some (7001 * 4096 + 7))
  | Panic _ => False
  end.
Proof.
  pose proof (map_physical_correct example_frames example_space 1000 1003 7000 7 example_inv example_wf
    ltac:(lia) ltac:(vm_compute; discriminate) ltac:(lia) ltac:(reflexivity)) as Hmap.
  destruct (paging_map_physical _ _ _ _ _ _) as [[p' a']|msg] eqn:E; [|vm_compute in E; discriminate].
  destruct Hmap as (_ & _ & Ht & _). exact (Ht (1001 * 4096 + 7) ltac:(vm_compute; split; [discriminate|reflexivity])).
Defined.

Lemma map_user_correct_witness :
  match paging_map example_frames example_space (mkRange 1000 1003) User 7 with
  | Ret (p', a') => paging_wf a' p' /\ exists f, fa_is_free example_frames f /\ ~ fa_is_free a' f
  | Panic _ => False
  end.
Proof.
  pose proof (map_user_correct example_frames example_space 1000 1003 7 example_inv example_wf
    ltac:(lia) ltac:(vm_compute; discriminate) ltac:(lia) ltac:(reflexivity)) as Hmap.
  destruct (paging_map _ _ _ _ _) as [[p' a']|msg] eqn:E; [|vm_compute in E; discriminate].
  destruct Hmap as (_ & Hw & frame_of & _ & Hf & _). split; [exact Hw|].
  destruct (Hf 1000 ltac:(lia)) as (_ & H1 & H2 & _). exists (frame_of 1000). exact (conj H1 H2).
Defined.
