(* ===== verification/PagingLife.v ===== *)
(** * Theorems about page tables: copying, dropping, flags and unmapping

    The remaining operations of [Paging], over the lemmas of [PagingProofs]. *)

From S2P Require Import Prelude Intervals Dram Frames FrameAlloc Paging PagingProofs.

Open Scope Z_scope.

Section Drop.
Context {A : Type} `{FA : FrameAllocator A} `{FAL : !FrameAllocatorLaws A}.

(** A list of frames nobody else owns. *)
Definition frames_owned (a : A) (l : list Z) : Prop :=
  NoDup l /\ Forall (fun f => 0 < f /\ ~ fa_is_free a f) l.

Lemma frames_owned_app a l k : frames_owned a (l ++ k) -> frames_owned a l /\ frames_owned a k.
Proof. unfold frames_owned. rewrite NoDup_app, Forall_app. tauto. Qed.

(** Freeing the frames of [l] keeps those of a disjoint list owned. *)
Lemma frames_owned_after a a' l k :
  frames_owned a (l ++ k) -> (forall f, fa_is_free a' f <-> fa_is_free a f \/ f ∈ l) ->
  frames_owned a' k.
Proof.
  unfold frames_owned. rewrite NoDup_app, Forall_app. intros [(N1 & N2 & N3) [F1 F2]] Hfree.
  split; [done|]. rewrite Forall_forall in *. intros f Hf. destruct (F2 f Hf) as [? Hn].
  split; [done|]. rewrite Hfree. intros [?|Hl]; [done|]. by apply (N2 f Hl).
Qed.

Definition drop_spec (n : nat) (f : A -> table n -> Z -> outcome A) : Prop :=
  forall a t frame, fa_inv a -> table_wf n t -> frames_owned a (table_frames n t ++ [frame]) ->
  exists a', f a t frame = Ret a' /\ fa_inv a' /\
    (forall g, fa_is_free a' g <-> fa_is_free a g \/ g ∈ table_frames n t ++ [frame]).

Lemma free_owned a frame :
  fa_inv a -> frames_owned a [frame] ->
  exists a', fa_free a (mkRange frame (frame + 1)) = Ret a' /\ fa_inv a' /\
    (forall g, fa_is_free a' g <-> fa_is_free a g \/ g ∈ [frame]).
Proof.
  intros Hinv [_ [[H1 H2] _]%Forall_cons].
  destruct (fa_free_one a frame Hinv H1 H2) as (a' & Ha & Hi & Hf).
  exists a'. split_and!; try done. intros g. rewrite Hf, list_elem_of_singleton. done.
Qed.

Lemma drop_entries_spec m (rec : A -> table m -> Z -> outcome A) (es : upper m) a :
  drop_spec m rec -> fa_inv a ->
  Forall (fun o => match o with
                   | None => True
                   | Some (e, sub) => entry_ok e /\ table_wf m sub
                   end) es ->
  frames_owned a (table_frames (S m) es) ->
  exists a', drop_entries rec a es = Ret a' /\ fa_inv a' /\
    (forall g, fa_is_free a' g <-> fa_is_free a g \/ g ∈ table_frames (S m) es).
Proof.
  intros Hrec. revert a. induction es as [|[[e sub]|] es IH]; intros a Hinv Hwf Hown.
  - exists a. split_and!; try done. intros g. pose proof (not_elem_of_nil g). simpl. tauto.
  - apply Forall_cons in Hwf as [[[Hpos Hh] Hsub] Hwf]. cbn [drop_entries].
    rewrite (proj2 (Z.eqb_neq _ _)) by lia.
    assert (Hperm : pte_frame e :: table_frames m sub ++ table_frames (S m) es
                    ≡ₚ (table_frames m sub ++ [pte_frame e]) ++ table_frames (S m) es).
    { rewrite <- app_assoc. apply Permutation_middle. }
    rewrite table_frames_cons in Hown |- *.
    assert (Hown' : frames_owned a ((table_frames m sub ++ [pte_frame e]) ++ table_frames (S m) es)).
    { destruct Hown as [N F]. split; [by rewrite <- Hperm|]. by rewrite <- Hperm. }
    destruct (Hrec a sub (pte_frame e) Hinv Hsub) as (a1 & -> & Hi1 & Hf1).
    { by apply frames_owned_app in Hown' as [? _]. }
    simpl. destruct (IH a1 Hi1 Hwf) as (a' & -> & Hi' & Hf').
    { by eapply frames_owned_after. }
    exists a'. split_and!; try done. intros g. rewrite Hf', Hf1, Hperm, !elem_of_app. tauto.
  - apply Forall_cons in Hwf as [_ Hwf]. by apply IH.
Qed.

Lemma drop_table_S m a (t : upper m) frame :
  drop_table (S m) a t frame
    = (a1 ← drop_entries (drop_table m) a t; fa_free a1 (mkRange frame (frame + 1))).
Proof. done. Qed.

Lemma drop_table_spec n : drop_spec n (drop_table n).
Proof.
  induction n as [|m IH]; intros a t frame Hinv Hwf Hown.
  - by apply free_owned.
  - rewrite drop_table_S. pose proof (frames_owned_app _ _ _ Hown) as [Ho1 _].
    destruct (drop_entries_spec m _ t a IH Hinv (proj2 Hwf) Ho1) as (a1 & -> & Hi1 & Hf1). simpl.
    destruct (free_owned a1 frame Hi1) as (a' & -> & Hi' & Hf').
    { by eapply frames_owned_after. }
    exists a'. split_and!; try done. intros g. rewrite Hf', Hf1, elem_of_app. tauto.
Qed.

Lemma paging_drop_spec (a : A) (p : Paging) :
  fa_inv a -> paging_wf a p ->
  exists a', paging_drop a p = Ret a' /\ fa_inv a' /\
    (forall f, fa_is_free a' f <-> fa_is_free a f \/ f ∈ paging_frames p).
Proof.
  intros Hinv [W N O]. unfold paging_drop, paging_frames in *.
  assert (Hperm : root_frame p :: table_frames (paging_level p) (root_table p)
                  ≡ₚ table_frames (paging_level p) (root_table p) ++ [root_frame p])
    by apply Permutation_cons_append.
  destruct (drop_table_spec (paging_level p) a (root_table p) (root_frame p) Hinv W) as (a' & Ha & Hi & Hf).
  { split; by rewrite <- Hperm. }
  exists a'. split_and!; try done. intros f. by rewrite Hf, Hperm.
Qed.

(** Dropping an address space gives every frame of its page tables back, each exactly
    once, and nothing else; it never panics. *)
Theorem paging_drop_correct (a : A) (p : Paging) :
  fa_inv a -> paging_wf a p ->
  exists a', paging_drop a p = Ret a' /\ fa_inv a' /\
    (forall f, fa_is_free a' f <-> fa_is_free a f \/ f ∈ paging_frames p).
Proof. apply paging_drop_spec. Qed.

End Drop.

Lemma paging_drop_correct_witness :
  exists a', paging_drop example_frames example_space = Ret a' /\ fa_inv a' /\
    (forall f, fa_is_free a' f <-> fa_is_free example_frames f \/ f ∈ paging_frames example_space).
Proof. exact (paging_drop_correct _ _ example_inv example_wf). Defined.

(** ** Copying *)

Section Copy.
Context {A : Type} `{FA : FrameAllocator A} `{FAL : !FrameAllocatorLaws A}.

(** [l] is the list of frames that were allocated between [a] and [a']. *)
Record allocated (a a' : A) (l : list Z) : Prop := {
  al_inv : fa_inv a';
  al_nodup : NoDup l;
  al_pos : Forall (fun f => 0 < f /\ fa_is_free a f) l;
  al_free f : fa_is_free a' f <-> fa_is_free a f /\ f ∉ l
}.

Lemma allocated_nil a : fa_inv a -> allocated a a [].
Proof.
  intros Hi. constructor; [done|apply NoDup_nil_2|done|].
  intros f. pose proof (not_elem_of_nil f). tauto.
Qed.

Lemma allocated_one a r a' :
  fa_inv a -> fa_alloc a 1 = Ret (r, a') -> allocated a a' [r_start r].
Proof.
  intros Hinv Ha.
  destruct (fa_alloc_ok a 1 r a' Hinv) as (Hi & Hpos & _ & Hone & Hfree & Hfree'); [lia|done|].
  specialize (Hone eq_refl). unfold range_len in Hone.
  assert (Hr : forall g, in_range g r <-> g = r_start r) by (unfold in_range; lia).
  constructor; [done|apply NoDup_singleton|..].
  - constructor; [|constructor]. split; [done|]. apply Hfree. by rewrite Hr.
  - intros f. rewrite Hfree', Hr, list_elem_of_singleton. done.
Qed.

Lemma allocated_app a a1 a2 l k : allocated a a1 l -> allocated a1 a2 k -> allocated a a2 (l ++ k).
Proof.
  intros [I1 N1 P1 F1] [I2 N2 P2 F2]. rewrite Forall_forall in P1, P2. constructor; [done|..].
  - apply NoDup_app. split_and!; try done. intros f Hl [_ [_ Hk]%F1]%P2. done.
  - rewrite Forall_app, !Forall_forall. split; [done|]. intros f [? [? _]%F1]%P2. done.
  - intros f. rewrite F2, F1, elem_of_app. tauto.
Qed.

Definition copy_spec (n : nat) (f : A -> table n -> outcome (table n * A)) : Prop :=
  forall a t, fa_inv a -> table_wf n t ->
  match f a t with
  | Ret (t', a') => table_wf n t' /\ (forall p, lookup_page n t' p = lookup_page n t p) /\
      allocated a a' (table_frames n t')
  | Panic msg => oom (A := A) msg
  end.

(** What a copied entry shows of a page. *)
Definition entry_lookup {m} (o : option (option (PageTableEntry * table m))) (p : Z) : option PageTableEntry :=
  match o with
  | Some (Some (_, sub)) => lookup_page m sub p
  | _ => None
  end.

Lemma copy_entries_spec m (rec : A -> table m -> outcome (table m * A)) (es : upper m) a :
  copy_spec m rec -> fa_inv a ->
  Forall (fun o => match o with
                   | None => True
                   | Some (e, sub) => entry_ok e /\ table_wf m sub
                   end) es ->
  match copy_entries rec a es with
  | Ret (es', a') => length es' = length es /\
      Forall (fun o => match o with
                       | None => True
                       | Some (e, sub) => entry_ok e /\ table_wf m sub
                       end) es' /\
      (forall i p, entry_lookup (es' !! i) p = entry_lookup (es !! i) p) /\
      allocated a a' (table_frames (S m) es')
  | Panic msg => oom (A := A) msg
  end.
Proof.
  intros Hrec. revert a. induction es as [|[[e sub]|] es IH]; intros a Hinv Hwf; cbn [copy_entries].
  - split_and!; try done. by apply allocated_nil.
  - apply Forall_cons in Hwf as [[[Hpos Hh] Hsub] Hwf].
    destruct (fa_alloc a 1) as [[r a1]|msg] eqn:Ha; [|by exists a].
    unfold set_frame. rewrite Hh. simpl. pose proof (allocated_one a r a1 Hinv Ha) as Al1.
    specialize (Hrec a1 sub (al_inv _ _ _ Al1) Hsub).
    destruct (rec a1 sub) as [[sub' a2]|msg]; [|done]. simpl. destruct Hrec as (W2 & L2 & Al2).
    specialize (IH a2 (al_inv _ _ _ Al2) Hwf).
    destruct (copy_entries rec a2 es) as [[es' a3]|msg]; [|done]. simpl.
    destruct IH as (Hl & W3 & L3 & Al3). split_and!.
    + by rewrite Hl.
    + constructor; [|done]. split; [|done]. split; [|done]. simpl.
      pose proof (al_pos _ _ _ Al1) as [[? _] _]%Forall_cons. done.
    + intros [|i] p; simpl; [apply L2|apply L3].
    + change (allocated a a3 ([r_start r] ++ table_frames m sub' ++ table_frames (S m) es')).
      eapply allocated_app; [done|]. by eapply allocated_app.
  - apply Forall_cons in Hwf as [_ Hwf]. specialize (IH a Hinv Hwf).
    destruct (copy_entries rec a es) as [[es' a3]|msg]; [|done]. simpl.
    destruct IH as (Hl & W3 & L3 & Al3). split_and!; [by rewrite Hl|by constructor| |done].
    intros [|i] p; simpl; [done|apply L3].
Qed.

Lemma copy_table_spec n : copy_spec n (copy_table n).
Proof.
  induction n as [|m IH]; intros a t Hinv Hwf.
  - cbn [copy_table]. assert (Hid : (fun e => mkPte (pte_frame e) (pte_flags e)) <$> t = t).
    { clear. induction (t : list PageTableEntry) as [|[f g] l IHl]; [done|]. simpl. f_equal. apply IHl. }
    rewrite Hid. split; [done|]. split; [done|]. by apply allocated_nil.
  - pose proof (copy_entries_spec m (copy_table m) t a IH Hinv (proj2 Hwf)) as Hloop.
    cbn [copy_table]. destruct (copy_entries _ _ _) as [[t' a']|msg]; [|done].
    destruct Hloop as (Hl & W & L & Al). split; [|split; [|done]].
    + split; [|done]. transitivity (length (t : upper m)); [exact Hl|apply Hwf].
    + intros p. apply L.
Qed.

(** C12 [from_other] makes an independent copy: the new address space translates every
    address like the original, its page tables own fresh frames, and the original
    is untouched. *)
Theorem from_other_correct (a : A) (other : Paging) :
  fa_inv a -> paging_wf a other ->
  match from_other a other with
  | Ret (p, a') =>
      fa_inv a' /\ paging_wf a' p /\ paging_wf a' other /\
      (forall addr, 0 <= addr -> paging_translate p addr = paging_translate other addr) /\
      (forall f, f ∈ paging_frames p -> f ∉ paging_frames other) /\
      (forall f, fa_is_free a f <-> fa_is_free a' f \/ f ∈ paging_frames p)
  | Panic msg => oom (A := A) msg
  end.
Proof.
  intros Hinv [W N O]. unfold from_other, paging_new.
  destruct (fa_alloc a 1) as [[r a1]|msg] eqn:Ha; [|by exists a]. simpl.
  pose proof (allocated_one a r a1 Hinv Ha) as Al1.
  pose proof (copy_table_spec (paging_level other) a1 (root_table other) (al_inv _ _ _ Al1) W) as Hcopy.
  destruct (copy_table _ _ _) as [[t a2]|msg]; [|done]. simpl. destruct Hcopy as (W2 & L2 & Al2).
  pose proof (allocated_app _ _ _ _ _ Al1 Al2) as [I12 N12 P12 F12].
  set (p := mkPaging (paging_level other) (r_start r) t).
  change ([r_start r] ++ table_frames (paging_level other) t) with (paging_frames p) in *.
  rewrite Forall_forall in P12, O. split_and!.
  - done.
  - constructor; [done|done|]. apply Forall_forall. intros f Hf. rewrite F12.
    destruct (P12 f Hf). split; [done|tauto].
  - constructor; [done|done|]. apply Forall_forall. intros f Hf. rewrite F12. split; [apply O, Hf|].
    destruct (O f Hf). tauto.
  - intros addr Haddr. unfold paging_translate. simpl. rewrite !translate_lookup by done. by rewrite L2.
  - intros f Hf Ho. destruct (P12 f Hf), (O f Ho). done.
  - intros f. rewrite F12. destruct (decide (f ∈ paging_frames p)) as [Hd|Hd]; [|tauto].
    destruct (P12 f Hd). tauto.
Qed.

End Copy.

Lemma from_other_correct_witness :
  match from_other example_frames example_space with
  | Ret (p, a') => paging_wf a' p /\ paging_wf a' example_space
  | Panic _ => False
  end.
Proof.
  pose proof (from_other_correct example_frames example_space example_inv example_wf) as Hc.
  destruct (from_other _ _) as [[p a']|msg] eqn:E; [|vm_compute in E; discriminate].
  destruct Hc as (_ & H1 & H2 & _). auto.
Defined.

(** ** Editing the entries of a range

    [edited g n t t' s c]: in the block of [table n] that holds page [s], the
    lookups of the pages [\[s, s + c)] went through [g], all others are as before. *)

Definition edited (g : option PageTableEntry -> option PageTableEntry) (n : nat) (t t' : table n)
    (s c : Z) : Prop :=
  forall p, p / table_span n = s / table_span n ->
    lookup_page n t' p = if decide (s <= p < s + c) then g (lookup_page n t p) else lookup_page n t p.

Lemma edited_compose g n t t1 t2 s c1 c2 :
  0 <= c1 -> 0 <= c2 -> (s + c1) / table_span n = s / table_span n ->
  edited g n t t1 s c1 -> edited g n t1 t2 (s + c1) c2 -> edited g n t t2 s (c1 + c2).
Proof.
  intros Hc1 Hc2 Hb E1 E2 p Hp. rewrite E2, E1 by congruence.
  repeat case_decide; try lia; done.
Qed.

Lemma edited_cast g n t t' s c c' : c = c' -> edited g n t t' s c -> edited g n t t' s c'.
Proof. by intros ->. Qed.

(** Editing inside the table of one entry; the entry may be dropped if no page of
    its table is mapped any more. *)
Lemma edited_lift g m (pre rest : upper m) e sub sub' o' s c b :
  s / entry_span (S m) = 512 * b + Z.of_nat (length pre) -> (length pre < Z.to_nat 512)%nat ->
  s + c <= block_end m s ->
  (forall p, entry_lookup (Some o') p = lookup_page m sub' p) ->
  edited g m sub sub' s c ->
  edited g (S m) (pre ++ Some (e, sub) :: rest) (pre ++ o' :: rest) s c.
Proof.
  intros Hs Hlen Hc Ho' E p Hp.
  destruct (page_index_unique s (S m) b (length pre) Hs Hlen) as [Hbs His].
  destruct (decide (page_index p (S m) = length pre)) as [Heq|Hne].
  - assert (Hps : p / entry_span (S m) = s / entry_span (S m)).
    { rewrite (page_split p), (page_split s), Hp, Heq. by rewrite His. }
    rewrite lookup_page_at by done. rewrite <- E by (rewrite <- !entry_span_S; done).
    rewrite <- Ho', lookup_page_S, Heq, list_lookup_middle by done. done.
  - rewrite decide_False.
    + rewrite (lookup_page_replace m pre rest (Some (e, sub)) o') by done. done.
    + intros Hin. apply Hne.
      destruct (in_entry_block m s b (length pre) p Hs Hlen) as [Hpe _]; [lia|].
      rewrite Hs in Hpe. by apply (page_index_unique p (S m) b).
Qed.

(** ** Changing flags *)

Definition with_flags (flags : Z) (o : option PageTableEntry) : option PageTableEntry :=
  (fun e => mkPte (pte_frame e) flags) <$> o.

(** All pages from [s] to the end of the range or of the table are mapped. *)
Definition all_mapped (n : nat) (t : table n) (s e : Z) : Prop :=
  forall p, s <= p < e -> lookup_page n t p <> None.

Definition set_flags_spec (flags : Z) (n : nat) (f : table n -> range -> table n * Z) : Prop :=
  forall t s e, table_wf n t -> 0 <= s < e -> all_mapped n t s (Z.min e (block_end n s)) ->
  let '(t', c) := f t (mkRange s e) in
  c = Z.min e (block_end n s) - s /\ table_wf n t' /\ table_frames n t' = table_frames n t /\
  edited (with_flags flags) n t t' s c.

Lemma set_flags_leaf_eq flags count es :
  set_flags_leaf flags count es
    = ((fun e => mkPte (pte_frame e) flags) <$> take count es) ++ drop count es.
Proof.
  revert es. induction count as [|count IH]; intros [|e es]; [done..|]. simpl. by rewrite IH.
Qed.

Lemma block_end_gt n s : s < block_end n s.
Proof. unfold block_end. pose proof (div_bounds s (table_span n) (table_span_pos n)). lia. Qed.

Lemma set_flags_0_spec flags : flags <> 0 -> set_flags_spec flags 0 (set_flags_in_table flags 0).
Proof.
  intros Hflags t s e Hwf Hs Hmap. cbn [set_flags_in_table]. simpl r_start.
  rewrite page_table_index_spec by lia.
  set (i := page_index s 0). set (count := leaf_count (mkRange s e) i).
  rewrite set_flags_leaf_eq.
  pose proof (leaf_drop_le t s e Hwf) as Hle. fold i count in Hle.
  destruct (leaf_overwrite t ((fun en => mkPte (pte_frame en) flags) <$> take count (drop i t)) s e)
    as (Hc & Hwf' & Hlk); [done|done|rewrite length_fmap, length_take; fold i count; lia|].
  fold i count in Hc, Hwf', Hlk. split_and!; try done.
  intros p Hp. rewrite !lookup_page_0, Hlk by done. case_decide as Hd; [|done].
  assert (Hidx : page_index p 0 = (i + Z.to_nat (p - s))%nat).
  { pose proof (page_split p 0) as H1. pose proof (page_split s 0) as H2. fold i in H2.
    unfold entry_span in H1, H2. rewrite Z.div_1_r in H1, H2. lia. }
  rewrite list_lookup_fmap, lookup_take_lt, lookup_drop, Hidx by lia.
  specialize (Hmap p ltac:(lia)). rewrite lookup_page_0, Hidx in Hmap.
  destruct ((t : list PageTableEntry) !! (i + Z.to_nat (p - s))%nat) as [en|]; [|done]. simpl.
  destruct (is_unused en); [done|]. unfold is_unused. simpl.
  by rewrite (proj2 (Z.eqb_neq flags 0) Hflags), andb_false_r.
Qed.

(** The entry of a mapped page is used. *)
Lemma mapped_entry m (pre rest : upper m) o s b :
  table_wf (S m) (pre ++ o :: rest) ->
  s / entry_span (S m) = 512 * b + Z.of_nat (length pre) ->
  lookup_page (S m) (pre ++ o :: rest) s <> None ->
  exists e sub, o = Some (e, sub) /\ entry_ok e /\ table_wf m sub.
Proof.
  intros Hwf Hs Hmap.
  apply table_wf_upper in Hwf as [Hl Hall]. rewrite length_app in Hl. simpl in Hl.
  destruct (page_index_unique s (S m) b (length pre) Hs ltac:(lia)) as [_ His].
  destruct o as [[e sub]|].
  - rewrite Forall_app, Forall_cons in Hall. exists e, sub. tauto.
  - by rewrite lookup_page_at_none in Hmap.
Qed.

Lemma all_mapped_child m (pre rest : upper m) e sub s hi b :
  s / entry_span (S m) = 512 * b + Z.of_nat (length pre) -> (length pre < Z.to_nat 512)%nat ->
  all_mapped (S m) (pre ++ Some (e, sub) :: rest) s hi ->
  all_mapped m sub s (Z.min hi (block_end m s)).
Proof.
  intros Hs Hlen Hmap p Hp. rewrite <- (lookup_page_at m pre rest e).
  - apply Hmap. lia.
  - destruct (in_entry_block m s b (length pre) p Hs Hlen) as [Hpe _]; [lia|].
    rewrite Hs in Hpe. by apply (page_index_unique p (S m) b).
Qed.

Lemma block_end_same n s s' : s' / table_span n = s / table_span n -> block_end n s' = block_end n s.
Proof. unfold block_end. by intros ->. Qed.

(** Moving on to the next entry of a table. *)
Lemma next_entry m s b i :
  s / entry_span (S m) = 512 * b + Z.of_nat i -> (S i < Z.to_nat 512)%nat ->
  let s' := block_end m s in
  s' / entry_span (S m) = 512 * b + Z.of_nat (S i) /\ s' / table_span (S m) = s / table_span (S m).
Proof.
  intros Hs Hi s'. destruct (block_end_nested m s b i Hs ltac:(lia)) as (Hbe & _ & _).
  assert (Hs' : s' / entry_span (S m) = 512 * b + Z.of_nat (S i)).
  { unfold s'. rewrite Hbe, Z.div_mul by (pose proof (entry_span_pos (S m)); lia). lia. }
  split; [done|]. apply (page_index_unique _ _ b (S i)) in Hs' as [-> _]; [|done].
  by apply (page_index_unique _ _ b i) in Hs as [-> _]; [|lia].
Qed.

Lemma last_entry m s b i :
  s / entry_span (S m) = 512 * b + Z.of_nat i -> S i = Z.to_nat 512 ->
  block_end m s = block_end (S m) s.
Proof.
  intros Hs Hi. destruct (block_end_nested m s b i Hs ltac:(lia)) as (-> & -> & _). f_equal. lia.
Qed.

Lemma set_flags_entries_spec flags m (rec : table m -> range -> table m * Z) :
  set_flags_spec flags m rec -> forall (es pre : upper m) s e total b,
  es <> [] -> table_wf (S m) (pre ++ es) -> 0 <= s < e ->
  s / entry_span (S m) = 512 * b + Z.of_nat (length pre) ->
  all_mapped (S m) (pre ++ es) s (Z.min e (block_end (S m) s)) ->
  let '(es', total') := set_flags_entries rec (mkRange s e) total es in
  total' - total = Z.min e (block_end (S m) s) - s /\ table_wf (S m) (pre ++ es') /\
  table_frames (S m) (pre ++ es') = table_frames (S m) (pre ++ es) /\
  edited (with_flags flags) (S m) (pre ++ es) (pre ++ es') s (total' - total).
Proof.
  intros Hrec es. induction es as [|o rest IH]; intros pre s e total b Hne Hwf Hs Hb Hmap; [done|].
  clear Hne. pose proof (proj1 (table_wf_upper _ _) Hwf) as [Hlen _].
  rewrite length_app in Hlen. simpl in Hlen.
  destruct (block_end_nested m s b (length pre) Hb ltac:(lia)) as (_ & _ & Hble).
  destruct (mapped_entry m pre rest o s b) as (e0 & sub & -> & He0 & Hsub); [done|done|apply Hmap; lia|].
  cbn [set_flags_entries].
  specialize (Hrec sub s e Hsub Hs).
  lapply Hrec; [clear Hrec; intros Hrec|].
  2: { pose proof (all_mapped_child m pre rest e0 sub s _ b Hb ltac:(lia) Hmap) as Hch.
       intros p Hp. apply Hch. lia. }
  destruct (rec sub (mkRange s e)) as [sub' c]. simpl. destruct Hrec as (Hc & Hwf' & Hfr & Hed).
  set (o' := Some (e0, sub')).
  assert (Hwf1 : table_wf (S m) (pre ++ o' :: rest)) by (eapply table_wf_replace; [exact Hwf|done]).
  assert (Hed1 : edited (with_flags flags) (S m) (pre ++ Some (e0, sub) :: rest) (pre ++ o' :: rest) s c).
  { apply (edited_lift _ _ _ _ _ _ sub' _ _ _ b); [done|lia|lia|done|done]. }
  assert (Hfr1 : table_frames (S m) (pre ++ o' :: rest)
                 = table_frames (S m) (pre ++ Some (e0, sub) :: rest)).
  { unfold o'. by rewrite !table_frames_app, !table_frames_cons, Hfr. }
  destruct (Z.geb_spec (s + c) e) as [Hge|Hlt].
  { replace (total + c - total) with c by lia. split; [lia|]. split; [done|]. split; done. }
  destruct rest as [|o2 rest].
  { simpl. replace (total + c - total) with c by lia. simpl in Hlen.
    rewrite (last_entry m s b (length pre)) in Hc by (done || lia). split; [lia|]. split; [done|]. split; done. }
  assert (Hsc : s + c = block_end m s) by lia.
  destruct (next_entry m s b (length pre) Hb ltac:(simpl in Hlen; lia)) as [Hb' Hblk].
  rewrite <- Hsc in Hb', Hblk.
  specialize (IH (pre ++ [o']) (s + c) e (total + c) b ltac:(discriminate)).
  rewrite <- app_assoc, (length_app pre), Nat.add_1_r, (block_end_same _ s (s + c) Hblk) in IH.
  cbn [app] in IH.
  specialize (IH Hwf1 ltac:(lia) Hb').
  lapply IH; [clear IH; intros IH|].
  2: { intros p Hp. rewrite Hed1, decide_False; [apply Hmap; lia|lia|].
       apply div_unique_bounds; [apply table_span_pos|].
       pose proof (div_bounds s (table_span (S m)) (table_span_pos _)). unfold block_end in *. lia. }
  destruct (set_flags_entries rec (mkRange (s + c) e) (total + c) (o2 :: rest)) as [es' total'].
  rewrite <- app_assoc in IH. cbn [app] in IH. destruct IH as (Htot & Hwf2 & Hfr2 & Hed2).
  split; [lia|]. split; [done|]. split; [exact (eq_trans Hfr2 Hfr1)|].
  eapply edited_cast; [|eapply edited_compose; [..|exact Hed1|exact Hed2]]; [lia|lia|lia|done].
Qed.

Lemma set_flags_in_table_S flags m (t : upper m) pages :
  set_flags_in_table flags (S m) t pages
    = let i := page_table_index (page_address (r_start pages)) (S m) in
      let '(es, total) := set_flags_entries (set_flags_in_table flags m) pages 0 (drop i t) in
      (take i t ++ es, total).
Proof. done. Qed.

(** The table at the entry where a range starts, split there. *)
Lemma split_at_index m (t : upper m) s :
  table_wf (S m) t -> let i := page_index s (S m) in
  take i t ++ drop i t = t /\ length (take i t) = i /\ drop i t <> [].
Proof.
  intros Hwf i. pose proof (page_index_lt s (S m)) as Hi. fold i in Hi.
  destruct (proj1 (table_wf_upper m t) Hwf) as [Hl _].
  split; [apply take_drop|]. split; [rewrite length_take_le; lia|].
  intros Hd. apply (f_equal length) in Hd. rewrite length_drop in Hd. simpl in Hd. lia.
Qed.

Lemma set_flags_step flags m (t : upper m) s e :
  set_flags_spec flags m (set_flags_in_table flags m) -> table_wf (S m) t -> 0 <= s < e ->
  all_mapped (S m) t s (Z.min e (block_end (S m) s)) ->
  let '(t', c) := set_flags_in_table flags (S m) t (mkRange s e) in
  c = Z.min e (block_end (S m) s) - s /\ table_wf (S m) t' /\
  table_frames (S m) t' = table_frames (S m) t /\ edited (with_flags flags) (S m) t t' s c.
Proof.
  intros IH Hwf Hs Hmap. rewrite set_flags_in_table_S. simpl r_start.
  rewrite page_table_index_spec by lia. cbv zeta.
  destruct (split_at_index m t s Hwf) as (Htd & Hl & Hne).
  pose proof (set_flags_entries_spec flags m _ IH (drop (page_index s (S m)) t)
    (take (page_index s (S m)) t) s e 0 (s / table_span (S m)) Hne) as Hloop.
  rewrite Htd, Hl in Hloop. specialize (Hloop Hwf Hs (page_split s (S m)) Hmap).
  destruct (set_flags_entries _ _ _ _) as [es' total]. rewrite Z.sub_0_r in Hloop. done.
Qed.

Lemma set_flags_in_table_spec flags n :
  flags <> 0 -> set_flags_spec flags n (set_flags_in_table flags n).
Proof.
  intros Hf. induction n as [|m IH]; [by apply set_flags_0_spec|].
  intros t s e Hwf Hs Hmap. by apply set_flags_step.
Qed.

(** Changing the flags of mapped pages changes the flags of exactly these pages and
    no translation. *)
Theorem set_flags_correct {A} `{FrameAllocator A} (a : A) (p : Paging) (s e flags : Z) :
  paging_wf a p -> 0 <= s < e -> e <= space_pages p -> flags <> 0 ->
  all_mapped (paging_level p) (root_table p) s e ->
  let p' := paging_set_flags p (mkRange s e) flags in
  paging_wf a p' /\
  (forall addr, 0 <= addr < space_pages p * PAGE_SIZE -> paging_translate p' addr = paging_translate p addr) /\
  (forall pg, 0 <= pg < space_pages p -> lookup_page (paging_level p) (root_table p') pg
     = if decide (s <= pg < e) then with_flags flags (lookup_page (paging_level p) (root_table p) pg)
       else lookup_page (paging_level p) (root_table p) pg).
Proof.
  intros [W N O] Hs He Hflags Hmap. unfold paging_set_flags.
  pose proof (set_flags_in_table_spec flags (paging_level p) Hflags (root_table p) s e W Hs) as Hspec.
  rewrite block_end_root, Z.min_l in Hspec by lia. specialize (Hspec Hmap).
  destruct (set_flags_in_table _ _ _ _) as [t' c]. destruct Hspec as (-> & W' & Hfr & Hed).
  replace (s + (e - s)) with e in Hed by lia. cbn [fst].
  assert (Hlk : forall pg, 0 <= pg < space_pages p -> lookup_page (paging_level p) t' pg
     = if decide (s <= pg < e) then with_flags flags (lookup_page (paging_level p) (root_table p) pg)
       else lookup_page (paging_level p) (root_table p) pg).
  { intros pg Hpg. rewrite Hed by (rewrite !Z.div_small; [done|unfold space_pages in *; lia..]).
    by replace (s + (e - s)) with e by lia. }
  split; [|split; [|done]].
  - constructor; [done|..]; unfold paging_frames in *; simpl; by rewrite Hfr.
  - intros addr Ha. unfold paging_translate. simpl. rewrite !translate_lookup by (done || lia).
    rewrite Hlk; [|split; [apply Z.div_pos; [lia|done]|apply Z.div_lt_upper_bound; [done|lia]]].
    case_decide; [|done]. by destruct (lookup_page _ _ _).
Qed.

(** A one-level space with every page mapped, for the examples. *)
Definition example_leaf_space : Paging := mkPaging 0 5 (replicate (Z.to_nat 512) (mkPte 9 3)).

Lemma example_leaf_wf : paging_wf example_frames example_leaf_space.
Proof.
  constructor; [apply length_replicate|apply NoDup_singleton|].
  constructor; [|constructor]. rewrite (example_free 5). simpl. lia.
Qed.

Lemma example_leaf_mapped s e : all_mapped 0 (root_table example_leaf_space) s e.
Proof.
  intros p _. change (root_table example_leaf_space) with (replicate (Z.to_nat 512) (mkPte 9 3)).
  rewrite lookup_page_0, lookup_replicate_2 by apply page_index_lt. done.
Qed.

Lemma set_flags_correct_witness :
  let p' := paging_set_flags example_leaf_space (mkRange 3 5) 1 in
  paging_wf example_frames p' /\
  (forall addr, 0 <= addr < space_pages example_leaf_space * PAGE_SIZE ->
     paging_translate p' addr = paging_translate example_leaf_space addr).
Proof.
  destruct (set_flags_correct example_frames example_leaf_space 3 5 1 example_leaf_wf ltac:(lia)
    ltac:(vm_compute; discriminate) ltac:(lia) (example_leaf_mapped 3 5)) as (H1 & H2 & _).
  exact (conj H1 H2).
Defined.

(** ** Unmapping *)

Lemma sublist_elem {B} (x : B) l k : x ∈ l -> l `sublist_of` k -> x ∈ k.
Proof. intros Hx Hs. eapply elem_of_submseteq; [exact Hx|by apply sublist_submseteq]. Qed.

Section Unmap.
Context {A : Type} `{FA : FrameAllocator A} `{FAL : !FrameAllocatorLaws A}.
Context (free_physical : bool).

(** The pages of the range are mapped and, if their frames are to be freed, each
    frame belongs to one page only, is in use and holds no page table. *)
Record unmap_pre (a : A) (n : nat) (t : table n) (s e : Z) : Prop := {
  up_inv : fa_inv a;
  up_wf : table_wf n t;
  up_own : frames_owned a (table_frames n t);
  up_mapped p : s <= p < e -> exists en, lookup_page n t p = Some en /\
    (free_physical = true ->
     0 < pte_frame en /\ ~ fa_is_free a (pte_frame en) /\ pte_frame en ∉ table_frames n t);
  up_inj p q en en' : free_physical = true -> s <= p < e -> s <= q < e ->
    lookup_page n t p = Some en -> lookup_page n t q = Some en' -> pte_frame en = pte_frame en' -> p = q
}.

(** [f] is the frame of one of the pages [\[s, s + c)], and such frames are freed. *)
Definition page_frame_freed (n : nat) (t : table n) (s c f : Z) : Prop :=
  free_physical = true /\ exists p en, s <= p < s + c /\ lookup_page n t p = Some en /\ pte_frame en = f.

Record unmap_post (a : A) (n : nat) (t : table n) (a' : A) (t' : table n) (s c : Z) : Prop := {
  un_inv : fa_inv a';
  un_wf : table_wf n t';
  un_edited : edited (fun _ => None) n t t' s c;
  un_sub : table_frames n t' `sublist_of` table_frames n t;
  un_free f : fa_is_free a' f <-> fa_is_free a f \/
    (f ∈ table_frames n t /\ f ∉ table_frames n t') \/ page_frame_freed n t s c f
}.

(** After a part of the range has been unmapped, the rest still satisfies the
    precondition. *)
Lemma unmap_pre_rest a n t a' t' s c e :
  0 <= c -> s + c <= e -> e <= block_end n s ->
  unmap_pre a n t s e -> unmap_post a n t a' t' s c -> unmap_pre a' n t' (s + c) e.
Proof.
  intros Hc Hle Hbe [I W [N O] M J] [I' W' E' S' F'].
  assert (Hblk : forall p, s <= p < e -> p / table_span n = s / table_span n).
  { intros p Hp. apply div_unique_bounds; [apply table_span_pos|].
    pose proof (div_bounds s (table_span n) (table_span_pos n)). unfold block_end in Hbe. lia. }
  assert (Hlk : forall p, s + c <= p < e -> lookup_page n t' p = lookup_page n t p).
  { intros p Hp. rewrite E' by (apply Hblk; lia). by rewrite decide_False by lia. }
  rewrite Forall_forall in O.
  assert (Hin : forall f, f ∈ table_frames n t' -> f ∈ table_frames n t)
    by (intros f Hf; by eapply sublist_elem).
  constructor; try done.
  - split; [by eapply sublist_NoDup|]. apply Forall_forall. intros f Hf. destruct (O f (Hin f Hf)) as [Hp Hn].
    split; [done|]. rewrite F'. intros [?|[[_ ?]|(Hfp & p & en & Hp' & Hl & <-)]]; [done..|].
    destruct (M p) as (en' & Hl' & Hen); [lia|]. rewrite Hl in Hl'. injection Hl' as <-.
    destruct (Hen Hfp) as (_ & _ & Hnt). by apply Hnt, Hin.
  - intros p Hp. destruct (M p) as (en & Hl & Hen); [lia|]. exists en. rewrite Hlk by done.
    split; [done|]. intros Hfp. destruct (Hen Hfp) as (H1 & H2 & H3). split_and!; [done| |by intros ?%Hin].
    rewrite F'. intros [?|[[? _]|(_ & q & en' & Hq & Hl' & Heq)]]; [done..|].
    assert (q = p) by (apply (J q p en' en); try done; lia). lia.
  - intros p q en en' Hfp Hp Hq. rewrite !Hlk by done. apply J; [done|lia..].
Qed.

Lemma unmap_compose a n t a1 t1 a2 t2 s c1 c2 :
  0 <= c1 -> 0 <= c2 -> (s + c1) / table_span n = s / table_span n ->
  s + c1 + c2 <= block_end n s ->
  unmap_post a n t a1 t1 s c1 -> unmap_post a1 n t1 a2 t2 (s + c1) c2 ->
  unmap_post a n t a2 t2 s (c1 + c2).
Proof.
  intros Hc1 Hc2 Hb Hbe [I1 W1 E1 S1 F1] [I2 W2 E2 S2 F2].
  constructor; [done|done|by eapply edited_compose|by etransitivity|].
  assert (Hin : forall f, f ∈ table_frames n t2 -> f ∈ table_frames n t1)
    by (intros f Hf; by eapply sublist_elem).
  assert (Hin1 : forall f, f ∈ table_frames n t1 -> f ∈ table_frames n t)
    by (intros f Hf; by eapply sublist_elem).
  assert (Hpf : forall f, page_frame_freed n t s (c1 + c2) f <->
            page_frame_freed n t s c1 f \/ page_frame_freed n t1 (s + c1) c2 f).
  { intros f. unfold page_frame_freed.
    assert (Hlk : forall p, s + c1 <= p < s + c1 + c2 -> lookup_page n t1 p = lookup_page n t p).
    { intros p Hp. rewrite E1; [by rewrite decide_False by lia|].
      apply div_unique_bounds; [apply table_span_pos|].
      pose proof (div_bounds s (table_span n) (table_span_pos n)). unfold block_end in Hbe. lia. }
    split.
    - intros (Hfp & p & en & Hp & Hl & Hf). destruct (Z.lt_ge_cases p (s + c1)).
      + left. split; [done|]. exists p, en. split_and!; [lia|lia|done|done].
      + right. split; [done|]. exists p, en. rewrite Hlk by lia. split_and!; [lia|lia|done|done].
    - intros [(Hfp & p & en & Hp & Hl & Hf)|(Hfp & p & en & Hp & Hl & Hf)]; (split; [done|]); exists p, en.
      + split_and!; [lia|lia|done|done].
      + rewrite Hlk in Hl by lia. split_and!; [lia|lia|done|done]. }
  intros f. rewrite F2, F1, Hpf. specialize (Hin f). specialize (Hin1 f).
  destruct (decide (f ∈ table_frames n t1)); tauto.
Qed.

Definition unmap_spec (n : nat) (f : A -> table n -> range -> outcome (table n * A * Z)) : Prop :=
  forall a t s e, 0 <= s < e -> unmap_pre a n t s (Z.min e (block_end n s)) ->
  exists a' t', f a t (mkRange s e) = Ret (t', a', Z.min e (block_end n s) - s) /\
    unmap_post a n t a' t' s (Z.min e (block_end n s) - s).

(** The loop over the entries of the last level. *)
Lemma unmap_leaf_spec count : forall a es,
  fa_inv a -> (count <= length es)%nat -> Forall (fun en => is_unused en = false) (take count es) ->
  (free_physical = true -> frames_owned a (pte_frame <$> take count es)) ->
  exists a', unmap_leaf free_physical count a es = Ret (replicate count pte_zero ++ drop count es, a') /\
    fa_inv a' /\ (forall f, fa_is_free a' f <->
       fa_is_free a f \/ (free_physical = true /\ f ∈ pte_frame <$> take count es)).
Proof.
  induction count as [|count IH]; intros a es Hinv Hle Hused Hown.
  { exists a. rewrite take_0, drop_0. destruct es; simpl; (split_and!; try done);
      intros f; rewrite elem_of_nil; tauto. }
  destruct es as [|en es]; simpl in Hle; [lia|]. simpl in Hused, Hown.
  apply Forall_cons in Hused as [Hen Hused]. simpl. rewrite Hen. simpl.
  assert (Hstep : exists a1, (if free_physical
       then fa_free a (mkRange (pte_frame en) (pte_frame en + 1)) else Ret a) = Ret a1 /\ fa_inv a1 /\
     (forall f, fa_is_free a1 f <-> fa_is_free a f \/ (free_physical = true /\ f ∈ [pte_frame en]))).
  { destruct free_physical.
    - apply (free_owned a (pte_frame en)) in Hinv as (a1 & Ha & Hi & Hf).
      + exists a1. split_and!; try done. intros f. rewrite Hf. intuition.
      + by apply (frames_owned_app a [pte_frame en] (pte_frame <$> take count es)), Hown.
    - exists a. split_and!; try done. intros f. intuition discriminate. }
  destruct Hstep as (a1 & -> & Hi1 & Hf1). simpl.
  destruct (IH a1 es) as (a2 & -> & Hi2 & Hf2); [done|lia|done| |].
  { intros Hfp. apply (frames_owned_after a a1 [pte_frame en]); [exact (Hown Hfp)|]. intros f. rewrite Hf1. tauto. }
  exists a2. split_and!; try done. intros f. simpl. rewrite Hf2, Hf1, !elem_of_cons.
  pose proof (not_elem_of_nil f). tauto.
Qed.

(** The entries from the first one of the range on hold the pages of the range. *)
Lemma leaf_entry_page (t : list PageTableEntry) s (j : nat) :
  s + Z.of_nat j < block_end 0 s ->
  lookup_page 0 t (s + Z.of_nat j)
    = match drop (page_index s 0) t !! j with
      | Some en => if is_unused en then None else Some en
      | None => None
      end.
Proof.
  intros Hj. rewrite lookup_page_0, lookup_drop.
  replace (page_index (s + Z.of_nat j) 0) with (page_index s 0 + j)%nat; [done|].
  pose proof (page_split s 0) as H1. pose proof (page_split (s + Z.of_nat j) 0) as H2.
  assert (Hb : (s + Z.of_nat j) / table_span 0 = s / table_span 0).
  { apply div_unique_bounds; [apply table_span_pos|].
    pose proof (div_bounds s _ (table_span_pos 0)). unfold block_end in Hj. lia. }
  rewrite Hb in H2. unfold entry_span in H1, H2. rewrite Z.div_1_r in H1, H2. lia.
Qed.

Lemma unmap_0_spec : unmap_spec 0 (unmap_in_table free_physical 0).
Proof.
  intros a t s e Hs [I W O M J]. cbn [unmap_in_table]. simpl r_start.
  rewrite page_table_index_spec by lia.
  set (i := page_index s 0). set (count := leaf_count (mkRange s e) i).
  pose proof (leaf_drop_le t s e W) as Hle. fold i count in Hle.
  destruct (leaf_overwrite t (replicate count pte_zero) s e) as (Hc & Hwf' & Hlk);
    [done|done|apply length_replicate|]. fold i count in Hc, Hwf', Hlk.
  assert (Hent : forall j en, take count (drop i t) !! j = Some en ->
            lookup_page 0 t (s + Z.of_nat j) = Some en /\ is_unused en = false /\ (j < count)%nat).
  { intros j en [Hen Hj]%lookup_take_Some. destruct (M (s + Z.of_nat j)) as (en' & Hen' & _); [lia|].
    rewrite leaf_entry_page in Hen' |- * by lia. fold i in Hen' |- *. rewrite Hen in Hen' |- *.
    destruct (is_unused en); [done|]. split_and!; done. }
  destruct (unmap_leaf_spec count a (drop i t)) as (a' & Hrun & Hi' & Hf'); [done|done|..].
  { apply Forall_lookup_2. intros j en Hen. by destruct (Hent j en Hen) as (_ & ? & _). }
  { intros Hfp. split.
    - apply NoDup_alt. intros j k f. rewrite !list_lookup_fmap.
      intros (en & Hj & ->)%fmap_Some_1 (en' & Hk & Heq)%fmap_Some_1.
      apply Hent in Hj as (Hj & _ & ?), Hk as (Hk & _ & ?).
      pose proof (J (s + Z.of_nat j) (s + Z.of_nat k) en en' Hfp ltac:(lia) ltac:(lia) Hj Hk Heq). lia.
    - apply Forall_fmap, Forall_lookup_2. intros j en (Hj & _ & ?)%Hent.
      destruct (M (s + Z.of_nat j)) as (en' & Hen' & Hok); [lia|]. rewrite Hj in Hen'. injection Hen' as <-.
      destruct (Hok Hfp) as (? & ? & _). done. }
  exists a', (take i t ++ replicate count pte_zero ++ drop count (drop i t)).
  rewrite Hrun, Hc. split; [done|]. constructor; [done|done| |constructor|].
  - intros p Hp. rewrite !lookup_page_0, Hlk by done. rewrite Hc. case_decide as Hd; [|done].
    by rewrite lookup_replicate_2 by lia.
  - intros f. rewrite Hf'. unfold page_frame_freed.
    assert (Hin : f ∈ pte_frame <$> take count (drop i t) <-> exists p en,
              s <= p < s + Z.of_nat count /\ lookup_page 0 t p = Some en /\ pte_frame en = f).
    { rewrite list_elem_of_fmap. split.
      - intros (en & -> & (j & Hj)%list_elem_of_lookup). apply Hent in Hj as (Hj & _ & ?).
        exists (s + Z.of_nat j), en. split_and!; [lia|lia|done|done].
      - intros (p & en & Hp & Hl & <-). exists en. split; [done|].
        apply list_elem_of_lookup. exists (Z.to_nat (p - s)). apply lookup_take_Some. split; [|lia].
        replace p with (s + Z.of_nat (Z.to_nat (p - s))) in Hl by lia.
        rewrite leaf_entry_page in Hl by lia. fold i in Hl.
        destruct (drop i t !! Z.to_nat (p - s)) as [en0|]; [|done]. destruct (is_unused en0); [done|congruence]. }
    rewrite Hin, <- Hc. pose proof (not_elem_of_nil f). simpl. tauto.
Qed.

Lemma empty_table n (t : table n) :
  is_table_empty t = true -> (forall p, lookup_page n t p = None) /\ table_frames n t = [].
Proof.
  destruct n as [|m]; intros He.
  - change (forallb is_unused (t : list PageTableEntry) = true) in He. split; [|done]. intros p.
    rewrite lookup_page_0. destruct ((t : list PageTableEntry) !! _) as [en|] eqn:Hl; [|done].
    rewrite forallb_forall in He. by rewrite He by (eapply list_elem_of_In, list_elem_of_lookup_2, Hl).
  - assert (Hn : Forall (eq None) (t : upper m)).
    { apply Forall_forall. intros o Ho%list_elem_of_In. change (forallb (fun e : option (PageTableEntry * table m) =>
        match e with None => true | Some _ => false end) t = true) in He.
      rewrite forallb_forall in He. specialize (He o Ho). by destruct o. }
    split.
    + intros p. rewrite lookup_page_S. destruct ((t : upper m) !! _) as [o|] eqn:Hl; [|done].
      by rewrite <- (Forall_lookup_1 _ _ _ _ Hn Hl).
    + clear He. change (table_frames (S m) (t : upper m) = []).
      induction (t : upper m) as [|o l IH]; [done|]. apply Forall_cons in Hn as [<- Hn].
      rewrite table_frames_none. by apply IH.
Qed.

(** Where the frames of a hierarchy are, seen from one entry of its root table. *)
Lemma frames_at_entry m (pre rest : upper m) e sub f :
  NoDup (table_frames (S m) (pre ++ Some (e, sub) :: rest)) ->
  (f ∈ table_frames (S m) (pre ++ Some (e, sub) :: rest) <->
     f ∈ table_frames (S m) (pre ++ rest) \/ f = pte_frame e \/ f ∈ table_frames m sub) /\
  (f ∈ table_frames (S m) (pre ++ rest) -> f <> pte_frame e /\ f ∉ table_frames m sub) /\
  (f ∈ table_frames m sub -> f <> pte_frame e).
Proof.
  rewrite !table_frames_app, table_frames_cons, !elem_of_app, elem_of_cons, elem_of_app.
  intros (_ & Hpre & [He [_ [Hsub _]]%NoDup_app]%NoDup_cons)%NoDup_app.
  specialize (Hpre f). rewrite elem_of_cons, elem_of_app in Hpre. specialize (Hsub f).
  rewrite elem_of_app in He. split; [tauto|]. split; [|intros Hs ->; tauto].
  intros Hf. split; [intros ->; tauto|tauto].
Qed.

Lemma unmap_pre_child a m (pre rest : upper m) e0 sub s hi b :
  table_wf m sub -> s / entry_span (S m) = 512 * b + Z.of_nat (length pre) -> (length pre < Z.to_nat 512)%nat ->
  unmap_pre a (S m) (pre ++ Some (e0, sub) :: rest) s hi ->
  unmap_pre a m sub s (Z.min hi (block_end m s)).
Proof.
  intros Hsub Hs Hlen [I W [N O] M J].
  assert (Hat : forall p, s <= p < Z.min hi (block_end m s) ->
            lookup_page (S m) (pre ++ Some (e0, sub) :: rest) p = lookup_page m sub p).
  { intros p Hp. apply lookup_page_at. destruct (in_entry_block m s b (length pre) p Hs Hlen) as [Hpe _]; [lia|].
    rewrite Hs in Hpe. by apply (page_index_unique p (S m) b). }
  assert (Hfr : forall f, f ∈ table_frames m sub -> f ∈ table_frames (S m) (pre ++ Some (e0, sub) :: rest)).
  { intros f Hf. destruct (frames_at_entry m pre rest e0 sub f N) as [-> _]. tauto. }
  constructor; [done|done| |..].
  - split.
    + rewrite table_frames_app, table_frames_cons in N. apply NoDup_app in N as (_ & _ & N).
      apply NoDup_cons in N as [_ N]. by apply NoDup_app in N as (N & _ & _).
    + rewrite Forall_forall in O |- *. intros f Hf. by apply O, Hfr.
  - intros p Hp. destruct (M p) as (en & Hl & Hen); [lia|]. rewrite Hat in Hl by done.
    exists en. split; [done|]. intros Hfp. destruct (Hen Hfp) as (? & ? & Hn).
    split_and!; [done|done|by intros ?%Hfr].
  - intros p q en en' Hfp Hp Hq. rewrite <- !Hat by done. apply J; [done|lia..].
Qed.

Lemma freed_at_entry m (pre rest : upper m) e0 sub s c b f :
  s / entry_span (S m) = 512 * b + Z.of_nat (length pre) -> (length pre < Z.to_nat 512)%nat ->
  s + c <= block_end m s ->
  page_frame_freed (S m) (pre ++ Some (e0, sub) :: rest) s c f <-> page_frame_freed m sub s c f.
Proof.
  intros Hs Hlen Hc. unfold page_frame_freed.
  assert (Hat : forall p, s <= p < s + c ->
            lookup_page (S m) (pre ++ Some (e0, sub) :: rest) p = lookup_page m sub p).
  { intros p Hp. apply lookup_page_at. destruct (in_entry_block m s b (length pre) p Hs Hlen) as [Hpe _]; [lia|].
    rewrite Hs in Hpe. by apply (page_index_unique p (S m) b). }
  split; intros (Hfp & p & en & Hp & Hl & Hf); (split; [done|]); exists p, en;
    [rewrite Hat in Hl by done|rewrite Hat by done]; done.
Qed.

(** One iteration of the loop: the pages below an entry are unmapped, and the entry
    is dropped if its table has become empty. *)
Lemma unmap_entry_spec a a1 m (pre rest : upper m) e0 sub sub' s c b :
  s / entry_span (S m) = 512 * b + Z.of_nat (length pre) -> (length pre < Z.to_nat 512)%nat ->
  s + c <= block_end m s -> entry_ok e0 ->
  unmap_pre a (S m) (pre ++ Some (e0, sub) :: rest) s (s + c) ->
  unmap_post a m sub a1 sub' s c ->
  exists o' a2,
    (if is_table_empty sub'
     then a2 ← fa_free a1 (mkRange (pte_frame e0) (pte_frame e0 + 1)); Ret (None, a2)
     else Ret (Some (e0, sub'), a1)) = Ret (o', a2) /\
    unmap_post a (S m) (pre ++ Some (e0, sub) :: rest) a2 (pre ++ o' :: rest) s c.
Proof.
  intros Hs Hlen Hc He0 [I W [N O] M J] [I1 W1 E1 S1 F1].
  pose proof (fun f => frames_at_entry m pre rest e0 sub f N) as Hfr.
  destruct (is_table_empty sub') eqn:Hemp.
  - destruct (empty_table m sub' Hemp) as [Hnone Hnil]. rewrite Hnil in F1.
    destruct (fa_free_one a1 (pte_frame e0)) as (a2 & Ha & I2 & F2); [done|apply He0|..].
    { rewrite Forall_forall in O. destruct (Hfr (pte_frame e0)) as (Hin & _ & Hsub).
      destruct (O (pte_frame e0)) as [_ Hn]; [rewrite Hin; tauto|].
      rewrite F1. intros [?|[[? _]|(Hfp & p & en & Hp & Hl & Hf)]]; [done|by apply Hsub|].
      destruct (M p) as (en' & Hl' & Hen); [lia|]. destruct (Hen Hfp) as (_ & _ & Hnt). apply Hnt.
      destruct (in_entry_block m s b (length pre) p Hs Hlen) as [Hpe _]; [lia|]. rewrite Hs in Hpe.
      rewrite lookup_page_at in Hl' by (by apply (page_index_unique p (S m) b)).
      replace en' with en by congruence. rewrite Hf, Hin. tauto. }
    exists None, a2. rewrite Ha. split; [done|]. constructor; [done| | | |].
    + by eapply table_wf_replace.
    + by apply (edited_lift _ _ _ _ _ _ sub' _ _ _ b).
    + rewrite !table_frames_app, table_frames_cons, table_frames_none. apply sublist_app; [done|].
      by apply sublist_cons, sublist_inserts_l.
    + intros f. rewrite F2, F1, freed_at_entry by done. destruct (Hfr f) as (-> & H1 & H2).
      rewrite !table_frames_app, table_frames_none, <- !table_frames_app in *.
      pose proof (not_elem_of_nil f). tauto.
  - exists (Some (e0, sub')), a1. split; [done|]. constructor; [done| | | |].
    + by eapply table_wf_replace.
    + by apply (edited_lift _ _ _ _ _ _ sub' _ _ _ b).
    + rewrite !table_frames_app, !table_frames_cons. apply sublist_app; [done|].
      apply sublist_skip. by apply sublist_app.
    + intros f. rewrite F1, freed_at_entry by done. destruct (Hfr f) as (-> & H1 & H2).
      assert (Hf' : f ∈ table_frames (S m) (pre ++ Some (e0, sub') :: rest) <->
        f ∈ table_frames (S m) (pre ++ rest) \/ f = pte_frame e0 \/ f ∈ table_frames m sub')
        by (rewrite !table_frames_app, table_frames_cons, !elem_of_app, elem_of_cons, elem_of_app; tauto).
      rewrite Hf'. tauto.
Qed.

Lemma unmap_pre_shrink a n t s e e' : e' <= e -> unmap_pre a n t s e -> unmap_pre a n t s e'.
Proof.
  intros He [I W O M J]. constructor; [done..| |].
  - intros p Hp. apply M. lia.
  - intros p q en en' Hfp Hp Hq. apply J; [done|lia..].
Qed.

Lemma unmap_entries_spec m (rec : A -> table m -> range -> outcome (table m * A * Z)) :
  unmap_spec m rec -> forall (es pre : upper m) a s e total b,
  es <> [] -> 0 <= s < e -> s / entry_span (S m) = 512 * b + Z.of_nat (length pre) ->
  unmap_pre a (S m) (pre ++ es) s (Z.min e (block_end (S m) s)) ->
  let c := Z.min e (block_end (S m) s) - s in
  exists a' es', unmap_entries rec a (mkRange s e) total es = Ret (es', a', total + c) /\
    unmap_post a (S m) (pre ++ es) a' (pre ++ es') s c.
Proof.
  intros Hrec es. induction es as [|o rest IH]; intros pre a s e total b Hne Hs Hb Hpre; [done|].
  clear Hne. pose proof (up_wf _ _ _ _ _ Hpre) as Hwf.
  pose proof (proj1 (table_wf_upper _ _) Hwf) as [Hlen _]. rewrite length_app in Hlen. simpl in Hlen.
  destruct (block_end_nested m s b (length pre) Hb ltac:(lia)) as (_ & _ & Hble).
  pose proof (block_end_gt m s) as Hgt.
  destruct (mapped_entry m pre rest o s b) as (e0 & sub & -> & He0 & Hsub); [done|done| |].
  { destruct (up_mapped _ _ _ _ _ Hpre s) as (en & -> & _); [lia|done]. }
  cbn [unmap_entries]. set (c1 := Z.min e (block_end m s) - s).
  destruct (Hrec a sub s e Hs) as (a1 & sub' & -> & Hpost).
  { eapply unmap_pre_shrink; [|by eapply unmap_pre_child; [..|exact Hpre]; [|exact Hb|lia]]. lia. }
  fold c1 in Hpost |- *.
  destruct (unmap_entry_spec a a1 m pre rest e0 sub sub' s c1 b) as (o' & a2 & Hent & Hpost2);
    [done|lia|lia|done|eapply unmap_pre_shrink; [|exact Hpre]; lia|done|].
  unfold mbind at 1, outcome_bind at 1. cbv beta iota zeta.
  unfold mbind at 1, outcome_bind at 1. rewrite Hent. cbv beta iota zeta. simpl r_start. simpl r_end.
  destruct (Z.geb_spec (s + c1) e) as [Hge|Hlt].
  { exists a2, (o' :: rest). replace (Z.min e (block_end (S m) s) - s) with c1 by lia. done. }
  destruct rest as [|o2 rest].
  { simpl in Hlen. exists a2, [o'].
    assert (Hc1 : Z.min e (block_end (S m) s) - s = c1)
      by (rewrite <- (last_entry m s b (length pre)) by (done || lia); lia).
    rewrite Hc1. done. }
  destruct (next_entry m s b (length pre) Hb ltac:(simpl in Hlen; lia)) as [Hb' Hblk].
  replace (block_end m s) with (s + c1) in Hb', Hblk by lia.
  specialize (IH (pre ++ [o']) a2 (s + c1) e (total + c1) b ltac:(discriminate) ltac:(lia)).
  rewrite <- app_assoc, (length_app pre), Nat.add_1_r, (block_end_same _ s (s + c1) Hblk) in IH.
  cbn [app] in IH. specialize (IH Hb').
  destruct IH as (a3 & es' & -> & Hpost3).
  { eapply unmap_pre_rest; [..|exact Hpre|exact Hpost2]; lia. }
  rewrite <- app_assoc in Hpost3. cbn [app] in Hpost3. exists a3, (o' :: es').
  replace (Z.min e (block_end (S m) s) - s) with (c1 + (Z.min e (block_end (S m) s) - (s + c1))) by lia.
  rewrite Z.add_assoc. split; [done|].
  eapply unmap_compose; [..|exact Hpost2|exact Hpost3]; try lia.
Qed.

Lemma unmap_in_table_S m a (t : upper m) pages :
  unmap_in_table free_physical (S m) a t pages
    = let i := page_table_index (page_address (r_start pages)) (S m) in
      '(es, a', total) ← unmap_entries (unmap_in_table free_physical m) a pages 0 (drop i t);
      Ret (take i t ++ es, a', total).
Proof. done. Qed.

Lemma unmap_step m a (t : upper m) s e :
  unmap_spec m (unmap_in_table free_physical m) -> 0 <= s < e ->
  unmap_pre a (S m) t s (Z.min e (block_end (S m) s)) ->
  exists a' t', unmap_in_table free_physical (S m) a t (mkRange s e)
      = Ret (t', a', Z.min e (block_end (S m) s) - s) /\
    unmap_post a (S m) t a' t' s (Z.min e (block_end (S m) s) - s).
Proof.
  intros IH Hs Hpre. rewrite unmap_in_table_S. simpl r_start.
  rewrite page_table_index_spec by lia. cbv zeta.
  destruct (split_at_index m t s (up_wf _ _ _ _ _ Hpre)) as (Htd & Hl & Hne).
  pose proof (unmap_entries_spec m _ IH (drop (page_index s (S m)) t)
    (take (page_index s (S m)) t) a s e 0 (s / table_span (S m)) Hne Hs) as Hloop.
  rewrite Htd, Hl in Hloop. destruct (Hloop (page_split s (S m)) Hpre) as (a' & es' & -> & Hpost).
  exists a', (take (page_index s (S m)) t ++ es'). done.
Qed.

Lemma unmap_in_table_spec n : unmap_spec n (unmap_in_table free_physical n).
Proof. induction n as [|m IH]; [apply unmap_0_spec|]. intros a t s e Hs Hpre. by apply unmap_step. Qed.

(** The pages of the range are mapped and, if their frames are freed, to frames that are
    theirs alone. *)
Record unmappable (a : A) (p : Paging) (s e : Z) : Prop := {
  ua_mapped pg : s <= pg < e -> exists en, lookup_page (paging_level p) (root_table p) pg = Some en /\
    (free_physical = true ->
     0 < pte_frame en /\ ~ fa_is_free a (pte_frame en) /\ pte_frame en ∉ paging_frames p);
  ua_inj pg pg' en en' : free_physical = true -> s <= pg < e -> s <= pg' < e ->
    lookup_page (paging_level p) (root_table p) pg = Some en ->
    lookup_page (paging_level p) (root_table p) pg' = Some en' -> pte_frame en = pte_frame en' -> pg = pg'
}.

Lemma paging_unmap_spec (a : A) (p : Paging) (s e : Z) :
  fa_inv a -> paging_wf a p -> 0 <= s < e -> e <= space_pages p -> unmappable a p s e ->
  exists p' a', paging_unmap a p (mkRange s e) free_physical = Ret (p', a') /\
    fa_inv a' /\ paging_wf a' p' /\ space_pages p' = space_pages p /\
    (forall f, f ∈ paging_frames p' -> f ∈ paging_frames p) /\
    (forall pg, 0 <= pg < space_pages p -> lookup_page (paging_level p') (root_table p') pg
       = if decide (s <= pg < e) then None else lookup_page (paging_level p) (root_table p) pg) /\
    (forall f, fa_is_free a' f <-> fa_is_free a f \/ (f ∈ paging_frames p /\ f ∉ paging_frames p') \/
       page_frame_freed (paging_level p) (root_table p) s (e - s) f).
Proof.
  intros Hinv [W N O] Hs He [M J]. unfold paging_unmap. unfold paging_frames in *.
  apply NoDup_cons in N as [Nr N]. apply Forall_cons in O as [Or O].
  destruct (unmap_in_table_spec (paging_level p) a (root_table p) s e Hs) as (a' & t' & -> & [I' W' E' S' F']).
  { rewrite block_end_root, Z.min_l by lia. constructor; [done|done|done| |done].
    intros pg Hpg. destruct (M pg Hpg) as (en & Hl & Hen). exists en. split; [done|].
    intros Hfp. destruct (Hen Hfp) as (? & ? & Hn). rewrite not_elem_of_cons in Hn. tauto. }
  rewrite block_end_root, Z.min_l in * by lia. replace (s + (e - s)) with e in * by lia.
  exists (mkPaging (paging_level p) (root_frame p) t'), a'. split; [done|]. split; [done|].
  assert (Hsub : forall f, f ∈ table_frames (paging_level p) t' -> f ∈ table_frames (paging_level p) (root_table p))
    by (intros f Hf; by eapply sublist_elem).
  assert (Hkeep : forall f, f ∈ root_frame p :: table_frames (paging_level p) t' -> fa_is_free a' f -> fa_is_free a f).
  { intros f Hf. rewrite F'. rewrite elem_of_cons in Hf. intros [?|[[? ?]|(Hfp & pg & en & Hpg & Hl & Hfr)]]; [done| |].
    - destruct Hf as [->|?]; done.
    - destruct (M pg) as (en' & Hl' & Hen); [lia|]. destruct (Hen Hfp) as (_ & _ & Hn).
      rewrite not_elem_of_cons in Hn. replace en' with en in Hn by congruence.
      rewrite Hfr in Hn. specialize (Hsub f). tauto. }
  split; [constructor|split; [done|split; [|split]]]; unfold paging_frames; simpl.
  - done.
  - apply NoDup_cons. split; [by intros ?%Hsub|by eapply sublist_NoDup].
  - rewrite Forall_forall in O |- *. intros f Hf. specialize (Hkeep f Hf).
    rewrite elem_of_cons in Hf. destruct Hf as [->|Hf%Hsub]; [tauto|]. destruct (O f Hf). tauto.
  - intros f. rewrite !elem_of_cons. specialize (Hsub f). tauto.
  - intros pg Hpg. rewrite E' by (rewrite !Z.div_small; [done|unfold space_pages in *; lia..]).
    by replace (s + (e - s)) with e by lia.
  - intros f. rewrite F', !elem_of_cons. destruct (decide (f = root_frame p)) as [->|?]; [|tauto].
    specialize (Hsub (root_frame p)). tauto.
Qed.

(** C5 Unmapping a range of mapped pages returns, leaves exactly these pages unmapped, and
    gives back exactly the page tables that became empty and, if asked to, the frames
    the pages were mapped to; the address space keeps its invariant. *)
Theorem unmap_correct (a : A) (p : Paging) (s e : Z) :
  fa_inv a -> paging_wf a p -> 0 <= s < e -> e <= space_pages p -> unmappable a p s e ->
  exists p' a', paging_unmap a p (mkRange s e) free_physical = Ret (p', a') /\
    fa_inv a' /\ paging_wf a' p' /\
    (forall pg, 0 <= pg < space_pages p -> lookup_page (paging_level p') (root_table p') pg
       = if decide (s <= pg < e) then None else lookup_page (paging_level p) (root_table p) pg) /\
    (forall f, fa_is_free a' f <-> fa_is_free a f \/ (f ∈ paging_frames p /\ f ∉ paging_frames p') \/
       page_frame_freed (paging_level p) (root_table p) s (e - s) f).
Proof.
  intros Hinv Hp Hs He Hu. destruct (paging_unmap_spec a p s e Hinv Hp Hs He Hu)
    as (p' & a' & H1 & H2 & H3 & _ & _ & H4). by exists p', a'.
Qed.

End Unmap.

(** A two-level space with the one page 0 mapped to frame 9. *)
Definition example_small_space : Paging :=
  mkPaging 1 5 (Some (mkPte 6 3, mkPte 9 3 :: replicate (Z.to_nat 511) pte_zero)
                :: replicate (Z.to_nat 511) None).

Lemma example_small_frames : paging_frames example_small_space = [5; 6].
Proof. reflexivity. Qed.

Lemma example_small_wf : paging_wf example_frames example_small_space.
Proof.
  constructor.
  - split; [reflexivity|]. constructor; [split; [by vm_compute|reflexivity]|].
    by apply Forall_replicate.
  - rewrite example_small_frames. apply NoDup_cons. split; [by rewrite list_elem_of_singleton|apply NoDup_singleton].
  - rewrite example_small_frames, !Forall_cons, !example_free. split_and!; [lia..|constructor].
Qed.

Lemma unmap_correct_witness :
  exists p' a', paging_unmap example_frames example_small_space (mkRange 0 1) true = Ret (p', a') /\
    paging_wf a' p' /\ fa_is_free a' 9.
Proof.
  destruct (unmap_correct true example_frames example_small_space 0 1 example_inv example_small_wf)
    as (p' & a' & H1 & _ & H2 & _ & H3); [lia|by vm_compute| |].
  - assert (Hl : lookup_page 1 (root_table example_small_space) 0 = Some (mkPte 9 3)) by reflexivity.
    constructor.
    + intros pg Hpg. assert (pg = 0) as -> by lia. exists (mkPte 9 3). split; [exact Hl|]. intros _.
      rewrite example_small_frames, example_free, !not_elem_of_cons. simpl. split_and!; [lia..|apply not_elem_of_nil].
    + lia.
  - exists p', a'. split; [exact H1|]. split; [exact H2|]. apply H3. right. right.
    split; [reflexivity|]. exists 0, (mkPte 9 3). split; [lia|]. split; reflexivity.
Defined.

(** ** Ranges with unmapped pages *)

(** A two-level space in which only the pages of the second table, 512 to 1023, are
    mapped. *)
Definition example_sparse_space : Paging :=
  mkPaging 1 5 (None :: Some (mkPte 6 3, replicate (Z.to_nat 512) (mkPte 9 3))
                :: replicate (Z.to_nat 510) None).

(** Unmapping a range that starts below an unused table entry skips the entry without
    skipping its pages: of the range 511 to 513 the mapped page 512 stays mapped, and
    page 1023, outside the range, is unmapped instead. *)
Theorem sparse_unmap_hits_wrong_page :
  exists p' a', paging_unmap example_frames example_sparse_space (mkRange 511 513) false = Ret (p', a') /\
    paging_translate p' (512 * PAGE_SIZE) = Ret (Some (start_address 9)) /\
    paging_translate example_sparse_space (1023 * PAGE_SIZE) = Ret (Some (start_address 9)) /\
    paging_translate p' (1023 * PAGE_SIZE) = Ret None.
Proof.
  destruct (paging_unmap example_frames example_sparse_space (mkRange 511 513) false) as [[p' a']|] eqn:He;
    [|by vm_compute in He].
  exists p', a'. split; [done|]. vm_compute in He. injection He as <- <-. by vm_compute.
Qed.

(** Changing the flags of a range also sets the flags of unused last-level entries:
    a page that was not mapped is afterwards mapped to physical frame 0. *)
Theorem set_flags_maps_frame_zero :
  let p := mkPaging 0 5 (zero_table 0) in
  paging_translate p (3 * PAGE_SIZE) = Ret None /\
  paging_translate (paging_set_flags p (mkRange 3 4) 3) (3 * PAGE_SIZE) = Ret (Some 0).
Proof. by vm_compute. Qed.
