(* ===== verification/Vma.v ===== *)
(** * Virtual memory areas ([os/kernel/src/memory/vma.rs])

    An area is a page range of one address space with a type and a 16-byte tag.
    Bytes and pages are numbers; [start] and [end] are addresses. *)

From S2P Require Import Prelude Intervals Dram Paging.

Open Scope Z_scope.

(* [os/kernel/src/memory/vma.rs:18-29] VmaType *)
Inductive VmaType :=
| Code | Heap | Environment | DeviceMemory | UserStack | KernelStack | KernelBuffer | Anonymous
| SharedMemory (id : Z).

#[global] Instance vma_type_eq_dec : EqDecision VmaType.
Proof. solve_decision. Defined.
#[global] Instance memory_space_eq_dec : EqDecision MemorySpace.
Proof. solve_decision. Defined.

(* os/kernel/src/memory/vma.rs: TAG_SIZE *)
Definition TAG_SIZE : nat := 16.

(* [os/kernel/src/memory/vma.rs:33-39] VirtualMemoryArea *)
Record VirtualMemoryArea := mkVma {
  vma_space : MemorySpace;
  vma_range : range;
  vma_typ : VmaType;
  vma_tag : list Z
}.

#[global] Instance vma_eq_dec : EqDecision VirtualMemoryArea.
Proof. solve_decision. Defined.

Definition DASH : Z := 45.
Definition DIGIT_0 : Z := 48.

(** [while i < len { tag[i] = tag_bytes[i]; i += 1; }], [n] iterations being left. *)
(* os/kernel/src/memory/vma.rs: VirtualMemoryArea::new_with_tag *)
Fixpoint copy_tag (n i : nat) (tag tag_bytes : list Z) : outcome (list Z) :=
  match n with
  | O => Ret tag
  | S n' =>
      b ← arr_get tag_bytes i;
      tag' ← arr_set tag i b;
      copy_tag n' (S i) tag' tag_bytes
  end.

(* [os/kernel/src/memory/vma.rs:43-56] VirtualMemoryArea::new_with_tag *)
Definition new_with_tag (space : MemorySpace) (r : range) (typ : VmaType) (tag_bytes : list Z)
    : outcome VirtualMemoryArea :=
  let tag := replicate TAG_SIZE DASH in
  let len := if (TAG_SIZE <? length tag_bytes)%nat then TAG_SIZE else length tag_bytes in
  tag' ← copy_tag len 0 tag tag_bytes;
  Ret (mkVma space r typ tag').

(** [while num > 0 && i > 0 { i -= 1; tag[i] = b'0' + (num % 10) as u8; num /= 10; }] *)
(* os/kernel/src/memory/vma.rs: VirtualMemoryArea::new_with_id *)
Fixpoint write_digits (i : nat) (num : Z) (tag : list Z) : outcome (list Z) :=
  match i with
  | O => Ret tag
  | S i' =>
      if num >? 0 then
        tag' ← arr_set tag i' (DIGIT_0 + num mod 10);
        write_digits i' (num / 10) tag'
      else Ret tag
  end.

(* [os/kernel/src/memory/vma.rs:60-72] VirtualMemoryArea::new_with_id *)
Definition new_with_id (space : MemorySpace) (r : range) (typ : VmaType) (tid : Z)
    : outcome VirtualMemoryArea :=
  tag ← write_digits TAG_SIZE tid (replicate TAG_SIZE DASH);
  Ret (mkVma space r typ tag).

(* os/kernel/src/memory/vma.rs: VirtualMemoryArea::start *)
Definition vma_start (v : VirtualMemoryArea) : Z := page_address (r_start (vma_range v)).

(* os/kernel/src/memory/vma.rs: VirtualMemoryArea::end *)
Definition vma_end (v : VirtualMemoryArea) : Z := page_address (r_end (vma_range v)).

(* os/kernel/src/memory/vma.rs: VirtualMemoryArea::overlaps_with *)
Definition overlaps_with (v other : VirtualMemoryArea) : bool :=
  (r_end (vma_range v) >? r_start (vma_range other)) && (r_start (vma_range v) <? r_end (vma_range other)).

(** Bits of the [x86_64] crate's [PageTableFlags]. *)
Definition PRESENT : Z := 1.
Definition WRITABLE : Z := 2.
Definition USER_ACCESSIBLE : Z := 4.
Definition NO_CACHE : Z := 16.

(* [os/kernel/src/memory/vma.rs:95-105] VirtualMemoryArea::check_and_enforce_consistency *)
Definition check_and_enforce_consistency (v : VirtualMemoryArea) (flags : Z) : Z :=
  match vma_space v with
  | User => Z.lor flags USER_ACCESSIBLE
  | Kernel => Z.ldiff flags USER_ACCESSIBLE
  end.

(* os/kernel/src/memory/vma.rs: VirtualMemoryArea::is_equivalent_to *)
Definition is_equivalent_to (v other : VirtualMemoryArea) : bool :=
  (vma_start v =? vma_start other) && (vma_end v =? vma_end other) &&
  bool_decide (vma_typ v = vma_typ other) && bool_decide (vma_space v = vma_space other) &&
  bool_decide (vma_tag v = vma_tag other).

(** ** Tags *)

Lemma copy_tag_eq n : forall (pre rest tag_bytes : list Z),
  (n <= length rest)%nat -> (length pre + n <= length tag_bytes)%nat ->
  copy_tag n (length pre) (pre ++ rest) tag_bytes
    = Ret (pre ++ take n (drop (length pre) tag_bytes) ++ drop n rest).
Proof.
  induction n as [|n IH]; intros pre rest tb Hr Ht; [done|]. destruct rest as [|x rest]; simpl in Hr; [lia|].
  destruct (lookup_lt_is_Some_2 tb (length pre)) as [b Hb]; [lia|]. cbn [copy_tag].
  rewrite (arr_get_ok _ _ _ Hb). simpl. rewrite arr_set_middle by done. simpl.
  specialize (IH (pre ++ [b]) rest tb). rewrite length_app, <- app_assoc in IH. simpl in IH.
  rewrite Nat.add_1_r in IH. rewrite IH by lia.
  rewrite (drop_S tb b (length pre) Hb). simpl. by rewrite <- app_assoc.
Qed.

(** The tag of an area is its name, cut off after 16 bytes and filled up with dashes. *)
Lemma new_with_tag_eq space r typ tb :
  new_with_tag space r typ tb
    = Ret (mkVma space r typ (take TAG_SIZE tb ++ replicate (TAG_SIZE - length tb) DASH)).
Proof.
  unfold new_with_tag. set (len := if (TAG_SIZE <? length tb)%nat then TAG_SIZE else length tb).
  assert (Hlen : len = Nat.min TAG_SIZE (length tb))
    by (unfold len; destruct (Nat.ltb_spec TAG_SIZE (length tb)); lia).
  pose proof (copy_tag_eq len [] (replicate TAG_SIZE DASH) tb) as Hc. rewrite length_replicate in Hc.
  cbn [app length] in Hc. rewrite Hc by lia. cbn [mbind outcome_bind].
  do 2 f_equal. rewrite drop_0, drop_replicate. f_equal.
  - rewrite Hlen. destruct (Nat.min_spec TAG_SIZE (length tb)) as [[? ->]|[? ->]]; [done|].
    by rewrite !take_ge by lia.
  - f_equal. lia.
Qed.

(** The number a string of ASCII digits denotes. *)
Definition digits_value (ds : list Z) : Z := foldl (fun n d => 10 * n + (d - DIGIT_0)) 0 ds.

Definition is_digit (d : Z) : Prop := DIGIT_0 <= d <= DIGIT_0 + 9.

Lemma digits_value_snoc ds d : digits_value (ds ++ [d]) = 10 * digits_value ds + (d - DIGIT_0).
Proof. unfold digits_value. by rewrite foldl_app. Qed.

Lemma write_digits_spec i : forall num (rest : list Z), 0 <= num < 10 ^ Z.of_nat i ->
  exists ds, write_digits i num (replicate i DASH ++ rest)
      = Ret (replicate (i - length ds) DASH ++ ds ++ rest) /\
    (length ds <= i)%nat /\ Forall is_digit ds /\ digits_value ds = num /\ head ds <> Some DIGIT_0.
Proof.
  induction i as [|i IH]; intros num rest Hnum.
  - exists []. simpl in *. split_and!; [done|done|done|unfold digits_value; simpl; lia|done].
  - cbn [write_digits]. destruct (Z.gtb_spec num 0) as [Hgt|Hle].
    + rewrite replicate_S_end, <- app_assoc. simpl app.
      rewrite arr_set_middle by (by rewrite length_replicate). cbn [mbind outcome_bind].
      destruct (IH (num / 10) ((DIGIT_0 + num mod 10) :: rest)) as (ds & -> & Hl & Hd & Hv & Hh).
      { split; [apply Z.div_pos; lia|]. apply Z.div_lt_upper_bound; [lia|].
        rewrite Nat2Z.inj_succ, Z.pow_succ_r in Hnum by lia. lia. }
      pose proof (Z.mod_pos_bound num 10 ltac:(lia)). pose proof (Z.div_mod num 10 ltac:(lia)).
      exists (ds ++ [DIGIT_0 + num mod 10]). rewrite length_app, <- !app_assoc. simpl length.
      split_and!; [f_equal; f_equal; f_equal; lia|lia| |rewrite digits_value_snoc, Hv; lia|].
      * apply Forall_app. split; [done|]. constructor; [unfold is_digit; lia|constructor].
      * destruct ds as [|d ds]; [|done]. simpl. unfold digits_value in Hv. simpl in Hv.
        injection as Hm. unfold DIGIT_0 in *. lia.
    + assert (num = 0) as -> by lia. exists []. rewrite Nat.sub_0_r.
      split_and!; [done|simpl; lia|constructor|done|done].
Qed.

(** The tag made from a thread id is its decimal representation, aligned to the right
    behind dashes; every id below 10^16 can be read off the tag. *)
Theorem new_with_id_tag (space : MemorySpace) (r : range) (typ : VmaType) (tid : Z) :
  0 <= tid < 10 ^ 16 ->
  exists ds, new_with_id space r typ tid
      = Ret (mkVma space r typ (replicate (TAG_SIZE - length ds) DASH ++ ds)) /\
    (length ds <= TAG_SIZE)%nat /\ Forall is_digit ds /\ digits_value ds = tid /\ head ds <> Some DIGIT_0.
Proof.
  intros Ht. destruct (write_digits_spec TAG_SIZE tid [] Ht) as (ds & Hw & Hds).
  exists ds. rewrite !app_nil_r in Hw. unfold new_with_id. by rewrite Hw.
Qed.

(** ** Overlap *)

Lemma overlaps_with_spec v w :
  nonempty (vma_range v) -> nonempty (vma_range w) ->
  overlaps_with v w = true <-> exists pg, in_range pg (vma_range v) /\ in_range pg (vma_range w).
Proof.
  unfold overlaps_with, nonempty, in_range. intros Hv Hw. rewrite andb_true_iff. split.
  - intros [H1%Z.gtb_lt H2%Z.ltb_lt]. exists (Z.max (r_start (vma_range v)) (r_start (vma_range w))). lia.
  - intros (pg & H1 & H2). split; [apply Z.gtb_lt|apply Z.ltb_lt]; lia.
Qed.

(** Flags of user areas let user mode in, flags of kernel areas keep it out; nothing
    else changes. *)
Lemma consistency_bits v flags i :
  Z.testbit (check_and_enforce_consistency v flags) i
    = if decide (i = 2) then bool_decide (vma_space v = User) else Z.testbit flags i.
Proof.
  unfold check_and_enforce_consistency, USER_ACCESSIBLE. change 4 with (2 ^ 2).
  destruct (decide (i < 0)); [destruct (vma_space v), (decide (i = 2)); try lia; by rewrite !Z.testbit_neg_r by lia|].
  destruct (vma_space v).
  - rewrite Z.ldiff_spec, Z.pow2_bits_eqb by lia. destruct (decide (i = 2)) as [->|Hi].
    + by rewrite andb_false_r.
    + rewrite (proj2 (Z.eqb_neq 2 i)) by lia. by rewrite andb_true_r.
  - rewrite Z.lor_spec, Z.pow2_bits_eqb by lia. destruct (decide (i = 2)) as [->|Hi].
    + by rewrite orb_true_r.
    + rewrite (proj2 (Z.eqb_neq 2 i)) by lia. by rewrite orb_false_r.
Qed.
