(* ===== verification/Vmm.v ===== *)
(** * Virtual address spaces ([os/kernel/src/memory/vmm.rs])

    The areas of an address space, kept in a [BTreeMap] sorted by start address,
    and the operations that reserve areas and map memory into them through the
    page tables of [Paging].  The frame allocator state is threaded through the
    operations that allocate, as in [Paging].

    [VirtAddr::new] and the addition on [VirtAddr] of the [x86_64] crate panic on
    addresses that are not canonical; this is written out where it can happen.
    Copying bytes through raw pointers is not modelled, the checks in front of it
    are. *)

From S2P Require Import Prelude Errno Intervals Dram FrameAlloc Paging Vma.

Open Scope Z_scope.

(** ** Sorted maps

    What the code uses of [BTreeMap<VirtAddr, _>]: a list of entries with
    ascending keys. *)

(** [map.insert(k, v)] *)
Fixpoint bt_insert {V} (k : Z) (v : V) (m : list (Z * V)) : list (Z * V) :=
  match m with
  | [] => [(k, v)]
  | (k', v') :: m' =>
      if k <? k' then (k, v) :: m
      else if k =? k' then (k, v) :: m'
      else (k', v') :: bt_insert k v m'
  end.

(** [map.get(&k)] *)
Definition bt_get {V} (k : Z) (m : list (Z * V)) : option V :=
  snd <$> head (filter (fun e => e.1 = k) m).

(** [map.range(..=k).next_back()] *)
Definition bt_last_le {V} (k : Z) (m : list (Z * V)) : option (Z * V) :=
  last (filter (fun e => e.1 <= k) m).

(** [map.range(k..).next()] *)
Definition bt_first_ge {V} (k : Z) (m : list (Z * V)) : option (Z * V) :=
  head (filter (fun e => k <= e.1) m).

(** [map.range(lo..hi)] *)
Definition bt_range {V} (lo hi : Z) (m : list (Z * V)) : list (Z * V) :=
  filter (fun e => lo <= e.1 < hi) m.

(** ** Addresses *)

(** 48-bit virtual addresses are sign extended. *)
Definition canonical (addr : Z) : bool := (addr <? 2 ^ 47) || (2 ^ 64 - 2 ^ 47 <=? addr).

(** [VirtAddr::new] *)
Definition virt_addr_new (addr : Z) : outcome Z :=
  if canonical addr then Ret addr else Panic "address passed to VirtAddr::new must be canonical".

(** [VirtAddr + u64] *)
Definition virt_addr_add (addr n : Z) : outcome Z :=
  s ← expect (checked_add addr n) "attempt to add with overflow";
  virt_addr_new s.

(** [PhysAddr::new]: physical addresses have 52 bits. *)
Definition phys_addr_new (addr : Z) : outcome Z :=
  if addr <? 2 ^ 52 then Ret addr else Panic "address passed to PhysAddr::new must not contain any bits in 52 to 64".

(** [addr & !(PAGE_SIZE - 1)] after adding [PAGE_SIZE - 1] *)
(* os/kernel/src/memory/vmm.rs: VirtualAddressSpace::align_up *)
Definition align_up (addr : Z) : outcome Z :=
  s ← expect (checked_add addr (PAGE_SIZE - 1)) "attempt to add with overflow";
  Ret (Z.ldiff s (PAGE_SIZE - 1)).

(** [PhysAddr::align_up] rounds up to the next multiple. *)
(* [os/kernel/src/memory/mod.rs:89-94] frame_from_u64 *)
Definition frame_from_u64 (addr : Z) : outcome (option Z) :=
  pa ← phys_addr_new addr;
  pa' ← phys_addr_new ((pa + PAGE_SIZE - 1) / PAGE_SIZE * PAGE_SIZE);
  Ret (from_start_address pa').

(* os/kernel/src/memory/pages.rs: page_from_u64 *)
Definition page_from_u64 (addr : Z) : outcome (option Z) :=
  va ← virt_addr_new addr;
  Ret (from_start_address va).

(* os/kernel/src/consts.rs: USER_SPACE_START *)
Definition USER_SPACE_START : Z := 0x10000000000.

(** [linear_address_bits] is what the processor reports. *)
(* os/kernel/src/memory/vmm.rs: last_usable_virtual_address *)
Definition last_usable_virtual_address (linear_address_bits : Z) : Z := 2 ^ (linear_address_bits - 1) - 1.

(* [os/kernel/src/memory/vmm.rs:91-101] pfr_from_pr_identity *)
Definition pfr_from_pr_identity (pr : range) : outcome range :=
  sa ← phys_addr_new (page_address (r_start pr));
  start_frame ← expect (from_start_address sa) "pr.start is not page aligned";
  ea ← phys_addr_new (page_address (r_end pr));
  end_frame ← expect (from_start_address ea) "pr.end is not page aligned";
  Ret (mkRange start_frame end_frame).

(* [os/kernel/src/memory/vmm.rs:104-109] VirtualAddressSpace *)
Record VirtualAddressSpace := mkVas {
  virtual_memory_areas : list (Z * VirtualMemoryArea);
  page_tables : Paging;
  first_usable_user_addr : Z;
  last_usable_user_addr : Z
}.

Definition with_areas (s : VirtualAddressSpace) (areas : list (Z * VirtualMemoryArea)) : VirtualAddressSpace :=
  mkVas areas (page_tables s) (first_usable_user_addr s) (last_usable_user_addr s).
Definition with_tables (s : VirtualAddressSpace) (p : Paging) : VirtualAddressSpace :=
  mkVas (virtual_memory_areas s) p (first_usable_user_addr s) (last_usable_user_addr s).

(* [os/kernel/src/memory/vmm.rs:113-123] VirtualAddressSpace::new *)
Definition vas_new (linear_address_bits : Z) (p : Paging) : outcome VirtualAddressSpace :=
  first ← virt_addr_new USER_SPACE_START;
  last ← virt_addr_new (last_usable_virtual_address linear_address_bits);
  Ret (mkVas [] p first last).

(** ** Reserving areas *)

(** The bounds test of [alloc_at]. *)
(* [os/kernel/src/memory/vmm.rs:226-243] VirtualAddressSpace::alloc_at *)
Definition within_bounds (s : VirtualAddressSpace) (space : MemorySpace) (start_addr end_addr : Z) : bool :=
  match space with
  | User => negb (start_addr <? first_usable_user_addr s) && negb (end_addr >? last_usable_user_addr s)
  | Kernel => negb (start_addr >=? first_usable_user_addr s) && negb (end_addr >? first_usable_user_addr s)
  end.

(* [os/kernel/src/memory/vmm.rs:210-270] VirtualAddressSpace::alloc_at *)
Definition alloc_at (s : VirtualAddressSpace) (first_page num_pages : Z) (space : MemorySpace)
    (typ : VmaType) (tag : list Z) : outcome (option VirtualMemoryArea * VirtualAddressSpace) :=
  if num_pages =? 0 then Ret (None, s) else
  let start_addr := page_address first_page in
  match checked_mul num_pages PAGE_SIZE with
  | None => Ret (None, s)
  | Some size_bytes =>
      match checked_add start_addr size_bytes with
      | None => Ret (None, s)
      | Some end_u64 =>
          end_addr ← virt_addr_new end_u64;
          match from_start_address end_addr with
          | None => Ret (None, s)
          | Some end_page =>
              if negb (within_bounds s space start_addr end_addr) then Ret (None, s) else
              new_vma ← new_with_tag space (mkRange first_page end_page) typ tag;
              let vmas := virtual_memory_areas s in
              if match bt_last_le start_addr vmas with
                 | Some (_, prev) => vma_end prev >? start_addr
                 | None => false
                 end then Ret (None, s)
              else if match bt_first_ge start_addr vmas with
                      | Some (next_start, _) => end_addr >? next_start
                      | None => false
                      end then Ret (None, s)
              else Ret (Some new_vma, with_areas s (bt_insert start_addr new_vma vmas))
          end
      end
  end.

(** What the search loop of [alloc] found: a gap that starts at the address, no room,
    or the address behind the last area. *)
Inductive scan_result := Gap (addr : Z) | NoRoom | Tail (addr : Z).

(** The loop over the areas of the search range. *)
(* [os/kernel/src/memory/vmm.rs:300-333] VirtualAddressSpace::alloc *)
Fixpoint alloc_scan (size_bytes search_end current : Z) (areas : list (Z * VirtualMemoryArea))
    : outcome scan_result :=
  match areas with
  | [] => Ret (Tail current)
  | (_, vma) :: rest =>
      if vma_start vma >=? vma_end vma then Panic "VMA start address is not less than VMA end address" else
      match from_start_address (vma_start vma), from_start_address (vma_end vma) with
      | Some _, Some _ =>
          alloc_end ← virt_addr_add current size_bytes;
          if alloc_end <=? vma_start vma then Ret (Gap current) else
          let current' := if vma_end vma >? current then vma_end vma else current in
          if current' >=? search_end then Ret NoRoom
          else alloc_scan size_bytes search_end current' rest
      | _, _ => Panic "misaligned VMA"
      end
  end.

(* [os/kernel/src/memory/vmm.rs:280-353] VirtualAddressSpace::alloc *)
Definition alloc (s : VirtualAddressSpace) (num_pages : Z) (space : MemorySpace) (typ : VmaType)
    (tag : list Z) : outcome (option VirtualMemoryArea * VirtualAddressSpace) :=
  if num_pages =? 0 then Ret (None, s) else
  match checked_mul num_pages PAGE_SIZE with
  | None => Ret (None, s)
  | Some size_bytes =>
      let '(lo, hi) := match space with
                       | User => (first_usable_user_addr s, last_usable_user_addr s)
                       | Kernel => (0, first_usable_user_addr s)
                       end in
      if lo >=? hi then Ret (None, s) else
      found ← alloc_scan size_bytes hi lo (bt_range lo hi (virtual_memory_areas s));
      match found with
      | Gap current =>
          match from_start_address current with
          | None => Ret (None, s)
          | Some candidate_page => alloc_at s candidate_page num_pages space typ tag
          end
      | NoRoom => Ret (None, s)
      | Tail current =>
          alloc_end ← virt_addr_add current size_bytes;
          if alloc_end <=? hi then
            match from_start_address current with
            | None => Ret (None, s)
            | Some candidate_page => alloc_at s candidate_page num_pages space typ tag
            end
          else Ret (None, s)
      end
  end.

(* [os/kernel/src/memory/vmm.rs:137-147] VirtualAddressSpace::alloc_vma *)
Definition alloc_vma (s : VirtualAddressSpace) (start_page : option Z) (num_pages : Z)
    (space : MemorySpace) (typ : VmaType) (tag : list Z)
    : outcome (option VirtualMemoryArea * VirtualAddressSpace) :=
  if num_pages =? 0 then Ret (None, s) else
  match start_page with
  | Some first_page => alloc_at s first_page num_pages space typ tag
  | None => alloc s num_pages space typ tag
  end.

(* [os/kernel/src/memory/vmm.rs:640-651] VirtualAddressSpace::is_address_within_vma *)
Definition is_address_within_vma (s : VirtualAddressSpace) (address : Z) : outcome (option VirtualMemoryArea) :=
  vaddr ← virt_addr_new address;
  Ret (match bt_last_le vaddr (virtual_memory_areas s) with
       | Some (_, vma) => if vaddr <? vma_end vma then Some vma else None
       | None => None
       end).

(** ** Access from system calls *)

Inductive UserCopyError := NoUserAccess | PageNotMapped.

(* [os/kernel/src/memory/vmm.rs:370-380] VirtualAddressSpace::access_ok *)
Definition access_ok (s : VirtualAddressSpace) (addr len : Z) : bool :=
  if len =? 0 then false
  else match checked_add addr (len - 1) with
       | Some end_addr => (first_usable_user_addr s <=? addr) && (end_addr <=? last_usable_user_addr s)
       | None => false
       end.

(* [os/kernel/src/memory/vmm.rs:382-390] VirtualAddressSpace::ensure_user_page_is_mapped *)
Definition ensure_user_page_is_mapped (s : VirtualAddressSpace) (page : Z) : outcome bool :=
  phys ← paging_translate (page_tables s) (page_address page);
  Ret (match phys with Some _ => true | None => false end).

(** [for page in first_page..=last_page], [n] pages being left. *)
(* os/kernel/src/memory/vmm.rs: VirtualAddressSpace::copy_bytes_to_user *)
Fixpoint check_pages (s : VirtualAddressSpace) (n : nat) (page : Z) : outcome (result UserCopyError unit) :=
  match n with
  | O => Ret (Ok tt)
  | S n' =>
      mapped ← ensure_user_page_is_mapped s page;
      if mapped : bool then check_pages s n' (page + 1) else Ret (Err PageNotMapped)
  end.

(** The checks of [copy_bytes_to_user] and [copy_bytes_from_user], which are the same
    for destination and source; [Ok] is where the bytes are copied. *)
(* [os/kernel/src/memory/vmm.rs:392-424] VirtualAddressSpace::copy_bytes_to_user, copy_bytes_from_user *)
Definition copy_bytes_user (s : VirtualAddressSpace) (addr size : Z) : outcome (result UserCopyError unit) :=
  if negb (access_ok s addr size) then Ret (Err NoUserAccess) else
  let first_page := addr / PAGE_SIZE in
  last_addr ← virt_addr_add addr size;
  let last_page := (last_addr - 1) / PAGE_SIZE in
  check_pages s (Z.to_nat (last_page - first_page + 1)) first_page.

(** ** Mapping areas *)

(** [PRESENT | WRITABLE | USER_ACCESSIBLE] *)
Definition USER_FLAGS : Z := Z.lor (Z.lor PRESENT WRITABLE) USER_ACCESSIBLE.

Section Mapping.
Context {A : Type} `{FA : FrameAllocator A}.

(* os/kernel/src/memory/vmm.rs: clone_address_space *)
Definition clone_address_space (a : A) (other : VirtualAddressSpace) : outcome (Paging * A) :=
  from_other a (page_tables other).

(** [dram_limit] is [dram::limit()]. *)
(* [os/kernel/src/memory/vmm.rs:71-82] create_kernel_address_space *)
Definition create_kernel_address_space (a : A) (dram_limit : Z) : outcome (Paging * A) :=
  '(p, a1) ← paging_new a 3;
  max_addr ← virt_addr_new dram_limit;
  paging_map a1 p (mkRange 0 (max_addr / PAGE_SIZE)) Kernel (Z.lor PRESENT WRITABLE).

(* os/kernel/src/memory/vmm.rs: VirtualAddressSpace::alloc2_pf_for_vma *)
Definition alloc2_pf_for_vma (a : A) (vma : VirtualMemoryArea) : outcome (range * A) :=
  fa_alloc a (range_len (vma_range vma)).

(* [os/kernel/src/memory/vmm.rs:157-162] VirtualAddressSpace::alloc_pfr_for_partial_vma *)
Definition alloc_pfr_for_partial_vma (a : A) (vma : VirtualMemoryArea) (pages : range)
    : outcome (option range * A) :=
  if (r_start pages <? r_start (vma_range vma)) || (r_end pages >? r_end (vma_range vma))
  then Ret (None, a)
  else '(r, a') ← fa_alloc a (range_len pages); Ret (Some r, a').

(** [Err(-1)] is the only error. *)
(* [os/kernel/src/memory/vmm.rs:172-204] VirtualAddressSpace::map_pfr_for_partial_vma *)
Definition map_pfr_for_partial_vma (a : A) (s : VirtualAddressSpace) (vma : VirtualMemoryArea)
    (frames pages : range) (flags : Z) : outcome (result Z unit * VirtualAddressSpace * A) :=
  if r_start pages =? r_end pages then Ret (Err (-1), s, a)
  else if negb (range_len frames =? range_len pages) then Ret (Err (-1), s, a)
  else
    let flags' := Z.lor (check_and_enforce_consistency vma flags) PRESENT in
    if (r_start pages <? r_start (vma_range vma)) || (r_end pages >? r_end (vma_range vma))
    then Ret (Err (-1), s, a)
    else
      '(p, a') ← paging_map_physical a (page_tables s) frames pages (vma_space vma) flags';
      Ret (Ok tt, with_tables s p, a').

(* os/kernel/src/memory/vmm.rs: VirtualAddressSpace::map_pfr_for_vma *)
Definition map_pfr_for_vma (a : A) (s : VirtualAddressSpace) (vma : VirtualMemoryArea) (frames : range)
    (flags : Z) : outcome (result Z unit * VirtualAddressSpace * A) :=
  map_pfr_for_partial_vma a s vma frames (vma_range vma) flags.

(* [os/kernel/src/memory/vmm.rs:356-368] VirtualAddressSpace::map_partial_vma *)
Definition map_partial_vma (a : A) (s : VirtualAddressSpace) (vma : VirtualMemoryArea) (pages : range)
    (space : MemorySpace) (flags : Z) : outcome (VirtualAddressSpace * A) :=
  found_vma ← expect (bt_get (vma_start vma) (virtual_memory_areas s)) "tried to map a non-existent VMA!";
  if negb (is_equivalent_to vma found_vma) then Panic "Tried to map pages in a not existing VMA" else
  _ ← rust_assert (vma_start vma <=? page_address (r_start pages)) "assertion failed: start";
  _ ← rust_assert (page_address (r_end pages) <=? vma_end vma) "assertion failed: end";
  '(p, a') ← paging_map a (page_tables s) pages space flags;
  Ret (with_tables s p, a').

(* os/kernel/src/memory/vmm.rs: VirtualAddressSpace::set_flags *)
Definition vas_set_flags (s : VirtualAddressSpace) (pages : range) (flags : Z) : VirtualAddressSpace :=
  with_tables s (paging_set_flags (page_tables s) pages flags).

(* [os/kernel/src/memory/vmm.rs:455-486] VirtualAddressSpace::kernel_map_devm_identity *)
Definition kernel_map_devm_identity (a : A) (s : VirtualAddressSpace) (start_phys_addr end_phys_addr flags : Z)
    (typ : VmaType) (tag : list Z) : outcome (range * VirtualAddressSpace * A) :=
  _ ← rust_assert (end_phys_addr >? start_phys_addr) "'end_phys_addr' must be larger than 'start_phys_addr'";
  sf ← frame_from_u64 start_phys_addr;
  start_page_frame ← expect sf "start_phys_addr is not page aligned";
  aligned_end ← align_up end_phys_addr;
  ef ← frame_from_u64 aligned_end;
  end_page_frame ← expect ef "end_phys_addr is not page aligned";
  sp ← page_from_u64 start_phys_addr;
  start_page_addr ← expect sp "start_phys_addr is not page aligned";
  ep ← page_from_u64 aligned_end;
  end_page_addr ← expect ep "end_phys_addr is not page aligned";
  let pr := mkRange start_page_addr end_page_addr in
  '(v, s1) ← alloc_vma s (Some start_page_addr) (range_len pr) Kernel typ tag;
  vma ← expect v "alloc_vma failed";
  '(r, s2, a') ← map_pfr_for_vma a s1 vma (mkRange start_page_frame end_page_frame) flags;
  match r with
  | Ok _ => Ret (pr, s2, a')
  | Err _ => Panic "map_pfr_for_vma failed in map_devmem_identity"
  end.

(* [os/kernel/src/memory/vmm.rs:490-512] VirtualAddressSpace::kernel_alloc_map_identity *)
Definition kernel_alloc_map_identity (a : A) (s : VirtualAddressSpace) (num_pf flags : Z) (typ : VmaType)
    (tag : list Z) : outcome (range * VirtualAddressSpace * A) :=
  if num_pf =? 0 then Panic "kernel_alloc_map_identity: num_pf must be > 0" else
  '(pfr, a1) ← fa_alloc a num_pf;
  sp ← page_from_u64 (start_address (r_start pfr));
  start_page ← expect sp "pfr.start is not page aligned";
  '(v, s1) ← alloc_vma s (Some start_page) (range_len pfr) Kernel typ tag;
  vma ← expect v "alloc_vma failed";
  '(r, s2, a2) ← map_pfr_for_vma a1 s1 vma pfr flags;
  match r with
  | Ok _ => Ret (mkRange start_page (start_page + num_pf), s2, a2)
  | Err _ => Panic "map_pfr_for_vma failed"
  end.

(* [os/kernel/src/memory/vmm.rs:518-528] VirtualAddressSpace::user_alloc_map_full *)
Definition user_alloc_map_full (a : A) (s : VirtualAddressSpace) (start_page : option Z) (num_pages : Z)
    (typ : VmaType) (tag : list Z) : outcome (option VirtualMemoryArea * VirtualAddressSpace * A) :=
  '(v, s1) ← alloc_vma s start_page num_pages User typ tag;
  match v with
  | None => Ret (None, s1, a)
  | Some vma =>
      '(p, a') ← paging_map a (page_tables s1) (vma_range vma) User USER_FLAGS;
      Ret (Some vma, with_tables s1 p, a')
  end.

(** [vma.range.end - alloc_num_pages] and [vma.range.start + alloc_num_pages] stay inside
    the area, so they cannot panic. *)
(* [os/kernel/src/memory/vmm.rs:534-572] VirtualAddressSpace::user_alloc_map_partial *)
Definition user_alloc_map_partial (a : A) (s : VirtualAddressSpace) (start_page : option Z) (num_pages : Z)
    (typ : VmaType) (tag : list Z) (alloc_num_pages : Z) (alloc_downwards : bool)
    : outcome (option VirtualMemoryArea * VirtualAddressSpace * A) :=
  if alloc_num_pages >? num_pages then Ret (None, s, a) else
  '(v, s1) ← alloc_vma s start_page num_pages User typ tag;
  match v with
  | None => Ret (None, s1, a)
  | Some vma =>
      let alloc_page_range :=
        if alloc_downwards
        then mkRange (r_end (vma_range vma) - alloc_num_pages) (r_end (vma_range vma))
        else mkRange (r_start (vma_range vma)) (r_start (vma_range vma) + alloc_num_pages) in
      '(p, a') ← paging_map a (page_tables s1) alloc_page_range User USER_FLAGS;
      Ret (Some vma, with_tables s1 p, a')
  end.

(* [os/kernel/src/memory/vmm.rs:575-577] VirtualAddressSpace::get_phys *)
Definition get_phys (s : VirtualAddressSpace) (virt_addr : Z) : outcome (option Z) :=
  va ← virt_addr_new virt_addr;
  paging_translate (page_tables s) va.

(* os/kernel/src/memory/vmm.rs: VirtualAddressSpace::unmap_vma *)
Definition unmap_vma (a : A) (s : VirtualAddressSpace) (vma : VirtualMemoryArea) (free_physical : bool)
    : outcome (VirtualAddressSpace * A) :=
  '(p, a') ← paging_unmap a (page_tables s) (vma_range vma) free_physical;
  Ret (with_tables s p, a').

(** The loop of [drop] over the areas. *)
(* [os/kernel/src/memory/vmm.rs:662-666] VirtualAddressSpace::drop *)
Fixpoint drop_areas (a : A) (p : Paging) (areas : list (Z * VirtualMemoryArea)) : outcome (Paging * A) :=
  match areas with
  | [] => Ret (p, a)
  | (_, vma) :: rest =>
      '(p', a') ← (if bool_decide (vma_typ vma = DeviceMemory) then Ret (p, a)
                   else paging_unmap a p (vma_range vma) true);
      drop_areas a' p' rest
  end.

(** After the loop the page tables themselves are dropped ([Paging::drop], when this was
    the last reference to them). *)
(* [os/kernel/src/memory/vmm.rs:660-668] VirtualAddressSpace::drop *)
Definition vas_drop (a : A) (s : VirtualAddressSpace) : outcome A :=
  '(p, a') ← drop_areas a (page_tables s) (virtual_memory_areas s);
  paging_drop a' p.

End Mapping.

(** ** Copying into another address space

    Physical memory is a function from addresses to bytes; the source buffer, read
    through [src_ptr], is a list of bytes outside the frames written to. *)

(** [ptr::copy_from] and [ptr::write_bytes] *)
Definition write_mem (mem : Z -> Z) (addr : Z) (bytes : list Z) : Z -> Z :=
  fun x => if decide (addr <= x < addr + Z.of_nat (length bytes))
           then nth (Z.to_nat (x - addr)) bytes 0 else mem x.

(** [for _i in 0..pages_to_copy], [n] pages being left; returns the last destination. *)
(* [os/kernel/src/memory/vmm.rs:605-625] VirtualAddressSpace::copy_to_addr_space *)
Fixpoint copy_pages (dest_space : VirtualAddressSpace) (dest_start : Z) (src : list Z) (total : Z)
    (n : nat) (offset dest : Z) (mem : Z -> Z) : outcome (Z * (Z -> Z)) :=
  match n with
  | O => Ret (dest, mem)
  | S n' =>
      phys ← get_phys dest_space (dest_start + offset);
      dest' ← expect phys "get_phys failed";
      let bytes_to_copy := if total - offset <? PAGE_SIZE then total - offset else PAGE_SIZE in
      let source := take (Z.to_nat bytes_to_copy) (drop (Z.to_nat offset) src) in
      copy_pages dest_space dest_start src total n' (offset + bytes_to_copy) dest'
        (write_mem mem dest' source)
  end.

(* [os/kernel/src/memory/vmm.rs:582-636] VirtualAddressSpace::copy_to_addr_space *)
Definition copy_to_addr_space (src : list Z) (dest_space : VirtualAddressSpace) (dest_vma : VirtualMemoryArea)
    (total_bytes_to_copy : Z) (fill_up_with_zeroes : bool) (mem : Z -> Z) : outcome (Z -> Z) :=
  let pages_to_copy := if total_bytes_to_copy mod PAGE_SIZE =? 0 then total_bytes_to_copy / PAGE_SIZE
                       else total_bytes_to_copy / PAGE_SIZE + 1 in
  let vma_size := range_len (vma_range dest_vma) * PAGE_SIZE in
  if vma_size <? total_bytes_to_copy then Panic "Destination VMA is too small to hold the data to copy!" else
  let dest_start := page_address (r_start (vma_range dest_vma)) in
  phys ← get_phys dest_space dest_start;
  dest ← expect phys "get_phys failed";
  '(dest', mem') ← copy_pages dest_space dest_start src total_bytes_to_copy (Z.to_nat pages_to_copy) 0 dest mem;
  let tail := total_bytes_to_copy mod PAGE_SIZE in
  Ret (if fill_up_with_zeroes && negb (tail =? 0)
       then write_mem mem' (dest' + tail) (replicate (Z.to_nat (PAGE_SIZE - tail)) 0)
       else mem').

(** ** The system call that reserves memory *)

Definition MMAP_ANONYMOUS : Z := 0. (* bit numbers *)
Definition MMAP_POPULATE : Z := 1.

Definition tag_anon : list Z := [97; 110; 111; 110].
Definition tag_heap : list Z := [104; 101; 97; 112].

Section SystemCall.
Context {A : Type} `{FA : FrameAllocator A}.

(** [options as u8] keeps eight bits; [from_bits_truncate] ignores unknown ones. *)
(* [os/kernel/src/syscall/sys_vmem.rs:43-83] sys_map_memory *)
Definition sys_map_memory (a : A) (s : VirtualAddressSpace) (start size options : Z)
    : outcome (Z * VirtualAddressSpace * A) :=
  let m_flags := options mod 2 ^ 8 in
  start_page ← (if negb (start =? 0)
                then start_addr ← virt_addr_new start; Ret (Some (start_addr / PAGE_SIZE))
                else Ret None);
  let num_pages := (size + PAGE_SIZE - 1) / PAGE_SIZE in
  let '(vma_type, vma_tag) := if Z.testbit m_flags MMAP_ANONYMOUS then (Anonymous, tag_anon)
                              else (Heap, tag_heap) in
  '(v, s1) ← alloc_vma s start_page num_pages User vma_type vma_tag;
  match v with
  | None => Ret (errno_to_isize EUNKN, s1, a)
  | Some vma =>
      '(s2, a2) ← (if Z.testbit m_flags MMAP_POPULATE
                   then map_partial_vma a s1 vma (vma_range vma) User USER_FLAGS
                   else Ret (s1, a));
      Ret (as_isize (vma_start vma), s2, a2)
  end.

End SystemCall.
