(* ===== verification/VmmProofs.v ===== *)
(** * Theorems about virtual address spaces

    The invariant of the area map, the specification of area allocation as first
    fit, and the operations built on it. *)

From S2P Require Import Prelude Errno Intervals Dram FrameAlloc Paging PagingProofs PagingLife Vma Vmm.

Open Scope Z_scope.

(** ** The sorted map of areas *)

Abbreviation area := (Z * VirtualMemoryArea)%type (only parsing).

Definition area_range (e : area) : range := vma_range e.2.
Definition area_ranges (m : list area) : list range := area_range <$> m.

(** Areas are stored under their start address. *)
Definition keyed (m : list area) : Prop := Forall (fun e => e.1 = vma_start e.2) m.

(** Pages [\[p, p + n)] are free of areas. *)
Definition gap_at (m : list area) (p n : Z) : Prop :=
  forall e, e ∈ m -> p + n <= r_start (area_range e) \/ r_end (area_range e) <= p.

Lemma gap_at_cons e m p n :
  gap_at (e :: m) p n <-> (p + n <= r_start (area_range e) \/ r_end (area_range e) <= p) /\ gap_at m p n.
Proof.
  unfold gap_at. split.
  - intros H. split; [apply H; by left|]. intros e' He'. apply H. by right.
  - intros [H1 H2] e' [->|?]%elem_of_cons; auto.
Qed.

Lemma chain_areas_tail lo e m :
  chain 0 1 lo (area_ranges (e :: m)) ->
  lo <= r_start (area_range e) < r_end (area_range e) /\ chain 0 1 (r_end (area_range e)) (area_ranges m).
Proof. simpl. intros (? & ? & ?). split; [lia|done]. Qed.

Lemma chain_areas_elem lo m e :
  chain 0 1 lo (area_ranges m) -> e ∈ m -> lo <= r_start (area_range e) < r_end (area_range e).
Proof.
  revert lo. induction m as [|e' m IH]; intros lo H He; [by apply elem_of_nil in He|].
  apply chain_areas_tail in H as [H1 H2]. apply elem_of_cons in He as [->|He]; [done|].
  apply (IH _ H2) in He. lia.
Qed.

(** Two areas are the same or one lies before the other. *)
Lemma chain_areas_order lo m e e' :
  chain 0 1 lo (area_ranges m) -> e ∈ m -> e' ∈ m ->
  e = e' \/ r_end (area_range e) <= r_start (area_range e') \/ r_end (area_range e') <= r_start (area_range e).
Proof.
  revert lo. induction m as [|x m IH]; intros lo H He He'; [by apply elem_of_nil in He|].
  apply chain_areas_tail in H as [H1 H2].
  apply elem_of_cons in He as [->|He], He' as [He'|He']; subst; [auto| | |eauto].
  - right. left. apply (chain_areas_elem _ _ _ H2) in He'. lia.
  - right. right. apply (chain_areas_elem _ _ _ H2) in He. lia.
Qed.

Lemma last_le_spec k m : match bt_last_le (V := VirtualMemoryArea) k m with
  | Some e => e ∈ m /\ e.1 <= k
  | None => forall e, e ∈ m -> k < e.1
  end.
Proof.
  unfold bt_last_le. destruct (last _) as [e|] eqn:Hl.
  - apply last_Some_elem_of in Hl. apply list_elem_of_filter in Hl. tauto.
  - apply last_None in Hl. intros e He. destruct (Z.lt_ge_cases k e.1) as [?|Hge]; [done|].
    exfalso. apply (not_elem_of_nil e). rewrite <- Hl. by apply list_elem_of_filter.
Qed.

Lemma first_ge_spec k m : match bt_first_ge (V := VirtualMemoryArea) k m with
  | Some e => e ∈ m /\ k <= e.1
  | None => forall e, e ∈ m -> e.1 < k
  end.
Proof.
  unfold bt_first_ge. destruct (head _) as [e|] eqn:Hl.
  - apply head_Some_elem_of in Hl. apply list_elem_of_filter in Hl. tauto.
  - apply head_None in Hl. intros e He. destruct (Z.lt_ge_cases e.1 k) as [?|Hge]; [done|].
    exfalso. apply (not_elem_of_nil e). rewrite <- Hl. by apply list_elem_of_filter.
Qed.

(** The last entry at or below [k] lies behind all others at or below [k], and the first
    at or above [k] before all others at or above [k]. *)
Lemma last_le_max lo m k e e' :
  chain 0 1 lo (area_ranges m) -> bt_last_le k m = Some e -> e' ∈ m -> e'.1 <= k ->
  r_end (area_range e') <= r_end (area_range e).
Proof.
  unfold bt_last_le. revert lo. induction m as [|x m IH]; intros lo H Hl He' Hk; [done|].
  apply chain_areas_tail in H as [H1 H2]. rewrite filter_cons in Hl.
  assert (Htail : forall y, y ∈ m -> r_end (area_range x) < r_end (area_range y)).
  { intros y Hy. apply (chain_areas_elem _ _ _ H2) in Hy. lia. }
  case_decide as Hx.
  - rewrite last_cons in Hl. destruct (last (filter _ m)) as [y|] eqn:Hy.
    + injection Hl as ->. apply elem_of_cons in He' as [->|He']; [|by eapply IH].
      apply last_Some_elem_of, list_elem_of_filter in Hy as [_ Hy]. apply Htail in Hy. lia.
    + injection Hl as ->. apply elem_of_cons in He' as [->|He']; [lia|].
      apply last_None in Hy. exfalso. apply (not_elem_of_nil e'). rewrite <- Hy. by apply list_elem_of_filter.
  - apply elem_of_cons in He' as [->|He']; [lia|]. by eapply IH.
Qed.

Lemma first_ge_min lo m k e e' :
  chain 0 1 lo (area_ranges m) -> bt_first_ge k m = Some e -> e' ∈ m -> k <= e'.1 ->
  r_start (area_range e) <= r_start (area_range e').
Proof.
  unfold bt_first_ge. revert lo. induction m as [|x m IH]; intros lo H Hl He' Hk; [done|].
  apply chain_areas_tail in H as [H1 H2]. rewrite filter_cons in Hl. case_decide as Hx.
  - injection Hl as ->. apply elem_of_cons in He' as [->|He']; [lia|].
    apply (chain_areas_elem _ _ _ H2) in He'. lia.
  - apply elem_of_cons in He' as [->|He']; [done|]. by eapply IH.
Qed.

(** The two neighbour tests of [alloc_at] decide whether the pages are free. *)
Lemma neighbour_test lo m p n :
  chain 0 1 lo (area_ranges m) -> keyed m -> 0 < n ->
  (match bt_last_le (page_address p) m with
   | Some (_, prev) => vma_end prev >? page_address p
   | None => false
   end = false /\
   match bt_first_ge (page_address p) m with
   | Some (next_start, _) => page_address (p + n) >? next_start
   | None => false
   end = false) <-> gap_at m p n.
Proof.
  intros H K Hn. unfold keyed in K. rewrite Forall_forall in K. split.
  - intros [H1 H2] e He. specialize (K e He) as Ke. unfold vma_start, page_address, PAGE_SIZE in *.
    destruct (Z.le_gt_cases e.1 (p * 4096)) as [Hle|Hgt].
    + pose proof (last_le_spec (p * 4096) m) as Hspec.
      destruct (bt_last_le (p * 4096) m) as [[k prev]|] eqn:Hl; [|apply Hspec in He; lia].
      pose proof (last_le_max _ _ _ _ _ H Hl He Hle) as Hm.
      unfold vma_end, area_range, page_address, PAGE_SIZE in *. simpl in *.
      destruct (Z.gtb_spec (r_end (vma_range prev) * 4096) (p * 4096)); [done|lia].
    + pose proof (first_ge_spec (p * 4096) m) as Hspec.
      destruct (bt_first_ge (p * 4096) m) as [[k next]|] eqn:Hl; [|apply Hspec in He; lia].
      pose proof (first_ge_min _ _ _ _ _ H Hl He ltac:(lia)) as Hm.
      destruct Hspec as [Hin _]. specialize (K _ Hin). unfold area_range in *. simpl in *.
      destruct (Z.gtb_spec ((p + n) * 4096) k); [done|lia].
  - intros Hg. split.
    + pose proof (last_le_spec (page_address p) m) as Hspec.
      destruct (bt_last_le _ m) as [[k prev]|]; [|done]. destruct Hspec as [Hin Hk].
      pose proof (chain_areas_elem _ _ _ H Hin). specialize (K _ Hin). specialize (Hg _ Hin).
      unfold area_range, vma_start, vma_end, page_address, PAGE_SIZE in *. simpl in *.
      rewrite Z.gtb_ltb. apply Z.ltb_ge. lia.
    + pose proof (first_ge_spec (page_address p) m) as Hspec.
      destruct (bt_first_ge _ m) as [[k next]|]; [|done]. destruct Hspec as [Hin Hk].
      pose proof (chain_areas_elem _ _ _ H Hin). specialize (K _ Hin). specialize (Hg _ Hin).
      unfold area_range, vma_start, vma_end, page_address, PAGE_SIZE in *. simpl in *.
      rewrite Z.gtb_ltb. apply Z.ltb_ge. lia.
Qed.

Lemma bt_insert_elem v m lo e :
  chain 0 1 lo (area_ranges m) -> keyed m -> nonempty (vma_range v) ->
  gap_at m (r_start (vma_range v)) (range_len (vma_range v)) ->
  e ∈ bt_insert (vma_start v) v m <-> e = (vma_start v, v) \/ e ∈ m.
Proof.
  revert lo. induction m as [|[k' v'] m IH]; intros lo H K Hne Hg.
  - simpl. rewrite list_elem_of_singleton, elem_of_nil. tauto.
  - apply Forall_cons in K as [Kx K]. apply chain_areas_tail in H as [H1 H2].
    apply gap_at_cons in Hg as [Hx Hg]. cbn [bt_insert].
    destruct (Z.ltb_spec (vma_start v) k'); [by rewrite elem_of_cons|].
    destruct (Z.eqb_spec (vma_start v) k').
    + exfalso. unfold vma_start, page_address, PAGE_SIZE, area_range, range_len, nonempty in *. simpl in *. lia.
    + rewrite elem_of_cons, (IH _ H2) by done. rewrite elem_of_cons. tauto.
Qed.

Lemma bt_insert_chain v m lo :
  chain 0 1 lo (area_ranges m) -> keyed m -> nonempty (vma_range v) -> lo <= r_start (vma_range v) ->
  gap_at m (r_start (vma_range v)) (range_len (vma_range v)) ->
  chain 0 1 lo (area_ranges (bt_insert (vma_start v) v m)).
Proof.
  revert lo. induction m as [|[k' v'] m IH]; intros lo H K Hne Hlo Hg.
  - simpl. unfold area_range, nonempty in *. simpl. lia.
  - apply Forall_cons in K as [Kx K]. apply gap_at_cons in Hg as [Hx Hg].
    pose proof (chain_areas_tail _ _ _ H) as [H1 H2]. cbn [bt_insert].
    unfold area_range, vma_start, page_address, PAGE_SIZE, range_len, nonempty in *. simpl in *.
    destruct (Z.ltb_spec (r_start (vma_range v) * 4096) k').
    + simpl. unfold area_range. simpl. split_and!; [lia|lia|lia|lia|done].
    + destruct (Z.eqb_spec (r_start (vma_range v) * 4096) k'); [lia|].
      simpl. unfold area_range at 1 2 3. simpl. split_and!; [lia|lia|]. apply IH; try done. unfold area_range. simpl. lia.
Qed.

Lemma bt_insert_keyed v m : keyed m -> keyed (bt_insert (vma_start v) v m).
Proof.
  intros K. induction K as [|[k' v'] m Kx K IH]; [by constructor|]. cbn [bt_insert].
  destruct (_ <? _); [by repeat constructor|]. destruct (_ =? _); by repeat constructor.
Qed.

(** ** The invariant *)

Record vas_wf (s : VirtualAddressSpace) : Prop := {
  vw_chain : chain 0 1 0 (area_ranges (virtual_memory_areas s));
  vw_keyed : keyed (virtual_memory_areas s);
  vw_bounds e : e ∈ virtual_memory_areas s ->
    within_bounds s (vma_space e.2) (vma_start e.2) (vma_end e.2) = true;
  vw_first : 0 < first_usable_user_addr s /\ first_usable_user_addr s mod PAGE_SIZE = 0;
  vw_last : first_usable_user_addr s <= last_usable_user_addr s < 2 ^ 47
}.

(** [n] pages can be reserved from page [p] on. *)
Definition fits (s : VirtualAddressSpace) (space : MemorySpace) (p n : Z) : Prop :=
  0 < n /\ within_bounds s space (page_address p) (page_address (p + n)) = true /\
  gap_at (virtual_memory_areas s) p n.

(** The area that a reservation creates. *)
Definition new_area (space : MemorySpace) (p n : Z) (typ : VmaType) (tag : list Z) : VirtualMemoryArea :=
  mkVma space (mkRange p (p + n)) typ (take TAG_SIZE tag ++ replicate (TAG_SIZE - length tag) DASH).

Definition add_area (s : VirtualAddressSpace) (v : VirtualMemoryArea) : VirtualAddressSpace :=
  with_areas s (bt_insert (vma_start v) v (virtual_memory_areas s)).

Lemma within_bounds_spec s space a b :
  within_bounds s space a b = true <->
  match space with
  | User => first_usable_user_addr s <= a /\ b <= last_usable_user_addr s
  | Kernel => a < first_usable_user_addr s /\ b <= first_usable_user_addr s
  end.
Proof.
  unfold within_bounds. destruct space; rewrite andb_true_iff, !negb_true_iff, Z.gtb_ltb, ?Z.geb_leb,
    ?Z.ltb_ge, ?Z.leb_gt; lia.
Qed.

Lemma fits_end_canonical s space p n :
  vas_wf s -> fits s space p n -> page_address (p + n) < 2 ^ 47.
Proof.
  intros [_ _ _ _ W5] (_ & Hb & _). apply within_bounds_spec in Hb. destruct space; lia.
Qed.

Lemma from_start_address_page p : from_start_address (page_address p) = Some p.
Proof.
  unfold from_start_address, page_address. rewrite Z.mod_mul, Z.div_mul by done. done.
Qed.

Lemma virt_addr_new_low addr : addr < 2 ^ 47 -> virt_addr_new addr = Ret addr.
Proof. intros H. unfold virt_addr_new, canonical. by rewrite (proj2 (Z.ltb_lt _ _) H). Qed.

Lemma add_area_wf s space p n typ tag :
  vas_wf s -> 0 <= p -> fits s space p n -> vas_wf (add_area s (new_area space p n typ tag)).
Proof.
  intros [W1 W2 W3 W4 W5] Hp (Hn & Hb & Hg). set (v := new_area space p n typ tag).
  assert (Hne : nonempty (vma_range v)) by (unfold nonempty; simpl; lia).
  assert (Hg' : gap_at (virtual_memory_areas s) (r_start (vma_range v)) (range_len (vma_range v))).
  { unfold range_len. simpl. by replace (p + n - p) with n by lia. }
  constructor; simpl.
  - by apply bt_insert_chain.
  - by apply bt_insert_keyed.
  - intros e He. apply (bt_insert_elem _ _ _ _ W1 W2 Hne Hg') in He as [->|He]; [done|]. by apply W3.
  - done.
  - done.
Qed.

(** [alloc_at] reserves the pages if they are in bounds and free, and otherwise leaves
    the address space alone. *)
Lemma alloc_at_spec s p n space typ tag :
  vas_wf s -> 0 <= p -> 0 <= n ->
  match alloc_at s p n space typ tag with
  | Ret (Some v, s') => fits s space p n /\ v = new_area space p n typ tag /\ s' = add_area s v
  | Ret (None, s') => s' = s /\ ~ fits s space p n
  | Panic _ => ~ fits s space p n
  end.
Proof.
  intros W Hp Hn. unfold alloc_at.
  assert (Hfit : fits s space p n -> page_address p + n * PAGE_SIZE <= U64_MAX /\ n * PAGE_SIZE <= U64_MAX).
  { intros Hf%(fits_end_canonical s space p n W). unfold page_address, PAGE_SIZE, U64_MAX in *. lia. }
  destruct (Z.eqb_spec n 0) as [->|Hn0]; [split; [done|intros [? _]; lia]|].
  unfold checked_mul. destruct (Z.leb_spec (n * PAGE_SIZE) U64_MAX); [|split; [done|intros ?%Hfit; lia]].
  unfold checked_add. destruct (Z.leb_spec (page_address p + n * PAGE_SIZE) U64_MAX);
    [|split; [done|intros ?%Hfit; lia]].
  replace (page_address p + n * PAGE_SIZE) with (page_address (p + n)) by (unfold page_address; lia).
  unfold virt_addr_new. destruct (canonical (page_address (p + n))) eqn:Hc.
  2: { simpl. intros Hf%(fits_end_canonical s space p n W). unfold canonical in Hc.
       apply orb_false_iff in Hc as [Hc _]. apply Z.ltb_ge in Hc. lia. }
  cbn [mbind outcome_bind]. rewrite from_start_address_page, new_with_tag_eq.
  destruct (within_bounds s space (page_address p) (page_address (p + n))) eqn:Hb; simpl negb;
    [|split; [done|intros (_ & ? & _); congruence]].
  cbn [mbind outcome_bind].
  pose proof (neighbour_test 0 (virtual_memory_areas s) p n (vw_chain _ W) (vw_keyed _ W) ltac:(lia)) as Ht.
  case_test; [split; [done|intros (_ & _ & Hg); apply Ht in Hg as [? _]; congruence]|].
  case_test; [split; [done|intros (_ & _ & Hg); apply Ht in Hg as [_ ?]; congruence]|].
  split; [|done]. split; [lia|]. split; [done|]. by apply Ht.
Qed.

(** ** The search for a gap *)

Lemma virt_addr_add_spec c n :
  0 <= c -> 0 <= n ->
  match virt_addr_add (page_address c) (n * PAGE_SIZE) with
  | Ret x => x = page_address (c + n)
  | Panic _ => 2 ^ 47 <= page_address (c + n)
  end.
Proof.
  intros Hc Hn. unfold virt_addr_add, checked_add, page_address.
  replace (c * PAGE_SIZE + n * PAGE_SIZE) with ((c + n) * PAGE_SIZE) by lia.
  destruct (Z.leb_spec ((c + n) * PAGE_SIZE) U64_MAX); simpl; [|unfold U64_MAX in *; lia].
  unfold virt_addr_new, canonical. destruct (Z.ltb_spec ((c + n) * PAGE_SIZE) (2 ^ 47)); [done|].
  simpl. by case_test.
Qed.

(** The loop finds the lowest gap of [n] pages among the areas it passes. *)
Lemma alloc_scan_spec n hi areas : forall c,
  0 < n -> 0 <= c -> chain 0 1 c (area_ranges areas) -> Forall (fun e => vma_start e.2 < hi) areas ->
  match alloc_scan (n * PAGE_SIZE) hi (page_address c) areas with
  | Ret (Gap cur) => exists p, cur = page_address p /\ c <= p /\ gap_at areas p n /\ page_address (p + n) <= hi /\
      (forall q, c <= q -> gap_at areas q n -> p <= q)
  | Ret NoRoom => forall q, c <= q -> page_address (q + n) <= hi -> ~ gap_at areas q n
  | Ret (Tail cur) => exists p, cur = page_address p /\ c <= p /\ gap_at areas p n /\
      (forall q, c <= q -> gap_at areas q n -> p <= q)
  | Panic _ => forall q, c <= q -> page_address (q + n) < 2 ^ 47 -> ~ gap_at areas q n
  end.
Proof.
  induction areas as [|[k v] areas IH]; intros c Hn Hc H Hhi.
  { simpl. exists c. split_and!; [done|lia|by intros e ?%elem_of_nil|done]. }
  apply Forall_cons in Hhi as [Hv Hhi]. apply chain_areas_tail in H as [H1 H2].
  unfold area_range in H1. simpl in H1, Hv. cbn [alloc_scan].
  assert (Hse : vma_start v < vma_end v) by (unfold vma_start, vma_end, page_address, PAGE_SIZE; lia).
  destruct (Z.geb_spec (vma_start v) (vma_end v)); [lia|].
  unfold vma_start at 1, vma_end at 1. rewrite !from_start_address_page.
  pose proof (virt_addr_add_spec c n Hc ltac:(lia)) as Hadd.
  destruct (virt_addr_add _ _) as [x|]; simpl mbind.
  2: { intros q Hq Hlt. unfold page_address, PAGE_SIZE in *. lia. }
  subst x. unfold vma_start, vma_end in *.
  destruct (Z.leb_spec (page_address (c + n)) (page_address (r_start (vma_range v)))) as [Hfit|Hno].
  { exists c. split_and!; [done|lia| |lia|done]. apply gap_at_cons. unfold area_range. simpl.
    unfold page_address, PAGE_SIZE in Hfit. split; [lia|].
    intros e He. apply (chain_areas_elem _ _ _ H2) in He. unfold area_range in *. simpl in *. lia. }
  assert (Hskip : forall q, c <= q -> gap_at ((k, v) :: areas) q n -> r_end (vma_range v) <= q /\ gap_at areas q n).
  { intros q Hq [Hx Hg]%gap_at_cons. split; [|done]. unfold area_range, page_address, PAGE_SIZE in *. simpl in *. lia. }
  assert (Hadv : forall q, r_end (vma_range v) <= q -> gap_at areas q n -> gap_at ((k, v) :: areas) q n)
    by (intros q Hq Hg; apply gap_at_cons; unfold area_range; simpl; auto).
  destruct (Z.gtb_spec (page_address (r_end (vma_range v))) (page_address c));
    [|unfold page_address, PAGE_SIZE in *; lia].
  destruct (Z.geb_spec (page_address (r_end (vma_range v))) hi).
  { intros q Hq Hle Hg. apply Hskip in Hg as [? _]; [|done]. unfold page_address, PAGE_SIZE in *. lia. }
  specialize (IH (r_end (vma_range v)) Hn ltac:(lia) H2 Hhi).
  destruct (alloc_scan _ _ _ areas) as [[cur| |cur]|]; [|intros q Hq Hle Hg| |intros q Hq Hle Hg];
    [|apply Hskip in Hg as [? ?]; [by eapply IH|done]| |apply Hskip in Hg as [? ?]; [by eapply IH|done]].
  - destruct IH as (p & -> & Hp & Hg & Hle & Hmin). exists p. split_and!; [done|lia|by apply Hadv|done|].
    intros q Hq Hgq. apply Hskip in Hgq as [? ?]; auto.
  - destruct IH as (p & -> & Hp & Hg & Hmin). exists p. split_and!; [done|lia|by apply Hadv|].
    intros q Hq Hgq. apply Hskip in Hgq as [? ?]; auto.
Qed.

(** The pages searched for an area of the given space. *)
Definition search_start (s : VirtualAddressSpace) (space : MemorySpace) : Z :=
  match space with User => first_usable_user_addr s / PAGE_SIZE | Kernel => 0 end.
Definition search_end (s : VirtualAddressSpace) (space : MemorySpace) : Z :=
  match space with User => last_usable_user_addr s | Kernel => first_usable_user_addr s end.

Lemma first_page s : vas_wf s -> page_address (first_usable_user_addr s / PAGE_SIZE) = first_usable_user_addr s.
Proof.
  intros [_ _ _ [H1 H2] _]. unfold page_address. pose proof (Z.div_mod (first_usable_user_addr s) PAGE_SIZE ltac:(done)). lia.
Qed.

Lemma fits_search s space p n :
  vas_wf s -> 0 <= p ->
  fits s space p n <-> 0 < n /\ search_start s space <= p /\ page_address (p + n) <= search_end s space /\
    gap_at (virtual_memory_areas s) p n.
Proof.
  intros W Hp. pose proof (first_page s W) as Hf. unfold fits. rewrite within_bounds_spec.
  unfold search_start, search_end, page_address, PAGE_SIZE in *. destruct space; intuition lia.
Qed.

Lemma range_chain lo hi m : forall c d,
  chain 0 1 c (area_ranges m) -> keyed m -> page_address d <= lo ->
  chain 0 1 d (area_ranges (bt_range lo hi m)).
Proof.
  unfold bt_range. induction m as [|e m IH]; intros c d H K Hd; [done|].
  apply Forall_cons in K as [Ke K]. apply chain_areas_tail in H as [H1 H2]. rewrite filter_cons.
  case_decide as Hin; [|by eapply IH]. simpl.
  assert (d <= r_start (area_range e)).
  { destruct Hin as [Hin _]. rewrite Ke in Hin. unfold vma_start, area_range, page_address, PAGE_SIZE in *. lia. }
  split_and!; [lia|lia|]. clear IH Hin Hd.
  assert (Hsub : forall f l, chain 0 1 f (area_ranges l) -> chain 0 1 f (area_ranges (filter (fun e => lo <= e.1 < hi) l))).
  { clear. intros f l. revert f. induction l as [|x l IH]; intros f Hc; [done|].
    apply chain_areas_tail in Hc as [Hx Hc]. rewrite filter_cons. case_decide.
    - simpl. split_and!; [lia|lia|]. by apply IH.
    - eapply chain_weaken; [..|by apply IH]; lia. }
  by apply Hsub.
Qed.

(** Only the areas of the search range matter. *)
Lemma gap_search s space p n :
  vas_wf s -> 0 <= p -> 0 < n -> search_start s space <= p -> page_address (p + n) <= search_end s space ->
  gap_at (bt_range (page_address (search_start s space)) (search_end s space) (virtual_memory_areas s)) p n
    <-> gap_at (virtual_memory_areas s) p n.
Proof.
  intros W Hp0 Hn Hp Hend. pose proof (first_page s W) as Hf. split; intros Hg e He.
  2: { apply list_elem_of_filter in He as [_ He]. by apply Hg. }
  pose proof (vw_bounds _ W e He) as Hb. apply within_bounds_spec in Hb.
  pose proof (chain_areas_elem _ _ _ (vw_chain _ W) He) as Hr.
  pose proof (proj1 (Forall_forall _ _) (vw_keyed _ W) e He) as Hk. simpl in Hk.
  destruct (decide (page_address (search_start s space) <= e.1 < search_end s space)) as [Hin|Hout].
  - apply Hg, list_elem_of_filter. by split.
  - rewrite Hk in Hout. unfold search_start, search_end, vma_start, vma_end, area_range, page_address, PAGE_SIZE in *.
    destruct space, (vma_space e.2); lia.
Qed.

(** The result of a first-fit search. *)
Definition first_fit (s : VirtualAddressSpace) (n : Z) (space : MemorySpace) (typ : VmaType) (tag : list Z)
    (o : outcome (option VirtualMemoryArea * VirtualAddressSpace)) : Prop :=
  match o with
  | Ret (Some v, s') => exists p, 0 <= p /\ fits s space p n /\ (forall q, 0 <= q -> fits s space q n -> p <= q) /\
      v = new_area space p n typ tag /\ s' = add_area s v
  | Ret (None, s') => s' = s /\ forall q, 0 <= q -> ~ fits s space q n
  | Panic _ => forall q, 0 <= q -> ~ fits s space q n
  end.

Lemma alloc_candidate s n space typ tag p :
  vas_wf s -> 0 <= p -> fits s space p n -> (forall q, 0 <= q -> fits s space q n -> p <= q) ->
  first_fit s n space typ tag
    (match from_start_address (page_address p) with
     | None => Ret (None, s)
     | Some candidate_page => alloc_at s candidate_page n space typ tag
     end).
Proof.
  intros W Hp Hf Hmin. rewrite from_start_address_page.
  pose proof (alloc_at_spec s p n space typ tag W Hp ltac:(destruct Hf; lia)) as Hat.
  destruct (alloc_at _ _ _ _ _ _) as [[[v|] s']|]; simpl; [|tauto|tauto].
  destruct Hat as (_ & -> & ->). by exists p.
Qed.

(** The gaps of the search range are the places that fit. *)
Lemma fits_gap s space q n :
  vas_wf s -> 0 <= q -> 0 < n ->
  fits s space q n <-> search_start s space <= q /\ page_address (q + n) <= search_end s space /\
    gap_at (bt_range (page_address (search_start s space)) (search_end s space) (virtual_memory_areas s)) q n.
Proof.
  intros W Hq Hn. rewrite fits_search by done. split.
  - intros (_ & H1 & H2 & H3). split_and!; [done..|]. by apply gap_search.
  - intros (H1 & H2 & H3). split_and!; [done..|]. by apply (gap_search s space q n W).
Qed.

(** [alloc] is first fit: it reserves the lowest pages that fit. *)
Lemma alloc_spec s n space typ tag :
  vas_wf s -> 0 <= n -> first_fit s n space typ tag (alloc s n space typ tag).
Proof.
  intros W Hn. unfold alloc. destruct (Z.eqb_spec n 0) as [->|Hn0]; [split; [done|intros q _ [? _]; lia]|].
  unfold checked_mul. destruct (Z.leb_spec (n * PAGE_SIZE) U64_MAX).
  2: { split; [done|]. intros q Hq Hf%(fits_end_canonical _ _ _ _ W).
       unfold page_address, PAGE_SIZE, U64_MAX in *. lia. }
  pose proof (first_page s W) as Hfp. pose proof (vw_last _ W) as Hlast. pose proof (vw_first _ W) as [Hf0 _].
  assert (Hlo : 0 <= search_start s space) by (destruct space; simpl; [lia|apply Z.div_pos; [lia|done]]).
  replace (match space with Kernel => (0, first_usable_user_addr s)
           | User => (first_usable_user_addr s, last_usable_user_addr s) end)
    with (page_address (search_start s space), search_end s space) by (destruct space; simpl; [done|by rewrite Hfp]).
  cbv beta iota zeta. assert (Hn1 : 0 < n) by lia.
  pose proof (fun q Hq => fits_gap s space q n W Hq Hn1) as Hfit.
  destruct (Z.geb_spec (page_address (search_start s space)) (search_end s space)).
  { split; [done|]. intros q Hq (Hs & He & _)%(Hfit q Hq). unfold page_address, PAGE_SIZE in *. lia. }
  pose proof (alloc_scan_spec n (search_end s space) (bt_range (page_address (search_start s space))
    (search_end s space) (virtual_memory_areas s)) (search_start s space) Hn1 Hlo) as Hscan.
  lapply Hscan; [clear Hscan; intros Hscan|by eapply range_chain; [apply W|apply W|lia]].
  lapply Hscan; [clear Hscan; intros Hscan|].
  2: { apply Forall_forall. intros e [Hin He]%list_elem_of_filter.
       pose proof (proj1 (Forall_forall _ _) (vw_keyed _ W) e He) as Hk. simpl in Hk. lia. }
  destruct (alloc_scan _ _ _ _) as [[cur| |cur]|]; cbn [mbind outcome_bind].
  - destruct Hscan as (p & -> & Hp & Hg & He & Hmin). apply alloc_candidate; [done|lia|by apply Hfit; [lia|]|].
    intros q Hq Hf. apply (Hfit q Hq) in Hf. apply Hmin; tauto.
  - split; [done|]. intros q Hq Hf. apply (Hfit q Hq) in Hf. by eapply Hscan; apply Hf.
  - destruct Hscan as (p & -> & Hp & Hg & Hmin).
    assert (Hmin' : forall q, 0 <= q -> fits s space q n -> p <= q)
      by (intros q Hq Hf; apply (Hfit q Hq) in Hf; apply Hmin; tauto).
    pose proof (virt_addr_add_spec p n ltac:(lia) Hn) as Hadd.
    destruct (virt_addr_add _ _) as [x|]; cbn [mbind outcome_bind].
    2: { intros q Hq Hf. pose proof (Hmin' q Hq Hf). apply (fits_end_canonical _ _ _ _ W) in Hf.
         unfold page_address, PAGE_SIZE in *. lia. }
    subst x. case_test; [apply alloc_candidate; [done|lia|by apply Hfit; [lia|]|done]|].
    split; [done|]. intros q Hq Hf. pose proof (Hmin' q Hq Hf). apply (Hfit q Hq) in Hf as (_ & Hf & _).
    unfold page_address, PAGE_SIZE in *. lia.
  - intros q Hq Hf. pose proof (fits_end_canonical _ _ _ _ W Hf). apply (Hfit q Hq) in Hf. eapply Hscan; [apply Hf|done|apply Hf].
Qed.

(** Nowhere, or not at the page asked for, is there room for [n] pages. *)
Definition no_room (s : VirtualAddressSpace) (start_page : option Z) (n : Z) (space : MemorySpace) : Prop :=
  match start_page with
  | Some p => ~ fits s space p n
  | None => forall q, 0 <= q -> ~ fits s space q n
  end.

Lemma alloc_vma_spec s start_page n space typ tag :
  vas_wf s -> 0 <= n -> (forall p, start_page = Some p -> 0 <= p) ->
  match alloc_vma s start_page n space typ tag with
  | Ret (Some v, s') => exists p, 0 <= p /\ fits s space p n /\
      match start_page with Some q => p = q | None => forall q, 0 <= q -> fits s space q n -> p <= q end /\
      v = new_area space p n typ tag /\ s' = add_area s v
  | Ret (None, s') => s' = s /\ no_room s start_page n space
  | Panic _ => no_room s start_page n space
  end.
Proof.
  intros W Hn Hst. unfold alloc_vma. destruct (Z.eqb_spec n 0) as [->|Hn0].
  { split; [done|]. destruct start_page; [intros [? _]|intros q _ [? _]]; lia. }
  destruct start_page as [p|]; simpl.
  - pose proof (alloc_at_spec s p n space typ tag W (Hst p eq_refl) Hn) as H.
    destruct (alloc_at _ _ _ _ _ _) as [[[v|] s']|]; [|done|done].
    exists p. destruct H as (? & ? & ?). split_and!; [by apply Hst|done..].
  - apply (alloc_spec s n space typ tag W Hn).
Qed.

Lemma add_area_elem s space p n typ tag e :
  vas_wf s -> fits s space p n -> let v := new_area space p n typ tag in
  e ∈ virtual_memory_areas (add_area s v) <-> e = (vma_start v, v) \/ e ∈ virtual_memory_areas s.
Proof.
  intros W (Hn & _ & Hg) v. apply (bt_insert_elem v _ 0); [apply W|apply W|unfold nonempty; simpl; lia|].
  unfold range_len. simpl. by replace (p + n - p) with n by lia.
Qed.

(** C3 Reserving an area keeps the address space well formed (areas sorted, disjoint, within
    the bounds of their space): on success exactly one area was added, with the
    requested size, type and space, at the requested page or else at the lowest
    pages that fit; it fails, without any effect, only if the pages are not free. *)
Theorem alloc_vma_correct (s : VirtualAddressSpace) (start_page : option Z) (n : Z) (space : MemorySpace)
    (typ : VmaType) (tag : list Z) :
  vas_wf s -> 0 <= n -> (forall p, start_page = Some p -> 0 <= p) ->
  match alloc_vma s start_page n space typ tag with
  | Ret (Some v, s') =>
      let p := r_start (vma_range v) in
      vas_wf s' /\ page_tables s' = page_tables s /\
      vma_range v = mkRange p (p + n) /\ vma_space v = space /\ vma_typ v = typ /\ fits s space p n /\
      match start_page with Some q => p = q | None => forall q, 0 <= q -> fits s space q n -> p <= q end /\
      (forall e, e ∈ virtual_memory_areas s' <-> e = (vma_start v, v) \/ e ∈ virtual_memory_areas s)
  | Ret (None, s') => s' = s /\ no_room s start_page n space
  | Panic _ => no_room s start_page n space
  end.
Proof.
  intros W Hn Hst. pose proof (alloc_vma_spec s start_page n space typ tag W Hn Hst) as H.
  destruct (alloc_vma _ _ _ _ _ _) as [[[v|] s']|]; [|done|done].
  destruct H as (p & Hp & Hf & Hmin & -> & ->). simpl.
  split_and!; [by apply add_area_wf|done|done|done|done|done|done|].
  intros e. by apply add_area_elem.
Qed.

(** A user process' address space with 48-bit addresses and one heap area. *)
Definition example_heap : VirtualMemoryArea := new_area User 0x10000000 0x100 Heap tag_heap.
Definition example_vas : VirtualAddressSpace :=
  mkVas [(vma_start example_heap, example_heap)] example_space USER_SPACE_START (2 ^ 47 - 1).

Lemma example_vas_wf : vas_wf example_vas.
Proof.
  constructor; simpl.
  - unfold area_range. simpl. lia.
  - by repeat constructor.
  - intros e ->%list_elem_of_singleton. reflexivity.
  - split; [reflexivity|reflexivity].
  - unfold USER_SPACE_START. lia.
Qed.

Lemma alloc_vma_correct_witness :
  match alloc_vma example_vas None 16 User Anonymous tag_anon with
  | Ret (Some v, s') => vas_wf s' /\ vma_range v = mkRange 0x10000100 0x10000110
  | _ => False
  end.
Proof.
  pose proof (alloc_vma_correct example_vas None 16 User Anonymous tag_anon example_vas_wf ltac:(lia)
    ltac:(discriminate)) as H.
  destruct (alloc_vma _ _ _ _ _ _) as [[[v|] s']|] eqn:E; [|vm_compute in E; discriminate..].
  split; [exact (proj1 H)|]. vm_compute in E. injection E as <- _. reflexivity.
Defined.

(** ** Finding areas and checking user buffers *)

(** Looking up an address finds exactly the area that contains it. *)
Theorem is_address_within_vma_correct (s : VirtualAddressSpace) (address : Z) :
  vas_wf s -> canonical address = true ->
  exists o, is_address_within_vma s address = Ret o /\
    forall v, o = Some v <-> (vma_start v, v) ∈ virtual_memory_areas s /\ vma_start v <= address < vma_end v.
Proof.
  intros [H K _ _ _] Hc. unfold is_address_within_vma, virt_addr_new. rewrite Hc. cbn [mbind outcome_bind].
  unfold keyed in K. rewrite Forall_forall in K.
  eexists. split; [done|]. intros v. pose proof (last_le_spec address (virtual_memory_areas s)) as Hspec.
  destruct (bt_last_le _ _) as [[k prev]|] eqn:Hl.
  - destruct Hspec as [Hin Hk]. pose proof (K _ Hin) as Ke. simpl in Ke, Hk. subst k. split.
    + case_test; [|done]. by intros [= ->].
    + intros [Hv Hr]. pose proof (last_le_max _ _ _ _ _ H Hl Hv ltac:(simpl; lia)) as Hmax.
      destruct (chain_areas_order _ _ _ _ H Hin Hv) as [Heq|Hord].
      * injection Heq as _ ->. by rewrite (proj2 (Z.ltb_lt _ _)) by lia.
      * pose proof (chain_areas_elem _ _ _ H Hv).
        unfold area_range, vma_start, vma_end, page_address, PAGE_SIZE in *. simpl in *. lia.
  - split; [done|]. intros [Hv Hr]. apply Hspec in Hv. simpl in Hv. lia.
Qed.

Lemma is_address_within_vma_correct_witness :
  exists o, is_address_within_vma example_vas (0x10000005 * 4096 + 3) = Ret o /\ o = Some example_heap.
Proof.
  destruct (is_address_within_vma_correct example_vas (0x10000005 * 4096 + 3) example_vas_wf ltac:(reflexivity))
    as (o & Ho & Hv).
  exists o. split; [exact Ho|]. apply Hv. split; [apply list_elem_of_singleton; reflexivity|].
  vm_compute. split; [discriminate|reflexivity].
Defined.

(** Whether the page of an address is mapped. *)
Definition page_mapped (s : VirtualAddressSpace) (pg : Z) : Prop :=
  lookup_page (paging_level (page_tables s)) (root_table (page_tables s)) pg <> None.

Lemma access_ok_spec s addr len :
  0 <= addr -> 0 <= len -> last_usable_user_addr s <= U64_MAX ->
  access_ok s addr len = true <->
    0 < len /\ first_usable_user_addr s <= addr /\ addr + len - 1 <= last_usable_user_addr s.
Proof.
  intros Ha Hl Hlast. unfold access_ok, checked_add. destruct (Z.eqb_spec len 0); [lia|].
  destruct (Z.leb_spec (addr + (len - 1)) U64_MAX); [|lia]. rewrite andb_true_iff, !Z.leb_le. lia.
Qed.

Lemma check_pages_spec {A} `{FrameAllocator A} (a : A) s n : forall page,
  paging_wf a (page_tables s) -> 0 <= page ->
  (check_pages s n page = Ret (Ok tt) /\ forall pg, page <= pg < page + Z.of_nat n -> page_mapped s pg) \/
  (check_pages s n page = Ret (Err PageNotMapped) /\
   exists pg, page <= pg < page + Z.of_nat n /\ ~ page_mapped s pg).
Proof.
  induction n as [|n IH]; intros page Hp Hpg; [left; split; [done|lia]|]. cbn [check_pages].
  unfold ensure_user_page_is_mapped. rewrite (translate_entry a) by (done || (unfold page_address, PAGE_SIZE; lia)).
  assert (Hdiv : page_address page / PAGE_SIZE = page) by (by apply Z.div_mul).
  rewrite Hdiv. cbn [mbind outcome_bind].
  destruct (lookup_page _ _ page) as [en|] eqn:Hl; simpl.
  - destruct (IH (page + 1) Hp ltac:(lia)) as [[-> Hok]|[-> (pg & Hr & Hn)]].
    + left. split; [done|]. intros pg Hr. destruct (decide (pg = page)) as [->|Hne].
      * unfold page_mapped. by rewrite Hl.
      * apply Hok. lia.
    + right. split; [done|]. exists pg. split; [lia|done].
  - right. split; [done|]. exists page. split; [lia|]. unfold page_mapped. rewrite Hl. tauto.
Qed.

(** Bytes are copied from or to user memory only if the whole buffer lies in user
    space and every page of it is mapped; otherwise the matching error is
    returned, and the only panic is for a buffer that ends at the end of user
    space. *)
Theorem copy_bytes_user_correct {A} `{FrameAllocator A} (a : A) (s : VirtualAddressSpace) (addr size : Z) :
  vas_wf s -> paging_wf a (page_tables s) -> 0 <= addr -> 0 <= size ->
  match copy_bytes_user s addr size with
  | Ret (Ok _) => 0 < size /\ first_usable_user_addr s <= addr /\ addr + size - 1 <= last_usable_user_addr s /\
      forall x, addr <= x < addr + size -> page_mapped s (x / PAGE_SIZE)
  | Ret (Err NoUserAccess) =>
      size = 0 \/ addr < first_usable_user_addr s \/ last_usable_user_addr s < addr + size - 1
  | Ret (Err PageNotMapped) => exists pg, addr / PAGE_SIZE <= pg <= (addr + size - 1) / PAGE_SIZE /\ ~ page_mapped s pg
  | Panic _ => addr + size = 2 ^ 47 /\ last_usable_user_addr s = 2 ^ 47 - 1
  end.
Proof.
  intros W Hp Ha Hs. pose proof (vw_last _ W) as Hlast. unfold copy_bytes_user.
  pose proof (access_ok_spec s addr size Ha Hs ltac:(unfold U64_MAX; lia)) as Hok.
  destruct (access_ok s addr size) eqn:E; simpl.
  2: { destruct (Z.eq_dec size 0), (Z.lt_ge_cases addr (first_usable_user_addr s)),
         (Z.lt_ge_cases (last_usable_user_addr s) (addr + size - 1)); try tauto.
       exfalso. apply diff_false_true, Hok. lia. }
  destruct (proj1 Hok eq_refl) as (H1 & H2 & H3). unfold virt_addr_add, checked_add.
  rewrite (proj2 (Z.leb_le _ _)) by (unfold U64_MAX; lia). cbn [expect mbind outcome_bind].
  destruct (Z.eq_dec (addr + size) (2 ^ 47)) as [Heq|Hne]; [rewrite Heq; simpl; lia|].
  rewrite virt_addr_new_low by lia. cbn [mbind outcome_bind].
  assert (Hd : addr / PAGE_SIZE <= (addr + size - 1) / PAGE_SIZE) by (apply Z.div_le_mono; [done|lia]).
  assert (Hd0 : 0 <= addr / PAGE_SIZE) by (apply Z.div_pos; [lia|done]).
  destruct (check_pages_spec a s (Z.to_nat ((addr + size - 1) / PAGE_SIZE - addr / PAGE_SIZE + 1)) (addr / PAGE_SIZE) Hp Hd0)
    as [[-> Hm]|[-> (pg & Hr & Hm)]].
  - split_and!; [done..|]. intros x Hx. apply Hm.
    assert (addr / PAGE_SIZE <= x / PAGE_SIZE) by (apply Z.div_le_mono; [done|lia]).
    assert (x / PAGE_SIZE <= (addr + size - 1) / PAGE_SIZE) by (apply Z.div_le_mono; [done|lia]). lia.
  - exists pg. split; [lia|done].
Qed.

Lemma copy_bytes_user_correct_witness :
  copy_bytes_user example_vas (2 ^ 40 + 5) 10 = Ret (Err PageNotMapped) /\
  exists pg, (2 ^ 40 + 5) / PAGE_SIZE <= pg <= (2 ^ 40 + 14) / PAGE_SIZE /\ ~ page_mapped example_vas pg.
Proof.
  pose proof (copy_bytes_user_correct example_frames example_vas (2 ^ 40 + 5) 10 example_vas_wf example_wf
    ltac:(lia) ltac:(lia)) as H.
  replace (copy_bytes_user example_vas (2 ^ 40 + 5) 10)
    with (Ret (Err PageNotMapped) : outcome (result UserCopyError unit)) in H |- * by (vm_compute; reflexivity).
  exact (conj eq_refl H).
Defined.

(** A system call can make the kernel panic by passing a buffer that ends with the last
    byte of user space: the end of the buffer is computed with an addition whose
    result is not a canonical address. *)
Theorem copy_at_user_end_panics : panics (copy_bytes_user example_vas (2 ^ 47 - 1) 1).
Proof. eexists. vm_compute. reflexivity. Qed.

(** A request for more memory than the address space can hold makes the kernel panic
    instead of failing: [alloc] computes the end of the new area before comparing
    it with the bounds. *)
Theorem huge_map_memory_panics : panics (sys_map_memory example_frames example_vas 0 (2 ^ 47) 0).
Proof. eexists. vm_compute. reflexivity. Qed.
