(* ===== verification/VmmLife.v ===== *)
(** * The memory of a process, from its first area to its end

    Which frames an address space owns, how mapping areas adds to them, and that
    dropping the address space gives all of them back. *)

From S2P Require Import Prelude Errno Intervals Dram Frames FrameAlloc Paging PagingProofs PagingLife Vma Vmm VmmProofs.

Open Scope Z_scope.

Section Life.
Context {A : Type} `{FA : FrameAllocator A} `{FAL : !FrameAllocatorLaws A}.

(** The areas whose frames belong to the address space. *)
Definition own_area (e : area) : Prop := vma_typ e.2 <> DeviceMemory.

#[global] Instance own_area_dec e : Decision (own_area e).
Proof. unfold own_area. apply _. Defined.

Definition page_entry (p : Paging) (pg : Z) : option PageTableEntry :=
  lookup_page (paging_level p) (root_table p) pg.

(** A page of one of the owned areas. *)
Definition own_page (m : list area) (pg : Z) : Prop :=
  exists e, e ∈ m /\ own_area e /\ in_range pg (area_range e).

(** A frame that a page of an owned area is mapped to. *)
Definition area_frame (p : Paging) (m : list area) (f : Z) : Prop :=
  exists pg en, own_page m pg /\ page_entry p pg = Some en /\ pte_frame en = f.

(** Every page of every owned area is mapped, to a frame of its own that is in use and
    holds no page table. *)
Record backed (a : A) (p : Paging) (m : list area) : Prop := {
  bk_mapped pg : own_page m pg -> exists en, page_entry p pg = Some en /\
    0 < pte_frame en /\ ~ fa_is_free a (pte_frame en) /\ pte_frame en ∉ paging_frames p;
  bk_inj pg pg' en en' : own_page m pg -> own_page m pg' -> page_entry p pg = Some en ->
    page_entry p pg' = Some en' -> pte_frame en = pte_frame en' -> pg = pg'
}.

Lemma own_page_cons e m pg :
  own_page (e :: m) pg <-> (own_area e /\ in_range pg (area_range e)) \/ own_page m pg.
Proof.
  unfold own_page. split.
  - intros (x & [->|Hx]%elem_of_cons & Ho & Hr); [by left|]. right. by exists x.
  - intros [[Ho Hr]|(x & Hx & Ho & Hr)]; [exists e|exists x]; rewrite elem_of_cons; auto.
Qed.

Lemma backed_tail a p e m : backed a p (e :: m) -> backed a p m.
Proof.
  intros [M J]. constructor.
  - intros pg Hpg. apply M, own_page_cons. by right.
  - intros pg pg' en en' H1 H2. apply J; apply own_page_cons; by right.
Qed.

(** Unmapping the first area and freeing its frames leaves the others backed. *)
Lemma unmap_area a p e m :
  fa_inv a -> paging_wf a p -> own_area e -> backed a p (e :: m) ->
  0 <= r_start (area_range e) < r_end (area_range e) -> r_end (area_range e) <= space_pages p ->
  (forall pg, own_page m pg -> 0 <= pg < space_pages p /\ ~ in_range pg (area_range e)) ->
  exists p' a', paging_unmap a p (area_range e) true = Ret (p', a') /\
    fa_inv a' /\ paging_wf a' p' /\ space_pages p' = space_pages p /\ backed a' p' m /\
    (forall f, f ∈ paging_frames p' -> f ∈ paging_frames p) /\
    (forall f, fa_is_free a' f <-> fa_is_free a f \/ (f ∈ paging_frames p /\ f ∉ paging_frames p') \/
       area_frame p [e] f) /\
    (forall f, area_frame p' m f <-> area_frame p m f).
Proof.
  intros Hinv Hp Ho [M J] Hr Hsp Hout.
  assert (Hpg : forall pg, r_start (area_range e) <= pg < r_end (area_range e) -> own_page (e :: m) pg).
  { intros pg Hpg. apply own_page_cons. left. by split. }
  destruct (paging_unmap_spec true a p (r_start (area_range e)) (r_end (area_range e)) Hinv Hp Hr Hsp)
    as (p' & a' & Hrun & I' & W' & Hsp' & Hsub & Hlk & Hfree).
  { constructor.
    - intros pg Hin. destruct (M pg (Hpg pg Hin)) as (en & Hl & Hen). by exists en.
    - intros pg pg' en en' _ H1 H2. apply J; auto. }
  assert (Hsame : forall pg, own_page m pg -> page_entry p' pg = page_entry p pg).
  { intros pg Hm. destruct (Hout pg Hm) as [Hs Hn]. unfold page_entry. rewrite Hlk by done.
    rewrite decide_False; [done|]. exact Hn. }
  assert (Hown : forall pg, own_page m pg -> own_page (e :: m) pg) by (intros pg ?; apply own_page_cons; by right).
  assert (Hfa : forall f, page_frame_freed true (paging_level p) (root_table p) (r_start (area_range e))
            (r_end (area_range e) - r_start (area_range e)) f <-> area_frame p [e] f).
  { intros f. unfold page_frame_freed, area_frame, page_entry. split.
    - intros (_ & pg & en & Hin & Hl & Hf). exists pg, en. split; [|done].
      apply own_page_cons. left. split; [done|]. unfold in_range. lia.
    - intros (pg & en & [[_ Hin]|(x & Hx%elem_of_nil & _)]%own_page_cons & Hl & Hf); [|done].
      split; [done|]. exists pg, en. split; [unfold in_range in Hin; lia|done]. }
  exists p', a'. destruct (area_range e) as [rs re] eqn:Er. simpl in *. split_and!; try done.
  - constructor.
    + intros pg Hm. destruct (M pg (Hown pg Hm)) as (en & Hl & H1 & H2 & H3). exists en.
      rewrite Hsame by done. split_and!; [done|done| |by intros ?%Hsub].
      rewrite Hfree, Hfa. intros [?|[[? _]|(pg' & en' & [[_ Hin]|(x & Hx%elem_of_nil & _)]%own_page_cons & Hl' & Heq)]];
        [done..| |done].
      rewrite Er in Hin. destruct (Hout pg Hm) as [_ Hn]. apply Hn.
      rewrite <- (J pg' pg en' en); [done|by apply Hpg|by apply Hown|done..].
    + intros pg pg' en en' H1 H2. rewrite !Hsame by done. apply J; auto.
  - intros f. by rewrite Hfree, Hfa.
  - intros f. unfold area_frame. split; intros (pg & en & Hm & Hl & Hf); exists pg, en;
      (split; [done|]); [rewrite <- Hsame by done|rewrite Hsame by done]; done.
Qed.

Lemma area_frame_cons p e m f : area_frame p (e :: m) f <-> area_frame p [e] f \/ area_frame p m f.
Proof.
  unfold area_frame. split.
  - intros (pg & en & [Hx|Hm]%own_page_cons & Hl & Hf).
    + left. exists pg, en. split; [apply own_page_cons; by left|done].
    + right. by exists pg, en.
  - intros [(pg & en & [Hx|(x & Hx%elem_of_nil & _)]%own_page_cons & Hl & Hf)|(pg & en & Hm & Hl & Hf)]; [|done|];
      exists pg, en; (split; [apply own_page_cons; auto|done]).
Qed.

Lemma own_page_bounds c m pg hi :
  chain 0 1 c (area_ranges m) -> Forall (fun e => r_end (area_range e) <= hi) m -> own_page m pg -> c <= pg < hi.
Proof.
  intros H Hhi (e & He & _ & Hr). rewrite Forall_forall in Hhi. specialize (Hhi e He). simpl in Hhi.
  apply (chain_areas_elem _ _ _ H) in He. unfold in_range in Hr. lia.
Qed.

Lemma drop_areas_spec m : forall c a p,
  fa_inv a -> paging_wf a p -> 0 <= c -> chain 0 1 c (area_ranges m) ->
  Forall (fun e => r_end (area_range e) <= space_pages p) m -> backed a p m ->
  exists p' a', drop_areas a p m = Ret (p', a') /\ fa_inv a' /\ paging_wf a' p' /\
    (forall f, f ∈ paging_frames p' -> f ∈ paging_frames p) /\
    (forall f, fa_is_free a' f <-> fa_is_free a f \/ (f ∈ paging_frames p /\ f ∉ paging_frames p') \/
       area_frame p m f).
Proof.
  induction m as [|[k v] m IH]; intros c a p Hinv Hp Hc Hch Hhi Hb.
  { exists p, a. split_and!; try done. intros f. split; [auto|].
    intros [?|[?|(pg & en & (e & He%elem_of_nil & _) & _)]]; [done|tauto|done]. }
  apply chain_areas_tail in Hch as [Hr Hch]. apply Forall_cons in Hhi as [He Hhi]. cbn [drop_areas].
  destruct (decide (own_area (k, v))) as [Ho|Hdev].
  - rewrite bool_decide_eq_false_2 by exact Ho.
    destruct (unmap_area a p (k, v) m Hinv Hp Ho Hb) as (p1 & a1 & Hrun & I1 & W1 & Hsp & Hb1 & Hsub & Hf1 & Hfr);
      [lia|done| |].
    { intros pg Hm. pose proof (own_page_bounds _ _ _ _ Hch Hhi Hm). unfold in_range. lia. }
    unfold area_range in Hrun. simpl in Hrun. rewrite Hrun. cbn [mbind outcome_bind].
    destruct (IH (r_end (area_range (k, v))) a1 p1 I1 W1) as (p2 & a2 & -> & I2 & W2 & Hsub2 & Hf2);
      [lia|done|by rewrite Hsp|done|].
    exists p2, a2. split_and!; try done; [by auto|].
    intros f. rewrite Hf2, Hf1, Hfr, (area_frame_cons p (k, v) m). specialize (Hsub f). specialize (Hsub2 f).
    destruct (decide (f ∈ paging_frames p1)); tauto.
  - rewrite bool_decide_eq_true_2 by (by apply dec_stable). cbn [mbind outcome_bind].
    destruct (IH (r_end (area_range (k, v))) a p Hinv Hp) as (p2 & a2 & -> & I2 & W2 & Hsub2 & Hf2);
      [lia|done|done|by eapply backed_tail|].
    exists p2, a2. split_and!; try done.
    intros f. rewrite Hf2, (area_frame_cons p (k, v) m). split; [tauto|].
    intros [?|[?|[(pg & en & [[Ho _]|(x & Hx%elem_of_nil & _)]%own_page_cons & _)|?]]]; tauto.
Qed.

(** The address space owns exactly the frames [owned] besides those that are free: its
    page tables and the frames of its areas. *)
Record process_memory (frames : Z -> Prop) (a : A) (s : VirtualAddressSpace) : Prop := {
  pm_wf : vas_wf s;
  pm_inv : fa_inv a;
  pm_paging : paging_wf a (page_tables s);
  pm_space : last_usable_user_addr s < space_pages (page_tables s) * PAGE_SIZE;
  pm_backed : backed a (page_tables s) (virtual_memory_areas s);
  pm_frames f : frames f <-> fa_is_free a f \/ f ∈ paging_frames (page_tables s) \/
    area_frame (page_tables s) (virtual_memory_areas s) f
}.

Lemma areas_in_space frames a s : process_memory frames a s ->
  Forall (fun e => r_end (area_range e) <= space_pages (page_tables s)) (virtual_memory_areas s).
Proof.
  intros [W _ _ Hsp _ _]. apply Forall_forall. intros e He. pose proof (vw_last _ W).
  pose proof (vw_bounds _ W e He) as Hb. apply within_bounds_spec in Hb.
  unfold area_range, vma_end, page_address, PAGE_SIZE in *. destruct (vma_space e.2); lia.
Qed.


Lemma fits_user_pages frames a s p n :
  process_memory frames a s -> 0 <= p -> fits s User p n ->
  0 < n /\ p + n <= space_pages (page_tables s).
Proof.
  intros [W _ _ Hsp _ _] Hp (Hn & Hb & _). apply within_bounds_spec in Hb. split; [done|].
  unfold page_address, PAGE_SIZE in *. lia.
Qed.

(** A new, freshly mapped area keeps everything backed. *)
Lemma backed_add a a' p p' m space s n typ tag (frame_of : Z -> Z) flags :
  let v := new_area space s n typ tag in
  backed a p m -> gap_at m s n ->
  (forall pg, own_page m pg -> 0 <= pg < space_pages p) -> 0 <= s -> s + n <= space_pages p ->
  (forall pg, 0 <= pg < space_pages p -> page_entry p' pg
     = if decide (s <= pg < s + n) then Some (mkPte (frame_of pg) flags) else page_entry p pg) ->
  (forall pg, s <= pg < s + n -> 0 < frame_of pg /\ fa_is_free a (frame_of pg) /\
     ~ fa_is_free a' (frame_of pg) /\ frame_of pg ∉ paging_frames p') ->
  (forall pg qg, s <= pg < s + n -> s <= qg < s + n -> frame_of pg = frame_of qg -> pg = qg) ->
  (forall f, fa_is_free a' f -> fa_is_free a f) ->
  (forall f, f ∈ paging_frames p' -> f ∈ paging_frames p \/ fa_is_free a f) ->
  backed a' p' ((vma_start v, v) :: m) /\
  (typ <> DeviceMemory -> forall f, area_frame p' ((vma_start v, v) :: m) f <->
     area_frame p m f \/ exists pg, s <= pg < s + n /\ frame_of pg = f).
Proof.
  intros v [M J] Hg Hb Hs Hsn Hl Hfo Hinj Hmono Hnew.
  assert (Hold : forall pg, own_page m pg -> ~ s <= pg < s + n /\ page_entry p' pg = page_entry p pg).
  { intros pg Hm. assert (Hn : ~ s <= pg < s + n).
    { destruct Hm as (e & He & _ & Hr). specialize (Hg e He). unfold in_range in Hr. lia. }
    split; [done|]. rewrite Hl by auto. by rewrite decide_False. }
  assert (Hfresh : forall pg, s <= pg < s + n -> page_entry p' pg = Some (mkPte (frame_of pg) flags)).
  { intros pg Hpg. rewrite Hl by lia. by rewrite decide_True. }
  split; [constructor|].
  - intros pg [[_ Hr]|Hm]%own_page_cons.
    + change (s <= pg < s + n) in Hr. exists (mkPte (frame_of pg) flags). rewrite Hfresh by done.
      destruct (Hfo pg Hr) as (? & ? & ? & ?). done.
    + destruct (Hold pg Hm) as [_ ->]. destruct (M pg Hm) as (en & Hen & H1 & H2 & H3). exists en.
      split_and!; [done|done|by intros ?%Hmono|]. intros [?|?]%Hnew; done.
  - assert (Hcross : forall pg pg' en', s <= pg < s + n -> own_page m pg' -> page_entry p' pg' = Some en' ->
              frame_of pg <> pte_frame en').
    { intros pg pg' en' Hpg Hm Hen Heq. destruct (Hold pg' Hm) as [_ Hl']. rewrite Hl' in Hen.
      destruct (M pg' Hm) as (en & Hen' & _ & Hn & _). rewrite Hen in Hen'. injection Hen' as <-.
      apply Hn. rewrite <- Heq. by apply Hfo. }
    intros pg pg' en en' [[_ H1]|H1]%own_page_cons [[_ H2]|H2]%own_page_cons E1 E2 Heq.
    + change (s <= pg < s + n) in H1. change (s <= pg' < s + n) in H2. rewrite Hfresh in E1, E2 by done.
      injection E1 as <-. injection E2 as <-. by apply Hinj.
    + change (s <= pg < s + n) in H1. rewrite Hfresh in E1 by done. injection E1 as <-.
      by destruct (Hcross pg pg' en').
    + change (s <= pg' < s + n) in H2. rewrite Hfresh in E2 by done. injection E2 as <-.
      by destruct (Hcross pg' pg en).
    + destruct (Hold pg H1) as [_ H1']. destruct (Hold pg' H2) as [_ H2'].
      rewrite H1' in E1. rewrite H2' in E2. by apply (J pg pg' en en').
  - intros Ht f. unfold area_frame. split.
    + intros (pg & en & [[_ Hr]|Hm]%own_page_cons & E & Hf).
      * change (s <= pg < s + n) in Hr. rewrite Hfresh in E by done. injection E as <-. right. by exists pg.
      * destruct (Hold pg Hm) as [_ Hl']. rewrite Hl' in E. left. by exists pg, en.
    + intros [(pg & en & Hm & E & Hf)|(pg & Hr & Hf)].
      * exists pg, en. destruct (Hold pg Hm) as [_ ->]. split; [apply own_page_cons; by right|done].
      * exists pg, (mkPte (frame_of pg) flags). rewrite Hfresh by done.
        split; [apply own_page_cons; left; by split|done].
Qed.

(** Only which areas there are matters, not their order. *)
Lemma own_page_equiv m m' pg : (forall e, e ∈ m <-> e ∈ m') -> own_page m pg <-> own_page m' pg.
Proof. intros H. unfold own_page. by setoid_rewrite H. Qed.

Lemma backed_equiv a p m m' : (forall e, e ∈ m <-> e ∈ m') -> backed a p m -> backed a p m'.
Proof.
  intros H [M J]. pose proof (fun pg => own_page_equiv m m' pg H) as Ho. constructor.
  - intros pg Hpg. by apply M, Ho.
  - intros pg pg' en en' H1 H2. apply J; by apply Ho.
Qed.

Lemma area_frame_equiv p m m' f : (forall e, e ∈ m <-> e ∈ m') -> area_frame p m f <-> area_frame p m' f.
Proof. intros H. unfold area_frame. by setoid_rewrite (fun pg => own_page_equiv m m' pg H). Qed.

(** C1 Allocating and mapping a user area: on success the area is there with the requested
    size, every address in it translates, no other address translates differently, and
    the process owns exactly the same frames together with the allocator as before,
    so nothing leaks and no frame is used twice.  It fails without effect if there is no
    room, and panics only then or when memory runs out. *)
Theorem user_alloc_map_full_correct (frames : Z -> Prop) (a : A) (s : VirtualAddressSpace)
    (start_page : option Z) (n : Z) (typ : VmaType) (tag : list Z) :
  process_memory frames a s -> 0 <= n -> (forall p, start_page = Some p -> 0 <= p) -> typ <> DeviceMemory ->
  match user_alloc_map_full a s start_page n typ tag with
  | Ret (Some v, s', a') =>
      process_memory frames a' s' /\ range_len (vma_range v) = n /\ vma_space v = User /\ vma_typ v = typ /\
      (forall e, e ∈ virtual_memory_areas s' <-> e = (vma_start v, v) \/ e ∈ virtual_memory_areas s) /\
      (forall addr, 0 <= addr < space_pages (page_tables s) * PAGE_SIZE ->
         if decide (vma_start v <= addr < vma_end v)
         then exists phys, paging_translate (page_tables s') addr = Ret (Some phys)
         else paging_translate (page_tables s') addr = paging_translate (page_tables s) addr)
  | Ret (None, s', a') => s' = s /\ a' = a /\ no_room s start_page n User
  | Panic msg => no_room s start_page n User \/ oom (A := A) msg
  end.
Proof.
  intros Hpm Hn Hst Ht. pose proof Hpm as [W I P Hsp B F]. unfold user_alloc_map_full.
  pose proof (alloc_vma_spec s start_page n User typ tag W Hn Hst) as Hal.
  destruct (alloc_vma _ _ _ _ _ _) as [[[v|] s1]|msg]; cbn [mbind outcome_bind]; [|by destruct Hal|by left].
  destruct Hal as (p & Hp & Hf & _ & -> & ->).
  destruct (fits_user_pages _ _ _ _ _ Hpm Hp Hf) as [Hn0 Hpn].
  pose proof (map_user_spec a (page_tables s) p (p + n) USER_FLAGS I P ltac:(lia) Hpn
    ltac:(by vm_compute) ltac:(reflexivity)) as Hmap.
  simpl page_tables. cbn [vma_range new_area].
  destruct (paging_map _ _ _ _ _) as [[p' a']|msg]; cbn [mbind outcome_bind]; [|by right].
  destruct Hmap as (I' & W' & Hsp' & Hsub & frame_of & Hl & Hfo & Hinj & Hfree).
  assert (Hb : forall pg, own_page (virtual_memory_areas s) pg -> 0 <= pg < space_pages (page_tables s)).
  { intros pg. apply own_page_bounds; [apply W|by eapply areas_in_space]. }
  destruct (backed_add a a' (page_tables s) p' (virtual_memory_areas s) User p n typ tag frame_of USER_FLAGS)
    as [Hback Hframes]; try done.
  { apply Hf. } { intros f. rewrite (Hfree f). tauto. }
  { intros f Hin. rewrite (Hfree f). destruct (decide (f ∈ paging_frames (page_tables s))); tauto. }
  assert (Hel : forall e, e ∈ (vma_start (new_area User p n typ tag), new_area User p n typ tag) :: virtual_memory_areas s
            <-> e ∈ virtual_memory_areas (add_area s (new_area User p n typ tag))).
  { intros e. rewrite add_area_elem by done. by rewrite elem_of_cons. }
  split_and!; [constructor|unfold range_len; simpl; lia|done|done| |].
  - by destruct (add_area_wf s User p n typ tag W Hp Hf).
  - done.
  - done.
  - simpl. by rewrite Hsp'.
  - by eapply backed_equiv.
  - intros f. simpl. rewrite F, <- (area_frame_equiv p' _ _ f Hel), (Hframes Ht), (Hfree f). specialize (Hsub f).
    destruct (decide (f ∈ paging_frames (page_tables s))); tauto.
  - intros e. by apply add_area_elem.
  - intros addr Ha. simpl page_tables. rewrite (translate_entry a' p'), (translate_entry a (page_tables s)) by (done || lia).
    rewrite Hl by (by apply page_in_space). unfold vma_start, vma_end, page_address. simpl.
    pose proof (Z.div_mod addr PAGE_SIZE ltac:(done)). pose proof (Z.mod_pos_bound addr PAGE_SIZE ltac:(done)).
    assert (p <= addr / PAGE_SIZE < p + n <-> p * PAGE_SIZE <= addr < (p + n) * PAGE_SIZE) by (unfold PAGE_SIZE in *; lia).
    repeat case_decide; try tauto. by eexists.
Qed.

End Life.

(** ** Examples *)

(** A process without areas, in a four-level address space. *)
Definition example_process : VirtualAddressSpace := mkVas [] example_space USER_SPACE_START (2 ^ 47 - 1).

Lemma example_process_memory : process_memory (fun f => f = 5 \/ 10 <= f < 110) example_frames example_process.
Proof.
  constructor; simpl.
  - constructor; simpl; [done|constructor|by intros e ?%elem_of_nil|by vm_compute|unfold USER_SPACE_START; lia].
  - apply example_inv.
  - apply example_wf.
  - by vm_compute.
  - constructor; [intros pg (e & ?%elem_of_nil & _)|intros pg pg' en en' (e & ?%elem_of_nil & _)]; done.
  - intros f. rewrite (example_free f). unfold paging_frames. simpl root_table. cbn [paging_level example_space].
    rewrite table_frames_zero, list_elem_of_singleton. cbn [root_frame]. split; [tauto|].
    intros [?|[?|(pg & en & (e & ?%elem_of_nil & _) & _)]]; tauto.
Qed.

Lemma user_alloc_map_full_correct_witness :
  match user_alloc_map_full example_frames example_process None 2 Heap tag_heap with
  | Ret (Some v, s', a') => process_memory (fun f => f = 5 \/ 10 <= f < 110) a' s' /\ range_len (vma_range v) = 2
  | _ => False
  end.
Proof.
  pose proof (user_alloc_map_full_correct _ example_frames example_process None 2 Heap tag_heap
    example_process_memory ltac:(lia) ltac:(discriminate) ltac:(discriminate)) as H.
  destruct (user_alloc_map_full _ _ _ _ _ _) as [[[[v|] s'] a']|] eqn:E; [|vm_compute in E; discriminate..].
  exact (conj (proj1 H) (proj1 (proj2 H))).
Defined.

(** A process with one mapped page in a two-level address space. *)
Definition example_page : VirtualMemoryArea := new_area User 1 1 Heap tag_heap.
Definition example_small_process : VirtualAddressSpace :=
  mkVas [(vma_start example_page, example_page)]
    (mkPaging 1 5 (Some (mkPte 6 3, pte_zero :: mkPte 9 3 :: replicate (Z.to_nat 510) pte_zero)
                   :: replicate (Z.to_nat 511) None))
    4096 (2 ^ 29).

Lemma example_own_page pg : own_page (virtual_memory_areas example_small_process) pg <-> pg = 1.
Proof.
  unfold own_page. split.
  - intros (e & ->%list_elem_of_singleton & _ & Hr). unfold in_range, area_range in Hr. simpl in Hr. lia.
  - intros ->. eexists. split; [by apply list_elem_of_singleton|]. split; [discriminate|].
    unfold in_range, area_range. simpl. lia.
Qed.

Lemma example_small_memory :
  process_memory (fun f => f = 5 \/ f = 6 \/ f = 9 \/ 10 <= f < 110) example_frames example_small_process.
Proof.
  assert (Hpf : paging_frames (page_tables example_small_process) = [5; 6]) by reflexivity.
  assert (Hen : page_entry (page_tables example_small_process) 1 = Some (mkPte 9 3)) by reflexivity.
  assert (H9 : 9 ∉ [5; 6]) by (rewrite !not_elem_of_cons; split_and!; [lia|lia|apply not_elem_of_nil]).
  constructor.
  - constructor; simpl; [unfold area_range; simpl; lia|by repeat constructor| |by vm_compute|lia].
    intros e ->%list_elem_of_singleton. reflexivity.
  - apply example_inv.
  - constructor.
    + split; [reflexivity|]. constructor; [split; [by vm_compute|reflexivity]|]. by apply Forall_replicate.
    + rewrite Hpf. apply NoDup_cons. split; [by rewrite list_elem_of_singleton|apply NoDup_singleton].
    + rewrite Hpf, !Forall_cons, !example_free. split_and!; [lia..|constructor].
  - by vm_compute.
  - constructor.
    + intros pg ->%example_own_page. exists (mkPte 9 3). rewrite Hpf, (example_free 9). simpl pte_frame.
      split_and!; [done|lia|lia|done].
    + intros pg pg' en en' ->%example_own_page ->%example_own_page. done.
  - intros f. rewrite Hpf, (example_free f), !elem_of_cons, elem_of_nil.
    assert (Hf : area_frame (page_tables example_small_process) (virtual_memory_areas example_small_process) f <-> f = 9).
    { unfold area_frame. setoid_rewrite example_own_page. split.
      - intros (pg & en & -> & Hl & <-). rewrite Hen in Hl. by injection Hl as <-.
      - intros ->. exists 1, (mkPte 9 3). done. }
    rewrite Hf. tauto.
Qed.


(** ** Copying into another address space *)

Section Copy.
Context (space : VirtualAddressSpace) (r : range) (frame_of : Z -> Z) (src : list Z) (total : Z).
Context (Hr : 0 <= r_start r < r_end r) (Hhi : page_address (r_end r) <= 2 ^ 47).
Context (Htotal : 0 <= total <= range_len r * PAGE_SIZE) (Hsrc : total <= Z.of_nat (length src)).
Context (Htrans : forall pg, in_range pg r ->
  paging_translate (page_tables space) (page_address pg) = Ret (Some (start_address (frame_of pg)))).
Context (Hinj : forall pg pg', in_range pg r -> in_range pg' r -> frame_of pg = frame_of pg' -> pg = pg').

(** Where the byte at offset [i] of the range lies in physical memory. *)
Definition phys_of (i : Z) : Z := start_address (frame_of (r_start r + i / PAGE_SIZE)) + i mod PAGE_SIZE.

Lemma phys_of_page k o : 0 <= o < PAGE_SIZE ->
  phys_of (k * PAGE_SIZE + o) = start_address (frame_of (r_start r + k)) + o.
Proof.
  intros Ho. unfold phys_of. rewrite Z.div_add_l, Z.div_small, Z.add_0_r by done.
  rewrite (Z.add_comm (k * PAGE_SIZE)), Z.mod_add, Z.mod_small by done. done.
Qed.

Lemma phys_of_inj i j :
  0 <= i < range_len r * PAGE_SIZE -> 0 <= j < range_len r * PAGE_SIZE -> phys_of i = phys_of j -> i = j.
Proof.
  intros Hi Hj. unfold phys_of, start_address.
  pose proof (Z.div_mod i PAGE_SIZE ltac:(done)). pose proof (Z.mod_pos_bound i PAGE_SIZE ltac:(done)).
  pose proof (Z.div_mod j PAGE_SIZE ltac:(done)). pose proof (Z.mod_pos_bound j PAGE_SIZE ltac:(done)).
  intros Heq. assert (Hf : frame_of (r_start r + i / PAGE_SIZE) = frame_of (r_start r + j / PAGE_SIZE))
    by (unfold PAGE_SIZE in *; lia).
  apply Hinj in Hf; unfold in_range, range_len, PAGE_SIZE in *; lia.
Qed.

Lemma get_phys_page k : 0 <= k < range_len r ->
  get_phys space (page_address (r_start r) + k * PAGE_SIZE) = Ret (Some (start_address (frame_of (r_start r + k)))).
Proof.
  intros Hk. unfold get_phys, range_len in *.
  replace (page_address (r_start r) + k * PAGE_SIZE) with (page_address (r_start r + k)) by (unfold page_address; lia).
  rewrite virt_addr_new_low by (unfold page_address, PAGE_SIZE in *; lia). cbn [mbind outcome_bind].
  apply Htrans. unfold in_range. lia.
Qed.

(** Writing inside one page. *)
Lemma write_mem_page mem k o bytes i :
  0 <= k < range_len r -> 0 <= o -> o + Z.of_nat (length bytes) <= PAGE_SIZE -> 0 <= i < range_len r * PAGE_SIZE ->
  write_mem mem (start_address (frame_of (r_start r + k)) + o) bytes (phys_of i)
    = if decide (k * PAGE_SIZE + o <= i < k * PAGE_SIZE + o + Z.of_nat (length bytes))
      then nth (Z.to_nat (i - (k * PAGE_SIZE + o))) bytes 0 else mem (phys_of i).
Proof.
  intros Hk Ho Hb Hi. unfold write_mem.
  pose proof (Z.div_mod i PAGE_SIZE ltac:(done)). pose proof (Z.mod_pos_bound i PAGE_SIZE ltac:(done)).
  destruct (Z.eq_dec (i / PAGE_SIZE) k) as [Heq|Hne].
  - assert (Hp : phys_of i = start_address (frame_of (r_start r + k)) + (i - k * PAGE_SIZE))
      by (unfold phys_of; rewrite Heq; lia).
    rewrite Hp. repeat case_decide; try lia; try done. f_equal. lia.
  - rewrite !decide_False; [done|unfold PAGE_SIZE in *; lia|]. intros Hin. apply Hne.
    set (o' := phys_of i - start_address (frame_of (r_start r + k))) in *.
    assert (Ho' : 0 <= o' < PAGE_SIZE) by (unfold o'; lia).
    assert (Hij : i = k * PAGE_SIZE + o').
    { apply phys_of_inj; [done|unfold PAGE_SIZE in *; lia|]. rewrite phys_of_page by done. unfold o'. lia. }
    rewrite Hij, Z.div_add_l, Z.div_small by done. lia.
Qed.

Lemma write_mem_other mem k o bytes x :
  0 <= o -> o + Z.of_nat (length bytes) <= PAGE_SIZE ->
  (forall i, k * PAGE_SIZE + o <= i < k * PAGE_SIZE + o + Z.of_nat (length bytes) -> phys_of i <> x) ->
  write_mem mem (start_address (frame_of (r_start r + k)) + o) bytes x = mem x.
Proof.
  intros Ho Hb Hx. unfold write_mem. case_decide as Hin; [|done].
  destruct (Hx (k * PAGE_SIZE + (x - start_address (frame_of (r_start r + k))))); [lia|].
  rewrite phys_of_page by lia. lia.
Qed.

(** The offsets still to be copied, in [n] pages. *)
Definition pages_left (n : nat) (offset : Z) : Prop :=
  match n with
  | O => offset = total
  | S n' => exists k, offset = k * PAGE_SIZE /\ 0 <= k /\ Z.of_nat n' * PAGE_SIZE < total - offset <= Z.of_nat n * PAGE_SIZE
  end.

Lemma copy_pages_spec n : forall offset dest mem, pages_left n offset -> 0 <= offset ->
  exists dest' mem', copy_pages space (page_address (r_start r)) src total n offset dest mem = Ret (dest', mem') /\
    dest' = (if decide (n = 0%nat) then dest
             else start_address (frame_of (r_start r + (total - 1) / PAGE_SIZE))) /\
    (forall i, offset <= i < total -> mem' (phys_of i) = nth (Z.to_nat i) src 0) /\
    (forall x, (forall i, offset <= i < total -> phys_of i <> x) -> mem' x = mem x).
Proof.
  induction n as [|n IH]; intros offset dest mem Hleft Hoff.
  { simpl in Hleft. subst offset. exists dest, mem. split_and!; [done|done|lia|done]. }
  destruct Hleft as (k & -> & Hk & Hn). cbn [copy_pages].
  assert (Hkr : 0 <= k < range_len r) by (unfold PAGE_SIZE in *; lia).
  rewrite get_phys_page by done. cbn [mbind outcome_bind expect].
  set (b := if total - k * PAGE_SIZE <? PAGE_SIZE then total - k * PAGE_SIZE else PAGE_SIZE).
  assert (Hb : b = Z.min (total - k * PAGE_SIZE) PAGE_SIZE) by (unfold b; case_test; lia).
  set (bytes := take (Z.to_nat b) (drop (Z.to_nat (k * PAGE_SIZE)) src)).
  assert (Hlen : Z.of_nat (length bytes) = b)
    by (unfold bytes; rewrite length_take, length_drop; unfold PAGE_SIZE in *; lia).
  rewrite <- (Z.add_0_r (start_address (frame_of (r_start r + k)))).
  set (mem1 := write_mem mem (start_address (frame_of (r_start r + k)) + 0) bytes).
  destruct (IH (k * PAGE_SIZE + b) (start_address (frame_of (r_start r + k)) + 0) mem1) as (dest' & mem' & -> & Hd & H1 & H2).
  { destruct n as [|n]; simpl; [unfold PAGE_SIZE in *; lia|].
    exists (k + 1). unfold PAGE_SIZE in *. lia. }
  { unfold PAGE_SIZE in *; lia. }
  exists dest', mem'. split; [done|]. split_and!.
  - rewrite decide_False by done. rewrite Hd. case_decide as Hn0; [|done]. subst n.
    assert (Hq : (total - 1) / PAGE_SIZE = k) by (apply div_unique_bounds; unfold PAGE_SIZE in *; lia).
    by rewrite Hq, Z.add_0_r.
  - intros i Hi. destruct (Z.lt_ge_cases i (k * PAGE_SIZE + b)) as [Hlt|Hge]; [|apply H1; lia].
    rewrite H2.
    2: { intros j Hj Heq. apply phys_of_inj in Heq; unfold PAGE_SIZE in *; lia. }
    unfold mem1. rewrite write_mem_page by (try done; unfold PAGE_SIZE in *; lia). rewrite decide_True by lia.
    unfold bytes. rewrite !nth_lookup, lookup_take_lt, lookup_drop by (unfold PAGE_SIZE in *; lia).
    do 2 f_equal. unfold PAGE_SIZE in *. lia.
  - intros x Hx. rewrite H2 by (intros i Hi; apply Hx; unfold PAGE_SIZE in *; lia). unfold mem1.
    apply write_mem_other; [lia|unfold PAGE_SIZE in *; lia|]. intros i Hi. apply Hx. unfold PAGE_SIZE in *. lia.
Qed.

(** Bytes up to the end of the last page that is written to. *)
Definition round_up : Z := (total + PAGE_SIZE - 1) / PAGE_SIZE * PAGE_SIZE.

Lemma pages_to_copy_left :
  pages_left (Z.to_nat (if total mod PAGE_SIZE =? 0 then total / PAGE_SIZE else total / PAGE_SIZE + 1)) 0.
Proof.
  pose proof (Z.div_mod total PAGE_SIZE ltac:(done)). pose proof (Z.mod_pos_bound total PAGE_SIZE ltac:(done)).
  unfold pages_left. destruct (Z.eqb_spec (total mod PAGE_SIZE) 0); destruct (Z.to_nat _) as [|m] eqn:Hm;
    try (exists 0); unfold PAGE_SIZE in *; lia.
Qed.

Lemma copy_to_addr_space_spec dest_vma fill mem :
  vma_range dest_vma = r ->
  exists mem', copy_to_addr_space src space dest_vma total fill mem = Ret mem' /\
    (forall i, 0 <= i < total -> mem' (phys_of i) = nth (Z.to_nat i) src 0) /\
    (fill = true -> forall i, total <= i < round_up -> mem' (phys_of i) = 0) /\
    (forall x, (forall i, 0 <= i < round_up -> phys_of i <> x) -> mem' x = mem x).
Proof.
  intros Hv. unfold copy_to_addr_space. rewrite Hv. cbv zeta.
  rewrite (proj2 (Z.ltb_ge _ _)) by lia.
  pose proof (get_phys_page 0 ltac:(unfold range_len; lia)) as Hg. rewrite Z.add_0_r in Hg. rewrite Hg.
  cbn [mbind outcome_bind expect].
  destruct (copy_pages_spec _ 0 (start_address (frame_of (r_start r + 0))) mem pages_to_copy_left ltac:(lia))
    as (dest' & mem' & -> & Hd & H1 & H2). cbn [mbind outcome_bind].
  pose proof (Z.div_mod total PAGE_SIZE ltac:(done)) as Hdm. pose proof (Z.mod_pos_bound total PAGE_SIZE ltac:(done)) as Hm.
  set (tail := total mod PAGE_SIZE) in *. set (q := total / PAGE_SIZE) in *.
  assert (Hru : round_up = if tail =? 0 then total else (q + 1) * PAGE_SIZE).
  { unfold round_up. destruct (Z.eqb_spec tail 0).
    - rewrite (div_unique_bounds _ _ q); unfold PAGE_SIZE in *; lia.
    - rewrite (div_unique_bounds _ _ (q + 1)); unfold PAGE_SIZE in *; lia. }
  destruct (Z.eqb_spec tail 0) as [Ht|Ht]; [rewrite andb_false_r|]; simpl negb.
  { exists mem'. split_and!; [done|done|lia|]. intros x Hx. apply H2. intros i Hi. apply Hx. lia. }
  rewrite andb_true_r.
  destruct fill; [|exists mem'; split_and!; [done|done|done|]; intros x Hx; apply H2; intros i Hi; apply Hx; unfold PAGE_SIZE in *; lia].
  assert (Hlast : dest' = start_address (frame_of (r_start r + q))).
  { rewrite Hd, decide_False by (unfold PAGE_SIZE in *; lia). do 2 f_equal.
    rewrite (div_unique_bounds (total - 1) PAGE_SIZE q); unfold PAGE_SIZE in *; lia. }
  set (zeros := replicate (Z.to_nat (PAGE_SIZE - tail)) 0).
  assert (Hz : Z.of_nat (length zeros) = PAGE_SIZE - tail) by (unfold zeros; rewrite length_replicate; lia).
  exists (write_mem mem' (dest' + tail) zeros). rewrite Hlast.
  assert (Hq : 0 <= q < range_len r) by (unfold PAGE_SIZE in *; lia). split_and!; [done|..].
  - intros i Hi. rewrite write_mem_page by (unfold PAGE_SIZE in *; lia). rewrite decide_False by lia. by apply H1.
  - intros _ i Hi. rewrite write_mem_page by (unfold PAGE_SIZE in *; lia).
    rewrite decide_True by lia. unfold zeros. rewrite nth_lookup.
    by rewrite lookup_replicate_2 by (unfold PAGE_SIZE in *; lia).
  - intros x Hx. rewrite write_mem_other by (try lia; intros i Hi; apply Hx; unfold PAGE_SIZE in *; lia).
    apply H2. intros i Hi. apply Hx. unfold PAGE_SIZE in *; lia.
Qed.

End Copy.


