(* ===== verification/Shm.v ===== *)
(** * Shared memory ([os/kernel/src/memory/shm.rs])

    The global tables of shared memory segments and the operations behind the
    system calls.  [attach] and [detach] also change the address space of the
    calling process.  Every operation holds the table lock for its whole duration
    except that [delete] takes it again; the operations are atomic steps here. *)

From S2P Require Import Prelude Errno Intervals Dram Frames FrameAlloc Paging PagingProofs PagingLife Vma Vmm VmmProofs.

Open Scope Z_scope.

(* [os/kernel/src/memory/shm.rs:23-28] SharedMemoryEntry *)
Record SharedMemoryEntry := mkShm {
  shm_size : Z;
  shm_frames : range;
  shm_counter : Z;
  shm_unlinked : bool
}.

(* [os/kernel/src/memory/shm.rs:30-40] SharedMemoryEntry::new *)
Definition shm_entry_new (size : Z) (frames : range) : SharedMemoryEntry := mkShm size frames 0 false.

(* [os/kernel/src/memory/shm.rs:42-46] ShmTables *)
Record ShmTables := mkShmTables {
  naming_table : gmap string Z;
  entry_table : gmap Z SharedMemoryEntry;
  next_free_id : Z
}.

(* [os/kernel/src/memory/shm.rs:48-56] ShmTables::new *)
Definition shm_tables_new : ShmTables := mkShmTables ∅ ∅ 0.

(* os/kernel/src/consts.rs: MAX_SHM_SIZE *)
Definition MAX_SHM_SIZE : Z := 0x100000.

Definition tag_shm : list Z := [115; 104; 109].

Definition set_entry (t : ShmTables) (id : Z) (e : SharedMemoryEntry) : ShmTables :=
  mkShmTables (naming_table t) (<[id := e]> (entry_table t)) (next_free_id t).

Section Shm.
Context {A : Type} `{FA : FrameAllocator A}.

(* [os/kernel/src/memory/shm.rs:65-109] open *)
Definition shm_open (a : A) (t : ShmTables) (name : string) (size : Z) (create : bool)
    : outcome (Z * ShmTables * A) :=
  if (size =? 0) || (size >? MAX_SHM_SIZE) then Ret (errno_to_isize EINVAL, t, a) else
  if create then
    match naming_table t !! name with
    | Some _ => Ret (errno_to_isize EEXIST, t, a)
    | None =>
        let frame_count := (size + PAGE_SIZE - 1) / PAGE_SIZE in
        '(frames, a') ← fa_alloc a frame_count;
        let id := next_free_id t in
        let entry := shm_entry_new (frame_count * PAGE_SIZE) frames in
        Ret (as_isize id,
             mkShmTables (<[name := id]> (naming_table t)) (<[id := entry]> (entry_table t)) (wrap64 (id + 1)), a')
    end
  else
    match naming_table t !! name with
    | None => Ret (errno_to_isize ENOENT, t, a)
    | Some id =>
        match entry_table t !! id with
        | None => Ret (errno_to_isize ENOENT, t, a)
        | Some entry =>
            if size >? shm_size entry then Ret (errno_to_isize EINVAL, t, a) else Ret (as_isize id, t, a)
        end
    end.

(* [os/kernel/src/memory/shm.rs:111-146] attach *)
Definition shm_attach (a : A) (t : ShmTables) (s : VirtualAddressSpace) (id : Z) (read_only : bool)
    : outcome (Z * ShmTables * VirtualAddressSpace * A) :=
  match entry_table t !! id with
  | None => Ret (errno_to_isize EINVAL, t, s, a)
  | Some entry =>
      let num_pages := shm_size entry / PAGE_SIZE in
      '(v, s1) ← alloc_vma s None num_pages User (SharedMemory id) tag_shm;
      match v with
      | None => Ret (errno_to_isize ENOMEM, t, s1, a)
      | Some vma =>
          let flags := if read_only then Z.lor PRESENT USER_ACCESSIBLE else USER_FLAGS in
          '(r, s2, a2) ← map_pfr_for_vma a s1 vma (shm_frames entry) flags;
          match r with
          | Err _ =>
              '(s3, a3) ← unmap_vma a2 s2 vma false;
              Ret (errno_to_isize ENOMEM, t, s3, a3)
          | Ok _ =>
              let entry' := mkShm (shm_size entry) (shm_frames entry) (wrap64 (shm_counter entry + 1))
                              (shm_unlinked entry) in
              Ret (as_isize (vma_start vma), set_entry t id entry', s2, a2)
          end
      end
  end.

(* [os/kernel/src/memory/shm.rs:212-224] delete *)
Definition shm_delete (a : A) (t : ShmTables) (id : Z) : outcome (ShmTables * A) :=
  match entry_table t !! id with
  | None => Ret (t, a)
  | Some entry =>
      a' ← fa_free a (shm_frames entry);
      Ret (mkShmTables (naming_table t) (delete id (entry_table t)) (next_free_id t), a')
  end.

(* [os/kernel/src/memory/shm.rs:148-181] detach *)
Definition shm_detach (a : A) (t : ShmTables) (s : VirtualAddressSpace) (ptr : Z)
    : outcome (Z * ShmTables * VirtualAddressSpace * A) :=
  o ← is_address_within_vma s ptr;
  match o with
  | None => Ret (errno_to_isize EINVAL, t, s, a)
  | Some vma =>
      if negb (bool_decide (vma_typ vma = SharedMemory 0)) then Ret (errno_to_isize EINVAL, t, s, a) else
      match vma_typ vma with
      | SharedMemory id =>
          '(s1, a1) ← unmap_vma a s vma false;
          match entry_table t !! id with
          | None => Ret (errno_to_isize EINVAL, t, s1, a1)
          | Some entry =>
              let old_counter := shm_counter entry in
              let entry' := mkShm (shm_size entry) (shm_frames entry) (wrap64 (old_counter - 1))
                              (shm_unlinked entry) in
              let t1 := set_entry t id entry' in
              if (old_counter =? 1) && shm_unlinked entry then
                '(t2, a2) ← shm_delete a1 t1 id;
                Ret (0, t2, s1, a2)
              else Ret (0, t1, s1, a1)
          end
      | _ => Ret (errno_to_isize EINVAL, t, s, a)
      end
  end.

(* [os/kernel/src/memory/shm.rs:183-210] unlink *)
Definition shm_unlink (a : A) (t : ShmTables) (name : string) : outcome (Z * ShmTables * A) :=
  match naming_table t !! name with
  | None => Ret (errno_to_isize ENOENT, t, a)
  | Some id =>
      let t1 := mkShmTables (delete name (naming_table t)) (entry_table t) (next_free_id t) in
      match entry_table t !! id with
      | None => Ret (errno_to_isize ENOENT, t1, a)
      | Some entry =>
          let entry' := mkShm (shm_size entry) (shm_frames entry) (shm_counter entry) true in
          let t2 := set_entry t1 id entry' in
          if shm_counter entry =? 0 then
            '(t3, a') ← shm_delete a t2 id;
            Ret (0, t3, a')
          else Ret (0, t2, a)
      end
  end.

End Shm.

(** ** The tables *)

Section ShmProofs.
Context {A : Type} `{FA : FrameAllocator A} `{FAL : !FrameAllocatorLaws A}.

(** Names refer to segments that are not unlinked, segments without a name are attached
    somewhere, and every segment has frames of its own, enough for its size. *)
Record shm_wf (a : A) (t : ShmTables) : Prop := {
  sw_names name id : naming_table t !! name = Some id ->
    exists e, entry_table t !! id = Some e /\ shm_unlinked e = false;
  sw_unique name name' id : naming_table t !! name = Some id -> naming_table t !! name' = Some id -> name = name';
  sw_named id e : entry_table t !! id = Some e -> shm_unlinked e = false ->
    exists name, naming_table t !! name = Some id;
  sw_attached id e : entry_table t !! id = Some e -> shm_unlinked e = true -> shm_counter e <> 0;
  sw_ids id e : entry_table t !! id = Some e -> 0 <= id < next_free_id t;
  sw_size id e : entry_table t !! id = Some e -> exists k, shm_size e = k * PAGE_SIZE /\ 0 < k <= range_len (shm_frames e);
  sw_frames id e : entry_table t !! id = Some e -> fa_block (shm_frames e) /\ 0 < r_start (shm_frames e) /\
    (forall f, in_range f (shm_frames e) -> ~ fa_is_free a f);
  sw_disjoint id id' e e' f : entry_table t !! id = Some e -> entry_table t !! id' = Some e' ->
    in_range f (shm_frames e) -> in_range f (shm_frames e') -> id = id'
}.

Lemma shm_new_wf a : shm_wf a shm_tables_new.
Proof. constructor; intros *; simpl; by rewrite ?lookup_empty. Qed.

(** Adding a segment with freshly allocated frames. *)
Lemma shm_add_wf a a' t name size frames k :
  shm_wf a t -> naming_table t !! name = None -> 0 <= next_free_id t < 2 ^ 63 ->
  size = k * PAGE_SIZE -> 0 < k <= range_len frames -> fa_block frames -> 0 < r_start frames ->
  (forall f, in_range f frames -> fa_is_free a f) ->
  (forall f, fa_is_free a' f <-> fa_is_free a f /\ ~ in_range f frames) ->
  shm_wf a' (mkShmTables (<[name := next_free_id t]> (naming_table t))
    (<[next_free_id t := shm_entry_new size frames]> (entry_table t)) (wrap64 (next_free_id t + 1))).
Proof.
  intros [W1 W2 W3 W4 W5 W6 W7 W8] Hname Hid Hsz Hk Hblk Hpos Hfree Hfree'.
  assert (Hnew : forall nm, naming_table t !! nm <> Some (next_free_id t)).
  { intros nm (e & He & _)%W1. apply W5 in He. lia. }
  assert (Hw : wrap64 (next_free_id t + 1) = next_free_id t + 1) by (apply Z.mod_small; lia).
  constructor; simpl.
  - intros nm id [[<- <-]|[Hne Hl]]%lookup_insert_Some.
    + eexists. by rewrite lookup_insert_eq.
    + destruct (W1 nm id Hl) as (e & He & Hu). exists e. rewrite lookup_insert_ne; [done|]. intros <-. by apply (Hnew nm).
  - intros nm nm' id [[<- <-]|[Hne Hl]]%lookup_insert_Some [[<- H]|[Hne' Hl']]%lookup_insert_Some; try done.
    + by destruct (Hnew nm').
    + subst id. by destruct (Hnew nm).
    + by apply (W2 nm nm' id).
  - intros id e [[<- <-]|[Hne Hl]]%lookup_insert_Some Hu; [exists name; by rewrite lookup_insert_eq|].
    destruct (W3 id e Hl Hu) as [nm Hnm]. exists nm. rewrite lookup_insert_ne; [done|congruence].
  - intros id e [[<- <-]|[Hne Hl]]%lookup_insert_Some; [done|by apply (W4 id)].
  - intros id e [[<- <-]|[Hne Hl]]%lookup_insert_Some; [lia|]. apply W5 in Hl. lia.
  - intros id e [[<- <-]|[Hne Hl]]%lookup_insert_Some; [by exists k|by apply (W6 id)].
  - intros id e [[<- <-]|[Hne Hl]]%lookup_insert_Some; simpl.
    + split_and!; [done|done|]. intros f Hf. rewrite Hfree'. tauto.
    + destruct (W7 id e Hl) as (? & ? & Hf). split_and!; [done|done|]. intros f Hin. rewrite Hfree'. intros [? _]. by eapply Hf.
  - intros id id' e e' f [[<- <-]|[Hne Hl]]%lookup_insert_Some [[<- <-]|[Hne' Hl']]%lookup_insert_Some H1 H2; try done.
    + simpl in H1. destruct (W7 id' e' Hl') as (_ & _ & Hf). by destruct (Hf f H2 (Hfree f H1)).
    + simpl in H2. destruct (W7 id e Hl) as (_ & _ & Hf). by destruct (Hf f H1 (Hfree f H2)).
    + by apply (W8 id id' e e' f).
Qed.

(** C14 Creating a segment: it fails for a bad size or a name in use, and otherwise adds a
    segment with a fresh id under the name, not attached, with at least as many bytes as
    asked for in frames of its own; the tables stay consistent.  Opening an existing
    segment changes nothing. *)
Theorem shm_open_correct (a : A) (t : ShmTables) (name : string) (size : Z) (create : bool) :
  fa_inv a -> shm_wf a t -> 0 <= size -> next_free_id t < 2 ^ 63 -> 0 <= next_free_id t ->
  match shm_open a t name size create with
  | Ret (ret, t', a') =>
      fa_inv a' /\ shm_wf a' t' /\
      if decide (size = 0 \/ MAX_SHM_SIZE < size) then ret = errno_to_isize EINVAL /\ t' = t /\ a' = a
      else match create, naming_table t !! name with
           | true, Some _ => ret = errno_to_isize EEXIST /\ t' = t /\ a' = a
           | true, None => ret = next_free_id t /\ naming_table t' = <[name := ret]> (naming_table t) /\
               exists e, entry_table t' = <[ret := e]> (entry_table t) /\ shm_counter e = 0 /\ size <= shm_size e /\
                 (forall f, fa_is_free a f <-> fa_is_free a' f \/ in_range f (shm_frames e))
           | false, None => ret = errno_to_isize ENOENT /\ t' = t /\ a' = a
           | false, Some id => t' = t /\ a' = a /\ exists e, entry_table t !! id = Some e /\
               ret = (if shm_size e <? size then errno_to_isize EINVAL else id)
           end
  | Panic msg => exists n, fa_alloc a n = Panic msg
  end.
Proof.
  intros Hinv W Hs Hid Hid0. unfold shm_open.
  replace ((size =? 0) || (size >? MAX_SHM_SIZE)) with (bool_decide (size = 0 \/ MAX_SHM_SIZE < size)).
  2: { rewrite Z.gtb_ltb. destruct (Z.eqb_spec size 0), (Z.ltb_spec MAX_SHM_SIZE size);
         simpl; first [by apply bool_decide_eq_true; lia|by apply bool_decide_eq_false; lia]. }
  destruct (decide (size = 0 \/ MAX_SHM_SIZE < size)) as [Hbad|Hok];
    [rewrite bool_decide_eq_true_2 by done; done|rewrite bool_decide_eq_false_2 by done].
  destruct create.
  - destruct (naming_table t !! name) as [id|] eqn:Hname; [done|].
    set (n := (size + PAGE_SIZE - 1) / PAGE_SIZE).
    assert (Hn : 0 < n <= 2 ^ 63 /\ size <= n * PAGE_SIZE).
    { unfold n. pose proof (div_bounds (size + PAGE_SIZE - 1) PAGE_SIZE ltac:(done)).
      unfold MAX_SHM_SIZE, PAGE_SIZE in *. lia. }
    destruct (fa_alloc a n) as [[r a']|msg] eqn:Hal; cbn [mbind outcome_bind]; [|by exists n].
    destruct (fa_alloc_ok a n r a' Hinv (proj1 Hn) Hal) as (I' & Hpos & Hlen & _ & Hf & Hf').
    pose proof (fa_alloc_block a n r a' Hinv (proj1 Hn) Hal) as Hblk.
    assert (Hret : as_isize (next_free_id t) = next_free_id t)
      by (unfold as_isize; by rewrite (proj2 (Z.ltb_lt _ _)) by lia).
    rewrite Hret. split_and!; [done| |done|done|].
    + eapply shm_add_wf; try done. lia.
    + eexists. split_and!; [done|done|simpl; lia|]. intros f. simpl. rewrite Hf'. specialize (Hf f).
      destruct (decide (in_range f r)); tauto.
  - destruct (naming_table t !! name) as [id|] eqn:Hname; [|done].
    destruct (sw_names _ _ W name id Hname) as (e & He & _). rewrite He, Z.gtb_ltb.
    pose proof (sw_ids _ _ W id e He). destruct (Z.ltb_spec (shm_size e) size) as [Hlt|Hge].
    + split_and!; [done..|]. exists e. split; [done|]. by rewrite (proj2 (Z.ltb_lt _ _)).
    + split_and!; [done..|]. exists e. split; [done|]. rewrite (proj2 (Z.ltb_ge _ _)) by lia.
      unfold as_isize. by rewrite (proj2 (Z.ltb_lt _ _)) by lia.
Qed.

(** The tables after the name of a segment was removed: the segment goes too, or stays
    as an unlinked one that is still attached. *)
Lemma shm_unlinked_wf a a' t name id e (es : gmap Z SharedMemoryEntry) :
  shm_wf a t -> naming_table t !! name = Some id -> entry_table t !! id = Some e ->
  (es = delete id (entry_table t) /\ (forall f, fa_is_free a' f -> fa_is_free a f \/ in_range f (shm_frames e)) \/
   es = <[id := mkShm (shm_size e) (shm_frames e) (shm_counter e) true]> (entry_table t) /\ shm_counter e <> 0 /\ a' = a) ->
  shm_wf a' (mkShmTables (delete name (naming_table t)) es (next_free_id t)).
Proof.
  intros [W1 W2 W3 W4 W5 W6 W7 W8] Hname He Hes.
  assert (Hsub : forall i x, es !! i = Some x -> exists y, entry_table t !! i = Some y /\
            shm_size x = shm_size y /\ shm_frames x = shm_frames y /\
            (i <> id /\ x = y \/ i = id /\ shm_unlinked x = true /\ shm_counter x <> 0 /\ a' = a)).
  { intros i x Hx. destruct Hes as [[-> _]|(-> & Hc & Ha)].
    - apply lookup_delete_Some in Hx as [Hne Hx]. exists x. split_and!; [done..|]. left. by split.
    - apply lookup_insert_Some in Hx as [[<- <-]|[Hne Hx]]; [exists e|exists x]; simpl;
        (split_and!; [done..|]); [right|left]; by split_and!. }
  assert (Hold : forall i x, i <> id -> entry_table t !! i = Some x -> es !! i = Some x).
  { intros i x Hne Hx. destruct Hes as [[-> _]|(-> & _)]; [by rewrite lookup_delete_ne|by rewrite lookup_insert_ne]. }
  constructor; simpl.
  - intros nm i [Hne Hl]%lookup_delete_Some. destruct (W1 nm i Hl) as (x & Hx & Hu). exists x. split; [|done].
    apply Hold; [|done]. intros ->. by apply Hne, (W2 name nm id).
  - intros nm nm' i [_ H1]%lookup_delete_Some [_ H2]%lookup_delete_Some. by apply (W2 nm nm' i).
  - intros i x Hx Hu. destruct (Hsub i x Hx) as (y & Hy & _ & _ & [[Hne ->]|(_ & ? & _)]); [|congruence].
    destruct (W3 i y Hy Hu) as [nm Hnm]. exists nm. apply lookup_delete_Some. split; [|done]. intros <-. congruence.
  - intros i x Hx Hu. destruct (Hsub i x Hx) as (y & Hy & _ & _ & [[Hne ->]|(_ & _ & ? & _)]); [by apply (W4 i)|done].
  - intros i x Hx. destruct (Hsub i x Hx) as (y & Hy & _). by apply (W5 i y).
  - intros i x Hx. destruct (Hsub i x Hx) as (y & Hy & -> & -> & _). by apply (W6 i).
  - intros i x Hx. destruct (Hsub i x Hx) as (y & Hy & _ & -> & Hc). destruct (W7 i y Hy) as (? & ? & Hf).
    split_and!; [done|done|]. intros f Hin Hfr. destruct Hes as [[_ Ha]|(_ & _ & Ha)].
    + destruct (Ha f Hfr) as [?|Hin']; [by apply (Hf f)|]. destruct Hc as [[Hne _]|(_ & _ & _ & ->)]; [|by apply (Hf f)].
      by apply Hne, (W8 i id y e f).
    + subst a'. by apply (Hf f).
  - intros i i' x x' f Hx Hx'. destruct (Hsub i x Hx) as (y & Hy & _ & -> & _).
    destruct (Hsub i' x' Hx') as (y' & Hy' & _ & -> & _). by apply (W8 i i' y y' f).
Qed.

(** Unlinking removes exactly the name; a segment that nobody is attached to is deleted
    and exactly its frames become free, any other stays until the last detach; the tables
    stay consistent. *)
Theorem shm_unlink_correct (a : A) (t : ShmTables) (name : string) :
  fa_inv a -> shm_wf a t ->
  match naming_table t !! name with
  | None => shm_unlink a t name = Ret (errno_to_isize ENOENT, t, a)
  | Some id => exists e t' a', entry_table t !! id = Some e /\ shm_unlink a t name = Ret (0, t', a') /\
      fa_inv a' /\ shm_wf a' t' /\ naming_table t' = delete name (naming_table t) /\
      if decide (shm_counter e = 0)
      then entry_table t' = delete id (entry_table t) /\
           (forall f, fa_is_free a' f <-> fa_is_free a f \/ in_range f (shm_frames e))
      else a' = a /\
           entry_table t' = <[id := mkShm (shm_size e) (shm_frames e) (shm_counter e) true]> (entry_table t)
  end.
Proof.
  intros Hinv W. unfold shm_unlink. destruct (naming_table t !! name) as [id|] eqn:Hname; [|done].
  destruct (sw_names _ _ W name id Hname) as (e & He & _). rewrite He. exists e.
  destruct (sw_frames _ _ W id e He) as (Hblk & Hpos & Hnf).
  destruct (Z.eqb_spec (shm_counter e) 0) as [Hc|Hc].
  - unfold shm_delete. simpl entry_table. rewrite lookup_insert_eq. simpl shm_frames.
    destruct (fa_free_block a (shm_frames e) Hinv Hblk Hpos Hnf) as (a' & -> & I' & Hf).
    cbn [mbind outcome_bind]. eexists _, _. split; [done|]. split; [done|]. rewrite decide_True by done. simpl.
    rewrite delete_insert_eq.
    split_and!; [done| |done|done|done].
    apply (shm_unlinked_wf a a' t name id e); try done. left. split; [done|]. intros f. rewrite Hf. tauto.
  - eexists _, _. split; [done|]. split; [done|]. rewrite decide_False by done. simpl.
    split_and!; [done| |done|done|done]. apply (shm_unlinked_wf a a t name id e); try done. right. done.
Qed.

End ShmProofs.

(** ** Examples and what goes wrong *)

Lemma shm_open_correct_witness :
  match shm_open example_frames shm_tables_new "seg" 5000 true with
  | Ret (ret, t', a') => shm_wf a' t' /\ ret = 0 /\ is_Some (entry_table t' !! 0)
  | Panic _ => False
  end.
Proof.
  pose proof (shm_open_correct example_frames shm_tables_new "seg" 5000 true example_inv
    (shm_new_wf example_frames) ltac:(lia) ltac:(reflexivity) ltac:(simpl; lia)) as H.
  destruct (shm_open _ _ _ _ _) as [[[ret t'] a']|] eqn:E; [|vm_compute in E; discriminate].
  split; [exact (proj1 (proj2 H))|]. vm_compute in E. injection E as <- <- _.
  split; [reflexivity|]. eexists. vm_compute. reflexivity.
Defined.

(** A segment of one frame, 9, that nobody is attached to. *)
Definition example_shm : ShmTables :=
  mkShmTables {["seg" := 0]} {[0 := shm_entry_new 4096 (mkRange 9 10)]} 1.

Lemma example_shm_wf : shm_wf example_frames example_shm.
Proof.
  assert (He : forall id e, entry_table example_shm !! id = Some e -> id = 0 /\ e = shm_entry_new 4096 (mkRange 9 10)).
  { simpl. intros id e [<- <-]%lookup_singleton_Some. done. }
  assert (Hn : forall nm id, naming_table example_shm !! nm = Some id -> nm = "seg"%string /\ id = 0).
  { simpl. intros nm id [<- <-]%lookup_singleton_Some. done. }
  constructor.
  - intros nm id [-> ->]%Hn. by eexists.
  - intros nm nm' id [-> _]%Hn [-> _]%Hn. done.
  - intros id e [-> ->]%He _. by exists "seg"%string.
  - intros id e [-> ->]%He. done.
  - intros id e [-> ->]%He. simpl. lia.
  - intros id e [-> ->]%He. exists 1. unfold range_len. simpl. unfold PAGE_SIZE. lia.
  - intros id e [-> ->]%He. simpl shm_frames. split; [unfold fa_block; simpl; unfold nonempty; simpl; lia|].
    split; [simpl; lia|]. intros f Hf. unfold in_range in Hf. simpl in Hf. rewrite (example_free f). lia.
  - intros id id' e e' f [-> _]%He [-> _]%He. done.
Qed.

Lemma shm_unlink_correct_witness :
  exists t' a', shm_unlink example_frames example_shm "seg" = Ret (0, t', a') /\ shm_wf a' t' /\ fa_is_free a' 9.
Proof.
  destruct (shm_unlink_correct example_frames example_shm "seg" example_inv example_shm_wf)
    as (e & t' & a' & He & H1 & _ & H2 & _ & H3).
  exists t', a'. split; [exact H1|]. split; [exact H2|]. vm_compute in He. injection He as <-.
  apply (proj2 H3 9). right. unfold in_range. simpl. lia.
Defined.

(** Two processes attach a new segment; the first detaches twice, then the segment is
    unlinked. *)
Definition detach_twice : outcome (VirtualAddressSpace * FrameState * Z) :=
  let p1 := mkVas [] (mkPaging 3 5 (zero_table 3)) USER_SPACE_START (2 ^ 47 - 1) in
  let p2 := mkVas [] (mkPaging 3 6 (zero_table 3)) USER_SPACE_START (2 ^ 47 - 1) in
  '(id, t1, a1) ← shm_open example_frames shm_tables_new "seg" 4096 true;
  '(ptr1, t2, p1', a2) ← shm_attach a1 t1 p1 id false;
  '(ptr2, t3, p2', a3) ← shm_attach a2 t2 p2 id false;
  '(_, t4, p1'', a4) ← shm_detach a3 t3 p1' ptr1;
  '(_, t5, _, a5) ← shm_detach a4 t4 p1'' ptr1;
  '(_, t6, a6) ← shm_unlink a5 t5 "seg";
  Ret (p2', a6, ptr2).

(** [detach] leaves the area of the segment in the address space, so a process can detach
    it again and drop another process' attachment: the second process still has the frame
    mapped, and writable, when unlinking the segment has given it back to the allocator. *)
Theorem detach_twice_frees_shared_frame :
  exists p2 a ptr phys, detach_twice = Ret (p2, a, ptr) /\
    paging_translate (page_tables p2) ptr = Ret (Some phys) /\ fa_is_free a (phys / PAGE_SIZE).
Proof.
  destruct detach_twice as [[[p2 a] ptr]|] eqn:E; [|vm_compute in E; discriminate].
  exists p2, a, ptr. vm_compute in E. injection E as <- <- <-.
  eexists. split; [done|]. split; [vm_compute; reflexivity|].
  apply (bool_decide_unpack _). vm_compute. exact I.
Qed.

(** Only the first segment ever created can be detached: for any other id [detach] reports
    an invalid argument and the segment stays attached. *)
Lemma detach_rejects_other_segments {A} `{FrameAllocator A} (a : A) (t : ShmTables) (s : VirtualAddressSpace)
    (ptr : Z) (vma : VirtualMemoryArea) (id : Z) :
  is_address_within_vma s ptr = Ret (Some vma) -> vma_typ vma = SharedMemory id -> id <> 0 ->
  shm_detach a t s ptr = Ret (errno_to_isize EINVAL, t, s, a).
Proof.
  intros Hv Ht Hid. unfold shm_detach. rewrite Hv. cbn [mbind outcome_bind]. rewrite Ht.
  rewrite bool_decide_eq_false_2 by congruence. done.
Qed.
