(* ===== verification/Tmpfs.v ===== *)
(** * Path names, and the temporary file system *)

From Stdlib Require Import Ascii.
From S2P Require Import Prelude.
From S2P Require Import Errno.

Open Scope string_scope.
Open Scope Z_scope.

(** * Paths: the string operations the naming service uses

    [str::split("/")], [\[&str\]::join("/")] and [str::rsplit_once("/")] of the Rust
    standard library, on strings as lists of characters. *)

Definition is_slash (c : Ascii.ascii) : bool := Ascii.eqb c "/"%char.

(** [s.split("/")]: the parts between slashes, at least one. *)
Fixpoint split_slash (s : string) : list string :=
  match s with
  | EmptyString => [""]
  | String c s' =>
      if is_slash c then "" :: split_slash s'
      else match split_slash s' with
           | x :: xs => String c x :: xs
           | [] => [String c ""]
           end
  end.

(** [parts.join("/")] *)
Fixpoint join_slash (parts : list string) : string :=
  match parts with
  | [] => ""
  | [x] => x
  | x :: xs => x +:+ String "/" (join_slash xs)
  end.

(** [s.rsplit_once("/")] *)
Definition rsplit_once (s : string) : option (string * string) :=
  match rev (split_slash s) with
  | [] | [_] => None
  | name :: rest => Some (join_slash (rev rest), name)
  end.

(** A path component holds no slash. *)
Fixpoint no_slash (s : string) : bool :=
  match s with
  | EmptyString => true
  | String c s' => negb (is_slash c) && no_slash s'
  end.

Lemma split_slash_ne s : split_slash s <> [].
Proof. destruct s as [|c s]; [done|]. simpl. destruct (is_slash c); [done|]. by destruct (split_slash s). Qed.

Lemma join_split s : join_slash (split_slash s) = s.
Proof.
  induction s as [|c s IH]; [done|]. pose proof (split_slash_ne s) as Hne. simpl.
  destruct (is_slash c) eqn:Hc.
  - apply Ascii.eqb_eq in Hc as ->. destruct (split_slash s) as [|y ys] eqn:E; [done|].
    change (join_slash ("" :: y :: ys)) with (String "/" (join_slash (y :: ys))). by rewrite IH.
  - destruct (split_slash s) as [|y ys] eqn:E; [done|]. rewrite <- IH. by destruct ys.
Qed.

Lemma split_no_slash s : no_slash s = true -> split_slash s = [s].
Proof.
  induction s as [|c s IH]; [done|]. simpl. intros [Hc Hs]%andb_true_iff.
  apply negb_true_iff in Hc. by rewrite Hc, IH.
Qed.

Lemma split_app_slash x s : no_slash x = true -> split_slash (x +:+ String "/" s) = x :: split_slash s.
Proof.
  induction x as [|c x IH]; [done|]. simpl. intros [Hc Hx]%andb_true_iff.
  apply negb_true_iff in Hc. by rewrite Hc, IH.
Qed.

Lemma split_join parts :
  parts <> [] -> Forall (fun x => no_slash x = true) parts -> split_slash (join_slash parts) = parts.
Proof.
  intros Hne Hall. induction Hall as [|x xs Hx Hxs IH]; [done|]. destruct xs as [|y ys].
  - simpl. by apply split_no_slash.
  - change (join_slash (x :: y :: ys)) with (x +:+ String "/" (join_slash (y :: ys))).
    rewrite split_app_slash by done. by rewrite IH.
Qed.

Lemma split_parts_no_slash s : Forall (fun x => no_slash x = true) (split_slash s).
Proof.
  induction s as [|c s IH]; [by constructor|]. simpl. destruct (is_slash c) eqn:Hc; [by constructor|].
  destruct (split_slash s) as [|y ys]; [by repeat constructor; simpl; rewrite Hc|].
  apply Forall_cons in IH as [Hy Hys]. constructor; [|done]. simpl. by rewrite Hc.
Qed.

Lemma length_append (s t : string) : String.length (s +:+ t) = (String.length s + String.length t)%nat.
Proof.
  induction s as [|c s IH]; [done|]. change (String c s +:+ t) with (String c (s +:+ t)). simpl. by rewrite IH.
Qed.

Lemma append_assoc (s t u : string) : (s +:+ t) +:+ u = s +:+ (t +:+ u).
Proof.
  induction s as [|c s IH]; [done|]. change ((String c s +:+ t) +:+ u) with (String c ((s +:+ t) +:+ u)).
  change (String c s +:+ (t +:+ u)) with (String c (s +:+ (t +:+ u))). by rewrite IH.
Qed.

(** * The temporary file system ([os/kernel/src/naming/tmpfs.rs], [stat.rs])

    Files, static files and directories, all in main memory.  An [Arc] of the code
    is an id into a store of inodes, so that a file reached through two handles is
    one object.  Named pipes have their own file, [Pipe]; here a pipe is only an
    entry of a directory. *)

(** ** Metadata *)

(* os/kernel/src/naming/stat.rs: MODE_FILE, MODE_DIR, MODE_LINK *)
Definition MODE_FILE : Z := 1.
Definition MODE_DIR : Z := 2.
Definition MODE_LINK : Z := 3.

(** A [Mode] is its number. *)
(* [os/kernel/src/naming/stat.rs:15-22] Stat *)
Record Stat := mkStat {
  st_mode : Z;
  st_size : Z;
  st_created_time : Z;
  st_modified_time : Z;
  st_accessed_time : Z
}.

(* [os/kernel/src/naming/stat.rs:34-42] Stat::zeroed *)
Definition stat_zeroed : Stat := mkStat MODE_FILE 0 0 0 0.

(** [Stat { mode: Mode::new(0), ..Stat::zeroed() }] *)
Definition stat_mode_0 : Stat := mkStat 0 0 0 0 0.

(* os/kernel/src/naming/stat.rs: Mode::is_directory *)
Definition mode_is_directory (m : Z) : bool := Z.land m MODE_DIR =? MODE_DIR.
(* os/kernel/src/naming/stat.rs: Mode::is_file *)
Definition mode_is_file (m : Z) : bool := Z.land m MODE_FILE =? MODE_FILE.
(* os/kernel/src/naming/stat.rs: Mode::is_link *)
Definition mode_is_link (m : Z) : bool := Z.land m MODE_LINK =? MODE_LINK.

(** ** Files *)

(* os/kernel/src/naming/tmpfs.rs: File *)
Record File := mkFile { file_data : list Z; file_stat : Stat }.

(* [os/kernel/src/naming/tmpfs.rs:217-227] File::new *)
Definition file_new : File := mkFile [] stat_mode_0.

(** [buf\[0..len\].clone_from_slice(bytes)] *)
Definition copy_into (buf bytes : list Z) : list Z := bytes ++ drop (length bytes) buf.

(** The common part of the two [read]s: the bytes from [offset] on that fit into the
    buffer, and the new buffer. *)
(* [os/kernel/src/naming/tmpfs.rs:234-244] File::read *)
Definition data_read (data : list Z) (buf : list Z) (offset : Z) : Z * list Z :=
  if offset >? Z.of_nat (length data) then (0, buf)
  else
    let avail := Z.of_nat (length data) - offset in
    let len := if avail <? Z.of_nat (length buf) then avail else Z.of_nat (length buf) in
    (len, copy_into buf (take (Z.to_nat len) (drop (Z.to_nat offset) data))).

Definition file_read (f : File) (buf : list Z) (offset : Z) : Z * list Z := data_read (file_data f) buf offset.

(** [isize::MAX], the most bytes a [Vec] can hold. *)
Definition ISIZE_MAX : Z := 2 ^ 63 - 1.

(** [data.resize(n, 0)], within the bound *)
Definition vec_resize (data : list Z) (n : nat) : list Z := take n data ++ replicate (n - length data) 0.

(** [data\[offset..offset + buf.len()\].clone_from_slice(buf)] *)
Definition splice (data : list Z) (offset : nat) (buf : list Z) : list Z :=
  take offset data ++ buf ++ drop (offset + length buf) data.

(* os/kernel/src/naming/tmpfs.rs: File::write *)
Definition grow (f : File) (end_pos : Z) : outcome File :=
  if end_pos >? Z.of_nat (length (file_data f)) then
    let stat := file_stat f in
    _ ← rust_assert (end_pos <=? ISIZE_MAX) "capacity overflow";
    Ret (mkFile (vec_resize (file_data f) (Z.to_nat end_pos))
           (mkStat (st_mode stat) end_pos (st_created_time stat) (st_modified_time stat) (st_accessed_time stat)))
  else Ret f.

(* [os/kernel/src/naming/tmpfs.rs:246-258] File::write *)
Definition file_write (f : File) (buf : list Z) (offset : Z) : outcome (Z * File) :=
  end_pos ← expect (checked_add offset (Z.of_nat (length buf))) "attempt to add with overflow";
  f1 ← grow f end_pos;
  Ret (Z.of_nat (length buf), mkFile (splice (file_data f1) (Z.to_nat offset) buf) (file_stat f1)).

(* os/kernel/src/naming/tmpfs.rs: StaticFile *)
Record StaticFile := mkStaticFile { static_data : list Z; static_stat : Stat }.

(* [os/kernel/src/naming/tmpfs.rs:272-282] StaticFile::new *)
Definition static_file_new (data : list Z) : StaticFile :=
  mkStaticFile data (mkStat MODE_FILE (Z.of_nat (length data)) 0 0 0).

(* [os/kernel/src/naming/tmpfs.rs:289-302] StaticFile::read *)
Definition static_file_read (f : StaticFile) (buf : list Z) (offset : Z) : Z * list Z :=
  if offset >? Z.of_nat (length (static_data f)) then (0, buf)
  else
    let avail := Z.of_nat (length (static_data f)) - offset in
    let len := if avail <? Z.of_nat (length buf) then avail else Z.of_nat (length buf) in
    (len, copy_into buf (take (Z.to_nat len) (drop (Z.to_nat offset) (static_data f)))).

(* os/kernel/src/naming/tmpfs.rs: StaticFile::write *)
Definition static_file_write (f : StaticFile) (buf : list Z) (offset : Z) : result Errno Z := Err ERDONLY.

(** ** Directories *)

(* [os/kernel/src/naming/tmpfs.rs:70-74] TmpFsINode *)
Inductive TmpFsINode := TFile (id : nat) | TPipe (id : nat) | TDirectory (id : nat).

(* os/kernel/src/naming/tmpfs.rs: DirInner *)
Record DirInner := mkDir { dir_files : list (string * TmpFsINode); dir_stat : Stat }.

(* [os/kernel/src/naming/tmpfs.rs:83-92] Dir::new *)
Definition dir_new : DirInner := mkDir [] stat_mode_0.

(** The objects behind the [Arc]s.  [IPipe] carries nothing here. *)
Inductive inode := IFile (f : File) | IStatic (f : StaticFile) | IPipe | IDir (d : DirInner).

Record TmpFs := mkTmpFs { inodes : gmap nat inode; next_inode : nat; root_inode : nat }.

(* [os/kernel/src/naming/tmpfs.rs:34-39] TmpFs::new *)
Definition tmpfs_new : TmpFs := mkTmpFs {[0%nat := IDir dir_new]} 1 0.

(** [Arc::new] *)
Definition alloc_inode (fs : TmpFs) (i : inode) : nat * TmpFs :=
  (next_inode fs, mkTmpFs (<[next_inode fs := i]> (inodes fs)) (S (next_inode fs)) (root_inode fs)).

Definition set_inode (fs : TmpFs) (id : nat) (i : inode) : TmpFs :=
  mkTmpFs (<[id := i]> (inodes fs)) (next_inode fs) (root_inode fs).

(** [files.iter().any(|(file_name, _)| file_name == name)] *)
Definition has_name (files : list (string * TmpFsINode)) (name : string) : bool :=
  existsb (fun e => String.eqb e.1 name) files.

(** [files.iter().find(|(file_name, _)| file_name == name)] *)
Definition find_name (files : list (string * TmpFsINode)) (name : string) : option TmpFsINode :=
  snd <$> List.find (fun e => String.eqb e.1 name) files.

(* [os/kernel/src/naming/tmpfs.rs:113-125] Dir::lookup *)
Definition dir_lookup (d : DirInner) (name : string) : result Errno TmpFsINode :=
  match find_name (dir_files d) name with
  | Some i => Ok i
  | None => Err ENOENT
  end.

(** What the four [create_*] functions do with the directory [id]: refuse a name that
    exists, otherwise make the object and append the entry. *)
(* [os/kernel/src/naming/tmpfs.rs:127-173] Dir::create_pipe, create_file, create_dir *)
Definition dir_create (fs : TmpFs) (id : nat) (d : DirInner) (name : string) (i : inode)
    (entry : nat -> TmpFsINode) : result Errno TmpFsINode * TmpFs :=
  if has_name (dir_files d) name then (Err EEXIST, fs)
  else
    let '(new_id, fs1) := alloc_inode fs i in
    (Ok (entry new_id), set_inode fs1 id (IDir (mkDir (dir_files d ++ [(name, entry new_id)]) (dir_stat d)))).

(* os/kernel/src/naming/tmpfs.rs: Dir::create_pipe *)
Definition create_pipe fs id d name := dir_create fs id d name IPipe TPipe.
(* os/kernel/src/naming/tmpfs.rs: Dir::create_file *)
Definition create_file fs id d name := dir_create fs id d name (IFile file_new) TFile.
(* os/kernel/src/naming/tmpfs.rs: Dir::create_dir *)
Definition create_dir fs id d name := dir_create fs id d name (IDir dir_new) TDirectory.
(* [os/kernel/src/naming/tmpfs.rs:94-108] Dir::create_static_file *)
Definition create_static_file fs id d name buffer := dir_create fs id d name (IStatic (static_file_new buffer)) TFile.

(* os/library/naming/src/shared_types.rs: FileType *)
Inductive FileType := NamedPipe | Directory | Regular | Link.

(* [os/library/naming/src/shared_types.rs:45-50] DirEntry *)
Record DirEntry := mkDirEntry { de_type : FileType; de_name : string }.

(* [os/kernel/src/naming/tmpfs.rs:179-203] Dir::readdir *)
Definition dir_readdir (d : DirInner) (index : Z) : option DirEntry :=
  match dir_files d !! Z.to_nat index with
  | None => None
  | Some (name, i) =>
      Some (match i with
            | TDirectory _ => mkDirEntry Directory name
            | TFile _ => mkDirEntry Regular name
            | TPipe _ => mkDirEntry NamedPipe name
            end)
  end.

(** The loop of [create_static_file] over the directories of the path: each is looked up
    and created if it is missing.  A dangling id cannot occur, an [Arc] keeps its object
    alive. *)
(* os/kernel/src/naming/tmpfs.rs: TmpFs::create_static_file *)
Fixpoint static_file_dirs (fs : TmpFs) (dir : nat) (components : list string)
    : outcome (result Errno nat * TmpFs) :=
  match components with
  | [] => Ret (Ok dir, fs)
  | component :: rest =>
      match inodes fs !! dir with
      | Some (IDir d) =>
          '(new_dir, fs1) ← (match dir_lookup d component with
                             | Ok i => Ret (i, fs)
                             | Err ENOENT =>
                                 match create_dir fs dir d component with
                                 | (Ok i, fs1) => Ret (i, fs1)
                                 | (Err _, _) => Panic "Failed to create directory"
                                 end
                             | Err _ => Panic "Failed to lookup or create directory"
                             end);
          match new_dir with
          | TDirectory id => static_file_dirs fs1 id rest
          | _ => Ret (Err EBADF, fs1)
          end
      | _ => Panic "dangling directory"
      end
  end.

(* [os/kernel/src/naming/tmpfs.rs:41-61] TmpFs::create_static_file *)
Definition tmpfs_create_static_file (fs : TmpFs) (path : string) (buffer : list Z)
    : outcome (result Errno TmpFsINode * TmpFs) :=
  let '(dirs, filename) := match rsplit_once path with
                           | None => (EmptyString, path)
                           | Some (p, name) => (p, name)
                           end in
  '(r, fs1) ← static_file_dirs fs (root_inode fs) (filter (fun c => c <> EmptyString) (split_slash dirs));
  match r with
  | Err e => Ret (Err e, fs1)
  | Ok dir =>
      match inodes fs1 !! dir with
      | Some (IDir d) => Ret (create_static_file fs1 dir d filename buffer)
      | _ => Panic "dangling directory"
      end
  end.

(** ** Reading and writing *)

(** The size in the metadata is the length of the data. *)
Definition file_wf (f : File) : Prop := st_size (file_stat f) = Z.of_nat (length (file_data f)).

(** The byte at a position; past the end there is nothing. *)
Definition byte_at (data : list Z) (i : Z) : option Z := if i <? 0 then None else data !! Z.to_nat i.

Lemma byte_at_nonneg data i : 0 <= i -> byte_at data i = data !! Z.to_nat i.
Proof. intros Hi. unfold byte_at. by rewrite (proj2 (Z.ltb_ge i 0)). Qed.

Lemma splice_lookup data o buf i :
  (o + length buf <= length data)%nat ->
  splice data o buf !! i = if decide (o <= i < o + length buf)%nat then buf !! (i - o)%nat else data !! i.
Proof.
  intros Hl. unfold splice. case_decide as Hi.
  - rewrite lookup_app_r, lookup_app_l by (rewrite length_take; lia). f_equal. rewrite length_take. lia.
  - destruct (decide (i < o)%nat).
    + rewrite lookup_app_l by (rewrite length_take; lia). by rewrite lookup_take_lt by lia.
    + rewrite lookup_app_r, lookup_app_r by (rewrite length_take; lia). rewrite lookup_drop, length_take. f_equal. lia.
Qed.

Lemma vec_resize_lookup data n i :
  (length data <= n)%nat ->
  vec_resize data n !! i = if decide (i < length data)%nat then data !! i else if decide (i < n)%nat then Some 0 else None.
Proof.
  intros Hl. unfold vec_resize. rewrite take_ge by lia. case_decide.
  - by rewrite lookup_app_l.
  - rewrite lookup_app_r by lia. case_decide; [by rewrite lookup_replicate_2 by lia|].
    apply lookup_replicate_None. lia.
Qed.

Lemma grow_spec f e :
  file_wf f -> 0 <= e ->
  match grow f e with
  | Ret f1 => file_wf f1 /\
      length (file_data f1) = Nat.max (length (file_data f)) (Z.to_nat e) /\
      (forall i, (i < length (file_data f1))%nat -> file_data f1 !! i
         = if decide (i < length (file_data f))%nat then file_data f !! i else Some 0)
  | Panic _ => ISIZE_MAX < e
  end.
Proof.
  intros Hwf He. unfold grow. destruct (Z.gtb_spec e (Z.of_nat (length (file_data f)))); simpl.
  - destruct (Z.leb_spec e ISIZE_MAX); simpl; [|done].
    assert (Hlen : length (vec_resize (file_data f) (Z.to_nat e)) = Z.to_nat e).
    { unfold vec_resize. rewrite length_app, length_take, length_replicate. lia. }
    unfold file_wf. simpl. rewrite Hlen. split_and!; [lia|lia|]. intros i Hi. rewrite vec_resize_lookup by lia.
    case_decide; [done|]. by rewrite decide_True.
  - split_and!; [done|lia|]. intros i Hi. by rewrite decide_True.
Qed.

(** Writing to a file stores exactly the bytes of the buffer at the offset: all other bytes
    keep their value, a gap behind the old end reads as zero, the file grows just as far
    as needed and its recorded size stays its length; the only panic is a write that ends
    past the largest size a vector can have. *)
Theorem file_write_correct (f : File) (buf : list Z) (offset : Z) :
  file_wf f -> 0 <= offset ->
  match file_write f buf offset with
  | Ret (n, f') =>
      n = Z.of_nat (length buf) /\ file_wf f' /\
      length (file_data f') = Nat.max (length (file_data f)) (Z.to_nat offset + length buf) /\
      (forall i, 0 <= i < Z.of_nat (length (file_data f')) ->
         byte_at (file_data f') i
           = if decide (offset <= i < offset + Z.of_nat (length buf)) then byte_at buf (i - offset)
             else if decide (i < Z.of_nat (length (file_data f))) then byte_at (file_data f) i else Some 0)
  | Panic _ => ISIZE_MAX < offset + Z.of_nat (length buf)
  end.
Proof.
  intros Hwf Ho. pose proof (grow_spec f (offset + Z.of_nat (length buf)) Hwf ltac:(lia)) as Hg.
  unfold file_write, checked_add. set (e := offset + Z.of_nat (length buf)) in *.
  destruct (Z.leb_spec e U64_MAX) as [He|He]; simpl; [|unfold ISIZE_MAX, U64_MAX in *; lia].
  destruct (grow f e) as [f1|msg]; simpl; [|done].
  destruct Hg as (Hs & Hlen & Hlk).
  assert (Hlen' : length (splice (file_data f1) (Z.to_nat offset) buf) = length (file_data f1)).
  { unfold splice. rewrite !length_app, length_take, length_drop. lia. }
  split_and!; [done|unfold file_wf in *; simpl; lia|simpl; lia|]. simpl. intros i Hi.
  rewrite (byte_at_nonneg (splice _ _ _)), (byte_at_nonneg (file_data f)), splice_lookup by lia. unfold e in *.
  destruct (decide (offset <= i < offset + Z.of_nat (length buf))).
  - rewrite decide_True by lia. rewrite byte_at_nonneg by lia. f_equal. lia.
  - rewrite decide_False by lia. rewrite Hlk by lia. repeat case_decide; try lia; done.
Qed.

Lemma file_write_correct_witness :
  exists f', file_write file_new [7; 8] 3 = Ret (2, f') /\ file_wf f' /\ byte_at (file_data f') 4 = Some 8.
Proof.
  pose proof (file_write_correct file_new [7; 8] 3 ltac:(reflexivity) ltac:(lia)) as H.
  destruct (file_write file_new [7; 8] 3) as [[n f']|] eqn:E; [|vm_compute in E; discriminate].
  exists f'. destruct H as (-> & H1 & _ & H2). split; [reflexivity|]. split; [exact H1|].
  vm_compute in E. injection E as <-. reflexivity.
Defined.

(** Reading returns the bytes from the offset on, as many as there are and as fit. *)
Lemma data_read_spec data buf offset :
  0 <= offset ->
  let '(n, buf') := data_read data buf offset in
  n = Z.min (Z.of_nat (length buf)) (Z.max 0 (Z.of_nat (length data) - offset)) /\ length buf' = length buf /\
  (forall i, 0 <= i < Z.of_nat (length buf) ->
     byte_at buf' i = if decide (i < n) then byte_at data (offset + i) else byte_at buf i).
Proof.
  intros Ho. unfold data_read. destruct (Z.gtb_spec offset (Z.of_nat (length data))).
  - split_and!; [lia|done|]. intros i Hi. by rewrite decide_False by lia.
  - set (len := if _ <? _ then _ else _).
    assert (Hlen : len = Z.min (Z.of_nat (length buf)) (Z.of_nat (length data) - offset)) by (unfold len; case_test; lia).
    set (bytes := take (Z.to_nat len) (drop (Z.to_nat offset) data)).
    assert (Hb : length bytes = Z.to_nat len) by (unfold bytes; rewrite length_take, length_drop; lia).
    split_and!; [lia|unfold copy_into; rewrite length_app, length_drop; lia|].
    intros i Hi. rewrite !byte_at_nonneg by lia. unfold copy_into. case_decide.
    + rewrite lookup_app_l by lia. unfold bytes. rewrite lookup_take_lt, lookup_drop by lia. f_equal. lia.
    + rewrite lookup_app_r, lookup_drop by lia. f_equal. lia.
Qed.

(** ** Directories *)

Lemma has_name_spec files name : has_name files name = true <-> name ∈ files.*1.
Proof.
  unfold has_name. rewrite existsb_exists, list_elem_of_fmap. split.
  - intros ([n i] & Hin%list_elem_of_In & Heq%String.eqb_eq). by exists (n, i).
  - intros ([n i] & -> & Hin%list_elem_of_In). exists (n, i). split; [done|]. apply String.eqb_refl.
Qed.

Lemma find_name_none files name : name ∉ files.*1 -> find_name files name = None.
Proof.
  induction files as [|[n i] files IH]; [done|]. intros [Hne Hn]%not_elem_of_cons.
  unfold find_name. simpl. rewrite (proj2 (String.eqb_neq n name)) by done. by apply IH.
Qed.

Lemma find_name_some files name : name ∈ files.*1 -> is_Some (find_name files name).
Proof.
  induction files as [|[n i] files IH]; [by intros ?%elem_of_nil|]. unfold find_name. simpl.
  destruct (String.eqb_spec n name); [by eexists|]. intros [->|Hin]%elem_of_cons; [done|]. by apply IH.
Qed.

Lemma find_name_app files k name :
  find_name (files ++ k) name = match find_name files name with Some i => Some i | None => find_name k name end.
Proof.
  unfold find_name. induction files as [|[n i] files IH]; [done|]. simpl. by destruct (String.eqb n name).
Qed.

Lemma find_name_elem files name i : find_name files name = Some i -> (name, i) ∈ files.
Proof.
  induction files as [|[n j] files IH]; [done|]. unfold find_name. simpl.
  destruct (String.eqb_spec n name) as [->|]; [intros [= ->]; by left|]. intros H. right. by apply IH.
Qed.

(** The object an entry refers to exists and is of the entry's kind. *)
Definition entry_valid (m : gmap nat inode) (n : TmpFsINode) : Prop :=
  match n with
  | TFile id => exists i, m !! id = Some i /\ match i with IFile _ | IStatic _ => True | _ => False end
  | TPipe id => m !! id = Some IPipe
  | TDirectory id => exists d, m !! id = Some (IDir d)
  end.

Record fs_wf (fs : TmpFs) : Prop := {
  fw_root : entry_valid (inodes fs) (TDirectory (root_inode fs));
  fw_next id i : inodes fs !! id = Some i -> (id < next_inode fs)%nat;
  fw_entries id d name n : inodes fs !! id = Some (IDir d) -> (name, n) ∈ dir_files d -> entry_valid (inodes fs) n;
  fw_names id d : inodes fs !! id = Some (IDir d) -> NoDup (dir_files d).*1;
  fw_files id f : inodes fs !! id = Some (IFile f) -> file_wf f
}.

Lemma tmpfs_new_wf : fs_wf tmpfs_new.
Proof.
  assert (H : forall id i, inodes tmpfs_new !! id = Some i -> id = 0%nat /\ i = IDir dir_new).
  { simpl. intros id i [<- <-]%lookup_singleton_Some. done. }
  constructor.
  - exists dir_new. apply lookup_singleton_eq.
  - intros id i [-> _]%H. simpl. lia.
  - intros id d name n [_ [= ->]]%H Hin. by apply elem_of_nil in Hin.
  - intros id d [_ [= ->]]%H. apply NoDup_nil_2.
  - intros id f [_ ?]%H. done.
Qed.

(** Entries stay valid when an object is replaced by one of the same kind, or added. *)
Lemma entry_valid_insert m id i n :
  (forall j, m !! id = Some j -> match j, i with
     | IDir _, IDir _ | IPipe, IPipe | IFile _, IFile _ | IStatic _, IStatic _ => True | _, _ => False end) ->
  entry_valid m n -> entry_valid (<[id := i]> m) n.
Proof.
  intros Hk. destruct n as [x|x|x]; simpl.
  - intros (j & Hj & Hm). destruct (decide (id = x)) as [<-|Hne]; [|exists j; by rewrite lookup_insert_ne].
    specialize (Hk j Hj). exists i. rewrite lookup_insert_eq. split; [done|]. by destruct j, i.
  - intros Hj. destruct (decide (id = x)) as [<-|Hne]; [|by rewrite lookup_insert_ne].
    specialize (Hk _ Hj). rewrite lookup_insert_eq. by destruct i.
  - intros (d & Hj). destruct (decide (id = x)) as [<-|Hne]; [|exists d; by rewrite lookup_insert_ne].
    specialize (Hk _ Hj). rewrite lookup_insert_eq. destruct i; try done. by eexists.
Qed.

(** What [dir_create] is given: a fresh object and the entry for it. *)
Definition creates (i : inode) (entry : nat -> TmpFsINode) : Prop :=
  match i with
  | IFile f => file_wf f /\ entry = TFile
  | IStatic _ => entry = TFile
  | IPipe => entry = TPipe
  | IDir d => d = dir_new /\ entry = TDirectory
  end.

Lemma creates_dir : creates (IDir dir_new) TDirectory.
Proof. done. Qed.
Lemma creates_file : creates (IFile file_new) TFile.
Proof. done. Qed.
Lemma creates_pipe : creates IPipe TPipe.
Proof. done. Qed.
Lemma creates_static b : creates (IStatic b) TFile.
Proof. done. Qed.
#[export] Hint Resolve creates_dir creates_file creates_pipe creates_static : d3os.

Lemma creates_valid m i entry id : creates i entry -> m !! id = Some i -> entry_valid m (entry id).
Proof.
  destruct i; simpl; intros Hc Hl.
  - destruct Hc as [_ ->]. by eexists.
  - rewrite Hc. by eexists.
  - by rewrite Hc.
  - destruct Hc as [_ ->]. by eexists.
Qed.

Lemma dir_create_wf fs id d name i entry :
  fs_wf fs -> inodes fs !! id = Some (IDir d) -> creates i entry -> name ∉ (dir_files d).*1 ->
  fs_wf (set_inode (alloc_inode fs i).2 id (IDir (mkDir (dir_files d ++ [(name, entry (next_inode fs))]) (dir_stat d)))).
Proof.
  intros [W1 W2 W3 W4 W5] Hd Hc Hn. set (new := next_inode fs).
  assert (Hne : id <> new) by (apply W2 in Hd; unfold new; lia).
  assert (Hnew : inodes fs !! new = None).
  { destruct (inodes fs !! new) eqn:E; [|done]. apply W2 in E. unfold new in E. lia. }
  set (d' := mkDir (dir_files d ++ [(name, entry new)]) (dir_stat d)).
  set (m' := <[id := IDir d']> (<[new := i]> (inodes fs))).
  assert (Hold : forall n, entry_valid (inodes fs) n -> entry_valid m' n).
  { intros n Hv. apply entry_valid_insert; [|apply entry_valid_insert; [|done]].
    - intros j. rewrite lookup_insert_ne, Hd by done. by intros [= <-].
    - intros j. by rewrite Hnew. }
  assert (Hlk : forall x j, m' !! x = Some j -> x = id /\ j = IDir d' \/ x = new /\ j = i \/
            x <> id /\ inodes fs !! x = Some j).
  { intros x j [[<- <-]|[? [[<- <-]|[? ?]]%lookup_insert_Some]]%lookup_insert_Some; [by left|right; by left|].
    right. right. by split. }
  assert (Hent : entry_valid m' (entry new)).
  { apply (creates_valid m' i); [done|]. unfold m'. rewrite lookup_insert_ne by done. apply lookup_insert_eq. }
  constructor; simpl; fold new d' m'.
  - exact (Hold _ W1).
  - intros x j [[-> _]|[[-> _]|[_ Hx]]]%Hlk; [apply W2 in Hd; lia|unfold new; lia|apply W2 in Hx; lia].
  - intros x dx nm n [[-> [= ->]]|[[-> Hi]|[_ Hx]]]%Hlk Hin.
    + simpl in Hin. apply elem_of_app in Hin as [Hin|[= _ ->]%list_elem_of_singleton]; [|done]. by eapply Hold, W3.
    + subst i. simpl in Hc. destruct Hc as [-> _]. by apply elem_of_nil in Hin.
    + by eapply Hold, W3.
  - intros x dx [[-> [= ->]]|[[-> Hi]|[_ Hx]]]%Hlk.
    + simpl. rewrite fmap_app. apply NoDup_app. split_and!; [by eapply W4| |apply NoDup_singleton].
      intros y Hy ->%list_elem_of_singleton. done.
    + subst i. simpl in Hc. destruct Hc as [-> _]. apply NoDup_nil_2.
    + by eapply W4.
  - intros x f [[_ ?]|[[-> Hi]|[_ Hx]]]%Hlk; [done| |by eapply W5]. subst i. apply Hc.
Qed.

Lemma dir_create_spec (fs : TmpFs) (id : nat) (d : DirInner) (name : string) (i : inode)
    (entry : nat -> TmpFsINode) :
  fs_wf fs -> inodes fs !! id = Some (IDir d) -> creates i entry ->
  match dir_create fs id d name i entry with
  | (Err e, fs') => e = EEXIST /\ fs' = fs /\ is_ok (dir_lookup d name) = true
  | (Ok n, fs') =>
      is_ok (dir_lookup d name) = false /\ fs_wf fs' /\
      exists d', inodes fs' !! id = Some (IDir d') /\ dir_lookup d' name = Ok n /\
        (forall nm, nm <> name -> dir_lookup d' nm = dir_lookup d nm) /\
        n = entry (next_inode fs) /\ inodes fs' !! next_inode fs = Some i /\
        (forall x, x <> id -> x <> next_inode fs -> inodes fs' !! x = inodes fs !! x)
  end.
Proof.
  intros W Hd Hc. unfold dir_create. pose proof (has_name_spec (dir_files d) name) as Hhas.
  destruct (has_name (dir_files d) name) eqn:Hn.
  - split_and!; [done|done|]. unfold dir_lookup. by destruct (find_name_some _ _ (proj1 Hhas eq_refl)) as [? ->].
  - assert (Hnin : name ∉ (dir_files d).*1) by (intros ?%Hhas; done).
    pose proof (dir_create_wf fs id d name i entry W Hd Hc Hnin) as W'.
    assert (Hne : id <> next_inode fs) by (apply (fw_next fs W) in Hd; lia).
    simpl in *. split; [unfold dir_lookup; by rewrite find_name_none|]. split; [done|].
    eexists. split; [apply lookup_insert_eq|]. unfold dir_lookup. simpl. split_and!.
    + rewrite find_name_app, find_name_none by done. unfold find_name. simpl. by rewrite String.eqb_refl.
    + intros nm Hnm. rewrite find_name_app. destruct (find_name (dir_files d) nm); [done|].
      unfold find_name. simpl. by rewrite (proj2 (String.eqb_neq name nm)) by done.
    + done.
    + rewrite lookup_insert_ne by done. apply lookup_insert_eq.
    + intros x Hx Hx'. by rewrite !lookup_insert_ne by done.
Qed.

(** Creating a file, static file, pipe or directory: a name in use is refused and nothing
    changes; otherwise the new, empty object is found under exactly the new name, every
    other name of the directory and every other object stay as they were, and the file
    system stays well formed (no dangling entries, no name twice in a directory). *)
Theorem dir_create_correct (fs : TmpFs) (id : nat) (d : DirInner) (name : string) (i : inode)
    (entry : nat -> TmpFsINode) :
  fs_wf fs -> inodes fs !! id = Some (IDir d) -> creates i entry ->
  match dir_create fs id d name i entry with
  | (Err e, fs') => e = EEXIST /\ fs' = fs /\ is_ok (dir_lookup d name) = true
  | (Ok n, fs') =>
      is_ok (dir_lookup d name) = false /\ fs_wf fs' /\
      exists d', inodes fs' !! id = Some (IDir d') /\ dir_lookup d' name = Ok n /\
        (forall nm, nm <> name -> dir_lookup d' nm = dir_lookup d nm) /\
        n = entry (next_inode fs) /\ inodes fs' !! next_inode fs = Some i /\
        (forall x, x <> id -> x <> next_inode fs -> inodes fs' !! x = inodes fs !! x)
  end.
Proof. apply dir_create_spec. Qed.

Lemma dir_create_correct_witness :
  exists fs', create_file tmpfs_new 0 dir_new "a" = (Ok (TFile 1), fs') /\ fs_wf fs' /\
    inodes fs' !! 1%nat = Some (IFile file_new).
Proof.
  pose proof (dir_create_correct tmpfs_new 0 dir_new "a" (IFile file_new) TFile tmpfs_new_wf) as H.
  unfold create_file. destruct (dir_create _ _ _ _ _ _) as [[n|e] fs'] eqn:E.
  - destruct H as (_ & W & d' & _ & _ & _ & -> & Hi & _); [reflexivity|by split|]. exists fs'. done.
  - vm_compute in E. discriminate.
Defined.

(** The directories form a tree: an entry for a directory is the only one for it, and the
    root has none. *)
Definition fs_tree (fs : TmpFs) : Prop :=
  (forall id1 d1 n1 id2 d2 n2 x,
     inodes fs !! id1 = Some (IDir d1) -> (n1, TDirectory x) ∈ dir_files d1 ->
     inodes fs !! id2 = Some (IDir d2) -> (n2, TDirectory x) ∈ dir_files d2 -> id1 = id2 /\ n1 = n2) /\
  (forall id d n, inodes fs !! id = Some (IDir d) -> (n, TDirectory (root_inode fs)) ∉ dir_files d).

Lemma tmpfs_new_tree : fs_tree tmpfs_new.
Proof.
  split.
  - intros id1 d1 n1 id2 d2 n2 x H1 Hin. simpl in H1. apply lookup_singleton_Some in H1 as [_ [= <-]].
    by apply elem_of_nil in Hin.
  - intros id d n H1 Hin. simpl in H1. apply lookup_singleton_Some in H1 as [_ [= <-]]. by apply elem_of_nil in Hin.
Qed.

(** The entries for directories after [dir_create]: the old ones, and the new one. *)
Lemma dir_create_entries fs id d name i entry fs' n :
  fs_wf fs -> inodes fs !! id = Some (IDir d) -> creates i entry ->
  dir_create fs id d name i entry = (Ok n, fs') ->
  root_inode fs' = root_inode fs /\
  forall id' d' nm x, inodes fs' !! id' = Some (IDir d') -> (nm, TDirectory x) ∈ dir_files d' ->
    (exists d0, inodes fs !! id' = Some (IDir d0) /\ (nm, TDirectory x) ∈ dir_files d0 /\ x <> next_inode fs) \/
    (id' = id /\ nm = name /\ x = next_inode fs).
Proof.
  intros W Hd Hc. unfold dir_create. destruct (has_name _ _); [done|]. intros [= <- <-]. split; [done|].
  assert (Hold : forall id' d' nm x, inodes fs !! id' = Some (IDir d') -> (nm, TDirectory x) ∈ dir_files d' ->
            x <> next_inode fs).
  { intros id' d' nm x Hi Hin ->. destruct (fw_entries fs W _ _ _ _ Hi Hin) as [dx Hx].
    apply (fw_next fs W) in Hx. lia. }
  simpl. intros id' d' nm x [[<- Heq]|[Hne [[<- ->]|[Hne' Hi]]%lookup_insert_Some]]%lookup_insert_Some Hin.
  - injection Heq as <-. simpl in Hin. apply elem_of_app in Hin as [Hin|Heq%list_elem_of_singleton].
    + left. exists d. eauto.
    + injection Heq as -> Hx. right. split_and!; [done|done|]. destruct i; simpl in Hc; try done.
      * by destruct Hc as [_ ->].
      * by rewrite Hc in Hx.
      * by rewrite Hc in Hx.
      * destruct Hc as [_ ->]. by injection Hx.
  - simpl in Hc. destruct Hc as [-> _]. by apply elem_of_nil in Hin.
  - left. exists d'. eauto.
Qed.

Lemma dir_create_tree fs id d name i entry fs' n :
  fs_wf fs -> fs_tree fs -> inodes fs !! id = Some (IDir d) -> creates i entry ->
  dir_create fs id d name i entry = (Ok n, fs') -> fs_tree fs'.
Proof.
  intros W [T1 T2] Hd Hc Heq. destruct (dir_create_entries _ _ _ _ _ _ _ _ W Hd Hc Heq) as [Hr He]. split.
  - intros id1 d1 n1 id2 d2 n2 x H1 E1 H2 E2.
    destruct (He _ _ _ _ H1 E1) as [(d1' & F1 & G1 & N1)|(-> & -> & X1)],
             (He _ _ _ _ H2 E2) as [(d2' & F2 & G2 & N2)|(-> & -> & X2)]; try done. by eapply T1.
  - intros id' d' nm Hi Hin. rewrite Hr in Hin.
    destruct (He _ _ _ _ Hi Hin) as [(d0 & F & G & _)|(_ & _ & Hx)]; [exact (T2 _ _ _ F G)|].
    destruct (fw_root fs W) as [dr Hdr]. apply (fw_next fs W) in Hdr. lia.
Qed.

(** ** Growing a file system *)

(** Nothing is lost: files keep their contents, directories keep their entries. *)
Definition fs_extends (fs fs' : TmpFs) : Prop :=
  root_inode fs' = root_inode fs /\
  forall id i, inodes fs !! id = Some i ->
    match i with
    | IDir d => exists d', inodes fs' !! id = Some (IDir d') /\
                  forall name n, dir_lookup d name = Ok n -> dir_lookup d' name = Ok n
    | _ => inodes fs' !! id = Some i
    end.

#[export] Instance fs_extends_preorder : PreOrder fs_extends.
Proof.
  split.
  - intros fs. split; [done|]. intros id i Hi. destruct i; eauto.
  - intros fs1 fs2 fs3 [R1 E1] [R2 E2]. split; [congruence|]. intros id i Hi. specialize (E1 id i Hi).
    destruct i as [f|f| |d]; [exact (E2 _ _ E1)|exact (E2 _ _ E1)|exact (E2 _ _ E1)|].
    destruct E1 as (d2 & Hd2 & L2). destruct (E2 _ _ Hd2) as (d3 & Hd3 & L3). exists d3. split; [done|]. eauto.
Qed.

Lemma dir_create_extends fs id d name i entry r fs' :
  fs_wf fs -> inodes fs !! id = Some (IDir d) -> creates i entry ->
  dir_create fs id d name i entry = (r, fs') -> fs_extends fs fs'.
Proof.
  intros W Hd Hc Heq. pose proof (dir_create_spec fs id d name i entry W Hd Hc) as H.
  destruct r as [n|e]; rewrite Heq in H; [|by destruct H as (_ & -> & _)].
  destruct H as (Hno & W' & d' & Hd' & Hn & Hoth & _ & _ & Hrest).
  split; [by eapply dir_create_entries|]. intros x j Hx.
  destruct (decide (x = id)) as [->|Hne].
  - rewrite Hd in Hx. injection Hx as <-. exists d'. split; [done|]. intros nm o Ho.
    destruct (decide (nm = name)) as [->|]; [by rewrite Ho in Hno|]. by rewrite Hoth.
  - assert (x <> next_inode fs) by (apply (fw_next fs W) in Hx; lia).
    rewrite Hrest by done. destruct j; eauto.
Qed.

Definition fs_ok (fs : TmpFs) : Prop := fs_wf fs /\ fs_tree fs.

(** Every creation keeps the file system well formed and loses nothing. *)
Lemma dir_create_ok fs id d name i entry r fs' :
  fs_ok fs -> inodes fs !! id = Some (IDir d) -> creates i entry ->
  dir_create fs id d name i entry = (r, fs') -> fs_ok fs' /\ fs_extends fs fs'.
Proof.
  intros [W T] Hd Hc Heq. split; [|by eapply dir_create_extends].
  pose proof (dir_create_spec fs id d name i entry W Hd Hc) as H.
  destruct r as [n|e]; rewrite Heq in H; [|by destruct H as (_ & -> & _)].
  split; [apply H|by eapply dir_create_tree].
Qed.

Lemma create_dir_missing fs id d name :
  dir_lookup d name = Err ENOENT -> exists fs', create_dir fs id d name = (Ok (TDirectory (next_inode fs)), fs').
Proof.
  intros Hl. unfold create_dir, dir_create. destruct (has_name (dir_files d) name) eqn:Hn; [|by eexists].
  apply has_name_spec, find_name_some in Hn as [n Hn]. unfold dir_lookup in Hl. by rewrite Hn in Hl.
Qed.

Lemma static_file_dirs_ok fs dir d components :
  fs_ok fs -> inodes fs !! dir = Some (IDir d) ->
  exists r fs', static_file_dirs fs dir components = Ret (r, fs') /\ fs_ok fs' /\ fs_extends fs fs' /\
    match r with Ok dir' => exists d', inodes fs' !! dir' = Some (IDir d') | Err e => e = EBADF end.
Proof.
  revert fs dir d. induction components as [|c rest IH]; intros fs dir d Hok Hd; simpl.
  { eexists _, _. split; [done|]. split; [done|]. split; [reflexivity|]. eauto. }
  rewrite Hd. destruct (dir_lookup d c) as [n|e] eqn:Hl; simpl.
  - destruct n as [x|x|x]; [by eexists _, _|by eexists _, _|].
    assert (Hx : entry_valid (inodes fs) (TDirectory x)).
    { eapply (fw_entries fs (proj1 Hok) dir d c); [done|]. unfold dir_lookup in Hl.
      destruct (find_name (dir_files d) c) eqn:Hf; [|done]. injection Hl as ->. by apply find_name_elem. }
    destruct Hx as [dx Hx]. by apply (IH fs x dx).
  - assert (e = ENOENT) as -> by (unfold dir_lookup in Hl; destruct (find_name _ _); [done|by injection Hl]).
    destruct (create_dir_missing fs dir d c Hl) as [fs1 Hc]. rewrite Hc. simpl.
    destruct (dir_create_ok _ _ _ _ _ _ _ _ Hok Hd creates_dir Hc) as [Hok1 Hext1].
    pose proof (dir_create_spec fs dir d c (IDir dir_new) TDirectory (proj1 Hok) Hd creates_dir) as Hs.
    unfold create_dir in Hc. rewrite Hc in Hs. destruct Hs as (_ & _ & _ & _ & _ & _ & _ & Hnew & _).
    destruct (IH fs1 (next_inode fs) dir_new Hok1 Hnew) as (r & fs2 & -> & Hok2 & Hext2 & Hr).
    exists r, fs2. split_and!; [done|done|by etransitivity|done].
Qed.

Lemma create_static_file_spec (fs : TmpFs) (path : string) (buffer : list Z) :
  fs_ok fs ->
  exists r fs', tmpfs_create_static_file fs path buffer = Ret (r, fs') /\ fs_ok fs' /\ fs_extends fs fs' /\
    match r with
    | Ok (TFile id) => inodes fs !! id = None /\ inodes fs' !! id = Some (IStatic (static_file_new buffer))
    | Ok _ => False
    | Err e => e = EEXIST \/ e = EBADF
    end.
Proof.
  intros Hok. unfold tmpfs_create_static_file.
  destruct (match rsplit_once path with None => _ | Some _ => _ end) as [dirs filename].
  destruct (fw_root fs (proj1 Hok)) as [dr Hdr].
  destruct (static_file_dirs_ok fs (root_inode fs) dr (filter (fun c => c <> "") (split_slash dirs)) Hok Hdr)
    as (r & fs1 & -> & Hok1 & Hext1 & Hr). simpl.
  destruct r as [dir|e]; [|exists (Err e), fs1; auto].
  destruct Hr as [d Hd]. rewrite Hd. unfold create_static_file.
  pose proof (dir_create_spec fs1 dir d filename (IStatic (static_file_new buffer)) TFile (proj1 Hok1) Hd (creates_static _)) as Hs.
  destruct (dir_create fs1 dir d filename _ TFile) as [r fs2] eqn:Hc. exists r, fs2. split; [done|].
  destruct (dir_create_ok _ _ _ _ _ _ _ _ Hok1 Hd (creates_static _) Hc) as [Hok2 Hext2].
  split_and!; [done|by etransitivity|]. destruct r as [n|e]; [|left; apply Hs].
  destruct Hs as (_ & _ & _ & _ & _ & _ & -> & Hnew & _). split; [|done].
  destruct (inodes fs !! next_inode fs1) as [j|] eqn:Hj; [|done]. exfalso.
  apply (proj2 Hext1) in Hj. destruct j; try (apply (fw_next fs1 (proj1 Hok1)) in Hj; lia).
  destruct Hj as (d' & Hj & _). apply (fw_next fs1 (proj1 Hok1)) in Hj. lia.
Qed.

(** Loading a file of the initial ram disk never panics, keeps the file system well formed
    and loses nothing; it fails only because the name is taken or a component of the path
    is not a directory, and otherwise the file holds the bytes given. *)
Theorem create_static_file_correct (fs : TmpFs) (path : string) (buffer : list Z) :
  fs_ok fs ->
  exists r fs', tmpfs_create_static_file fs path buffer = Ret (r, fs') /\ fs_ok fs' /\ fs_extends fs fs' /\
    match r with
    | Ok (TFile id) => inodes fs !! id = None /\ inodes fs' !! id = Some (IStatic (static_file_new buffer))
    | Ok _ => False
    | Err e => e = EEXIST \/ e = EBADF
    end.
Proof. apply create_static_file_spec. Qed.

Lemma create_static_file_correct_witness :
  exists fs', tmpfs_create_static_file tmpfs_new "bin/shell" [1; 2] = Ret (Ok (TFile 2), fs') /\ fs_ok fs'.
Proof.
  destruct (create_static_file_correct tmpfs_new "bin/shell" [1; 2] (conj tmpfs_new_wf tmpfs_new_tree))
    as (r & fs' & Heq & Hok & _).
  exists fs'. split; [|exact Hok]. rewrite Heq. vm_compute in Heq. by injection Heq as <- _.
Defined.
