(* ===== verification/Traits.v ===== *)
(** * The traits of the naming service ([os/kernel/src/naming/traits.rs], [shared_types.rs])

    Files, pipes and directories are trait objects: the naming service calls them
    through [FileObject], [PipeObject] and [DirectoryObject] and does not know which
    file system they belong to.  [Objects] is that interface: the state [W] of all
    file systems together, references to objects, and the operations of the three
    traits.  [NamingFs] has the instance for the temporary and the process file system. *)

From S2P Require Import Prelude Errno Tmpfs.

Open Scope Z_scope.

(** ** Types shared with user mode *)

(** Option flags are their bits. *)
(* [os/library/naming/src/shared_types.rs:12-22] OpenOptions *)
Definition OPT_READONLY : Z := 1.
Definition OPT_READWRITE : Z := 2.
Definition OPT_CREATE : Z := 4.
Definition OPT_EXCLUSIVE : Z := 8.
Definition OPT_DIRECTORY : Z := 16.
Definition OPT_WRITEONLY : Z := 32.

(** [flags.contains(other)] *)
Definition contains (flags other : Z) : bool := Z.land flags other =? other.

(** [OpenOptions::from_bits(bits)]: [None] if a bit is no flag. *)
Definition open_options_from_bits (bits : Z) : option Z :=
  if Z.land bits (Z.lnot 63) =? 0 then Some bits else None.

(* [os/library/naming/src/shared_types.rs:24-32] SeekOrigin *)
Inductive SeekOrigin := SeekStart | SeekEnd | SeekCurrent.

(** The derived [From<usize>], with its default. *)
(* os/library/naming/src/shared_types.rs: SeekOrigin *)
Definition seek_origin_from (z : Z) : SeekOrigin :=
  if z =? 2 then SeekEnd else if z =? 4 then SeekCurrent else SeekStart.

(* [os/library/naming/src/shared_types.rs:34-43] FileType *)
Definition file_type_number (t : FileType) : Z :=
  match t with NamedPipe => 1 | Directory => 4 | Regular => 8 | Link => 16 end.

(* [os/library/naming/src/shared_types.rs:53-60] RawDirent *)
Record RawDirent := mkRawDirent { d_type : Z; d_name : list Z }.

(* [os/library/naming/src/shared_types.rs:62-68] RawDirent::new *)
Definition raw_dirent_new : RawDirent := mkRawDirent 0 (replicate 256 0).

(** ** Named objects *)

(* [os/kernel/src/naming/traits.rs:57-63] NamedObject *)
Inductive NamedObject (F P D : Type) :=
| FileObject (file : F)
| PipeObject (pipe : P)
| DirectoryObject (dir : D).
Arguments FileObject {F P D} file.
Arguments PipeObject {F P D} pipe.
Arguments DirectoryObject {F P D} dir.

Section named_object.
  Context {F P D : Type}.
  Implicit Types o : NamedObject F P D.

(* [os/kernel/src/naming/traits.rs:66-72] NamedObject::as_file *)
Definition as_file o : result Errno F := match o with FileObject f => Ok f | _ => Err EBADF end.
(* [os/kernel/src/naming/traits.rs:74-80] NamedObject::as_pipe *)
Definition as_pipe o : result Errno P := match o with PipeObject p => Ok p | _ => Err EBADF end.
(* [os/kernel/src/naming/traits.rs:82-88] NamedObject::as_dir *)
Definition as_dir o : result Errno D := match o with DirectoryObject d => Ok d | _ => Err EBADF end.
(* [os/kernel/src/naming/traits.rs:90-94] NamedObject::is_file *)
Definition is_file o : bool := match o with FileObject _ => true | _ => false end.
(* os/kernel/src/naming/traits.rs: NamedObject::is_pipe *)
Definition is_pipe o : bool := match o with PipeObject _ => true | _ => false end.
(* os/kernel/src/naming/traits.rs: NamedObject::is_dir *)
Definition is_dir o : bool := match o with DirectoryObject _ => true | _ => false end.
(* os/kernel/src/naming/traits.rs: as_named_object *)
Definition as_named_object (dir : D) : NamedObject F P D := DirectoryObject dir.
End named_object.

(** ** The object traits

    A method takes the state of all file systems and returns it together with its
    result; [fo_read] and [po_read] return the buffer as well.  A pipe method may block
    in the code; here its result is the one it has when it returns ([Pipe] models what
    happens in between). *)
(* [os/kernel/src/naming/traits.rs:29-55] FileObject, PipeObject, DirectoryObject *)
Class Objects (W : Type) := {
  file_ref : Type;
  pipe_ref : Type;
  dir_ref : Type;
  fo_stat : W -> file_ref -> result Errno Stat;
  fo_read : W -> file_ref -> list Z -> Z -> Z -> outcome (result Errno Z * list Z);
  fo_write : W -> file_ref -> list Z -> Z -> Z -> outcome (result Errno Z * W);
  po_open : W -> pipe_ref -> Z -> result Errno Z * W;
  po_read : W -> pipe_ref -> list Z -> Z -> Z -> result Errno Z * list Z * W;
  po_write : W -> pipe_ref -> list Z -> Z -> Z -> result Errno Z * W;
  po_close : W -> pipe_ref -> Z -> W;
  do_lookup : W -> dir_ref -> string -> result Errno (NamedObject file_ref pipe_ref dir_ref);
  do_create_file : W -> dir_ref -> string -> Z -> result Errno (NamedObject file_ref pipe_ref dir_ref) * W;
  do_create_dir : W -> dir_ref -> string -> Z -> result Errno (NamedObject file_ref pipe_ref dir_ref) * W;
  do_create_pipe : W -> dir_ref -> string -> Z -> result Errno (NamedObject file_ref pipe_ref dir_ref) * W;
  do_readdir : W -> dir_ref -> Z -> result Errno (option DirEntry)
}.

Definition named_object W `{O : Objects W} : Type := NamedObject file_ref pipe_ref dir_ref.
