(* ===== verification/Naming.v ===== *)
(** * The naming service ([os/kernel/src/naming/{lookup,mount,open_objects,api}.rs])

    Path lookup across mounted file systems, the table of open objects with its
    handles, and the operations user programs call, all over the object interface
    [Objects].  The statics [ROOT], [MOUNTS], [OPEN_OBJECTS] and [CWD] are the fields of
    [Ns]. *)

From S2P Require Import Prelude Errno Tmpfs Traits.
From Stdlib Require Import Ascii.

Open Scope Z_scope.

(** ** The table of open objects *)

(* os/kernel/src/naming/open_objects.rs: MAX_OPEN_OBJECTS *)
Definition MAX_OPEN_OBJECTS : nat := Z.to_nat 4096.

(* os/kernel/src/naming/open_objects.rs: OpenObjectTable *)
Record OpenObjectTable (A : Type) := mkTable {
  open_handles : list (Z * option A);
  free_handles : list Z
}.
Arguments mkTable {A} open_handles free_handles.
Arguments open_handles {A} o.
Arguments free_handles {A} o.

Section table.
  Context {A : Type}.
  Implicit Types (t : OpenObjectTable A) (o : A) (handle : Z).

(* [os/kernel/src/naming/open_objects.rs:180-185] OpenObjectTable::new *)
Definition table_new : OpenObjectTable A := mkTable [] (replicate MAX_OPEN_OBJECTS 0).

(** [guard.iter().position(|(h, _)| *h == handle)] and [find] *)
Definition find_handle (l : list (Z * option A)) handle : option (nat * (Z * option A)) :=
  list_find (fun e => e.1 = handle) l.

(* [os/kernel/src/naming/open_objects.rs:187-196] OpenObjectTable::lookup_opened_object *)
Definition lookup_opened_object t handle : result Errno A :=
  match find_handle (open_handles t) handle with
  | Some (_, (_, Some obj)) => Ok obj
  | _ => Err EINVALH
  end.

(* [os/kernel/src/naming/open_objects.rs:222-232] OpenObjectTable::find_free_handle *)
Definition find_free_handle (free : list Z) : option Z * list Z :=
  match list_find (fun v => v = 0) free with
  | Some (i, _) => (Some (Z.of_nat i), <[i := 1]> free)
  | None => (None, free)
  end.

(* [os/kernel/src/naming/open_objects.rs:198-207] OpenObjectTable::allocate_handle *)
Definition allocate_handle t o : result Errno Z * OpenObjectTable A :=
  match find_free_handle (free_handles t) with
  | (None, free) => (Err ENOHANDLES, mkTable (open_handles t) free)
  | (Some handle, free) => (Ok handle, mkTable (open_handles t ++ [(handle, Some o)]) free)
  end.

(* [os/kernel/src/naming/open_objects.rs:209-220] OpenObjectTable::free_handle *)
Definition free_handle t handle : outcome (result Errno Z * OpenObjectTable A) :=
  match find_handle (open_handles t) handle with
  | Some (idx, _) =>
      free ← arr_set (free_handles t) (Z.to_nat handle) 0;
      Ret (Ok 0, mkTable (swap_remove (open_handles t) idx) free)
  | None => Ret (Err EINVALH, t)
  end.

(** The object of a handle is changed in place ([pos.store] through the [Arc]). *)
Definition update_object t handle o : OpenObjectTable A :=
  match find_handle (open_handles t) handle with
  | Some (idx, (h, _)) => mkTable (<[idx := (h, Some o)]> (open_handles t)) (free_handles t)
  | None => t
  end.
End table.

(** ** Lookup *)

(** [path.find('/') == Some(0)] *)
(* [os/kernel/src/naming/lookup.rs:105-113] check_absolute_path *)
Definition check_absolute_path (path : string) : bool :=
  match path with
  | String c _ => is_slash c
  | EmptyString => false
  end.

(* [os/kernel/src/naming/lookup.rs:95-103] build_path *)
Definition build_path (cur component : string) : string :=
  if String.eqb cur "/" then cur +:+ component else cur +:+ "/" +:+ component.

Section naming.
  Context {W : Type} {O : Objects W}.

(** A mounted file system is its root directory. *)
(* os/kernel/src/naming/mount.rs: MountTable *)
Definition MountTable : Type := gmap string dir_ref.
(* os/kernel/src/naming/mount.rs: MountTable::new *)
Definition mount_table_new : MountTable := ∅.
(* os/kernel/src/naming/mount.rs: MountTable::mount *)
Definition mount (m : MountTable) (path : string) (fs : dir_ref) : MountTable := <[path := fs]> m.
(* os/kernel/src/naming/mount.rs: MountTable::get *)
Definition mount_get (m : MountTable) (path : string) : option dir_ref := m !! path.

Lemma mount_get_mount m path fs p :
  mount_get (mount m path fs) p = if decide (path = p) then Some fs else mount_get m p.
Proof. unfold mount_get, mount. apply lookup_insert. Qed.

Lemma mount_get_new p : mount_get mount_table_new p = None.
Proof. apply lookup_empty. Qed.

(* [os/kernel/src/naming/open_objects.rs:256-268] OpenedObject *)
Record OpenedObject := mkOpened { oo_object : named_object W; oo_pos : Z; oo_options : Z }.

Record Ns := mkNs {
  ns_world : W;
  ns_root : dir_ref;
  ns_mounts : MountTable;
  ns_table : OpenObjectTable OpenedObject;
  ns_cwd : string
}.

Definition with_world (ns : Ns) (w : W) : Ns := mkNs w (ns_root ns) (ns_mounts ns) (ns_table ns) (ns_cwd ns).
Definition with_table (ns : Ns) (t : OpenObjectTable OpenedObject) : Ns :=
  mkNs (ns_world ns) (ns_root ns) (ns_mounts ns) t (ns_cwd ns).
Definition with_cwd (ns : Ns) (cwd : string) : Ns :=
  mkNs (ns_world ns) (ns_root ns) (ns_mounts ns) (ns_table ns) cwd.

(** The loop over the components of a path. *)
(* [os/kernel/src/naming/lookup.rs:47-92] lookup_named_object *)
Fixpoint lookup_components (ns : Ns) (current_dir : dir_ref) (cur_path : string) (components : list string)
    : result Errno (named_object W) :=
  match components with
  | [] => Err ENOENT
  | component :: rest =>
      match do_lookup (ns_world ns) current_dir component with
      | Err _ => Err ENOENT
      | Ok found_named_object =>
          let cur_path := build_path cur_path component in
          match mount_get (ns_mounts ns) cur_path, rest with
          | Some mounted_root, [] => Ok (as_named_object mounted_root)
          | Some mounted_root, _ => lookup_components ns mounted_root cur_path rest
          | None, [] => Ok found_named_object
          | None, _ =>
              match found_named_object with
              | DirectoryObject dir => lookup_components ns dir cur_path rest
              | _ => Err ENOENT
              end
          end
      end
  end.

(* [os/kernel/src/naming/lookup.rs:28-93] lookup_named_object *)
Definition lookup_named_object (ns : Ns) (path : string) : result Errno (named_object W) :=
  if check_absolute_path path then
    if String.eqb path "/" then Ok (as_named_object (ns_root ns))
    else lookup_components ns (ns_root ns) "/" (tail (split_slash path))
  else Err ENOENT.

(* [os/kernel/src/naming/lookup.rs:18-25] lookup_dir *)
Definition lookup_dir (ns : Ns) (path : string) : result Errno dir_ref :=
  match lookup_named_object ns path with
  | Ok (DirectoryObject dir) => Ok dir
  | Ok (FileObject _) | Ok (PipeObject _) => Err ENOTDIR
  | Err e => Err e
  end.

(** ** Open objects *)

(* [os/kernel/src/naming/open_objects.rs:41-70] open *)
Definition object_open (ns : Ns) (path : string) (flags : Z) : result Errno Z * Ns :=
  match lookup_named_object ns path with
  | Err _ => (Err ENOENT, ns)
  | Ok found_named_object =>
      if contains flags OPT_DIRECTORY && negb (is_dir found_named_object) then (Err ENOTDIR, ns)
      else
        let '(opened, ns1) :=
          match found_named_object with
          | PipeObject pipe => let '(r, w) := po_open (ns_world ns) pipe flags in (r, with_world ns w)
          | _ => (Ok 0, ns)
          end in
        match opened with
        | Err e => (Err e, ns1)
        | Ok _ =>
            if is_dir found_named_object && (contains flags OPT_WRITEONLY || contains flags OPT_READWRITE)
            then (Err EISDIR, ns1)
            else
              let '(r, t) := allocate_handle (ns_table ns1) (mkOpened found_named_object 0 flags) in
              (r, with_table ns1 t)
        end
  end.

(** [opened_object.pos.store(pos)] *)
Definition set_pos (ns : Ns) (fh : Z) (o : OpenedObject) (pos : Z) : Ns :=
  with_table ns (update_object (ns_table ns) fh (mkOpened (oo_object o) pos (oo_options o))).

Definition add_pos (a b : Z) : outcome Z := expect (checked_add a b) "attempt to add with overflow".

(* [os/kernel/src/naming/open_objects.rs:72-97] write *)
Definition object_write (ns : Ns) (fh : Z) (buf : list Z) : outcome (result Errno Z * Ns) :=
  match lookup_opened_object (ns_table ns) fh with
  | Err e => Ret (Err e, ns)
  | Ok o =>
      match oo_object o with
      | FileObject file =>
          '(r, w) ← fo_write (ns_world ns) file buf (oo_pos o) (oo_options o);
          match r with
          | Err e => Ret (Err e, with_world ns w)
          | Ok bytes_written =>
              pos ← add_pos (oo_pos o) bytes_written;
              Ret (Ok bytes_written, set_pos (with_world ns w) fh o pos)
          end
      | PipeObject pipe =>
          let '(r, w) := po_write (ns_world ns) pipe buf 0 (oo_options o) in Ret (r, with_world ns w)
      | DirectoryObject _ => Ret (Err EBADF, ns)
      end
  end.

(* [os/kernel/src/naming/open_objects.rs:99-124] read *)
Definition object_read (ns : Ns) (fh : Z) (buf : list Z) : outcome (result Errno Z * list Z * Ns) :=
  match lookup_opened_object (ns_table ns) fh with
  | Err e => Ret (Err e, buf, ns)
  | Ok o =>
      match oo_object o with
      | FileObject file =>
          '(r, buf') ← fo_read (ns_world ns) file buf (oo_pos o) (oo_options o);
          match r with
          | Err e => Ret (Err e, buf', ns)
          | Ok bytes_read =>
              pos ← add_pos (oo_pos o) bytes_read;
              Ret (Ok bytes_read, buf', set_pos ns fh o pos)
          end
      | PipeObject pipe =>
          let '(r, buf', w) := po_read (ns_world ns) pipe buf 0 (oo_options o) in
          Ret (r, buf', with_world ns w)
      | DirectoryObject _ => Ret (Err EISDIR, buf, ns)
      end
  end.

(** [a + b] on [isize] *)
Definition isize_add (a b : Z) : outcome Z :=
  if (- 2 ^ 63 <=? a + b) && (a + b <? 2 ^ 63) then Ret (a + b) else Panic "attempt to add with overflow".

(* [os/kernel/src/naming/open_objects.rs:126-142] seek *)
Definition object_seek (ns : Ns) (fh offset : Z) (origin : SeekOrigin) : outcome (result Errno Z * Ns) :=
  match lookup_opened_object (ns_table ns) fh with
  | Err e => Ret (Err e, ns)
  | Ok o =>
      match oo_object o with
      | FileObject file =>
          base ← (match origin with
                  | SeekStart => Ret (Ok offset)
                  | SeekEnd => match fo_stat (ns_world ns) file with
                               | Ok st => Ok <$> isize_add (as_isize (st_size st)) offset
                               | Err e => Ret (Err e)
                               end
                  | SeekCurrent => Ok <$> isize_add (as_isize (oo_pos o)) offset
                  end);
          match base with
          | Err e => Ret (Err e, ns)
          | Ok p => Ret (Ok (wrap64 p), set_pos ns fh o (wrap64 p))
          end
      | _ => Ret (Err ENOTSUP, ns)
      end
  end.

(* [os/kernel/src/naming/open_objects.rs:144-157] readdir *)
Definition object_readdir (ns : Ns) (fh : Z) : outcome (result Errno (option DirEntry) * Ns) :=
  match lookup_opened_object (ns_table ns) fh with
  | Err e => Ret (Err e, ns)
  | Ok o =>
      match oo_object o with
      | DirectoryObject dir =>
          match do_readdir (ns_world ns) dir (oo_pos o) with
          | Err e => Ret (Err e, ns)
          | Ok dir_entry =>
              pos ← add_pos (oo_pos o) 1;
              Ret (Ok dir_entry, set_pos ns fh o pos)
          end
      | _ => Ret (Err ENOTSUP, ns)
      end
  end.

(* [os/kernel/src/naming/open_objects.rs:159-170] close *)
Definition object_close (ns : Ns) (fh : Z) : outcome (result Errno Z * Ns) :=
  let ns1 := match lookup_opened_object (ns_table ns) fh with
             | Ok o => match oo_object o with
                       | PipeObject pipe => with_world ns (po_close (ns_world ns) pipe (oo_options o))
                       | _ => ns
                       end
             | Err _ => ns
             end in
  '(r, t) ← free_handle (ns_table ns1) fh;
  Ret (r, with_table ns1 t).
End naming.

(** ** The operations of the naming service *)

(** [s.as_bytes()] *)
Definition as_bytes (s : string) : list Z := map (fun c => Z.of_N (N_of_ascii c)) (String.list_ascii_of_string s).

(** The path of the parent directory and the last component, as [mkdir], [touch] and
    [mkfifo] compute them. *)
(* os/kernel/src/naming/api.rs: mkdir *)
Definition parent_and_name (path : string) : string * option string :=
  let components := split_slash path in
  let new_name := last components in
  let components := removelast components in
  (if decide (length components = 1)%nat then "/" else join_slash components, new_name).

Section api.
  Context {W : Type} {O : Objects W}.

(** What [mkdir], [touch] and [mkfifo] share: look up the parent and create in it. *)
Definition create_in_parent (ns : Ns)
    (create : W -> dir_ref -> string -> Z -> result Errno (named_object W) * W) (path : string)
    : result Errno Z * Ns :=
  let '(parent_dir, new_name) := parent_and_name path in
  match lookup_dir ns parent_dir with
  | Err e => (Err e, ns)
  | Ok dir =>
      match new_name with
      | None => (Err EINVAL, ns)
      | Some name =>
          let '(r, w) := create (ns_world ns) dir name 0 in
          (match r with Ok _ => Ok 0 | Err e => Err e end, with_world ns w)
      end
  end.

(* [os/kernel/src/naming/api.rs:127-159] mkdir *)
Definition mkdir (ns : Ns) (path : string) : result Errno Z * Ns :=
  match create_in_parent ns do_create_dir path with
  | (Ok _, ns1) => (Ok 0, ns1)
  | (Err _, ns1) => (Err ENOTDIR, ns1)
  end.

(* [os/kernel/src/naming/api.rs:161-193] touch *)
Definition touch (ns : Ns) (path : string) : result Errno Z * Ns :=
  match create_in_parent ns do_create_file path with
  | (Ok _, ns1) => (Ok 0, ns1)
  | (Err _, ns1) => (Err ENOTDIR, ns1)
  end.

(* [os/kernel/src/naming/api.rs:272-303] mkfifo *)
Definition mkfifo (ns : Ns) (path : string) : result Errno Z * Ns :=
  match create_in_parent ns do_create_pipe path with
  | (Ok _, ns1) => (Ok 0, ns1)
  | (Err e, ns1) => (Err e, ns1)
  end.

(* [os/kernel/src/naming/api.rs:82-101] open *)
Definition open (ns : Ns) (path : string) (flags : Z) : result Errno Z * Ns :=
  if contains flags OPT_CREATE && is_ok (lookup_named_object ns path) then (Err EEXIST, ns)
  else
    match object_open ns path flags with
    | (Ok fh, ns1) => (Ok fh, ns1)
    | (Err e, ns1) =>
        if contains flags OPT_CREATE && bool_decide (e <> EEXIST) then
          match touch ns1 path with
          | (Ok _, ns2) => object_open ns2 path flags
          | (Err e, ns2) => (Err e, ns2)
          end
        else (Err e, ns1)
    end.

(* [os/kernel/src/naming/api.rs:103-107] write *)
Definition write := object_write.
(* [os/kernel/src/naming/api.rs:109-113] read *)
Definition read := object_read.
(* [os/kernel/src/naming/api.rs:115-119] seek *)
Definition seek := object_seek.
(* [os/kernel/src/naming/api.rs:121-125] close *)
Definition close := object_close.

(** [dentry] is [None] for a null pointer; a new value for it is returned. *)
(* [os/kernel/src/naming/api.rs:195-226] readdir *)
Definition readdir (ns : Ns) (dir_handle : Z) (dentry : option RawDirent)
    : outcome (result Errno Z * option RawDirent * Ns) :=
  '(res, ns1) ← object_readdir ns dir_handle;
  match res with
  | Ok (Some dir_entry_data) =>
      let name_bytes := as_bytes (de_name dir_entry_data) in
      let len := Nat.min (length name_bytes) 255 in
      let de := mkRawDirent (file_type_number (de_type dir_entry_data))
                  (copy_into (d_name raw_dirent_new) (take len name_bytes)) in
      match dentry with
      | Some _ => Ret (Ok 1, Some de, ns1)
      | None => Ret (Err EUNKN, None, ns1)
      end
  | Ok None => Ret (Ok 0, dentry, ns1)
  | Err e => Ret (Err e, dentry, ns1)
  end.

(* [os/kernel/src/naming/api.rs:228-250] cwd *)
Definition cwd (ns : Ns) (buffer : list Z) : outcome (result Errno Z * list Z) :=
  let cwd_bytes := as_bytes (ns_cwd ns) in
  _ ← rust_assert (1 <=? Z.of_nat (length buffer)) "attempt to subtract with overflow";
  let len_to_copy := Nat.min (length buffer - 1) (length cwd_bytes) in
  let buffer := copy_into buffer (take len_to_copy cwd_bytes) in
  buffer ← (if decide (len_to_copy < length buffer)%nat then arr_set buffer len_to_copy 0 else Ret buffer);
  Ret (Ok (Z.of_nat len_to_copy + 1), buffer).

(* [os/kernel/src/naming/api.rs:252-270] cd *)
Definition cd (ns : Ns) (path : string) : result Errno Z * Ns :=
  match lookup_dir ns path with
  | Ok _ => (Ok 0, with_cwd ns path)
  | Err _ => (Err ENOTDIR, ns)
  end.
End api.
