(* ===== verification/NamingTable.v ===== *)
(** * The table of open objects refines a finite map

    The table keeps its entries in an unordered vector and its free handles in an
    array.  To its users it is a finite map from handles to objects that allocates the
    least free handle: [table_rep] is the refinement relation, and every operation is
    matched by its operation on maps, so a table and a map that start empty answer any
    sequence of operations alike. *)

From S2P Require Import Prelude Errno Tmpfs Traits Naming.

Open Scope Z_scope.

Section refinement.
  Context {A : Type}.
  Implicit Types (t : OpenObjectTable A) (m : gmap Z A) (o : A) (h : Z).

(** The vector holds the entries of the map in some order; a handle is marked free
    exactly if the map does not have it. *)
Record table_rep t m : Prop := {
  tr_perm : open_handles t ≡ₚ (fun e => (e.1, Some e.2)) <$> map_to_list m;
  tr_len : length (free_handles t) = MAX_OPEN_OBJECTS;
  tr_free i v : free_handles t !! i = Some v -> v = 0 <-> m !! Z.of_nat i = None;
  tr_dom h : is_Some (m !! h) -> 0 <= h < Z.of_nat MAX_OPEN_OBJECTS
}.

Lemma table_new_rep : table_rep table_new ∅.
Proof.
  constructor; unfold table_new; cbn [open_handles free_handles].
  - by rewrite map_to_list_empty.
  - apply length_replicate.
  - intros i v Hv. apply lookup_replicate_1 in Hv as [-> _]. by rewrite lookup_empty.
  - intros h. by rewrite lookup_empty; intros [? ?].
Qed.

Lemma rep_elem t m h v :
  table_rep t m -> (h, v) ∈ open_handles t <-> exists o, m !! h = Some o /\ v = Some o.
Proof.
  intros R. rewrite (tr_perm t m R), list_elem_of_fmap. split.
  - intros ([h' o] & [= -> ->] & Hin%elem_of_map_to_list). by exists o.
  - intros (o & Hm & ->). exists (h, o). split; [done|]. by apply elem_of_map_to_list.
Qed.

Lemma find_handle_rep t m h :
  table_rep t m ->
  match find_handle (open_handles t) h with
  | Some (i, e) => exists o, m !! h = Some o /\ e = (h, Some o) /\ open_handles t !! i = Some e
  | None => m !! h = None
  end.
Proof.
  intros R. unfold find_handle. destruct (list_find _ _) as [[i [h' v]]|] eqn:E.
  - apply list_find_Some in E as (Hi & Hh & _). simpl in Hh. subst h'.
    destruct (proj1 (rep_elem t m h v R) (list_elem_of_lookup_2 _ _ _ Hi)) as (o & Hm & ->). by exists o.
  - apply list_find_None in E. destruct (m !! h) as [o|] eqn:Hm; [|done]. exfalso.
    rewrite Forall_forall in E. apply (E (h, Some o)); [|done]. apply (rep_elem t m h _ R). by exists o.
Qed.

(** ** The operations on maps *)

Definition map_lookup m h : result Errno A := match m !! h with Some o => Ok o | None => Err EINVALH end.

(** The least handle that is not in use. *)
Definition least_free m : option Z :=
  snd <$> list_find (fun h => m !! h = None) (seqZ 0 (Z.of_nat MAX_OPEN_OBJECTS)).

Definition map_allocate m o : result Errno Z * gmap Z A :=
  match least_free m with
  | Some h => (Ok h, <[h := o]> m)
  | None => (Err ENOHANDLES, m)
  end.

Definition map_free m h : result Errno Z * gmap Z A :=
  match m !! h with
  | Some _ => (Ok 0, delete h m)
  | None => (Err EINVALH, m)
  end.

Definition map_update m h o : gmap Z A := match m !! h with Some _ => <[h := o]> m | None => m end.

(** ** Each operation refines its operation on maps *)

Lemma lookup_refines t m h : table_rep t m -> lookup_opened_object t h = map_lookup m h.
Proof.
  intros R. pose proof (find_handle_rep t m h R) as H. unfold lookup_opened_object, map_lookup.
  destruct (find_handle _ _) as [[i e]|]; [destruct H as (o & -> & -> & _)|rewrite H]; done.
Qed.

Lemma find_free_refines t m :
  table_rep t m ->
  find_free_handle (free_handles t) =
    match least_free m with
    | Some h => (Some h, <[Z.to_nat h := 1]> (free_handles t))
    | None => (None, free_handles t)
    end.
Proof.
  intros R. unfold find_free_handle, least_free.
  assert (Hnth : forall i h, seqZ 0 (Z.of_nat MAX_OPEN_OBJECTS) !! i = Some h ->
                   h = Z.of_nat i /\ (i < MAX_OPEN_OBJECTS)%nat).
  { intros i h [-> ?]%lookup_seqZ. lia. }
  destruct (list_find (fun h => m !! h = None) _) as [[j h]|] eqn:E; simpl.
  - apply list_find_Some in E as (Hj & Hm & Hlt). apply Hnth in Hj as [-> Hj].
    assert (Hv : list_find (fun v => v = 0) (free_handles t) = Some (j, 0)).
    { apply list_find_Some. rewrite <- (tr_len t m R) in Hj. apply lookup_lt_is_Some_2 in Hj as [v Hv].
      assert (v = 0) as -> by (by apply (tr_free t m R j v Hv)). split_and!; [done|done|].
      intros i y Hi Hij Hy. apply (tr_free t m R i y Hi) in Hy.
      apply (Hlt i (Z.of_nat i)); [|done|done]. apply lookup_seqZ. apply lookup_lt_Some in Hv.
      rewrite (tr_len t m R) in Hv. lia. }
    rewrite Hv, Nat2Z.id. done.
  - apply list_find_None in E. rewrite Forall_forall in E.
    destruct (list_find _ (free_handles t)) as [[i v]|] eqn:E'; [|done]. exfalso.
    apply list_find_Some in E' as (Hi & Hv & _). apply (E (Z.of_nat i)); [|by apply (tr_free t m R i v Hi)].
    apply lookup_lt_Some in Hi. rewrite (tr_len t m R) in Hi. apply elem_of_seqZ. lia.
Qed.

Lemma least_free_spec m h :
  least_free m = Some h -> m !! h = None /\ 0 <= h < Z.of_nat MAX_OPEN_OBJECTS.
Proof.
  unfold least_free. destruct (list_find _ _) as [[j h']|] eqn:E; [|done]. simpl. intros [= ->].
  apply list_find_Some in E as (Hj & Hm & _). apply lookup_seqZ in Hj as [-> Hj]. split; [done|lia].
Qed.

Lemma allocate_refines t m o :
  table_rep t m ->
  (allocate_handle t o).1 = (map_allocate m o).1 /\ table_rep (allocate_handle t o).2 (map_allocate m o).2.
Proof.
  intros R. unfold allocate_handle, map_allocate. rewrite (find_free_refines t m R).
  destruct (least_free m) as [h|] eqn:E; simpl; [|by destruct t].
  apply least_free_spec in E as [Hm Hh]. split; [done|]. destruct R as [R1 R2 R3 R4]. constructor; simpl.
  - rewrite map_to_list_insert by done. by rewrite R1, fmap_cons, Permutation_app_comm.
  - by rewrite length_insert.
  - intros i v [(<- & <- & _)|[Hne Hi]]%list_lookup_insert_Some.
    + rewrite Z2Nat.id by lia. rewrite lookup_insert_eq. done.
    + rewrite lookup_insert_ne by lia. by apply R3.
  - intros h' Hs. destruct (decide (h = h')) as [<-|]; [done|]. rewrite lookup_insert_ne in Hs by done. by apply R4.
Qed.

Lemma free_refines t m h :
  table_rep t m ->
  exists t', free_handle t h = Ret ((map_free m h).1, t') /\ table_rep t' (map_free m h).2.
Proof.
  intros R. pose proof (find_handle_rep t m h R) as H. unfold free_handle, map_free.
  destruct (find_handle _ _) as [[i e]|]; [destruct H as (o & Hm & -> & Hi)|rewrite H; by exists t].
  rewrite Hm. destruct R as [R1 R2 R3 R4]. pose proof (R4 h (mk_is_Some _ _ Hm)) as Hh.
  rewrite arr_set_ok by (rewrite R2; lia). eexists. split; [reflexivity|]. constructor; simpl.
  - apply (Permutation_cons_inv (a := (h, Some o))). rewrite <- (swap_remove_perm _ _ _ Hi), R1.
    by rewrite <- (map_to_list_delete m h o Hm), fmap_cons.
  - by rewrite length_insert.
  - intros j v [(<- & <- & _)|[Hne Hj]]%list_lookup_insert_Some.
    + rewrite Z2Nat.id by lia. by rewrite lookup_delete_eq.
    + rewrite lookup_delete_ne by lia. by apply R3.
  - intros h' Hs. apply R4. destruct Hs as [o' Ho]. apply lookup_delete_Some in Ho as [_ Ho]. by exists o'.
Qed.

Lemma update_refines t m h o :
  table_rep t m -> table_rep (update_object t h o) (map_update m h o).
Proof.
  intros R. pose proof (find_handle_rep t m h R) as H. unfold update_object, map_update.
  destruct (find_handle _ _) as [[i e]|]; [destruct H as (o' & Hm & -> & Hi)|by rewrite H].
  rewrite Hm. destruct R as [R1 R2 R3 R4]. constructor; simpl.
  - rewrite insert_take_drop by (by eapply lookup_lt_Some). rewrite <- Permutation_middle.
    rewrite <- insert_delete_eq, map_to_list_insert by apply lookup_delete_eq. rewrite fmap_cons. simpl.
    f_equiv. apply (Permutation_cons_inv (a := (h, Some o'))).
    rewrite Permutation_middle, take_drop_middle by done. by rewrite R1, <- (map_to_list_delete m h o' Hm), fmap_cons.
  - done.
  - intros j v Hj. destruct (decide (h = Z.of_nat j)) as [->|]; [|rewrite lookup_insert_ne by done; by apply R3].
    rewrite lookup_insert_eq, (R3 j v Hj), Hm. done.
  - intros h' Hs. apply R4. destruct (decide (h = h')) as [<-|]; [by exists o'|]. by rewrite lookup_insert_ne in Hs.
Qed.

(** ** Sequences of operations *)

Inductive table_op := OpAllocate o | OpLookup h | OpUpdate h o | OpFree h.

(** The answer of an operation: a handle or an object. *)
Definition answer : Type := result Errno (Z + A).

Definition table_step t (op : table_op) : outcome (answer * OpenObjectTable A) :=
  match op with
  | OpAllocate o => let '(r, t') := allocate_handle t o in Ret (h ← r; Ok (inl h), t')
  | OpLookup h => Ret (o ← lookup_opened_object t h; Ok (inr o), t)
  | OpUpdate h o => Ret (Ok (inl 0), update_object t h o)
  | OpFree h => '(r, t') ← free_handle t h; Ret (h ← r; Ok (inl h), t')
  end.

Definition map_step m (op : table_op) : answer * gmap Z A :=
  match op with
  | OpAllocate o => let '(r, m') := map_allocate m o in (h ← r; Ok (inl h), m')
  | OpLookup h => (o ← map_lookup m h; Ok (inr o), m)
  | OpUpdate h o => (Ok (inl 0), map_update m h o)
  | OpFree h => let '(r, m') := map_free m h in (h ← r; Ok (inl h), m')
  end.

Fixpoint table_run t (ops : list table_op) : outcome (list answer) :=
  match ops with
  | [] => Ret []
  | op :: ops => '(a, t') ← table_step t op; l ← table_run t' ops; Ret (a :: l)
  end.

Fixpoint map_run m (ops : list table_op) : list answer :=
  match ops with
  | [] => []
  | op :: ops => let '(a, m') := map_step m op in a :: map_run m' ops
  end.

Lemma step_refines t m op :
  table_rep t m -> exists t', table_step t op = Ret ((map_step m op).1, t') /\ table_rep t' (map_step m op).2.
Proof.
  intros R. destruct op as [o|h|h o|h]; simpl.
  - pose proof (allocate_refines t m o R) as [H1 H2].
    destruct (allocate_handle t o) as [r t'], (map_allocate m o) as [r' m']. simpl in *. subst. by exists t'.
  - rewrite (lookup_refines t m h R). by exists t.
  - eexists. split; [done|]. by apply update_refines.
  - destruct (free_refines t m h R) as (t' & -> & R'). destruct (map_free m h) as [r m']. by exists t'.
Qed.

Lemma run_refines t m ops : table_rep t m -> table_run t ops = Ret (map_run m ops).
Proof.
  revert t m. induction ops as [|op ops IH]; intros t m R; [done|]. simpl.
  destruct (step_refines t m op R) as (t' & -> & R'). destruct (map_step m op) as [a m']. simpl in *.
  by rewrite (IH t' m' R').
Qed.

(** C16 To its users the table of open objects is a finite map that hands out the least
    free handle: any sequence of operations on a new table runs without panic and gets
    the answers that the map gives, an invalid-handle error for every handle not open and
    the out-of-handles error only when all 4096 are open. *)
Theorem open_object_table_refines_map (ops : list table_op) :
  table_run table_new ops = Ret (map_run ∅ ops).
Proof. apply run_refines, table_new_rep. Qed.

End refinement.
