(* ===== verification/Procfs.v ===== *)
(** * The process file system ([os/kernel/src/naming/procfs.rs], [process_stats.rs])

    A read-only view of the active processes, the tick counter and the size of the
    memory.  A [Uuid] is a type of the [uuid] crate: its parser and its 36-character
    display form are parameters.  [Proc] is the part of the kernel's state that the
    file system shows. *)

From Stdlib Require Import Ascii.
From stdpp Require Import pretty.
From S2P Require Import Prelude Errno Tmpfs Traits Naming.

Open Scope Z_scope.

Section procfs.
  Context {Uuid : Type} `{EqDecision Uuid}.
  Context (uuid_parse_str : string -> option Uuid) (uuid_display : Uuid -> string).

(** The accounting part of a process. *)
(* [os/kernel/src/process/process.rs:39-48] Process *)
Record Process := mkProcess {
  p_id : Uuid;
  p_name : string;
  p_utime : Z;
  p_stime : Z;
  p_rss_user_pages : Z
}.

(** The counters are atomics, which wrap. *)
(* [os/kernel/src/process/process.rs:133-142] Process::account_tick *)
Definition account_tick (p : Process) (from_user : bool) : Process :=
  if from_user then mkProcess (p_id p) (p_name p) (wrap64 (p_utime p + 1)) (p_stime p) (p_rss_user_pages p)
  else mkProcess (p_id p) (p_name p) (p_utime p) (wrap64 (p_stime p + 1)) (p_rss_user_pages p).

(* os/kernel/src/process/process.rs: Process::account_rss *)
Definition account_rss (p : Process) : Process :=
  mkProcess (p_id p) (p_name p) (p_utime p) (p_stime p) (wrap64 (p_rss_user_pages p + 1)).

(* [os/kernel/src/process/process_stats.rs:6-13] ProcStat *)
Record ProcStat := mkProcStat {
  ps_pid : Uuid;
  ps_name : string;
  ps_utime : Z;
  ps_stime : Z;
  ps_total_cpu_time : Z;
  ps_rss_user_pages : Z
}.

(* [os/kernel/src/process/process_stats.rs:16-25] ProcStat::from_process *)
Definition from_process (p : Process) : outcome ProcStat :=
  total ← expect (checked_add (p_utime p) (p_stime p)) "attempt to add with overflow";
  Ret (mkProcStat (p_id p) (p_name p) (p_utime p) (p_stime p) total (p_rss_user_pages p)).

(* os/kernel/src/process/process_stats.rs: ProcStat::rss_in_bytes *)
Definition rss_in_bytes (s : ProcStat) : outcome Z :=
  expect (checked_mul (ps_rss_user_pages s) 4096) "attempt to multiply with overflow".

Record Proc := mkProc {
  active_processes : list Process;
  now_ticks : Z;
  dram_limit : Z
}.

(* os/kernel/src/process/process_manager.rs: ProcessManager::active_process_ids *)
Definition active_process_ids (w : Proc) : list Uuid := p_id <$> active_processes w.

(* os/kernel/src/process/process_manager.rs: ProcessManager::is_active_process *)
Definition is_active_process (w : Proc) (pid : Uuid) : bool :=
  existsb (fun p => bool_decide (p_id p = pid)) (active_processes w).

(* [os/kernel/src/process/process_manager.rs:97-103] ProcessManager::get_stats *)
Definition get_stats (w : Proc) (pid : Uuid) : outcome (option ProcStat) :=
  match List.find (fun p => bool_decide (p_id p = pid)) (active_processes w) with
  | Some p => Some <$> from_process p
  | None => Ret None
  end.

Fixpoint collect {A B} (f : A -> outcome B) (l : list A) : outcome (list B) :=
  match l with
  | [] => Ret []
  | x :: l => y ← f x; ys ← collect f l; Ret (y :: ys)
  end.

(* [os/kernel/src/process/process_manager.rs:105-111] ProcessManager::get_all_stats *)
Definition get_all_stats (w : Proc) : outcome (list ProcStat) := collect from_process (active_processes w).

(** ** Directories *)

(* os/kernel/src/naming/procfs.rs: ProcDir *)
Inductive proc_dir := ProcDir | ProcPidDir (pid : Uuid).
(* os/kernel/src/naming/procfs.rs: ProcStatusFile *)
Inductive proc_file := ProcStatusFile (pid : Uuid) | ProcPsFile | ProcTicksFile | ProcMemInfoFile.

(** There are no pipes in this file system. *)
Definition proc_object : Type := NamedObject proc_file Empty_set proc_dir.

(* [os/kernel/src/naming/procfs.rs:57-84] ProcDir::lookup *)
Definition proc_dir_lookup (w : Proc) (name : string) : result Errno proc_object :=
  match uuid_parse_str name with
  | Some pid => if is_active_process w pid then Ok (DirectoryObject (ProcPidDir pid)) else Err ENOENT
  | None =>
      if String.eqb name "ps" then Ok (FileObject ProcPsFile)
      else if String.eqb name "ticks" then Ok (FileObject ProcTicksFile)
      else if String.eqb name "meminfo" then Ok (FileObject ProcMemInfoFile)
      else Err ENOENT
  end.

Definition proc_static : list (string * FileType) := [("ps", Regular); ("ticks", Regular); ("meminfo", Regular)].

(* [os/kernel/src/naming/procfs.rs:86-117] ProcDir::readdir *)
Definition proc_dir_readdir (w : Proc) (index : Z) : result Errno (option DirEntry) :=
  match proc_static !! Z.to_nat index with
  | Some (name, file_type) => Ok (Some (mkDirEntry file_type name))
  | None =>
      let pids := active_process_ids w in
      let pid_index := (Z.to_nat index - length proc_static)%nat in
      match pids !! pid_index with
      | None => Ok None
      | Some pid => Ok (Some (mkDirEntry Directory (uuid_display pid)))
      end
  end.

(* [os/kernel/src/naming/procfs.rs:150-158] ProcPidDir::lookup *)
Definition proc_pid_dir_lookup (pid : Uuid) (name : string) : result Errno proc_object :=
  if String.eqb name "status" then Ok (FileObject (ProcStatusFile pid)) else Err ENOENT.

(* [os/kernel/src/naming/procfs.rs:160-169] ProcPidDir::readdir *)
Definition proc_pid_dir_readdir (index : Z) : result Errno (option DirEntry) :=
  if index =? 0 then Ok (Some (mkDirEntry Regular "status")) else Ok None.

Definition proc_lookup (w : Proc) (d : proc_dir) (name : string) : result Errno proc_object :=
  match d with
  | ProcDir => proc_dir_lookup w name
  | ProcPidDir pid => proc_pid_dir_lookup pid name
  end.

Definition proc_readdir (w : Proc) (d : proc_dir) (index : Z) : result Errno (option DirEntry) :=
  match d with
  | ProcDir => proc_dir_readdir w index
  | ProcPidDir _ => proc_pid_dir_readdir index
  end.

(* [os/kernel/src/naming/procfs.rs:119-129] ProcDir::create_file, create_dir, create_pipe *)
Definition proc_create (d : proc_dir) (name : string) (mode : Z) : result Errno proc_object := Err ENOTSUP.

(** ** Files *)

(** [{:>n}] *)
Definition pad_left (n : nat) (s : string) : string :=
  String.string_of_list_ascii (replicate (n - String.length s) " "%char) +:+ s.

Definition nl : string := String "010"%char "".

Definition show (z : Z) : string := pretty z.

(** A [Uuid] is wider than the ten columns it is printed in. *)
(* os/kernel/src/naming/procfs.rs: ProcStatusFile::read *)
Definition status_content (proc : ProcStat) : outcome string :=
  rss ← rss_in_bytes proc;
  Ret ("  PID: " +:+ pad_left 10 (uuid_display (ps_pid proc)) +:+ nl +:+
       "UTIME: " +:+ pad_left 10 (show (ps_utime proc)) +:+ nl +:+
       "STIME: " +:+ pad_left 10 (show (ps_stime proc)) +:+ nl +:+
       "  RSS: " +:+ pad_left 10 (show rss) +:+ nl).

Definition ps_line (pid name utime stime rss : string) : string :=
  pad_left 36 pid +:+ pad_left 20 name +:+ pad_left 10 utime +:+ pad_left 10 stime +:+ pad_left 10 rss +:+ nl.

(* os/kernel/src/naming/procfs.rs: ProcPsFile::read *)
Definition ps_content (w : Proc) : outcome string :=
  processes ← get_all_stats w;
  lines ← collect (fun proc => rss ← rss_in_bytes proc;
                    Ret (ps_line (uuid_display (ps_pid proc)) (ps_name proc) (show (ps_utime proc))
                           (show (ps_stime proc)) (show rss))) processes;
  Ret (ps_line "PID" "NAME" "UTIME" "STIME" "RSS" +:+ String.concat "" lines).

(* [os/kernel/src/naming/procfs.rs:202-224] ProcStatusFile::read *)
Definition proc_status_read (w : Proc) (pid : Uuid) (buf : list Z) (offset : Z) : outcome (result Errno Z * list Z) :=
  stats ← get_stats w pid;
  match stats with
  | None => Ret (Err EAGAIN, buf)
  | Some proc =>
      content ← status_content proc;
      let '(n, buf') := data_read (as_bytes content) buf offset in Ret (Ok n, buf')
  end.

(* [os/kernel/src/naming/procfs.rs:246-272] ProcPsFile::read *)
Definition proc_ps_read (w : Proc) (buf : list Z) (offset : Z) : outcome (result Errno Z * list Z) :=
  content ← ps_content w;
  let '(n, buf') := data_read (as_bytes content) buf offset in Ret (Ok n, buf').

(* [os/kernel/src/naming/procfs.rs:294-311] ProcTicksFile::read *)
Definition proc_ticks_read (w : Proc) (buf : list Z) (offset : Z) : outcome (result Errno Z * list Z) :=
  let content := show (now_ticks w) +:+ " " +:+ nl in
  let '(n, buf') := data_read (as_bytes content) buf offset in Ret (Ok n, buf').

(* [os/kernel/src/naming/procfs.rs:333-350] ProcMemInfoFile::read *)
Definition proc_meminfo_read (w : Proc) (buf : list Z) (offset : Z) : outcome (result Errno Z * list Z) :=
  let content := show (dram_limit w) +:+ " " +:+ nl in
  let '(n, buf') := data_read (as_bytes content) buf offset in Ret (Ok n, buf').

Definition proc_read (w : Proc) (f : proc_file) (buf : list Z) (offset : Z) : outcome (result Errno Z * list Z) :=
  match f with
  | ProcStatusFile pid => proc_status_read w pid buf offset
  | ProcPsFile => proc_ps_read w buf offset
  | ProcTicksFile => proc_ticks_read w buf offset
  | ProcMemInfoFile => proc_meminfo_read w buf offset
  end.

(* os/kernel/src/naming/procfs.rs: ProcStatusFile::stat *)
Definition proc_stat (f : proc_file) : result Errno Stat := Err ENOTSUP.
(* os/kernel/src/naming/procfs.rs: ProcStatusFile::write *)
Definition proc_write (f : proc_file) (buf : list Z) (offset : Z) : result Errno Z := Err ENOTSUP.

(** ** Listing and lookup *)

Lemma is_active_spec w pid : is_active_process w pid = true <-> pid ∈ active_process_ids w.
Proof.
  unfold is_active_process, active_process_ids. rewrite existsb_exists, list_elem_of_fmap. split.
  - intros (p & Hin%list_elem_of_In & Hp%bool_decide_eq_true). by exists p.
  - intros (p & -> & Hin%list_elem_of_In). exists p. split; [done|]. by apply bool_decide_eq_true.
Qed.

Lemma find_active w pid :
  pid ∈ active_process_ids w ->
  exists p, p ∈ active_processes w /\ p_id p = pid /\
    List.find (fun p => bool_decide (p_id p = pid)) (active_processes w) = Some p.
Proof.
  intros Hin%is_active_spec. unfold is_active_process in Hin.
  destruct (List.find _ _) as [p|] eqn:E.
  - exists p. apply List.find_some in E as [E1%list_elem_of_In E2%bool_decide_eq_true]. done.
  - apply existsb_exists in Hin as (p & Hp & Hid). by rewrite (List.find_none _ _ E p Hp) in Hid.
Qed.

Section uuid.
  (** Documented behaviour of the [uuid] crate: the display form parses back, and the three
      file names are no UUIDs. *)
  Hypothesis uuid_roundtrip : forall u, uuid_parse_str (uuid_display u) = Some u.
  Hypothesis uuid_static : forall e, e ∈ proc_static -> uuid_parse_str e.1 = None.

(** Listing a directory of the process file system and looking names up agree: every
    entry listed is found under its name and is of the kind listed, and every object
    that can be found is listed. *)
Theorem proc_readdir_lookup (w : Proc) (d : proc_dir) :
  (forall index e, proc_readdir w d index = Ok (Some e) ->
     exists o, proc_lookup w d (de_name e) = Ok o /\ de_type e = if is_dir o then Directory else Regular) /\
  (forall name o, proc_lookup w d name = Ok o ->
     exists index e, 0 <= index /\ proc_readdir w d index = Ok (Some e) /\ proc_lookup w d (de_name e) = Ok o).
Proof.
  split.
  - intros index e. destruct d as [|pid]; simpl.
    + unfold proc_dir_readdir. destruct (proc_static !! Z.to_nat index) as [[name ty]|] eqn:Hs.
      * intros [= <-]. simpl. pose proof (uuid_static _ (list_elem_of_lookup_2 _ _ _ Hs)) as Hu. simpl in Hu.
        unfold proc_dir_lookup. rewrite Hu.
        destruct (Z.to_nat index) as [|[|[|]]]; simpl in Hs; simplify_eq; by eexists.
      * destruct (active_process_ids w !! _) as [pid|] eqn:Hp; [|done]. intros [= <-]. simpl.
        unfold proc_dir_lookup. rewrite uuid_roundtrip. apply list_elem_of_lookup_2, is_active_spec in Hp.
        rewrite Hp. by eexists.
    + unfold proc_pid_dir_readdir. destruct (index =? 0); [|done]. intros [= <-]. by eexists.
  - intros name o. destruct d as [|pid]; simpl.
    + unfold proc_dir_lookup at 1. destruct (uuid_parse_str name) as [pid|].
      * destruct (is_active_process w pid) eqn:Ha; [|done]. intros [= <-].
        pose proof Ha as Hin. apply is_active_spec, list_elem_of_lookup in Hin as [i Hi].
        exists (Z.of_nat (i + 3)), (mkDirEntry Directory (uuid_display pid)). split; [lia|].
        unfold proc_dir_readdir, proc_dir_lookup. rewrite Nat2Z.id. rewrite lookup_ge_None_2 by (simpl; lia).
        replace (i + 3 - length proc_static)%nat with i by (simpl; lia). rewrite Hi. simpl.
        by rewrite uuid_roundtrip, Ha.
      * intros Ho.
        assert (Hs : exists i, (i < 3)%nat /\ proc_static !! i = Some (name, Regular)).
        { destruct (String.eqb_spec name "ps") as [->|]; [by exists 0%nat; split; [lia|]|].
          destruct (String.eqb_spec name "ticks") as [->|]; [by exists 1%nat; split; [lia|]|].
          destruct (String.eqb_spec name "meminfo") as [->|]; [by exists 2%nat; split; [lia|]|done]. }
        destruct Hs as (i & Hi & Hs). exists (Z.of_nat i), (mkDirEntry Regular name). split; [lia|].
        unfold proc_dir_readdir, proc_dir_lookup. rewrite Nat2Z.id, Hs. split; [done|].
        pose proof (uuid_static _ (list_elem_of_lookup_2 _ _ _ Hs)) as Hu. simpl in *. by rewrite Hu.
    + unfold proc_pid_dir_lookup at 1. destruct (String.eqb_spec name "status") as [->|]; [|done].
      intros [= <-]. exists 0, (mkDirEntry Regular "status"). done.
Qed.
End uuid.
End procfs.

(** A parser and printer for two UUIDs. *)
Definition two_uuids (b : bool) : string :=
  if b then "ffffffff-ffff-ffff-ffff-ffffffffffff" else "00000000-0000-0000-0000-000000000000".
Definition two_uuids_parse (s : string) : option bool :=
  if String.eqb s (two_uuids true) then Some true else if String.eqb s (two_uuids false) then Some false else None.

Lemma proc_readdir_lookup_witness :
  exists o, proc_lookup two_uuids_parse (mkProc [mkProcess true "shell" 1 2 3] 5 6) ProcDir (two_uuids true) = Ok o.
Proof.
  assert (H1 : forall u, two_uuids_parse (two_uuids u) = Some u) by (intros []; reflexivity).
  assert (H2 : forall e, e ∈ proc_static -> two_uuids_parse e.1 = None).
  { apply Forall_forall. repeat constructor. }
  destruct (proc_readdir_lookup two_uuids_parse two_uuids H1 H2 (mkProc [mkProcess true "shell" 1 2 3] 5 6) ProcDir)
    as [H _].
  destruct (H 3 (mkDirEntry Directory (two_uuids true)) ltac:(reflexivity)) as (o & Ho & _). by exists o.
Defined.
