(* ===== verification/NamingFs.v ===== *)
(** * The file systems of the naming service

    The instance of [Objects] for the kernel: a temporary file system at the root
    ([Tmpfs]) and the process file system mounted at [/proc] ([Procfs]).  The pipes of the
    temporary file system are reached through [PipeImpl], the results their methods
    return.  [init] sets the naming service up from the files of the initial ram disk. *)

From S2P Require Import Prelude Errno Tmpfs Traits Naming NamingTable Procfs.

Open Scope Z_scope.

(** The methods of pipes, on a state of all pipes: a pipe is its inode number. *)
Class PipeImpl (PS : Type) := {
  pi_open : PS -> nat -> Z -> result Errno Z * PS;
  pi_read : PS -> nat -> list Z -> Z -> result Errno Z * list Z * PS;
  pi_write : PS -> nat -> list Z -> Z -> result Errno Z * PS;
  pi_close : PS -> nat -> Z -> PS
}.

Section fs.
  Context {Uuid : Type} `{EqDecision Uuid}.
  Context (uuid_parse_str : string -> option Uuid) (uuid_display : Uuid -> string).
  Context {PS : Type} `{PipeImpl PS}.

Record World := mkWorld { w_tmp : TmpFs; w_proc : Proc (Uuid := Uuid); w_pipes : PS }.

Definition with_tmp (w : World) (fs : TmpFs) : World := mkWorld fs (w_proc w) (w_pipes w).
Definition with_pipes (w : World) (ps : PS) : World := mkWorld (w_tmp w) (w_proc w) ps.

Inductive fs_file := TmpFile (id : nat) | ProcFile (f : proc_file (Uuid := Uuid)).
Inductive fs_dir := TmpDir (id : nat) | ProcD (d : proc_dir (Uuid := Uuid)).
Definition fs_object : Type := NamedObject fs_file nat fs_dir.

(** The conversions of inodes into named objects. *)
(* os/kernel/src/naming/tmpfs.rs: Dir::lookup *)
Definition tmp_object (i : TmpFsINode) : fs_object :=
  match i with
  | TFile id => FileObject (TmpFile id)
  | TPipe id => PipeObject id
  | TDirectory id => DirectoryObject (TmpDir id)
  end.

Definition proc_named (o : proc_object (Uuid := Uuid)) : fs_object :=
  match o with
  | FileObject f => FileObject (ProcFile f)
  | PipeObject p => match p with end
  | DirectoryObject d => DirectoryObject (ProcD d)
  end.

Definition map_ok {E A B} (f : A -> B) (r : result E A) : result E B :=
  match r with Ok a => Ok (f a) | Err e => Err e end.

(** The object behind an [Arc] always exists; the branches for a missing one answer [EBADF]. *)
Definition fs_stat (w : World) (f : fs_file) : result Errno Stat :=
  match f with
  | TmpFile id =>
      match inodes (w_tmp w) !! id with
      | Some (IFile f) => Ok (file_stat f)
      | Some (IStatic f) => Ok (static_stat f)
      | _ => Err EBADF
      end
  | ProcFile f => proc_stat f
  end.

Definition fs_read (w : World) (f : fs_file) (buf : list Z) (offset options : Z) : outcome (result Errno Z * list Z) :=
  match f with
  | TmpFile id =>
      match inodes (w_tmp w) !! id with
      | Some (IFile f) => let '(n, buf') := file_read f buf offset in Ret (Ok n, buf')
      | Some (IStatic f) => let '(n, buf') := static_file_read f buf offset in Ret (Ok n, buf')
      | _ => Ret (Err EBADF, buf)
      end
  | ProcFile f => proc_read uuid_display (w_proc w) f buf offset
  end.

Definition fs_write (w : World) (f : fs_file) (buf : list Z) (offset options : Z) : outcome (result Errno Z * World) :=
  match f with
  | TmpFile id =>
      match inodes (w_tmp w) !! id with
      | Some (IFile f) =>
          '(n, f') ← file_write f buf offset;
          Ret (Ok n, with_tmp w (set_inode (w_tmp w) id (IFile f')))
      | Some (IStatic f) => Ret (static_file_write f buf offset, w)
      | _ => Ret (Err EBADF, w)
      end
  | ProcFile f => Ret (proc_write f buf offset, w)
  end.

Definition fs_lookup (w : World) (d : fs_dir) (name : string) : result Errno fs_object :=
  match d with
  | TmpDir id =>
      match inodes (w_tmp w) !! id with
      | Some (IDir d) => map_ok tmp_object (dir_lookup d name)
      | _ => Err EBADF
      end
  | ProcD d => map_ok proc_named (proc_lookup uuid_parse_str (w_proc w) d name)
  end.

Definition fs_create (create : TmpFs -> nat -> DirInner -> string -> result Errno TmpFsINode * TmpFs)
    (w : World) (d : fs_dir) (name : string) (mode : Z) : result Errno fs_object * World :=
  match d with
  | TmpDir id =>
      match inodes (w_tmp w) !! id with
      | Some (IDir d) => let '(r, fs) := create (w_tmp w) id d name in (map_ok tmp_object r, with_tmp w fs)
      | _ => (Err EBADF, w)
      end
  | ProcD d => (map_ok proc_named (proc_create d name mode), w)
  end.

Definition fs_readdir (w : World) (d : fs_dir) (index : Z) : result Errno (option DirEntry) :=
  match d with
  | TmpDir id =>
      match inodes (w_tmp w) !! id with
      | Some (IDir d) => Ok (dir_readdir d index)
      | _ => Err EBADF
      end
  | ProcD d => proc_readdir uuid_display (w_proc w) d index
  end.

#[export] Instance fs_objects : Objects World := {
  file_ref := fs_file;
  pipe_ref := nat;
  dir_ref := fs_dir;
  fo_stat := fs_stat;
  fo_read := fs_read;
  fo_write := fs_write;
  po_open w p flags := let '(r, ps) := pi_open (w_pipes w) p flags in (r, with_pipes w ps);
  po_read w p buf _ options := let '(r, buf', ps) := pi_read (w_pipes w) p buf options in (r, buf', with_pipes w ps);
  po_write w p buf _ options := let '(r, ps) := pi_write (w_pipes w) p buf options in (r, with_pipes w ps);
  po_close w p flags := with_pipes w (pi_close (w_pipes w) p flags);
  do_lookup := fs_lookup;
  do_create_file := fs_create create_file;
  do_create_dir := fs_create create_dir;
  do_create_pipe := fs_create create_pipe;
  do_readdir := fs_readdir
}.

(** Files that cannot be created are skipped with a warning. *)
(* os/kernel/src/naming/api.rs: init *)
Fixpoint load_initrd (fs : TmpFs) (entries : list (string * list Z)) : outcome TmpFs :=
  match entries with
  | [] => Ret fs
  | (filename, data) :: entries => '(_, fs1) ← tmpfs_create_static_file fs filename data; load_initrd fs1 entries
  end.

(* [os/kernel/src/naming/api.rs:46-80] init *)
Definition init (proc : Proc) (pipes : PS) (entries : list (string * list Z)) : outcome Ns :=
  match create_dir tmpfs_new (root_inode tmpfs_new) dir_new "proc" with
  | (Err _, _) => Panic "Failed to create proc directory in tmpfs"
  | (Ok _, fs) =>
      fs1 ← load_initrd fs entries;
      Ret (mkNs (mkWorld fs1 proc pipes) (TmpDir (root_inode fs1))
             (mount mount_table_new "/proc" (ProcD ProcDir)) table_new "/")
  end.
End fs.
