(* ===== verification/NamingProofs.v ===== *)
(** * Paths and the objects they name

    Looking up a path walks the tree of directories; creating a file, directory or pipe
    changes what exactly one path names. *)

From Stdlib Require Import Ascii.
From S2P Require Import Prelude Errno Tmpfs Traits Naming NamingTable Procfs NamingFs.

Open Scope list_scope.
Open Scope Z_scope.

(** ** Paths as lists of components *)

(** A path that starts with exactly one slash and names something below the root. *)
Definition canonical (path : string) : Prop :=
  exists c s, path = String "/" (String c s) /\ is_slash c = false.

Lemma canonical_split path :
  canonical path ->
  exists c cs, split_slash path = "" :: c :: cs /\ c <> "" /\ join_slash ("" :: c :: cs) = path /\
    Forall (fun x => no_slash x = true) (c :: cs).
Proof.
  intros (c & s & -> & Hc). pose proof (split_parts_no_slash (String "/" (String c s))) as Hns.
  pose proof (join_split (String "/" (String c s))) as Hj. revert Hns Hj. simpl. rewrite Hc.
  destruct (split_slash s) as [|x xs] eqn:E; [by apply split_slash_ne in E|].
  intros Hns Hj. exists (String c x), xs. split_and!; [done|done|done|]. by apply Forall_cons in Hns as [_ ?].
Qed.

Lemma build_path_join cur cs :
  (2 <= String.length cur)%nat -> fold_left build_path cs cur = join_slash (cur :: cs).
Proof.
  revert cur. induction cs as [|c cs IH]; intros cur Hlen; [done|]. simpl.
  assert (Hb : build_path cur c = cur +:+ String "/" c).
  { unfold build_path. destruct (String.eqb_spec cur "/") as [->|]; [simpl in Hlen; lia|done]. }
  rewrite Hb, IH by (rewrite length_append; lia). destruct cs as [|c' cs]; [done|]. simpl.
  by rewrite append_assoc.
Qed.

Lemma fold_build_path c cs : c <> "" -> fold_left build_path (c :: cs) "/" = join_slash ("" :: c :: cs).
Proof.
  intros Hc. simpl. rewrite build_path_join; [|destruct c; [done|simpl; lia]]. by destruct cs.
Qed.

(** ** Walking through directories *)

Section walk.
  Context {W : Type} {O : Objects W}.
  Implicit Types (ns : Ns (W := W)) (d : dir_ref) (p : string) (cs : list string).

(** The object a name stands for in a directory, mounts included. *)
Definition resolve ns d p (name : string) : result Errno (named_object W) :=
  match do_lookup (ns_world ns) d name with
  | Err _ => Err ENOENT
  | Ok found => match mount_get (ns_mounts ns) (build_path p name) with Some r => Ok (DirectoryObject r) | None => Ok found end
  end.

(** The directory reached through a list of components. *)
Fixpoint walk ns d p cs : option (dir_ref * string) :=
  match cs with
  | [] => Some (d, p)
  | c :: cs => match resolve ns d p c with Ok (DirectoryObject d') => walk ns d' (build_path p c) cs | _ => None end
  end.

Lemma lookup_walk ns d p cs name :
  lookup_components ns d p (cs ++ [name]) =
    match walk ns d p cs with Some (d', p') => resolve ns d' p' name | None => Err ENOENT end.
Proof.
  revert d p. induction cs as [|c cs IH]; intros d p; simpl.
  - unfold resolve. destruct (do_lookup _ _ _) as [o|]; [|done]. by destruct (mount_get (ns_mounts ns) _).
  - unfold resolve at 1. destruct (do_lookup _ _ _) as [o|]; [|done].
    destruct (cs ++ [name]) as [|x xs] eqn:E; [by destruct cs|].
    destruct (mount_get (ns_mounts ns) _) as [r|]; [by apply IH|]. destruct o as [f|q|d']; [done|done|by apply IH].
Qed.

Lemma walk_snoc ns d p cs c :
  walk ns d p (cs ++ [c]) =
    match walk ns d p cs with
    | Some (d', p') => match resolve ns d' p' c with Ok (DirectoryObject d'') => Some (d'', build_path p' c) | _ => None end
    | None => None
    end.
Proof.
  revert d p. induction cs as [|x cs IH]; intros d p; simpl; [done|].
  destruct (resolve ns d p x) as [[f|q|d']|]; [done|done|by apply IH|done].
Qed.

Lemma walk_path ns d p cs d' p' : walk ns d p cs = Some (d', p') -> p' = fold_left build_path cs p.
Proof.
  revert d p. induction cs as [|c cs IH]; intros d p; simpl; [by intros [= _ ->]|].
  destruct (resolve ns d p c) as [[f|q|d1]|]; [done|done|by apply IH|done].
Qed.

(** What a canonical path names, and its parent directory. *)
Lemma lookup_canonical ns path cs name :
  canonical path -> split_slash path = "" :: cs ++ [name] ->
  lookup_named_object ns path =
    match walk ns (ns_root ns) "/" cs with Some (d, p) => resolve ns d p name | None => Err ENOENT end.
Proof.
  intros (c & s & -> & Hc) Hs. unfold lookup_named_object. rewrite Hs. simpl tail. rewrite lookup_walk. done.
Qed.

Lemma lookup_parent ns path :
  canonical path ->
  exists cs name, split_slash path = "" :: cs ++ [name] /\ (parent_and_name path).2 = Some name /\
    fold_left build_path (cs ++ [name]) "/" = path /\
    forall d, lookup_dir ns (parent_and_name path).1 = Ok d <-> exists p, walk ns (ns_root ns) "/" cs = Some (d, p).
Proof.
  intros Hcan. destruct (canonical_split path Hcan) as (c & cs0 & Hs & Hc & Hj & Hns).
  destruct (exists_last (l := c :: cs0)) as (cs & name & Hcs); [done|]. exists cs, name. rewrite Hcs in *.
  assert (Hl : last ("" :: cs ++ [name]) = Some name) by apply (last_snoc name ("" :: cs)).
  assert (Hr : removelast ("" :: cs ++ [name]) = "" :: cs) by apply (removelast_last ("" :: cs) name).
  split; [done|]. unfold parent_and_name. rewrite Hs. cbv zeta. rewrite Hl, Hr. split; [done|].
  split; [rewrite <- Hcs, fold_build_path by done; by rewrite Hcs|].
  cbn [fst]. intros d.
  destruct cs as [|c1 cs1].
  { simpl. unfold lookup_dir. simpl. split; [intros [= ->]; by exists "/"|intros (p & Heq); congruence]. }
  injection Hcs as -> Hcs. rewrite decide_False by (simpl; lia).
  assert (Hsp : split_slash (join_slash ("" :: c1 :: cs1)) = "" :: c1 :: cs1).
  { apply split_join; [done|]. constructor; [done|]. by apply Forall_app in Hns as [? _]. }
  set (pp := join_slash ("" :: c1 :: cs1)) in *.
  assert (Hpp : check_absolute_path pp = true /\ String.eqb pp "/" = false).
  { unfold pp. destruct c1 as [|a c1]; [done|]. by destruct cs1. }
  unfold lookup_dir, lookup_named_object. destruct Hpp as [-> ->]. rewrite Hsp. simpl tail.
  destruct (exists_last (l := c1 :: cs1)) as (q & y & Hq); [done|]. rewrite Hq, lookup_walk, walk_snoc.
  destruct (walk ns (ns_root ns) "/" q) as [[dq pq]|]; [|split; [done|by intros (p & ?)]].
  destruct (resolve ns dq pq y) as [[f|f|d']|e].
  - split; [done|by intros (p & ?)].
  - split; [done|by intros (p & ?)].
  - split; [intros [= ->]; by eexists|intros (p & Heq); congruence].
  - split; [done|by intros (p & ?)].
Qed.
End walk.

(** ** The kernel's file systems *)

Section fs_paths.
  Context {Uuid : Type} `{EqDecision Uuid}.
  Context (uuid_parse_str : string -> option Uuid) (uuid_display : Uuid -> string).
  Context {PS : Type} `{PipeImpl PS}.
  #[local] Hint Extern 0 (Objects _) => exact (fs_objects uuid_parse_str uuid_display) : typeclass_instances.
  Implicit Types (ns : Ns (W := World (Uuid := Uuid) (PS := PS))) (cs : list string).

Definition ns_fs ns : TmpFs := w_tmp (ns_world ns).

(** The naming service between operations: the temporary file system is well formed and is
    the root, only process directories are mounted, and a mount point exists. *)
Record ns_ok ns : Prop := {
  no_fs : fs_ok (ns_fs ns);
  no_root : ns_root ns = TmpDir (root_inode (ns_fs ns));
  no_mounts p r : mount_get (ns_mounts ns) p = Some r -> (exists d, r = ProcD d) /\ is_ok (lookup_named_object ns p) = true
}.

(** A step into a directory of the temporary file system is an entry there. *)
Lemma resolve_tmp ns d p c x :
  ns_ok ns -> resolve ns d p c = Ok (DirectoryObject (TmpDir x)) ->
  exists y dy, d = TmpDir y /\ inodes (ns_fs ns) !! y = Some (IDir dy) /\ (c, TDirectory x) ∈ dir_files dy.
Proof.
  intros Hok. unfold resolve. destruct (do_lookup _ _ _) as [o|] eqn:Hl; [|done].
  destruct (mount_get (ns_mounts ns) _) as [r|] eqn:Hm.
  { intros [= ->]. by destruct (no_mounts ns Hok _ _ Hm) as [[? ?] _]. }
  intros [= ->]. simpl in Hl. destruct d as [y|q]; simpl in Hl.
  - destruct (inodes _ !! y) as [[f|f| |dy]|] eqn:Hy; try done. exists y, dy. split_and!; [done|done|].
    unfold dir_lookup in Hl. destruct (find_name (dir_files dy) c) as [[z|z|z]|] eqn:Hf; try done.
    injection Hl as ->. by apply find_name_elem.
  - destruct (proc_lookup _ _ _ _) as [[?|[]|?]|]; done.
Qed.

Lemma walk_valid ns cs x p :
  ns_ok ns -> walk ns (ns_root ns) "/" cs = Some (TmpDir x, p) -> exists d, inodes (ns_fs ns) !! x = Some (IDir d).
Proof.
  intros Hok. destruct cs as [|c cs _] using rev_ind.
  - simpl. rewrite (no_root ns Hok). intros [= <- _]. apply (fw_root _ (proj1 (no_fs ns Hok))).
  - rewrite walk_snoc. destruct (walk _ _ _ cs) as [[d q]|]; [|done].
    destruct (resolve ns d q c) as [[f|f|d']|] eqn:Hr; try done. intros [= -> _].
    destruct (resolve_tmp _ _ _ _ _ Hok Hr) as (y & dy & -> & Hy & Hin).
    apply (fw_entries _ (proj1 (no_fs ns Hok)) _ _ _ _ Hy Hin).
Qed.

(** No directory is reached by two paths. *)
Lemma walk_unique ns cs1 cs2 x p1 p2 :
  ns_ok ns -> walk ns (ns_root ns) "/" cs1 = Some (TmpDir x, p1) ->
  walk ns (ns_root ns) "/" cs2 = Some (TmpDir x, p2) -> cs1 = cs2.
Proof.
  intros Hok. destruct (proj2 (no_fs ns Hok)) as [T1 T2]. pose proof (no_root ns Hok) as Hroot.
  assert (Hinv : forall cs c x p, walk ns (ns_root ns) "/" (cs ++ [c]) = Some (TmpDir x, p) ->
    exists y dy q, walk ns (ns_root ns) "/" cs = Some (TmpDir y, q) /\
      inodes (ns_fs ns) !! y = Some (IDir dy) /\ (c, TDirectory x) ∈ dir_files dy).
  { intros cs c z p. rewrite walk_snoc. destruct (walk _ _ _ cs) as [[d q]|] eqn:Hw; [|done].
    destruct (resolve ns d q c) as [[f|f|d']|] eqn:Hr; try done. intros [= -> _].
    destruct (resolve_tmp _ _ _ _ _ Hok Hr) as (y & dy & -> & Hy & Hin). exists y, dy, q. done. }
  revert cs2 x p1 p2. induction cs1 as [|c1 cs1 IH] using rev_ind; intros cs2 x p1 p2 H1 H2.
  - destruct cs2 as [|c2 cs2 _] using rev_ind; [done|]. simpl in H1. rewrite Hroot in H1. injection H1 as <- _.
    destruct (Hinv _ _ _ _ H2) as (y & dy & q & _ & Hy & Hin). by destruct (T2 _ _ _ Hy Hin).
  - destruct (Hinv _ _ _ _ H1) as (y1 & d1 & q1 & W1 & Y1 & E1).
    destruct cs2 as [|c2 cs2 _] using rev_ind.
    + simpl in H2. rewrite Hroot in H2. injection H2 as <- _. by destruct (T2 _ _ _ Y1 E1).
    + destruct (Hinv _ _ _ _ H2) as (y2 & d2 & q2 & W2 & Y2 & E2).
      destruct (T1 _ _ _ _ _ _ _ Y1 E1 Y2 E2) as [-> ->]. by rewrite (IH cs2 y2 q1 q2 W1 W2).
Qed.

(** *** Creating an object *)

Definition with_fs ns (fs : TmpFs) : Ns := with_world ns (with_tmp (ns_world ns) fs).

Section creating.
  Context ns (cs : list string) (name ppath : string) (id : nat) (d : DirInner).
  Context (i : inode) (entry : nat -> TmpFsINode) (n : TmpFsINode) (fs' : TmpFs).
  Hypothesis Hok : ns_ok ns.
  Hypothesis Hwalk : walk ns (ns_root ns) "/" cs = Some (TmpDir id, ppath).
  Hypothesis Hd : inodes (ns_fs ns) !! id = Some (IDir d).
  Hypothesis Hc : creates i entry.
  Hypothesis Hcreate : dir_create (ns_fs ns) id d name i entry = (Ok n, fs').
  Hypothesis Hmount : mount_get (ns_mounts ns) (build_path ppath name) = None.

Lemma created_spec :
  is_ok (dir_lookup d name) = false /\ fs_ok fs' /\ root_inode fs' = root_inode (ns_fs ns) /\
  exists d', inodes fs' !! id = Some (IDir d') /\ dir_lookup d' name = Ok n /\
    (forall nm, nm <> name -> dir_lookup d' nm = dir_lookup d nm) /\
    n = entry (next_inode (ns_fs ns)) /\ inodes fs' !! next_inode (ns_fs ns) = Some i /\
    (forall x, x <> id -> x <> next_inode (ns_fs ns) -> inodes fs' !! x = inodes (ns_fs ns) !! x).
Proof.
  pose proof (dir_create_spec _ _ _ name _ _ (proj1 (no_fs ns Hok)) Hd Hc) as Hs. rewrite Hcreate in Hs.
  destruct (dir_create_ok _ _ _ _ _ _ _ _ (no_fs ns Hok) Hd Hc Hcreate) as [Hok' [Hr _]].
  destruct Hs as (H1 & _ & H2). done.
Qed.

Lemma resolve_before : resolve ns (TmpDir id) ppath name = Err ENOENT.
Proof.
  unfold resolve. simpl. fold (ns_fs ns). rewrite Hd. destruct created_spec as (Hno & _).
  by destruct (dir_lookup d name).
Qed.

Lemma resolve_new : resolve (with_fs ns fs') (TmpDir id) ppath name = Ok (tmp_object n).
Proof.
  assert (Hl : do_lookup (ns_world (with_fs ns fs')) (TmpDir id) name = Ok (tmp_object n)).
  { simpl. destruct created_spec as (_ & _ & _ & d' & -> & -> & _). done. }
  unfold resolve. rewrite Hl. change (ns_mounts (with_fs ns fs')) with (ns_mounts ns). by rewrite Hmount.
Qed.

Lemma resolve_empty q c : resolve (with_fs ns fs') (TmpDir (next_inode (ns_fs ns))) q c = Err ENOENT.
Proof.
  unfold resolve. simpl. destruct created_spec as (_ & _ & _ & d' & _ & _ & _ & _ & Hi & _). rewrite Hi.
  destruct i as [f|f| |d0]; try done. simpl in Hc. by destruct Hc as [-> _].
Qed.

Lemma resolve_other d0 q c :
  (forall x, d0 = TmpDir x -> exists dx, inodes (ns_fs ns) !! x = Some (IDir dx)) ->
  ~ (d0 = TmpDir id /\ c = name) -> resolve (with_fs ns fs') d0 q c = resolve ns d0 q c.
Proof.
  intros Hv Hne. destruct created_spec as (_ & _ & _ & d' & Hd' & _ & Hoth & _ & _ & Hrest).
  enough (Heq : do_lookup (ns_world (with_fs ns fs')) d0 c = do_lookup (ns_world ns) d0 c)
    by (unfold resolve; by rewrite Heq).
  simpl. destruct d0 as [x|?]; [|done]. simpl. fold (ns_fs ns).
  destruct (decide (x = id)) as [->|Hx]; [rewrite Hd, Hd', Hoth; [done|naive_solver]|].
  destruct (Hv x eq_refl) as [dx Hdx]. apply (fw_next _ (proj1 (no_fs ns Hok))) in Hdx.
  by rewrite Hrest by (done || lia).
Qed.

Lemma parent_or_not (d0 : dir_ref) : d0 = TmpDir id \/ d0 <> TmpDir id.
Proof. destruct d0 as [x|?]; [|by right]. destruct (decide (x = id)) as [->|]; [by left|right; by intros [= ->]]. Qed.

Lemma at_parent q pq : walk ns (ns_root ns) "/" q = Some (TmpDir id, pq) -> q = cs /\ pq = ppath.
Proof.
  intros Hq. pose proof (walk_unique ns q cs id pq ppath Hok Hq Hwalk) as ->. split; [done|]. congruence.
Qed.

Lemma walk_mono q r : walk ns (ns_root ns) "/" q = Some r -> walk (with_fs ns fs') (ns_root ns) "/" q = Some r.
Proof.
  revert r. induction q as [|c q IH] using rev_ind; [done|]. intros r. rewrite !walk_snoc.
  destruct (walk ns _ _ q) as [[d0 p0]|] eqn:Hq; [|done]. rewrite (IH _ eq_refl).
  destruct (parent_or_not d0) as [->|Hne].
  - destruct (at_parent _ _ Hq) as [-> ->]. destruct (decide (c = name)) as [->|]; [by rewrite resolve_before|].
    rewrite resolve_other; [done|by intros x [= <-]; exists d|by intros [_ ?]].
  - rewrite resolve_other; [done|intros x ->; by eapply walk_valid|by intros [? _]].
Qed.

Lemma walk_new q d0 p0 :
  walk ns (ns_root ns) "/" q = None -> walk (with_fs ns fs') (ns_root ns) "/" q = Some (d0, p0) ->
  d0 = TmpDir (next_inode (ns_fs ns)).
Proof.
  revert d0 p0. induction q as [|c q IH] using rev_ind; [done|]. intros d0 p0. rewrite !walk_snoc.
  destruct (walk ns _ _ q) as [[d1 p1]|] eqn:Hq.
  - rewrite (walk_mono q _ Hq). assert (Hcase : (d1 = TmpDir id /\ c = name) \/ ~ (d1 = TmpDir id /\ c = name)).
    { destruct (parent_or_not d1), (decide (c = name)); tauto. }
    destruct Hcase as [[-> ->]|Hne].
    + destruct (at_parent _ _ Hq) as [-> ->]. rewrite resolve_new. intros _.
      destruct created_spec as (_ & _ & _ & d' & _ & _ & _ & -> & _).
      destruct i as [f|f| |dd]; simpl in Hc; [destruct Hc as [_ ->]|rewrite Hc|rewrite Hc|destruct Hc as [_ ->]]; try done.
      simpl. by intros [= <- _].
    + rewrite resolve_other; [congruence|intros x ->; by eapply walk_valid|done].
  - intros _. destruct (walk (with_fs ns fs') _ _ q) as [[d1 p1]|] eqn:Hq'; [|done].
    rewrite (IH d1 p1 eq_refl eq_refl). by rewrite resolve_empty.
Qed.

Lemma lookup_new : lookup_components (with_fs ns fs') (ns_root ns) "/" (cs ++ [name]) = Ok (tmp_object n).
Proof. rewrite lookup_walk, (walk_mono _ _ Hwalk). apply resolve_new. Qed.

Lemma lookup_other q :
  q <> cs ++ [name] ->
  lookup_components (with_fs ns fs') (ns_root ns) "/" q = lookup_components ns (ns_root ns) "/" q.
Proof.
  destruct q as [|c q _] using rev_ind; [done|]. intros Hne. rewrite !lookup_walk.
  destruct (walk ns _ _ q) as [[d0 p0]|] eqn:Hq.
  - rewrite (walk_mono _ _ Hq). apply resolve_other; [intros x ->; by eapply walk_valid|].
    intros [-> ->]. by destruct (at_parent _ _ Hq) as [-> _].
  - destruct (walk (with_fs ns fs') _ _ q) as [[d1 p1]|] eqn:Hq'; [|done].
    rewrite (walk_new _ _ _ Hq Hq'). by rewrite resolve_empty.
Qed.

Lemma lookup_path_other p :
  tail (split_slash p) <> cs ++ [name] \/ p = "/" ->
  lookup_named_object (with_fs ns fs') p = lookup_named_object ns p.
Proof.
  intros Hp. unfold lookup_named_object. destruct (check_absolute_path p); [|done].
  destruct (String.eqb_spec p "/"); [done|]. apply lookup_other. by destruct Hp.
Qed.

Lemma created_ok : ns_ok (with_fs ns fs').
Proof.
  destruct created_spec as (_ & Hfs & Hr & _). constructor; [done|simpl; by rewrite (no_root ns Hok), <- Hr|].
  intros p r Hp. simpl in Hp. destruct (no_mounts ns Hok p r Hp) as [Hpr Hlk]. split; [done|].
  destruct (decide (tail (split_slash p) <> cs ++ [name] \/ p = "/")) as [Hd0|Hd0]; [by rewrite lookup_path_other|].
  assert (Ht : tail (split_slash p) = cs ++ [name]) by (destruct (decide (tail (split_slash p) = cs ++ [name])); tauto).
  unfold lookup_named_object in *. destruct (check_absolute_path p); [|done].
  destruct (String.eqb_spec p "/"); [done|]. rewrite Ht in *. simpl. by rewrite lookup_new.
Qed.
End creating.

(** *** [touch], [mkdir] and [mkfifo] *)

Inductive obj_kind := KFile | KDir | KPipe.

Definition kind_inode (k : obj_kind) : inode :=
  match k with KFile => IFile file_new | KDir => IDir dir_new | KPipe => IPipe end.
Definition kind_entry (k : obj_kind) : nat -> TmpFsINode :=
  match k with KFile => TFile | KDir => TDirectory | KPipe => TPipe end.

Definition create_object ns (k : obj_kind) (path : string) : result Errno Z * Ns :=
  match k with KFile => touch ns path | KDir => mkdir ns path | KPipe => mkfifo ns path end.

Definition create_kind (k : obj_kind) fs id d name := dir_create fs id d name (kind_inode k) (kind_entry k).

Lemma kind_creates k : creates (kind_inode k) (kind_entry k).
Proof. by destruct k. Qed.

(** The three operations differ only in the error they report. *)
Lemma create_object_parent ns k path :
  exists e, create_object ns k path =
    match create_in_parent ns (fs_create (create_kind k)) path with
    | (Ok _, ns') => (Ok 0, ns')
    | (Err _, ns') => (Err e, ns')
    end.
Proof.
  destruct k; simpl; unfold touch, mkdir, mkfifo.
  - by exists ENOTDIR.
  - by exists ENOTDIR.
  - change (do_create_pipe : World -> _) with (fs_create (Uuid := Uuid) (PS := PS) (create_kind KPipe)).
    destruct (create_in_parent ns (fs_create (create_kind KPipe)) path) as [[r|e] ns']; [by exists EINVAL|by exists e].
Qed.

Lemma absolute_unique p path cs :
  split_slash path = "" :: cs -> p <> path -> check_absolute_path p = true -> tail (split_slash p) <> cs.
Proof.
  intros Hs Hne Habs Ht. destruct p as [|c p]; [done|]. simpl in Habs. apply Hne.
  rewrite <- (join_split (String c p)), <- (join_split path), Hs, <- Ht. simpl. by rewrite Habs.
Qed.

Lemma with_fs_id ns : with_fs ns (ns_fs ns) = ns.
Proof. destruct ns as [[fs pr ps] r m t c]. done. Qed.


(** *** Starting up *)

Lemma load_initrd_ok fs entries :
  fs_ok fs -> exists fs', load_initrd fs entries = Ret fs' /\ fs_ok fs' /\ fs_extends fs fs'.
Proof.
  revert fs. induction entries as [|[f b] entries IH]; intros fs Hok; simpl; [by exists fs|].
  destruct (create_static_file_spec fs f b Hok) as (r & fs1 & -> & Hok1 & Hext1 & _). simpl.
  destruct (IH fs1 Hok1) as (fs2 & -> & Hok2 & Hext2). exists fs2. split_and!; [done|done|by etransitivity].
Qed.

Lemma proc_in_root :
  exists fs d, create_dir tmpfs_new (root_inode tmpfs_new) dir_new "proc" = (Ok (TDirectory 1), fs) /\
    fs_ok fs /\ inodes fs !! root_inode fs = Some (IDir d) /\ dir_lookup d "proc" = Ok (TDirectory 1).
Proof.
  eexists _, _. split; [reflexivity|]. split; [|split; [apply lookup_insert_eq|reflexivity]].
  assert (Hok : fs_ok tmpfs_new) by exact (conj tmpfs_new_wf tmpfs_new_tree).
  eapply (dir_create_ok _ 0 dir_new "proc"); [exact Hok|reflexivity|exact creates_dir|reflexivity].
Qed.

Lemma init_spec (proc : Proc) (pipes : PS) (entries : list (string * list Z)) :
  exists ns, init uuid_parse_str uuid_display proc pipes entries = Ret ns /\ ns_ok ns /\
    ns_table ns = table_new /\ ns_cwd ns = "/" /\
    lookup_named_object ns "/proc" = Ok (DirectoryObject (ProcD ProcDir)) /\
    forall name, name <> "" -> no_slash name = true ->
      lookup_named_object ns ("/proc/" +:+ name) =
        match proc_lookup uuid_parse_str proc ProcDir name with Ok o => Ok (proc_named o) | Err _ => Err ENOENT end.
Proof.
  destruct proc_in_root as (fs0 & d0 & Hc & Hok0 & Hd0 & Hl0).
  destruct (load_initrd_ok fs0 entries Hok0) as (fs1 & Hload & Hok1 & Hr & Hext).
  destruct (Hext _ _ Hd0) as (d1 & Hd1 & Hl1). specialize (Hl1 _ _ Hl0).
  set (ns := mkNs (O := fs_objects uuid_parse_str uuid_display) (mkWorld fs1 proc pipes) (TmpDir (root_inode fs1))
               (mount (O := fs_objects uuid_parse_str uuid_display) mount_table_new "/proc" (ProcD ProcDir)) table_new "/").
  assert (Hstep : resolve ns (ns_root ns) "/" "proc" = Ok (DirectoryObject (ProcD ProcDir))).
  { unfold resolve. simpl. rewrite Hr, Hd1, Hl1. done. }
  assert (Hproc : lookup_named_object ns "/proc" = Ok (DirectoryObject (ProcD ProcDir))).
  { exact (eq_trans (lookup_walk ns (ns_root ns) "/" [] "proc") Hstep). }
  exists ns. split; [unfold init; rewrite Hc, Hload; done|]. split; [|split_and!; [done|done|done|]].
  - constructor; [done|done|]. intros p r Hp. change (ns_mounts ns) with (mount (O := fs_objects uuid_parse_str uuid_display) mount_table_new "/proc" (ProcD ProcDir)) in Hp.
    rewrite mount_get_mount, mount_get_new in Hp. case_decide as Hpp; [|done]. injection Hp as <-.
    split; [by eexists|]. rewrite <- Hpp. by rewrite Hproc.
  - intros name Hne Hns.
    assert (Hsp : split_slash ("/proc/" +:+ name) = "" :: ["proc"] ++ [name]).
    { change ("/proc/" +:+ name) with ("" +:+ String "/" ("proc" +:+ String "/" name)).
      rewrite !split_app_slash by done. by rewrite split_no_slash. }
    rewrite (lookup_canonical ns _ ["proc"] name); [|by exists "p"%char, ("roc/" +:+ name)|done].
    assert (Hw : walk ns (ns_root ns) "/" ["proc"] = Some (ProcD ProcDir, "/proc")).
    { cbn [walk]. by rewrite Hstep. }
    rewrite Hw. unfold resolve. simpl.
    assert (Hmnt : mount_get (mount (O := fs_objects uuid_parse_str uuid_display) mount_table_new "/proc" (ProcD ProcDir)) (build_path "/proc" name) = None).
    { rewrite mount_get_mount, mount_get_new. case_decide as Hpp; [|done].
      change (build_path "/proc" name) with ("/proc/" +:+ name) in Hpp. by destruct name. }
    destruct (proc_dir_lookup uuid_parse_str proc name) as [o|] eqn:Ho; simpl; [|done].
    by rewrite Hmnt.
Qed.
(** Starting the naming service never panics, whatever the initial ram disk holds: the
    result is well formed, no object is open, the working directory is the root, and
    [/proc] and everything below it is the process file system. *)
Theorem init_correct (proc : Proc) (pipes : PS) (entries : list (string * list Z)) :
  exists ns, init uuid_parse_str uuid_display proc pipes entries = Ret ns /\ ns_ok ns /\
    ns_table ns = table_new /\ ns_cwd ns = "/" /\
    lookup_named_object ns "/proc" = Ok (DirectoryObject (ProcD ProcDir)) /\
    forall name, name <> "" -> no_slash name = true ->
      lookup_named_object ns ("/proc/" +:+ name) =
        match proc_lookup uuid_parse_str proc ProcDir name with Ok o => Ok (proc_named o) | Err _ => Err ENOENT end.
Proof. apply init_spec. Qed.
End fs_paths.

(** ** Examples *)

(** A state of pipes on which every call fails. *)
#[export] Instance no_pipes : PipeImpl unit := {
  pi_open ps _ _ := (Err ENOTSUP, ps);
  pi_read ps _ buf _ := (Err ENOTSUP, buf, ps);
  pi_write ps _ _ _ := (Err ENOTSUP, ps);
  pi_close ps _ _ := ps
}.

#[local] Hint Extern 0 (Objects _) => exact (fs_objects two_uuids_parse two_uuids) : typeclass_instances.

Definition demo_init : outcome Ns :=
  init two_uuids_parse two_uuids (mkProc [mkProcess true "shell" 1 2 3] 5 6) tt [("bin/shell", [1; 2])].

Definition demo : Ns :=
  match demo_init with
  | Ret ns => ns
  | Panic _ => mkNs (mkWorld tmpfs_new (mkProc [] 0 0) tt) (TmpDir 0) mount_table_new table_new "/"
  end.

Lemma demo_ok : ns_ok two_uuids_parse two_uuids demo.
Proof.
  unfold demo, demo_init. destruct (init_spec two_uuids_parse two_uuids (mkProc [mkProcess true "shell" 1 2 3] 5 6) tt
    [("bin/shell", [1; 2])]) as (ns & -> & Hok & _). done.
Qed.


(** [touch] of the path of the root succeeds and leaves a file without a name in it: the
    last component of the path is empty. *)
Example touch_root_leaves_nameless_file :
  let '(r, ns') := touch demo "/" in
  r = Ok 0 /\ fs_readdir two_uuids (ns_world ns') (ns_root ns') 2 = Ok (Some (mkDirEntry Regular "")).
Proof. vm_compute. done. Qed.
