(* ===== verification/NamingIO.v ===== *)
(** * Reading and writing through handles

    What a program writes through a handle it reads back, and it moves no other handle;
    handles on one file share its contents, each with a position of its own. *)

From S2P Require Import Prelude Errno Tmpfs Traits Naming NamingTable Procfs NamingFs NamingProofs.

Open Scope list_scope.
Open Scope Z_scope.

(** ** One file *)

Lemma splice_read data o buf : (o <= length data)%nat -> take (length buf) (drop o (splice data o buf)) = buf.
Proof.
  intros Ho. unfold splice. rewrite drop_app_length' by (rewrite length_take; lia). apply take_app_length.
Qed.

Lemma write_read f buf out p :
  file_wf f -> 0 <= p -> p + Z.of_nat (length buf) <= ISIZE_MAX -> length out = length buf ->
  exists f', file_write f buf p = Ret (Z.of_nat (length buf), f') /\ file_wf f' /\
    file_read f' out p = (Z.of_nat (length buf), buf).
Proof.
  intros Hwf Hp Hmax Hout. unfold file_write, checked_add.
  destruct (Z.leb_spec (p + Z.of_nat (length buf)) U64_MAX); [|unfold ISIZE_MAX, U64_MAX in *; lia]. simpl.
  pose proof (grow_spec f (p + Z.of_nat (length buf)) Hwf ltac:(lia)) as Hg.
  destruct (grow f _) as [f1|]; simpl; [|lia]. destruct Hg as (Hwf1 & Hlen & _).
  assert (Hl : length (splice (file_data f1) (Z.to_nat p) buf) = length (file_data f1)).
  { unfold splice. rewrite !length_app, length_take, length_drop. lia. }
  eexists. split; [done|]. split; [unfold file_wf in *; simpl; lia|].
  unfold file_read, data_read. cbn [file_data]. rewrite Hl. destruct (Z.gtb_spec p (Z.of_nat (length (file_data f1)))); [lia|].
  rewrite Hout. destruct (Z.ltb_spec (Z.of_nat (length (file_data f1)) - p) (Z.of_nat (length buf))); [lia|].
  rewrite Nat2Z.id, splice_read by lia. unfold copy_into. by rewrite drop_ge, app_nil_r by lia.
Qed.

(** ** Through a handle *)

Section io.
  Context {Uuid : Type} `{EqDecision Uuid}.
  Context (uuid_parse_str : string -> option Uuid) (uuid_display : Uuid -> string).
  Context {PS : Type} `{PipeImpl PS}.
  #[local] Hint Extern 0 (Objects _) => exact (fs_objects uuid_parse_str uuid_display) : typeclass_instances.
  Implicit Types ns : Ns (W := World (Uuid := Uuid) (PS := PS)).

(** The open objects of a naming service, as a map. *)
Definition opened ns (m : gmap Z OpenedObject) : Prop := table_rep (ns_table ns) m.

Lemma set_pos_opened ns m fh o pos :
  opened ns m -> m !! fh = Some o ->
  opened (set_pos ns fh o pos) (<[fh := mkOpened (oo_object o) pos (oo_options o)]> m).
Proof.
  intros R Ho. unfold opened, set_pos. cbn [ns_table with_table].
  pose proof (update_refines _ _ fh (mkOpened (oo_object o) pos (oo_options o)) R) as Hu.
  unfold map_update in Hu. by rewrite Ho in Hu.
Qed.

Lemma opened_lookup ns m fh o : opened ns m -> m !! fh = Some o -> lookup_opened_object (ns_table ns) fh = Ok o.
Proof. intros R Ho. rewrite (lookup_refines _ _ _ R). unfold map_lookup. by rewrite Ho. Qed.

(** [o] with another position *)
Definition at_pos (o : OpenedObject (W := World (Uuid := Uuid) (PS := PS))) (p : Z) : OpenedObject :=
  mkOpened (oo_object o) p (oo_options o).

Lemma write_spec ns m fh o id f buf :
  opened ns m -> m !! fh = Some o -> oo_object o = FileObject (TmpFile id) ->
  inodes (ns_fs _ _ ns) !! id = Some (IFile f) -> file_wf f -> 0 <= oo_pos o ->
  oo_pos o + Z.of_nat (length buf) <= ISIZE_MAX ->
  exists f' ns', object_write ns fh buf = Ret (Ok (Z.of_nat (length buf)), ns') /\
    file_write f buf (oo_pos o) = Ret (Z.of_nat (length buf), f') /\ file_wf f' /\
    ns_fs _ _ ns' = set_inode (ns_fs _ _ ns) id (IFile f') /\
    opened ns' (<[fh := at_pos o (oo_pos o + Z.of_nat (length buf))]> m).
Proof.
  intros R Ho Hobj Hf Hwf Hp Hmax. unfold object_write. rewrite (opened_lookup _ _ _ _ R Ho), Hobj.
  destruct (write_read f buf buf (oo_pos o) Hwf Hp Hmax eq_refl) as (f' & Hw & Hwf' & _).
  unfold ns_fs in Hf. simpl. rewrite Hf, Hw. simpl. unfold add_pos, checked_add.
  destruct (Z.leb_spec (oo_pos o + Z.of_nat (length buf)) U64_MAX); [|unfold ISIZE_MAX, U64_MAX in *; lia]. simpl.
  eexists _, _. split; [reflexivity|]. split_and!; [done|done|done|]. by apply set_pos_opened.
Qed.

Lemma read_spec ns m fh o id f out n out' :
  opened ns m -> m !! fh = Some o -> oo_object o = FileObject (TmpFile id) ->
  inodes (ns_fs _ _ ns) !! id = Some (IFile f) -> file_read f out (oo_pos o) = (n, out') ->
  oo_pos o + n <= U64_MAX ->
  exists ns', object_read ns fh out = Ret (Ok n, out', ns') /\ ns_world ns' = ns_world ns /\
    opened ns' (<[fh := at_pos o (oo_pos o + n)]> m).
Proof.
  intros R Ho Hobj Hf Hr Hmax. unfold object_read. rewrite (opened_lookup _ _ _ _ R Ho), Hobj.
  unfold ns_fs in Hf. simpl. rewrite Hf, Hr. simpl. unfold add_pos, checked_add.
  destruct (Z.leb_spec (oo_pos o + n) U64_MAX); [|lia]. simpl.
  eexists. split; [reflexivity|]. split; [done|]. by apply set_pos_opened.
Qed.

Lemma seek_start_spec ns m fh o id p :
  opened ns m -> m !! fh = Some o -> oo_object o = FileObject (TmpFile id) -> 0 <= p <= ISIZE_MAX ->
  exists ns', object_seek ns fh p SeekStart = Ret (Ok p, ns') /\ ns_world ns' = ns_world ns /\
    opened ns' (<[fh := at_pos o p]> m).
Proof.
  intros R Ho Hobj Hp. unfold object_seek. rewrite (opened_lookup _ _ _ _ R Ho), Hobj. simpl.
  assert (Hw : wrap64 p = p) by (unfold wrap64, ISIZE_MAX in *; apply Z.mod_small; lia). rewrite Hw.
  eexists. split; [reflexivity|]. split; [done|]. by apply set_pos_opened.
Qed.

(** C18 What is written through a handle is read back: writing a buffer, seeking back to where
    the write began and reading as many bytes gives exactly the bytes written, and no
    other handle notices but through the contents of the file. *)
Theorem write_seek_read ns m (fh : Z) (o : OpenedObject) (id : nat) (f : File) (buf out : list Z) :
  opened ns m -> m !! fh = Some o -> oo_object o = FileObject (TmpFile id) ->
  inodes (ns_fs _ _ ns) !! id = Some (IFile f) -> file_wf f -> 0 <= oo_pos o ->
  oo_pos o + Z.of_nat (length buf) <= ISIZE_MAX -> length out = length buf ->
  exists ns1 ns2 ns3 f',
    write ns fh buf = Ret (Ok (Z.of_nat (length buf)), ns1) /\
    seek ns1 fh (oo_pos o) SeekStart = Ret (Ok (oo_pos o), ns2) /\
    read ns2 fh out = Ret (Ok (Z.of_nat (length buf)), buf, ns3) /\
    ns_fs _ _ ns3 = set_inode (ns_fs _ _ ns) id (IFile f') /\ file_wf f' /\
    opened ns3 (<[fh := at_pos o (oo_pos o + Z.of_nat (length buf))]> m).
Proof.
  intros R Ho Hobj Hf Hwf Hp Hmax Hout.
  destruct (write_spec ns m fh o id f buf R Ho Hobj Hf Hwf Hp Hmax) as (f' & ns1 & H1 & Hw & Hwf' & Hfs1 & R1).
  destruct (seek_start_spec ns1 _ fh (at_pos o _) id (oo_pos o) R1 (lookup_insert_eq _ _ _) Hobj) as (ns2 & H2 & Hfs2 & R2);
    [lia|].
  destruct (write_read f buf out (oo_pos o) Hwf Hp Hmax Hout) as (f2 & Hw2 & _ & Hr). rewrite Hw in Hw2. injection Hw2 as <-.
  destruct (read_spec ns2 _ fh (at_pos o (oo_pos o)) id f' out (Z.of_nat (length buf)) buf R2 (lookup_insert_eq _ _ _) Hobj)
    as (ns3 & H3 & Hfs3 & R3).
  - unfold ns_fs in *. rewrite Hfs2, Hfs1. apply lookup_insert_eq.
  - exact Hr.
  - simpl. unfold ISIZE_MAX, U64_MAX in *. lia.
  - exists ns1, ns2, ns3, f'. split_and!; [exact H1|exact H2|exact H3| |done|].
    + unfold ns_fs in *. by rewrite Hfs3, Hfs2.
    + by rewrite !insert_insert_eq in R3.
Qed.
End io.

(** ** Examples *)

#[local] Hint Extern 0 (Objects _) => exact (fs_objects two_uuids_parse two_uuids) : typeclass_instances.

(** A naming service with one file, empty and open for reading and writing. *)
Definition demo_object : OpenedObject := mkOpened (FileObject (TmpFile 1)) 0 OPT_READWRITE.
Definition demo_ns : Ns :=
  mkNs (mkWorld (create_file tmpfs_new 0 dir_new "f").2 (mkProc [] 0 0) tt) (TmpDir 0) mount_table_new
    (allocate_handle table_new demo_object).2 "/".

Lemma demo_opened : opened two_uuids_parse two_uuids demo_ns {[0 := demo_object]}.
Proof.
  pose proof (proj2 (allocate_refines table_new ∅ demo_object table_new_rep)) as R. unfold map_allocate in R.
  assert (Hl : least_free (A := OpenedObject) ∅ = Some 0) by (vm_compute; reflexivity). by rewrite Hl in R.
Qed.

Lemma write_seek_read_witness :
  exists ns1 ns2 ns3, write demo_ns 0 [7; 8] = Ret (Ok 2, ns1) /\ seek ns1 0 0 SeekStart = Ret (Ok 0, ns2) /\
    read ns2 0 [0; 0] = Ret (Ok 2, [7; 8], ns3).
Proof.
  destruct (write_seek_read two_uuids_parse two_uuids demo_ns {[0 := demo_object]} 0 demo_object 1 file_new [7; 8] [0; 0]
              demo_opened (lookup_singleton_eq _ _) eq_refl) as (ns1 & ns2 & ns3 & f' & H1 & H2 & H3 & _).
  - reflexivity.
  - reflexivity.
  - simpl. lia.
  - unfold ISIZE_MAX. simpl. lia.
  - reflexivity.
  - exists ns1, ns2, ns3. done.
Defined.

(** A user program can stop the kernel with two system calls: seeking to a negative position
    succeeds and stores a position close to 2^64, and the next write through the handle
    overflows when it adds the length of the buffer. *)
Theorem negative_seek_panics :
  match seek demo_ns 0 (-1) SeekStart with
  | Ret (r, ns1) => r = Ok (2 ^ 64 - 1) /\
      match write ns1 0 [7] with Panic msg => msg = "attempt to add with overflow" | Ret _ => False end
  | Panic _ => False
  end.
Proof. vm_compute. done. Qed.
