(* ===== verification/Pipe.v ===== *)
(** * Named pipes ([os/kernel/src/naming/tmpfs.rs], [os/kernel/src/sync/wait_queue.rs])

    A pipe is shared by threads that run its methods at the same time, so it is a
    transition system: every thread has a program counter, and one step is one access to
    the shared state (one evaluation of a waiting condition, one queue operation, one
    counter update, one critical section).

    One turn of the loop of [WaitQueue::wait] is one step: the thread finds its condition
    true, or it enters the wait queue and tries again.  [park_current] does not take it
    off the processor (see [Sched]): it only sets a mark that [yield_now] overwrites before
    it puts the thread back into the ready queue, so a waiting thread polls, and enters
    the wait queue anew in each turn.  A notification removes entries and has no other
    effect on what the threads do.

    The queue of bytes is the [mpmc::bounded::scq] queue of the [nolock] crate: a
    first-in-first-out queue of [PIPE_SIZE] bytes whose [try_enqueue] fails when it is
    full and whose [try_dequeue] fails when it is empty.  The bytes that went in and out
    since the buffer was last reset are recorded in [s_sent] and [s_received]; the steps
    do not depend on them. *)

From S2P Require Import Prelude Errno Tmpfs Traits.

Open Scope list_scope.
Open Scope Z_scope.

(* os/kernel/src/naming/tmpfs.rs: PIPE_SIZE *)
Definition PIPE_SIZE : Z := 4096.

(** Wait queues hold the waiting threads in order; [p_mutex] is the [open_close_mutex]. *)
(* [os/kernel/src/naming/tmpfs.rs:322-333] Pipe *)
Record Pipe := mkPipe {
  p_queue : list Z;
  p_count : Z;
  p_rx_wq : list nat;
  p_wx_wq : list nat;
  p_open_wq : list nat;
  p_epoch : Z;
  p_mutex : bool;
  p_has_reader : bool;
  p_has_writer : bool
}.

(* [os/kernel/src/naming/tmpfs.rs:336-359] Pipe::new *)
Definition pipe_new : Pipe := mkPipe [] 0 [] [] [] 0 false false false.

(* os/kernel/src/naming/tmpfs.rs: Pipe::has_data *)
Definition has_data (p : Pipe) : bool := p_count p >? 0.
(* os/kernel/src/naming/tmpfs.rs: Pipe::has_space *)
Definition has_space (p : Pipe) : bool := p_count p <? PIPE_SIZE.

Definition set_data (p : Pipe) (q : list Z) (c : Z) : Pipe :=
  mkPipe q c (p_rx_wq p) (p_wx_wq p) (p_open_wq p) (p_epoch p) (p_mutex p) (p_has_reader p) (p_has_writer p).
Definition set_rx (p : Pipe) (l : list nat) : Pipe :=
  mkPipe (p_queue p) (p_count p) l (p_wx_wq p) (p_open_wq p) (p_epoch p) (p_mutex p) (p_has_reader p) (p_has_writer p).
Definition set_wx (p : Pipe) (l : list nat) : Pipe :=
  mkPipe (p_queue p) (p_count p) (p_rx_wq p) l (p_open_wq p) (p_epoch p) (p_mutex p) (p_has_reader p) (p_has_writer p).
Definition set_open (p : Pipe) (l : list nat) (epoch : Z) : Pipe :=
  mkPipe (p_queue p) (p_count p) (p_rx_wq p) (p_wx_wq p) l epoch (p_mutex p) (p_has_reader p) (p_has_writer p).
Definition set_ends (p : Pipe) (reader writer : bool) : Pipe :=
  mkPipe (p_queue p) (p_count p) (p_rx_wq p) (p_wx_wq p) (p_open_wq p) (p_epoch p) (p_mutex p) reader writer.
Definition set_mutex (p : Pipe) (b : bool) : Pipe :=
  mkPipe (p_queue p) (p_count p) (p_rx_wq p) (p_wx_wq p) (p_open_wq p) (p_epoch p) b (p_has_reader p) (p_has_writer p).

(** ** Program counters *)

(** Where a thread is in a method.  [OpenLoop reader] is the loop of [wait_open] of a reader
    (who waits for a writer) or a writer. *)
Inductive pc :=
| Idle
| OpenStart (reader : bool)
| OpenLoop (reader : bool)
| OpenWait (reader : bool) (e : Z)
| RWait (n : nat)
| REof (n : nat)
| RLoop (n : nat) (got : list Z)
| RSub (n : nat) (got : list Z)
| RWait2 (n : nat) (got : list Z)
| RCheck2 (n : nat) (got : list Z)
| RNotify (got : list Z)
| WWait (buf : list Z)
| WCheck (buf : list Z)
| WLoop (buf : list Z) (total_written : nat)
| WAdd (buf : list Z) (total_written : nat)
| WWait2 (buf : list Z) (total_written : nat)
| WCheck2 (buf : list Z) (total_written : nat)
| WNotify (total_written : nat)
| CStart (flags : Z)
| CReset.

Inductive op_result :=
| RetOpen (r : result Errno Z)
| RetRead (r : result Errno (list Z))
| RetWrite (r : result Errno Z)
| RetClose.

Inductive event := Silent | Sent (b : Z) | Received (b : Z) | Cleared.

(** What a step does: the new pipe, what is recorded, and where the thread continues or what
    the method returns. *)
Record act := mkAct {
  a_pipe : Pipe;
  a_event : event;
  a_next : pc + op_result
}.

Definition goto (p : Pipe) (c : pc) : option act := Some (mkAct p Silent (inl c)).
Definition ret (p : Pipe) (r : op_result) : option act := Some (mkAct p Silent (inr r)).

Section steps.
  (** Which threads [scheduler().unblock] finds on the core of the notifying thread. *)
  Context (unblock : nat -> bool).

(** Entries are removed up to the first thread that is found. *)
(* [os/kernel/src/sync/wait_queue.rs:75-91] WaitQueue::notify_one *)
Fixpoint notify_one (wq : list nat) : list nat :=
  match wq with
  | [] => []
  | tid :: wq => if unblock tid then wq else notify_one wq
  end.
(* [os/kernel/src/sync/wait_queue.rs:93-107] WaitQueue::notify_all *)
Definition notify_all (wq : list nat) : list nat := [].

(** One turn of the loop of [wait]. *)
(* [os/kernel/src/sync/wait_queue.rs:32-60] WaitQueue::wait *)
Definition wait_step (pred : bool) (p queued : Pipe) (next here : pc) : option act :=
  if pred then goto p next else goto queued here.

(* [os/kernel/src/naming/tmpfs.rs:410-452] Pipe::open *)
Definition open_step (p : Pipe) (tid : nat) (c : pc) : option act :=
  match c with
  | OpenStart reader =>
      if p_mutex p then None
      else if (if reader then p_has_reader p else p_has_writer p) then ret p (RetOpen (Err EBUSY))
      else
        let p1 := if reader then set_ends p true (p_has_writer p) else set_ends p (p_has_reader p) true in
        goto (set_open p1 (notify_all (p_open_wq p1)) (wrap64 (p_epoch p1 + 1))) (OpenLoop reader)
  | OpenLoop reader =>
      if (if reader then p_has_writer p else p_has_reader p) then ret p (RetOpen (Ok 0))
      else goto p (OpenWait reader (p_epoch p))
  | OpenWait reader e =>
      wait_step ((if reader then p_has_writer p else p_has_reader p) || negb (p_epoch p =? e))
        p (set_open p (p_open_wq p ++ [tid]) (p_epoch p)) (OpenLoop reader) c
  | _ => None
  end.

(* [os/kernel/src/naming/tmpfs.rs:458-520] Pipe::read *)
Definition read_step (p : Pipe) (tid : nat) (c : pc) : option act :=
  match c with
  | RWait n => wait_step (has_data p || negb (p_has_writer p)) p (set_rx p (p_rx_wq p ++ [tid])) (REof n) c
  | REof n => if negb (has_data p) && negb (p_has_writer p) then ret p (RetRead (Ok [])) else goto p (RLoop n [])
  | RLoop n got =>
      if (n <=? length got)%nat then goto p (RNotify got)
      else match p_queue p with
           | b :: q => Some (mkAct (set_data p q (p_count p)) (Received b) (inl (RSub n (got ++ [b]))))
           | [] => goto p (RWait2 n got)
           end
  | RSub n got => goto (set_data p (p_queue p) (wrap64 (p_count p - 1))) (RLoop n got)
  | RWait2 n got => wait_step (has_data p || negb (p_has_writer p)) p (set_rx p (p_rx_wq p ++ [tid])) (RCheck2 n got) c
  | RCheck2 n got => if has_data p then goto p (RLoop n got) else goto p (RNotify got)
  | RNotify got =>
      match got with
      | [] => ret p (RetRead (Ok []))
      | _ => ret (set_wx p (notify_one (p_wx_wq p))) (RetRead (Ok got))
      end
  | _ => None
  end.

(* [os/kernel/src/naming/tmpfs.rs:522-581] Pipe::write *)
Definition write_step (p : Pipe) (tid : nat) (c : pc) : option act :=
  match c with
  | WWait buf => wait_step (has_space p || negb (p_has_reader p)) p (set_wx p (p_wx_wq p ++ [tid])) (WCheck buf) c
  | WCheck buf => if negb (p_has_reader p) then ret p (RetWrite (Err EPIPE)) else goto p (WLoop buf 0)
  | WLoop buf k =>
      match buf !! k with
      | None => goto p (WNotify k)
      | Some b =>
          if Z.of_nat (length (p_queue p)) <? PIPE_SIZE
          then Some (mkAct (set_data p (p_queue p ++ [b]) (p_count p)) (Sent b) (inl (WAdd buf k)))
          else goto p (WWait2 buf k)
      end
  | WAdd buf k => goto (set_data p (p_queue p) (wrap64 (p_count p + 1))) (WLoop buf (S k))
  | WWait2 buf k => wait_step (has_space p || negb (p_has_reader p)) p (set_wx p (p_wx_wq p ++ [tid])) (WCheck2 buf k) c
  | WCheck2 buf k => if negb (p_has_reader p) then ret p (RetWrite (Err EPIPE)) else goto p (WLoop buf k)
  | WNotify k =>
      if (0 <? k)%nat then ret (set_rx p (notify_one (p_rx_wq p))) (RetWrite (Ok (Z.of_nat k)))
      else ret p (RetWrite (Ok (Z.of_nat k)))
  | _ => None
  end.

(** [busy]: another thread holds the read lock of the queue, so replacing it has to wait. *)
(* [os/kernel/src/naming/tmpfs.rs:583-612] Pipe::close *)
Definition close_step (p : Pipe) (busy : bool) (c : pc) : option act :=
  match c with
  | CStart flags =>
      if p_mutex p then None
      else
        let p := set_mutex p true in
        if flags =? OPT_READONLY then
          let p1 := set_ends p false (p_has_writer p) in
          goto (set_wx (set_open p1 (notify_all (p_open_wq p1)) (wrap64 (p_epoch p1 + 1))) (notify_all (p_wx_wq p1))) CReset
        else if flags =? OPT_WRITEONLY then
          let p1 := set_ends p (p_has_reader p) false in
          goto (set_rx (set_open p1 (notify_all (p_open_wq p1)) (wrap64 (p_epoch p1 + 1))) (notify_all (p_rx_wq p1))) CReset
        else goto p CReset
  | CReset =>
      if negb (p_has_reader p) && negb (p_has_writer p) then
        if busy then None
        else Some (mkAct (set_mutex (set_data p [] 0) false) Cleared (inr RetClose))
      else ret (set_mutex p false) RetClose
  | _ => None
  end.

(** ** Threads *)

Inductive op :=
| OOpen (flags : Z)
| ORead (n : nat) (options : Z)
| OWrite (buf : list Z) (options : Z)
| OClose (flags : Z).

(** The beginning of a method, which does not touch shared state. *)
(* os/kernel/src/naming/tmpfs.rs: Pipe::open *)
Definition start (o : op) : pc + op_result :=
  match o with
  | OOpen flags =>
      if flags =? OPT_READONLY then inl (OpenStart true)
      else if flags =? OPT_WRITEONLY then inl (OpenStart false)
      else inr (RetOpen (Err EINVAL))
  | ORead n options =>
      if options =? OPT_WRITEONLY then inr (RetRead (Err EBADF))
      else if (n =? 0)%nat then inr (RetRead (Ok [])) else inl (RWait n)
  | OWrite buf options =>
      if options =? OPT_READONLY then inr (RetWrite (Err EBADF))
      else match buf with [] => inr (RetWrite (Ok 0)) | _ => inl (WWait buf) end
  | OClose flags => inl (CStart flags)
  end.

(** A thread runs a list of methods one after the other. *)
Record Thread := mkThread {
  th_pc : pc;
  th_todo : list op;
  th_results : list op_result
}.

Definition new_thread (todo : list op) : Thread := mkThread Idle todo [].

(** The [pq] read lock is held from the beginning of a transfer to its end. *)
Definition holds_pq (c : pc) : bool :=
  match c with
  | RLoop _ _ | RSub _ _ | RWait2 _ _ | RCheck2 _ _ | RNotify _
  | WLoop _ _ | WAdd _ _ | WWait2 _ _ | WCheck2 _ _ | WNotify _ => true
  | _ => false
  end.

Definition pc_step (p : Pipe) (busy : bool) (tid : nat) (c : pc) : option act :=
  match c with
  | Idle => None
  | OpenStart _ | OpenLoop _ | OpenWait _ _ => open_step p tid c
  | RWait _ | REof _ | RLoop _ _ | RSub _ _ | RWait2 _ _ | RCheck2 _ _ | RNotify _ => read_step p tid c
  | WWait _ | WCheck _ | WLoop _ _ | WAdd _ _ | WWait2 _ _ | WCheck2 _ _ | WNotify _ => write_step p tid c
  | CStart _ | CReset => close_step p busy c
  end.

Record Sys := mkSys {
  s_pipe : Pipe;
  s_threads : list Thread;
  s_sent : list Z;
  s_received : list Z
}.

Definition continue (th : Thread) (next : pc + op_result) : Thread :=
  match next with
  | inl c => mkThread c (th_todo th) (th_results th)
  | inr r => mkThread Idle (th_todo th) (th_results th ++ [r])
  end.

Definition record_event (s : Sys) (e : event) : list Z * list Z :=
  match e with
  | Silent => (s_sent s, s_received s)
  | Sent b => (s_sent s ++ [b], s_received s)
  | Received b => (s_sent s, s_received s ++ [b])
  | Cleared => ([], [])
  end.

(** One step of thread [tid]; [None] if it has nothing to do or spins on a lock. *)
Definition sys_step (s : Sys) (tid : nat) : option Sys :=
  match s_threads s !! tid with
  | None => None
  | Some th =>
      match th_pc th, th_todo th with
      | Idle, [] => None
      | Idle, o :: rest =>
          Some (mkSys (s_pipe s) (<[tid := continue (mkThread Idle rest (th_results th)) (start o)]> (s_threads s))
                  (s_sent s) (s_received s))
      | c, _ =>
          match pc_step (s_pipe s) (existsb (fun th => holds_pq (th_pc th)) (s_threads s)) tid c with
          | None => None
          | Some a =>
              let '(sent, received) := record_event s (a_event a) in
              Some (mkSys (a_pipe a) (<[tid := continue th (a_next a)]> (s_threads s)) sent received)
          end
      end
  end.

(** A schedule is the order in which threads take their steps. *)
Fixpoint sys_run (s : Sys) (schedule : list nat) : option Sys :=
  match schedule with
  | [] => Some s
  | tid :: rest => match sys_step s tid with Some s' => sys_run s' rest | None => None end
  end.
End steps.

(** What [unblock] finds may differ from step to step. *)
Inductive sys_reach : Sys -> Sys -> Prop :=
| reach_refl s : sys_reach s s
| reach_step s s1 s2 unblock tid : sys_reach s s1 -> sys_step unblock s1 tid = Some s2 -> sys_reach s s2.

Lemma reach_trans s1 s2 s3 : sys_reach s1 s2 -> sys_reach s2 s3 -> sys_reach s1 s3.
Proof. intros H12 H23. induction H23; [done|]. by eapply reach_step; [apply IHsys_reach|]. Qed.

Lemma run_reach unblock s schedule s' : sys_run unblock s schedule = Some s' -> sys_reach s s'.
Proof.
  assert (H : forall s0 s s', sys_reach s0 s -> sys_run unblock s schedule = Some s' -> sys_reach s0 s').
  { induction schedule as [|tid rest IH]; intros s0 s1 s2 Hr; simpl; [by intros [= <-]|].
    destruct (sys_step unblock s1 tid) as [s3|] eqn:E; [|done]. apply IH. by eapply reach_step. }
  intros Hrun. eapply H; [apply reach_refl|done].
Qed.

Definition sys_start (ops : list (list op)) : Sys := mkSys pipe_new (new_thread <$> ops) [] [].

(** ** The invariant *)

(** Bytes whose counter update is still to come: one too many after a dequeue, one too few
    after an enqueue. *)
Definition pending (c : pc) : Z :=
  match c with RSub _ _ => 1 | WAdd _ _ => -1 | _ => 0 end.

Definition total_pending (threads : list Thread) : Z := foldr (fun th z => pending (th_pc th) + z) 0 threads.

Record pipe_inv (s : Sys) : Prop := {
  pi_fifo : s_sent s = s_received s ++ p_queue (s_pipe s);
  pi_bound : Z.of_nat (length (p_queue (s_pipe s))) <= PIPE_SIZE;
  pi_count : p_count (s_pipe s) = wrap64 (Z.of_nat (length (p_queue (s_pipe s))) + total_pending (s_threads s))
}.

Lemma total_pending_insert threads tid th th' :
  threads !! tid = Some th ->
  total_pending (<[tid := th']> threads) = total_pending threads - pending (th_pc th) + pending (th_pc th').
Proof.
  revert tid. induction threads as [|x l IH]; intros tid H; [done|].
  destruct tid as [|tid]; simpl in *; [injection H as ->; lia|]. rewrite (IH tid H). lia.
Qed.

Definition next_pending (a : act) : Z := match a_next a with inl c => pending c | inr _ => 0 end.

(** What any single step does to the queue and the counter. *)
Lemma pc_step_spec ub p busy tid c a :
  pc_step ub p busy tid c = Some a ->
  match a_event a with
  | Silent => p_queue (a_pipe a) = p_queue p /\
      (p_count (a_pipe a) = p_count p /\ next_pending a = pending c \/
       p_count (a_pipe a) = wrap64 (p_count p + (next_pending a - pending c)))
  | Sent b => p_queue (a_pipe a) = p_queue p ++ [b] /\ p_count (a_pipe a) = p_count p /\
      Z.of_nat (length (p_queue p)) < PIPE_SIZE /\ next_pending a = pending c - 1
  | Received b => p_queue p = b :: p_queue (a_pipe a) /\ p_count (a_pipe a) = p_count p /\
      next_pending a = pending c + 1
  | Cleared => p_queue (a_pipe a) = [] /\ p_count (a_pipe a) = 0 /\ busy = false /\ next_pending a = 0
  end.
Proof.
  intros H. unfold next_pending. destruct c; simpl in H; unfold wait_step, goto, ret in H;
    repeat case_match; simplify_eq/=; try done; try (split; [done|by left]); try (split; [done|by right]).
  split_and!; [done|done|lia|done].
Qed.

Lemma sys_step_cases ub s tid s' :
  sys_step ub s tid = Some s' ->
  exists th th', s_threads s !! tid = Some th /\
    ((th_pc th = Idle /\ s' = mkSys (s_pipe s) (<[tid := th']> (s_threads s)) (s_sent s) (s_received s) /\
      exists o rest, th_todo th = o :: rest /\ th' = continue (mkThread Idle rest (th_results th)) (start o)) \/
     (exists a, pc_step ub (s_pipe s) (existsb (fun th => holds_pq (th_pc th)) (s_threads s)) tid (th_pc th) = Some a /\
        th' = continue th (a_next a) /\
        s' = mkSys (a_pipe a) (<[tid := th']> (s_threads s))
               (record_event s (a_event a)).1 (record_event s (a_event a)).2)).
Proof.
  unfold sys_step. destruct (s_threads s !! tid) as [th|] eqn:Hth; [|done].
  destruct (th_pc th) eqn:Hc; intros H; try (
    destruct (pc_step _ _ _ _ _) as [a|] eqn:Ha; [|done];
    destruct (record_event s (a_event a)) as [x y] eqn:He; injection H as <-;
    eexists th, _; split; [done|]; right; exists a; rewrite Hc, He; done).
  destruct (th_todo th) as [|o rest] eqn:Ht; [done|]. injection H as <-.
  eexists th, _. split; [done|]. left. split; [done|]. split; [reflexivity|]. eauto.
Qed.

Lemma start_pending o : match start o with inl c => pending c | inr _ => 0 end = 0.
Proof. destruct o as [f|n f|[|b buf] f|f]; simpl; repeat case_test; done. Qed.

Lemma continue_pending th next : pending (th_pc (continue th next)) = match next with inl c => pending c | inr _ => 0 end.
Proof. by destruct next. Qed.

Lemma not_busy_pending threads :
  existsb (fun th => holds_pq (th_pc th)) threads = false -> total_pending threads = 0.
Proof.
  induction threads as [|th l IH]; [done|]. simpl. intros [Hh Hl]%orb_false_iff. rewrite (IH Hl).
  by destruct (th_pc th).
Qed.

Lemma wrap64_range z : 0 <= wrap64 z < 2 ^ 64.
Proof. unfold wrap64. apply Z.mod_pos_bound. lia. Qed.

Lemma wrap64_idem z : wrap64 (wrap64 z) = wrap64 z.
Proof. unfold wrap64. apply Z.mod_mod. lia. Qed.

Lemma wrap64_add z d : wrap64 (wrap64 z + d) = wrap64 (z + d).
Proof. unfold wrap64. by rewrite Zplus_mod_idemp_l. Qed.

Lemma pipe_inv_step ub s tid s' : pipe_inv s -> sys_step ub s tid = Some s' -> pipe_inv s'.
Proof.
  intros [I1 I2 I3] H. destruct (sys_step_cases ub s tid s' H) as (th & th' & Hth & [(Hc & -> & o & rest & _ & ->)|(a & Ha & -> & ->)]).
  - constructor; [done|done|]. cbn [s_pipe s_threads]. rewrite I3.
    by rewrite (total_pending_insert _ _ th), continue_pending, start_pending, Hc, Z.add_0_r, Z.sub_0_r.
  - pose proof (pc_step_spec _ _ _ _ _ _ Ha) as Hs. unfold next_pending in Hs.
    assert (Ht : total_pending (<[tid := continue th (a_next a)]> (s_threads s)) =
      total_pending (s_threads s) - pending (th_pc th) + match a_next a with inl c => pending c | inr _ => 0 end).
    { rewrite (total_pending_insert _ _ th) by done. by rewrite continue_pending. }
    constructor; cbn [s_pipe s_threads s_sent s_received]; rewrite ?Ht; destruct (a_event a) as [|b|b|]; cbn [record_event fst snd].
    + destruct Hs as [-> _]. done.
    + destruct Hs as (-> & _). by rewrite app_assoc, I1.
    + destruct Hs as (Hq & _). by rewrite I1, Hq, <- app_assoc.
    + by destruct Hs as (-> & _).
    + destruct Hs as [-> _]. done.
    + destruct Hs as (-> & _ & Hlt & _). rewrite length_app. simpl. lia.
    + destruct Hs as (Hq & _). rewrite Hq in I2. simpl in I2. lia.
    + destruct Hs as (-> & _). unfold PIPE_SIZE. simpl. lia.
    + destruct Hs as [-> [[-> Hn]| ->]]; rewrite I3, ?wrap64_add; f_equal; lia.
    + destruct Hs as (-> & -> & _ & Hn). rewrite I3, length_app. simpl. f_equal. lia.
    + destruct Hs as (Hq & -> & Hn). rewrite I3, Hq. simpl length. f_equal. lia.
    + destruct Hs as (-> & -> & Hb & Hn). pose proof (not_busy_pending _ Hb) as H0.
      assert (Hp : pending (th_pc th) = 0).
      { apply Bool.not_true_iff_false in Hb. destruct (th_pc th) eqn:E; try done; exfalso; apply Hb;
          apply existsb_exists; exists th; (split; [by apply list_elem_of_In, (list_elem_of_lookup_2 _ tid)|by rewrite E]). }
      rewrite H0, Hp, Hn. done.
Qed.


(** Two threads open the pipe, one writes two bytes and the other reads them. *)
Definition demo_ops : list (list op) :=
  [[OOpen OPT_READONLY; ORead 2 OPT_READONLY]; [OOpen OPT_WRITEONLY; OWrite [7; 8] OPT_WRITEONLY]].
Definition demo_schedule : list nat :=
  [0; 0; 0; 0; 1; 1; 1; 0; 0; 0; 0; 1; 1; 1; 1; 1; 1; 1; 1; 1; 0; 0; 0; 0; 0; 0; 0; 0]%nat.

