(* ===== verification/PipeRun.v ===== *)
(** * One reader and one writer of a pipe

    What the reader of an open pipe gets is what the writer wrote, in order; and whatever
    has happened, the next byte can always be transferred. *)

From S2P Require Import Prelude Errno Tmpfs Traits Pipe.

Open Scope list_scope.
Open Scope Z_scope.

(** A pipe that a reader and a writer have opened. *)
Definition opened_pipe : Pipe := set_ends pipe_new true true.

Definition read_op (n : nat) : op := ORead n OPT_READONLY.
Definition write_op (buf : list Z) : op := OWrite buf OPT_WRITEONLY.

(** Thread 0 reads, thread 1 writes. *)
Definition sys_rw (ns : list nat) (bufs : list (list Z)) : Sys :=
  mkSys opened_pipe [new_thread (read_op <$> ns); new_thread (write_op <$> bufs)] [] [].

(** ** The invariant of the two threads *)

(** The bytes a read in progress has got, and the bytes finished reads returned. *)
Definition pc_got (c : pc) : list Z :=
  match c with
  | RLoop _ got | RSub _ got | RWait2 _ got | RCheck2 _ got | RNotify got => got
  | _ => []
  end.

Definition result_bytes (r : op_result) : list Z := match r with RetRead (Ok got) => got | _ => [] end.

Definition read_bytes (th : Thread) : list Z := concat (result_bytes <$> th_results th) ++ pc_got (th_pc th).

Definition reader_pc (c : pc) : Prop :=
  match c with
  | Idle | RWait _ | REof _ | RLoop _ _ | RSub _ _ | RWait2 _ _ | RCheck2 _ _ | RNotify _ => True
  | _ => False
  end.

Record reader_ok (th : Thread) : Prop := {
  ro_pc : reader_pc (th_pc th);
  ro_todo : exists ns, th_todo th = read_op <$> ns
}.

(** Where the writer is in its buffers, given what it has sent. *)
Definition writer_at (bufs done rest : list (list Z)) (sent : list Z) (c : pc) : Prop :=
  match c with
  | Idle => bufs = done ++ rest /\ sent = concat done
  | WWait b | WCheck b => bufs = done ++ b :: rest /\ sent = concat done
  | WLoop b k | WWait2 b k | WCheck2 b k =>
      bufs = done ++ b :: rest /\ sent = concat done ++ take k b /\ (k <= length b)%nat
  | WAdd b k => bufs = done ++ b :: rest /\ sent = concat done ++ take (S k) b /\ (k < length b)%nat
  | WNotify k => exists b, bufs = done ++ b :: rest /\ sent = concat done ++ b /\ k = length b
  | _ => False
  end.

Definition writer_ok (bufs : list (list Z)) (sent : list Z) (th : Thread) : Prop :=
  exists done rest, th_todo th = write_op <$> rest /\ writer_at bufs done rest sent (th_pc th).

Definition rw_inv (bufs : list (list Z)) (s : Sys) : Prop :=
  p_has_reader (s_pipe s) = true /\ p_has_writer (s_pipe s) = true /\
  exists tr tw, s_threads s = [tr; tw] /\ reader_ok tr /\ s_received s = read_bytes tr /\
    writer_ok bufs (s_sent s) tw.

(** ** Steps *)

Definition event_received (e : event) : list Z := match e with Received b => [b] | _ => [] end.
Definition event_sent (e : event) : list Z := match e with Sent b => [b] | _ => [] end.

Definition read_result (r : op_result) : Prop := exists got, r = RetRead (Ok got).

(** A step of a reader: it only takes bytes, keeps them, and returns those it has. *)
Lemma reader_step ub p busy tid c a :
  reader_pc c -> pc_step ub p busy tid c = Some a ->
  p_has_reader (a_pipe a) = p_has_reader p /\ p_has_writer (a_pipe a) = p_has_writer p /\
  event_sent (a_event a) = [] /\ a_event a <> Cleared /\
  match a_next a with
  | inl c' => reader_pc c' /\ pc_got c' = pc_got c ++ event_received (a_event a)
  | inr r => result_bytes r = pc_got c /\ event_received (a_event a) = []
  end.
Proof.
  intros Hc H. destruct c; simpl in Hc, H; try done; unfold wait_step, goto, ret in H;
    repeat case_match; simplify_eq/=; rewrite ?app_nil_r; done.
Qed.

(** A step of a writer, while there is a reader: it sends the next byte or waits. *)
Lemma writer_step ub p busy tid c a bufs done rest sent :
  p_has_reader p = true -> writer_at bufs done rest sent c -> c <> Idle -> pc_step ub p busy tid c = Some a ->
  p_has_reader (a_pipe a) = true /\ p_has_writer (a_pipe a) = p_has_writer p /\
  event_received (a_event a) = [] /\ a_event a <> Cleared /\
  match a_next a with
  | inl c' => c' <> Idle /\ writer_at bufs done rest (sent ++ event_sent (a_event a)) c'
  | inr r => exists b, writer_at bufs (done ++ [b]) rest (sent ++ event_sent (a_event a)) Idle
  end.
Proof.
  intros Hr Hw Hne H. destruct c; simpl in Hw, H; try done; unfold wait_step, goto, ret in H; rewrite ?Hr in *.
  - repeat case_match; simplify_eq/=; by rewrite app_nil_r.
  - repeat case_match; simplify_eq/=. rewrite !app_nil_r. destruct Hw as (-> & ->). split_and!; try done; lia.
  - destruct Hw as (-> & -> & Hk). destruct (buf !! total_written) as [b|] eqn:Hb.
    + case_match; simplify_eq/=; split_and!; try done; rewrite ?app_nil_r; try done.
      * by rewrite (take_S_r _ _ b), app_assoc.
      * by apply lookup_lt_Some in Hb.
    + simplify_eq/=. split_and!; try done. exists buf. apply lookup_ge_None in Hb.
      rewrite app_nil_r, take_ge by lia. split_and!; [done|done|lia].
  - simplify_eq/=. rewrite app_nil_r. destruct Hw as (-> & -> & Hk). split_and!; try done; lia.
  - repeat case_match; simplify_eq/=; rewrite app_nil_r; done.
  - simplify_eq/=. rewrite app_nil_r. done.
  - destruct Hw as (b & -> & -> & ->).
    assert (Hb : writer_at (done ++ b :: rest) (done ++ [b]) rest ((concat done ++ b) ++ []) Idle).
    { simpl. rewrite <- app_assoc, app_nil_r, concat_app. simpl. by rewrite app_nil_r. }
    simpl in Hb. repeat case_match; simplify_eq/=; split_and!; try done; by exists b.
Qed.

Lemma two_threads (tr tw : Thread) tid th :
  [tr; tw] !! tid = Some th -> (tid = 0%nat /\ th = tr) \/ (tid = 1%nat /\ th = tw).
Proof. destruct tid as [|[|tid]]; simpl; [intros [= ->]; by left|intros [= ->]; by right|done]. Qed.

(** Starting the next read or write. *)
Lemma reader_start th n ns :
  reader_ok th -> th_pc th = Idle -> th_todo th = read_op <$> (n :: ns) ->
  let th' := continue (mkThread Idle (read_op <$> ns) (th_results th)) (start (read_op n)) in
  reader_ok th' /\ read_bytes th' = read_bytes th.
Proof.
  intros Hok Hpc Htodo. destruct n as [|n]; simpl; unfold read_bytes; rewrite Hpc; simpl.
  - split; [by constructor; [|by exists ns]|]. rewrite fmap_app, concat_app. simpl. by rewrite !app_nil_r.
  - split; [by constructor; [|by exists ns]|done].
Qed.

Lemma writer_start bufs sent th b done rest :
  th_pc th = Idle -> writer_at bufs done (b :: rest) sent Idle ->
  writer_ok bufs sent (continue (mkThread Idle (write_op <$> rest) (th_results th)) (start (write_op b))).
Proof.
  intros Hpc [Hb Hs]. destruct b as [|x b]; simpl.
  - exists (done ++ [[]]), rest. split; [done|]. simpl. rewrite concat_app, <- app_assoc. simpl.
    split; [done|]. by rewrite app_nil_r.
  - exists done, rest. done.
Qed.

Lemma read_bytes_continue th a :
  match a_next a with
  | inl c' => pc_got c' = pc_got (th_pc th) ++ event_received (a_event a)
  | inr r => result_bytes r = pc_got (th_pc th) /\ event_received (a_event a) = []
  end -> read_bytes (continue th (a_next a)) = read_bytes th ++ event_received (a_event a).
Proof.
  unfold read_bytes. destruct (a_next a) as [c'|r]; simpl.
  - intros ->. by rewrite app_assoc.
  - intros [Hr ->]. rewrite fmap_app, concat_app. simpl. rewrite Hr. by rewrite !app_nil_r.
Qed.

Lemma record_received s e : e <> Cleared -> (record_event s e).2 = s_received s ++ event_received e.
Proof. destruct e; simpl; intros; by rewrite ?app_nil_r. Qed.
Lemma record_sent s e : e <> Cleared -> (record_event s e).1 = s_sent s ++ event_sent e.
Proof. destruct e; simpl; intros; by rewrite ?app_nil_r. Qed.

Lemma rw_inv_step bufs ub s tid s' : rw_inv bufs s -> sys_step ub s tid = Some s' -> rw_inv bufs s'.
Proof.
  intros (Hr & Hw & tr & tw & Hth & Rok & Rb & Wok) Hstep.
  destruct (sys_step_cases _ _ _ _ Hstep) as (th & th' & Hlk & Hcase). rewrite Hth in *.
  destruct (two_threads _ _ _ _ Hlk) as [[-> ->]|[-> ->]].
  - destruct Hcase as [(Hpc & -> & o & rest & Htodo & ->)|(a & Ha & -> & ->)].
    + destruct (ro_todo _ Rok) as [[|n ns] Hns]; simpl in Hns; rewrite Htodo in Hns; [done|]. injection Hns as -> ->.
      destruct (reader_start tr n ns Rok Hpc Htodo) as [R1 R2]. split; [done|]. split; [done|].
      eexists _, tw. split; [reflexivity|]. split_and!; [exact R1|by simpl; rewrite Rb, <- R2|done].
    + destruct (reader_step _ _ _ _ _ _ (ro_pc _ Rok) Ha) as (E1 & E2 & E3 & E4 & E5).
      split; [cbn; congruence|]. split; [cbn; congruence|].
      eexists _, tw. split; [reflexivity|]. cbn [s_received s_sent].
      rewrite record_received, record_sent, E3, app_nil_r by done. split_and!; [|rewrite Rb|done].
      * destruct (ro_todo _ Rok) as [ns Hns]. destruct (a_next a); constructor; try done; [by destruct E5| |]; by exists ns.
      * rewrite read_bytes_continue; [done|]. by destruct (a_next a); [destruct E5|].
  - destruct Wok as (done & rest & Htodo & Hat).
    destruct Hcase as [(Hpc & -> & o & rest' & Htodo' & ->)|(a & Ha & -> & ->)].
    + rewrite Htodo' in Htodo. destruct rest as [|b rest]; [done|]. injection Htodo as -> ->. rewrite Hpc in Hat.
      split; [done|]. split; [done|]. eexists tr, _. split; [reflexivity|]. split_and!; [done|done|].
      by apply (writer_start bufs (s_sent s) tw b done rest).
    + assert (Hne : th_pc tw <> Idle) by (intros E; by rewrite E in Ha).
      destruct (writer_step _ _ _ _ _ _ _ _ _ _ Hr Hat Hne Ha) as (E1 & E2 & E3 & E4 & E5).
      split; [done|]. split; [cbn; congruence|].
      eexists tr, _. split; [reflexivity|]. cbn [s_received s_sent].
      rewrite record_received, record_sent, E3, app_nil_r by done. split_and!; [done|done|].
      destruct (a_next a) as [c'|r]; [exists done, rest; split; [done|apply E5]|].
      destruct E5 as [b E5]. by exists (done ++ [b]), rest.
Qed.

Lemma rw_inv_start ns bufs : rw_inv bufs (sys_rw ns bufs).
Proof.
  split; [done|]. split; [done|]. eexists _, _. split; [reflexivity|]. split_and!; [|done|].
  - constructor; [done|by exists ns].
  - by exists [], bufs.
Qed.

Lemma writer_prefix bufs sent th : writer_ok bufs sent th -> sent `prefix_of` concat bufs.
Proof.
  intros (done & rest & _ & Hat).
  assert (H : forall k b, bufs = done ++ b :: rest -> concat done ++ take k b `prefix_of` concat bufs).
  { intros k b ->. rewrite concat_app. simpl. apply prefix_app. exists (drop k b ++ concat rest).
    by rewrite app_assoc, take_drop. }
  destruct (th_pc th); simpl in Hat; try done.
  - destruct Hat as [-> ->]. rewrite concat_app. by apply prefix_app_r.
  - destruct Hat as [-> ->]. rewrite concat_app. by apply prefix_app_r.
  - destruct Hat as [-> ->]. rewrite concat_app. by apply prefix_app_r.
  - destruct Hat as (Hb & -> & _). by apply H.
  - destruct Hat as (Hb & -> & _). by apply H.
  - destruct Hat as (Hb & -> & _). by apply H.
  - destruct Hat as (Hb & -> & _). by apply H.
  - destruct Hat as (b & Hb & -> & _). rewrite <- (take_ge b (length b)) by done. by apply H.
Qed.

Lemma rw_reach ns bufs s : sys_reach (sys_rw ns bufs) s -> rw_inv bufs s /\ pipe_inv s.
Proof.
  intros H. remember (sys_rw ns bufs) as s0 eqn:H0. induction H as [|s0 s1 s2 ub tid _ IH Hstep].
  - subst. split; [apply rw_inv_start|]. constructor; simpl; [done|unfold PIPE_SIZE; simpl; lia|done].
  - destruct (IH H0) as [I1 I2]. split; [by eapply rw_inv_step|by eapply pipe_inv_step].
Qed.

(** One thread writes any buffers to an open pipe and another reads any numbers of bytes, in
    any interleaving: the bytes the reader has got so far, followed by those in the pipe,
    are the bytes the writer has sent so far, and these are a prefix of what it was asked
    to write. *)
Theorem pipe_in_order (ns : list nat) (bufs : list (list Z)) (s : Sys) :
  sys_reach (sys_rw ns bufs) s ->
  exists tr tw, s_threads s = [tr; tw] /\
    read_bytes tr ++ p_queue (s_pipe s) = s_sent s /\ s_sent s `prefix_of` concat bufs.
Proof.
  intros H. destruct (rw_reach _ _ _ H) as [(_ & _ & tr & tw & Hth & _ & Rb & Wok) [I1 _ _]].
  exists tr, tw. split; [done|]. split; [by rewrite I1, Rb|]. by eapply writer_prefix.
Qed.

Lemma pipe_in_order_witness :
  match sys_run (fun _ => true) (sys_rw [2%nat] [[7; 8]]) [1; 1; 1; 1; 1; 0; 0; 0; 0]%nat with
  | Some s => exists tr tw, s_threads s = [tr; tw] /\ read_bytes tr ++ p_queue (s_pipe s) = s_sent s
  | None => False
  end.
Proof.
  destruct (sys_run _ _ _) as [s|] eqn:E.
  - destruct (pipe_in_order [2%nat] [[7; 8]] s (run_reach _ _ _ _ E)) as (tr & tw & H1 & H2 & _).
    exists tr, tw. split; assumption.
  - vm_compute in E. discriminate.
Defined.

(** ** Progress *)

Definition ub : nat -> bool := fun _ => true.

Lemma reach_pc s tid th a :
  s_threads s !! tid = Some th -> (forall busy, pc_step ub (s_pipe s) busy tid (th_pc th) = Some a) ->
  sys_reach s (mkSys (a_pipe a) (<[tid := continue th (a_next a)]> (s_threads s))
                 (record_event s (a_event a)).1 (record_event s (a_event a)).2).
Proof.
  intros Hth H. apply (reach_step _ _ _ ub tid (reach_refl _)). unfold sys_step. rewrite Hth.
  specialize (H (existsb (fun th => holds_pq (th_pc th)) (s_threads s))).
  destruct (th_pc th); [done|..]; rewrite H; by destruct (record_event s (a_event a)).
Qed.

(** A silent step of the reader or of the writer, with the rest of the system as it is. *)
Lemma reach_reader p c td rs tw snt rcv p' c' :
  (forall busy, pc_step ub p busy 0 c = Some (mkAct p' Silent (inl c'))) ->
  sys_reach (mkSys p [mkThread c td rs; tw] snt rcv) (mkSys p' [mkThread c' td rs; tw] snt rcv).
Proof. intros H. exact (reach_pc (mkSys p [mkThread c td rs; tw] snt rcv) 0 (mkThread c td rs) _ eq_refl H). Qed.

Lemma reach_writer p c td rs tr snt rcv p' c' :
  (forall busy, pc_step ub p busy 1 c = Some (mkAct p' Silent (inl c'))) ->
  sys_reach (mkSys p [tr; mkThread c td rs] snt rcv) (mkSys p' [tr; mkThread c' td rs] snt rcv).
Proof. intros H. exact (reach_pc (mkSys p [tr; mkThread c td rs] snt rcv) 1 (mkThread c td rs) _ eq_refl H). Qed.

Lemma reach_dequeue p b q n got td rs tw snt rcv :
  p_queue p = b :: q -> (length got < n)%nat ->
  sys_reach (mkSys p [mkThread (RLoop n got) td rs; tw] snt rcv)
    (mkSys (set_data p q (p_count p)) [mkThread (RSub n (got ++ [b])) td rs; tw] snt (rcv ++ [b])).
Proof.
  intros Hq Hn.
  apply (reach_pc (mkSys p [mkThread (RLoop n got) td rs; tw] snt rcv) 0 (mkThread (RLoop n got) td rs)
           (mkAct (set_data p q (p_count p)) (Received b) (inl (RSub n (got ++ [b])))) eq_refl).
  intros busy. simpl. rewrite Hq. by destruct (Nat.leb_spec n (length got)); [lia|].
Qed.

Lemma reach_enqueue p b k buf td rs tr snt rcv :
  buf !! k = Some b -> Z.of_nat (length (p_queue p)) < PIPE_SIZE ->
  sys_reach (mkSys p [tr; mkThread (WLoop buf k) td rs] snt rcv)
    (mkSys (set_data p (p_queue p ++ [b]) (p_count p)) [tr; mkThread (WAdd buf k) td rs] (snt ++ [b]) rcv).
Proof.
  intros Hb Hq.
  apply (reach_pc (mkSys p [tr; mkThread (WLoop buf k) td rs] snt rcv) 1 (mkThread (WLoop buf k) td rs)
           (mkAct (set_data p (p_queue p ++ [b]) (p_count p)) (Sent b) (inl (WAdd buf k))) eq_refl).
  intros busy. simpl. by rewrite Hb, (proj2 (Z.ltb_lt _ _) Hq).
Qed.

(** The reader is in a read that lacks bytes; the writer is in a write with bytes left. *)
Definition reading (c : pc) : Prop :=
  match c with
  | RWait n | REof n => (0 < n)%nat
  | RLoop n got | RSub n got | RWait2 n got | RCheck2 n got => (length got < n)%nat
  | _ => False
  end.

Definition writing (c : pc) : Prop :=
  match c with
  | WWait buf | WCheck buf => buf <> []
  | WLoop buf k | WWait2 buf k | WCheck2 buf k => (k < length buf)%nat
  | WAdd buf k => (S k < length buf)%nat
  | _ => False
  end.

(** From [s] a state can be reached in which one more byte has been received. *)
Definition delivers (s : Sys) : Prop :=
  exists s', sys_reach s s' /\ length (s_received s') = S (length (s_received s)).

Lemma delivers_after s s' : sys_reach s s' -> s_received s' = s_received s -> delivers s' -> delivers s.
Proof. intros H1 H2 (s'' & H3 & H4). exists s''. split; [by eapply reach_trans|]. by rewrite <- H2. Qed.

(** With a byte in the pipe and an exact counter, the reader gets it. *)
Lemma deliver_exact p c td rs tw snt rcv :
  has_data p = true -> p_queue p <> [] -> reading c -> (forall n got, c <> RSub n got) ->
  delivers (mkSys p [mkThread c td rs; tw] snt rcv).
Proof.
  intros Hd Hq Hc Hsub. destruct (p_queue p) as [|b q] eqn:Eq; [done|].
  assert (Hloop : forall n got, (length got < n)%nat -> delivers (mkSys p [mkThread (RLoop n got) td rs; tw] snt rcv)).
  { intros n got Hn. eexists. split; [by apply (reach_dequeue p b q)|]. simpl. rewrite length_app. simpl. lia. }
  assert (Heof : forall n, (0 < n)%nat -> delivers (mkSys p [mkThread (REof n) td rs; tw] snt rcv)).
  { intros n Hn. eapply delivers_after; [apply (reach_reader _ _ _ _ _ _ _ p (RLoop n []))| |by apply Hloop]; [|done].
    intros busy. simpl. by rewrite Hd. }
  assert (Hcheck : forall n got, (length got < n)%nat -> delivers (mkSys p [mkThread (RCheck2 n got) td rs; tw] snt rcv)).
  { intros n got Hn. eapply delivers_after; [apply (reach_reader _ _ _ _ _ _ _ p (RLoop n got))| |by apply Hloop]; [|done].
    intros busy. simpl. by rewrite Hd. }
  destruct c as [| | | |n|n|n got|n got|n got|n got| | | | | | | | | |]; try done; simpl in Hc; [|by apply Heof|by apply Hloop| | |by apply Hcheck].
  - eapply delivers_after; [apply (reach_reader _ _ _ _ _ _ _ p (REof n))| |by apply Heof]; [|done].
    intros busy. simpl. unfold wait_step. by rewrite Hd.
  - by destruct (Hsub n got).
  - eapply delivers_after; [apply (reach_reader _ _ _ _ _ _ _ p (RCheck2 n got))| |by apply Hcheck]; [|done].
    intros busy. simpl. unfold wait_step. by rewrite Hd.
Qed.

Lemma exact_data p : p_count p = wrap64 (Z.of_nat (length (p_queue p))) -> p_queue p <> [] ->
  Z.of_nat (length (p_queue p)) <= PIPE_SIZE -> has_data p = true.
Proof.
  intros Hc Hq Hb. unfold has_data, wrap64, PIPE_SIZE in *. destruct (p_queue p) as [|b q]; [done|]. simpl length in *.
  rewrite Hc, Z.mod_small by lia. apply Z.gtb_lt. lia.
Qed.

(** The writer finishes its counter update. *)
Lemma deliver_add p c td rs buf k td' rs' snt rcv :
  p_count p = wrap64 (Z.of_nat (length (p_queue p)) - 1) -> p_queue p <> [] ->
  Z.of_nat (length (p_queue p)) <= PIPE_SIZE -> reading c -> (forall n got, c <> RSub n got) ->
  delivers (mkSys p [mkThread c td rs; mkThread (WAdd buf k) td' rs'] snt rcv).
Proof.
  intros Hc Hq Hb Hr Hsub.
  eapply delivers_after; [apply (reach_writer _ _ _ _ _ _ _ (set_data p (p_queue p) (wrap64 (p_count p + 1))) (WLoop buf (S k)))| |].
  - done.
  - done.
  - apply deliver_exact; try done. apply exact_data; try done. simpl. rewrite Hc, wrap64_add. f_equal. lia.
Qed.

(** With an empty pipe, the writer sends the next byte. *)
Lemma deliver_loop p c td rs buf k td' rs' snt rcv :
  p_queue p = [] -> p_count p = 0 -> (k < length buf)%nat -> reading c -> (forall n got, c <> RSub n got) ->
  delivers (mkSys p [mkThread c td rs; mkThread (WLoop buf k) td' rs'] snt rcv).
Proof.
  intros Hq Hc Hk Hr Hsub. apply lookup_lt_is_Some_2 in Hk as [b Hb].
  eapply delivers_after; [apply (reach_enqueue p b); [done|by rewrite Hq]|done|].
  rewrite Hq. by apply deliver_add; simpl; rewrite ?Hc.
Qed.

Lemma deliver_empty p c td rs cw td' rs' snt rcv :
  p_has_reader p = true -> p_queue p = [] -> p_count p = wrap64 (pending cw) -> writing cw ->
  reading c -> (forall n got, c <> RSub n got) ->
  delivers (mkSys p [mkThread c td rs; mkThread cw td' rs'] snt rcv).
Proof.
  intros Hrd Hq Hc Hw Hr Hsub.
  assert (Hstep : forall p' cw', (forall busy, pc_step ub p busy 1 cw = Some (mkAct p' Silent (inl cw'))) ->
            delivers (mkSys p' [mkThread c td rs; mkThread cw' td' rs'] snt rcv) ->
            delivers (mkSys p [mkThread c td rs; mkThread cw td' rs'] snt rcv)).
  { intros p' cw' Hs. by apply delivers_after; [apply reach_writer|]. }
  assert (Hwait : forall buf, buf <> [] -> p_count p = 0 ->
            delivers (mkSys p [mkThread c td rs; mkThread (WCheck buf) td' rs'] snt rcv)).
  { intros buf Hb H0. eapply delivers_after; [apply (reach_writer _ _ _ _ _ _ _ p (WLoop buf 0)); simpl; by rewrite Hrd|done|].
    apply deliver_loop; try done. by destruct buf; [|simpl; lia]. }
  assert (Hcheck : forall buf k, (k < length buf)%nat -> p_count p = 0 ->
            delivers (mkSys p [mkThread c td rs; mkThread (WCheck2 buf k) td' rs'] snt rcv)).
  { intros buf k Hb H0. eapply delivers_after; [apply (reach_writer _ _ _ _ _ _ _ p (WLoop buf k)); simpl; by rewrite Hrd|done|].
    by apply deliver_loop. }
  destruct cw as [| | | | | | | | | | |buf|buf|buf k|buf k|buf k|buf k| | |]; simpl in Hw, Hc; try done.
  - apply (Hstep p (WCheck buf)); [|by apply Hwait]. intros busy. simpl. unfold wait_step, has_space. by rewrite Hc.
  - by apply Hwait.
  - by apply deliver_loop.
  - apply (Hstep (set_data p (p_queue p) (wrap64 (p_count p + 1))) (WLoop buf (S k))); [done|].
    apply deliver_loop; try done. simpl. by rewrite Hc.
  - apply (Hstep p (WCheck2 buf k)); [|by apply Hcheck]. intros busy. simpl. unfold wait_step, has_space. by rewrite Hc.
  - by apply Hcheck.
Qed.

Lemma deliver_settled p c td rs cw td' rs' snt rcv :
  p_has_reader p = true -> Z.of_nat (length (p_queue p)) <= PIPE_SIZE ->
  p_count p = wrap64 (Z.of_nat (length (p_queue p)) + pending cw) ->
  pending cw = 0 \/ (exists buf k, cw = WAdd buf k) -> p_queue p <> [] \/ writing cw ->
  reading c -> (forall n got, c <> RSub n got) ->
  delivers (mkSys p [mkThread c td rs; mkThread cw td' rs'] snt rcv).
Proof.
  intros Hrd Hb Hc Hp Hw Hr Hsub. destruct (decide (p_queue p = [])) as [Hq|Hq].
  - apply deliver_empty; try done; [by rewrite Hc, Hq|by destruct Hw].
  - destruct Hp as [Hp|(buf & k & ->)]; [|by apply deliver_add].
    apply deliver_exact; try done. apply exact_data; try done. by rewrite Hc, Hp, Z.add_0_r.
Qed.

(** No state of a transfer is a trap: whatever has happened between a reader and a writer of
    an open pipe, if the reader lacks bytes and the pipe holds one or the writer has one
    left, steps of the two threads lead to a state in which one more byte was received. *)
Theorem pipe_progress (ns : list nat) (bufs : list (list Z)) (s : Sys) (tr tw : Thread) :
  sys_reach (sys_rw ns bufs) s -> s_threads s = [tr; tw] ->
  reading (th_pc tr) -> p_queue (s_pipe s) <> [] \/ writing (th_pc tw) -> delivers s.
Proof.
  intros H Hth Hr Hw. destruct (rw_reach _ _ _ H) as [(Hrd & _ & tr' & tw' & Hth' & _ & _ & Wok) [_ Hb Hc]].
  rewrite Hth in Hth'. injection Hth' as <- <-. destruct s as [p threads snt rcv]. simpl in *. subst threads.
  assert (Hp : pending (th_pc tw) = 0 \/ exists buf k, th_pc tw = WAdd buf k).
  { destruct Wok as (done & rest & _ & Hat). destruct (th_pc tw); simpl in Hat; try done; eauto. }
  destruct tr as [c td rs], tw as [cw td' rs']. simpl in *.
  destruct (pending c =? 0) eqn:Hpc.
  - apply Z.eqb_eq in Hpc. apply deliver_settled; try done; [by rewrite Hc, Hpc, Z.add_0_l, Z.add_0_r|].
    by intros n got ->.
  - destruct c as [| | | |n|n|n got|n got|n got|n got| | | | | | | | | |]; try done. simpl in Hc, Hr.
    eapply delivers_after; [apply (reach_reader _ _ _ _ _ _ _ (set_data p (p_queue p) (wrap64 (p_count p - 1))) (RLoop n got))| |].
    + done.
    + done.
    + apply deliver_settled; try done. simpl. rewrite Hc.
      replace (wrap64 (Z.of_nat (length (p_queue p)) + (1 + (pending cw + 0))) - 1)
        with (wrap64 (Z.of_nat (length (p_queue p)) + (1 + (pending cw + 0))) + (-1)) by lia.
      rewrite wrap64_add. f_equal. lia.
Qed.

Lemma pipe_progress_witness :
  match sys_run ub (sys_rw [2%nat] [[7; 8]]) [0; 0; 0; 1; 1; 1]%nat with Some s => delivers s | None => False end.
Proof.
  destruct (sys_run _ _ _) as [s|] eqn:E; [|vm_compute in E; discriminate].
  pose proof (run_reach _ _ _ _ E) as Hr. vm_compute in E. injection E as <-.
  refine (pipe_progress [2%nat] [[7; 8]] _ _ _ Hr eq_refl _ _); [simpl; lia|right; simpl; lia].
Defined.

(** A waiting thread is never taken off the processor: it polls, and enters the wait queue
    once more in every turn, so while a reader waits on an empty pipe the queue grows
    without bound. *)
Theorem waiting_fills_queue (n k : nat) :
  (0 < n)%nat ->
  exists s, sys_run ub (sys_rw [n] []) (replicate (S k) 0%nat) = Some s /\
    th_pc <$> head (s_threads s) = Some (RWait n) /\ length (p_rx_wq (s_pipe s)) = k.
Proof.
  intros Hn.
  set (st := fun wq => mkSys (set_rx opened_pipe wq) [mkThread (RWait n) [] []; new_thread []] [] []).
  assert (Hrun : forall k wq, sys_run ub (st wq) (replicate k 0%nat) = Some (st (wq ++ replicate k 0%nat))).
  { clear. intros k. induction k as [|k IH]; intros wq; [by rewrite app_nil_r|].
    simpl replicate. cbn [sys_run]. change (sys_step ub (st wq) 0) with (Some (st (wq ++ [0%nat]))). cbn iota beta.
    rewrite IH. by rewrite <- app_assoc. }
  exists (st (replicate k 0%nat)). split_and!; [|done|apply length_replicate].
  simpl replicate. cbn [sys_run].
  assert (Hs : sys_step ub (sys_rw [n] []) 0 = Some (st [])) by (destruct n; [lia|done]).
  rewrite Hs. by rewrite Hrun.
Qed.

Lemma waiting_fills_queue_witness :
  exists s, sys_run ub (sys_rw [1%nat] []) (replicate 4 0%nat) = Some s /\ length (p_rx_wq (s_pipe s)) = 3%nat.
Proof. destruct (waiting_fills_queue 1 3) as (s & H1 & _ & H2); [lia|]. exists s. split; assumption. Defined.

(** A read can return early although the writer is still there and has more to send: when
    the byte is taken before the writer has counted it, the counter wraps around, the
    reader believes that there is data, and finds none a moment later. *)
Example short_read :
  match sys_run ub (sys_rw [3%nat] [[7; 8; 9]]) [1; 1; 1; 1; 1; 0; 0; 0; 0; 0; 1; 0; 0; 0; 0; 1; 0; 0]%nat with
  | Some s => th_results <$> s_threads s = [[RetRead (Ok [7; 8])]; []] /\
      th_pc <$> s_threads s = [Idle; WLoop [7; 8; 9] 2]
  | None => False
  end.
Proof. vm_compute. done. Qed.
