(* ===== verification/Sched.v ===== *)
(** * The scheduler ([os/kernel/src/process/scheduler.rs])

    Every core has a scheduler (a ready queue, the current thread, the threads that sleep,
    are blocked or wait for another thread to end), a published length of its run queue,
    and an inbox in which other cores leave threads and commands.  The set of living
    threads is shared by all cores.

    An operation runs on a core while it holds the lock of that core's [ReadyState], and
    reaches other cores only through their inboxes, so it is one step: a function of the
    machine that returns the new machine or panics.  [Thread::switch] is the change of
    [current_thread]; where it does not return to the caller, the operation ends.

    [thingbuf]'s channel is a bounded first-in-first-out queue: [try_send] fails when it
    is full, [try_recv] when it is empty.  [smallmap::Map] is a finite map. *)

From S2P Require Import Prelude Errno.

Open Scope list_scope.
Open Scope Z_scope.

(* [os/kernel/src/process/thread.rs:678-686] ThreadState *)
Inductive ThreadState := Created | Ready | Running | Parking | Blocked | Sleeping | Exited.

(* [os/kernel/src/process/thread.rs:689-699] ThreadState::as_u8 *)
Definition as_u8 (s : ThreadState) : Z :=
  match s with
  | Created => 0 | Ready => 1 | Running => 2 | Parking => 3
  | Blocked => 4 | Sleeping => 5 | Exited => 6
  end.

(* [os/kernel/src/process/thread.rs:701-712] ThreadState::from_u8 *)
Definition from_u8 (v : Z) : ThreadState :=
  match v with
  | 0 => Created | 1 => Ready | 2 => Running | 3 => Parking
  | 4 => Blocked | 5 => Sleeping | 6 => Exited
  | _ => Exited
  end.

(** What the scheduler uses of a thread: its id and the id of its process.  The state, which
    changes behind shared references, is in [m_states]. *)
(* [os/kernel/src/process/thread.rs:95-105] Thread *)
Record Thread := mkThread { t_id : Z; t_pid : Z }.

(* [os/kernel/src/process/scheduler.rs:1035-1044] MessageCmd *)
Inductive MessageCmd :=
| JoinTargetExited (tid : Z)
| Deblock (pid tid : Z)
| Kill (tid : Z).

(* os/kernel/src/process/scheduler.rs: MessageItem *)
Inductive MessageItem :=
| ItemThread (t : Thread)
| ItemCmd (c : MessageCmd).

(* [os/kernel/src/process/scheduler.rs:97-102] ReadyState *)
Record ReadyState := mkReadyState {
  initialized : bool;
  current_thread : option Thread;
  ready_queue : list Thread;
  idle_thread : Thread
}.

(** [has_started] of the code is [s_started]. *)
(* [os/kernel/src/process/scheduler.rs:122-128] Scheduler *)
Record Scheduler := mkScheduler {
  ready_state : ReadyState;
  sleep_list : list (Thread * Z);
  blocked_list : list Thread;
  join_map : gmap Z (list Thread);
  s_started : bool
}.

(** The channel behind [tx] is in [Cpu]. *)
(* [os/kernel/src/process/scheduler.rs:1001-1006] PerCpuRef *)
Record PerCpuRef := mkPerCpuRef {
  rq_len : Z;
  resched_flag : bool;
  apic_id : Z
}.

(** A core: its scheduler, its published data, and its inbox. *)
Record Cpu := mkCpu {
  c_sched : Scheduler;
  c_ref : PerCpuRef;
  c_inbox : list MessageItem
}.

(** The machine.  [m_eois] counts the end-of-interrupt messages of all cores, [m_ipis] lists
    the APIC ids that reschedule interrupts were sent to, [m_dropped] the threads that were
    dropped because the inbox of their new core was full; nothing depends on these three. *)
Record Machine := mkMachine {
  m_cpus : list Cpu;
  m_alive : gset Z;
  m_states : gmap Z ThreadState;
  m_next_tid : Z;
  m_eois : Z;
  m_ipis : list Z;
  m_dropped : list Thread
}.

(** What an operation observes of the hardware and of locks that others hold. *)
Record Env := mkEnv {
  e_time : Z;
  e_state_locked : bool;
  e_sleep_locked : bool;
  e_preempt_disabled : bool;
  e_stacks_locked : bool;
  e_tss_locked : bool
}.

(** ** The monad of operations *)

Definition M (A : Type) : Type := Machine -> outcome (A * Machine).
#[global] Instance M_ret : MRet M := fun A a m => Ret (a, m).
#[global] Instance M_bind : MBind M := fun A B k e m =>
  match e m with
  | Ret (a, m') => k a m'
  | Panic s => Panic s
  end.

Definition panic {A} (msg : string) : M A := fun _ => Panic msg.
(** Taking a spin lock that the caller holds itself never returns.  Such a hang is, like a
    panic, an outcome without a value. *)
Definition lock (held : bool) (name : string) : M unit := fun m =>
  if held then Panic name else Ret (tt, m).
Definition gets {A} (f : Machine -> A) : M A := fun m => Ret (f m, m).
Definition set_cpus (m : Machine) (l : list Cpu) : Machine :=
  mkMachine l (m_alive m) (m_states m) (m_next_tid m) (m_eois m) (m_ipis m) (m_dropped m).

(* [os/kernel/src/lib.rs:298-301] per_cpu_ref *)
Definition per_cpu_ref (id : nat) : M Cpu := fun m =>
  match m_cpus m !! id with
  | Some c => Ret (c, m)
  | None => Panic "index out of bounds"
  end.
Definition modify_cpu (id : nat) (f : Cpu -> Cpu) : M unit := fun m =>
  match m_cpus m !! id with
  | Some c => Ret (tt, set_cpus m (<[id := f c]> (m_cpus m)))
  | None => Panic "index out of bounds"
  end.

(** *** Fields of a core *)

Definition c_rs (c : Cpu) : ReadyState := ready_state (c_sched c).
Definition c_ready (c : Cpu) : list Thread := ready_queue (c_rs c).
Definition c_current (c : Cpu) : option Thread := current_thread (c_rs c).
Definition c_idle (c : Cpu) : Thread := idle_thread (c_rs c).
Definition c_sleep (c : Cpu) : list (Thread * Z) := sleep_list (c_sched c).
Definition c_blocked (c : Cpu) : list Thread := blocked_list (c_sched c).
Definition c_joins (c : Cpu) : gmap Z (list Thread) := join_map (c_sched c).
Definition c_rq (c : Cpu) : Z := rq_len (c_ref c).

Definition set_rs (c : Cpu) (rs : ReadyState) : Cpu :=
  mkCpu (mkScheduler rs (c_sleep c) (c_blocked c) (c_joins c) (s_started (c_sched c))) (c_ref c) (c_inbox c).
Definition set_init_flag (c : Cpu) : Cpu :=
  set_rs c (mkReadyState true (c_current c) (c_ready c) (c_idle c)).
Definition set_current (c : Cpu) (t : Thread) : Cpu :=
  set_rs c (mkReadyState (initialized (c_rs c)) (Some t) (c_ready c) (c_idle c)).
Definition set_ready (c : Cpu) (q : list Thread) : Cpu :=
  set_rs c (mkReadyState (initialized (c_rs c)) (c_current c) q (c_idle c)).
Definition set_sleep (c : Cpu) (l : list (Thread * Z)) : Cpu :=
  mkCpu (mkScheduler (c_rs c) l (c_blocked c) (c_joins c) (s_started (c_sched c))) (c_ref c) (c_inbox c).
Definition set_blocked (c : Cpu) (l : list Thread) : Cpu :=
  mkCpu (mkScheduler (c_rs c) (c_sleep c) l (c_joins c) (s_started (c_sched c))) (c_ref c) (c_inbox c).
Definition set_joins (c : Cpu) (j : gmap Z (list Thread)) : Cpu :=
  mkCpu (mkScheduler (c_rs c) (c_sleep c) (c_blocked c) j (s_started (c_sched c))) (c_ref c) (c_inbox c).
Definition set_started (c : Cpu) : Cpu :=
  mkCpu (mkScheduler (c_rs c) (c_sleep c) (c_blocked c) (c_joins c) true) (c_ref c) (c_inbox c).
Definition set_rq (c : Cpu) (n : Z) : Cpu :=
  mkCpu (c_sched c) (mkPerCpuRef n (resched_flag (c_ref c)) (apic_id (c_ref c))) (c_inbox c).
Definition set_flag (c : Cpu) (b : bool) : Cpu :=
  mkCpu (c_sched c) (mkPerCpuRef (c_rq c) b (apic_id (c_ref c))) (c_inbox c).
Definition set_inbox (c : Cpu) (l : list MessageItem) : Cpu := mkCpu (c_sched c) (c_ref c) l.

(** [VecDeque]: the head of the list is the front. *)
Definition push_front (t : Thread) (c : Cpu) : Cpu := set_ready c (t :: c_ready c).
Definition pop_back (q : list Thread) : option (Thread * list Thread) :=
  match rev q with
  | [] => None
  | t :: r => Some (t, rev r)
  end.

(** ** Thread ids and states *)

(* os/kernel/src/process/scheduler.rs: mark_thread_alive *)
Definition mark_thread_alive (tid : Z) : M unit := fun m =>
  Ret (tt, mkMachine (m_cpus m) ({[ tid ]} ∪ m_alive m) (m_states m) (m_next_tid m) (m_eois m) (m_ipis m) (m_dropped m)).
(* os/kernel/src/process/scheduler.rs: mark_thread_dead *)
Definition mark_thread_dead (tid : Z) : M unit := fun m =>
  Ret (tt, mkMachine (m_cpus m) (m_alive m ∖ {[ tid ]}) (m_states m) (m_next_tid m) (m_eois m) (m_ipis m) (m_dropped m)).
(* os/kernel/src/process/scheduler.rs: is_thread_alive *)
Definition is_thread_alive (tid : Z) : M bool := gets (fun m => bool_decide (tid ∈ m_alive m)).
(* os/kernel/src/process/scheduler.rs: next_thread_id *)
Definition next_thread_id : M Z := fun m =>
  Ret (m_next_tid m, mkMachine (m_cpus m) (m_alive m) (m_states m) (wrap64 (m_next_tid m + 1)) (m_eois m) (m_ipis m) (m_dropped m)).

(* os/kernel/src/process/thread.rs: Thread::set_state *)
Definition set_state (t : Thread) (s : ThreadState) : M unit := fun m =>
  Ret (tt, mkMachine (m_cpus m) (m_alive m) (<[t_id t := s]> (m_states m)) (m_next_tid m) (m_eois m) (m_ipis m) (m_dropped m)).

Definition end_of_interrupt : M unit := fun m =>
  Ret (tt, mkMachine (m_cpus m) (m_alive m) (m_states m) (m_next_tid m) (m_eois m + 1) (m_ipis m) (m_dropped m)).
Definition when (b : bool) (e : M unit) : M unit := if b then e else mret tt.

(** ** Run queue lengths, reschedule flags and messages *)

(** The counter is a 32-bit atomic, which wraps. *)
(* [os/kernel/src/process/scheduler.rs:1142-1145] inc_rq_len *)
Definition inc_rq_len (me : nat) : M unit := modify_cpu me (fun c => set_rq c (wrap32 (c_rq c + 1))).
(* [os/kernel/src/process/scheduler.rs:1147-1150] dec_rq_len *)
Definition dec_rq_len (me : nat) : M unit := modify_cpu me (fun c => set_rq c (wrap32 (c_rq c - 1))).
(* os/kernel/src/process/scheduler.rs: read_rq_len_remote *)
Definition read_rq_len_remote (id : nat) : M Z := c ← per_cpu_ref id; mret (c_rq c).
(* os/kernel/src/process/scheduler.rs: read_rq_len *)
Definition read_rq_len (me : nat) : M Z := read_rq_len_remote me.
(* os/kernel/src/process/scheduler.rs: set_resched_flag *)
Definition set_resched_flag (me : nat) : M unit := modify_cpu me (fun c => set_flag c true).
(* os/kernel/src/process/scheduler.rs: clear_resched_flag *)
Definition clear_resched_flag (me : nat) : M unit := modify_cpu me (fun c => set_flag c false).
(* os/kernel/src/process/scheduler.rs: read_resched_flag *)
Definition read_resched_flag (me : nat) : M bool := c ← per_cpu_ref me; mret (resched_flag (c_ref c)).

(** All cores are online. *)
(* os/kernel/src/process/scheduler.rs: cpu_count *)
Definition cpu_count : M nat := gets (fun m => length (m_cpus m)).

(* os/kernel/src/process/scheduler.rs: per_cpu_apic_id *)
Definition per_cpu_apic_id (id : nat) : M Z := c ← per_cpu_ref id; mret (apic_id (c_ref c)).
Definition modify_ipis (a : Z) : M unit := fun m =>
  Ret (tt, mkMachine (m_cpus m) (m_alive m) (m_states m) (m_next_tid m) (m_eois m) (a :: m_ipis m) (m_dropped m)).
(* os/kernel/src/process/scheduler.rs: send_reschedule_ipi *)
Definition send_reschedule_ipi (target : nat) : M unit :=
  a ← per_cpu_apic_id target;
  modify_ipis a.

(** The capacity of the inboxes that [boot.rs] passes to [per_cpu_init]. *)
(* os/kernel/src/boot.rs: start *)
Definition INBOX_CAPACITY : nat := 100.

(** [try_send]: whether there was room. *)
Definition try_send (target : nat) (i : MessageItem) : M bool :=
  c ← per_cpu_ref target;
  if decide (length (c_inbox c) < INBOX_CAPACITY)%nat then
    modify_cpu target (fun c => set_inbox c (c_inbox c ++ [i]));; mret true
  else mret false.

(** The result tells whether the message was sent; the code hands it back otherwise. *)
(* [os/kernel/src/process/scheduler.rs:1073-1082] schedule_on *)
Definition schedule_on (target : nat) (i : MessageItem) : M bool :=
  ok ← try_send target i;
  if ok : bool then send_reschedule_ipi target;; mret true else mret false.

Fixpoint send_all (me : nat) (i : MessageItem) (targets : list nat) : M unit :=
  match targets with
  | [] => mret tt
  | t :: targets =>
      if decide (t = me) then send_all me i targets
      else
        ok ← try_send t i;
        if ok : bool then send_all me i targets else panic "Failed to send message to remote core!"
  end.
(* [os/kernel/src/process/scheduler.rs:1086-1094] schedule_on_all_others *)
Definition schedule_on_all_others (me : nat) (i : MessageItem) : M unit :=
  n ← cpu_count; send_all me i (seq 0 n).

(** ** The load of the cores *)

Fixpoint sum_rq (ids : list nat) (sum : Z) : M (option Z) :=
  match ids with
  | [] => mret (Some sum)
  | i :: ids =>
      rq ← read_rq_len_remote i;
      if sum + rq <=? U32_MAX then sum_rq ids (sum + rq) else mret None
  end.
(* [os/kernel/src/process/scheduler.rs:169-191] Scheduler::active_thread_count *)
Definition active_thread_count : M Z :=
  n ← cpu_count;
  s ← sum_rq (seq 0 n) 0;
  mret (default U64_MAX s).

(* [os/kernel/src/process/scheduler.rs:695-704] Scheduler::should_balance_now *)
Definition should_balance_now (me : nat) : M bool :=
  count ← active_thread_count;
  own_threads ← read_rq_len me;
  nbr_cpus ← cpu_count;
  let share := wrap32 count / Z.of_nat nbr_cpus in
  if share + 1 <=? U32_MAX then mret (own_threads >? share + 1)
  else panic "attempt to add with overflow".

Fixpoint min_rq (ids : list nat) (curr : nat) (min : Z) : M (nat * Z) :=
  match ids with
  | [] => mret (curr, min)
  | i :: ids =>
      rq ← read_rq_len_remote i;
      if min >? rq then min_rq ids i rq else min_rq ids curr min
  end.
(* [os/kernel/src/process/scheduler.rs:737-750] Scheduler::find_less_loaded_core *)
Definition find_less_loaded_core (me : nat) : M (option (nat * Z)) :=
  first ← read_rq_len_remote 0;
  n ← cpu_count;
  r ← min_rq (seq 1 (n - 1)) 0%nat first;
  own ← read_rq_len me;
  mret (if r.2 >=? own then None else Some r).

Fixpoint max_rq (ids : list nat) (curr : nat) (max : Z) : M (nat * Z) :=
  match ids with
  | [] => mret (curr, max)
  | i :: ids =>
      rq ← read_rq_len_remote i;
      if max <? rq then max_rq ids i rq else max_rq ids curr max
  end.
(* [os/kernel/src/process/scheduler.rs:754-767] Scheduler::find_more_loaded_core *)
Definition find_more_loaded_core (me : nat) : M (option nat) :=
  first ← read_rq_len_remote 0;
  n ← cpu_count;
  r ← max_rq (seq 1 (n - 1)) 0%nat first;
  own ← read_rq_len me;
  mret (if (r.2 <=? own) || (r.2 <? 2) then None else Some r.1).

(* [os/kernel/src/process/scheduler.rs:771-777] Scheduler::look_for_overloaded_core *)
Definition look_for_overloaded_core (me : nat) : M unit :=
  o ← find_more_loaded_core me;
  match o with
  | None => mret tt
  | Some target => send_reschedule_ipi target
  end.

(* os/kernel/src/process/scheduler.rs: Scheduler::pop_last *)
Definition pop_last (me : nat) : M (option Thread) :=
  c ← per_cpu_ref me;
  match c_ready c with
  | [] => mret None
  | t :: q => modify_cpu me (fun c => set_ready c q);; mret (Some t)
  end.

(** How many threads [balance_once] moves. *)
Definition balance_amount (own target : Z) : Z := (own - target) / 4 + 1.

(** A thread that could not be sent is not put back: its reference is dropped. *)
Definition drop_thread (t : Thread) : M unit := fun m =>
  Ret (tt, mkMachine (m_cpus m) (m_alive m) (m_states m) (m_next_tid m) (m_eois m) (m_ipis m) (t :: m_dropped m)).
Fixpoint migrate (me target : nat) (amount : nat) : M unit :=
  match amount with
  | O => mret tt
  | S amount =>
      o ← pop_last me;
      match o with
      | None => migrate me target amount
      | Some t =>
          dec_rq_len me;;
          ok ← schedule_on target (ItemThread t);
          when (negb ok) (drop_thread t);;
          migrate me target amount
      end
  end.
(* [os/kernel/src/process/scheduler.rs:709-733] Scheduler::balance_once *)
Definition balance_once (me : nat) : M unit :=
  own_load ← read_rq_len me;
  if own_load <=? 1 then mret tt
  else
    o ← find_less_loaded_core me;
    match o with
    | None => mret tt
    | Some (target_core, target_load) =>
        if own_load >=? target_load + 2 then
          migrate me target_core (Z.to_nat (balance_amount own_load target_load))
        else mret tt
    end.

(** ** Waking threads up *)

(* os/kernel/src/process/scheduler.rs: Scheduler::current *)
Definition current (me : nat) : M Thread :=
  c ← per_cpu_ref me;
  match c_current c with
  | Some t => mret t
  | None => panic "Trying to access current thread before initialization!"
  end.

Definition wake (t : Thread) (c : Cpu) : Cpu := set_rq (push_front t c) (wrap32 (c_rq c + 1)).
Fixpoint wake_expired (time : Z) (l : list (Thread * Z)) (c : Cpu) : Cpu * list (Thread * Z) :=
  match l with
  | [] => (c, [])
  | (t, w) :: l =>
      if time >=? w then wake_expired time l (wake t c)
      else let '(c', kept) := wake_expired time l c in (c', (t, w) :: kept)
  end.
(* [os/kernel/src/process/scheduler.rs:800-812] Scheduler::check_sleep_list *)
Definition check_sleep_list (time : Z) (c : Cpu) : Cpu :=
  let '(c', kept) := wake_expired time (c_sleep c) c in set_sleep c' kept.

Fixpoint wake_all (l : list Thread) (c : Cpu) : Cpu :=
  match l with
  | [] => c
  | t :: l => wake_all l (wake t c)
  end.
(* [os/kernel/src/process/scheduler.rs:379-390] Scheduler::unjoin *)
Definition unjoin (me : nat) (tid : Z) : M unit :=
  modify_cpu me (fun c => wake_all (default [] (c_joins c !! tid)) c);;
  schedule_on_all_others me (ItemCmd (JoinTargetExited tid));;
  modify_cpu me (fun c => set_joins c (delete tid (c_joins c))).

(** [Vec::retain] of all threads but one. *)
Definition others (tid : Z) (l : list Thread) : list Thread := filter (fun t => t_id t <> tid) l.
Definition others_asleep (tid : Z) (l : list (Thread * Z)) : list (Thread * Z) :=
  filter (fun e => t_id e.1 <> tid) l.

(** [sleep_held] tells whether the caller holds the lock of the sleep list.
    [after] of the sleep list adds the length of the ready queue, as the code does. *)
(* [os/kernel/src/process/scheduler.rs:425-474] Scheduler::kill_locally *)
Definition kill_locally (sleep_held : bool) (me : nat) (tid : Z) : M bool :=
  alive ← is_thread_alive tid;
  if negb alive then mret true
  else
    c ← per_cpu_ref me;
    let q := others tid (c_ready c) in
    modify_cpu me (fun c => set_ready c (others tid (c_ready c)));;
    changed ←
      (if decide (length (c_ready c) <> length q) then mret true
       else
         lock sleep_held "sleep_list";;
         let sl := others_asleep tid (c_sleep c) in
         modify_cpu me (fun c => set_sleep c (others_asleep tid (c_sleep c)));;
         if decide (length (c_sleep c) <> length q + length sl)%nat then mret true
         else
           let bl := others tid (c_blocked c) in
           modify_cpu me (fun c => set_blocked c (others tid (c_blocked c)));;
           if decide (length bl <> length (c_blocked c)) then mret true
           else
             modify_cpu me (fun c => set_joins c (others tid <$> c_joins c));;
             mret (negb (bool_decide (map_Forall (fun _ l => length (others tid l) = length l) (c_joins c)))));
    if changed : bool then
      mark_thread_dead tid;; unjoin me tid;; dec_rq_len me;; mret true
    else mret false.

Definition find_thread (pid tid : Z) (l : list Thread) : option (nat * Thread) :=
  list_find (fun t => t_id t = tid /\ t_pid t = pid) l.

(* [os/kernel/src/process/scheduler.rs:885-924] Scheduler::handle_inbox_cmd *)
Definition handle_inbox_cmd (sleep_held : bool) (me : nat) (cmd : MessageCmd) : M unit :=
  match cmd with
  | JoinTargetExited tid =>
      modify_cpu me (fun c =>
        match c_joins c !! tid with
        | Some join_list => set_joins (wake_all join_list c) (delete tid (c_joins c))
        | None => c
        end)
  | Deblock pid tid =>
      alive ← is_thread_alive tid;
      if negb alive then mret tt
      else
        modify_cpu me (fun c =>
          match find_thread pid tid (c_blocked c) with
          | Some (pos, t) => wake t (set_blocked c (delete pos (c_blocked c)))
          | None => c
          end)
  | Kill tid =>
      alive ← is_thread_alive tid;
      if negb alive then mret tt
      else
        t ← current me;
        if t_id t =? tid then
          _ ← schedule_on me (ItemCmd (Kill tid));
          schedule_on_all_others me (ItemCmd (Kill tid))
        else _ ← kill_locally sleep_held me tid; mret tt
  end.

Fixpoint drain_loop (sleep_held : bool) (max : nat) (me : nat) (drained_threads : nat) : M nat :=
  match max with
  | O => mret drained_threads
  | S max =>
      c ← per_cpu_ref me;
      match c_inbox c with
      | [] => mret drained_threads
      | i :: rest =>
          modify_cpu me (fun c => set_inbox c rest);;
          match i with
          | ItemThread t => modify_cpu me (wake t);; drain_loop sleep_held max me (S drained_threads)
          | ItemCmd cmd => handle_inbox_cmd sleep_held me cmd;; drain_loop sleep_held max me drained_threads
          end
      end
  end.
(* [os/kernel/src/process/scheduler.rs:1098-1123] drain_inbox_into_ready *)
Definition drain_inbox_into_ready (sleep_held : bool) (max : nat) (me : nat) : M unit :=
  drained_threads ← drain_loop sleep_held max me 0%nat;
  when (0 <? Z.of_nat drained_threads) (clear_resched_flag me).

(** ** Switching *)

(** The first part of [block_and_switch]: the thread to run next.  The lock of the sleep list
    is held until the end of the block, also while the inbox is drained. *)
(* os/kernel/src/process/scheduler.rs: Scheduler::block_and_switch *)
Definition pick_next (env : Env) (me : nat) : M Thread :=
  let pop := c ← per_cpu_ref me;
    match pop_back (c_ready c) with
    | Some (t, q) => modify_cpu me (fun c => set_ready c q);; mret (Some t)
    | None => mret None
    end in
  next ← pop;
  match next with
  | Some t => mret t
  | None =>
      modify_cpu me (check_sleep_list (e_time env));;
      drain_inbox_into_ready true 10 me;;
      next ← pop;
      match next with
      | Some t => mret t
      | None => c ← per_cpu_ref me; mret (c_idle c)
      end
  end.
(** The result tells whether the function returns to its caller at once, without a switch. *)
(* [os/kernel/src/process/scheduler.rs:525-557] Scheduler::block_and_switch *)
Definition block_and_switch (env : Env) (me : nat) : M bool :=
  next ← pick_next env me;
  cur ← current me;
  if t_id cur =? t_id next then mret true
  else modify_cpu me (fun c => set_current c next);; mret false.

(* os/kernel/src/process/scheduler.rs: Scheduler::set_init *)
Definition set_init (me : nat) : M unit := modify_cpu me set_init_flag.

(* [os/kernel/src/process/scheduler.rs:240-255] Scheduler::start *)
Definition start (me : nat) : M unit :=
  c ← per_cpu_ref me;
  if s_started (c_sched c) then mret tt
  else
    modify_cpu me set_started;;
    match pop_back (c_ready c) with
    | Some (t, q) => modify_cpu me (fun c => set_current (set_ready c q) t)
    | None => modify_cpu me (fun c => set_current c (c_idle c))
    end.

(* [os/kernel/src/process/scheduler.rs:258-278] Scheduler::ready *)
Definition ready (me : nat) (t : Thread) : M unit :=
  mark_thread_alive (t_id t);;
  inc_rq_len me;;
  modify_cpu me (push_front t);;
  modify_cpu me (fun c => set_joins c (<[t_id t := []]> (c_joins c))).

(* [os/kernel/src/process/scheduler.rs:281-303] Scheduler::sleep *)
Definition sleep (env : Env) (me : nat) (ms : Z) : M unit :=
  c ← per_cpu_ref me;
  if negb (initialized (c_rs c)) then mret tt
  else
    t ← current me;
    match checked_add (e_time env) ms with
    | None => panic "attempt to add with overflow"
    | Some wakeup_time =>
        modify_cpu me (fun c => set_sleep c (c_sleep c ++ [(t, wakeup_time)]));;
        dec_rq_len me;;
        _ ← block_and_switch env me;
        mret tt
    end.

(* [os/kernel/src/process/scheduler.rs:306-326] Scheduler::block *)
Definition block (env : Env) (me : nat) : M unit :=
  c ← per_cpu_ref me;
  if negb (initialized (c_rs c)) then panic "Scheduler: Cannot block thread before scheduler is initialized!"
  else
    t ← current me;
    modify_cpu me (fun c => set_blocked c (c_blocked c ++ [t]));;
    dec_rq_len me;;
    _ ← block_and_switch env me;
    mret tt.

(* [os/kernel/src/process/scheduler.rs:329-339] Scheduler::deblock *)
Definition deblock (me : nat) (pid tid : Z) : M unit :=
  c ← per_cpu_ref me;
  match find_thread pid tid (c_blocked c) with
  | Some (pos, t) =>
      modify_cpu me (fun c => set_blocked c (delete pos (c_blocked c)));; ready me t
  | None => schedule_on_all_others me (ItemCmd (Deblock pid tid))
  end.

(** [Ok] stands for the return of the caller after it has been woken up. *)
(* [os/kernel/src/process/scheduler.rs:352-377] Scheduler::join *)
Definition join (env : Env) (me : nat) (tid : Z) : M (result Errno Z) :=
  alive ← is_thread_alive tid;
  if negb alive then mret (Err ESRCH)
  else
    t ← current me;
    modify_cpu me (fun c => set_joins c (<[tid := default [] (c_joins c !! tid) ++ [t]]> (c_joins c)));;
    dec_rq_len me;;
    _ ← block_and_switch env me;
    mret (Ok 0).

(* [os/kernel/src/process/scheduler.rs:393-405] Scheduler::exit *)
Definition exit (env : Env) (me : nat) : M unit :=
  t ← current me;
  mark_thread_dead (t_id t);;
  unjoin me (t_id t);;
  dec_rq_len me;;
  returned ← block_and_switch env me;
  if returned : bool then panic "internal error: entered unreachable code" else mret tt.

(* [os/kernel/src/process/scheduler.rs:408-420] Scheduler::kill *)
Definition kill (me : nat) (tid : Z) : M unit :=
  t ← current me;
  if t_id t =? tid then panic "A thread cannot kill itself!"
  else
    found ← kill_locally false me tid;
    if found : bool then mret tt else schedule_on_all_others me (ItemCmd (Kill tid)).

(* [os/kernel/src/process/scheduler.rs:562-567] Scheduler::park_current *)
Definition park_current (me : nat) : M (Z * Z) :=
  t ← current me; set_state t Parking;; mret (t_pid t, t_id t).

(** In case 2b the code sets the state of the current thread, not of the one it found. *)
(* [os/kernel/src/process/scheduler.rs:571-611] Scheduler::unblock *)
Definition unblock (me : nat) (pid tid : Z) : M bool :=
  c ← per_cpu_ref me;
  match find_thread pid tid (c_blocked c) with
  | Some (pos, t) =>
      modify_cpu me (fun c => set_blocked c (delete pos (c_blocked c)));;
      set_state t Ready;;
      modify_cpu me (push_front t);;
      mret true
  | None =>
      match c_current c with
      | Some cur =>
          if (t_id cur =? tid) && (t_pid cur =? pid) then set_state cur Running;; mret true
          else
            match find_thread pid tid (c_ready c) with
            | Some _ => set_state cur Ready;; mret true
            | None => mret false
            end
      | None => mret false
      end
  end.

(** The part of [switch_thread] before it looks for the next thread. *)
(* os/kernel/src/process/scheduler.rs: Scheduler::switch_thread *)
Definition prepare_switch (env : Env) (me : nat) : M unit :=
  when (negb (e_sleep_locked env)) (modify_cpu me (check_sleep_list (e_time env)));;
  drain_inbox_into_ready false 10 me;;
  flag ← read_resched_flag me;
  over ← (if flag : bool then mret true else should_balance_now me);
  when over (balance_once me).
(* [os/kernel/src/process/scheduler.rs:616-691] Scheduler::switch_thread *)
Definition switch_thread (env : Env) (me : nat) (interrupt : bool) : M unit :=
  let eoi := when interrupt end_of_interrupt in
  if e_state_locked env then eoi
  else
    c ← per_cpu_ref me;
    if negb (initialized (c_rs c)) then eoi
    else if e_preempt_disabled env then eoi
    else
      prepare_switch env me;;
      cur ← current me;
      c ← per_cpu_ref me;
      let current_was_idle := t_id cur =? t_id (c_idle c) in
      if e_stacks_locked env || e_tss_locked env then eoi
      else
        let enqueue := when (negb current_was_idle) (modify_cpu me (push_front cur)) in
        match pop_back (c_ready c) with
        | Some (next, q) =>
            modify_cpu me (fun c => set_current (set_ready c q) next);; enqueue;; eoi
        | None =>
            eoi;;
            if current_was_idle then mret tt
            else modify_cpu me (fun c => set_current c (c_idle c));; enqueue;; eoi
        end.

(* os/kernel/src/process/scheduler.rs: Scheduler::switch_thread_no_interrupt *)
Definition switch_thread_no_interrupt (env : Env) (me : nat) : M unit := switch_thread env me false.
(* os/kernel/src/process/scheduler.rs: Scheduler::switch_thread_from_interrupt *)
Definition switch_thread_from_interrupt (env : Env) (me : nat) : M unit := switch_thread env me true.

(* [os/kernel/src/process/scheduler.rs:932-989] Scheduler::yield_now *)
Definition yield_now (env : Env) (me : nat) : M unit :=
  c ← per_cpu_ref me;
  if negb (initialized (c_rs c)) then mret tt
  else
    cur ← current me;
    if e_stacks_locked env || e_tss_locked env then mret tt
    else
      match c_ready c with
      | [] => mret tt
      | _ :: _ =>
          set_state cur Ready;;
          match pop_back (cur :: c_ready c) with
          | None => modify_cpu me (push_front cur);; set_state cur Running
          | Some (next, q) =>
              modify_cpu me (fun c => set_ready c q);;
              set_state next Running;;
              modify_cpu me (fun c => set_current c next)
          end
      end.

(** ** Looking at threads *)

(* [os/kernel/src/process/scheduler.rs:224-229] Scheduler::thread *)
Definition thread (me : nat) (tid : Z) : M (option Thread) :=
  c ← per_cpu_ref me; mret (snd <$> list_find (fun t => t_id t = tid) (c_ready c)).
(* [os/kernel/src/process/scheduler.rs:232-236] Scheduler::current_ids *)
Definition current_ids (me : nat) : M (Z * Z) := t ← current me; mret (t_pid t, t_id t).
(* [os/kernel/src/process/scheduler.rs:790-797] Scheduler::try_current *)
Definition try_current (me : nat) : M (option Thread) := c ← per_cpu_ref me; mret (c_current c).
(** The order is that of the hash map of the code. *)
(* os/kernel/src/process/scheduler.rs: Scheduler::active_thread_ids *)
Definition active_thread_ids : M (list Z) := gets (fun m => elements (m_alive m)).

(** ** Creating the machine *)

(** The parts of a new thread the scheduler knows: a fresh id and the state [Created]. *)
Definition new_thread (pid : Z) : M Thread :=
  tid ← next_thread_id;
  set_state (mkThread tid pid) Created;;
  mret (mkThread tid pid).

(* [os/kernel/src/process/scheduler.rs:105-118] ReadyState::new *)
Definition ReadyState_new : M ReadyState :=
  idle ← new_thread 0; mret (mkReadyState false None [] idle).
(* [os/kernel/src/process/scheduler.rs:142-160] Scheduler::new *)
Definition Scheduler_new : M Scheduler :=
  rs ← ReadyState_new; mret (mkScheduler rs [] [] ∅ false).
(* os/kernel/src/process/scheduler.rs: PerCpuRef::new *)
Definition PerCpuRef_new (id : Z) : PerCpuRef := mkPerCpuRef 0 false id.

Definition push_cpu (c : Cpu) : M unit := fun m => Ret (tt, set_cpus m (m_cpus m ++ [c])).
(** A core comes up: [per_cpu_init] has made its inbox, [CoreLocalStorage::new] creates its
    scheduler and [set_inbox_apic_id] stores the id of its APIC. *)
Definition add_cpu (apic : Z) : M unit :=
  s ← Scheduler_new; push_cpu (mkCpu s (PerCpuRef_new apic) []).
Fixpoint add_cpus (apics : list Z) : M unit :=
  match apics with
  | [] => mret tt
  | a :: apics => add_cpu a;; add_cpus apics
  end.
Definition power_on (apics : list Z) : outcome Machine :=
  snd <$> add_cpus apics (mkMachine [] ∅ ∅ 1 0 [] []).

(** ** Runs of the machine *)

(** What can happen on a core: the calls of its current thread, the timer interrupt
    ([CSwitch true]), the reschedule interrupt, and the start of the scheduler. *)
Inductive sched_call :=
| CSpawn (pid : Z)
| CSleep (ms : Z)
| CBlock
| CJoin (tid : Z)
| CExit
| CKill (tid : Z)
| CDeblock (pid tid : Z)
| CUnblock (pid tid : Z)
| CPark
| CYield
| CSwitch (interrupt : bool)
| CStart
| CInit
| CResched
| CLook.

Definition exec (env : Env) (me : nat) (call : sched_call) : M unit :=
  match call with
  | CSpawn pid => t ← new_thread pid; ready me t
  | CSleep ms => sleep env me ms
  | CBlock => block env me
  | CJoin tid => _ ← join env me tid; mret tt
  | CExit => exit env me
  | CKill tid => kill me tid
  | CDeblock pid tid => deblock me pid tid
  | CUnblock pid tid => _ ← unblock me pid tid; mret tt
  | CPark => _ ← park_current me; mret tt
  | CYield => yield_now env me
  | CSwitch interrupt => switch_thread env me interrupt
  | CStart => start me
  | CInit => set_init me
  | CResched => set_resched_flag me
  | CLook => look_for_overloaded_core me
  end.

(** The calls that take the calling thread off the core come from a thread, not from the
    idle thread, whose loop calls only [look_for_overloaded_core]. *)
Definition leaves (call : sched_call) : bool :=
  match call with
  | CSleep _ | CBlock | CJoin _ | CExit | CYield => true
  | _ => false
  end.
Definition runs_thread (m : Machine) (me : nat) : Prop :=
  exists c t, m_cpus m !! me = Some c /\ c_current c = Some t /\ t_id t <> t_id (c_idle c).

(** A step: some core makes a call, which returns.  Thread ids do not wrap around.  The calls
    are restricted to those with the property [P]. *)
Inductive sched_step (P : sched_call -> Prop) (m m' : Machine) : Prop :=
| sched_step_intro env me call :
    P call ->
    (leaves call = true -> runs_thread m me) ->
    m_next_tid m < U64_MAX ->
    exec env me call m = Ret (tt, m') ->
    sched_step P m m'.

Definition any_call (call : sched_call) : Prop := True.
Definition orderly (call : sched_call) : Prop :=
  match call with
  | CKill _ | CDeblock _ _ | CUnblock _ _ => False
  | _ => True
  end.

(** The machine after a list of calls, for concrete runs. *)
Definition runs_threadb (m : Machine) (me : nat) : bool :=
  match m_cpus m !! me with
  | Some c => match c_current c with Some t => negb (t_id t =? t_id (c_idle c)) | None => false end
  | None => false
  end.
Fixpoint run_calls (l : list (Env * nat * sched_call)) (m : Machine) : outcome Machine :=
  match l with
  | [] => Ret m
  | (env, me, call) :: l =>
      if (negb (leaves call) || runs_threadb m me) && (m_next_tid m <? U64_MAX) then
        match exec env me call m with
        | Ret (_, m') => run_calls l m'
        | Panic s => Panic s
        end
      else Panic "not a run"
  end.

Lemma run_calls_steps P l m m' :
  Forall (fun x => P x.2) l -> run_calls l m = Ret m' -> rtc (sched_step P) m m'.
Proof.
  intros Hl. revert m. induction Hl as [|[[env me] call] l HP _ IH]; intros m; simpl; [by intros [= ->]|].
  destruct ((negb (leaves call) || runs_threadb m me) && (m_next_tid m <? U64_MAX)) eqn:G; [|done].
  apply andb_prop in G as [G1 G2%Z.ltb_lt].
  destruct (exec env me call m) as [[[] m1]|] eqn:E; [|done]. intros H. eapply rtc_l; [|by apply IH].
  apply (sched_step_intro P m m1 env me call); [done| |done|done]. intros Hlv. rewrite Hlv in G1. simpl in G1.
  unfold runs_threadb in G1. destruct (m_cpus m !! me) as [c|] eqn:Hc; [|done].
  destruct (c_current c) as [x|] eqn:Hx; [|done]. exists c, x. split_and!; [done|done|].
  destruct (Z.eqb_spec (t_id x) (t_id (c_idle c))); [done|done].
Qed.
