(* ===== verification/SchedProofs.v ===== *)
(** * Where the scheduler keeps its threads

    Every operation of [Sched] moves threads between the current threads, the lists and the
    inboxes of the cores.  Counting the places of a thread shows that none is ever in two
    places ([thread_in_one_place]), and that without [kill] and [deblock] none is lost, and
    the set of living threads and the published lengths are exact ([threads_accounted]). *)

From S2P Require Import Prelude Errno Sched.

Open Scope list_scope.
Open Scope Z_scope.

(** Compute the fields of updated cores. *)
Ltac cpu_simpl :=
  cbv [wake push_front set_init_flag set_current set_ready set_sleep set_blocked set_joins set_started
       set_rq set_flag set_inbox set_rs c_rs c_ready c_current c_idle c_sleep c_blocked c_joins c_rq];
  cbn [c_sched c_ref c_inbox ready_state sleep_list blocked_list join_map s_started initialized
       current_thread ready_queue idle_thread rq_len resched_flag apic_id].

(** ** Weakest preconditions *)

(** What holds if the operation returns. *)
Definition wp {A} (e : M A) (m : Machine) (Q : A -> Machine -> Prop) : Prop :=
  forall a m', e m = Ret (a, m') -> Q a m'.

Lemma wp_ret {A} (a : A) m (Q : A -> Machine -> Prop) : Q a m -> wp (mret a) m Q.
Proof. by intros H a' m' [= <- <-]. Qed.

Lemma wp_bind {A B} (e : M A) (k : A -> M B) m (Q : B -> Machine -> Prop) :
  wp e m (fun a m' => wp (k a) m' Q) -> wp (e ≫= k) m Q.
Proof.
  intros H b m'. unfold mbind, M_bind. destruct (e m) as [[a m1]|] eqn:E; [|done].
  intros Hk. exact (H a m1 E b m' Hk).
Qed.

Lemma wp_mono {A} (e : M A) m (P Q : A -> Machine -> Prop) :
  wp e m P -> (forall a m', P a m' -> Q a m') -> wp e m Q.
Proof. intros H HPQ a m' E. by apply HPQ, H. Qed.

Lemma wp_panic {A} msg m (Q : A -> Machine -> Prop) : wp (panic msg) m Q.
Proof. by intros a m' [=]. Qed.

Lemma wp_cpu id m (Q : Cpu -> Machine -> Prop) :
  (forall c, m_cpus m !! id = Some c -> Q c m) -> wp (per_cpu_ref id) m Q.
Proof.
  intros H a m'. unfold per_cpu_ref. destruct (m_cpus m !! id) eqn:E; [|done].
  intros [= <- <-]. auto.
Qed.

Lemma wp_modify id f m (Q : unit -> Machine -> Prop) :
  (forall c, m_cpus m !! id = Some c -> Q tt (set_cpus m (<[id := f c]> (m_cpus m)))) ->
  wp (modify_cpu id f) m Q.
Proof.
  intros H a m'. unfold modify_cpu. destruct (m_cpus m !! id) eqn:E; [|done].
  intros [= <- <-]. auto.
Qed.

Lemma wp_current me m (Q : Thread -> Machine -> Prop) :
  (forall c t, m_cpus m !! me = Some c -> c_current c = Some t -> Q t m) -> wp (current me) m Q.
Proof.
  intros H. apply wp_bind, wp_cpu. intros c Hc.
  destruct (c_current c) eqn:E; [apply wp_ret; eauto | apply wp_panic].
Qed.

(** ** Counting *)

(** How often a thread with id [t] is in a list, on a core, on the machine. *)
Definition occ (t : Z) (l : list Thread) : nat := length (filter (fun x => t_id x = t) l).

#[global] Arguments occ : simpl never.

Definition joined (j : gmap Z (list Thread)) : list Thread := map_to_list j ≫= snd.
Definition inbox_thread (i : MessageItem) : list Thread :=
  match i with ItemThread t => [t] | ItemCmd _ => [] end.
Definition running (c : Cpu) : list Thread :=
  match c_current c with
  | Some t => if decide (t_id t = t_id (c_idle c)) then [] else [t]
  | None => []
  end.
Definition cpu_occ (t : Z) (c : Cpu) : nat :=
  occ t (running c) + occ t (c_ready c) + occ t (c_sleep c).*1 + occ t (c_blocked c)
  + occ t (joined (c_joins c)) + occ t (c_inbox c ≫= inbox_thread).
Definition places (t : Z) (m : Machine) : nat := sum_list_with (cpu_occ t) (m_cpus m).

Lemma occ_nil t : occ t [] = 0%nat.
Proof. done. Qed.
Lemma occ_cons t x l : occ t (x :: l) = (occ t [x] + occ t l)%nat.
Proof. unfold occ. rewrite !filter_cons, filter_nil. by destruct (decide _). Qed.
Lemma occ_app t l k : occ t (l ++ k) = (occ t l + occ t k)%nat.
Proof. unfold occ. by rewrite filter_app, length_app. Qed.
Lemma occ_perm t l k : l ≡ₚ k -> occ t l = occ t k.
Proof. intros H. unfold occ. by rewrite H. Qed.
Lemma occ_self x : occ (t_id x) [x] = 1%nat.
Proof. unfold occ. rewrite filter_cons_True; done. Qed.
Lemma occ_one t x : (occ t [x] <= 1)%nat.
Proof. unfold occ. rewrite filter_cons, filter_nil. by destruct (decide _); simpl; lia. Qed.
Lemma occ_other t x : t <> t_id x -> occ t [x] = 0%nat.
Proof. intros. unfold occ. rewrite filter_cons_False; [done|congruence]. Qed.
Lemma occ_elem x l : x ∈ l -> (0 < occ (t_id x) l)%nat.
Proof.
  intros [l1 [l2 ->]]%list_elem_of_split. rewrite occ_app, occ_cons, occ_self. lia.
Qed.
Lemma occ_same t x y : t_id x = t_id y -> occ t [x] = occ t [y].
Proof. unfold occ. rewrite !filter_cons, !filter_nil. intros ->. by repeat case_decide. Qed.

Lemma pop_back_Some q x q' : pop_back q = Some (x, q') -> q = q' ++ [x].
Proof.
  unfold pop_back. destruct (rev q) eqn:E; [done|]. intros [= -> <-].
  by rewrite <- (rev_involutive q), E.
Qed.
Lemma pop_back_None q : pop_back q = None -> q = [].
Proof.
  unfold pop_back. destruct (rev q) eqn:E; [|done]. intros _.
  by rewrite <- (rev_involutive q), E.
Qed.
Lemma pop_back_app q x : pop_back (q ++ [x]) = Some (x, q).
Proof. unfold pop_back. by rewrite rev_unit, rev_involutive. Qed.

Lemma occ_joined_insert t j k l :
  j !! k = None -> occ t (joined (<[k := l]> j)) = (occ t l + occ t (joined j))%nat.
Proof.
  intros H. unfold joined. rewrite <- occ_app.
  apply occ_perm. by rewrite (map_to_list_insert _ _ _ H).
Qed.
Lemma occ_joined_delete t j k :
  occ t (joined j) = (occ t (default [] (j !! k)) + occ t (joined (delete k j)))%nat.
Proof.
  destruct (j !! k) as [l|] eqn:E; simpl.
  - rewrite <- (insert_delete_id j k l E) at 1. apply occ_joined_insert, lookup_delete_eq.
  - rewrite delete_id; done.
Qed.
Lemma occ_joined_upsert t j k l :
  (occ t (joined (<[k := l]> j)) + occ t (default [] (j !! k)) = occ t l + occ t (joined j))%nat.
Proof.
  rewrite (occ_joined_delete t (<[k := l]> j) k), lookup_insert_eq, delete_insert_eq; simpl.
  rewrite (occ_joined_delete t j k). lia.
Qed.

Lemma occ_others t k l : (occ t (others k l) <= occ t l)%nat.
Proof.
  unfold occ, others. induction l as [|x l IH]; [done|].
  rewrite !filter_cons. repeat case_decide; simpl; try rewrite filter_cons; repeat case_decide; simpl; lia.
Qed.
Lemma occ_others_asleep t k l : (occ t (others_asleep k l).*1 <= occ t l.*1)%nat.
Proof.
  induction l as [|[x w] l IH]; [done|]. unfold others_asleep in *.
  rewrite filter_cons. case_decide; csimpl; rewrite ?(occ_cons t x (_ <$> _)); lia.
Qed.
Lemma occ_joined_others t k j : (occ t (joined (others k <$> j)) <= occ t (joined j))%nat.
Proof.
  induction j as [|i l j Hi IH] using map_ind.
  { by rewrite fmap_empty. }
  rewrite fmap_insert, !occ_joined_insert; [|done|by rewrite lookup_fmap, Hi].
  pose proof (occ_others t k l). lia.
Qed.

Lemma places_insert t m i c c' :
  m_cpus m !! i = Some c ->
  (places t (set_cpus m (<[i := c']> (m_cpus m))) + cpu_occ t c = places t m + cpu_occ t c')%nat.
Proof.
  unfold places; simpl. revert i. induction (m_cpus m) as [|x l IH]; intros i; [done|].
  destruct i as [|i]; simpl; [intros [= ->]; lia|]. intros H. specialize (IH i H). lia.
Qed.

Lemma places_elem t m i c : m_cpus m !! i = Some c -> (cpu_occ t c <= places t m)%nat.
Proof.
  unfold places. revert i. induction (m_cpus m) as [|x l IH]; intros i; [done|].
  destruct i as [|i]; simpl; [intros [= ->]; lia|]. intros H. specialize (IH i H). lia.
Qed.

(** ** What operations preserve *)

(** The places of a thread, counting the threads that were dropped. *)
Definition total (t : Z) (m : Machine) : nat := places t m + occ t (m_dropped m).

(** How far the published length of a core is from the number of its runnable threads. *)
Definition load (c : Cpu) : Z := Z.of_nat (length (c_ready c) + length (running c)).
Definition cslack (c : Cpu) : Z := (c_rq c - load c) mod 2 ^ 32.
Definition slack (i : nat) (m : Machine) : option Z := cslack <$> m_cpus m !! i.

(** No command to kill a thread is on its way. *)
Definition cquiet (c : Cpu) : Prop := forall tid, ItemCmd (Kill tid) ∉ c_inbox c.
Definition quiet (m : Machine) : Prop := forall i c, m_cpus m !! i = Some c -> cquiet c.

(** Threads wait only for thread ids that have been given out. *)
Definition keys_old (m : Machine) : Prop := forall i c k l,
  m_cpus m !! i = Some c -> c_joins c !! k = Some l -> l <> [] -> k < m_next_tid m.

Definition frame (c : Cpu) : bool * bool * Thread * option Thread :=
  (initialized (c_rs c), s_started (c_sched c), c_idle c, c_current c).

(** The number of places of [t] changes by [d], the slack of core [i] by [e]; fewer places are
    possible only where [s] does not hold or a [Kill] is on its way. *)
Record flow (s : Prop) (t : Z) (i : nat) (d e : Z) (m m' : Machine) : Prop := {
  f_total : Z.of_nat (total t m') <= Z.of_nat (total t m) + d;
  f_quiet : s -> quiet m ->
    Z.of_nat (total t m') = Z.of_nat (total t m) + d /\
    slack i m' = (fun x => (x + e) mod 2 ^ 32) <$> slack i m /\ quiet m' /\ m_alive m' = m_alive m
}.

(** What no operation but a switch changes. *)
Record stable (m m' : Machine) : Prop := {
  s_next : m_next_tid m' = m_next_tid m;
  s_frame : frame <$> m_cpus m' = frame <$> m_cpus m;
  s_keys : keys_old m -> keys_old m';
  s_alive : m_alive m' ⊆ m_alive m
}.

Definition keeps (s : Prop) (t : Z) (i : nat) (m m' : Machine) : Prop := stable m m' /\ flow s t i 0 0 m m'.

Lemma slack_range i m x : slack i m = Some x -> x mod 2 ^ 32 = x.
Proof.
  unfold slack, cslack. intros (c & _ & ->)%fmap_Some. apply Z.mod_mod. lia.
Qed.

Lemma flow_refl s t i m : flow s t i 0 0 m m.
Proof.
  split; [lia|]. intros _ Hq. split_and!; [lia| |done..].
  destruct (slack i m) eqn:E; simpl; [|done]. by rewrite Z.add_0_r, (slack_range _ _ _ E).
Qed.

Lemma flow_trans s t i d1 e1 d2 e2 m1 m2 m3 :
  flow s t i d1 e1 m1 m2 -> flow s t i d2 e2 m2 m3 -> flow s t i (d1 + d2) (e1 + e2) m1 m3.
Proof.
  intros [A1 B1] [A2 B2]. split; [lia|]. intros Hs Hq.
  destruct (B1 Hs Hq) as (? & E1 & Hq2 & ?). destruct (B2 Hs Hq2) as (? & E2 & ? & ?).
  split_and!; [lia| |done|congruence]. rewrite E2, E1. destruct (slack i m1); simpl; [|done].
  rewrite Z.add_mod_idemp_l by lia. do 2 f_equal. lia.
Qed.

Lemma flow_eq s t i d e d' e' m m' : d = d' -> e = e' -> flow s t i d e m m' -> flow s t i d' e' m m'.
Proof. by intros -> ->. Qed.

Lemma flow_weaken (s s' : Prop) t i d e m m' :
  (s' -> quiet m -> s) -> flow s t i d e m m' -> flow s' t i d e m m'.
Proof. intros H [A B]. split; auto. Qed.

#[global] Instance stable_preorder : PreOrder stable.
Proof.
  split; [by split|]. intros m1 m2 m3 [A1 B1 C1 D1] [A2 B2 C2 D2]. split; [congruence..|auto|set_solver].
Qed.

#[global] Instance keeps_preorder s t i : PreOrder (keeps s t i).
Proof.
  split.
  - intros m. split; [done|apply flow_refl].
  - intros m1 m2 m3 [S1 F1] [S2 F2]. split; [by etrans|]. exact (flow_trans _ _ _ _ _ _ _ _ _ _ F1 F2).
Qed.

Lemma keeps_weaken (s s' : Prop) t i m m' : (s' -> quiet m -> s) -> keeps s t i m m' -> keeps s' t i m m'.
Proof. intros H [A B]. split; [done|]. by apply (flow_weaken s). Qed.

Lemma stable_lookup m m' j c :
  stable m m' -> m_cpus m !! j = Some c -> exists c', m_cpus m' !! j = Some c' /\ frame c' = frame c.
Proof.
  intros K Hc. assert (E : (frame <$> m_cpus m') !! j = Some (frame c)).
  { by rewrite (s_frame _ _ K), list_lookup_fmap, Hc. }
  rewrite list_lookup_fmap in E. destruct (m_cpus m' !! j) as [c'|]; [|done].
  exists c'. split; [done|]. simpl in E. congruence.
Qed.

Lemma insert_cases (l : list Cpu) me c c' j x :
  l !! me = Some c -> <[me := c']> l !! j = Some x -> (j = me /\ x = c') \/ (j <> me /\ l !! j = Some x).
Proof.
  intros Hc. destruct (decide (j = me)) as [->|Hj].
  - rewrite list_lookup_insert_eq by (by apply lookup_lt_Some in Hc). naive_solver.
  - rewrite list_lookup_insert_ne by done. naive_solver.
Qed.

(** *** Changing one core *)

Definition upd (m : Machine) (me : nat) (c : Cpu) : Machine := set_cpus m (<[me := c]> (m_cpus m)).
Definition at_core (i me : nat) (e : Z) : Z := if decide (i = me) then e else 0.

Lemma stable_upd m me c c' :
  m_cpus m !! me = Some c -> frame c' = frame c ->
  (forall k l, c_joins c' !! k = Some l -> l <> [] -> exists l', c_joins c !! k = Some l' /\ l' <> []) ->
  stable m (upd m me c').
Proof.
  intros Hc Hfr Hk. split; [done|..|done].
  - simpl. rewrite list_fmap_insert, Hfr, <- (list_fmap_insert frame).
    by rewrite (list_insert_id _ _ _ Hc).
  - intros Hold j x k l Hj Hl Hne. simpl in Hj.
    destruct (insert_cases _ _ _ _ _ _ Hc Hj) as [[-> ->]|[_ ?]]; [|by eapply Hold].
    destruct (Hk k l Hl Hne) as (l' & ? & ?). by eapply (Hold me c k l').
Qed.

Lemma flow_upd (s : Prop) t i m me c c' d e :
  m_cpus m !! me = Some c ->
  Z.of_nat (cpu_occ t c') <= Z.of_nat (cpu_occ t c) + d ->
  (s -> cquiet c -> Z.of_nat (cpu_occ t c') = Z.of_nat (cpu_occ t c) + d /\
    cslack c' = (cslack c + e) mod 2 ^ 32 /\ cquiet c') ->
  flow s t i d (at_core i me e) m (upd m me c').
Proof.
  intros Hc Hocc Hq. pose proof (places_insert t m me c c' Hc) as Hp. fold (upd m me c') in Hp.
  split; [unfold total in *; simpl in *; lia|].
  intros Hs Hquiet. destruct (Hq Hs (Hquiet _ _ Hc)) as (E1 & E2 & E3). split_and!; [| |..|done].
  - unfold total in *; simpl in *. lia.
  - unfold slack, at_core; simpl. case_decide as Hi.
    + subst i. rewrite list_lookup_insert_eq by (by apply lookup_lt_Some in Hc). rewrite Hc. simpl. by rewrite E2.
    + rewrite list_lookup_insert_ne by done. destruct (m_cpus m !! i); simpl; [|done].
      unfold cslack. by rewrite Z.add_0_r, Z.mod_mod by lia.
  - intros j x Hj tid. simpl in Hj.
    destruct (insert_cases _ _ _ _ _ _ Hc Hj) as [[-> ->]|[_ ?]]; [by apply E3|by eapply Hquiet].
Qed.

Lemma cslack_0 c : (cslack c + 0) mod 2 ^ 32 = cslack c.
Proof. unfold cslack. by rewrite Z.add_0_r, Z.mod_mod by lia. Qed.

(** The common case: nothing is won or lost on the core. *)
Lemma keeps_upd (s : Prop) t i m me c c' :
  m_cpus m !! me = Some c -> frame c' = frame c ->
  (forall k l, c_joins c' !! k = Some l -> l <> [] -> exists l', c_joins c !! k = Some l' /\ l' <> []) ->
  (cpu_occ t c' <= cpu_occ t c)%nat ->
  (s -> cquiet c -> cpu_occ t c' = cpu_occ t c /\ cslack c' = cslack c /\ cquiet c') ->
  keeps s t i m (upd m me c').
Proof.
  intros Hc Hfr Hk Hocc Hq. split; [by apply (stable_upd _ _ c)|].
  apply (flow_eq _ _ _ 0 (at_core i me 0)); [done|unfold at_core; by case_decide|].
  apply (flow_upd _ _ _ _ _ c); [done|lia|]. intros Hs Hquiet. destruct (Hq Hs Hquiet) as (-> & -> & ?).
  split_and!; [lia|by rewrite cslack_0|done].
Qed.

(** Changes outside the cores. *)
Lemma keeps_same_cpus s t i m m' :
  m_cpus m' = m_cpus m -> m_alive m' = m_alive m -> m_next_tid m' = m_next_tid m ->
  m_dropped m' = m_dropped m -> keeps s t i m m'.
Proof.
  intros E1 E2 E3 E4. destruct (flow_refl s t i m) as [A B]. split.
  - split; unfold keys_old; rewrite ?E1, ?E2, ?E3; auto.
  - split; unfold total, places, quiet, slack in *; rewrite ?E1, ?E2, ?E4; auto.
Qed.

Lemma wp_keeps_trans {A} s t i (e : M A) m0 m (Q : A -> Machine -> Prop) :
  keeps s t i m0 m -> wp e m (fun a m' => keeps s t i m m' /\ Q a m') ->
  wp e m (fun a m' => keeps s t i m0 m' /\ Q a m').
Proof. intros K H. apply (wp_mono _ _ _ _ H). intros a m' [K' HQ]. split; [by etrans|done]. Qed.

(** *** Sending and waking *)

Lemma cslack_eq c c' : c_rq c' - load c' = c_rq c - load c -> cslack c' = cslack c.
Proof. unfold cslack. by intros ->. Qed.

(** Commands other than [Kill] cost no thread. *)
Definition is_kill (cmd : MessageCmd) : Prop := match cmd with Kill _ => True | _ => False end.

Lemma keeps_send (s : Prop) t i m me c cmd :
  m_cpus m !! me = Some c -> (s -> ~ is_kill cmd) ->
  keeps s t i m (upd m me (set_inbox c (c_inbox c ++ [ItemCmd cmd]))).
Proof.
  intros Hc Hs. assert (E : cpu_occ t (set_inbox c (c_inbox c ++ [ItemCmd cmd])) = cpu_occ t c).
  { unfold cpu_occ. cbn [c_inbox set_inbox]. rewrite bind_app. simpl. by rewrite app_nil_r. }
  apply (keeps_upd _ _ _ _ _ c); [done|done|eauto|by rewrite E|]. intros HS Hq. split_and!; [done|done|].
  intros tid. simpl. rewrite elem_of_app, list_elem_of_singleton. intros [?|[= <-]]; [by eapply Hq|by apply Hs].
Qed.

Lemma wp_send_cmd (s : Prop) t i target cmd m :
  (s -> ~ is_kill cmd) ->
  wp (try_send target (ItemCmd cmd)) m (fun _ m' => keeps s t i m m' /\
    forall k, k <> target -> m_cpus m' !! k = m_cpus m !! k).
Proof.
  intros Hs. apply wp_bind, wp_cpu. intros c Hc. case_decide; [|by apply wp_ret].
  apply wp_bind, wp_modify. intros c' Hc'. apply wp_ret. split.
  - rewrite Hc in Hc'. injection Hc' as <-. by apply keeps_send.
  - intros k Hk. simpl. by rewrite list_lookup_insert_ne.
Qed.

Lemma wp_send_all (s : Prop) t i me cmd ids m :
  (s -> ~ is_kill cmd) ->
  wp (send_all me (ItemCmd cmd) ids) m (fun _ m' => keeps s t i m m' /\ m_cpus m' !! me = m_cpus m !! me).
Proof.
  intros Hs. revert m. induction ids as [|k ids IH]; intros m; simpl; [by apply wp_ret|].
  case_decide as Hk; [apply IH|]. apply wp_bind.
  eapply wp_mono; [by apply (wp_send_cmd s t i)|]. intros ok m1 [K1 E1]. simpl.
  destruct ok; [|apply wp_panic]. eapply wp_mono; [apply IH|]. intros _ m2 [K2 E2].
  split; [by etrans|]. rewrite E2. by apply E1.
Qed.

Lemma wp_broadcast (s : Prop) t i me cmd m :
  (s -> ~ is_kill cmd) ->
  wp (schedule_on_all_others me (ItemCmd cmd)) m (fun _ m' => keeps s t i m m' /\ m_cpus m' !! me = m_cpus m !! me).
Proof. intros Hs. apply wp_bind. intros n m' [= <- <-]. by apply wp_send_all. Qed.

Lemma wp_ipi s t i target m : wp (send_reschedule_ipi target) m (fun _ => keeps s t i m).
Proof. apply wp_bind, wp_bind, wp_cpu. intros c Hc. apply wp_ret. intros [] m' [= <-]. by apply keeps_same_cpus. Qed.

Lemma wake_occ t x c : cpu_occ t (wake x c) = (occ t [x] + cpu_occ t c)%nat.
Proof. unfold cpu_occ, running. cpu_simpl. rewrite (occ_cons t x). lia. Qed.
Lemma cslack_shift c c' k :
  load c' = load c + k -> c_rq c' = wrap32 (c_rq c + k) -> cslack c' = cslack c.
Proof. unfold cslack, wrap32. intros -> ->. rewrite Zminus_mod_idemp_l. f_equal. lia. Qed.
Lemma wake_cslack x c : cslack (wake x c) = cslack c.
Proof. apply (cslack_shift c (wake x c) 1); [|done]. unfold load, running. cpu_simpl. simpl. lia. Qed.

Lemma wake_all_spec t l c :
  let c' := wake_all l c in
  cpu_occ t c' = (occ t l + cpu_occ t c)%nat /\ cslack c' = cslack c /\ frame c' = frame c /\
  c_joins c' = c_joins c /\ c_inbox c' = c_inbox c /\ c_sleep c' = c_sleep c.
Proof.
  revert c. induction l as [|x l IH]; intros c; simpl; [by split_and!|].
  destruct (IH (wake x c)) as (-> & -> & -> & -> & -> & ->).
  rewrite (occ_cons t x l), wake_occ, wake_cslack. split_and!; [lia|done..].
Qed.

Lemma set_joins_occ t c j :
  (cpu_occ t (set_joins c j) + occ t (joined (c_joins c)) = cpu_occ t c + occ t (joined j))%nat.
Proof. unfold cpu_occ, running. cpu_simpl. lia. Qed.

Lemma cquiet_inbox c c' : c_inbox c' = c_inbox c -> cquiet c -> cquiet c'.
Proof. unfold cquiet. by intros ->. Qed.

Lemma wp_unjoin s t i me tid m : wp (unjoin me tid) m (fun _ => keeps s t i m).
Proof.
  apply wp_bind, wp_modify. intros c Hc. set (l := default [] (c_joins c !! tid)).
  destruct (wake_all_spec t l c) as (Eo & Es & Ef & Ej & Ei & _). set (c1 := wake_all l c) in *.
  fold (upd m me c1). apply wp_bind.
  eapply wp_mono; [by apply (wp_broadcast s t i); intros _ []|]. intros _ m2 [[S2 F2] E2].
  assert (Hc2 : m_cpus m2 !! me = Some c1).
  { rewrite E2. simpl. by rewrite list_lookup_insert_eq by (by apply lookup_lt_Some in Hc). }
  apply wp_modify. intros c2 Hc2'. rewrite Hc2 in Hc2'. injection Hc2' as <-. fold (upd m2 me (set_joins c1 (delete tid (c_joins c1)))).
  assert (F1 : flow s t i (Z.of_nat (occ t l)) (at_core i me 0) m (upd m me c1)).
  { apply (flow_upd _ _ _ _ _ c); [done|lia|]. intros _ Hq. split_and!; [lia|by rewrite Es, cslack_0|by apply (cquiet_inbox c)]. }
  pose proof (set_joins_occ t c1 (delete tid (c_joins c1))) as Hd.
  pose proof (occ_joined_delete t (c_joins c1) tid) as Hd'. rewrite Ej in Hd, Hd'. fold l in Hd'. rewrite <- Ej in Hd.
  assert (F3 : flow s t i (- Z.of_nat (occ t l)) (at_core i me 0) m2 (upd m2 me (set_joins c1 (delete tid (c_joins c1))))).
  { apply (flow_upd _ _ _ _ _ c1); [done|rewrite Ej in *; lia|]. intros _ Hq.
    split_and!; [rewrite Ej in *; lia| |done].
    by rewrite cslack_0. }
  split.
  - etrans; [|etrans; [exact S2|]].
    + apply (stable_upd _ _ c); [done..|]. rewrite Ej. eauto.
    + apply (stable_upd _ _ c1); [done..|]. cpu_simpl. intros k l0 [_ ?]%lookup_delete_Some. eauto.
  - pose proof (flow_trans _ _ _ _ _ _ _ _ _ _ (flow_trans _ _ _ _ _ _ _ _ _ _ F1 F2) F3) as F.
    revert F. apply flow_eq; [lia|unfold at_core; case_decide; lia].
Qed.

Lemma wake_expired_spec t time l c c' kept :
  wake_expired time l c = (c', kept) ->
  (cpu_occ t c' + occ t kept.*1 = cpu_occ t c + occ t l.*1)%nat /\ cslack c' = cslack c /\
  frame c' = frame c /\ c_joins c' = c_joins c /\ c_inbox c' = c_inbox c /\ c_sleep c' = c_sleep c.
Proof.
  revert c c' kept. induction l as [|[x w] l IH]; intros c c' kept; cbn [wake_expired].
  { intros [= -> <-]. by split_and!. }
  rewrite fmap_cons, (occ_cons t). simpl. case_test.
  - intros (? & -> & -> & -> & -> & ->)%IH. rewrite wake_occ in *. rewrite wake_cslack. split_and!; [lia|done..].
  - destruct (wake_expired time l c) as [c1 k1] eqn:E. intros [= <- <-].
    destruct (IH _ _ _ E) as (? & -> & -> & -> & -> & ->).
    csimpl. rewrite (occ_cons t x (k1.*1)). split_and!; [lia|done..].
Qed.

Lemma set_sleep_occ t c l :
  (cpu_occ t (set_sleep c l) + occ t (c_sleep c).*1 = cpu_occ t c + occ t l.*1)%nat.
Proof. unfold cpu_occ, running. cpu_simpl. lia. Qed.

Lemma keeps_check_sleep s t i time me c m :
  m_cpus m !! me = Some c -> keeps s t i m (upd m me (check_sleep_list time c)).
Proof.
  intros Hc. unfold check_sleep_list. destruct (wake_expired time (c_sleep c) c) as [c1 kept] eqn:E.
  destruct (wake_expired_spec t _ _ _ _ _ E) as (Eo & Es & Ef & Ej & Ei & El).
  pose proof (set_sleep_occ t c1 kept) as Hs. rewrite El in Hs.
  apply (keeps_upd _ _ _ _ _ c); [done|done| |lia|].
  - cbn. change (c_joins (set_sleep c1 kept)) with (c_joins c1). rewrite Ej. eauto.
  - intros _ Hq. split_and!; [lia|done|by apply (cquiet_inbox c)].
Qed.

Lemma set_ready_occ t c q : (cpu_occ t (set_ready c q) + occ t (c_ready c) = cpu_occ t c + occ t q)%nat.
Proof. unfold cpu_occ, running. cpu_simpl. lia. Qed.
Lemma set_blocked_occ t c q : (cpu_occ t (set_blocked c q) + occ t (c_blocked c) = cpu_occ t c + occ t q)%nat.
Proof. unfold cpu_occ, running. cpu_simpl. lia. Qed.

(** Killing only removes. *)
Lemma wp_kill_modify t i me f m :
  (forall c, m_cpus m !! me = Some c -> frame (f c) = frame c /\ (cpu_occ t (f c) <= cpu_occ t c)%nat /\
    forall k l, c_joins (f c) !! k = Some l -> l <> [] -> exists l', c_joins c !! k = Some l' /\ l' <> []) ->
  wp (modify_cpu me f) m (fun _ => keeps False t i m).
Proof.
  intros H. apply wp_modify. intros c Hc. destruct (H c Hc) as (? & ? & ?). by apply (keeps_upd _ _ _ _ _ c).
Qed.

Lemma wp_mark_dead t i tid m : wp (mark_thread_dead tid) m (fun _ => keeps False t i m).
Proof. intros [] m' [= <-]. destruct (flow_refl False t i m) as [A B]. split; split; auto; [intros z [? _]%elem_of_difference; done|done]. Qed.

Lemma wp_dec_loose t i me m : wp (dec_rq_len me) m (fun _ => keeps False t i m).
Proof. apply wp_kill_modify. intros c Hc. split_and!; [done|done|eauto]. Qed.

(** Sequences of operations that keep everything. *)
Lemma wp_seq {A B} s t i (e : M A) (k : A -> M B) m :
  wp e m (fun _ => keeps s t i m) -> (forall a m1, wp (k a) m1 (fun _ => keeps s t i m1)) ->
  wp (e ≫= k) m (fun _ => keeps s t i m).
Proof.
  intros H1 H2. apply wp_bind. eapply wp_mono; [exact H1|]. intros a m1 K1. simpl.
  eapply wp_mono; [apply H2|]. intros b m2 K2. exact (transitivity K1 K2).
Qed.
Lemma wp_skip {A} s t i (a : A) m : wp (mret a) m (fun _ => keeps s t i m).
Proof. by apply wp_ret. Qed.
Lemma wp_cpu_keeps s t i id m : wp (per_cpu_ref id) m (fun _ => keeps s t i m).
Proof. by apply wp_cpu. Qed.
Lemma wp_gets {A} s t i (f : Machine -> A) m : wp (gets f) m (fun _ => keeps s t i m).
Proof. by intros a m' [= <- <-]. Qed.
Lemma wp_current_keeps s t i me m : wp (current me) m (fun _ => keeps s t i m).
Proof. by apply wp_current. Qed.
Lemma wp_lock s t i b name m : wp (lock b name) m (fun _ => keeps s t i m).
Proof. destruct b; [by intros a m' [=]|]. by intros [] m' [= <-]. Qed.
Lemma wp_set_state s t i x st m : wp (set_state x st) m (fun _ => keeps s t i m).
Proof. intros [] m' [= <-]. by apply keeps_same_cpus. Qed.
Lemma wp_eoi s t i m : wp end_of_interrupt m (fun _ => keeps s t i m).
Proof. intros [] m' [= <-]. by apply keeps_same_cpus. Qed.
Lemma wp_when s t i b e m :
  wp e m (fun _ => keeps s t i m) -> wp (when b e) m (fun _ => keeps s t i m).
Proof. destruct b; [done|]. intros _. apply wp_skip. Qed.
Lemma wp_flag s t i b me m : wp (modify_cpu me (fun c => set_flag c b)) m (fun _ => keeps s t i m).
Proof. apply wp_modify. intros c Hc. apply (keeps_upd _ _ _ _ _ c); [done|done|eauto|done|]. intros _ Hq. by split_and!. Qed.
#[export] Hint Resolve wp_skip wp_cpu_keeps wp_gets wp_current_keeps wp_lock wp_set_state wp_eoi
  wp_when wp_flag wp_ipi wp_unjoin wp_panic wp_mark_dead wp_dec_loose : d3os.

Lemma wp_broadcast_keeps (s : Prop) t i me cmd m :
  (s -> ~ is_kill cmd) -> wp (schedule_on_all_others me (ItemCmd cmd)) m (fun _ => keeps s t i m).
Proof. intros Hs. eapply wp_mono; [by apply (wp_broadcast s t i)|]. by intros _ m' []. Qed.

Lemma wp_kill_locally h t i me tid m : wp (kill_locally h me tid) m (fun _ => keeps False t i m).
Proof.
  apply wp_seq; [apply wp_gets|]. intros [] m1; [simpl|apply wp_skip].
  apply wp_seq; [apply wp_cpu_keeps|]. intros c m2. apply wp_seq.
  { apply wp_kill_modify. intros c' _. split_and!; [done| |eauto].
    pose proof (set_ready_occ t c' (others tid (c_ready c'))). pose proof (occ_others t tid (c_ready c')). lia. }
  intros _ m3. apply wp_seq; [|intros [] m4; eauto 10 using wp_seq with d3os].
  case_decide; [apply wp_skip|]. apply wp_seq; [apply wp_lock|]. intros _ m4. apply wp_seq.
  { apply wp_kill_modify. intros c' _. split_and!; [done| |eauto].
    pose proof (set_sleep_occ t c' (others_asleep tid (c_sleep c'))).
    pose proof (occ_others_asleep t tid (c_sleep c')). lia. }
  intros _ m5. case_decide; [apply wp_skip|]. apply wp_seq.
  { apply wp_kill_modify. intros c' _. split_and!; [done| |eauto].
    pose proof (set_blocked_occ t c' (others tid (c_blocked c'))). pose proof (occ_others t tid (c_blocked c')). lia. }
  intros _ m6. case_decide; [apply wp_skip|]. apply wp_seq; [|intros _ m7; apply wp_skip].
  apply wp_kill_modify. intros c' _. split_and!; [done| |].
  - pose proof (set_joins_occ t c' (others tid <$> c_joins c')). pose proof (occ_joined_others t tid (c_joins c')). lia.
  - cpu_simpl. intros k l (l' & <- & Hl')%lookup_fmap_Some Hne. exists l'. split; [done|]. by intros ->.
Qed.

Lemma delete_occ t l pos x :
  l !! pos = Some x -> occ t l = (occ t [x] + occ t (delete pos l))%nat.
Proof. intros H. rewrite <- occ_app. apply occ_perm. by apply (delete_Permutation _ _ x) in H as <-. Qed.

Lemma find_thread_lookup pid tid l pos x : find_thread pid tid l = Some (pos, x) -> l !! pos = Some x.
Proof. by intros (? & ? & ?)%list_find_Some. Qed.

(** Wake a thread of the blocked list. *)
Lemma unblock_occ t c pos x :
  c_blocked c !! pos = Some x -> cpu_occ t (wake x (set_blocked c (delete pos (c_blocked c)))) = cpu_occ t c.
Proof.
  intros H. rewrite wake_occ. pose proof (set_blocked_occ t c (delete pos (c_blocked c))).
  pose proof (delete_occ t _ _ _ H). lia.
Qed.

(** A core handles a command it has taken out of its inbox. *)
Lemma wp_handle (s : Prop) h t i me cmd m :
  (s -> ~ is_kill cmd) -> wp (handle_inbox_cmd h me cmd) m (fun _ => keeps s t i m).
Proof.
  intros Hs. destruct cmd as [tid|pid tid|tid]; simpl.
  - apply wp_modify. intros c Hc. destruct (c_joins c !! tid) as [l|] eqn:El.
    + destruct (wake_all_spec t l c) as (Eo & Es & Ef & Ej & Ei & _).
      pose proof (set_joins_occ t (wake_all l c) (delete tid (c_joins c))) as Hd.
      pose proof (occ_joined_delete t (c_joins c) tid) as Hd'. rewrite Ej in Hd. rewrite El in Hd'. simpl in Hd'.
      apply (keeps_upd _ _ _ _ _ c); [done|done| |lia|].
      * cpu_simpl. intros k l0 [_ ?]%lookup_delete_Some. eauto.
      * intros _ Hq. split_and!; [lia|done|by apply (cquiet_inbox c)].
    + apply (keeps_upd _ _ _ _ _ c); eauto.
  - apply wp_seq; [apply wp_gets|]. intros [] m1; [simpl|apply wp_skip].
    apply wp_modify. intros c Hc. destruct (find_thread pid tid (c_blocked c)) as [[pos x]|] eqn:E.
    + apply find_thread_lookup in E. pose proof (unblock_occ t _ _ _ E) as Eo.
      apply (keeps_upd _ _ _ _ _ c); [done|done|eauto|lia|].
      intros _ Hq. split_and!; [done|by rewrite wake_cslack|done].
    + apply (keeps_upd _ _ _ _ _ c); eauto.
  - apply (wp_mono _ _ (fun _ => keeps False t i m)); [|intros _ m'; apply keeps_weaken; intros H; by destruct (Hs H)].
    apply wp_seq; [apply wp_gets|]. intros [] m1; [simpl|apply wp_skip].
    apply wp_seq; [apply wp_current_keeps|]. intros x m2. case_test.
    + apply wp_seq; [|intros _ m3; by apply wp_broadcast_keeps].
      apply wp_seq; [eapply wp_mono; [by apply (wp_send_cmd False t i)|by intros ? ? []]|].
      intros [] m3; eauto using wp_seq with d3os.
    + apply wp_seq; [apply wp_kill_locally|]. intros _ m3. apply wp_skip.
Qed.

Lemma pop_inbox_occ t c x rest :
  c_inbox c = x :: rest -> cpu_occ t c = (occ t (inbox_thread x) + cpu_occ t (set_inbox c rest))%nat.
Proof. intros E. unfold cpu_occ, running. cpu_simpl. rewrite E, bind_cons, occ_app. lia. Qed.

Lemma wp_drain_loop s h t i max me n m : wp (drain_loop h max me n) m (fun _ => keeps s t i m).
Proof.
  revert s n m. induction max as [|max IH]; intros s n m; simpl; [apply wp_skip|].
  apply wp_bind, wp_cpu. intros c Hc. destruct (c_inbox c) as [|x rest] eqn:Ei; [apply wp_skip|].
  pose proof (pop_inbox_occ t c x rest Ei) as Eo.
  assert (Hpop : cquiet c -> cquiet (set_inbox c rest)).
  { unfold cquiet. rewrite Ei. cpu_simpl. intros Hq tid Hin. apply (Hq tid). by right. }
  apply wp_bind, wp_modify. intros c' [= <-]%(eq_trans (eq_sym Hc)). fold (upd m me (set_inbox c rest)).
  destruct x as [x|cmd].
  - apply wp_bind, wp_modify. intros c1 Hc1. simpl in Hc1.
    rewrite list_lookup_insert_eq in Hc1 by (by apply lookup_lt_Some in Hc). injection Hc1 as <-.
    eapply wp_mono; [apply (IH s)|]. intros ? m' K. simpl in K. refine (transitivity _ K).
    unfold set_cpus; simpl. rewrite list_insert_insert_eq.
    change (inbox_thread (ItemThread x)) with [x] in Eo.
    apply (keeps_upd s t i m me c (wake x (set_inbox c rest))); [done|done|eauto|rewrite wake_occ; lia|].
    intros _ Hq. split_and!; [rewrite wake_occ; lia|by rewrite wake_cslack|by apply Hpop].
  - change (inbox_thread (ItemCmd cmd)) with (@nil Thread) in Eo. rewrite occ_nil in Eo.
    assert (K1 : forall s, keeps s t i m (upd m me (set_inbox c rest))).
    { intros s'. apply (keeps_upd _ _ _ _ _ c); [done|done|eauto|lia|].
      intros _ Hq. split_and!; [lia|done|by apply Hpop]. }
    apply (wp_mono _ _ (fun _ => keeps (s /\ ~ is_kill cmd) t i m)).
    + eapply wp_mono; [apply (wp_seq (s /\ ~ is_kill cmd) t i)|intros ? m' K; exact (transitivity (K1 _) K)].
      * apply wp_handle. tauto.
      * intros _ m2. apply IH.
    + intros _ m'. apply keeps_weaken. intros Hs Hq. split; [done|]. destruct cmd as [| |tid]; auto. intros _.
      apply (Hq _ _ Hc tid). rewrite Ei. by left.
Qed.

Lemma wp_drain s h t i max me m : wp (drain_inbox_into_ready h max me) m (fun _ => keeps s t i m).
Proof. apply wp_seq; [apply wp_drain_loop|]. intros n m1. apply wp_when, wp_flag. Qed.

(** *** Migration *)

Lemma cslack_rq c k : cslack (set_rq c (wrap32 (c_rq c + k))) = (cslack c + k) mod 2 ^ 32.
Proof.
  unfold cslack, wrap32. change (load (set_rq c _)) with (load c). cpu_simpl.
  rewrite Zminus_mod_idemp_l, Z.add_mod_idemp_l by lia. f_equal. lia.
Qed.
Lemma cslack_load c c' k : c_rq c' = c_rq c -> load c' = load c - k -> cslack c' = (cslack c + k) mod 2 ^ 32.
Proof. unfold cslack. intros -> ->. rewrite Z.add_mod_idemp_l by lia. f_equal. lia. Qed.

Lemma wp_dec s t i me m :
  wp (dec_rq_len me) m (fun _ m' => stable m m' /\ flow s t i 0 (at_core i me (-1)) m m').
Proof.
  apply wp_modify. intros c Hc. split; [apply (stable_upd _ _ c); eauto|].
  apply (flow_upd _ _ _ _ _ c); [done|change (cpu_occ t (set_rq c _)) with (cpu_occ t c); lia|].
  intros _ Hq. split_and!; [change (cpu_occ t (set_rq c _)) with (cpu_occ t c); lia|apply (cslack_rq c (-1))|done].
Qed.

Lemma wp_pop_last s t i me m :
  wp (pop_last me) m (fun o m' =>
    match o with
    | None => m' = m
    | Some x => stable m m' /\ flow s t i (- Z.of_nat (occ t [x])) (at_core i me 1) m m'
    end).
Proof.
  apply wp_bind, wp_cpu. intros c Hc. destruct (c_ready c) as [|x q] eqn:E; [by apply wp_ret|].
  apply wp_bind, wp_modify. intros c' [= <-]%(eq_trans (eq_sym Hc)). apply wp_ret.
  split; [apply (stable_upd _ _ c); eauto|].
  pose proof (set_ready_occ t c q) as Ho. rewrite E, (occ_cons t x q) in Ho.
  apply (flow_upd _ _ _ _ _ c); [done|lia|]. intros _ Hq. split_and!; [lia| |done].
  apply cslack_load; [done|]. unfold load, running. rewrite E. cpu_simpl. simpl. lia.
Qed.

Lemma wp_send_thread s t i target x m :
  wp (schedule_on target (ItemThread x)) m (fun ok m' =>
    stable m m' /\ flow s t i (if ok : bool then Z.of_nat (occ t [x]) else 0) 0 m m').
Proof.
  apply wp_bind, wp_bind, wp_cpu. intros c Hc. case_decide; [|by repeat apply wp_ret; split; [done|apply flow_refl]].
  apply wp_bind, wp_modify. intros c' [= <-]%(eq_trans (eq_sym Hc)). apply wp_ret.
  fold (upd m target (set_inbox c (c_inbox c ++ [ItemThread x]))).
  apply wp_bind. eapply wp_mono; [apply (wp_ipi s t i)|]. intros [] m' [S2 F2]. apply wp_ret. split.
  { refine (transitivity _ S2). apply (stable_upd _ _ c); eauto. }
  assert (E : cpu_occ t (set_inbox c (c_inbox c ++ [ItemThread x])) = (cpu_occ t c + occ t [x])%nat).
  { unfold cpu_occ, running. cpu_simpl. rewrite bind_app, occ_app. simpl. lia. }
  eapply flow_eq; [..|eapply flow_trans; [eapply (flow_upd s t i m target c _ (Z.of_nat (occ t [x])) 0)|exact F2]];
    [lia|unfold at_core; case_decide; lia|done|lia|].
  intros _ Hq. split_and!; [lia|by rewrite cslack_0|].
  intros tid. cpu_simpl. rewrite elem_of_app, list_elem_of_singleton. intros [?|[=]]. by eapply Hq.
Qed.

Lemma wp_drop_thread s t i x m :
  wp (drop_thread x) m (fun _ m' => stable m m' /\ flow s t i (Z.of_nat (occ t [x])) 0 m m').
Proof.
  intros [] m' [= <-]. split; [by split|].
  destruct (flow_refl s t i m) as [A B].
  split; unfold total, places in *; simpl; rewrite (occ_cons t x); [lia|].
  intros Hs Hq. destruct (B Hs Hq) as (? & ? & ? & ?). split_and!; [lia|done..].
Qed.

Lemma wp_migrate s t i me target n m : wp (migrate me target n) m (fun _ => keeps s t i m).
Proof.
  revert m. induction n as [|n IH]; intros m; simpl; [apply wp_skip|].
  apply wp_bind. eapply wp_mono; [apply (wp_pop_last s t i)|]. intros [x|] m1; [intros [S1 F1]|intros ->; apply IH].
  apply wp_bind. eapply wp_mono; [apply (wp_dec s t i)|]. intros _ m2 [S2 F2].
  apply wp_bind. eapply wp_mono; [apply (wp_send_thread s t i)|]. intros ok m3 [S3 F3].
  apply wp_bind. apply (wp_mono _ _ (fun _ m4 => stable m3 m4 /\ flow s t i (if ok then 0 else Z.of_nat (occ t [x])) 0 m3 m4)).
  { destruct ok; [apply wp_ret; split; [done|apply flow_refl]|apply wp_drop_thread]. }
  intros _ m4 [S4 F4]. eapply wp_mono; [apply IH|]. intros ? m5 K. refine (transitivity _ K). split.
  { by rewrite S1, S2, S3. }
  pose proof (flow_trans _ _ _ _ _ _ _ _ _ _ F1 F2) as F. pose proof (flow_trans _ _ _ _ _ _ _ _ _ _ F F3) as F'.
  pose proof (flow_trans _ _ _ _ _ _ _ _ _ _ F' F4) as F''. revert F''.
  apply flow_eq; [destruct ok; lia|unfold at_core; case_decide; lia].
Qed.

(** Reading the load of the cores. *)
Definition reads {A} (e : M A) : Prop := forall m a m', e m = Ret (a, m') -> m' = m.
Lemma wp_reads {A} s t i (e : M A) m : reads e -> wp e m (fun _ => keeps s t i m).
Proof. intros H a m' E. by rewrite (H _ _ _ E). Qed.
Lemma reads_ret {A} (a : A) : reads (mret a).
Proof. by intros m b m' [= <- <-]. Qed.
Lemma reads_bind {A B} (e : M A) (k : A -> M B) : reads e -> (forall a, reads (k a)) -> reads (e ≫= k).
Proof.
  intros H1 H2 m b m'. unfold mbind, M_bind. destruct (e m) as [[a m1]|] eqn:E; [|done].
  intros E2. rewrite (H2 _ _ _ _ E2). by eapply H1.
Qed.
Lemma reads_cpu id : reads (per_cpu_ref id).
Proof. intros m a m'. unfold per_cpu_ref. case_match; by intros [= <- <-]. Qed.
Lemma reads_gets {A} (f : Machine -> A) : reads (gets f).
Proof. by intros m a m' [= <- <-]. Qed.
Lemma reads_panic {A} msg : reads (@panic A msg).
Proof. by intros m a m' [=]. Qed.
Lemma reads_rq id : reads (read_rq_len_remote id).
Proof. apply reads_bind; [apply reads_cpu|]. intros c. apply reads_ret. Qed.
#[export] Hint Resolve reads_ret reads_bind reads_cpu reads_gets reads_panic reads_rq : d3os.

Lemma reads_sum ids s : reads (sum_rq ids s).
Proof. revert s. induction ids; intros s; simpl; [apply reads_ret|]. apply reads_bind; [apply reads_rq|]. intros rq. case_test; auto with d3os. Qed.
Lemma reads_min ids k z : reads (min_rq ids k z).
Proof. revert k z. induction ids; intros k z; simpl; [apply reads_ret|]. apply reads_bind; [apply reads_rq|]. intros rq. case_test; auto with d3os. Qed.
Lemma reads_max ids k z : reads (max_rq ids k z).
Proof. revert k z. induction ids; intros k z; simpl; [apply reads_ret|]. apply reads_bind; [apply reads_rq|]. intros rq. case_test; auto with d3os. Qed.
#[export] Hint Resolve reads_sum reads_min reads_max : d3os.

Lemma reads_count : reads active_thread_count.
Proof. apply reads_bind; [apply reads_gets|]. intros n. apply reads_bind; [apply reads_sum|]. intros o. apply reads_ret. Qed.
Lemma reads_should_balance me : reads (should_balance_now me).
Proof.
  apply reads_bind; [apply reads_count|]. intros n.
  apply reads_bind; [apply reads_rq|]. intros own. apply reads_bind; [apply reads_gets|]. intros k. simpl.
  case_test; auto with d3os.
Qed.
Ltac reads_seq := repeat (apply reads_bind; [first [apply reads_rq | apply reads_gets | apply reads_min | apply reads_max]|intros ?]).
Lemma reads_less me : reads (find_less_loaded_core me).
Proof. unfold find_less_loaded_core. reads_seq. apply reads_ret. Qed.
Lemma reads_more me : reads (find_more_loaded_core me).
Proof. unfold find_more_loaded_core. reads_seq. apply reads_ret. Qed.

Lemma wp_balance s t i me m : wp (balance_once me) m (fun _ => keeps s t i m).
Proof.
  apply wp_seq; [apply wp_reads, reads_rq|]. intros own m1. case_test; [apply wp_skip|].
  apply wp_seq; [apply wp_reads, reads_less|]. intros [[target tl]|] m2; [|apply wp_skip].
  case_test; [apply wp_migrate|apply wp_skip].
Qed.
