(* ===== verification/SchedRun.v ===== *)
(** * Runs of the scheduler

    The invariants of the machine over all runs: every thread is in one place
    ([thread_in_one_place]), and without [kill], [deblock] and [unblock] the living threads,
    the places and the published lengths agree ([threads_accounted]). *)

From S2P Require Import Prelude Errno Sched SchedProofs.

Open Scope list_scope.
Open Scope Z_scope.

(** ** Switching *)

(** A core has a current thread only after its scheduler was started. *)
Definition currents_ok (m : Machine) : Prop := forall i c x,
  m_cpus m !! i = Some c -> c_current c = Some x -> s_started (c_sched c) = true.

(** The living threads have ids that were given out. *)
Definition alive_old (m : Machine) : Prop := forall t, t ∈ m_alive m -> t < m_next_tid m.

(** What also switches preserve. *)
Record base (m m' : Machine) : Prop := {
  b_next : m_next_tid m' = m_next_tid m;
  b_idle : (c_idle <$> m_cpus m') = (c_idle <$> m_cpus m);
  b_keys : keys_old m -> keys_old m';
  b_alive : alive_old m -> alive_old m';
  b_currents : currents_ok m -> currents_ok m'
}.

#[global] Instance base_preorder : PreOrder base.
Proof.
  split; [by split|]. intros m1 m2 m3 [A1 B1 C1 D1 E1] [A2 B2 C2 D2 E2].
  split; [congruence..|auto|auto|auto].
Qed.

Lemma stable_base m m' : stable m m' -> base m m'.
Proof.
  intros S. assert (Hl : forall i c', m_cpus m' !! i = Some c' -> exists c, m_cpus m !! i = Some c /\ frame c' = frame c).
  { intros i c' Hc'. assert (E : (frame <$> m_cpus m) !! i = Some (frame c')).
    { by rewrite <- (s_frame _ _ S), list_lookup_fmap, Hc'. }
    rewrite list_lookup_fmap in E. destruct (m_cpus m !! i) as [c|]; [|done]. exists c. simpl in E. split; congruence. }
  split; [apply S| |apply S| |].
  - assert (E : (fun f : bool * bool * Thread * option Thread => f.1.2) <$> (frame <$> m_cpus m') =
      (fun f : bool * bool * Thread * option Thread => f.1.2) <$> (frame <$> m_cpus m)) by by rewrite (s_frame _ _ S).
    by rewrite <- !list_fmap_compose in E.
  - intros H t Ht. rewrite (s_next _ _ S). by apply H, (s_alive _ _ S).
  - intros H i c' x Hc' Hx. destruct (Hl i c' Hc') as (c & Hc & Ef). unfold frame in Ef.
    injection Ef as _ -> _ E. apply (H i c x Hc). congruence.
Qed.

Lemma base_upd m me c c' :
  m_cpus m !! me = Some c -> c_idle c' = c_idle c ->
  (forall k l, c_joins c' !! k = Some l -> l <> [] -> exists l', c_joins c !! k = Some l' /\ l' <> []) ->
  (currents_ok m -> forall x, c_current c' = Some x -> s_started (c_sched c') = true) ->
  base m (upd m me c').
Proof.
  intros Hc Hi Hk Hs. split; [done|..|done|].
  - simpl. rewrite list_fmap_insert, Hi, <- (list_fmap_insert c_idle). by rewrite (list_insert_id _ _ _ Hc).
  - intros Hold j x k l Hj Hl Hne. simpl in Hj.
    destruct (insert_cases _ _ _ _ _ _ Hc Hj) as [[-> ->]|[_ ?]]; [|by eapply Hold].
    destruct (Hk k l Hl Hne) as (l' & ? & ?). by eapply (Hold me c k l').
  - intros Hcur j x y Hj Hy. simpl in Hj.
    destruct (insert_cases _ _ _ _ _ _ Hc Hj) as [[-> ->]|[_ ?]]; [by eapply Hs|by eapply Hcur].
Qed.

Lemma wp_and {A} (e : M A) m (P Q : A -> Machine -> Prop) :
  wp e m P -> wp e m Q -> wp e m (fun a m' => P a m' /\ Q a m').
Proof. intros HP HQ a m' E. split; [by apply HP|by apply HQ]. Qed.

Lemma frame_fields c c' : frame c' = frame c ->
  initialized (c_rs c') = initialized (c_rs c) /\ s_started (c_sched c') = s_started (c_sched c) /\
  c_idle c' = c_idle c /\ c_current c' = c_current c /\ running c' = running c.
Proof. unfold frame, running. intros [= -> -> -> ->]. done. Qed.

(** Taking the last thread of the ready queue. *)
Lemma flow_pop s t i m me c x q :
  m_cpus m !! me = Some c -> c_ready c = q ++ [x] ->
  stable m (upd m me (set_ready c q)) /\
  flow s t i (- Z.of_nat (occ t [x])) (at_core i me 1) m (upd m me (set_ready c q)).
Proof.
  intros Hc E. split; [apply (stable_upd _ _ c); eauto|].
  pose proof (set_ready_occ t c q) as Ho. rewrite E, occ_app in Ho.
  apply (flow_upd _ _ _ _ _ c); [done|lia|]. intros _ Hq. split_and!; [lia| |done].
  apply cslack_load; [done|]. unfold load, running. rewrite E, length_app. cpu_simpl. simpl. lia.
Qed.

(** The thread to run next comes from the ready queue, or it is the idle thread. *)
Definition picked (s : Prop) (t : Z) (i me : nat) (m : Machine) (x : Thread) (m1 : Machine) : Prop :=
  stable m m1 /\
  ((flow s t i 0 0 m m1 /\ exists c1, m_cpus m1 !! me = Some c1 /\ x = c_idle c1) \/
   (flow s t i (- Z.of_nat (occ t [x])) (at_core i me 1) m m1 /\
    forall u, (total u m1 + occ u [x] <= total u m)%nat)).

Lemma wp_forall {A B} (e : M A) m (P : B -> A -> Machine -> Prop) :
  (forall b, wp e m (P b)) -> wp e m (fun a m' => forall b, P b a m').
Proof. intros H a m' E b. by apply H. Qed.

Lemma flow_pop_total s t i d e m m' x :
  d = - Z.of_nat (occ t [x]) -> flow s t i d e m m' -> (total t m' + occ t [x] <= total t m)%nat.
Proof. intros -> [A _]. lia. Qed.

Lemma wp_pick s t i env me m : wp (pick_next env me) m (picked s t i me m).
Proof.
  apply wp_bind, wp_bind, wp_cpu. intros c Hc.
  destruct (pop_back (c_ready c)) as [[x q]|] eqn:E.
  - apply wp_bind, wp_modify. intros c' [= <-]%(eq_trans (eq_sym Hc)). do 2 apply wp_ret.
    destruct (flow_pop s t i m me c x q Hc (pop_back_Some _ _ _ E)). split; [done|right]. split; [done|].
    intros u. by eapply flow_pop_total, (flow_pop s u i m me c x q Hc (pop_back_Some _ _ _ E)).
  - apply wp_ret. apply wp_bind, wp_modify. intros c' [= <-]%(eq_trans (eq_sym Hc)).
    pose proof (fun u => keeps_check_sleep s u i (e_time env) me c m Hc) as K1.
    apply wp_bind. eapply wp_mono; [exact (wp_forall _ _ _ (fun u => wp_drain s true u i _ _ _))|]. intros ? m2 K2.
    assert (K : forall u, keeps s u i m m2) by (intros u; exact (transitivity (K1 u) (K2 u))).
    destruct (K t) as [S F]. clear K1 K2.
    apply wp_bind, wp_bind, wp_cpu. intros c2 Hc2.
    destruct (pop_back (c_ready c2)) as [[x q]|] eqn:E2.
    + apply wp_bind, wp_modify. intros c' [= <-]%(eq_trans (eq_sym Hc2)). do 2 apply wp_ret.
      destruct (flow_pop s t i m2 me c2 x q Hc2 (pop_back_Some _ _ _ E2)) as [S3 F3].
      split; [exact (transitivity S S3)|right]. split; [exact (flow_trans _ _ _ _ _ _ _ _ _ _ F F3)|].
      intros u. destruct (flow_pop s u i m2 me c2 x q Hc2 (pop_back_Some _ _ _ E2)) as [_ [A _]].
      destruct (K u) as [_ [B _]]. unfold upd in A. lia.
    + apply wp_ret, wp_bind, wp_cpu. intros c3 Hc3. apply wp_ret. split; [done|left]. split; [done|by exists c3].
Qed.

Lemma running_set_current c x :
  running (set_current c x) = if decide (t_id x = t_id (c_idle c)) then [] else [x].
Proof. done. Qed.
Lemma set_current_occ t c x :
  (cpu_occ t (set_current c x) + occ t (running c) =
   cpu_occ t c + occ t (if decide (t_id x = t_id (c_idle c)) then [] else [x]))%nat.
Proof. unfold cpu_occ, running at 1. cpu_simpl. lia. Qed.

(** Making another thread the current one. *)
Lemma flow_set_current (s : Prop) t i m me c cur x :
  m_cpus m !! me = Some c -> c_current c = Some cur -> t_id cur <> t_id (c_idle c) ->
  let idle := bool_decide (t_id x = t_id (c_idle c)) in
  flow s t i ((if idle then 0 else Z.of_nat (occ t [x])) - Z.of_nat (occ t [cur]))
    (at_core i me (if idle then 1 else 0)) m (upd m me (set_current c x)).
Proof.
  intros Hc Hcur Hne idle. pose proof (set_current_occ t c x) as Ho.
  assert (Hr : running c = [cur]) by (unfold running; by rewrite Hcur, decide_False). rewrite Hr in Ho.
  assert (Hd : Z.of_nat (cpu_occ t (set_current c x)) =
    Z.of_nat (cpu_occ t c) + ((if idle then 0 else Z.of_nat (occ t [x])) - Z.of_nat (occ t [cur]))).
  { unfold idle. case_decide; case_bool_decide; try done; rewrite ?occ_nil in Ho; lia. }
  apply (flow_upd _ _ _ _ _ c); [done|lia|]. intros _ Hq. split_and!; [lia| |done].
  apply cslack_load; [done|]. unfold load. change (c_ready (set_current c x)) with (c_ready c).
  rewrite Hr, running_set_current. unfold idle. case_decide; case_bool_decide; simpl; try done; lia.
Qed.

Lemma wp_block (s : Prop) t i env me m c cur :
  m_cpus m !! me = Some c -> c_current c = Some cur -> t_id cur <> t_id (c_idle c) ->
  wp (block_and_switch env me) m (fun _ m' => base m m' /\
    flow (s /\ total (t_id (c_idle c)) m = 0%nat) t i (- Z.of_nat (occ t [cur])) (at_core i me 1) m m').
Proof.
  intros Hc Hcur Hne. set (s' := s /\ total (t_id (c_idle c)) m = 0%nat).
  apply wp_bind. eapply wp_mono; [apply (wp_pick s' t i env me m)|].
  intros x m1 [S Hp]. destruct (stable_lookup _ _ _ _ S Hc) as (c1 & Hc1 & Ef).
  destruct (frame_fields _ _ Ef) as (_ & _ & Eidle & Ecur & _). rewrite Hcur in Ecur.
  apply wp_bind, wp_current. intros c2 t2 Hc2 Ht2. rewrite Hc1 in Hc2. injection Hc2 as <-.
  rewrite Ecur in Ht2. injection Ht2 as <-. rename Ecur into Ht2. case_test.
  - apply wp_ret. split; [by apply stable_base|]. destruct Hp as [[F (c2 & ? & ->)]|[F _]]; [simplify_eq; congruence|].
    by rewrite (occ_same t cur x).
  - apply wp_bind, wp_modify. intros c2 [= <-]%(eq_trans (eq_sym Hc1)). apply wp_ret.
    fold (upd m1 me (set_current c1 x)). split.
    { etrans; [by apply stable_base|]. apply (base_upd _ _ c1); [done|done|eauto|].
      intros H y _. exact (H me c1 cur Hc1 Ht2). }
    assert (Hne1 : t_id cur <> t_id (c_idle c1)) by congruence.
    pose proof (flow_set_current s' t i m1 me c1 cur x Hc1 Ht2 Hne1) as F2. simpl in F2.
    destruct Hp as [[F (c2 & ? & ->)]|[F Hx]].
    + simplify_eq. rewrite bool_decide_true in F2 by done.
      pose proof (flow_trans _ _ _ _ _ _ _ _ _ _ F F2) as F'. revert F'. apply flow_eq; lia.
    + pose proof (flow_trans _ _ _ _ _ _ _ _ _ _ F F2) as F'. case_bool_decide as Hid.
      * destruct F' as [A _]. split; [lia|]. intros [_ Hz] _. exfalso.
        specialize (Hx (t_id x)). rewrite occ_self, Hid, Eidle in Hx. lia.
      * revert F'. apply flow_eq; [lia|]. unfold at_core. case_decide; lia.
Qed.

(** ** The calls *)

Definition idles_ok (m : Machine) : Prop := forall i c,
  m_cpus m !! i = Some c -> total (t_id (c_idle c)) m = 0%nat.

(** A thread leaves the core. *)
Lemma wp_depart {A} (s : Prop) t i env me m c cur (k : bool -> M A) Q :
  m_cpus m !! me = Some c -> c_current c = Some cur -> t_id cur <> t_id (c_idle c) ->
  (s -> total (t_id (c_idle c)) m = 0%nat) ->
  (forall r m', base m m' -> flow s t i (- Z.of_nat (occ t [cur])) 0 m m' -> wp (k r) m' Q) ->
  wp (dec_rq_len me ;; block_and_switch env me ≫= k) m Q.
Proof.
  intros Hc Hcur Hne Hz Hk.
  apply wp_bind. eapply wp_mono; [exact (wp_forall _ _ _ (fun u => wp_dec s u i me _))|].
  intros ? m2 F2. destruct (F2 t) as [S2 F2t].
  destruct (stable_lookup _ _ _ _ S2 Hc) as (c2 & Hc2 & Ef). destruct (frame_fields _ _ Ef) as (_ & _ & Eid & Ecur & _).
  apply wp_bind.
  eapply wp_mono; [apply (wp_block s t i env me m2 c2 cur); [done|congruence|congruence]|].
  intros r m3 [B3 F3]. apply Hk; [by etrans; [apply stable_base|]|].
  eapply flow_eq; [..|eapply flow_trans; [exact F2t|eapply flow_weaken; [|exact F3]]];
    [lia|unfold at_core; case_decide; lia|].
  intros Hs _. split; [done|]. rewrite Eid. destruct (F2 (t_id (c_idle c))) as [_ [HA _]]. rewrite (Hz Hs) in HA. lia.
Qed.

(** A thread puts itself into a list and leaves the core. *)
Lemma wp_leave {A} t i env me m c cur f (k : bool -> M A) Q :
  m_cpus m !! me = Some c -> c_current c = Some cur -> t_id cur <> t_id (c_idle c) ->
  stable m (upd m me (f c)) ->
  (forall u, cpu_occ u (f c) = (cpu_occ u c + occ u [cur])%nat) ->
  cslack (f c) = cslack c -> c_inbox (f c) = c_inbox c ->
  (forall r m', base m m' -> flow (idles_ok m) t i 0 0 m m' -> wp (k r) m' Q) ->
  wp (modify_cpu me f ;; dec_rq_len me ;; block_and_switch env me ≫= k) m Q.
Proof.
  intros Hc Hcur Hne S1 Ho Es Ei Hk.
  assert (F1 : forall u, flow (idles_ok m) u i (Z.of_nat (occ u [cur])) 0 m (upd m me (f c))).
  { intros u. specialize (Ho u). eapply flow_eq; [..|eapply (flow_upd _ _ i _ me c _ _ 0)];
      [reflexivity|unfold at_core; by case_decide|done|lia|]. intros _ Hq.
    split_and!; [lia|by rewrite Es, cslack_0|by apply (cquiet_inbox c)]. }
  apply wp_bind, wp_modify. intros c' [= <-]%(eq_trans (eq_sym Hc)). fold (upd m me (f c)).
  destruct (stable_lookup _ _ _ _ S1 Hc) as (c2 & Hc2 & Ef). destruct (frame_fields _ _ Ef) as (_ & _ & Eid & Ecur & _).
  apply (wp_depart (idles_ok m) t i env me _ c2 cur); [done|congruence|congruence|..].
  - intros H. destruct (F1 (t_id (c_idle c2))) as [HA _]. rewrite Eid in *.
    rewrite (H me c Hc), (occ_other _ cur) in HA by congruence. lia.
  - intros r m' B F. apply Hk; [by etrans; [apply stable_base|]|].
    eapply flow_eq; [..|exact (flow_trans _ _ _ _ _ _ _ _ _ _ (F1 t) F)]; lia.
Qed.

Lemma runs_thread_current m me (Q : Thread -> Machine -> Prop) :
  runs_thread m me ->
  (forall c cur, m_cpus m !! me = Some c -> c_current c = Some cur -> t_id cur <> t_id (c_idle c) -> Q cur m) ->
  wp (current me) m Q.
Proof. intros (c & x & Hc & Hx & Hne) H. apply wp_current. intros c' y Hc' Hy. apply (H c'); congruence. Qed.

Definition call_ok (s : Prop) (t : Z) (i : nat) (m m' : Machine) : Prop :=
  base m m' /\ flow (s /\ idles_ok m) t i 0 0 m m'.

Lemma call_ok_keeps (s : Prop) t i m m' : keeps s t i m m' -> call_ok s t i m m'.
Proof. intros [S F]. split; [by apply stable_base|]. by apply (flow_weaken s); [intros []|]. Qed.

Lemma call_ok_leave (s : Prop) t i m m' : base m m' /\ flow (idles_ok m) t i 0 0 m m' -> call_ok s t i m m'.
Proof. intros [B F]. split; [done|]. by apply (flow_weaken (idles_ok m)); [intros []|]. Qed.

Lemma wp_sleep t i env me ms m :
  runs_thread m me -> wp (sleep env me ms) m (fun _ => call_ok True t i m).
Proof.
  intros Hr. apply wp_bind, wp_cpu. intros c Hc. destruct (initialized (c_rs c)); simpl.
  2:{ apply wp_ret. by apply call_ok_keeps. }
  apply wp_bind, runs_thread_current; [done|]. intros c' cur [= <-]%(eq_trans (eq_sym Hc)) Hcur Hne.
  destruct (checked_add (e_time env) ms) as [w|]; [|apply wp_panic].
  apply (wp_leave t i env me m c cur); [done|done|done| |..].
  - apply (stable_upd _ _ c); eauto.
  - intros u. pose proof (set_sleep_occ u c (c_sleep c ++ [(cur, w)])) as H.
    rewrite fmap_app, occ_app in H. simpl in H. lia.
  - done.
  - done.
  - intros _ m' B F. apply wp_ret. by apply call_ok_leave.
Qed.

Lemma wp_block_call t i env me m :
  runs_thread m me -> wp (block env me) m (fun _ => call_ok True t i m).
Proof.
  intros Hr. apply wp_bind, wp_cpu. intros c Hc. destruct (initialized (c_rs c)); simpl; [|apply wp_panic].
  apply wp_bind, runs_thread_current; [done|]. intros c' cur [= <-]%(eq_trans (eq_sym Hc)) Hcur Hne.
  apply (wp_leave t i env me m c cur); [done|done|done| |..].
  - apply (stable_upd _ _ c); eauto.
  - intros u. pose proof (set_blocked_occ u c (c_blocked c ++ [cur])) as H. rewrite occ_app in H. lia.
  - done.
  - done.
  - intros _ m' B F. apply wp_ret. by apply call_ok_leave.
Qed.

Lemma wp_join t i env me tid m :
  runs_thread m me -> alive_old m -> wp (join env me tid) m (fun _ => call_ok True t i m).
Proof.
  intros Hr Hold. apply wp_bind. intros alive m1 [= <- <-]. case_bool_decide as Hal; simpl.
  2:{ apply wp_ret. by apply call_ok_keeps. }
  apply wp_bind, runs_thread_current; [done|]. intros c cur Hc Hcur Hne.
  apply (wp_leave t i env me m c cur); [done|done|done| |..].
  - split; [done| | |done].
    + simpl. rewrite list_fmap_insert. change (frame (set_joins c _)) with (frame c).
      rewrite <- (list_fmap_insert frame). by rewrite (list_insert_id _ _ _ Hc).
    + intros Hk j x k l Hj Hl Hne'. simpl in Hj.
      destruct (insert_cases _ _ _ _ _ _ Hc Hj) as [[-> ->]|[_ ?]]; [|by eapply Hk].
      change (c_joins (set_joins c ?j)) with j in Hl.
      apply lookup_insert_Some in Hl as [[<- _]|[_ Hl]]; [by apply Hold|by eapply (Hk me c k l)].
  - intros u. pose proof (set_joins_occ u c (<[tid := default [] (c_joins c !! tid) ++ [cur]]> (c_joins c))) as H.
    pose proof (occ_joined_upsert u (c_joins c) tid (default [] (c_joins c !! tid) ++ [cur])) as H'.
    rewrite occ_app in H'. lia.
  - done.
  - done.
  - intros _ m' B F. apply wp_ret. by apply call_ok_leave.
Qed.

Definition set_alive (m : Machine) (a : gset Z) : Machine :=
  mkMachine (m_cpus m) a (m_states m) (m_next_tid m) (m_eois m) (m_ipis m) (m_dropped m).

Lemma wp_exit t i env me m :
  runs_thread m me ->
  wp (exit env me) m (fun _ m' => base m m' /\ exists c cur, m_cpus m !! me = Some c /\ c_current c = Some cur /\
    t_id cur <> t_id (c_idle c) /\
    flow (idles_ok m) t i (- Z.of_nat (occ t [cur])) 0 (set_alive m (m_alive m ∖ {[ t_id cur ]})) m').
Proof.
  intros Hr. apply wp_bind, runs_thread_current; [done|]. intros c cur Hc Hcur Hne.
  set (m1 := set_alive m (m_alive m ∖ {[ t_id cur ]})).
  assert (S1 : stable m m1) by (split; [done|done|done|intros z [? _]%elem_of_difference; done]).
  apply wp_bind. intros [] m' [= <-]. fold m1.
  apply wp_bind. eapply wp_mono; [exact (wp_forall _ _ _ (fun u => wp_unjoin (idles_ok m) u i me (t_id cur) m1))|].
  intros ? m2 K2. destruct (K2 t) as [S2 F2]. pose proof (transitivity S1 S2) as S.
  destruct (stable_lookup _ _ _ _ S Hc) as (c2 & Hc2 & Ef). destruct (frame_fields _ _ Ef) as (_ & _ & Eid & Ecur & _).
  apply (wp_depart (idles_ok m) t i env me _ c2 cur); [done|congruence|congruence|..].
  - intros H. destruct (K2 (t_id (c_idle c2))) as [_ [HA _]]. rewrite Eid in *.
    change (total (t_id (c_idle c)) m1) with (total (t_id (c_idle c)) m) in HA. rewrite (H me c Hc) in HA. lia.
  - intros [] m' B F; [apply wp_panic|apply wp_ret]. split; [by etrans; [apply stable_base|]|].
    exists c, cur. split_and!; [done|done|done|].
    eapply flow_eq; [..|exact (flow_trans _ _ _ _ _ _ _ _ _ _ F2 F)]; lia.
Qed.

Lemma wp_kill_call t i me tid m : wp (kill me tid) m (fun _ => keeps False t i m).
Proof.
  apply wp_seq; [apply wp_current_keeps|]. intros x m1. case_test; [apply wp_panic|].
  apply wp_seq; [apply wp_kill_locally|]. intros [] m2; [apply wp_skip|by apply wp_broadcast_keeps].
Qed.

Lemma wp_unblock_call t i me pid tid m : wp (unblock me pid tid) m (fun _ => keeps False t i m).
Proof.
  apply wp_bind, wp_cpu. intros c Hc. destruct (find_thread pid tid (c_blocked c)) as [[pos x]|] eqn:E.
  - apply find_thread_lookup in E. apply wp_bind, wp_modify. intros c' [= <-]%(eq_trans (eq_sym Hc)).
    apply wp_bind. intros [] m1 [= <-]. apply wp_bind, wp_modify. intros c1 Hc1. simpl in Hc1.
    rewrite list_lookup_insert_eq in Hc1 by (by apply lookup_lt_Some in Hc). injection Hc1 as <-.
    apply wp_ret. unfold set_cpus; simpl. rewrite list_insert_insert_eq.
    eapply (transitivity (y := upd m me (push_front x (set_blocked c (delete pos (c_blocked c))))));
      [|by apply keeps_same_cpus].
    apply (keeps_upd _ _ _ _ _ c); [done|done|eauto|pose proof (unblock_occ t _ _ _ E)|done].
    change (cpu_occ t (push_front x ?c)) with (cpu_occ t (wake x c)). lia.
  - destruct (c_current c) as [cur|]; [|apply wp_skip]. case_test.
    + apply wp_seq; [apply wp_set_state|]. intros _ m1. apply wp_skip.
    + destruct (find_thread pid tid (c_ready c)); [|apply wp_skip].
      apply wp_seq; [apply wp_set_state|]. intros _ m1. apply wp_skip.
Qed.

Lemma wp_ready t i me x m :
  wp (ready me x) m (fun _ m' => exists c, m_cpus m !! me = Some c /\
    let m1 := set_alive m ({[ t_id x ]} ∪ m_alive m) in
    stable m1 m' /\ flow (default [] (c_joins c !! t_id x) = []) t i (Z.of_nat (occ t [x])) 0 m1 m').
Proof.
  apply wp_bind. intros [] m1 [= <-]. fold (set_alive m ({[ t_id x ]} ∪ m_alive m)).
  apply wp_bind, wp_modify. intros c Hc. simpl in Hc. pose proof (lookup_lt_Some _ _ _ Hc) as Hlt.
  apply wp_bind, wp_modify. intros c1 Hc1. simpl in Hc1. rewrite list_lookup_insert_eq in Hc1 by done. injection Hc1 as <-.
  apply wp_modify. intros c1 Hc1. simpl in Hc1.
  rewrite list_insert_insert_eq, list_lookup_insert_eq in Hc1 by done. injection Hc1 as <-.
  exists c. split; [done|]. unfold set_cpus; simpl. rewrite !list_insert_insert_eq.
  set (c' := set_joins (wake x c) (<[t_id x := []]> (c_joins c))).
  set (m1 := set_alive m ({[ t_id x ]} ∪ m_alive m)).
  change (stable m1 (upd m1 me c') /\ flow (default [] (c_joins c !! t_id x) = []) t i (Z.of_nat (occ t [x])) 0 m1 (upd m1 me c')).
  assert (Ho : (cpu_occ t c' + occ t (default [] (c_joins c !! t_id x)) = cpu_occ t c + occ t [x])%nat).
  { pose proof (set_joins_occ t (wake x c) (<[t_id x := []]> (c_joins c))) as H.
    pose proof (occ_joined_upsert t (c_joins c) (t_id x) []) as H'. rewrite wake_occ in H.
    change (c_joins (wake x c)) with (c_joins c) in H. rewrite occ_nil in H'. fold c' in H. lia. }
  split.
  - apply (stable_upd _ _ c); [done|done|]. intros k l. change (c_joins c') with (<[t_id x := []]> (c_joins c)).
    intros [[_ <-]|[_ ?]]%lookup_insert_Some; eauto. done.
  - eapply flow_eq; [..|eapply (flow_upd _ _ i _ me c _ _ 0)]; [reflexivity|unfold at_core; by case_decide|done|lia|].
    intros Hd Hq. rewrite Hd, occ_nil in Ho. split_and!; [lia| |done].
    rewrite cslack_0. change (cslack c') with (cslack (wake x c)). apply wake_cslack.
Qed.

Lemma stable_alive_base m a m' :
  (alive_old m -> forall t, t ∈ a -> t < m_next_tid m) -> stable (set_alive m a) m' -> base m m'.
Proof.
  intros Ha S%stable_base. destruct S as [A B C D E]. split; [done|done|done| |done].
  intros H. apply D. intros t Ht. by apply Ha.
Qed.

Definition placed_old (m : Machine) : Prop := forall t, (0 < total t m)%nat -> t < m_next_tid m.

Lemma wp_deblock t i me pid tid m :
  placed_old m -> wp (deblock me pid tid) m (fun _ => call_ok False t i m).
Proof.
  intros Hp. apply wp_bind, wp_cpu. intros c Hc. destruct (find_thread pid tid (c_blocked c)) as [[pos x]|] eqn:E.
  2:{ eapply wp_mono; [apply (wp_broadcast_keeps False t i); tauto|]. intros ? m'. apply call_ok_keeps. }
  apply find_thread_lookup in E. pose proof (delete_occ t _ _ _ E) as Hd.
  pose proof (set_blocked_occ t c (delete pos (c_blocked c))) as Hb.
  apply wp_bind, wp_modify. intros c' [= <-]%(eq_trans (eq_sym Hc)).
  set (c1 := set_blocked c (delete pos (c_blocked c))) in *. fold (upd m me c1).
  eapply wp_mono; [apply (wp_ready t i)|]. intros ? m' (c2 & Hc2 & S & F). simpl in S, F.
  assert (Hx : t_id x < m_next_tid m).
  { apply Hp. unfold total. pose proof (places_elem (t_id x) m me c Hc).
    pose proof (occ_elem x (c_blocked c) (list_elem_of_lookup_2 _ _ _ E)). unfold cpu_occ in *. lia. }
  split.
  - apply (stable_alive_base (upd m me c1)) in S.
    + refine (transitivity _ S). apply stable_base, (stable_upd _ _ c); eauto.
    + intros H u [->%elem_of_singleton|Hu]%elem_of_union; [done|by apply H].
  - destruct F as [A _]. split; [|tauto]. pose proof (places_insert t m me c c1 Hc) as Hpl.
    change (total t (set_alive ?m ?a)) with (total t m) in A. unfold total in *. simpl in *. unfold upd in A. lia.
Qed.

Lemma wp_spawn t i me pid m :
  0 <= m_next_tid m < U64_MAX ->
  wp (x ← new_thread pid; ready me x) m (fun _ m' =>
    m_next_tid m' = m_next_tid m + 1 /\ (c_idle <$> m_cpus m') = (c_idle <$> m_cpus m) /\
    (keys_old m -> keys_old m') /\ (alive_old m -> alive_old m') /\ (currents_ok m -> currents_ok m') /\
    flow (keys_old m) t i (if decide (t = m_next_tid m) then 1 else 0) 0
      (set_alive m ({[ m_next_tid m ]} ∪ m_alive m)) m').
Proof.
  intros Hn. apply wp_bind. set (x := mkThread (m_next_tid m) pid).
  intros y m1 [= <- <-]. eapply wp_mono; [apply (wp_ready t i)|]. intros ? m' (c & Hc & S & F). simpl in Hc.
  assert (En : wrap64 (m_next_tid m + 1) = m_next_tid m + 1) by (apply Z.mod_small; unfold U64_MAX in *; lia).
  pose proof (stable_base _ _ S) as [B1 B2 B3 B4 B5]. simpl in *. rewrite En in *. split_and!; [done|done|..|done|].
  - intros H. apply B3. intros j c' k l Hc' Hk Hl. simpl. specialize (H j c' k l Hc' Hk Hl). lia.
  - intros H. apply B4. intros u [->%elem_of_singleton|Hu]%elem_of_union; simpl; [lia|]. specialize (H u Hu). lia.
  - destruct F as [A B]. change (total t (set_alive ?m _)) with (total t m) in *.
    assert (Hocc : Z.of_nat (occ t [x]) = if decide (t = m_next_tid m) then 1 else 0).
    { case_decide as Ht; [rewrite Ht; apply (f_equal Z.of_nat (occ_self x))|by rewrite (occ_other t x)]. }
    split; [rewrite <- Hocc; exact A|]. intros Hk Hq. rewrite <- Hocc. apply B; [|done].
    destruct (c_joins c !! m_next_tid m) as [[|z l]|] eqn:El; [done| |done].
    specialize (Hk me c _ _ Hc El ltac:(done)). lia.
Qed.

Lemma wp_prepare s t i env me m : wp (prepare_switch env me) m (fun _ => keeps s t i m).
Proof.
  apply wp_seq.
  { apply wp_when, wp_modify. intros c Hc. by apply keeps_check_sleep. }
  intros _ m1. apply wp_seq; [apply wp_drain|]. intros _ m2.
  apply wp_seq; [apply wp_reads; apply reads_bind; [apply reads_cpu|intros; apply reads_ret]|]. intros flag m3.
  apply wp_seq; [destruct flag; [apply wp_skip|apply wp_reads, reads_should_balance]|]. intros over m4.
  apply wp_when, wp_balance.
Qed.

(** The core after a switch to the last thread of the ready queue. *)
Definition switched (c : Cpu) (cur next : Thread) (q : list Thread) : Cpu :=
  let c' := set_current (set_ready c q) next in
  if t_id cur =? t_id (c_idle c) then c' else push_front cur c'.

Lemma switched_occ u c cur next q :
  c_current c = Some cur -> c_ready c = q ++ [next] ->
  (cpu_occ u (switched c cur next q) <= cpu_occ u c)%nat /\
  (t_id next <> t_id (c_idle c) ->
    cpu_occ u (switched c cur next q) = cpu_occ u c /\ cslack (switched c cur next q) = cslack c).
Proof.
  intros Hcur Hq. unfold switched.
  pose proof (set_ready_occ u c q) as H1. rewrite Hq, occ_app in H1.
  pose proof (set_current_occ u (set_ready c q) next) as H2.
  change (running (set_ready c q)) with (running c) in H2. change (c_idle (set_ready c q)) with (c_idle c) in H2.
  assert (Hr : running c = if decide (t_id cur = t_id (c_idle c)) then [] else [cur]) by (unfold running; by rewrite Hcur).
  rewrite Hr in H2. set (c' := set_current (set_ready c q) next) in *.
  assert (H3 : cpu_occ u (push_front cur c') = (occ u [cur] + cpu_occ u c')%nat) by apply wake_occ.
  destruct (Z.eqb_spec (t_id cur) (t_id (c_idle c))) as [Hi|Hi]; [rewrite (decide_True _ _ Hi) in *|rewrite (decide_False _ _ Hi) in *];
    (split; [rewrite ?occ_nil in *; case_decide; rewrite ?occ_nil in *; lia|intros Hn; rewrite (decide_False _ _ Hn) in H2; rewrite ?occ_nil in *; split; [lia|]]);
    apply cslack_eq; unfold load; rewrite Hr, Hq, length_app; unfold c', running; cpu_simpl; rewrite decide_False by done; simpl; lia.
Qed.

Lemma switched_idle_occ u c cur :
  c_current c = Some cur -> c_ready c = [] -> t_id cur <> t_id (c_idle c) ->
  cpu_occ u (push_front cur (set_current c (c_idle c))) = cpu_occ u c /\
  cslack (push_front cur (set_current c (c_idle c))) = cslack c.
Proof.
  intros Hcur Hq Hi. assert (Hr : running c = [cur]) by (unfold running; by rewrite Hcur, decide_False).
  pose proof (set_current_occ u c (c_idle c)) as H2. rewrite Hr, (decide_True _ _ eq_refl), occ_nil in H2.
  assert (H3 : cpu_occ u (push_front cur (set_current c (c_idle c))) = (occ u [cur] + cpu_occ u (set_current c (c_idle c)))%nat)
    by apply wake_occ.
  split; [lia|]. apply cslack_eq. unfold load. rewrite Hr, Hq. unfold running. cpu_simpl. rewrite decide_True by done. simpl.
  change (ready_queue (ready_state (c_sched c))) with (c_ready c). rewrite Hq. simpl. lia.
Qed.

(** Replacing a core without winning or losing a thread, possibly with another current thread. *)
Lemma call_ok_upd (s : Prop) t i m me c c' :
  m_cpus m !! me = Some c -> c_idle c' = c_idle c -> c_joins c' = c_joins c -> c_inbox c' = c_inbox c ->
  (currents_ok m -> forall x, c_current c' = Some x -> s_started (c_sched c') = true) ->
  (cpu_occ t c' <= cpu_occ t c)%nat ->
  (s -> idles_ok m -> cpu_occ t c' = cpu_occ t c /\ cslack c' = cslack c) ->
  call_ok s t i m (upd m me c').
Proof.
  intros Hc Hi Hj Hb Hs Ho Hq. split.
  - apply (base_upd _ _ c); [done|done|rewrite Hj; eauto|done].
  - eapply flow_eq; [..|eapply (flow_upd _ _ i _ me c _ 0 0)]; [reflexivity|unfold at_core; by case_decide|done|lia|].
    intros [HS Hid] Hquiet. destruct (Hq HS Hid) as [-> ->].
    split_and!; [lia|by rewrite cslack_0|by apply (cquiet_inbox c)].
Qed.

Lemma call_ok_trans (s : Prop) t i m1 m2 m3 :
  (forall u, keeps s u i m1 m2) -> call_ok s t i m2 m3 -> call_ok s t i m1 m3.
Proof.
  intros K [B2 F2]. destruct (K t) as [S1 F1]. split; [by etrans; [apply stable_base|]|].
  assert (Hid : idles_ok m1 -> idles_ok m2).
  { intros H j c Hc. pose proof (b_idle _ _ (stable_base _ _ S1)) as E.
    assert (E' : (c_idle <$> m_cpus m1) !! j = Some (c_idle c)) by by rewrite <- E, list_lookup_fmap, Hc.
    rewrite list_lookup_fmap in E'. destruct (m_cpus m1 !! j) as [c1|] eqn:Hc1; [|done]. injection E' as <-.
    destruct (K (t_id (c_idle c1))) as [_ [A _]]. rewrite (H _ _ Hc1) in A. lia. }
  eapply flow_eq; [..|eapply (flow_trans (s /\ idles_ok m1)); [eapply flow_weaken; [|exact F1]|eapply flow_weaken; [|exact F2]]];
    [lia|lia|tauto|tauto].
Qed.

Lemma call_ok_then (s : Prop) t i m1 m2 m3 :
  call_ok s t i m1 m2 -> (forall u, keeps s u i m2 m3) -> call_ok s t i m1 m3.
Proof.
  intros [B1 F1] K. destruct (K t) as [S2 F2]. split; [by etrans; [|apply stable_base]|].
  eapply flow_eq; [..|eapply (flow_trans (s /\ idles_ok m1)); [exact F1|eapply flow_weaken; [|exact F2]]];
    [lia|lia|tauto].
Qed.

Lemma wp_when_eoi (s : Prop) t i b m0 m :
  call_ok s t i m0 m -> wp (when b end_of_interrupt) m (fun _ => call_ok s t i m0).
Proof.
  intros H. eapply wp_mono; [exact (wp_forall _ _ _ (fun u => wp_when s u i b _ _ (wp_eoi s u i m)))|].
  intros ? m' K. by apply (call_ok_then _ _ _ _ m).
Qed.

Lemma wp_eoi_cpus (s : Prop) i b m :
  wp (when b end_of_interrupt) m (fun _ m' => m_cpus m' = m_cpus m /\ forall u, keeps s u i m m').
Proof.
  destruct b; simpl; [|by apply wp_ret]. intros [] m' [= <-]. split; [done|]. intros u. by apply keeps_same_cpus.
Qed.

Lemma idle_not_ready m me c x :
  idles_ok m -> m_cpus m !! me = Some c -> x ∈ c_ready c -> t_id x <> t_id (c_idle c).
Proof.
  intros H Hc Hx E. specialize (H me c Hc). unfold total in H.
  pose proof (places_elem (t_id (c_idle c)) m me c Hc). pose proof (occ_elem x _ Hx) as Ho. rewrite E in Ho.
  unfold cpu_occ in *. lia.
Qed.

Lemma wp_switch t i env me interrupt m :
  wp (switch_thread env me interrupt) m (fun _ => call_ok True t i m).
Proof.
  assert (Hrefl : call_ok True t i m m) by by apply call_ok_keeps.
  unfold switch_thread. destruct (e_state_locked env); [by apply wp_when_eoi|].
  apply wp_bind, wp_cpu. intros c0 Hc0. destruct (initialized (c_rs c0)); [|by apply wp_when_eoi]. simpl.
  destruct (e_preempt_disabled env); [by apply wp_when_eoi|].
  apply wp_bind. eapply wp_mono; [exact (wp_forall _ _ _ (fun u => wp_prepare True u i env me m))|].
  intros ? m1 K. apply wp_bind, wp_current. intros c cur Hc Hcur. apply wp_bind, wp_cpu.
  intros c' [= <-]%(eq_trans (eq_sym Hc)).
  assert (Hk : call_ok True t i m m1) by by apply call_ok_keeps.
  destruct (e_stacks_locked env || e_tss_locked env); [by apply wp_when_eoi|].
  pose proof (lookup_lt_Some _ _ _ Hc) as Hlt. destruct (pop_back (c_ready c)) as [[next q]|] eqn:Eq.
  - apply pop_back_Some in Eq. apply wp_bind, wp_modify. intros c' [= <-]%(eq_trans (eq_sym Hc)).
    assert (Hs : call_ok True t i m (upd m1 me (switched c cur next q))).
    { apply (call_ok_trans _ _ _ _ m1); [done|]. destruct (switched_occ t c cur next q Hcur Eq) as [Hle Heq].
      apply (call_ok_upd _ _ _ _ _ c); [done|unfold switched; by case_test..| |done|].
      - intros H x _. unfold switched. case_test; exact (H me c cur Hc Hcur).
      - intros _ Hid. apply Heq, (idle_not_ready m1 me); [done..|]. rewrite Eq. apply elem_of_app. right. by left. }
    apply wp_bind. unfold switched in Hs. destruct (Z.eqb_spec (t_id cur) (t_id (c_idle c))); simpl.
    + apply wp_ret. by apply wp_when_eoi.
    + apply wp_modify. intros c1 Hc1. simpl in Hc1. rewrite list_lookup_insert_eq in Hc1 by done. injection Hc1 as <-.
      apply wp_when_eoi. unfold set_cpus; simpl. rewrite list_insert_insert_eq. exact Hs.
  - apply pop_back_None in Eq. apply wp_bind.
    eapply wp_mono; [apply (wp_eoi_cpus True i interrupt m1)|].
    intros ? m2 [E2 K2]. destruct (Z.eqb_spec (t_id cur) (t_id (c_idle c))) as [Hi|Hi].
    { apply wp_ret. by apply (call_ok_then _ _ _ _ m1). }
    rewrite <- E2 in Hc, Hlt. apply wp_bind, wp_modify. intros c' [= <-]%(eq_trans (eq_sym Hc)).
    apply wp_bind, wp_modify. intros c1 Hc1. simpl in Hc1. rewrite list_lookup_insert_eq in Hc1 by done. injection Hc1 as <-.
    apply wp_when_eoi. unfold set_cpus; simpl. rewrite list_insert_insert_eq.
    apply (call_ok_trans _ _ _ _ m1); [done|]. apply (call_ok_trans _ _ _ _ m2); [done|].
    destruct (switched_idle_occ t c cur Hcur Eq Hi) as [E3 E4].
    apply (call_ok_upd _ _ _ m2 me c (push_front cur (set_current c (c_idle c)))); [done|done|done|done| |lia|done].
    intros H x _. exact (H me c cur Hc Hcur).
Qed.

(** The core after [yield_now]. *)
Lemma yield_occ u c cur next q :
  c_current c = Some cur -> t_id cur <> t_id (c_idle c) -> cur :: c_ready c = q ++ [next] ->
  let c' := set_current (set_ready c q) next in
  (cpu_occ u c' <= cpu_occ u c)%nat /\
  (t_id next <> t_id (c_idle c) -> cpu_occ u c' = cpu_occ u c /\ cslack c' = cslack c).
Proof.
  intros Hcur Hi Hq c'. assert (Hr : running c = [cur]) by (unfold running; by rewrite Hcur, decide_False).
  pose proof (set_ready_occ u c q) as H1. pose proof (f_equal (occ u) Hq) as H3. rewrite occ_app, (occ_cons u cur) in H3.
  pose proof (set_current_occ u (set_ready c q) next) as H2.
  change (running (set_ready c q)) with (running c) in H2. change (c_idle (set_ready c q)) with (c_idle c) in H2.
  rewrite Hr in H2. fold c' in H2. split.
  - case_decide; rewrite ?occ_nil in *; lia.
  - intros Hn. rewrite (decide_False _ _ Hn) in H2. split; [lia|]. apply cslack_eq. unfold load. rewrite Hr.
    pose proof (f_equal length Hq) as Hl. rewrite length_app in Hl. unfold c', running. cpu_simpl.
    rewrite decide_False by done. simpl in *. unfold c_ready, c_rs in Hl. lia.
Qed.

Lemma wp_set_state_cpus (s : Prop) i x st m :
  wp (set_state x st) m (fun _ m' => m_cpus m' = m_cpus m /\ forall u, keeps s u i m m').
Proof. intros [] m' [= <-]. split; [done|]. intros u. by apply keeps_same_cpus. Qed.

Lemma wp_yield t i env me m :
  runs_thread m me -> wp (yield_now env me) m (fun _ => call_ok True t i m).
Proof.
  intros Hr. assert (Hrefl : call_ok True t i m m) by by apply call_ok_keeps.
  apply wp_bind, wp_cpu. intros c Hc. destruct (initialized (c_rs c)); simpl; [|by apply wp_ret].
  apply wp_bind, runs_thread_current; [done|]. intros c' cur [= <-]%(eq_trans (eq_sym Hc)) Hcur Hne.
  destruct (e_stacks_locked env || e_tss_locked env); [by apply wp_ret|].
  destruct (c_ready c) as [|y l] eqn:El; [by apply wp_ret|].
  apply wp_bind. eapply wp_mono; [apply (wp_set_state_cpus True i)|]. intros ? m1 [E1 K1].
  destruct (pop_back (cur :: y :: l)) as [[next q]|] eqn:Eq; [|by apply pop_back_None in Eq].
  apply pop_back_Some in Eq. rewrite <- El in Eq. rewrite <- E1 in Hc. pose proof (lookup_lt_Some _ _ _ Hc) as Hlt.
  apply wp_bind, wp_modify. intros c' [= <-]%(eq_trans (eq_sym Hc)).
  apply wp_bind. intros [] m2 [= <-]. apply wp_modify. intros c1 Hc1. simpl in Hc1.
  rewrite list_lookup_insert_eq in Hc1 by done. injection Hc1 as <-. unfold set_cpus; simpl. rewrite list_insert_insert_eq.
  apply (call_ok_then _ _ _ _ (upd m1 me (set_current (set_ready c q) next))); [|intros u; by apply keeps_same_cpus].
  apply (call_ok_trans _ _ _ _ m1); [done|]. destruct (yield_occ t c cur next q Hcur Hne Eq) as [Hle Heq].
  apply (call_ok_upd _ _ _ _ _ c); [done|done|done|done| |done|].
  - intros H x _. exact (H me c cur Hc Hcur).
  - intros _ Hid. apply Heq. assert (Hin : next ∈ cur :: c_ready c) by (rewrite Eq; apply elem_of_app; right; by left).
    apply elem_of_cons in Hin as [->|Hin]; [done|]. by apply (idle_not_ready m1 me).
Qed.

Lemma start_occ u c next q :
  c_current c = None -> c_ready c = q ++ [next] ->
  let c' := set_current (set_ready c q) next in
  (cpu_occ u c' <= cpu_occ u c)%nat /\
  (t_id next <> t_id (c_idle c) -> cpu_occ u c' = cpu_occ u c /\ cslack c' = cslack c).
Proof.
  intros Hcur Hq c'. assert (Hr : running c = []) by (unfold running; by rewrite Hcur).
  pose proof (set_ready_occ u c q) as H1. rewrite Hq, occ_app in H1.
  pose proof (set_current_occ u (set_ready c q) next) as H2.
  change (running (set_ready c q)) with (running c) in H2. change (c_idle (set_ready c q)) with (c_idle c) in H2.
  rewrite Hr, occ_nil in H2. fold c' in H2. split.
  - case_decide; rewrite ?occ_nil in *; lia.
  - intros Hn. rewrite (decide_False _ _ Hn) in H2. split; [lia|]. apply cslack_eq. unfold load. rewrite Hr, Hq, length_app.
    unfold c', running. cpu_simpl. rewrite decide_False by done. simpl. lia.
Qed.

Lemma wp_start t i me m : currents_ok m -> wp (start me) m (fun _ => call_ok True t i m).
Proof.
  intros Hco. apply wp_bind, wp_cpu. intros c Hc. destruct (s_started (c_sched c)) eqn:Es; [apply wp_ret; by apply call_ok_keeps|].
  assert (Hcur : c_current c = None).
  { destruct (c_current c) as [x|] eqn:E; [|done]. rewrite (Hco me c x Hc E) in Es. done. }
  pose proof (lookup_lt_Some _ _ _ Hc) as Hlt. apply wp_bind, wp_modify. intros c' [= <-]%(eq_trans (eq_sym Hc)).
  destruct (pop_back (c_ready c)) as [[next q]|] eqn:Eq.
  - apply pop_back_Some in Eq. apply wp_modify. intros c1 Hc1. simpl in Hc1.
    rewrite list_lookup_insert_eq in Hc1 by done. injection Hc1 as <-. unfold set_cpus; simpl. rewrite list_insert_insert_eq.
    destruct (start_occ t c next q Hcur Eq) as [Hle Heq].
    apply (call_ok_upd _ _ _ m me c (set_current (set_ready (set_started c) q) next)); [done|done|done|done|done|done|].
    intros _ Hid. apply Heq. apply (idle_not_ready m me); [done..|]. rewrite Eq. apply elem_of_app. right. by left.
  - apply pop_back_None in Eq. apply wp_modify. intros c1 Hc1. simpl in Hc1.
    rewrite list_lookup_insert_eq in Hc1 by done. injection Hc1 as <-. unfold set_cpus; simpl. rewrite list_insert_insert_eq.
    set (c' := set_current (set_started c) (c_idle c)).
    assert (E : running c' = running c) by (unfold running; rewrite Hcur; unfold c'; cpu_simpl; by rewrite decide_True).
    assert (Eo : cpu_occ t c' = cpu_occ t c) by (unfold cpu_occ; by rewrite E).
    apply (call_ok_upd _ _ _ m me c c'); [done|done|done|done|done|lia|].
    intros _ _. split; [done|]. apply cslack_eq. unfold load. by rewrite E.
Qed.

(** ** The invariants *)

Lemma call_ok_weaken (s s' : Prop) t i m m' : (s' -> s) -> call_ok s t i m m' -> call_ok s' t i m m'.
Proof. intros H [B F]. split; [done|]. apply (flow_weaken (s /\ idles_ok m)); [tauto|done]. Qed.

Record sched_inv (m : Machine) : Prop := {
  si_one : forall t, (total t m <= 1)%nat;
  si_placed : placed_old m;
  si_alive : alive_old m;
  si_idle : idles_ok m;
  si_idle_old : forall i c, m_cpus m !! i = Some c -> t_id (c_idle c) < m_next_tid m;
  si_keys : keys_old m;
  si_current : currents_ok m;
  si_next : 0 <= m_next_tid m
}.

(** The calls other than [CSpawn] and [CExit]. *)
Lemma wp_call t i env me call m :
  sched_inv m -> (leaves call = true -> runs_thread m me) ->
  match call with CSpawn _ | CExit => False | _ => True end ->
  wp (exec env me call) m (fun _ => call_ok (orderly call) t i m).
Proof.
  intros I Hr Hcall. destruct call; try done; cbn [exec orderly].
  - by apply wp_sleep, Hr.
  - by apply wp_block_call, Hr.
  - apply wp_bind. eapply wp_mono; [apply wp_join; [by apply Hr|apply I]|]. intros ? m' H. apply wp_ret. exact H.
  - eapply wp_mono; [apply (wp_kill_call t i)|]. intros ? m'. apply call_ok_keeps.
  - apply wp_deblock, I.
  - apply wp_bind. eapply wp_mono; [apply (wp_unblock_call t i)|]. intros ? m' H. apply wp_ret. by apply call_ok_keeps.
  - apply wp_bind. eapply wp_mono; [apply (wp_seq True t i); [apply wp_current_keeps|]|].
    + intros x m1. apply wp_seq; [apply wp_set_state|]. intros ? m2. apply wp_skip.
    + intros ? m' H. apply wp_ret. by apply call_ok_keeps.
  - by apply wp_yield, Hr.
  - apply wp_switch.
  - apply wp_start, I.
  - apply wp_modify. intros c Hc. apply (call_ok_upd _ _ _ m me c (set_init_flag c)); [done|done|done|done| |done|done].
    intros H x. exact (H me c x Hc).
  - eapply wp_mono; [apply (wp_flag True t i true)|]. intros ? m'. apply call_ok_keeps.
  - eapply wp_mono; [apply (wp_seq True t i); [apply wp_reads, reads_more|]|].
    + intros [target|] m1; [apply wp_ipi|apply wp_skip].
    + intros ? m'. apply call_ok_keeps.
Qed.

Lemma inv_base m m' :
  sched_inv m -> base m m' -> (forall t, (total t m' <= total t m)%nat) -> sched_inv m'.
Proof.
  intros I [B1 B2 B3 B4 B5] Hle.
  assert (Hid : forall i c', m_cpus m' !! i = Some c' -> exists c, m_cpus m !! i = Some c /\ c_idle c' = c_idle c).
  { intros i c' Hc'. assert (E : (c_idle <$> m_cpus m) !! i = Some (c_idle c')) by by rewrite <- B2, list_lookup_fmap, Hc'.
    rewrite list_lookup_fmap in E. destruct (m_cpus m !! i) as [c|]; [|done]. injection E as <-. by exists c. }
  split.
  - intros t. pose proof (si_one m I t). specialize (Hle t). lia.
  - intros t Ht. rewrite B1. apply (si_placed m I). specialize (Hle t). lia.
  - apply B4, I.
  - intros i c' Hc'. destruct (Hid i c' Hc') as (c & Hc & ->). pose proof (si_idle m I i c Hc).
    specialize (Hle (t_id (c_idle c))). lia.
  - intros i c' Hc'. destruct (Hid i c' Hc') as (c & Hc & ->). rewrite B1. by apply (si_idle_old m I i).
  - apply B3, I.
  - apply B5, I.
  - rewrite B1. apply I.
Qed.

(** The living threads are the ones that are somewhere, and the published lengths are right. *)
Record exact (m : Machine) : Prop := {
  ex_quiet : quiet m;
  ex_slack : forall i x, slack i m = Some x -> x = 0;
  ex_total : forall t, total t m = if decide (t ∈ m_alive m) then 1%nat else 0%nat
}.

Lemma call_ok_inv s i m m' : sched_inv m -> (forall t, call_ok s t i m m') -> sched_inv m'.
Proof.
  intros I H. apply (inv_base m); [done|apply (H 0)|]. intros t. destruct (H t) as [_ [A _]]. lia.
Qed.

Lemma call_ok_exact (s : Prop) m m' :
  s -> sched_inv m -> exact m -> (forall t i, call_ok s t i m m') -> exact m'.
Proof.
  intros Hs I [E1 E2 E3] H.
  assert (Hq : forall t i, total t m' = total t m /\ slack i m' = (fun x => (x + 0) mod 2 ^ 32) <$> slack i m /\
    quiet m' /\ m_alive m' = m_alive m).
  { intros t i. destruct (H t i) as [_ [_ F]]. destruct (F (conj Hs (si_idle m I)) E1) as (? & ? & ? & ?).
    split_and!; [lia|done..]. }
  split; [apply (Hq 0 0%nat)| |].
  - intros i x Hx. destruct (Hq 0 i) as (_ & Es & _). rewrite Es in Hx. apply fmap_Some in Hx as (y & Hy & ->).
    by rewrite (E2 i y Hy).
  - intros t. destruct (Hq t 0%nat) as (Et & _ & _ & Ea). by rewrite Et, Ea, E3.
Qed.

Lemma exit_ok env me m m' :
  sched_inv m -> runs_thread m me -> Sched.exit env me m = Ret (tt, m') ->
  sched_inv m' /\ (exact m -> exact m').
Proof.
  intros I Hr E. split.
  - apply (inv_base m); [done|apply (wp_exit 0 0%nat env me m Hr tt m' E)|]. intros t.
    destruct (wp_exit t 0%nat env me m Hr tt m' E) as (_ & c & cur & _ & _ & _ & [A _]).
    change (total t (set_alive m ?a)) with (total t m) in A. lia.
  - intros X. assert (Hq : forall t i, exists cur, (0 < total (t_id cur) m)%nat /\
      Z.of_nat (total t m') = Z.of_nat (total t m) + - Z.of_nat (occ t [cur]) /\
      slack i m' = (fun x => (x + 0) mod 2 ^ 32) <$> slack i m /\ quiet m' /\ m_alive m' = m_alive m ∖ {[ t_id cur ]}).
    { intros t i. destruct (wp_exit t i env me m Hr tt m' E) as (_ & c & cur & Hc & Hcur & Hne & [_ F]).
      exists cur. split; [|exact (F (si_idle m I) (ex_quiet m X))].
      pose proof (places_elem (t_id cur) m me c Hc) as Hp. unfold cpu_occ, running in Hp.
      rewrite Hcur, (decide_False _ _ Hne), occ_self in Hp. unfold total. lia. }
    split.
    + by destruct (Hq 0 0%nat) as (_ & _ & _ & _ & ? & _).
    + intros i x Hx. destruct (Hq 0 i) as (_ & _ & _ & Es & _). rewrite Es in Hx.
      apply fmap_Some in Hx as (y & Hy & ->). by rewrite (ex_slack m X i y Hy).
    + intros t. destruct (Hq t 0%nat) as (cur & Hpos & Et & _ & _ & ->).
      pose proof (ex_total m X t) as Hm. pose proof (ex_total m X (t_id cur)) as Hcur.
      destruct (decide (t = t_id cur)) as [->|Hne].
      * rewrite occ_self in Et. rewrite decide_False by (clear; set_solver). rewrite Hcur in *. case_decide; lia.
      * rewrite (occ_other t cur Hne) in Et.
        assert (Hiff : t ∈ m_alive m ∖ {[ t_id cur ]} <-> t ∈ m_alive m) by (clear -Hne; set_solver).
        repeat case_decide; try tauto; lia.
Qed.

Lemma spawn_ok me pid m m' :
  sched_inv m -> m_next_tid m < U64_MAX -> (x ← new_thread pid; ready me x) m = Ret (tt, m') ->
  sched_inv m' /\ (exact m -> exact m').
Proof.
  intros I Hn E. assert (Hn' : 0 <= m_next_tid m < U64_MAX) by (split; [apply I|done]).
  pose proof (fun t i => wp_spawn t i me pid m Hn' tt m' E) as H.
  assert (Hfresh : total (m_next_tid m) m = 0%nat).
  { pose proof (si_placed m I (m_next_tid m)). lia. }
  destruct (H 0 0%nat) as (H1 & H2 & H3 & H4 & H5 & _).
  assert (Hid : forall i c', m_cpus m' !! i = Some c' -> exists c, m_cpus m !! i = Some c /\ c_idle c' = c_idle c).
  { intros i c' Hc'. assert (E' : (c_idle <$> m_cpus m) !! i = Some (c_idle c')) by by rewrite <- H2, list_lookup_fmap, Hc'.
    rewrite list_lookup_fmap in E'. destruct (m_cpus m !! i) as [c|]; [|done]. injection E' as <-. by exists c. }
  assert (Hle : forall t, Z.of_nat (total t m') <= Z.of_nat (total t m) + (if decide (t = m_next_tid m) then 1 else 0)).
  { intros t. destruct (H t 0%nat) as (_ & _ & _ & _ & _ & [A _]).
    by change (total t (set_alive m ?a)) with (total t m) in A. }
  split.
  - split; rewrite ?H1.
    + intros t. specialize (Hle t). pose proof (si_one m I t). case_decide; subst; lia.
    + intros t Ht. specialize (Hle t). rewrite H1. case_decide; [lia|]. pose proof (si_placed m I t). lia.
    + apply H4, I.
    + intros i c' Hc'. destruct (Hid i c' Hc') as (c & Hc & ->). pose proof (si_idle m I i c Hc).
      pose proof (si_idle_old m I i c Hc). specialize (Hle (t_id (c_idle c))). case_decide; lia.
    + intros i c' Hc'. destruct (Hid i c' Hc') as (c & Hc & ->). pose proof (si_idle_old m I i c Hc). lia.
    + apply H3, I.
    + apply H5, I.
    + pose proof (si_next m I). lia.
  - intros [E1 E2 E3].
    assert (Hq : forall t i, Z.of_nat (total t m') = Z.of_nat (total t m) + (if decide (t = m_next_tid m) then 1 else 0) /\
      slack i m' = (fun x => (x + 0) mod 2 ^ 32) <$> slack i m /\ quiet m' /\ m_alive m' = {[ m_next_tid m ]} ∪ m_alive m).
    { intros t i. destruct (H t i) as (_ & _ & _ & _ & _ & [_ F]). exact (F (si_keys m I) E1). }
    split; [apply (Hq 0 0%nat)| |].
    + intros i x Hx. destruct (Hq 0 i) as (_ & Es & _). rewrite Es in Hx. apply fmap_Some in Hx as (y & Hy & ->).
      by rewrite (E2 i y Hy).
    + intros t. destruct (Hq t 0%nat) as (Et & _ & _ & ->). rewrite E3 in Et. pose proof (E3 (m_next_tid m)) as Hf.
      rewrite Hfresh in Hf. destruct (decide (t = m_next_tid m)) as [->|Hne].
      * rewrite decide_True by (clear; set_solver). case_decide; [done|lia].
      * assert (Hiff : t ∈ {[ m_next_tid m ]} ∪ m_alive m <-> t ∈ m_alive m) by (clear -Hne; set_solver).
        repeat case_decide; try tauto; lia.
Qed.

Lemma step_ok P m m' :
  sched_inv m -> sched_step P m m' ->
  sched_inv m' /\ ((forall call, P call -> orderly call) -> exact m -> exact m').
Proof.
  intros I [env me call HP Hl Hn E].
  assert (Hother : match call with CSpawn _ | CExit => False | _ => True end ->
    sched_inv m' /\ (orderly call -> exact m -> exact m')).
  { intros Hc. pose proof (fun t i => wp_call t i env me call m I Hl Hc tt m' E) as H.
    split; [by apply (call_ok_inv (orderly call) 0%nat m)|]. intros Ho X. by apply (call_ok_exact (orderly call) m). }
  destruct call; try (destruct Hother as [H1 H2]; [done|]; split; [done|]; intros HPo; by apply H2, HPo).
  - destruct (spawn_ok me pid m m' I Hn E) as [H1 H2]. auto.
  - destruct (exit_ok env me m m' I (Hl eq_refl) E) as [H1 H2]. auto.
Qed.

Lemma steps_ok P m m' :
  sched_inv m -> rtc (sched_step P) m m' ->
  sched_inv m' /\ ((forall call, P call -> orderly call) -> exact m -> exact m').
Proof.
  intros I H. induction H as [m|m m1 m2 H1 _ IH]; [auto|].
  destruct (step_ok P m m1 I H1) as [I1 X1]. destruct (IH I1) as [I2 X2]. auto.
Qed.

(** ** Power on *)

(** No thread is anywhere. *)
Record fresh_machine (m : Machine) : Prop := {
  fm_cpus : forall i c, m_cpus m !! i = Some c ->
    c_current c = None /\ c_ready c = [] /\ c_sleep c = [] /\ c_blocked c = [] /\ c_joins c = ∅ /\
    c_inbox c = [] /\ c_rq c = 0 /\ t_id (c_idle c) < m_next_tid m;
  fm_alive : m_alive m = ∅;
  fm_dropped : m_dropped m = [];
  fm_next : 0 <= m_next_tid m
}.

Lemma fresh_add_cpu a m m' :
  fresh_machine m -> m_next_tid m < U64_MAX -> add_cpu a m = Ret (tt, m') ->
  fresh_machine m' /\ m_next_tid m' = m_next_tid m + 1.
Proof.
  intros [F1 F2 F3 F4] Hn [= <-].
  assert (En : wrap64 (m_next_tid m + 1) = m_next_tid m + 1) by (apply Z.mod_small; unfold U64_MAX in *; lia).
  split; [|simpl; lia]. split; simpl; rewrite ?En; [|done|done|lia].
  intros i c [Hc|[_ [_ <-]%list_lookup_singleton_Some]]%lookup_app_Some.
  - destruct (F1 i c Hc) as (? & ? & ? & ? & ? & ? & ? & ?). split_and!; [done..|lia].
  - cpu_simpl. simpl. split_and!; [done..|lia].
Qed.

Lemma fresh_add_cpus apics m m' :
  fresh_machine m -> m_next_tid m + Z.of_nat (length apics) <= U64_MAX -> add_cpus apics m = Ret (tt, m') -> fresh_machine m'.
Proof.
  revert m. induction apics as [|a apics IH]; intros m F Hn; simpl; [by intros [= <-]|].
  unfold mbind, M_bind. destruct (add_cpu a m) as [[[] m1]|] eqn:E; [|done].
  simpl in Hn. destruct (fresh_add_cpu a m m1 F) as [F1 En]; [lia|done|]. apply IH; [done|lia].
Qed.

Lemma fresh_total t m : fresh_machine m -> total t m = 0%nat.
Proof.
  intros [F1 _ F3 _]. unfold total. rewrite F3, occ_nil. unfold places.
  assert (H : Forall (fun c => cpu_occ t c = 0%nat) (m_cpus m)).
  { apply Forall_lookup. intros i c Hc. destruct (F1 i c Hc) as (E1 & E2 & E3 & E4 & E5 & E6 & _).
    unfold cpu_occ, running. rewrite E1, E2, E3, E4, E5, E6. done. }
  clear F1 F3. induction H as [|c l Hc _ IH]; simpl in *; lia.
Qed.

Lemma fresh_ok m : fresh_machine m -> sched_inv m /\ exact m.
Proof.
  intros F. pose proof (fun t => fresh_total t m F) as Ht. destruct F as [F1 F2 F3 F4]. split.
  - split; [intros t; rewrite Ht; lia| | |by intros ? ? _| | | |done].
    + intros t. rewrite Ht. lia.
    + intros t. rewrite F2. set_solver.
    + intros i c Hc. apply (F1 i c Hc).
    + intros i c k l Hc. destruct (F1 i c Hc) as (_ & _ & _ & _ & -> & _). done.
    + intros i c x Hc. destruct (F1 i c Hc) as (-> & _). done.
  - split.
    + intros i c Hc tid. destruct (F1 i c Hc) as (_ & _ & _ & _ & _ & -> & _). set_solver.
    + intros i x (c & Hc & ->)%fmap_Some. destruct (F1 i c Hc) as (E1 & E2 & _ & _ & _ & _ & E3 & _).
      unfold cslack, load, running. by rewrite E1, E2, E3.
    + intros t. rewrite Ht, decide_False; [done|]. rewrite F2. set_solver.
Qed.

Lemma power_on_fresh apics m :
  Z.of_nat (length apics) < U64_MAX -> power_on apics = Ret m -> fresh_machine m.
Proof.
  intros Hn H. unfold power_on in H. destruct (add_cpus apics _) as [[[] m1]|] eqn:E; [|done].
  injection H as <-. eapply fresh_add_cpus; [|..|exact E]; [|simpl; lia].
  split; simpl; [done..|lia].
Qed.
Lemma power_on_ok apics m :
  Z.of_nat (length apics) < U64_MAX -> power_on apics = Ret m -> sched_inv m /\ exact m.
Proof. intros Hn H. by apply fresh_ok, (power_on_fresh apics). Qed.

(** ** The theorems *)

(** C19 No thread is ever in two places: in any run of a machine with any number of cores,
    in which the cores spawn threads, sleep, block, join, exit, kill, wake up, yield, are
    interrupted and move threads to each other in any order, every thread is at most once
    a current thread, in a ready queue, in a list of sleeping, blocked or waiting threads
    or in an inbox. *)
Theorem thread_in_one_place apics m0 m t :
  Z.of_nat (length apics) < U64_MAX -> power_on apics = Ret m0 -> rtc (sched_step any_call) m0 m ->
  (places t m <= 1)%nat.
Proof.
  intros Hn H0 H. destruct (power_on_ok apics m0 Hn H0) as [I _].
  destruct (steps_ok any_call m0 m I H) as [I' _]. pose proof (si_one m I' t). unfold total in *. lia.
Qed.

(** C20 Without [kill], [deblock] and [unblock] no thread is lost and the books are exact: a
    thread is alive if and only if it is in exactly one place, or was dropped because the
    inbox of its new core was full; and the published run queue length of each core is the
    number of its runnable threads. *)
Theorem threads_accounted apics m0 m :
  Z.of_nat (length apics) < U64_MAX -> power_on apics = Ret m0 -> rtc (sched_step orderly) m0 m ->
  (forall t, (places t m + occ t (m_dropped m))%nat = if decide (t ∈ m_alive m) then 1%nat else 0%nat) /\
  (forall i c, m_cpus m !! i = Some c ->
    wrap32 (c_rq c) = wrap32 (Z.of_nat (length (c_ready c) + length (running c)))).
Proof.
  intros Hn H0 H. destruct (power_on_ok apics m0 Hn H0) as [I X].
  destruct (steps_ok orderly m0 m I H) as [_ HX]. destruct (HX (fun _ p => p) X) as [_ E2 E3]. split; [exact E3|].
  intros i c Hc. specialize (E2 i (cslack c)). unfold slack in E2. rewrite Hc in E2. specialize (E2 eq_refl).
  unfold cslack in E2. apply (proj2 (Z.cong_iff_0 _ _ _)) in E2. exact E2.
Qed.

(** *** A concrete run on two cores *)

Definition at_ms (ms : Z) : Env := mkEnv ms false false false false false.

(** Core 0 spawns three threads and starts; a thread sleeps, one joins another, which exits
    on the other core after it was moved there; timer interrupts in between. *)
Definition demo_calls : list (Env * nat * sched_call) :=
  [(at_ms 0, 0%nat, CSpawn 7); (at_ms 0, 0%nat, CSpawn 7); (at_ms 0, 0%nat, CSpawn 7);
   (at_ms 0, 0%nat, CStart); (at_ms 0, 0%nat, CInit); (at_ms 0, 1%nat, CStart); (at_ms 0, 1%nat, CInit);
   (at_ms 10, 0%nat, CSwitch true); (at_ms 10, 1%nat, CSwitch true); (at_ms 20, 0%nat, CSleep 50);
   (at_ms 20, 1%nat, CYield); (at_ms 30, 0%nat, CJoin 5);
   (at_ms 90, 0%nat, CSwitch true); (at_ms 95, 1%nat, CExit); (at_ms 99, 0%nat, CSwitch true)].

(** At the end the joining thread runs again and the one that slept is ready. *)
Example demo_run :
  match m0 ← power_on [0; 1]; run_calls demo_calls m0 with
  | Ret m => elements (m_alive m) = [3; 4] /\ (c_ready <$> m_cpus m !! 0%nat) = Some [mkThread 4 7] /\
      (c_current <$> m_cpus m !! 0%nat) = Some (Some (mkThread 3 7)) /\ c_rq <$> m_cpus m = [2; 0]
  | Panic _ => False
  end.
Proof. vm_compute. split_and!; reflexivity. Qed.

(** The machine after a run on two cores. *)
Definition demo_machine (l : list (Env * nat * sched_call)) : Machine :=
  match m0 ← power_on [0; 1]; run_calls l m0 with
  | Ret m => m
  | Panic _ => mkMachine [] ∅ ∅ 0 0 [] []
  end.

Lemma demo_power_on : power_on [0; 1] = Ret (demo_machine []).
Proof. reflexivity. Qed.

Lemma demo_reach (P : sched_call -> Prop) (l : list (Env * nat * sched_call)) :
  Forall (fun x => P x.2) l ->
  (match m0 ← power_on [0; 1]; run_calls l m0 with Ret _ => true | Panic _ => false end) = true ->
  rtc (sched_step P) (demo_machine []) (demo_machine l).
Proof.
  intros HP H. unfold demo_machine. rewrite demo_power_on in *. simpl in *.
  destruct (run_calls l (demo_machine [])) as [m|] eqn:E; [|done]. by apply (run_calls_steps P l).
Qed.

Lemma thread_in_one_place_witness : (places 5 (demo_machine demo_calls) <= 1)%nat.
Proof.
  apply (thread_in_one_place [0; 1] (demo_machine []) (demo_machine demo_calls) 5); [done|exact demo_power_on|].
  apply demo_reach; [by repeat constructor|by vm_compute].
Defined.

Lemma threads_accounted_witness :
  (places 3 (demo_machine demo_calls) + occ 3 (m_dropped (demo_machine demo_calls)))%nat =
    if decide (3 ∈ m_alive (demo_machine demo_calls)) then 1%nat else 0%nat.
Proof.
  apply (threads_accounted [0; 1] (demo_machine []) (demo_machine demo_calls)); [done|exact demo_power_on|].
  apply demo_reach; [by repeat constructor|by vm_compute].
Defined.
