(* ===== verification/SchedJoin.v ===== *)
(** * Joining across cores

    A thread that waits for another one is in a list of its own core; the other thread may
    end on any core, and only a message tells the waiting core.  [no_lost_wakeup]: in every
    run, a waiting thread waits for a living thread, or the message is in the inbox. *)

From S2P Require Import Prelude Errno Sched SchedProofs SchedRun.

Open Scope list_scope.
Open Scope Z_scope.

(** Waiting threads will be woken up, except perhaps those for [tid] on the cores in [ex]. *)
Definition notified_but (ex : nat -> Prop) (tid : Z) (m : Machine) : Prop := forall i c k l,
  m_cpus m !! i = Some c -> c_joins c !! k = Some l -> l <> [] ->
  k ∈ m_alive m \/ ItemCmd (JoinTargetExited k) ∈ c_inbox c \/ (k = tid /\ ex i).
Definition notified (m : Machine) : Prop := forall i c k l,
  m_cpus m !! i = Some c -> c_joins c !! k = Some l -> l <> [] ->
  k ∈ m_alive m \/ ItemCmd (JoinTargetExited k) ∈ c_inbox c.

(** The waiting threads stay or become fewer, messages only arrive. *)
Record jcore (c c' : Cpu) : Prop := {
  jc_joins : forall k l, c_joins c' !! k = Some l -> l <> [] -> exists l', c_joins c !! k = Some l' /\ l' <> [];
  jc_inbox : forall x, x ∈ c_inbox c -> x ∈ c_inbox c'
}.

Lemma notified_upd ex tid m me c c' :
  m_cpus m !! me = Some c -> jcore c c' -> notified_but ex tid m -> notified_but ex tid (upd m me c').
Proof.
  intros Hc [J1 J2] H i x k l Hi Hl Hne. simpl in Hi |- *.
  destruct (insert_cases _ _ _ _ _ _ Hc Hi) as [[-> ->]|[_ ?]]; [|by eapply H].
  destruct (J1 k l Hl Hne) as (l' & Hl' & Hne'). destruct (H me c k l' Hc Hl' Hne') as [?|[?|?]]; eauto.
Qed.

Lemma notified_none m : notified m <-> notified_but (fun _ => False) 0 m.
Proof. split; intros H i c k l H1 H2 H3; destruct (H i c k l H1 H2 H3); tauto. Qed.

(** Operations that preserve [notified]. *)
Definition jok {A} (e : M A) : Prop := forall m, notified m -> wp e m (fun _ => notified).

Lemma jok_bind {A B} (e : M A) (k : A -> M B) : jok e -> (forall a, jok (k a)) -> jok (e ≫= k).
Proof. intros H1 H2 m Hm. apply wp_bind. eapply wp_mono; [by apply H1|]. intros a m1 Hm1. by apply H2. Qed.
Lemma jok_reads {A} (e : M A) : reads e -> jok e.
Proof. intros H m Hm a m' E. by rewrite (H m a m' E). Qed.
Lemma jok_ret {A} (a : A) : jok (mret a).
Proof. apply jok_reads, reads_ret. Qed.
Lemma jok_panic {A} msg : jok (@panic A msg).
Proof. apply jok_reads, reads_panic. Qed.
Lemma jok_modify me f : (forall c, jcore c (f c)) -> jok (modify_cpu me f).
Proof.
  intros H m Hm. apply wp_modify. intros c Hc. apply notified_none, (notified_upd _ _ _ _ c); [done|apply H|].
  by apply notified_none.
Qed.
Lemma jok_cpu id : jok (per_cpu_ref id).
Proof. apply jok_reads, reads_cpu. Qed.
Lemma jok_when b e : jok e -> jok (when b e).
Proof. destruct b; [done|]. intros _. apply jok_ret. Qed.
Lemma jok_if {A} (b : bool) (e1 e2 : M A) : jok e1 -> jok e2 -> jok (if b then e1 else e2).
Proof. by destruct b. Qed.
Lemma jok_current me : jok (current me).
Proof. apply jok_reads, reads_bind; [apply reads_cpu|]. intros c. case_match; auto with d3os. Qed.
(** Changes outside the cores and the living threads. *)
Lemma jok_other (e : M unit) :
  (forall m a m', e m = Ret (a, m') -> m_cpus m' = m_cpus m /\ m_alive m ⊆ m_alive m') -> jok e.
Proof.
  intros H m Hm a m' E. destruct (H m a m' E) as [Ec Ea]. intros i c k l Hc Hl Hne. rewrite Ec in Hc.
  destruct (Hm i c k l Hc Hl Hne) as [?|?]; [left; by apply Ea|by right].
Qed.
Lemma jok_state x st : jok (set_state x st).
Proof. apply jok_other. by intros m a m' [= <- <-]. Qed.
Lemma jok_eoi : jok end_of_interrupt.
Proof. apply jok_other. by intros m a m' [= <- <-]. Qed.
Lemma jok_drop x : jok (drop_thread x).
Proof. apply jok_other. by intros m a m' [= <- <-]. Qed.
Lemma jok_alive tid : jok (mark_thread_alive tid).
Proof. apply jok_other. intros m a m' [= <- <-]. split; [done|]. simpl. set_solver. Qed.
Lemma jok_lock b name : jok (lock b name).
Proof. apply jok_reads. intros m a m'. unfold lock. case_match; by intros [= <- <-]. Qed.

Lemma jcore_refl c : jcore c c.
Proof. split; eauto. Qed.
Lemma jcore_same c c' : c_joins c' = c_joins c -> c_inbox c' = c_inbox c -> jcore c c'.
Proof. intros E1 E2. split; rewrite ?E1, ?E2; eauto. Qed.
Lemma jcore_send c i : jcore c (set_inbox c (c_inbox c ++ [i])).
Proof. split; [eauto|]. intros x Hx. simpl. apply elem_of_app. by left. Qed.

#[export] Hint Resolve jok_bind jok_ret jok_panic jok_cpu jok_when jok_current jok_state jok_eoi jok_drop
  jok_alive jok_lock jcore_refl jcore_send jok_if : d3os.
#[export] Hint Resolve jcore_same | 10 : d3os.

Ltac jok_step := repeat lazymatch goal with
  | |- jok (mark_thread_dead _ ≫= _) => fail
  | |- jok (_ ≫= _) => apply jok_bind; [|intros ?]
  | |- jok (mret _) => apply jok_ret
  | |- jok (panic _) => apply jok_panic
  | |- jok (per_cpu_ref _) => apply jok_cpu
  | |- jok (when _ _) => apply jok_when
  | |- jok (current _) => apply jok_current
  | |- jok (set_state _ _) => apply jok_state
  | |- jok end_of_interrupt => apply jok_eoi
  | |- jok (drop_thread _) => apply jok_drop
  | |- jok (lock _ _) => apply jok_lock
  | |- jok (mark_thread_alive _) => apply jok_alive
  | |- jok (gets _) => apply jok_reads, reads_gets
  | |- jok (is_thread_alive _) => apply jok_reads, reads_gets
  | |- jok (modify_cpu _ _) => apply jok_modify; intros ?; try (apply jcore_same; done)
  end.

Lemma jok_try_send target i : jok (try_send target i).
Proof.
  unfold try_send. jok_step. case_decide; jok_step. apply jcore_send.
Qed.
Lemma jok_ipi target : jok (send_reschedule_ipi target).
Proof.
  unfold send_reschedule_ipi, per_cpu_apic_id. jok_step. apply jok_other. by intros m b m' [= <- <-].
Qed.
Lemma jok_schedule_on target i : jok (schedule_on target i).
Proof. unfold schedule_on. jok_step; [apply jok_try_send|]. case_match; jok_step. apply jok_ipi. Qed.
Lemma jok_send_all me i ids : jok (send_all me i ids).
Proof.
  induction ids as [|k ids IH]; simpl; [apply jok_ret|]. case_decide; [done|].
  jok_step; [apply jok_try_send|]. case_match; [done|apply jok_panic].
Qed.
Lemma jok_broadcast me i : jok (schedule_on_all_others me i).
Proof. unfold schedule_on_all_others. jok_step; [apply jok_reads, reads_gets|apply jok_send_all]. Qed.

(** *** Telling the other cores *)

Lemma jcore_trans c1 c2 c3 : jcore c1 c2 -> jcore c2 c3 -> jcore c1 c3.
Proof.
  intros [A1 B1] [A2 B2]. split; [|eauto]. intros k l H Hne. destruct (A2 k l H Hne) as (l' & H' & Hne'). by eapply A1.
Qed.

Definition sent (me : nat) (i : MessageItem) (ids : list nat) (m m' : Machine) : Prop :=
  m_alive m' = m_alive m /\ length (m_cpus m') = length (m_cpus m) /\ m_cpus m' !! me = m_cpus m !! me /\
  forall j c', m_cpus m' !! j = Some c' -> exists c, m_cpus m !! j = Some c /\ jcore c c' /\
    (j ∈ ids -> j <> me -> i ∈ c_inbox c').

Lemma wp_try_send target i m :
  wp (try_send target i) m (fun ok m' => ok = false \/
    exists c, m_cpus m !! target = Some c /\ m' = upd m target (set_inbox c (c_inbox c ++ [i]))).
Proof.
  apply wp_bind, wp_cpu. intros c Hc. case_decide; [|apply wp_ret; by left].
  apply wp_bind, wp_modify. intros c' [= <-]%(eq_trans (eq_sym Hc)). apply wp_ret. right. by exists c.
Qed.

Lemma wp_send_all_sent me i ids m : wp (send_all me i ids) m (fun _ => sent me i ids m).
Proof.
  revert m. induction ids as [|k ids IH]; intros m; simpl.
  { apply wp_ret. split_and!; [done..|]. intros j c' Hc'. exists c'. split_and!; [done|apply jcore_refl|set_solver]. }
  case_decide as Hk.
  { eapply wp_mono; [apply IH|]. intros _ m' (E1 & E2 & E3 & H). split_and!; [done..|].
    intros j c' Hc'. destruct (H j c' Hc') as (c & ? & ? & ?). exists c. split_and!; [done..|]. intros [->|?]%elem_of_cons ?; auto. done. }
  apply wp_bind. eapply wp_mono; [apply wp_try_send|]. intros [] m1 Hs; [|apply wp_panic].
  destruct Hs as [?|(c1 & Hc1 & ->)]; [done|]. eapply wp_mono; [apply IH|]. intros _ m' (E1 & E2 & E3 & H).
  simpl in E1, E2, E3. rewrite length_insert in E2. rewrite list_lookup_insert_ne in E3 by done.
  split_and!; [done..|]. intros j c' Hc'. destruct (H j c' Hc') as (c & Hc & J & Hin). simpl in Hc.
  destruct (insert_cases _ _ _ _ _ _ Hc1 Hc) as [[-> ->]|[Hj Hc0]].
  - exists c1. split_and!; [done|eapply jcore_trans; [apply jcore_send|exact J]|]. intros _ _.
    apply (jc_inbox _ _ J). simpl. apply elem_of_app. right. by left.
  - exists c. split_and!; [done..|]. intros [?|?]%elem_of_cons Hme; [done|by apply Hin].
Qed.

Lemma wp_unjoin_notified me tid m :
  notified_but (fun _ => True) tid m -> wp (unjoin me tid) m (fun _ => notified).
Proof.
  intros Hm. apply wp_bind, wp_modify. intros c Hc. set (l := default [] (c_joins c !! tid)).
  destruct (wake_all_spec 0 l c) as (_ & _ & _ & Ej & Ei & _). set (c1 := wake_all l c) in *. fold (upd m me c1).
  assert (H1 : notified_but (fun _ => True) tid (upd m me c1)) by (apply (notified_upd _ _ _ _ c); [done|by apply jcore_same|done]).
  apply wp_bind, wp_bind. intros n m1 [= <- <-].
  eapply wp_mono; [apply wp_send_all_sent|]. intros _ m2 (Ea & El & Eme & Hs).
  apply wp_modify. intros c2 Hc2. intros j x k lx Hj Hl Hne. simpl in Hj |- *. rewrite Ea.
  assert (Hc2' : m_cpus m2 !! me = Some c1).
  { rewrite Eme. simpl. by rewrite list_lookup_insert_eq by (by apply lookup_lt_Some in Hc). }
  destruct (insert_cases _ _ _ _ _ _ Hc2 Hj) as [[-> ->]|[Hjm Hj2]].
  - cbn in Hl. change (c_joins (set_joins c2 ?j)) with j in Hl. apply lookup_delete_Some in Hl as [Hk Hl].
    rewrite Hc2' in Hc2. injection Hc2 as <-. rewrite Eme in Hc2'.
    destruct (H1 me c1 k lx Hc2' Hl Hne) as [?|[?|[? _]]]; [by left|by right|congruence].
  - destruct (Hs j x Hj2) as (cj & Hcj & J & Hin). destruct (jc_joins _ _ J k lx Hl Hne) as (l' & Hl' & Hne').
    destruct (H1 j cj k l' Hcj Hl' Hne') as [?|[?|[-> _]]]; [by left|right; by apply (jc_inbox _ _ J)|right].
    apply Hin; [|done]. apply elem_of_seq. apply lookup_lt_Some in Hcj. simpl in *. lia.
Qed.

Lemma wp_dead_notified tid m :
  notified m -> wp (mark_thread_dead tid) m (fun _ => notified_but (fun _ => True) tid).
Proof.
  intros Hm [] m' [= <-] i c k l Hc Hl Hne. simpl. destruct (decide (k = tid)) as [->|Hk]; [tauto|].
  destruct (Hm i c k l Hc Hl Hne) as [?|?]; [left; set_solver|tauto].
Qed.

Lemma jok_end_thread {A} me tid (k : M A) : jok k -> jok (mark_thread_dead tid ;; unjoin me tid ;; k).
Proof.
  intros Hk m Hm. apply wp_bind. eapply wp_mono; [by apply wp_dead_notified|]. intros ? m1 H1.
  apply wp_bind. eapply wp_mono; [by apply wp_unjoin_notified|]. intros ? m2 H2. by apply Hk.
Qed.

Lemma jok_inc me : jok (inc_rq_len me).
Proof. unfold inc_rq_len. jok_step. Qed.
Lemma jok_dec me : jok (dec_rq_len me).
Proof. unfold dec_rq_len. jok_step. Qed.

Lemma jok_kill_locally h me tid : jok (kill_locally h me tid).
Proof.
  unfold kill_locally. jok_step. case_match; jok_step.
  - case_decide; jok_step. case_decide; jok_step. case_decide; jok_step. split; [|eauto].
    change (c_joins (set_joins ?c ?j)) with j. intros k l (l' & <- & Hl')%lookup_fmap_Some Hne. exists l'.
    split; [done|]. by intros ->.
  - case_match; jok_step. apply jok_end_thread. jok_step. apply jok_dec.
Qed.

(** *** The inbox *)

Lemma jok_deblock_cmd h me pid tid : jok (handle_inbox_cmd h me (Deblock pid tid)).
Proof.
  cbn [handle_inbox_cmd]. jok_step. case_match; jok_step. case_match; [|apply jcore_refl].
  case_match. by apply jcore_same.
Qed.
Lemma jok_kill_cmd h me tid : jok (handle_inbox_cmd h me (Kill tid)).
Proof.
  cbn [handle_inbox_cmd]. jok_step. case_match; jok_step. case_match; jok_step;
    [apply jok_schedule_on|apply jok_broadcast|apply jok_kill_locally].
Qed.

Lemma wp_exited_cmd h me tid m :
  notified_but (eq me) tid m -> wp (handle_inbox_cmd h me (JoinTargetExited tid)) m (fun _ => notified).
Proof.
  intros Hm. apply wp_modify. intros c Hc i x k l Hi Hl Hne. simpl in Hi |- *.
  destruct (insert_cases _ _ _ _ _ _ Hc Hi) as [[-> ->]|[Him Hx]].
  - destruct (c_joins c !! tid) as [l0|] eqn:E.
    + destruct (wake_all_spec 0 l0 c) as (_ & _ & _ & _ & Ei & _).
      change (c_joins (set_joins ?c ?j)) with j in Hl. apply lookup_delete_Some in Hl as [Hk Hl].
      change (c_inbox (set_joins ?c ?j)) with (c_inbox c). rewrite Ei.
      destruct (Hm me c k l Hc Hl Hne) as [?|[?|[? _]]]; [tauto..|congruence].
    + destruct (Hm me c k l Hc Hl Hne) as [?|[?|[-> _]]]; [tauto..|congruence].
  - destruct (Hm i x k l Hx Hl Hne) as [?|[?|[_ ?]]]; [tauto..|congruence].
Qed.

Lemma jok_drain_loop h max me n : jok (drain_loop h max me n).
Proof.
  revert n. induction max as [|max IH]; intros n m Hm; simpl; [by apply jok_ret|].
  apply wp_bind, wp_cpu. intros c Hc. destruct (c_inbox c) as [|x rest] eqn:Ei; [by apply wp_ret|].
  apply wp_bind, wp_modify. intros c' [= <-]%(eq_trans (eq_sym Hc)). fold (upd m me (set_inbox c rest)).
  set (m1 := upd m me (set_inbox c rest)).
  assert (Hpop : forall tid, x = ItemCmd (JoinTargetExited tid) -> notified_but (eq me) tid m1).
  { intros tid -> i y k l Hi Hl Hne. simpl in Hi |- *.
    destruct (insert_cases _ _ _ _ _ _ Hc Hi) as [[-> ->]|[_ Hy]].
    - destruct (Hm me c k l Hc Hl Hne) as [?|Hin]; [tauto|]. rewrite Ei in Hin.
      apply elem_of_cons in Hin as [[= ->]|?]; tauto.
    - destruct (Hm i y k l Hy Hl Hne); tauto. }
  assert (Hrest : (forall tid, x <> ItemCmd (JoinTargetExited tid)) -> notified m1).
  { intros Hx i y k l Hi Hl Hne. simpl in Hi |- *.
    destruct (insert_cases _ _ _ _ _ _ Hc Hi) as [[-> ->]|[_ Hy]]; [|by apply (Hm i y k l)].
    destruct (Hm me c k l Hc Hl Hne) as [?|Hin]; [tauto|]. rewrite Ei in Hin.
    apply elem_of_cons in Hin as [<-|?]; [by destruct (Hx k)|tauto]. }
  destruct x as [x|[tid|pid tid|tid]].
  - refine (jok_bind _ _ _ (fun _ => IH _) m1 (Hrest _)); [|done]. jok_step.
  - apply wp_bind. eapply wp_mono; [by apply wp_exited_cmd, Hpop|]. intros ? m2 H2. by apply IH.
  - exact (jok_bind _ _ (jok_deblock_cmd h me pid tid) (fun _ => IH _) m1 (Hrest ltac:(done))).
  - exact (jok_bind _ _ (jok_kill_cmd h me tid) (fun _ => IH _) m1 (Hrest ltac:(done))).
Qed.

Lemma jok_drain h max me : jok (drain_inbox_into_ready h max me).
Proof.
  apply jok_bind; [apply jok_drain_loop|]. intros n. apply jok_when. unfold clear_resched_flag. jok_step.
Qed.

Lemma jok_migrate me target n : jok (migrate me target n).
Proof.
  induction n as [|n IH]; simpl; [apply jok_ret|]. apply jok_bind; [|intros o].
  - unfold pop_last. jok_step. case_match; jok_step.
  - case_match; [|done]. apply jok_bind; [apply jok_dec|intros _]. apply jok_bind; [apply jok_schedule_on|intros ok].
    apply jok_bind; [|done]. jok_step.
Qed.
Lemma jok_balance me : jok (balance_once me).
Proof.
  unfold balance_once. jok_step; [apply jok_reads, reads_rq|]. case_match; jok_step; [apply jok_reads, reads_less|].
  case_match; jok_step. case_match. case_match; jok_step. apply jok_migrate.
Qed.

Lemma check_sleep_fields time c :
  c_joins (check_sleep_list time c) = c_joins c /\ c_inbox (check_sleep_list time c) = c_inbox c.
Proof.
  unfold check_sleep_list. destruct (wake_expired time (c_sleep c) c) as [c1 kept] eqn:E.
  by destruct (wake_expired_spec 0 _ _ _ _ _ E) as (_ & _ & _ & Ej & Ei & _).
Qed.
Lemma jok_check_sleep time me : jok (modify_cpu me (check_sleep_list time)).
Proof. apply jok_modify. intros c. destruct (check_sleep_fields time c). by apply jcore_same. Qed.

Lemma jok_block_and_switch env me : jok (block_and_switch env me).
Proof.
  assert (Hpop : jok (c ← per_cpu_ref me;
    match pop_back (c_ready c) with
    | Some (t, q) => modify_cpu me (fun c => set_ready c q);; mret (Some t)
    | None => mret None
    end)) by (jok_step; case_match; [case_match|]; jok_step).
  unfold block_and_switch. apply jok_bind; [|intros x].
  - apply jok_bind; [exact Hpop|]. intros [x|]; [apply jok_ret|].
    apply jok_bind; [apply jok_check_sleep|intros _]. apply jok_bind; [apply jok_drain|intros _].
    apply jok_bind; [exact Hpop|]. intros [x|]; jok_step.
  - jok_step. case_match; jok_step.
Qed.

(** *** The calls *)

Lemma jok_ready me x : jok (ready me x).
Proof.
  unfold ready. jok_step; [apply jok_inc|]. split; [|eauto]. change (c_joins (set_joins ?c ?j)) with j.
  intros k l [[_ <-]|[_ ?]]%lookup_insert_Some; eauto. done.
Qed.

Lemma jok_join env me tid : jok (join env me tid).
Proof.
  intros m Hm. apply wp_bind. intros alive m1 [= <- <-]. case_bool_decide as Ha; [|by apply wp_ret].
  apply wp_bind, wp_current. intros c t Hc Ht. simpl.
  apply wp_bind, wp_modify. intros c' [= <-]%(eq_trans (eq_sym Hc)).
  refine (jok_bind _ _ (jok_dec me) (fun _ => jok_bind _ _ (jok_block_and_switch env me) (fun _ => jok_ret _)) _ _).
  intros i x k l Hi Hl Hne. simpl in Hi |- *.
  destruct (insert_cases _ _ _ _ _ _ Hc Hi) as [[-> ->]|[_ Hx]]; [|by apply (Hm i x k l)].
  change (c_joins (set_joins ?c ?j)) with j in Hl. apply lookup_insert_Some in Hl as [[<- _]|[_ Hl]]; [by left|].
  exact (Hm me c k l Hc Hl Hne).
Qed.

Lemma jok_switch env me interrupt : jok (switch_thread env me interrupt).
Proof.
  unfold switch_thread. case_match; jok_step. case_match; jok_step. case_match; jok_step.
  - unfold prepare_switch. apply jok_bind; [apply jok_when, jok_check_sleep|intros _].
    apply jok_bind; [apply jok_drain|intros _]. unfold read_resched_flag. jok_step; [|apply jok_balance].
    case_match; [apply jok_ret|apply jok_reads, reads_should_balance].
  - case_match; jok_step. case_match; [case_match; jok_step|]. jok_step. case_match; jok_step.
Qed.

Lemma jok_exec env me call : jok (exec env me call).
Proof.
  destruct call; cbn [exec].
  - apply jok_bind; [|intros x; apply jok_ready]. unfold new_thread. jok_step.
    intros m Hm a m' [= <- <-]. exact Hm.
  - unfold sleep. jok_step. case_match; jok_step. case_match; jok_step; [apply jok_dec|apply jok_block_and_switch].
  - unfold block. jok_step. case_match; jok_step; [apply jok_dec|apply jok_block_and_switch].
  - apply jok_bind; [apply jok_join|intros _; apply jok_ret].
  - unfold Sched.exit. jok_step. apply jok_end_thread. apply jok_bind; [apply jok_dec|intros _].
    apply jok_bind; [apply jok_block_and_switch|]. intros []; jok_step.
  - unfold kill. jok_step. case_match; jok_step; [apply jok_kill_locally|]. case_match; jok_step. apply jok_broadcast.
  - unfold deblock. jok_step. case_match; [case_match; jok_step; apply jok_ready|apply jok_broadcast].
  - apply jok_bind; [|intros _; apply jok_ret]. unfold unblock. jok_step. case_match; [case_match; jok_step|].
    case_match; jok_step. case_match; jok_step. case_match; jok_step.
  - unfold park_current. jok_step.
  - unfold yield_now. jok_step. case_match; jok_step. case_match; jok_step. case_match; jok_step.
    case_match; [case_match|]; jok_step.
  - apply jok_switch.
  - unfold start. jok_step. case_match; jok_step. case_match; [case_match|]; jok_step.
  - unfold set_init. jok_step.
  - unfold set_resched_flag. jok_step.
  - unfold look_for_overloaded_core. jok_step; [apply jok_reads, reads_more|]. case_match; [apply jok_ipi|apply jok_ret].
Qed.

Lemma steps_notified P m m' : notified m -> rtc (sched_step P) m m' -> notified m'.
Proof.
  intros H Hr. induction Hr as [|m m1 m2 [env me call _ _ _ E] _ IH]; [done|]. apply IH. exact (jok_exec env me call m H tt m1 E).
Qed.

(** C21 No wake-up is lost: in any run, if a thread waits on some core for the thread [tid]
    and that thread has ended, on whichever core, then the message that wakes it up is in
    the inbox of its core. *)
Theorem no_lost_wakeup apics m0 m i c tid l :
  Z.of_nat (length apics) < U64_MAX -> power_on apics = Ret m0 -> rtc (sched_step any_call) m0 m ->
  m_cpus m !! i = Some c -> c_joins c !! tid = Some l -> l <> [] -> tid ∉ m_alive m ->
  ItemCmd (JoinTargetExited tid) ∈ c_inbox c.
Proof.
  intros Hn H0 Hr Hc Hl Hne Hd.
  assert (N0 : notified m0).
  { intros j x k y Hx. destruct (power_on_fresh apics m0 Hn H0) as [F _ _ _].
    by destruct (F j x Hx) as (_ & _ & _ & _ & -> & _). }
  destruct (steps_notified any_call m0 m N0 Hr i c tid l Hc Hl Hne); tauto.
Qed.

(** *** Delivery of the message *)

(** [x] is ready, or it waits for [tid] and the message comes within the next [n]. *)
Definition will_wake (x : Thread) (tid : Z) (n : nat) (c : Cpu) : Prop :=
  x ∈ c_ready c \/
  exists l, c_joins c !! tid = Some l /\ x ∈ l /\ ItemCmd (JoinTargetExited tid) ∈ take n (c_inbox c).

Lemma wake_ready t c x : x = t \/ x ∈ c_ready c -> x ∈ c_ready (wake t c).
Proof. intros H. change (c_ready (wake t c)) with (t :: c_ready c). by apply elem_of_cons. Qed.

Lemma wake_all_ready l c x : x ∈ l \/ x ∈ c_ready c -> x ∈ c_ready (wake_all l c).
Proof.
  revert c. induction l as [|y l IH]; intros c H; simpl.
  - destruct H as [[]%elem_of_nil|]; done.
  - apply IH. destruct H as [[->|?]%elem_of_cons|?]; [right; apply wake_ready; by left|by left|right; apply wake_ready; by right].
Qed.

(** What a core does with a message other than [Kill]. *)
Definition deliver (alive : gset Z) (i : MessageItem) (c : Cpu) : Cpu :=
  match i with
  | ItemThread t => wake t c
  | ItemCmd (JoinTargetExited tid) =>
      match c_joins c !! tid with
      | Some l => set_joins (wake_all l c) (delete tid (c_joins c))
      | None => c
      end
  | ItemCmd (Deblock pid tid) =>
      if decide (tid ∈ alive) then
        match find_thread pid tid (c_blocked c) with
        | Some (pos, t) => wake t (set_blocked c (delete pos (c_blocked c)))
        | None => c
        end
      else c
  | ItemCmd (Kill _) => c
  end.

Lemma deliver_inbox a i c : c_inbox (deliver a i c) = c_inbox c.
Proof.
  destruct i as [t|[tid|pid tid|tid]]; simpl; [done|..|done].
  - destruct (c_joins c !! tid) as [l|]; [|done]. change (c_inbox (set_joins ?c ?j)) with (c_inbox c).
    apply (wake_all_spec 0 l c).
  - repeat case_match; done.
Qed.

Lemma deliver_wakes a i c x tid n rest :
  c_inbox c = i :: rest -> (forall k, i <> ItemCmd (Kill k)) ->
  will_wake x tid (S n) c -> will_wake x tid n (deliver a i (set_inbox c rest)).
Proof.
  intros Ei Hi [H|(l & Hl & Hx & Hin)].
  - left. destruct i as [t|[k|pid k|k]]; simpl; [apply wake_ready; by right|..|done].
    + case_match; [|done]. by apply (wake_all_ready _ (set_inbox c rest)); right.
    + repeat case_match; try done. apply wake_ready. by right.
  - rewrite Ei in Hin. simpl in Hin. destruct i as [t|[k|pid k|k]]; simpl; [..|by destruct (Hi k)].
    + apply elem_of_cons in Hin as [?|Hin]; [done|]. right. by exists l.
    + change (c_joins (set_inbox c rest)) with (c_joins c). destruct (decide (k = tid)) as [->|Hk].
      * rewrite Hl. left. apply (wake_all_ready l (set_inbox c rest)). by left.
      * apply elem_of_cons in Hin as [[= ?]|Hin]; [done|]. right. exists l. case_match; [|done].
        destruct (wake_all_spec 0 l0 (set_inbox c rest)) as (_ & _ & _ & _ & Eb & _).
        change (c_inbox (set_joins ?c ?j)) with (c_inbox c). rewrite Eb. split_and!; [|done|done].
        change (c_joins (set_joins ?c ?j)) with j. by rewrite lookup_delete_ne.
    + apply elem_of_cons in Hin as [?|Hin]; [done|]. right. exists l. repeat case_match; done.
Qed.

Lemma drain_wakes h x tid n me k m c :
  m_cpus m !! me = Some c -> cquiet c -> will_wake x tid n c ->
  exists k' m' c', drain_loop h n me k m = Ret (k', m') /\ m_cpus m' !! me = Some c' /\ x ∈ c_ready c'.
Proof.
  revert k m c. induction n as [|n IH]; intros k m c Hc Hq Hw; simpl.
  { destruct Hw as [?|(l & _ & _ & []%elem_of_nil)]. by exists k, m, c. }
  unfold mbind, M_bind, per_cpu_ref, modify_cpu. rewrite Hc. pose proof (lookup_lt_Some _ _ _ Hc) as Hlt.
  destruct (c_inbox c) as [|i rest] eqn:Ei.
  { destruct Hw as [?|(l & _ & _ & Hin)]; [by exists k, m, c|]. rewrite Ei in Hin. by apply elem_of_nil in Hin. }
  assert (Hi : forall z, i <> ItemCmd (Kill z)) by (intros z ->; apply (Hq z); rewrite Ei; by left).
  pose proof (deliver_wakes (m_alive m) i c x tid n rest Ei Hi Hw) as Hd.
  assert (Hq' : cquiet (deliver (m_alive m) i (set_inbox c rest))).
  { intros z. rewrite deliver_inbox. simpl. intros Hin. apply (Hq z). rewrite Ei. by right. }
  set (c' := deliver (m_alive m) i (set_inbox c rest)) in *.
  assert (Hc' : m_cpus (upd m me c') !! me = Some c') by (simpl; by rewrite list_lookup_insert_eq).
  rewrite Hc. simpl. destruct i as [t|[z|pid z|z]]; simpl; unfold is_thread_alive, gets; simpl; rewrite ?list_lookup_insert_eq by done.
  - unfold set_cpus; simpl. rewrite list_insert_insert_eq. exact (IH _ _ _ Hc' Hq' Hd).
  - unfold modify_cpu. simpl. rewrite list_lookup_insert_eq by done. unfold set_cpus; simpl. rewrite list_insert_insert_eq. exact (IH _ _ _ Hc' Hq' Hd).
  - unfold mbind, M_bind. cbn [m_alive set_cpus]. unfold c', deliver in *. case_bool_decide; simpl.
    + rewrite decide_True in * by done. unfold modify_cpu. simpl. rewrite list_lookup_insert_eq by done.
      unfold set_cpus; simpl. rewrite list_insert_insert_eq. exact (IH _ _ _ Hc' Hq' Hd).
    + rewrite decide_False in * by done. exact (IH _ _ _ Hc' Hq' Hd).
  - by destruct (Hi z).
Qed.

(** A join returns: in a run without [kill], if [x] waits on core [i] for a thread that has
    ended, then the core can drain its inbox, and when it has done so [x] is in its ready
    queue. *)
Theorem join_returns apics m0 m i c tid l x h n :
  Z.of_nat (length apics) < U64_MAX -> power_on apics = Ret m0 -> rtc (sched_step orderly) m0 m ->
  m_cpus m !! i = Some c -> c_joins c !! tid = Some l -> x ∈ l -> tid ∉ m_alive m ->
  (length (c_inbox c) <= n)%nat ->
  exists m' c', drain_inbox_into_ready h n i m = Ret (tt, m') /\ m_cpus m' !! i = Some c' /\ x ∈ c_ready c'.
Proof.
  intros Hn H0 Hr Hc Hl Hx Hd Hlen. destruct (power_on_ok apics m0 Hn H0) as [I X].
  destruct (steps_ok orderly m0 m I Hr) as [_ HX]. pose proof (ex_quiet m (HX (fun _ p => p) X) i c Hc) as Hq.
  assert (N : notified m).
  { apply (steps_notified orderly m0); [|done]. intros j y k z Hy.
    destruct (power_on_fresh apics m0 Hn H0) as [F _ _ _]. by destruct (F j y Hy) as (_ & _ & _ & _ & -> & _). }
  assert (Hw : will_wake x tid n c).
  { right. exists l. split_and!; [done|done|]. rewrite take_ge by done.
    destruct (N i c tid l Hc Hl) as [?|?]; [by intros ->; apply elem_of_nil in Hx|done|done]. }
  destruct (drain_wakes h x tid n i 0%nat m c Hc Hq Hw) as (k & m1 & c1 & E & Hc1 & Hx1).
  unfold drain_inbox_into_ready, mbind, M_bind. rewrite E. destruct (0 <? Z.of_nat k); simpl; [|by exists m1, c1].
  unfold clear_resched_flag, modify_cpu. rewrite Hc1. eexists _, (set_flag c1 false). split; [reflexivity|].
  simpl. rewrite list_lookup_insert_eq by (by apply lookup_lt_Some in Hc1). done.
Qed.

(** The run of [demo_calls] until thread 5 has ended on core 1; thread 3 waits on core 0. *)
Definition join_calls : list (Env * nat * sched_call) := removelast demo_calls.
Definition demo_cpu0 : Cpu :=
  match m_cpus (demo_machine join_calls) !! 0%nat with
  | Some c => c
  | None => mkCpu (mkScheduler (mkReadyState false None [] (mkThread 0 0)) [] [] ∅ false) (PerCpuRef_new 0) []
  end.
Lemma demo_cpu0_lookup : m_cpus (demo_machine join_calls) !! 0%nat = Some demo_cpu0.
Proof. vm_compute. reflexivity. Qed.

Lemma no_lost_wakeup_witness : ItemCmd (JoinTargetExited 5) ∈ c_inbox demo_cpu0.
Proof.
  apply (no_lost_wakeup [0; 1] (demo_machine []) (demo_machine join_calls) 0 demo_cpu0 5 [mkThread 3 7]);
    [done|exact demo_power_on| |exact demo_cpu0_lookup|vm_compute; reflexivity|done|apply (bool_decide_unpack _); vm_compute; exact I].
  apply demo_reach; [by repeat constructor|by vm_compute].
Defined.

Lemma join_returns_witness : exists m' c',
  drain_inbox_into_ready false 10 0 (demo_machine join_calls) = Ret (tt, m') /\
  m_cpus m' !! 0%nat = Some c' /\ mkThread 3 7 ∈ c_ready c'.
Proof.
  apply (join_returns [0; 1] (demo_machine []) (demo_machine join_calls) 0 demo_cpu0 5 [mkThread 3 7]);
    [done|exact demo_power_on| |exact demo_cpu0_lookup|vm_compute; reflexivity|by left|apply (bool_decide_unpack _); vm_compute; exact I|
     apply (bool_decide_unpack _); vm_compute; exact I].
  apply demo_reach; [by repeat constructor|by vm_compute].
Defined.
