(* ===== verification/SchedFair.v ===== *)
(** * Fairness, load balancing and interrupts of the scheduler

    The ready queue is served in turn ([bounded_waiting]); balancing moves threads to a core
    with the least load and never overshoots ([balance_target]); an interrupt is
    acknowledged, but twice when the core becomes idle ([eoi_count]). *)

From S2P Require Import Prelude Errno Sched SchedProofs SchedRun.

Open Scope list_scope.
Open Scope Z_scope.

(** ** Round robin *)

(** The hardware lets the scheduler switch. *)
Definition free_env (env : Env) : Prop :=
  e_state_locked env = false /\ e_preempt_disabled env = false /\ e_stacks_locked env = false /\
  e_tss_locked env = false.

(** A machine with one running core whose counter is far from overflow. *)
Record one_core (c : Cpu) (m : Machine) : Prop := {
  oc_cpus : m_cpus m = [c];
  oc_init : initialized (c_rs c) = true;
  oc_current : is_Some (c_current c);
  oc_inbox : c_inbox c = [];
  oc_rq : 0 <= c_rq c /\ c_rq c + Z.of_nat (length (c_sleep c)) < U32_MAX
}.

Lemma wake_expired_lists time l c c' kept :
  wake_expired time l c = (c', kept) -> 0 <= c_rq c -> c_rq c + Z.of_nat (length l) < U32_MAX ->
  (exists w, c_ready c' = w ++ c_ready c) /\ 0 <= c_rq c' /\
  c_rq c' + Z.of_nat (length kept) <= c_rq c + Z.of_nat (length l).
Proof.
  revert c c' kept. induction l as [|[t w] l IH]; intros c c' kept; cbn [wake_expired].
  { intros [= -> <-] ? ?. split_and!; [by exists []|done|simpl; lia]. }
  intros E H0 H1. simpl in H1. destruct (time >=? w).
  - assert (Er : c_rq (wake t c) = c_rq c + 1) by (apply Z.mod_small; unfold U32_MAX in *; lia).
    destruct (IH _ _ _ E) as ([v Hv] & ? & ?); [lia|lia|]. split_and!; [|done|simpl; lia].
    exists (v ++ [t]). rewrite Hv. by rewrite <- app_assoc.
  - destruct (wake_expired time l c) as [c1 k1] eqn:E1. injection E as <- <-.
    destruct (IH _ _ _ E1) as (? & ? & ?); [lia|lia|]. split_and!; [done|done|simpl; lia].
Qed.

(** Waking up sleeping threads puts them at the front of the queue. *)
Lemma one_core_check_sleep time c m :
  one_core c m -> let c' := check_sleep_list time c in
  one_core c' (set_cpus m [c']) /\ c_idle c' = c_idle c /\ c_current c' = c_current c /\
  exists w, c_ready c' = w ++ c_ready c.
Proof.
  intros [H1 H2 H3 H4 [H5 H6]] c'. unfold c', check_sleep_list.
  destruct (wake_expired time (c_sleep c) c) as [c1 kept] eqn:E.
  destruct (wake_expired_spec 0 _ _ _ _ _ E) as (_ & _ & Ef & _ & Ei & _).
  destruct (wake_expired_lists _ _ _ _ _ E H5 H6) as (Hw & H7 & H8).
  destruct (frame_fields _ _ Ef) as (F1 & _ & F2 & F3 & _).
  change (c_idle (set_sleep c1 kept)) with (c_idle c1). change (c_current (set_sleep c1 kept)) with (c_current c1).
  split_and!; [|done|done|done]. split; [done|by rewrite <- H2, <- F1|by rewrite <- F3 in H3|by rewrite <- H4, <- Ei|].
  split; [done|]. change (c_rq (set_sleep c1 kept)) with (c_rq c1).
  change (c_sleep (set_sleep c1 kept)) with kept. lia.
Qed.

(** With one core there is nothing to balance. *)
Lemma one_core_rq c m : one_core c m -> read_rq_len_remote 0 m = Ret (c_rq c, m).
Proof. intros [H1 _ _ _ _]. unfold read_rq_len_remote, per_cpu_ref, mbind, M_bind. by rewrite H1. Qed.

Lemma one_core_bind {A B} (e : M A) (k : A -> M B) (a : A) (m : Machine) :
  e m = Ret (a, m) -> (e ≫= k) m = k a m.
Proof. intros E. unfold mbind, M_bind. by rewrite E. Qed.

Lemma one_core_count c m : one_core c m -> active_thread_count m = Ret (c_rq c, m).
Proof.
  intros H. unfold active_thread_count.
  rewrite (one_core_bind _ _ 1%nat) by (unfold cpu_count, gets; by rewrite (oc_cpus _ _ H)).
  rewrite (one_core_bind _ _ (Some (c_rq c))); [done|]. simpl.
  rewrite (one_core_bind _ _ _ _ (one_core_rq c m H)). destruct (oc_rq _ _ H).
  by rewrite (proj2 (Z.leb_le _ _)) by (unfold U32_MAX in *; lia).
Qed.

Lemma one_core_should c m : one_core c m -> should_balance_now 0 m = Ret (c_rq c >? c_rq c + 1, m).
Proof.
  intros H. unfold should_balance_now. rewrite (one_core_bind _ _ _ _ (one_core_count c m H)).
  rewrite (one_core_bind _ _ _ _ (one_core_rq c m H)).
  rewrite (one_core_bind _ _ 1%nat) by (unfold cpu_count, gets; by rewrite (oc_cpus _ _ H)).
  destruct (oc_rq _ _ H). unfold wrap32, U32_MAX in *. change (Z.of_nat 1) with 1.
  by rewrite (Z.mod_small (c_rq c)), Z.div_1_r, (proj2 (Z.leb_le _ _)) by lia.
Qed.

Lemma one_core_balance_once c m : one_core c m -> balance_once 0 m = Ret (tt, m).
Proof.
  intros H. unfold balance_once. rewrite (one_core_bind _ _ _ _ (one_core_rq c m H)).
  case_test; [done|]. rewrite (one_core_bind _ _ None); [done|]. unfold find_less_loaded_core.
  rewrite (one_core_bind _ _ _ _ (one_core_rq c m H)).
  rewrite (one_core_bind _ _ 1%nat) by (unfold cpu_count, gets; by rewrite (oc_cpus _ _ H)). simpl.
  rewrite (one_core_bind _ _ (0%nat, c_rq c)) by done. rewrite (one_core_bind _ _ _ _ (one_core_rq c m H)).
  simpl. by rewrite Z.geb_leb, Z.leb_refl.
Qed.

Lemma one_core_prepare env c m :
  one_core c m -> exists c', prepare_switch env 0 m = Ret (tt, set_cpus m [c']) /\
  one_core c' (set_cpus m [c']) /\ c_idle c' = c_idle c /\ c_current c' = c_current c /\
  exists w, c_ready c' = w ++ c_ready c.
Proof.
  intros H.
  assert (Hc : exists c', when (negb (e_sleep_locked env)) (modify_cpu 0 (check_sleep_list (e_time env))) m = Ret (tt, set_cpus m [c']) /\
    one_core c' (set_cpus m [c']) /\ c_idle c' = c_idle c /\ c_current c' = c_current c /\
    exists w, c_ready c' = w ++ c_ready c).
  { destruct (e_sleep_locked env); simpl.
    - exists c. destruct m as [cpus al st nx eo ip dr]; destruct H as [H1 ? ? ? ?]; simpl in *; subst cpus.
      split_and!; [done|by split|done|done|by exists []].
    - exists (check_sleep_list (e_time env) c). split; [|by apply one_core_check_sleep].
      unfold modify_cpu. by rewrite (oc_cpus _ _ H). }
  destruct Hc as (c' & E & H' & E1 & E2 & Hw). exists c'. split; [|done]. unfold prepare_switch.
  unfold mbind at 1, M_bind at 1. rewrite E. set (m1 := set_cpus m [c']) in *.
  rewrite (one_core_bind _ _ tt).
  2:{ unfold drain_inbox_into_ready. rewrite (one_core_bind _ _ 0%nat); [done|]. cbn [drain_loop].
      unfold mbind, M_bind, per_cpu_ref. rewrite (oc_cpus _ _ H'). simpl. by rewrite (oc_inbox _ _ H'). }
  rewrite (one_core_bind _ _ (resched_flag (c_ref c'))).
  2:{ unfold read_resched_flag, mbind, M_bind, per_cpu_ref. by rewrite (oc_cpus _ _ H'). }
  destruct (resched_flag (c_ref c')).
  - rewrite (one_core_bind _ _ true) by done. by apply (one_core_balance_once c').
  - rewrite (one_core_bind _ _ _ _ (one_core_should c' m1 H')). destruct (_ >? _); [by apply (one_core_balance_once c')|done].
Qed.

(** One timer interrupt: the last thread of the queue runs, the others move up. *)
Lemma one_core_tick env c m q y interrupt :
  one_core c m -> free_env env -> c_ready c = q ++ [y] ->
  exists m' c' w, switch_thread env 0 interrupt m = Ret (tt, m') /\ one_core c' m' /\
    c_current c' = Some y /\ c_ready c' = w ++ q.
Proof.
  intros H (F1 & F2 & F3 & F4) Hq. destruct (one_core_prepare env c m H) as (c1 & E & H1 & Eid & Ecur & w & Hw).
  destruct (oc_current _ _ H) as [cur Hcur]. unfold switch_thread. rewrite F1.
  rewrite (one_core_bind _ _ c) by (unfold per_cpu_ref; by rewrite (oc_cpus _ _ H)).
  rewrite (oc_init _ _ H), F2. simpl. unfold mbind at 1, M_bind at 1. rewrite E. set (m1 := set_cpus m [c1]) in *.
  assert (Hcpu : per_cpu_ref 0 m1 = Ret (c1, m1)) by (unfold per_cpu_ref; by rewrite (oc_cpus _ _ H1)).
  rewrite (one_core_bind _ _ cur).
  2:{ unfold current. rewrite (one_core_bind _ _ _ _ Hcpu). by rewrite Ecur, Hcur. }
  rewrite (one_core_bind _ _ _ _ Hcpu). rewrite F3, F4. simpl.
  assert (Eq : pop_back (c_ready c1) = Some (y, w ++ q)) by (rewrite Hw, Hq, app_assoc; apply pop_back_app).
  rewrite Eq. set (c2 := switched c1 cur y (w ++ q)).
  assert (Hone : forall eo, one_core c2 (mkMachine [c2] (m_alive m1) (m_states m1) (m_next_tid m1) eo (m_ipis m1) (m_dropped m1))).
  { intros eo. destruct H1 as [A1 A2 A3 A4 A5]. unfold c2, switched. case_test; (split; [done|done|by eexists|done|done]). }
  assert (Hc2 : c_current c2 = Some y /\ exists v, c_ready c2 = v ++ q).
  { unfold c2, switched. case_test; (split; [done|]); [by exists w|by exists (cur :: w)]. }
  destruct Hc2 as (Hy & v & Hv).
  assert (Eend : (modify_cpu 0 (fun c => set_current (set_ready c (w ++ q)) y) ;;
    when (negb (t_id cur =? t_id (c_idle c1))) (modify_cpu 0 (push_front cur)) ;; when interrupt end_of_interrupt) m1 =
    Ret (tt, mkMachine [c2] (m_alive m1) (m_states m1) (m_next_tid m1) (if interrupt then m_eois m1 + 1 else m_eois m1) (m_ipis m1) (m_dropped m1))).
  { unfold c2, switched. unfold mbind, M_bind, modify_cpu at 1. rewrite (oc_cpus _ _ H1). simpl.
    destruct (t_id cur =? t_id (c_idle c1)); destruct interrupt; done. }
  rewrite Eend. eexists _, c2, v. split; [reflexivity|]. split; [apply Hone|done].
Qed.

Fixpoint ticks (l : list Env) (interrupt : bool) : M unit :=
  match l with
  | [] => mret tt
  | env :: l => switch_thread env 0 interrupt ;; ticks l interrupt
  end.


(** A core with threads 2, 3 and 4 in its queue; the ready thread 2 runs after three interrupts. *)
Definition rr_cpu : Cpu :=
  mkCpu (mkScheduler (mkReadyState true (Some (mkThread 5 7)) [mkThread 2 7; mkThread 3 7; mkThread 4 7] (mkThread 1 0))
    [(mkThread 6 7, 15)] [] ∅ true) (mkPerCpuRef 4 false 0) [].
Definition rr_machine : Machine := mkMachine [rr_cpu] {[2; 3; 4; 5; 6]} ∅ 7 0 [] [].


(** ** Load balancing *)

Lemma min_rq_spec m ids curr min :
  (forall i, i ∈ ids -> is_Some (m_cpus m !! i)) ->
  exists tc tl, min_rq ids curr min m = Ret ((tc, tl), m) /\
    tl <= min /\ (forall i c, i ∈ ids -> m_cpus m !! i = Some c -> tl <= c_rq c) /\
    ((tc = curr /\ tl = min) \/ (tc ∈ ids /\ c_rq <$> m_cpus m !! tc = Some tl)).
Proof.
  revert curr min. induction ids as [|i ids IH]; intros curr min Hi; simpl.
  { exists curr, min. split_and!; [done|lia|by intros ? ? []%elem_of_nil|by left]. }
  destruct (Hi i ltac:(by left)) as [c Hc].
  assert (E : read_rq_len_remote i m = Ret (c_rq c, m)) by (unfold read_rq_len_remote, per_cpu_ref, mbind, M_bind; by rewrite Hc).
  rewrite (one_core_bind _ _ _ _ E). assert (Hi' : forall j, j ∈ ids -> is_Some (m_cpus m !! j)) by (intros; apply Hi; by right).
  case_test.
  - destruct (IH i (c_rq c) Hi') as (tc & tl & E1 & H1 & H2 & H3). exists tc, tl. split_and!; [done|lia| |].
    + intros j cj [->|Hj]%elem_of_cons Hcj; [simplify_eq; lia|by apply (H2 j)].
    + right. destruct H3 as [[-> ->]|[? ?]]; [split; [by left|by rewrite Hc]|split; [by right|done]].
  - destruct (IH curr min Hi') as (tc & tl & E1 & H1 & H2 & H3). exists tc, tl. split_and!; [done|lia| |].
    + intros j cj [->|Hj]%elem_of_cons Hcj; [simplify_eq; lia|by apply (H2 j)].
    + destruct H3 as [?|[? ?]]; [by left|right; split; [by right|done]].
Qed.

(** Moving a quarter of the difference and one more. *)
Lemma balance_amount_bound own target : target + 2 <= own -> 0 < balance_amount own target /\ 2 * balance_amount own target <= own - target.
Proof. intros H. unfold balance_amount. pose proof (Z.div_mod (own - target) 4). pose proof (Z.mod_pos_bound (own - target) 4). lia. Qed.

(** The target of load balancing: [find_less_loaded_core] returns on every machine, and the
    core it finds is another core with the least published load of all, less than the own
    one; the number of threads that [balance_once] moves there is at least one and never
    makes the target busier than the own core. *)
Theorem balance_target m me c :
  m_cpus m !! me = Some c ->
  exists o, find_less_loaded_core me m = Ret (o, m) /\
    match o with
    | None => forall i ci, m_cpus m !! i = Some ci -> c_rq c <= c_rq ci
    | Some (tc, tl) =>
        tc <> me /\ c_rq <$> m_cpus m !! tc = Some tl /\ tl < c_rq c /\
        (forall i ci, m_cpus m !! i = Some ci -> tl <= c_rq ci) /\
        (tl + 2 <= c_rq c -> 0 < balance_amount (c_rq c) tl /\
          tl + balance_amount (c_rq c) tl <= c_rq c - balance_amount (c_rq c) tl)
    end.
Proof.
  intros Hc. pose proof (lookup_lt_Some _ _ _ Hc) as Hlt. destruct (m_cpus m) as [|c0 cs] eqn:Ecs; [simpl in Hlt; lia|].
  assert (E : forall i ci, m_cpus m !! i = Some ci -> read_rq_len_remote i m = Ret (c_rq ci, m)).
  { intros i ci Hi. unfold read_rq_len_remote, per_cpu_ref, mbind, M_bind. by rewrite Hi. }
  rewrite <- Ecs in *. assert (Hc0 : m_cpus m !! 0%nat = Some c0) by by rewrite Ecs.
  unfold find_less_loaded_core. rewrite (one_core_bind _ _ _ _ (E _ _ Hc0)).
  rewrite (one_core_bind _ _ (length (m_cpus m))) by done.
  destruct (min_rq_spec m (seq 1 (length (m_cpus m) - 1)) 0%nat (c_rq c0)) as (tc & tl & E1 & H1 & H2 & H3).
  { intros i Hi%elem_of_seq. apply lookup_lt_is_Some. lia. }
  rewrite (one_core_bind _ _ _ _ E1), (one_core_bind _ _ _ _ (E _ _ Hc)).
  assert (Hmin : forall i ci, m_cpus m !! i = Some ci -> tl <= c_rq ci).
  { intros [|i] ci Hi; [simplify_eq; lia|]. apply (H2 (S i)); [|done]. apply lookup_lt_Some in Hi. apply elem_of_seq. lia. }
  assert (Htc : c_rq <$> m_cpus m !! tc = Some tl) by (destruct H3 as [[-> ->]|[_ ?]]; [by rewrite Hc0|done]).
  eexists. split; [reflexivity|]. simpl. destruct (Z.geb_spec tl (c_rq c)) as [Hge|Hlt'].
  - intros i ci Hi. specialize (Hmin i ci Hi). lia.
  - split_and!; [|done|lia|done|].
    + intros ->. rewrite Hc in Htc. simpl in Htc. simplify_eq. lia.
    + intros H. pose proof (balance_amount_bound _ _ H). lia.
Qed.

Lemma balance_target_witness : exists o,
  find_less_loaded_core 0 (mkMachine [rr_cpu; set_rq rr_cpu 1; set_rq rr_cpu 2] ∅ ∅ 7 0 [] []) =
    Ret (o, mkMachine [rr_cpu; set_rq rr_cpu 1; set_rq rr_cpu 2] ∅ ∅ 7 0 [] []) /\
  match o with
  | None => forall i ci, [rr_cpu; set_rq rr_cpu 1; set_rq rr_cpu 2] !! i = Some ci -> c_rq rr_cpu <= c_rq ci
  | Some (tc, tl) =>
      tc <> 0%nat /\ c_rq <$> [rr_cpu; set_rq rr_cpu 1; set_rq rr_cpu 2] !! tc = Some tl /\ tl < c_rq rr_cpu /\
      (forall i ci, [rr_cpu; set_rq rr_cpu 1; set_rq rr_cpu 2] !! i = Some ci -> tl <= c_rq ci) /\
      (tl + 2 <= c_rq rr_cpu -> 0 < balance_amount (c_rq rr_cpu) tl /\
        tl + balance_amount (c_rq rr_cpu) tl <= c_rq rr_cpu - balance_amount (c_rq rr_cpu) tl)
  end.
Proof.
  apply (balance_target (mkMachine [rr_cpu; set_rq rr_cpu 1; set_rq rr_cpu 2] ∅ ∅ 7 0 [] []) 0 rr_cpu). reflexivity.
Defined.

(** ** Acknowledging interrupts *)

(** Operations that send no end-of-interrupt message. *)
Definition noeoi {A} (e : M A) : Prop := forall m a m', e m = Ret (a, m') -> m_eois m' = m_eois m.

Lemma noeoi_bind {A B} (e : M A) (k : A -> M B) : noeoi e -> (forall a, noeoi (k a)) -> noeoi (e ≫= k).
Proof.
  intros H1 H2 m b m'. unfold mbind, M_bind. destruct (e m) as [[a m1]|] eqn:E; [|done].
  intros E2. rewrite (H2 a m1 b m' E2). by apply (H1 m a).
Qed.
Lemma noeoi_reads {A} (e : M A) : reads e -> noeoi e.
Proof. intros H m a m' E. by rewrite (H m a m' E). Qed.
Lemma noeoi_modify me f : noeoi (modify_cpu me f).
Proof. intros m a m'. unfold modify_cpu. case_match; by intros [= <- <-]. Qed.
Lemma noeoi_when b e : noeoi e -> noeoi (when b e).
Proof. destruct b; [done|]. intros _. apply noeoi_reads, reads_ret. Qed.
Lemma reads_current me : reads (current me).
Proof. apply reads_bind; [apply reads_cpu|]. intros c. case_match; [apply reads_ret|apply reads_panic]. Qed.
Lemma reads_lock b name : reads (lock b name).
Proof. intros m a m'. unfold lock. case_match; by intros [= <- <-]. Qed.

Ltac noeoi_step := repeat lazymatch goal with
  | |- noeoi (_ ≫= _) => apply noeoi_bind; [|intros ?]
  | |- noeoi (mret _) => apply noeoi_reads, reads_ret
  | |- noeoi (panic _) => apply noeoi_reads, reads_panic
  | |- noeoi (per_cpu_ref _) => apply noeoi_reads, reads_cpu
  | |- noeoi (gets _) => apply noeoi_reads, reads_gets
  | |- noeoi (is_thread_alive _) => apply noeoi_reads, reads_gets
  | |- noeoi cpu_count => apply noeoi_reads, reads_gets
  | |- noeoi (current _) => apply noeoi_reads, reads_current
  | |- noeoi (lock _ _) => apply noeoi_reads, reads_lock
  | |- noeoi (when _ _) => apply noeoi_when
  | |- noeoi (modify_cpu _ _) => apply noeoi_modify
  | |- noeoi (dec_rq_len _) => apply noeoi_modify
  | |- noeoi (mark_thread_dead _) => by intros ? ? ? [= <- <-]
  | |- noeoi (drop_thread _) => by intros ? ? ? [= <- <-]
  | |- noeoi (modify_ipis _) => by intros ? ? ? [= <- <-]
  | |- noeoi (if ?b then _ else _) => destruct b
  | |- noeoi (match ?o with _ => _ end) => destruct o
  end.

Lemma noeoi_try_send t i : noeoi (try_send t i).
Proof. unfold try_send. noeoi_step. Qed.
Lemma noeoi_send_all me i ids : noeoi (send_all me i ids).
Proof. induction ids as [|k ids IH]; simpl; noeoi_step; [done|apply noeoi_try_send|done]. Qed.
Lemma noeoi_broadcast me i : noeoi (schedule_on_all_others me i).
Proof. unfold schedule_on_all_others. noeoi_step. apply noeoi_send_all. Qed.
Lemma noeoi_schedule_on t i : noeoi (schedule_on t i).
Proof. unfold schedule_on, send_reschedule_ipi, per_cpu_apic_id. noeoi_step. apply noeoi_try_send. Qed.
Lemma noeoi_unjoin me tid : noeoi (unjoin me tid).
Proof. unfold unjoin. noeoi_step. apply noeoi_broadcast. Qed.
Lemma noeoi_kill_locally h me tid : noeoi (kill_locally h me tid).
Proof. unfold kill_locally. noeoi_step. apply noeoi_unjoin. Qed.
Lemma noeoi_handle h me cmd : noeoi (handle_inbox_cmd h me cmd).
Proof.
  destruct cmd; cbn [handle_inbox_cmd]; noeoi_step; [apply noeoi_schedule_on|apply noeoi_broadcast|apply noeoi_kill_locally].
Qed.
Lemma noeoi_drain_loop h n me k : noeoi (drain_loop h n me k).
Proof. revert k. induction n as [|n IH]; intros k; simpl; noeoi_step; [done|apply noeoi_handle|done]. Qed.
Lemma noeoi_migrate me target n : noeoi (migrate me target n).
Proof.
  induction n as [|n IH]; simpl; noeoi_step; [unfold pop_last; noeoi_step|apply noeoi_schedule_on|done|done].
Qed.
Lemma noeoi_prepare env me : noeoi (prepare_switch env me).
Proof.
  unfold prepare_switch, read_resched_flag, drain_inbox_into_ready, clear_resched_flag, balance_once. noeoi_step;
    [apply noeoi_drain_loop|apply noeoi_reads, reads_should_balance|apply noeoi_reads, reads_rq|apply noeoi_reads, reads_less|apply noeoi_migrate].
Qed.

Definition acknowledged (me : nat) (m m' : Machine) : Prop :=
  m_eois m' = m_eois m + 1 \/
  (m_eois m' = m_eois m + 2 /\ exists c' x, m_cpus m' !! me = Some c' /\
    c_current c' = Some (c_idle c') /\ c_ready c' = [x]).

Lemma wp_ack me m0 m : m_eois m = m_eois m0 -> wp end_of_interrupt m (fun _ => acknowledged me m0).
Proof. intros E [] m' [= <-]. left. simpl. lia. Qed.

Lemma wp_acknowledged env me m : wp (switch_thread env me true) m (fun _ => acknowledged me m).
Proof.
  unfold switch_thread. simpl. destruct (e_state_locked env); [by apply wp_ack|].
  apply wp_bind, wp_cpu. intros c0 Hc0. destruct (initialized (c_rs c0)); [|by apply wp_ack]. simpl.
  destruct (e_preempt_disabled env); [by apply wp_ack|].
  apply wp_bind. intros [] m1 E1%noeoi_prepare. apply wp_bind, wp_current. intros c cur Hc Hcur.
  apply wp_bind, wp_cpu. intros c' [= <-]%(eq_trans (eq_sym Hc)).
  destruct (e_stacks_locked env || e_tss_locked env); [by apply wp_ack|].
  pose proof (lookup_lt_Some _ _ _ Hc) as Hlt. destruct (pop_back (c_ready c)) as [[next q]|] eqn:Eq.
  - apply wp_bind, wp_modify. intros c' _. apply wp_bind.
    destruct (negb _); simpl; [apply wp_modify; intros c'' _|apply wp_ret]; by apply wp_ack.
  - apply pop_back_None in Eq. apply wp_bind. intros [] m2 [= <-].
    destruct (Z.eqb_spec (t_id cur) (t_id (c_idle c))); [apply wp_ret; left; simpl; lia|]. simpl.
    apply wp_bind, wp_modify. intros c' Hc'. simpl in Hc'. rewrite Hc in Hc'. injection Hc' as <-.
    apply wp_bind, wp_modify. intros c' Hc'. simpl in Hc'. rewrite list_lookup_insert_eq in Hc' by done. injection Hc' as <-.
    intros [] m' [= <-]. right. split; [simpl; lia|]. unfold set_cpus; simpl. rewrite list_insert_insert_eq.
    exists (push_front cur (set_current c (c_idle c))), cur. split; [by rewrite list_lookup_insert_eq|]. split; [done|].
    change (c_ready (push_front cur (set_current c (c_idle c)))) with (cur :: c_ready c). by rewrite Eq.
Qed.

(** An interrupt of the timer is acknowledged on every path of [switch_thread], once, except
    that the acknowledgement is sent twice when the ready queue is empty and the core
    switches from a thread to the idle thread. *)
Theorem eoi_count env me m m' :
  switch_thread_from_interrupt env me m = Ret (tt, m') ->
  m_eois m' = m_eois m + 1 \/
  (m_eois m' = m_eois m + 2 /\ exists c' x, m_cpus m' !! me = Some c' /\
    c_current c' = Some (c_idle c') /\ c_ready c' = [x]).
Proof. exact (wp_acknowledged env me m tt m'). Qed.

(** A core with one thread and nothing else to do. *)
Definition lone_machine : Machine := mkMachine [set_sleep (set_ready rr_cpu []) []] {[5]} ∅ 7 0 [] [].
Definition lone_after : Machine :=
  match switch_thread_from_interrupt (at_ms 10) 0 lone_machine with Ret (_, m) => m | Panic _ => lone_machine end.

Lemma eoi_count_witness :
  m_eois lone_after = 2 /\ (m_eois lone_after = m_eois lone_machine + 1 \/
  (m_eois lone_after = m_eois lone_machine + 2 /\ exists c' x, m_cpus lone_after !! 0%nat = Some c' /\
    c_current c' = Some (c_idle c') /\ c_ready c' = [x])).
Proof.
  split; [vm_compute; reflexivity|]. apply (eoi_count (at_ms 10) 0 lone_machine lone_after). vm_compute. reflexivity.
Defined.
