(* ===== verification/SchedKill.v ===== *)
(** * Killing threads

    What [kill] and [kill_locally] of the scheduler do where they do not do what they mean
    to: a sleeping thread may be removed without being marked dead
    ([kill_loses_sleeping_thread]), a waiting thread may be marked dead and run on
    ([killed_thread_runs]), the load counter may underflow ([kill_then_sleep_panics]), and a
    core may wait for a lock it holds ([remote_kill_hangs_core]). *)

From S2P Require Import Prelude Errno Sched SchedProofs SchedRun SchedFair.

Open Scope list_scope.
Open Scope Z_scope.

Lemma others_none t l : occ t l = 0%nat -> others t l = l.
Proof.
  unfold others. induction l as [|x l IH]; [done|]. rewrite occ_cons. intros H.
  rewrite filter_cons_True; [|intros <-; rewrite occ_self in H; lia]. f_equal. apply IH. lia.
Qed.
Lemma others_length t l : (length (others t l) + occ t l = length l)%nat.
Proof.
  unfold others. induction l as [|x l IH]; [done|]. rewrite occ_cons, filter_cons. case_decide as Hx; simpl.
  - rewrite (occ_other t x) by congruence. lia.
  - assert (t_id x = t) as <- by (by destruct (decide (t_id x = t))). rewrite occ_self. lia.
Qed.
Lemma others_asleep_fst t l : (others_asleep t l).*1 = others t l.*1.
Proof.
  unfold others, others_asleep. induction l as [|[x w] l IH]; [done|]. csimpl. rewrite !filter_cons. simpl.
  case_decide; csimpl; by rewrite IH.
Qed.
Lemma occ_others_self t l : occ t (others t l) = 0%nat.
Proof.
  unfold others. induction l as [|x l IH]; [done|]. rewrite filter_cons. case_decide; [|done].
  rewrite occ_cons, (occ_other t x) by congruence. done.
Qed.

Lemma occ_others_ne t k l : t <> k -> occ t (others k l) = occ t l.
Proof.
  intros Hne. unfold others. induction l as [|x l IH]; [done|]. rewrite filter_cons, (occ_cons t x l).
  case_decide as Hx; [by rewrite occ_cons, IH|]. rewrite IH, (occ_other t x); [done|].
  intros ->. by destruct Hx.
Qed.

(** ** Killing a ready thread *)

(** Taking a ready thread out of the queue. *)
Lemma flow_remove_ready (s : Prop) u i m me c x :
  m_cpus m !! me = Some c -> occ (t_id x) (c_ready c) = 1%nat ->
  flow s u i (if decide (u = t_id x) then -1 else 0) (at_core i me 1) m (upd m me (set_ready c (others (t_id x) (c_ready c)))).
Proof.
  intros Hc Hx. pose proof (set_ready_occ u c (others (t_id x) (c_ready c))) as Ho.
  pose proof (others_length (t_id x) (c_ready c)) as Hl.
  assert (Hd : Z.of_nat (occ u (others (t_id x) (c_ready c))) = Z.of_nat (occ u (c_ready c)) + (if decide (u = t_id x) then -1 else 0)).
  { case_decide as Hu; [subst u; rewrite occ_others_self, Hx; done|rewrite occ_others_ne by done; lia]. }
  apply (flow_upd _ _ _ _ _ c); [done|lia|]. intros _ Hq. split_and!; [lia| |done].
  apply cslack_load; [done|]. unfold load. change (running (set_ready c ?q)) with (running c).
  change (c_ready (set_ready c ?q)) with q. lia.
Qed.

Definition killed (tid : Z) (i : nat) (m m' : Machine) : Prop :=
  m_alive m' = m_alive m ∖ {[ tid ]} /\ total tid m' = 0%nat /\
  (forall u, u <> tid -> total u m' = total u m) /\ slack i m' = slack i m.

Lemma wp_kill_ready i me m c x :
  quiet m -> m_cpus m !! me = Some c -> x ∈ c_ready c -> total (t_id x) m = 1%nat -> t_id x ∈ m_alive m ->
  wp (kill_locally false me (t_id x)) m (fun found m' => found = true /\ killed (t_id x) i m m').
Proof.
  intros Hq Hc Hin Ht Ha. pose proof (occ_elem _ _ Hin) as Hpos.
  assert (Hx : occ (t_id x) (c_ready c) = 1%nat).
  { pose proof (places_elem (t_id x) m me c Hc). unfold total, cpu_occ in *. lia. }
  pose proof (others_length (t_id x) (c_ready c)) as Hl.
  apply wp_bind. intros alive m1 [= <- <-]. rewrite bool_decide_true by done. simpl.
  apply wp_bind, wp_cpu. intros c' [= <-]%(eq_trans (eq_sym Hc)).
  apply wp_bind, wp_modify. intros c' [= <-]%(eq_trans (eq_sym Hc)).
  set (m1 := upd m me (set_ready c (others (t_id x) (c_ready c)))).
  pose proof (fun u => flow_remove_ready True u i m me c x Hc Hx) as F1. fold m1 in F1.
  apply wp_bind. rewrite decide_True by lia. apply wp_ret.
  apply wp_bind. intros [] m2 [= <-]. fold (set_alive m1 (m_alive m1 ∖ {[ t_id x ]})).
  set (m2 := set_alive m1 (m_alive m1 ∖ {[ t_id x ]})).
  apply wp_bind. eapply wp_mono; [exact (wp_forall _ _ _ (fun u => wp_unjoin True u i me (t_id x) m2))|]. intros ? m3 K3.
  apply wp_bind. eapply wp_mono; [exact (wp_forall _ _ _ (fun u => wp_dec True u i me m3))|]. intros ? m4 F4.
  apply wp_ret. split; [done|].
  assert (Hall : forall u, Z.of_nat (total u m4) = Z.of_nat (total u m) + (if decide (u = t_id x) then -1 else 0) /\
    slack i m4 = slack i m /\ m_alive m4 = m_alive m ∖ {[ t_id x ]}).
  { intros u. destruct (f_quiet _ _ _ _ _ _ _ (F1 u) I Hq) as (A1 & A2 & A3 & A4).
    destruct (f_quiet _ _ _ _ _ _ _ (proj2 (K3 u)) I A3) as (B1 & B2 & B3 & B4).
    destruct (f_quiet _ _ _ _ _ _ _ (proj2 (F4 u)) I B3) as (C1 & C2 & C3 & C4).
    change (total u m2) with (total u m1) in B1. change (slack i m2) with (slack i m1) in B2.
    split_and!; [lia| |by rewrite C4, B4].
    rewrite C2, B2, A2. destruct (slack i m) as [z|] eqn:Ez; simpl; [|done]. f_equal.
    rewrite <- (slack_range _ _ _ Ez) at 2. rewrite Z.add_0_r, Z.mod_mod, Z.add_mod_idemp_l by lia.
    unfold at_core. destruct (decide (i = me)); f_equal; lia. }
  split_and!; [apply (Hall 0)| | |apply (Hall 0)].
  - destruct (Hall (t_id x)) as (E & _). rewrite decide_True in E by done. lia.
  - intros u Hu. destruct (Hall u) as (E & _). rewrite decide_False in E by done. lia.
Qed.

(** Where a thread is that is in one place only. *)
Lemma only_asleep x w c m :
  m_cpus m = [c] -> places (t_id x) m = 1%nat -> (x, w) ∈ c_sleep c ->
  occ (t_id x) (c_sleep c).*1 = 1%nat /\ occ (t_id x) (running c) = 0%nat /\ occ (t_id x) (c_ready c) = 0%nat /\
  occ (t_id x) (c_blocked c) = 0%nat /\ occ (t_id x) (joined (c_joins c)) = 0%nat /\
  occ (t_id x) (c_inbox c ≫= inbox_thread) = 0%nat.
Proof.
  intros Hc Hp Hin. unfold places in Hp. rewrite Hc in Hp. simpl in Hp. unfold cpu_occ in Hp.
  assert (0 < occ (t_id x) (c_sleep c).*1)%nat; [|lia]. apply occ_elem. apply list_elem_of_fmap. by exists (x, w).
Qed.

Lemma joined_none t j : occ t (joined j) = 0%nat -> others t <$> j = j /\ map_Forall (fun _ l => length (others t l) = length l) j.
Proof.
  induction j as [|k l j Hk IH] using map_ind; [intros _; split; [apply fmap_empty|apply map_Forall_empty]|].
  rewrite occ_joined_insert by done. intros H. destruct IH as [IH1 IH2]; [lia|].
  assert (El : others t l = l) by (apply others_none; lia). split; [by rewrite fmap_insert, El, IH1|].
  apply map_Forall_insert_2; [by rewrite El|done].
Qed.

Lemma upd_one c c' m : m_cpus m = [c] -> modify_cpu 0 (fun _ => c') m = Ret (tt, set_cpus m [c']).
Proof. intros H. unfold modify_cpu. by rewrite H. Qed.

(** The steps of [kill_locally] on one core, for a thread that sleeps. *)
Lemma kill_asleep_result c m x w y :
  m_cpus m = [c] -> t_id x ∈ m_alive m -> places (t_id x) m = 1%nat -> (x, w) ∈ c_sleep c -> c_ready c = [y] ->
  kill_locally false 0 (t_id x) m = Ret (false, set_cpus m [set_sleep c (others_asleep (t_id x) (c_sleep c))]).
Proof.
  intros Hc Ha Hp Hin Hq. destruct (only_asleep x w c m Hc Hp Hin) as (H1 & _ & H2 & H3 & H4 & _).
  pose proof (others_none _ _ H2) as Eq. pose proof (others_none _ _ H3) as Eb. destruct (joined_none _ _ H4) as [Ej Fj].
  pose proof (others_length (t_id x) (c_sleep c).*1) as Hl.
  rewrite <- others_asleep_fst, !length_fmap, H1 in Hl.
  unfold kill_locally. rewrite (one_core_bind _ _ true).
  2:{ unfold is_thread_alive, gets. by rewrite bool_decide_true. }
  simpl. rewrite (one_core_bind _ _ c) by (unfold per_cpu_ref; by rewrite Hc).
  unfold mbind at 1, M_bind at 1, modify_cpu at 1. rewrite Hc. simpl. rewrite !Eq.
  unfold mbind at 1, M_bind at 1. rewrite decide_False by (intros H; by apply H).
  unfold mbind at 1, M_bind at 1. simpl. unfold mbind at 1, M_bind at 1, modify_cpu at 1. simpl.
  rewrite decide_False by (rewrite Hq; simpl; lia).
  unfold mbind at 1, M_bind at 1, modify_cpu at 1. simpl. rewrite decide_False by (rewrite Eb; intros H; by apply H).
  unfold mbind at 1, M_bind at 1, modify_cpu at 1. simpl.
  change (c_sleep (set_ready c (c_ready c))) with (c_sleep c). set (sl := others_asleep (t_id x) (c_sleep c)).
  rewrite (bool_decide_true (map_Forall _ _)) by done. simpl. unfold mret, M_ret.
  do 2 f_equal. unfold set_cpus; simpl. do 2 f_equal.
  change (c_blocked (set_sleep ?c ?l)) with (c_blocked c). change (c_blocked (set_ready ?c ?l)) with (c_blocked c).
  rewrite Eb. unfold set_joins. cpu_simpl. unfold c_joins in Ej. rewrite Ej. by destruct c as [[[] ? ? ? ?] ? ?].
Qed.

(** [kill] can lose a sleeping thread: on a machine with one core on which exactly one
    thread is ready, killing a sleeping thread removes it from the sleep list, but does not
    mark it dead (the lengths that [kill_locally] compares are equal by accident).  The
    thread is nowhere, and counts as living for ever. *)
Theorem kill_loses_sleeping_thread c m cur x w y :
  m_cpus m = [c] -> c_current c = Some cur -> t_id cur <> t_id x -> t_id x ∈ m_alive m ->
  places (t_id x) m = 1%nat -> (x, w) ∈ c_sleep c -> c_ready c = [y] ->
  exists m', kill 0 (t_id x) m = Ret (tt, m') /\ t_id x ∈ m_alive m' /\ places (t_id x) m' = 0%nat.
Proof.
  intros Hc Hcur Hne Ha Hp Hin Hq. destruct (only_asleep x w c m Hc Hp Hin) as (H1 & H2 & H3 & H4 & H5 & H6).
  exists (set_cpus m [set_sleep c (others_asleep (t_id x) (c_sleep c))]). split; [|split; [done|]].
  - unfold kill. rewrite (one_core_bind _ _ cur).
    2:{ unfold current. rewrite (one_core_bind _ _ c) by (unfold per_cpu_ref; by rewrite Hc). by rewrite Hcur. }
    destruct (Z.eqb_spec (t_id cur) (t_id x)); [done|]. unfold mbind, M_bind.
    by rewrite (kill_asleep_result c m x w y Hc Ha Hp Hin Hq).
  - unfold places; simpl. pose proof (set_sleep_occ (t_id x) c (others_asleep (t_id x) (c_sleep c))) as Ho.
    rewrite others_asleep_fst, occ_others_self, H1 in Ho. unfold cpu_occ in Ho at 2. rewrite H1, H2, H3, H4, H5, H6 in Ho. lia.
Qed.

(** Threads 3 and 4 sleep and are ready on the core of thread 5. *)
Lemma kill_loses_sleeping_thread_witness :
  let c := set_sleep (set_ready rr_cpu [mkThread 4 7]) [(mkThread 3 7, 99)] in
  exists m', kill 0 3 (mkMachine [c] {[3; 4; 5]} ∅ 7 0 [] []) = Ret (tt, m') /\ 3 ∈ m_alive m' /\ places 3 m' = 0%nat.
Proof.
  apply (kill_loses_sleeping_thread (set_sleep (set_ready rr_cpu [mkThread 4 7]) [(mkThread 3 7, 99)])
    (mkMachine [set_sleep (set_ready rr_cpu [mkThread 4 7]) [(mkThread 3 7, 99)]] {[3; 4; 5]} ∅ 7 0 [] [])
    (mkThread 5 7) (mkThread 3 7) 99 (mkThread 4 7));
    [reflexivity|reflexivity|discriminate|apply (bool_decide_unpack _); vm_compute; exact I|vm_compute; reflexivity|by left|reflexivity].
Defined.

(** ** Runs *)

Definition start_one (n : nat) : list (Env * nat * sched_call) :=
  replicate n (at_ms 0, 0%nat, CSpawn 7) ++ [(at_ms 0, 0%nat, CStart); (at_ms 0, 0%nat, CInit)].
Definition run_on (apics : list Z) (l : list (Env * nat * sched_call)) : outcome Machine :=
  m0 ← power_on apics; run_calls l m0.

(** Thread 2 joins thread 3, which kills it and exits; thread 4 yields. *)
Definition kill_waiting_calls : list (Env * nat * sched_call) :=
  start_one 3 ++ [(at_ms 10, 0%nat, CJoin 3); (at_ms 20, 0%nat, CKill 2); (at_ms 30, 0%nat, CExit); (at_ms 40, 0%nat, CYield)].

(** A killed thread can run on: a thread that waits in [join] while another thread is ready
    is marked dead by [kill], but stays in the list of waiting threads, and runs again when
    the thread it waits for ends. *)
Theorem killed_thread_runs :
  match run_on [0] kill_waiting_calls with
  | Ret m => (c_current <$> m_cpus m !! 0%nat) = Some (Some (mkThread 2 7)) /\ bool_decide (2 ∈ m_alive m) = false
  | Panic _ => False
  end.
Proof. vm_compute. split; reflexivity. Qed.

(** Thread 2 sleeps; thread 3 kills it and sleeps; then the timer interrupts the idle core. *)
Definition kill_sleeping_calls : list (Env * nat * sched_call) :=
  start_one 2 ++ [(at_ms 10, 0%nat, CSleep 1000); (at_ms 20, 0%nat, CKill 2); (at_ms 30, 0%nat, CSleep 50)].

(** Killing a sleeping thread makes the kernel panic later: the load counter, which was
    decremented when the thread went to sleep, is decremented again and wraps around when
    the last thread goes to sleep; the next timer interrupt overflows in
    [should_balance_now]. *)
Theorem kill_then_sleep_panics :
  match run_on [0] kill_sleeping_calls with
  | Ret m => c_rq <$> m_cpus m = [U32_MAX] /\
      switch_thread_from_interrupt (at_ms 40) 0 m = Panic "attempt to add with overflow"
  | Panic _ => False
  end.
Proof. vm_compute. split; reflexivity. Qed.

(** Three threads on core 0; thread 5 moves to core 1, spawns thread 6 there and sleeps;
    thread 4 sleeps and thread 3 kills thread 5. *)
Definition remote_kill_calls : list (Env * nat * sched_call) :=
  start_one 3 ++ [(at_ms 0, 1%nat, CStart); (at_ms 0, 1%nat, CInit);
   (at_ms 10, 0%nat, CSwitch true); (at_ms 10, 1%nat, CSwitch true); (at_ms 20, 1%nat, CSpawn 8);
   (at_ms 20, 1%nat, CSleep 1000); (at_ms 20, 0%nat, CSleep 1000); (at_ms 30, 0%nat, CKill 5)].

(** A command to kill a thread can hang another core: if the command is in the inbox of a
    core when its last ready thread goes to sleep, the core drains the inbox while it holds
    the lock of the sleep list and takes that lock again. *)
Theorem remote_kill_hangs_core :
  match run_on [0; 1] remote_kill_calls with
  | Ret m => (c_inbox <$> m_cpus m !! 1%nat) = Some [ItemCmd (Kill 5)] /\ runs_threadb m 1 = true /\
      sleep (at_ms 40) 1 10 m = Panic "sleep_list"
  | Panic _ => False
  end.
Proof. vm_compute. split_and!; reflexivity. Qed.

(** Thread 3 joins thread 2, which is blocked; waking thread 2 with [deblock] drops thread 3. *)
Definition deblock_calls : list (Env * nat * sched_call) :=
  start_one 3 ++ [(at_ms 10, 0%nat, CBlock); (at_ms 20, 0%nat, CJoin 2); (at_ms 30, 0%nat, CDeblock 7 2)].

(** [deblock] calls [ready], which replaces the list of the threads that wait for the woken
    thread by an empty list: thread 3 is alive and nowhere. *)
Example deblock_drops_joiner :
  match run_on [0] deblock_calls with
  | Ret m => places 3 m = 0%nat /\ bool_decide (3 ∈ m_alive m) = true
  | Panic _ => False
  end.
Proof. vm_compute. split; reflexivity. Qed.
