(* ===== verification/ProcMgr.v ===== *)
(** * Processes ([os/kernel/src/process/process_manager.rs], [process.rs])

    The table of active and exited processes, and what ending a process does to its threads
    ([process_exit_threads]: it ends exactly those that are in the ready queue of the calling
    core) and to the table ([process_table_exit]). *)

From S2P Require Import Prelude Errno Procfs Sched SchedProofs SchedRun SchedJoin SchedKill.

Open Scope list_scope.
Open Scope Z_scope.

(** Process ids are 128-bit numbers. *)
Abbreviation Process := (Procfs.Process (Uuid := Z)).

(* os/kernel/src/process/process_manager.rs: ProcessManager *)
Record ProcessManager := mkPM {
  pm_active : list Process;
  pm_exited : list Process
}.

(* [os/kernel/src/process/process_manager.rs:30-35] ProcessManager::new *)
Definition pm_new : ProcessManager := mkPM [] [].

(* os/kernel/src/process/process_manager.rs: ProcessManager::kernel_process *)
Definition kernel_process (pm : ProcessManager) : option Process := head (pm_active pm).

(** The new process, without its address space; [id] is the fresh id from [next_id]. *)
(* [os/kernel/src/process/process.rs:60-66] Process::new_with_id *)
Definition new_with_id (id : Z) (name : string) : Process := mkProcess id name 0 0 0.

(* [os/kernel/src/process/process_manager.rs:38-44] ProcessManager::create_process *)
Definition create_process (pm : ProcessManager) (id : Z) (name : string) : outcome (Process * ProcessManager) :=
  _ ← expect (kernel_process pm) "No kernel process found!";
  let process := new_with_id id name in
  Ret (process, mkPM (pm_active pm ++ [process]) (pm_exited pm)).

(* os/kernel/src/process/process_manager.rs: ProcessManager::drop_exited_process *)
Definition drop_exited_process (pm : ProcessManager) : ProcessManager := mkPM (pm_active pm) [].

(** ** The threads of a process *)

Fixpoint filter_threads (me : nat) (pid : Z) (ids : list Z) : M (list Z) :=
  match ids with
  | [] => mret []
  | id :: ids =>
      o ← thread me id;
      rest ← filter_threads me pid ids;
      match o with
      | Some t => mret (if decide (t_pid t = pid) then id :: rest else rest)
      | None => mret rest
      end
  end.
(* [os/kernel/src/process/process.rs:116-121] Process::thread_ids *)
Definition thread_ids (me : nat) (pid : Z) : M (list Z) :=
  ids ← active_thread_ids; filter_threads me pid ids.

Fixpoint kill_each (me : nat) (ids : list Z) : M unit :=
  match ids with
  | [] => mret tt
  | id :: ids => kill me id;; kill_each me ids
  end.

Fixpoint kill_each_but_current (me : nat) (ids : list Z) : M unit :=
  match ids with
  | [] => mret tt
  | id :: ids =>
      cur ← current me;
      when (negb (id =? t_id cur)) (kill me id);;
      kill_each_but_current me ids
  end.
(* [os/kernel/src/process/process.rs:123-127] Process::kill_all_threads_but_current *)
Definition kill_all_threads_but_current (me : nat) (pid : Z) : M unit :=
  ids ← thread_ids me pid; kill_each_but_current me ids.

Definition position (pid : Z) (l : list Process) : option (nat * Process) :=
  list_find (fun p => p_id p = pid) l.

(* [os/kernel/src/process/process_manager.rs:128-140] ProcessManager::exit *)
Definition pm_exit (me : nat) (pm : ProcessManager) (pid : Z) : M ProcessManager :=
  match position pid (pm_active pm) with
  | None => panic "Process: Trying to exit a non-existent process!"
  | Some (index, process) =>
      kill_all_threads_but_current me pid;;
      mret (mkPM (swap_remove (pm_active pm) index) (pm_exited pm ++ [process]))
  end.

(* [os/kernel/src/process/process_manager.rs:143-157] ProcessManager::kill *)
Definition pm_kill (me : nat) (pm : ProcessManager) (pid : Z) : M ProcessManager :=
  match position pid (pm_active pm) with
  | None => panic "Process: Trying to kill a non-existent process!"
  | Some (index, process) =>
      ids ← thread_ids me pid;
      kill_each me ids;;
      mret (mkPM (swap_remove (pm_active pm) index) (pm_exited pm ++ [process]))
  end.

(** The current thread ends its process and then itself. *)
(* os/kernel/src/syscall/sys_concurrent.rs: sys_process_exit *)
Definition sys_process_exit (env : Env) (me : nat) (pm : ProcessManager) : M ProcessManager :=
  t ← current me;
  pm' ← pm_exit me pm (t_pid t);
  exit env me;;
  mret pm'.

(** ** The table *)

Lemma swap_remove_head {A} (l : list A) i : (0 < i < length l)%nat -> head (swap_remove l i) = head l.
Proof.
  intros Hi. destruct l as [|x l]; [simpl in Hi; lia|]. unfold swap_remove. simpl in Hi.
  destruct (last (x :: l)) eqn:E; [|by apply last_None in E].
  destruct i as [|i]; [lia|]. destruct l as [|y l]; [simpl in Hi; lia|]. done.
Qed.

(** ** Ending the threads *)

Lemma reads_thread me id : reads (thread me id).
Proof. apply reads_bind; [apply reads_cpu|]. intros c. apply reads_ret. Qed.

(** The thread of the ready queue that [thread] finds. *)
Definition found (c : Cpu) (pid id : Z) : Prop :=
  exists t, snd <$> list_find (fun t => t_id t = id) (c_ready c) = Some t /\ t_pid t = pid.
#[global] Instance found_dec c pid id : Decision (found c pid id).
Proof.
  unfold found. destruct (snd <$> list_find (fun t => t_id t = id) (c_ready c)) as [t|].
  - destruct (decide (t_pid t = pid)); [left; eauto|right; intros (? & [= <-] & ?); done].
  - right. by intros (? & ? & _).
Defined.

Lemma filter_threads_result me pid ids m c :
  m_cpus m !! me = Some c -> filter_threads me pid ids m = Ret (filter (found c pid) ids, m).
Proof.
  intros Hc. induction ids as [|id ids IH]; [done|]. simpl. rewrite filter_cons.
  unfold mbind, M_bind, thread, per_cpu_ref. unfold mbind, M_bind. rewrite Hc. unfold mret at 1, M_ret at 1. rewrite IH.
  destruct (snd <$> list_find (fun t => t_id t = id) (c_ready c)) as [t|] eqn:E.
  - destruct (decide (t_pid t = pid)) as [Hp|Hp]; [rewrite decide_True by (by exists t)|rewrite decide_False]; [done|done|].
    intros (t' & Ht' & ?). rewrite E in Ht'. congruence.
  - rewrite decide_False; [done|]. intros (t' & Ht' & ?). congruence.
Qed.

Lemma thread_ids_result me pid m c :
  m_cpus m !! me = Some c -> thread_ids me pid m = Ret (filter (found c pid) (elements (m_alive m)), m).
Proof. intros Hc. unfold thread_ids, mbind, M_bind. simpl. by apply filter_threads_result. Qed.

(** With unique ids the thread that is found is the one with the id. *)
Lemma found_iff c pid id m me :
  sched_inv m -> m_cpus m !! me = Some c ->
  found c pid id <-> exists x, x ∈ c_ready c /\ t_id x = id /\ t_pid x = pid.
Proof.
  intros I Hc. split.
  - intros (t & Ht & Hp). apply fmap_Some in Ht as ([k t'] & Hf & ->). simpl in *.
    apply list_find_Some in Hf as (Hl & Hid & _). exists t'. split_and!; [by eapply list_elem_of_lookup_2|done|done].
  - intros (x & Hx & Hid & Hp). destruct (list_find (fun t => t_id t = id) (c_ready c)) as [[k t]|] eqn:E.
    + exists t. split; [by rewrite E|]. apply list_find_Some in E as (Hl & Ht & _).
      apply list_elem_of_lookup in Hx as [j Hj]. destruct (decide (j = k)) as [->|Hjk]; [congruence|]. exfalso.
      pose proof (si_one m I id) as H1. pose proof (places_elem id m me c Hc) as H2.
      assert (H3 : (2 <= occ id (c_ready c))%nat); [|unfold total, cpu_occ in *; lia].
      rewrite (delete_occ id _ _ _ Hj), <- Hid, occ_self.
      assert (Hin : t ∈ delete j (c_ready c)).
      { apply list_elem_of_lookup. destruct (decide (k < j)%nat).
        - exists k. by rewrite list_lookup_delete_lt.
        - exists (k - 1)%nat. rewrite list_lookup_delete_ge by lia. replace (S (k - 1)) with k by lia. done. }
      apply occ_elem in Hin. rewrite Ht, <- Hid in Hin. lia.
    + exfalso. apply list_find_None in E. rewrite Forall_forall in E. by apply (E x Hx).
Qed.

(** Killing a ready thread leaves the other threads of the core in the ready queue. *)
Lemma wp_kill_others me m c x :
  m_cpus m !! me = Some c -> x ∈ c_ready c -> t_id x ∈ m_alive m ->
  wp (kill_locally false me (t_id x)) m (fun _ m' => quiet m -> quiet m' /\
    exists c', m_cpus m' !! me = Some c' /\ c_current c' = c_current c /\
      forall y, y ∈ c_ready c -> t_id y <> t_id x -> y ∈ c_ready c').
Proof.
  intros Hc Hin Ha. pose proof (lookup_lt_Some _ _ _ Hc) as Hlt.
  apply wp_bind. intros alive m1 [= <- <-]. rewrite bool_decide_true by done. simpl.
  apply wp_bind, wp_cpu. intros c' [= <-]%(eq_trans (eq_sym Hc)).
  apply wp_bind, wp_modify. intros c' [= <-]%(eq_trans (eq_sym Hc)).
  pose proof (others_length (t_id x) (c_ready c)) as Hl. pose proof (occ_elem _ _ Hin) as Hpos.
  apply wp_bind. rewrite decide_True by lia. apply wp_ret.
  apply wp_bind. intros [] m2 [= <-]. simpl.
  set (c1 := set_ready c (others (t_id x) (c_ready c))).
  set (m2 := set_alive (upd m me c1) (m_alive m ∖ {[ t_id x ]})).
  change (wp (unjoin me (t_id x) ;; dec_rq_len me ;; mret true) m2 (fun _ m' => quiet m -> quiet m' /\
    exists c', m_cpus m' !! me = Some c' /\ c_current c' = c_current c /\
      forall y, y ∈ c_ready c -> t_id y <> t_id x -> y ∈ c_ready c')).
  assert (Hc1 : m_cpus m2 !! me = Some c1) by (simpl; by rewrite list_lookup_insert_eq).
  assert (Hq2 : quiet m -> quiet m2).
  { intros Hq j z Hz. simpl in Hz. destruct (insert_cases _ _ _ _ _ _ Hc Hz) as [[-> ->]|[_ ?]]; [by apply (Hq me c)|by apply (Hq j)]. }
  apply wp_bind. unfold unjoin. apply wp_bind, wp_modify. intros c' [= <-]%(eq_trans (eq_sym Hc1)).
  set (l := default [] (c_joins c1 !! t_id x)). destruct (wake_all_spec 0 l c1) as (_ & _ & Ef & _ & Ei & _).
  fold (upd m2 me (wake_all l c1)).
  apply wp_bind. eapply wp_mono; [by apply (wp_broadcast True 0 0%nat); intros _ []|]. intros ? m3 [[_ F3] E3].
  assert (Hc3 : m_cpus m3 !! me = Some (wake_all l c1)) by (rewrite E3; simpl; rewrite list_lookup_insert_eq; [done|by rewrite length_insert]).
  assert (Hlt3 : (me < length (m_cpus m3))%nat) by (by eapply lookup_lt_Some).
  apply wp_modify. intros c' [= <-]%(eq_trans (eq_sym Hc3)).
  apply wp_bind, wp_modify. intros c4 Hc4. simpl in Hc4. rewrite list_lookup_insert_eq in Hc4 by done. injection Hc4 as <-.
  apply wp_ret. intros Hq. split.
  - assert (Hq3 : quiet m3).
    { apply (f_quiet _ _ _ _ _ _ _ F3 I). intros j z Hz. simpl in Hz.
      destruct (insert_cases _ _ _ _ _ _ Hc1 Hz) as [[-> ->]|[_ ?]]; [|by apply (Hq2 Hq j)].
      apply (cquiet_inbox c1); [done|]. by apply (Hq2 Hq me). }
    intros j z Hz. simpl in Hz. rewrite list_insert_insert_eq in Hz.
    destruct (insert_cases _ _ _ _ _ _ Hc3 Hz) as [[-> ->]|[_ ?]]; [exact (Hq3 me _ Hc3)|by apply (Hq3 j)].
  - eexists. simpl. rewrite list_insert_insert_eq, list_lookup_insert_eq by done. split; [reflexivity|].
    destruct (frame_fields _ _ Ef) as (_ & _ & _ & Ecur & _). split; [exact Ecur|].
    intros y Hy Hne. change (y ∈ c_ready (wake_all l c1)). apply wake_all_ready. right.
    change (c_ready c1) with (others (t_id x) (c_ready c)). by apply list_elem_of_filter.
Qed.

(** Killing a list of ready threads, none of them the current one. *)
Lemma wp_kill_list me ids m c cur :
  quiet m -> m_cpus m !! me = Some c -> c_current c = Some cur -> NoDup ids ->
  (forall id, id ∈ ids -> id <> t_id cur /\ id ∈ m_alive m /\ total id m = 1%nat /\ exists x, x ∈ c_ready c /\ t_id x = id) ->
  wp (kill_each_but_current me ids) m (fun _ m' =>
    m_alive m' = m_alive m ∖ list_to_set ids /\ forall u, total u m' = if decide (u ∈ ids) then 0%nat else total u m).
Proof.
  revert m c. induction ids as [|id ids IH]; intros m c Hq Hc Hcur Hnd Hids; simpl.
  { apply wp_ret. split; [by rewrite difference_empty_L|]. done. }
  apply NoDup_cons in Hnd as [Hni Hnd]. destruct (Hids id) as (Hne & Ha & Ht & x & Hx & Hid); [by left|]. subst id.
  apply wp_bind, wp_current. intros c' cur' [= <-]%(eq_trans (eq_sym Hc)) Hcur'. rewrite Hcur in Hcur'. injection Hcur' as <-.
  rewrite (proj2 (Z.eqb_neq _ _)) by done. simpl. apply wp_bind. unfold kill.
  apply wp_bind, wp_current. intros c' cur' [= <-]%(eq_trans (eq_sym Hc)) Hcur'. rewrite Hcur in Hcur'. injection Hcur' as <-.
  rewrite (proj2 (Z.eqb_neq _ _)) by congruence. apply wp_bind.
  eapply wp_mono; [apply wp_and; [by apply (wp_kill_ready 0%nat me m c x)|by apply (wp_kill_others me m c x)]|].
  intros b m1 [[-> (K1 & K2 & K3 & _)] Ho]. apply wp_ret.
  destruct (Ho Hq) as (Hq1 & c1 & Hc1 & Hcur1 & Hready).
  eapply wp_mono; [apply (IH m1 c1); [done|done|congruence|done|]|].
  - intros id Hin. assert (Hix : id <> t_id x) by (by intros ->).
    destruct (Hids id) as (? & ? & ? & y & Hy & Hyid); [by right|].
    split_and!; [done| |by rewrite K3|].
    + rewrite K1. apply elem_of_difference. split; [done|]. by rewrite elem_of_singleton.
    + exists y. split; [apply Hready; [done|congruence]|done].
  - intros ? m2 [E1 E2]. split.
    + rewrite E1, K1. simpl. by rewrite difference_difference_l_L.
    + intros u. rewrite E2. destruct (decide (u = t_id x)) as [->|Hu].
      * rewrite (decide_True _ _ (list_elem_of_here _ _)). by case_decide.
      * rewrite K3 by done. assert (Hiff : u ∈ ids <-> u ∈ t_id x :: ids) by (rewrite elem_of_cons; tauto).
        repeat case_decide; tauto.
Qed.

(** What ending a process does to threads: if [pm_exit] returns, the threads that are no
    longer alive are exactly the threads of the process that were in the ready queue of the
    calling core, and they are nowhere; every other thread stays where it was.  In
    particular the threads of the process that sleep, wait or run on another core live on. *)
Theorem process_exit_threads apics m0 m me c cur pm pid pm' m' :
  Z.of_nat (length apics) < U64_MAX -> power_on apics = Ret m0 -> rtc (sched_step orderly) m0 m ->
  m_cpus m !! me = Some c -> c_current c = Some cur -> t_id cur <> t_id (c_idle c) -> m_dropped m = [] ->
  pm_exit me pm pid m = Ret (pm', m') ->
  let ended u := exists x, x ∈ c_ready c /\ t_id x = u /\ t_pid x = pid in
  (forall u, u ∈ m_alive m' <-> u ∈ m_alive m /\ ~ ended u) /\
  (forall u, ended u -> places u m' = 0%nat) /\
  (forall u, ~ ended u -> (places u m' + occ u (m_dropped m'))%nat = places u m).
Proof.
  intros Hn H0 Hr Hc Hcur Hidle Hdr E ended.
  destruct (power_on_ok apics m0 Hn H0) as [I0 X0]. destruct (steps_ok orderly m0 m I0 Hr) as [I X]. specialize (X (fun _ p => p) X0).
  assert (Hready : forall x, x ∈ c_ready c -> total (t_id x) m = 1%nat /\ t_id x ∈ m_alive m /\ t_id x <> t_id cur).
  { intros x Hx. pose proof (occ_elem x _ Hx) as Ho. pose proof (places_elem (t_id x) m me c Hc) as Hp.
    pose proof (ex_total m X (t_id x)) as Ht. unfold cpu_occ in Hp. unfold total in *.
    destruct (decide (t_id x ∈ m_alive m)) as [Ha|Ha]; [|lia]. split_and!; [done|done|]. intros Ex.
    unfold running in Hp. rewrite Hcur, (decide_False _ _ Hidle), Ex, occ_self in Hp. rewrite Ex in *. lia. }
  unfold pm_exit in E. destruct (position pid (pm_active pm)) as [[index process]|]; [|done].
  unfold mbind, M_bind at 1 in E. unfold kill_all_threads_but_current, mbind, M_bind in E.
  rewrite (thread_ids_result me pid m c Hc) in E. set (ids := filter (found c pid) (elements (m_alive m))) in E.
  destruct (kill_each_but_current me ids m) as [[[] m1]|] eqn:Ek; [|done]. injection E as _ <-.
  assert (Hids : forall u, u ∈ ids <-> ended u).
  { intros u. unfold ids. rewrite list_elem_of_filter, elem_of_elements, (found_iff c pid u m me I Hc). split; [tauto|].
    intros He. split; [done|]. destruct He as (x & Hx & <- & _). by apply Hready. }
  assert (Hcond : forall id, id ∈ ids -> id <> t_id cur /\ id ∈ m_alive m /\ total id m = 1%nat /\ exists x, x ∈ c_ready c /\ t_id x = id).
  { intros id (x & Hx & Hid & _)%Hids. subst id. destruct (Hready x Hx) as (? & ? & ?). split_and!; eauto. }
  destruct (wp_kill_list me ids m c cur (ex_quiet m X) Hc Hcur (NoDup_filter _ _ (NoDup_elements _)) Hcond tt m1 Ek) as [Ea Et].
  split_and!.
  - intros u. rewrite Ea, elem_of_difference, elem_of_list_to_set, Hids. tauto.
  - intros u Hu. specialize (Et u). rewrite decide_True in Et by by apply Hids. unfold total in Et. lia.
  - intros u Hu. specialize (Et u). rewrite decide_False in Et by by rewrite Hids. unfold total in Et.
    rewrite Hdr, occ_nil in Et. lia.
Qed.

(** Threads 2, 3 and 4 belong to process 7; thread 2 sleeps, thread 3 runs, thread 4 is ready. *)
Definition exit_calls : list (Env * nat * sched_call) := start_one 3 ++ [(at_ms 10, 0%nat, CSleep 1000)].
Definition exit_before : Machine := match run_on [0] exit_calls with Ret m => m | Panic _ => mkMachine [] ∅ ∅ 0 0 [] [] end.
Definition exit_first : Machine := match power_on [0] with Ret m => m | Panic _ => mkMachine [] ∅ ∅ 0 0 [] [] end.
Definition exit_pm : ProcessManager := mkPM [new_with_id 0 "kernel"; new_with_id 7 "app"; new_with_id 8 "other"] [].
Definition exit_after : Machine := match pm_exit 0 exit_pm 7 exit_before with Ret (_, m) => m | Panic _ => exit_before end.
Definition exit_cpu : Cpu := match m_cpus exit_before with c :: _ => c | [] => mkCpu (mkScheduler (mkReadyState false None [] (mkThread 0 0)) [] [] ∅ false) (PerCpuRef_new 0) [] end.

Lemma process_exit_threads_witness :
  let ended u := exists x, x ∈ c_ready exit_cpu /\ t_id x = u /\ t_pid x = 7 in
  (forall u, u ∈ m_alive exit_after <-> u ∈ m_alive exit_before /\ ~ ended u) /\
  (forall u, ended u -> places u exit_after = 0%nat) /\
  (forall u, ~ ended u -> (places u exit_after + occ u (m_dropped exit_after))%nat = places u exit_before).
Proof.
  apply (process_exit_threads [0] exit_first exit_before 0 exit_cpu (mkThread 3 7) exit_pm 7
    (mkPM [new_with_id 0 "kernel"; new_with_id 8 "other"] [new_with_id 7 "app"]) exit_after);
    [reflexivity|reflexivity| |vm_compute; reflexivity|vm_compute; reflexivity|vm_compute; discriminate|vm_compute; reflexivity|vm_compute; reflexivity].
  apply (run_calls_steps orderly exit_calls); [by repeat constructor|vm_compute; reflexivity].
Defined.

(** The sleeping thread 2 of the ended process is alive. *)
Example sleeping_thread_survives : bool_decide (2 ∈ m_alive exit_after) = true.
Proof. vm_compute. reflexivity. Qed.

(** Ending a process moves it from the active to the exited processes, and changes nothing
    else in the table; the kernel process, which the code finds at the front of the table,
    stays there. *)
Theorem process_table_exit me pm pid m pm' m' k :
  kernel_process pm = Some k -> p_id k <> pid -> pm_exit me pm pid m = Ret (pm', m') ->
  kernel_process pm' = Some k /\
  exists p, p_id p = pid /\ pm_active pm ≡ₚ p :: pm_active pm' /\ pm_exited pm' = pm_exited pm ++ [p].
Proof.
  intros Hk Hne. unfold pm_exit. destruct (position pid (pm_active pm)) as [[i p]|] eqn:E; [|done].
  apply list_find_Some in E as (Hl & Hp & _). unfold mbind, M_bind.
  destruct (kill_all_threads_but_current me pid m) as [[[] m1]|]; [|done]. intros [= <- _]. split.
  - unfold kernel_process in *. simpl. rewrite swap_remove_head; [done|]. apply lookup_lt_Some in Hl as Hlt.
    destruct i; [|lia]. exfalso. apply Hne. destruct (pm_active pm); [done|]. simpl in *. congruence.
  - exists p. split_and!; [done|by apply swap_remove_perm|done].
Qed.

Lemma process_table_exit_witness :
  kernel_process (mkPM [new_with_id 0 "kernel"; new_with_id 8 "other"] [new_with_id 7 "app"]) = Some (new_with_id 0 "kernel") /\
  exists p, p_id p = 7 /\ pm_active exit_pm ≡ₚ p :: [new_with_id 0 "kernel"; new_with_id 8 "other"] /\
    [new_with_id 7 "app"] = pm_exited exit_pm ++ [p].
Proof.
  apply (process_table_exit 0 exit_pm 7 exit_before (mkPM [new_with_id 0 "kernel"; new_with_id 8 "other"] [new_with_id 7 "app"]) exit_after);
    [reflexivity|discriminate|vm_compute; reflexivity].
Defined.
