(* ===== verification/TextBuffer.v ===== *)
(** * The piece-table text buffer ([os/library/text_buffer/src/lib.rs])

    The text of the editor is a list of pieces, each a range of the file's text or of the
    text typed since, which only grows.  Two stacks hold the edits that can be undone and
    redone.  A [String] is the list of its [char]s, which is how the code reads it
    ([chars().nth], [chars().count]); a [Vec] used as a stack is a list whose head is the
    top.  Positions are natural numbers: [text_bounded] bounds every one of them by the sum
    of the lengths of the two strings, so that no addition of the code can overflow;
    subtractions are checked. *)

From S2P Require Import Prelude.

Open Scope nat_scope.

(** A [char] is its scalar value. *)
Definition char := Z.

(** [Vec::insert] and [Vec::remove] *)
Definition vec_insert {A} (l : list A) (i : nat) (x : A) : outcome (list A) :=
  if i <=? length l then Ret (take i l ++ x :: drop i l) else Panic "insertion index should be <= len".

Definition vec_remove {A} (l : list A) (i : nat) : outcome (list A) :=
  if i <? length l then Ret (take i l ++ drop (S i) l) else Panic "removal index should be < len".

Module PieceTable.

(* os/library/text_buffer/src/lib.rs: TextBufferError *)
Inductive TextBufferError := AddressOutOfBounds.

(* os/library/text_buffer/src/lib.rs: BufferDescr *)
Inductive BufferDescr := File | Add.

(* [os/library/text_buffer/src/lib.rs:38-42] UndoRedoOperation *)
Inductive UndoRedoOperation := Undo | Redo | None_.

(* os/library/text_buffer/src/lib.rs: Operation *)
Inductive Operation := Insert (la : nat) (c : char) | Delete (la : nat) (c : char).

(* [os/library/text_buffer/src/lib.rs:51-55] PieceDescr *)
Record PieceDescr := { buffer : BufferDescr; offset : nat; plength : nat }.

(* [os/library/text_buffer/src/lib.rs:57-65] TextBuffer *)
Record TextBuffer := {
  file_buffer : list char;
  add_buffer : list char;
  piece_table : list PieceDescr;
  lenght : nat;
  pos : nat;
  history : list Operation;
  redo_ops : list Operation
}.

#[global] Instance buffer_descr_eq_dec : EqDecision BufferDescr.
Proof. solve_decision. Defined.

Definition call A := (result TextBufferError A * TextBuffer)%type.

(** ** Field updates *)

Definition set_add_buffer (a : list char) (b : TextBuffer) : TextBuffer :=
  {| file_buffer := file_buffer b; add_buffer := a; piece_table := piece_table b;
     lenght := lenght b; pos := pos b; history := history b; redo_ops := redo_ops b |}.

Definition set_pieces (l : list PieceDescr) (n : nat) (b : TextBuffer) : TextBuffer :=
  {| file_buffer := file_buffer b; add_buffer := add_buffer b; piece_table := l;
     lenght := n; pos := pos b; history := history b; redo_ops := redo_ops b |}.

Definition set_stacks (h r : list Operation) (b : TextBuffer) : TextBuffer :=
  {| file_buffer := file_buffer b; add_buffer := add_buffer b; piece_table := piece_table b;
     lenght := lenght b; pos := pos b; history := h; redo_ops := r |}.

Definition set_pos (n : nat) (b : TextBuffer) : TextBuffer :=
  {| file_buffer := file_buffer b; add_buffer := add_buffer b; piece_table := piece_table b;
     lenght := lenght b; pos := n; history := history b; redo_ops := redo_ops b |}.

(** ** The operations *)

(* [os/library/text_buffer/src/lib.rs:313-319] PieceDescr::new *)
Definition piece_new (d : BufferDescr) (o n : nat) : PieceDescr :=
  {| buffer := d; offset := o; plength := n |}.

(* os/library/text_buffer/src/lib.rs: PieceDescr::set_offset *)
Definition set_offset (p : PieceDescr) (o : nat) : PieceDescr := piece_new (buffer p) o (plength p).

(* os/library/text_buffer/src/lib.rs: PieceDescr::set_length *)
Definition set_length (p : PieceDescr) (n : nat) : PieceDescr := piece_new (buffer p) (offset p) n.

(* os/library/text_buffer/src/lib.rs: TextBuffer::len *)
Definition len (b : TextBuffer) : nat := lenght b.

(* [os/library/text_buffer/src/lib.rs:196-216] TextBuffer::resolve_logical_adress *)
Fixpoint resolve_loop (l : list PieceDescr) (la : nat) (append : bool) (idx la_start : nat)
  : option (nat * nat) :=
  match l with
  | p :: l' =>
      if (la_start <=? la) && (la <? la_start + plength p) then Some (idx, la - la_start)
      else resolve_loop l' la append (S idx) (la_start + plength p)
  | [] => if append then Some (idx, 0) else None
  end.

Definition resolve_logical_adress (b : TextBuffer) (la : nat) (append : bool) : option (nat * nat) :=
  resolve_loop (piece_table b) la append 0 0.

Definition chars_of (b : TextBuffer) (d : BufferDescr) : list char :=
  match d with File => file_buffer b | Add => add_buffer b end.

(* [os/library/text_buffer/src/lib.rs:71-85] TextBuffer::get_char *)
Definition get_char (b : TextBuffer) (la : nat) : option char :=
  '(i, o) ← resolve_logical_adress b la false;
  p ← piece_table b !! i;
  chars_of b (buffer p) !! (offset p + o).

(** The match on [operation] that ends every edit. *)
(* os/library/text_buffer/src/lib.rs: TextBuffer::_insert *)
Definition record (o : Operation) (op : UndoRedoOperation) (b : TextBuffer) : TextBuffer :=
  match op with
  | Undo => set_stacks (history b) (o :: redo_ops b) b
  | None_ => set_stacks (o :: history b) [] b
  | Redo => set_stacks (o :: history b) (redo_ops b) b
  end.

(** The test of the branch that enlarges the piece before the address. *)
(* os/library/text_buffer/src/lib.rs: TextBuffer::_insert *)
Definition can_enlarge (b : TextBuffer) (i o : nat) : outcome bool :=
  if negb ((0 <? i) && (o =? 0)) then Ret false else
  p ← arr_get (piece_table b) (i - 1);
  if decide (buffer p = Add) then
    n ← usub (length (add_buffer b)) 1;
    Ret (offset p + plength p =? n)
  else Ret false.

(** The piece table after the insertion. *)
(* [os/library/text_buffer/src/lib.rs:130-182] TextBuffer::_insert *)
Definition insert_pieces (b : TextBuffer) (i o : nat) : outcome (list PieceDescr) :=
  enlarge ← can_enlarge b i o;
  n ← usub (length (add_buffer b)) 1;
  if (enlarge : bool) then
    p ← arr_get (piece_table b) (i - 1);
    arr_set (piece_table b) (i - 1) (set_length p (plength p + 1))
  else if i =? length (piece_table b) then vec_insert (piece_table b) i (piece_new Add n 1)
  else
    p ← arr_get (piece_table b) i;
    if o =? 0 then vec_insert (piece_table b) i (piece_new Add n 1)
    else
      l1 ← arr_set (piece_table b) i (set_length p o);
      rest ← usub (plength p) o;
      l2 ← vec_insert l1 (i + 1) (piece_new (buffer p) (offset p + o) rest);
      vec_insert l2 (i + 1) (piece_new Add n 1).

(* [os/library/text_buffer/src/lib.rs:110-193] TextBuffer::_insert *)
Definition _insert (la : nat) (c : char) (op : UndoRedoOperation) (b : TextBuffer) : outcome (call unit) :=
  match resolve_logical_adress b la true with
  | None => Ret (Err AddressOutOfBounds, b)
  | Some (i, o) =>
      let b := set_add_buffer (add_buffer b ++ [c]) b in
      l ← insert_pieces b i o;
      Ret (Ok tt, record (Insert la c) op (set_pieces l (lenght b + 1) b))
  end.

(** The piece table after the character at offset [o] of piece [i] is cut out. *)
(* [os/library/text_buffer/src/lib.rs:236-264] TextBuffer::_delete *)
Definition delete_pieces (b : TextBuffer) (i o : nat) : outcome (list PieceDescr) :=
  p ← arr_get (piece_table b) i;
  last ← usub (plength p) 1;
  l ← (if o =? 0 then arr_set (piece_table b) i (set_length (set_offset p (offset p + 1)) last)
       else if last =? o then arr_set (piece_table b) i (set_length p last)
       else
         l1 ← arr_set (piece_table b) i (set_length p o);
         r1 ← usub (plength p) o;
         rest ← usub r1 1;
         vec_insert l1 (i + 1) (piece_new (buffer p) (offset p + o + 1) rest));
  q ← expect (l !! i) "called `Option::unwrap()` on a `None` value";
  if plength q =? 0 then vec_remove l i else Ret l.

(* [os/library/text_buffer/src/lib.rs:221-271] TextBuffer::_delete *)
Definition _delete (la : nat) (op : UndoRedoOperation) (b : TextBuffer) : outcome (call unit) :=
  match resolve_logical_adress b la false with
  | None => Ret (Err AddressOutOfBounds, b)
  | Some (i, o) =>
      match get_char b la with
      | None => Ret (Err AddressOutOfBounds, b)
      | Some c =>
          l ← delete_pieces b i o;
          n ← usub (lenght b) 1;
          Ret (Ok tt, record (Delete la c) op (set_pieces l n b))
      end
  end.

(* os/library/text_buffer/src/lib.rs: TextBuffer::insert *)
Definition insert (la : nat) (c : char) (b : TextBuffer) : outcome (call unit) := _insert la c None_ b.

(* os/library/text_buffer/src/lib.rs: TextBuffer::delete *)
Definition delete (la : nat) (b : TextBuffer) : outcome (call unit) := _delete la None_ b.

(* [os/library/text_buffer/src/lib.rs:87-95] TextBuffer::undo *)
Definition undo (b : TextBuffer) : outcome (call unit) :=
  match history b with
  | o :: h =>
      let b := set_stacks h (redo_ops b) b in
      match o with Insert la _ => _delete la Undo b | Delete la c => _insert la c Undo b end
  | [] => Ret (Ok tt, b)
  end.

(* [os/library/text_buffer/src/lib.rs:97-105] TextBuffer::redo *)
Definition redo (b : TextBuffer) : outcome (call unit) :=
  match redo_ops b with
  | o :: r =>
      let b := set_stacks (history b) r b in
      match o with Insert la _ => _delete la Redo b | Delete la c => _insert la c Redo b end
  | [] => Ret (Ok tt, b)
  end.

(* [os/library/text_buffer/src/lib.rs:273-287] TextBuffer::from_str *)
Definition from_str (s : list char) : TextBuffer :=
  {| file_buffer := s; add_buffer := []; piece_table := [piece_new File 0 (length s)];
     lenght := length s; pos := 0; history := []; redo_ops := [] |}.

(** The loop of [to_string], with fuel: [None] when the fuel runs out before a character is
    missing. *)
Fixpoint collect (fuel : nat) (b : TextBuffer) (i : nat) : option (list char) :=
  match fuel with
  | O => None
  | S f => match get_char b i with
           | Some c => cons c <$> collect f b (S i)
           | None => Some []
           end
  end.

(* [os/library/text_buffer/src/lib.rs:288-296] TextBuffer::to_string *)
Definition to_string (fuel : nat) (b : TextBuffer) : option (list char) := collect fuel b 0.

(* [os/library/text_buffer/src/lib.rs:301-309] TextBuffer::next *)
Definition next (b : TextBuffer) : option char * TextBuffer :=
  if pos b <? lenght b then (get_char b (pos b), set_pos (pos b + 1) b) else (None, b).

End PieceTable.
