(* ===== verification/TextBufferProofs.v ===== *)
(** * The text buffer refines an editor of plain text

    The abstract editor holds the text as a list of characters and the two stacks.  Every
    operation of the piece table computes what the editor's does, and no operation panics. *)

From S2P Require Import Prelude TextBuffer.
Import PieceTable.

Open Scope nat_scope.

(** ** The abstract editor *)

Record Editor := { e_text : list char; e_history : list Operation; e_redo : list Operation }.

Definition ins (la : nat) (c : char) (t : list char) : list char := take la t ++ c :: drop la t.
Definition del (la : nat) (t : list char) : list char := take la t ++ drop (S la) t.

Definition e_record (o : Operation) (op : UndoRedoOperation) (t : list char) (e : Editor) : Editor :=
  match op with
  | Undo => {| e_text := t; e_history := e_history e; e_redo := o :: e_redo e |}
  | None_ => {| e_text := t; e_history := o :: e_history e; e_redo := [] |}
  | Redo => {| e_text := t; e_history := o :: e_history e; e_redo := e_redo e |}
  end.

Definition e_insert (la : nat) (c : char) (op : UndoRedoOperation) (e : Editor)
  : result TextBufferError unit * Editor :=
  (Ok tt, e_record (Insert la c) op (ins la c (e_text e)) e).

Definition e_delete (la : nat) (op : UndoRedoOperation) (e : Editor) : result TextBufferError unit * Editor :=
  match e_text e !! la with
  | Some c => (Ok tt, e_record (Delete la c) op (del la (e_text e)) e)
  | None => (Err AddressOutOfBounds, e)
  end.

Definition e_revert (o : Operation) (op : UndoRedoOperation) (e : Editor) :=
  match o with Insert la _ => e_delete la op e | Delete la c => e_insert la c op e end.

Definition e_undo (e : Editor) : result TextBufferError unit * Editor :=
  match e_history e with
  | o :: h => e_revert o Undo {| e_text := e_text e; e_history := h; e_redo := e_redo e |}
  | [] => (Ok tt, e)
  end.

Definition e_redo_op (e : Editor) : result TextBufferError unit * Editor :=
  match e_redo e with
  | o :: r => e_revert o Redo {| e_text := e_text e; e_history := e_history e; e_redo := r |}
  | [] => (Ok tt, e)
  end.

(** ** The text a buffer stands for *)

Definition seg (b : TextBuffer) (p : PieceDescr) : list char :=
  take (plength p) (drop (offset p) (chars_of b (buffer p))).

Definition segs (b : TextBuffer) (l : list PieceDescr) : list char := flat_map (seg b) l.

Definition text (b : TextBuffer) : list char := segs b (piece_table b).

Definition abs (b : TextBuffer) : Editor :=
  {| e_text := text b; e_history := history b; e_redo := redo_ops b |}.

Definition in_range (b : TextBuffer) (p : PieceDescr) : Prop :=
  offset p + plength p <= length (chars_of b (buffer p)).

Record wf (b : TextBuffer) : Prop := {
  wf_range : Forall (in_range b) (piece_table b);
  wf_len : lenght b = length (text b);
  wf_bound : length (text b) <= length (file_buffer b) + length (add_buffer b)
}.

Definition total (l : list PieceDescr) : nat := sum_list_with plength l.

(** ** Lists *)

Lemma ins_app la c (t1 t2 : list char) : length t1 = la -> ins la c (t1 ++ t2) = t1 ++ c :: t2.
Proof. intros <-. unfold ins. by rewrite take_app_length, drop_app_length. Qed.

Lemma ins_end la c (t : list char) : length t <= la -> ins la c t = t ++ [c].
Proof. intros H. unfold ins. by rewrite take_ge, drop_ge. Qed.

Lemma del_app la c (t1 t2 : list char) : length t1 = la -> del la (t1 ++ c :: t2) = t1 ++ t2.
Proof.
  intros <-. unfold del. rewrite take_app_length, cons_middle, app_assoc.
  by rewrite drop_app_length' by (rewrite length_app; simpl; lia).
Qed.

Lemma length_ins la c t : length (ins la c t) = S (length t).
Proof. unfold ins. rewrite length_app. simpl. rewrite length_take, length_drop. lia. Qed.

Lemma lookup_split (t : list char) la c : t !! la = Some c -> exists t1 t2, t = t1 ++ c :: t2 /\ length t1 = la.
Proof.
  intros H. exists (take la t), (drop (S la) t). split.
  - by rewrite take_drop_middle.
  - rewrite length_take. apply lookup_lt_Some in H. lia.
Qed.

(** ** Pieces *)

Lemma seg_length b p : in_range b p -> length (seg b p) = plength p.
Proof. unfold in_range, seg. intros H. rewrite length_take, length_drop. lia. Qed.

Lemma segs_app b l1 l2 : segs b (l1 ++ l2) = segs b l1 ++ segs b l2.
Proof. apply flat_map_app. Qed.

Lemma segs_length b l : Forall (in_range b) l -> length (segs b l) = total l.
Proof.
  induction 1 as [|p l Hp _ IH]; simpl; [done|].
  rewrite length_app, seg_length, IH by done. done.
Qed.

Lemma seg_split b p o : o <= plength p ->
  seg b p = seg b (set_length p o) ++ seg b (piece_new (buffer p) (offset p + o) (plength p - o)).
Proof.
  intros H. unfold seg. simpl. rewrite <-drop_drop.
  rewrite <-(take_drop o (take (plength p) _)) at 1.
  by rewrite take_take, Nat.min_l, skipn_firstn_comm by lia.
Qed.

Lemma seg_cons b p c : in_range b p -> chars_of b (buffer p) !! offset p = Some c -> 0 < plength p ->
  seg b p = c :: seg b (set_length (set_offset p (offset p + 1)) (plength p - 1)).
Proof.
  intros Hr Hc Hp. unfold seg. simpl. rewrite (drop_S _ c) by done.
  destruct (plength p) as [|n]; [lia|]. simpl. by rewrite Nat.sub_0_r, Nat.add_1_r.
Qed.

(** ** Resolving an address *)

Lemma resolve_spec l la append idx s : s <= la ->
  match resolve_loop l la append idx s with
  | Some (i, o) =>
      (exists l1 p l2, l = l1 ++ p :: l2 /\ i = idx + length l1 /\ la = s + total l1 + o /\ o < plength p)
      \/ (append = true /\ i = idx + length l /\ o = 0 /\ s + total l <= la)
  | None => append = false /\ s + total l <= la
  end.
Proof.
  revert idx s. induction l as [|p l IH]; intros idx s Hs; simpl.
  - destruct append; [right|]; repeat split; simpl; lia.
  - destruct (Nat.leb_spec s la); [|lia]. destruct (Nat.ltb_spec la (s + plength p)); simpl.
    + left. exists [], p, l. repeat split; simpl; lia.
    + specialize (IH (S idx) (s + plength p) ltac:(lia)).
      destruct (resolve_loop l la append (S idx) (s + plength p)) as [[i o]|].
      * destruct IH as [(l1 & q & l2 & -> & -> & -> & ?) | (-> & -> & -> & ?)].
        -- left. exists (p :: l1), q, l2. repeat split; simpl; lia.
        -- right. repeat split; simpl; lia.
      * destruct IH as [-> ?]. split; [done|simpl; lia].
Qed.

Lemma seg_lookup b p o : in_range b p -> o < plength p ->
  seg b p !! o = chars_of b (buffer p) !! (offset p + o).
Proof. intros Hr Ho. unfold seg. by rewrite lookup_take_lt, lookup_drop by done. Qed.

Lemma get_char_spec b la : wf b -> get_char b la = text b !! la.
Proof.
  intros [Hr _ _]. unfold get_char, resolve_logical_adress, text.
  pose proof (resolve_spec (piece_table b) la false 0 0 ltac:(lia)) as H.
  destruct (resolve_loop _ _ _ _ _) as [[i o]|]; simpl.
  - destruct H as [(l1 & p & l2 & E & -> & -> & Ho) | (? & _)]; [|done].
    rewrite E in *. apply Forall_app in Hr as [H1 [Hp H2]%Forall_cons].
    rewrite list_lookup_middle by done. simpl.
    rewrite segs_app, lookup_app_r by (rewrite segs_length by done; lia).
    rewrite segs_length by done. simpl.
    rewrite lookup_app_l by (rewrite seg_length by done; lia).
    rewrite seg_lookup by (done || lia). f_equal. lia.
  - destruct H as [_ H]. symmetry. apply lookup_ge_None. rewrite segs_length by done. lia.
Qed.

(** ** Insertion *)

(** The buffer after [add_buffer.push(c)]. *)
Definition grown (b : TextBuffer) (c : char) : TextBuffer := set_add_buffer (add_buffer b ++ [c]) b.

Lemma grown_in_range b c p : in_range b p -> in_range (grown b c) p.
Proof. unfold in_range. destruct (buffer p); simpl; rewrite ?length_app; simpl; lia. Qed.

Lemma grown_in_ranges b c l : Forall (in_range b) l -> Forall (in_range (grown b c)) l.
Proof. intros H. eapply Forall_impl; [exact H|]. apply grown_in_range. Qed.

Lemma grown_seg b c p : in_range b p -> seg (grown b c) p = seg b p.
Proof.
  unfold in_range, seg. destruct (buffer p); simpl; intros H; [done|].
  rewrite drop_app_le by lia. by rewrite take_app_le by (rewrite length_drop; lia).
Qed.

Lemma grown_segs b c l : Forall (in_range b) l -> segs (grown b c) l = segs b l.
Proof. induction 1 as [|p l Hp _ IH]; simpl; [done|]. by rewrite grown_seg, IH. Qed.

Lemma grown_new b c : seg (grown b c) (piece_new Add (length (add_buffer b)) 1) = [c]
  /\ in_range (grown b c) (piece_new Add (length (add_buffer b)) 1).
Proof.
  unfold seg, in_range. simpl. rewrite drop_app_length, length_app. simpl. split; [done|lia].
Qed.

Lemma grown_enlarged b c p : in_range b p -> buffer p = Add ->
  offset p + plength p = length (add_buffer b) ->
  seg (grown b c) (set_length p (plength p + 1)) = seg b p ++ [c]
  /\ in_range (grown b c) (set_length p (plength p + 1)).
Proof.
  unfold seg, in_range, set_length. simpl. intros Hr -> E. simpl in *.
  rewrite length_app. simpl. split; [|lia].
  rewrite drop_app_le by lia.
  rewrite take_ge by (rewrite length_app, length_drop; simpl; lia).
  by rewrite (take_ge (drop _ _)) by (rewrite length_drop; lia).
Qed.

Lemma vec_insert_app {A} (l1 l2 : list A) i x : i = length l1 ->
  vec_insert (l1 ++ l2) i x = Ret (l1 ++ x :: l2).
Proof.
  intros ->. unfold vec_insert. rewrite length_app.
  destruct (Nat.leb_spec (length l1) (length l1 + length l2)); [|lia].
  by rewrite take_app_length, drop_app_length.
Qed.

Lemma vec_remove_app {A} (l1 l2 : list A) i x : i = length l1 ->
  vec_remove (l1 ++ x :: l2) i = Ret (l1 ++ l2).
Proof.
  intros ->. unfold vec_remove. rewrite length_app. simpl.
  destruct (Nat.ltb_spec (length l1) (length l1 + S (length l2))); [|lia].
  rewrite take_app_length, cons_middle, app_assoc.
  by rewrite drop_app_length' by (rewrite length_app; simpl; lia).
Qed.

(** The last character pushed is at the end of the grown buffer. *)
Lemma grown_last b c : usub (length (add_buffer (grown b c))) 1 = Ret (length (add_buffer b)).
Proof.
  simpl. rewrite length_app. simpl. rewrite usub_ok by lia. f_equal. lia.
Qed.

Lemma can_enlarge_spec b c l1 l2 : piece_table b = l1 ++ l2 ->
  exists e : bool, can_enlarge (grown b c) (length l1) 0 = Ret e /\
    (e = true -> exists l0 p, l1 = l0 ++ [p] /\ buffer p = Add /\
                 offset p + plength p = length (add_buffer b)).
Proof.
  intros E. unfold can_enlarge. destruct l1 as [|p l0 _] using rev_ind; [by exists false|].
  rewrite grown_last. simpl. rewrite E, !length_app. simpl.
  destruct (Nat.ltb_spec 0 (length l0 + 1)); [|lia]. simpl.
  rewrite <-app_assoc. simpl. rewrite arr_get_middle by lia. simpl.
  destruct (decide (buffer p = Add)); simpl; [|by exists false].
  eexists. split; [done|]. intros ?%Nat.eqb_eq. by exists l0, p.
Qed.

(** Between two pieces. *)
Lemma insert_between b c l1 l2 : Forall (in_range b) (piece_table b) -> piece_table b = l1 ++ l2 ->
  exists l', insert_pieces (grown b c) (length l1) 0 = Ret l' /\ Forall (in_range (grown b c)) l'
    /\ segs (grown b c) l' = segs b l1 ++ c :: segs b l2.
Proof.
  intros Hr E. unfold insert_pieces. rewrite grown_last.
  destruct (can_enlarge_spec b c l1 l2 E) as (e & -> & He). simpl. rewrite E in *. pose proof Hr as [H1 H2]%Forall_app.
  destruct (grown_new b c) as [Hs Hn]. destruct e.
  - destruct (He eq_refl) as (l0 & p & -> & Hp & Ho). rewrite length_app, <-app_assoc. simpl.
    apply Forall_app in H1 as [H0 [Hq _]%Forall_cons].
    rewrite arr_get_middle by lia. simpl. rewrite arr_set_middle by lia.
    destruct (grown_enlarged b c p Hq Hp Ho) as [Hs' Hn'].
    eexists. split; [done|]. split.
    + apply Forall_app. split; [|constructor]; auto using grown_in_ranges.
    + rewrite segs_app. simpl. rewrite Hs', !grown_segs, segs_app by done. simpl.
      by rewrite app_nil_r, <-!app_assoc.
  - exists (l1 ++ piece_new Add (length (add_buffer b)) 1 :: l2). split.
    + rewrite !vec_insert_app by done. destruct l2 as [|q l2].
      * by rewrite app_nil_r, Nat.eqb_refl.
      * rewrite length_app. simpl. destruct (Nat.eqb_spec (length l1) (length l1 + S (length l2))); [lia|].
        by rewrite arr_get_middle.
    + split; [apply Forall_app; split; [|constructor]; auto using grown_in_ranges|].
      rewrite segs_app. simpl. by rewrite Hs, !grown_segs.
Qed.

(** Inside a piece. *)
Lemma insert_inside b c l1 p l2 o : Forall (in_range b) (piece_table b) ->
  piece_table b = l1 ++ p :: l2 -> 0 < o < plength p ->
  exists l', insert_pieces (grown b c) (length l1) o = Ret l' /\ Forall (in_range (grown b c)) l'
    /\ exists s1 s2, seg b p = s1 ++ s2 /\ length s1 = o /\
         segs (grown b c) l' = (segs b l1 ++ s1) ++ c :: s2 ++ segs b l2.
Proof.
  intros Hr E Ho. unfold insert_pieces, can_enlarge.
  destruct (Nat.eqb_spec o 0); [lia|]. rewrite andb_false_r. rewrite grown_last. simpl.
  rewrite E in *. destruct (Nat.eqb_spec (length l1) (length (l1 ++ p :: l2))) as [X|];
    [rewrite length_app in X; simpl in X; lia|].
  rewrite arr_get_middle by done. simpl. rewrite arr_set_middle by done. simpl.
  rewrite usub_ok by lia. simpl.
  rewrite cons_middle, app_assoc.
  rewrite vec_insert_app by (rewrite length_app; simpl; lia). simpl.
  rewrite vec_insert_app by (rewrite length_app; simpl; lia).
  apply Forall_app in Hr as [H1 [Hp H2]%Forall_cons]. destruct (grown_new b c) as [Hs Hn].
  assert (in_range b (set_length p o)) by (unfold in_range, set_length in *; simpl; lia).
  assert (in_range b (piece_new (buffer p) (offset p + o) (plength p - o)))
    by (unfold in_range in *; simpl; lia).
  eexists. split; [done|]. split.
  - apply Forall_app. split; [apply Forall_app; split|]; repeat constructor;
      auto using grown_in_range, grown_in_ranges.
  - exists (seg b (set_length p o)), (seg b (piece_new (buffer p) (offset p + o) (plength p - o))).
    split; [apply seg_split; lia|]. split; [by rewrite seg_length|].
    rewrite !segs_app. simpl. by rewrite Hs, !grown_segs, !grown_seg, app_nil_r by done.
Qed.

Lemma resolve_true b la : exists i o, resolve_logical_adress b la true = Some (i, o) /\
  ((exists l1 p l2, piece_table b = l1 ++ p :: l2 /\ i = length l1 /\ la = total l1 + o /\ 0 < o < plength p)
   \/ (exists l1 l2, piece_table b = l1 ++ l2 /\ i = length l1 /\ o = 0 /\
         (la = total l1 \/ l2 = [] /\ total l1 <= la))).
Proof.
  pose proof (resolve_spec (piece_table b) la true 0 0 ltac:(lia)) as H.
  unfold resolve_logical_adress. destruct (resolve_loop _ _ _ _ _) as [[i o]|]; [|by destruct H].
  exists i, o. split; [done|]. destruct H as [(l1 & p & l2 & E & -> & -> & Ho) | (_ & -> & -> & ?)].
  - destruct (decide (o = 0)) as [->|]; [right; exists l1, (p :: l2) | left; exists l1, p, l2].
    all: repeat split; try done; try lia.
  - right. exists (piece_table b), []. rewrite app_nil_r. repeat split; auto with lia.
Qed.

Lemma insert_pieces_spec b la c i o : wf b -> resolve_logical_adress b la true = Some (i, o) ->
  exists l', insert_pieces (grown b c) i o = Ret l' /\ Forall (in_range (grown b c)) l'
    /\ segs (grown b c) l' = ins la c (text b).
Proof.
  intros [Hr _ _] R. destruct (resolve_true b la) as (i' & o' & R' & H). rewrite R in R'.
  injection R' as <- <-. unfold text.
  destruct H as [(l1 & p & l2 & E & -> & -> & Ho) | (l1 & l2 & E & -> & -> & Hla)].
  - destruct (insert_inside b c l1 p l2 o Hr E Ho) as (l' & Hl & Hf & s1 & s2 & Hs & Hlen & Ht).
    exists l'. split; [done|]. split; [done|]. rewrite Ht. rewrite E in *. apply Forall_app in Hr as [H1 _].
    rewrite segs_app. simpl. rewrite Hs, <-(app_assoc s1 s2), (app_assoc (segs b l1)).
    rewrite ins_app; [done|]. rewrite length_app, segs_length by done. lia.
  - destruct (insert_between b c l1 l2 Hr E) as (l' & Hl & Hf & Ht).
    exists l'. split; [done|]. split; [done|]. rewrite Ht. rewrite E in *. apply Forall_app in Hr as [H1 _].
    rewrite segs_app. destruct Hla as [->|[-> Hla]]; simpl.
    + by rewrite ins_app by by apply segs_length.
    + by rewrite app_nil_r, ins_end by (by rewrite segs_length).
Qed.

Lemma abs_record o op b : abs (record o op b) = e_record o op (text b) (abs b).
Proof. by destruct op. Qed.

Lemma wf_record o op b : wf b -> wf (record o op b).
Proof. intros [? ? ?]. by destruct op. Qed.

Lemma e_record_set o op b l n : e_record o op (text b) (abs (set_pieces l n b)) = e_record o op (text b) (abs b).
Proof. by destruct op. Qed.

(** What an operation of the buffer owes the editor's: it returns, keeps the buffer well
    formed, and gives the editor's result and state. *)
Definition refines (m : outcome (call unit)) (s : result TextBufferError unit * Editor) : Prop :=
  exists r b', m = Ret (r, b') /\ wf b' /\ s = (r, abs b').

Lemma insert_refines la c op b : wf b -> refines (_insert la c op b) (e_insert la c op (abs b)).
Proof.
  intros W. unfold _insert. destruct (resolve_true b la) as (i & o & R & _). rewrite R.
  destruct (insert_pieces_spec b la c i o W R) as (l & Hl & Hf & Ht).
  fold (grown b c). rewrite Hl. simpl. do 2 eexists. split; [done|]. destruct W as [_ Hlen Hb].
  assert (Ht' : text (set_pieces l (lenght b + 1) (grown b c)) = ins la c (text b)) by exact Ht.
  split.
  - apply wf_record. constructor; [done| |]; rewrite Ht', length_ins; simpl; [lia|].
    rewrite length_app. simpl. lia.
  - unfold e_insert. by rewrite abs_record, Ht'; destruct op.
Qed.

(** ** Deletion *)

(** The pieces before and after the character at offset [o]. *)
Definition before (p : PieceDescr) (o : nat) : PieceDescr := set_length p o.
Definition after (p : PieceDescr) (o : nat) : PieceDescr :=
  piece_new (buffer p) (offset p + o + 1) (plength p - o - 1).

(** The pieces that replace [p]. *)
Definition cut (p : PieceDescr) (o : nat) : list PieceDescr :=
  if o =? 0 then (if plength p - 1 =? 0 then [] else [after p 0])
  else if plength p - 1 =? o then [before p o] else [before p o; after p o].

Lemma delete_pieces_cut b l1 p l2 o : piece_table b = l1 ++ p :: l2 -> o < plength p ->
  delete_pieces b (length l1) o = Ret (l1 ++ cut p o ++ l2).
Proof.
  intros E Ho. unfold delete_pieces, cut. rewrite E, arr_get_middle by done. simpl.
  rewrite (usub_ok (plength p) 1) by lia. simpl. destruct (Nat.eqb_spec o 0) as [->|].
  - rewrite arr_set_middle by done. simpl. rewrite list_lookup_middle by done. simpl.
    destruct (Nat.eqb_spec (plength p - 1) 0); [by rewrite vec_remove_app|].
    unfold after, set_length, set_offset. simpl. by rewrite !Nat.sub_0_r, Nat.add_0_r.
  - destruct (Nat.eqb_spec (plength p - 1) o) as [<-|].
    + rewrite arr_set_middle by done. simpl. rewrite list_lookup_middle by done. simpl.
      by destruct (Nat.eqb_spec (plength p - 1) 0).
    + rewrite arr_set_middle by done. simpl. rewrite usub_ok by lia. simpl. rewrite usub_ok by lia. simpl.
      rewrite cons_middle, app_assoc, vec_insert_app by (rewrite length_app; simpl; lia). simpl.
      rewrite <-app_assoc. simpl. rewrite list_lookup_middle by done. simpl.
      by destruct (Nat.eqb_spec o 0).
Qed.

Lemma cut_split b p o : in_range b p -> o < plength p ->
  exists c, seg b p = seg b (before p o) ++ c :: seg b (after p o) /\
    length (seg b (before p o)) = o /\ Forall (in_range b) (cut p o) /\
    segs b (cut p o) = seg b (before p o) ++ seg b (after p o).
Proof.
  intros Hp Ho. destruct (lookup_lt_is_Some_2 (chars_of b (buffer p)) (offset p + o)) as [c Hc].
  { unfold in_range in Hp. lia. }
  assert (R1 : in_range b (before p o)) by (unfold in_range in *; simpl; lia).
  assert (R3 : in_range b (after p o)) by (unfold in_range in *; simpl; lia).
  exists c. split; [|split; [by apply seg_length|]].
  - rewrite (seg_split b p o) by lia. f_equal. rewrite (seg_cons b _ c); [done| |done|simpl; lia].
    unfold in_range in *. simpl. lia.
  - pose proof (seg_length b _ R1) as L1. pose proof (seg_length b _ R3) as L3. unfold cut.
    destruct (Nat.eqb_spec o 0) as [->|]; [|destruct (Nat.eqb_spec (plength p - 1) o)].
    + destruct (Nat.eqb_spec (plength p - 1) 0); simpl in *.
      * split; [constructor|]. by rewrite (nil_length_inv (seg b (after p 0))) by lia.
      * split; [by repeat constructor|]. by rewrite app_nil_r.
    + split; [by repeat constructor|]. simpl in *.
      by rewrite (nil_length_inv (seg b (after p o))), !app_nil_r by lia.
    + split; [by repeat constructor|]. simpl. by rewrite app_nil_r.
Qed.

Lemma resolve_false b la : wf b ->
  resolve_logical_adress b la false = None /\ text b !! la = None \/
  (exists l1 p l2 o, resolve_logical_adress b la false = Some (length l1, o) /\
     piece_table b = l1 ++ p :: l2 /\ la = total l1 + o /\ o < plength p).
Proof.
  intros [Hr _ _]. unfold resolve_logical_adress, text.
  pose proof (resolve_spec (piece_table b) la false 0 0 ltac:(lia)) as H.
  destruct (resolve_loop _ _ _ _ _) as [[i o]|].
  - destruct H as [(l1 & p & l2 & E & -> & -> & Ho) | (? & _)]; [right|done]. by exists l1, p, l2, o.
  - left. split; [done|]. apply lookup_ge_None. rewrite segs_length by done. lia.
Qed.

Lemma length_del la c t : t !! la = Some c -> S (length (del la t)) = length t.
Proof.
  intros H%lookup_lt_Some. unfold del. rewrite length_app, length_take, length_drop. lia.
Qed.

Lemma delete_refines la op b : wf b -> refines (_delete la op b) (e_delete la op (abs b)).
Proof.
  intros W. unfold _delete, e_delete. simpl.
  destruct (resolve_false b la W) as [[-> ->] | (l1 & p & l2 & o & -> & E & -> & Ho)].
  { by exists (Err AddressOutOfBounds), b. }
  rewrite get_char_spec by done. destruct W as [Hr Hlen Hb]. rewrite E in Hr.
  apply Forall_app in Hr as [H1 [Hp H2]%Forall_cons].
  destruct (cut_split b p o Hp Ho) as (c & Hs & Hl & Hf & Ht).
  assert (T : text b = (segs b l1 ++ seg b (before p o)) ++ c :: seg b (after p o) ++ segs b l2).
  { unfold text. rewrite E, segs_app. simpl. rewrite Hs. by rewrite <-!app_assoc. }
  assert (L : length (segs b l1 ++ seg b (before p o)) = total l1 + o)
    by (rewrite length_app, segs_length; [lia|done]).
  assert (C : text b !! (total l1 + o) = Some c) by (rewrite T; by apply list_lookup_middle).
  rewrite C, (delete_pieces_cut b l1 p l2 o E Ho). simpl.
  pose proof (length_del _ _ _ C) as D. rewrite usub_ok by lia. simpl.
  set (b' := set_pieces _ _ b).
  assert (T' : text b' = del (total l1 + o) (text b)).
  { unfold text at 1. simpl. rewrite T, del_app by done. change (segs b') with (segs b).
    by rewrite !segs_app, Ht, <-!app_assoc. }
  do 2 eexists. split; [done|]. split.
  - apply wf_record. constructor; rewrite ?T'; simpl; [|lia|lia].
    repeat (apply Forall_app; split); done.
  - by rewrite abs_record, T'; destruct op.
Qed.

(** ** Undo and redo *)

Lemma wf_set_stacks h r b : wf b -> wf (set_stacks h r b).
Proof. by intros []. Qed.

Lemma undo_refines b : wf b -> refines (undo b) (e_undo (abs b)).
Proof.
  intros W. unfold undo, e_undo. simpl. destruct (history b) as [|[la c|la c] h] eqn:E.
  - by exists (Ok tt), b.
  - exact (delete_refines la Undo _ (wf_set_stacks h (redo_ops b) b W)).
  - exact (insert_refines la c Undo _ (wf_set_stacks h (redo_ops b) b W)).
Qed.

Lemma redo_refines b : wf b -> refines (redo b) (e_redo_op (abs b)).
Proof.
  intros W. unfold redo, e_redo_op. simpl. destruct (redo_ops b) as [|[la c|la c] r] eqn:E.
  - by exists (Ok tt), b.
  - exact (delete_refines la Redo _ (wf_set_stacks (history b) r b W)).
  - exact (insert_refines la c Redo _ (wf_set_stacks (history b) r b W)).
Qed.

Lemma from_str_refines s : wf (from_str s) /\ abs (from_str s) = {| e_text := s; e_history := []; e_redo := [] |}.
Proof.
  assert (T : text (from_str s) = s).
  { unfold text, segs, seg. simpl. by rewrite take_ge, app_nil_r by (rewrite drop_0; lia). }
  split; [constructor; rewrite ?T; simpl|by unfold abs; rewrite T].
  - by repeat constructor.
  - done.
  - lia.
Qed.

(** ** Sequences of calls *)

Inductive buffer_call := CInsert (la : nat) (c : char) | CDelete (la : nat) | CUndo | CRedo.

Definition run_call (k : buffer_call) (b : TextBuffer) : outcome (call unit) :=
  match k with
  | CInsert la c => insert la c b | CDelete la => delete la b | CUndo => undo b | CRedo => redo b
  end.

Definition e_call (k : buffer_call) (e : Editor) : result TextBufferError unit * Editor :=
  match k with
  | CInsert la c => e_insert la c None_ e | CDelete la => e_delete la None_ e
  | CUndo => e_undo e | CRedo => e_redo_op e
  end.

(** The results of a sequence of calls, and the final state. *)
Fixpoint run_calls (ks : list buffer_call) (b : TextBuffer) : outcome (list (result TextBufferError unit) * TextBuffer) :=
  match ks with
  | [] => Ret ([], b)
  | k :: ks' =>
      '(r, b') ← run_call k b;
      '(rs, b'') ← run_calls ks' b';
      Ret (r :: rs, b'')
  end.

Fixpoint e_calls (ks : list buffer_call) (e : Editor) : list (result TextBufferError unit) * Editor :=
  match ks with
  | [] => ([], e)
  | k :: ks' =>
      let (r, e') := e_call k e in
      let (rs, e'') := e_calls ks' e' in (r :: rs, e'')
  end.

Lemma call_refines k b : wf b -> refines (run_call k b) (e_call k (abs b)).
Proof.
  intros W. destruct k;
    [apply insert_refines | apply delete_refines | apply undo_refines | apply redo_refines]; done.
Qed.

Lemma calls_refine ks b : wf b -> exists rs b',
  run_calls ks b = Ret (rs, b') /\ wf b' /\ e_calls ks (abs b) = (rs, abs b').
Proof.
  revert b. induction ks as [|k ks IH]; intros b W; simpl; [by exists [], b|].
  destruct (call_refines k b W) as (r & b1 & -> & W1 & ->). simpl.
  destruct (IH b1 W1) as (rs & b2 & -> & W2 & ->). simpl. by exists (r :: rs), b2.
Qed.

Lemma collect_text b i n : wf b -> i <= length (text b) < i + n -> collect n b i = Some (drop i (text b)).
Proof.
  intros W. revert i. induction n as [|n IH]; intros i H; simpl.
  - lia.
  - rewrite get_char_spec by done. destruct (text b !! i) as [c|] eqn:E.
    + pose proof (lookup_lt_Some _ _ _ E). rewrite IH by lia. by rewrite (drop_S _ c _ E).
    + apply lookup_ge_None in E. by rewrite drop_ge.
Qed.

(** The characters the iterator yields until it returns [None], with fuel. *)
Fixpoint iterate (fuel : nat) (b : TextBuffer) : option (list char) :=
  match fuel with
  | O => None
  | S f => match next b with
           | (Some c, b') => cons c <$> iterate f b'
           | (None, _) => Some []
           end
  end.

Lemma iterate_text b n : wf b -> pos b <= length (text b) < pos b + n -> iterate n b = Some (drop (pos b) (text b)).
Proof.
  revert b. induction n as [|n IH]; intros b W H; simpl; [lia|].
  unfold next. pose proof (wf_len b W) as L. destruct (Nat.ltb_spec (pos b) (lenght b)).
  - rewrite get_char_spec by done. destruct (lookup_lt_is_Some_2 (text b) (pos b)) as [c E]; [lia|].
    rewrite E. rewrite IH; simpl.
    + by rewrite (drop_S _ c _ E), Nat.add_1_r.
    + by destruct W.
    + change (text (set_pos (pos b + 1) b)) with (text b). lia.
  - by rewrite drop_ge by lia.
Qed.

(** C32 Starting from any file text, any sequence of insertions, deletions, undos and redos
    on the piece table returns, gives call by call the results of the editor that holds
    plain text and two stacks, and ends with its text: [len] is its length, [get_char]
    reads it, [to_string] and the iterator produce it, and every position the code
    computes with is bounded by the lengths of the two strings. *)
Theorem text_buffer_refines (s : list char) (ks : list buffer_call) :
  exists rs b', run_calls ks (from_str s) = Ret (rs, b') /\
    let '(rs', e) := e_calls ks {| e_text := s; e_history := []; e_redo := [] |} in
    rs = rs' /\ abs b' = e /\ len b' = length (e_text e) /\
    (forall la, get_char b' la = e_text e !! la) /\
    to_string (S (len b')) b' = Some (e_text e) /\
    iterate (S (len b')) (set_pos 0 b') = Some (e_text e) /\
    len b' <= length (file_buffer b') + length (add_buffer b') /\
    Forall (fun p => offset p + plength p <= length (file_buffer b') + length (add_buffer b')) (piece_table b').
Proof.
  destruct (from_str_refines s) as [W0 <-].
  destruct (calls_refine ks (from_str s) W0) as (rs & b' & R & W & ->).
  exists rs, b'. split; [done|]. unfold to_string, len. pose proof W as [Hr L B]. rewrite L. simpl.
  repeat split; auto.
  - intros la. by rewrite get_char_spec.
  - apply (collect_text b' 0 (S (length (text b')))); [done|lia].
  - apply (iterate_text (set_pos 0 b') (S (length (text b')))); [by destruct W|].
    change (text (set_pos 0 b')) with (text b'). simpl. lia.
  - eapply Forall_impl; [exact Hr|]. intros p Hp. unfold in_range in Hp.
    destruct (buffer p); simpl in Hp; lia.
Qed.
