(* ===== verification/TextUndo.v ===== *)
(** * Undo and redo of the text buffer

    As long as no insertion is past the end of the text, each entry of the two stacks
    describes an edit that can be reverted on the text it meets, so that undo and redo are
    inverse to the edits and to each other. *)

From S2P Require Import Prelude TextBuffer TextBufferProofs.
Import PieceTable.

Open Scope nat_scope.

(** Each operation of the stack can be reverted, one after the other from the top. *)
Fixpoint revertible (t : list char) (ops : list Operation) : Prop :=
  match ops with
  | [] => True
  | Insert la c :: r => t !! la = Some c /\ revertible (del la t) r
  | Delete la c :: r => la <= length t /\ revertible (ins la c t) r
  end.

Definition coherent (e : Editor) : Prop :=
  revertible (e_text e) (e_history e) /\ revertible (e_text e) (e_redo e).

(** Insertions at most at the end of the text. *)
Definition call_in_range (k : buffer_call) (t : list char) : bool :=
  match k with CInsert la _ => la <=? length t | _ => true end.

Fixpoint calls_in_range (ks : list buffer_call) (e : Editor) : bool :=
  match ks with
  | [] => true
  | k :: ks' => call_in_range k (e_text e) && calls_in_range ks' (e_call k e).2
  end.

(** Edits of positions of the text. *)
Definition edit_in_range (k : buffer_call) (t : list char) : bool :=
  match k with CInsert la _ => la <=? length t | CDelete la => la <? length t | _ => false end.

Fixpoint edits_in_range (ks : list buffer_call) (e : Editor) : bool :=
  match ks with
  | [] => true
  | k :: ks' => edit_in_range k (e_text e) && edits_in_range ks' (e_call k e).2
  end.

(** ** Insertion and deletion are inverse *)

Lemma ins_lookup la c t : la <= length t -> ins la c t !! la = Some c.
Proof. intros H. unfold ins. apply list_lookup_middle. rewrite length_take. lia. Qed.

Lemma del_ins la c t : la <= length t -> del la (ins la c t) = t.
Proof.
  intros H. unfold ins. rewrite del_app by (rewrite length_take; lia). apply take_drop.
Qed.

Lemma ins_del la c t : t !! la = Some c -> ins la c (del la t) = t.
Proof.
  intros (t1 & t2 & -> & H)%lookup_split. by rewrite del_app, ins_app.
Qed.

Lemma del_length la c t : t !! la = Some c -> la <= length (del la t).
Proof. intros H. pose proof (length_del _ _ _ H). apply lookup_lt_Some in H. lia. Qed.

#[local] Hint Resolve ins_lookup del_ins ins_del del_length : d3os.

(** ** Coherence *)

Lemma call_coherent k e : coherent e -> call_in_range k (e_text e) = true -> coherent (e_call k e).2.
Proof.
  destruct e as [t h r]. unfold coherent, e_call, e_undo, e_redo_op, e_revert, e_delete, e_insert. simpl.
  intros [Hh Hr] K. destruct k as [la c|la| |]; simpl in *.
  - apply Nat.leb_le in K. rewrite del_ins by done. auto using ins_lookup.
  - destruct (t !! la) as [c|] eqn:E; simpl; [|done].
    split; [|done]. rewrite (ins_del _ _ _ E). eauto with d3os.
  - destruct h as [|[la c|la c] h]; simpl in *; [done| |].
    + destruct Hh as [E Hh]. rewrite E. simpl. rewrite (ins_del _ _ _ E). eauto with d3os.
    + destruct Hh as [E Hh]. rewrite del_ins by done. auto using ins_lookup.
  - destruct r as [|[la c|la c] r]; simpl in *; [done| |].
    + destruct Hr as [E Hr]. rewrite E. simpl. rewrite (ins_del _ _ _ E). eauto with d3os.
    + destruct Hr as [E Hr]. rewrite del_ins by done. auto using ins_lookup.
Qed.

Lemma calls_coherent ks e : coherent e -> calls_in_range ks e = true -> coherent (e_calls ks e).2.
Proof.
  revert e. induction ks as [|k ks IH]; intros e C K; simpl in *; [done|].
  apply andb_prop in K as [K1 K2]. pose proof (call_coherent k e C K1) as C1.
  destruct (e_call k e) as [x e']. specialize (IH e' C1 K2).
  by destruct (e_calls ks e').
Qed.

(** In a coherent state undo succeeds and redo takes it back, and conversely. *)
Lemma undo_redo e : coherent e -> e_history e <> [] ->
  (e_undo e).1 = Ok tt /\ e_redo_op (e_undo e).2 = (Ok tt, e) /\
  length (e_history (e_undo e).2) = length (e_history e) - 1.
Proof.
  destruct e as [t [|[la c|la c] h] r]; unfold coherent, e_undo, e_redo_op, e_revert, e_delete, e_insert; simpl;
    intros [H _] ?; [done|destruct H as [E _]..].
  - rewrite E. simpl. rewrite (ins_del _ _ _ E), Nat.sub_0_r. done.
  - rewrite ins_lookup, del_ins, Nat.sub_0_r by done. done.
Qed.

(** An edit of a position of the text is undone by the next undo. *)
Lemma edit_undo k e e1 : edit_in_range k (e_text e) = true ->
  e_text e1 = e_text (e_call k e).2 -> e_history e1 = e_history (e_call k e).2 ->
  (e_call k e).1 = Ok tt /\ (e_undo e1).1 = Ok tt /\
  e_text (e_undo e1).2 = e_text e /\ e_history (e_undo e1).2 = e_history e.
Proof.
  destruct e as [t h r], e1 as [t1 h1 r1]. unfold e_undo, e_delete, e_insert.
  destruct k as [la c|la| |]; simpl; intros K; [| |done|done].
  - intros -> ->. simpl. apply Nat.leb_le in K. unfold e_delete. simpl.
    rewrite ins_lookup, del_ins by done. done.
  - apply Nat.ltb_lt, lookup_lt_is_Some in K as [c E]. unfold e_delete. simpl. rewrite E. simpl.
    intros -> ->. simpl. by rewrite (ins_del _ _ _ E).
Qed.

(** ** Sequences *)

Lemma e_calls_app ks1 ks2 e :
  e_calls (ks1 ++ ks2) e =
    ((e_calls ks1 e).1 ++ (e_calls ks2 (e_calls ks1 e).2).1, (e_calls ks2 (e_calls ks1 e).2).2).
Proof.
  revert e. induction ks1 as [|k ks1 IH]; intros e; simpl; [by destruct (e_calls ks2 e)|].
  destruct (e_call k e) as [x e']. rewrite IH. by destruct (e_calls ks1 e').
Qed.

Definition all_ok (rs : list (result TextBufferError unit)) : Prop := Forall (eq (Ok tt)) rs.

Lemma edits_undo ks e : edits_in_range ks e = true ->
  let e1 := (e_calls ks e).2 in
  let u := e_calls (replicate (length ks) CUndo) e1 in
  all_ok (e_calls ks e).1 /\ all_ok u.1 /\ e_text u.2 = e_text e /\ e_history u.2 = e_history e.
Proof.
  revert e. induction ks as [|k ks IH]; intros e K; simpl; [by repeat constructor|].
  simpl in K. apply andb_prop in K as [K1 K2]. specialize (IH _ K2).
  pose proof (edit_undo k e) as U. destruct (e_call k e) as [x e']. simpl in *.
  destruct (e_calls ks e') as [rs e1]. simpl in *.
  change (let (r, e'0) := e_undo e1 in
          let (rs0, e'') := e_calls (replicate (length ks) CUndo) e'0 in (r :: rs0, e''))
    with (e_calls (CUndo :: replicate (length ks) CUndo) e1).
  rewrite <-(replicate_S (length ks) CUndo), replicate_S_end, e_calls_app.
  destruct (e_calls (replicate (length ks) CUndo) e1) as [us e2]. simpl in *.
  destruct IH as (O1 & O2 & T & H). destruct (U e2 K1 T H) as (Ox & Ou & T' & H').
  destruct (e_undo e2) as [y e3]. simpl in *. subst x y.
  repeat split; [by constructor| |done|done]. apply Forall_app. by repeat constructor.
Qed.

Lemma undos_redos n e : coherent e -> n <= length (e_history e) ->
  let u := e_calls (replicate n CUndo) e in
  e_calls (replicate n CRedo) u.2 = (replicate n (Ok tt), e).
Proof.
  revert e. induction n as [|n IH]; intros e C L; [done|].
  rewrite (replicate_S_end n CRedo), (replicate_S n CUndo).
  assert (N : e_history e <> []) by (intros E; rewrite E in L; simpl in L; lia).
  destruct (undo_redo e C N) as (_ & R & LH).
  pose proof (call_coherent CUndo e C eq_refl) as C'. specialize (IH _ C').
  cbn [e_calls e_call] in *. destruct (e_undo e) as [x e']. cbn [snd] in *.
  specialize (IH ltac:(lia)). destruct (e_calls (replicate n CUndo) e') as [us e2]. cbn [snd] in *.
  rewrite e_calls_app, IH. cbn. rewrite R. cbn. f_equal. by rewrite <-replicate_S_end.
Qed.

Lemma edits_history ks e : edits_in_range ks e = true ->
  length (e_history (e_calls ks e).2) = length (e_history e) + length ks.
Proof.
  revert e. induction ks as [|k ks IH]; intros e K; simpl in *; [lia|].
  apply andb_prop in K as [K1 K2]. specialize (IH _ K2).
  assert (H : length (e_history (e_call k e).2) = S (length (e_history e))).
  { destruct k as [la c|la| |]; simpl in *; [done| |done|done].
    apply Nat.ltb_lt, lookup_lt_is_Some in K1 as [c E]. unfold e_delete. by rewrite E. }
  destruct (e_call k e) as [x e']. simpl in *. destruct (e_calls ks e'). simpl in *. lia.
Qed.

(** An insertion past the end appends, but is recorded at the address given, so that undo
    fails and drops the entry. *)
Lemma append_not_undone b la c : wf b -> length (text b) < la ->
  exists b1 b2, insert la c b = Ret (Ok tt, b1) /\ text b1 = text b ++ [c] /\
    undo b1 = Ret (Err AddressOutOfBounds, b2) /\ text b2 = text b ++ [c] /\ history b2 = history b.
Proof.
  intros W L. destruct (insert_refines la c None_ b W) as (r & b1 & R & W1 & E).
  unfold e_insert in E. simpl in E. rewrite (ins_end la c (text b)) in E by lia. injection E as <- T H _.
  destruct (undo_refines b1 W1) as (r2 & b2 & R2 & W2 & E2).
  unfold e_undo, e_revert, e_delete in E2. simpl in E2. rewrite <-H, <-T in E2. simpl in E2.
  rewrite (lookup_ge_None_2 (text b ++ [c]) la) in E2 by (rewrite length_app; simpl; lia).
  injection E2 as <- T2 H2 _. exists b1, b2. by rewrite <-T2, <-H2.
Qed.

Definition plain (s : list char) : Editor := {| e_text := s; e_history := []; e_redo := [] |}.

(** After any calls whose insertions are at most at the end of the text, [n] edits of
    positions of the text followed by [n] undos give back the text and the history, and
    [n] redos then give back the edited text with both stacks.  None of these calls
    fails. *)
Theorem edits_undone_redone (s : list char) (ks es : list buffer_call) :
  calls_in_range ks (plain s) = true -> edits_in_range es (e_calls ks (plain s)).2 = true ->
  let n := length es in
  exists rs b1 rs2 b2 rs3 b3 b4,
    run_calls ks (from_str s) = Ret (rs, b1) /\
    run_calls es b1 = Ret (rs2, b2) /\ all_ok rs2 /\
    run_calls (replicate n CUndo) b2 = Ret (rs3, b3) /\ all_ok rs3 /\
    run_calls (replicate n CRedo) b3 = Ret (replicate n (Ok tt), b4) /\
    text b3 = text b1 /\ history b3 = history b1 /\ abs b4 = abs b2.
Proof.
  intros K E n. destruct (from_str_refines s) as [W0 A0]. fold (plain s) in A0.
  destruct (calls_refine ks _ W0) as (rs & b1 & R1 & W1 & A1).
  rewrite A0 in A1. pose proof (calls_coherent ks (plain s)) as C1. rewrite A1 in C1, E. simpl in *.
  specialize (C1 (conj I I) K).
  destruct (calls_refine es b1 W1) as (rs2 & b2 & R2 & W2 & A2).
  destruct (calls_refine (replicate n CUndo) b2 W2) as (rs3 & b3 & R3 & W3 & A3).
  destruct (calls_refine (replicate n CRedo) b3 W3) as (rs4 & b4 & R4 & W4 & A4).
  pose proof (edits_undo es (abs b1) E) as U. pose proof (edits_history es (abs b1) E) as H.
  rewrite A2 in U, H. simpl in U. fold n in U. rewrite A3 in U. simpl in U, H.
  assert (C2 : coherent (abs b2)).
  { pose proof (calls_coherent es (abs b1) C1) as C. rewrite A2 in C. apply C.
    clear - E. revert E. generalize (abs b1). induction es as [|k es IH]; intros e E; simpl in *; [done|].
    apply andb_prop in E as [E1 E2]. rewrite (IH _ E2), andb_true_r. by destruct k. }
  pose proof (undos_redos n (abs b2) C2) as X. simpl in X. rewrite A3 in X. simpl in X.
  rewrite X in A4 by lia. apply pair_equal_spec in A4 as [<- A4].
  exists rs, b1, rs2, b2, rs3, b3, b4. simpl in *. intuition.
Qed.

Lemma edits_undone_redone_witness :
  let ks := [CInsert 0 65%Z; CInsert 2 66%Z; CDelete 1; CUndo] in
  let es := [CInsert 1 67%Z; CDelete 0; CInsert 3 68%Z] in
  exists rs b1 rs2 b2 rs3 b3 b4,
    run_calls ks (from_str [97%Z; 98%Z]) = Ret (rs, b1) /\
    run_calls es b1 = Ret (rs2, b2) /\ all_ok rs2 /\
    run_calls (replicate 3 CUndo) b2 = Ret (rs3, b3) /\ all_ok rs3 /\
    run_calls (replicate 3 CRedo) b3 = Ret (replicate 3 (Ok tt), b4) /\
    text b3 = text b1 /\ history b3 = history b1 /\ abs b4 = abs b2.
Proof. intros ks es. exact (edits_undone_redone [97%Z; 98%Z] ks es eq_refl eq_refl). Defined.
