(* ===== verification/TermColor.v ===== *)
(** * Colours, and the colour state of the terminal *)

From S2P Require Import Prelude.

Open Scope Z_scope.

(** * The colours of the graphics library

    Colours by their channels, brighter and dimmer ones, and the table of the 256 colours that the
    sequences of ANSI select from. *)

(** ** Colours *)

(* [os/library/graphic/src/color.rs:25-30] Color *)
Record Color := mkColor { red : Z; green : Z; blue : Z; alpha : Z }.

Definition BRIGHTNESS_SHIFT : Z := 85.

Definition opaque (r g b : Z) : Color := mkColor r g b 255.
Definition BLACK : Color := opaque 0 0 0.
Definition RED : Color := opaque 170 0 0.
Definition GREEN : Color := opaque 0 170 0.
Definition YELLOW : Color := opaque 170 170 0.
Definition BLUE : Color := opaque 0 0 170.
Definition MAGENTA : Color := opaque 170 0 170.
Definition CYAN : Color := opaque 0 170 170.
Definition WHITE : Color := opaque 170 170 170.

(* [os/library/graphic/src/color.rs:116-134] Color::bright *)
Definition bright_color (c : Color) : Color :=
  let up x := let x := x + BRIGHTNESS_SHIFT in if 0xff <? x then 0xff else x in
  mkColor (up (red c)) (up (green c)) (up (blue c)) (alpha c).

(* [os/library/graphic/src/color.rs:136-154] Color::dim *)
Definition dim_color (c : Color) : Color :=
  let down x := let x := x - BRIGHTNESS_SHIFT in if x <? 0 then 0 else x in
  mkColor (down (red c)) (down (green c)) (down (blue c)) (alpha c).

(* [os/library/graphic/src/ansi.rs:43-1503] COLOR_TABLE_256 *)
Definition COLOR_TABLE_256 : list Color :=
  [ BLACK; RED; GREEN; YELLOW; BLUE; MAGENTA; CYAN; WHITE;
    bright_color BLACK; bright_color RED; bright_color GREEN; bright_color YELLOW;
    bright_color BLUE; bright_color MAGENTA; bright_color CYAN; bright_color WHITE;
    opaque 0 0 0; opaque 0 0 95; opaque 0 0 135; opaque 0 0 175; opaque 0 0 215; opaque 0 0 255; opaque 0 95 0;
    opaque 0 95 95; opaque 0 95 135; opaque 0 95 175; opaque 0 95 215; opaque 0 95 255; opaque 0 135 0; opaque 0 135 95;
    opaque 0 135 135; opaque 0 135 175; opaque 0 135 215; opaque 0 135 255; opaque 0 175 0; opaque 0 175 95;
    opaque 0 175 135; opaque 0 175 175; opaque 0 175 215; opaque 0 175 255; opaque 0 215 0; opaque 0 215 95;
    opaque 0 215 135; opaque 0 215 175; opaque 0 215 215; opaque 0 215 255; opaque 0 255 0; opaque 0 255 95;
    opaque 0 255 135; opaque 0 255 175; opaque 0 255 215; opaque 0 255 255; opaque 95 0 0; opaque 95 0 95; opaque 95 0 135;
    opaque 95 0 175; opaque 95 0 215; opaque 95 0 255; opaque 95 95 0; opaque 95 95 95; opaque 95 95 135; opaque 95 95 175;
    opaque 95 95 215; opaque 95 95 255; opaque 95 135 0; opaque 95 135 95; opaque 95 135 135; opaque 95 135 175;
    opaque 95 135 215; opaque 95 135 255; opaque 95 175 0; opaque 95 175 95; opaque 95 175 135; opaque 95 175 175;
    opaque 95 175 215; opaque 95 175 255; opaque 95 215 0; opaque 95 215 95; opaque 95 215 135; opaque 95 215 175;
    opaque 95 215 215; opaque 95 215 255; opaque 95 255 0; opaque 95 255 95; opaque 95 255 135; opaque 95 255 175;
    opaque 95 255 215; opaque 95 255 255; opaque 135 0 0; opaque 135 0 95; opaque 135 0 135; opaque 135 0 175;
    opaque 135 0 215; opaque 135 0 255; opaque 135 95 0; opaque 135 95 95; opaque 135 95 135; opaque 135 95 175;
    opaque 135 95 215; opaque 135 95 255; opaque 135 135 0; opaque 135 135 95; opaque 135 135 135; opaque 135 135 175;
    opaque 135 135 215; opaque 135 135 255; opaque 135 175 0; opaque 135 175 95; opaque 135 175 135; opaque 135 175 175;
    opaque 135 175 215; opaque 135 175 255; opaque 135 215 0; opaque 135 215 95; opaque 135 215 135; opaque 135 215 175;
    opaque 135 215 215; opaque 135 215 255; opaque 135 255 0; opaque 135 255 95; opaque 135 255 135; opaque 135 255 175;
    opaque 135 255 215; opaque 135 255 255; opaque 175 0 0; opaque 175 0 95; opaque 175 0 135; opaque 175 0 175;
    opaque 175 0 215; opaque 175 0 255; opaque 175 95 0; opaque 175 95 95; opaque 175 95 135; opaque 175 95 175;
    opaque 175 95 215; opaque 175 95 255; opaque 175 135 0; opaque 175 135 95; opaque 175 135 135; opaque 175 135 175;
    opaque 175 135 215; opaque 175 135 255; opaque 175 175 0; opaque 175 175 95; opaque 175 175 135; opaque 175 175 175;
    opaque 175 175 215; opaque 175 175 255; opaque 175 215 0; opaque 175 215 95; opaque 175 215 135; opaque 175 215 175;
    opaque 175 215 215; opaque 175 215 255; opaque 175 255 0; opaque 175 255 95; opaque 175 255 135; opaque 175 255 175;
    opaque 175 255 215; opaque 175 255 255; opaque 215 0 0; opaque 215 0 95; opaque 215 0 135; opaque 215 0 175;
    opaque 215 0 215; opaque 215 0 255; opaque 215 95 0; opaque 215 95 95; opaque 215 95 135; opaque 215 95 175;
    opaque 215 95 215; opaque 215 95 255; opaque 215 135 0; opaque 215 135 95; opaque 215 135 135; opaque 215 135 175;
    opaque 215 135 215; opaque 215 135 255; opaque 215 175 0; opaque 215 175 95; opaque 215 175 135; opaque 215 175 175;
    opaque 215 175 215; opaque 215 175 255; opaque 215 215 0; opaque 215 215 95; opaque 215 215 135; opaque 215 215 175;
    opaque 215 215 215; opaque 215 215 255; opaque 215 255 0; opaque 215 255 95; opaque 215 255 135; opaque 215 255 175;
    opaque 215 255 215; opaque 215 255 255; opaque 255 0 0; opaque 255 0 95; opaque 255 0 135; opaque 255 0 175;
    opaque 255 0 215; opaque 255 0 255; opaque 255 95 0; opaque 255 95 95; opaque 255 95 135; opaque 255 95 175;
    opaque 255 95 215; opaque 255 95 255; opaque 255 135 0; opaque 255 135 95; opaque 255 135 135; opaque 255 135 175;
    opaque 255 135 215; opaque 255 135 255; opaque 255 175 0; opaque 255 175 95; opaque 255 175 135; opaque 255 175 175;
    opaque 255 175 215; opaque 255 175 255; opaque 255 215 0; opaque 255 215 95; opaque 255 215 135; opaque 255 215 175;
    opaque 255 215 215; opaque 255 215 255; opaque 255 255 0; opaque 255 255 95; opaque 255 255 135; opaque 255 255 175;
    opaque 255 255 215; opaque 255 255 255; opaque 8 8 8; opaque 18 18 18; opaque 28 28 28; opaque 38 38 38;
    opaque 48 48 48; opaque 58 58 58; opaque 68 68 68; opaque 78 78 78; opaque 88 88 88; opaque 98 98 98;
    opaque 108 108 108; opaque 118 118 118; opaque 128 128 128; opaque 138 138 138; opaque 148 148 148; opaque 158 158 158;
    opaque 168 168 168; opaque 178 178 178; opaque 188 188 188; opaque 198 198 198; opaque 208 208 208; opaque 218 218 218;
    opaque 228 228 228; opaque 238 238 238 ].

(** ** The table *)

(** The 16 colours of ANSI, a cube of six levels each, and 24 greys. *)
Definition level (i : Z) : Z := if i =? 0 then 0 else 55 + 40 * i.

Definition ansi_base (i : Z) : Color :=
  let on k := if Z.testbit i k then 170 else 0 in opaque (on 0) (on 1) (on 2).

Definition palette (i : Z) : Color :=
  if i <? 8 then ansi_base i
  else if i <? 16 then bright_color (ansi_base (i - 8))
  else if i <? 232 then opaque (level ((i - 16) / 36)) (level ((i - 16) / 6 mod 6)) (level ((i - 16) mod 6))
  else let grey := 8 + 10 * (i - 232) in opaque grey grey grey.

Lemma color_table : COLOR_TABLE_256 = (fun i => palette (Z.of_nat i)) <$> seq 0 256.
Proof. vm_compute. reflexivity. Qed.

Lemma color_table_get i : 0 <= i <= 255 -> arr_get COLOR_TABLE_256 (Z.to_nat i) = Ret (palette i).
Proof.
  intros Hi. apply arr_get_ok. rewrite color_table, list_lookup_fmap, lookup_seq_lt by lia. simpl. by rewrite Z2Nat.id by lia.
Qed.

(** ** Channels are bytes *)

Definition color_ok (c : Color) : Prop := 0 <= red c <= 255 /\ 0 <= green c <= 255 /\ 0 <= blue c <= 255 /\ alpha c = 255.

Lemma bright_ok c : color_ok c -> color_ok (bright_color c).
Proof.
  intros (R & G & B & A). unfold color_ok, bright_color, BRIGHTNESS_SHIFT. simpl.
  destruct (Z.ltb_spec 255 (red c + 85)), (Z.ltb_spec 255 (green c + 85)), (Z.ltb_spec 255 (blue c + 85)); lia.
Qed.

Lemma dim_ok c : color_ok c -> color_ok (dim_color c).
Proof.
  intros (R & G & B & A). unfold color_ok, dim_color, BRIGHTNESS_SHIFT. simpl.
  destruct (Z.ltb_spec (red c - 85) 0), (Z.ltb_spec (green c - 85) 0), (Z.ltb_spec (blue c - 85) 0); lia.
Qed.

Lemma table_ok c : c ∈ COLOR_TABLE_256 -> color_ok c.
Proof.
  set (ok c := (0 <=? red c) && (red c <=? 255) && (0 <=? green c) && (green c <=? 255) && (0 <=? blue c) && (blue c <=? 255) && (alpha c =? 255)).
  assert (F : forallb ok COLOR_TABLE_256 = true) by (vm_compute; reflexivity). intros I. apply list_elem_of_In in I.
  rewrite forallb_forall in F. specialize (F c I). unfold ok in F. unfold color_ok. lia.
Qed.

Lemma opaque_ok r g b : color_ok (opaque (r mod 256) (g mod 256) (b mod 256)).
Proof. unfold color_ok, opaque. simpl. pose proof (Z.mod_pos_bound r 256). pose proof (Z.mod_pos_bound g 256). pose proof (Z.mod_pos_bound b 256). lia. Qed.

(** * The colour state of the terminal

    The colours of the terminal under the sequences that select graphic renditions. *)

(** ** The colour state *)

(* [os/application/terminal_emulator/src/terminal/color.rs:3-13] ColorState *)
Record ColorState := {
  fg_color : Color; bg_color : Color; fg_base_color : Color; bg_base_color : Color;
  fg_bright : bool; bg_bright : bool; invert : bool; bright : bool; dim : bool
}.

(* [os/application/terminal_emulator/src/terminal/color.rs:16-28] ColorState::new *)
Definition color_new : ColorState :=
  {| fg_color := WHITE; bg_color := BLACK; fg_base_color := WHITE; bg_base_color := BLACK;
     fg_bright := false; bg_bright := false; invert := false; bright := false; dim := false |}.

Definition set_flags (i b d : bool) (s : ColorState) : ColorState :=
  {| fg_color := fg_color s; bg_color := bg_color s; fg_base_color := fg_base_color s; bg_base_color := bg_base_color s;
     fg_bright := fg_bright s; bg_bright := bg_bright s; invert := i; bright := b; dim := d |}.
Definition set_fg (c : Color) (b : bool) (s : ColorState) : ColorState :=
  {| fg_color := fg_color s; bg_color := bg_color s; fg_base_color := c; bg_base_color := bg_base_color s;
     fg_bright := b; bg_bright := bg_bright s; invert := invert s; bright := bright s; dim := dim s |}.
Definition set_bg (c : Color) (b : bool) (s : ColorState) : ColorState :=
  {| fg_color := fg_color s; bg_color := bg_color s; fg_base_color := fg_base_color s; bg_base_color := c;
     fg_bright := fg_bright s; bg_bright := b; invert := invert s; bright := bright s; dim := dim s |}.

(* [os/application/terminal_emulator/src/terminal/lfb_terminal.rs:576-607] LFBTerminal::handle_ansi_graphic_rendition *)
Definition handle_ansi_graphic_rendition (code : Z) (s : ColorState) : ColorState :=
  if code =? 0 then color_new
  else if code =? 1 then set_flags (invert s) true (dim s) s
  else if code =? 2 then set_flags (invert s) (bright s) true s
  else if code =? 7 then set_flags true (bright s) (dim s) s
  else if code =? 22 then set_flags (invert s) false false s
  else if code =? 27 then set_flags false (bright s) (dim s) s
  else s.

(** The parameters of a sequence, each its first number; what is read is taken off the front. *)
(* [os/application/terminal_emulator/src/terminal/lfb_terminal.rs:806-832] parse_complex_color *)
Definition parse_complex_color (params : list Z) : outcome (option Color * list Z) :=
  match params with
  | [] => Ret (None, [])
  | mode :: ps =>
      if mode =? 2 then
        match ps with
        | r :: g :: b :: ps => Ret (Some (opaque (r mod 256) (g mod 256) (b mod 256)), ps)
        | _ => Ret (None, [])
        end
      else if mode =? 5 then
        match ps with
        | [] => Ret (None, [])
        | index :: ps =>
            if index <=? 255 then c ← arr_get COLOR_TABLE_256 (Z.to_nat index); Ret (Some c, ps)
            else Ret (None, ps)
        end
      else Ret (None, ps)
  end.

(* [os/application/terminal_emulator/src/terminal/lfb_terminal.rs:791-804] ansi_color *)
Definition ansi_color (code : Z) (params : list Z) : outcome (option Color * list Z) :=
  if code =? 0 then Ret (Some BLACK, params)
  else if code =? 1 then Ret (Some RED, params)
  else if code =? 2 then Ret (Some GREEN, params)
  else if code =? 3 then Ret (Some YELLOW, params)
  else if code =? 4 then Ret (Some BLUE, params)
  else if code =? 5 then Ret (Some MAGENTA, params)
  else if code =? 6 then Ret (Some CYAN, params)
  else if (code =? 7) || (code =? 9) then Ret (Some WHITE, params)
  else if code =? 8 then parse_complex_color params
  else Ret (None, params).

(** What is shown of the base colours and the renditions. *)
Definition apply_rendition (s : ColorState) : ColorState :=
  let '(fg, bg) := if invert s then (bg_base_color s, fg_base_color s) else (fg_base_color s, bg_base_color s) in
  let fg := if bright s || fg_bright s then bright_color fg else fg in
  let fg := if dim s then dim_color fg else fg in
  let bg := if bg_bright s then bright_color bg else bg in
  {| fg_color := fg; bg_color := bg; fg_base_color := fg_base_color s; bg_base_color := bg_base_color s;
     fg_bright := fg_bright s; bg_bright := bg_bright s; invert := invert s; bright := bright s; dim := dim s |}.

(** One turn of the loop: the parameter [code], then what it reads of the others. *)
Definition color_turn (code : Z) (ps : list Z) (s : ColorState) : outcome (list Z * ColorState) :=
  let pick set base b :=
    '(c, ps) ← ansi_color (code - base) ps;
    Ret (ps, match c with Some c => set c b s | None => s end) in
  if code <=? 29 then Ret (ps, handle_ansi_graphic_rendition code s)
  else if code <=? 39 then pick set_fg 30 false
  else if (40 <=? code) && (code <=? 49) then pick set_bg 40 false
  else if (90 <=? code) && (code <=? 97) then pick set_fg 90 true
  else if (100 <=? code) && (code <=? 107) then pick set_bg 100 true
  else Ret (ps, s).

(** Each turn takes a parameter: as many turns as parameters are enough. *)
Fixpoint color_loop (fuel : nat) (params : list Z) (s : ColorState) : outcome ColorState :=
  match fuel, params with
  | S fuel, code :: ps => '(ps, s) ← color_turn code ps s; color_loop fuel ps s
  | _, _ => Ret s
  end.

(* [os/application/terminal_emulator/src/terminal/lfb_terminal.rs:516-574] LFBTerminal::handle_ansi_color *)
Definition handle_ansi_color (params : list Z) (s : ColorState) : outcome ColorState :=
  s ← color_loop (length params) params s;
  Ret (apply_rendition s).

(** ** The state stays well formed *)

Record state_ok (s : ColorState) : Prop := {
  fg_ok : color_ok (fg_color s); bg_ok : color_ok (bg_color s);
  fg_base_ok : color_ok (fg_base_color s); bg_base_ok : color_ok (bg_base_color s)
}.

#[local] Hint Constructors state_ok : core.

Lemma ansi_color_ok code ps : Forall (Z.le 0) ps ->
  exists c ps', ansi_color code ps = Ret (c, ps') /\ (length ps' <= length ps)%nat /\ Forall (Z.le 0) ps' /\
    match c with Some c => color_ok c | None => True end.
Proof.
  intros N. unfold ansi_color.
  repeat (case_match; [by eexists _, _; split; [reflexivity|]; split; [done|]; split; [done|];
    unfold color_ok; simpl; lia|]).
  case_match; [|by eexists _, _; split; [reflexivity|]]. destruct ps as [|mode ps]; simpl; [by eexists _, _|]. inversion N as [|? ? _ N']; subst.
  destruct (mode =? 2).
  - destruct ps as [|r [|g [|b ps]]]; (eexists _, _; split; [reflexivity|]; simpl; split; [lia|]; split; [|try done; apply opaque_ok]);
      try constructor. by do 3 (inversion N' as [|? ? _ N'']; subst; clear N'; rename N'' into N').
  - destruct (mode =? 5); [|by eexists _, _; split; [reflexivity|]; simpl; split; [lia|]].
    destruct ps as [|i ps]; [by eexists _, _; split; [reflexivity|]; simpl; split; [lia|]|]. inversion N' as [|? ? Ni N'']; subst.
    destruct (Z.leb_spec i 255); [|by eexists _, _; split; [reflexivity|]; simpl; split; [lia|]].
    rewrite color_table_get by lia. eexists _, _; split; [reflexivity|]. simpl. split; [lia|]. split; [done|].
    apply table_ok. rewrite color_table. apply list_elem_of_fmap. exists (Z.to_nat i). rewrite Z2Nat.id by lia. split; [done|].
    apply elem_of_seq. lia.
Qed.

Lemma rendition_ok code s : state_ok s -> state_ok (handle_ansi_graphic_rendition code s).
Proof.
  intros [F B Fb Bb]. unfold handle_ansi_graphic_rendition. repeat case_match; by constructor.
Qed.

Lemma color_turn_ok code ps s : Forall (Z.le 0) ps -> state_ok s ->
  exists ps' s', color_turn code ps s = Ret (ps', s') /\ (length ps' <= length ps)%nat /\ Forall (Z.le 0) ps' /\ state_ok s'.
Proof.
  intros N O. pose proof O as [F B Fb Bb]. unfold color_turn. cbv zeta.
  destruct (code <=? 29); [by eexists _, _; split; [reflexivity|]; split; [done|]; split; [done|]; apply rendition_ok|].
  assert (Pick : forall base set, (forall c, color_ok c -> state_ok (set c)) ->
    exists ps' s', ('(c, ps) ← ansi_color (code - base) ps; Ret (ps, match c with Some c => set c | None => s end)) = Ret (ps', s') /\
      (length ps' <= length ps)%nat /\ Forall (Z.le 0) ps' /\ state_ok s').
  { intros base set Hs. destruct (ansi_color_ok (code - base) ps N) as (c & ps' & -> & L & N' & C).
    eexists _, _. split; [reflexivity|]. split; [done|]. split; [done|]. destruct c; auto. }
  destruct (code <=? 39); [apply (Pick _ (fun c => set_fg c false s)); by constructor|].
  destruct ((40 <=? code) && _); [apply (Pick _ (fun c => set_bg c false s)); by constructor|].
  destruct ((90 <=? code) && _); [apply (Pick _ (fun c => set_fg c true s)); by constructor|].
  destruct ((100 <=? code) && _); [apply (Pick _ (fun c => set_bg c true s)); by constructor|]. by exists ps, s.
Qed.

Lemma color_loop_ok fuel ps s : (length ps <= fuel)%nat -> Forall (Z.le 0) ps -> state_ok s ->
  exists s', color_loop fuel ps s = Ret s' /\ state_ok s'.
Proof.
  revert ps s. induction fuel as [|fuel IH]; intros [|code ps] s L N O; simpl in *; try lia; try (by exists s).
  inversion N as [|? ? _ N']; subst. destruct (color_turn_ok code ps s N' O) as (ps' & s' & -> & L' & N'' & O'). simpl. apply IH; (done || lia).
Qed.

(** More turns than parameters do nothing. *)
Lemma color_loop_enough fuel ps s : (length ps <= fuel)%nat -> Forall (Z.le 0) ps -> state_ok s ->
  color_loop fuel ps s = color_loop (length ps) ps s.
Proof.
  revert ps s. assert (G : forall n m ps s, (length ps <= n)%nat -> (length ps <= m)%nat -> Forall (Z.le 0) ps -> state_ok s ->
    color_loop n ps s = color_loop m ps s).
  { induction n as [|n IH]; intros [|m] [|code ps] s L1 L2 N O; simpl in *; try (done || lia).
    inversion N as [|? ? _ N']; subst. destruct (color_turn_ok code ps s N' O) as (ps' & s' & -> & L' & N'' & O'). simpl. apply IH; (done || lia). }
  intros ps s L N O. by apply G.
Qed.

(** ** What the sequences do *)

(** What is shown follows from the base colours and the renditions. *)
Definition rendered (s : ColorState) : Prop := s = apply_rendition s.

Lemma apply_rendition_idem s : rendered (apply_rendition s).
Proof. unfold rendered, apply_rendition. destruct s as [? ? ? ? [] [] [] [] []]; reflexivity. Qed.

Lemma apply_rendition_ok s : state_ok s -> state_ok (apply_rendition s).
Proof.
  intros [F B Fb Bb]. unfold apply_rendition. destruct s as [? ? ? ? [] [] [] [] []]; constructor; simpl in *; auto using bright_ok, dim_ok.
Qed.

(** No sequence panics; the channels stay bytes and what is shown follows from the state. *)
Theorem color_sequences_fine ps s : Forall (Z.le 0) ps -> state_ok s ->
  exists s', handle_ansi_color ps s = Ret s' /\ state_ok s' /\ rendered s'.
Proof.
  intros N O. unfold handle_ansi_color. destruct (color_loop_ok (length ps) ps s (le_n _) N O) as (s' & -> & O').
  eexists. split; [reflexivity|]. split; [by apply apply_rendition_ok|apply apply_rendition_idem].
Qed.

(** A sequence of sequences is their concatenation when the first one is read to its end. *)
Lemma handle_color_cons code ps s ps' s' : Forall (Z.le 0) ps -> state_ok s -> color_turn code ps s = Ret (ps', s') ->
  handle_ansi_color (code :: ps) s = handle_ansi_color ps' s'.
Proof.
  intros N O E. unfold handle_ansi_color. simpl. rewrite E. simpl. destruct (color_turn_ok code ps s N O) as (q & u & E' & L & N' & O').
  rewrite E in E'. injection E' as <- <-. by rewrite (color_loop_enough (length ps) ps' s' L N' O').
Qed.

Lemma fg_complex ps s :
  color_turn 38 ps s = ('(c, ps) ← parse_complex_color ps; Ret (ps, match c with Some c => set_fg c false s | None => s end)).
Proof. reflexivity. Qed.

Lemma bg_complex ps s :
  color_turn 48 ps s = ('(c, ps) ← parse_complex_color ps; Ret (ps, match c with Some c => set_bg c false s | None => s end)).
Proof. reflexivity. Qed.

Lemma parse_palette i ps : 0 <= i <= 255 -> parse_complex_color (5 :: i :: ps) = Ret (Some (palette i), ps).
Proof.
  intros Hi. unfold parse_complex_color. change (5 =? 2) with false. change (5 =? 5) with true. cbv iota.
  destruct (Z.leb_spec i 255); [|lia]. by rewrite color_table_get by lia.
Qed.

(** The 256 colours: an index selects its colour of the palette, for the text or behind it. *)
Theorem palette_selected i ps s : 0 <= i <= 255 -> Forall (Z.le 0) ps -> state_ok s ->
  handle_ansi_color (38 :: 5 :: i :: ps) s = handle_ansi_color ps (set_fg (palette i) false s) /\
  handle_ansi_color (48 :: 5 :: i :: ps) s = handle_ansi_color ps (set_bg (palette i) false s).
Proof.
  intros Hi N O. assert (N' : Forall (Z.le 0) (5 :: i :: ps)) by (repeat constructor; (done || lia)).
  split; apply handle_color_cons; try done; rewrite ?fg_complex, ?bg_complex, parse_palette by done; reflexivity.
Qed.

(** A colour by its channels. *)
Theorem true_color_selected r g b ps s : 0 <= r <= 255 -> 0 <= g <= 255 -> 0 <= b <= 255 -> Forall (Z.le 0) ps -> state_ok s ->
  handle_ansi_color (38 :: 2 :: r :: g :: b :: ps) s = handle_ansi_color ps (set_fg (opaque r g b) false s).
Proof.
  intros Hr Hg Hb N O. assert (N' : Forall (Z.le 0) (2 :: r :: g :: b :: ps)) by (repeat constructor; (done || lia)).
  apply handle_color_cons; try done. unfold color_turn. simpl. by rewrite !Z.mod_small by lia.
Qed.

Lemma reset_resets s : handle_ansi_color [0] s = Ret color_new.
Proof. reflexivity. Qed.

(** The sequence of the default background, after a reset, makes the background white as the text. *)
Theorem default_background_hides_text :
  exists s, handle_ansi_color [0; 49] color_new = Ret s /\ bg_color s = WHITE /\ fg_color s = WHITE.
Proof. by eexists. Qed.
