(* ===== verification/Document.v ===== *)
(** * The text editor's document
      ([os/application/window_manager/src/apps/text_editor/model.rs])

    A document is a text, a caret, a copy buffer and the modal key handling of the editor.
    The text is used through the interface [TextStore], which the piece table of the text
    buffer implements.  A [char] of the source is its scalar value.  The loops that look for
    a line break carry fuel; running out of it is a [Panic], which the theorems exclude. *)

From S2P Require Import Prelude TextBuffer TermColor.

Open Scope nat_scope.

(** ** The text a document edits *)

(** The operations of [TextBuffer] a document calls. *)
Class TextStore (T : Type) := {
  ts_len : T -> nat;
  ts_get_char : T -> nat -> option char;
  ts_insert : nat -> char -> T -> outcome (result PieceTable.TextBufferError unit * T);
  ts_delete : nat -> T -> outcome (result PieceTable.TextBufferError unit * T);
  ts_undo : T -> outcome (result PieceTable.TextBufferError unit * T);
  ts_redo : T -> outcome (result PieceTable.TextBufferError unit * T)
}.

#[global] Instance piece_table_store : TextStore PieceTable.TextBuffer := {|
  ts_len := PieceTable.len;
  ts_get_char := PieceTable.get_char;
  ts_insert := PieceTable.insert;
  ts_delete := PieceTable.delete;
  ts_undo := PieceTable.undo;
  ts_redo := PieceTable.redo
|}.

(** ** Data *)

(* [os/application/window_manager/src/apps/text_editor/model.rs:12-16] EditMode *)
Inductive EditMode := Normal | InsertMode | Visual.

(* os/application/window_manager/src/apps/text_editor/model.rs: Caret *)
Inductive Caret := CaretNormal (h : nat) | CaretVisual (anchor head : nat).

(* [os/application/window_manager/src/apps/text_editor/font.rs:3-9] Font *)
Record Font := { fscale : Z; f_fg_color : Color; f_bg_color : Color; char_width : Z; char_height : Z }.

(* [os/application/window_manager/src/apps/text_editor/model.rs:42-61] ViewConfig *)
Inductive ViewConfig :=
| VSimple (font_scale : Z) (fg_color bg_color : Color)
| VMarkdown (normal emphasis strong : Font)
| VCode (normal keyword string number comment : Font) (keywords : list (list char)).

(* [os/application/window_manager/src/apps/text_editor/config.rs:7-14] TextEditorConfig *)
Record TextEditorConfig := {
  cfg_width : Z; cfg_height : Z; background_color : Color;
  markdown_view : ViewConfig; simple_view : ViewConfig; code_view : ViewConfig
}.

(* [os/application/window_manager/src/apps/text_editor/messages.rs:4-8] ViewMessage *)
Inductive ViewMessage := ScrollDown (v : Z) | ScrollUp (v : Z).

(* [os/application/window_manager/src/apps/text_editor/messages.rs:10-20] CommandMessage *)
Inductive CommandMessage := CmdUndo | CmdRedo | CmdMarkdown | CmdCLike | CmdNone.

(** The keys of the keyboard library: the arrow keys, and the others by their code. *)
Inductive KeyCode := ArrowLeft | ArrowRight | ArrowUp | ArrowDown | OtherKey (code : Z).
Inductive DecodedKey := Unicode (c : char) | RawKey (k : KeyCode).

(* [os/application/window_manager/src/apps/text_editor/messages.rs:22-26] Message *)
Inductive Message := MView (m : ViewMessage) | MKey (k : DecodedKey) | MCommand (c : CommandMessage).

Section document.
Context {T : Type} `{TextStore T}.

(* [os/application/window_manager/src/apps/text_editor/model.rs:63-72] Document *)
Record Document := {
  path : option (list char);
  text_buffer : T;
  copy_buffer : list char;
  caret : Caret;
  edit_mode : EditMode;
  config : TextEditorConfig;
  current_view : ViewConfig;
  scroll_offset : Z
}.

Implicit Types d : Document.

Definition set_text t d : Document :=
  {| path := path d; text_buffer := t; copy_buffer := copy_buffer d; caret := caret d;
     edit_mode := edit_mode d; config := config d; current_view := current_view d;
     scroll_offset := scroll_offset d |}.
Definition set_copy_buffer s d : Document :=
  {| path := path d; text_buffer := text_buffer d; copy_buffer := s; caret := caret d;
     edit_mode := edit_mode d; config := config d; current_view := current_view d;
     scroll_offset := scroll_offset d |}.
Definition set_caret c d : Document :=
  {| path := path d; text_buffer := text_buffer d; copy_buffer := copy_buffer d; caret := c;
     edit_mode := edit_mode d; config := config d; current_view := current_view d;
     scroll_offset := scroll_offset d |}.
Definition set_mode m d : Document :=
  {| path := path d; text_buffer := text_buffer d; copy_buffer := copy_buffer d; caret := caret d;
     edit_mode := m; config := config d; current_view := current_view d;
     scroll_offset := scroll_offset d |}.
Definition set_view v d : Document :=
  {| path := path d; text_buffer := text_buffer d; copy_buffer := copy_buffer d; caret := caret d;
     edit_mode := edit_mode d; config := config d; current_view := v;
     scroll_offset := scroll_offset d |}.
Definition set_scroll z d : Document :=
  {| path := path d; text_buffer := text_buffer d; copy_buffer := copy_buffer d; caret := caret d;
     edit_mode := edit_mode d; config := config d; current_view := current_view d;
     scroll_offset := z |}.

(* [os/application/window_manager/src/apps/text_editor/model.rs:75-90] Document::new *)
Definition document_new (p : option (list char)) (t : T) (c : TextEditorConfig) : Document :=
  {| path := p; text_buffer := t; copy_buffer := []; caret := CaretNormal 0; edit_mode := InsertMode;
     config := c; current_view := simple_view c; scroll_offset := 0%Z |}.

(* [os/application/window_manager/src/apps/text_editor/model.rs:25-30] Caret::head *)
Definition caret_head (c : Caret) : nat :=
  match c with CaretNormal h => h | CaretVisual _ h => h end.

(* [os/application/window_manager/src/apps/text_editor/model.rs:31-38] Caret::set_head *)
Definition caret_set_head (n : nat) (c : Caret) : Caret :=
  match c with CaretNormal _ => CaretNormal n | CaretVisual a _ => CaretVisual a n end.

Definition head_of d : nat := caret_head (caret d).
Definition set_head (n : nat) d : Document := set_caret (caret_set_head n (caret d)) d.
Definition char_at d (i : nat) : option char := ts_get_char (text_buffer d) i.

Definition newline : char := 10%Z.
Definition is_newline (o : option char) : bool := match o with Some c => (c =? newline)%Z | None => false end.

(** ** Lines *)

(** The loop of [next_line]: the first line break after [pos], or the end of the text. *)
(* [os/application/window_manager/src/apps/text_editor/model.rs:114-119] Document::next_line *)
Fixpoint next_scan (fuel : nat) d (pos index : nat) : outcome nat :=
  match fuel with
  | O => Panic "out of fuel"
  | S f =>
      match char_at d (pos + index) with
      | Some c => if (c =? newline)%Z && (0 <? index) then Ret index else next_scan f d pos (index + 1)
      | None => Ret index
      end
  end.

(* [os/application/window_manager/src/apps/text_editor/model.rs:106-126] Document::next_line *)
Definition next_line d (pos : nat) : outcome (option nat) :=
  if is_newline (char_at d pos) then
    Ret (match char_at d (pos + 1) with Some _ => Some (pos + 1) | None => None end)
  else
    index ← next_scan (S (ts_len (text_buffer d))) d pos 0;
    Ret (match char_at d (pos + index + 1), char_at d (pos + index) with
         | Some _, _ => Some (pos + index + 1)
         | None, Some _ => Some (pos + index)
         | None, None => None
         end).

(** The loop of [prev_line]. *)
(* [os/application/window_manager/src/apps/text_editor/model.rs:135-143] Document::prev_line *)
Fixpoint prev_scan (fuel : nat) d (pos index : nat) : outcome nat :=
  match fuel with
  | O => Panic "out of fuel"
  | S f =>
      i ← usub pos index;
      match char_at d i with
      | Some c =>
          if (c =? newline)%Z && (0 <? index) then Ret index
          else if pos <? index + 1 then Ret (index + 1)
          else prev_scan f d pos (index + 1)
      | None => Ret index
      end
  end.

(* [os/application/window_manager/src/apps/text_editor/model.rs:127-151] Document::prev_line *)
Definition prev_line d (pos : nat) : outcome (option nat) :=
  index ← prev_scan (S pos) d pos 0;
  if pos <? index then Ret (Some 0)
  else
    i ← usub pos index;
    Ret (match char_at d (i + 1) with Some _ => Some (i + 1) | None => None end).

(** ** Caret movement *)

(** [is_some_and(|n| n - next_line <= origin_len)] *)
Definition next_too_short (nn : option nat) (next_line origin_len : nat) : outcome bool :=
  match nn with
  | Some n => len ← usub n next_line; Ret (len <=? origin_len)
  | None => Ret false
  end.

(* [os/application/window_manager/src/apps/text_editor/model.rs:153-174] Document::move_cursor_down *)
Definition move_cursor_down d : outcome Document :=
  p ← prev_line d (head_of d);
  origin_len ← usub (head_of d) (default (head_of d) p);
  n ← next_line d (head_of d);
  let nl := default (head_of d) n in
  nn ← next_line d nl;
  if is_newline (char_at d nl) then Ret (set_head nl d)
  else
    short ← next_too_short nn nl origin_len;
    if (short : bool) then
      n ← expect nn "called `Option::unwrap()` on a `None` value";
      h ← usub n 1;
      Ret (set_head h d)
    else Ret (set_head (nl + origin_len) d).

(* [os/application/window_manager/src/apps/text_editor/model.rs:176-215] Document::move_cursor_up *)
Definition move_cursor_up d : outcome Document :=
  p ← prev_line d (head_of d);
  match p with
  | None => Ret (set_head 0 d)
  | Some pl =>
      origin_len ← usub (head_of d) pl;
      pp ← prev_line d (pl - 1);
      let ppl := default pl pp in
      if pl =? ppl then Ret (set_head 0 d)
      else if is_newline (char_at d (head_of d))
              && is_newline (char_at d (if 0 <? head_of d then head_of d - 1 else head_of d))
      then Ret (set_head (head_of d - 1) d)
      else
        width ← usub pl ppl;
        if width <=? origin_len then Ret (set_head (pl - 1) d)
        else Ret (set_head (ppl + origin_len) d)
  end.

(* os/application/window_manager/src/apps/text_editor/model.rs: Document::move_cursor_right *)
Definition move_cursor_right d : Document := set_head (head_of d + 1) d.

(* [os/application/window_manager/src/apps/text_editor/model.rs:221-226] Document::move_cursor_left *)
Definition move_cursor_left d : Document :=
  if head_of d =? 0 then d else set_head (head_of d - 1) d.

(** The arrow keys, which the three modes handle alike. *)
Definition move_raw (k : KeyCode) d : outcome Document :=
  match k with
  | ArrowLeft => Ret (move_cursor_left d)
  | ArrowRight => Ret (move_cursor_right d)
  | ArrowUp => move_cursor_up d
  | ArrowDown => move_cursor_down d
  | OtherKey _ => Ret d
  end.

(** The test that ends the handling of a key. *)
(* os/application/window_manager/src/apps/text_editor/model.rs: Document::update_insert *)
Definition clamp_caret d : Document :=
  if ts_len (text_buffer d) <? head_of d then set_head (ts_len (text_buffer d)) d else d.

(** ** Keys *)

(** An edit of the text; the handlers log an error and go on. *)
Definition edit (f : T -> outcome (result PieceTable.TextBufferError unit * T)) d : outcome Document :=
  '(_, t) ← f (text_buffer d);
  Ret (set_text t d).

(* [os/application/window_manager/src/apps/text_editor/model.rs:228-268] Document::update_insert *)
Definition update_insert (k : DecodedKey) d : outcome Document :=
  d ← match k with
      | Unicode c =>
          if (c =? 8)%Z then
            let d := move_cursor_left d in edit (ts_delete (head_of d)) d
          else if (c =? 27)%Z then Ret (set_mode Normal d)
          else
            d ← edit (ts_insert (head_of d) c) d;
            Ret (set_head (head_of d + 1) d)
      | RawKey k => move_raw k d
      end;
  Ret (clamp_caret d).

(** The characters of a range, up to the first position past the text: the flag says that
    all of them are there. *)
Fixpoint yank_loop (n i : nat) d : list char * bool :=
  match n with
  | O => ([], true)
  | S m =>
      match char_at d i with
      | Some c => let (s, ok) := yank_loop m (S i) d in (c :: s, ok)
      | None => ([], false)
      end
  end.

(* [os/application/window_manager/src/apps/text_editor/model.rs:270-303] Document::yank *)
Definition yank d : Document :=
  let d := set_copy_buffer [] d in
  match caret d with
  | CaretNormal _ => d
  | CaretVisual anchor head =>
      let (fst, snd) := if anchor <? head then (anchor, head) else (head, anchor) in
      let (s, ok) := yank_loop (snd - fst) fst d in
      let d := set_copy_buffer s d in
      if (ok : bool) then set_mode Normal (set_caret (CaretNormal (head_of d)) d) else d
  end.

Fixpoint paste_loop (s : list char) d : outcome Document :=
  match s with
  | [] => Ret d
  | c :: s' =>
      d ← edit (ts_insert (head_of d) c) d;
      paste_loop s' (set_head (head_of d + 1) d)
  end.

(* [os/application/window_manager/src/apps/text_editor/model.rs:305-314] Document::paste *)
Definition paste d : outcome Document := paste_loop (copy_buffer d) d.

(* [os/application/window_manager/src/apps/text_editor/model.rs:316-336] Document::update_visual *)
Definition update_visual (k : DecodedKey) d : outcome Document :=
  d ← match k with
      | Unicode c =>
          if (c =? 27)%Z then Ret (set_mode Normal d)
          else if (c =? 104)%Z then Ret (move_cursor_left d)
          else if (c =? 108)%Z then Ret (move_cursor_right d)
          else if (c =? 106)%Z then move_cursor_down d
          else if (c =? 107)%Z then move_cursor_up d
          else if (c =? 121)%Z then Ret (yank d)
          else Ret d
      | RawKey k => move_raw k d
      end;
  Ret (clamp_caret d).

(* [os/application/window_manager/src/apps/text_editor/model.rs:338-378] Document::update_normal *)
Definition update_normal (k : DecodedKey) d : outcome Document :=
  d ← match k with
      | Unicode c =>
          if (c =? 117)%Z then edit ts_undo d
          else if (c =? 114)%Z then edit ts_redo d
          else if (c =? 104)%Z then Ret (move_cursor_left d)
          else if (c =? 108)%Z then Ret (move_cursor_right d)
          else if (c =? 106)%Z then move_cursor_down d
          else if (c =? 107)%Z then move_cursor_up d
          else if (c =? 105)%Z then Ret (set_mode InsertMode d)
          else if (c =? 110)%Z then Ret (set_view (simple_view (config d)) d)
          else if (c =? 109)%Z then Ret (set_view (markdown_view (config d)) d)
          else if (c =? 118)%Z then Ret (set_caret (CaretVisual (head_of d) (head_of d)) (set_mode Visual d))
          else if (c =? 112)%Z then paste d
          else Ret d
      | RawKey k => move_raw k d
      end;
  Ret (clamp_caret d).

(* [os/application/window_manager/src/apps/text_editor/model.rs:380-387] Document::scroll *)
Definition scroll (m : ViewMessage) d : outcome Document :=
  match m with
  | ScrollDown v =>
      if (scroll_offset d + v <=? U32_MAX)%Z then Ret (set_scroll (scroll_offset d + v) d)
      else Panic "attempt to add with overflow"
  | ScrollUp v => Ret (set_scroll (if (v <=? scroll_offset d)%Z then scroll_offset d - v else 0)%Z d)
  end.

(* [os/application/window_manager/src/apps/text_editor/model.rs:389-444] Document::update *)
Definition update (m : Message) d : outcome Document :=
  match m with
  | MCommand CmdUndo => edit ts_undo d
  | MCommand CmdRedo => edit ts_redo d
  | MCommand CmdMarkdown =>
      Ret (match current_view d with
           | VMarkdown _ _ _ => set_view (simple_view (config d)) d
           | VSimple _ _ _ => set_view (markdown_view (config d)) d
           | VCode _ _ _ _ _ _ => d
           end)
  | MCommand CmdCLike =>
      Ret (match current_view d with
           | VCode _ _ _ _ _ _ => set_view (simple_view (config d)) d
           | VSimple _ _ _ => set_view (code_view (config d)) d
           | VMarkdown _ _ _ => d
           end)
  | MCommand CmdNone => Ret d
  | MView v => scroll v d
  | MKey k =>
      match edit_mode d with
      | InsertMode => update_insert k d
      | Normal => update_normal k d
      | Visual => update_visual k d
      end
  end.

Fixpoint updates (ms : list Message) d : outcome Document :=
  match ms with
  | [] => Ret d
  | m :: ms' => d ← update m d; updates ms' d
  end.

(** ** The open documents *)

(* os/application/window_manager/src/apps/text_editor/editor.rs: OpenDocuments *)
Record OpenDocuments := { documents : list Document; current : nat }.

(* [os/application/window_manager/src/apps/text_editor/editor.rs:154-159] OpenDocuments::new *)
Definition open_new : OpenDocuments := {| documents := []; current := 0 |}.

(* os/application/window_manager/src/apps/text_editor/editor.rs: OpenDocuments::insert *)
Definition open_insert d (o : OpenDocuments) : OpenDocuments :=
  {| documents := documents o ++ [d]; current := current o |}.

(* os/application/window_manager/src/apps/text_editor/editor.rs: OpenDocuments::current *)
Definition open_current (o : OpenDocuments) : option Document := documents o !! current o.

(* [os/application/window_manager/src/apps/text_editor/editor.rs:169-176] OpenDocuments::next *)
Definition open_next (o : OpenDocuments) : option Document * OpenDocuments :=
  let c := current o + 1 in
  if length (documents o) =? 0 then (None, {| documents := documents o; current := c |})
  else
    let c := c mod length (documents o) in
    (documents o !! c, {| documents := documents o; current := c |}).

(* [os/application/window_manager/src/apps/text_editor/editor.rs:178-184] OpenDocuments::prev *)
Definition open_prev (o : OpenDocuments) : option Document * OpenDocuments :=
  let c := if 1 <=? current o then current o - 1 else length (documents o) - 1 in
  (documents o !! c, {| documents := documents o; current := c |}).

End document.

Arguments Document : clear implicits.
Arguments OpenDocuments : clear implicits.
