(* ===== verification/DocumentProofs.v ===== *)
(** * The document handles every key, and edits, copies and moves as an editor should

    The theorems are proved against the laws of the interface [TextStore]: the store refines
    the abstract editor of plain text.  The piece table satisfies them. *)

From S2P Require Import Prelude TermColor TextBuffer TextBufferProofs TextUndo Document.
Import PieceTable.

Open Scope nat_scope.

(** ** The laws of the text *)

Class TextStoreLaws (T : Type) `{TextStore T} := {
  ts_abs : T -> Editor;
  ts_wf : T -> Prop;
  ts_refines (m : outcome (result TextBufferError unit * T)) (s : result TextBufferError unit * Editor) :=
    exists r t, m = Ret (r, t) /\ ts_wf t /\ s = (r, ts_abs t);
  ts_len_spec t : ts_wf t -> ts_len t = length (e_text (ts_abs t));
  ts_get_char_spec t i : ts_wf t -> ts_get_char t i = e_text (ts_abs t) !! i;
  ts_insert_spec la c t : ts_wf t -> ts_refines (ts_insert la c t) (e_insert la c None_ (ts_abs t));
  ts_delete_spec la t : ts_wf t -> ts_refines (ts_delete la t) (e_delete la None_ (ts_abs t));
  ts_undo_spec t : ts_wf t -> ts_refines (ts_undo t) (e_undo (ts_abs t));
  ts_redo_spec t : ts_wf t -> ts_refines (ts_redo t) (e_redo_op (ts_abs t))
}.

#[global] Instance piece_table_laws : TextStoreLaws TextBuffer.
Proof.
  refine {| ts_abs := abs; ts_wf := wf |}.
  - intros t W. apply (wf_len t W).
  - intros t i W. by apply get_char_spec.
  - intros. by apply insert_refines.
  - intros. by apply delete_refines.
  - intros. by apply undo_refines.
  - intros. by apply redo_refines.
Defined.

(** ** Lines of a text *)

(** The position after the last line break before [pos]. *)
Fixpoint line_start (t : list char) (pos : nat) : nat :=
  match pos with
  | O => 0
  | S p => if is_newline (t !! p) then S p else line_start t p
  end.

Fixpoint upto_newline (l : list char) : nat :=
  match l with
  | [] => 0
  | c :: l' => if (c =? newline)%Z then 0 else S (upto_newline l')
  end.

(** The position of the first line break from [pos] on, or the end of the text. *)
Definition line_end (t : list char) (pos : nat) : nat := pos + upto_newline (drop pos t).

(** The start of the next line; a line break that ends the text starts no line. *)
Definition next_start (t : list char) (pos : nat) : option nat :=
  let e := line_end t pos in
  if e + 1 <? length t then Some (e + 1)
  else if e <? length t then (if e =? pos then None else Some e)
  else None.

Lemma line_start_le t pos : line_start t pos <= pos.
Proof. induction pos as [|p IH]; simpl; [lia|]. destruct (is_newline _); lia. Qed.

Lemma line_end_ge t pos : pos <= line_end t pos.
Proof. unfold line_end. lia. Qed.

Lemma line_end_le t pos : pos <= length t -> line_end t pos <= length t.
Proof.
  intros H. unfold line_end. cut (upto_newline (drop pos t) <= length (drop pos t)).
  { rewrite length_drop. lia. }
  generalize (drop pos t). intros l. induction l as [|c l IH]; simpl; [lia|]. case_match; lia.
Qed.

(** No line break in a range. *)
Definition no_break (t : list char) (i j : nat) : Prop :=
  forall k, i <= k < j -> is_newline (t !! k) = false.

Lemma line_start_no_break t pos : no_break t (line_start t pos) pos.
Proof.
  induction pos as [|p IH]; intros k Hk; simpl in *; [lia|].
  destruct (is_newline (t !! p)) eqn:E; [lia|].
  destruct (decide (k = p)) as [->|]; [done|]. apply IH. lia.
Qed.

Lemma line_end_no_break t pos : no_break t pos (line_end t pos).
Proof.
  intros k Hk. unfold line_end in Hk. replace k with (pos + (k - pos)) by lia.
  rewrite <-lookup_drop. assert (L : k - pos < upto_newline (drop pos t)) by lia. clear Hk.
  revert L. generalize (drop pos t), (k - pos). intros l.
  induction l as [|c l IH]; intros j L; simpl in *; [lia|].
  destruct (Z.eqb_spec c newline); [lia|]. destruct j as [|j]; simpl; [by apply Z.eqb_neq|].
  apply IH. lia.
Qed.

Section laws.
Context {T : Type} `{TextStoreLaws T}.
Implicit Types d : Document T.

(** The text of a document, and that its store is well formed. *)
Definition txt d : list char := e_text (ts_abs (text_buffer d)).
Definition ok d : Prop := ts_wf (text_buffer d).

Lemma char_at_spec d i : ok d -> char_at d i = txt d !! i.
Proof. apply ts_get_char_spec. Qed.

Lemma len_spec d : ok d -> ts_len (text_buffer d) = length (txt d).
Proof. apply ts_len_spec. Qed.

(** ** The line scans compute lines *)

Lemma prev_scan_spec d pos index fuel : ok d -> pos < length (txt d) -> 1 <= index <= pos ->
  pos - index < fuel -> prev_scan fuel d pos index = Ret (pos + 1 - line_start (txt d) (S (pos - index))).
Proof.
  intros W L. revert index. induction fuel as [|f IH]; intros index Hi Hf; [lia|].
  cbn [prev_scan]. rewrite usub_ok by lia. simpl mbind. rewrite char_at_spec by done.
  destruct (lookup_lt_is_Some_2 (txt d) (pos - index)) as [c E]; [lia|].
  rewrite E. cbn [line_start]. rewrite E. simpl is_newline.
  destruct (Nat.ltb_spec 0 index); [|lia]. rewrite andb_true_r.
  destruct (c =? newline)%Z; [f_equal; lia|].
  destruct (Nat.ltb_spec pos (index + 1)).
  - replace (pos - index) with 0 by lia. simpl. f_equal. lia.
  - rewrite IH by lia. do 2 f_equal. f_equal. lia.
Qed.

Lemma prev_line_spec d pos : ok d ->
  prev_line d pos = Ret (if pos <? length (txt d) then Some (line_start (txt d) pos) else None).
Proof.
  intros W. unfold prev_line. cbn [prev_scan]. rewrite usub_ok by lia. simpl mbind.
  rewrite Nat.sub_0_r, char_at_spec by done. destruct (Nat.ltb_spec pos (length (txt d))) as [L|L].
  - destruct (lookup_lt_is_Some_2 (txt d) pos L) as [c E]. rewrite E, andb_false_r. simpl.
    assert (S : (if pos <? 1 then Ret 1 else prev_scan pos d pos 1)
                = Ret (pos + 1 - line_start (txt d) pos)).
    { destruct (Nat.ltb_spec pos 1); [by replace pos with 0 by lia|].
      rewrite prev_scan_spec by (done || lia). do 3 f_equal. lia. }
    rewrite S. simpl. pose proof (line_start_le (txt d) pos).
    destruct (Nat.ltb_spec pos (pos + 1 - line_start (txt d) pos)); [do 2 f_equal; lia|].
    rewrite usub_ok by lia. simpl. rewrite char_at_spec by done.
    replace (pos - (pos + 1 - line_start (txt d) pos) + 1) with (line_start (txt d) pos) by lia.
    by destruct (lookup_lt_is_Some_2 (txt d) (line_start (txt d) pos)) as [c' ->]; [lia|].
  - rewrite (lookup_ge_None_2 _ _ L). simpl.
    by rewrite char_at_spec, lookup_ge_None_2 by (done || lia).
Qed.

Lemma next_scan_spec d pos index fuel : ok d -> 0 < index \/ is_newline (txt d !! pos) = false ->
  length (txt d) - (pos + index) < fuel ->
  next_scan fuel d pos index = Ret (line_end (txt d) (pos + index) - pos).
Proof.
  intros W. revert index. induction fuel as [|f IH]; intros index Hi Hf; [lia|].
  cbn [next_scan]. rewrite char_at_spec by done. unfold line_end.
  destruct (txt d !! (pos + index)) as [c|] eqn:E.
  - rewrite (drop_S _ c _ E). cbn [upto_newline]. pose proof (lookup_lt_Some _ _ _ E).
    destruct (c =? newline)%Z eqn:Ec.
    + destruct (Nat.ltb_spec 0 index); simpl; [f_equal; lia|].
      destruct Hi as [|Hi]; [lia|]. replace (pos + index) with pos in E by lia.
      rewrite E in Hi. simpl in Hi. congruence.
    + simpl. rewrite IH by lia. unfold line_end. replace (pos + (index + 1)) with (S (pos + index)) by lia.
      f_equal. lia.
  - rewrite drop_ge by (by apply lookup_ge_None). simpl. f_equal. lia.
Qed.

Lemma next_line_spec d pos : ok d -> next_line d pos = Ret (next_start (txt d) pos).
Proof.
  intros W. unfold next_line, next_start. rewrite !char_at_spec by done.
  destruct (is_newline (txt d !! pos)) eqn:E.
  - destruct (txt d !! pos) as [c|] eqn:Ec; [|done]. simpl in E.
    assert (L : line_end (txt d) pos = pos).
    { unfold line_end. rewrite (drop_S _ c _ Ec). simpl. rewrite E. lia. }
    rewrite L. apply lookup_lt_Some in Ec.
    destruct (Nat.ltb_spec (pos + 1) (length (txt d))) as [L1|L1].
    + by destruct (lookup_lt_is_Some_2 _ _ L1) as [x ->].
    + rewrite (lookup_ge_None_2 _ _ L1). destruct (Nat.ltb_spec pos (length (txt d))); [|done].
      by rewrite Nat.eqb_refl.
  - rewrite len_spec, next_scan_spec by (done || auto || lia). simpl. rewrite !char_at_spec by done.
    rewrite Nat.add_0_r. pose proof (line_end_ge (txt d) pos).
    replace (pos + (line_end (txt d) pos - pos)) with (line_end (txt d) pos) by lia.
    destruct (Nat.ltb_spec (line_end (txt d) pos + 1) (length (txt d))) as [L1|L1].
    + by destruct (lookup_lt_is_Some_2 _ _ L1) as [x ->].
    + rewrite (lookup_ge_None_2 _ _ L1).
      destruct (Nat.ltb_spec (line_end (txt d) pos) (length (txt d))) as [L2|L2].
      * destruct (lookup_lt_is_Some_2 _ _ L2) as [x Ex]. rewrite Ex.
        destruct (Nat.eqb_spec (line_end (txt d) pos) pos) as [Q|]; [|done].
        rewrite Q in Ex. unfold line_end in Q. rewrite (drop_S _ x _ Ex) in Q. simpl in Q.
        rewrite Ex in E. simpl in E. rewrite E in Q. lia.
      * by rewrite (lookup_ge_None_2 _ _ L2).
Qed.

(** ** Where the caret goes *)

Definition up_head (t : list char) (h : nat) : nat :=
  let ls := line_start t h in
  let pls := line_start t (ls - 1) in
  if h <? length t then
    if ls =? pls then 0
    else if is_newline (t !! h) && is_newline (t !! (if 0 <? h then h - 1 else h)) then h - 1
    else if ls - pls <=? h - ls then ls - 1
    else pls + (h - ls)
  else 0.

Definition down_head (t : list char) (h : nat) : nat :=
  let col := h - (if h <? length t then line_start t h else h) in
  let nl := default h (next_start t h) in
  if is_newline (t !! nl) then nl
  else match next_start t nl with
       | Some n => if n - nl <=? col then n - 1 else nl + col
       | None => nl + col
       end.

Lemma move_up_spec d : ok d -> move_cursor_up d = Ret (set_head (up_head (txt d) (head_of d)) d).
Proof.
  intros W. unfold move_cursor_up, up_head. rewrite !prev_line_spec by done. cbn [mbind outcome_bind].
  destruct (Nat.ltb_spec (head_of d) (length (txt d))) as [L|]; [|done].
  pose proof (line_start_le (txt d) (head_of d)). rewrite usub_ok by lia. cbn [mbind outcome_bind].
  rewrite prev_line_spec by done. cbn [mbind outcome_bind].
  destruct (Nat.ltb_spec (line_start (txt d) (head_of d) - 1) (length (txt d))); [|lia]. simpl.
  pose proof (line_start_le (txt d) (line_start (txt d) (head_of d) - 1)).
  case_match; [done|]. rewrite !char_at_spec by done. case_match; [done|].
  rewrite usub_ok by lia. simpl. by destruct (_ <=? _).
Qed.

Lemma next_start_gt t h n : next_start t h = Some n -> h < n.
Proof.
  unfold next_start. pose proof (line_end_ge t h).
  destruct (_ <? _); [intros [= <-]; lia|]. destruct (_ <? _); [|done].
  destruct (Nat.eqb_spec (line_end t h) h); [done|]. intros [= <-]. lia.
Qed.

Lemma move_down_spec d : ok d -> move_cursor_down d = Ret (set_head (down_head (txt d) (head_of d)) d).
Proof.
  intros W. unfold move_cursor_down, down_head. rewrite prev_line_spec by done. cbn [mbind outcome_bind].
  rewrite usub_ok; last first.
  { pose proof (line_start_le (txt d) (head_of d)). case_match; simpl; lia. }
  cbn [mbind outcome_bind]. rewrite next_line_spec by done. cbn [mbind outcome_bind].
  rewrite next_line_spec by done. cbn [mbind outcome_bind]. rewrite char_at_spec by done.
  case_match; [done|]. set (nl := default (head_of d) _).
  replace (head_of d - default (head_of d) (if head_of d <? length (txt d) then Some (line_start (txt d) (head_of d)) else None))
    with (head_of d - (if head_of d <? length (txt d) then line_start (txt d) (head_of d) else head_of d))
    by (by case_match).
  destruct (next_start (txt d) nl) as [n|] eqn:E; [|done]. apply next_start_gt in E. simpl.
  rewrite (usub_ok n nl) by lia. simpl. case_match; [|done]. by rewrite usub_ok by lia.
Qed.

(** ** Every key is handled *)

Lemma edit_spec f s d : ts_refines (f (text_buffer d)) s ->
  exists t, edit f d = Ret (set_text t d) /\ ts_wf t /\ ts_abs t = s.2.
Proof. intros (r & t & E & W & ->). exists t. unfold edit. by rewrite E. Qed.

Lemma head_set_head n d : head_of (set_head n d) = n.
Proof. unfold head_of, set_head. simpl. by destruct (caret d). Qed.

Lemma clamp_spec d : ok d ->
  ok (clamp_caret d) /\ txt (clamp_caret d) = txt d /\
  head_of (clamp_caret d) = Nat.min (head_of d) (length (txt d)).
Proof.
  intros W. unfold clamp_caret. rewrite len_spec by done.
  destruct (Nat.ltb_spec (length (txt d)) (head_of d)).
  - rewrite head_set_head. repeat split; [done|]. lia.
  - repeat split; [done|]. lia.
Qed.

Lemma paste_loop_ok s d : ok d -> exists d', paste_loop s d = Ret d' /\ ok d'.
Proof.
  revert d. induction s as [|c s IH]; intros d W; simpl; [by exists d|].
  destruct (edit_spec (ts_insert (head_of d) c) _ d (ts_insert_spec _ c _ W)) as (t & -> & Wt & _).
  simpl. by apply IH.
Qed.

Lemma move_left_ok d : ok d -> ok (move_cursor_left d).
Proof. intros W. unfold move_cursor_left. by case_match. Qed.

Lemma yank_ok d : ok d -> ok (yank d).
Proof.
  intros W. unfold yank. simpl. destruct (caret d) as [h|a h]; [done|].
  destruct (if a <? h then _ else _) as [i j]. destruct (yank_loop _ _ _) as [s b]. by destruct b.
Qed.

Lemma move_raw_ok k d : ok d -> exists d', move_raw k d = Ret d' /\ ok d'.
Proof.
  intros W. destruct k; simpl; eauto using move_left_ok.
  - rewrite move_up_spec by done. eauto.
  - rewrite move_down_spec by done. eauto.
Qed.

Ltac doc_step :=
  match goal with
  | |- exists d', Ret _ = Ret d' /\ _ => eexists; split; [reflexivity|]; eauto using move_left_ok, yank_ok
  | |- exists d', (if ?b then _ else _) = Ret d' /\ _ => destruct b
  | |- exists d', move_cursor_up _ = Ret d' /\ _ => rewrite move_up_spec by done
  | |- exists d', move_cursor_down _ = Ret d' /\ _ => rewrite move_down_spec by done
  | |- exists d', move_raw _ _ = Ret d' /\ _ => by apply move_raw_ok
  | |- exists d', paste _ = Ret d' /\ _ => by apply paste_loop_ok
  | W : ok ?d |- context [edit ts_undo ?d] =>
      destruct (edit_spec ts_undo _ d (ts_undo_spec _ W)) as (? & -> & ? & _)
  | W : ok ?d |- context [edit ts_redo ?d] =>
      destruct (edit_spec ts_redo _ d (ts_redo_spec _ W)) as (? & -> & ? & _)
  | W : ok ?d |- context [edit (ts_insert ?h ?c) ?d] =>
      destruct (edit_spec (ts_insert h c) _ d (ts_insert_spec h c _ W)) as (? & -> & ? & _)
  | W : ok ?d |- context [edit (ts_delete ?h) (move_cursor_left ?d)] =>
      destruct (edit_spec (ts_delete h) _ (move_cursor_left d) (ts_delete_spec h _ (move_left_ok d W)))
        as (? & -> & ? & _)
  end; simpl.

(** A handler that returns before the final clamp. *)
Lemma clamped m : (exists d', m = Ret d' /\ ok d') ->
  exists d', (d ← m; Ret (clamp_caret d)) = Ret d' /\ ok d' /\ head_of d' <= length (txt d').
Proof.
  intros (d1 & -> & W). simpl. eexists. split; [reflexivity|].
  destruct (clamp_spec d1 W) as (W' & -> & ->). split; [done|lia].
Qed.

Lemma key_ok k d : ok d ->
  exists d', update (MKey k) d = Ret d' /\ ok d' /\ head_of d' <= length (txt d').
Proof.
  intros W. simpl. unfold update_normal, update_insert, update_visual.
  destruct (edit_mode d); apply clamped; destruct k; repeat doc_step.
Qed.

Definition is_view (m : Message) : bool := match m with MView _ => true | _ => false end.

Lemma update_ok m d : ok d -> is_view m = false -> exists d', update m d = Ret d' /\ ok d'.
Proof.
  intros W V. destruct m as [v|k|c]; [done| |].
  - destruct (key_ok k d W) as (d' & E & W' & _). eauto.
  - destruct c; simpl; repeat doc_step; by destruct (current_view d).
Qed.

Lemma updates_ok ms d : ok d -> forallb (negb ∘ is_view) ms = true -> exists d', updates ms d = Ret d' /\ ok d'.
Proof.
  revert d. induction ms as [|m ms IH]; intros d W V; simpl in *; [eauto|].
  apply andb_prop in V as [V1 V2]. apply negb_true_iff in V1.
  destruct (update_ok m d W V1) as (d1 & -> & W1). simpl. by apply IH.
Qed.

(** ** Typing, erasing, copying *)

(** A character that insert mode writes into the text. *)
Definition typed (c : char) : bool := negb (c =? 8)%Z && negb (c =? 27)%Z.

Definition keys (s : list char) : list Message := map (fun c => MKey (Unicode c)) s.

Lemma updates_app ms1 ms2 d : updates (ms1 ++ ms2) d = (d ← updates ms1 d; updates ms2 d).
Proof.
  revert d. induction ms1 as [|m ms1 IH]; intros d; simpl; [done|].
  destruct (update m d); simpl; auto.
Qed.

Lemma type_one c d : ok d -> edit_mode d = InsertMode -> head_of d <= length (txt d) -> typed c = true ->
  exists d', update (MKey (Unicode c)) d = Ret d' /\ ok d' /\ edit_mode d' = InsertMode /\
    txt d' = ins (head_of d) c (txt d) /\ head_of d' = S (head_of d).
Proof.
  intros W M L K. apply andb_prop in K as [K1%negb_true_iff K2%negb_true_iff].
  simpl. rewrite M. unfold update_insert. rewrite K1, K2.
  destruct (edit_spec (ts_insert (head_of d) c) _ d (ts_insert_spec _ c _ W)) as (t & -> & Wt & Et).
  simpl. set (d1 := set_head _ _). eexists. split; [reflexivity|].
  assert (T1 : txt d1 = ins (head_of d) c (txt d)) by (unfold txt, d1; simpl; by rewrite Et).
  assert (H1 : head_of d1 = head_of d + 1) by apply head_set_head.
  destruct (clamp_spec d1 Wt) as (W' & T' & H'). rewrite T', H', T1, H1, length_ins.
  repeat split; [done| |lia]. unfold clamp_caret. by case_match.
Qed.

Lemma type_many s d t1 t2 : ok d -> edit_mode d = InsertMode -> txt d = t1 ++ t2 -> head_of d = length t1 ->
  forallb typed s = true ->
  exists d', updates (keys s) d = Ret d' /\ ok d' /\ edit_mode d' = InsertMode /\
    txt d' = t1 ++ s ++ t2 /\ head_of d' = length t1 + length s.
Proof.
  revert d t1. induction s as [|c s IH]; intros d t1 W M Ht Hh K; simpl in *.
  { exists d. repeat split; try done. lia. }
  apply andb_prop in K as [K1 K2].
  destruct (type_one c d W M) as (d1 & U & W1 & M1 & T1 & H1); [rewrite Ht, length_app; lia|done|].
  simpl in U. rewrite U. simpl. rewrite Ht, ins_app in T1 by done. rewrite Hh in H1.
  destruct (IH d1 (t1 ++ [c])) as (d2 & U2 & W2 & M2 & T2 & H2); try done.
  - by rewrite <-app_assoc.
  - rewrite length_app. simpl. lia.
  - exists d2. rewrite T2, H2, length_app, <-app_assoc. simpl. repeat split; try done. lia.
Qed.

Lemma erase_one d t1 c t2 : ok d -> edit_mode d = InsertMode -> txt d = t1 ++ c :: t2 -> head_of d = S (length t1) ->
  exists d', update (MKey (Unicode 8%Z)) d = Ret d' /\ ok d' /\ edit_mode d' = InsertMode /\
    txt d' = t1 ++ t2 /\ head_of d' = length t1.
Proof.
  intros W M Ht Hh. simpl. rewrite M. unfold update_insert. simpl.
  unfold move_cursor_left. rewrite Hh. simpl. rewrite head_set_head, Nat.sub_0_r.
  destruct (edit_spec (ts_delete (length t1)) _ (set_head (length t1) d) (ts_delete_spec _ _ W))
    as (t & -> & Wt & Et).
  simpl. set (d1 := set_text _ _). eexists. split; [reflexivity|].
  assert (T1 : txt d1 = t1 ++ t2).
  { unfold txt, d1. simpl. rewrite Et. unfold e_delete. simpl. fold (txt d). rewrite Ht.
    rewrite list_lookup_middle by done. simpl. by rewrite del_app. }
  assert (Wd : ok d1) by exact Wt. destruct (clamp_spec d1 Wd) as (W' & T' & H').
  rewrite T', H', T1, length_app. change (head_of d1) with (head_of (set_head (length t1) d)).
  rewrite head_set_head. repeat split; [done| |lia]. unfold clamp_caret. by case_match.
Qed.

Lemma erase_many s d t1 t2 : ok d -> edit_mode d = InsertMode -> txt d = t1 ++ s ++ t2 ->
  head_of d = length t1 + length s ->
  exists d', updates (replicate (length s) (MKey (Unicode 8%Z))) d = Ret d' /\ ok d' /\
    edit_mode d' = InsertMode /\ txt d' = t1 ++ t2 /\ head_of d' = length t1.
Proof.
  revert d t2. induction s as [|c s IH] using rev_ind; intros d t2 W M Ht Hh.
  { exists d. repeat split; try done. simpl in Hh. lia. }
  rewrite length_app, Nat.add_1_r in *. cbn [replicate updates].
  rewrite <-!app_assoc, app_assoc in Ht. simpl in Ht.
  destruct (erase_one d (t1 ++ s) c t2 W M Ht) as (d1 & U & W1 & M1 & T1 & H1).
  { rewrite length_app. simpl in Hh. lia. }
  rewrite U. cbn [mbind outcome_bind]. apply IH; try done.
  - by rewrite <-app_assoc in T1.
  - by rewrite length_app in H1.
Qed.

Lemma yank_loop_spec n i d : ok d -> i + n <= length (txt d) ->
  yank_loop n i d = (take n (drop i (txt d)), true).
Proof.
  intros W. revert i. induction n as [|n IH]; intros i L; simpl; [done|].
  rewrite char_at_spec by done. destruct (lookup_lt_is_Some_2 (txt d) i) as [c E]; [lia|].
  rewrite E, IH by lia. by rewrite (drop_S _ c _ E).
Qed.

Lemma paste_loop_spec s d t1 t2 : ok d -> txt d = t1 ++ t2 -> head_of d = length t1 ->
  exists d', paste_loop s d = Ret d' /\ ok d' /\ txt d' = t1 ++ s ++ t2 /\
    head_of d' = length t1 + length s /\ edit_mode d' = edit_mode d.
Proof.
  revert d t1. induction s as [|c s IH]; intros d t1 W Ht Hh; simpl.
  { exists d. repeat split; try done. lia. }
  destruct (edit_spec (ts_insert (head_of d) c) _ d (ts_insert_spec _ c _ W)) as (t & -> & Wt & Et).
  simpl. set (d1 := set_head _ _).
  destruct (IH d1 (t1 ++ [c])) as (d2 & U & W2 & T2 & H2 & M2).
  - exact Wt.
  - unfold txt, d1. simpl. rewrite Et. simpl. fold (txt d). rewrite Ht, ins_app, <-app_assoc by done. done.
  - unfold d1. rewrite head_set_head, length_app. change (head_of (set_text t d)) with (head_of d). simpl. lia.
  - exists d2. rewrite T2, H2, M2, length_app, <-app_assoc. simpl. repeat split; try done. lia.
Qed.

(** ** Lines the caret lands on *)

Lemma up_head_line t h : h < length t ->
  let ls := line_start t h in
  let pls := line_start t (ls - 1) in
  if ls =? 0 then up_head t h = 0
  else pls <= up_head t h < ls /\ (up_head t h = ls - 1 \/ up_head t h - pls = h - ls).
Proof.
  intros L. unfold up_head. destruct (Nat.ltb_spec h (length t)); [|lia]. simpl.
  pose proof (line_start_le t h). pose proof (line_start_le t (line_start t h - 1)).
  destruct (Nat.eqb_spec (line_start t h) 0) as [Z|Z].
  { rewrite Z. by rewrite Nat.eqb_refl. }
  destruct (Nat.eqb_spec (line_start t h) (line_start t (line_start t h - 1))); [lia|].
  destruct (is_newline (t !! h) && _) eqn:B; [|destruct (Nat.leb_spec (line_start t h - line_start t (line_start t h - 1)) (h - line_start t h)); lia].
  apply andb_prop in B as [_ B]. destruct (Nat.ltb_spec 0 h) as [P|]; [|lia].
  assert (line_start t h = h); [|lia].
  destruct h as [|h]; [lia|]. simpl in *. rewrite Nat.sub_0_r in B. by rewrite B.
Qed.

Lemma not_break_line_end t i : i < length t -> is_newline (t !! i) = false -> i < line_end t i.
Proof.
  intros L B. destruct (lookup_lt_is_Some_2 t i L) as [c E]. unfold line_end.
  rewrite (drop_S _ c _ E). rewrite E in B. simpl in *. rewrite B. lia.
Qed.

Lemma down_head_line t h : h < length t -> line_end t h + 1 < length t ->
  let nl := line_end t h + 1 in
  let col := h - line_start t h in
  let h' := Nat.min (down_head t h) (length t) in
  nl <= h' /\ no_break t nl h' /\ (nl + col < line_end t nl -> h' = nl + col).
Proof.
  intros L N. unfold down_head. destruct (Nat.ltb_spec h (length t)); [|lia].
  assert (E : next_start t h = Some (line_end t h + 1)).
  { unfold next_start. by destruct (Nat.ltb_spec (line_end t h + 1) (length t)); [|lia]. }
  rewrite E. simpl. set (nl := line_end t h + 1) in *. set (col := h - line_start t h).
  pose proof (line_end_no_break t nl) as NB. pose proof (line_end_le t nl ltac:(lia)).
  destruct (is_newline (t !! nl)) eqn:B.
  - replace (Nat.min nl (length t)) with nl by lia. split; [lia|]. split; [intros k; lia|].
    intros X. rewrite NB in B; [done|lia].
  - pose proof (not_break_line_end t nl N B). unfold next_start.
    destruct (Nat.ltb_spec (line_end t nl + 1) (length t)); [|destruct (Nat.ltb_spec (line_end t nl) (length t))].
    + destruct (Nat.leb_spec (line_end t nl + 1 - nl) col); (split; [lia|]); (split; [|lia]); intros k ?; apply NB; lia.
    + destruct (Nat.eqb_spec (line_end t nl) nl); [lia|].
      destruct (Nat.leb_spec (line_end t nl - nl) col); (split; [lia|]); (split; [|lia]); intros k ?; apply NB; lia.
    + split; [lia|]. split; [|lia]. intros k ?; apply NB; lia.
Qed.

(** An arrow key in any mode. *)
Lemma update_raw k d : update (MKey (RawKey k)) d = (d ← move_raw k d; Ret (clamp_caret d)).
Proof. simpl. unfold update_normal, update_insert, update_visual. by destruct (edit_mode d). Qed.

Lemma clamp_text d : text_buffer (clamp_caret d) = text_buffer d.
Proof. unfold clamp_caret. by case_match. Qed.

End laws.

(** ** The editor on the piece table *)

Section editor.
Implicit Types d : Document TextBuffer.

Definition open_file (s : list char) (p : option (list char)) (c : TextEditorConfig) : Document TextBuffer :=
  document_new p (from_str s) c.

Lemma open_file_ok s p c : ok (open_file s p c) /\ txt (open_file s p c) = s.
Proof. destruct (from_str_refines s) as [W A]. split; [exact W|]. exact (f_equal e_text A). Qed.

(** C33 Whatever keys and commands a document gets after a file is opened, the editor does
    not panic: each loop that looks for a line break ends, no position underflows, and
    after a key the caret is within the text. *)
Theorem keys_are_handled (s : list char) (p : option (list char)) (c : TextEditorConfig) (ms : list Message) :
  forallb (negb ∘ is_view) ms = true ->
  exists d, updates ms (open_file s p c) = Ret d /\
    forall k, exists d', update (MKey k) d = Ret d' /\ head_of d' <= ts_len (text_buffer d').
Proof.
  intros V. destruct (open_file_ok s p c) as [W _].
  destruct (updates_ok ms _ W V) as (d & E & Wd). exists d. split; [done|].
  intros k. destruct (key_ok k d Wd) as (d' & E' & W' & L). exists d'. split; [done|].
  by rewrite len_spec.
Qed.

(** In insert mode, typing a string writes it at the caret and moves the caret behind
    it, and as many presses of backspace erase it again and bring the caret back. *)
Theorem typing_then_erasing (d : Document TextBuffer) (s : list char) :
  wf (text_buffer d) -> edit_mode d = InsertMode -> head_of d <= len (text_buffer d) ->
  forallb typed s = true ->
  let t := text (text_buffer d) in
  let h := head_of d in
  exists d1 d2, updates (keys s) d = Ret d1 /\
    text (text_buffer d1) = take h t ++ s ++ drop h t /\ head_of d1 = h + length s /\
    updates (replicate (length s) (MKey (Unicode 8%Z))) d1 = Ret d2 /\
    text (text_buffer d2) = t /\ head_of d2 = h.
Proof.
  intros W M L K t h. assert (Wd : ok d) by exact W. assert (Lt : h <= length t) by (unfold t; by rewrite <-wf_len).
  assert (Ht : txt d = take h t ++ drop h t) by (by rewrite take_drop).
  assert (Hl : head_of d = length (take h t)) by (rewrite length_take; lia).
  destruct (type_many s d _ _ Wd M Ht Hl K) as (d1 & E1 & W1 & M1 & T1 & H1).
  destruct (erase_many s d1 _ _ W1 M1 T1 H1) as (d2 & E2 & W2 & M2 & T2 & H2).
  exists d1, d2. rewrite take_drop in T2. rewrite <-Hl in H1, H2. done.
Qed.

(** In visual mode, [y] copies the characters between the anchor and the caret, whichever
    comes first, and returns to normal mode, where [p] inserts them at the caret and moves
    the caret behind them. *)
Theorem yank_then_paste (d : Document TextBuffer) (a h : nat) :
  wf (text_buffer d) -> edit_mode d = Visual -> caret d = CaretVisual a h ->
  a <= len (text_buffer d) -> h <= len (text_buffer d) ->
  let t := text (text_buffer d) in
  let s := take (Nat.max a h - Nat.min a h) (drop (Nat.min a h) t) in
  exists d1 d2, update (MKey (Unicode 121%Z)) d = Ret d1 /\
    text_buffer d1 = text_buffer d /\ copy_buffer d1 = s /\ edit_mode d1 = Normal /\ caret d1 = CaretNormal h /\
    update (MKey (Unicode 112%Z)) d1 = Ret d2 /\
    text (text_buffer d2) = take h t ++ s ++ drop h t /\ head_of d2 = h + length s /\ edit_mode d2 = Normal.
Proof.
  intros W M C La Lh t s. unfold len in La, Lh. rewrite (wf_len _ W) in La, Lh. fold t in La, Lh.
  set (d1 := set_mode Normal (set_caret (CaretNormal h) (set_copy_buffer s d))).
  assert (W0 : ok (set_copy_buffer [] d)) by exact W. assert (W1 : ok d1) by exact W.
  assert (Y : yank d = d1).
  { unfold yank. simpl. rewrite C.
    destruct (Nat.ltb_spec a h).
    - rewrite (yank_loop_spec (h - a) a (set_copy_buffer [] d) W0) by (change (txt (set_copy_buffer [] d)) with t; lia).
      unfold d1, head_of, s. simpl. rewrite C. by rewrite Nat.max_r, Nat.min_l by lia.
    - rewrite (yank_loop_spec (a - h) h (set_copy_buffer [] d) W0) by (change (txt (set_copy_buffer [] d)) with t; lia).
      unfold d1, head_of, s. simpl. rewrite C. by rewrite Nat.max_l, Nat.min_r by lia. }
  assert (Cl : clamp_caret d1 = d1).
  { unfold clamp_caret. rewrite (len_spec d1 W1). change (txt d1) with t. simpl.
    destruct (Nat.ltb_spec (length t) (head_of d1)) as [X|]; [|done]. unfold head_of in X. simpl in X. lia. }
  assert (Ht : txt d1 = take h t ++ drop h t) by (by rewrite take_drop).
  assert (Hl : head_of d1 = length (take h t)) by (rewrite length_take; unfold head_of; simpl; lia).
  destruct (paste_loop_spec s d1 _ _ W1 Ht Hl) as (d2 & P & W2 & T2 & H2 & M2).
  exists d1, (clamp_caret d2). repeat split; try done.
  - simpl. rewrite M. unfold update_visual. simpl. by rewrite Y, Cl.
  - simpl. unfold update_normal. simpl. unfold paste. simpl. by rewrite P.
  - rewrite clamp_text. done.
  - destruct (clamp_spec d2 W2) as (_ & _ & ->). rewrite T2, H2, <-Hl, !length_app, length_drop.
    rewrite length_take. change (head_of d1) with h. lia.
  - by unfold clamp_caret; case_match.
Qed.

(** From a caret within the text, the up arrow moves it to the line before, to the same
    column or to its last position, and to the start of the text from the first line; the
    down arrow moves it to the line after, if the text has one, and to the same column when
    that line is long enough. *)
Theorem arrows_move_by_line (d : Document TextBuffer) :
  wf (text_buffer d) -> head_of d < len (text_buffer d) ->
  let t := text (text_buffer d) in
  let ls := line_start t (head_of d) in
  let col := head_of d - ls in
  let pls := line_start t (ls - 1) in
  let nl := line_end t (head_of d) + 1 in
  (exists d', update (MKey (RawKey ArrowUp)) d = Ret d' /\ text_buffer d' = text_buffer d /\
     if ls =? 0 then head_of d' = 0
     else pls <= head_of d' < ls /\ (head_of d' = ls - 1 \/ head_of d' - pls = col)) /\
  (nl < length t ->
   exists d', update (MKey (RawKey ArrowDown)) d = Ret d' /\ text_buffer d' = text_buffer d /\
     nl <= head_of d' <= length t /\ no_break t nl (head_of d') /\
     (nl + col < line_end t nl -> head_of d' = nl + col)).
Proof.
  intros W L t ls col pls nl. unfold len in L. rewrite (wf_len _ W) in L. fold t in L.
  assert (Wd : ok d) by exact W. rewrite !update_raw. split.
  - cbn [move_raw]. rewrite move_up_spec by done. cbn [mbind outcome_bind].
    set (d1 := set_head _ d). eexists. split; [reflexivity|]. rewrite clamp_text. split; [done|].
    destruct (clamp_spec d1 Wd) as (_ & _ & ->).
    assert (H1 : head_of d1 = up_head t (head_of d)) by apply head_set_head. rewrite H1.
    change (txt d1) with t. pose proof (line_start_le t (head_of d)) as Ls. fold ls in Ls.
    generalize (up_head_line t (head_of d) L). cbv zeta. fold ls pls.
    destruct (ls =? 0); [intros ->; lia|]. intros U. rewrite Nat.min_l by lia. exact U.
  - intros N. cbn [move_raw]. rewrite move_down_spec by done. cbn [mbind outcome_bind].
    set (d1 := set_head _ d). eexists. split; [reflexivity|]. rewrite clamp_text. split; [done|].
    destruct (clamp_spec d1 Wd) as (_ & _ & ->).
    assert (H1 : head_of d1 = down_head t (head_of d)) by apply head_set_head. rewrite H1.
    change (txt d1) with t. destruct (down_head_line t (head_of d) L N) as (D1 & D2 & D3).
    repeat split; try done. lia.
Qed.

(** Backspace with the caret at the start of the text deletes the character after it. *)
Lemma backspace_at_start (d : Document TextBuffer) (c : char) (t : list char) :
  wf (text_buffer d) -> edit_mode d = InsertMode -> head_of d = 0 -> text (text_buffer d) = c :: t ->
  exists d', update (MKey (Unicode 8%Z)) d = Ret d' /\ text (text_buffer d') = t.
Proof.
  intros W M Hh Ht. assert (Wd : ok d) by exact W. cbn [update]. rewrite M. unfold update_insert.
  change (8 =? 8)%Z with true. unfold move_cursor_left. rewrite Hh. cbv iota zeta. cbn [Nat.eqb]. rewrite Hh.
  destruct (edit_spec (ts_delete 0) _ d (ts_delete_spec 0 _ Wd)) as (b & -> & Wt & Et). simpl.
  eexists. split; [reflexivity|]. rewrite clamp_text. simpl. simpl in Et. unfold e_delete in Et. simpl in Et.
  rewrite Ht in Et. simpl in Et. exact (f_equal e_text Et).
Qed.

(** The up arrow with the caret behind the last character goes to the start of the text. *)
Lemma up_from_end (d : Document TextBuffer) :
  wf (text_buffer d) -> head_of d = len (text_buffer d) ->
  exists d', update (MKey (RawKey ArrowUp)) d = Ret d' /\ head_of d' = 0.
Proof.
  intros W Hh. assert (Wd : ok d) by exact W. rewrite update_raw. cbn [move_raw].
  rewrite move_up_spec by done. cbn [mbind outcome_bind]. eexists. split; [reflexivity|].
  set (d1 := set_head _ d). destruct (clamp_spec d1 Wd) as (_ & _ & ->).
  assert (H1 : head_of d1 = 0).
  { unfold d1. rewrite head_set_head. unfold up_head. unfold len in Hh. rewrite (wf_len _ W) in Hh.
    change (txt d) with (text (text_buffer d)). destruct (Nat.ltb_spec (head_of d) (length (text (text_buffer d)))); [lia|done]. }
  by rewrite H1.
Qed.

(** The undo command of the menu leaves the caret where it is, past the end of the text
    when the undone edit was at its end.  The next character typed is recorded at that
    position and appended elsewhere, so that the undo command does not take it back. *)
Theorem undo_command_strands_caret (p : option (list char)) (c : TextEditorConfig) (x y : char) :
  typed x = true -> typed y = true ->
  exists d1 d2 d3, updates [MKey (Unicode x); MCommand CmdUndo] (open_file [] p c) = Ret d1 /\
    text (text_buffer d1) = [] /\ head_of d1 = 1 /\
    update (MKey (Unicode y)) d1 = Ret d2 /\ text (text_buffer d2) = [y] /\
    update (MCommand CmdUndo) d2 = Ret d3 /\ text (text_buffer d3) = [y].
Proof.
  unfold typed. intros [X1%negb_true_iff X2%negb_true_iff]%andb_prop [Y1%negb_true_iff Y2%negb_true_iff]%andb_prop.
  unfold update, update_insert, open_file. cbn -[Z.eqb]. unfold update, update_insert. cbn -[Z.eqb].
  rewrite X1, X2. cbn -[Z.eqb]. do 3 eexists. split; [reflexivity|].
  cbn -[Z.eqb]. rewrite Y1, Y2. repeat split.
Qed.

End editor.

(** ** Examples *)

Definition no_color : Color := {| red := 0; green := 0; blue := 0; alpha := 0 |}.
Definition plain_view : ViewConfig := VSimple 1 no_color no_color.
Definition plain_config : TextEditorConfig :=
  {| cfg_width := 900; cfg_height := 600; background_color := no_color;
     markdown_view := plain_view; simple_view := plain_view; code_view := plain_view |}.

(** The file [ab\ncd]. *)
Definition two_lines : list char := [97; 98; 10; 99; 100]%Z.

Lemma keys_are_handled_witness :
  let ms := [MKey (RawKey ArrowDown); MKey (Unicode 120%Z); MCommand CmdUndo; MKey (Unicode 27%Z)] in
  exists d, updates ms (open_file two_lines None plain_config) = Ret d /\
    forall k, exists d', update (MKey k) d = Ret d' /\ head_of d' <= ts_len (text_buffer d').
Proof. intros ms. exact (keys_are_handled two_lines None plain_config ms eq_refl). Defined.

Lemma typing_then_erasing_witness :
  let d := set_head 2 (open_file two_lines None plain_config) in
  exists d1 d2, updates (keys [120; 10]%Z) d = Ret d1 /\
    text (text_buffer d1) = [97; 98; 120; 10; 10; 99; 100]%Z /\ head_of d1 = 4 /\
    updates (replicate 2 (MKey (Unicode 8%Z))) d1 = Ret d2 /\
    text (text_buffer d2) = two_lines /\ head_of d2 = 2.
Proof.
  intros d. refine (typing_then_erasing d [120; 10]%Z _ eq_refl _ eq_refl).
  - apply from_str_refines.
  - vm_compute. lia.
Defined.

Lemma yank_then_paste_witness :
  let d := set_mode Visual (set_caret (CaretVisual 4 1) (open_file two_lines None plain_config)) in
  exists d1 d2, update (MKey (Unicode 121%Z)) d = Ret d1 /\
    text_buffer d1 = text_buffer d /\ copy_buffer d1 = [98; 10; 99]%Z /\ edit_mode d1 = Normal /\
    caret d1 = CaretNormal 1 /\ update (MKey (Unicode 112%Z)) d1 = Ret d2 /\
    text (text_buffer d2) = [97; 98; 10; 99; 98; 10; 99; 100]%Z /\ head_of d2 = 4 /\ edit_mode d2 = Normal.
Proof.
  intros d. refine (yank_then_paste d 4 1 _ eq_refl eq_refl _ _).
  - apply from_str_refines.
  - vm_compute. lia.
  - vm_compute. lia.
Defined.

Lemma arrows_move_by_line_witness :
  let d := set_head 1 (open_file two_lines None plain_config) in
  (exists d', update (MKey (RawKey ArrowUp)) d = Ret d' /\ text_buffer d' = text_buffer d /\ head_of d' = 0) /\
  (3 < 5 -> exists d', update (MKey (RawKey ArrowDown)) d = Ret d' /\ text_buffer d' = text_buffer d /\
     3 <= head_of d' <= 5 /\ no_break two_lines 3 (head_of d') /\ (4 < 5 -> head_of d' = 4)).
Proof.
  intros d. refine (arrows_move_by_line d _ _).
  - apply from_str_refines.
  - vm_compute. lia.
Defined.

Lemma undo_command_strands_caret_witness :
  exists d1 d2 d3, updates [MKey (Unicode 97%Z); MCommand CmdUndo] (open_file [] None plain_config) = Ret d1 /\
    text (text_buffer d1) = [] /\ head_of d1 = 1 /\
    update (MKey (Unicode 98%Z)) d1 = Ret d2 /\ text (text_buffer d2) = [98%Z] /\
    update (MCommand CmdUndo) d2 = Ret d3 /\ text (text_buffer d3) = [98%Z].
Proof. exact (undo_command_strands_caret None plain_config 97%Z 98%Z eq_refl eq_refl). Defined.
