(* ===== verification/Verbs.v ===== *)
(** * The verbs interface ([os/library/rdma/src/ib_core.rs], [os/library/ibverbs/src])

    Work requests and completions as applications see them, and slices of memory regions.
    Numbers of the code are integers; a [bitflags] value is its bits. *)

From S2P Require Import Prelude.

Open Scope Z_scope.

(* os/library/rdma/src/ib_core.rs: QueuePairType *)
Inductive QueuePairType := RC | UC | UD.

(* [os/library/rdma/src/ib_core.rs:23-29] QueuePairCapabilities *)
Record QueuePairCapabilities := {
  max_send_wr : Z; max_recv_wr : Z; max_send_sge : Z; max_recv_sge : Z; max_inline_data : Z
}.

(* [os/library/rdma/src/ib_core.rs:228-235] QueuePairState *)
Inductive QueuePairState := StReset | StInit | ReadyToReceive | ReadyToSend | SQD.

#[global] Instance qp_state_eq_dec : EqDecision QueuePairState.
Proof. solve_decision. Defined.

(* [os/library/rdma/src/ib_core.rs:246-250] SendFlags *)
Definition SEND_SIGNALED : Z := 1.
Definition SEND_FENCE : Z := 2.
Definition SEND_SOLICITED : Z := 4.

(** [bitflags]: [contains] *)
Definition contains (flags f : Z) : bool := Z.land flags f =? f.

(* [os/library/rdma/src/ib_core.rs:278-284] ScatterGatherEntry *)
Record ScatterGatherEntry := { sge_addr : Z; sge_length : Z; sge_lkey : Z }.

(* [os/library/rdma/src/ib_core.rs:238-242] SendWorkRequestAddressHandle *)
Record SendWorkRequestAddressHandle := { ah_port : Z; ah_dlid : Z; ah_slid : Z }.

(* [os/library/ibverbs/src/qp.rs:842-847] RemoteMemoryHeader *)
Record RemoteMemoryHeader := { remote_addr : Z; hdr_rkey : Z }.

(* [os/library/ibverbs/src/qp.rs:850-855] DatagramHeader *)
Record DatagramHeader := { dg_ah : SendWorkRequestAddressHandle; remote_qpn : Z; remote_qkey : Z }.

(* [os/library/ibverbs/src/qp.rs:827-839] SendOperation *)
Inductive SendOperation :=
| OpSend
| OpRdmaRead (h : RemoteMemoryHeader)
| OpRdmaWrite (h : RemoteMemoryHeader)
| OpAtomic (h : RemoteMemoryHeader) (compare_add swap : Z)
| OpUD (h : DatagramHeader).

(* os/library/ibverbs/src/qp.rs: Payload *)
Inductive Payload := Sges (l : list ScatterGatherEntry) | Inline (bytes : list Z).

(* [os/library/ibverbs/src/qp.rs:736-741] SendWorkRequest *)
Record SendWorkRequest := { s_wr_id : Z; payload : Payload; send_flags : Z; op : SendOperation }.

(* os/library/ibverbs/src/qp.rs: ReceiveWorkRequest *)
Record ReceiveWorkRequest := { r_wr_id : Z; r_sges : list ScatterGatherEntry }.

(** ** Memory regions *)

(* [os/library/ibverbs/src/mr.rs:96-103] RemoteMemorySlice *)
Record RemoteMemorySlice := { rs_addr : Z; rs_len : Z; rs_rkey : Z }.

(** The bounds of a [RangeBounds<usize>]. *)
Inductive Bound := Included (i : Z) | Excluded (i : Z) | Unbounded.

(** [a + b] on [usize] and [u64], [a - b] likewise. *)
Definition add64 (a b : Z) : outcome Z := expect (checked_add a b) "attempt to add with overflow".
Definition sub64 (a b : Z) : outcome Z :=
  if b <=? a then Ret (a - b) else Panic "attempt to subtract with overflow".

(* [os/library/ibverbs/src/mr.rs:116-133] calc_addr_len *)
Definition calc_addr_len (start_bound end_bound : Bound) (addr bytes_len : Z) : outcome (Z * Z) :=
  start ← match start_bound with Included i => Ret i | Excluded i => add64 i 1 | Unbounded => Ret 0 end;
  fin ← match end_bound with Included i => add64 i 1 | Excluded i => Ret i | Unbounded => Ret bytes_len end;
  rust_assert (start <? fin) "assertion failed: start < end";;
  rust_assert (start <=? bytes_len) "assertion failed: start <= bytes_len";;
  rust_assert (fin <=? bytes_len) "assertion failed: end <= bytes_len";;
  a ← add64 addr start;
  len ← sub64 fin start;
  Ret (a, len).

(* [os/library/ibverbs/src/mr.rs:106-113] RemoteMemorySlice::slice *)
Definition remote_slice (s e : Bound) (r : RemoteMemorySlice) : outcome RemoteMemorySlice :=
  '(a, n) ← calc_addr_len s e (rs_addr r) (rs_len r);
  Ret {| rs_addr := a; rs_len := n; rs_rkey := rs_rkey r |}.

(** A local region: where its data is, how many bytes, and its keys. *)
(* [os/library/ibverbs/src/mr.rs:16-22] LocalMemoryRegion *)
Record LocalMemoryRegion := { lr_addr : Z; lr_bytes : Z; lr_lkey : Z; lr_rkey : Z }.

(* [os/library/ibverbs/src/mr.rs:64-72] LocalMemoryRegion::slice *)
Definition local_slice (s e : Bound) (r : LocalMemoryRegion) : outcome ScatterGatherEntry :=
  '(a, n) ← calc_addr_len s e (lr_addr r) (lr_bytes r);
  rust_assert (n <? 2 ^ 31) "The slice was larger than 2Gb, which is the max that fits in a single SGE";;
  Ret {| sge_addr := a; sge_length := n; sge_lkey := lr_lkey r |}.

(* [os/library/ibverbs/src/mr.rs:54-60] LocalMemoryRegion::remote *)
Definition local_remote (r : LocalMemoryRegion) : RemoteMemorySlice :=
  {| rs_addr := lr_addr r; rs_len := lr_bytes r; rs_rkey := lr_rkey r |}.

(** ** Building requests *)

(** The loops that add up the lengths of the entries. *)
Fixpoint total_len (l : list ScatterGatherEntry) (acc : Z) : outcome Z :=
  match l with
  | [] => Ret acc
  | e :: l' => acc ← add64 acc (sge_length e); total_len l' acc
  end.

(* [os/library/ibverbs/src/qp.rs:745-752] SendWorkRequest::send *)
Definition wr_send (wr_id : Z) (p : Payload) (flags : Z) : SendWorkRequest :=
  {| s_wr_id := wr_id; payload := p; send_flags := flags; op := OpSend |}.

(* [os/library/ibverbs/src/qp.rs:755-781] SendWorkRequest::rdma_write *)
Definition wr_rdma_write (wr_id : Z) (p : Payload) (r : RemoteMemorySlice) (flags : Z)
  : outcome (option SendWorkRequest) :=
  n ← match p with Sges l => total_len l 0 | Inline bs => Ret (Z.of_nat (length bs)) end;
  if n =? rs_len r then
    Ret (Some {| s_wr_id := wr_id; payload := p; send_flags := flags;
                 op := OpRdmaWrite {| remote_addr := rs_addr r; hdr_rkey := rs_rkey r |} |})
  else Ret None.

(* [os/library/ibverbs/src/qp.rs:784-804] SendWorkRequest::rdma_read *)
Definition wr_rdma_read (wr_id : Z) (l : list ScatterGatherEntry) (r : RemoteMemorySlice) (flags : Z)
  : outcome (option SendWorkRequest) :=
  n ← total_len l 0;
  if n =? rs_len r then
    Ret (Some {| s_wr_id := wr_id; payload := Sges l; send_flags := flags;
                 op := OpRdmaRead {| remote_addr := rs_addr r; hdr_rkey := rs_rkey r |} |})
  else Ret None.

(** ** Completions *)

(* [os/library/ibverbs/src/cq.rs:259-286] WorkCompletionStatus *)
Inductive WorkCompletionStatus :=
| WcSuccess | LocalLengthError | LocalQpOperationError | LocalProtError | WrFlushError | MwBindError
| BadResponseError | LocalAccessError | RemoteInvalidRequestError | RemoteAccessError
| RemoteOperationError | TransportRetryExceededError | RnrRetryExceededError | RemoteAbortedErr
| GeneralError.

(* [os/library/ibverbs/src/cq.rs:289-298] WorkCompletionOpcode *)
Inductive WorkCompletionOpcode :=
| WcSend | WcRdmaWrite | WcRdmaRead | WcCompareAndSwap | WcFetchAdd | WcLocalInvalidate | WcRecv
| WcRecvRdmaWithImm.

(* [os/library/ibverbs/src/cq.rs:59-101] WorkCompletion *)
Record WorkCompletion := {
  wc_wr_id : Z; wc_status : WorkCompletionStatus; wc_opcode : WorkCompletionOpcode;
  wc_vendor_err : Z; wc_byte_len : Z; wc_imm_data : Z; wc_qp_num : Z; wc_src_qp : Z;
  wc_flags : Z; wc_pkey_index : Z; wc_slid : Z; wc_sl : Z; wc_dlid_path_bits : Z
}.

Definition IBV_WC_GRH : Z := 1.
Definition IBV_WC_WITH_IMM : Z := 2.
Definition IBV_WC_WITH_INV : Z := 8.

(* [os/library/ibverbs/src/cq.rs:239-255] WorkCompletion::default *)
Definition wc_default : WorkCompletion :=
  {| wc_wr_id := 0; wc_status := GeneralError; wc_opcode := WcLocalInvalidate; wc_vendor_err := 0;
     wc_byte_len := 0; wc_imm_data := 0; wc_qp_num := 0; wc_src_qp := 0; wc_flags := 0;
     wc_pkey_index := 0; wc_slid := 0; wc_sl := 0; wc_dlid_path_bits := 0 |}.

(* os/library/ibverbs/src/cq.rs: WorkCompletion::is_valid *)
Definition wc_is_valid (w : WorkCompletion) : bool :=
  match wc_status w with WcSuccess => true | _ => false end.

(* [os/library/ibverbs/src/cq.rs:207-212] WorkCompletion::error *)
Definition wc_error (w : WorkCompletion) : option (WorkCompletionStatus * Z) :=
  match wc_status w with WcSuccess => None | s => Some (s, wc_vendor_err w) end.

(* [os/library/ibverbs/src/cq.rs:229-235] WorkCompletion::imm_data *)
Definition wc_imm (w : WorkCompletion) : option Z :=
  if wc_is_valid w && contains (wc_flags w) IBV_WC_WITH_IMM then Some (wc_imm_data w) else None.
