(* ===== verification/Bytes.v ===== *)
(** * Bytes and buffers

    Bytes are integers below 256.  Numbers in big-endian order, as the adapter reads them, and
    a buffer written at an offset. *)

From S2P Require Import Prelude.

Open Scope nat_scope.

(** [to_be_bytes] of an [n]-byte integer. *)
Fixpoint be_bytes (n : nat) (z : Z) : list Z :=
  match n with
  | O => []
  | S m => ((z / 256 ^ Z.of_nat m) mod 256)%Z :: be_bytes m z
  end.

(** [from_be_bytes] *)
Definition be_value (bs : list Z) : Z := fold_left (fun a b => (a * 256 + b)%Z) bs 0%Z.

(** The buffer with [bs] written at [off]. *)
Definition splice (buf : list Z) (off : nat) (bs : list Z) : list Z :=
  take off buf ++ bs ++ drop (off + length bs) buf.

(** [n] bytes from [off] on. *)
Definition slice (buf : list Z) (off n : nat) : list Z := take n (drop off buf).

Lemma be_bytes_length n z : length (be_bytes n z) = n.
Proof. induction n; simpl; auto. Qed.

Lemma be_fold (l : list Z) (a : Z) :
  fold_left (fun a b => (a * 256 + b)%Z) l a = (a * 256 ^ Z.of_nat (length l) + be_value l)%Z.
Proof.
  unfold be_value. revert a. induction l as [|b l IH]; intros a; cbn [fold_left length]; [simpl; lia|].
  rewrite IH, (IH (0 * 256 + b)%Z). rewrite Nat2Z.inj_succ, Z.pow_succ_r by lia. lia.
Qed.

Lemma be_value_bytes_mod n z : (0 <= z)%Z -> be_value (be_bytes n z) = (z mod 256 ^ Z.of_nat n)%Z.
Proof.
  intros Hz. induction n as [|n IH]; [simpl; by rewrite Z.mod_1_r|].
  unfold be_value. cbn [be_bytes fold_left]. rewrite be_fold, be_bytes_length, IH.
  rewrite Nat2Z.inj_succ, Z.pow_succ_r by lia. rewrite (Z.mul_comm 256), Z.rem_mul_r by lia. lia.
Qed.

Lemma be_value_bytes n z : (0 <= z < 256 ^ Z.of_nat n)%Z -> be_value (be_bytes n z) = z.
Proof. intros H. rewrite be_value_bytes_mod by lia. by apply Z.mod_small. Qed.

Lemma splice_length buf off bs : off + length bs <= length buf -> length (splice buf off bs) = length buf.
Proof. intros H. unfold splice. rewrite !length_app, length_take, length_drop. lia. Qed.

Lemma slice_length buf off n : off + n <= length buf -> length (slice buf off n) = n.
Proof. intros H. unfold slice. rewrite length_take, length_drop. lia. Qed.

(** Reading what was written. *)
Lemma slice_splice buf off bs : off + length bs <= length buf -> slice (splice buf off bs) off (length bs) = bs.
Proof.
  intros H. unfold slice, splice. rewrite drop_app_length' by (rewrite length_take; lia).
  by rewrite take_app_length.
Qed.

Lemma splice_bytes_lookup buf off bs i : off + length bs <= length buf ->
  splice buf off bs !! i =
    if decide (off <= i < off + length bs) then bs !! (i - off) else buf !! i.
Proof.
  intros H. unfold splice. destruct (decide (off <= i < off + length bs)).
  - rewrite lookup_app_r by (rewrite length_take; lia). rewrite length_take, Nat.min_l by lia.
    by rewrite lookup_app_l by lia.
  - destruct (decide (i < off)).
    + rewrite lookup_app_l by (rewrite length_take; lia). by rewrite lookup_take_lt.
    + rewrite lookup_app_r by (rewrite length_take; lia). rewrite length_take, Nat.min_l by lia.
      rewrite lookup_app_r by lia. rewrite lookup_drop. f_equal. lia.
Qed.

Lemma slice_lookup buf off n i : slice buf off n !! i = if decide (i < n) then buf !! (off + i) else None.
Proof.
  unfold slice. destruct (decide (i < n)).
  - by rewrite lookup_take_lt, lookup_drop.
  - by rewrite lookup_take_ge by lia.
Qed.

(** Buffers that agree on a range have the same slice there. *)
Lemma slice_ext buf buf' off n :
  (forall i, off <= i < off + n -> buf !! i = buf' !! i) -> slice buf off n = slice buf' off n.
Proof.
  intros E. apply list_eq. intros i. rewrite !slice_lookup. case_decide; [|done]. apply E. lia.
Qed.

(** Reading away from what was written. *)
Lemma slice_splice_other buf off bs o n : off + length bs <= length buf ->
  o + n <= off \/ off + length bs <= o -> slice (splice buf off bs) o n = slice buf o n.
Proof.
  intros H D. apply slice_ext. intros i Hi. rewrite splice_bytes_lookup by done. rewrite decide_False; [done|lia].
Qed.

(** Reading a part of what was written. *)
Lemma slice_splice_part buf off bs o n : off + length bs <= length buf -> off <= o -> o + n <= off + length bs ->
  slice (splice buf off bs) o n = slice bs (o - off) n.
Proof.
  intros H H1 H2. apply list_eq. intros i. rewrite !slice_lookup. case_decide; [|done].
  rewrite splice_bytes_lookup by done. rewrite decide_True by lia. f_equal. lia.
Qed.

Lemma slice_slice buf off n o m : o + m <= n -> slice (slice buf off n) o m = slice buf (off + o) m.
Proof.
  intros H. apply list_eq. intros i. rewrite !slice_lookup. case_decide; [|done].
  rewrite decide_True by lia. f_equal. lia.
Qed.



(** Writing next to, before or into what was written. *)
Lemma splice_after buf off x y : off + length x + length y <= length buf ->
  splice (splice buf off x) (off + length x) y = splice buf off (x ++ y).
Proof.
  intros H. apply list_eq. intros i.
  assert (length (splice buf off x) = length buf) by (apply splice_length; lia).
  rewrite !splice_bytes_lookup by (rewrite ?length_app; lia). rewrite length_app.
  repeat case_decide; try lia; try done.
  - rewrite lookup_app_r by lia. f_equal. lia.
  - by rewrite lookup_app_l by lia.
Qed.

Lemma splice_before buf off x y : off + length x + length y <= length buf ->
  splice (splice buf (off + length x) y) off x = splice buf off (x ++ y).
Proof.
  intros H. apply list_eq. intros i.
  assert (length (splice buf (off + length x) y) = length buf) by (apply splice_length; lia).
  rewrite !splice_bytes_lookup by (rewrite ?length_app; lia). rewrite length_app.
  repeat case_decide; try lia; try done.
  - by rewrite lookup_app_l by lia.
  - rewrite lookup_app_r by lia. f_equal. lia.
Qed.

Lemma splice_over buf off x x' y : length x' = length x -> off + length x + length y <= length buf ->
  splice (splice buf off (x ++ y)) off x' = splice buf off (x' ++ y).
Proof.
  intros E H. apply list_eq. intros i.
  assert (length (splice buf off (x ++ y)) = length buf) by (apply splice_length; rewrite length_app; lia).
  rewrite !splice_bytes_lookup by (rewrite ?length_app; lia). rewrite !length_app.
  repeat case_decide; try lia; try done.
  - by rewrite lookup_app_l by lia.
  - rewrite !lookup_app_r by lia. f_equal. lia.
Qed.

Lemma slice_app_l x y n : n = length x -> slice (x ++ y) 0 n = x.
Proof. intros ->. unfold slice. by rewrite drop_0, take_app_length. Qed.

Lemma slice_app_r x y o n : length x <= o -> slice (x ++ y) o n = slice y (o - length x) n.
Proof.
  intros H. unfold slice. rewrite drop_app_ge by done. done.
Qed.

Lemma slice_all x n : n = length x -> slice x 0 n = x.
Proof. intros ->. unfold slice. by rewrite drop_0, take_ge. Qed.
