(* ===== verification/Mlx4Qp.v ===== *)
(** * Queue pairs of the mlx4 provider
      ([os/library/ibverbs/src/provider/mlx4/queue_pair.rs])

    A queue pair has a send and a receive queue, rings of work queue elements (WQEs) in memory
    that the adapter reads.  Applications post requests without a system call: the code writes
    the WQE, hands it over through its ownership bit, and rings a doorbell.  Byte offsets are
    natural numbers; the [u32] counters and sizes are integers, with overflow as a panic.  The
    fences have no counterpart; the order of the writes is that of the code. *)

From S2P Require Import Prelude Verbs Bytes.

Open Scope Z_scope.

(** ** Segments of a WQE *)

(* [os/library/ibverbs/src/provider/mlx4/queue_pair.rs:392-407] WqeDataSegment::copy_from_sge *)
Definition data_segment (e : ScatterGatherEntry) : list Z :=
  be_bytes 4 (sge_length e) ++ be_bytes 4 (sge_lkey e) ++ be_bytes 8 (sge_addr e).

Definition INVALID_LKEY : Z := 256.

(* [os/library/ibverbs/src/provider/mlx4/queue_pair.rs:410-417] WqeDataSegment::last *)
Definition last_segment : list Z := be_bytes 4 0 ++ be_bytes 4 INVALID_LKEY ++ be_bytes 8 0.

Definition WQE_FENCE : Z := 2 ^ 6.
Definition WQE_CQ_UPDATE : Z := 12.
Definition WQE_SOLICITED : Z := 2.

(* [os/library/ibverbs/src/provider/mlx4/queue_pair.rs:421-454] WqeControlSegmentFlags::from *)
Definition control_flags (flags : Z) : Z :=
  Z.lor (Z.lor (if contains flags SEND_FENCE then WQE_FENCE else 0)
               (if contains flags SEND_SOLICITED then WQE_SOLICITED else 0))
        (if contains flags SEND_SIGNALED then WQE_CQ_UPDATE else 0).

(* [os/library/ibverbs/src/provider/mlx4/queue_pair.rs:457-472] WqeRemoteAddressSegment::from *)
Definition remote_segment (h : RemoteMemoryHeader) : list Z :=
  be_bytes 8 (remote_addr h) ++ be_bytes 4 (hdr_rkey h) ++ [0; 0; 0; 0].

(* [os/library/ibverbs/src/provider/mlx4/queue_pair.rs:486-533] WqeDatagramSegment::from *)
Definition datagram_segment (h : DatagramHeader) : list Z :=
  be_bytes 4 (wrap32 (Z.shiftl (ah_port (dg_ah h)) 24)) ++ [0; Z.land (ah_slid (dg_ah h)) 127]
  ++ be_bytes 2 (ah_dlid (dg_ah h)) ++ replicate 24 0
  ++ be_bytes 4 (remote_qpn h) ++ be_bytes 4 (remote_qkey h) ++ replicate 8 0.

Definition CONTROL_SIZE : nat := 16.
Definition REMOTE_SIZE : nat := 16.
Definition DATAGRAM_SIZE : nat := 48.
Definition DATA_SIZE : nat := 16.

(** ** Work queues *)

(* os/library/ibverbs/src/provider/mlx4/queue_pair.rs: WorkQueueMeta *)
Record WorkQueueMeta := { m_wr_id : Z; chain_size : Z }.

(* os/library/ibverbs/src/provider/mlx4/queue_pair.rs: WorkQueueType *)
Inductive WorkQueueType := SendQueue | ReceiveQueue.

(* [os/library/ibverbs/src/provider/mlx4/queue_pair.rs:548-564] WorkQueue *)
Record WorkQueue := {
  wq_type : WorkQueueType;
  wqe_cnt : Z;
  max_post : Z;
  max_gs : Z;
  wq_buffer : option (list Z);
  wqe_shift : Z;
  spare_wqes : option Z;
  wq_head : Z;
  wq_tail : Z;
  meta : list (option WorkQueueMeta);
  divergence_reported : bool
}.

Definition set_buffer (b : option (list Z)) (q : WorkQueue) : WorkQueue :=
  {| wq_type := wq_type q; wqe_cnt := wqe_cnt q; max_post := max_post q; max_gs := max_gs q;
     wq_buffer := b; wqe_shift := wqe_shift q; spare_wqes := spare_wqes q; wq_head := wq_head q;
     wq_tail := wq_tail q; meta := meta q; divergence_reported := divergence_reported q |}.
Definition set_wq_head (h : Z) (q : WorkQueue) : WorkQueue :=
  {| wq_type := wq_type q; wqe_cnt := wqe_cnt q; max_post := max_post q; max_gs := max_gs q;
     wq_buffer := wq_buffer q; wqe_shift := wqe_shift q; spare_wqes := spare_wqes q; wq_head := h;
     wq_tail := wq_tail q; meta := meta q; divergence_reported := divergence_reported q |}.
Definition set_wq_tail (t : Z) (q : WorkQueue) : WorkQueue :=
  {| wq_type := wq_type q; wqe_cnt := wqe_cnt q; max_post := max_post q; max_gs := max_gs q;
     wq_buffer := wq_buffer q; wqe_shift := wqe_shift q; spare_wqes := spare_wqes q; wq_head := wq_head q;
     wq_tail := t; meta := meta q; divergence_reported := divergence_reported q |}.
Definition set_meta (m : list (option WorkQueueMeta)) (q : WorkQueue) : WorkQueue :=
  {| wq_type := wq_type q; wqe_cnt := wqe_cnt q; max_post := max_post q; max_gs := max_gs q;
     wq_buffer := wq_buffer q; wqe_shift := wqe_shift q; spare_wqes := spare_wqes q; wq_head := wq_head q;
     wq_tail := wq_tail q; meta := m; divergence_reported := divergence_reported q |}.
Definition set_divergence (b : bool) (q : WorkQueue) : WorkQueue :=
  {| wq_type := wq_type q; wqe_cnt := wqe_cnt q; max_post := max_post q; max_gs := max_gs q;
     wq_buffer := wq_buffer q; wqe_shift := wqe_shift q; spare_wqes := spare_wqes q; wq_head := wq_head q;
     wq_tail := wq_tail q; meta := meta q; divergence_reported := b |}.

(** The limits of the device that a context holds. *)
(* os/library/ibverbs/src/provider/mlx4/mod.rs: Mlx4Context *)
Record Mlx4Limits := {
  log_max_qp_size : Z; log_max_rq_sge : Z; log_max_sq_sge : Z; max_wqe_sq_size : Z
}.

(* [os/library/ibverbs/src/provider/mlx4/mod.rs:55-65] Mlx4Context::new *)
Definition mlx4_limits : Mlx4Limits :=
  {| log_max_qp_size := 16; log_max_rq_sge := 5; log_max_sq_sge := 5; max_wqe_sq_size := 1024 |}.

(** [next_power_of_two] on integers of a width, which overflows if the power does. *)
Definition next_pow2 (bits n : Z) : outcome Z :=
  let r := if n <=? 1 then 1 else 2 ^ Z.log2_up n in
  if r <? 2 ^ bits then Ret r else Panic "attempt to add with overflow".

(** [try_into().unwrap()] to a width. *)
Definition to_width (bits n : Z) : outcome Z :=
  if n <? 2 ^ bits then Ret n else Panic "called `Result::unwrap()` on an `Err` value".

Definition IB_SQ_MIN_WQE_SHIFT : Z := 6.
Definition IB_MAX_HEADROOM : Z := 2048.

(* os/library/ibverbs/src/provider/mlx4/queue_pair.rs: ib_sq_headroom *)
Definition ib_sq_headroom (shift : Z) : Z := Z.shiftr IB_MAX_HEADROOM shift + 1.
Definition IB_SQ_MAX_SPARE : Z := ib_sq_headroom IB_SQ_MIN_WQE_SHIFT.

(* [os/library/ibverbs/src/provider/mlx4/queue_pair.rs:754-771] send_wqe_overhead *)
Definition send_wqe_overhead (t : QueuePairType) : Z :=
  match t with UD => 64 | UC => 32 | RC => 32 end.

(* [os/library/ibverbs/src/provider/mlx4/queue_pair.rs:576-611] WorkQueue::new_receive_queue *)
Definition new_receive_queue (dev : Mlx4Limits) (caps : QueuePairCapabilities)
  : outcome (result string WorkQueue) :=
  limit ← sub32 (Z.shiftl 1 (log_max_qp_size dev)) IB_SQ_MAX_SPARE;
  if (limit <? max_recv_wr caps) || (Z.shiftl 1 (log_max_rq_sge dev) <? max_recv_sge caps)
  then Ret (Err "RQ size is invalid")
  else
    cnt ← next_pow2 32 (if max_recv_wr caps <? 256 then 256 else max_recv_wr caps);
    gs ← next_pow2 32 (if max_recv_sge caps <? 1 then 1 else max_recv_sge caps);
    bytes ← mul32 gs (Z.of_nat DATA_SIZE);
    Ret (Ok {| wq_type := ReceiveQueue; wqe_cnt := cnt;
               max_post := if cnt <? limit then cnt else limit;
               max_gs := gs; wq_buffer := None; wqe_shift := Z.log2 bytes; spare_wqes := None;
               wq_head := 0; wq_tail := 0; meta := replicate (Z.to_nat cnt) None;
               divergence_reported := false |}).

(* [os/library/ibverbs/src/provider/mlx4/queue_pair.rs:614-648] WorkQueue::new_send_queue *)
Definition new_send_queue (dev : Mlx4Limits) (caps : QueuePairCapabilities) (t : QueuePairType)
  : outcome (result string WorkQueue) :=
  limit ← sub32 (Z.shiftl 1 (log_max_qp_size dev)) IB_SQ_MAX_SPARE;
  if (limit <? max_send_wr caps) || (Z.shiftl 1 (log_max_sq_sge dev) <? max_send_sge caps)
  then Ret (Err "SQ size is invalid")
  else
    data ← mul32 (max_send_sge caps) (Z.of_nat DATA_SIZE);
    sum ← add32 data (send_wqe_overhead t);
    size ← to_width 16 sum;
    if max_wqe_sq_size dev <? size then Ret (Err "SQ size is invalid")
    else
      stride ← next_pow2 16 size;
      let shift := Z.log2 stride in
      let spare := ib_sq_headroom shift in
      wanted ← add32 (if max_send_wr caps <? 256 then 256 else max_send_wr caps) spare;
      cnt ← next_pow2 32 wanted;
      stride16 ← to_width 16 (Z.shiftl 1 shift);
      room ← sub32 (Z.min (max_wqe_sq_size dev) stride16) (send_wqe_overhead t);
      post ← sub32 cnt spare;
      Ret (Ok {| wq_type := SendQueue; wqe_cnt := cnt; max_post := post;
                 max_gs := room / Z.of_nat DATA_SIZE; wq_buffer := None; wqe_shift := shift;
                 spare_wqes := Some spare; wq_head := 0; wq_tail := 0;
                 meta := replicate (Z.to_nat cnt) None; divergence_reported := false |}).

(* os/library/ibverbs/src/provider/mlx4/queue_pair.rs: WorkQueue::size *)
Definition wq_size (q : WorkQueue) : Z := wrap32 (Z.shiftl (wqe_cnt q) (wqe_shift q)).

(** The slot of the ring an index falls into.  Both constructors make [wqe_cnt] at least 256, so
    [wqe_cnt - 1] does not underflow. *)
Definition slot (q : WorkQueue) (index : Z) : Z := Z.land index (wqe_cnt q - 1).

(* [os/library/ibverbs/src/provider/mlx4/queue_pair.rs:659-663] WorkQueue::update_meta_for_head *)
Definition update_meta_for_head (wr_id chain : Z) (q : WorkQueue) : outcome WorkQueue :=
  rust_assert (Z.of_nat (length (meta q)) =? wqe_cnt q) "assertion `left == right` failed";;
  m ← arr_set (meta q) (Z.to_nat (slot q (wq_head q))) (Some {| m_wr_id := wr_id; chain_size := chain |});
  Ret (set_meta m q).

(** The buffer, if the bytes of the type at the offset are within it. *)
(* [os/library/ibverbs/src/provider/mlx4/queue_pair.rs:665-671] WorkQueue::get_in_buffer *)
Definition get_in_buffer (q : WorkQueue) (off size : nat) : option (list Z) :=
  b ← wq_buffer q;
  if (length b <? off + size)%nat then None else Some b.

(* os/library/ibverbs/src/provider/mlx4/queue_pair.rs: WorkQueue::wqe_byte_offset *)
Definition wqe_byte_offset (q : WorkQueue) (index : Z) : nat :=
  Z.to_nat (wrap32 (Z.shiftl (slot q index) (wqe_shift q))).

Definition unwrap_msg : string := "called `Option::unwrap()` on a `None` value".

(** A segment written through the reference [get_in_buffer] returns. *)
Definition put_segment (off : nat) (bs : list Z) (q : WorkQueue) : outcome WorkQueue :=
  b ← expect (get_in_buffer q off (length bs)) unwrap_msg;
  Ret (set_buffer (Some (splice b off bs)) q).

(* [os/library/ibverbs/src/provider/mlx4/queue_pair.rs:682-687] WorkQueue::get_data_segment *)
Definition data_segment_offset (q : WorkQueue) (index sge_index : Z) : nat :=
  (wqe_byte_offset q index + Z.to_nat sge_index * DATA_SIZE)%nat.

(** ** Stamping *)

(** The loop over the 64-byte chunks from [i] on: [n] of them are left. *)
Fixpoint stamp_chunks (n i : nat) (first : Z) (b : list Z) : outcome (list Z) :=
  match n with
  | O => Ret b
  | S m =>
      if (i + 4 <=? length b)%nat then stamp_chunks m (i + 64) first (splice b i [first; 255; 255; 255])
      else Panic "index out of bounds"
  end.

(* [os/library/ibverbs/src/provider/mlx4/queue_pair.rs:705-717] WorkQueue::stamp_wqebb *)
Definition stamp_wqebb (index : Z) (q : WorkQueue) : outcome (result string WorkQueue) :=
  pow ← next_pow2 32 (wqe_cnt q);
  let invalid_owner_bit := Z.shiftr index (Z.log2 pow) mod 2 =? 0 in
  let start := wqe_byte_offset q index in
  let size := Z.to_nat (Z.shiftl 1 (wqe_shift q)) in
  match wq_buffer q with
  | None => Ret (Err "queue pair has no buffer")
  | Some b =>
      b' ← stamp_chunks ((size + 63) / 64) start (Z.lor 127 (if invalid_owner_bit then 128 else 0)) b;
      Ret (Ok (set_buffer (Some b') q))
  end.

Fixpoint stamp_wqebbs (n : nat) (index : Z) (q : WorkQueue) : outcome (result string WorkQueue) :=
  match n with
  | O => Ret (Ok q)
  | S m =>
      r ← stamp_wqebb index q;
      match r with
      | Err e => Ret (Err e)
      | Ok q =>
          if (0 <? m)%nat then
            next ← add32 index 1;
            stamp_wqebbs m next q
          else Ret (Ok q)
      end
  end.

(* [os/library/ibverbs/src/provider/mlx4/queue_pair.rs:689-700] WorkQueue::stamp_wqe *)
Definition stamp_wqe (index : Z) (size : nat) (q : WorkQueue) : outcome (result string WorkQueue) :=
  let wqebb := Z.to_nat (Z.shiftl 1 (wqe_shift q)) in
  stamp_wqebbs ((size + wqebb - 1) / wqebb) index q.

(* [os/library/ibverbs/src/provider/mlx4/queue_pair.rs:720-722] WorkQueue::would_overflow *)
Definition would_overflow (q : WorkQueue) : outcome bool :=
  d ← sub32 (wq_head q) (wq_tail q);
  n ← add32 d 1;
  Ret (max_post q <=? n).

(* [os/library/ibverbs/src/provider/mlx4/queue_pair.rs:728-743] WorkQueue::check_wqe_index *)
Definition check_wqe_index (wqe_index : Z) (q : WorkQueue) : WorkQueue :=
  if divergence_reported q then q
  else if slot q (wq_tail q) =? slot q wqe_index then q
  else set_divergence true q.

(* [os/library/ibverbs/src/provider/mlx4/queue_pair.rs:745-751] WorkQueue::resolve_completion *)
Definition wq_resolve_completion (wqe_index : Z) (q : WorkQueue) : outcome (option Z * WorkQueue) :=
  let q := check_wqe_index wqe_index q in
  let idx := Z.to_nat (slot q wqe_index) in
  m ← arr_get (meta q) idx;
  match m with
  | None => Ret (None, q)
  | Some m =>
      t ← add32 (wq_tail q) (chain_size m);
      Ret (Some (m_wr_id m), set_wq_tail t (set_meta (<[idx := None]> (meta q)) q))
  end.

(** ** Posting *)

(** The data segments of a receive request from segment [i] on. *)
Fixpoint put_sges (l : list ScatterGatherEntry) (i : Z) (q : WorkQueue) : outcome WorkQueue :=
  match l with
  | [] => Ret q
  | e :: l' =>
      q ← put_segment (data_segment_offset q (wq_head q) i) (data_segment e) q;
      put_sges l' (i + 1) q
  end.

(** One receive request: its segments, its metadata, the terminator if a segment is left. *)
(* os/library/ibverbs/src/provider/mlx4/queue_pair.rs: QueuePair::post_receive *)
Definition post_receive_one (wr : ReceiveWorkRequest) (q : WorkQueue) : outcome (result string unit * WorkQueue) :=
  over ← would_overflow q;
  if (over : bool) then Ret (Err "receive queue would overflow", q)
  else if max_gs q <? wrap32 (Z.of_nat (length (r_sges wr))) then
    Ret (Err "work request has too many sges", q)
  else
    q ← put_sges (r_sges wr) 0 q;
    q ← update_meta_for_head (r_wr_id wr) 1 q;
    let n := Z.of_nat (length (r_sges wr)) in
    q ← (if n <? max_gs q then put_segment (data_segment_offset q (wq_head q) n) last_segment q else Ret q);
    Ret (Ok tt, set_wq_head (wrap32 (wq_head q + 1)) q).

Fixpoint post_receive_loop (wrs : list ReceiveWorkRequest) (q : WorkQueue) : outcome (result string unit * WorkQueue) :=
  match wrs with
  | [] => Ret (Ok tt, q)
  | wr :: wrs' =>
      '(r, q) ← post_receive_one wr q;
      match r with Err e => Ret (Err e, q) | Ok _ => post_receive_loop wrs' q end
  end.

(** The data segments of a send request, the last one first; the result is the WQE size. *)
(* os/library/ibverbs/src/provider/mlx4/queue_pair.rs: QueuePair::post_send *)
Fixpoint put_sges_rev (l : list ScatterGatherEntry) (off size : nat) (q : WorkQueue) : outcome (nat * WorkQueue) :=
  match l with
  | [] => Ret (size, q)
  | e :: l' =>
      q ← put_segment off (data_segment e) q;
      off ← usub off DATA_SIZE;
      put_sges_rev l' off (size + DATA_SIZE)%nat q
  end.

(** The segment that the queue pair's type and the operation call for. *)
(* os/library/ibverbs/src/provider/mlx4/queue_pair.rs: QueuePair::post_send *)
Definition extra_segment (t : QueuePairType) (o : SendOperation) : list Z :=
  match t, o with
  | RC, (OpRdmaRead h | OpRdmaWrite h) | UC, (OpRdmaRead h | OpRdmaWrite h) => remote_segment h
  | UD, OpUD h => datagram_segment h
  | _, _ => []
  end.

(* os/library/ibverbs/src/provider/mlx4/queue_pair.rs: QueuePair::post_send *)
Definition send_opcode (o : SendOperation) : outcome Z :=
  match o with
  | OpSend => Ret 10
  | OpRdmaWrite _ => Ret 8
  | OpRdmaRead _ => Ret 16
  | OpAtomic _ _ _ => Panic "not yet implemented: atomic"
  | OpUD _ => Panic "not yet implemented: ud"
  end.

(** Everything of a WQE but its first four bytes, which hold the ownership bit. *)
(* [os/library/ibverbs/src/provider/mlx4/queue_pair.rs:137-188] QueuePair::post_send *)
Definition write_body (t : QueuePairType) (wr : SendWorkRequest) (q : WorkQueue) : outcome (nat * WorkQueue) :=
  let off := wqe_byte_offset q (wq_head q) in
  b ← expect (get_in_buffer q off CONTROL_SIZE) unwrap_msg;
  let q := set_buffer (Some (splice b (off + 4)
             (be_bytes 4 0 ++ be_bytes 4 (control_flags (send_flags wr)) ++ be_bytes 4 0))) q in
  let extra := extra_segment t (op wr) in
  q ← (if (0 <? length extra)%nat then put_segment (off + CONTROL_SIZE) extra q else Ret q);
  let wqe_off := (off + CONTROL_SIZE + length extra)%nat in
  let size := (CONTROL_SIZE + length extra)%nat in
  '(size, q) ← match payload wr with
               | Sges l =>
                   n ← usub (length l) 1;
                   put_sges_rev (rev l) (wqe_off + n * DATA_SIZE) size q
               | Inline _ => Ret (size, q)
               end;
  b ← expect (get_in_buffer q off CONTROL_SIZE) unwrap_msg;
  Ret (size, set_buffer (Some (splice b (off + 4) (be_bytes 4 (Z.of_nat (size / 16))))) q).

(** The word with the ownership bit, written last. *)
(* [os/library/ibverbs/src/provider/mlx4/queue_pair.rs:187-203] QueuePair::post_send *)
Definition write_owner (wr : SendWorkRequest) (q : WorkQueue) : outcome WorkQueue :=
  let off := wqe_byte_offset q (wq_head q) in
  opcode ← send_opcode (op wr);
  let owner := if Z.land (wq_head q) (wqe_cnt q) =? 0 then 0 else 2 ^ 31 in
  b ← expect (get_in_buffer q off CONTROL_SIZE) unwrap_msg;
  Ret (set_buffer (Some (splice b off (be_bytes 4 (Z.lor owner opcode)))) q).

(* [os/library/ibverbs/src/provider/mlx4/queue_pair.rs:126-219] QueuePair::post_send *)
Definition post_send_one (t : QueuePairType) (wr : SendWorkRequest) (chain : Z) (q : WorkQueue)
  : outcome (result string Z * WorkQueue) :=
  over ← would_overflow q;
  if (over : bool) then Ret (Err "send queue would overflow", q)
  else if match payload wr with Sges l => (Z.to_nat (max_gs q) <? length l)%nat | Inline _ => false end then
    Ret (Err "work request has too many sges", q)
  else
    '(size, q) ← write_body t wr q;
    q ← write_owner wr q;
    spare ← expect (spare_wqes q) unwrap_msg;
    headroom ← add32 (wq_head q) spare;
    r ← stamp_wqe headroom size q;
    match r with
    | Err e => Ret (Err e, q)
    | Ok q =>
        '(chain, q) ← (if contains (send_flags wr) SEND_SIGNALED then
                         q ← update_meta_for_head (s_wr_id wr) chain q;
                         Ret (1, q)
                       else
                         c ← add32 chain 1;
                         Ret (c, q));
        Ret (Ok chain, set_wq_head (wrap32 (wq_head q + 1)) q)
    end.

Fixpoint post_send_loop (t : QueuePairType) (wrs : list SendWorkRequest) (chain : Z) (q : WorkQueue)
  : outcome (result string unit * WorkQueue) :=
  match wrs with
  | [] => Ret (Ok tt, q)
  | wr :: wrs' =>
      '(r, q) ← post_send_one t wr chain q;
      match r with Err e => Ret (Err e, q) | Ok chain => post_send_loop t wrs' chain q end
  end.

(** ** Queue pairs *)

(** [receive_wqe_counter] is the value of the receive doorbell record; [doorbells] are the
    values written to the send doorbell of the context, the last one first. *)
(* [os/library/ibverbs/src/provider/mlx4/queue_pair.rs:29-37] QueuePair *)
Record QueuePair := {
  qp_type : QueuePairType;
  number : Z;
  state : QueuePairState;
  rq : WorkQueue;
  sq : WorkQueue;
  receive_wqe_counter : Z;
  doorbells : list Z
}.

Definition set_rq (w : WorkQueue) (p : QueuePair) : QueuePair :=
  {| qp_type := qp_type p; number := number p; state := state p; rq := w; sq := sq p;
     receive_wqe_counter := receive_wqe_counter p; doorbells := doorbells p |}.
Definition set_sq (w : WorkQueue) (p : QueuePair) : QueuePair :=
  {| qp_type := qp_type p; number := number p; state := state p; rq := rq p; sq := w;
     receive_wqe_counter := receive_wqe_counter p; doorbells := doorbells p |}.
Definition set_counter (c : Z) (p : QueuePair) : QueuePair :=
  {| qp_type := qp_type p; number := number p; state := state p; rq := rq p; sq := sq p;
     receive_wqe_counter := c; doorbells := doorbells p |}.
Definition set_state (s : QueuePairState) (p : QueuePair) : QueuePair :=
  {| qp_type := qp_type p; number := number p; state := s; rq := rq p; sq := sq p;
     receive_wqe_counter := receive_wqe_counter p; doorbells := doorbells p |}.

(* [os/library/ibverbs/src/provider/mlx4/queue_pair.rs:47-92] QueuePair::post_receive *)
Definition post_receive (wrs : list ReceiveWorkRequest) (p : QueuePair) : outcome (result string unit * QueuePair) :=
  if negb (bool_decide (state p = ReadyToReceive) || bool_decide (state p = ReadyToSend)) then
    Ret (Err "queue pair cannot receive in this state", p)
  else
    '(r, q) ← post_receive_loop wrs (rq p);
    let p := set_rq q p in
    match r with
    | Err e => Ret (Err e, p)
    | Ok _ =>
        if (length wrs =? 0)%nat then Ret (Ok tt, p)
        else Ret (Ok tt, set_counter (Z.land (wq_head q) 65535) p)
    end.

(* [os/library/ibverbs/src/provider/mlx4/mod.rs:86-91] Mlx4Context::ring_qp_doorbell *)
Definition ring_qp_doorbell (p : QueuePair) : outcome QueuePair :=
  rust_assert (number p <? 2 ^ 24) "assertion failed: qp_number < 1 << 24";;
  Ret {| qp_type := qp_type p; number := number p; state := state p; rq := rq p; sq := sq p;
         receive_wqe_counter := receive_wqe_counter p;
         doorbells := wrap32 (Z.shiftl (number p) 8) :: doorbells p |}.

(** [try_post_send_via_blueflame] always returns false. *)
(* [os/library/ibverbs/src/provider/mlx4/queue_pair.rs:97-226] QueuePair::post_send *)
Definition post_send (wrs : list SendWorkRequest) (p : QueuePair) : outcome (result string unit * QueuePair) :=
  if negb (bool_decide (state p = ReadyToSend)) then Ret (Err "queue pair cannot send in this state", p)
  else if (length wrs =? 0)%nat then Ret (Ok tt, p)
  else
    '(r, q) ← post_send_loop (qp_type p) wrs 1 (sq p);
    let p := set_sq q p in
    match r with
    | Err e => Ret (Err e, p)
    | Ok _ => p ← ring_qp_doorbell p; Ret (Ok tt, p)
    end.

Definition IBV_QP_STATE : Z := 1.

(** [uverbs] is the result of the system call, [attr_state] the state in the attributes. *)
(* [os/library/ibverbs/src/provider/mlx4/queue_pair.rs:228-246] QueuePair::modify *)
Definition modify (uverbs : result string unit) (attr_state : QueuePairState) (attr_mask : Z) (p : QueuePair)
  : result string unit * QueuePair :=
  match uverbs with
  | Err e => (Err e, p)
  | Ok _ => (Ok tt, if contains attr_mask IBV_QP_STATE then set_state attr_state p else p)
  end.

(* [os/library/ibverbs/src/provider/mlx4/queue_pair.rs:339-345] QueuePair::resolve_completion *)
Definition qp_resolve_completion (wqe_index : Z) (is_send : bool) (p : QueuePair)
  : outcome (option Z * QueuePair) :=
  if is_send then '(r, q) ← wq_resolve_completion wqe_index (sq p); Ret (r, set_sq q p)
  else '(r, q) ← wq_resolve_completion wqe_index (rq p); Ret (r, set_rq q p).

(** ** Creation *)

(* [os/library/rdma/src/uverbs_uapi.rs:158-178] CreateQpRequest *)
Record CreateQpRequest := {
  req_qp_type : QueuePairType; send_cq_num : Z; recv_cq_num : Z;
  log_sq_bb_count : Z; log_sq_stride : Z; log_rq_wqe_count : Z; log_rq_stride : Z
}.

(** The loop that gives every send WQE to software. *)
(* os/library/ibverbs/src/provider/mlx4/queue_pair.rs: QueuePair::create *)
Fixpoint init_send_wqes (n : nat) (i : Z) (q : WorkQueue) : outcome (result string WorkQueue) :=
  match n with
  | O => Ret (Ok q)
  | S m =>
      let off := wqe_byte_offset q i in
      match get_in_buffer q off CONTROL_SIZE with
      | None => Ret (Err "invalid send queue offset")
      | Some b =>
          sh ← sub32 (wqe_shift q) 4;
          let b := splice b off (be_bytes 4 (2 ^ 31) ++ be_bytes 4 (Z.shiftl 1 sh)) in
          r ← stamp_wqebb i (set_buffer (Some b) q);
          match r with Err e => Ret (Err e) | Ok q => init_send_wqes m (i + 1) q end
      end
  end.

Definition PAGE_SIZE : nat := 4096.

(** [next_multiple_of] *)
Definition next_multiple_of (n m : nat) : nat := ((n + m - 1) / m * m)%nat.

(** The buffer of a queue pair, filled with zeroes, and its two parts. *)
(* os/library/ibverbs/src/provider/mlx4/queue_pair.rs: QueuePair::create *)
Definition split_buffer (rq sq : WorkQueue) : outcome (WorkQueue * WorkQueue) :=
  bytes ← add32 (wq_size rq) (wq_size sq);
  let buf := replicate (next_multiple_of (Z.to_nat bytes) PAGE_SIZE) 0 in
  if wqe_shift sq <? wqe_shift rq then
    let n := Z.to_nat (wq_size rq) in
    Ret (set_buffer (Some (take n buf)) rq, set_buffer (Some (drop n buf)) sq)
  else
    let n := Z.to_nat (wq_size sq) in
    Ret (set_buffer (Some (drop n buf)) rq, set_buffer (Some (take n buf)) sq).

(** [mmap] says whether the two mappings succeed; [uverbs] is the system call that gives the
    queue pair to the adapter and returns its number. *)
(* [os/library/ibverbs/src/provider/mlx4/queue_pair.rs:257-323] QueuePair::create *)
Definition qp_create (dev : Mlx4Limits) (mmap : bool) (uverbs : CreateQpRequest -> result string Z)
  (caps : QueuePairCapabilities) (t : QueuePairType) (send_cq recv_cq : Z)
  : outcome (result string QueuePair) :=
  r ← new_receive_queue dev caps;
  match r with
  | Err e => Ret (Err e)
  | Ok rq =>
      r ← new_send_queue dev caps t;
      match r with
      | Err e => Ret (Err e)
      | Ok sq =>
          rust_assert mmap "failed to allocate buffer";;
          '(rq, sq) ← split_buffer rq sq;
          r ← init_send_wqes (Z.to_nat (wqe_cnt sq)) 0 sq;
          match r with
          | Err e => Ret (Err e)
          | Ok sq =>
              match uverbs {| req_qp_type := t; send_cq_num := send_cq; recv_cq_num := recv_cq;
                              log_sq_bb_count := Z.log2 (wqe_cnt sq); log_sq_stride := wqe_shift sq;
                              log_rq_wqe_count := Z.log2 (wqe_cnt rq); log_rq_stride := wqe_shift rq |} with
              | Err e => Ret (Err e)
              | Ok n =>
                  Ret (Ok {| qp_type := t; number := n; state := StReset; rq := rq; sq := sq;
                             receive_wqe_counter := 0; doorbells := [] |})
              end
          end
      end
  end.
