(* ===== verification/Mlx4QpProofs.v ===== *)
(** * What posting writes

    The sizes computed at creation fit the requests accepted later; a posted send request is
    written to its own slot of the ring as the adapter reads it, ownership last, and a slot
    ahead is invalidated; nothing else of the ring changes. *)

From S2P Require Import Prelude Verbs Bytes Mlx4Qp.

Open Scope Z_scope.

(** ** Rings *)

(** The shape of a work queue: a power of two of slots, a power of two of bytes each, a buffer
    that holds them, and room for a request's metadata per slot. *)
Record ring (q : WorkQueue) (b : list Z) : Prop := {
  ring_cnt : exists k, 0 <= k <= 16 /\ wqe_cnt q = 2 ^ k;
  ring_shift : 4 <= wqe_shift q <= 15;
  ring_buffer : wq_buffer q = Some b;
  ring_room : wqe_cnt q * 2 ^ wqe_shift q <= Z.of_nat (length b);
  ring_meta : length (meta q) = Z.to_nat (wqe_cnt q)
}.

(** The bytes of a slot. *)
Definition stride (q : WorkQueue) : nat := Z.to_nat (2 ^ wqe_shift q).

(** The first byte of the slot of an index. *)
Definition offset (q : WorkQueue) (i : Z) : nat := (Z.to_nat (i mod wqe_cnt q) * stride q)%nat.

(** The WQE of an index. *)
Definition wqe (q : WorkQueue) (b : list Z) (i : Z) : list Z := slice b (offset q i) (stride q).

Lemma ring_cnt_pos q b : ring q b -> 1 <= wqe_cnt q <= 65536.
Proof.
  intros [(k & Hk & ->) _ _ _ _]. split.
  - pose proof (Z.pow_pos_nonneg 2 k). lia.
  - change 65536 with (2 ^ 16). apply Z.pow_le_mono_r; lia.
Qed.

Lemma stride_spec q b : ring q b -> Z.of_nat (stride q) = 2 ^ wqe_shift q.
Proof. intros [_ H _ _ _]. unfold stride. rewrite Z2Nat.id; [done|]. apply Z.pow_nonneg. lia. Qed.

Lemma stride_ge q b : ring q b -> (16 <= stride q)%nat.
Proof.
  intros R. pose proof (stride_spec q b R) as S. destruct R as [_ H _ _ _].
  assert (2 ^ 4 <= 2 ^ wqe_shift q) by (apply Z.pow_le_mono_r; lia). lia.
Qed.

Lemma slot_spec q b i : ring q b -> slot q i = i mod wqe_cnt q.
Proof.
  intros [(k & Hk & E) _ _ _ _]. unfold slot. rewrite E.
  replace (2 ^ k - 1) with (Z.ones k) by (rewrite Z.ones_equiv; lia).
  by rewrite Z.land_ones by lia.
Qed.

Lemma ring_size q b : ring q b -> (Z.to_nat (wqe_cnt q) * stride q <= length b)%nat.
Proof.
  intros R. pose proof (stride_spec q b R). pose proof (ring_cnt_pos q b R). destruct R as [_ _ _ H1 _].
  apply Nat2Z.inj_le. rewrite Nat2Z.inj_mul, Z2Nat.id by lia. nia.
Qed.

Lemma offset_spec q b i : ring q b -> wqe_byte_offset q i = offset q i.
Proof.
  intros R. unfold wqe_byte_offset, offset. rewrite (slot_spec q b) by done.
  pose proof (ring_cnt_pos q b R) as C. pose proof (Z.mod_pos_bound i (wqe_cnt q) ltac:(lia)) as M.
  destruct R as [_ S _ _ _]. rewrite Z.shiftl_mul_pow2 by lia.
  assert (2 ^ wqe_shift q <= 2 ^ 15) by (apply Z.pow_le_mono_r; lia).
  assert (0 < 2 ^ wqe_shift q) by (apply Z.pow_pos_nonneg; lia).
  unfold wrap32. rewrite Z.mod_small by nia. unfold stride. rewrite Z2Nat.inj_mul by lia. done.
Qed.

Lemma offset_room q b i : ring q b -> (offset q i + stride q <= length b)%nat.
Proof.
  intros R. pose proof (ring_size q b R). pose proof (ring_cnt_pos q b R) as C.
  pose proof (Z.mod_pos_bound i (wqe_cnt q) ltac:(lia)). unfold offset.
  assert (Z.to_nat (i mod wqe_cnt q) + 1 <= Z.to_nat (wqe_cnt q))%nat by lia. nia.
Qed.

(** Different slots do not overlap. *)
Lemma offset_disjoint q b i j : ring q b -> i mod wqe_cnt q <> j mod wqe_cnt q ->
  (offset q i + stride q <= offset q j)%nat \/ (offset q j + stride q <= offset q i)%nat.
Proof.
  intros R D. pose proof (ring_cnt_pos q b R) as C. unfold offset.
  pose proof (Z.mod_pos_bound i (wqe_cnt q) ltac:(lia)). pose proof (Z.mod_pos_bound j (wqe_cnt q) ltac:(lia)).
  destruct (Z.lt_total (i mod wqe_cnt q) (j mod wqe_cnt q)) as [L|[E|L]]; [left|done|right].
  - assert (Z.to_nat (i mod wqe_cnt q) + 1 <= Z.to_nat (j mod wqe_cnt q))%nat by lia. nia.
  - assert (Z.to_nat (j mod wqe_cnt q) + 1 <= Z.to_nat (i mod wqe_cnt q))%nat by lia. nia.
Qed.

(** Indices closer than the number of slots are in different slots. *)
Lemma slots_distinct q b i j : ring q b -> i < j < i + wqe_cnt q -> i mod wqe_cnt q <> j mod wqe_cnt q.
Proof.
  intros R H E. pose proof (ring_cnt_pos q b R).
  assert (D : (j - i) mod wqe_cnt q = 0) by (rewrite Zminus_mod, E, Z.sub_diag; by apply Z.mod_0_l; lia).
  rewrite Z.mod_small in D by lia. lia.
Qed.

(** ** Stamping *)

Lemma stamp_chunks_spec n i first b : (i + 64 * n <= length b + 60)%nat ->
  exists b', stamp_chunks n i first b = Ret b' /\ length b' = length b /\
    (0 < n -> b' !! i = Some first)%nat /\
    (forall j, (j < i \/ i + 64 * n <= j + 60)%nat -> b' !! j = b !! j).
Proof.
  revert i b. induction n as [|n IH]; intros i b H; cbn [stamp_chunks]; [exists b; auto with lia|].
  destruct (Nat.leb_spec (i + 4) (length b)); [|lia].
  assert (L : length (splice b i [first; 255; 255; 255]) = length b) by (apply splice_length; simpl; lia).
  destruct (IH (i + 64)%nat (splice b i [first; 255; 255; 255])) as (b' & -> & L' & _ & O); [lia|].
  exists b'. repeat split; [lia| |].
  - intros _. rewrite O by lia. rewrite splice_bytes_lookup by (simpl; lia). rewrite decide_True by (simpl; lia).
    by rewrite Nat.sub_diag.
  - intros j Hj. rewrite O by lia. rewrite splice_bytes_lookup by (simpl; lia). by rewrite decide_False by (simpl; lia).
Qed.

(** The first byte of a WQE that the adapter must not take for one of the pass of [i]. *)
Definition invalid_byte (q : WorkQueue) (i : Z) : Z := if Z.even (i / wqe_cnt q) then 255 else 127.

Lemma chunks_in_slot q b : ring q b -> (64 * ((stride q + 63) / 64) <= stride q + 60)%nat /\ (0 < (stride q + 63) / 64)%nat.
Proof.
  intros R. pose proof (stride_spec q b R) as S. pose proof (stride_ge q b R). destruct R as [_ H1 _ _ _].
  destruct (Z.le_gt_cases 6 (wqe_shift q)) as [L|L].
  - assert (E : (stride q = 64 * Z.to_nat (2 ^ (wqe_shift q - 6)))%nat).
    { apply Nat2Z.inj. rewrite S, Nat2Z.inj_mul, Z2Nat.id by (apply Z.pow_nonneg; lia).
      change (Z.of_nat 64) with (2 ^ 6). rewrite <-Z.pow_add_r by lia. f_equal. lia. }
    set (m := Z.to_nat (2 ^ (wqe_shift q - 6))) in *.
    assert (0 < m)%nat by lia. rewrite E, (Nat.mul_comm 64 m), Nat.div_add_l by lia. simpl. lia.
  - assert (2 ^ wqe_shift q <= 2 ^ 5) by (apply Z.pow_le_mono_r; lia).
    assert (stride q <= 32)%nat by lia.
    assert ((stride q + 63) / 64 = 1)%nat as ->; [|lia].
    symmetry. apply (Nat.div_unique _ 64 1 (stride q - 1)); lia.
Qed.

Lemma set_buffer_ring q b b' : ring q b -> length b' = length b -> ring (set_buffer (Some b') q) b'.
Proof. intros [C S B Ro Me] L. constructor; [exact C|exact S|reflexivity| |exact Me]. rewrite L. exact Ro. Qed.

Lemma next_pow2_pow k : 0 <= k <= 16 -> next_pow2 32 (2 ^ k) = Ret (2 ^ k).
Proof.
  intros H. unfold next_pow2. assert (2 ^ k <= 2 ^ 16) by (apply Z.pow_le_mono_r; lia).
  assert (E : (if 2 ^ k <=? 1 then 1 else 2 ^ Z.log2_up (2 ^ k)) = 2 ^ k).
  { destruct (Z.leb_spec (2 ^ k) 1).
    - pose proof (Z.pow_pos_nonneg 2 k). lia.
    - by rewrite Z.log2_up_pow2 by lia. }
  rewrite E. destruct (Z.ltb_spec (2 ^ k) (2 ^ 32)); [done|lia].
Qed.

Lemma stamp_wqebb_spec q b i : ring q b -> 0 <= i ->
  exists b', stamp_wqebb i q = Ret (Ok (set_buffer (Some b') q)) /\ length b' = length b /\
    b' !! offset q i = Some (invalid_byte q i) /\
    (forall j, (j < offset q i \/ offset q i + stride q <= j)%nat -> b' !! j = b !! j).
Proof.
  intros R Hi. destruct (chunks_in_slot q b R) as [C1 C2]. pose proof (offset_room q b i R).
  unfold stamp_wqebb. pose proof R as [(k & Hk & E) H1 Hb _ _].
  rewrite E, next_pow2_pow by done. cbn [mbind outcome_bind]. rewrite Z.log2_pow2 by lia.
  rewrite (offset_spec q b), Hb by done. rewrite Z.shiftl_1_l. fold (stride q).
  set (first := Z.lor 127 _). destruct (stamp_chunks_spec ((stride q + 63) / 64) (offset q i) first b) as (b' & -> & L & F & O); [lia|].
  exists b'. split; [done|]. split; [done|]. split.
  - rewrite F by lia. f_equal. unfold first, invalid_byte. rewrite E, Z.shiftr_div_pow2 by lia.
    rewrite Zmod_even. by destruct (Z.even (i / 2 ^ k)).
  - intros j Hj. apply O. lia.
Qed.

(** ** Writing a send request *)

(** The bytes of a WQE up to its last data segment. *)
Definition data_bytes (l : list ScatterGatherEntry) : list Z := flat_map data_segment l.

Definition wqe_size (t : QueuePairType) (o : SendOperation) (l : list ScatterGatherEntry) : nat :=
  (16 + length (extra_segment t o) + 16 * length l)%nat.

Definition body_bytes (t : QueuePairType) (wr : SendWorkRequest) (l : list ScatterGatherEntry) : list Z :=
  be_bytes 4 (Z.of_nat (wqe_size t (op wr) l / 16)) ++ be_bytes 4 (control_flags (send_flags wr))
  ++ be_bytes 4 0 ++ extra_segment t (op wr) ++ data_bytes l.

Definition owner_word (q : WorkQueue) (i opcode : Z) : Z :=
  Z.lor (if Z.land i (wqe_cnt q) =? 0 then 0 else 2 ^ 31) opcode.

Lemma data_segment_length e : length (data_segment e) = 16%nat.
Proof. done. Qed.

Lemma data_bytes_length l : length (data_bytes l) = (16 * length l)%nat.
Proof.
  induction l as [|e l IH]; [done|]. change (data_bytes (e :: l)) with (data_segment e ++ data_bytes l).
  rewrite length_app, data_segment_length, IH. simpl. lia.
Qed.

Lemma data_bytes_app l1 l2 : data_bytes (l1 ++ l2) = data_bytes l1 ++ data_bytes l2.
Proof. apply flat_map_app. Qed.

Lemma body_bytes_length t wr l : length (body_bytes t wr l) = (wqe_size t (op wr) l - 4)%nat.
Proof.
  unfold body_bytes, wqe_size. rewrite !length_app, !be_bytes_length, data_bytes_length. lia.
Qed.

Lemma get_in_buffer_ok q b off n : wq_buffer q = Some b -> (off + n <= length b)%nat -> get_in_buffer q off n = Some b.
Proof.
  intros E H. unfold get_in_buffer. rewrite E. simpl. by destruct (Nat.ltb_spec (length b) (off + n)); [lia|].
Qed.

Lemma put_segment_ok q b off bs : wq_buffer q = Some b -> (off + length bs <= length b)%nat ->
  put_segment off bs q = Ret (set_buffer (Some (splice b off bs)) q).
Proof. intros E H. unfold put_segment. by rewrite (get_in_buffer_ok q b). Qed.

(** The data segments, written from the last to the first, are in order. *)
Lemma put_sges_rev_spec l q b off size : l <> [] -> wq_buffer q = Some b -> (16 <= off)%nat ->
  (off + 16 * length l <= length b)%nat ->
  put_sges_rev (rev l) (off + (length l - 1) * DATA_SIZE) size q
  = Ret ((size + 16 * length l)%nat, set_buffer (Some (splice b off (data_bytes l))) q).
Proof.
  intros N. revert q b size. induction l as [|e l IH] using rev_ind; [done|]. intros q b size E Ho H.
  rewrite rev_app_distr, length_app in *. cbn [rev app length] in *. cbn [put_sges_rev].
  replace (length l + 1 - 1)%nat with (length l) by lia. unfold DATA_SIZE in *.
  rewrite (put_segment_ok q b) by (done || rewrite data_segment_length; lia). cbn [mbind outcome_bind].
  rewrite usub_ok by lia. cbn [mbind outcome_bind]. rewrite data_bytes_app.
  change (data_bytes [e]) with (data_segment e ++ []). rewrite app_nil_r.
  destruct (decide (l = [])) as [->|Nl].
  { simpl. rewrite Nat.add_0_r. done. }
  assert (length l <> 0)%nat by (by destruct l).
  replace (off + length l * 16 - 16)%nat with (off + (length l - 1) * 16)%nat by lia.
  rewrite (IH Nl _ (splice b (off + length l * 16) (data_segment e))); [|done|done|].
  - replace (length l * 16)%nat with (length (data_bytes l)) by (rewrite data_bytes_length; lia).
    rewrite splice_before by (rewrite data_bytes_length, data_segment_length; lia).
    unfold set_buffer. simpl. f_equal. f_equal. lia.
  - rewrite splice_length by (rewrite data_segment_length; lia). lia.
Qed.

Lemma set_buffer_twice x y q : set_buffer x (set_buffer y q) = set_buffer x q.
Proof. done. Qed.

Lemma wqe_byte_offset_set x q i : wqe_byte_offset (set_buffer x q) i = wqe_byte_offset q i.
Proof. done. Qed.

Lemma put_extra_ok q b off x bs : wq_buffer q = Some (splice b off x) -> (off + length x + length bs <= length b)%nat ->
  (if (0 <? length bs)%nat then put_segment (off + length x) bs q else Ret q)
  = Ret (set_buffer (Some (splice b off (x ++ bs))) q).
Proof.
  intros E H. assert (L : length (splice b off x) = length b) by (apply splice_length; lia).
  destruct (Nat.ltb_spec 0 (length bs)) as [P|P].
  - rewrite (put_segment_ok q _ _ _ E) by lia. by rewrite splice_after by lia.
  - assert (bs = []) as -> by (apply nil_length_inv; lia). rewrite app_nil_r, <-E. by destruct q.
Qed.

Lemma write_body_spec t wr l q b : ring q b -> payload wr = Sges l -> l <> [] ->
  (wqe_size t (op wr) l <= stride q)%nat ->
  write_body t wr q
  = Ret (wqe_size t (op wr) l, set_buffer (Some (splice b (offset q (wq_head q) + 4) (body_bytes t wr l))) q).
Proof.
  intros R P N F. unfold write_body. rewrite (offset_spec q b) by done.
  pose proof (offset_room q b (wq_head q) R) as Ro. set (off := offset q (wq_head q)) in *.
  pose proof R as [_ _ Hb _ _]. unfold wqe_size in F.
  rewrite (get_in_buffer_ok q b) by (done || unfold CONTROL_SIZE; lia). cbn [expect mbind outcome_bind].
  set (ctl := be_bytes 4 0 ++ be_bytes 4 (control_flags (send_flags wr)) ++ be_bytes 4 0).
  assert (Lc : length ctl = 12%nat) by done. set (extra := extra_segment t (op wr)) in *.
  replace (off + CONTROL_SIZE)%nat with (off + 4 + length ctl)%nat by (rewrite Lc; unfold CONTROL_SIZE; lia).
  rewrite (put_extra_ok _ b (off + 4) ctl extra) by (done || lia). cbn [mbind outcome_bind].
  rewrite P. rewrite usub_ok by (destruct l; simpl; [done|lia]). cbn [mbind outcome_bind].
  replace (off + 4 + length ctl + length extra)%nat with (off + 4 + length (ctl ++ extra))%nat by (rewrite length_app; lia).
  assert (Lx : length (ctl ++ extra) = (12 + length extra)%nat) by (rewrite length_app; lia).
  assert (Ls : length (splice b (off + 4) (ctl ++ extra)) = length b) by (apply splice_length; lia).
  rewrite (put_sges_rev_spec l _ (splice b (off + 4) (ctl ++ extra))) by (done || lia). cbn [mbind outcome_bind].
  pose proof (data_bytes_length l) as Ld. rewrite splice_after by lia. rewrite !set_buffer_twice.
  rewrite (get_in_buffer_ok _ (splice b (off + 4) ((ctl ++ extra) ++ data_bytes l)));
    [|done|rewrite splice_length by (rewrite length_app; lia); unfold CONTROL_SIZE; lia].
  cbn [expect mbind outcome_bind]. rewrite set_buffer_twice. unfold wqe_size, CONTROL_SIZE.
  f_equal. f_equal. f_equal. f_equal. unfold body_bytes, ctl, wqe_size. rewrite <-!app_assoc.
  rewrite splice_over; [done|done|]. rewrite !length_app, !be_bytes_length, Ld. fold extra. lia.
Qed.

Lemma write_owner_spec wr q b opcode : ring q b -> send_opcode (op wr) = Ret opcode ->
  write_owner wr q
  = Ret (set_buffer (Some (splice b (offset q (wq_head q)) (be_bytes 4 (owner_word q (wq_head q) opcode)))) q).
Proof.
  intros R O. unfold write_owner. rewrite O. cbn [mbind outcome_bind]. rewrite (offset_spec q b) by done.
  pose proof (offset_room q b (wq_head q) R). pose proof (stride_ge q b R). destruct R as [_ _ Hb _ _].
  by rewrite (get_in_buffer_ok q b) by (done || unfold CONTROL_SIZE; lia).
Qed.

Lemma stamp_wqe_one q b i size : ring q b -> 0 <= i -> (0 < size <= stride q)%nat ->
  exists b', stamp_wqe i size q = Ret (Ok (set_buffer (Some b') q)) /\ length b' = length b /\
    b' !! offset q i = Some (invalid_byte q i) /\
    (forall j, (j < offset q i \/ offset q i + stride q <= j)%nat -> b' !! j = b !! j).
Proof.
  intros R Hi Hs. destruct (stamp_wqebb_spec q b i R Hi) as (b' & E & X). exists b'. split; [|done].
  unfold stamp_wqe. destruct R as [_ S _ _ _]. rewrite Z.shiftl_1_l. fold (stride q).
  assert ((size + stride q - 1) / stride q = 1)%nat as ->.
  { symmetry. apply (Nat.div_unique _ _ 1 (size - 1)); lia. }
  cbn [stamp_wqebbs]. by rewrite E.
Qed.

(** ** One send request *)

(** A send queue for a type of queue pair, with its headroom. *)
Record send_ring (t : QueuePairType) (q : WorkQueue) (b : list Z) (sp : Z) : Prop := {
  sr_ring : ring q b;
  sr_spare : spare_wqes q = Some sp;
  sr_room : 0 < sp < wqe_cnt q;
  sr_post : max_post q = wqe_cnt q - sp;
  sr_gs : 0 <= max_gs q;
  sr_fit : max_gs q * 16 + send_wqe_overhead t <= 2 ^ wqe_shift q
}.

(** The operations the code implements, on at least one data segment. *)
Definition supported (wr : SendWorkRequest) (l : list ScatterGatherEntry) (opcode : Z) : Prop :=
  payload wr = Sges l /\ l <> [] /\ send_opcode (op wr) = Ret opcode.

Definition signaled (wr : SendWorkRequest) : bool := contains (send_flags wr) SEND_SIGNALED.

(** The queue after a request is posted. *)
Definition posted (q : WorkQueue) (b : list Z) (m : list (option WorkQueueMeta)) : WorkQueue :=
  set_wq_head (wq_head q + 1) (set_meta m (set_buffer (Some b) q)).

Definition sent_meta (wr : SendWorkRequest) (chain : Z) (q : WorkQueue) : list (option WorkQueueMeta) :=
  if signaled wr then
    <[Z.to_nat (wq_head q mod wqe_cnt q) := Some {| m_wr_id := s_wr_id wr; chain_size := chain |}]> (meta q)
  else meta q.

Lemma extra_fits t o : Z.of_nat (length (extra_segment t o)) + 16 <= send_wqe_overhead t.
Proof. by destruct t, o. Qed.

Lemma wqe_fits t wr l q b sp : send_ring t q b sp -> Z.of_nat (length l) <= max_gs q ->
  (wqe_size t (op wr) l <= stride q)%nat.
Proof.
  intros [R _ _ _ _ F] L. pose proof (stride_spec q b R). pose proof (extra_fits t (op wr)).
  unfold wqe_size. lia.
Qed.

Lemma send_ring_set t q b sp b' : send_ring t q b sp -> length b' = length b -> send_ring t (set_buffer (Some b') q) b' sp.
Proof. intros [R S Ro P G F] L. constructor; try done. by apply (set_buffer_ring q b). Qed.

Lemma update_meta_ok q b wr_id chain : ring q b ->
  update_meta_for_head wr_id chain q
  = Ret (set_meta (<[Z.to_nat (wq_head q mod wqe_cnt q) := Some {| m_wr_id := wr_id; chain_size := chain |}]> (meta q)) q).
Proof.
  intros R. unfold update_meta_for_head. rewrite (slot_spec q b) by done.
  pose proof (ring_cnt_pos q b R) as C. pose proof (Z.mod_pos_bound (wq_head q) (wqe_cnt q) ltac:(lia)).
  destruct R as [_ _ _ _ M]. rewrite M, Z2Nat.id, Z.eqb_refl by lia. simpl.
  by rewrite arr_set_ok by lia.
Qed.

(** The buffer with a request in the slot of the head. *)
Definition with_wqe (t : QueuePairType) (wr : SendWorkRequest) (l : list ScatterGatherEntry) (opcode : Z)
  (q : WorkQueue) (b : list Z) : list Z :=
  splice b (offset q (wq_head q)) (be_bytes 4 (owner_word q (wq_head q) opcode) ++ body_bytes t wr l).

Lemma with_wqe_length t wr l opcode q b : ring q b -> (wqe_size t (op wr) l <= stride q)%nat ->
  length (with_wqe t wr l opcode q b) = length b.
Proof.
  intros R F. apply splice_length. pose proof (offset_room q b (wq_head q) R).
  rewrite length_app, be_bytes_length, body_bytes_length. unfold wqe_size in *. lia.
Qed.

Lemma write_wqe_spec t wr l opcode q b : ring q b -> supported wr l opcode ->
  (wqe_size t (op wr) l <= stride q)%nat ->
  ('(size, q) ← write_body t wr q; q ← write_owner wr q; Ret (size, q))
  = Ret (wqe_size t (op wr) l, set_buffer (Some (with_wqe t wr l opcode q b)) q).
Proof.
  intros R (P & N & O) F. pose proof (offset_room q b (wq_head q) R).
  rewrite (write_body_spec t wr l q b) by done. cbn [mbind outcome_bind].
  pose proof (body_bytes_length t wr l) as Lb. assert (16 <= wqe_size t (op wr) l)%nat by (unfold wqe_size; lia).
  set (b0 := splice b _ _). assert (L0 : length b0 = length b) by (apply splice_length; lia).
  rewrite (write_owner_spec wr _ b0 opcode) by (done || by apply (set_buffer_ring q b)).
  cbn [mbind outcome_bind]. rewrite set_buffer_twice. f_equal. f_equal. f_equal. f_equal.
  unfold with_wqe, b0. rewrite <-splice_before by (rewrite be_bytes_length; lia). by rewrite be_bytes_length.
Qed.

(** What the checks, the write and the bookkeeping of a request do around the stamping. *)
Lemma post_send_one_eq t wr l opcode chain q b sp b' :
  send_ring t q b sp -> supported wr l opcode -> Z.of_nat (length l) <= max_gs q ->
  0 <= wq_tail q <= wq_head q -> wq_head q - wq_tail q + 1 < max_post q -> wq_head q + sp <= U32_MAX ->
  chain + 1 <= U32_MAX -> length b' = length b ->
  stamp_wqe (wq_head q + sp) (wqe_size t (op wr) l) (set_buffer (Some (with_wqe t wr l opcode q b)) q)
    = Ret (Ok (set_buffer (Some b') q)) ->
  post_send_one t wr chain q
    = Ret (Ok (if signaled wr then 1 else chain + 1), posted q b' (sent_meta wr chain q)).
Proof.
  intros SR Su G T Ov U C L E. pose proof (wqe_fits t wr l q b sp SR G) as F.
  pose proof SR as [R S Ro Po Gs Fi]. pose proof (write_wqe_spec t wr l opcode q b R Su F) as W.
  destruct Su as (P & N & O). unfold post_send_one, would_overflow.
  rewrite sub32_ok, P by lia. cbn [mbind outcome_bind].
  rewrite (add32_ok (wq_head q - wq_tail q) 1) by (unfold U32_MAX in *; lia). cbn [mbind outcome_bind].
  destruct (Z.leb_spec (max_post q) (wq_head q - wq_tail q + 1)); [lia|].
  destruct (Nat.ltb_spec (Z.to_nat (max_gs q)) (length l)); [lia|].
  destruct (write_body t wr q) as [[size q1]|]; [|done]. cbn [mbind outcome_bind] in *.
  destruct (write_owner wr q1) as [q2|]; [|done]. cbn [mbind outcome_bind] in *. injection W as -> ->.
  change (spare_wqes (set_buffer _ q)) with (spare_wqes q). rewrite S. cbn [expect mbind outcome_bind].
  change (wq_head (set_buffer (Some (with_wqe t wr l opcode q b)) q)) with (wq_head q).
  rewrite (add32_ok (wq_head q) sp) by done. cbn [mbind outcome_bind]. rewrite E. cbn [mbind outcome_bind].
  assert (R2 : ring (set_buffer (Some b') q) b') by (by apply (set_buffer_ring q b)).
  unfold posted, sent_meta. fold (signaled wr). destruct (signaled wr).
  - rewrite (update_meta_ok _ b') by done. cbn [mbind outcome_bind]. unfold wrap32. simpl.
    rewrite Z.mod_small by (unfold U32_MAX in *; lia). done.
  - rewrite add32_ok by done. cbn [mbind outcome_bind]. unfold wrap32. simpl.
    rewrite Z.mod_small by (unfold U32_MAX in *; lia). by destruct q.
Qed.

Lemma post_send_one_spec t wr l opcode chain q b sp :
  send_ring t q b sp -> supported wr l opcode -> Z.of_nat (length l) <= max_gs q ->
  0 <= wq_tail q <= wq_head q -> wq_head q - wq_tail q + 1 < max_post q -> wq_head q + sp <= U32_MAX ->
  chain + 1 <= U32_MAX ->
  exists b', post_send_one t wr chain q
      = Ret (Ok (if signaled wr then 1 else chain + 1), posted q b' (sent_meta wr chain q)) /\
    length b' = length b /\
    slice b' (offset q (wq_head q)) (wqe_size t (op wr) l)
      = be_bytes 4 (owner_word q (wq_head q) opcode) ++ body_bytes t wr l /\
    b' !! offset q (wq_head q + sp) = Some (invalid_byte q (wq_head q + sp)) /\
    (forall i, i mod wqe_cnt q <> wq_head q mod wqe_cnt q -> i mod wqe_cnt q <> (wq_head q + sp) mod wqe_cnt q ->
       wqe q b' i = wqe q b i).
Proof.
  intros SR Su G T Ov U C. pose proof (wqe_fits t wr l q b sp SR G) as F.
  pose proof SR as [R S Ro Po Gs Fi]. pose proof (offset_room q b (wq_head q) R) as Rm.
  pose proof (with_wqe_length t wr l opcode q b R F) as L1. pose proof (set_buffer_ring q b _ R L1) as R1.
  set (b1 := with_wqe t wr l opcode q b) in *. assert (16 <= wqe_size t (op wr) l)%nat by (unfold wqe_size; lia).
  destruct (stamp_wqe_one (set_buffer (Some b1) q) b1 (wq_head q + sp) (wqe_size t (op wr) l) R1) as (b2 & E2 & L2 & I2 & O2).
  { lia. } { change (stride (set_buffer (Some b1) q)) with (stride q). lia. }
  change (offset (set_buffer (Some b1) q)) with (offset q) in *. change (stride (set_buffer (Some b1) q)) with (stride q) in *.
  assert (D : (offset q (wq_head q) + stride q <= offset q (wq_head q + sp)
               \/ offset q (wq_head q + sp) + stride q <= offset q (wq_head q))%nat).
  { apply (offset_disjoint q b); [done|]. apply (slots_distinct q b); [done|lia]. }
  assert (Lx : length (be_bytes 4 (owner_word q (wq_head q) opcode) ++ body_bytes t wr l) = wqe_size t (op wr) l)
    by (rewrite length_app, be_bytes_length, body_bytes_length; lia).
  exists b2. split; [|split; [lia|split; [|split; [done|]]]].
  - apply (post_send_one_eq t wr l opcode chain q b sp); try done. lia.
  - rewrite (slice_ext b2 b1) by (intros j Hj; apply O2; lia). unfold b1, with_wqe. rewrite <-Lx. by rewrite slice_splice by lia.
  - intros i D1 D2. unfold wqe. apply slice_ext. intros j Hj.
    pose proof (offset_disjoint q b i (wq_head q) R D1). pose proof (offset_disjoint q b i (wq_head q + sp) R D2).
    rewrite O2 by lia. unfold b1, with_wqe. rewrite splice_bytes_lookup by lia. by rewrite decide_False by lia.
Qed.

(** ** One receive request *)

(** A receive queue: a slot holds exactly [max_gs] data segments. *)
Record recv_ring (q : WorkQueue) (b : list Z) : Prop := {
  rr_ring : ring q b;
  rr_gs : 1 <= max_gs q;
  rr_fit : max_gs q * 16 = 2 ^ wqe_shift q;
  rr_post : max_post q <= wqe_cnt q
}.

(** The bytes of a receive WQE: its segments and, if there is room, a terminator. *)
Definition recv_bytes (q : WorkQueue) (l : list ScatterGatherEntry) : list Z :=
  data_bytes l ++ (if Z.of_nat (length l) <? max_gs q then last_segment else []).

Lemma put_sges_spec l i q b x : wq_buffer q = Some (splice b (wqe_byte_offset q (wq_head q)) x) ->
  0 <= i -> length x = (16 * Z.to_nat i)%nat ->
  (wqe_byte_offset q (wq_head q) + length x + 16 * length l <= length b)%nat ->
  put_sges l i q = Ret (set_buffer (Some (splice b (wqe_byte_offset q (wq_head q)) (x ++ data_bytes l))) q).
Proof.
  revert i q x. induction l as [|e l IH]; intros i q x E Hi Lx H; cbn [put_sges].
  - rewrite app_nil_r, <-E. by destruct q.
  - cbn [length] in H. unfold data_segment_offset.
    replace (Z.to_nat i * DATA_SIZE)%nat with (length x) by (unfold DATA_SIZE; lia).
    rewrite (put_segment_ok q _ _ _ E); last (rewrite splice_length, data_segment_length; lia).
    cbn [mbind outcome_bind]. rewrite splice_after by (rewrite data_segment_length; lia).
    rewrite (IH (i + 1) _ (x ++ data_segment e)); try done.
    + change (data_bytes (e :: l)) with (data_segment e ++ data_bytes l). by rewrite <-app_assoc.
    + lia.
    + rewrite length_app, data_segment_length. lia.
    + change (wqe_byte_offset (set_buffer _ q) _) with (wqe_byte_offset q (wq_head q)).
      rewrite length_app, data_segment_length. lia.
Qed.

Lemma recv_bytes_length q b l : recv_ring q b -> Z.of_nat (length l) <= max_gs q -> (length (recv_bytes q l) <= stride q)%nat.
Proof.
  intros [R G F _] L. pose proof (stride_spec q b R). unfold recv_bytes. rewrite length_app, data_bytes_length.
  destruct (Z.ltb_spec (Z.of_nat (length l)) (max_gs q)); simpl; lia.
Qed.

Lemma post_receive_one_spec wr q b : recv_ring q b -> Z.of_nat (length (r_sges wr)) <= max_gs q ->
  0 <= wq_tail q <= wq_head q -> wq_head q - wq_tail q + 1 < max_post q -> wq_head q + 1 <= U32_MAX ->
  let b' := splice b (offset q (wq_head q)) (recv_bytes q (r_sges wr)) in
  let m := <[Z.to_nat (wq_head q mod wqe_cnt q) := Some {| m_wr_id := r_wr_id wr; chain_size := 1 |}]> (meta q) in
  post_receive_one wr q = Ret (Ok tt, posted q b' m) /\ length b' = length b.
Proof.
  intros RR G T Ov U b' m. pose proof RR as [R Gs F Po]. pose proof (ring_cnt_pos q b R).
  pose proof (recv_bytes_length q b _ RR G) as Lr. pose proof (offset_room q b (wq_head q) R).
  split; [|by apply splice_length; lia]. unfold post_receive_one, would_overflow.
  rewrite sub32_ok by lia. cbn [mbind outcome_bind].
  rewrite (add32_ok (wq_head q - wq_tail q) 1) by (unfold U32_MAX in *; lia). cbn [mbind outcome_bind].
  destruct (Z.leb_spec (max_post q) (wq_head q - wq_tail q + 1)); [lia|].
  assert (W : wrap32 (Z.of_nat (length (r_sges wr))) = Z.of_nat (length (r_sges wr))).
  { unfold wrap32. apply Z.mod_small. destruct R as [_ S _ _ _].
    assert (2 ^ wqe_shift q <= 2 ^ 15) by (apply Z.pow_le_mono_r; lia). lia. }
  rewrite W. destruct (Z.ltb_spec (max_gs q) (Z.of_nat (length (r_sges wr)))); [lia|].
  pose proof R as [_ _ Hb _ _].
  pose proof (offset_spec q b (wq_head q) R) as Eo. pose proof (data_bytes_length (r_sges wr)) as Ld.
  unfold recv_bytes in Lr. rewrite length_app, Ld in Lr.
  rewrite (put_sges_spec (r_sges wr) 0 q b []); [|by rewrite Eo; unfold splice; simpl; rewrite Nat.add_0_r, take_drop|lia|done|simpl; lia].
  cbn [mbind outcome_bind app]. rewrite Eo.
  set (b1 := splice b _ _). assert (L1 : length b1 = length b) by (apply splice_length; lia).
  rewrite (update_meta_ok _ b1) by (by apply (set_buffer_ring q b)). cbn [mbind outcome_bind].
  change (max_gs (set_meta _ _)) with (max_gs q). unfold b', recv_bytes, m.
  destruct (Z.ltb_spec (Z.of_nat (length (r_sges wr))) (max_gs q)).
  - unfold data_segment_offset. change (wqe_byte_offset (set_meta _ _) _) with (wqe_byte_offset q (wq_head q)).
    rewrite Eo, Nat2Z.id. unfold DATA_SIZE. rewrite (Nat.mul_comm (length _)), <-Ld.
    rewrite (put_segment_ok _ b1) by (done || simpl; simpl in Lr; lia). cbn [mbind outcome_bind].
    unfold b1. rewrite splice_after by (simpl; simpl in Lr; lia). unfold posted, wrap32. simpl.
    rewrite Z.mod_small by (unfold U32_MAX in *; lia). done.
  - cbn [mbind outcome_bind]. unfold posted, wrap32. simpl.
    rewrite Z.mod_small by (unfold U32_MAX in *; lia). by rewrite app_nil_r.
Qed.
