(* ===== verification/Mlx4Cq.v ===== *)
(** * Completion queues of the mlx4 provider
      ([os/library/ibverbs/src/provider/mlx4/completion_queue.rs], [mod.rs])

    The adapter writes completion queue entries (CQEs) of 32 bytes into a ring; the code polls
    them without a system call and resolves each to the work request it completes. *)

From S2P Require Import Prelude Verbs Bytes Mlx4Qp.

Open Scope Z_scope.

(** ** Entries *)

Definition CQE_SIZE : nat := 32.

(** The fields of the [bitfield] struct, in the order of its bytes, the most significant bit
    first. *)
(* [os/library/ibverbs/src/provider/mlx4/completion_queue.rs:281-306] CompletionQueueEntry *)
Record CompletionQueueEntry := {
  qp_number : Z; immed_rss_invalid : Z; cqe_g : bool; mlpath : Z; rqpn : Z; cqe_sl : Z; cqe_slid : Z;
  byte_cnt : Z; wqe_index : Z; checksum : Z; cqe_owner : Z; is_send : bool; cqe_opcode : Z
}.

Definition byte_at (b : list Z) (i : nat) : Z := default 0 (b !! i).

Definition parse_cqe (b : list Z) : CompletionQueueEntry :=
  {| qp_number := be_value (slice b 1 3);
     immed_rss_invalid := be_value (slice b 4 4);
     cqe_g := 128 <=? byte_at b 8;
     mlpath := byte_at b 8 mod 128;
     rqpn := be_value (slice b 9 3);
     cqe_sl := byte_at b 12 / 16;
     cqe_slid := be_value (slice b 14 2);
     byte_cnt := be_value (slice b 20 4);
     wqe_index := be_value (slice b 24 2);
     checksum := be_value (slice b 26 2);
     cqe_owner := byte_at b 31 / 128;
     is_send := 1 <=? (byte_at b 31 / 64) mod 2;
     cqe_opcode := byte_at b 31 mod 32 |}.

(* [os/library/ibverbs/src/provider/mlx4/completion_queue.rs:309-326] parse_syndrome *)
Definition parse_syndrome (s : Z) : WorkCompletionStatus :=
  if s =? 1 then LocalLengthError
  else if s =? 2 then LocalQpOperationError
  else if s =? 4 then LocalProtError
  else if s =? 5 then WrFlushError
  else if s =? 6 then MwBindError
  else if s =? 16 then BadResponseError
  else if s =? 17 then LocalAccessError
  else if s =? 18 then RemoteInvalidRequestError
  else if s =? 19 then RemoteAccessError
  else if s =? 20 then RemoteOperationError
  else if s =? 21 then TransportRetryExceededError
  else if s =? 22 then RnrRetryExceededError
  else if s =? 34 then RemoteAbortedErr
  else GeneralError.

(** ** The context and the queue *)

(** The registry of queue pairs of a context. *)
(* [os/library/ibverbs/src/provider/mlx4/mod.rs:29-46] Mlx4Context *)
Definition Registry := gmap Z QueuePair.

(* os/library/ibverbs/src/provider/mlx4/mod.rs: Mlx4Context::resolve_completion *)
Definition ctx_resolve_completion (qp_num wqe_index : Z) (send : bool) (qps : Registry)
  : outcome (option Z * Registry) :=
  match qps !! qp_num with
  | None => Ret (None, qps)
  | Some p =>
      '(r, p) ← qp_resolve_completion wqe_index send p;
      Ret (r, <[qp_num := p]> qps)
  end.

(** [update_ci] and [arm_ci] are the words of the doorbell record, [cq_doorbells] the values
    written to the doorbell register, the last one first. *)
(* [os/library/ibverbs/src/provider/mlx4/completion_queue.rs:28-36] CompletionQueue *)
Record CompletionQueue := {
  cq_number : Z;
  num_entries : Z;
  cq_buffer : list Z;
  update_ci : Z;
  arm_ci : Z;
  arm_sequence_number : Z;
  consumer_index : Z;
  cq_doorbells : list Z
}.

Definition set_consumer (ci db : Z) (q : CompletionQueue) : CompletionQueue :=
  {| cq_number := cq_number q; num_entries := num_entries q; cq_buffer := cq_buffer q;
     update_ci := db; arm_ci := arm_ci q; arm_sequence_number := arm_sequence_number q;
     consumer_index := ci; cq_doorbells := cq_doorbells q |}.
Definition set_cq_buffer (b : list Z) (q : CompletionQueue) : CompletionQueue :=
  {| cq_number := cq_number q; num_entries := num_entries q; cq_buffer := b;
     update_ci := update_ci q; arm_ci := arm_ci q; arm_sequence_number := arm_sequence_number q;
     consumer_index := consumer_index q; cq_doorbells := cq_doorbells q |}.

(** The doorbell register, from its most significant bits: consumer index, sequence number,
    command, number; the two indices in big-endian order, as [to_be() >> 8] gives. *)
Definition swap24 (z : Z) : Z := be_value (rev (be_bytes 3 z)).

(* [os/library/ibverbs/src/provider/mlx4/mod.rs:93-103] Mlx4Context::ring_cq_doorbell *)
Definition ring_cq_doorbell (num cmd cmd_sn ci : Z) : outcome Z :=
  rust_assert (num <? 2 ^ 24) "assertion failed: cq_number < 1 << 24";;
  rust_assert (cmd_sn <? 2 ^ 3) "assertion failed: cmd_sn < 1 << 3";;
  rust_assert (ci <? 2 ^ 24) "assertion failed: cq_consumer_index < 1 << 24";;
  Ret (Z.lor (Z.lor (swap24 num) (Z.shiftl (Z.land cmd 3) 24))
             (Z.lor (Z.shiftl (Z.land cmd_sn 3) 28) (Z.shiftl (swap24 ci) 32))).

Definition ARM_NEXT : Z := 2.

(* [os/library/ibverbs/src/provider/mlx4/completion_queue.rs:119-128] CompletionQueue::arm *)
Definition arm (q : CompletionQueue) : outcome CompletionQueue :=
  let sn := Z.land (arm_sequence_number q) 3 in
  let ci := Z.land (consumer_index q) 16777215 in
  db ← ring_cq_doorbell (cq_number q) ARM_NEXT sn ci;
  Ret {| cq_number := cq_number q; num_entries := num_entries q; cq_buffer := cq_buffer q;
         update_ci := update_ci q;
         arm_ci := Z.lor (Z.lor (Z.shiftl sn 28) (Z.shiftl ARM_NEXT 24)) ci;
         arm_sequence_number := arm_sequence_number q; consumer_index := consumer_index q;
         cq_doorbells := db :: cq_doorbells q |}.

(** [uverbs] is the system call that gives the ring to the adapter: it returns the number of
    the queue and the ring as the adapter leaves it. *)
(* [os/library/ibverbs/src/provider/mlx4/completion_queue.rs:71-113] CompletionQueue::create *)
Definition cq_create (mmap_buffer mmap_doorbell : bool) (uverbs : Z -> list Z -> result string (Z * list Z)) (min_num_entries : Z)
  : outcome (result string CompletionQueue) :=
  if min_num_entries <? 0 then Ret (Err "cq_entries must be positive")
  else
    n ← next_pow2 32 min_num_entries;
    let n := Z.max n 1 in
    if negb mmap_buffer then Ret (Err "failed to allocate CQE buffer")
    else if negb mmap_doorbell then Ret (Err "failed to allocate CQ doorbell")
    else
      let buf := replicate (next_multiple_of (Z.to_nat n * CQE_SIZE) PAGE_SIZE) 0 in
      match uverbs n buf with
      | Err e => Ret (Err e)
      | Ok (num, buf) =>
          q ← arm {| cq_number := num; num_entries := n; cq_buffer := buf; update_ci := 0; arm_ci := 0;
                     arm_sequence_number := 1; consumer_index := 0; cq_doorbells := [] |};
          Ret (Ok q)
      end.

(** The bytes of the entry of an index. *)
Definition cqe_bytes (q : CompletionQueue) (index : Z) : list Z :=
  slice (cq_buffer q) (Z.to_nat (Z.land index (num_entries q - 1)) * CQE_SIZE) CQE_SIZE.

(* [os/library/ibverbs/src/provider/mlx4/completion_queue.rs:248-267] CompletionQueue::get_cqe_sw *)
Definition get_cqe_sw (q : CompletionQueue) (index : Z) : option CompletionQueueEntry :=
  let e := parse_cqe (cqe_bytes q index) in
  if cqe_owner e =? Z.land (index / num_entries q) 1 then Some e else None.

(** ** Polling *)

Definition CQE_OPCODE_ERROR : Z := 30.

(** The opcode of a send completion; [None] if [QueuePairOpcode] has no such value.  The flag
    says that the completion carries immediate data. *)
(* os/library/ibverbs/src/provider/mlx4/completion_queue.rs: CompletionQueue::poll_one *)
Definition send_completion (e : CompletionQueueEntry) (w : WorkCompletion) : option WorkCompletion :=
  let with_op o flags len :=
    {| wc_wr_id := wc_wr_id w; wc_status := wc_status w; wc_opcode := o; wc_vendor_err := wc_vendor_err w;
       wc_byte_len := len; wc_imm_data := wc_imm_data w; wc_qp_num := wc_qp_num w; wc_src_qp := wc_src_qp w;
       wc_flags := flags; wc_pkey_index := wc_pkey_index w; wc_slid := wc_slid w; wc_sl := wc_sl w;
       wc_dlid_path_bits := wc_dlid_path_bits w |} in
  let c := cqe_opcode e in
  if c =? 8 then Some (with_op WcRdmaWrite 0 0)
  else if c =? 9 then Some (with_op WcRdmaWrite IBV_WC_WITH_IMM 0)
  else if c =? 10 then Some (with_op WcSend 0 0)
  else if c =? 11 then Some (with_op WcSend IBV_WC_WITH_IMM 0)
  else if c =? 1 then Some (with_op WcSend 0 0)
  else if c =? 16 then Some (with_op WcRdmaRead 0 (byte_cnt e))
  else if (c =? 17) || (c =? 20) then Some (with_op WcCompareAndSwap 0 8)
  else if (c =? 18) || (c =? 21) then Some (with_op WcFetchAdd 0 8)
  else if c =? 27 then Some (with_op WcLocalInvalidate 0 0)
  else if (c =? 0) || (c =? 14) || (c =? 24) || (c =? 25) || (c =? 31) then Some w
  else None.

(** A receive completion. *)
(* os/library/ibverbs/src/provider/mlx4/completion_queue.rs: CompletionQueue::poll_one *)
Definition receive_completion (e : CompletionQueueEntry) (w : WorkCompletion) : outcome (option WorkCompletion) :=
  let finish o flags imm :=
    {| wc_wr_id := wc_wr_id w; wc_status := wc_status w; wc_opcode := o; wc_vendor_err := wc_vendor_err w;
       wc_byte_len := byte_cnt e; wc_imm_data := imm; wc_qp_num := wc_qp_num w; wc_src_qp := rqpn e;
       wc_flags := Z.lor flags (if cqe_g e then IBV_WC_GRH else 0);
       wc_pkey_index := Z.land (immed_rss_invalid e) 127; wc_slid := cqe_slid e; wc_sl := cqe_sl e;
       wc_dlid_path_bits := mlpath e |} in
  let c := cqe_opcode e in
  if c =? 0 then Ret (Some (finish WcRecvRdmaWithImm IBV_WC_WITH_IMM (immed_rss_invalid e)))
  else if c =? 1 then Ret (Some (finish WcRecv 0 0))
  else if c =? 2 then Ret (Some (finish WcRecv IBV_WC_WITH_IMM (immed_rss_invalid e)))
  else if c =? 3 then Panic "not yet implemented: set invalidate_rkey"
  else Ret None.

(** The completion with its request and status. *)
Definition wc_start (num wr_id : Z) (s : WorkCompletionStatus) (vendor : Z) : WorkCompletion :=
  {| wc_wr_id := wr_id; wc_status := s; wc_opcode := WcLocalInvalidate; wc_vendor_err := vendor;
     wc_byte_len := 0; wc_imm_data := 0; wc_qp_num := num; wc_src_qp := 0; wc_flags := 0;
     wc_pkey_index := 0; wc_slid := 0; wc_sl := 0; wc_dlid_path_bits := 0 |}.

(** The completion for an entry owned by software: [None] if its opcode is invalid. *)
(* [os/library/ibverbs/src/provider/mlx4/completion_queue.rs:139-238] CompletionQueue::poll_one *)
Definition complete (e : CompletionQueueEntry) (qps : Registry)
  : outcome (option WorkCompletion * Registry) :=
  '(r, qps) ← ctx_resolve_completion (qp_number e) (wqe_index e) (is_send e) qps;
  match r with
  | None => Ret (Some (wc_start (qp_number e) 0 GeneralError 0), qps)
  | Some wr_id =>
      if cqe_opcode e =? CQE_OPCODE_ERROR then
        Ret (Some (wc_start (qp_number e) wr_id (parse_syndrome (checksum e mod 256)) (checksum e / 256)), qps)
      else
        let w := wc_start (qp_number e) wr_id WcSuccess 0 in
        if is_send e then Ret (send_completion e w, qps)
        else w ← receive_completion e w; Ret (w, qps)
  end.

(** The result is the new completion, none if the entry is not owned by software, or an
    error. *)
(* [os/library/ibverbs/src/provider/mlx4/completion_queue.rs:134-242] CompletionQueue::poll_one *)
Definition poll_one (q : CompletionQueue) (index : Z) (qps : Registry)
  : outcome (result string (option WorkCompletion) * Registry) :=
  match get_cqe_sw q index with
  | None => Ret (Ok None, qps)
  | Some e =>
      '(w, qps) ← complete e qps;
      Ret (match w with Some w => Ok (Some w) | None => Err "invalid opcode" end, qps)
  end.

(** The loop of [poll], for at most [n] completions. *)
Fixpoint poll_loop (n : nat) (q : CompletionQueue) (qps : Registry)
  : outcome (result string (list WorkCompletion) * CompletionQueue * Registry) :=
  match n with
  | O => Ret (Ok [], q, qps)
  | S m =>
      '(r, qps) ← poll_one q (consumer_index q) qps;
      match r with
      | Err e => Ret (Err e, q, qps)
      | Ok None => Ret (Ok [], q, qps)
      | Ok (Some w) =>
          ci ← add32 (consumer_index q) 1;
          '(r, q, qps) ← poll_loop m (set_consumer ci (update_ci q) q) qps;
          Ret (match r with Ok ws => Ok (w :: ws) | Err e => Err e end, q, qps)
      end
  end.

(** An error keeps the consumer index reached but does not publish it. *)
(* [os/library/ibverbs/src/provider/mlx4/completion_queue.rs:47-61] CompletionQueue::poll *)
Definition poll (n : nat) (q : CompletionQueue) (qps : Registry)
  : outcome (result string (list WorkCompletion) * CompletionQueue * Registry) :=
  '(r, q, qps) ← poll_loop n q qps;
  match r with
  | Err e => Ret (Err e, q, qps)
  | Ok ws => Ret (Ok ws, set_consumer (consumer_index q) (Z.land (consumer_index q) 16777215) q, qps)
  end.
