(* ===== verification/Mlx4Card.v ===== *)
(** * The adapter, and an application's run on it

    The adapter is not part of the sources.  This file states what the code relies on: how the
    adapter reads work queue elements and which completion entries it writes.  An application
    with any number of queue pairs that share a completion queue posts and polls; the adapter
    works on the rings in between. *)

From S2P Require Import Prelude Verbs Bytes Mlx4Qp Mlx4QpProofs Mlx4Cq.

Open Scope Z_scope.

(** ** What the adapter reads *)

(** The ownership bit flips with every pass through the ring. *)
Definition pass (q : WorkQueue) (i : Z) : bool := Z.odd (i / wqe_cnt q).

(** The adapter takes the WQE of an index if its ownership bit is that of the pass. *)
Definition wqe_valid (q : WorkQueue) (b : list Z) (i : Z) : bool :=
  match b !! offset q i with
  | Some x => Bool.eqb (128 <=? x) (pass q i)
  | None => false
  end.

(** A send request as the adapter sees it, for connected queue pairs. *)
Record AdapterWqe := {
  a_owner : bool; a_opcode : Z; a_flags : Z; a_remote : option RemoteMemoryHeader;
  a_data : list ScatterGatherEntry
}.

Definition read_data (b : list Z) (off : nat) : ScatterGatherEntry :=
  {| sge_addr := be_value (slice b (off + 8) 8); sge_length := be_value (slice b off 4);
     sge_lkey := be_value (slice b (off + 4) 4) |}.

Fixpoint read_datas (n : nat) (b : list Z) (off : nat) : list ScatterGatherEntry :=
  match n with
  | O => []
  | S m => read_data b off :: read_datas m b (off + 16)
  end.

(** RDMA operations have a remote address segment; the second word of the control segment is
    the size of the request in units of 16 bytes. *)
Definition read_wqe (b : list Z) : AdapterWqe :=
  let word := be_value (slice b 0 4) in
  let opcode := word mod 32 in
  let size := Z.to_nat (be_value (slice b 4 4)) in
  let remote := (opcode =? 8) || (opcode =? 16) in
  {| a_owner := 2 ^ 31 <=? word;
     a_opcode := opcode;
     a_flags := be_value (slice b 8 4);
     a_remote := if remote then Some {| remote_addr := be_value (slice b 16 8); hdr_rkey := be_value (slice b 24 4) |}
                 else None;
     a_data := if remote then read_datas (size - 2) b 32 else read_datas (size - 1) b 16 |}.

(** A completion is requested by the two bits of [WQE_CQ_UPDATE]. *)
Definition wants_cqe (b : list Z) : bool := contains (be_value (slice b 8 4)) WQE_CQ_UPDATE.

(** ** What the adapter writes *)

(** Opcodes of completions for sends and for receives, and of errors. *)
Definition cqe_opcode_ok (send : bool) (c : Z) : bool :=
  if send then existsb (Z.eqb c) [0; 1; 8; 9; 10; 11; 14; 16; 17; 18; 20; 21; 24; 25; 27; 30; 31]
  else existsb (Z.eqb c) [0; 1; 2; 30].

(** An entry for request [i] of a queue of queue pair [n], at position [j] of the completion
    ring: the index is reported in 16 bits, the ownership bit is that of the pass. *)
Definition cqe_for (n : Z) (send : bool) (i : Z) (cq : CompletionQueue) (j : Z) (e : list Z) : Prop :=
  let c := parse_cqe e in
  length e = CQE_SIZE /\ qp_number c = n /\ is_send c = send /\ wqe_index c = i mod 65536 /\
  cqe_owner c = Z.land (j / num_entries cq) 1 /\ cqe_opcode_ok send (cqe_opcode c) = true.

(** The completion ring with an entry written at position [j]. *)
Definition write_cqe (cq : CompletionQueue) (j : Z) (e : list Z) : CompletionQueue :=
  set_cq_buffer (splice (cq_buffer cq) (Z.to_nat (j mod num_entries cq) * CQE_SIZE) e) cq.

(** ** Runs *)

(** What has happened on a queue pair: the requests posted to each queue, in order, and how
    many of them the adapter has taken. *)
Record Ghost := {
  g_sent : list SendWorkRequest; g_recvd : list ReceiveWorkRequest; g_csq : Z; g_crq : Z
}.

(** An entry the adapter has written: queue pair, queue, request, bytes. *)
Record Entry := { e_qp : Z; e_send : bool; e_index : Z; e_bytes : list Z }.

Record World := {
  w_qps : gmap Z QueuePair;
  w_ghost : gmap Z Ghost;
  w_cq : CompletionQueue;
  w_log : list Entry;
  w_polled : list WorkCompletion
}.

Definition set_node (n : Z) (p : QueuePair) (g : Ghost) (w : World) : World :=
  {| w_qps := <[n := p]> (w_qps w); w_ghost := <[n := g]> (w_ghost w); w_cq := w_cq w;
     w_log := w_log w; w_polled := w_polled w |}.

Definition produce (n : Z) (send : bool) (i : Z) (e : list Z) (w : World) : World :=
  {| w_qps := w_qps w; w_ghost := w_ghost w; w_cq := write_cqe (w_cq w) (Z.of_nat (length (w_log w))) e;
     w_log := w_log w ++ [{| e_qp := n; e_send := send; e_index := i; e_bytes := e |}];
     w_polled := w_polled w |}.

(** The requests of a call that were accepted: as many as the head moved by. *)
Definition accepted {A} (before after : WorkQueue) (wrs : list A) : list A :=
  take (Z.to_nat (wq_head after - wq_head before)) wrs.

Definition add_sent (l : list SendWorkRequest) (g : Ghost) : Ghost :=
  {| g_sent := g_sent g ++ l; g_recvd := g_recvd g; g_csq := g_csq g; g_crq := g_crq g |}.
Definition add_recvd (l : list ReceiveWorkRequest) (g : Ghost) : Ghost :=
  {| g_sent := g_sent g; g_recvd := g_recvd g ++ l; g_csq := g_csq g; g_crq := g_crq g |}.
Definition take_sq (g : Ghost) : Ghost :=
  {| g_sent := g_sent g; g_recvd := g_recvd g; g_csq := g_csq g + 1; g_crq := g_crq g |}.
Definition take_rq (g : Ghost) : Ghost :=
  {| g_sent := g_sent g; g_recvd := g_recvd g; g_csq := g_csq g; g_crq := g_crq g + 1 |}.

(** The indices do not wrap around in the run. *)
Definition far (q : WorkQueue) (n : nat) : Prop :=
  wq_head q + Z.of_nat n + default 0 (spare_wqes q) + 1 <= U32_MAX.

Definition sendable (wr : SendWorkRequest) : Prop := exists l opcode, supported wr l opcode.

(** The number of segments fits the [u32] it is converted to. *)
Definition receivable (wr : ReceiveWorkRequest) : Prop := Z.of_nat (length (r_sges wr)) <= U32_MAX.

Inductive wstep : World -> World -> Prop :=
| ws_post_send w n p g wrs r p' :
    w_qps w !! n = Some p -> w_ghost w !! n = Some g ->
    Forall sendable wrs -> far (sq p) (length wrs) -> post_send wrs p = Ret (r, p') ->
    wstep w (set_node n p' (add_sent (accepted (sq p) (sq p') wrs) g) w)
| ws_post_receive w n p g wrs r p' :
    w_qps w !! n = Some p -> w_ghost w !! n = Some g ->
    Forall receivable wrs -> far (rq p) (length wrs) -> post_receive wrs p = Ret (r, p') ->
    wstep w (set_node n p' (add_recvd (accepted (rq p) (rq p') wrs) g) w)
| ws_modify w n p g u s m :
    w_qps w !! n = Some p -> w_ghost w !! n = Some g ->
    wstep w (set_node n (modify u s m p).2 g w)
(** the adapter takes a send request that asks for no completion *)
| ws_send_silent w n p g b :
    w_qps w !! n = Some p -> w_ghost w !! n = Some g -> wq_buffer (sq p) = Some b ->
    wqe_valid (sq p) b (g_csq g) = true -> wants_cqe (wqe (sq p) b (g_csq g)) = false ->
    wstep w (set_node n p (take_sq g) w)
(** the adapter completes a send request *)
| ws_send w n p g b e :
    w_qps w !! n = Some p -> w_ghost w !! n = Some g -> wq_buffer (sq p) = Some b ->
    wqe_valid (sq p) b (g_csq g) = true -> wants_cqe (wqe (sq p) b (g_csq g)) = true ->
    cqe_for n true (g_csq g) (w_cq w) (Z.of_nat (length (w_log w))) e ->
    Z.of_nat (length (w_log w)) < consumer_index (w_cq w) + num_entries (w_cq w) ->
    wstep w (set_node n p (take_sq g) (produce n true (g_csq g) e w))
(** the adapter completes a receive request: there is one as long as its 16-bit counter
    differs from the doorbell record *)
| ws_receive w n p g e :
    w_qps w !! n = Some p -> w_ghost w !! n = Some g ->
    g_crq g mod 65536 <> receive_wqe_counter p ->
    cqe_for n false (g_crq g) (w_cq w) (Z.of_nat (length (w_log w))) e ->
    Z.of_nat (length (w_log w)) < consumer_index (w_cq w) + num_entries (w_cq w) ->
    wstep w (set_node n p (take_rq g) (produce n false (g_crq g) e w))
| ws_poll w k r cq qps :
    consumer_index (w_cq w) + Z.of_nat k <= U32_MAX ->
    poll k (w_cq w) (w_qps w) = Ret (r, cq, qps) ->
    wstep w {| w_qps := qps; w_ghost := w_ghost w; w_cq := cq; w_log := w_log w;
               w_polled := w_polled w ++ match r with Ok ws => ws | Err _ => [] end |}.

(** The request an entry completes. *)
Definition request_id (w : World) (e : Entry) : option Z :=
  g ← w_ghost w !! e_qp e;
  if e_send e then s_wr_id <$> g_sent g !! Z.to_nat (e_index e)
  else r_wr_id <$> g_recvd g !! Z.to_nat (e_index e).

(** The entries of one queue of one queue pair, by request. *)
Definition entries (n : Z) (send : bool) (l : list Entry) : list Z :=
  omap (fun e => if (e_qp e =? n) && Bool.eqb (e_send e) send then Some (e_index e) else None) l.

(** * The completion ring

    Polling sees exactly the entries the adapter has written and not yet seen, in order. *)

(** The ring holds the entries not yet polled, and the other slots carry the ownership bit of
    the pass before the one they are next used in. *)
Record cq_inv (q : CompletionQueue) (log : list Entry) : Prop := {
  ci_num : exists k, 0 <= k <= 31 /\ num_entries q = 2 ^ k;
  ci_room : num_entries q * 32 <= Z.of_nat (length (cq_buffer q));
  ci_order : 0 <= consumer_index q <= Z.of_nat (length log) /\
             Z.of_nat (length log) <= consumer_index q + num_entries q;
  ci_cqe : forall j e, consumer_index q <= Z.of_nat j -> log !! j = Some e ->
    cqe_bytes q (Z.of_nat j) = e_bytes e;
  ci_free : forall j, Z.of_nat (length log) <= j < consumer_index q + num_entries q ->
    cqe_owner (parse_cqe (cqe_bytes q j)) <> Z.land (j / num_entries q) 1
}.

Definition cqe_offset (q : CompletionQueue) (j : Z) : nat := (Z.to_nat (j mod num_entries q) * CQE_SIZE)%nat.

Lemma cq_num_pos q log : cq_inv q log -> 0 < num_entries q.
Proof. intros [(k & Hk & ->) _ _ _ _]. apply Z.pow_pos_nonneg; lia. Qed.

Lemma cqe_bytes_spec q log j : cq_inv q log -> cqe_bytes q j = slice (cq_buffer q) (cqe_offset q j) CQE_SIZE.
Proof.
  intros [(k & Hk & E) _ _ _ _]. unfold cqe_bytes, cqe_offset. rewrite E.
  replace (2 ^ k - 1) with (Z.ones k) by (rewrite Z.ones_equiv; lia). by rewrite Z.land_ones by lia.
Qed.

Lemma cqe_offset_room q log j : cq_inv q log -> (cqe_offset q j + CQE_SIZE <= length (cq_buffer q))%nat.
Proof.
  intros I. pose proof (cq_num_pos q log I). destruct I as [_ R _ _ _].
  pose proof (Z.mod_pos_bound j (num_entries q) ltac:(lia)). unfold cqe_offset, CQE_SIZE. lia.
Qed.

Lemma cqe_offset_disjoint q log i j : cq_inv q log -> i < j < i + num_entries q ->
  (cqe_offset q i + CQE_SIZE <= cqe_offset q j)%nat \/ (cqe_offset q j + CQE_SIZE <= cqe_offset q i)%nat.
Proof.
  intros I D. pose proof (cq_num_pos q log I) as P. unfold cqe_offset, CQE_SIZE.
  pose proof (Z.mod_pos_bound i (num_entries q) ltac:(lia)). pose proof (Z.mod_pos_bound j (num_entries q) ltac:(lia)).
  assert (i mod num_entries q <> j mod num_entries q).
  { intros E. assert (X : (j - i) mod num_entries q = 0) by (rewrite Zminus_mod, E, Z.sub_diag; by apply Z.mod_0_l; lia).
    rewrite Z.mod_small in X by lia. lia. }
  lia.
Qed.

(** The ownership bit flips from one pass to the next. *)
Lemma pass_flips j n : 0 < n -> Z.land ((j + n) / n) 1 <> Z.land (j / n) 1.
Proof.
  intros P. replace (j + n) with (j + 1 * n) by lia. rewrite Z.div_add by lia.
  assert (L : forall x, Z.land x 1 = x mod 2) by (intros x; change 1 with (Z.ones 1) at 1; by rewrite Z.land_ones by lia).
  rewrite !L, !Zmod_odd. rewrite Z.add_1_r, Z.odd_succ, <-Z.negb_odd. by destruct (Z.odd (j / n)).
Qed.

(** Writing the next entry. *)
Lemma cq_inv_produce q log n s i e : cq_inv q log -> length e = CQE_SIZE ->
  Z.of_nat (length log) < consumer_index q + num_entries q ->
  cq_inv (write_cqe q (Z.of_nat (length log)) e)
         (log ++ [{| e_qp := n; e_send := s; e_index := i; e_bytes := e |}]).
Proof.
  intros I Le Lt. pose proof (cqe_offset_room q log (Z.of_nat (length log)) I) as Rm.
  assert (Lb : length (cq_buffer (write_cqe q (Z.of_nat (length log)) e)) = length (cq_buffer q)).
  { unfold write_cqe. simpl. apply splice_length. fold (cqe_offset q (Z.of_nat (length log))). lia. }
  pose proof I as [N R O C F].
  assert (B : forall j, cqe_bytes (write_cqe q (Z.of_nat (length log)) e) j
      = slice (splice (cq_buffer q) (cqe_offset q (Z.of_nat (length log))) e) (cqe_offset q j) CQE_SIZE).
  { intros j. unfold cqe_bytes, cqe_offset, write_cqe. simpl. destruct N as (k & Hk & ->).
    replace (2 ^ k - 1) with (Z.ones k) by (rewrite Z.ones_equiv; lia). by rewrite Z.land_ones by lia. }
  assert (Other : forall j, (j < Z.of_nat (length log) < j + num_entries q \/ Z.of_nat (length log) < j < Z.of_nat (length log) + num_entries q) ->
            cqe_bytes (write_cqe q (Z.of_nat (length log)) e) j = cqe_bytes q j).
  { intros j Hj. rewrite B, (cqe_bytes_spec q log) by done. apply slice_splice_other; [lia|].
    destruct Hj as [Hj|Hj].
    - pose proof (cqe_offset_disjoint q log j (Z.of_nat (length log)) I Hj). lia.
    - pose proof (cqe_offset_disjoint q log (Z.of_nat (length log)) j I Hj). lia. }
  constructor; simpl.
  - done.
  - change (num_entries q * 32 <= Z.of_nat (length (cq_buffer (write_cqe q (Z.of_nat (length log)) e)))). by rewrite Lb.
  - rewrite length_app. simpl. lia.
  - intros j x Hj Ej. destruct (decide (j < length log)%nat).
    + rewrite lookup_app_l in Ej by done. rewrite Other by lia. by apply C.
    + assert (j = length log) as -> by (apply lookup_lt_Some in Ej; rewrite length_app in Ej; simpl in Ej; lia).
      rewrite lookup_app_r, Nat.sub_diag in Ej by lia. injection Ej as <-. rewrite B, <-Le. cbn [e_bytes]. apply slice_splice. rewrite Le. exact Rm.
  - intros j Hj. rewrite length_app in Hj. simpl in Hj. rewrite Other by lia. apply F. lia.
Qed.

(** Passing an entry. *)
Lemma cq_inv_consume q log ci db : cq_inv q log -> ci = consumer_index q + 1 -> ci <= Z.of_nat (length log) ->
  (forall e, log !! Z.to_nat (consumer_index q) = Some e ->
     cqe_owner (parse_cqe (e_bytes e)) = Z.land (consumer_index q / num_entries q) 1) ->
  cq_inv (set_consumer ci db q) log.
Proof.
  intros I -> L Ow. pose proof (cq_num_pos q log I) as P. pose proof I as [N R O C F].
  constructor; cbn [num_entries consumer_index cq_buffer set_consumer]; try done; [lia| |].
  - intros j e Hj Ej. apply (C j e); [lia|done].
  - intros j Hj. change (cqe_bytes (set_consumer _ _ q)) with (cqe_bytes q).
    destruct (decide (j = consumer_index q + num_entries q)) as [->|]; [|apply F; lia].
    destruct (lookup_lt_is_Some_2 log (Z.to_nat (consumer_index q))) as [e E]; [lia|].
    assert (S : cqe_bytes q (consumer_index q + num_entries q) = e_bytes e).
    { rewrite <-(C (Z.to_nat (consumer_index q)) e ltac:(lia) E). rewrite Z2Nat.id by lia. rewrite !(cqe_bytes_spec q log) by done.
      unfold cqe_offset. by rewrite <-(Z_mod_plus_full (consumer_index q) 1), Z.mul_1_l. }
    rewrite S, (Ow e E). apply not_eq_sym, pass_flips. lia.
Qed.

Lemma cq_inv_doorbell q log db : cq_inv q log -> cq_inv (set_consumer (consumer_index q) db q) log.
Proof. by intros [? ? ? ? ?]. Qed.

(** What polling sees at the consumer index. *)
Lemma get_cqe_sw_spec q log : cq_inv q log ->
  (forall e, log !! Z.to_nat (consumer_index q) = Some e ->
     cqe_owner (parse_cqe (e_bytes e)) = Z.land (consumer_index q / num_entries q) 1) ->
  get_cqe_sw q (consumer_index q) = (fun e => parse_cqe (e_bytes e)) <$> log !! Z.to_nat (consumer_index q).
Proof.
  intros I Ow. pose proof (cq_num_pos q log I). pose proof I as [N R O C F]. unfold get_cqe_sw.
  destruct (log !! Z.to_nat (consumer_index q)) as [e|] eqn:E.
  - pose proof (C (Z.to_nat (consumer_index q)) e ltac:(lia) E) as B. rewrite Z2Nat.id in B by lia. rewrite B, (Ow e eq_refl), Z.eqb_refl. done.
  - apply lookup_ge_None in E. specialize (F (consumer_index q) ltac:(lia)).
    apply Z.eqb_neq in F. by rewrite F.
Qed.
