(* ===== verification/Mlx4Run.v ===== *)
(** * Every completion reports the request it belongs to

    The invariant of a run: requests posted and not yet taken are in the ring as the adapter
    reads them, the slots ahead of the head are invalid, the metadata of every request that
    can still complete is in place, and the completion ring holds the entries not yet
    polled. *)

From S2P Require Import Prelude Verbs Bytes Mlx4Qp Mlx4QpProofs Mlx4Cq Mlx4Card.

Open Scope Z_scope.

(** ** Signaled requests *)

Definition signaled_at (l : list SendWorkRequest) (i : nat) : bool :=
  match l !! i with Some wr => signaled wr | None => false end.

(** The signaled requests before [n], by index, and the last of them. *)
Fixpoint sig_below (l : list SendWorkRequest) (n : nat) : list Z :=
  match n with
  | O => []
  | S m => sig_below l m ++ (if signaled_at l m then [Z.of_nat m] else [])
  end.

Fixpoint prev (l : list SendWorkRequest) (n : nat) : Z :=
  match n with
  | O => -1
  | S m => if signaled_at l m then Z.of_nat m else prev l m
  end.

(** The first request after those completed. *)
Definition after (d : list Z) : Z := match last d with Some i => i + 1 | None => 0 end.

Lemma prev_lt l n : -1 <= prev l n < Z.of_nat n.
Proof. induction n as [|m IH]; simpl; [lia|]. destruct (signaled_at l m); lia. Qed.

Lemma after_sig_below l n : after (sig_below l n) = prev l n + 1.
Proof.
  unfold after. induction n as [|m IH]; simpl; [done|].
  destruct (signaled_at l m); [by rewrite last_snoc|]. by rewrite app_nil_r.
Qed.

Lemma signaled_at_app l l' i : (i < length l)%nat -> signaled_at (l ++ l') i = signaled_at l i.
Proof. intros H. unfold signaled_at. by rewrite lookup_app_l. Qed.

Lemma sig_below_app l l' n : (n <= length l)%nat -> sig_below (l ++ l') n = sig_below l n.
Proof.
  induction n as [|m IH]; intros H; simpl; [done|]. rewrite IH, signaled_at_app by lia. done.
Qed.

Lemma prev_app l l' n : (n <= length l)%nat -> prev (l ++ l') n = prev l n.
Proof. induction n as [|m IH]; intros H; simpl; [done|]. by rewrite IH, signaled_at_app by lia. Qed.

(** The next signaled request after a prefix of them. *)
Lemma sig_below_next l n d i r : sig_below l n = d ++ i :: r ->
  exists k, i = Z.of_nat k /\ (k < n)%nat /\ signaled_at l k = true /\ prev l k = after d - 1.
Proof.
  revert r. induction n as [|m IH]; intros r E; simpl in E; [by destruct d|].
  destruct (signaled_at l m) eqn:Sm; last first.
  { rewrite app_nil_r in E. destruct (IH r E) as (k & ? & ? & ?). exists k. auto with lia. }
  destruct r as [|x r _] using rev_ind.
  - apply app_inj_tail in E as [E <-]. exists m. rewrite <-E, after_sig_below. repeat split; auto with lia.
  - rewrite app_comm_cons, app_assoc in E. apply app_inj_tail in E as [E _].
    destruct (IH r E) as (k & ? & ? & ?). exists k. auto with lia.
Qed.

Lemma after_snoc d i : after (d ++ [i]) = i + 1.
Proof. unfold after. by rewrite last_snoc. Qed.

(** ** Send queues *)

(** A request is in its slot as written, with the ownership bit of its pass. *)
Definition wqe_of (t : QueuePairType) (q : WorkQueue) (b : list Z) (i : Z) (wr : SendWorkRequest) : Prop :=
  exists l opcode, supported wr l opcode /\ Z.of_nat (length l) <= max_gs q /\
    slice b (offset q i) (wqe_size t (op wr) l) = be_bytes 4 (owner_word q i opcode) ++ body_bytes t wr l.

(** [l] are the requests posted, [c] is the next one the adapter takes, [f] the first one that
    can still complete. *)
Record send_inv (t : QueuePairType) (q : WorkQueue) (b : list Z) (sp : Z) (l : list SendWorkRequest) (c f : Z) : Prop := {
  si_ring : send_ring t q b sp;
  si_head : wq_head q = Z.of_nat (length l);
  si_far : wq_head q + sp + 1 <= U32_MAX;
  si_tail : 0 <= wq_tail q <= f;
  si_order : f <= c <= wq_head q;
  si_dist : wq_head q - wq_tail q < max_post q;
  si_meta : forall i wr, f <= Z.of_nat i -> l !! i = Some wr -> signaled wr = true ->
    exists chain, meta q !! Z.to_nat (Z.of_nat i mod wqe_cnt q)
                    = Some (Some {| m_wr_id := s_wr_id wr; chain_size := chain |})
                  /\ 1 <= chain <= Z.of_nat i - prev l i;
  si_wqe : forall i wr, c <= Z.of_nat i -> l !! i = Some wr -> wqe_of t q b (Z.of_nat i) wr;
  si_headroom : forall i, wq_head q <= i < wq_head q + sp -> b !! offset q i = Some (invalid_byte q i)
}.

Lemma send_inv_cnt t q b sp l c f : send_inv t q b sp l c f -> 1 <= wqe_cnt q <= 65536.
Proof. intros [[R _ _ _ _ _] _ _ _ _ _ _ _ _]. by apply (ring_cnt_pos q b). Qed.

Lemma posted_send_ring t q b sp b' m : send_ring t q b sp -> length b' = length b -> length m = length (meta q) ->
  send_ring t (posted q b' m) b' sp.
Proof.
  intros [[C S B Ro Me] Sp Rm P G F] L Lm. repeat constructor; try done; simpl; try lia.
Qed.

(** What stays of a WQE when its slot is not touched. *)
Lemma wqe_of_other t q b b' m i wr : wqe q b' i = wqe q b i -> (forall l, Z.of_nat (length l) <= max_gs q -> (wqe_size t (op wr) l <= stride q)%nat) ->
  wqe_of t q b i wr -> wqe_of t (posted q b' m) b' i wr.
Proof.
  intros E F (l & opcode & S & G & W). exists l, opcode. repeat split; try done; try apply S.
  change (offset (posted q b' m)) with (offset q). change (owner_word (posted q b' m)) with (owner_word q).
  rewrite <-W. specialize (F l G). unfold wqe in E.
  rewrite <-(Nat.add_0_r (offset q i)). rewrite <-!(slice_slice _ (offset q i) (stride q)) by lia. by rewrite E.
Qed.

Lemma offset_mod q i : offset q (i mod wqe_cnt q) = offset q i.
Proof. unfold offset. by rewrite Zmod_mod. Qed.

(** A request is accepted, or refused without any change. *)
Lemma post_send_one_total t wr l opcode chain q b sp :
  send_ring t q b sp -> supported wr l opcode -> 0 <= wq_tail q <= wq_head q ->
  wq_head q + sp <= U32_MAX -> chain + 1 <= U32_MAX ->
  (exists e, post_send_one t wr chain q = Ret (Err e, q)) \/
  (Z.of_nat (length l) <= max_gs q /\ wq_head q - wq_tail q + 1 < max_post q).
Proof.
  intros SR (P & N & O) T U C. pose proof (sr_gs _ _ _ _ SR). unfold post_send_one, would_overflow.
  rewrite sub32_ok, P by lia. cbn [mbind outcome_bind].
  pose proof (sr_room _ _ _ _ SR).
  rewrite (add32_ok (wq_head q - wq_tail q) 1) by (unfold U32_MAX in *; lia). cbn [mbind outcome_bind].
  destruct (Z.leb_spec (max_post q) (wq_head q - wq_tail q + 1)); [left; eauto|].
  destruct (Nat.ltb_spec (Z.to_nat (max_gs q)) (length l)); [left; eauto|]. right. lia.
Qed.

Lemma sent_meta_length wr chain q : length (sent_meta wr chain q) = length (meta q).
Proof. unfold sent_meta. destruct (signaled wr); [by rewrite length_insert|done]. Qed.

(** The metadata of the requests that can still complete, after one more is posted. *)
Lemma sent_meta_inv t q b sp l c f wr chain : send_inv t q b sp l c f ->
  wq_head q - wq_tail q + 1 < max_post q -> 1 <= chain <= wq_head q - prev l (length l) ->
  forall i wr', f <= Z.of_nat i -> (l ++ [wr]) !! i = Some wr' -> signaled wr' = true ->
    exists chain', sent_meta wr chain q !! Z.to_nat (Z.of_nat i mod wqe_cnt q)
                     = Some (Some {| m_wr_id := s_wr_id wr'; chain_size := chain' |})
                   /\ 1 <= chain' <= Z.of_nat i - prev (l ++ [wr]) i.
Proof.
  intros I Ov Ch i wr' Hf E Sg. pose proof (send_inv_cnt _ _ _ _ _ _ _ I) as Cn. pose proof I as [SR H F T O D M W Hr].
  pose proof SR as [R _ Ro Po _ _]. pose proof (ring_meta q b R) as Lm.
  pose proof (Z.mod_pos_bound (wq_head q) (wqe_cnt q) ltac:(lia)).
  unfold sent_meta. destruct (decide (i < length l)%nat) as [Li|Li].
  - rewrite lookup_app_l in E by done. destruct (M i wr' Hf E Sg) as (ch & Em & Hc). exists ch.
    rewrite prev_app by lia. split; [|done]. destruct (signaled wr); [|done].
    rewrite list_lookup_insert_ne; [done|].
    pose proof (slots_distinct q b (Z.of_nat i) (wq_head q) R ltac:(lia)) as Di.
    pose proof (Z.mod_pos_bound (Z.of_nat i) (wqe_cnt q) ltac:(lia)). lia.
  - assert (i = length l) as ->.
    { apply lookup_lt_Some in E. rewrite length_app in E. simpl in E. lia. }
    rewrite lookup_app_r, Nat.sub_diag in E by lia. injection E as <-. rewrite Sg. exists chain.
    rewrite <-H, prev_app by lia. split; [|done]. rewrite list_lookup_insert_eq; [done|lia].
Qed.

(** The WQEs in the ring, after one more is posted. *)
Lemma sent_wqe_inv t q b sp l c f wr b' m sges opcode : send_inv t q b sp l c f -> supported wr sges opcode ->
  Z.of_nat (length sges) <= max_gs q -> wq_head q - wq_tail q + 1 < max_post q ->
  slice b' (offset q (wq_head q)) (wqe_size t (op wr) sges) = be_bytes 4 (owner_word q (wq_head q) opcode) ++ body_bytes t wr sges ->
  (forall i, i mod wqe_cnt q <> wq_head q mod wqe_cnt q -> i mod wqe_cnt q <> (wq_head q + sp) mod wqe_cnt q ->
     wqe q b' i = wqe q b i) ->
  forall i wr', c <= Z.of_nat i -> (l ++ [wr]) !! i = Some wr' -> wqe_of t (posted q b' m) b' (Z.of_nat i) wr'.
Proof.
  intros I Su G Ov Hs Ho i wr' Hc E. pose proof (send_inv_cnt _ _ _ _ _ _ _ I) as Cn.
  pose proof I as [SR H F T O D M W Hr]. pose proof SR as [R _ Ro Po _ _].
  destruct (decide (i < length l)%nat) as [Li|Li].
  - rewrite lookup_app_l in E by done. apply (wqe_of_other t q b); [|intros k Hk; by apply (wqe_fits t wr' k q b sp)|by apply W].
    apply Ho.
    + apply (slots_distinct q b); [done|lia].
    + apply (slots_distinct q b); [done|lia].
  - assert (i = length l) as ->.
    { apply lookup_lt_Some in E. rewrite length_app in E. simpl in E. lia. }
    rewrite lookup_app_r, Nat.sub_diag in E by lia. injection E as <-. rewrite <-H. by exists sges, opcode.
Qed.

(** The invalid slots ahead of the head, after one more is posted. *)
Lemma sent_headroom_inv t q b sp l c f b' : send_inv t q b sp l c f ->
  b' !! offset q (wq_head q + sp) = Some (invalid_byte q (wq_head q + sp)) ->
  (forall i, i mod wqe_cnt q <> wq_head q mod wqe_cnt q -> i mod wqe_cnt q <> (wq_head q + sp) mod wqe_cnt q ->
     wqe q b' i = wqe q b i) ->
  forall i, wq_head q + 1 <= i < wq_head q + 1 + sp -> b' !! offset q i = Some (invalid_byte q i).
Proof.
  intros I Hs Ho i Hi. pose proof I as [SR H F T O D M W Hr]. pose proof SR as [R _ Ro Po _ _].
  destruct (decide (i = wq_head q + sp)) as [->|Ne]; [done|].
  rewrite <-(Hr i) by lia. pose proof (stride_ge q b R).
  assert (E : wqe q b' i = wqe q b i).
  { apply Ho.
    - apply not_eq_sym, (slots_distinct q b); [done|lia].
    - apply (slots_distinct q b); [done|lia]. }
  apply (f_equal (fun x => x !! 0%nat)) in E. unfold wqe in E. rewrite !slice_lookup in E.
  rewrite !decide_True, !Nat.add_0_r in E by lia. done.
Qed.

Lemma send_inv_post t wr chain q b sp l c f : send_inv t q b sp l c f -> sendable wr ->
  wq_head q + sp + 2 <= U32_MAX -> 1 <= chain <= wq_head q - prev l (length l) ->
  exists r q', post_send_one t wr chain q = Ret (r, q') /\
    match r with
    | Err _ => q' = q
    | Ok chain' => exists b', send_inv t q' b' sp (l ++ [wr]) c f /\ wq_head q' = wq_head q + 1 /\
        1 <= chain' <= wq_head q' - prev (l ++ [wr]) (length (l ++ [wr]))
    end.
Proof.
  intros I (sges & opcode & Su) Fa Ch. pose proof I as [SR H F T O D M W Hr]. pose proof SR as [R _ Ro Po _ _].
  pose proof (prev_lt l (length l)) as Pl.
  destruct (post_send_one_total t wr sges opcode chain q b sp SR Su) as [[e E]|[G Ov]]; try lia; [by exists (Err e), q|].
  destruct (post_send_one_spec t wr sges opcode chain q b sp SR Su G) as (b' & E & L & Hs & Hi & Ho); try lia.
  do 2 eexists. split; [exact E|]. simpl. exists b'. split; [|split; [done|]].
  - constructor; simpl; try lia.
    + apply (posted_send_ring t q b); try done. apply sent_meta_length.
    + rewrite length_app. simpl. lia.
    + apply (sent_meta_inv t q b sp l c f); done.
    + apply (sent_wqe_inv t q b sp l c f wr b' _ sges opcode); done.
    + apply (sent_headroom_inv t q b sp l c f); done.
  - rewrite length_app, Nat.add_1_r. simpl. unfold signaled_at.
    rewrite lookup_app_r, Nat.sub_diag by lia. simpl. destruct (signaled wr); [lia|].
    rewrite prev_app by lia. lia.
Qed.

Lemma send_inv_loop t wrs chain q b sp l c f : send_inv t q b sp l c f -> Forall sendable wrs ->
  wq_head q + Z.of_nat (length wrs) + sp + 1 <= U32_MAX -> 1 <= chain <= wq_head q - prev l (length l) ->
  exists r q' b' k, post_send_loop t wrs chain q = Ret (r, q') /\
    send_inv t q' b' sp (l ++ take k wrs) c f /\ wq_head q' = wq_head q + Z.of_nat k.
Proof.
  revert chain q b l. induction wrs as [|wr wrs IH]; intros chain q b l I Fs U Ch; cbn [post_send_loop].
  { exists (Ok tt), q, b, 0%nat. rewrite take_0, app_nil_r. split; [done|]. split; [exact I|]. lia. }
  apply Forall_cons in Fs as [Sw Fs]. cbn [length] in U.
  destruct (send_inv_post t wr chain q b sp l c f I Sw) as (r & q' & E & X); [lia|done|].
  rewrite E. cbn [mbind outcome_bind]. destruct r as [chain'|e].
  - destruct X as (b' & I' & H' & Ch').
    destruct (IH chain' q' b' (l ++ [wr]) I' Fs ltac:(lia) Ch') as (r & q'' & b'' & k & -> & I'' & H'').
    exists r, q'', b'', (S k). cbn [take]. rewrite <-app_assoc in I''. split; [done|]. split; [exact I''|]. lia.
  - subst q'. exists (Err e), q, b, 0%nat. rewrite take_0, app_nil_r. split; [done|]. split; [exact I|]. lia.
Qed.

Lemma far_spare t q b sp l c f n : send_inv t q b sp l c f -> far q n -> wq_head q + Z.of_nat n + sp + 1 <= U32_MAX.
Proof. intros [SR _ _ _ _ _ _ _ _] F. unfold far in F. rewrite (sr_spare _ _ _ _ SR) in F. simpl in F. lia. Qed.

(** Taking a request from the ring. *)
Lemma send_inv_take t q b sp l c f : send_inv t q b sp l c f -> wqe_valid q b c = true ->
  c < wq_head q /\ send_inv t q b sp l (c + 1) f.
Proof.
  intros I V. pose proof I as [SR H F T O D M W Hr]. pose proof SR as [R _ Ro _ _ _].
  assert (c < wq_head q).
  { destruct (decide (c = wq_head q)) as [->|]; [|lia]. exfalso.
    unfold wqe_valid, pass in V. rewrite (Hr (wq_head q)) in V by lia.
    unfold invalid_byte in V. rewrite <-Z.negb_odd in V. by destruct (Z.odd (wq_head q / wqe_cnt q)). }
  split; [done|]. constructor; try done; [lia|]. intros i wr Hi. apply W. lia.
Qed.

(** The flags of a WQE in the ring say whether the request is signaled. *)
Lemma control_flags_spec z : contains (control_flags z) WQE_CQ_UPDATE = contains z SEND_SIGNALED /\ 0 <= control_flags z < 2 ^ 32.
Proof.
  unfold control_flags. by destruct (contains z SEND_FENCE), (contains z SEND_SOLICITED), (contains z SEND_SIGNALED).
Qed.

Lemma wants_cqe_spec t q b sp l c f i wr : send_inv t q b sp l c f -> c <= Z.of_nat i -> l !! i = Some wr ->
  wants_cqe (wqe q b (Z.of_nat i)) = signaled wr.
Proof.
  intros I Hc E. pose proof I as [SR _ _ _ _ _ _ W _]. destruct (W i wr Hc E) as (s & opcode & Su & G & B).
  pose proof (wqe_fits t wr s q b sp SR G) as F. unfold wants_cqe, wqe, signaled.
  destruct (control_flags_spec (send_flags wr)) as [<- Hr].
  assert (16 <= wqe_size t (op wr) s)%nat by (unfold wqe_size; lia).
  rewrite slice_slice by lia. rewrite <-(slice_slice b (offset q (Z.of_nat i)) (wqe_size t (op wr) s)) by lia.
  rewrite B. unfold body_bytes. rewrite !slice_app_r by (rewrite !be_bytes_length; lia).
  rewrite !be_bytes_length. change (8 - 4 - 4)%nat with 0%nat. rewrite slice_app_l by (by rewrite be_bytes_length).
  by rewrite be_value_bytes.
Qed.

(** ** Completing a send request *)

Lemma slot_of_index q b i : ring q b -> 0 <= i -> slot q (i mod 65536) = i mod wqe_cnt q.
Proof.
  intros R Hi. rewrite (slot_spec q b) by done. destruct R as [(k & Hk & ->) _ _ _ _].
  change 65536 with (2 ^ 16). replace 16 with (k + (16 - k)) by lia. rewrite Z.pow_add_r by lia.
  rewrite Z.rem_mul_r by lia. rewrite (Z.mul_comm (2 ^ k)), Z_mod_plus_full. by apply Zmod_mod.
Qed.

Lemma check_wqe_index_same i q : exists d, check_wqe_index i q = set_divergence d q.
Proof.
  unfold check_wqe_index. destruct (divergence_reported q) eqn:D.
  - exists true. rewrite <-D. by destruct q.
  - destruct (slot q (wq_tail q) =? slot q i); [exists false; rewrite <-D; by destruct q | by exists true].
Qed.

Definition resolved (q : WorkQueue) (i : Z) (t : Z) (d : bool) : WorkQueue :=
  set_wq_tail t (set_meta (<[Z.to_nat (i mod wqe_cnt q) := None]> (meta q)) (set_divergence d q)).

Lemma wq_resolve_spec q b i wr_id chain : ring q b -> 0 <= i ->
  meta q !! Z.to_nat (i mod wqe_cnt q) = Some (Some {| m_wr_id := wr_id; chain_size := chain |}) ->
  wq_tail q + chain <= U32_MAX ->
  exists d, wq_resolve_completion (i mod 65536) q = Ret (Some wr_id, resolved q i (wq_tail q + chain) d).
Proof.
  intros R Hi M U. unfold wq_resolve_completion. destruct (check_wqe_index_same (i mod 65536) q) as [d ->].
  change (slot (set_divergence d q) (i mod 65536)) with (slot q (i mod 65536)). rewrite (slot_of_index q b) by done.
  change (meta (set_divergence d q)) with (meta q). rewrite (arr_get_ok _ _ _ M). cbn [mbind outcome_bind].
  change (wq_tail (set_divergence d q)) with (wq_tail q). rewrite add32_ok by done. by exists d.
Qed.

Lemma send_inv_resolve t q b sp l c d i r : send_inv t q b sp l c (after d) -> 0 <= c ->
  sig_below l (Z.to_nat c) = d ++ i :: r ->
  exists q' wr, wq_resolve_completion (i mod 65536) q = Ret (Some (s_wr_id wr), q') /\
    l !! Z.to_nat i = Some wr /\ send_inv t q' b sp l c (after (d ++ [i])).
Proof.
  intros I Hc E. destruct (sig_below_next l (Z.to_nat c) d i r E) as (k & -> & Hk & Sg & Pk).
  pose proof (send_inv_cnt _ _ _ _ _ _ _ I) as Cn. pose proof I as [SR H F T O D M W Hr].
  pose proof SR as [R Sp Ro Po Gs Fi]. pose proof (prev_lt l k) as Pl. rewrite after_snoc.
  unfold signaled_at in Sg. destruct (l !! k) as [wr|] eqn:El; [|done].
  destruct (M k wr ltac:(lia) El Sg) as (chain & Em & Hch).
  destruct (wq_resolve_spec q b (Z.of_nat k) (s_wr_id wr) chain R ltac:(lia) Em) as (dv & Er).
  { unfold U32_MAX in *. lia. }
  exists (resolved q (Z.of_nat k) (wq_tail q + chain) dv), wr. rewrite Nat2Z.id. split; [done|]. split; [done|].
  constructor; simpl; try lia; try done.
  - constructor; try done. destruct R as [C S B Rm Lm]. constructor; try done. simpl. by rewrite length_insert.
  - intros j wr' Hj Ej Sj. destruct (M j wr' ltac:(lia) Ej Sj) as (ch & Emj & Hcj). exists ch. split; [|done].
    rewrite list_lookup_insert_ne; [done|].
    assert (Lj : (j < length l)%nat) by (by apply lookup_lt_Some in Ej).
    pose proof (slots_distinct q b (Z.of_nat k) (Z.of_nat j) R ltac:(lia)) as Di.
    pose proof (Z.mod_pos_bound (Z.of_nat k) (wqe_cnt q) ltac:(lia)).
    pose proof (Z.mod_pos_bound (Z.of_nat j) (wqe_cnt q) ltac:(lia)). lia.
Qed.

(** ** Receive queues *)

(** [hd] is the head last published in the doorbell record. *)
Record recv_inv (q : WorkQueue) (b : list Z) (l : list ReceiveWorkRequest) (c hd f : Z) : Prop := {
  ri_ring : recv_ring q b;
  ri_spare : spare_wqes q = None;
  ri_head : wq_head q = Z.of_nat (length l);
  ri_far : wq_head q + 1 <= U32_MAX;
  ri_tail : wq_tail q = f /\ 0 <= f;
  ri_order : f <= c <= hd /\ hd <= wq_head q;
  ri_dist : wq_head q - wq_tail q < max_post q;
  ri_meta : forall i wr, f <= Z.of_nat i -> l !! i = Some wr ->
    meta q !! Z.to_nat (Z.of_nat i mod wqe_cnt q) = Some (Some {| m_wr_id := r_wr_id wr; chain_size := 1 |});
  ri_wqe : forall i wr, c <= Z.of_nat i -> l !! i = Some wr ->
    Z.of_nat (length (r_sges wr)) <= max_gs q /\
    slice b (offset q (Z.of_nat i)) (length (recv_bytes q (r_sges wr))) = recv_bytes q (r_sges wr)
}.

Lemma post_receive_one_total wr q b : recv_ring q b -> 0 <= wq_tail q <= wq_head q -> wq_head q + 1 <= U32_MAX ->
  receivable wr ->
  (exists e, post_receive_one wr q = Ret (Err e, q)) \/
  (Z.of_nat (length (r_sges wr)) <= max_gs q /\ wq_head q - wq_tail q + 1 < max_post q).
Proof.
  intros RR T U L. unfold post_receive_one, would_overflow.
  rewrite sub32_ok by lia. cbn [mbind outcome_bind].
  rewrite (add32_ok (wq_head q - wq_tail q) 1) by lia. cbn [mbind outcome_bind].
  destruct (Z.leb_spec (max_post q) (wq_head q - wq_tail q + 1)); [left; eauto|].
  unfold receivable, U32_MAX in *. unfold wrap32. rewrite Z.mod_small by lia.
  destruct (Z.ltb_spec (max_gs q) (Z.of_nat (length (r_sges wr)))); [left; eauto|]. right. lia.
Qed.

Lemma recv_inv_post wr q b l c hd f : recv_inv q b l c hd f -> receivable wr ->
  wq_head q + 2 <= U32_MAX ->
  exists r q', post_receive_one wr q = Ret (r, q') /\
    match r with
    | Err _ => q' = q
    | Ok _ => exists b', recv_inv q' b' (l ++ [wr]) c hd f /\ wq_head q' = wq_head q + 1
    end.
Proof.
  intros I Ls U. pose proof I as [RR Sp H F [T0 T1] O D M W]. pose proof RR as [R Gs Fi Po].
  destruct (post_receive_one_total wr q b RR ltac:(lia) ltac:(lia) Ls) as [[e E]|[G Ov]]; [by exists (Err e), q|].
  destruct (post_receive_one_spec wr q b RR G) as [E L]; try lia.
  pose proof (ring_cnt_pos q b R) as Cn. pose proof (recv_bytes_length q b _ RR G) as Lr.
  pose proof (offset_room q b (wq_head q) R) as Rm. pose proof (ring_meta q b R) as Lm.
  pose proof (Z.mod_pos_bound (wq_head q) (wqe_cnt q) ltac:(lia)) as Mh.
  do 2 eexists. split; [exact E|]. simpl. eexists. split; [|done].
  assert (Cases : forall i wr', (l ++ [wr]) !! i = Some wr' -> (i < length l)%nat /\ l !! i = Some wr' \/ i = length l /\ wr' = wr).
  { intros i wr' Ei. destruct (decide (i < length l)%nat); [left; by rewrite lookup_app_l in Ei|right].
    assert (i = length l) as -> by (apply lookup_lt_Some in Ei; rewrite length_app in Ei; simpl in Ei; lia).
    rewrite lookup_app_r, Nat.sub_diag in Ei by lia. by injection Ei. }
  constructor; simpl; try done; try lia.
  - constructor; try done. destruct R as [C S B Ro Me]. constructor; try done; simpl; [lia|]. by rewrite length_insert.
  - rewrite length_app. simpl. lia.
  - intros i wr' Hf Ei. destruct (Cases i wr' Ei) as [[Li El]|[-> ->]].
    + rewrite list_lookup_insert_ne; [by apply M|].
      pose proof (slots_distinct q b (Z.of_nat i) (wq_head q) R ltac:(lia)).
      pose proof (Z.mod_pos_bound (Z.of_nat i) (wqe_cnt q) ltac:(lia)). lia.
    + rewrite <-H. rewrite list_lookup_insert_eq; [done|lia].
  - intros i wr' Hc Ei. destruct (Cases i wr' Ei) as [[Li El]|[-> ->]].
    + destruct (W i wr' Hc El) as [Gi Wi]. split; [done|].
      pose proof (recv_bytes_length q b _ RR Gi).
      pose proof (offset_disjoint q b (Z.of_nat i) (wq_head q) R (slots_distinct q b (Z.of_nat i) (wq_head q) R ltac:(lia))).
      change (recv_bytes (posted _ _ _)) with (recv_bytes q). rewrite <-Wi at 2.
      apply slice_splice_other; [lia|]. change (offset (posted _ _ _)) with (offset q). lia.
    + split; [done|]. rewrite <-H. change (recv_bytes (posted _ _ _)) with (recv_bytes q).
      change (offset (posted _ _ _)) with (offset q). apply slice_splice. lia.
Qed.

Lemma recv_inv_loop wrs q b l c hd f : recv_inv q b l c hd f ->
  Forall receivable wrs -> wq_head q + Z.of_nat (length wrs) + 1 <= U32_MAX ->
  exists r q' b' k, post_receive_loop wrs q = Ret (r, q') /\
    recv_inv q' b' (l ++ take k wrs) c hd f /\ wq_head q' = wq_head q + Z.of_nat k /\
    (r = Ok tt -> k = length wrs).
Proof.
  revert q b l. induction wrs as [|wr wrs IH]; intros q b l I Fs U; cbn [post_receive_loop].
  { exists (Ok tt), q, b, 0%nat. rewrite take_0, app_nil_r. split; [done|]. split; [exact I|]. split; [lia|done]. }
  apply Forall_cons in Fs as [Sw Fs]. cbn [length] in U.
  destruct (recv_inv_post wr q b l c hd f I Sw) as (r & q' & E & X); [lia|].
  rewrite E. cbn [mbind outcome_bind]. destruct r as [[]|e].
  - destruct X as (b' & I' & H').
    destruct (IH q' b' (l ++ [wr]) I' Fs ltac:(lia)) as (r & q'' & b'' & k & -> & I'' & H'' & K'').
    exists r, q'', b'', (S k). cbn [take]. rewrite <-app_assoc in I''. split; [done|]. split; [exact I''|]. split; [lia|]. intros X. simpl. by rewrite (K'' X).
  - subst q'. exists (Err e), q, b, 0%nat. rewrite take_0, app_nil_r. split; [done|]. split; [exact I|]. split; [lia|done].
Qed.

Lemma recv_inv_take q b l c hd f : recv_inv q b l c hd f -> c <> hd -> c < wq_head q /\ recv_inv q b l (c + 1) hd f.
Proof.
  intros [RR Sp H F T O D M W] Ne. split; [lia|]. constructor; try done; [lia|]. intros i wr Hi. apply W. lia.
Qed.

Lemma recv_inv_publish q b l c hd f : recv_inv q b l c hd f -> recv_inv q b l c (wq_head q) f.
Proof. intros [RR Sp H F T O D M W]. constructor; try done. lia. Qed.

Lemma recv_inv_resolve q b l c hd f : recv_inv q b l c hd f -> f < c ->
  exists q' wr, wq_resolve_completion (f mod 65536) q = Ret (Some (r_wr_id wr), q') /\
    l !! Z.to_nat f = Some wr /\ recv_inv q' b l c hd (f + 1).
Proof.
  intros I Hf. pose proof I as [RR Sp H F [T0 T1] O D M W]. pose proof RR as [R Gs Fi Po].
  pose proof (ring_cnt_pos q b R) as Cn.
  destruct (lookup_lt_is_Some_2 l (Z.to_nat f)) as [wr El]; [lia|].
  pose proof (M (Z.to_nat f) wr ltac:(lia) El) as Em. rewrite Z2Nat.id in Em by lia.
  destruct (wq_resolve_spec q b f (r_wr_id wr) 1 R ltac:(lia) Em) as (dv & Er); [lia|].
  exists (resolved q f (wq_tail q + 1) dv), wr. split; [done|]. split; [done|].
  constructor; simpl; try lia; try done.
  - constructor; try done. destruct R as [C S B Rm Lm]. constructor; try done. simpl. by rewrite length_insert.
  - intros j wr' Hj Ej. rewrite list_lookup_insert_ne; [apply M; [lia|done]|].
    assert (Lj : (j < length l)%nat) by (by apply lookup_lt_Some in Ej).
    pose proof (slots_distinct q b f (Z.of_nat j) R ltac:(lia)) as Di.
    pose proof (Z.mod_pos_bound f (wqe_cnt q) ltac:(lia)).
    pose proof (Z.mod_pos_bound (Z.of_nat j) (wqe_cnt q) ltac:(lia)). lia.
Qed.
