(* ===== verification/Mlx4World.v ===== *)
(** * Runs of an application and the adapter

    Every completion an application polls reports the request it belongs to: the invariant of
    the queue pairs and of the completion ring together, kept by every step of a run. *)

From S2P Require Import Prelude Verbs Bytes Mlx4Qp Mlx4QpProofs Mlx4Cq Mlx4Card Mlx4Run.

Open Scope Z_scope.

(** ** The entries of a queue *)

Lemma entries_app n s l l' : entries n s (l ++ l') = entries n s l ++ entries n s l'.
Proof. unfold entries. by rewrite omap_app. Qed.

Lemma entries_other n s e : e_qp e <> n \/ e_send e <> s -> entries n s [e] = [].
Proof.
  intros H. unfold entries. simpl. destruct (Z.eqb_spec (e_qp e) n); simpl; [|done].
  destruct (Bool.eqb_spec (e_send e) s); [tauto|done].
Qed.

Lemma entries_same e : entries (e_qp e) (e_send e) [e] = [e_index e].
Proof. unfold entries. simpl. by rewrite Z.eqb_refl, Bool.eqb_reflx. Qed.

Lemma entries_cons n s e l : entries n s (e :: l) = entries n s [e] ++ entries n s l.
Proof. change (e :: l) with ([e] ++ l). apply entries_app. Qed.

(** ** The invariant *)

(** A queue pair, with all entries written and those polled. *)
Record node_inv (log dn : list Entry) (n : Z) (p : QueuePair) (g : Ghost) : Prop := {
  ni_number : number p = n /\ 0 <= n < 2 ^ 24;
  ni_send : exists b sp, send_inv (qp_type p) (sq p) b sp (g_sent g) (g_csq g) (after (entries n true dn));
  ni_sent : 0 <= g_csq g /\ entries n true log = sig_below (g_sent g) (Z.to_nat (g_csq g));
  ni_recv : exists b hd,
    recv_inv (rq p) b (g_recvd g) (g_crq g) hd (Z.of_nat (length (entries n false dn))) /\
    receive_wqe_counter p = hd mod 65536;
  ni_recvd : 0 <= g_crq g /\ entries n false log = seqZ 0 (g_crq g)
}.

(** The entries polled. *)
Definition polled_entries (w : World) : list Entry := take (Z.to_nat (consumer_index (w_cq w))) (w_log w).

Definition entry_status (e : CompletionQueueEntry) : WorkCompletionStatus :=
  if cqe_opcode e =? CQE_OPCODE_ERROR then parse_syndrome (checksum e mod 256) else WcSuccess.

(** A completion reports the queue pair, the request and the status of its entry. *)
Definition completes (w : World) (e : Entry) (c : WorkCompletion) : Prop :=
  wc_qp_num c = e_qp e /\ request_id w e = Some (wc_wr_id c) /\
  wc_status c = entry_status (parse_cqe (e_bytes e)).

Record world_inv (w : World) : Prop := {
  wi_nodes : forall n p, w_qps w !! n = Some p ->
    exists g, w_ghost w !! n = Some g /\ node_inv (w_log w) (polled_entries w) n p g;
  wi_log : forall j e, w_log w !! j = Some e ->
    is_Some (w_qps w !! e_qp e) /\
    cqe_for (e_qp e) (e_send e) (e_index e) (w_cq w) (Z.of_nat j) (e_bytes e);
  wi_cq : cq_inv (w_cq w) (w_log w);
  wi_polled : Forall2 (completes w) (polled_entries w) (w_polled w)
}.

(** Requests are only ever added. *)
Definition ghost_le (g g' : Ghost) : Prop :=
  (exists l, g_sent g' = g_sent g ++ l) /\ (exists l, g_recvd g' = g_recvd g ++ l).

Lemma completes_mono w w' e c : (forall n g, w_ghost w !! n = Some g -> exists g', w_ghost w' !! n = Some g' /\ ghost_le g g') ->
  completes w e c -> completes w' e c.
Proof.
  intros M (Q & R & S). split; [done|]. split; [|done]. revert R. unfold request_id.
  destruct (w_ghost w !! e_qp e) as [g|] eqn:G; [|done]. destruct (M _ _ G) as (g' & -> & (l & L) & (l' & L')).
  cbn. rewrite L, L'. destruct (e_send e); intros R.
  - apply fmap_Some in R as (x & E & ->). by rewrite (lookup_app_l_Some _ _ _ _ E).
  - apply fmap_Some in R as (x & E & ->). by rewrite (lookup_app_l_Some _ _ _ _ E).
Qed.

Lemma ghost_le_refl g g' : g_sent g' = g_sent g -> g_recvd g' = g_recvd g -> ghost_le g g'.
Proof. intros E1 E2. unfold ghost_le. rewrite E1, E2. split; exists []; by rewrite app_nil_r. Qed.

(** A step that changes one queue pair, and the log in a way that does not affect the others. *)
Lemma world_inv_change w w' n p g p' g' : world_inv w -> w_qps w !! n = Some p -> w_ghost w !! n = Some g ->
  w_qps w' = <[n := p']> (w_qps w) -> w_ghost w' = <[n := g']> (w_ghost w) -> ghost_le g g' ->
  polled_entries w' = polled_entries w -> w_polled w' = w_polled w ->
  (forall m q h, m <> n -> node_inv (w_log w) (polled_entries w) m q h -> node_inv (w_log w') (polled_entries w) m q h) ->
  node_inv (w_log w') (polled_entries w) n p' g' ->
  (forall j e, w_log w' !! j = Some e -> is_Some (w_qps w !! e_qp e) /\
     cqe_for (e_qp e) (e_send e) (e_index e) (w_cq w') (Z.of_nat j) (e_bytes e)) ->
  cq_inv (w_cq w') (w_log w') -> world_inv w'.
Proof.
  intros [Nd _ _ Po] P G Qs Gs Le Pe Pd Oth Ni Lg Cq. constructor; rewrite ?Pe, ?Pd; try done.
  - intros m q Q. rewrite Qs in Q. rewrite Gs. destruct (decide (m = n)) as [->|Ne].
    + rewrite lookup_insert_eq in Q. injection Q as <-. exists g'. rewrite lookup_insert_eq. done.
    + rewrite lookup_insert_ne in Q by done. destruct (Nd m q Q) as (h & H & I). exists h.
      rewrite lookup_insert_ne by done. auto.
  - intros j e E. destruct (Lg j e E) as [Q F]. split; [|done]. rewrite Qs.
    destruct (decide (e_qp e = n)) as [->|]; [by rewrite lookup_insert_eq|by rewrite lookup_insert_ne].
  - eapply Forall2_impl; [exact Po|]. intros e c. apply completes_mono. rewrite Gs. intros m h H.
    destruct (decide (m = n)) as [->|Ne].
    + exists g'. rewrite lookup_insert_eq. split; [done|]. by simplify_eq.
    + exists h. rewrite lookup_insert_ne by done. split; [done|]. by apply ghost_le_refl.
Qed.

(** ... and writes no entry. *)
Lemma world_inv_node w n p g p' g' : world_inv w -> w_qps w !! n = Some p -> w_ghost w !! n = Some g ->
  ghost_le g g' -> node_inv (w_log w) (polled_entries w) n p' g' -> world_inv (set_node n p' g' w).
Proof. intros I P G Le Ni. apply (world_inv_change w _ n p g p' g'); try done; apply I. Qed.

Lemma world_node w n p g : world_inv w -> w_qps w !! n = Some p -> w_ghost w !! n = Some g ->
  node_inv (w_log w) (polled_entries w) n p g.
Proof. intros [Nd _ _ _] P G. destruct (Nd n p P) as (h & H & I). by simplify_eq. Qed.

(** ** Posting *)

Lemma accepted_take {A} (q q' : WorkQueue) (wrs : list A) k : wq_head q' = wq_head q + Z.of_nat k ->
  accepted q q' wrs = take k wrs.
Proof. intros E. unfold accepted. f_equal. lia. Qed.

Lemma post_send_node log dn n p g wrs : node_inv log dn n p g -> Forall sendable wrs -> far (sq p) (length wrs) ->
  exists r p', post_send wrs p = Ret (r, p') /\
    node_inv log dn n p' (add_sent (accepted (sq p) (sq p') wrs) g).
Proof.
  intros I Fs Fa. pose proof I as [Nu (b & sp & Si) Se Re Rd]. unfold post_send.
  assert (Same : node_inv log dn n p (add_sent (accepted (sq p) (sq p) wrs) g)).
  { rewrite (accepted_take _ _ _ 0) by lia. rewrite take_0. unfold add_sent. rewrite app_nil_r. by destruct g. }
  destruct (bool_decide (state p = ReadyToSend)); simpl; [|eauto].
  destruct (length wrs =? 0)%nat; [eauto|].
  destruct (send_inv_loop (qp_type p) wrs 1 (sq p) b sp _ _ _ Si Fs (far_spare _ _ _ _ _ _ _ _ Si Fa)) as (r & q' & b' & k & E & Si' & Hd).
  { pose proof (prev_lt (g_sent g) (length (g_sent g))). rewrite (si_head _ _ _ _ _ _ _ Si). lia. }
  rewrite E. cbn [mbind outcome_bind].
  assert (Ni : forall d, node_inv log dn n {| qp_type := qp_type p; number := number p; state := state p; rq := rq p; sq := q';
                 receive_wqe_counter := receive_wqe_counter p; doorbells := d |} (add_sent (take k wrs) g)).
  { intros d. pose proof (si_head _ _ _ _ _ _ _ Si). pose proof (si_order _ _ _ _ _ _ _ Si).
    constructor; simpl; try done; [by exists b', sp|]. split; [lia|]. rewrite sig_below_app by lia. apply Se. }
  rewrite <-(accepted_take (sq p) q' wrs k) in Ni by done.
  destruct r as [[]|e].
  - unfold ring_qp_doorbell. simpl. destruct (Z.ltb_spec (number p) (2 ^ 24)); [|simpl in *; lia].
    simpl. do 2 eexists. split; [done|]. apply Ni.
  - do 2 eexists. split; [done|]. apply Ni.
Qed.

Lemma far_receive q b l c hd f n : recv_inv q b l c hd f -> far q n -> wq_head q + Z.of_nat n + 1 <= U32_MAX.
Proof. intros I F. unfold far in F. rewrite (ri_spare _ _ _ _ _ _ I) in F. simpl in F. lia. Qed.

Lemma post_receive_node log dn n p g wrs : node_inv log dn n p g -> Forall receivable wrs -> far (rq p) (length wrs) ->
  exists r p', post_receive wrs p = Ret (r, p') /\
    node_inv log dn n p' (add_recvd (accepted (rq p) (rq p') wrs) g).
Proof.
  intros I Fs Fa. pose proof I as [Nu Si Se (b & hd & Ri & Co) Rd]. unfold post_receive.
  destruct (bool_decide (state p = ReadyToReceive) || bool_decide (state p = ReadyToSend)) eqn:St; cbn [negb]; last first.
  { do 2 eexists. split; [done|]. rewrite (accepted_take _ _ _ 0) by lia. rewrite take_0.
    unfold add_recvd. rewrite app_nil_r. by destruct g. }
  destruct (recv_inv_loop wrs (rq p) b _ _ _ _ Ri Fs (far_receive _ _ _ _ _ _ _ Ri Fa)) as (r & q' & b' & k & E & Ri' & Hd & _).
  rewrite E. cbn [mbind outcome_bind]. assert (Ac : accepted (rq p) q' wrs = take k wrs) by by apply accepted_take.
  assert (Ni : forall c h, c = h mod 65536 -> recv_inv q' b' (g_recvd g ++ take k wrs) (g_crq g) h (Z.of_nat (length (entries n false dn))) ->
     node_inv log dn n (set_counter c (set_rq q' p)) (add_recvd (accepted (rq p) q' wrs) g)).
  { intros c h -> R. rewrite Ac. constructor; simpl; try done. by exists b', h. }
  assert (Keep : node_inv log dn n (set_rq q' p) (add_recvd (accepted (rq p) q' wrs) g)).
  { apply (Ni _ hd Co Ri'). }
  destruct r as [[]|e]; [|eauto]. destruct (length wrs =? 0)%nat; [eauto|].
  do 2 eexists. split; [done|]. simpl. apply (Ni _ (wq_head q')).
  - change 65535 with (Z.ones 16). by rewrite Z.land_ones by lia.
  - by apply (recv_inv_publish q' b' _ _ hd).
Qed.

(** ** The adapter *)

(** What the adapter takes is a request posted. *)
Lemma take_node log dn n p g b : node_inv log dn n p g -> wq_buffer (sq p) = Some b -> wqe_valid (sq p) b (g_csq g) = true ->
  exists wr, g_sent g !! Z.to_nat (g_csq g) = Some wr /\ wqe_of (qp_type p) (sq p) b (g_csq g) wr /\
    wants_cqe (wqe (sq p) b (g_csq g)) = signaled wr /\
    exists sp, send_inv (qp_type p) (sq p) b sp (g_sent g) (g_csq g + 1) (after (entries n true dn)).
Proof.
  intros I B V. pose proof I as [Nu (b' & sp & Si) [C0 Se] Re Rd].
  assert (b' = b) as ->.
  { pose proof (ring_buffer _ _ (sr_ring _ _ _ _ (si_ring _ _ _ _ _ _ _ Si))) as B'. congruence. }
  destruct (send_inv_take _ _ _ _ _ _ _ Si V) as [Lt Si'].
  destruct (lookup_lt_is_Some_2 (g_sent g) (Z.to_nat (g_csq g))) as [wr E].
  { rewrite (si_head _ _ _ _ _ _ _ Si) in Lt. lia. }
  exists wr. split; [done|].
  pose proof (si_wqe _ _ _ _ _ _ _ Si (Z.to_nat (g_csq g)) wr ltac:(lia) E) as W.
  pose proof (wants_cqe_spec _ _ _ _ _ _ _ (Z.to_nat (g_csq g)) wr Si ltac:(lia) E) as C.
  rewrite Z2Nat.id in W, C by lia. split; [done|]. split; [done|]. by exists sp.
Qed.

Lemma sig_below_succ l c wr : 0 <= c -> l !! Z.to_nat c = Some wr ->
  sig_below l (Z.to_nat (c + 1)) = sig_below l (Z.to_nat c) ++ (if signaled wr then [c] else []).
Proof.
  intros H E. replace (Z.to_nat (c + 1)) with (S (Z.to_nat c)) by lia. simpl. unfold signaled_at. rewrite E.
  by rewrite Z2Nat.id.
Qed.

(** Another entry in the log. *)
Lemma node_inv_log log dn n p g e : node_inv log dn n p g -> e_qp e <> n -> node_inv (log ++ [e]) dn n p g.
Proof.
  intros [Nu Si Se Re Rd] Ne. constructor; try done; rewrite entries_app, entries_other, app_nil_r; auto.
Qed.

(** A step in which the adapter writes an entry. *)
Lemma world_inv_produce w n p g g' s i e : world_inv w -> w_qps w !! n = Some p -> w_ghost w !! n = Some g ->
  ghost_le g g' -> cqe_for n s i (w_cq w) (Z.of_nat (length (w_log w))) e ->
  Z.of_nat (length (w_log w)) < consumer_index (w_cq w) + num_entries (w_cq w) ->
  node_inv (w_log w ++ [{| e_qp := n; e_send := s; e_index := i; e_bytes := e |}]) (polled_entries w) n p g' ->
  world_inv (set_node n p g' (produce n s i e w)).
Proof.
  intros I P G Le F Lt Ni. pose proof (wi_cq w I) as Cq. apply (world_inv_change w _ n p g p g'); try done; simpl.
  - unfold polled_entries. simpl. apply take_app_le. pose proof (ci_order _ _ Cq). lia.
  - intros m q h Ne. intros Nm. apply node_inv_log; [done|]. by apply not_eq_sym.
  - intros j x E. destruct (decide (j < length (w_log w))%nat).
    + rewrite lookup_app_l in E by done. by apply (wi_log w I).
    + assert (j = length (w_log w)) as -> by (apply lookup_lt_Some in E; rewrite length_app in E; simpl in E; lia).
      rewrite lookup_app_r, Nat.sub_diag in E by lia. injection E as <-. simpl. split; [by rewrite P|done].
  - apply cq_inv_produce; try done. apply F.
Qed.

Lemma send_silent_node log dn n p g b : node_inv log dn n p g -> wq_buffer (sq p) = Some b ->
  wqe_valid (sq p) b (g_csq g) = true -> wants_cqe (wqe (sq p) b (g_csq g)) = false ->
  node_inv log dn n p (take_sq g).
Proof.
  intros I B V Wn. destruct (take_node _ _ _ _ _ _ I B V) as (wr & E & _ & S & sp & Si). destruct I as [Nu _ [C0 Se] Re Rd].
  constructor; simpl; try done; [by exists b, sp|]. split; [lia|].
  rewrite (sig_below_succ _ _ wr) by done. rewrite <-S, Wn, app_nil_r. done.
Qed.

Lemma send_node log dn n p g b e : node_inv log dn n p g -> wq_buffer (sq p) = Some b ->
  wqe_valid (sq p) b (g_csq g) = true -> wants_cqe (wqe (sq p) b (g_csq g)) = true ->
  node_inv (log ++ [{| e_qp := n; e_send := true; e_index := g_csq g; e_bytes := e |}]) dn n p (take_sq g).
Proof.
  intros I B V Wn. destruct (take_node _ _ _ _ _ _ I B V) as (wr & E & _ & S & sp & Si). destruct I as [Nu _ [C0 Se] Re Rd].
  set (x := {| e_qp := n; e_send := true; e_index := g_csq g; e_bytes := e |}).
  constructor; simpl; try done; [by exists b, sp| |].
  - split; [lia|]. rewrite entries_app, (sig_below_succ _ _ wr), <-S, Wn, Se by done.
    by rewrite (entries_same x : entries n true [x] = [g_csq g]).
  - rewrite entries_app, (entries_other n false x), app_nil_r by (by right). done.
Qed.

Lemma receive_node log dn n p g e : node_inv log dn n p g -> g_crq g mod 65536 <> receive_wqe_counter p ->
  node_inv (log ++ [{| e_qp := n; e_send := false; e_index := g_crq g; e_bytes := e |}]) dn n p (take_rq g).
Proof.
  intros [Nu Si Se (b & hd & Ri & Co) [C0 Rd]] Ne.
  set (x := {| e_qp := n; e_send := false; e_index := g_crq g; e_bytes := e |}).
  assert (g_crq g <> hd) by (intros E; rewrite <-E in Co; done).
  destruct (recv_inv_take _ _ _ _ _ _ Ri H) as [_ Ri'].
  constructor; simpl; try done; [|by exists b, hd|].
  - rewrite entries_app, (entries_other n true x), app_nil_r by (by right). done.
  - split; [lia|]. rewrite entries_app, (entries_same x : entries n false [x] = [g_crq g]), Rd. symmetry.
    rewrite seqZ_app by lia. by f_equal.
Qed.

(** ** Polling *)

Lemma polled_split w e : world_inv w -> w_log w !! Z.to_nat (consumer_index (w_cq w)) = Some e ->
  exists rest, w_log w = polled_entries w ++ e :: rest.
Proof.
  intros I E. exists (drop (S (Z.to_nat (consumer_index (w_cq w)))) (w_log w)). unfold polled_entries.
  by rewrite take_drop_middle.
Qed.

(** The request of the next entry is resolved. *)
Lemma resolve_node log dn n p g e rest : node_inv log dn n p g -> log = dn ++ e :: rest -> e_qp e = n ->
  exists wr_id p', qp_resolve_completion (e_index e mod 65536) (e_send e) p = Ret (Some wr_id, p') /\
    (if e_send e then s_wr_id <$> g_sent g !! Z.to_nat (e_index e)
     else r_wr_id <$> g_recvd g !! Z.to_nat (e_index e)) = Some wr_id /\
    node_inv log (dn ++ [e]) n p' g.
Proof.
  intros [Nu (b & sp & Si) [C0 Se] (rb & hd & Ri & Co) [R0 Rd]] L Q. unfold qp_resolve_completion.
  destruct (e_send e) eqn:Es.
  - assert (D : sig_below (g_sent g) (Z.to_nat (g_csq g)) = entries n true dn ++ e_index e :: entries n true rest).
    { rewrite <-Se, L, entries_app, entries_cons. f_equal. rewrite <-Q, <-Es, entries_same. done. }
    destruct (send_inv_resolve _ _ _ _ _ _ _ _ _ Si C0 D) as (q' & wr & -> & Ew & Si').
    exists (s_wr_id wr), (set_sq q' p). split; [done|]. split; [by rewrite Ew|].
    assert (En : entries n true [e] = [e_index e]) by (rewrite <-Q, <-Es; apply entries_same).
    constructor; simpl; try done.
    + exists b, sp. by rewrite entries_app, En.
    + exists rb, hd. rewrite entries_app, entries_other, app_nil_r by (right; by rewrite Es). done.
  - assert (D : seqZ 0 (g_crq g) = entries n false dn ++ e_index e :: entries n false rest).
    { rewrite <-Rd, L, entries_app, entries_cons. f_equal. rewrite <-Q, <-Es, entries_same. done. }
    assert (K : seqZ 0 (g_crq g) !! length (entries n false dn) = Some (e_index e)) by (rewrite D; by apply list_lookup_middle).
    apply lookup_seqZ in K as [K1 K2]. rewrite Z.add_0_l in K1.
    destruct (recv_inv_resolve _ _ _ _ _ _ Ri K2) as (q' & wr & Er & Ew & Ri').
    rewrite K1, Er. exists (r_wr_id wr), (set_rq q' p). split; [done|]. split; [by rewrite Ew|].
    assert (En : entries n false [e] = [e_index e]) by (rewrite <-Q, <-Es; apply entries_same).
    constructor; simpl; try done.
    + exists b, sp. rewrite entries_app, entries_other, app_nil_r by (right; by rewrite Es). done.
    + exists rb, hd. split; [|done]. rewrite entries_app, En, length_app. simpl. by rewrite Nat2Z.inj_add.
Qed.

(** Other queue pairs do not see the entry polled. *)
Lemma node_inv_polled log dn n p g e : node_inv log dn n p g -> e_qp e <> n -> node_inv log (dn ++ [e]) n p g.
Proof.
  intros [Nu Si Se Re Rd] Ne. constructor; try done; rewrite entries_app, entries_other, app_nil_r; auto.
Qed.

(** The world after one more entry is polled. *)
Definition polled_one (w : World) (qps : gmap Z QueuePair) (c : WorkCompletion) : World :=
  {| w_qps := qps; w_ghost := w_ghost w;
     w_cq := set_consumer (consumer_index (w_cq w) + 1) (update_ci (w_cq w)) (w_cq w);
     w_log := w_log w; w_polled := w_polled w ++ [c] |}.

(** An entry of an opcode the code knows gives a completion with the same request. *)
Lemma known_opcode e wr_id (qps : Registry) : cqe_opcode_ok (is_send e) (cqe_opcode e) = true ->
  exists c,
    (if cqe_opcode e =? CQE_OPCODE_ERROR then
       Ret (Some (wc_start (qp_number e) wr_id (parse_syndrome (checksum e mod 256)) (checksum e / 256)), qps)
     else
       let w := wc_start (qp_number e) wr_id WcSuccess 0 in
       if is_send e then Ret (send_completion e w, qps)
       else w ← receive_completion e w; Ret (w, qps)) = Ret (Some c, qps) /\
    wc_qp_num c = qp_number e /\ wc_wr_id c = wr_id /\ wc_status c = entry_status e.
Proof.
  unfold entry_status, cqe_opcode_ok, send_completion, receive_completion, CQE_OPCODE_ERROR. intros O.
  destruct (is_send e); apply existsb_exists in O as (x & Hx & Ex); apply Z.eqb_eq in Ex as ->; simpl in Hx;
    repeat (destruct Hx as [<-|Hx]; [eexists; split; [reflexivity|done]|]); done.
Qed.

Lemma poll_entry w e : world_inv w -> w_log w !! Z.to_nat (consumer_index (w_cq w)) = Some e ->
  exists c qps, complete (parse_cqe (e_bytes e)) (w_qps w) = Ret (Some c, qps) /\ world_inv (polled_one w qps c).
Proof.
  intros I E. pose proof I as [Nd Lg Cq Po]. destruct (Lg _ _ E) as [[p P] (Le & Qn & Is & Ix & Ow & Op)].
  destruct (polled_split w e I E) as [rest L]. destruct (Nd _ _ P) as (g & G & Ni).
  destruct (resolve_node _ _ _ _ _ _ _ Ni L eq_refl) as (wr_id & p' & Er & Rq & Ni').
  unfold complete, ctx_resolve_completion, Registry. rewrite Qn, P, Ix, Is, Er. cbn [mbind outcome_bind].
  destruct (known_opcode (parse_cqe (e_bytes e)) wr_id (<[e_qp e := p']> (w_qps w))) as (c & Ec & Cq1 & Cq2 & Cq3).
  { by rewrite Is. }
  rewrite Qn, Is in Ec. exists c, (<[e_qp e := p']> (w_qps w)). split; [exact Ec|]. clear Ec.
  pose proof (ci_order _ _ Cq) as Or. pose proof (lookup_lt_Some _ _ _ E) as Lt.
  assert (Pe : polled_entries (polled_one w (<[e_qp e := p']> (w_qps w)) c) = polled_entries w ++ [e]).
  { unfold polled_entries. simpl. replace (Z.to_nat (consumer_index (w_cq w) + 1)) with (S (Z.to_nat (consumer_index (w_cq w)))) by lia.
    by apply take_S_r. }
  constructor; rewrite ?Pe; cbn [w_qps w_ghost w_cq w_log w_polled polled_one].
  - intros m q Q. destruct (decide (m = e_qp e)) as [->|Ne].
    + rewrite lookup_insert_eq in Q. injection Q as <-. eauto.
    + rewrite lookup_insert_ne in Q by done. destruct (Nd m q Q) as (h & H & Ih). exists h. split; [done|].
      apply node_inv_polled; [done|]. by apply not_eq_sym.
  - intros j x X. destruct (Lg j x X) as [Q F]. split; [|done].
    destruct (decide (e_qp x = e_qp e)) as [->|]; [by rewrite lookup_insert_eq|by rewrite lookup_insert_ne].
  - apply cq_inv_consume; try done; [lia|]. intros x X. rewrite E in X. injection X as <-.
    rewrite Ow. by rewrite Z2Nat.id by lia.
  - apply Forall2_app; [done|]. constructor; [|done]. split; [congruence|]. split; [|done].
    unfold request_id. simpl. rewrite G. simpl. rewrite Rq, Cq2. done.
Qed.

(** Polling returns the completions of the entries written, at most as many as asked for. *)
Lemma poll_loop_inv k w : world_inv w -> consumer_index (w_cq w) + Z.of_nat k <= U32_MAX ->
  exists cs cq qps, poll_loop k (w_cq w) (w_qps w) = Ret (Ok cs, cq, qps) /\
    consumer_index cq = consumer_index (w_cq w) + Z.of_nat (length cs) /\
    length cs = min k (length (w_log w) - Z.to_nat (consumer_index (w_cq w))) /\
    world_inv {| w_qps := qps; w_ghost := w_ghost w; w_cq := cq; w_log := w_log w; w_polled := w_polled w ++ cs |}.
Proof.
  revert w. induction k as [|k IH]; intros w I U; cbn [poll_loop].
  { exists [], (w_cq w), (w_qps w). rewrite app_nil_r. simpl. split; [done|]. split; [lia|]. split; [done|]. by destruct w. }
  pose proof (wi_cq w I) as Cq. pose proof (ci_order _ _ Cq) as Or.
  assert (Gs : get_cqe_sw (w_cq w) (consumer_index (w_cq w))
               = (fun e => parse_cqe (e_bytes e)) <$> w_log w !! Z.to_nat (consumer_index (w_cq w))).
  { apply get_cqe_sw_spec; [done|]. intros e E. destruct (wi_log w I _ _ E) as [_ (_ & _ & _ & _ & Ow & _)].
    rewrite Ow. by rewrite Z2Nat.id by lia. }
  unfold poll_one. rewrite Gs. destruct (w_log w !! Z.to_nat (consumer_index (w_cq w))) as [e|] eqn:E; cbn [fmap option_fmap option_map]; last first.
  { exists [], (w_cq w), (w_qps w). apply lookup_ge_None in E. rewrite app_nil_r. cbn [length mbind outcome_bind].
    split; [done|]. split; [lia|]. split; [lia|]. by destruct w. }
  pose proof (lookup_lt_Some _ _ _ E). destruct (poll_entry w e I E) as (c & qps & -> & I'). cbn [mbind outcome_bind].
  rewrite add32_ok by lia. cbn [mbind outcome_bind].
  destruct (IH (polled_one w qps c) I') as (cs & cq & qps' & Ep & Ec & Lc & I''); [simpl; lia|].
  cbn [w_cq w_qps polled_one] in Ep. rewrite Ep. cbn [mbind outcome_bind]. exists (c :: cs), cq, qps'.
  cbn [w_cq w_log polled_one consumer_index set_consumer w_polled w_ghost] in *. cbn [length].
  split; [done|]. split; [lia|]. split; [lia|]. by rewrite <-app_assoc in I''.
Qed.

Lemma poll_inv k w : world_inv w -> consumer_index (w_cq w) + Z.of_nat k <= U32_MAX ->
  exists cs cq qps, poll k (w_cq w) (w_qps w) = Ret (Ok cs, cq, qps) /\
    length cs = min k (length (w_log w) - Z.to_nat (consumer_index (w_cq w))) /\
    world_inv {| w_qps := qps; w_ghost := w_ghost w; w_cq := cq; w_log := w_log w; w_polled := w_polled w ++ cs |}.
Proof.
  intros I U. destruct (poll_loop_inv k w I U) as (cs & cq & qps & E & Ec & L & [Nd Lg Cq Po]).
  unfold poll. rewrite E. cbn [mbind outcome_bind]. do 3 eexists. split; [done|]. split; [done|].
  constructor; try done. by apply (cq_inv_doorbell cq).
Qed.

(** ** Every step *)

Lemma modify_node log dn n p g u s m : node_inv log dn n p g -> node_inv log dn n (modify u s m p).2 g.
Proof.
  intros I. unfold modify. destruct u as [[]|]; [|done]. simpl. destruct (contains m IBV_QP_STATE); [|done].
  by destruct I as [? ? ? ? ?].
Qed.

Lemma wstep_inv w w' : world_inv w -> wstep w w' -> world_inv w'.
Proof.
  intros I S. destruct S as [w n p g wrs r p' P G Fs Fa E|w n p g wrs r p' P G Fs Fa E|w n p g u s m P G
    |w n p g b P G B V Wn|w n p g b e P G B V Wn F Lt|w n p g e P G Ne F Lt|w k r cq qps U E].
  - pose proof (world_node w n p g I P G) as Ni. apply (world_inv_node w n p g); try done.
    + split; [by eexists|]. exists []. by rewrite app_nil_r.
    + destruct (post_send_node _ _ _ _ _ _ Ni Fs Fa) as (r' & p'' & E' & Ni').
      rewrite E in E'. by injection E' as <- <-.
  - pose proof (world_node w n p g I P G) as Ni. apply (world_inv_node w n p g); try done.
    + split; [|by eexists]. exists []. by rewrite app_nil_r.
    + destruct (post_receive_node _ _ _ _ _ _ Ni Fs Fa) as (r' & p'' & E' & Ni').
      rewrite E in E'. by injection E' as <- <-.
  - apply (world_inv_node w n p g); try done; [by apply ghost_le_refl|]. by apply modify_node, world_node.
  - apply (world_inv_node w n p g); try done; [by apply ghost_le_refl|].
    by apply (send_silent_node _ _ _ _ _ b); [apply world_node|..].
  - apply (world_inv_produce w n p g); try done; [by apply ghost_le_refl|].
    by apply (send_node _ _ _ _ _ b); [apply world_node|..].
  - apply (world_inv_produce w n p g); try done; [by apply ghost_le_refl|].
    by apply receive_node; [apply world_node|].
  - destruct (poll_inv k w I U) as (cs & cq' & qps' & E' & _ & I').
    rewrite E in E'. injection E' as -> -> ->. exact I'.
Qed.

Lemma run_inv w w' : world_inv w -> rtc wstep w w' -> world_inv w'.
Proof. intros I R. induction R as [|w w1 w2 S R IH]; [done|]. apply IH. by apply (wstep_inv w). Qed.
