(* ===== verification/Mlx4Read.v ===== *)
(** * What the adapter reads is what was posted

    The bytes of a work queue element decode to the request they were written for. *)

From S2P Require Import Prelude Verbs Bytes Mlx4Qp Mlx4QpProofs Mlx4Cq Mlx4Card Mlx4Run.

Open Scope Z_scope.

(** Fields have the widths of the code's types. *)
Definition sge_fields (e : ScatterGatherEntry) : Prop := u64 (sge_addr e) /\ u32 (sge_length e) /\ u32 (sge_lkey e).

Definition op_fields (o : SendOperation) : Prop :=
  match o with
  | OpRdmaRead h | OpRdmaWrite h => u64 (remote_addr h) /\ u32 (hdr_rkey h)
  | _ => True
  end.

Lemma control_flags_u32 z : u32 (control_flags z).
Proof. destruct (control_flags_spec z) as [_ H]. unfold u32, U32_MAX. lia. Qed.

Lemma be4 z : u32 z -> be_value (be_bytes 4 z) = z.
Proof. intros H. apply be_value_bytes. unfold u32, U32_MAX in H. simpl. lia. Qed.

Lemma be8 z : u64 z -> be_value (be_bytes 8 z) = z.
Proof. intros H. apply be_value_bytes. unfold u64, U64_MAX in H. simpl. lia. Qed.

(** A part of a known prefix. *)
Lemma slice_known b off x o n : slice b off (length x) = x -> (o + n <= length x)%nat -> slice b (off + o) n = slice x o n.
Proof. intros E H. rewrite <-E. by rewrite slice_slice. Qed.

Lemma slice_middle (x y z : list Z) : slice (x ++ y ++ z) (length x) (length y) = y.
Proof. rewrite slice_app_r by lia. rewrite Nat.sub_diag. by apply slice_app_l. Qed.

(** ** Data segments *)

Lemma read_data_spec b off e : sge_fields e -> slice b off 16 = data_segment e -> read_data b off = e.
Proof.
  intros (A & L & K) E. unfold read_data.
  rewrite (slice_known b off (data_segment e) 8 8), (slice_known b off (data_segment e) 4 4) by (exact E || (simpl; lia)).
  rewrite <-(Nat.add_0_r off), (slice_known b off (data_segment e) 0 4) by (exact E || (simpl; lia)).
  unfold data_segment. set (l4 := be_bytes 4 (sge_length e)). set (k4 := be_bytes 4 (sge_lkey e)). set (a8 := be_bytes 8 (sge_addr e)).
  replace (slice (l4 ++ k4 ++ a8) 8 8) with a8 by (by rewrite !slice_app_r by (simpl; lia)).
  replace (slice (l4 ++ k4 ++ a8) 4 4) with k4 by done. replace (slice (l4 ++ k4 ++ a8) 0 4) with l4 by done.
  unfold l4, k4, a8. rewrite !be4, be8 by done. by destruct e.
Qed.

Lemma read_datas_spec l b off : Forall sge_fields l -> slice b off (16 * length l) = data_bytes l ->
  read_datas (length l) b off = l.
Proof.
  intros F. revert off. induction F as [|e l He F IH]; intros off E; [done|]. cbn [length read_datas].
  change (data_bytes (e :: l)) with (data_segment e ++ data_bytes l) in E.
  assert (L : length (data_segment e ++ data_bytes l) = (16 * length (e :: l))%nat).
  { rewrite length_app, data_segment_length, data_bytes_length. cbn [length]. lia. }
  rewrite <-L in E.
  pose proof (slice_known b off _ 0 16 E) as E1. rewrite Nat.add_0_r in E1.
  pose proof (slice_known b off _ 16 (16 * length l) E) as E2.
  rewrite length_app, data_segment_length, data_bytes_length in E1, E2.
  f_equal.
  - apply read_data_spec; [done|]. rewrite E1 by lia. by rewrite slice_app_l.
  - apply IH. rewrite E2 by lia. rewrite slice_app_r by (rewrite data_segment_length; lia).
    rewrite data_segment_length. apply slice_all. by rewrite data_bytes_length.
Qed.

(** ** The first word *)

Lemma owner_word_spec t q b sp i opcode : send_ring t q b sp -> 0 <= opcode < 32 ->
  u32 (owner_word q i opcode) /\ owner_word q i opcode mod 32 = opcode /\
  (2 ^ 31 <=? owner_word q i opcode) = pass q i.
Proof.
  intros [R _ _ _ _ _] H. destruct R as [(k & Hk & E) _ _ _ _]. unfold owner_word, pass. rewrite E.
  assert (D : (Z.land i (2 ^ k) =? 0) = negb (Z.odd (i / 2 ^ k))).
  { rewrite <-Z.shiftr_div_pow2 by lia. rewrite <-Z.bit0_odd, Z.shiftr_spec by lia. rewrite Z.add_0_l.
    apply eq_true_iff_eq. rewrite Z.eqb_eq, negb_true_iff. split.
    - intros L. apply (f_equal (fun x => Z.testbit x k)) in L.
      by rewrite Z.land_spec, Z.pow2_bits_true, andb_true_r, Z.bits_0 in L by lia.
    - intros T. apply Z.bits_inj'. intros m Hm. rewrite Z.land_spec, Z.pow2_bits_eqb, Z.bits_0 by lia.
      destruct (Z.eqb_spec k m) as [->|]; [by rewrite T|by rewrite andb_false_r]. }
  rewrite D. destruct (Z.odd (i / 2 ^ k)); cbn [negb].
  - assert (L : Z.lor (2 ^ 31) opcode = 2 ^ 31 + opcode).
    { rewrite Z.add_nocarry_lxor, Z.lxor_lor; try done.
      all: apply Z.bits_inj'; intros m Hm; rewrite Z.land_spec, Z.pow2_bits_eqb, Z.bits_0 by lia;
        destruct (Z.eqb_spec 31 m) as [<-|]; [|done]; apply Z.bits_above_log2; [lia|];
        destruct (Z.eq_dec opcode 0) as [->|]; [done|]; assert (Z.log2 opcode < 5) by (apply Z.log2_lt_pow2; lia); lia. }
    rewrite L. unfold u32, U32_MAX. split; [lia|]. split; [|by apply Z.leb_le; lia].
    change (2 ^ 31) with (67108864 * 32). rewrite Z.add_comm, Z_mod_plus_full. by apply Z.mod_small.
  - rewrite Z.lor_0_l. unfold u32, U32_MAX. split; [lia|]. split; [by apply Z.mod_small|by apply Z.leb_gt; lia].
Qed.

(** ** Requests *)

Definition remote_of (o : SendOperation) : option RemoteMemoryHeader :=
  match o with OpRdmaRead h | OpRdmaWrite h => Some h | _ => None end.

(** What the adapter should see of a request. *)
Definition as_posted (q : WorkQueue) (i : Z) (wr : SendWorkRequest) (l : list ScatterGatherEntry) (opcode : Z) : AdapterWqe :=
  {| a_owner := pass q i; a_opcode := opcode; a_flags := control_flags (send_flags wr);
     a_remote := remote_of (op wr); a_data := l |}.

Lemma read_remote_spec b off h : u64 (remote_addr h) /\ u32 (hdr_rkey h) -> slice b off 16 = remote_segment h ->
  {| remote_addr := be_value (slice b off 8); hdr_rkey := be_value (slice b (off + 8) 4) |} = h.
Proof.
  intros [A K] E. rewrite (slice_known b off (remote_segment h) 8 4) by (exact E || (simpl; lia)).
  rewrite <-(Nat.add_0_r off), (slice_known b off (remote_segment h) 0 8) by (exact E || (simpl; lia)).
  unfold remote_segment. set (a8 := be_bytes 8 (remote_addr h)). set (k4 := be_bytes 4 (hdr_rkey h)).
  replace (slice (a8 ++ k4 ++ [0; 0; 0; 0]) 8 4) with k4 by done. replace (slice (a8 ++ k4 ++ [0; 0; 0; 0]) 0 8) with a8 by done.
  unfold a8, k4. rewrite be4, be8 by done. by destruct h.
Qed.

(** What follows the control segment, for connected queue pairs. *)
Lemma read_rest t o l x : t <> UD -> Forall sge_fields l -> op_fields o ->
  (forall k n, (16 + k + n <= wqe_size t o l)%nat -> slice x (16 + k) n = slice (extra_segment t o ++ data_bytes l) k n) ->
  let size := (wqe_size t o l / 16)%nat in
  match o with
  | OpRdmaRead h | OpRdmaWrite h =>
      {| remote_addr := be_value (slice x 16 8); hdr_rkey := be_value (slice x 24 4) |} = h /\
      read_datas (size - 2) x 32 = l
  | OpSend => read_datas (size - 1) x 16 = l
  | _ => True
  end.
Proof.
  intros Ht Fl Fo R. unfold wqe_size in *.
  assert (D : forall n, ((16 * n + 16 * length l) / 16 - n = length l)%nat).
  { intros n. rewrite <-Nat.mul_add_distr_l, Nat.mul_comm, Nat.div_mul by lia. lia. }
  assert (Rm : forall h, extra_segment t o = remote_segment h -> u64 (remote_addr h) /\ u32 (hdr_rkey h) ->
    {| remote_addr := be_value (slice x 16 8); hdr_rkey := be_value (slice x 24 4) |} = h /\
    read_datas ((16 * 2 + 16 * length l) / 16 - 2) x 32 = l).
  { intros h Eh Fh. rewrite Eh in R. change (length (remote_segment h)) with 16%nat in R. split.
    - apply (read_remote_spec x 16 h Fh). apply (R 0%nat 16%nat). lia.
    - rewrite D. apply read_datas_spec; [done|]. rewrite (R 16%nat) by lia. rewrite slice_app_r by done.
      apply slice_all. by rewrite data_bytes_length. }
  destruct o as [|h|h| |]; try done; simpl in Fo.
  - replace (extra_segment t OpSend) with (@nil Z) in * by (by destruct t).
    change (16 + length (@nil Z) + 16 * length l)%nat with (16 * 1 + 16 * length l)%nat. rewrite D.
    apply read_datas_spec; [done|]. rewrite (R 0%nat) by (simpl; lia). apply slice_all. by rewrite data_bytes_length.
  - assert (Eh : extra_segment t (OpRdmaRead h) = remote_segment h) by by destruct t.
    rewrite Eh. apply (Rm h Eh Fo).
  - assert (Eh : extra_segment t (OpRdmaWrite h) = remote_segment h) by by destruct t.
    rewrite Eh. apply (Rm h Eh Fo).
Qed.

Lemma read_wqe_spec t q b sp i wr l opcode x : send_ring t q b sp -> t <> UD -> supported wr l opcode ->
  Forall sge_fields l -> op_fields (op wr) -> Z.of_nat (wqe_size t (op wr) l) <= 2 ^ 15 ->
  slice x 0 (wqe_size t (op wr) l) = be_bytes 4 (owner_word q i opcode) ++ body_bytes t wr l ->
  read_wqe x = as_posted q i wr l opcode.
Proof.
  intros SR Ht (P & N & O) Fl Fo Sz E. set (w4 := be_bytes 4 (owner_word q i opcode)) in *.
  assert (Ho : 0 <= opcode < 32) by (destruct (op wr); simpl in O; simplify_eq; lia).
  destruct (owner_word_spec t q b sp i opcode SR Ho) as (U & M & Ow).
  assert (Len : length (w4 ++ body_bytes t wr l) = wqe_size t (op wr) l).
  { rewrite length_app, body_bytes_length. unfold w4. rewrite be_bytes_length. unfold wqe_size. lia. }
  rewrite <-Len in E.
  assert (K : forall o n, (o + n <= wqe_size t (op wr) l)%nat -> slice x o n = slice (w4 ++ body_bytes t wr l) o n).
  { intros o n H. rewrite <-Len in H. exact (slice_known x 0 _ o n E H). }
  assert (S0 : (16 <= wqe_size t (op wr) l)%nat) by (unfold wqe_size; lia).
  pose proof (read_rest t (op wr) l x Ht Fl Fo) as RR. set (size := (wqe_size t (op wr) l / 16)%nat) in *.
  assert (B0 : be_value (slice x 0 4) = owner_word q i opcode) by (rewrite K by lia; exact (be4 _ U)).
  assert (B1 : be_value (slice x 4 4) = Z.of_nat size).
  { rewrite K by lia. apply be4. unfold u32, U32_MAX.
    assert (size <= wqe_size t (op wr) l)%nat by (apply Nat.Div0.div_le_upper_bound; lia). lia. }
  assert (B2 : be_value (slice x 8 4) = control_flags (send_flags wr)) by (rewrite K by lia; exact (be4 _ (control_flags_u32 _))).
  unfold read_wqe, as_posted. rewrite B0, B1, B2, M, Ow, Nat2Z.id.
  specialize (RR (fun o n H => K (16 + o)%nat n H)). cbv zeta in RR.
  destruct (op wr) as [|h|h| |]; simpl in O; simplify_eq; cbn [remote_of].
  - change ((10 =? 8) || (10 =? 16)) with false. cbv iota. by rewrite RR.
  - change ((16 =? 8) || (16 =? 16)) with true. cbv iota. destruct RR as [-> ->]. done.
  - change ((8 =? 8) || (8 =? 16)) with true. cbv iota. destruct RR as [-> ->]. done.
Qed.
