(* ===== verification/Mlx4Create.v ===== *)
(** * New queue pairs

    The sizes that the code computes from the capabilities asked for make the rings fit their
    buffers, and a new queue pair has nothing the adapter could take. *)

From S2P Require Import Prelude Verbs Bytes Mlx4Qp Mlx4QpProofs Mlx4Cq Mlx4Card Mlx4Run Mlx4World.

Open Scope Z_scope.

Lemma next_pow2_spec bits m n : 1 <= n -> n <= 2 ^ m -> 0 <= m < bits ->
  exists k, next_pow2 bits n = Ret (2 ^ k) /\ n <= 2 ^ k /\ 0 <= k <= m /\ (1 < n -> 2 ^ (k - 1) < n).
Proof.
  intros H1 Hm Hb. exists (Z.log2_up n). pose proof (Z.log2_up_nonneg n).
  assert (Z.log2_up n <= m) by (by apply Z.log2_up_le_pow2; lia).
  assert (E : (if n <=? 1 then 1 else 2 ^ Z.log2_up n) = 2 ^ Z.log2_up n).
  { destruct (Z.leb_spec n 1); [|done]. by replace n with 1 by lia. }
  unfold next_pow2. rewrite E.
  assert (2 ^ Z.log2_up n < 2 ^ bits) by (apply Z.pow_lt_mono_r; lia).
  destruct (Z.ltb_spec (2 ^ Z.log2_up n) (2 ^ bits)); [|lia]. split; [done|].
  split; [|split; [lia|]].
  - destruct (Z.eq_dec n 1) as [->|]; [done|]. apply Z.log2_up_spec. lia.
  - intros Hn. rewrite Z.sub_1_r. apply Z.log2_up_spec. lia.
Qed.

Lemma to_width_ok bits n : n < 2 ^ bits -> to_width bits n = Ret n.
Proof. intros H. unfold to_width. by destruct (Z.ltb_spec n (2 ^ bits)); [|lia]. Qed.

(** ** Receive queues *)

(** Capabilities within the limits of the device. *)
Definition recv_limits (c : QueuePairCapabilities) : Prop := 0 <= max_recv_wr c <= 65503 /\ 0 <= max_recv_sge c <= 32.
Definition send_limits (c : QueuePairCapabilities) : Prop := 0 <= max_send_wr c <= 65503 /\ 1 <= max_send_sge c <= 32.

Definition u32_caps (c : QueuePairCapabilities) : Prop :=
  u32 (max_send_wr c) /\ u32 (max_recv_wr c) /\ u32 (max_send_sge c) /\ u32 (max_recv_sge c).

(** A new queue, before it has a buffer. *)
Record new_queue (q : WorkQueue) : Prop := {
  nq_cnt : exists k, 8 <= k <= 16 /\ wqe_cnt q = 2 ^ k;
  nq_shift : 4 <= wqe_shift q <= 10;
  nq_meta : meta q = replicate (Z.to_nat (wqe_cnt q)) None;
  nq_head : wq_head q = 0;
  nq_tail : wq_tail q = 0
}.

Lemma new_queue_cnt q : new_queue q -> 256 <= wqe_cnt q <= 65536.
Proof.
  intros [(k & Hk & ->) _ _ _ _]. change 256 with (2 ^ 8). change 65536 with (2 ^ 16).
  split; apply Z.pow_le_mono_r; lia.
Qed.

Lemma new_receive_queue_spec caps : recv_limits caps ->
  exists q, new_receive_queue mlx4_limits caps = Ret (Ok q) /\
    new_queue q /\ 1 <= max_gs q /\ max_gs q * 16 = 2 ^ wqe_shift q /\ 0 < max_post q <= wqe_cnt q /\ spare_wqes q = None /\
    max_recv_wr caps <= max_post q /\ max_recv_sge caps <= max_gs q.
Proof.
  intros [Hw Hs]. unfold new_receive_queue.
  change (sub32 _ IB_SQ_MAX_SPARE) with (Ret 65503). cbn [mbind outcome_bind].
  change (Z.shiftl 1 (log_max_rq_sge mlx4_limits)) with 32.
  destruct (Z.ltb_spec 65503 (max_recv_wr caps)); [lia|]. destruct (Z.ltb_spec 32 (max_recv_sge caps)); [lia|].
  cbn [orb].
  set (wr := if max_recv_wr caps <? 256 then 256 else max_recv_wr caps).
  assert (Hwr : 256 <= wr <= 65503 /\ max_recv_wr caps <= wr) by (unfold wr; destruct (Z.ltb_spec (max_recv_wr caps) 256); lia).
  set (gs := if max_recv_sge caps <? 1 then 1 else max_recv_sge caps).
  assert (Hgs : 1 <= gs <= 32 /\ max_recv_sge caps <= gs) by (unfold gs; destruct (Z.ltb_spec (max_recv_sge caps) 1); lia).
  destruct (next_pow2_spec 32 16 wr) as (k & -> & K1 & K2 & _); [lia..|]. cbn [mbind outcome_bind].
  destruct (next_pow2_spec 32 5 gs) as (j & -> & J1 & J2 & _); [lia..|]. cbn [mbind outcome_bind].
  assert (2 ^ j <= 2 ^ 5) by (apply Z.pow_le_mono_r; lia). pose proof (Z.pow_pos_nonneg 2 j).
  rewrite (mul32_ok (2 ^ j)) by (unfold U32_MAX, DATA_SIZE; lia). cbn [mbind outcome_bind].
  change (Z.of_nat DATA_SIZE) with (2 ^ 4). rewrite <-Z.pow_add_r, Z.log2_pow2 by lia.
  eexists. split; [done|]. simpl.
  assert (8 <= k). { destruct (Z.le_gt_cases 8 k); [done|]. assert (2 ^ k <= 2 ^ 7) by (apply Z.pow_le_mono_r; lia). lia. }
  split; [|repeat split; try done; try lia].
  - constructor; simpl; try done; [exists k; lia|lia].
  - change 16 with (2 ^ 4). by rewrite <-Z.pow_add_r by lia.
  - destruct (Z.ltb_spec (2 ^ k) 65503); lia.
  - destruct (Z.ltb_spec (2 ^ k) 65503); lia.
  - destruct (Z.ltb_spec (2 ^ k) 65503); lia.
Qed.

Lemma receive_queue_limits caps q : u32_caps caps -> new_receive_queue mlx4_limits caps = Ret (Ok q) -> recv_limits caps.
Proof.
  intros (_ & Hw & _ & Hs). unfold new_receive_queue, u32, U32_MAX in *.
  change (sub32 _ IB_SQ_MAX_SPARE) with (Ret 65503). cbn [mbind outcome_bind].
  change (Z.shiftl 1 (log_max_rq_sge mlx4_limits)) with 32. unfold recv_limits.
  destruct (Z.ltb_spec 65503 (max_recv_wr caps)); [done|]. destruct (Z.ltb_spec 32 (max_recv_sge caps)); [done|]. lia.
Qed.

(** ** Send queues *)

Lemma headroom_bounds k : 6 <= k <= 10 -> 3 <= ib_sq_headroom k <= 33.
Proof.
  intros H. unfold ib_sq_headroom, IB_MAX_HEADROOM. rewrite Z.shiftr_div_pow2 by lia. change 2048 with (2 ^ 11).
  rewrite <-Z.pow_sub_r by lia. assert (2 ^ 1 <= 2 ^ (11 - k) <= 2 ^ 5) by (split; apply Z.pow_le_mono_r; lia). lia.
Qed.

Lemma new_send_queue_spec caps t : send_limits caps ->
  exists q, new_send_queue mlx4_limits caps t = Ret (Ok q) /\
    new_queue q /\ 6 <= wqe_shift q /\ max_gs q * 16 + send_wqe_overhead t <= 2 ^ wqe_shift q /\
    (exists sp, spare_wqes q = Some sp /\ 0 < sp < wqe_cnt q /\ max_post q = wqe_cnt q - sp) /\
    max_send_wr caps <= max_post q /\ max_send_sge caps <= max_gs q.
Proof.
  intros [Hw Hs]. unfold new_send_queue.
  change (sub32 _ IB_SQ_MAX_SPARE) with (Ret 65503). cbn [mbind outcome_bind].
  change (Z.shiftl 1 (log_max_sq_sge mlx4_limits)) with 32. change (max_wqe_sq_size mlx4_limits) with 1024.
  destruct (Z.ltb_spec 65503 (max_send_wr caps)); [lia|]. destruct (Z.ltb_spec 32 (max_send_sge caps)); [lia|].
  cbn [orb].
  assert (Ho : 32 <= send_wqe_overhead t <= 64) by (destruct t; simpl; lia).
  assert (Hd : Z.of_nat DATA_SIZE = 16) by done. rewrite Hd.
  rewrite (mul32_ok (max_send_sge caps)) by (unfold U32_MAX; lia). cbn [mbind outcome_bind].
  rewrite (add32_ok _ (send_wqe_overhead t)) by (unfold U32_MAX; lia). cbn [mbind outcome_bind].
  set (size := max_send_sge caps * 16 + send_wqe_overhead t).
  rewrite (to_width_ok 16 size) by lia. cbn [mbind outcome_bind].
  destruct (Z.ltb_spec 1024 size); [lia|].
  destruct (next_pow2_spec 16 10 size) as (k & -> & K1 & K2 & K3); [lia..|]. cbn [mbind outcome_bind].
  rewrite Z.log2_pow2 by lia.
  assert (6 <= k). { destruct (Z.le_gt_cases 6 k); [done|]. assert (2 ^ k <= 2 ^ 5) by (apply Z.pow_le_mono_r; lia). lia. }
  pose proof (headroom_bounds k ltac:(lia)) as Hsp.
  set (sp := ib_sq_headroom k) in *.
  set (wr := if max_send_wr caps <? 256 then 256 else max_send_wr caps).
  assert (Hwr : 256 <= wr <= 65503 /\ max_send_wr caps <= wr) by (unfold wr; destruct (Z.ltb_spec (max_send_wr caps) 256); lia).
  rewrite (add32_ok wr sp) by (unfold U32_MAX; lia). cbn [mbind outcome_bind].
  destruct (next_pow2_spec 32 16 (wr + sp)) as (c & -> & C1 & C2 & _); [lia..|]. cbn [mbind outcome_bind].
  rewrite Z.shiftl_1_l. assert (Hk : 2 ^ k <= 2 ^ 10) by (apply Z.pow_le_mono_r; lia).
  rewrite (to_width_ok 16 (2 ^ k)) by lia. cbn [mbind outcome_bind].
  rewrite Z.min_r by lia. rewrite (sub32_ok (2 ^ k)) by lia. cbn [mbind outcome_bind].
  rewrite (sub32_ok (2 ^ c)) by lia. cbn [mbind outcome_bind].
  eexists. split; [done|]. simpl.
  pose proof (Z.mul_div_le (2 ^ k - send_wqe_overhead t) 16 ltac:(lia)).
  assert (8 <= c). { destruct (Z.le_gt_cases 8 c); [done|]. assert (2 ^ c <= 2 ^ 7) by (apply Z.pow_le_mono_r; lia). lia. }
  split; [|split; [lia|split; [lia|split; [exists sp; repeat split; lia|split; [lia|]]]]].
  - constructor; simpl; try done; [exists c; lia|lia].
  - apply Z.div_le_lower_bound; lia.
Qed.

Lemma send_queue_limits caps t q : u32_caps caps -> 1 <= max_send_sge caps ->
  new_send_queue mlx4_limits caps t = Ret (Ok q) -> send_limits caps.
Proof.
  intros (Hw & _ & Hs & _) H1. unfold new_send_queue, u32, U32_MAX in *.
  change (sub32 _ IB_SQ_MAX_SPARE) with (Ret 65503). cbn [mbind outcome_bind].
  change (Z.shiftl 1 (log_max_sq_sge mlx4_limits)) with 32. unfold send_limits.
  destruct (Z.ltb_spec 65503 (max_send_wr caps)); [done|]. destruct (Z.ltb_spec 32 (max_send_sge caps)); [done|]. lia.
Qed.

(** ** Buffers *)

Lemma new_queue_ring q b : new_queue q -> wq_buffer q = Some b -> wqe_cnt q * 2 ^ wqe_shift q <= Z.of_nat (length b) -> ring q b.
Proof.
  intros [(k & Hk & C) S M _ _] B R. constructor; try done; [exists k; split; [lia|done]|lia|].
  by rewrite M, length_replicate.
Qed.

Lemma new_queue_size q : new_queue q -> wq_size q = wqe_cnt q * 2 ^ wqe_shift q /\ 0 < wq_size q <= 2 ^ 26.
Proof.
  intros N. pose proof (new_queue_cnt q N). destruct N as [_ S _ _ _]. unfold wq_size, wrap32.
  rewrite Z.shiftl_mul_pow2 by lia.
  assert (0 < 2 ^ wqe_shift q) by (apply Z.pow_pos_nonneg; lia).
  assert (2 ^ wqe_shift q <= 2 ^ 10) by (apply Z.pow_le_mono_r; lia).
  assert (0 < wqe_cnt q * 2 ^ wqe_shift q <= 65536 * 2 ^ 10) by nia. rewrite Z.mod_small by lia. lia.
Qed.

Lemma next_multiple_ge n m : (0 < m)%nat -> (n <= next_multiple_of n m)%nat.
Proof.
  intros H. unfold next_multiple_of. pose proof (Nat.div_mod_eq (n + m - 1) m).
  pose proof (Nat.mod_upper_bound (n + m - 1) m). lia.
Qed.

(** Each part of the buffer holds its ring. *)
Lemma split_buffer_spec r s : new_queue r -> new_queue s ->
  exists br bs, split_buffer r s = Ret (set_buffer (Some br) r, set_buffer (Some bs) s) /\
    ring (set_buffer (Some br) r) br /\ ring (set_buffer (Some bs) s) bs.
Proof.
  intros Nr Ns. destruct (new_queue_size r Nr) as [Er Hr]. destruct (new_queue_size s Ns) as [Es Hs].
  unfold split_buffer. rewrite (add32_ok (wq_size r)) by (unfold U32_MAX; lia). cbn [mbind outcome_bind].
  set (buf := replicate _ _).
  assert (L : (Z.to_nat (wq_size r + wq_size s) <= length buf)%nat).
  { unfold buf. rewrite length_replicate. apply next_multiple_ge. unfold PAGE_SIZE. lia. }
  assert (R : forall q b, new_queue q -> (Z.to_nat (wq_size q) <= length b)%nat -> ring (set_buffer (Some b) q) b).
  { intros q b Nq Lb. destruct (new_queue_size q Nq) as [Eq Hq]. apply new_queue_ring; [|done|simpl; lia].
    by destruct Nq as [? ? ? ? ?]. }
  destruct (wqe_shift s <? wqe_shift r).
  - exists (take (Z.to_nat (wq_size r)) buf), (drop (Z.to_nat (wq_size r)) buf). split; [done|].
    split; apply R; try done; [rewrite length_take|rewrite length_drop]; lia.
  - exists (drop (Z.to_nat (wq_size s)) buf), (take (Z.to_nat (wq_size s)) buf). split; [done|].
    split; apply R; try done; [rewrite length_drop|rewrite length_take]; lia.
Qed.

(** Every send WQE is given to software. *)
Lemma init_send_wqes_spec n i q b : ring q b -> 0 <= i -> i + Z.of_nat n = wqe_cnt q ->
  (forall j, 0 <= j < i -> b !! offset q j = Some 255) ->
  exists b', init_send_wqes n i q = Ret (Ok (set_buffer (Some b') q)) /\ length b' = length b /\
    forall j, 0 <= j < wqe_cnt q -> b' !! offset q j = Some 255.
Proof.
  revert i q b. induction n as [|n IH]; intros i q b R Hi Hn H; cbn [init_send_wqes].
  { exists b. rewrite <-(ring_buffer q b R). split; [by destruct q|]. split; [done|]. intros j Hj. apply H. lia. }
  pose proof (stride_ge q b R). pose proof (offset_room q b i R).
  assert (GB : get_in_buffer q (offset q i) CONTROL_SIZE = Some b).
  { apply get_in_buffer_ok; [by apply ring_buffer|]. unfold CONTROL_SIZE. lia. }
  rewrite (offset_spec q b), GB by done. rewrite sub32_ok by apply (ring_shift q b R). cbn [mbind outcome_bind].
  set (x := be_bytes 4 (2 ^ 31) ++ be_bytes 4 (Z.shiftl 1 (wqe_shift q - 4))).
  assert (Lx : length x = 8%nat) by done.
  assert (Lb : length (splice b (offset q i) x) = length b) by (apply splice_length; lia).
  pose proof (set_buffer_ring q b (splice b (offset q i) x) R Lb) as R1.
  destruct (stamp_wqebb_spec _ _ i R1 Hi) as (b1 & -> & L1 & F1 & O1). cbn [mbind outcome_bind].
  rewrite set_buffer_twice.
  change (offset (set_buffer _ q)) with (offset q) in F1, O1. change (stride (set_buffer _ q)) with (stride q) in O1.
  destruct (IH (i + 1) (set_buffer (Some b1) q) b1) as (b' & -> & L' & F'); [|lia|simpl; lia| |].
  - apply (set_buffer_ring q b); [done|lia].
  - intros j Hj. change (offset (set_buffer _ q)) with (offset q). destruct (decide (j = i)) as [->|Ne].
    + rewrite F1. unfold invalid_byte. simpl. by rewrite Z.div_small by lia.
    + pose proof (offset_disjoint q b j i R (slots_distinct q b j i R ltac:(lia))).
      rewrite O1 by lia. rewrite splice_bytes_lookup by lia. rewrite decide_False by lia. apply H. lia.
  - exists b'. rewrite set_buffer_twice. split; [done|]. split; [lia|]. exact F'.
Qed.

(** ** Queue pairs *)

Definition no_requests : Ghost := {| g_sent := []; g_recvd := []; g_csq := 0; g_crq := 0 |}.

Lemma new_recv_inv q b : new_queue q -> ring (set_buffer (Some b) q) b -> 1 <= max_gs q ->
  max_gs q * 16 = 2 ^ wqe_shift q -> 0 < max_post q <= wqe_cnt q -> spare_wqes q = None ->
  recv_inv (set_buffer (Some b) q) b [] 0 0 0.
Proof.
  intros [C S M H T] R G F P Sp. constructor; simpl; try done; rewrite ?H, ?T; unfold U32_MAX; try done; try lia.
  constructor; simpl; try done; lia.
Qed.

Lemma new_send_inv t q b sp : new_queue q -> ring (set_buffer (Some b) q) b -> spare_wqes q = Some sp ->
  0 < sp < wqe_cnt q -> max_post q = wqe_cnt q - sp -> 0 <= max_gs q ->
  max_gs q * 16 + send_wqe_overhead t <= 2 ^ wqe_shift q ->
  (forall j, 0 <= j < wqe_cnt q -> b !! offset q j = Some 255) ->
  send_inv t (set_buffer (Some b) q) b sp [] 0 0.
Proof.
  intros N R Sp Rm P G F I. pose proof (new_queue_cnt q N) as Hc. destruct N as [C S M H T].
  constructor; simpl; try done; rewrite ?H, ?T; unfold U32_MAX; try done; try lia.
  intros i Hi. change (offset (set_buffer _ q)) with (offset q). rewrite I by lia.
  unfold invalid_byte. simpl. by rewrite Z.div_small by lia.
Qed.

(** A queue pair that holds what was asked for, and nothing the adapter could take. *)
Record new_pair (caps : QueuePairCapabilities) (t : QueuePairType) (n : Z) (p : QueuePair) : Prop := {
  np_type : qp_type p = t;
  np_number : number p = n;
  np_state : state p = StReset;
  np_sges : max_send_sge caps <= max_gs (sq p) /\ max_recv_sge caps <= max_gs (rq p);
  np_wrs : max_send_wr caps <= max_post (sq p) /\ max_recv_wr caps <= max_post (rq p);
  np_inv : 0 <= n < 2 ^ 24 -> node_inv [] [] n p no_requests
}.

(** The sizes given to the adapter describe the rings. *)
Definition request_fits (t : QueuePairType) (r : CreateQpRequest) : Prop :=
  req_qp_type r = t /\ 8 <= log_sq_bb_count r <= 16 /\ 8 <= log_rq_wqe_count r <= 16 /\
  6 <= log_sq_stride r <= 10 /\ 4 <= log_rq_stride r <= 10.

Lemma log_cnt q : new_queue q -> 8 <= Z.log2 (wqe_cnt q) <= 16.
Proof. intros [(k & Hk & ->) _ _ _ _]. by rewrite Z.log2_pow2 by lia. Qed.

Lemma qp_create_ok uverbs caps t scq rcq : recv_limits caps -> send_limits caps ->
  exists req, request_fits t req /\
    match uverbs req with
    | Err e => qp_create mlx4_limits true uverbs caps t scq rcq = Ret (Err e)
    | Ok n => exists p, qp_create mlx4_limits true uverbs caps t scq rcq = Ret (Ok p) /\ new_pair caps t n p
    end.
Proof.
  intros Rl Sl. unfold qp_create.
  destruct (new_receive_queue_spec caps Rl) as (r & -> & Nr & Gr & Fr & Pr & Sr & Cr). cbn [mbind outcome_bind].
  destruct (new_send_queue_spec caps t Sl) as (s & -> & Ns & Ss & Fs & (sp & Sp & Rs & Ps) & Cs). cbn [mbind outcome_bind].
  cbn [rust_assert mbind outcome_bind].
  destruct (split_buffer_spec r s Nr Ns) as (br & bs & -> & Rr & Rs'). cbn [mbind outcome_bind].
  pose proof (new_queue_cnt s Ns). destruct Sl as [_ Hsl].
  destruct (init_send_wqes_spec (Z.to_nat (wqe_cnt s)) 0 _ bs Rs') as (b' & Ei & L & F); [lia|simpl; lia|lia|].
  change (wqe_cnt (set_buffer (Some bs) s)) with (wqe_cnt s). rewrite Ei. cbn [mbind outcome_bind].
  match goal with |- context [uverbs ?r] => exists r end. split.
  { pose proof (log_cnt r Nr). pose proof (log_cnt s Ns). pose proof (nq_shift r Nr). pose proof (nq_shift s Ns).
    repeat split; simpl; lia. }
  destruct (uverbs _) as [n|e]; [|done].
  eexists. split; [done|]. constructor; simpl; try done; try lia. intros Hn.
  constructor; simpl; try done.
  - exists b', sp. rewrite set_buffer_twice. apply new_send_inv; try done; [|lia].
    rewrite <-(set_buffer_twice _ (Some bs)). by apply (set_buffer_ring _ bs).
  - exists br, 0. split; [|done]. by apply new_recv_inv.
Qed.

Lemma qp_create_node uverbs caps t scq rcq p : u32_caps caps -> 1 <= max_send_sge caps ->
  qp_create mlx4_limits true uverbs caps t scq rcq = Ret (Ok p) -> 0 <= number p < 2 ^ 24 ->
  node_inv [] [] (number p) p no_requests.
Proof.
  intros U Sg E Hn. destruct (qp_create_ok uverbs caps t scq rcq) as (req & _ & X).
  - unfold qp_create in E. destruct (new_receive_queue mlx4_limits caps) as [[r|]|] eqn:Er; [|done..].
    by apply (receive_queue_limits caps r).
  - unfold qp_create in E. destruct (new_receive_queue mlx4_limits caps) as [[r|]|]; [|done..]. cbn [mbind outcome_bind] in E.
    destruct (new_send_queue mlx4_limits caps t) as [[s|]|] eqn:Es; [|done..]. by apply (send_queue_limits caps t s).
  - destruct (uverbs req) as [n|e]; [|by rewrite E in X]. destruct X as (p' & E' & Np).
    rewrite E in E'. injection E' as <-. rewrite (np_number _ _ _ _ Np) in *. by apply (np_inv _ _ _ _ Np).
Qed.

(** ** Completion queues *)

(** The adapter keeps the size of the ring and takes every entry. *)
Definition takes_entries (uverbs : Z -> list Z -> result string (Z * list Z)) : Prop :=
  forall n b num b', uverbs n b = Ok (num, b') -> (Z.to_nat n * CQE_SIZE <= length b)%nat ->
    length b' = length b /\
    forall i, 0 <= i < n -> cqe_owner (parse_cqe (slice b' (Z.to_nat i * CQE_SIZE) CQE_SIZE)) = 1.

Lemma cq_create_inv uverbs n q : takes_entries uverbs -> n < 2 ^ 31 ->
  cq_create true true uverbs n = Ret (Ok q) -> cq_inv q [] /\ consumer_index q = 0 /\ next_pow2 32 n = Ret (num_entries q).
Proof.
  intros T Hn. unfold cq_create. destruct (Z.ltb_spec n 0) as [|N0]; [done|].
  assert (K : exists k, next_pow2 32 n = Ret (2 ^ k) /\ 0 <= k <= 31).
  { destruct (Z.eq_dec n 0) as [->|]; [by exists 0|].
    destruct (next_pow2_spec 32 31 n) as (k & E & _ & Hk & _); [lia..|]. by exists k. }
  destruct K as (k & Ek & Hk). rewrite Ek. cbn [mbind outcome_bind negb].
  assert (0 < 2 ^ k) by (apply Z.pow_pos_nonneg; lia). rewrite Z.max_l by lia.
  pose proof (next_multiple_ge (Z.to_nat (2 ^ k) * CQE_SIZE) PAGE_SIZE ltac:(unfold PAGE_SIZE; lia)) as G.
  destruct (uverbs (2 ^ k) _) as [[num buf]|] eqn:U; [|done].
  destruct (T _ _ _ _ U) as [L Ow]; [by rewrite length_replicate|].
  rewrite length_replicate in L. unfold arm. destruct (ring_cq_doorbell _ _ _ _) as [db|]; [|done].
  cbn [mbind outcome_bind]. intros E. injection E as <-. split; [|split; reflexivity].
  constructor; cbn [num_entries cq_buffer consumer_index length]; [by exists k| | | |].
  - rewrite L. unfold CQE_SIZE in *. lia.
  - lia.
  - intros j e _ Ej. by rewrite lookup_nil in Ej.
  - intros j Hj. unfold cqe_bytes. cbn [num_entries cq_buffer].
    replace (2 ^ k - 1) with (Z.ones k) by (rewrite Z.ones_equiv; lia). rewrite Z.land_ones, Z.mod_small, Ow by lia.
    rewrite Z.div_small by lia. done.
Qed.
