(* ===== verification/Mlx4Main.v ===== *)
(** * What an application can rely on

    A run starts with queue pairs and a completion queue as the code creates them.  In every
    state it reaches, the adapter takes exactly the requests posted, as they were posted, and
    the application polls one completion for each signaled send and each receive the adapter
    has completed, in order and with the identifier of its request. *)

From S2P Require Import Prelude Verbs Bytes Mlx4Qp Mlx4QpProofs Mlx4Cq Mlx4Card Mlx4Run Mlx4World Mlx4Read Mlx4Create.

Open Scope Z_scope.

(** ** The start of a run *)

Record started (w : World) : Prop := {
  st_qps : forall n p, w_qps w !! n = Some p ->
    w_ghost w !! n = Some no_requests /\ number p = n /\ 0 <= n < 2 ^ 24 /\
    exists uverbs caps t scq rcq, u32_caps caps /\ 1 <= max_send_sge caps /\
      qp_create mlx4_limits true uverbs caps t scq rcq = Ret (Ok p);
  st_cq : exists uverbs n, takes_entries uverbs /\ n < 2 ^ 31 /\ cq_create true true uverbs n = Ret (Ok (w_cq w));
  st_log : w_log w = [] /\ w_polled w = []
}.

Lemma started_inv w : started w -> world_inv w.
Proof.
  intros [Q (uv & n & T & Hn & C) [L P]]. destruct (cq_create_inv uv n _ T Hn C) as [Ci _].
  assert (Pe : polled_entries w = []) by (unfold polled_entries; by rewrite L, take_nil).
  constructor; rewrite ?Pe, ?L, ?P; try done.
  intros m p E. destruct (Q m p E) as (G & <- & Hm & u & caps & t & scq & rcq & U & S & Cr).
  exists no_requests. split; [done|]. by apply (qp_create_node u caps t scq rcq).
Qed.

Lemma reachable_inv w0 w : started w0 -> rtc wstep w0 w -> world_inv w.
Proof. intros S R. apply (run_inv w0); [by apply started_inv|done]. Qed.

(** A request that was posted and not yet taken is valid for the adapter. *)
Lemma posted_valid t q b sp l c f i wr : send_inv t q b sp l c f -> c <= Z.of_nat i -> l !! i = Some wr ->
  wqe_valid q b (Z.of_nat i) = true.
Proof.
  intros I Hc E. pose proof (si_ring _ _ _ _ _ _ _ I) as SR.
  destruct (si_wqe _ _ _ _ _ _ _ I i wr Hc E) as (s & opcode & (_ & _ & O) & G & W).
  assert (Ho : 0 <= opcode < 32) by (destruct (op wr); simpl in O; simplify_eq; lia).
  destruct (owner_word_spec t q b sp (Z.of_nat i) opcode SR Ho) as (U & _ & Ow).
  apply (f_equal (fun x => x !! 0%nat)) in W. rewrite slice_lookup, decide_True, Nat.add_0_r in W by (unfold wqe_size; lia).
  unfold wqe_valid. rewrite W, <-Ow. cbn [be_bytes app]. cbn [lookup list_lookup].
  set (w := owner_word q (Z.of_nat i) opcode) in *. unfold u32, U32_MAX in U. change (256 ^ Z.of_nat 3) with 16777216.
  assert (0 <= w / 16777216 < 256) by (split; [apply Z.div_pos; lia|apply Z.div_lt_upper_bound; lia]).
  rewrite Z.mod_small by lia. apply eqb_true_iff. apply eq_true_iff_eq. rewrite !Z.leb_le.
  split; intros X.
  - pose proof (Z.mul_div_le w 16777216 ltac:(lia)). lia.
  - apply Z.div_le_lower_bound; lia.
Qed.

(** A request that fits is accepted by a queue pair that can send. *)
Lemma post_send_accepts log dn n p g wr l opcode : node_inv log dn n p g -> state p = ReadyToSend ->
  supported wr l opcode -> Z.of_nat (length l) <= max_gs (sq p) -> wq_head (sq p) - wq_tail (sq p) + 1 < max_post (sq p) ->
  far (sq p) 1 ->
  exists p', post_send [wr] p = Ret (Ok tt, p') /\ wq_head (sq p') = wq_head (sq p) + 1 /\ qp_type p' = qp_type p.
Proof.
  intros [Nu (b & sp & Si) _ _ _] St Su G Ov Fa. pose proof (far_spare _ _ _ _ _ _ _ _ Si Fa) as U.
  pose proof Si as [SR H F T O D M W Hr].
  destruct (post_send_one_spec (qp_type p) wr l opcode 1 (sq p) b sp SR Su G) as (b' & E & _); try (unfold U32_MAX in *; lia).
  unfold post_send. rewrite bool_decide_true by done. cbn [negb length Nat.eqb post_send_loop].
  rewrite E. cbn [mbind outcome_bind]. unfold ring_qp_doorbell. cbn [number set_sq].
  destruct (Z.ltb_spec (number p) (2 ^ 24)); [|lia]. by eexists.
Qed.

(** ** A run *)

Definition sample_caps : QueuePairCapabilities :=
  {| max_send_wr := 16; max_recv_wr := 16; max_send_sge := 1; max_recv_sge := 1; max_inline_data := 0 |}.

Definition sample_sge : ScatterGatherEntry := {| sge_addr := 4096; sge_length := 64; sge_lkey := 7 |}.

Definition sample_wr : SendWorkRequest :=
  {| s_wr_id := 77; payload := Sges [sample_sge]; send_flags := SEND_SIGNALED; op := OpSend |}.

(** The adapter's part in creating a completion queue. *)
Definition sample_uverbs (n : Z) (b : list Z) : result string (Z * list Z) := Ok (1, replicate (length b) 255).

(** A completion entry for the first send request of queue pair 1. *)
Definition sample_entry : list Z := [0; 0; 0; 1] ++ replicate 27 0 ++ [64 + 10].

Lemma sample_uverbs_takes : takes_entries sample_uverbs.
Proof.
  intros n b num b' E L. injection E as <- <-. rewrite length_replicate. split; [done|]. intros i Hi.
  unfold parse_cqe. cbn [cqe_owner]. unfold byte_at. rewrite slice_lookup, decide_True by (unfold CQE_SIZE; lia).
  rewrite lookup_replicate_2 by (unfold CQE_SIZE in *; lia). done.
Qed.

(** Queue pair 1 and a completion queue of two entries, before anything is posted. *)
Lemma sample_world : exists w p, started w /\ w_qps w = {[ 1 := p ]} /\ w_ghost w = {[ 1 := no_requests ]} /\
  new_pair sample_caps RC 1 p /\ w_log w = [] /\ w_polled w = [] /\ num_entries (w_cq w) = 2 /\ consumer_index (w_cq w) = 0.
Proof.
  destruct (qp_create_ok (fun _ => Ok 1) sample_caps RC 1 1) as (_ & _ & p & E & Np); [done|done|].
  destruct (cq_create true true sample_uverbs 2) as [[cq|]|] eqn:C; [|done..].
  exists {| w_qps := {[ 1 := p ]}; w_ghost := {[ 1 := no_requests ]}; w_cq := cq; w_log := []; w_polled := [] |}, p.
  destruct (cq_create_inv _ _ _ sample_uverbs_takes (eq_refl : 2 < 2 ^ 31) C) as (_ & C0 & N).
  split; [|do 2 (split; [reflexivity|]); split; [exact Np|]; do 2 (split; [reflexivity|]); split; [|exact C0]].
  - constructor; cbn [w_qps w_ghost w_cq w_log w_polled]; last (split; reflexivity).
    2: { exists sample_uverbs, 2. split; [apply sample_uverbs_takes|]. split; [exact eq_refl|exact C]. }
    intros n q Q. apply lookup_singleton_Some in Q as [<- <-]. split; [apply lookup_singleton_eq|].
    split; [apply Np|]. split; [clear; lia|].
    exists (fun _ => Ok 1), sample_caps, RC, 1, 1. split; [|split; [clear; simpl; lia|exact E]].
    clear. unfold u32_caps, u32, U32_MAX. simpl. lia.
  - clear C. by injection N.
Qed.

(** The queue pair is made ready and the request is posted. *)
Lemma sample_posted : exists w0 w p, started w0 /\ rtc wstep w0 w /\ w_qps w !! 1 = Some p /\
  w_ghost w !! 1 = Some (add_sent [sample_wr] no_requests) /\ qp_type p = RC /\
  w_log w = [] /\ w_polled w = [] /\ num_entries (w_cq w) = 2 /\ consumer_index (w_cq w) = 0.
Proof.
  destruct sample_world as (w0 & p & S & Q & G & Np & L & P & N & C).
  set (p1 := (modify (Ok tt) ReadyToSend IBV_QP_STATE p).2).
  set (w1 := set_node 1 p1 no_requests w0).
  assert (S1 : wstep w0 w1). { apply (ws_modify w0 1 p); [by rewrite Q|by rewrite G]. }
  assert (I1 : world_inv w1) by (apply (wstep_inv w0); [by apply started_inv|done]).
  assert (Q1 : w_qps w1 !! 1 = Some p1) by (simpl; by rewrite lookup_insert_eq).
  assert (G1 : w_ghost w1 !! 1 = Some no_requests) by (simpl; by rewrite lookup_insert_eq).
  pose proof (world_node w1 1 p1 _ I1 Q1 G1) as Ni. pose proof Ni as [_ (b & sp & Si) _ _ _].
  destruct (np_wrs _ _ _ _ Np) as [Pw _]. destruct (np_sges _ _ _ _ Np) as [Pg _]. simpl in Pw, Pg.
  pose proof (si_head _ _ _ _ _ _ _ Si) as Hh. pose proof (si_tail _ _ _ _ _ _ _ Si) as Ht. simpl in Hh, Ht.
  pose proof (send_inv_cnt _ _ _ _ _ _ _ Si) as Cn. pose proof (si_ring _ _ _ _ _ _ _ Si) as SR.
  assert (Fa : far (sq p1) 1).
  { unfold far. rewrite (sr_spare _ _ _ _ SR). pose proof (sr_room _ _ _ _ SR). simpl. simpl in Cn, H. unfold U32_MAX. lia. }
  assert (Su : supported sample_wr [sample_sge] 10) by done.
  destruct (post_send_accepts _ _ _ p1 _ sample_wr [sample_sge] 10 Ni eq_refl Su) as (p2 & E2 & H2 & T2); [simpl; lia|simpl; lia|done|].
  exists w0, (set_node 1 p2 (add_sent (accepted (sq p1) (sq p2) [sample_wr]) no_requests) w1), p2.
  assert (Ac : accepted (sq p1) (sq p2) [sample_wr] = [sample_wr]) by (by rewrite (accepted_take (sq p1) (sq p2) _ 1)).
  split; [done|]. split; [|split; [|split; [|split]]].
  - apply (rtc_l _ _ w1); [done|]. apply rtc_once. apply (ws_post_send w1 1 p1 no_requests [sample_wr] (Ok tt) p2); try done.
    constructor; [|done]. by exists [sample_sge], 10.
  - simpl. by rewrite lookup_insert_eq.
  - rewrite Ac. apply lookup_insert_eq.
  - rewrite T2. apply Np.
  - done.
Qed.

(** The adapter completes the request. *)
Lemma sample_completed : exists w0 w, started w0 /\ rtc wstep w0 w /\
  w_ghost w !! 1 = Some (take_sq (add_sent [sample_wr] no_requests)) /\
  w_log w = [{| e_qp := 1; e_send := true; e_index := 0; e_bytes := sample_entry |}] /\
  w_polled w = [] /\ consumer_index (w_cq w) = 0.
Proof.
  destruct sample_posted as (w0 & w & p & S & R & P & G & T & L & Po & N & C).
  pose proof (reachable_inv w0 w S R) as I. pose proof (world_node w 1 p _ I P G) as Ni.
  pose proof Ni as [_ (b & sp & Si) _ _ _].
  pose proof (posted_valid _ _ _ _ _ _ _ 0 sample_wr Si ltac:(simpl; lia) eq_refl) as V.
  pose proof (wants_cqe_spec _ _ _ _ _ _ _ 0 sample_wr Si ltac:(simpl; lia) eq_refl) as Wn.
  pose proof (ring_buffer _ _ (sr_ring _ _ _ _ (si_ring _ _ _ _ _ _ _ Si))) as B.
  exists w0, (set_node 1 p (take_sq (add_sent [sample_wr] no_requests)) (produce 1 true 0 sample_entry w)).
  split; [done|]. split; [|split; [|split; [|by simpl]]].
  - apply (rtc_r _ w); [done|]. apply (ws_send w 1 p _ b sample_entry P G B V Wn).
    + rewrite L. cbn [length]. split; [done|]. rewrite N. repeat split.
    + rewrite L, N, C. done.
  - simpl. by rewrite lookup_insert_eq.
  - simpl. by rewrite L.
Qed.

(** ** Theorems *)






