(* ===== verification/Mlx4Limits.v ===== *)
(** * Limits of the provider

    How many requests a queue pair takes, and what becomes of requests that ask for no
    completion. *)

From S2P Require Import Prelude Verbs Bytes Mlx4Qp Mlx4QpProofs Mlx4Cq Mlx4Card Mlx4Run Mlx4World Mlx4Create.

Open Scope Z_scope.

(** ** New queue pairs *)

(** For capabilities within the limits of the device, [create] computes rings of a power
    of two of slots that fit their buffers, describes them to the adapter with sizes it
    supports, and makes a queue pair with room for the requests and segments asked for, on
    which nothing is posted; it fails only if the system call does. *)
Theorem new_queue_pair uverbs caps t scq rcq : recv_limits caps -> send_limits caps ->
  exists req, request_fits t req /\
    match uverbs req with
    | Err e => qp_create mlx4_limits true uverbs caps t scq rcq = Ret (Err e)
    | Ok n => exists p, qp_create mlx4_limits true uverbs caps t scq rcq = Ret (Ok p) /\ new_pair caps t n p
    end.
Proof. apply qp_create_ok. Qed.

Lemma new_queue_pair_witness :
  let caps := {| max_send_wr := 65503; max_recv_wr := 0; max_send_sge := 32; max_recv_sge := 0; max_inline_data := 0 |} in
  exists p, qp_create mlx4_limits true (fun _ => Ok 5) caps UD 0 0 = Ret (Ok p) /\ new_pair caps UD 5 p.
Proof.
  intros caps. destruct (new_queue_pair (fun _ => Ok 5) caps UD 0 0) as (req & _ & X); [done|done|]. exact X.
Defined.

(** ** Receive requests *)

(** Only the buffer differs. *)
Definition rewritten (q q' : WorkQueue) : Prop := exists b, q' = set_buffer b q.

#[local] Instance rewritten_preorder : PreOrder rewritten.
Proof.
  split.
  - intros q. exists (wq_buffer q). by destruct q.
  - intros q q1 q2 [b ->] [c ->]. exists c. by rewrite set_buffer_twice.
Qed.

Lemma put_segment_frame off bs q q' : put_segment off bs q = Ret q' -> rewritten q q'.
Proof.
  unfold put_segment. destruct (get_in_buffer q off (length bs)); [|done]. cbn [expect mbind outcome_bind].
  intros [= <-]. by eexists.
Qed.

Lemma put_sges_frame l i q q' : put_sges l i q = Ret q' -> rewritten q q'.
Proof.
  revert i q. induction l as [|e l IH]; intros i q; cbn [put_sges]; [by intros [= ->]|].
  destruct (put_segment _ _ q) as [q1|] eqn:E; [|done]. cbn [mbind outcome_bind]. intros X.
  etransitivity; [by eapply put_segment_frame|]. by eapply IH.
Qed.

Lemma update_meta_frame w c q q' : update_meta_for_head w c q = Ret q' ->
  q' = set_meta (<[Z.to_nat (slot q (wq_head q)) := Some {| m_wr_id := w; chain_size := c |}]> (meta q)) q.
Proof.
  unfold update_meta_for_head, arr_set. destruct (_ =? _); [|done]. cbn [rust_assert mbind outcome_bind].
  destruct (decide _); [|done]. cbn [mbind outcome_bind]. by intros [= <-].
Qed.

Lemma post_receive_one_frame wr q r q' : post_receive_one wr q = Ret (r, q') -> max_post q' = max_post q.
Proof.
  unfold post_receive_one. destruct (would_overflow q) as [[]|]; cbn [mbind outcome_bind]; [by intros [= _ ->]| |done].
  destruct (_ <? _); [by intros [= _ ->]|]. destruct (put_sges _ _ _) as [q1|] eqn:E1; [|done]. cbn [mbind outcome_bind].
  apply put_sges_frame in E1 as [b1 ->]. destruct (update_meta_for_head _ _ _) as [q2|] eqn:E2; [|done].
  apply update_meta_frame in E2 as ->. cbn [mbind outcome_bind]. destruct (_ <? _).
  - destruct (put_segment _ _ _) as [q3|] eqn:E3; [|done]. apply put_segment_frame in E3 as [b3 ->].
    cbn [mbind outcome_bind]. by intros [= _ <-].
  - cbn [mbind outcome_bind]. by intros [= _ <-].
Qed.

Lemma post_receive_loop_frame wrs q r q' : post_receive_loop wrs q = Ret (r, q') -> max_post q' = max_post q.
Proof.
  revert q. induction wrs as [|wr wrs IH]; intros q; cbn [post_receive_loop]; [by intros [= _ ->]|].
  destruct (post_receive_one wr q) as [[r1 q1]|] eqn:E; [|done]. cbn [mbind outcome_bind].
  apply post_receive_one_frame in E. destruct r1; [|by intros [= _ <-]]. intros X. rewrite (IH q1 X). done.
Qed.

Lemma receive_queue_exact caps q k : 8 <= k <= 15 -> max_recv_wr caps = 2 ^ k ->
  new_receive_queue mlx4_limits caps = Ret (Ok q) -> max_post q = 2 ^ k.
Proof.
  intros Hk E. unfold new_receive_queue. change (sub32 _ IB_SQ_MAX_SPARE) with (Ret 65503). cbn [mbind outcome_bind].
  assert (2 ^ 8 <= 2 ^ k <= 2 ^ 15) by (split; apply Z.pow_le_mono_r; lia).
  destruct (_ || _); [done|]. rewrite E. destruct (Z.ltb_spec (2 ^ k) 256); [lia|].
  rewrite next_pow2_pow by lia. cbn [mbind outcome_bind].
  destruct (next_pow2 32 _) as [gs|]; [|done]. cbn [mbind outcome_bind].
  destruct (mul32 gs _) as [bytes|]; [|done]. cbn [mbind outcome_bind]. intros X. injection X as <-. simpl.
  destruct (Z.ltb_spec (2 ^ k) 65503); lia.
Qed.

Lemma qp_create_receive mmap uverbs caps t scq rcq p : qp_create mlx4_limits mmap uverbs caps t scq rcq = Ret (Ok p) ->
  exists q, new_receive_queue mlx4_limits caps = Ret (Ok q) /\ max_post (rq p) = max_post q /\ receive_wqe_counter p = 0.
Proof.
  unfold qp_create. destruct (new_receive_queue mlx4_limits caps) as [[r|]|]; [|done..]. cbn [mbind outcome_bind].
  destruct (new_send_queue mlx4_limits caps t) as [[s|]|]; [|done..]. cbn [mbind outcome_bind].
  destruct mmap; [|done]. cbn [rust_assert mbind outcome_bind]. unfold split_buffer.
  destruct (add32 (wq_size r) (wq_size s)) as [bytes|]; [|done]. cbn [mbind outcome_bind].
  destruct (wqe_shift s <? wqe_shift r); cbn [mbind outcome_bind].
  all: destruct (init_send_wqes _ _ _) as [[s'|]|]; [|done..]; cbn [mbind outcome_bind];
    destruct (uverbs _); [|done]; intros E; injection E as <-; by exists r.
Qed.

(** A queue pair made for a power of two of receive requests, at least 256, does not take
    that many: posting them is refused although nothing else is in the queue, and the adapter
    is not told of any of them. *)
Theorem receive_capacity_short uverbs caps t scq rcq p k wrs :
  recv_limits caps -> send_limits caps -> 8 <= k <= 15 -> max_recv_wr caps = 2 ^ k ->
  qp_create mlx4_limits true uverbs caps t scq rcq = Ret (Ok p) -> 0 <= number p < 2 ^ 24 ->
  Z.of_nat (length wrs) = max_recv_wr caps -> Forall receivable wrs ->
  exists e p', post_receive wrs (set_state ReadyToReceive p) = Ret (Err e, p') /\ receive_wqe_counter p' = 0.
Proof.
  intros Rl Sl Hk Ew C Hn Lw Fs. destruct (qp_create_receive _ _ _ _ _ _ _ C) as (q & Eq & Mp & Rc).
  pose proof (receive_queue_exact caps q k Hk Ew Eq) as Mq.
  assert (U : u32_caps caps) by (destruct Rl, Sl; unfold u32_caps, u32, U32_MAX; lia).
  pose proof (qp_create_node uverbs caps t scq rcq p U ltac:(apply Sl) C Hn) as [_ _ _ (b & hd & Ri & _) _].
  assert (2 ^ k <= 2 ^ 15) by (apply Z.pow_le_mono_r; lia). pose proof (ri_head _ _ _ _ _ _ Ri) as Hh. simpl in Hh.
  destruct (recv_inv_loop wrs (rq p) b _ _ _ _ Ri Fs) as (r & q' & b' & j & E & Ri' & Hd & Hj); [unfold U32_MAX; lia|].
  unfold post_receive. cbn [state set_state rq]. rewrite E. cbn [bool_decide negb orb mbind outcome_bind].
  destruct r as [[]|e]; [|by exists e, (set_rq q' (set_state ReadyToReceive p))].
  exfalso. pose proof (ri_dist _ _ _ _ _ _ Ri') as D. destruct (ri_tail _ _ _ _ _ _ Ri') as [T _]. simpl in T.
  assert (M : max_post q' = max_post (rq p)) by (by apply (post_receive_loop_frame wrs _ _ _ E)).
  rewrite (Hj eq_refl) in Hd. lia.
Qed.

Lemma receive_capacity_short_witness :
  let caps := {| max_send_wr := 1; max_recv_wr := 256; max_send_sge := 1; max_recv_sge := 1; max_inline_data := 0 |} in
  exists p e p', qp_create mlx4_limits true (fun _ => Ok 1) caps RC 0 0 = Ret (Ok p) /\
    post_receive (replicate 256 {| r_wr_id := 0; r_sges := [] |}) (set_state ReadyToReceive p) = Ret (Err e, p').
Proof.
  intros caps. destruct (qp_create_ok (fun _ => Ok 1) caps RC 0 0) as (req & _ & p & C & Np); [done|done|].
  set (wrs := replicate 256 {| r_wr_id := 0; r_sges := [] |}).
  assert (Fs : Forall receivable wrs) by (by apply Forall_replicate).
  destruct (receive_capacity_short (fun _ => Ok 1) caps RC 0 0 p 8 wrs) as (e & p' & E & _);
    [split; simpl; lia|split; simpl; lia|lia|reflexivity|exact C| |reflexivity|exact Fs|].
  - rewrite (np_number _ _ _ _ Np). lia.
  - exists p, e, p'. split; [exact C|exact E].
Defined.

(** ** Requests that ask for no completion *)

Lemma put_sges_rev_frame l off size q r q' : put_sges_rev l off size q = Ret (r, q') -> rewritten q q'.
Proof.
  revert off size q. induction l as [|e l IH]; intros off size q; cbn [put_sges_rev]; [by intros [= _ ->]|].
  destruct (put_segment _ _ q) as [q1|] eqn:E; [|done]. cbn [mbind outcome_bind].
  destruct (usub off DATA_SIZE) as [o|]; [|done]. cbn [mbind outcome_bind]. intros X.
  etransitivity; [by eapply put_segment_frame|]. by eapply IH.
Qed.

Lemma write_body_frame t wr q r q' : write_body t wr q = Ret (r, q') -> rewritten q q'.
Proof.
  unfold write_body. destruct (get_in_buffer q _ _) as [b|]; [|done]. cbn [expect mbind outcome_bind].
  set (q1 := set_buffer _ q). assert (R1 : rewritten q q1) by (by eexists).
  destruct (if (0 <? _)%nat then _ else _) as [q2|] eqn:E2; [|done]. cbn [mbind outcome_bind].
  assert (R2 : rewritten q q2).
  { destruct (0 <? _)%nat; [|injection E2 as E2; rewrite <-E2; exact R1]. etransitivity; [exact R1|]. by eapply put_segment_frame. }
  destruct (match payload wr with Sges _ => _ | Inline _ => _ end) as [[size q3]|] eqn:E3; [|done].
  assert (R3 : rewritten q q3).
  { destruct (payload wr); [|injection E3 as _ E3; rewrite <-E3; exact R2]. destruct (usub _ 1); [|done]. cbn [mbind outcome_bind] in E3.
    etransitivity; [exact R2|]. by eapply put_sges_rev_frame. }
  cbn [mbind outcome_bind]. destruct (get_in_buffer q3 _ _); [|done]. cbn [expect mbind outcome_bind].
  intros [= _ <-]. etransitivity; [exact R3|]. by eexists.
Qed.

Lemma write_owner_frame wr q q' : write_owner wr q = Ret q' -> rewritten q q'.
Proof.
  unfold write_owner. destruct (send_opcode (op wr)); [|done]. cbn [mbind outcome_bind].
  destruct (get_in_buffer q _ _); [|done]. cbn [expect mbind outcome_bind]. intros [= <-]. by eexists.
Qed.

Lemma stamp_wqebb_frame i q q' : stamp_wqebb i q = Ret (Ok q') -> rewritten q q'.
Proof.
  unfold stamp_wqebb. destruct (next_pow2 32 _); [|done]. cbn [mbind outcome_bind]. destruct (wq_buffer q); [|done].
  destruct (stamp_chunks _ _ _ _); [|done]. cbn [mbind outcome_bind]. intros [= <-]. by eexists.
Qed.

Lemma stamp_wqebbs_frame n i q q' : stamp_wqebbs n i q = Ret (Ok q') -> rewritten q q'.
Proof.
  revert i q. induction n as [|n IH]; intros i q; cbn [stamp_wqebbs]; [by intros [= ->]|].
  destruct (stamp_wqebb i q) as [[q1|]|] eqn:E; [|done..]. cbn [mbind outcome_bind]. apply stamp_wqebb_frame in E.
  destruct (0 <? n)%nat; [|by intros [= <-]]. destruct (add32 i 1); [|done]. cbn [mbind outcome_bind]. intros X.
  etransitivity; [exact E|]. by eapply IH.
Qed.

(** What posting one request does to the counters and the metadata. *)
Lemma post_send_one_frame t wr q r q' : post_send_one t wr 1 q = Ret (r, q') ->
  max_post q' = max_post q /\ wq_tail q' = wq_tail q /\
  match r with
  | Err _ => wq_head q' = wq_head q /\ meta q' = meta q
  | Ok _ => wq_head q' = wrap32 (wq_head q + 1) /\
      if signaled wr then
        exists i, meta q' = <[i := Some {| m_wr_id := s_wr_id wr; chain_size := 1 |}]> (meta q)
      else meta q' = meta q
  end.
Proof.
  unfold post_send_one. destruct (would_overflow q) as [[]|]; cbn [mbind outcome_bind]; [by intros [= <- <-]| |done].
  destruct (match payload wr with Sges _ => _ | Inline _ => _ end); [by intros [= <- <-]|].
  destruct (write_body t wr q) as [[size q1]|] eqn:E1; [|done]. apply write_body_frame in E1 as [b1 ->].
  cbn [mbind outcome_bind]. destruct (write_owner _ _) as [q2|] eqn:E2; [|done]. apply write_owner_frame in E2 as [b2 ->].
  rewrite set_buffer_twice. cbn [mbind outcome_bind]. destruct (spare_wqes _) as [sp|]; [|done]. cbn [expect mbind outcome_bind].
  destruct (add32 _ sp) as [hr|]; [|done]. cbn [mbind outcome_bind]. unfold stamp_wqe.
  destruct (stamp_wqebbs _ _ _) as [[q3|]|] eqn:E3; cbn [mbind outcome_bind]; [|by intros [= <- <-]|done].
  apply stamp_wqebbs_frame in E3 as [b3 ->]. rewrite set_buffer_twice. fold (signaled wr). destruct (signaled wr).
  - destruct (update_meta_for_head _ _ _) as [q4|] eqn:E4; [|done]. apply update_meta_frame in E4 as ->.
    cbn [mbind outcome_bind]. intros [= <- <-]. simpl. eauto 10.
  - cbn [mbind outcome_bind]. change (add32 1 1) with (Ret 2). cbn [mbind outcome_bind]. by intros [= <- <-].
Qed.

(** An application that posts one request per call; completions arrive in any order. *)
Inductive Usage := Post (wr : SendWorkRequest) | Completed (wqe_index : Z).

(** [n] counts the requests accepted that ask for no completion. *)
Fixpoint use (us : list Usage) (n : Z) (p : QueuePair) : outcome (Z * QueuePair) :=
  match us with
  | [] => Ret (n, p)
  | Post wr :: us =>
      '(r, p) ← post_send [wr] p;
      use us (if is_ok r && negb (signaled wr) then n + 1 else n) p
  | Completed i :: us => '(_, p) ← qp_resolve_completion i true p; use us n p
  end.

Fixpoint pending (m : list (option WorkQueueMeta)) : Z :=
  match m with
  | [] => 0
  | Some _ :: m => 1 + pending m
  | None :: m => pending m
  end.

Lemma pending_nonneg m : 0 <= pending m.
Proof. induction m as [|[x|] m IH]; simpl; lia. Qed.

(** Every entry frees one slot; slots are freed for pending entries only. *)
Record leak_inv (q : WorkQueue) (n : Z) : Prop := {
  lk_chain : Forall (fun m => match m with Some m => chain_size m = 1 | None => True end) (meta q);
  lk_tail : 0 <= wq_tail q /\ 0 <= n;
  lk_sum : wq_tail q + pending (meta q) + n <= wq_head q
}.

Lemma pending_insert m i x : pending (<[i := Some x]> m) <= pending m + 1.
Proof. revert i. induction m as [|[y|] m IH]; intros [|i]; simpl; try lia; specialize (IH i); lia. Qed.

Lemma pending_remove m i x : m !! i = Some (Some x) -> pending (<[i := None]> m) = pending m - 1.
Proof.
  revert i. induction m as [|[y|] m IH]; intros [|i] E; simpl in *; simplify_eq; try lia; specialize (IH i E); lia.
Qed.

Lemma post_send_leak wr p r p' n : leak_inv (sq p) n -> wq_head (sq p) < U32_MAX -> post_send [wr] p = Ret (r, p') ->
  leak_inv (sq p') (if is_ok r && negb (signaled wr) then n + 1 else n) /\ wq_head (sq p') <= wq_head (sq p) + 1 /\
  max_post (sq p') = max_post (sq p) /\ state p' = state p.
Proof.
  intros [C T S] U. unfold post_send. destruct (bool_decide _); cbn [negb]; [|intros [= <- <-]; simpl; split; [by constructor|]; split; [lia|done]].
  cbn [length Nat.eqb post_send_loop]. destruct (post_send_one _ wr 1 (sq p)) as [[r1 q1]|] eqn:E; [|done].
  apply post_send_one_frame in E as (M & Tl & X). cbn [mbind outcome_bind].
  destruct r1 as [c|e]; cbn [mbind outcome_bind]; last first.
  { intros [= <- <-]. destruct X as [H Me]. simpl. split; [constructor; rewrite ?Me, ?Tl, ?H; done|]. split; [lia|done]. }
  destruct X as [H Me]. unfold wrap32 in H. unfold U32_MAX in U. pose proof (pending_nonneg (meta (sq p))). rewrite Z.mod_small in H by lia.
  unfold ring_qp_doorbell. destruct (_ <? _); [|done]. cbn [rust_assert mbind outcome_bind]. intros [= <- <-]. simpl.
  split; [|split; [lia|done]]. destruct (signaled wr); simpl.
  - destruct Me as [i Me]. constructor; simpl; rewrite ?Me; [by apply Forall_insert|lia|].
    pose proof (pending_insert (meta (sq p)) i {| m_wr_id := s_wr_id wr; chain_size := 1 |}). lia.
  - constructor; simpl; rewrite ?Me; [done|lia|lia].
Qed.

Lemma resolve_leak i p r p' n : leak_inv (sq p) n -> qp_resolve_completion i true p = Ret (r, p') ->
  leak_inv (sq p') n /\ wq_head (sq p') = wq_head (sq p) /\ max_post (sq p') = max_post (sq p) /\ state p' = state p.
Proof.
  intros [C T S]. unfold qp_resolve_completion, wq_resolve_completion.
  destruct (check_wqe_index_same i (sq p)) as [d ->]. set (j := Z.to_nat (slot _ i)). unfold arr_get. simpl.
  destruct (meta (sq p) !! j) as [[m|]|] eqn:E; simpl; [| |done].
  - pose proof (proj1 (Forall_lookup _ _) C j _ E) as C1. simpl in C1. rewrite C1.
    unfold add32. destruct (_ <=? _); [|done]. simpl. intros [= <- <-]. simpl. split; [|done]. constructor; simpl.
    + by apply Forall_insert.
    + lia.
    + rewrite (pending_remove _ _ m E). lia.
  - intros [= <- <-]. split; [by constructor|done].
Qed.

Lemma use_leak us n p n' p' : leak_inv (sq p) n -> wq_head (sq p) + Z.of_nat (length us) <= U32_MAX ->
  use us n p = Ret (n', p') -> leak_inv (sq p') n' /\ max_post (sq p') = max_post (sq p) /\ state p' = state p /\
  wq_head (sq p') <= wq_head (sq p) + Z.of_nat (length us).
Proof.
  revert n p. induction us as [|[wr|i] us IH]; intros n p I U; cbn [use length] in *.
  - intros [= <- <-]. split; [done|]. do 2 (split; [done|]). lia.
  - destruct (post_send [wr] p) as [[r p1]|] eqn:E; [|done]. cbn [mbind outcome_bind]. intros X.
    destruct (post_send_leak wr p r p1 n I ltac:(lia) E) as (I1 & H1 & M1 & S1).
    destruct (IH _ p1 I1 ltac:(lia) X) as (I2 & M2 & S2 & H2). rewrite M2, S2. do 3 (split; [done|]). lia.
  - destruct (qp_resolve_completion i true p) as [[r p1]|] eqn:E; [|done]. cbn [mbind outcome_bind]. intros X.
    destruct (resolve_leak i p r p1 n I E) as (I1 & H1 & M1 & S1).
    destruct (IH _ p1 I1 ltac:(lia) X) as (I2 & M2 & S2 & H2). rewrite M2, S2. do 3 (split; [done|]). lia.
Qed.

(** C40 An application that posts one request per call loses a slot of the send queue with
    every request that asks for no completion: no completion frees it.  After [max_post - 1]
    of them, every request is refused, whatever has completed. *)
Theorem unsignaled_requests_leak us p n p' wr :
  wq_head (sq p) = 0 -> wq_tail (sq p) = 0 -> Forall (eq None) (meta (sq p)) -> state p = ReadyToSend ->
  Z.of_nat (length us) <= U32_MAX - 1 -> use us 0 p = Ret (n, p') -> max_post (sq p) <= n + 1 ->
  post_send [wr] p' = Ret (Err "send queue would overflow", p').
Proof.
  intros H T M S U E Hn. assert (I : leak_inv (sq p) 0).
  { constructor; [|lia|].
    - eapply Forall_impl; [exact M|]. by intros m <-.
    - rewrite H, T. induction M as [|m l <- M IH]; [done|exact IH]. }
  destruct (use_leak us 0 p n p' I ltac:(lia) E) as ([C Tl Su] & Mp & St & Hd).
  pose proof (pending_nonneg (meta (sq p'))). unfold post_send. rewrite St, S.
  rewrite bool_decide_true by done. cbn [negb length Nat.eqb post_send_loop].
  unfold post_send_one, would_overflow. rewrite sub32_ok by lia. cbn [mbind outcome_bind].
  rewrite (add32_ok (wq_head (sq p') - wq_tail (sq p')) 1) by (unfold U32_MAX in *; lia). cbn [mbind outcome_bind].
  destruct (Z.leb_spec (max_post (sq p')) (wq_head (sq p') - wq_tail (sq p') + 1)); [|lia].
  cbn [mbind outcome_bind]. by destruct p'.
Qed.

(** Two slots beside the headroom; a request is posted, and every completion it could have is
    handled. *)
Lemma unsignaled_requests_leak_witness :
  let q := {| wq_type := SendQueue; wqe_cnt := 4; max_post := 2; max_gs := 2; wq_buffer := Some (replicate 256 0);
              wqe_shift := 6; spare_wqes := Some 2; wq_head := 0; wq_tail := 0; meta := replicate 4 None;
              divergence_reported := false |} in
  let p := {| qp_type := RC; number := 1; state := ReadyToSend; rq := q; sq := q; receive_wqe_counter := 0; doorbells := [] |} in
  let wr := {| s_wr_id := 1; payload := Sges [{| sge_addr := 0; sge_length := 8; sge_lkey := 1 |}]; send_flags := 0; op := OpSend |} in
  exists p', use [Post wr; Completed 0; Completed 1] 0 p = Ret (1, p') /\
    post_send [wr] p' = Ret (Err "send queue would overflow", p').
Proof.
  intros q p wr. destruct (use [Post wr; Completed 0; Completed 1] 0 p) as [[n p']|] eqn:E; [|by vm_compute in E].
  assert (n = 1) as -> by (vm_compute in E; by injection E). exists p'. split; [done|].
  apply (unsignaled_requests_leak [Post wr; Completed 0; Completed 1] p 1 p' wr); try done.
  repeat constructor.
Defined.
