(* ===== verification/ShellText.v ===== *)
(** * Text of the shell

    A [char] is its code point and a [String] the list of its characters; lengths and
    positions of the code count bytes of the UTF-8 encoding.  Slicing, inserting or removing
    inside a character panics. *)

From S2P Require Import Prelude.

Open Scope nat_scope.

Abbreviation char := Z (only parsing).
Abbreviation str := (list Z) (only parsing).

(** The characters of a literal. *)
Definition lit (s : string) : str := (fun a => Z.of_nat (Ascii.nat_of_ascii a)) <$> String.list_ascii_of_string s.

(** [char::len_utf8] *)
Definition char_len (c : char) : nat :=
  if (c <? 128)%Z then 1 else if (c <? 2048)%Z then 2 else if (c <? 65536)%Z then 3 else 4.

(** [String::len] *)
Fixpoint str_len (s : str) : nat :=
  match s with
  | [] => 0
  | c :: s' => char_len c + str_len s'
  end.

(** The two parts of a string at a byte position, if it is at the boundary of a character. *)
Fixpoint split_bytes (i : nat) (s : str) : option (str * str) :=
  match i, s with
  | 0, _ => Some ([], s)
  | _, [] => None
  | _, c :: s' =>
      if i <? char_len c then None
      else match split_bytes (i - char_len c) s' with
           | Some (a, b) => Some (c :: a, b)
           | None => None
           end
  end.

(** [&s[i..]] *)
Definition slice_from (i : nat) (s : str) : outcome str :=
  match split_bytes i s with
  | Some (_, b) => Ret b
  | None => Panic "byte index is not a char boundary"
  end.

(** [String::insert] *)
Definition str_insert (i : nat) (c : char) (s : str) : outcome str :=
  match split_bytes i s with
  | Some (a, b) => Ret (a ++ c :: b)
  | None => Panic "assertion failed: self.is_char_boundary(idx)"
  end.

(** [String::remove] *)
Definition str_remove (i : nat) (s : str) : outcome str :=
  match split_bytes i s with
  | Some (a, _ :: b) => Ret (a ++ b)
  | Some (_, []) => Panic "cannot remove a char from the end of a string"
  | None => Panic "byte index is not a char boundary"
  end.

(** [String::pop] *)
Definition str_pop (s : str) : option (char * str) :=
  match last s with
  | Some c => Some (c, removelast s)
  | None => None
  end.

(** [str::starts_with] *)
Fixpoint starts_with (p s : str) : bool :=
  match p, s with
  | [], _ => true
  | a :: p', b :: s' => (a =? b)%Z && starts_with p' s'
  | _ :: _, [] => false
  end.

(** [str::split] at a character: always at least one part. *)
Fixpoint split_char (sep : char) (s : str) : list str :=
  match s with
  | [] => [[]]
  | c :: s' =>
      if (c =? sep)%Z then [] :: split_char sep s'
      else match split_char sep s' with
           | p :: ps => (c :: p) :: ps
           | [] => [[c]]
           end
  end.

(** ** ASCII *)

Definition ascii (s : str) : Prop := Forall (fun c => (0 <= c < 128)%Z) s.

Lemma ascii_app a b : ascii (a ++ b) <-> ascii a /\ ascii b.
Proof. apply Forall_app. Qed.

Lemma char_len_ascii c : (0 <= c < 128)%Z -> char_len c = 1.
Proof. intros H. unfold char_len. by destruct (Z.ltb_spec c 128); [|lia]. Qed.

Lemma str_len_ascii s : ascii s -> str_len s = length s.
Proof. intros H. induction H as [|c s Hc H IH]; simpl; [done|]. rewrite char_len_ascii by done. lia. Qed.

Lemma str_len_app a b : str_len (a ++ b) = str_len a + str_len b.
Proof. induction a as [|c a IH]; simpl; [done|]. lia. Qed.

Lemma split_bytes_ascii i s : ascii s -> i <= length s -> split_bytes i s = Some (take i s, drop i s).
Proof.
  intros H. revert i. induction H as [|c s Hc H IH]; intros [|i] L; simpl in *; try done; [lia|].
  rewrite char_len_ascii by done. destruct (Nat.ltb_spec (S i) 1); [lia|].
  replace (S i - 1) with i by lia. by rewrite IH by lia.
Qed.

Lemma slice_from_ascii i s : ascii s -> i <= length s -> slice_from i s = Ret (drop i s).
Proof. intros H L. unfold slice_from. by rewrite split_bytes_ascii. Qed.

Lemma str_insert_ascii i c s : ascii s -> i <= length s -> str_insert i c s = Ret (take i s ++ c :: drop i s).
Proof. intros H L. unfold str_insert. by rewrite split_bytes_ascii. Qed.

Lemma str_remove_ascii i s : ascii s -> i < length s -> str_remove i s = Ret (take i s ++ drop (S i) s).
Proof.
  intros H L. unfold str_remove. rewrite split_bytes_ascii by (done || lia).
  destruct (lookup_lt_is_Some_2 s i L) as [c E]. by rewrite (drop_S s c i E).
Qed.

Lemma ascii_take i s : ascii s -> ascii (take i s).
Proof. apply Forall_take. Qed.

Lemma ascii_drop i s : ascii s -> ascii (drop i s).
Proof. apply Forall_drop. Qed.

#[export] Hint Resolve ascii_take ascii_drop : d3os.

Lemma str_pop_snoc s c : str_pop (s ++ [c]) = Some (c, s).
Proof. unfold str_pop. by rewrite last_snoc, removelast_last. Qed.

Lemma starts_with_spec p s : starts_with p s = true <-> p `prefix_of` s.
Proof.
  revert s. induction p as [|a p IH]; intros s; simpl.
  - split; [intros _; apply prefix_nil|done].
  - destruct s as [|b s]; [split; [done|intros [k E]; done]|]. rewrite andb_true_iff, Z.eqb_eq, IH. split.
    + intros [-> P]. by apply prefix_cons.
    + intros [k E]. injection E as -> ->. split; [done|by eexists].
Qed.
