(* ===== verification/ShellToken.v ===== *)
(** * Tokens of the shell ([os/application/shell/src/token], [context/tokens_context.rs])

    A command line is a list of tokens.  A token knows what the line up to it looks like: where
    the command of its segment is, whether a command or a file must follow, whether a quote is
    open.  The constants of [definition.rs] say how each kind of token continues that context
    and which errors it can have. *)

From S2P Require Import Prelude ShellText.

Open Scope nat_scope.

Definition is_some {A} (o : option A) : bool := match o with Some _ => true | None => false end.

(* [os/application/shell/src/event/event_handler.rs:14-18] Error *)
Record Error := { message : str; hint : option str; is_in_execution : bool }.

Definition error_new (m : str) (h : option str) : Error := {| message := m; hint := h; is_in_execution := false |}.

(* [os/application/shell/src/token/token.rs:6-26] TokenKind *)
Inductive TokenKind :=
| Command | Argument | TkFile
| QuoteStart | QuoteEnd
| RedirectInFile | RedirectOutTruncate | RedirectOutAppend
| And | Or
| Blank | Separator | TkPipe | Background.

#[global] Instance token_kind_eq_dec : EqDecision TokenKind.
Proof. solve_decision. Defined.

(* [os/application/shell/src/token/token.rs:29-33] TokenStatus *)
Inductive TokenStatus := Valid | Incomplete (e : Error) | StatusError (e : Error).

#[global] Instance error_eq_dec : EqDecision Error.
Proof. solve_decision. Defined.
#[global] Instance token_status_eq_dec : EqDecision TokenStatus.
Proof. solve_decision. Defined.

Definition status_is_error (s : TokenStatus) : bool := match s with StatusError _ => true | _ => false end.

(* [os/application/shell/src/token/token.rs:50-58] TokenContext *)
Record TokenContext := {
  pos : nat; line_pos : nat; cmd_pos_in_segment : option nat; require_segment : bool; require_file : bool;
  in_quote : option char; is_end_of_line : bool
}.

(* [os/application/shell/src/token/token.rs:61-66] Token *)
Record Token := { kind : TokenKind; content : str; clx : TokenContext; status : TokenStatus }.

Definition set_content (s : str) (t : Token) : Token :=
  {| kind := kind t; content := s; clx := clx t; status := status t |}.

Definition is_ambiguous (t : Token) : bool :=
  match kind t with Command | Argument | TkFile => true | _ => false end.

(* os/application/shell/src/token/token.rs: Token::is_content_dynamic *)
Definition is_content_dynamic (t : Token) : bool := is_ambiguous t || bool_decide (kind t = Blank).

(* [os/application/shell/src/token/token.rs:110-116] Token::push *)
Definition token_push (c : char) (t : Token) : result unit Token :=
  if negb (is_content_dynamic t) then Err tt else Ok (set_content (content t ++ [c]) t).

(* [os/application/shell/src/token/token.rs:118-124] Token::pop *)
Definition token_pop (t : Token) : outcome (result unit Token) :=
  if negb (is_content_dynamic t) || (str_len (content t) <=? 1) then Ret (Err tt)
  else
    '(_, s) ← expect (str_pop (content t)) "called `Option::unwrap()` on a `None` value";
    Ret (Ok (set_content s t)).

(** ** Definitions *)

(* [os/application/shell/src/token/definition.rs:9-16] FirstTokenDTO *)
Record FirstTokenDTO := {
  ft_cmd_pos_in_segment : option nat; ft_require_segment : bool; ft_require_file : bool;
  ft_in_quote : option char; ft_is_end_of_line : bool; ft_error_reason : option str
}.

(* [os/application/shell/src/token/definition.rs:19-25] NextTokenDTO *)
Record NextTokenDTO := {
  nt_cmd_pos_in_segment : option (option nat); nt_require_segment : option bool; nt_require_file : option bool;
  nt_in_quote : option (option char); nt_is_end_of_line : option bool
}.

(** A rule is its condition on the token before and its reason. *)
(* os/application/shell/src/token/definition.rs: TokenDefinition *)
Record TokenDefinition := {
  first_token_fn : str -> outcome FirstTokenDTO;
  next_token_fn : Token -> str -> outcome NextTokenDTO;
  error_rules : list ((Token -> bool) * str)
}.

Definition first_char (s : str) : outcome char :=
  expect (head s) "Expected token to have at least one char".

(* [os/application/shell/src/token/definition.rs:33-63] COMMAND_TOKEN_DEFINITION *)
Definition COMMAND_TOKEN_DEFINITION : TokenDefinition := {|
  first_token_fn := fun _ =>
    Ret {| ft_cmd_pos_in_segment := Some 0; ft_require_segment := false; ft_require_file := false;
             ft_in_quote := None; ft_is_end_of_line := false;
             ft_error_reason := None |};
  next_token_fn := fun prev _ =>
    Ret {| nt_cmd_pos_in_segment := Some (Some (S (pos (clx prev)))); nt_require_segment := Some false; nt_require_file := None;
             nt_in_quote := None; nt_is_end_of_line := None |};
  error_rules := [
    (fun prev => is_some (cmd_pos_in_segment (clx prev)), lit "Only one command per segment is allowed");
    (fun prev => require_file (clx prev), lit "Expected a filename but got a command");
    (fun prev => is_end_of_line (clx prev), lit "Expected end of line but got a command")]
|}.

(* [os/application/shell/src/token/definition.rs:65-99] ARGUMENT_TOKEN_DEFINITION *)
Definition ARGUMENT_TOKEN_DEFINITION : TokenDefinition := {|
  first_token_fn := fun _ =>
    Ret {| ft_cmd_pos_in_segment := None; ft_require_segment := false; ft_require_file := false;
             ft_in_quote := None; ft_is_end_of_line := false;
             ft_error_reason := Some (lit "Segment must have a command to support arguments") |};
  next_token_fn := fun _ _ =>
    Ret {| nt_cmd_pos_in_segment := None; nt_require_segment := None; nt_require_file := None;
             nt_in_quote := None; nt_is_end_of_line := None |};
  error_rules := [
    (fun prev => negb (is_some (cmd_pos_in_segment (clx prev))), lit "Segment must have a command to support arguments");
    (fun prev => require_segment (clx prev), lit "Expected a command but got a argument");
    (fun prev => require_file (clx prev), lit "Expected a filename but got a argument");
    (fun prev => is_end_of_line (clx prev), lit "Expected end of line but got a argument")]
|}.

(* [os/application/shell/src/token/definition.rs:101-131] FILE_TOKEN_DEFINITION *)
Definition FILE_TOKEN_DEFINITION : TokenDefinition := {|
  first_token_fn := fun _ =>
    Ret {| ft_cmd_pos_in_segment := None; ft_require_segment := false; ft_require_file := false;
             ft_in_quote := None; ft_is_end_of_line := false;
             ft_error_reason := Some (lit "Did not expect a file") |};
  next_token_fn := fun _ _ =>
    Ret {| nt_cmd_pos_in_segment := None; nt_require_segment := None; nt_require_file := Some false;
             nt_in_quote := None; nt_is_end_of_line := None |};
  error_rules := [
    (fun prev => negb (require_file (clx prev)), lit "Did not expect a file");
    (fun prev => require_segment (clx prev), lit "Expected a command but got a file");
    (fun prev => is_end_of_line (clx prev), lit "Expected end of line but got a file")]
|}.

(* [os/application/shell/src/token/definition.rs:133-150] BLANK_TOKEN_DEFINITION *)
Definition BLANK_TOKEN_DEFINITION : TokenDefinition := {|
  first_token_fn := fun _ =>
    Ret {| ft_cmd_pos_in_segment := None; ft_require_segment := false; ft_require_file := false;
             ft_in_quote := None; ft_is_end_of_line := false;
             ft_error_reason := None |};
  next_token_fn := fun _ _ =>
    Ret {| nt_cmd_pos_in_segment := None; nt_require_segment := None; nt_require_file := None;
             nt_in_quote := None; nt_is_end_of_line := None |};
  error_rules := []
|}.

(* [os/application/shell/src/token/definition.rs:152-182] QUOTE_START_TOKEN_DEFINITION *)
Definition QUOTE_START_TOKEN_DEFINITION : TokenDefinition := {|
  first_token_fn := fun content =>
    c ← first_char content;
    Ret {| ft_cmd_pos_in_segment := None; ft_require_segment := false; ft_require_file := false;
             ft_in_quote := Some c; ft_is_end_of_line := false;
             ft_error_reason := None |};
  next_token_fn := fun _ content =>
    c ← first_char content;
    Ret {| nt_cmd_pos_in_segment := None; nt_require_segment := None; nt_require_file := None;
             nt_in_quote := Some (Some c); nt_is_end_of_line := None |};
  error_rules := [
    (fun prev => is_some (in_quote (clx prev)), lit "Nesting quotes is not supported")]
|}.

(* [os/application/shell/src/token/definition.rs:184-204] QUOTE_END_TOKEN_DEFINITION *)
Definition QUOTE_END_TOKEN_DEFINITION : TokenDefinition := {|
  first_token_fn := fun _ =>
    Ret {| ft_cmd_pos_in_segment := None; ft_require_segment := false; ft_require_file := false;
             ft_in_quote := None; ft_is_end_of_line := false;
             ft_error_reason := Some (lit "Unable to close nonexisting quote") |};
  next_token_fn := fun _ _ =>
    Ret {| nt_cmd_pos_in_segment := None; nt_require_segment := None; nt_require_file := None;
             nt_in_quote := Some None; nt_is_end_of_line := None |};
  error_rules := [
    (fun prev => negb (is_some (in_quote (clx prev))), lit "Unable to close nonexisting quote")]
|}.

(* [os/application/shell/src/token/definition.rs:206-238] PIPE_TOKEN_DEFINITION *)
Definition PIPE_TOKEN_DEFINITION : TokenDefinition := {|
  first_token_fn := fun _ =>
    Ret {| ft_cmd_pos_in_segment := None; ft_require_segment := true; ft_require_file := false;
             ft_in_quote := None; ft_is_end_of_line := false;
             ft_error_reason := Some (lit "If you want to use a pipe, try moving | between commands (Example: cmd1 | cmd2)" ++ [10%Z] ++ lit "If you want | as normal text, try wrapping it in parentheses (Example: echo 'No | pipe')") |};
  next_token_fn := fun _ _ =>
    Ret {| nt_cmd_pos_in_segment := Some None; nt_require_segment := Some true; nt_require_file := None;
             nt_in_quote := None; nt_is_end_of_line := None |};
  error_rules := [
    (fun prev => negb (is_some (cmd_pos_in_segment (clx prev))), lit "If you want to use a pipe, try moving | between commands (Example: cmd1 | cmd2)" ++ [10%Z] ++ lit "If you want | as normal text, try wrapping it in parentheses (Example: echo 'No | pipe')");
    (fun prev => require_file (clx prev), lit "Expected file but got |");
    (fun prev => is_end_of_line (clx prev), lit "Expected end of line but got |")]
|}.

(* [os/application/shell/src/token/definition.rs:240-272] REDIRECT_IN_FILE_TOKEN_DEFINITION *)
Definition REDIRECT_IN_FILE_TOKEN_DEFINITION : TokenDefinition := {|
  first_token_fn := fun _ =>
    Ret {| ft_cmd_pos_in_segment := None; ft_require_segment := false; ft_require_file := true;
             ft_in_quote := None; ft_is_end_of_line := false;
             ft_error_reason := Some (lit "If you want to redirect some input, try moving < after a command (Example: cmd1 < file)" ++ [10%Z] ++ lit "If you want < as normal text, try wrapping it in parentheses (Example: echo 'No < redirection')") |};
  next_token_fn := fun _ _ =>
    Ret {| nt_cmd_pos_in_segment := None; nt_require_segment := None; nt_require_file := Some true;
             nt_in_quote := None; nt_is_end_of_line := None |};
  error_rules := [
    (fun prev => negb (is_some (cmd_pos_in_segment (clx prev))), lit "If you want to redirect some input, try moving < after a command (Example: cmd1 < file)" ++ [10%Z] ++ lit "If you want < as normal text, try wrapping it in parentheses (Example: echo 'No < redirection')");
    (fun prev => require_file (clx prev), lit "Expected file but got <");
    (fun prev => is_end_of_line (clx prev), lit "Expected end of line but got <")]
|}.

(* [os/application/shell/src/token/definition.rs:274-306] REDIRECT_OUT_TRUNCATE_TOKEN_DEFINITION *)
Definition REDIRECT_OUT_TRUNCATE_TOKEN_DEFINITION : TokenDefinition := {|
  first_token_fn := fun _ =>
    Ret {| ft_cmd_pos_in_segment := None; ft_require_segment := false; ft_require_file := true;
             ft_in_quote := None; ft_is_end_of_line := false;
             ft_error_reason := Some (lit "If you want to redirect some input, try moving > after a command (Example: cmd1 > file)" ++ [10%Z] ++ lit "If you want > as normal text, try wrapping it in parentheses (Example: echo 'No > redirection')") |};
  next_token_fn := fun _ _ =>
    Ret {| nt_cmd_pos_in_segment := None; nt_require_segment := None; nt_require_file := Some true;
             nt_in_quote := None; nt_is_end_of_line := None |};
  error_rules := [
    (fun prev => negb (is_some (cmd_pos_in_segment (clx prev))), lit "If you want to redirect some input, try moving > after a command (Example: cmd1 > file)" ++ [10%Z] ++ lit "If you want > as normal text, try wrapping it in parentheses (Example: echo 'No > redirection')");
    (fun prev => require_file (clx prev), lit "Expected file but got >");
    (fun prev => is_end_of_line (clx prev), lit "Expected end of line but got >")]
|}.

(* [os/application/shell/src/token/definition.rs:308-340] REDIRECT_OUT_APPEND_TOKEN_DEFINITION *)
Definition REDIRECT_OUT_APPEND_TOKEN_DEFINITION : TokenDefinition := {|
  first_token_fn := fun _ =>
    Ret {| ft_cmd_pos_in_segment := None; ft_require_segment := false; ft_require_file := true;
             ft_in_quote := None; ft_is_end_of_line := false;
             ft_error_reason := Some (lit "If you want to redirect some input, try moving >> after a command (Example: cmd1 >> file)" ++ [10%Z] ++ lit "If you want >> as normal text, try wrapping it in parentheses (Example: echo 'No >> redirection')") |};
  next_token_fn := fun _ _ =>
    Ret {| nt_cmd_pos_in_segment := None; nt_require_segment := None; nt_require_file := Some true;
             nt_in_quote := None; nt_is_end_of_line := None |};
  error_rules := [
    (fun prev => negb (is_some (cmd_pos_in_segment (clx prev))), lit "If you want to redirect some input, try moving >> after a command (Example: cmd1 >> file)" ++ [10%Z] ++ lit "If you want >> as normal text, try wrapping it in parentheses (Example: echo 'No >> redirection')");
    (fun prev => require_file (clx prev), lit "Expected file but got >>");
    (fun prev => is_end_of_line (clx prev), lit "Expected end of line but got >>")]
|}.

(* [os/application/shell/src/token/definition.rs:342-374] LOGICAL_AND_TOKEN_DEFINITION *)
Definition LOGICAL_AND_TOKEN_DEFINITION : TokenDefinition := {|
  first_token_fn := fun _ =>
    Ret {| ft_cmd_pos_in_segment := None; ft_require_segment := true; ft_require_file := false;
             ft_in_quote := None; ft_is_end_of_line := false;
             ft_error_reason := Some (lit "If you want to use a and condition, try moving && between commands (Example: cmd1 && cmd2)" ++ [10%Z] ++ lit "If you want && as normal text, try wrapping it in parentheses (Example: echo 'No && condition')") |};
  next_token_fn := fun _ _ =>
    Ret {| nt_cmd_pos_in_segment := Some None; nt_require_segment := Some true; nt_require_file := None;
             nt_in_quote := None; nt_is_end_of_line := None |};
  error_rules := [
    (fun prev => negb (is_some (cmd_pos_in_segment (clx prev))), lit "If you want to use a and condition, try moving && between commands (Example: cmd1 && cmd2)" ++ [10%Z] ++ lit "If you want && as normal text, try wrapping it in parentheses (Example: echo 'No && condition')");
    (fun prev => require_file (clx prev), lit "Expected file but got &&");
    (fun prev => is_end_of_line (clx prev), lit "Expected end of line but got &&")]
|}.

(* [os/application/shell/src/token/definition.rs:376-408] LOGICAL_OR_TOKEN_DEFINITION *)
Definition LOGICAL_OR_TOKEN_DEFINITION : TokenDefinition := {|
  first_token_fn := fun _ =>
    Ret {| ft_cmd_pos_in_segment := None; ft_require_segment := true; ft_require_file := false;
             ft_in_quote := None; ft_is_end_of_line := false;
             ft_error_reason := Some (lit "If you want to use a or condition, try moving || between commands (Example: cmd1 || cmd2)" ++ [10%Z] ++ lit "If you want && as normal text, try wrapping it in parentheses (Example: echo 'No || condition')") |};
  next_token_fn := fun _ _ =>
    Ret {| nt_cmd_pos_in_segment := Some None; nt_require_segment := Some true; nt_require_file := None;
             nt_in_quote := None; nt_is_end_of_line := None |};
  error_rules := [
    (fun prev => negb (is_some (cmd_pos_in_segment (clx prev))), lit "If you want to use a or condition, try moving || between commands (Example: cmd1 || cmd2)" ++ [10%Z] ++ lit "If you want && as normal text, try wrapping it in parentheses (Example: echo 'No || condition')");
    (fun prev => require_file (clx prev), lit "Expected file but got ||");
    (fun prev => is_end_of_line (clx prev), lit "Expected end of line but got ||")]
|}.

(* [os/application/shell/src/token/definition.rs:410-436] SEPARATOR_TOKEN_DEFINITION *)
Definition SEPARATOR_TOKEN_DEFINITION : TokenDefinition := {|
  first_token_fn := fun _ =>
    Ret {| ft_cmd_pos_in_segment := None; ft_require_segment := false; ft_require_file := false;
             ft_in_quote := None; ft_is_end_of_line := false;
             ft_error_reason := None |};
  next_token_fn := fun _ _ =>
    Ret {| nt_cmd_pos_in_segment := Some None; nt_require_segment := None; nt_require_file := None;
             nt_in_quote := None; nt_is_end_of_line := None |};
  error_rules := [
    (fun prev => require_file (clx prev), lit "Expected a filename but got ;");
    (fun prev => require_segment (clx prev), lit "Expected a command but got ;")]
|}.

(* [os/application/shell/src/token/definition.rs:438-474] BACKGROUND_TOKEN_DEFINITION *)
Definition BACKGROUND_TOKEN_DEFINITION : TokenDefinition := {|
  first_token_fn := fun _ =>
    Ret {| ft_cmd_pos_in_segment := None; ft_require_segment := false; ft_require_file := false;
             ft_in_quote := None; ft_is_end_of_line := true;
             ft_error_reason := Some (lit "If you want to use a background execution, try moving & after the command (Example: cmd1 arg1 arg2 &)" ++ [10%Z] ++ lit "If you want & as normal text, try wrapping it in parentheses (Example: echo 'No & background execution')") |};
  next_token_fn := fun _ _ =>
    Ret {| nt_cmd_pos_in_segment := Some None; nt_require_segment := None; nt_require_file := None;
             nt_in_quote := None; nt_is_end_of_line := Some true |};
  error_rules := [
    (fun prev => negb (is_some (cmd_pos_in_segment (clx prev))), lit "If you want to use a background execution, try moving & after the command (Example: cmd1 arg1 arg2 &)" ++ [10%Z] ++ lit "If you want & as normal text, try wrapping it in parentheses (Example: echo 'No & background execution')");
    (fun prev => require_file (clx prev), lit "Expected a filename but got &");
    (fun prev => require_segment (clx prev), lit "Expected a command but got &");
    (fun prev => is_end_of_line (clx prev), lit "Expected end of line but got &")]
|}.


(** ** Making tokens *)

(* [os/application/shell/src/token/factory.rs:77-94] TokenFactory::get_definition *)
Definition get_definition (k : TokenKind) : TokenDefinition :=
  match k with
  | Command => COMMAND_TOKEN_DEFINITION
  | Argument => ARGUMENT_TOKEN_DEFINITION
  | TkFile => FILE_TOKEN_DEFINITION
  | Blank => BLANK_TOKEN_DEFINITION
  | QuoteStart => QUOTE_START_TOKEN_DEFINITION
  | QuoteEnd => QUOTE_END_TOKEN_DEFINITION
  | TkPipe => PIPE_TOKEN_DEFINITION
  | RedirectInFile => REDIRECT_IN_FILE_TOKEN_DEFINITION
  | RedirectOutTruncate => REDIRECT_OUT_TRUNCATE_TOKEN_DEFINITION
  | RedirectOutAppend => REDIRECT_OUT_APPEND_TOKEN_DEFINITION
  | And => LOGICAL_AND_TOKEN_DEFINITION
  | Or => LOGICAL_OR_TOKEN_DEFINITION
  | Separator => SEPARATOR_TOKEN_DEFINITION
  | Background => BACKGROUND_TOKEN_DEFINITION
  end.

Definition invalid_line (reason : str) : Error := error_new (lit "Invalid command line") (Some reason).

(* [os/application/shell/src/token/factory.rs:96-111] TokenFactory::get_incomplete_status *)
Definition get_incomplete_status (c : TokenContext) : option TokenStatus :=
  if is_some (in_quote c) then Some (Incomplete (invalid_line (lit "Quote has not been closed")))
  else if require_segment c then Some (Incomplete (invalid_line (lit "Expected command but got end of line")))
  else if require_file c then Some (Incomplete (invalid_line (lit "Expected file but got end of line")))
  else None.

(* [os/application/shell/src/token/factory.rs:20-46] TokenFactory::create_first *)
Definition create_first (k : TokenKind) (s : str) : outcome Token :=
  dto ← first_token_fn (get_definition k) s;
  let c := {| pos := 0; line_pos := 0; cmd_pos_in_segment := ft_cmd_pos_in_segment dto;
              require_segment := ft_require_segment dto; require_file := ft_require_file dto;
              in_quote := ft_in_quote dto; is_end_of_line := ft_is_end_of_line dto |} in
  Ret {| kind := k; content := s; clx := c;
         status := match ft_error_reason dto with
                   | Some r => StatusError (invalid_line r)
                   | None => default Valid (get_incomplete_status c)
                   end |}.

(* [os/application/shell/src/token/factory.rs:48-75] TokenFactory::create_next *)
Definition create_next (prev : Token) (k : TokenKind) (s : str) : outcome Token :=
  dto ← next_token_fn (get_definition k) prev s;
  let c := {| pos := S (pos (clx prev)); line_pos := line_pos (clx prev) + str_len (content prev);
              cmd_pos_in_segment := default (cmd_pos_in_segment (clx prev)) (nt_cmd_pos_in_segment dto);
              require_segment := default (require_segment (clx prev)) (nt_require_segment dto);
              require_file := default (require_file (clx prev)) (nt_require_file dto);
              in_quote := default (in_quote (clx prev)) (nt_in_quote dto);
              is_end_of_line := default (is_end_of_line (clx prev)) (nt_is_end_of_line dto) |} in
  Ret {| kind := k; content := s; clx := c;
         status := if status_is_error (status prev) then status prev
                   else match List.find (fun r => r.1 prev) (error_rules (get_definition k)) with
                        | Some r => StatusError (invalid_line r.2)
                        | None => default Valid (get_incomplete_status c)
                        end |}.

(** ** The tokens of a line *)

(* os/application/shell/src/context/tokens_context.rs: TokensContext *)
Record TokensContext := { tokens : list Token; is_status_dirty : bool }.

Definition tokens_new : TokensContext := {| tokens := []; is_status_dirty := false |}.

(* [os/application/shell/src/context/tokens_context.rs:45-59] TokensContext::push_token *)
Definition push_token (k : TokenKind) (s : str) (t : TokensContext) : outcome TokensContext :=
  tok ← match last (tokens t) with
        | Some l => create_next l k s
        | None => create_first k s
        end;
  let changed := match last (tokens t) with
                 | Some l => negb (bool_decide (status l = status tok))
                 | None => negb (bool_decide (status tok = Valid))
                 end in
  Ret {| tokens := tokens t ++ [tok]; is_status_dirty := is_status_dirty t || changed |}.

(* os/application/shell/src/context/tokens_context.rs: TokensContext::replace_last_token *)
Definition replace_last_token (k : TokenKind) (s : str) (t : TokensContext) : outcome TokensContext :=
  push_token k s {| tokens := removelast (tokens t); is_status_dirty := is_status_dirty t |}.

(* [os/application/shell/src/context/tokens_context.rs:66-71] TokensContext::push_to_last_token *)
Definition push_to_last_token (c : char) (t : TokensContext) : result unit TokensContext :=
  match last (tokens t) with
  | None => Err tt
  | Some l =>
      match token_push c l with
      | Ok l => Ok {| tokens := removelast (tokens t) ++ [l]; is_status_dirty := is_status_dirty t |}
      | Err e => Err e
      end
  end.

(* [os/application/shell/src/context/tokens_context.rs:73-78] TokensContext::pop_from_last_token *)
Definition pop_from_last_token (t : TokensContext) : outcome (result unit TokensContext) :=
  match last (tokens t) with
  | None => Ret (Err tt)
  | Some l =>
      r ← token_pop l;
      Ret (match r with
           | Ok l => Ok {| tokens := removelast (tokens t) ++ [l]; is_status_dirty := is_status_dirty t |}
           | Err e => Err e
           end)
  end.

(* [os/application/shell/src/context/tokens_context.rs:80-90] TokensContext::pop_token *)
Definition pop_token (t : TokensContext) : TokensContext :=
  let rest := removelast (tokens t) in
  let changed := match last (tokens t), last rest with
                 | Some tok, Some l => negb (bool_decide (status tok = status l))
                 | Some tok, None => negb (bool_decide (status tok = Valid))
                 | None, _ => false
                 end in
  {| tokens := rest; is_status_dirty := is_status_dirty t || changed |}.

(* [os/application/shell/src/context/tokens_context.rs:104-114] TokensContext::find_last_command *)
Definition find_last_command (t : TokensContext) : outcome (option Token) :=
  match last (tokens t) with
  | None => Ret None
  | Some l =>
      match cmd_pos_in_segment (clx l) with
      | None => Ret None
      | Some p => tok ← arr_get (tokens t) p; Ret (Some tok)
      end
  end.

Fixpoint find_argument (l : list Token) : option Token :=
  match l with
  | [] => None
  | t :: l' =>
      if negb (is_some (cmd_pos_in_segment (clx t))) then None
      else if bool_decide (kind t = Argument) then Some t
      else find_argument l'
  end.

(* [os/application/shell/src/context/tokens_context.rs:116-126] TokensContext::find_last_argument_in_segment *)
Definition find_last_argument_in_segment (t : TokensContext) : option Token := find_argument (rev (tokens t)).

(* os/application/shell/src/context/tokens_context.rs: TokensContext::total_len *)
Definition total_len (t : TokensContext) : nat :=
  match last (tokens t) with Some l => line_pos (clx l) + str_len (content l) | None => 0 end.
