(* ===== verification/ShellLexer.v ===== *)
(** * The line and its tokens ([os/application/shell/src/service/lexer.rs],
      [context/line_context.rs])

    The lexer keeps the tokens of the line up to date: it removes tokens back to the first
    position that changed and adds the characters from there on, one by one. *)

From S2P Require Import Prelude ShellText ShellToken.

Open Scope nat_scope.

(** ** The line *)

(** Positions are in bytes. *)
(* [os/application/shell/src/context/line_context.rs:6-10] LineContext *)
Record LineContext := { line : str; dirty_index : nat; cursor_position : nat }.

Definition line_new : LineContext := {| line := []; dirty_index := 0; cursor_position := 0 |}.

Definition set_line (s : str) (l : LineContext) : LineContext :=
  {| line := s; dirty_index := dirty_index l; cursor_position := cursor_position l |}.
Definition set_cursor_pos (n : nat) (l : LineContext) : LineContext :=
  {| line := line l; dirty_index := dirty_index l; cursor_position := n |}.

(* os/application/shell/src/context/line_context.rs: LineContext::mark_clean *)
Definition mark_clean (l : LineContext) : LineContext :=
  {| line := line l; dirty_index := str_len (line l); cursor_position := cursor_position l |}.

(* os/application/shell/src/context/line_context.rs: LineContext::mark_dirty_at *)
Definition mark_dirty_at (i : nat) (l : LineContext) : LineContext :=
  {| line := line l; dirty_index := min (dirty_index l) i; cursor_position := cursor_position l |}.

(* [os/application/shell/src/context/line_context.rs:57-63] LineContext::pop *)
Definition line_pop (l : LineContext) : option char * LineContext :=
  match str_pop (line l) with
  | Some (c, s) => (Some c, mark_dirty_at (str_len s) (set_line s l))
  | None => (None, l)
  end.

(* os/application/shell/src/context/line_context.rs: LineContext::insert *)
Definition line_insert (i : nat) (c : char) (l : LineContext) : outcome LineContext :=
  s ← str_insert i c (line l);
  Ret (mark_dirty_at i (set_line s l)).

(* os/application/shell/src/context/line_context.rs: LineContext::remove *)
Definition line_remove (i : nat) (l : LineContext) : outcome LineContext :=
  s ← str_remove i (line l);
  Ret (mark_dirty_at i (set_line s l)).

Definition is_cursor_at_start (l : LineContext) : bool := cursor_position l <=? 0.
Definition is_cursor_at_end (l : LineContext) : bool := str_len (line l) <=? cursor_position l.

(** ** Adding a character *)

(** The line, of which only the dirty index changes, and the tokens. *)
Definition LexState : Type := LineContext * TokensContext.

Definition last_token (t : TokensContext) : option Token := last (tokens t).

Definition last_is (k : TokenKind) (t : TokensContext) : bool :=
  match last_token t with Some l => bool_decide (kind l = k) | None => false end.

(** Replacing the last token marks its position as changed. *)
Definition replace_and_mark (k : TokenKind) (s : str) (st : LexState) : outcome LexState :=
  t ← replace_last_token k s st.2;
  l ← expect (last_token t) "called `Option::unwrap()` on a `None` value";
  Ret (mark_dirty_at (line_pos (clx l)) st.1, t).

Definition push_kind (k : TokenKind) (c : char) (st : LexState) : outcome LexState :=
  t ← push_token k [c] st.2;
  Ret (st.1, t).

(* [os/application/shell/src/service/lexer.rs:181-191] LexerService::add_redirect_out_append_or_truncate *)
Definition add_redirect_out_append_or_truncate (c : char) (st : LexState) : outcome LexState :=
  if last_is RedirectOutTruncate st.2 then replace_and_mark RedirectOutAppend (lit ">>") st
  else push_kind RedirectOutTruncate c st.

(* [os/application/shell/src/service/lexer.rs:197-207] LexerService::add_background_or_logical_and *)
Definition add_background_or_logical_and (c : char) (st : LexState) : outcome LexState :=
  if last_is Background st.2 then replace_and_mark And (lit "&&") st
  else push_kind Background c st.

(* [os/application/shell/src/service/lexer.rs:213-223] LexerService::add_pipe_or_logical_or *)
Definition add_pipe_or_logical_or (c : char) (st : LexState) : outcome LexState :=
  if last_is TkPipe st.2 then replace_and_mark Or (lit "||") st
  else push_kind TkPipe c st.

Definition push_last (c : char) (msg : string) (st : LexState) : outcome LexState :=
  match push_to_last_token c st.2 with
  | Ok t => Ret (st.1, t)
  | Err _ => Panic msg
  end.

(* [os/application/shell/src/service/lexer.rs:225-249] LexerService::add_ambiguous *)
Definition add_ambiguous (c : char) (st : LexState) : outcome LexState :=
  match last_token st.2 with
  | None => push_kind Command c st
  | Some l =>
      if is_ambiguous l then push_last c "Expected ambiguous Tokens to have dynamic content" st
      else push_kind (if require_file (clx l) then TkFile
                      else if is_some (cmd_pos_in_segment (clx l)) then Argument
                      else Command) c st
  end.

(* [os/application/shell/src/service/lexer.rs:251-260] LexerService::add_blank *)
Definition add_blank (c : char) (st : LexState) : outcome LexState :=
  if last_is Blank st.2 then push_last c "called `Result::unwrap()` on an `Err` value" st
  else push_kind Blank c st.

(* [os/application/shell/src/service/lexer.rs:262-279] LexerService::add_quote *)
Definition add_quote (c : char) (st : LexState) : outcome LexState :=
  match last_token st.2 with
  | Some l =>
      if match in_quote (clx l) with Some q => (q =? c)%Z | None => false end then push_kind QuoteEnd c st
      else if is_some (in_quote (clx l)) then push_last c "Expected Tokens in quote to have dynamic content" st
      else push_kind QuoteStart c st
  | None => push_kind QuoteStart c st
  end.

(** The character of a literal. *)
Definition chr (s : string) : char := default 0%Z (head (lit s)).
Definition TAB : char := 9%Z.
Definition SINGLE_QUOTE : char := 39%Z.
Definition DOUBLE_QUOTE : char := 34%Z.

(* [os/application/shell/src/service/lexer.rs:135-158] LexerService::add *)
Definition add (c : char) (st : LexState) : outcome LexState :=
  if match last_token st.2 with
     | Some l => match in_quote (clx l) with Some q => negb (q =? c)%Z | None => false end
     | None => false
     end
  then add_ambiguous c st
  else if (c =? chr ";")%Z then push_kind Separator c st
  else if (c =? chr "&")%Z then add_background_or_logical_and c st
  else if (c =? chr "|")%Z then add_pipe_or_logical_or c st
  else if (c =? chr ">")%Z then add_redirect_out_append_or_truncate c st
  else if (c =? chr "<")%Z then push_kind RedirectInFile c st
  else if (c =? DOUBLE_QUOTE)%Z || (c =? SINGLE_QUOTE)%Z then add_quote c st
  else if (c =? chr " ")%Z || (c =? TAB)%Z then add_blank c st
  else add_ambiguous c st.

(** ** Removing a character *)

(* [os/application/shell/src/service/lexer.rs:160-179] LexerService::remove *)
Definition remove (st : LexState) : outcome LexState :=
  match last_token st.2 with
  | None => Ret st
  | Some l =>
      match kind l with
      | And => replace_and_mark Background (lit "&") st
      | Or => replace_and_mark TkPipe (lit "|") st
      | RedirectOutAppend => replace_and_mark RedirectOutTruncate (lit ">") st
      | _ =>
          r ← pop_from_last_token st.2;
          Ret (st.1, match r with Ok t => t | Err _ => pop_token st.2 end)
      end
  end.

(** ** Keeping up with the line *)

Fixpoint remove_times (n : nat) (st : LexState) : outcome LexState :=
  match n with
  | 0 => Ret st
  | S m => st ← remove st; remove_times m st
  end.

Fixpoint add_all (s : str) (st : LexState) : outcome LexState :=
  match s with
  | [] => Ret st
  | c :: s' => st ← add c st; add_all s' st
  end.

(* os/application/shell/src/event/event_handler.rs: Response *)
Inductive Response := ROk | RSkip | RIgnore.

(* [os/application/shell/src/service/lexer.rs:75-92] LexerService::detokenize_to *)
Definition detokenize_to (index : nat) (st : LexState) : outcome (Response * LexState) :=
  if total_len st.2 <=? index then Ret (RSkip, st)
  else st ← remove_times (total_len st.2 - index) st; Ret (ROk, st).

(* [os/application/shell/src/service/lexer.rs:94-107] LexerService::tokenize_from *)
Definition tokenize_from (index : nat) (st : LexState) : outcome (Response * LexState) :=
  if str_len (line st.1) <=? index then Ret (RSkip, st)
  else
    s ← slice_from index (line st.1);
    st ← add_all s st;
    Ret (ROk, st).

(** The flag says that [TokensWritten] is triggered. *)
(* [os/application/shell/src/service/lexer.rs:53-73] LexerService::tokenize_from_dirty *)
Definition tokenize_from_dirty (st : LexState) : outcome (bool * LexState) :=
  let index := dirty_index st.1 in
  '(d, st) ← detokenize_to index st;
  '(t, st) ← tokenize_from index st;
  match d, t with
  | RSkip, RSkip => Ret (false, st)
  | _, _ => Ret (true, st)
  end.

(** The tokens of the line with aliases in place of the tokens they name. *)
(* [os/application/shell/src/service/lexer.rs:109-133] LexerService::retokenize_with_alias *)
Definition retokenize_with_alias (alias : str -> option str) (st : LexState) : outcome LexState :=
  let alias_line := concat ((fun t =>
    if is_ambiguous t && negb (is_some (in_quote (clx t))) then default (content t) (alias (content t))
    else content t) <$> tokens st.2) in
  add_all alias_line (st.1, tokens_new).
