(* ===== verification/ShellLexProofs.v ===== *)
(** * The lexer is exact

    Adding characters loses none, removing one undoes the last addition, and so the tokens kept
    up to date step by step are those of the whole line. *)

From S2P Require Import Prelude ShellText ShellToken ShellLexer.

Open Scope nat_scope.

(** ** Lexed token lists *)

(** The token of a kind that follows a list of tokens. *)
Definition create (ts : list Token) (k : TokenKind) (s : str) : outcome Token :=
  match last ts with Some l => create_next l k s | None => create_first k s end.

(** The contents a token of a kind can have. *)
Definition content_ok (k : TokenKind) (s : str) : Prop :=
  match k with
  | Command | Argument | TkFile | Blank => s <> []
  | And => s = lit "&&"
  | Or => s = lit "||"
  | RedirectOutAppend => s = lit ">>"
  | Background => s = lit "&"
  | TkPipe => s = lit "|"
  | RedirectOutTruncate => s = lit ">"
  | QuoteStart | QuoteEnd | RedirectInFile | Separator => exists c, s = [c]
  end.

Inductive lexed : list Token -> Prop :=
| lexed_nil : lexed []
| lexed_snoc ts t : lexed ts -> create ts (kind t) (content t) = Ret t -> content_ok (kind t) (content t) ->
    lexed (ts ++ [t]).

Definition contents (ts : list Token) : str := concat (content <$> ts).

Lemma contents_snoc ts t : contents (ts ++ [t]) = contents ts ++ content t.
Proof. unfold contents. rewrite fmap_app, concat_app. simpl. by rewrite app_nil_r. Qed.

Lemma content_ok_cons k s : content_ok k s -> exists c s', s = c :: s'.
Proof. destruct k; simpl; intros H; try (destruct s; [done|eauto]); subst; eauto; destruct H as [c ->]; eauto. Qed.

(** Making a token never fails and keeps its kind and content. *)
Lemma create_ok ts k s : content_ok k s -> exists t, create ts k s = Ret t /\ kind t = k /\ content t = s.
Proof.
  intros H. destruct (content_ok_cons k s H) as (c & s' & ->).
  unfold create, create_next, create_first. destruct (last ts); destruct k; simpl; eauto.
Qed.

Lemma create_fields ts k s t : create ts k s = Ret t -> kind t = k /\ content t = s.
Proof.
  unfold create, create_next, create_first. intros H.
  destruct (last ts); [destruct (next_token_fn _ _ _)|destruct (first_token_fn _ _)]; simpl in H; simplify_eq; done.
Qed.

(** The context and status of a token whose content can grow do not depend on it. *)
Lemma create_dynamic ts k s s' t : k = Command \/ k = Argument \/ k = TkFile \/ k = Blank -> create ts k s = Ret t ->
  create ts k s' = Ret (set_content s' t).
Proof.
  unfold create, create_next, create_first. intros [->|[->|[->| ->]]] H; destruct (last ts); simpl in *; by simplify_eq.
Qed.

Lemma dynamic_kind t : is_content_dynamic t = true <-> kind t = Command \/ kind t = Argument \/ kind t = TkFile \/ kind t = Blank.
Proof. unfold is_content_dynamic, is_ambiguous. destruct t as [[] ? ? ?]; simpl;
  (split; intros E; [first [done | auto 6] | destruct E as [E|[E|[E|E]]]; done]). Qed.

Lemma lexed_last ts l : lexed ts -> last ts = Some l ->
  exists ts', ts = ts' ++ [l] /\ lexed ts' /\ create ts' (kind l) (content l) = Ret l /\ content_ok (kind l) (content l).
Proof.
  intros H E. destruct H as [|ts' t H C O]; [done|]. rewrite last_snoc in E. injection E as <-. by exists ts'.
Qed.

(** A token ends where the contents do. *)
Lemma lexed_total_len ts l : lexed ts -> last ts = Some l -> line_pos (clx l) + str_len (content l) = str_len (contents ts).
Proof.
  intros H. revert l. induction H as [|ts t H IH C O]; intros l E; [done|]. rewrite last_snoc in E. injection E as <-.
  rewrite contents_snoc, str_len_app. f_equal. unfold create in C. destruct (last ts) as [l|] eqn:L.
  - rewrite <-(IH l eq_refl). unfold create_next in C. destruct (next_token_fn _ _ _) as [d|]; [|done]. simpl in C.
    destruct t. by simplify_eq.
  - apply last_None in L as ->. unfold create_first in C. destruct (first_token_fn _ _) as [d|]; [|done]. simpl in C.
    destruct t. by simplify_eq.
Qed.

Lemma total_len_contents t : lexed (tokens t) -> total_len t = str_len (contents (tokens t)).
Proof.
  intros H. unfold total_len. destruct (last (tokens t)) as [l|] eqn:L; [by apply lexed_total_len|].
  apply last_None in L as ->. done.
Qed.

(** ** The operations on tokens *)

Lemma push_token_spec k s t : content_ok k s ->
  exists tok t', push_token k s t = Ret t' /\ tokens t' = tokens t ++ [tok] /\
    create (tokens t) k s = Ret tok /\ kind tok = k /\ content tok = s.
Proof.
  intros O. destruct (create_ok (tokens t) k s O) as (tok & C & K & S). unfold push_token. fold (create (tokens t) k s).
  rewrite C. simpl. exists tok. eexists. done.
Qed.

Lemma push_kind_spec k c st : content_ok k [c] ->
  exists tok st', push_kind k c st = Ret st' /\ tokens st'.2 = tokens st.2 ++ [tok] /\ st'.1 = st.1 /\
    create (tokens st.2) k [c] = Ret tok /\ kind tok = k /\ content tok = [c].
Proof.
  intros O. destruct (push_token_spec k [c] st.2 O) as (tok & t' & E & T & C & K & S). unfold push_kind. rewrite E. simpl.
  exists tok. eexists. done.
Qed.

Lemma removelast_snoc {A} (l : list A) x : removelast (l ++ [x]) = l.
Proof. apply removelast_last. Qed.

Lemma replace_spec k s st ts old : tokens st.2 = ts ++ [old] -> content_ok k s ->
  exists tok st', replace_and_mark k s st = Ret st' /\ tokens st'.2 = ts ++ [tok] /\
    create ts k s = Ret tok /\ kind tok = k /\ content tok = s /\
    st'.1 = mark_dirty_at (line_pos (clx tok)) st.1.
Proof.
  intros E O. unfold replace_and_mark, replace_last_token. rewrite E, removelast_snoc.
  destruct (push_token_spec k s {| tokens := ts; is_status_dirty := is_status_dirty st.2 |} O) as (tok & t' & -> & T & C & K & S).
  simpl. unfold last_token. rewrite T, last_snoc. simpl. exists tok. eexists. done.
Qed.

Lemma push_last_spec c msg st ts l : tokens st.2 = ts ++ [l] -> is_content_dynamic l = true ->
  exists st', push_last c msg st = Ret st' /\ tokens st'.2 = ts ++ [set_content (content l ++ [c]) l] /\ st'.1 = st.1.
Proof.
  intros E D. unfold push_last, push_to_last_token, token_push. rewrite E, last_snoc, D, removelast_snoc. simpl. by eexists.
Qed.

(** ** Adding a character *)

(** The kinds that a single character can begin. *)
Definition single (k : TokenKind) : Prop := k <> And /\ k <> Or /\ k <> RedirectOutAppend.

(** Where a file must follow, no command and no argument is begun. *)
Definition fits (k : TokenKind) (ts : list Token) : Prop :=
  k = Command \/ k = Argument -> match last ts with Some l => require_file (clx l) = false | None => True end.

(** The token whose character is doubled, and what it becomes. *)
Definition doubles (k k2 : TokenKind) (c : char) : Prop :=
  (k = Background /\ k2 = And /\ c = chr "&") \/ (k = TkPipe /\ k2 = Or /\ c = chr "|") \/
  (k = RedirectOutTruncate /\ k2 = RedirectOutAppend /\ c = chr ">").

Inductive grows (c : char) (ts : list Token) : list Token -> Prop :=
| grows_push k tok : single k -> fits k ts -> content_ok k [c] -> create ts k [c] = Ret tok -> grows c ts (ts ++ [tok])
| grows_last ts' l : ts = ts' ++ [l] -> is_content_dynamic l = true ->
    grows c ts (ts' ++ [set_content (content l ++ [c]) l])
| grows_double ts' l k2 tok : ts = ts' ++ [l] -> doubles (kind l) k2 c -> create ts' k2 [c; c] = Ret tok ->
    grows c ts (ts' ++ [tok]).

(** The line is kept but for its dirty index, which can only become smaller. *)
Definition line_kept (l l' : LineContext) : Prop :=
  line l' = line l /\ cursor_position l' = cursor_position l /\ dirty_index l' <= dirty_index l.

#[local] Instance line_kept_preorder : PreOrder line_kept.
Proof.
  split; [done|]. intros a b c (L1 & C1 & D1) (L2 & C2 & D2). split; [congruence|]. split; [congruence|lia].
Qed.

Lemma line_kept_mark i l : line_kept l (mark_dirty_at i l).
Proof. split; [done|]. split; [done|]. simpl. lia. Qed.

Definition grown (c : char) (st : LexState) (r : outcome LexState) : Prop :=
  exists st', r = Ret st' /\ grows c (tokens st.2) (tokens st'.2) /\ line_kept st.1 st'.1.

Lemma push_grown k c st : single k -> fits k (tokens st.2) -> content_ok k [c] -> grown c st (push_kind k c st).
Proof.
  intros S F O. destruct (push_kind_spec k c st O) as (tok & st' & E & T & L & C & _).
  exists st'. split; [done|]. rewrite T, L. split; [|done]. by apply (grows_push c _ k).
Qed.

Lemma last_grown c msg st l : last_token st.2 = Some l -> is_content_dynamic l = true -> grown c st (push_last c msg st).
Proof.
  intros L D. apply last_Some in L as [ts E]. destruct (push_last_spec c msg st ts l E D) as (st' & -> & T & Ln).
  exists st'. split; [done|]. rewrite T, Ln. split; [|done]. by apply grows_last.
Qed.

Lemma double_grown k k2 c st s : last_is k st.2 = true -> doubles k k2 c -> s = [c; c] ->
  grown c st (replace_and_mark k2 s st).
Proof.
  unfold last_is. intros L D ->. destruct (last_token st.2) as [l|] eqn:El; [|done]. apply bool_decide_eq_true in L.
  apply last_Some in El as [ts E].
  assert (O : content_ok k2 [c; c]) by (destruct D as [(_ & -> & ->)|[(_ & -> & ->)|(_ & -> & ->)]]; done).
  destruct (replace_spec k2 [c; c] st ts l E O) as (tok & st' & -> & T & C & _ & _ & Ln).
  exists st'. split; [done|]. rewrite T, Ln. split; [|apply line_kept_mark]. apply (grows_double c _ ts l k2); try done. by rewrite L.
Qed.

Lemma ambiguous_grown c st : grown c st (add_ambiguous c st).
Proof.
  unfold add_ambiguous. destruct (last_token st.2) as [l|] eqn:L; unfold last_token in L.
  2:{ apply push_grown; [done| |done]. intros _. by rewrite L. }
  destruct (is_ambiguous l) eqn:A.
  - apply (last_grown c _ st l); [done|]. unfold is_content_dynamic. by rewrite A.
  - destruct (require_file (clx l)) eqn:R; [apply push_grown; by try intros [|]|].
    assert (F : forall k, fits k (tokens st.2)) by (intros k _; by rewrite L).
    destruct (is_some _); by apply push_grown.
Qed.

Lemma add_grown c st : grown c st (add c st).
Proof.
  unfold add. destruct (match last_token st.2 with Some _ => _ | None => _ end) eqn:Q; [apply ambiguous_grown|].
  repeat match goal with |- context [if (c =? ?d)%Z then _ else _] => destruct (Z.eqb_spec c d) as [->|] end.
  - apply push_grown; [done|by intros [|]|by eexists].
  - unfold add_background_or_logical_and. destruct (last_is Background st.2) eqn:L; [|by apply push_grown; try intros [|]].
    apply (double_grown Background And); try done. by left.
  - unfold add_pipe_or_logical_or. destruct (last_is TkPipe st.2) eqn:L; [|by apply push_grown; try intros [|]].
    apply (double_grown TkPipe Or); try done. by right; left.
  - unfold add_redirect_out_append_or_truncate. destruct (last_is RedirectOutTruncate st.2) eqn:L; [|by apply push_grown; try intros [|]].
    apply (double_grown RedirectOutTruncate RedirectOutAppend); try done. by right; right.
  - apply push_grown; [done|by intros [|]|by eexists].
  - destruct (_ || _); [|destruct (_ || _); [|apply ambiguous_grown]].
    + unfold add_quote. destruct (last_token st.2) as [l|]; [|apply push_grown; [done|by intros [|]|by eexists]].
      destruct (in_quote (clx l)) as [q|]; [|apply push_grown; [done|by intros [|]|by eexists]].
      apply negb_false_iff in Q. rewrite Q. apply push_grown; [done|by intros [|]|by eexists].
    + unfold add_blank. destruct (last_is Blank st.2) eqn:L; [|by apply push_grown; try intros [|]].
      unfold last_is in L. destruct (last_token st.2) as [l|] eqn:El; [|done]. apply bool_decide_eq_true in L.
      apply (last_grown c _ st l); [done|]. apply dynamic_kind. auto.
Qed.

Lemma set_content_same t s : set_content (content t) (set_content s t) = t.
Proof. by destruct t. Qed.

Lemma doubles_content k k2 c s : doubles k k2 c -> content_ok k s -> s = [c] /\ content_ok k2 [c; c].
Proof. intros [(-> & -> & ->)|[(-> & -> & ->)|(-> & -> & ->)]] O; by rewrite O. Qed.

Lemma grows_lexed c ts ts' : lexed ts -> grows c ts ts' -> lexed ts' /\ contents ts' = contents ts ++ [c].
Proof.
  intros H G. destruct G as [k tok _ _ O C|ts' l E D|ts' l k2 tok E D C].
  - destruct (create_fields _ _ _ _ C) as [K S]. rewrite contents_snoc, S. split; [|done].
    apply lexed_snoc; rewrite ?K, ?S; done.
  - destruct (lexed_last ts l H) as (ts1 & E1 & H1 & C1 & O1); [rewrite E; apply last_snoc|].
    rewrite E in E1. apply app_inj_tail in E1 as [-> _]. rewrite E, !contents_snoc. split; [|by rewrite <-app_assoc].
    apply dynamic_kind in D. apply lexed_snoc; [done|by apply (create_dynamic _ _ (content l))|].
    simpl. destruct D as [->|[->|[->| ->]]]; by destruct (content l).
  - destruct (lexed_last ts l H) as (ts1 & E1 & H1 & C1 & O1); [rewrite E; apply last_snoc|].
    rewrite E in E1. apply app_inj_tail in E1 as [-> _]. destruct (doubles_content _ _ _ _ D O1) as [S O2].
    destruct (create_fields _ _ _ _ C) as [K2 S2]. rewrite E, !contents_snoc, S2, S. split; [|by rewrite <-app_assoc].
    apply lexed_snoc; rewrite ?K2, ?S2; done.
Qed.

(** ** Removing a character *)

Lemma pop_single st ts tok : tokens st.2 = ts ++ [tok] -> single (kind tok) -> str_len (content tok) = 1 ->
  exists st', remove st = Ret st' /\ tokens st'.2 = ts /\ st'.1 = st.1.
Proof.
  intros E (S1 & S2 & S3) L. unfold remove, last_token. rewrite E, last_snoc.
  assert (P : pop_from_last_token st.2 = Ret (Err tt)).
  { unfold pop_from_last_token, token_pop. rewrite E, last_snoc, L. simpl. by rewrite orb_true_r. }
  assert (X : exists st', (r ← pop_from_last_token st.2; Ret (st.1, match r with Ok t => t | Err _ => pop_token st.2 end)) = Ret st'
              /\ tokens st'.2 = ts /\ st'.1 = st.1).
  { rewrite P. simpl. eexists. split; [done|]. split; [|done]. simpl. by rewrite E, removelast_snoc. }
  destruct (kind tok); done || exact X.
Qed.

Lemma pop_grown st ts l c : tokens st.2 = ts ++ [set_content (content l ++ [c]) l] -> is_content_dynamic l = true ->
  content_ok (kind l) (content l) -> exists st', remove st = Ret st' /\ tokens st'.2 = ts ++ [l] /\ st'.1 = st.1.
Proof.
  intros E D O. unfold remove, last_token. rewrite E, last_snoc.
  assert (L : (str_len (content l ++ [c]) <=? 1) = false).
  { destruct (content_ok_cons _ _ O) as (x & s & ->). apply Nat.leb_gt. rewrite str_len_app. simpl.
    assert (forall z, 1 <= char_len z) by (intros z; unfold char_len; repeat case_match; lia).
    pose proof (H x). pose proof (H c). lia. }
  assert (P : pop_from_last_token st.2 = Ret (Ok {| tokens := ts ++ [l]; is_status_dirty := is_status_dirty st.2 |})).
  { unfold pop_from_last_token, token_pop. rewrite E, last_snoc. simpl.
    change (is_content_dynamic (set_content (content l ++ [c]) l)) with (is_content_dynamic l). rewrite D, L. simpl.
    rewrite str_pop_snoc. simpl. by rewrite removelast_snoc, set_content_same. }
  rewrite P. apply dynamic_kind in D. simpl. destruct D as [->|[->|[->| ->]]]; by eexists.
Qed.

(** Removing undoes adding. *)
Lemma grows_remove c ts st : (0 <= c < 128)%Z -> lexed ts -> grows c ts (tokens st.2) ->
  exists st', remove st = Ret st' /\ tokens st'.2 = ts /\ line_kept st.1 st'.1.
Proof.
  intros A H G. inversion G as [k tok S F O C E|ts' l E D E'|ts' l k2 tok E D C E']; subst ts || idtac.
  - destruct (create_fields _ _ _ _ C) as [K Co]. symmetry in E.
    destruct (pop_single st ts tok E) as (st' & R & T & L); [by rewrite K|rewrite Co; simpl; by rewrite char_len_ascii|].
    exists st'. by rewrite L.
  - symmetry in E'. destruct (lexed_last _ l H (last_snoc _ _)) as (ts1 & E1 & _ & _ & O1).
    destruct (pop_grown st ts' l c E' D O1) as (st' & R & T & L). exists st'. by rewrite L.
  - symmetry in E'. destruct (lexed_last _ l H (last_snoc _ _)) as (ts1 & E1 & _ & C1 & O1).
    apply app_inj_tail in E1 as [<- _]. destruct (doubles_content _ _ _ _ D O1) as [Sl _].
    destruct (create_fields _ _ _ _ C) as [K2 _]. destruct (replace_spec (kind l) (content l) st ts' tok E' O1) as (tok' & st' & R & T & C' & _ & _ & L).
    rewrite C1 in C'. injection C' as <-. exists st'. split; [|split; [done|rewrite L; apply line_kept_mark]].
    rewrite <-R. unfold remove, last_token. rewrite E', last_snoc, K2, Sl.
    destruct D as [(-> & -> & ->)|[(-> & -> & ->)|(-> & -> & ->)]]; done.
Qed.

(** ** Tokens depend on tokens only *)

Definition agree (r1 r2 : outcome LexState) : Prop :=
  match r1, r2 with
  | Ret a, Ret b => tokens a.2 = tokens b.2
  | Panic _, Panic _ => True
  | _, _ => False
  end.

Section agree.
Context (st1 st2 : LexState) (E : tokens st1.2 = tokens st2.2).

Lemma push_kind_agree k c : agree (push_kind k c st1) (push_kind k c st2).
Proof using E.
  unfold push_kind, push_token. rewrite E. destruct (match last (tokens st2.2) with Some _ => _ | None => _ end); done.
Qed.

Lemma replace_agree k s : agree (replace_and_mark k s st1) (replace_and_mark k s st2).
Proof using E.
  unfold replace_and_mark, replace_last_token, push_token. simpl. rewrite E.
  destruct (match last (removelast (tokens st2.2)) with Some _ => _ | None => _ end); simpl; [|done].
  unfold last_token. simpl. rewrite last_snoc. done.
Qed.

Lemma push_last_agree c msg : agree (push_last c msg st1) (push_last c msg st2).
Proof using E.
  unfold push_last, push_to_last_token. rewrite E. destruct (last (tokens st2.2)) as [l|]; [|done].
  by destruct (token_push c l).
Qed.

Lemma add_agree c : agree (add c st1) (add c st2).
Proof using E.
  assert (L : last_token st1.2 = last_token st2.2) by (unfold last_token; by rewrite E).
  assert (I : forall k, last_is k st1.2 = last_is k st2.2) by (intros k; unfold last_is; by rewrite L).
  unfold add, add_ambiguous, add_quote, add_blank, add_background_or_logical_and, add_pipe_or_logical_or,
    add_redirect_out_append_or_truncate. rewrite !I, L.
  repeat case_match; auto using push_kind_agree, replace_agree, push_last_agree.
Qed.
End agree.

(** ** The tokens of a line *)

Lemma add_all_spec s st : lexed (tokens st.2) ->
  exists st', add_all s st = Ret st' /\ lexed (tokens st'.2) /\ contents (tokens st'.2) = contents (tokens st.2) ++ s /\
    line_kept st.1 st'.1.
Proof.
  revert st. induction s as [|c s IH]; intros st H.
  - exists st. rewrite app_nil_r. done.
  - simpl. destruct (add_grown c st) as (st1 & -> & G & K). destruct (grows_lexed _ _ _ H G) as [H1 C1]. simpl.
    destruct (IH st1 H1) as (st2 & -> & H2 & C2 & K2). exists st2. split; [done|]. split; [done|].
    split; [|by rewrite K, K2]. rewrite C2, C1, <-app_assoc. done.
Qed.

Lemma add_all_agree s st1 st2 : tokens st1.2 = tokens st2.2 -> agree (add_all s st1) (add_all s st2).
Proof.
  revert st1 st2. induction s as [|c s IH]; intros st1 st2 E; [done|]. simpl. pose proof (add_agree st1 st2 E c) as A.
  destruct (add c st1), (add c st2); try done. simpl. by apply IH.
Qed.

Lemma add_all_app s1 s2 st : add_all (s1 ++ s2) st = (st ← add_all s1 st; add_all s2 st).
Proof. revert st. induction s1 as [|c s1 IH]; intros st; [done|]. simpl. destruct (add c st); simpl; auto. Qed.

(** The tokens of a line, lexed from its beginning. *)
Definition lex (s : str) : list Token :=
  match add_all s (line_new, tokens_new) with Ret st => tokens st.2 | Panic _ => [] end.

Lemma lex_add_all s : exists st, add_all s (line_new, tokens_new) = Ret st /\ lex s = tokens st.2 /\
  lexed (lex s) /\ contents (lex s) = s.
Proof.
  destruct (add_all_spec s (line_new, tokens_new) lexed_nil) as (st & E & H & C & _). exists st. unfold lex. rewrite E. done.
Qed.

Lemma lex_lexed s : lexed (lex s).
Proof. by destruct (lex_add_all s) as (_ & _ & _ & H & _). Qed.

Lemma lex_contents s : contents (lex s) = s.
Proof. by destruct (lex_add_all s) as (_ & _ & _ & _ & H). Qed.

Lemma lex_app s s' st : tokens st.2 = lex s ->
  exists st', add_all s' st = Ret st' /\ tokens st'.2 = lex (s ++ s') /\ line_kept st.1 st'.1.
Proof.
  intros E. destruct (add_all_spec s' st) as (st' & A & _ & _ & K); [rewrite E; apply lex_lexed|].
  exists st'. split; [done|]. split; [|done]. destruct (lex_add_all s) as (st0 & A0 & E0 & _).
  unfold lex. rewrite add_all_app, A0. simpl. pose proof (add_all_agree s' st st0) as G. rewrite A in G.
  rewrite E, E0 in G. specialize (G eq_refl). by destruct (add_all s' st0).
Qed.

Lemma lex_remove s c st : (0 <= c < 128)%Z -> tokens st.2 = lex (s ++ [c]) ->
  exists st', remove st = Ret st' /\ tokens st'.2 = lex s /\ line_kept st.1 st'.1.
Proof.
  intros A E. apply (grows_remove c); [done|apply lex_lexed|]. rewrite E.
  destruct (lex_add_all s) as (st0 & A0 & E0 & _). unfold lex at 2. rewrite add_all_app, A0, E0. simpl.
  destruct (add_grown c st0) as (st1 & -> & G & _). done.
Qed.

Lemma lex_remove_times n s st : ascii s -> n <= length s -> tokens st.2 = lex s ->
  exists st', remove_times n st = Ret st' /\ tokens st'.2 = lex (take (length s - n) s) /\ line_kept st.1 st'.1.
Proof.
  revert s st. induction n as [|n IH]; intros s st A L E.
  - exists st. rewrite Nat.sub_0_r, firstn_all. done.
  - destruct (exists_last (l := s)) as (s' & c & ->); [intros ->; simpl in L; lia|].
    apply Forall_app in A as [A Ac]. apply Forall_inv in Ac. rewrite length_app in L. simpl in L.
    destruct (lex_remove s' c st Ac E) as (st1 & R & E1 & K1). simpl. rewrite R. simpl.
    destruct (IH s' st1 A ltac:(lia) E1) as (st2 & R2 & E2 & K2). exists st2. split; [done|]. split; [|by rewrite K1, K2].
    rewrite E2, length_app. simpl. replace (length s' + 1 - S n) with (length s' - n) by lia.
    by rewrite take_app_le by lia.
Qed.

(** ** Keeping up with the line *)

(** Two texts agree up to a position. *)
Definition upto (d : nat) (s l : str) : Prop := d <= length s /\ d <= length l /\ take d s = take d l.

(** The tokens are those of a line that agrees with the line before its first changed position. *)
Definition in_step (st : LexState) : Prop :=
  exists s, tokens st.2 = lex s /\ ascii s /\ upto (dirty_index st.1) s (line st.1).

Lemma detokenize_to_spec s d st : ascii s -> d <= length s -> tokens st.2 = lex s ->
  exists r st', detokenize_to d st = Ret (r, st') /\ tokens st'.2 = lex (take d s) /\ line_kept st.1 st'.1 /\
    (r = RSkip -> length s = d).
Proof.
  intros A L E. unfold detokenize_to. rewrite total_len_contents; rewrite E; [|apply lex_lexed].
  rewrite lex_contents, str_len_ascii by done. destruct (Nat.leb_spec (length s) d).
  - exists RSkip, st. split; [done|]. rewrite take_ge by done. split; [done|]. split; [done|lia].
  - destruct (lex_remove_times (length s - d) s st A ltac:(lia) E) as (st' & -> & T & K). exists ROk, st'. simpl.
    rewrite T. replace (length s - (length s - d)) with d by lia. done.
Qed.

Lemma tokenize_from_spec d st : ascii (line st.1) -> d <= length (line st.1) -> tokens st.2 = lex (take d (line st.1)) ->
  exists r st', tokenize_from d st = Ret (r, st') /\ tokens st'.2 = lex (line st.1) /\ line_kept st.1 st'.1 /\
    (r = RSkip -> length (line st.1) = d).
Proof.
  intros A L E. unfold tokenize_from. rewrite str_len_ascii by done. destruct (Nat.leb_spec (length (line st.1)) d).
  - exists RSkip, st. rewrite E, take_ge by done. split; [done|]. split; [done|]. split; [done|lia].
  - rewrite slice_from_ascii by done. simpl. destruct (lex_app _ (drop d (line st.1)) st E) as (st' & -> & T & K).
    exists ROk, st'. simpl. rewrite T, take_drop. done.
Qed.

(** One pass makes the tokens those of the line; it reports no change only where there was none. *)
Lemma tokenize_from_dirty_spec st : ascii (line st.1) -> in_step st ->
  exists b st', tokenize_from_dirty st = Ret (b, st') /\ tokens st'.2 = lex (line st.1) /\ line_kept st.1 st'.1 /\
    (b = false -> tokens st.2 = lex (line st.1)).
Proof.
  intros A (s & E & As & Ls & Ll & Eq). unfold tokenize_from_dirty. set (d := dirty_index st.1) in *.
  destruct (detokenize_to_spec s d st As Ls E) as (r1 & st1 & -> & T1 & K1 & S1). simpl.
  pose proof K1 as (L1 & _ & _).
  destruct (tokenize_from_spec d st1) as (r2 & st2 & -> & T2 & K2 & S2); rewrite ?L1; try done; [by rewrite T1, Eq|].
  rewrite L1 in T2, S2. simpl. exists (match r1, r2 with RSkip, RSkip => false | _, _ => true end), st2.
  split; [by destruct r1, r2|]. split; [done|]. split; [by rewrite K1, K2|].
  intros B. assert (length s = d /\ length (line st.1) = d) as [Le1 Le2] by (destruct r1, r2; auto; done).
  rewrite E. rewrite !take_ge in Eq by lia. by rewrite Eq.
Qed.

Lemma in_step_lexed st : ascii (line st.1) -> tokens st.2 = lex (line st.1) -> dirty_index st.1 <= length (line st.1) -> in_step st.
Proof. intros A E D. exists (line st.1). split; [done|]. split; [done|]. split; [done|]. by split. Qed.
