(* ===== verification/ShellParser.v ===== *)
(** * From tokens to executables ([os/application/shell/src/service/parser.rs],
      [context/executable_context.rs], [context/alias_context.rs],
      [context/working_directory_context.rs])

    The parser makes one executable of each segment of the line: its command, its arguments,
    where its input and output go and the result of the executable before it that it requires. *)

From S2P Require Import Prelude ShellText ShellToken.

Open Scope nat_scope.

(** ** The working directory *)

(* [os/application/shell/src/context/working_directory_context.rs:68-79] WorkingDirectoryContext::components_to_string *)
Definition components_to_string (cs : list str) : str :=
  match cs with
  | [] => lit "/"
  | _ => concat ((fun c => lit "/" ++ c) <$> cs)
  end.

Definition SLASH : char := 47%Z.

Definition resolve_part (cs : list str) (part : str) : list str :=
  if bool_decide (part = []) || bool_decide (part = lit ".") then cs
  else if bool_decide (part = lit "..") then removelast cs
  else cs ++ [part].

Definition resolve_components (cs : list str) (path : str) : list str :=
  foldl resolve_part (if starts_with (lit "/") path then [] else cs) (split_char SLASH path).

(* [os/application/shell/src/context/working_directory_context.rs:24-43] WorkingDirectoryContext::resolve *)
Definition resolve (cs : list str) (path : str) : str := components_to_string (resolve_components cs path).

(** [naming_cd] is the system call that navigates the kernel's working directory. *)
(* [os/application/shell/src/context/working_directory_context.rs:45-66] WorkingDirectoryContext::cd *)
Definition wd_cd {W} (naming_cd : str -> W -> bool * W) (path : str) (cs : list str) (w : W) : result Error (list str) * W :=
  let absolute_path := resolve cs path in
  let '(ok, w) := naming_cd absolute_path w in
  if negb ok then (Err (error_new (lit "No such file or directory: " ++ absolute_path) None), w)
  else (Ok (filter (fun p => p <> []) (split_char SLASH absolute_path)), w).

(** ** Aliases *)

(* os/application/shell/src/context/alias_context.rs: AliasEntry *)
Record AliasEntry := { key : str; value : str }.

Definition MAX_ALIAS_LEN : nat := 16.

Fixpoint find_position (k : str) (es : list AliasEntry) : option nat :=
  match es with
  | [] => None
  | e :: es' => if bool_decide (key e = k) then Some 0 else S <$> find_position k es'
  end.

(* [os/application/shell/src/context/alias_context.rs:36-51] AliasContext::set *)
Definition alias_set (k v : str) (es : list AliasEntry) : outcome (result Error (list AliasEntry)) :=
  match find_position k es with
  | Some p =>
      e ← arr_get es p;
      es ← arr_set es p {| key := key e; value := v |};
      Ret (Ok es)
  | None =>
      if MAX_ALIAS_LEN <=? length es then Ret (Err (error_new (lit "Too many aliases") None))
      else Ret (Ok (es ++ [{| key := k; value := v |}]))
  end.

(* [os/application/shell/src/context/alias_context.rs:53-61] AliasContext::remove *)
Definition alias_remove (k : str) (es : list AliasEntry) : result unit (list AliasEntry) :=
  match find_position k es with
  | Some p => Ok (swap_remove es p)
  | None => Err tt
  end.

(* [os/application/shell/src/context/alias_context.rs:63-73] AliasContext::get *)
Definition alias_get (k : str) (es : list AliasEntry) : option str :=
  match find_position k es with
  | Some p => value <$> es !! p
  | None => None
  end.

Definition INITIAL_ALIASES : list (str * str) := [
  (lit "hhu", lit "Heinrich Heine Universitaet");
  (lit "hi", lit "Hello there");
  (lit "d3", lit "cargo make --no-workspace");
  (lit "d3p", lit "cargo make --no-workspace --profile production")].

Fixpoint alias_set_all (l : list (str * str)) (es : list AliasEntry) : outcome (list AliasEntry) :=
  match l with
  | [] => Ret es
  | (k, v) :: l' =>
      r ← alias_set k v es;
      match r with
      | Ok es => alias_set_all l' es
      | Err _ => Panic "called `Result::unwrap()` on an `Err` value"
      end
  end.

(* [os/application/shell/src/context/alias_context.rs:28-34] AliasContext::new *)
Definition alias_new : outcome (list AliasEntry) := alias_set_all INITIAL_ALIASES [].

(** ** Executables *)

(* [os/application/shell/src/context/executable_context.rs:5-10] IoTarget *)
Inductive IoTarget := Std | Job (i : nat) | FileTruncate (f : str) | FileAppend (f : str).

(* os/application/shell/src/context/executable_context.rs: JobResult *)
Inductive JobResult := Success | JobError.

#[global] Instance io_target_eq_dec : EqDecision IoTarget.
Proof. solve_decision. Defined.
#[global] Instance job_result_eq_dec : EqDecision JobResult.
Proof. solve_decision. Defined.

(* [os/application/shell/src/context/executable_context.rs:29-37] Executable *)
Record Executable := {
  id : nat; command : str; arguments : list str; input : IoTarget; output : IoTarget;
  background_execution : bool; requires_executable : option (nat * JobResult)
}.

Definition set_output (o : IoTarget) (e : Executable) : Executable :=
  {| id := id e; command := command e; arguments := arguments e; input := input e; output := o;
     background_execution := background_execution e; requires_executable := requires_executable e |}.
Definition set_background (b : bool) (e : Executable) : Executable :=
  {| id := id e; command := command e; arguments := arguments e; input := input e; output := output e;
     background_execution := b; requires_executable := requires_executable e |}.

(* [os/application/shell/src/context/executable_context.rs:39-47] ExecutableBuilder *)
Record ExecutableBuilder := {
  b_id : option nat; b_command : option str; b_arguments : list str; b_input : IoTarget; b_output : IoTarget;
  b_background_execution : bool; b_requires_executable : option (nat * JobResult)
}.

(** [ExecutableBuilder::new] followed by [id]. *)
Definition builder_new (i : nat) : ExecutableBuilder := {|
  b_id := Some i; b_command := None; b_arguments := []; b_input := Std; b_output := Std;
  b_background_execution := false; b_requires_executable := None |}.

Definition b_set_command (c : str) (b : ExecutableBuilder) : ExecutableBuilder :=
  {| b_id := b_id b; b_command := Some c; b_arguments := b_arguments b; b_input := b_input b; b_output := b_output b;
     b_background_execution := b_background_execution b; b_requires_executable := b_requires_executable b |}.
Definition b_add_argument (a : str) (b : ExecutableBuilder) : ExecutableBuilder :=
  {| b_id := b_id b; b_command := b_command b; b_arguments := b_arguments b ++ [a]; b_input := b_input b; b_output := b_output b;
     b_background_execution := b_background_execution b; b_requires_executable := b_requires_executable b |}.
Definition b_use_input (i : IoTarget) (b : ExecutableBuilder) : ExecutableBuilder :=
  {| b_id := b_id b; b_command := b_command b; b_arguments := b_arguments b; b_input := i; b_output := b_output b;
     b_background_execution := b_background_execution b; b_requires_executable := b_requires_executable b |}.
Definition b_use_output (o : IoTarget) (b : ExecutableBuilder) : ExecutableBuilder :=
  {| b_id := b_id b; b_command := b_command b; b_arguments := b_arguments b; b_input := b_input b; b_output := o;
     b_background_execution := b_background_execution b; b_requires_executable := b_requires_executable b |}.
Definition b_run_in_background (x : bool) (b : ExecutableBuilder) : ExecutableBuilder :=
  {| b_id := b_id b; b_command := b_command b; b_arguments := b_arguments b; b_input := b_input b; b_output := b_output b;
     b_background_execution := x; b_requires_executable := b_requires_executable b |}.
Definition b_requires (i : nat) (r : JobResult) (b : ExecutableBuilder) : ExecutableBuilder :=
  {| b_id := b_id b; b_command := b_command b; b_arguments := b_arguments b; b_input := b_input b; b_output := b_output b;
     b_background_execution := b_background_execution b; b_requires_executable := Some (i, r) |}.

(* [os/application/shell/src/context/executable_context.rs:106-122] ExecutableBuilder::build *)
Definition build (b : ExecutableBuilder) : option Executable :=
  match b_id b, b_command b with
  | Some i, Some c => Some {|
      id := i; command := c; arguments := b_arguments b; input := b_input b; output := b_output b;
      background_execution := b_background_execution b; requires_executable := b_requires_executable b |}
  | _, _ => None
  end.

(** ** The parser *)

(* [os/application/shell/src/service/parser.rs:19-23] IoType *)
Inductive IoType := InFile | OutAppend | OutTruncate.

(** The executables so far, the one being built and the redirection that waits for its file. *)
Record ParseState := { executables : list Executable; builder : ExecutableBuilder; current_io_type : option IoType }.

Definition set_builder (b : ExecutableBuilder) (p : ParseState) : ParseState :=
  {| executables := executables p; builder := b; current_io_type := current_io_type p |}.
Definition set_io_type (t : option IoType) (p : ParseState) : ParseState :=
  {| executables := executables p; builder := builder p; current_io_type := t |}.

(** What a token does to the executable being built. *)
(* [os/application/shell/src/service/parser.rs:86-155] ParserService::parse *)
Definition parse_kind (cwd : list str) (t : Token) (p : ParseState) : outcome (result Error ParseState) :=
  let b := builder p in
  match kind t with
  | Command => Ret (Ok (set_builder (b_set_command (content t) b) p))
  | Argument => Ret (Ok (set_builder (b_add_argument (content t) b) p))
  | Background =>
      Ret (Ok {| executables := set_background true <$> executables p; builder := b_run_in_background true b;
                 current_io_type := current_io_type p |})
  | And =>
      Ret match last (executables p) with
          | None => Err (error_new (lit "And condition requires a preceding executable") None)
          | Some e => Ok (set_builder (b_requires (id e) Success b) p)
          end
  | Or =>
      Ret match last (executables p) with
          | None => Err (error_new (lit "Or condition requires a preceding executable") None)
          | Some e => Ok (set_builder (b_requires (id e) JobError b) p)
          end
  | TkPipe =>
      match last (executables p) with
      | None => Ret (Err (error_new (lit "Pipe requires a preceding executable") None))
      | Some e =>
          i ← expect (b_id b) "Next executable id should be set by now";
          Ret (Ok {| executables := removelast (executables p) ++ [set_output (Job i) e];
                     builder := b_use_input (Job (id e)) b; current_io_type := current_io_type p |})
      end
  | TkFile =>
      Ret match current_io_type p with
          | None => Err (error_new (lit "Received file without redirection instruction") None)
          | Some io =>
              let abs_path := resolve cwd (content t) in
              let b := match io with
                       | InFile => b_use_input (FileTruncate abs_path) b
                       | OutAppend => b_use_output (FileAppend abs_path) b
                       | OutTruncate => b_use_output (FileTruncate abs_path) b
                       end in
              Ok (set_io_type None (set_builder b p))
          end
  | RedirectInFile => Ret (Ok (set_io_type (Some InFile) p))
  | RedirectOutAppend => Ret (Ok (set_io_type (Some OutAppend) p))
  | RedirectOutTruncate => Ret (Ok (set_io_type (Some OutTruncate) p))
  | QuoteStart | QuoteEnd | Blank | Separator => Ret (Ok p)
  end.

(** A token outside of a segment ends the executable being built; there is nothing more to do
    with it where there was none.  What was parsed is kept where an error is found. *)
(* [os/application/shell/src/service/parser.rs:76-84] ParserService::parse *)
Definition parse_token (cwd : list str) (t : Token) (p : ParseState) : outcome (ParseState * option Error) :=
  let next p :=
    r ← parse_kind cwd t p;
    Ret match r with Ok p => (p, None) | Err e => (p, Some e) end in
  if negb (is_some (cmd_pos_in_segment (clx t))) then
    match build (builder p) with
    | None => Ret (p, None)
    | Some e =>
        next {| executables := executables p ++ [e]; builder := builder_new (S (length (executables p)));
                current_io_type := current_io_type p |}
    end
  else next p.

Fixpoint parse_tokens (cwd : list str) (ts : list Token) (p : ParseState) : outcome (ParseState * option Error) :=
  match ts with
  | [] => Ret (p, None)
  | t :: ts' =>
      '(p, e) ← parse_token cwd t p;
      match e with
      | None => parse_tokens cwd ts' p
      | Some e => Ret (p, Some e)
      end
  end.

(* [os/application/shell/src/service/parser.rs:58-169] ParserService::parse *)
Definition parse (cwd : list str) (ts : list Token) (es : list Executable) : outcome (list Executable * option Error) :=
  match status <$> last ts with
  | Some (StatusError e) | Some (Incomplete e) => Ret (es, Some e)
  | _ =>
      '(p, e) ← parse_tokens cwd ts {| executables := es; builder := builder_new (length es); current_io_type := None |};
      match e with
      | Some e => Ret (executables p, Some e)
      | None => Ret (match build (builder p) with Some x => executables p ++ [x] | None => executables p end, None)
      end
  end.
