(* ===== verification/ShellParseProofs.v ===== *)
(** * The parser makes what the line says

    The executables of a line without errors are those of its segments: a reference definition
    reads the segments off the tokens, and the parser agrees with it. *)

From S2P Require Import Prelude ShellText ShellToken ShellLexer ShellLexProofs ShellParser.

Open Scope nat_scope.

(** ** What the tokens so far ask for *)

Definition seen (f : TokenContext -> bool) (ts : list Token) : bool :=
  match last ts with Some l => f (clx l) | None => false end.

Abbreviation has_command := (seen (fun c => is_some (cmd_pos_in_segment c))).
Abbreviation needs_segment := (seen require_segment).
Abbreviation needs_file := (seen require_file).
Abbreviation at_end := (seen is_end_of_line).

Definition no_error (ts : list Token) : Prop :=
  match last ts with Some l => status_is_error (status l) = false | None => True end.

Lemma seen_snoc f ts t : seen f (ts ++ [t]) = f (clx t).
Proof. unfold seen. by rewrite last_snoc. Qed.

(** The context after a token, from the one before it. *)
Lemma create_context ts t : create ts (kind t) (content t) = Ret t ->
  is_some (cmd_pos_in_segment (clx t)) = match kind t with
    | Command => true | And | Or | TkPipe | Separator | Background => false | _ => has_command ts end /\
  require_segment (clx t) = match kind t with
    | Command => false | And | Or | TkPipe => true | _ => needs_segment ts end /\
  require_file (clx t) = match kind t with
    | TkFile => false | RedirectInFile | RedirectOutTruncate | RedirectOutAppend => true | _ => needs_file ts end /\
  is_end_of_line (clx t) = match kind t with Background => true | _ => at_end ts end.
Proof.
  unfold create, create_next, create_first, seen. intros H. destruct t as [k s c u]. simpl in *.
  destruct (last ts) as [l|]; destruct k; simpl in *; try (destruct s as [|ch s]; simpl in * );
    try discriminate H; injection H as <- <-; done.
Qed.

(** What a token that is not an error may follow. *)
Definition allowed (k : TokenKind) (ts : list Token) : Prop :=
  match k with
  | Command => has_command ts = false /\ needs_file ts = false /\ at_end ts = false
  | Argument => has_command ts = true /\ needs_file ts = false
  | TkFile => needs_file ts = true
  | And | Or | TkPipe | RedirectInFile | RedirectOutTruncate | RedirectOutAppend | Background =>
      has_command ts = true /\ needs_file ts = false
  | Separator => needs_file ts = false /\ needs_segment ts = false
  | QuoteStart | QuoteEnd | Blank => True
  end.

Lemma create_no_error ts t : create ts (kind t) (content t) = Ret t -> status_is_error (status t) = false ->
  no_error ts /\ allowed (kind t) ts.
Proof.
  unfold create, create_next, create_first, no_error, allowed, seen. intros H S. destruct t as [k s c u]. simpl in *.
  destruct (last ts) as [l|].
  - destruct (next_token_fn (get_definition k) l s) as [d|]; [|done]. simpl in H. injection H as <- <-.
    destruct (status_is_error (status l)) eqn:E; [congruence|]. split; [done|].
    destruct k; simpl in S |- *; try done;
      destruct (is_some (cmd_pos_in_segment (clx l))), (require_file (clx l)), (require_segment (clx l)),
        (is_end_of_line (clx l)); simpl in S; try discriminate S; done.
  - split; [done|]. destruct k; simpl in *; try (destruct s as [|ch s]; simpl in * ); try discriminate H;
      injection H as <- <-; simpl in S; try discriminate S; done.
Qed.

(** ** The segments of a line *)

(** How a segment is joined to the one before it. *)
Inductive Link := LNone | LAnd | LOr | LPipe.

Record Segment := { s_link : Link; s_command : str; s_arguments : list str; s_input : option str;
                    s_output : option (bool * str) }.

(** The segments so far, the link that waits for its segment and the redirection that waits for
    its file. *)
Record Reading := { segments : list Segment; link : Link; redirection : option IoType; in_background : bool }.

Definition alter_last {A} (f : A -> A) (l : list A) : list A :=
  match last l with Some x => removelast l ++ [f x] | None => l end.

Definition add_word (a : str) (s : Segment) : Segment :=
  {| s_link := s_link s; s_command := s_command s; s_arguments := s_arguments s ++ [a]; s_input := s_input s; s_output := s_output s |}.

Definition redirect (io : option IoType) (f : str) (s : Segment) : Segment :=
  {| s_link := s_link s; s_command := s_command s; s_arguments := s_arguments s;
     s_input := match io with Some InFile => Some f | _ => s_input s end;
     s_output := match io with Some OutAppend => Some (true, f) | Some OutTruncate => Some (false, f) | _ => s_output s end |}.

Definition read_token (r : Reading) (t : Token) : Reading :=
  let '{| segments := ss; link := l; redirection := io; in_background := b |} := r in
  match kind t with
  | Command =>
      {| segments := ss ++ [{| s_link := l; s_command := content t; s_arguments := []; s_input := None; s_output := None |}];
         link := LNone; redirection := io; in_background := b |}
  | Argument => {| segments := alter_last (add_word (content t)) ss; link := l; redirection := io; in_background := b |}
  | TkFile => {| segments := alter_last (redirect io (content t)) ss; link := l; redirection := None; in_background := b |}
  | And => {| segments := ss; link := LAnd; redirection := io; in_background := b |}
  | Or => {| segments := ss; link := LOr; redirection := io; in_background := b |}
  | TkPipe => {| segments := ss; link := LPipe; redirection := io; in_background := b |}
  | RedirectInFile => {| segments := ss; link := l; redirection := Some InFile; in_background := b |}
  | RedirectOutTruncate => {| segments := ss; link := l; redirection := Some OutTruncate; in_background := b |}
  | RedirectOutAppend => {| segments := ss; link := l; redirection := Some OutAppend; in_background := b |}
  | Background => {| segments := ss; link := l; redirection := io; in_background := true |}
  | QuoteStart | QuoteEnd | Blank | Separator => r
  end.

Definition read_line (ts : list Token) : Reading :=
  foldl read_token {| segments := []; link := LNone; redirection := None; in_background := false |} ts.

(** The executable of a segment at a position, given the link of the segment after it. *)
Definition executable_of (cwd : list str) (bg : bool) (i : nat) (s : Segment) (next : Link) : Executable := {|
  id := i; command := s_command s; arguments := s_arguments s;
  input := match s_input s, s_link s with
           | Some f, _ => FileTruncate (resolve cwd f)
           | None, LPipe => Job (i - 1)
           | None, _ => Std
           end;
  output := match next, s_output s with
            | LPipe, _ => Job (S i)
            | _, Some (true, f) => FileAppend (resolve cwd f)
            | _, Some (false, f) => FileTruncate (resolve cwd f)
            | _, None => Std
            end;
  background_execution := bg;
  requires_executable := match s_link s with
                         | LAnd => Some (i - 1, Success)
                         | LOr => Some (i - 1, JobError)
                         | _ => None
                         end |}.

Fixpoint executables_of (cwd : list str) (bg : bool) (i : nat) (ss : list Segment) (next : Link) : list Executable :=
  match ss with
  | [] => []
  | s :: ss' =>
      executable_of cwd bg i s (match ss' with s' :: _ => s_link s' | [] => next end) :: executables_of cwd bg (S i) ss' next
  end.

Lemma executables_of_snoc cwd bg i ss s next :
  executables_of cwd bg i (ss ++ [s]) next = executables_of cwd bg i ss (s_link s) ++ [executable_of cwd bg (i + length ss) s next].
Proof.
  revert i. induction ss as [|s1 ss IH]; intros i; simpl; [by rewrite Nat.add_0_r|].
  rewrite IH. replace (S i + length ss) with (i + S (length ss)) by lia. by destruct ss.
Qed.

Lemma executables_of_length cwd bg i ss next : length (executables_of cwd bg i ss next) = length ss.
Proof. revert i. induction ss as [|s ss IH]; intros i; simpl; [done|]. by rewrite IH. Qed.

Lemma executables_of_lookup cwd bg i ss next k s : ss !! k = Some s ->
  executables_of cwd bg i ss next !! k = Some (executable_of cwd bg (i + k) s (match ss !! S k with Some s' => s_link s' | None => next end)).
Proof.
  revert i k. induction ss as [|s1 ss IH]; intros i k E; [done|]. destruct k as [|k]; simpl in *.
  - injection E as ->. rewrite Nat.add_0_r. by destruct ss.
  - rewrite (IH (S i) k E). by replace (S i + k) with (i + S k) by lia.
Qed.

Lemma executables_of_background cwd i ss next :
  set_background true <$> executables_of cwd false i ss next = executables_of cwd true i ss next.
Proof. revert i. induction ss as [|s ss IH]; intros i; simpl; [done|]. by rewrite IH. Qed.

(** ** The parser follows the reading *)

Definition builder_of (e : Executable) : ExecutableBuilder := {|
  b_id := Some (id e); b_command := Some (command e); b_arguments := arguments e; b_input := input e; b_output := output e;
  b_background_execution := background_execution e; b_requires_executable := requires_executable e |}.

Definition open_builder (n : nat) (l : Link) (b : bool) : ExecutableBuilder := {|
  b_id := Some n; b_command := None; b_arguments := []; b_input := match l with LPipe => Job (n - 1) | _ => Std end;
  b_output := Std; b_background_execution := b;
  b_requires_executable := match l with LAnd => Some (n - 1, Success) | LOr => Some (n - 1, JobError) | _ => None end |}.

Inductive parsed (cwd : list str) : bool -> Reading -> ParseState -> Prop :=
| in_segment ss s io :
    parsed cwd true {| segments := ss ++ [s]; link := LNone; redirection := io; in_background := false |}
      {| executables := executables_of cwd false 0 ss (s_link s);
         builder := builder_of (executable_of cwd false (length ss) s LNone); current_io_type := io |}
| between ss l io b :
    parsed cwd false {| segments := ss; link := l; redirection := io; in_background := b |}
      {| executables := executables_of cwd b 0 ss l; builder := open_builder (length ss) l b; current_io_type := io |}.

Lemma build_builder_of e : build (builder_of e) = Some e.
Proof. by destruct e. Qed.

Lemma alter_last_snoc {A} (f : A -> A) l x : alter_last f (l ++ [x]) = l ++ [f x].
Proof. unfold alter_last. by rewrite last_snoc, removelast_last. Qed.

Section step.
Context (cwd : list str) (t : Token) (r : Reading) (p : ParseState).

(** A token in a segment. *)
Lemma parse_in_segment :
  parsed cwd true r p -> is_some (cmd_pos_in_segment (clx t)) = true -> kind t <> Command ->
  match kind t with And | Or | TkPipe | Separator | Background => False | _ => True end ->
  (kind t = TkFile -> is_some (redirection r) = true) ->
  exists p', parse_token cwd t p = Ret (p', None) /\ parsed cwd true (read_token r t) p'.
Proof.
  intros H C NC K F. inversion H as [ss s io Er Ep|]; subst. unfold parse_token, parse_kind, read_token. rewrite C. simpl.
  destruct (kind t); try done; try (eexists; split; [reflexivity|]; apply in_segment).
  - eexists. split; [reflexivity|]. rewrite alter_last_snoc. apply (in_segment cwd ss (add_word (content t) s) io).
  - specialize (F eq_refl). destruct io as [io|]; [|done]. eexists. split; [reflexivity|]. rewrite alter_last_snoc.
    pose proof (in_segment cwd ss (redirect (Some io) (content t) s) None) as S. destruct io; exact S.
Qed.

(** A token that ends a segment. *)
Lemma parse_ends_segment :
  parsed cwd true r p -> is_some (cmd_pos_in_segment (clx t)) = false ->
  match kind t with And | Or | TkPipe | Separator | Background => True | _ => False end ->
  exists p', parse_token cwd t p = Ret (p', None) /\ parsed cwd false (read_token r t) p'.
Proof.
  intros H C K. inversion H as [ss s io Er Ep|]; subst. unfold parse_token. rewrite C. cbn [negb builder].
  rewrite build_builder_of. cbn [executables current_io_type].
  rewrite executables_of_length. unfold parse_kind, read_token.
  assert (L : length (ss ++ [s]) = S (length ss)) by (rewrite length_app; simpl; lia).
  assert (Ex : forall l, l <> LPipe -> executables_of cwd false 0 ss (s_link s) ++ [executable_of cwd false (length ss) s LNone] =
              executables_of cwd false 0 (ss ++ [s]) l) by (intros l N; rewrite executables_of_snoc; by destruct l).
  destruct (kind t); try done; simpl; rewrite ?last_snoc; simpl; rewrite ?removelast_last;
    eexists; (split; [reflexivity|]).
  - rewrite (Ex LAnd) by done. pose proof (between cwd (ss ++ [s]) LAnd io false) as B. unfold open_builder in B.
    rewrite L in B. simpl in B. by rewrite Nat.sub_0_r in B.
  - rewrite (Ex LOr) by done. pose proof (between cwd (ss ++ [s]) LOr io false) as B. unfold open_builder in B.
    rewrite L in B. simpl in B. by rewrite Nat.sub_0_r in B.
  - rewrite (Ex LNone) by done. pose proof (between cwd (ss ++ [s]) LNone io false) as B. by rewrite L in B.
  - pose proof (between cwd (ss ++ [s]) LPipe io false) as B. rewrite L in B. unfold open_builder in B. simpl in B.
    rewrite executables_of_snoc, Nat.sub_0_r in B. exact B.
  - rewrite (Ex LNone), executables_of_background by done. pose proof (between cwd (ss ++ [s]) LNone io true) as B.
    by rewrite L in B.
Qed.

(** A token between segments. *)
Lemma parse_between :
  parsed cwd false r p ->
  match kind t with
  | Command => is_some (cmd_pos_in_segment (clx t)) = true /\ in_background r = false
  | QuoteStart | QuoteEnd | Blank | Separator => is_some (cmd_pos_in_segment (clx t)) = false
  | _ => False
  end ->
  exists p', parse_token cwd t p = Ret (p', None) /\
    parsed cwd (bool_decide (kind t = Command)) (read_token r t) p'.
Proof.
  intros H K. inversion H as [|ss l io b Er Ep]; subst. unfold parse_token, read_token.
  destruct (kind t) eqn:Ek; try done; try (rewrite K; eexists; split; [reflexivity|exact H]).
  destruct K as [C B]. simpl in B. subst b. rewrite C. unfold parse_kind. rewrite Ek. eexists. split; [reflexivity|].
  pose proof (in_segment cwd ss {| s_link := l; s_command := content t; s_arguments := []; s_input := None; s_output := None |} io) as S.
  destruct l; exact S.
Qed.
End step.

(** ** The whole line *)

Lemma parse_tokens_snoc cwd ts t p :
  parse_tokens cwd (ts ++ [t]) p =
  ('(p, e) ← parse_tokens cwd ts p; match e with None => parse_token cwd t p | Some e => Ret (p, Some e) end).
Proof.
  revert p. induction ts as [|t1 ts IH]; intros p; simpl.
  - destruct (parse_token cwd t p) as [[p' [e|]]|]; done.
  - destruct (parse_token cwd t1 p) as [[p' [e|]]|]; simpl; try done.
Qed.

Lemma read_line_snoc ts t : read_line (ts ++ [t]) = read_token (read_line ts) t.
Proof. unfold read_line. by rewrite foldl_app. Qed.

(** What waits in the reading is what the tokens ask for. *)
Lemma read_line_waits ts : lexed ts -> no_error ts ->
  is_some (redirection (read_line ts)) = needs_file ts /\ in_background (read_line ts) = at_end ts /\
  (link (read_line ts) = LNone \/ needs_segment ts = true).
Proof.
  intros H. induction H as [|ts t H IH C O]; intros N; [by auto|]. unfold no_error in N. rewrite last_snoc in N.
  destruct (create_no_error ts t C N) as [N' _]. destruct (IH N') as (I1 & I2 & I3).
  destruct (create_context ts t C) as (_ & C2 & C3 & C4). rewrite read_line_snoc, !seen_snoc, C2, C3, C4.
  destruct (read_line ts) as [ss l io b]. simpl in *. destruct (kind t); simpl; auto.
Qed.

Lemma needs_file_command ts : lexed ts -> no_error ts -> needs_file ts = true -> has_command ts = true.
Proof.
  intros H. induction H as [|ts t H IH C O]; intros N F; [done|]. unfold no_error in N. rewrite last_snoc in N.
  destruct (create_no_error ts t C N) as [N' A]. destruct (create_context ts t C) as (C1 & _ & C3 & _).
  rewrite seen_snoc in *. rewrite C1. rewrite C3 in F.
  destruct (kind t); simpl in A; try done; try (by apply IH); destruct A as [A1 A2]; congruence.
Qed.

Lemma parse_line cwd ts : lexed ts -> no_error ts ->
  exists p, parse_tokens cwd ts {| executables := []; builder := builder_new 0; current_io_type := None |} = Ret (p, None) /\
    parsed cwd (has_command ts) (read_line ts) p.
Proof.
  intros H. induction H as [|ts t H IH C O]; intros N.
  - eexists. split; [reflexivity|]. apply (between cwd [] LNone None false).
  - unfold no_error in N. rewrite last_snoc in N. destruct (create_no_error ts t C N) as [N' A]. destruct (IH N') as (p & E & P).
    destruct (read_line_waits ts H N') as (W1 & W2 & _). destruct (create_context ts t C) as (C1 & _ & _ & _).
    rewrite parse_tokens_snoc, E, read_line_snoc, seen_snoc. simpl. destruct (has_command ts) eqn:Hc.
    + rewrite <-Hc in P. destruct (kind t) eqn:K; simpl in A, C1; rewrite C1;
        first [ apply parse_in_segment; rewrite ?K, ?W1; by rewrite ?Hc in *
              | apply parse_ends_segment; rewrite ?K; by rewrite ?Hc in *
              | by destruct A as [A _]; rewrite A in Hc ].
    + destruct (parse_between cwd t (read_line ts) p P) as (p' & E' & P').
      * destruct (kind t); simpl in A; try (by destruct A as [A _]; rewrite A in Hc); try done.
        -- rewrite W2. by destruct A as (_ & _ & ->).
        -- by rewrite (needs_file_command ts H N' A) in Hc.
      * exists p'. split; [done|]. rewrite C1.
        destruct (kind t); simpl in A; try exact P'; try (by destruct A as [A _]; rewrite A in Hc).
Qed.

(** ** The claim *)

(** The line has no error and misses nothing at its end. *)
Definition is_complete (ts : list Token) : Prop :=
  match last ts with Some l => status l = Valid | None => True end.

Lemma complete_no_error ts : is_complete ts -> no_error ts.
Proof. unfold is_complete, no_error. destruct (last ts) as [l|]; [|done]. by intros ->. Qed.

Lemma complete_segment ts : lexed ts -> is_complete ts -> needs_segment ts = false.
Proof.
  intros H. unfold is_complete, seen. destruct (last ts) as [l|] eqn:E; [|done]. intros S.
  destruct (lexed_last ts l H E) as (ts' & -> & _ & C & _). unfold create, create_next, create_first in C. destruct l as [k s c u].
  simpl in *. subst u. destruct (require_segment c) eqn:R; [|done].
  destruct (last ts') as [l'|].
  - destruct (next_token_fn _ _ _) as [d|]; [|done]. simpl in C. injection C as Ec Es. rewrite Ec in Es.
    destruct (status_is_error (status l')) eqn:Se; [by rewrite Es in Se|]. destruct (List.find _ _); [done|].
    unfold get_incomplete_status in Es. rewrite R in Es. by destruct (is_some (in_quote c)).
  - destruct (first_token_fn _ _) as [d|]; [|done]. simpl in C. injection C as Ec Es. rewrite Ec in Es.
    destruct (ft_error_reason d); [done|]. unfold get_incomplete_status in Es. rewrite R in Es. by destruct (is_some (in_quote c)).
Qed.

(** A complete line is parsed without an error, to the executables of its segments. *)
Lemma parse_complete cwd ts : lexed ts -> is_complete ts ->
  parse cwd ts [] = Ret (executables_of cwd (in_background (read_line ts)) 0 (segments (read_line ts)) LNone, None).
Proof.
  intros H V. pose proof (complete_no_error ts V) as N. destruct (parse_line cwd ts H N) as (p & E & P).
  destruct (read_line_waits ts H N) as (_ & _ & L). rewrite (complete_segment ts H V) in L. destruct L as [L|]; [|done].
  unfold parse. replace (match status <$> last ts with Some (StatusError e) | Some (Incomplete e) => Ret ([], Some e) | _ => _ end)
    with ('(p, e) ← parse_tokens cwd ts {| executables := []; builder := builder_new 0; current_io_type := None |};
          match e with
          | Some e => Ret (executables p, Some e)
          | None => Ret (match build (builder p) with Some x => executables p ++ [x] | None => executables p end, None)
          end) by (unfold is_complete in V; destruct (last ts) as [l|]; simpl; [by rewrite V|done]).
  rewrite E.
  inversion P as [ss s io Ec Er Ep|ss l io b Ec Er Ep]; cbn -[build builder_of executables_of].
  - rewrite build_builder_of, executables_of_snoc. done.
  - rewrite <-Er in L. simpl in L. by rewrite L.
Qed.

(** An incomplete or wrong line is refused with the reason and changes no executable. *)
Lemma parse_incomplete cwd ts es : ~ is_complete ts -> exists e, parse cwd ts es = Ret (es, Some e).
Proof.
  unfold is_complete, parse. destruct (last ts) as [l|]; [|done]. simpl. destruct (status l) as [|e|e]; [done|..]; by exists e.
Qed.

(** ** Links stay inside the line *)

Lemma first_segment_free ts : lexed ts -> no_error ts ->
  (link (read_line ts) <> LNone -> segments (read_line ts) <> []) /\
  forall s, segments (read_line ts) !! 0 = Some s -> s_link s = LNone.
Proof.
  intros H. induction H as [|ts t H IH C O]; intros N; [done|]. pose proof N as N0. unfold no_error in N. rewrite last_snoc in N.
  destruct (create_no_error ts t C N) as [N' A]. destruct (IH N') as [I1 I2].
  destruct (parse_line [] ts H N') as (p & _ & P).
  assert (Hc : has_command ts = true -> segments (read_line ts) <> []).
  { intros Hc. rewrite Hc in P. inversion P as [ss s io Ec Er Ep|]. simpl. by destruct ss. }
  clear P. rewrite read_line_snoc. destruct (read_line ts) as [ss l io b]. simpl in *.
  assert (Al : forall f : Segment -> Segment, (forall s, s_link (f s) = s_link s) ->
    (l <> LNone -> alter_last f ss <> []) /\ (forall s, alter_last f ss !! 0 = Some s -> s_link s = LNone)).
  { intros f Hf. unfold alter_last. destruct ss as [|x ss _] using rev_ind; [done|]. rewrite last_snoc, removelast_last.
    split; [by destruct ss|]. intros s E. destruct ss as [|y ss]; simpl in *; injection E as <-; [rewrite Hf|]; by apply I2. }
  destruct (kind t) eqn:K; simpl; try (by split; [intros _; apply Hc, A|]); try (by apply Al); try exact (conj I1 I2).
  split; [done|]. intros s E. destruct ss as [|x ss]; simpl in E; injection E as <-; [|by apply I2].
  simpl. destruct l; [done|..]; by destruct (I1 ltac:(done)).
Qed.

(** Every executable has its position as id; it requires the result of the one before it, reads
    the output of the one before it, which writes to it, or writes to the one after it. *)
Definition linked (es : list Executable) : Prop :=
  forall i e, es !! i = Some e ->
    id e = i /\
    (forall j r, requires_executable e = Some (j, r) -> S j = i) /\
    (forall j, input e = Job j -> S j = i /\ output <$> es !! j = Some (Job i)) /\
    (forall j, output e = Job j -> j = S i /\ j < length es).

Lemma executables_of_linked cwd bg ss : (forall s, ss !! 0 = Some s -> s_link s = LNone) ->
  linked (executables_of cwd bg 0 ss LNone).
Proof.
  intros F i e E. assert (L : i < length ss).
  { apply lookup_lt_Some in E. by rewrite executables_of_length in E. }
  destruct (lookup_lt_is_Some_2 ss i L) as [s Es]. rewrite (executables_of_lookup _ _ _ _ _ i s Es) in E. injection E as <-.
  assert (Z : s_link s <> LNone -> S (i - 1) = i) by (intros Hl; destruct i; [by destruct Hl; apply F|lia]).
  split; [done|]. split; [|split].
  - intros j r E. simpl in E. destruct (s_link s); try done; injection E as <- _; by apply Z.
  - intros j E. simpl in E. destruct (s_input s); [done|]. destruct (s_link s) eqn:El; try done. injection E as <-.
    specialize (Z ltac:(done)). split; [done|].
    destruct (lookup_lt_is_Some_2 ss (i - 1)) as [s' Es']; [lia|].
    rewrite (executables_of_lookup _ _ _ _ _ (i - 1) s' Es'). simpl. by rewrite Z, Es, El.
  - intros j E. simpl in E. rewrite executables_of_length. destruct (ss !! S i) as [s'|] eqn:Es'.
    + apply lookup_lt_Some in Es'. destruct (s_link s'), (s_output s) as [[[] f]|]; try done; by injection E as <-.
    + by destruct (s_output s) as [[[] f]|].
Qed.

Lemma parse_linked cwd ts es : lexed ts -> is_complete ts -> parse cwd ts [] = Ret (es, None) -> linked es.
Proof.
  intros H V E. rewrite (parse_complete cwd ts H V) in E. injection E as <-. apply executables_of_linked.
  by apply first_segment_free, complete_no_error.
Qed.
