(* ===== verification/ShellServices.v ===== *)
(** * The services of the shell that edit, complete and show the line *)

From S2P Require Import Prelude ShellText ShellToken ShellLexer.
From S2P Require Import ShellParser.

Open Scope nat_scope.

(** * Services of the shell ([os/application/shell/src/service])

    The services share the line, its tokens and the suggestion.  Each handler is a function of
    the contexts it borrows; the events it triggers are part of its result. *)

(** ** Events *)

(** The keys the shell tells apart; the key codes are those of the keyboard driver. *)
Inductive KeyCode := ArrowLeft | ArrowRight | ArrowUp | ArrowDown | Home | End | OtherKey.
Inductive DecodedKey := RawKey (k : KeyCode) | Unicode (c : char).

(* [os/application/shell/src/event/event.rs:6-16] Event *)
Inductive Event :=
| KeyPressed (k : DecodedKey) | PrepareNewLine | CursorMoved (step : Z) | HistoryRestored | LineWritten
| TokensWritten | Submit | ProcessCompleted | ProcessFailed (e : Error).

Definition NEWLINE : char := 10%Z.
Definition BACKSPACE : char := 8%Z.
Definition DELETE : char := 127%Z.
Definition ESCAPE : char := 27%Z.
Definition SPACE : char := 32%Z.

(** ** The command line *)

Definition MAX_LINE_LEN : nat := 256.

(* [os/application/shell/src/service/command_line.rs:56-64] CommandLineService::remove_at_cursor *)
Definition remove_at_cursor (l : LineContext) : outcome (LineContext * list Event) :=
  if is_cursor_at_end l then Ret (l, [])
  else l ← line_remove (cursor_position l) l; Ret (l, [LineWritten]).

(* [os/application/shell/src/service/command_line.rs:66-75] CommandLineService::remove_before_cursor *)
Definition remove_before_cursor (l : LineContext) : outcome (LineContext * list Event) :=
  if is_cursor_at_start l then Ret (l, [])
  else
    i ← usub (cursor_position l) 1;
    l ← line_remove i l;
    i ← usub (cursor_position l) 1;
    Ret (set_cursor_pos i l, [LineWritten]).

(* [os/application/shell/src/service/command_line.rs:77-86] CommandLineService::add_at_cursor *)
Definition add_at_cursor (c : char) (l : LineContext) : outcome (LineContext * list Event) :=
  if MAX_LINE_LEN <=? str_len (line l) then Ret (l, [])
  else
    l ← line_insert (cursor_position l) c l;
    Ret (set_cursor_pos (S (cursor_position l)) l, [LineWritten]).

(* [os/application/shell/src/service/command_line.rs:99-107] CommandLineService::move_cursor_right *)
Definition move_cursor_right (l : LineContext) : outcome (LineContext * list Event) :=
  if is_cursor_at_end l then Ret (l, [])
  else Ret (set_cursor_pos (S (cursor_position l)) l, [CursorMoved 1]).

(* [os/application/shell/src/service/command_line.rs:109-117] CommandLineService::move_cursor_left *)
Definition move_cursor_left (l : LineContext) : outcome (LineContext * list Event) :=
  if is_cursor_at_start l then Ret (l, [])
  else i ← usub (cursor_position l) 1; Ret (set_cursor_pos i l, [CursorMoved (-1)]).

(* [os/application/shell/src/service/command_line.rs:19-36] CommandLineService::on_key_pressed *)
Definition command_line_key (k : DecodedKey) (l : LineContext) : outcome (LineContext * list Event) :=
  match k with
  | RawKey ArrowLeft => move_cursor_left l
  | RawKey ArrowRight => move_cursor_right l
  | RawKey Home => Ret (set_cursor_pos 0 l, [])
  | RawKey End => Ret (set_cursor_pos (str_len (line l)) l, [])
  | RawKey _ => Ret (l, [])
  | Unicode c =>
      if (c =? TAB)%Z || (c =? ESCAPE)%Z then Ret (l, [])
      else if (c =? NEWLINE)%Z then Ret (l, [Submit])
      else if (c =? BACKSPACE)%Z then remove_before_cursor l
      else if (c =? DELETE)%Z then remove_at_cursor l
      else add_at_cursor c l
  end.

(** ** The history *)

Definition MAX_HISTORY_LEN : nat := 10.

(** The newest line is first. *)
(* [os/application/shell/src/service/history.rs:15-20] HistoryService *)
Record History := { history : list str; history_position : Z }.

Definition history_new : History := {| history := []; history_position := -1 |}.
Definition reset_position (h : History) : History := {| history := history h; history_position := -1 |}.

(* [os/application/shell/src/service/history.rs:52-59] HistoryService::add *)
Definition history_add (l : LineContext) (h : History) : History :=
  let old := if MAX_HISTORY_LEN <=? length (history h) then removelast (history h) else history h in
  {| history := line l :: old; history_position := history_position h |}.

(* [os/application/shell/src/service/history.rs:89-97] HistoryService::restore *)
Definition restore (h : History) : outcome (LineContext * History * list Event) :=
  let found := if (history_position h <? 0)%Z then None else history h !! Z.to_nat (history_position h) in
  s ← expect found "called `Option::unwrap()` on a `None` value";
  Ret (set_cursor_pos (str_len s) (set_line s line_new), h, [HistoryRestored]).

(* [os/application/shell/src/service/history.rs:65-72] HistoryService::move_up *)
Definition move_up (l : LineContext) (h : History) : outcome (LineContext * History * list Event) :=
  if (Z.of_nat (length (history h)) - 1 <=? history_position h)%Z then Ret (l, h, [])
  else restore {| history := history h; history_position := history_position h + 1 |}.

(* [os/application/shell/src/service/history.rs:74-87] HistoryService::move_down *)
Definition move_down (l : LineContext) (h : History) : outcome (LineContext * History * list Event) :=
  if (history_position h =? -1)%Z then Ret (l, h, [])
  else if (history_position h <=? 0)%Z then Ret (line_new, reset_position h, [HistoryRestored])
  else restore {| history := history h; history_position := history_position h - 1 |}.

(* [os/application/shell/src/service/history.rs:23-29] HistoryService::on_key_pressed *)
Definition history_key (k : DecodedKey) (l : LineContext) (h : History) : outcome (LineContext * History * list Event) :=
  match k with
  | RawKey ArrowUp => move_up l h
  | RawKey ArrowDown => move_down l h
  | _ => Ret (l, h, [])
  end.

(** ** Suggestions *)

(* [os/application/shell/src/context/suggestion_context.rs:4-8] SuggestionContext *)
Record SuggestionContext := { suggestion : str; is_dirty : bool; has_focus : bool }.

Definition suggestion_new : SuggestionContext := {| suggestion := []; is_dirty := true; has_focus := false |}.

(* [os/library/globals/src/application.rs:2-6] Application *)
Record Application := { namespace : str; single_value : list str; key_value_pair : list (str * list str) }.

(* [os/application/shell/src/service/auto_completion.rs:22-32] AutoCompletionService *)
Record AutoCompletion := {
  applications : list Application; current_index : nat; current_app : option Application;
  current_key_value_idx : option nat; current_suggestion : option str
}.

Definition set_current_index (i : nat) (a : AutoCompletion) : AutoCompletion :=
  {| applications := applications a; current_index := i; current_app := current_app a;
     current_key_value_idx := current_key_value_idx a; current_suggestion := current_suggestion a |}.
Definition set_current_app (x : option Application) (a : AutoCompletion) : AutoCompletion :=
  {| applications := applications a; current_index := current_index a; current_app := x;
     current_key_value_idx := current_key_value_idx a; current_suggestion := current_suggestion a |}.
Definition set_current_key_value_idx (x : option nat) (a : AutoCompletion) : AutoCompletion :=
  {| applications := applications a; current_index := current_index a; current_app := current_app a;
     current_key_value_idx := x; current_suggestion := current_suggestion a |}.
Definition set_current_suggestion (x : option str) (a : AutoCompletion) : AutoCompletion :=
  {| applications := applications a; current_index := current_index a; current_app := current_app a;
     current_key_value_idx := current_key_value_idx a; current_suggestion := x |}.

(** The service and the context of its suggestion. *)
Definition AutoState : Type := AutoCompletion * SuggestionContext.

(* [os/application/shell/src/service/auto_completion.rs:123-128] AutoCompletionService::clear_suggestion *)
Definition clear_suggestion (st : AutoState) : AutoState :=
  (set_current_suggestion None (set_current_index 0 st.1), suggestion_new).

(* [os/application/shell/src/service/auto_completion.rs:130-134] AutoCompletionService::reset *)
Definition completion_reset (st : AutoState) : AutoState :=
  clear_suggestion (set_current_key_value_idx None (set_current_app None st.1), st.2).

(* [os/application/shell/src/service/auto_completion.rs:189-209] AutoCompletionService::revalidate_application *)
Definition revalidate_application (t : TokensContext) (a : AutoCompletion) : outcome AutoCompletion :=
  last_command ← find_last_command t;
  match last_command with
  | None => Ret (set_current_suggestion None a)
  | Some tok =>
      if match current_app a with Some app => bool_decide (namespace app = content tok) | None => false end then Ret a
      else Ret (set_current_app (List.find (fun app => bool_decide (namespace app = content tok)) (applications a)) a)
  end.

Definition key_index_panic : string := "index out of bounds: key_value_pair[current_key_value_idx]".

Fixpoint key_position (k : str) (l : list (str * list str)) : option nat :=
  match l with
  | [] => None
  | (k', _) :: l' => if bool_decide (k' = k) then Some 0 else S <$> key_position k l'
  end.

(* [os/application/shell/src/service/auto_completion.rs:158-187] AutoCompletionService::revalidate_key_value_idx *)
Definition revalidate_key_value_idx (t : TokensContext) (a : AutoCompletion) : outcome AutoCompletion :=
  match current_app a with
  | None => Ret (set_current_key_value_idx None a)
  | Some app =>
      match find_last_argument_in_segment t with
      | None => Ret (set_current_key_value_idx None a)
      | Some tok =>
          same ← match current_key_value_idx a with
                 | Some i =>
                     '(k, _) ← expect (key_value_pair app !! i) key_index_panic;
                     Ret (bool_decide (k = content tok))
                 | None => Ret false
                 end;
          if same : bool then Ret a
          else Ret (set_current_key_value_idx (key_position (content tok) (key_value_pair app)) a)
      end
  end.

(* os/application/shell/src/service/auto_completion.rs: AutoCompletionService::revalidate *)
Definition revalidate (t : TokensContext) (a : AutoCompletion) : outcome AutoCompletion :=
  a ← revalidate_application t a;
  revalidate_key_value_idx t a.

(** The first element that extends the target, going round once from the current index. *)
(* [os/application/shell/src/service/auto_completion.rs:283-297] AutoCompletionService::cycle *)
Definition cycle (target : str) (l : list str) (a : AutoCompletion) : option str * AutoCompletion :=
  let order := (fun k => (current_index a + k) mod length l) <$> seq 0 (length l) in
  match List.find (fun i => match l !! i with Some s => starts_with target s | None => false end) order with
  | Some i => (l !! i, set_current_index (S i) a)
  | None => (None, a)
  end.

(* [os/application/shell/src/service/auto_completion.rs:264-272] AutoCompletionService::cycle_argument *)
Definition cycle_argument (arg : str) (a : AutoCompletion) : outcome (option str * AutoCompletion) :=
  match current_app a with
  | None => Ret (None, a)
  | Some app =>
      match current_key_value_idx a with
      | Some i =>
          '(_, values) ← expect (key_value_pair app !! i) key_index_panic;
          Ret (cycle arg values a)
      | None => Ret (cycle arg (single_value app ++ (key_value_pair app).*1) a)
      end
  end.

(* [os/application/shell/src/service/auto_completion.rs:233-257] AutoCompletionService::cycle_token *)
Definition cycle_token (tok : option Token) (a : AutoCompletion) : outcome (option str * AutoCompletion) :=
  let cycle_command cmd := Ret (cycle cmd (namespace <$> applications a) a) in
  match tok with
  | None => cycle_command []
  | Some t =>
      if is_end_of_line (clx t) then Ret (None, a)
      else if require_file (clx t) then Ret (Some (lit "PATH"), a)
      else match kind t with
           | Command => cycle_command (content t)
           | Argument => cycle_argument (content t) a
           | Blank => if is_some (cmd_pos_in_segment (clx t)) then cycle_argument [] a else cycle_command []
           | _ => Ret (None, a)
           end
  end.

(* [os/application/shell/src/service/auto_completion.rs:211-231] AutoCompletionService::cycle_suggestion *)
Definition cycle_suggestion (t : TokensContext) (st : AutoState) : outcome AutoState :=
  let token := last_token t in
  let start_at := match token with Some t => if is_ambiguous t then str_len (content t) else 0 | None => 0 end in
  '(found, a) ← cycle_token token st.1;
  match found with
  | None => Ret (set_current_suggestion None a, st.2)
  | Some s =>
      rest ← slice_from start_at s;
      Ret (set_current_suggestion (Some s) a, {| suggestion := rest; is_dirty := true; has_focus := has_focus st.2 |})
  end.

(* [os/application/shell/src/service/auto_completion.rs:136-146] AutoCompletionService::focus_suggestion *)
Definition focus_suggestion (t : TokensContext) (st : AutoState) : outcome AutoState :=
  st ← (if is_some (current_suggestion st.1) then Ret st else cycle_suggestion t st);
  if is_some (current_suggestion st.1)
  then Ret (st.1, {| suggestion := suggestion st.2; is_dirty := true; has_focus := true |})
  else Ret st.

(** The suggestion goes before the last character of the line, which is the key that took it. *)
(* [os/application/shell/src/service/auto_completion.rs:104-121] AutoCompletionService::adopt *)
Definition adopt (l : LineContext) (st : AutoState) : outcome (LineContext * AutoState * list Event) :=
  if bool_decide (suggestion st.2 = []) || negb (has_focus st.2) then Ret (l, st, [])
  else
    let '(c, l) := line_pop l in
    c ← expect c "Expected at least one char in line";
    let l := set_line (line l ++ suggestion st.2 ++ [c]) l in
    Ret (set_cursor_pos (cursor_position l + str_len (suggestion st.2)) l, clear_suggestion st, [LineWritten]).

(* [os/application/shell/src/service/auto_completion.rs:35-57] AutoCompletionService::on_key_pressed *)
Definition completion_key (k : DecodedKey) (l : LineContext) (t : TokensContext) (st : AutoState) :
    outcome (LineContext * AutoState * list Event) :=
  if negb (is_cursor_at_end l) then Ret (l, st, [])
  else match k with
       | Unicode c =>
           if (c =? TAB)%Z then
             a ← revalidate t st.1;
             st ← (if negb (has_focus st.2) then focus_suggestion t (a, st.2) else cycle_suggestion t (a, st.2));
             Ret (l, st, [])
           else if (c =? SPACE)%Z then
             a ← revalidate t st.1;
             adopt l (a, st.2)
           else if (c =? ESCAPE)%Z || (c =? BACKSPACE)%Z || (c =? DELETE)%Z then
             Ret (l, (st.1, {| suggestion := suggestion st.2; is_dirty := true; has_focus := false |}), [])
           else Ret (l, st, [])
       | RawKey _ => Ret (l, st, [])
       end.

(* [os/application/shell/src/service/auto_completion.rs:59-67] AutoCompletionService::on_tokens_written *)
Definition completion_tokens_written (l : LineContext) (t : TokensContext) (st : AutoState) : outcome AutoState :=
  if negb (is_cursor_at_end l) then Ret st
  else
    a ← revalidate t st.1;
    cycle_suggestion t (clear_suggestion (a, st.2)).

(* [os/library/globals/src/application.rs:13-166] APPLICATION_REGISTRY *)
Definition APPLICATION_REGISTRY : list Application := [
  {| namespace := lit "test"; single_value := [lit "arg1"; lit "arg2"; lit "arg3"; lit "--long-flag-1"; lit "--long-flag-2"; lit "--long-flag-3"; lit "x=1"; lit "x=2"; lit "x=3"];
     key_value_pair := [(lit "-f", [lit "flag-1"; lit "flag-2"; lit "flag-3"]); (lit "-m", [lit "'message 1'"; lit "'message 2'"; lit "'message 3'"])] |};
  {| namespace := lit "alias"; single_value := [lit "KEY=VALUE"];
     key_value_pair := [] |};
  {| namespace := lit "cd"; single_value := [lit "DIR"];
     key_value_pair := [] |};
  {| namespace := lit "clear"; single_value := [];
     key_value_pair := [] |};
  {| namespace := lit "echo"; single_value := [lit "ARG"];
     key_value_pair := [] |};
  {| namespace := lit "exit"; single_value := [];
     key_value_pair := [] |};
  {| namespace := lit "mkdir"; single_value := [lit "DIR"];
     key_value_pair := [] |};
  {| namespace := lit "pwd"; single_value := [];
     key_value_pair := [] |};
  {| namespace := lit "unalias"; single_value := [lit "'KEY'"];
     key_value_pair := [] |};
  {| namespace := lit "theme"; single_value := [lit "d3os"; lit "plain"; lit "debug"];
     key_value_pair := [] |};
  {| namespace := lit "window_manager"; single_value := [];
     key_value_pair := [] |};
  {| namespace := lit "debug_error"; single_value := [];
     key_value_pair := [] |};
  {| namespace := lit "debug_success"; single_value := [];
     key_value_pair := [] |};
  {| namespace := lit "help"; single_value := [lit "controls"; lit "tokens"; lit "built-in-1"; lit "built-in-2"];
     key_value_pair := [] |};
  {| namespace := lit "shell"; single_value := [lit "--no-history"; lit "--no-auto-completion"];
     key_value_pair := [] |};
  {| namespace := lit "date"; single_value := [];
     key_value_pair := [] |};
  {| namespace := lit "hello"; single_value := [lit "ARG"];
     key_value_pair := [] |};
  {| namespace := lit "helloc"; single_value := [lit "ARG"];
     key_value_pair := [] |};
  {| namespace := lit "keytest"; single_value := [lit "canonical"; lit "fluid"; lit "raw"];
     key_value_pair := [] |};
  {| namespace := lit "ls"; single_value := [];
     key_value_pair := [] |};
  {| namespace := lit "ntest"; single_value := [];
     key_value_pair := [] |};
  {| namespace := lit "uptime"; single_value := [];
     key_value_pair := [] |};
  {| namespace := lit "netperf"; single_value := [lit "-s"; lit "-c"; lit "-u"; lit "-r"; lit "--json"];
     key_value_pair := [(lit "-p", [lit "2000"]); (lit "-i", [lit "1"]); (lit "-t", [lit "10"]); (lit "-P", [lit "1"]); (lit "-n", [lit "100M"]); (lit "-b", [lit "10M"])] |};
  {| namespace := lit "httpd"; single_value := [];
     key_value_pair := [] |}].

Definition completion_new (apps : list Application) : AutoCompletion := {|
  applications := apps; current_index := 0; current_app := None; current_key_value_idx := None;
  current_suggestion := None |}.

(** * The writer of the shell ([os/application/shell/src/service/writer.rs])

    The writer brings the terminal up to date: it goes back to the first position that changed,
    clears the rest of the row, writes the tokens from there on and the suggestion, and puts the
    cursor where the line has it.  What it prints is a list of actions; colours are left out. *)

(** Text and the control sequences of the writer; [Output] is what a command writes between its
    start and its end. *)
Inductive Act := Text (s : str) | CursorRight (n : nat) | CursorLeft (n : nat) | ClearRight | ToStart | SavePos
  | RestorePos | NewRow | Output.

(** The position of the terminal's cursor in the row and what was printed. *)
Definition Written : Type := nat * list Act.

Definition emit (acts : list Act) (w : Written) : Written := (w.1, w.2 ++ acts).

(* os/application/shell/src/service/writer.rs: WriterService::prompt *)
Definition prompt (cwd : list str) : str := components_to_string cwd ++ lit "> ".

(** [\x1b[nC] and [\x1b[nD]. *)
(* [os/application/shell/src/service/writer.rs:158-165] WriterService::move_cursor_by *)
Definition move_cursor_by (step : Z) (w : Written) : Written :=
  (Z.to_nat (Z.of_nat w.1 - step),
   w.2 ++ (if step =? 0 then [] else if step <? 0 then [CursorRight (Z.to_nat (- step))] else [CursorLeft (Z.to_nat step)])%Z).

(* os/application/shell/src/service/writer.rs: WriterService::total_line_len *)
Definition total_line_len (cwd : list str) (l : LineContext) (sg : SuggestionContext) : nat :=
  str_len (prompt cwd) + str_len (line l) + str_len (suggestion sg).

(* [os/application/shell/src/service/writer.rs:69-74] WriterService::write_prompt *)
Definition write_prompt (cwd : list str) (w : Written) : Written :=
  (w.1 + str_len (prompt cwd), w.2 ++ [Text (prompt cwd)]).

(* os/application/shell/src/service/writer.rs: WriterService::write_next_line *)
Definition write_next_line (cwd : list str) (l : LineContext) (sg : SuggestionContext) (w : Written) : Written :=
  emit [NewRow] (move_cursor_by (Z.of_nat w.1 - Z.of_nat (total_line_len cwd l sg)) w).

(* [os/application/shell/src/service/writer.rs:115-128] WriterService::dirty_status_prompt *)
Definition dirty_status_prompt (cwd : list str) (t : TokensContext) (w : Written) : Written :=
  if negb (is_status_dirty t) then w else emit [SavePos; ToStart; Text (prompt cwd); RestorePos] w.

(* [os/application/shell/src/service/writer.rs:135-139] WriterService::cursor_to_dirty_line *)
Definition cursor_to_dirty_line (cwd : list str) (l : LineContext) (w : Written) : Written :=
  move_cursor_by (Z.of_nat w.1 - Z.of_nat (str_len (prompt cwd) + dirty_index l)) w.

Fixpoint rposition {A} (f : A -> bool) (l : list A) : option nat :=
  match l with
  | [] => None
  | x :: l' => match rposition f l' with Some i => Some (S i) | None => if f x then Some 0 else None end
  end.

(* [os/application/shell/src/context/tokens_context.rs:35-43] TokensContext::slice_at_line_index *)
Definition slice_at_line_index (index : nat) (ts : list Token) : list Token :=
  let start_at := match rposition (fun t => line_pos (clx t) + str_len (content t) <=? index) ts with
                  | Some i => S i
                  | None => 0
                  end in
  drop start_at ts.

(* [os/application/shell/src/token/token.rs:94-100] Token::as_str_at_line_pos *)
Definition as_str_at_line_pos (p : nat) (t : Token) : outcome str :=
  if p <? line_pos (clx t) then Ret (content t) else slice_from (p - line_pos (clx t)) (content t).

Fixpoint write_tokens (d : nat) (ts : list Token) (w : Written) : outcome Written :=
  match ts with
  | [] => Ret w
  | t :: ts' =>
      s ← as_str_at_line_pos d t;
      write_tokens d ts' (w.1 + str_len s, w.2 ++ [Text s])
  end.

(* [os/application/shell/src/service/writer.rs:167-181] WriterService::dirty_tokens *)
Definition dirty_tokens (l : LineContext) (t : TokensContext) (w : Written) : outcome Written :=
  write_tokens (dirty_index l) (slice_at_line_index (dirty_index l) (tokens t)) w.

(* [os/application/shell/src/service/writer.rs:183-192] WriterService::dirty_suggestion *)
Definition dirty_suggestion (sg : SuggestionContext) (w : Written) : Written :=
  if negb (is_dirty sg) then w else (w.1 + str_len (suggestion sg), w.2 ++ [Text (suggestion sg)]).

(* [os/application/shell/src/service/writer.rs:141-156] WriterService::restore_cursor_position *)
Definition restore_cursor_position (cwd : list str) (l : LineContext) (sg : SuggestionContext) (w : Written) : Written :=
  let step := if has_focus sg then (Z.of_nat w.1 - Z.of_nat (total_line_len cwd l sg))%Z
              else (Z.of_nat w.1 - Z.of_nat (cursor_position l) - Z.of_nat (str_len (prompt cwd)))%Z in
  move_cursor_by step w.

(** The contexts are marked as written. *)
(* [os/application/shell/src/service/writer.rs:81-97] WriterService::write_at_dirty *)
Definition write_at_dirty (cwd : list str) (l : LineContext) (t : TokensContext) (sg : SuggestionContext) (w : Written) :
    outcome (LineContext * TokensContext * SuggestionContext * Written) :=
  let w := emit [ClearRight] (cursor_to_dirty_line cwd l (dirty_status_prompt cwd t w)) in
  w ← dirty_tokens l t w;
  let w := restore_cursor_position cwd l sg (dirty_suggestion sg w) in
  Ret (mark_clean l, {| tokens := tokens t; is_status_dirty := false |},
       {| suggestion := suggestion sg; is_dirty := false; has_focus := has_focus sg |}, w).

(* [os/application/shell/src/service/writer.rs:99-113] WriterService::write_error *)
Definition write_error (e : Error) (w : Written) : Written * list Event :=
  let line_break := if is_in_execution e then [] else [NewRow] in
  (emit (line_break ++ [Text (message e); NewRow; Text (default [] (hint e))] ++ line_break) w, [PrepareNewLine]).
