(* ===== verification/ShellScreen.v ===== *)
(** * What the writer shows

    A row of the terminal, from the prompt on, under the actions of the writer: bringing it up to
    date from the first changed position shows the prompt, the whole line and the suggestion. *)

From S2P Require Import Prelude ShellText ShellToken ShellLexer ShellLexProofs ShellParser ShellServices.

Open Scope nat_scope.

(** ** The row *)

(** The characters of the row, the column of the cursor and the saved one. *)
Record Row := { cells : str; column : nat; saved : nat }.

Definition row_new : Row := {| cells := []; column := 0; saved := 0 |}.

Definition pad (n : nat) (s : str) : str := s ++ replicate (n - length s) SPACE.

Definition act (r : Row) (a : Act) : Row :=
  match a with
  | Text s =>
      let row := pad (column r) (cells r) in
      {| cells := take (column r) row ++ s ++ drop (column r + length s) row; column := column r + length s; saved := saved r |}
  | CursorRight n => {| cells := cells r; column := column r + n; saved := saved r |}
  | CursorLeft n => {| cells := cells r; column := column r - n; saved := saved r |}
  | ClearRight => {| cells := take (column r) (cells r); column := column r; saved := saved r |}
  | ToStart => {| cells := cells r; column := 0; saved := saved r |}
  | SavePos => {| cells := cells r; column := column r; saved := column r |}
  | RestorePos => {| cells := cells r; column := saved r; saved := saved r |}
  | NewRow | Output => row_new
  end.

Definition row (w : Written) : Row := foldl act row_new w.2.

Lemma row_snoc n acts a : row (n, acts ++ [a]) = act (row (n, acts)) a.
Proof. unfold row. simpl. by rewrite foldl_app. Qed.

Lemma row_emit w acts : row (emit acts w) = foldl act (row w) acts.
Proof. unfold row, emit. simpl. by rewrite foldl_app. Qed.

Lemma pad_le n s : n <= length s -> pad n s = s.
Proof. intros L. unfold pad. replace (n - length s) with 0 by lia. by rewrite app_nil_r. Qed.

(** The writer knows where the cursor is. *)
Definition tracked (w : Written) : Prop := column (row w) = w.1.

Lemma move_cursor_by_spec w (to : nat) : tracked w ->
  let w' := move_cursor_by (Z.of_nat w.1 - Z.of_nat to) w in
  tracked w' /\ w'.1 = to /\ cells (row w') = cells (row w).
Proof.
  unfold tracked, move_cursor_by. destruct w as [n acts]. cbn [fst snd]. intros T.
  replace (Z.to_nat (Z.of_nat n - (Z.of_nat n - Z.of_nat to))) with to by lia.
  destruct (Z.eqb_spec (Z.of_nat n - Z.of_nat to) 0).
  - rewrite app_nil_r. split; [|done]. unfold row in *. simpl in *. lia.
  - destruct (Z.ltb_spec (Z.of_nat n - Z.of_nat to) 0); rewrite row_snoc; unfold row in *; simpl in *; (split; [lia|done]).
Qed.

(** Text at the end of the row. *)
Lemma text_end n acts s : tracked (n, acts) -> ascii s -> length (cells (row (n, acts))) = n ->
  let w := (n + str_len s, acts ++ [Text s]) in
  tracked w /\ cells (row w) = cells (row (n, acts)) ++ s /\ length (cells (row w)) = w.1.
Proof.
  unfold tracked. intros T A L. cbv zeta. rewrite row_snoc. unfold row in *. simpl in *.
  rewrite str_len_ascii, pad_le, T, take_ge, drop_ge by (done || lia). rewrite app_nil_r, length_app. lia || (split; [done|]; split; [done|lia]).
Qed.

(** ** The dirty part of the tokens *)

Definition token_ascii (ts : list Token) : Prop := Forall (fun t => ascii (content t)) ts.

Lemma contents_ascii ts : ascii (contents ts) -> token_ascii ts.
Proof.
  unfold token_ascii, contents. induction ts as [|t ts IH]; intros A; [constructor|]. simpl in A. apply ascii_app in A as [A1 A2].
  constructor; auto.
Qed.

Lemma rposition_snoc {A} (f : A -> bool) l x :
  rposition f (l ++ [x]) = if f x then Some (length l) else rposition f l.
Proof.
  induction l as [|y l IH]; simpl; [by destruct (f x)|]. rewrite IH. by destruct (f x).
Qed.

Lemma slice_snoc d ts t : slice_at_line_index d (ts ++ [t]) =
  if line_pos (clx t) + str_len (content t) <=? d then [] else slice_at_line_index d ts ++ [t].
Proof.
  unfold slice_at_line_index. rewrite rposition_snoc. destruct (_ <=? _); [apply drop_ge; rewrite length_app; simpl; lia|].
  apply drop_app_le. induction ts as [|x ts IH]; simpl; [lia|]. destruct (rposition _ ts); simpl in *; [lia|].
  destruct (_ <=? _); simpl; lia.
Qed.

Lemma write_tokens_snoc d ts t w : write_tokens d (ts ++ [t]) w =
  (w ← write_tokens d ts w; s ← as_str_at_line_pos d t; Ret (w.1 + str_len s, w.2 ++ [Text s])).
Proof.
  revert w. induction ts as [|x ts IH]; intros w; simpl; [by destruct (as_str_at_line_pos d t)|].
  destruct (as_str_at_line_pos d x); simpl; [apply IH|done].
Qed.

(** The tokens after a position have the text after it; writing them never panics. *)
Lemma write_dirty_tokens d ts w : lexed ts -> token_ascii ts -> tracked w -> length (cells (row w)) = w.1 ->
  exists w', write_tokens d (slice_at_line_index d ts) w = Ret w' /\ tracked w' /\
    cells (row w') = cells (row w) ++ drop d (contents ts) /\ length (cells (row w')) = w'.1.
Proof.
  intros H. induction H as [|ts t H IH C O]; intros A T L.
  - exists w. unfold contents. simpl. rewrite drop_nil, app_nil_r. done.
  - apply Forall_app in A as [A At]. apply Forall_inv in At. rewrite slice_snoc.
    pose proof (lexed_total_len (ts ++ [t]) t (lexed_snoc ts t H C O) (last_snoc _ _)) as E.
    assert (Ac : ascii (contents ts)).
    { clear -A. unfold contents. induction A as [|x ts Ax A IHa]; simpl; [constructor|]. by apply ascii_app. }
    rewrite contents_snoc, str_len_app in E. rewrite (str_len_ascii (contents ts)) in E by done.
    rewrite (str_len_ascii (content t)) in * by done. rewrite contents_snoc.
    destruct (Nat.leb_spec (line_pos (clx t) + length (content t)) d).
    + exists w. rewrite drop_ge by (rewrite length_app; lia). rewrite app_nil_r. done.
    + destruct (IH A T L) as (w1 & E1 & T1 & C1 & L1). rewrite write_tokens_snoc, E1. simpl.
      assert (S : as_str_at_line_pos d t = Ret (drop (d - length (contents ts)) (content t))).
      { unfold as_str_at_line_pos. destruct (Nat.ltb_spec d (line_pos (clx t))).
        - replace (d - length (contents ts)) with 0 by lia. done.
        - rewrite slice_from_ascii by (done || lia). repeat f_equal. lia. }
      rewrite S. simpl. destruct w1 as [n acts].
      destruct (text_end n acts (drop (d - length (contents ts)) (content t)) T1) as (T2 & C2 & L2); [eauto with d3os|done|].
      eexists. split; [reflexivity|]. split; [exact T2|]. split; [|exact L2]. cbn [fst snd]. rewrite C2, C1, <-app_assoc.
      by rewrite drop_app.
Qed.

Lemma write_tokens_returns d ts w w1 w2 : write_tokens d ts w1 = Ret w2 -> returns (write_tokens d ts w).
Proof.
  revert w w1. induction ts as [|t ts IH]; intros w w1 E; simpl in *; [by eexists|].
  destruct (as_str_at_line_pos d t); simpl in *; [by eapply IH|done].
Qed.

Lemma dirty_tokens_returns l t w : lexed (tokens t) -> token_ascii (tokens t) -> returns (dirty_tokens l t w).
Proof.
  intros H A. destruct (write_dirty_tokens (dirty_index l) (tokens t) (0, []) H A eq_refl eq_refl) as (w' & E & _).
  by eapply write_tokens_returns.
Qed.

(** ** Bringing the row up to date *)

(** The row holds the prompt and a text that agrees with the line before its first changed
    position. *)
Definition shown (cwd : list str) (l : LineContext) (w : Written) : Prop :=
  tracked w /\ exists s, cells (row w) = prompt cwd ++ s /\ upto (dirty_index l) s (line l).

Lemma status_prompt_spec cwd t w s : tracked w -> cells (row w) = prompt cwd ++ s ->
  let w' := dirty_status_prompt cwd t w in tracked w' /\ w'.1 = w.1 /\ cells (row w') = cells (row w).
Proof.
  unfold tracked, dirty_status_prompt. intros T C. destruct (is_status_dirty t); [|done]. cbn [negb]. rewrite row_emit. simpl.
  split; [done|]. split; [done|]. rewrite pad_le, C by lia. simpl. by rewrite drop_app_length.
Qed.

Lemma write_at_dirty_spec cwd l t sg w :
  ascii (prompt cwd) -> ascii (line l) -> ascii (suggestion sg) -> tokens t = lex (line l) -> shown cwd l w ->
  exists l' t' sg' w', write_at_dirty cwd l t sg w = Ret (l', t', sg', w') /\ tracked w' /\
    cells (row w') = prompt cwd ++ line l ++ (if is_dirty sg then suggestion sg else []) /\
    w'.1 = length (prompt cwd) + (if has_focus sg then length (line l) + length (suggestion sg) else cursor_position l).
Proof.
  intros Ap Al As E (T & s & C & U1 & U2 & U3). unfold write_at_dirty.
  destruct (status_prompt_spec cwd t w s T C) as (T1 & N1 & C1). set (w1 := dirty_status_prompt cwd t w) in *.
  destruct (move_cursor_by_spec w1 (str_len (prompt cwd) + dirty_index l) T1) as (T2 & N2 & C2).
  fold (cursor_to_dirty_line cwd l w1) in T2, N2, C2. set (w2 := cursor_to_dirty_line cwd l w1) in *.
  rewrite (str_len_ascii (prompt cwd)) in N2 by done.
  assert (C3 : cells (row (emit [ClearRight] w2)) = prompt cwd ++ take (dirty_index l) (line l)).
  { rewrite row_emit. simpl. rewrite T2, N2, C2, C1, C, <-U3. by rewrite take_app_add'. }
  assert (L3 : length (cells (row (emit [ClearRight] w2))) = (emit [ClearRight] w2).1).
  { rewrite C3, length_app, length_take. change ((emit [ClearRight] w2).1) with (w2.1). lia. }
  assert (T3 : tracked (emit [ClearRight] w2)) by (unfold tracked; rewrite row_emit; exact T2).
  destruct (write_dirty_tokens (dirty_index l) (tokens t) (emit [ClearRight] w2)) as (w4 & E4 & T4 & C4 & L4);
    [rewrite E; apply lex_lexed|rewrite E; apply contents_ascii; by rewrite lex_contents|done|done|].
  unfold dirty_tokens. rewrite E4. simpl. rewrite C3, E, lex_contents, <-app_assoc, take_drop in C4.
  assert (S : let w5 := dirty_suggestion sg w4 in tracked w5 /\ cells (row w5) = cells (row w4) ++ (if is_dirty sg then suggestion sg else [])).
  { unfold dirty_suggestion. destruct (is_dirty sg); [|by rewrite app_nil_r]. cbn [negb]. destruct w4 as [n acts].
    destruct (text_end n acts (suggestion sg) T4 As L4) as (T5 & C5 & _). done. }
  destruct S as [T5 C5]. rewrite C4, <-app_assoc in C5. set (w5 := dirty_suggestion sg w4) in *.
  eexists _, _, _, _. split; [reflexivity|]. unfold restore_cursor_position, total_line_len. rewrite !str_len_ascii by done.
  destruct (has_focus sg).
  - destruct (move_cursor_by_spec w5 (length (prompt cwd) + length (line l) + length (suggestion sg)) T5) as (T6 & N6 & C6).
    split; [done|]. rewrite C6, N6, C5. split; [done|lia].
  - destruct (move_cursor_by_spec w5 (cursor_position l + length (prompt cwd)) T5) as (T6 & N6 & C6).
    replace (Z.of_nat w5.1 - Z.of_nat (cursor_position l) - Z.of_nat (length (prompt cwd)))%Z
      with (Z.of_nat w5.1 - Z.of_nat (cursor_position l + length (prompt cwd)))%Z by lia.
    split; [done|]. rewrite C6, N6, C5. split; [done|lia].
Qed.
