(* ===== verification/ShellSafe.v ===== *)
(** * The services keep the line in order

    Every service, on lines of ASCII characters: the line, its cursor and its dirty index stay
    consistent, texts that agreed with the line up to its dirty index still do, and no operation
    panics but for one index of the auto completion. *)

From S2P Require Import Prelude ShellText ShellToken ShellLexer ShellLexProofs ShellParser ShellParseProofs ShellServices.

Open Scope nat_scope.

(** ** Facts on tokens *)

Lemma lexed_pos ts l : lexed ts -> last ts = Some l ->
  S (pos (clx l)) = length ts /\ forall p, cmd_pos_in_segment (clx l) = Some p -> p < length ts.
Proof.
  intros H. revert l. induction H as [|ts t H IH C O]; intros l E; [done|]. rewrite last_snoc in E. injection E as <-.
  rewrite length_app. simpl. unfold create in C. destruct (last ts) as [l|] eqn:L.
  - destruct (IH l eq_refl) as [I1 I2]. unfold create_next in C. destruct t as [k s c u]. simpl in *.
    destruct k; simpl in C; try (destruct s as [|ch s]; simpl in C); try discriminate C; injection C as <- _; simpl;
      (split; [lia|]); intros p E; try done; first [injection E as <-; lia | specialize (I2 p E); lia].
  - apply last_None in L as ->. unfold create_first in C. destruct t as [k s c u]. simpl in *.
    destruct k; simpl in C; try (destruct s as [|ch s]; simpl in C); try discriminate C; injection C as <- _; simpl;
      (split; [lia|]); intros p E; try done; injection E as <-; lia.
Qed.

Lemma find_last_command_returns t : lexed (tokens t) -> returns (find_last_command t).
Proof.
  intros H. unfold find_last_command. destruct (last (tokens t)) as [l|] eqn:L; [|by eexists].
  destruct (lexed_pos _ _ H L) as [_ P]. destruct (cmd_pos_in_segment (clx l)) as [p|]; [|by eexists].
  destruct (lookup_lt_is_Some_2 (tokens t) p (P p eq_refl)) as [x E]. rewrite (arr_get_ok _ _ _ E). by eexists.
Qed.

Lemma lex_grows s c : grows c (lex s) (lex (s ++ [c])).
Proof.
  destruct (lex_add_all s) as (st0 & A0 & E0 & _). unfold lex at 2. rewrite add_all_app, A0, E0. simpl.
  destruct (add_grown c st0) as (st1 & -> & G & _). done.
Qed.

(** No word waits for a file. *)
Lemma lex_words s t : last (lex s) = Some t -> is_ambiguous t = true -> require_file (clx t) = false.
Proof.
  revert t. induction s as [|c s IH] using rev_ind; intros t E A; [done|].
  pose proof (lex_grows s c) as G. revert E A. inversion G as [k tok S F O C E0|ts' l El D E0|ts' l k2 tok El D C E0];
    rewrite last_snoc; intros [= <-] A.
  - destruct (create_fields _ _ _ _ C) as [K Co]. rewrite <-K, <-Co in C. destruct (create_context _ _ C) as (_ & _ & R & _). rewrite R.
    unfold is_ambiguous in A. unfold fits in F. rewrite K in *. unfold seen.
    destruct k; try done; destruct (last (lex s)); auto.
  - apply (IH l); [rewrite El; apply last_snoc|exact A].
  - destruct (create_fields _ _ _ _ C) as [K _]. unfold is_ambiguous in A. rewrite K in A.
    by destruct D as [(_ & -> & _)|[(_ & -> & _)|(_ & -> & _)]].
Qed.

(** ** The line *)

Definition line_ok (l : LineContext) : Prop :=
  ascii (line l) /\ cursor_position l <= length (line l) /\ dirty_index l <= length (line l).

(** Texts that agree with the line before its first changed position keep doing so. *)
Definition follows (l l' : LineContext) : Prop :=
  forall s, upto (dirty_index l) s (line l) -> upto (dirty_index l') s (line l').

#[export] Instance follows_preorder : PreOrder follows.
Proof. split; [by intros l s|]. intros a b c H1 H2 s U. auto. Qed.

Lemma line_new_ok : line_ok line_new.
Proof. split; [constructor|]. simpl. lia. Qed.

Lemma upto_edit d i s l l' : upto d s l -> take i l' = take i l -> i <= length l' -> upto (min d i) s l'.
Proof.
  intros (U1 & U2 & U3) E L. split; [lia|]. split; [lia|]. rewrite <-(take_take l'), E, (take_take l), Nat.min_comm.
  rewrite <-(take_take s), U3, take_take. done.
Qed.

Lemma insert_ok c l : line_ok l -> (0 <= c < 128)%Z -> exists l', line_insert (cursor_position l) c l = Ret l' /\
  line_ok (set_cursor_pos (S (cursor_position l')) l') /\ follows l l' /\ line l' <> [].
Proof.
  intros (A & C & D) Hc. unfold line_insert. rewrite str_insert_ascii by done. simpl. eexists. split; [reflexivity|].
  assert (T : take (cursor_position l) (take (cursor_position l) (line l) ++ c :: drop (cursor_position l) (line l)) =
              take (cursor_position l) (line l)) by (rewrite take_app_le, take_take; [f_equal; lia|rewrite length_take; lia]).
  split; [|split].
  - split; [|simpl; rewrite length_app, length_take; simpl; rewrite length_drop; lia]. simpl. apply ascii_app.
    split; [eauto with d3os|]. constructor; [done|by apply ascii_drop].
  - intros s U. apply (upto_edit _ _ _ _ _ U); simpl; [exact T|]. rewrite length_app, length_take. simpl. lia.
  - simpl. by destruct (take (cursor_position l) (line l)).
Qed.

Lemma remove_ok i l : line_ok l -> i < length (line l) -> exists l', line_remove i l = Ret l' /\
  ascii (line l') /\ dirty_index l' <= length (line l') /\ cursor_position l' = cursor_position l /\
  S (length (line l')) = length (line l) /\ follows l l'.
Proof.
  intros (A & C & D) Hi. unfold line_remove. rewrite str_remove_ascii by done. simpl. eexists. split; [reflexivity|].
  assert (L : length (take i (line l) ++ drop (S i) (line l)) = length (line l) - 1) by (rewrite length_app, length_take, length_drop; lia).
  split; [simpl; apply ascii_app; split; eauto with d3os|]. split; [simpl; lia|]. split; [done|]. split; [simpl; lia|].
  intros s U. apply (upto_edit _ _ _ _ _ U); simpl; [|lia]. rewrite take_app_le, take_take by (rewrite length_take; lia). f_equal. lia.
Qed.

(** Only the cursor moved. *)
Definition same_line (l l' : LineContext) : Prop := line l' = line l /\ dirty_index l' = dirty_index l.

Lemma same_follows l l' : same_line l l' -> follows l l'.
Proof. intros [E1 E2] s U. by rewrite E1, E2. Qed.

Definition key_ok (k : DecodedKey) : Prop := match k with Unicode c => (0 <= c < 128)%Z | RawKey _ => True end.

(** ** Keys *)

(** The events for a change of the line. *)
Inductive told (l l' : LineContext) : list Event -> Prop :=
| told_none : same_line l l' -> told l l' []
| told_written : told l l' [LineWritten]
| told_restored : told l l' [HistoryRestored]
| told_moved z : same_line l l' -> told l l' [CursorMoved z]
| told_submit : l' = l -> told l l' [Submit].

Definition kept (l : LineContext) (o : outcome (LineContext * list Event)) : Prop :=
  exists l' evs, o = Ret (l', evs) /\ line_ok l' /\ follows l l' /\ told l l' evs.

Lemma stay_kept l evs : line_ok l -> told l l evs -> kept l (Ret (l, evs)).
Proof. intros H T. exists l, evs. done. Qed.

Lemma move_kept n l evs : line_ok l -> n <= length (line l) -> told l (set_cursor_pos n l) evs -> kept l (Ret (set_cursor_pos n l, evs)).
Proof. intros (A & C & D) L T. eexists _, _. split; [reflexivity|]. split; [done|]. split; [by apply same_follows|done]. Qed.

Lemma add_at_cursor_kept c l : line_ok l -> (0 <= c < 128)%Z -> kept l (add_at_cursor c l).
Proof.
  intros H Hc. unfold add_at_cursor. destruct (_ <=? _); [by apply stay_kept; [|constructor]|].
  destruct (insert_ok c l H Hc) as (l' & -> & O & F & N). eexists _, _. split; [reflexivity|]. split; [done|]. split; [done|constructor].
Qed.

(** Where the line is full it has a last character, too. *)
Lemma add_at_cursor_nonempty c l l' evs : line_ok l -> (0 <= c < 128)%Z -> add_at_cursor c l = Ret (l', evs) -> line l' <> [].
Proof.
  intros H Hc. unfold add_at_cursor. rewrite str_len_ascii by apply H. destruct (Nat.leb_spec MAX_LINE_LEN (length (line l))).
  - intros [= <- <-] E. rewrite E in *. unfold MAX_LINE_LEN in *. simpl in *. lia.
  - destruct (insert_ok c l H Hc) as (l1 & -> & _ & _ & N). by intros [= <- <-].
Qed.

Lemma remove_at_cursor_kept l : line_ok l -> kept l (remove_at_cursor l).
Proof.
  intros H. pose proof H as (A & C & D). unfold remove_at_cursor, is_cursor_at_end. rewrite str_len_ascii by done.
  destruct (Nat.leb_spec (length (line l)) (cursor_position l)); [by apply stay_kept; [|constructor]|].
  destruct (remove_ok (cursor_position l) l H) as (l' & -> & A' & D' & C' & L' & F); [lia|].
  eexists _, _. split; [reflexivity|]. split; [split; [done|]; split; [lia|done]|]. split; [done|constructor].
Qed.

Lemma remove_before_cursor_kept l : line_ok l -> kept l (remove_before_cursor l).
Proof.
  intros H. pose proof H as (A & C & D). unfold remove_before_cursor, is_cursor_at_start.
  destruct (Nat.leb_spec (cursor_position l) 0); [by apply stay_kept; [|constructor]|].
  rewrite (usub_ok (cursor_position l) 1) by lia. simpl.
  destruct (remove_ok (cursor_position l - 1) l H) as (l' & -> & A' & D' & C' & L' & F); [lia|]. simpl.
  rewrite usub_ok by lia. eexists _, _. split; [reflexivity|]. split; [split; [done|]; split; [simpl; lia|done]|].
  split; [exact F|constructor].
Qed.

Lemma command_line_key_kept k l : line_ok l -> key_ok k -> kept l (command_line_key k l).
Proof.
  intros H K. pose proof H as (A & C & D). destruct k as [[]|c]; simpl in *; try (by apply stay_kept; [|constructor]).
  - unfold move_cursor_left, is_cursor_at_start. destruct (Nat.leb_spec (cursor_position l) 0); [by apply stay_kept; [|constructor]|].
    rewrite usub_ok by lia. apply move_kept; [done|lia|by constructor].
  - unfold move_cursor_right, is_cursor_at_end. rewrite str_len_ascii by done.
    destruct (Nat.leb_spec (length (line l)) (cursor_position l)); [by apply stay_kept; [|constructor]|].
    apply move_kept; [done|lia|by constructor].
  - apply move_kept; [done|lia|by constructor].
  - rewrite str_len_ascii by done. apply move_kept; [done|lia|by constructor].
  - destruct (_ || _); [by apply stay_kept; [|constructor]|]. destruct (_ =? _)%Z; [by apply stay_kept; [|constructor]|].
    destruct (_ =? _)%Z; [by apply remove_before_cursor_kept|]. destruct (_ =? _)%Z; [by apply remove_at_cursor_kept|].
    by apply add_at_cursor_kept.
Qed.

(** ** The history *)

Definition history_ok (h : History) : Prop :=
  Forall ascii (history h) /\ length (history h) <= MAX_HISTORY_LEN /\
  (-1 <= history_position h < Z.of_nat (length (history h)))%Z.

Lemma restore_ok l h : history_ok h -> (0 <= history_position h)%Z ->
  exists l', restore h = Ret (l', h, [HistoryRestored]) /\ line_ok l' /\ follows l l'.
Proof.
  intros (A & L & P) N. unfold restore. destruct (Z.ltb_spec (history_position h) 0); [lia|].
  destruct (lookup_lt_is_Some_2 (history h) (Z.to_nat (history_position h))) as [s E]; [lia|]. rewrite E. simpl.
  eexists. split; [reflexivity|]. rewrite Forall_lookup in A. specialize (A _ _ E).
  split; [split; [done|]; simpl; rewrite str_len_ascii by done; lia|]. intros s' _. split; [simpl; lia|]. split; [simpl; lia|done].
Qed.

Definition kept_history (l : LineContext) (o : outcome (LineContext * History * list Event)) : Prop :=
  exists l' h' evs, o = Ret (l', h', evs) /\ line_ok l' /\ follows l l' /\ history_ok h' /\
    ((evs = [] /\ l' = l) \/ evs = [HistoryRestored]).

Lemma history_key_kept k l h : line_ok l -> history_ok h -> kept_history l (history_key k l h).
Proof.
  intros H O. assert (Stay : kept_history l (Ret (l, h, []))) by (exists l, h, []; split; [done|]; split; [done|]; split; [done|]; auto).
  assert (Back : forall p, (0 <= p < Z.of_nat (length (history h)))%Z -> kept_history l (restore {| history := history h; history_position := p |})).
  { intros p Hp. assert (O' : history_ok {| history := history h; history_position := p |}) by (destruct O as (A & L & _); split; [done|]; split; simpl; [done|lia]).
    destruct (restore_ok l _ O' (proj1 Hp)) as (l' & -> & Ol & F). eexists _, _, _. split; [reflexivity|]. auto. }
  pose proof O as (A & L & P). destruct k as [[]|]; try exact Stay; simpl.
  - unfold move_up. destruct (Z.leb_spec (Z.of_nat (length (history h)) - 1) (history_position h)); [exact Stay|]. apply Back. lia.
  - unfold move_down. destruct (Z.eqb_spec (history_position h) (-1)); [exact Stay|].
    destruct (Z.leb_spec (history_position h) 0); [|apply Back; lia]. eexists _, _, _. split; [reflexivity|].
    split; [apply line_new_ok|]. split; [intros s _; split; [simpl; lia|]; split; [simpl; lia|done]|].
    split; [split; [done|]; simpl; lia|auto].
Qed.

Lemma history_add_ok l h : line_ok l -> history_ok h -> history_ok (history_add l (reset_position h)).
Proof.
  intros (A & _) (F & L & P). destruct h as [hs p]. unfold history_add. cbn [reset_position history history_position] in *.
  destruct (Nat.leb_spec MAX_HISTORY_LEN (length hs)).
  - destruct hs as [|s hs _] using rev_ind; [unfold MAX_HISTORY_LEN in *; simpl in *; lia|].
    rewrite removelast_last, length_app in *. apply Forall_app in F as [F _]. split; [by constructor|]. simpl in *. lia.
  - split; [by constructor|]. simpl. lia.
Qed.

Lemma reset_position_ok h : history_ok h -> history_ok (reset_position h).
Proof. intros (A & L & P). split; [done|]. simpl. lia. Qed.

(** ** The auto completion *)

(** The outcome is good, or it is the one panic of the auto completion. *)
Definition may {A} (P : A -> Prop) (o : outcome A) : Prop :=
  match o with Ret a => P a | Panic m => m = key_index_panic end.

Lemma may_bind {A B} (P : A -> Prop) (Q : B -> Prop) (m : outcome A) (f : A -> outcome B) :
  may P m -> (forall a, P a -> may Q (f a)) -> may Q (m ≫= f).
Proof. intros H F. destruct m; simpl in *; auto. Qed.

Lemma may_mono {A} (P Q : A -> Prop) (m : outcome A) : may P m -> (forall a, P a -> Q a) -> may Q m.
Proof. intros H F. destruct m; simpl in *; auto. Qed.

Lemma may_returns {A} (P : A -> Prop) (m : outcome A) : returns m -> (forall a, m = Ret a -> P a) -> may P m.
Proof. intros [a ->] F. by apply F. Qed.

Definition app_ok (x : Application) : Prop :=
  ascii (namespace x) /\ Forall ascii (single_value x) /\
  Forall (fun kv => ascii kv.1 /\ Forall ascii kv.2) (key_value_pair x).

Definition completion_ok (a : AutoCompletion) : Prop :=
  Forall app_ok (applications a) /\ forall x, current_app a = Some x -> app_ok x.

Definition auto_ok (st : AutoState) : Prop := completion_ok st.1 /\ ascii (suggestion st.2).

Lemma clear_ok st : completion_ok st.1 -> auto_ok (clear_suggestion st).
Proof. intros H. split; [exact H|constructor]. Qed.

Lemma reset_ok st : completion_ok st.1 -> auto_ok (completion_reset st).
Proof. intros [A _]. split; [|constructor]. by split. Qed.

Lemma find_app_ok a k x : Forall app_ok (applications a) ->
  List.find (fun app => bool_decide (namespace app = k)) (applications a) = Some x -> app_ok x.
Proof. intros A E. apply find_some in E as [I _]. rewrite Forall_forall in A. by apply A, list_elem_of_In. Qed.

Lemma revalidate_ok t a : lexed (tokens t) -> completion_ok a -> may completion_ok (revalidate t a).
Proof.
  intros H [A C]. unfold revalidate. apply (may_bind completion_ok).
  - unfold revalidate_application. destruct (find_last_command_returns t H) as [[tok|] ->]; simpl; [|done].
    destruct (match current_app a with Some _ => _ | None => _ end); simpl; [done|]. split; [done|]. simpl. intros x. by apply find_app_ok.
  - intros a' C'. assert (O : forall i, completion_ok (set_current_key_value_idx i a')) by (intros i; exact C').
    unfold revalidate_key_value_idx. destruct (current_app a') as [app|]; [|apply O].
    destruct (find_last_argument_in_segment t) as [tok|]; [|apply O].
    destruct (current_key_value_idx a') as [i|]; simpl; [|apply O].
    destruct (key_value_pair app !! i) as [[k v]|]; simpl; [|done].
    destruct (bool_decide _); simpl; [exact C'|apply O].
Qed.

Lemma cycle_ok target l a : Forall ascii l -> completion_ok a ->
  completion_ok (cycle target l a).2 /\
  forall s, (cycle target l a).1 = Some s -> ascii s /\ length target <= length s.
Proof.
  intros A C. unfold cycle. destruct (List.find _ _) as [i|] eqn:F; [|done]. split; [exact C|]. intros s E. simpl in E.
  apply find_some in F as [_ F]. rewrite E in F. rewrite Forall_lookup in A. split; [by eapply A|].
  apply starts_with_spec in F as [k ->]. rewrite length_app. lia.
Qed.

(** What a suggestion must be: a text at least as long as the word it extends. *)
Definition suggests (n : nat) (r : option str * AutoCompletion) : Prop :=
  completion_ok r.2 /\ forall s, r.1 = Some s -> ascii s /\ n <= length s.

Lemma cycle_suggests target l a n : Forall ascii l -> completion_ok a -> n <= length target -> suggests n (cycle target l a).
Proof.
  intros A C L. destruct (cycle_ok target l a A C) as [C' S]. split; [done|]. intros s E. destruct (S s E). split; [done|lia].
Qed.

Lemma cycle_argument_ok arg a n : completion_ok a -> n <= length arg -> may (suggests n) (cycle_argument arg a).
Proof.
  intros C L. unfold cycle_argument. destruct (current_app a) as [app|] eqn:E; [|done].
  destruct (proj2 C app E) as (_ & S & K). destruct (current_key_value_idx a) as [i|].
  - destruct (key_value_pair app !! i) as [[k v]|] eqn:Ei; simpl; [|done]. rewrite Forall_lookup in K.
    apply cycle_suggests; [by apply (K _ _ Ei)|done|done].
  - apply cycle_suggests; [|done|done]. apply Forall_app. split; [done|]. apply Forall_fmap.
    eapply Forall_impl; [exact K|]. by intros x [].
Qed.

Definition word_len (t : option Token) : nat :=
  match t with Some t => if is_ambiguous t then str_len (content t) else 0 | None => 0 end.

Lemma cycle_token_ok s a : ascii s -> completion_ok a -> may (suggests (word_len (last (lex s)))) (cycle_token (last (lex s)) a).
Proof.
  intros As C. assert (N : Forall ascii (namespace <$> applications a)).
  { apply Forall_fmap. eapply Forall_impl; [exact (proj1 C)|]. by intros x []. }
  destruct (last (lex s)) as [t|] eqn:E; [|cbn [may cycle_token]; apply cycle_suggests; simpl; (done || lia)]. unfold cycle_token, word_len.
  assert (At : ascii (content t)).
  { pose proof (lex_contents s) as Ct. apply last_Some in E as [ts E]. rewrite E, contents_snoc in Ct. rewrite <-Ct in As.
    apply ascii_app in As. apply As. }
  pose proof (lex_words s t E) as R. destruct (is_end_of_line (clx t)); [done|]. destruct (require_file (clx t)).
  - split; [done|]. intros x [= <-]. split; [repeat constructor; lia|]. destruct (is_ambiguous t); [by discriminate R|simpl; lia].
  - rewrite str_len_ascii by done. unfold is_ambiguous. destruct (kind t); try done.
    + cbn [may]. by apply cycle_suggests.
    + by apply cycle_argument_ok.
    + destruct (is_some _); [apply cycle_argument_ok|cbn [may]; apply cycle_suggests]; simpl; (done || lia).
Qed.

Lemma cycle_suggestion_ok s t st : ascii s -> tokens t = lex s -> auto_ok st -> may auto_ok (cycle_suggestion t st).
Proof.
  intros As E [C S]. unfold cycle_suggestion, last_token. rewrite E. fold (word_len (last (lex s))).
  apply (may_bind (suggests (word_len (last (lex s))))); [by apply cycle_token_ok|]. intros [[x|] a] [C' S']; simpl in *.
  - destruct (S' x eq_refl) as [Ax Lx]. rewrite slice_from_ascii by done. simpl. split; [exact C'|]. simpl. by apply ascii_drop.
  - by split.
Qed.

Lemma focus_suggestion_ok s t st : ascii s -> tokens t = lex s -> auto_ok st -> may auto_ok (focus_suggestion t st).
Proof.
  intros As E O. unfold focus_suggestion. apply (may_bind auto_ok).
  - destruct (is_some _); [exact O|]. by apply (cycle_suggestion_ok s).
  - intros st' O'. by destruct (is_some _).
Qed.

Lemma completion_tokens_written_ok s l t st : ascii s -> tokens t = lex s -> auto_ok st -> may auto_ok (completion_tokens_written l t st).
Proof.
  intros As E O. unfold completion_tokens_written. destruct (negb _); [exact O|].
  apply (may_bind completion_ok); [apply revalidate_ok; [rewrite E; apply lex_lexed|apply O]|]. intros a C.
  apply (cycle_suggestion_ok s); [done|done|]. by apply clear_ok.
Qed.

Lemma adopt_ok l st : line_ok l -> line l <> [] -> auto_ok st ->
  exists l' st' evs, adopt l st = Ret (l', st', evs) /\ line_ok l' /\ follows l l' /\ auto_ok st' /\ line l' <> [] /\
    ((evs = [] /\ l' = l) \/ evs = [LineWritten]).
Proof.
  intros (A & C & D) N [Ca Sa]. unfold adopt. destruct (_ || _); [exists l, st, []; split; [done|]; split; [done|]; split; [done|]; split; [done|]; split; [done|by left]|].
  destruct (exists_last N) as (s & c & E). unfold line_pop. rewrite E, str_pop_snoc. simpl.
  assert (As : ascii s /\ ascii [c]) by (rewrite E in A; by apply ascii_app). destruct As as [As Ac].
  assert (L : length (line l) = length s + 1) by (rewrite E, length_app; done).
  eexists _, _, _. split; [reflexivity|]. rewrite !str_len_ascii by done. split; [|split; [|split; [by apply clear_ok|split; [simpl; by destruct s, (suggestion st.2)|by right]]]].
  - split; simpl; [by rewrite !ascii_app|]. rewrite !length_app. simpl. lia.
  - intros x U. apply (upto_edit _ _ _ _ _ U); simpl; [|rewrite length_app; lia]. by rewrite E, !take_app_length.
Qed.

Lemma completion_key_ok k s l t st : line_ok l -> (k = Unicode SPACE -> line l <> []) -> ascii s -> tokens t = lex s -> auto_ok st ->
  may (fun '(l', st', evs) => line_ok l' /\ follows l l' /\ auto_ok st' /\ (line l <> [] -> line l' <> []) /\ ((evs = [] /\ l' = l) \/ evs = [LineWritten]))
    (completion_key k l t st).
Proof.
  intros H N As E O. unfold completion_key. assert (Lt : lexed (tokens t)) by (rewrite E; apply lex_lexed).
  assert (Stay : forall st', auto_ok st' -> line_ok l /\ follows l l /\ auto_ok st' /\ (line l <> [] -> line l <> []) /\ (([] : list Event) = [] /\ l = l \/ ([] : list Event) = [LineWritten])) by (intros st' O'; split; [done|]; split; [done|]; split; [done|]; split; [done|by left]).
  destruct (negb _); [by apply Stay|]. destruct k as [|c]; [by apply Stay|].
  destruct (Z.eqb_spec c TAB) as [->|]; [|destruct (Z.eqb_spec c SPACE) as [->|]].
  - apply (may_bind completion_ok); [apply revalidate_ok; [done|apply O]|]. intros a Ca.
    apply (may_bind auto_ok); [|intros st' O'; by apply Stay].
    destruct (negb _); [apply (focus_suggestion_ok s)|apply (cycle_suggestion_ok s)]; try done; (split; [exact Ca|apply O]).
  - apply (may_bind completion_ok); [apply revalidate_ok; [done|apply O]|]. intros a Ca.
    destruct (adopt_ok l (a, st.2) H (N eq_refl)) as (l' & st' & evs & -> & R1 & R2 & R3 & R4 & R5); [split; [exact Ca|apply O]|]. done.
  - destruct (_ || _); apply Stay; [|done]. split; [apply O|]. apply O.
Qed.
