(* ===== verification/Shell.v ===== *)
(** * The shell ([os/application/shell/src/shell.rs], [service/executor.rs], [built_in])

    The executor runs the executables of a line; the event loop of the shell passes each event to
    the services in their order until no event is left. *)

From S2P Require Import Prelude ShellText ShellToken ShellLexer ShellParser ShellServices.

Open Scope nat_scope.

(** ** The executor *)

(** The system calls of the executor, on the state [W] of the rest of the system: [naming::cd],
    [naming::mkdir], opening and listing a directory, and [thread::start_application] followed by
    [join]; the flag says whether the call succeeds. *)
Class Kernel (W : Type) := {
  naming_cd : str -> W -> bool * W;
  naming_mkdir : str -> W -> bool * W;
  naming_list : str -> W -> bool * W;
  run_application : str -> list str -> W -> bool * W
}.

(** [args.join(" ")] *)
Fixpoint join_words (ws : list str) : str :=
  match ws with
  | [] => []
  | [w] => w
  | w :: ws' => w ++ [SPACE] ++ join_words ws'
  end.

(** [splitn(2, "=")] *)
Fixpoint split_once (sep : char) (s : str) : str * option str :=
  match s with
  | [] => ([], None)
  | c :: s' => if (c =? sep)%Z then ([], Some s') else let '(a, b) := split_once sep s' in (c :: a, b)
  end.

(* [os/application/shell/src/built_in/alias.rs:68-80] AliasBuiltIn::strip_quotes *)
Definition strip_quotes (v : str) : str :=
  let quoted q := bool_decide (head v = Some q) && bool_decide (last v = Some q) in
  if (2 <=? str_len v) && (quoted SINGLE_QUOTE || quoted DOUBLE_QUOTE) then removelast (tail v) else v.

(* [os/application/shell/src/built_in/alias.rs:46-66] AliasBuiltIn::set_alias *)
Definition set_alias (args : list str) (al : list AliasEntry) : outcome (nat * list AliasEntry) :=
  match split_once (chr "=") (join_words args) with
  | (_, None) => Ret (1, al)
  | (k, Some v) =>
      r ← alias_set k (strip_quotes v) al;
      Ret match r with Ok al => (0, al) | Err _ => (1, al) end
  end.

Definition THEME_IDS : list str := [lit "d3os"; lit "plain"; lit "debug"].

(** What a command leaves: its exit code, or the end of the shell. *)
Inductive Ran := Code (n : nat) | Exit.

Section executor.
Context {W : Type} `{Kernel W}.

(** The aliases, the working directory and the rest of the system. *)
Definition Contexts : Type := list AliasEntry * list str * W.

(** The built-in of a name, if there is one. *)
(* [os/application/shell/src/service/executor.rs:122-128] ExecutorService::execute_built_in *)
Definition execute_built_in (cmd : str) (args : list str) (c : Contexts) : outcome (option Ran * Contexts) :=
  let '(al, cwd, w) := c in
  let code n := Ret (Some (Code n), c) in
  let named name := bool_decide (cmd = lit name) in
  if named "alias" then
    match args with
    | [] => code 0
    | _ => '(n, al) ← set_alias args al; Ret (Some (Code n), (al, cwd, w))
    end
  else if named "cd" then
    match args with
    | [] => code 1
    | dir :: _ =>
        match wd_cd naming_cd dir cwd w with
        | (Ok cwd, w) => Ret (Some (Code 0), (al, cwd, w))
        | (Err _, w) => Ret (Some (Code 1), (al, cwd, w))
        end
    end
  else if named "clear" then code 0
  else if named "echo" then code 0
  else if named "exit" then Ret (Some Exit, c)
  else if named "mkdir" then
    match args with
    | [] => code 1
    | p :: _ => let '(ok, w) := naming_mkdir (resolve cwd p) w in
                Ret (Some (Code (if ok : bool then 0 else 1)), (al, cwd, w))
    end
  else if named "pwd" then code (match args with [] => 0 | _ => 1 end)
  else if named "theme" then
    code (match args with [] => 0 | [t] => if bool_decide (t ∈ THEME_IDS) then 0 else 1 | _ => 1 end)
  else if named "unalias" then
    match args with
    | [k] => match alias_remove k al with
             | Ok al => Ret (Some (Code 0), (al, cwd, w))
             | Err _ => code 1
             end
    | _ => code 1
    end
  else if named "window_manager" then code 1
  else if named "debug_success" then code 0
  else if named "debug_error" then code 1
  else if named "help" then
    code (match args with
          | [] => 0
          | [a] => if bool_decide (a ∈ [lit "tokens"; lit "controls"; lit "built-in-1"; lit "built-in-2"]) then 0 else 1
          | _ => 1
          end)
  else if named "ls" then
    let '(ok, w) := naming_list (resolve cwd (default [] (head args))) w in
    Ret (Some (Code (if ok : bool then 0 else 1)), (al, cwd, w))
  else Ret (None, c).

(** An application that is started counts as a success, whatever it returns. *)
(* [os/application/shell/src/service/executor.rs:102-120] ExecutorService::execute_executable *)
Definition execute_executable (e : Executable) (c : Contexts) : outcome (Ran * Contexts) :=
  '(r, c) ← execute_built_in (command e) (arguments e) c;
  match r with
  | Some r => Ret (r, c)
  | None =>
      let '(al, cwd, w) := c in
      let '(ok, w) := run_application (command e) (arguments e) w in
      Ret (Code (if ok : bool then 0 else 1), (al, cwd, w))
  end.

(* [os/application/shell/src/service/executor.rs:159-166] ExecutorService::should_stop_on_dependency *)
Definition should_stop_on_dependency (e : Executable) (exit_codes : list nat) : bool :=
  match requires_executable e with
  | Some (i, r) =>
      match exit_codes !! i with
      | Some code => match r with Success => 0 <? code | JobError => code =? 0 end
      | None => false
      end
  | None => false
  end.

(** The exit codes so far; the flag says that the shell ended. *)
Fixpoint execute_all (es : list Executable) (codes : list nat) (c : Contexts) : outcome (list nat * bool * Contexts) :=
  match es with
  | [] => Ret (codes, false, c)
  | e :: es' =>
      if should_stop_on_dependency e codes then Ret (codes, false, c)
      else
        '(r, c) ← execute_executable e c;
        match r with
        | Code n => execute_all es' (codes ++ [n]) c
        | Exit => Ret (codes, true, c)
        end
  end.
End executor.

(** ** The message for what is not supported *)

(** [{:?}] of a string. *)
Definition hex_digit (n : Z) : char := (if n <? 10 then 48 + n else 87 + n)%Z.
Definition debug_char (c : char) : str :=
  if (c =? 0)%Z then lit "\0" else if (c =? TAB)%Z then lit "\t" else if (c =? NEWLINE)%Z then lit "\n"
  else if (c =? 13)%Z then lit "\r" else if (c =? DOUBLE_QUOTE)%Z then [92; DOUBLE_QUOTE]%Z
  else if (c =? 92)%Z then [92; 92]%Z
  else if (c <? 32)%Z || (c =? 127)%Z then
    lit "\u{" ++ (if (c <? 16)%Z then [hex_digit c] else [hex_digit (c / 16)%Z; hex_digit (c mod 16)%Z]) ++ lit "}"
  else [c].
Definition debug_str (s : str) : str := [DOUBLE_QUOTE] ++ concat (debug_char <$> s) ++ [DOUBLE_QUOTE].
Fixpoint debug_list (l : list str) : str :=
  match l with
  | [] => []
  | [s] => debug_str s
  | s :: l' => debug_str s ++ lit ", " ++ debug_list l'
  end.

(** The text for a source or destination; [job] names the command at the other end of a pipe. *)
Definition io_text (std job : string) (es : list Executable) (t : IoTarget) : outcome str :=
  match t with
  | Std => Ret (lit std)
  | Job i => e ← arr_get es i; Ret (lit job ++ lit " (" ++ command e ++ lit ")")
  | FileTruncate f => Ret (lit "File (" ++ f ++ lit ")")
  | FileAppend f => Ret (lit "Append file (" ++ f ++ lit ")")
  end.

Fixpoint unsupported_lines (all es : list Executable) : outcome str :=
  match es with
  | [] => Ret []
  | e :: es' =>
      i ← io_text "StdIn" "previous command" all (input e);
      o ← io_text "StdOut" "next command" all (output e);
      rest ← unsupported_lines all es';
      Ret (lit "Execute: " ++ command e ++ lit ", with arguments: [" ++ debug_list (arguments e) ++ lit "]" ++ [NEWLINE; TAB]
           ++ lit "Input from: " ++ i ++ [NEWLINE; TAB] ++ lit "Output to: " ++ o ++ [NEWLINE; TAB]
           ++ lit "Background execution: " ++ lit (if background_execution e then "true" else "false") ++ [NEWLINE] ++ rest)
  end.

(* [os/application/shell/src/service/executor.rs:132-157] ExecutorService::handle_unsupported_error *)
Definition handle_unsupported_error (es : list Executable) : outcome Error :=
  lines ← unsupported_lines es es;
  Ret {| message := lit "Pipes, redirections, and background execution are not yet supported by D3OS";
         hint := Some (lit "Assume the following execution:" ++ [NEWLINE] ++ lines); is_in_execution := true |}.

Definition unsupported (e : Executable) : bool :=
  negb (bool_decide (input e = Std)) || negb (bool_decide (output e = Std)) || background_execution e.

(** Why the handling of an event ends: an error, or the end of the shell. *)
Inductive Flow := Failed (e : Error) | Exited.

(* [os/application/shell/src/service/executor.rs:72-100] ExecutorService::execute *)
Definition execute {W} `{Kernel W} (es : list Executable) (c : Contexts) : outcome (Contexts * option Flow * list Event) :=
  if existsb unsupported es then
    e ← handle_unsupported_error es;
    Ret (c, Some (Failed e), [])
  else
    '(_, ended, c) ← execute_all es [] c;
    if ended : bool then Ret (c, Some Exited, []) else Ret (c, None, [PrepareNewLine]).

(** ** The shell *)

(** The contexts and the states of the services. *)
(* os/application/shell/src/shell.rs: Shell *)
Record Shell (W : Type) := {
  sh_line : LineContext; sh_tokens : TokensContext; sh_suggestion : SuggestionContext;
  sh_executables : list Executable; sh_alias : list AliasEntry; sh_cwd : list str;
  sh_history : History; sh_completion : AutoCompletion; sh_written : Written; sh_world : W; event_bus : list Event
}.
Arguments sh_line {W}. Arguments sh_tokens {W}. Arguments sh_suggestion {W}. Arguments sh_executables {W}.
Arguments sh_alias {W}. Arguments sh_cwd {W}. Arguments sh_history {W}. Arguments sh_completion {W}.
Arguments sh_written {W}. Arguments sh_world {W}. Arguments event_bus {W}.

(* os/application/shell/src/shell.rs: Config *)
Record Config := { no_history : bool; no_auto_completion : bool }.

Inductive Service := CommandLineService | HistoryService | LexerService | AutoCompletionService | WriterService
  | ParserService | ExecutorService.

(** The services in the order of their registration. *)
Definition services (cfg : Config) : list Service :=
  [CommandLineService] ++ (if no_history cfg then [] else [HistoryService]) ++ [LexerService]
  ++ (if no_auto_completion cfg then [] else [AutoCompletionService]) ++ [WriterService; ParserService; ExecutorService].

(* [os/application/shell/src/shell.rs:87-135] Shell::new *)
Definition shell_new {W} (apps : list Application) (w : W) : outcome (Shell W) :=
  al ← alias_new;
  Ret {| sh_line := line_new; sh_tokens := tokens_new; sh_suggestion := suggestion_new; sh_executables := [];
         sh_alias := al; sh_cwd := []; sh_history := history_new; sh_completion := completion_new apps;
         sh_written := (0, []); sh_world := w; event_bus := [] |}.

Section shell.
Context {W : Type} `{Kernel W}.

Definition with_line (l : LineContext) (sh : Shell W) : Shell W :=
  {| sh_line := l; sh_tokens := sh_tokens sh; sh_suggestion := sh_suggestion sh; sh_executables :=
     sh_executables sh; sh_alias := sh_alias sh; sh_cwd := sh_cwd sh; sh_history := sh_history sh; sh_completion
     := sh_completion sh; sh_written := sh_written sh; sh_world := sh_world sh; event_bus := event_bus sh |}.
Definition with_tokens (t : TokensContext) (sh : Shell W) : Shell W :=
  {| sh_line := sh_line sh; sh_tokens := t; sh_suggestion := sh_suggestion sh; sh_executables := sh_executables
     sh; sh_alias := sh_alias sh; sh_cwd := sh_cwd sh; sh_history := sh_history sh; sh_completion :=
     sh_completion sh; sh_written := sh_written sh; sh_world := sh_world sh; event_bus := event_bus sh |}.
Definition with_completion (st : AutoState) (sh : Shell W) : Shell W :=
  {| sh_line := sh_line sh; sh_tokens := sh_tokens sh; sh_suggestion := st.2; sh_executables := sh_executables
     sh; sh_alias := sh_alias sh; sh_cwd := sh_cwd sh; sh_history := sh_history sh; sh_completion := st.1;
     sh_written := sh_written sh; sh_world := sh_world sh; event_bus := event_bus sh |}.
Definition with_suggestion (s : SuggestionContext) (sh : Shell W) : Shell W :=
  {| sh_line := sh_line sh; sh_tokens := sh_tokens sh; sh_suggestion := s; sh_executables := sh_executables sh;
     sh_alias := sh_alias sh; sh_cwd := sh_cwd sh; sh_history := sh_history sh; sh_completion := sh_completion
     sh; sh_written := sh_written sh; sh_world := sh_world sh; event_bus := event_bus sh |}.
Definition with_executables (es : list Executable) (sh : Shell W) : Shell W :=
  {| sh_line := sh_line sh; sh_tokens := sh_tokens sh; sh_suggestion := sh_suggestion sh; sh_executables := es;
     sh_alias := sh_alias sh; sh_cwd := sh_cwd sh; sh_history := sh_history sh; sh_completion := sh_completion
     sh; sh_written := sh_written sh; sh_world := sh_world sh; event_bus := event_bus sh |}.
Definition with_contexts (c : Contexts) (sh : Shell W) : Shell W :=
  {| sh_line := sh_line sh; sh_tokens := sh_tokens sh; sh_suggestion := sh_suggestion sh; sh_executables :=
     sh_executables sh; sh_alias := c.1.1; sh_cwd := c.1.2; sh_history := sh_history sh; sh_completion :=
     sh_completion sh; sh_written := sh_written sh; sh_world := c.2; event_bus := event_bus sh |}.
Definition with_history (h : History) (sh : Shell W) : Shell W :=
  {| sh_line := sh_line sh; sh_tokens := sh_tokens sh; sh_suggestion := sh_suggestion sh; sh_executables :=
     sh_executables sh; sh_alias := sh_alias sh; sh_cwd := sh_cwd sh; sh_history := h; sh_completion :=
     sh_completion sh; sh_written := sh_written sh; sh_world := sh_world sh; event_bus := event_bus sh |}.
Definition with_written (w : Written) (sh : Shell W) : Shell W :=
  {| sh_line := sh_line sh; sh_tokens := sh_tokens sh; sh_suggestion := sh_suggestion sh; sh_executables :=
     sh_executables sh; sh_alias := sh_alias sh; sh_cwd := sh_cwd sh; sh_history := sh_history sh; sh_completion
     := sh_completion sh; sh_written := w; sh_world := sh_world sh; event_bus := event_bus sh |}.
Definition with_events (evs : list Event) (sh : Shell W) : Shell W :=
  {| sh_line := sh_line sh; sh_tokens := sh_tokens sh; sh_suggestion := sh_suggestion sh; sh_executables :=
     sh_executables sh; sh_alias := sh_alias sh; sh_cwd := sh_cwd sh; sh_history := sh_history sh; sh_completion
     := sh_completion sh; sh_written := sh_written sh; sh_world := sh_world sh; event_bus := evs |}.

(* os/application/shell/src/event/event_bus.rs: EventBus::trigger *)
Definition trigger (evs : list Event) (sh : Shell W) : Shell W := with_events (event_bus sh ++ evs) sh.

Definition lex_state (sh : Shell W) : LexState := (sh_line sh, sh_tokens sh).
Definition auto_state (sh : Shell W) : AutoState := (sh_completion sh, sh_suggestion sh).
Definition contexts_of (sh : Shell W) : Contexts := (sh_alias sh, sh_cwd sh, sh_world sh).

Abbreviation Handled := (outcome (Shell W * option Flow)).
Definition handled (sh : Shell W) : Handled := Ret (sh, None).

(* [os/application/shell/src/service/command_line.rs:18-44] CommandLineService *)
Definition on_command_line (ev : Event) (sh : Shell W) : Handled :=
  match ev with
  | KeyPressed k => '(l, evs) ← command_line_key k (sh_line sh); handled (trigger evs (with_line l sh))
  | PrepareNewLine => handled (with_line line_new sh)
  | _ => handled sh
  end.

(* [os/application/shell/src/service/history.rs:22-41] HistoryService *)
Definition on_history (ev : Event) (sh : Shell W) : Handled :=
  match ev with
  | KeyPressed k =>
      '(l, h, evs) ← history_key k (sh_line sh) (sh_history sh);
      handled (trigger evs (with_history h (with_line l sh)))
  | Submit => handled (with_history (history_add (sh_line sh) (reset_position (sh_history sh))) sh)
  | LineWritten => handled (with_history (reset_position (sh_history sh)) sh)
  | _ => handled sh
  end.

(* [os/application/shell/src/service/lexer.rs:20-38] LexerService *)
Definition on_lexer (ev : Event) (sh : Shell W) : Handled :=
  match ev with
  | PrepareNewLine => handled (with_tokens tokens_new sh)
  | Submit =>
      '(l, t) ← retokenize_with_alias (fun k => alias_get k (sh_alias sh)) (lex_state sh);
      handled (with_tokens t (with_line l sh))
  | LineWritten | HistoryRestored =>
      '(changed, (l, t)) ← tokenize_from_dirty (lex_state sh);
      handled (trigger (if changed : bool then [TokensWritten] else []) (with_tokens t (with_line l sh)))
  | _ => handled sh
  end.

(* [os/application/shell/src/service/auto_completion.rs:34-84] AutoCompletionService *)
Definition on_completion (ev : Event) (sh : Shell W) : Handled :=
  match ev with
  | KeyPressed k =>
      '(l, st, evs) ← completion_key k (sh_line sh) (sh_tokens sh) (auto_state sh);
      handled (trigger evs (with_completion st (with_line l sh)))
  | TokensWritten =>
      st ← completion_tokens_written (sh_line sh) (sh_tokens sh) (auto_state sh);
      handled (with_completion st sh)
  | Submit | CursorMoved _ => handled (with_completion (clear_suggestion (auto_state sh)) sh)
  | PrepareNewLine | HistoryRestored => handled (with_completion (completion_reset (auto_state sh)) sh)
  | _ => handled sh
  end.

(** What was printed is kept from the last prompt on. *)
(* [os/application/shell/src/service/writer.rs:32-49] WriterService *)
Definition on_writer (ev : Event) (sh : Shell W) : Handled :=
  match ev with
  | PrepareNewLine => handled (with_written (write_prompt (sh_cwd sh) (0, [])) sh)
  | Submit =>
      handled (with_written (write_next_line (sh_cwd sh) (sh_line sh) (sh_suggestion sh) (sh_written sh)) sh)
  | ProcessCompleted =>
      '(l, t, sg, w) ← write_at_dirty (sh_cwd sh) (sh_line sh) (sh_tokens sh) (sh_suggestion sh) (sh_written sh);
      handled (with_written w (with_suggestion sg (with_tokens t (with_line l sh))))
  | ProcessFailed e => let '(w, evs) := write_error e (sh_written sh) in handled (trigger evs (with_written w sh))
  | _ => handled sh
  end.

(* [os/application/shell/src/service/parser.rs:33-42] ParserService *)
Definition on_parser (ev : Event) (sh : Shell W) : Handled :=
  match ev with
  | PrepareNewLine => handled (with_executables [] sh)
  | Submit =>
      '(es, e) ← parse (sh_cwd sh) (tokens (sh_tokens sh)) (sh_executables sh);
      Ret (with_executables es sh, match e with Some e => Some (Failed e) | None => None end)
  | _ => handled sh
  end.

(* [os/application/shell/src/service/executor.rs:36-40] ExecutorService *)
Definition on_executor (ev : Event) (sh : Shell W) : Handled :=
  match ev with
  | Submit =>
      '(c, f, evs) ← execute (sh_executables sh) (contexts_of sh);
      let w := match f with Some (Failed _) => sh_written sh | _ => emit [Output] (sh_written sh) end in
      Ret (trigger evs (with_contexts c (with_written w sh)), f)
  | _ => handled sh
  end.

Definition on_event (s : Service) : Event -> Shell W -> Handled :=
  match s with
  | CommandLineService => on_command_line
  | HistoryService => on_history
  | LexerService => on_lexer
  | AutoCompletionService => on_completion
  | WriterService => on_writer
  | ParserService => on_parser
  | ExecutorService => on_executor
  end.

(* [os/application/shell/src/shell.rs:165-187] Shell::handle_event *)
Fixpoint handle_event (ss : list Service) (ev : Event) (sh : Shell W) : Handled :=
  match ss with
  | [] => handled sh
  | s :: ss' =>
      '(sh, f) ← on_event s ev sh;
      match f with
      | None => handle_event ss' ev sh
      | Some f => Ret (sh, Some f)
      end
  end.

(** What is left when no event is: the shell, or the end of its process. *)
Inductive Settled := Running (sh : Shell W) | Ended (sh : Shell W).

(** The inner loop; [None] where the fuel does not do. *)
(* [os/application/shell/src/shell.rs:150-156] Shell::run *)
Fixpoint process_events (fuel : nat) (ss : list Service) (sh : Shell W) : outcome (option Settled) :=
  match event_bus sh with
  | [] => Ret (Some (Running sh))
  | ev :: evs =>
      match fuel with
      | 0 => Ret None
      | S fuel =>
          '(sh, f) ← handle_event ss ev (with_events evs sh);
          match f with
          | None => process_events fuel ss sh
          | Some (Failed e) => process_events fuel ss (with_events [ProcessFailed e] sh)
          | Some Exited => Ret (Some (Ended sh))
          end
      end
  end.

(** [handle_event(..).unwrap()] *)
Definition handle_unwrap (ss : list Service) (ev : Event) (sh : Shell W) : outcome Settled :=
  '(sh, f) ← handle_event ss ev sh;
  match f with
  | None => Ret (Running sh)
  | Some (Failed _) => Panic "called `Result::unwrap()` on an `Err` value"
  | Some Exited => Ret (Ended sh)
  end.

(** One round of the outer loop: the events, what is written, and the next key, if there is one. *)
(* [os/application/shell/src/shell.rs:149-162] Shell::run *)
Definition round (fuel : nat) (ss : list Service) (key : option DecodedKey) (sh : Shell W) : outcome (option Settled) :=
  r ← process_events fuel ss sh;
  match r with
  | Some (Running sh) =>
      r ← handle_unwrap ss ProcessCompleted sh;
      match r, key with
      | Running sh, Some k => r ← handle_unwrap ss (KeyPressed k) sh; Ret (Some r)
      | r, _ => Ret (Some r)
      end
  | r => Ret r
  end.

Fixpoint rounds (fuel : nat) (ss : list Service) (keys : list DecodedKey) (sh : Shell W) : outcome (option Settled) :=
  match keys with
  | [] => round fuel ss None sh
  | k :: keys' =>
      r ← round fuel ss (Some k) sh;
      match r with
      | Some (Running sh) => rounds fuel ss keys' sh
      | r => Ret r
      end
  end.

(** The shell after the keys, when all of them are handled. *)
(* [os/application/shell/src/shell.rs:146-163] Shell::run *)
Definition run (fuel : nat) (cfg : Config) (apps : list Application) (keys : list DecodedKey) (w : W) : outcome (option Settled) :=
  sh ← shell_new apps w;
  rounds fuel (services cfg) keys (trigger [PrepareNewLine] sh).
End shell.
