(* ===== verification/ShellRun.v ===== *)
(** * The shell keeps running

    Whatever ASCII keys are pressed: every event is handled, the queue runs empty, the tokens are
    those of the line and the terminal shows the line. *)

From S2P Require Import Prelude ShellText ShellToken ShellLexer ShellLexProofs ShellParser ShellParseProofs.
From S2P Require Import ShellServices ShellScreen ShellSafe Shell.

Open Scope nat_scope.

(** ** Outcomes *)

(** The outcome is good, or it is the one panic of the auto completion, which must be running. *)
Definition fine {A} (ss : list Service) (P : A -> Prop) (o : outcome A) : Prop :=
  match o with
  | Ret a => P a
  | Panic m => m = key_index_panic /\ AutoCompletionService ∈ ss
  end.

Lemma fine_bind {A B} ss (P : A -> Prop) (Q : B -> Prop) (m : outcome A) (f : A -> outcome B) :
  fine ss P m -> (forall a, P a -> fine ss Q (f a)) -> fine ss Q (m ≫= f).
Proof. intros H F. destruct m; simpl in *; auto. Qed.

Lemma fine_mono {A} ss ss' (P Q : A -> Prop) (m : outcome A) :
  fine ss P m -> (AutoCompletionService ∈ ss -> AutoCompletionService ∈ ss') -> (forall a, P a -> Q a) -> fine ss' Q m.
Proof. intros H S F. destruct m; simpl in *; [auto|]. destruct H. auto. Qed.

Lemma may_fine {A} ss (P Q : A -> Prop) (m : outcome A) :
  may P m -> AutoCompletionService ∈ ss -> (forall a, P a -> Q a) -> fine ss Q m.
Proof. intros H S F. destruct m; simpl in *; auto. Qed.

Lemma contents_lexed_ascii s : ascii s -> token_ascii (lex s).
Proof. intros A. apply contents_ascii. by rewrite lex_contents. Qed.

Section run.
Context {W : Type} `{Kernel W}.

(** Every service passes the event on, and what holds before it holds after it. *)
Lemma handle_event_fine ss ev (I : Shell W -> Prop) sh :
  (forall s sh, s ∈ ss -> I sh -> fine [s] (fun r => r.2 = None /\ I r.1) (on_event s ev sh)) -> I sh ->
  fine ss (fun r => r.2 = None /\ I r.1) (handle_event ss ev sh).
Proof.
  revert sh. induction ss as [|s ss IH]; intros sh S Hi; simpl; [done|].
  apply (fine_bind _ (fun r => r.2 = None /\ I r.1)).
  - eapply fine_mono; [apply S; [by left|done]|set_solver|done].
  - intros [sh' f] [Hf Hi']. simpl in *. subst f. eapply fine_mono; [apply IH; [|done]|set_solver|done].
    intros s' sh2 Hs. apply S. set_solver.
Qed.

Lemma handle_event_app ss ss' ev (sh : Shell W) :
  handle_event (ss ++ ss') ev sh =
  ('(sh, f) ← handle_event ss ev sh; match f with None => handle_event ss' ev sh | Some f => Ret (sh, Some f) end).
Proof.
  revert sh. induction ss as [|s ss IH]; intros sh; simpl; [done|].
  destruct (on_event s ev sh) as [[sh' [f|]]|]; simpl; auto.
Qed.

(** ** The state between events *)

Record good (sh : Shell W) : Prop := {
  good_line : line_ok (sh_line sh);
  good_step : in_step (lex_state sh);
  good_history : history_ok (sh_history sh);
  good_auto : auto_ok (auto_state sh);
  good_executables : sh_executables sh = [];
  good_shown : ascii (prompt (sh_cwd sh)) -> shown (sh_cwd sh) (sh_line sh) (sh_written sh)
}.

(** The tokens are those of the line. *)
Definition synced (sh : Shell W) : Prop := tokens (sh_tokens sh) = lex (line (sh_line sh)).

(** Changes of the line keep the state good. *)
Lemma good_with_line l sh : good sh -> line_ok l -> follows (sh_line sh) l -> good (with_line l sh).
Proof.
  intros [L (s & E & A & U) Hi Au Ex Sh] O F. split; try done; simpl.
  - exists s. split; [done|]. split; [done|]. by apply F.
  - intros P. destruct (Sh P) as (T & r & C & U'). split; [done|]. exists r. split; [done|]. by apply F.
Qed.

Lemma good_with_events q sh : good sh -> good (with_events q sh).
Proof. by intros []. Qed.

Lemma good_trigger q sh : good sh -> good (trigger q sh).
Proof. apply good_with_events. Qed.

Lemma good_with_history h sh : good sh -> history_ok h -> good (with_history h sh).
Proof. by intros [] ?. Qed.

Lemma good_with_completion st sh : good sh -> auto_ok st -> good (with_completion st sh).
Proof. intros [] O. by split. Qed.

Lemma good_tokens sh : good sh -> exists s, ascii s /\ tokens (sh_tokens sh) = lex s.
Proof. intros [_ (s & E & A & _)]. by exists s. Qed.

(** ** Events of the line *)

Definition is_line_event (ev : Event) : Prop := ev = LineWritten \/ ev = HistoryRestored.
Definition is_small_event (ev : Event) : Prop := ev = TokensWritten \/ exists z, ev = CursorMoved z.

(** A good state with the same line and tokens. *)
Definition still (sh sh' : Shell W) : Prop :=
  good sh' /\ event_bus sh' = event_bus sh /\ sh_line sh' = sh_line sh /\ sh_tokens sh' = sh_tokens sh /\
  sh_written sh' = sh_written sh.

Lemma still_refl sh : good sh -> still sh sh.
Proof. done. Qed.

(** Services other than the lexer. *)
Lemma other_service_good s ev (sh : Shell W) :
  (is_line_event ev /\ s <> LexerService) \/ is_small_event ev ->
  forall sh', still sh sh' -> fine [s] (fun r => r.2 = None /\ still sh r.1) (on_event s ev sh').
Proof.
  intros E sh' (G & B & L & T & Wr). pose proof G as [_ _ Hh Ha _ _].
  assert (Stay : fine [s] (fun r : Shell W * option Flow => r.2 = None /\ still sh r.1) (handled sh')) by done.
  assert (Auto : forall st, auto_ok st -> still sh (with_completion st sh')) by (intros st O; by split; [apply good_with_completion|]).
  destruct s; simpl.
  - by destruct E as [[[-> | ->] _]|[-> |[z ->]]].
  - destruct E as [[[-> | ->] _]|[-> |[z ->]]]; try exact Stay. split; [done|]. simpl. split; [|done].
    apply good_with_history; [done|]. by apply reset_position_ok.
  - destruct E as [[_ []]|[-> |[z ->]]]; done.
  - destruct E as [[[-> | ->] _]|[-> |[z ->]]]; simpl; try exact Stay.
    + split; [done|]. apply Auto, reset_ok, Ha.
    + destruct (good_tokens sh' G) as (s & As & Es).
      apply (fine_bind _ auto_ok); [|intros st O; split; [done|by apply Auto]].
      eapply may_fine; [by apply (completion_tokens_written_ok s)|set_solver|done].
    + split; [done|]. apply Auto, clear_ok, Ha.
  - by destruct E as [[[-> | ->] _]|[-> |[z ->]]].
  - by destruct E as [[[-> | ->] _]|[-> |[z ->]]].
  - by destruct E as [[[-> | ->] _]|[-> |[z ->]]].
Qed.

(** The lexer brings the tokens up to date. *)
Lemma lexer_good ev sh : is_line_event ev -> good sh ->
  exists sh' q, on_lexer ev sh = Ret (sh', None) /\ good sh' /\ synced sh' /\ event_bus sh' = event_bus sh ++ q /\
    (q = [] \/ q = [TokensWritten]).
Proof.
  intros E G. pose proof G as [L St Hh Ha Ex Sh]. destruct (tokenize_from_dirty_spec (lex_state sh) (proj1 L) St) as (b & [l t] & Et & T & K & _).
  assert (R : on_lexer ev sh = Ret (trigger (if b then [TokensWritten] else []) (with_tokens t (with_line l sh)), None)).
  { destruct E as [-> | ->]; simpl; by rewrite Et. }
  rewrite R. eexists _, (if b then _ else _). split; [reflexivity|].
  destruct K as (K1 & K2 & K3). simpl in *. destruct L as (A & C & D).
  assert (O : line_ok l) by (split; [by rewrite K1|]; rewrite K1, K2; split; [done|lia]).
  split; [|split; [|split; [done|by destruct b; auto]]].
  - split; try done; simpl.
    + apply in_step_lexed; simpl; [by rewrite K1|by rewrite K1|apply O].
    + intros P. destruct (Sh P) as (Tr & r & Cr & (U1 & U2 & U3)). split; [done|]. exists r. split; [done|]. rewrite K1.
      split; [lia|]. split; [lia|].
      assert (M : dirty_index l = min (dirty_index l) (dirty_index (sh_line sh))) by lia. rewrite M, <-!take_take. by rewrite U3.
  - unfold synced. simpl. by rewrite K1.
Qed.
Context (cfg : Config).

Definition before_lexer : list Service := [CommandLineService] ++ (if no_history cfg then [] else [HistoryService]).
Definition after_lexer : list Service :=
  (if no_auto_completion cfg then [] else [AutoCompletionService]) ++ [WriterService; ParserService; ExecutorService].

Lemma services_split : services cfg = before_lexer ++ [LexerService] ++ after_lexer.
Proof. unfold services, before_lexer. by destruct (no_history cfg). Qed.

Lemma not_lexer s : s ∈ before_lexer ++ after_lexer -> s <> LexerService.
Proof. unfold before_lexer, after_lexer. destruct (no_history cfg), (no_auto_completion cfg); set_solver. Qed.

Lemma auto_on : AutoCompletionService ∈ services cfg <-> no_auto_completion cfg = false.
Proof. unfold services. destruct (no_history cfg), (no_auto_completion cfg); set_solver. Qed.

Lemma line_event_fine ev (sh : Shell W) : is_line_event ev -> good sh ->
  fine (services cfg) (fun r => r.2 = None /\ good r.1 /\ synced r.1 /\
    exists q, event_bus r.1 = event_bus sh ++ q /\ (q = [] \/ q = [TokensWritten])) (handle_event (services cfg) ev sh).
Proof.
  intros E G. rewrite services_split, handle_event_app. eapply fine_bind.
  - eapply fine_mono; [eapply (handle_event_fine before_lexer ev (still sh) sh); [|by apply still_refl]|set_solver|].
    + intros s sh' Hs. apply other_service_good. left. split; [done|]. apply not_lexer. set_solver.
    + intros r Hr. exact Hr.
  - intros [sh1 f] (Ef & G1 & B1 & L1 & T1 & _). simpl in *. subst f.
    destruct (lexer_good ev sh1 E G1) as (sh2 & q & -> & G2 & S2 & B2 & Q2). simpl.
    eapply fine_mono; [eapply (handle_event_fine after_lexer ev (still sh2) sh2); [|by apply still_refl]|set_solver|].
    + intros s sh' Hs. apply other_service_good. left. split; [done|]. apply not_lexer. set_solver.
    + intros [sh3 f] (Ef & G3 & B3 & L3 & T3 & _). simpl in *. split; [done|]. split; [done|]. unfold synced in *.
      split; [by rewrite T3, L3|]. exists q. by rewrite B3, B2, B1.
Qed.

Lemma small_event_fine ev (sh : Shell W) : is_small_event ev -> good sh ->
  fine (services cfg) (fun r => r.2 = None /\ good r.1 /\ event_bus r.1 = event_bus sh /\ (synced sh -> synced r.1))
    (handle_event (services cfg) ev sh).
Proof.
  intros E G.
  eapply fine_mono; [eapply (handle_event_fine _ ev (still sh) sh); [|by apply still_refl]|done|].
  - intros s sh' _. apply other_service_good. by right.
  - intros [sh' f] (Ef & G1 & B1 & L1 & T1 & _). simpl in *. split; [done|]. split; [done|]. split; [done|].
    unfold synced. by rewrite T1, L1.
Qed.

(** ** The queue runs empty *)

Lemma process_events_unfold fuel ss (sh : Shell W) : process_events fuel ss sh =
  match event_bus sh with
  | [] => Ret (Some (Running sh))
  | ev :: evs =>
      match fuel with
      | 0 => Ret None
      | S fuel =>
          '(sh, f) ← handle_event ss ev (with_events evs sh);
          match f with
          | None => process_events fuel ss sh
          | Some (Failed e) => process_events fuel ss (with_events [ProcessFailed e] sh)
          | Some Exited => Ret (Some (Ended sh))
          end
      end
  end.
Proof. by destruct fuel. Qed.

Definition weight (ev : Event) : nat :=
  match ev with LineWritten | HistoryRestored | ProcessFailed _ => 2 | Submit => 3 | _ => 1 end.
Definition weights (q : list Event) : nat := sum_list_with weight q.

Definition quiet (ev : Event) : Prop := is_line_event ev \/ is_small_event ev.

(** The tokens are those of the line, or the lexer will be told. *)
Definition will_sync (sh : Shell W) : Prop := synced sh \/ Exists is_line_event (event_bus sh).

Definition settled (sh : Shell W) : Prop := good sh /\ synced sh /\ event_bus sh = [].

Lemma quiet_settles fuel sh : good sh -> Forall quiet (event_bus sh) -> will_sync sh -> weights (event_bus sh) <= fuel ->
  fine (services cfg) (fun r => exists sh', r = Some (Running sh') /\ settled sh') (process_events fuel (services cfg) sh).
Proof.
  revert sh. induction fuel as [|fuel IH]; intros sh G Q S Wt; destruct (event_bus sh) as [|ev evs] eqn:B.
  1,3: rewrite process_events_unfold, B; exists sh; split; [done|]; split; [done|]; split; [|done];
    destruct S as [S|S]; [done|rewrite B in S; by apply Exists_nil in S].
  - destruct (Forall_cons_1 _ _ _ Q) as [[[-> | ->]|[-> |[z ->]]] _]; simpl in Wt; unfold weights in Wt; simpl in Wt; lia.
  - rewrite process_events_unfold, B. apply Forall_cons_1 in Q as [Qe Q]. destruct Qe as [Qe|Qe].
    + eapply fine_bind; [apply (line_event_fine ev (with_events evs sh) Qe); by apply good_with_events|].
      intros [sh1 f] (Ef & G1 & S1 & q & B1 & Q1). simpl in *. subst f. apply IH; [done| |by left|].
      * rewrite B1. apply Forall_app. split; [done|]. destruct Q1 as [-> | ->]; [constructor|]. constructor; [|constructor]. right. by left.
      * rewrite B1. unfold weights in *. rewrite sum_list_with_app. destruct Qe as [-> | ->], Q1 as [-> | ->]; simpl in *; lia.
    + eapply fine_bind; [apply (small_event_fine ev (with_events evs sh) Qe); by apply good_with_events|].
      intros [sh1 f] (Ef & G1 & B1 & S1). simpl in *. subst f. apply IH; [done|by rewrite B1| |].
      * destruct S as [S|S]; [left; by apply S1|]. right. rewrite B1. rewrite B in S. apply Exists_cons in S as [S|S]; [|done].
        by destruct S as [-> | ->], Qe as [|[]].
      * rewrite B1. unfold weights in *. destruct Qe as [-> |[z ->]]; simpl in *; lia.
Qed.

(** ** A key *)

Lemma handle_event_count ss ev (I : nat -> Shell W -> Prop) n sh :
  (forall s n sh, s ∈ ss -> I n sh -> fine [s] (fun r => r.2 = None /\ I (n + 2) r.1) (on_event s ev sh)) -> I n sh ->
  fine ss (fun r => r.2 = None /\ I (n + 2 * length ss) r.1) (handle_event ss ev sh).
Proof.
  revert n sh. induction ss as [|s ss IH]; intros n sh Sv Hi; simpl; [by rewrite Nat.add_0_r|].
  apply (fine_bind _ (fun r => r.2 = None /\ I (n + 2) r.1)).
  - eapply fine_mono; [apply Sv; [by left|done]|set_solver|done].
  - intros [sh' f] [Hf Hi']. simpl in *. subst f. eapply fine_mono; [apply (IH (n + 2)); [|done]|set_solver|].
    + intros s' m sh2 Hs. apply Sv. set_solver.
    + intros r [Ef Hr]. split; [done|]. by replace (n + S (length ss + S (length ss + 0))) with (n + 2 + (length ss + (length ss + 0))) by lia.
Qed.

(** The state while a key other than the line break goes through the services. *)
Record keyed (k : DecodedKey) (n : nat) (sh : Shell W) : Prop := {
  keyed_good : good sh; keyed_quiet : Forall quiet (event_bus sh); keyed_sync : will_sync sh;
  keyed_weight : weights (event_bus sh) <= n; keyed_line : k = Unicode SPACE -> line (sh_line sh) <> []
}.

Lemma will_sync_told l evs (sh : Shell W) : will_sync sh -> told (sh_line sh) l evs -> will_sync (trigger evs (with_line l sh)).
Proof.
  intros S T. destruct S as [S|S]; [|right; apply Exists_app; by left].
  destruct T as [[E _]| | |z [E _]|E]; try (left; unfold synced in *; simpl; by rewrite E).
  - right. apply Exists_app. right. constructor. by left.
  - right. apply Exists_app. right. constructor. by right.
Qed.

Lemma keyed_step k n l evs (sh : Shell W) : keyed k n sh -> line_ok l -> follows (sh_line sh) l -> told (sh_line sh) l evs ->
  evs <> [Submit] -> (k = Unicode SPACE -> line l <> []) -> keyed k (n + 2) (trigger evs (with_line l sh)).
Proof.
  intros [G Q S Wt N] O F T NS NL. split; [by apply good_trigger, good_with_line| |by apply will_sync_told| |done].
  - simpl. apply Forall_app. split; [done|].
    destruct T; try done; (constructor; [|constructor]); [by left; left|by left; right|right; right; by eexists].
  - simpl. unfold weights in *. rewrite sum_list_with_app. destruct T; simpl; lia || done.
Qed.

Lemma keyed_more k n (sh : Shell W) : keyed k n sh -> keyed k (n + 2) sh.
Proof. intros [G Q S Wt N]. split; try done. lia. Qed.

Lemma command_line_key_quiet k l l' evs : command_line_key k l = Ret (l', evs) -> k <> Unicode NEWLINE -> evs <> [Submit].
Proof.
  intros E N ->. destruct k as [[]|c]; simpl in E;
    unfold move_cursor_left, move_cursor_right, remove_before_cursor, remove_at_cursor, add_at_cursor in E; repeat case_match; try discriminate E;
    try (by destruct N; f_equal; apply Z.eqb_eq); try (destruct (usub _ _); discriminate E).
  - destruct (usub _ _); [|discriminate E]. simpl in E. destruct (line_remove _ _); [|discriminate E]. simpl in E.
    destruct (usub _ _); discriminate E.
  - destruct (line_remove _ _); discriminate E.
  - destruct (line_insert _ _ _); discriminate E.
Qed.

Lemma key_service s k n (sh : Shell W) : s <> CommandLineService -> keyed k n sh ->
  fine [s] (fun r => r.2 = None /\ keyed k (n + 2) r.1) (on_event s (KeyPressed k) sh).
Proof.
  intros Ns Kd. pose proof Kd as [G Q Sy Wt Nl]. pose proof G as [L _ Hh Ha _ _].
  destruct s; try done; simpl; try (split; [done|by apply keyed_more]).
  - destruct (history_key_kept k (sh_line sh) (sh_history sh) L Hh) as (l & h & evs & E & O & F & Oh & T). rewrite E. simpl.
    split; [done|]. assert (K2 : keyed k (n + 2) (trigger evs (with_line l sh))).
    { destruct T as [[-> ->]| ->]; apply keyed_step; try done; [by constructor|constructor|].
      intros ->. simpl in E. by injection E. }
    destruct K2 as [G2 Q2 S2 W2 N2]. split; try done. by apply (good_with_history h) in G2.
  - destruct (good_tokens sh G) as (x & Ax & Ex).
    eapply fine_bind; [eapply may_fine; [by apply (completion_key_ok k x)|set_solver|intros r Hr; exact Hr]|].
    intros [[l st] evs] (O & F & Oa & Ne & T). split; [done|].
    assert (K2 : keyed k (n + 2) (trigger evs (with_line l sh))).
    { destruct T as [[-> ->]| ->]; apply keyed_step; try done; [by constructor|constructor|]. intros Ek. by apply Ne, Nl. }
    destruct K2 as [G2 Q2 S2 W2 N2]. split; try done. by apply (good_with_completion st) in G2.
Qed.

Lemma key_fine k (sh : Shell W) : settled sh -> key_ok k -> k <> Unicode NEWLINE ->
  fine (services cfg) (fun r => r.2 = None /\ good r.1 /\ Forall quiet (event_bus r.1) /\ will_sync r.1 /\
    weights (event_bus r.1) <= 14) (handle_event (services cfg) (KeyPressed k) sh).
Proof.
  intros (G & Sy & B) Ok Nk. pose proof G as [L _ _ _ _ _].
  destruct (command_line_key_kept k (sh_line sh) L Ok) as (l & evs & E & O & F & T).
  assert (NS : evs <> [Submit]) by (by eapply command_line_key_quiet).
  assert (NL : k = Unicode SPACE -> line l <> []).
  { intros ->. by apply (add_at_cursor_nonempty SPACE (sh_line sh) l evs). }
  assert (K1 : keyed k 2 (trigger evs (with_line l sh))).
  { destruct (keyed_step (RawKey OtherKey) 0 l evs sh) as [G1 Q1 S1 W1 _]; try done.
    split; try done; [by rewrite B|by left|by rewrite B]. }
  change (services cfg) with (CommandLineService :: (tail (services cfg))). cbn [handle_event on_event on_command_line]. rewrite E.
  cbn -[services]. eapply fine_mono.
  - eapply (handle_event_count _ _ (keyed k) 2); [|exact K1]. intros s n sh' Hs. apply key_service. intros ->.
    revert Hs. unfold services. destruct (no_history cfg), (no_auto_completion cfg); set_solver.
  - by right.
  - intros [sh' f] (Ef & [G2 Q2 S2 W2 _]). split; [done|]. split; [done|]. split; [done|]. split; [done|].
    etransitivity; [exact W2|]. unfold services. destruct (no_history cfg), (no_auto_completion cfg); simpl; lia.
Qed.

(** ** Executing a line *)

Lemma find_position_lt k es p : find_position k es = Some p -> p < length es.
Proof.
  revert p. induction es as [|e es IH]; intros p E; simpl in *; [done|]. destruct (bool_decide _); [injection E as <-; lia|].
  destruct (find_position k es); simpl in E; [|done]. injection E as <-. specialize (IH _ eq_refl). lia.
Qed.

Lemma alias_set_returns k v es : returns (alias_set k v es).
Proof.
  unfold alias_set. destruct (find_position k es) as [p|] eqn:E; [|destruct (_ <=? _); by eexists].
  apply find_position_lt in E. destruct (lookup_lt_is_Some_2 es p E) as [e Ee]. rewrite (arr_get_ok _ _ _ Ee). simpl.
  rewrite arr_set_ok by done. by eexists.
Qed.

Lemma execute_built_in_returns cmd args (c : Contexts (W := W)) : returns (execute_built_in cmd args c).
Proof.
  destruct c as [[al cwd] w]. unfold execute_built_in.
  repeat match goal with
    | |- returns (if ?b then _ else _) => destruct b
    | |- returns (match ?l with [] => _ | _ :: _ => _ end) => destruct l
    end; try (by eexists).
  - unfold set_alias. destruct (split_once _ _) as [k [v|]]; [|by eexists].
    destruct (alias_set_returns k (strip_quotes v) al) as [[al'|e] ->]; by eexists.
  - destruct (wd_cd _ _ _ _) as [[cs|e] w']; by eexists.
  - destruct (naming_mkdir _ _); by eexists.
  - destruct (alias_remove _ _); by eexists.
  - destruct (naming_list _ _); by eexists.
Qed.

Lemma execute_executable_returns e (c : Contexts (W := W)) : returns (execute_executable e c).
Proof.
  unfold execute_executable. destruct (execute_built_in_returns (command e) (arguments e) c) as [[[r|] [[al cwd] w]] ->]; [by eexists|].
  simpl. destruct (run_application _ _ _). by eexists.
Qed.

Lemma execute_all_returns es codes (c : Contexts (W := W)) : returns (execute_all es codes c).
Proof.
  revert codes c. induction es as [|e es IH]; intros codes c; simpl; [by eexists|]. destruct (should_stop_on_dependency e codes); [by eexists|].
  destruct (execute_executable_returns e c) as [[[n|] c'] ->]; simpl; [apply IH|by eexists].
Qed.

Lemma unsupported_lines_returns all es : linked all -> (forall e, e ∈ es -> e ∈ all) -> returns (unsupported_lines all es).
Proof.
  intros L. induction es as [|e es IH]; intros Sub; simpl; [by eexists|].
  destruct (list_elem_of_lookup_1 all e (Sub e ltac:(by left))) as [i Ei]. destruct (L i e Ei) as (_ & _ & In & Out).
  assert (Job : forall s j t, (forall n, t = Job n -> n < length all) -> returns (io_text s j all t)).
  { intros s j t Ht. destruct t as [|n|f|f]; simpl; try (by eexists).
    destruct (lookup_lt_is_Some_2 all n (Ht n eq_refl)) as [x Ex]. rewrite (arr_get_ok _ _ _ Ex). by eexists. }
  destruct (Job "StdIn" "previous command" (input e)) as [x ->].
  { intros n En. destruct (In n En) as [<- _]. apply lookup_lt_Some in Ei. lia. }
  destruct (Job "StdOut" "next command" (output e)) as [y ->]; [by intros n En; apply Out|]. simpl.
  destruct IH as [z ->]; [intros e' He; apply Sub; by right|]. by eexists.
Qed.

Lemma execute_ok es (c : Contexts (W := W)) : linked es ->
  exists c' f evs, execute es c = Ret (c', f, evs) /\
    ((f = None /\ evs = [PrepareNewLine]) \/ (exists e, f = Some (Failed e) /\ evs = []) \/ (f = Some Exited /\ evs = [])).
Proof.
  intros L. unfold execute. destruct (existsb unsupported es).
  - unfold handle_unsupported_error. destruct (unsupported_lines_returns es es L) as [x ->]; [done|]. simpl.
    eexists _, _, _. split; [reflexivity|]. right. left. by eexists.
  - destruct (execute_all_returns es [] c) as [[[codes []] c'] ->]; simpl; eexists _, _, _; (split; [reflexivity|]); auto.
Qed.

(** ** Submitting a line *)

(** The line is being executed; nothing is known of the contexts that the next prompt resets. *)
Definition closing (sh : Shell W) : Prop := history_ok (sh_history sh) /\ auto_ok (auto_state sh).

Record submitted (sh : Shell W) : Prop := {
  sub_closing : closing sh; sub_line : line_ok (sh_line sh); sub_lexed : lexed (tokens (sh_tokens sh));
  sub_executables : sh_executables sh = []; sub_bus : event_bus sh = []
}.

Lemma retokenize_ok alias st : line_ok st.1 ->
  exists l t, retokenize_with_alias alias st = Ret (l, t) /\ line_ok l /\ lexed (tokens t).
Proof.
  intros (A & C & D). unfold retokenize_with_alias. set (s := concat _). clearbody s.
  destruct (add_all_spec s (st.1, tokens_new) lexed_nil) as ([l t] & -> & L & _ & (K1 & K2 & K3)). exists l, t. split; [done|].
  simpl in *. split; [|done]. split; [by rewrite K1|]. rewrite K1, K2. split; [done|lia].
Qed.

Lemma submit_service s (sh : Shell W) : s <> ParserService -> s <> ExecutorService -> submitted sh ->
  fine [s] (fun r => r.2 = None /\ submitted r.1) (on_event s Submit sh).
Proof.
  intros N1 N2 Sub. pose proof Sub as [[Ch Ca] L Lx Ex B]. destruct s; try done; simpl.
  - split; [done|]. split; try done. split; [|done]. by apply history_add_ok.
  - destruct (retokenize_ok (fun k => alias_get k (sh_alias sh)) (lex_state sh) L) as (l & t & -> & O & Lt). done.
  - split; [done|]. split; try done. split; [done|]. apply clear_ok, Ca.
Qed.

Definition before_parser : list Service :=
  before_lexer ++ [LexerService] ++ (if no_auto_completion cfg then [] else [AutoCompletionService]) ++ [WriterService].

Lemma services_parser : services cfg = before_parser ++ [ParserService; ExecutorService].
Proof. unfold services, before_parser, before_lexer. by destruct (no_history cfg), (no_auto_completion cfg). Qed.

(** What a submitted line leads to. *)
Inductive outcome_of_line : Shell W * option Flow -> Prop :=
| line_done sh : closing sh -> event_bus sh = [PrepareNewLine] -> outcome_of_line (sh, None)
| line_failed sh e : closing sh -> outcome_of_line (sh, Some (Failed e))
| line_exit sh : outcome_of_line (sh, Some Exited).

Lemma complete_dec ts : is_complete ts \/ ~ is_complete ts.
Proof. unfold is_complete. destruct (last ts) as [l|]; [|by left]. destruct (status l); [by left|by right..]. Qed.

Lemma parse_execute_ok (sh : Shell W) ss : submitted sh ->
  fine ss outcome_of_line (handle_event [ParserService; ExecutorService] Submit sh).
Proof.
  intros [Cl L Lx Ex B]. simpl. rewrite Ex. destruct (complete_dec (tokens (sh_tokens sh))) as [V|V].
  - pose proof (parse_complete (sh_cwd sh) _ Lx V) as E. pose proof (parse_linked _ _ _ Lx V E) as Lk. rewrite E. simpl.
    set (es := executables_of _ _ _ _ _) in *. clearbody es.
    destruct (execute_ok es (contexts_of (with_executables es sh)) Lk) as (c & f & evs & -> & R). simpl.
    destruct R as [[-> ->]|[[e [-> ->]]|[-> ->]]]; simpl; [|by apply line_failed|by apply line_exit].
    apply line_done; [done|]. simpl. by rewrite B.
  - destruct (parse_incomplete (sh_cwd sh) _ [] V) as [e ->]. simpl. by apply line_failed.
Qed.

Lemma submit_fine (sh : Shell W) : good sh -> synced sh -> event_bus sh = [] ->
  fine (services cfg) outcome_of_line (handle_event (services cfg) Submit sh).
Proof.
  intros G Sy B. pose proof G as [L _ Hh Ha Ex _]. rewrite services_parser, handle_event_app. eapply fine_bind.
  - eapply fine_mono; [eapply (handle_event_fine before_parser Submit submitted sh)|set_solver|intros r Hr; exact Hr].
    + intros s sh' Hs. apply submit_service; intros ->; revert Hs; unfold before_parser, before_lexer;
        destruct (no_history cfg), (no_auto_completion cfg); set_solver.
    + split; try done. rewrite Sy. apply lex_lexed.
  - intros [sh' f] [Ef Sub]. simpl in Ef. subst f. by apply parse_execute_ok.
Qed.

(** ** The next prompt *)

Lemma failed_fine e (sh : Shell W) : closing sh -> event_bus sh = [] ->
  fine (services cfg) (fun r => r.2 = None /\ closing r.1 /\ event_bus r.1 = [PrepareNewLine])
    (handle_event (services cfg) (ProcessFailed e) sh).
Proof.
  intros Cl B. unfold services. destruct (no_history cfg), (no_auto_completion cfg); simpl; rewrite B; done.
Qed.

Lemma prepare_fine (sh : Shell W) : closing sh -> event_bus sh = [] ->
  fine (services cfg) (fun r => r.2 = None /\ settled r.1) (handle_event (services cfg) PrepareNewLine sh).
Proof.
  intros [Ch Ca] B.
  assert (S : forall sh' : Shell W, sh_line sh' = line_new -> sh_tokens sh' = tokens_new -> sh_executables sh' = [] ->
    sh_written sh' = write_prompt (sh_cwd sh') (0, []) -> history_ok (sh_history sh') -> auto_ok (auto_state sh') -> event_bus sh' = [] -> settled sh').
  { intros sh' L T X Wr Hh Ha Bs. split; [|split; [unfold synced; by rewrite T, L|done]].
    split; try done; unfold lex_state; rewrite ?L, ?T; [apply line_new_ok|by apply in_step_lexed; [constructor|..]|].
    intros P. rewrite Wr. split; [|exists []].
    - unfold tracked, row. simpl. by rewrite str_len_ascii.
    - split; [unfold row; simpl; by rewrite (pad_le 0 [] (le_n 0)), drop_nil|]. split; [simpl; lia|]. split; [simpl; lia|done]. }
  unfold services. destruct (no_history cfg), (no_auto_completion cfg); simpl; (split; [done|]); apply S; try done; apply reset_ok, Ca.
Qed.

(** ** What is written *)

(** The row shows the prompt, the line and the suggestion if it is fresh; the cursor is where the
    line has it, or behind the suggestion that has the focus. *)
Definition displays (fresh : bool) (sh : Shell W) : Prop :=
  ascii (prompt (sh_cwd sh)) ->
  cells (row (sh_written sh)) = prompt (sh_cwd sh) ++ line (sh_line sh) ++ (if fresh then suggestion (sh_suggestion sh) else []) /\
  column (row (sh_written sh)) = length (prompt (sh_cwd sh)) +
    (if has_focus (sh_suggestion sh) then length (line (sh_line sh)) + length (suggestion (sh_suggestion sh))
     else cursor_position (sh_line sh)).

Lemma write_at_dirty_returns cwd l t sg w : lexed (tokens t) -> token_ascii (tokens t) ->
  exists w', write_at_dirty cwd l t sg w = Ret (mark_clean l, {| tokens := tokens t; is_status_dirty := false |},
    {| suggestion := suggestion sg; is_dirty := false; has_focus := has_focus sg |}, w').
Proof.
  intros H1 H2. unfold write_at_dirty. destruct (dirty_tokens_returns l t (emit [ClearRight] (cursor_to_dirty_line cwd l (dirty_status_prompt cwd t w))) H1 H2) as [w' ->].
  simpl. by eexists.
Qed.

Lemma completed_writer (sh : Shell W) : settled sh ->
  exists sh', on_writer ProcessCompleted sh = Ret (sh', None) /\ settled sh' /\ displays (is_dirty (sh_suggestion sh)) sh'.
Proof.
  intros (G & Sy & B). pose proof G as [(A & C & D) _ Hh [Hc Hs] Ex Sh]. simpl.
  destruct (write_at_dirty_returns (sh_cwd sh) (sh_line sh) (sh_tokens sh) (sh_suggestion sh) (sh_written sh)) as [w E];
    [rewrite Sy; apply lex_lexed|rewrite Sy; by apply contents_lexed_ascii|]. rewrite E. simpl. eexists. split; [reflexivity|].
  assert (Dp : ascii (prompt (sh_cwd sh)) -> tracked w /\
    cells (row w) = prompt (sh_cwd sh) ++ line (sh_line sh) ++ (if is_dirty (sh_suggestion sh) then suggestion (sh_suggestion sh) else []) /\
    w.1 = length (prompt (sh_cwd sh)) + (if has_focus (sh_suggestion sh)
      then length (line (sh_line sh)) + length (suggestion (sh_suggestion sh)) else cursor_position (sh_line sh))).
  { intros P. destruct (write_at_dirty_spec (sh_cwd sh) (sh_line sh) (sh_tokens sh) (sh_suggestion sh) (sh_written sh) P A Hs Sy (Sh P))
      as (l' & t' & sg' & w' & E' & R). rewrite E in E'. by injection E' as <- <- <- <-. }
  assert (Dl : str_len (line (sh_line sh)) = length (line (sh_line sh))) by (by apply str_len_ascii).
  split; [split; [|done]|].
  - split; try done; simpl.
    + split; [done|]. simpl. rewrite Dl. lia.
    + apply in_step_lexed; [done|done|]. simpl. lia.
    + intros P. destruct (Dp P) as (T & Cs & _). split; [done|]. eexists. split; [exact Cs|]. simpl. rewrite Dl.
      split; [rewrite length_app; lia|]. split; [done|]. by rewrite take_app_length, firstn_all.
  - intros P. destruct (Dp P) as (T & Cs & N). split; [exact Cs|]. simpl. by rewrite T, N.
Qed.

Lemma completed_fine (sh : Shell W) : settled sh ->
  fine (services cfg) (fun r => r.2 = None /\ settled r.1 /\ displays (is_dirty (sh_suggestion sh)) r.1)
    (handle_event (services cfg) ProcessCompleted sh).
Proof.
  intros S. destruct (completed_writer sh S) as (sh' & E & S' & D).
  unfold services. destruct (no_history cfg), (no_auto_completion cfg); cbn -[on_writer]; rewrite E; done.
Qed.

(** ** The run *)

(** Enough for the events of one key: at most fourteen. *)
Definition EVENT_FUEL : nat := 14.

(** The state is settled, or the shell has ended. *)
Definition rests (P : Shell W -> Prop) (r : option Settled) : Prop :=
  match r with
  | Some (Running sh) => P sh
  | Some (Ended _) => True
  | None => False
  end.

(** Nothing is left, the line is open, it was submitted, or the prompt is next. *)
Inductive waiting (sh : Shell W) : Prop :=
| waits_line : good sh -> Forall quiet (event_bus sh) -> will_sync sh -> waiting sh
| waits_submit : good sh -> synced sh -> event_bus sh = [Submit] -> waiting sh
| waits_prompt : closing sh -> event_bus sh = [PrepareNewLine] -> waiting sh.

Lemma prompt_settles fuel (sh : Shell W) : closing sh -> event_bus sh = [PrepareNewLine] -> 1 <= fuel ->
  fine (services cfg) (rests settled) (process_events fuel (services cfg) sh).
Proof.
  intros C B F. rewrite process_events_unfold, B. destruct fuel as [|fuel]; [lia|].
  eapply fine_bind; [apply (prepare_fine (with_events [] sh)); done|]. intros [sh' f] [Ef S]. simpl in *. subst f.
  pose proof S as (_ & _ & B'). rewrite process_events_unfold, B'. exact S.
Qed.

Lemma waiting_settles fuel (sh : Shell W) : waiting sh -> weights (event_bus sh) <= fuel ->
  fine (services cfg) (rests settled) (process_events fuel (services cfg) sh).
Proof.
  intros [G Q S|G Sy B|C B] Wt.
  - eapply fine_mono; [by apply quiet_settles|done|]. by intros r (sh' & -> & S').
  - rewrite B in Wt. unfold weights in Wt. simpl in Wt. rewrite process_events_unfold, B. destruct fuel as [|fuel]; [lia|].
    eapply fine_bind; [apply (submit_fine (with_events [] sh)); [by apply good_with_events|done|done]|].
    intros r R. destruct R as [sh' C' B'|sh' e C'|sh']; [by apply prompt_settles; [..|lia]| |done].
    rewrite process_events_unfold. simpl. destruct fuel as [|fuel]; [lia|].
    eapply fine_bind; [apply (failed_fine e (with_events [] (with_events [ProcessFailed e] sh'))); done|].
    intros [sh2 f] (Ef & C2 & B2). simpl in *. subst f. apply prompt_settles; [done|done|lia].
  - rewrite B in Wt. apply prompt_settles; [done|done|]. unfold weights in Wt. simpl in Wt. lia.
Qed.

(** The line break reaches the other services without effect. *)
Lemma newline_service s (sh : Shell W) : s <> CommandLineService -> good sh /\ synced sh /\ event_bus sh = [Submit] ->
  fine [s] (fun r => r.2 = None /\ good r.1 /\ synced r.1 /\ event_bus r.1 = [Submit]) (on_event s (KeyPressed (Unicode NEWLINE)) sh).
Proof.
  intros N (G & Sy & B). destruct s; try done; simpl.
  - split; [done|]. split; [|split; [done|simpl; by rewrite B]].
    apply good_trigger, good_with_history; [|apply G]. by apply good_with_line; [|apply G|].
  - assert (E : completion_key (Unicode NEWLINE) (sh_line sh) (sh_tokens sh) (auto_state sh) = Ret (sh_line sh, auto_state sh, [])).
    { unfold completion_key. by destruct (negb _). }
    rewrite E. simpl. split; [done|]. split; [|split; [done|simpl; by rewrite B]].
    apply good_trigger, good_with_completion; [|apply G]. by apply good_with_line; [|apply G|].
Qed.

Lemma newline_fine (sh : Shell W) : settled sh ->
  fine (services cfg) (fun r => r.2 = None /\ good r.1 /\ synced r.1 /\ event_bus r.1 = [Submit])
    (handle_event (services cfg) (KeyPressed (Unicode NEWLINE)) sh).
Proof.
  intros (G & Sy & B). change (services cfg) with (CommandLineService :: (tail (services cfg))). cbn -[services tail].
  eapply fine_mono; [eapply (handle_event_fine _ _ (fun sh => good sh /\ synced sh /\ event_bus sh = [Submit]))|by right|done].
  - intros s sh' Hs. apply newline_service. intros ->.
    revert Hs. unfold services. destruct (no_history cfg), (no_auto_completion cfg); set_solver.
  - split; [|split; [done|simpl; by rewrite B]]. apply good_trigger. by apply good_with_line; [|apply G|].
Qed.

(** What the next round finds. *)
Definition round_ready (sh : Shell W) : Prop := waiting sh /\ weights (event_bus sh) <= EVENT_FUEL.

Lemma key_ready k (sh : Shell W) : settled sh -> key_ok k ->
  fine (services cfg) (fun r => exists sh', r = Running sh' /\ round_ready sh') (handle_unwrap (services cfg) (KeyPressed k) sh).
Proof.
  intros S O. unfold handle_unwrap. assert (D : k = Unicode NEWLINE \/ k <> Unicode NEWLINE).
  { destruct k as [|c]; [by right|]. destruct (Z.eq_dec c NEWLINE) as [->|]; [by left|right; congruence]. }
  destruct D as [->|D].
  - eapply fine_bind; [by apply newline_fine|]. intros [sh' f] (Ef & G & Sy & B). simpl in *. subst f.
    exists sh'. split; [done|]. split; [by apply waits_submit|]. rewrite B. unfold weights, EVENT_FUEL. simpl. lia.
  - eapply fine_bind; [by apply key_fine|]. intros [sh' f] (Ef & G & Q & Sy & Wt). simpl in *. subst f.
    exists sh'. split; [done|]. split; [by apply waits_line|done].
Qed.

(** What is left when every key is handled. *)
Definition at_rest (sh : Shell W) : Prop := settled sh /\ exists fresh, displays fresh sh.

Lemma round_completes (sh : Shell W) : round_ready sh ->
  fine (services cfg) (rests at_rest) (round EVENT_FUEL (services cfg) None sh).
Proof.
  intros [Wa Wt]. unfold round. eapply fine_bind; [by apply waiting_settles|]. intros [[sh1|sh1]|] R; try done. simpl in R.
  eapply fine_bind with (P := fun r => rests at_rest (Some r)).
  - unfold handle_unwrap. eapply fine_bind; [by apply completed_fine|]. intros [sh2 f] (Ef & S2 & D2). simpl in *. subst f.
    split; [done|]. by eexists.
  - by intros [sh2|sh2] R2.
Qed.

Lemma round_key k (sh : Shell W) : round_ready sh -> key_ok k ->
  fine (services cfg) (rests round_ready) (round EVENT_FUEL (services cfg) (Some k) sh).
Proof.
  intros [Wa Wt] O. unfold round. eapply fine_bind; [by apply waiting_settles|]. intros [[sh1|sh1]|] R; try done. simpl in R.
  eapply fine_bind with (P := fun r => exists sh', r = Running sh' /\ settled sh').
  - unfold handle_unwrap. eapply fine_bind; [by apply completed_fine|]. intros [sh2 f] (Ef & S2 & _). simpl in *. subst f. by eexists.
  - intros r (sh2 & -> & S2). eapply fine_bind; [by apply key_ready|]. intros r (sh3 & -> & R3). exact R3.
Qed.

Lemma rounds_complete keys (sh : Shell W) : round_ready sh -> Forall key_ok keys ->
  fine (services cfg) (rests at_rest) (rounds EVENT_FUEL (services cfg) keys sh).
Proof.
  revert sh. induction keys as [|k keys IH]; intros sh R O; simpl; [by apply round_completes|].
  apply Forall_cons in O as [Ok O]. eapply fine_bind; [by apply round_key|]. intros [[sh1|sh1]|] R1; try done. by apply IH.
Qed.

Lemma alias_new_returns : returns alias_new.
Proof. by vm_compute; eexists. Qed.

Lemma run_fine apps keys (w : W) : Forall app_ok apps -> Forall key_ok keys ->
  fine (services cfg) (rests at_rest) (run EVENT_FUEL cfg apps keys w).
Proof.
  intros A O. unfold run, shell_new. destruct alias_new_returns as [al ->]. simpl. apply rounds_complete; [|done].
  split; [apply waits_prompt; [|done]|unfold EVENT_FUEL; simpl; lia]. split; [split; [constructor|simpl; unfold MAX_HISTORY_LEN; lia]|].
  split; [|constructor]. by split.
Qed.
End run.
