(* ===== verification/ShellMain.v ===== *)
(** * Properties of the shell

    The theorems on whole runs of the shell, for any keys and any behaviour of the system calls. *)

From S2P Require Import Prelude ShellText ShellToken ShellLexer ShellLexProofs ShellParser ShellParseProofs.
From S2P Require Import ShellServices ShellScreen ShellSafe Shell ShellRun.

Open Scope nat_scope.

(** ** A system for examples *)

(** Every call succeeds; the applications that are run are recorded. *)
Definition Log : Type := list (str * list str).
#[export] Instance log_kernel : Kernel Log := {|
  naming_cd p w := (true, w); naming_mkdir p w := (true, w); naming_list p w := (true, w);
  run_application c args w := (true, w ++ [(c, args)]) |}.

Definition typed (s : string) : list DecodedKey := Unicode <$> lit s.
Definition all_services : Config := {| no_history := false; no_auto_completion := false |}.
Definition no_completion : Config := {| no_history := false; no_auto_completion := true |}.

Lemma registry_ok : Forall app_ok APPLICATION_REGISTRY.
Proof.
  assert (B : forallb (fun x => forallb (fun c => (0 <=? c)%Z && (c <? 128)%Z)
    (namespace x ++ concat (single_value x) ++ concat ((fun kv => kv.1 ++ concat kv.2) <$> key_value_pair x))) APPLICATION_REGISTRY = true)
    by (vm_compute; reflexivity).
  rewrite forallb_forall in B. apply Forall_forall. intros x Hx. specialize (B x (proj1 (list_elem_of_In _ _) Hx)).
  assert (A : ascii (namespace x ++ concat (single_value x) ++ concat ((fun kv => kv.1 ++ concat kv.2) <$> key_value_pair x))).
  { apply Forall_forall. intros c Hc. rewrite forallb_forall in B. specialize (B c (proj1 (list_elem_of_In _ _) Hc)). lia. }
  assert (Cat : forall ss : list str, ascii (concat ss) -> Forall ascii ss).
  { induction ss as [|s ss IH]; intros As; [constructor|]. simpl in As. apply ascii_app in As as [A1 A2]. constructor; auto. }
  apply ascii_app in A as [A1 A]. apply ascii_app in A as [A2 A3]. split; [done|]. split; [by apply Cat|].
  apply Cat in A3. rewrite Forall_fmap in A3. eapply Forall_impl; [exact A3|]. intros [k vs] As. simpl in *.
  apply ascii_app in As as [As1 As2]. split; [done|by apply Cat].
Qed.

Lemma typed_ok s : ascii (lit s) -> Forall key_ok (typed s).
Proof. intros A. unfold typed. by apply Forall_fmap. Qed.

Lemma lit_ascii s : forallb (fun c => (c <? 128)%Z) (lit s) = true -> ascii (lit s).
Proof.
  intros B. apply Forall_forall. intros c Hc. rewrite forallb_forall in B. specialize (B c (proj1 (list_elem_of_In _ _) Hc)).
  unfold lit in Hc. apply list_elem_of_fmap in Hc as (a & -> & _). lia.
Qed.

Lemma fine_run {W} `{Kernel W} cfg apps keys (w : W) : Forall app_ok apps -> Forall key_ok keys ->
  match run EVENT_FUEL cfg apps keys w with
  | Ret (Some (Running sh)) => at_rest sh
  | Ret (Some (Ended _)) => True
  | Ret None => False
  | Panic m => m = key_index_panic /\ no_auto_completion cfg = false
  end.
Proof.
  intros A K. pose proof (run_fine cfg apps keys w A K) as F. destruct (run EVENT_FUEL cfg apps keys w) as [r|m]; [exact F|].
  destruct F as [E I]. split; [done|]. by apply auto_on.
Qed.

(** ** Runs *)



(** C35 The tokens that the lexer keeps up to date key by key, removing back to the first changed
    position and adding from there, are at every rest those of the whole line lexed from its
    beginning, and their contents make up the line. *)
Theorem tokens_follow_keys (W : Type) (K : Kernel W) cfg apps keys (w : W) sh :
  Forall app_ok apps -> Forall key_ok keys -> run EVENT_FUEL cfg apps keys w = Ret (Some (Running sh)) ->
  tokens (sh_tokens sh) = lex (line (sh_line sh)) /\ contents (tokens (sh_tokens sh)) = line (sh_line sh).
Proof.
  intros A Ks E. pose proof (fine_run cfg apps keys w A Ks) as F. rewrite E in F. destruct F as [(_ & Sy & _) _].
  rewrite Sy. split; [done|apply lex_contents].
Qed.

Definition edit_keys : list DecodedKey :=
  typed "ls && a" ++ [RawKey ArrowLeft; RawKey ArrowLeft; Unicode BACKSPACE; Unicode BACKSPACE] ++ typed "|".

Lemma edit_keys_ok : Forall key_ok edit_keys.
Proof.
  unfold edit_keys. apply Forall_app. split; [apply typed_ok, lit_ascii; reflexivity|]. apply Forall_app. split.
  - repeat (constructor; [by simpl; unfold BACKSPACE|]). constructor.
  - apply typed_ok, lit_ascii. reflexivity.
Qed.

Lemma tokens_follow_keys_witness :
  exists sh, run (W := Log) EVENT_FUEL all_services APPLICATION_REGISTRY edit_keys [] = Ret (Some (Running sh)) /\
    line (sh_line sh) = lit "ls | a" /\ tokens (sh_tokens sh) = lex (line (sh_line sh)) /\
    contents (tokens (sh_tokens sh)) = line (sh_line sh).
Proof.
  eexists. split; [vm_compute; reflexivity|]. split; [reflexivity|].
  apply (tokens_follow_keys Log log_kernel all_services APPLICATION_REGISTRY edit_keys []);
    [exact registry_ok|exact edit_keys_ok|vm_compute; reflexivity].
Defined.

(** At every rest the row of the terminal, as the actions of the writer leave it, holds the
    prompt, the whole line and either the suggestion or nothing, although only what changed was
    written; the cursor is at the line's cursor, or behind the suggestion that has the focus. *)
Theorem screen_shows_line (W : Type) (K : Kernel W) cfg apps keys (w : W) sh :
  Forall app_ok apps -> Forall key_ok keys -> run EVENT_FUEL cfg apps keys w = Ret (Some (Running sh)) ->
  ascii (prompt (sh_cwd sh)) ->
  exists fresh : bool,
    cells (row (sh_written sh)) = prompt (sh_cwd sh) ++ line (sh_line sh) ++ (if fresh then suggestion (sh_suggestion sh) else []) /\
    column (row (sh_written sh)) = length (prompt (sh_cwd sh)) +
      (if has_focus (sh_suggestion sh) then length (line (sh_line sh)) + length (suggestion (sh_suggestion sh))
       else cursor_position (sh_line sh)).
Proof.
  intros A Ks E P. pose proof (fine_run cfg apps keys w A Ks) as F. rewrite E in F. destruct F as [_ [fresh D]].
  exists fresh. by apply D.
Qed.

(** ** Lines *)

(** C37 Parsing the tokens of a line never panics.  A line without error that misses nothing gives
    exactly the executables of its segments: command, arguments, redirections, background and what
    is required of the segment before, with each link inside the line.  Any other line is refused
    and leaves no executable. *)
Theorem parse_segments cwd s :
  match parse cwd (lex s) [] with
  | Ret (es, None) =>
      is_complete (lex s) /\ linked es /\
      es = executables_of cwd (in_background (read_line (lex s))) 0 (segments (read_line (lex s))) LNone
  | Ret (es, Some _) => ~ is_complete (lex s) /\ es = []
  | Panic _ => False
  end.
Proof.
  destruct (complete_dec (lex s)) as [V|V].
  - pose proof (parse_complete cwd (lex s) (lex_lexed s) V) as E. pose proof (parse_linked cwd _ _ (lex_lexed s) V E) as L.
    rewrite E. done.
  - destruct (parse_incomplete cwd (lex s) [] V) as [e ->]. done.
Qed.

(** Running segments one after the other: a segment that requires a result runs only if the
    segment before it had that result, and the first that does not run ends the line. *)
Section chain.
Context {W : Type} `{Kernel W}.

Definition blocked (e : Executable) (prev : nat) : bool :=
  match requires_executable e with
  | Some (_, Success) => negb (prev =? 0)
  | Some (_, JobError) => prev =? 0
  | None => false
  end.

Fixpoint chain (es : list Executable) (prev : nat) (c : Contexts (W := W)) : outcome (bool * Contexts (W := W)) :=
  match es with
  | [] => Ret (false, c)
  | e :: es' =>
      if blocked e prev then Ret (false, c)
      else
        '(r, c) ← execute_executable e c;
        match r with
        | Code n => chain es' n c
        | Exit => Ret (true, c)
        end
  end.

(** The exit code that is looked up is the one before. *)
Lemma blocked_spec (all : list Executable) codes prev e : linked all -> all !! length codes = Some e -> last codes = prev ->
  should_stop_on_dependency e codes = blocked e (default 0 prev).
Proof.
  intros L E Hp. destruct (L _ _ E) as (_ & R & _). unfold should_stop_on_dependency, blocked.
  destruct (requires_executable e) as [[j r]|]; [|done]. specialize (R j r eq_refl).
  assert (Ej : codes !! j = prev) by (rewrite <-Hp, last_lookup; f_equal; lia). rewrite Ej.
  destruct prev as [n|]; [by destruct r, n|]. apply last_None in Hp as ->. simpl in R. lia.
Qed.

Lemma execute_all_chain all es codes (c : Contexts (W := W)) : linked all -> all = take (length codes) all ++ es -> length codes <= length all ->
  ('(_, ended, c) ← execute_all es codes c; Ret (ended, c)) = chain es (default 0 (last codes)) c.
Proof.
  intros L. revert codes c. induction es as [|e es IH]; intros codes c E Le; [done|]. simpl.
  assert (Ee : all !! length codes = Some e).
  { rewrite E, lookup_app_r by (rewrite length_take; lia). rewrite length_take, Nat.min_l, Nat.sub_diag by lia. done. }
  rewrite (blocked_spec all codes (last codes) e L Ee eq_refl). destruct (blocked _ _); [done|].
  destruct (execute_executable e c) as [[[n|] c']|m]; simpl; try done. rewrite IH.
  - by rewrite last_snoc.
  - rewrite length_app. simpl. rewrite Nat.add_1_r, (take_S_r _ _ _ Ee), <-app_assoc. exact E.
  - rewrite length_app. simpl. apply lookup_lt_Some in Ee. lia.
Qed.
End chain.

(** Executing the executables of a parsed line, where none asks for what is not supported, runs
    its segments as a chain: each one exactly if the segment before it had the result it requires,
    up to the first that does not run, and then asks for the next prompt. *)
Theorem execute_chains_segments (W : Type) (K : Kernel W) cwd s es (c : Contexts (W := W)) :
  parse cwd (lex s) [] = Ret (es, None) -> existsb unsupported es = false ->
  execute es c = ('(ended, c) ← chain (W := W) es 0 c;
                  Ret (c, (if ended : bool then Some Exited else None), (if ended then [] else [PrepareNewLine]))).
Proof.
  intros P U. assert (L : linked es).
  { destruct (complete_dec (lex s)) as [V|V]; [by eapply parse_linked; [apply lex_lexed|..]|].
    destruct (parse_incomplete cwd (lex s) [] V) as [e E]. congruence. }
  unfold execute. rewrite U. pose proof (execute_all_chain es es [] c L eq_refl (Nat.le_0_l _)) as E.
  simpl in E. rewrite <-E. destruct (execute_all es [] c) as [[[codes []] c']|m]; done.
Qed.

Lemma execute_chains_segments_witness :
  exists es, parse [] (lex (lit "debug_error || date x && uptime")) [] = Ret (es, None) /\
    execute es ([], [], [] : Log) = ('(ended, c) ← chain es 0 ([], [], [] : Log);
      Ret (c, (if ended : bool then Some Exited else None), (if ended then [] else [PrepareNewLine]))).
Proof.
  eexists. split; [vm_compute; reflexivity|].
  apply (execute_chains_segments Log log_kernel [] (lit "debug_error || date x && uptime")); vm_compute; reflexivity.
Defined.

(** ** What goes wrong *)

(** Two ways for keys to end the shell in a panic.  An argument with values is left behind when
    the command before it is changed to one without such arguments; the next Tab uses its index.
    A character outside ASCII moves the cursor by one of its two bytes, and the next key inserts
    in the middle of it. *)
Theorem keys_panic :
  run (W := Log) EVENT_FUEL all_services APPLICATION_REGISTRY
    (typed "test -f" ++ [RawKey Home] ++ replicate 4 (Unicode DELETE) ++ typed "cd" ++ [RawKey End; Unicode TAB]) []
    = Panic key_index_panic /\
  run (W := Log) EVENT_FUEL no_completion APPLICATION_REGISTRY [Unicode 228%Z; Unicode 97%Z] []
    = Panic "assertion failed: self.is_char_boundary(idx)".
Proof. split; vm_compute; reflexivity. Qed.

Definition aliases_after (keys : list DecodedKey) : option (list AliasEntry) :=
  match run (W := Log) EVENT_FUEL all_services APPLICATION_REGISTRY keys [] with
  | Ret (Some (Running sh)) => Some (sh_alias sh)
  | _ => None
  end.

Definition started_after (keys : list DecodedKey) : option Log :=
  match run (W := Log) EVENT_FUEL all_services APPLICATION_REGISTRY keys [] with
  | Ret (Some (Running sh)) => Some (sh_world sh)
  | _ => None
  end.

(** Examples of the help that do something else: the alias for a quoted text begins with a blank,
    an alias cannot be removed by its name because the name is replaced by its text first, and a
    segment that is not run also cancels the commands after a separator. *)
Theorem help_examples_differ :
  (al ← aliases_after (typed "alias k='a b'" ++ [Unicode NEWLINE]); alias_get (lit "k") al) = Some (lit " a b") /\
  (al ← aliases_after (typed "unalias hhu" ++ [Unicode NEWLINE]); alias_get (lit "hhu") al) = Some (lit "Heinrich Heine Universitaet") /\
  started_after (typed "debug_error && date ; uptime" ++ [Unicode NEWLINE]) = Some [].
Proof. split; [|split]; vm_compute; reflexivity. Qed.
