(* ===== verification/Terminal.v ===== *)
(** * The terminal ([os/application/terminal_emulator/src/terminal/lfb_terminal.rs],
      [display.rs], [worker/cursor.rs])

    The terminal keeps the characters it shows in a buffer, row by row, and a cursor.  The escape
    sequences are parsed by the [anstyle_parse] crate, which calls [print] for a printable
    character, [execute] for a control character and [csi_dispatch] for a control sequence, with
    one parameter 0 for a sequence without parameters.  Columns, rows and sizes are [u16].
    Pixels and the colours of cells are left out; the colour sequences, which change the colour
    state only, are in [TermColor].  [glyph_width] is the width in pixels of a character of the
    font, 0 for one that the font does not have. *)

From S2P Require Import Prelude ShellText.

Open Scope Z_scope.

Definition U16_MAX : Z := 65535.
Definition add16 (a b : Z) : outcome Z := if a + b <=? U16_MAX then Ret (a + b) else Panic "attempt to add with overflow".
Definition sub16 (a b : Z) : outcome Z := if b <=? a then Ret (a - b) else Panic "attempt to subtract with overflow".
Definition mul16 (a b : Z) : outcome Z := if a * b <=? U16_MAX then Ret (a * b) else Panic "attempt to multiply with overflow".

(** The display and the cursor; a cell holds the [value] of its [Character]. *)
(* [os/application/terminal_emulator/src/terminal/lfb_terminal.rs:31-36] LFBTerminal *)
Record LFBTerminal := { size : Z * Z; char_buffer : list char; cpos : Z * Z; saved_pos : Z * Z }.

Definition set_buffer (b : list char) (t : LFBTerminal) : LFBTerminal :=
  {| size := size t; char_buffer := b; cpos := cpos t; saved_pos := saved_pos t |}.
Definition set_pos (p : Z * Z) (t : LFBTerminal) : LFBTerminal :=
  {| size := size t; char_buffer := char_buffer t; cpos := p; saved_pos := saved_pos t |}.

(** The index of a position in the buffer, in [u16]. *)
Definition index_of (t : LFBTerminal) (p : Z * Z) : outcome Z :=
  r ← mul16 p.2 (size t).1;
  add16 r p.1.

(** Cells from [i] on, [n] of them, get a value. *)
Definition fill (i n : Z) (c : char) (b : list char) : list char :=
  imap (fun k x => if (i <=? Z.of_nat k) && (Z.of_nat k <? i + n) then c else x) b.

Definition set_cell (i : Z) (c : char) (t : LFBTerminal) : outcome LFBTerminal :=
  b ← arr_set (char_buffer t) (Z.to_nat i) c;
  Ret (set_buffer b t).

(** The rows move up by one; the last row and what is behind it is cleared. *)
(* [os/application/terminal_emulator/src/terminal/lfb_terminal.rs:254-283] LFBTerminal::scroll_up *)
Definition scroll_up (t : LFBTerminal) : outcome LFBTerminal :=
  let w := (size t).1 in
  h ← sub16 (size t).2 1;
  let kept := Z.to_nat (w * h) in
  Ret (set_buffer (take kept (drop (Z.to_nat w) (char_buffer t)) ++ replicate (length (char_buffer t) - kept) 0) t).

Fixpoint scroll_times (n : nat) (t : LFBTerminal) : outcome LFBTerminal :=
  match n with
  | O => Ret t
  | S n => t ← scroll_up t; scroll_times n t
  end.

(** Row 0 belongs to the status bar. *)
(* [os/application/terminal_emulator/src/terminal/lfb_terminal.rs:285-296] LFBTerminal::position *)
Definition position (p : Z * Z) (t : LFBTerminal) : outcome LFBTerminal :=
  let p := if p.2 =? 0 then (p.1, 1) else p in
  let h := (size t).2 in
  if p.2 <? h then Ret (set_pos p t)
  else
    last ← sub16 h 1;
    t ← scroll_times (Z.to_nat (p.2 - last)) t;
    Ret (set_pos (p.1, last) t).

(* [os/application/terminal_emulator/src/terminal/lfb_terminal.rs:483-514] LFBTerminal::clear_line_from_cursor *)
Definition clear_line_from_cursor (t : LFBTerminal) : outcome LFBTerminal :=
  n ← sub16 (size t).1 (cpos t).1;
  i ← index_of t (cpos t);
  Ret (set_buffer (fill i n 0 (char_buffer t)) t).

(* [os/application/terminal_emulator/src/terminal/lfb_terminal.rs:450-481] LFBTerminal::clear_line_to_cursor *)
Definition clear_line_to_cursor (t : LFBTerminal) : outcome LFBTerminal :=
  i ← mul16 (cpos t).2 (size t).1;
  Ret (set_buffer (fill i (cpos t).1 0 (char_buffer t)) t).

(* [os/application/terminal_emulator/src/terminal/lfb_terminal.rs:418-448] LFBTerminal::clear_line *)
Definition clear_line (t : LFBTerminal) : outcome LFBTerminal :=
  i ← mul16 (cpos t).2 (size t).1;
  Ret (set_buffer (fill i (size t).1 32 (char_buffer t)) t).

(* [os/application/terminal_emulator/src/terminal/lfb_terminal.rs:318-339] LFBTerminal::clear_screen *)
Definition clear_screen (t : LFBTerminal) : LFBTerminal := set_buffer (replicate (length (char_buffer t)) 0) t.

(* [os/application/terminal_emulator/src/terminal/lfb_terminal.rs:341-378] LFBTerminal::clear_screen_to_cursor *)
Definition clear_screen_to_cursor (t : LFBTerminal) : outcome LFBTerminal :=
  i ← index_of t (cpos t);
  Ret (set_buffer (fill 0 i 0 (char_buffer t)) t).

(* [os/application/terminal_emulator/src/terminal/lfb_terminal.rs:380-416] LFBTerminal::clear_screen_from_cursor *)
Definition clear_screen_from_cursor (t : LFBTerminal) : outcome LFBTerminal :=
  _ ← sub16 (size t).1 (cpos t).1;
  _ ← add16 (cpos t).2 1;
  r ← sub16 (size t).2 (cpos t).2;
  _ ← sub16 r 1;
  i ← index_of t (cpos t);
  Ret (set_buffer (fill i (Z.of_nat (length (char_buffer t))) 0 (char_buffer t)) t).

Definition TAB_SPACES : Z := 4.

(* [os/application/terminal_emulator/src/terminal/lfb_terminal.rs:305-316] LFBTerminal::handle_tab *)
Definition handle_tab (t : LFBTerminal) : outcome LFBTerminal :=
  c ← add16 (cpos t).1 TAB_SPACES;
  if (size t).1 <=? c then r ← add16 (cpos t).2 1; position (0, r) t
  else position (c / TAB_SPACES * TAB_SPACES, (cpos t).2) t.

Definition DEFAULT_CHAR_WIDTH : Z := 8.

Section terminal.
Context (glyph_width : char -> Z).

(** The cells behind a wide character are emptied. *)
Fixpoint null_out (n : nat) (i : Z) (t : LFBTerminal) (x : Z) : outcome LFBTerminal :=
  match n with
  | O => Ret t
  | S n =>
      if (size t).1 <=? x then Ret t
      else t ← set_cell i 0 t; null_out n (i + 1) t (x + 1)
  end.

(** A character at the cursor, which moves behind it or to the next row. *)
Definition put_char (c : char) (t : LFBTerminal) : outcome LFBTerminal :=
  let width := glyph_width c in
  if width <=? 0 then Ret t
  else
    i ← index_of t (cpos t);
    let columns := width / DEFAULT_CHAR_WIDTH + (if width mod DEFAULT_CHAR_WIDTH =? 0 then 0 else 1) in
    t ← set_cell i c t;
    t ← null_out (Z.to_nat (columns - 1)) (i + 1) t ((cpos t).1 + 1);
    x ← add16 (cpos t).1 columns;
    if (size t).1 <=? x then r ← add16 (cpos t).2 1; position (0, r) t
    else Ret (set_pos (x, (cpos t).2) t).

(** At the end of a row the cursor goes to the next one, at the end of the screen that scrolls. *)
Definition end_of_row (t : LFBTerminal) : outcome LFBTerminal :=
  t ← (if (size t).1 <=? (cpos t).1 then r ← add16 (cpos t).2 1; Ret (set_pos (0, r) t) else Ret t);
  if (size t).2 <=? (cpos t).2 then
    t ← scroll_up t;
    last ← sub16 (size t).2 1;
    Ret (set_pos (0, last) t)
  else Ret t.

(* [os/application/terminal_emulator/src/terminal/lfb_terminal.rs:101-190] LFBTerminal::print_char *)
Definition print_char (c : char) (t : LFBTerminal) : outcome LFBTerminal :=
  t ← (if c =? 10 then
         t ← clear_line_from_cursor t;
         r ← add16 (cpos t).2 1;
         Ret (set_pos (0, r) t)
       else if c =? 8 then
         old ← index_of t (cpos t);
         _ ← arr_get (char_buffer t) (Z.to_nat old);
         x ← sub16 (cpos t).1 1;
         let t := set_pos (x, (cpos t).2) t in
         i ← index_of t (cpos t);
         set_cell i 32 t
       else put_char c t);
  end_of_row t.

(** ** Escape sequences *)

Definition move_by (p : Z) : Z := if p =? 0 then 1 else p.

(** The parameters of a sequence are the first numbers of each. *)
(* [os/application/terminal_emulator/src/terminal/lfb_terminal.rs:609-757] LFBTerminal::handle_ansi_cursor_sequence *)
Definition handle_ansi_cursor_sequence (code : Z) (params : list Z) (t : LFBTerminal) : outcome LFBTerminal :=
  let '(w, h) := size t in
  let '(x, y) := cpos t in
  match params with
  | p :: _ =>
      if code =? 0x41 then r ← sub16 y (move_by p); position (x, r) t
      else if code =? 0x42 then
        r ← add16 y (move_by p);
        r ← (if r <? h then Ret r else sub16 h 1);
        position (x, r) t
      else if code =? 0x43 then
        c ← add16 x (move_by p);
        c ← (if c <? w then Ret c else sub16 w 1);
        position (c, y) t
      else if code =? 0x44 then c ← sub16 x (move_by p); position (c, y) t
      else if code =? 0x45 then
        r ← add16 y p;
        r ← add16 r 1;
        r ← (if r <? h then Ret r else sub16 h 1);
        position (0, r) t
      else if code =? 0x46 then r ← sub16 y p; r ← sub16 r 1; position (0, r) t
      else if code =? 0x47 then
        c ← (if p <? w then Ret p else sub16 w 1);
        position (c, y) t
      else if (code =? 0x48) || (code =? 0x66) then
        match params with
        | p1 :: p2 :: _ =>
            c ← (if w <? p1 then sub16 w 1 else Ret p1);
            r ← (if h <? p2 then sub16 h 1 else Ret p2);
            position (c, r) t
        | _ => position (0, 0) t
        end
      else if code =? 0x73 then Ret {| size := size t; char_buffer := char_buffer t; cpos := cpos t; saved_pos := cpos t |}
      else if code =? 0x75 then position (saved_pos t) t
      else Ret t
  | [] =>
      if (code =? 0x48) || (code =? 0x66) then position (0, 0) t
      else if code =? 0x73 then Ret {| size := size t; char_buffer := char_buffer t; cpos := cpos t; saved_pos := cpos t |}
      else if code =? 0x75 then position (saved_pos t) t
      else Ret t
  end.

(* [os/application/terminal_emulator/src/terminal/lfb_terminal.rs:759-788] LFBTerminal::handle_ansi_erase_sequence *)
Definition handle_ansi_erase_sequence (code : Z) (params : list Z) (t : LFBTerminal) : outcome LFBTerminal :=
  let erase_code := default 0 (head params) in
  if code =? 0x4a then
    if erase_code =? 0 then clear_screen_from_cursor t
    else if erase_code =? 1 then clear_screen_to_cursor t
    else if erase_code =? 2 then position (0, 0) (clear_screen t)
    else Ret t
  else if code =? 0x4b then
    if erase_code =? 0 then clear_line_from_cursor t
    else if erase_code =? 1 then clear_line_to_cursor t
    else if erase_code =? 2 then clear_line t
    else Ret t
  else Ret t.

(* [os/application/terminal_emulator/src/terminal/lfb_terminal.rs:860-879] LFBTerminal::csi_dispatch *)
Definition csi_dispatch (params : list Z) (action : Z) (t : LFBTerminal) : outcome LFBTerminal :=
  if ((0x41 <=? action) && (action <=? 0x48)) || (action =? 0x66) || (action =? 0x6e) || (action =? 0x73) || (action =? 0x75)
  then handle_ansi_cursor_sequence action params t
  else if (action =? 0x4a) || (action =? 0x4b) then handle_ansi_erase_sequence action params t
  else Ret t.

(* [os/application/terminal_emulator/src/terminal/lfb_terminal.rs:839-850] LFBTerminal::execute *)
Definition execute_byte (b : Z) (t : LFBTerminal) : outcome LFBTerminal :=
  if b =? 0x09 then handle_tab t
  else if b =? 0x0a then print_char 10 t
  else Ret t.

(** What the parser calls. *)
Inductive Perform := DoPrint (c : char) | DoExecute (b : Z) | DoCsi (params : list Z) (action : Z).

Definition perform (p : Perform) (t : LFBTerminal) : outcome LFBTerminal :=
  match p with
  | DoPrint c => print_char c t
  | DoExecute b => execute_byte b t
  | DoCsi params action => csi_dispatch params action t
  end.

Fixpoint perform_all (ps : list Perform) (t : LFBTerminal) : outcome LFBTerminal :=
  match ps with
  | [] => Ret t
  | p :: ps' => t ← perform p t; perform_all ps' t
  end.
End terminal.
