(* ===== verification/ShellTerminal.v ===== *)
(** * The shell on the terminal

    The actions of the shell's writer, sent to the terminal: as long as the text of the row stays
    within the right margin, the row of the terminal is the one of [ShellScreen]. *)

From S2P Require Import Prelude ShellText ShellToken ShellLexer ShellParser ShellServices ShellScreen ShellSafe Shell ShellRun ShellMain Terminal.

Open Scope nat_scope.

(** ** What the terminal gets *)

Definition printable (c : char) : bool := ((32 <=? c) && (c <? 127))%Z.

(** The calls of the parser for the text and the sequences of the writer. *)
Definition act_performs (a : Act) : list Perform :=
  match a with
  | Text s => (fun c => if printable c then DoPrint c else DoExecute c) <$> s
  | CursorRight n => [DoCsi [Z.of_nat n] 0x43]
  | CursorLeft n => [DoCsi [Z.of_nat n] 0x44]
  | ClearRight => [DoCsi [0%Z] 0x4b]
  | ToStart => [DoCsi [0%Z] 0x47]
  | SavePos => [DoCsi [0%Z] 0x73]
  | RestorePos => [DoCsi [0%Z] 0x75]
  | NewRow => [DoExecute 10%Z]
  | Output => []
  end.

(** The actions stay within a row of [w] columns; [sv] says that a position was saved. *)
Definition fits_act (w : nat) (sv : bool) (r : Row) (a : Act) : bool :=
  match a with
  | Text s => (column r + length s <? w) && forallb printable s
  | CursorRight n => (0 <? n) && (column r + n <? w)
  | CursorLeft n => (0 <? n) && (n <=? column r)
  | ClearRight | ToStart | SavePos => true
  | RestorePos => sv
  | NewRow | Output => false
  end.

Definition saves (a : Act) : bool := match a with SavePos => true | _ => false end.

Fixpoint fits (w : nat) (sv : bool) (r : Row) (acts : list Act) : bool :=
  match acts with
  | [] => true
  | a :: acts' => fits_act w sv r a && fits w (sv || saves a) (act r a) acts'
  end.

(** ** The row of the terminal *)

(** An emptied cell looks like a blank. *)
Definition look (c : char) : char := if (c =? 0)%Z then 32%Z else c.

Definition row_text (t : LFBTerminal) (y : nat) : str :=
  let w := Z.to_nat (size t).1 in look <$> take w (drop (y * w) (char_buffer t)).

Section sim.
Context (glyph_width : char -> Z) (w h y : nat) (b0 : list char).

(** What the terminal keeps: its size, the buffer outside of the row, the cursor in the row. *)
Record at_row (x : nat) (t : LFBTerminal) : Prop := {
  at_size : size t = (Z.of_nat w, Z.of_nat h);
  at_len : length (char_buffer t) = length b0;
  at_pos : cpos t = (Z.of_nat x, Z.of_nat y);
  at_col : x < w;
  at_frame : forall k, k < y * w \/ y * w + w <= k -> char_buffer t !! k = b0 !! k
}.

(** The row shows a text, blanks behind it. *)
Definition shows (s : str) (t : LFBTerminal) : Prop :=
  forall i, i < w -> look <$> char_buffer t !! (y * w + i) = Some (default SPACE (s !! i)).

Context (Hy : 1 <= y < h) (Hb : w * h <= length b0) (Hu : (Z.of_nat (w * h) <= U16_MAX)%Z).

Lemma row_in_buffer i : i < w -> y * w + i < length b0.
Proof. intros Hi. clear Hu. nia. Qed.

Lemma index_ok x t : at_row x t -> index_of t (cpos t) = Ret (Z.of_nat (y * w + x)).
Proof.
  intros [S L P C _]. unfold index_of, mul16, add16. rewrite S, P. simpl. unfold U16_MAX in *.
  destruct (Z.leb_spec (Z.of_nat y * Z.of_nat w) 65535); [|nia]. simpl.
  destruct (Z.leb_spec (Z.of_nat y * Z.of_nat w + Z.of_nat x) 65535); [|nia]. f_equal. lia.
Qed.

Lemma position_ok x x' t : at_row x t -> x' < w -> position (Z.of_nat x', Z.of_nat y) t = Ret (set_pos (Z.of_nat x', Z.of_nat y) t).
Proof.
  intros [S L P C _] Hx. unfold position. rewrite S. simpl. destruct (Z.eqb_spec (Z.of_nat y) 0); [lia|]. simpl.
  destruct (Z.ltb_spec (Z.of_nat y) (Z.of_nat h)); [done|lia].
Qed.

Lemma at_row_move x x' t : at_row x t -> x' < w -> at_row x' (set_pos (Z.of_nat x', Z.of_nat y) t).
Proof. intros [S L P C F] Hx. by split. Qed.

(** ** One action *)

(** The row after [s] is written at column [x] over [s0]. *)
Definition overwrite (s0 : str) (x : nat) (s : str) (i : nat) : char :=
  if (x <=? i) && (i <? x + length s) then default SPACE (s !! (i - x)) else default SPACE (s0 !! i).

Lemma print_ok x f t c : at_row x t -> x + 1 < w -> printable c = true -> glyph_width c = DEFAULT_CHAR_WIDTH ->
  (forall i, i < w -> look <$> char_buffer t !! (y * w + i) = Some (f i)) ->
  exists t', print_char glyph_width c t = Ret t' /\ at_row (x + 1) t' /\ saved_pos t' = saved_pos t /\
    forall i, i < w -> look <$> char_buffer t' !! (y * w + i) = Some (if i =? x then c else f i).
Proof.
  intros A Hx Pc G F. pose proof A as [S L P C Fr]. unfold printable in Pc. unfold print_char.
  destruct (Z.eqb_spec c 10); [lia|]. destruct (Z.eqb_spec c 8); [lia|]. unfold put_char. rewrite G.
  change (DEFAULT_CHAR_WIDTH <=? 0)%Z with false. cbv iota. rewrite (index_ok x t A).
  replace (DEFAULT_CHAR_WIDTH / DEFAULT_CHAR_WIDTH + (if DEFAULT_CHAR_WIDTH mod DEFAULT_CHAR_WIDTH =? 0 then 0 else 1))%Z
    with 1%Z by reflexivity. cbn -[arr_set Nat.add Nat.mul].
  unfold set_cell. rewrite Nat2Z.id. rewrite arr_set_ok by (rewrite L; apply row_in_buffer; lia). simpl.
  rewrite P, S. unfold add16, U16_MAX in *. simpl.
  destruct (Z.leb_spec (Z.of_nat x + 1) 65535); [|nia]. simpl. destruct (Z.leb_spec (Z.of_nat w) (Z.of_nat x + 1)); [lia|].
  unfold end_of_row. simpl. rewrite ?S. simpl. destruct (Z.leb_spec (Z.of_nat w) (Z.of_nat x + 1)); [lia|]. simpl. rewrite ?S. simpl.
  destruct (Z.leb_spec (Z.of_nat h) (Z.of_nat y)); [lia|]. eexists. split; [reflexivity|]. split; [|split; [done|]].
  - split; simpl; try done; [by rewrite length_insert|by rewrite Nat2Z.inj_add|].
    intros k Hk. rewrite list_lookup_insert_ne by lia. by apply Fr.
  - intros i Hi. simpl. destruct (Nat.eqb_spec i x) as [->|Ne].
    + rewrite list_lookup_insert_eq by (rewrite L; apply row_in_buffer; lia). simpl. unfold look.
      destruct (Z.eqb_spec c 0); [lia|done].
    + rewrite list_lookup_insert_ne by lia. by apply F.
Qed.

Lemma text_ok s x s0 t : at_row x t -> x + length s < w -> forallb printable s = true ->
  (forall c, printable c = true -> glyph_width c = DEFAULT_CHAR_WIDTH) ->
  (forall i, i < w -> look <$> char_buffer t !! (y * w + i) = Some (default SPACE (s0 !! i))) ->
  exists t', perform_all glyph_width (act_performs (Text s)) t = Ret t' /\ at_row (x + length s) t' /\ saved_pos t' = saved_pos t /\
    forall i, i < w -> look <$> char_buffer t' !! (y * w + i) = Some (overwrite s0 x s i).
Proof.
  intros A L Ps G F.
  assert (Gen : forall (s : str) x f t, at_row x t -> x + length s < w -> forallb printable s = true ->
    (forall i, i < w -> look <$> char_buffer t !! (y * w + i) = Some (f i)) ->
    exists t', perform_all glyph_width (act_performs (Text s)) t = Ret t' /\ at_row (x + length s) t' /\ saved_pos t' = saved_pos t /\
      forall i, i < w -> look <$> char_buffer t' !! (y * w + i) =
        Some (if (x <=? i) && (i <? x + length s) then default SPACE (s !! (i - x)) else f i)).
  { clear -Hy Hb Hu G. intros s. induction s as [|c s IH]; intros x f t A L Ps F.
    - exists t. simpl. rewrite Nat.add_0_r. split; [done|]. split; [done|]. split; [done|]. intros i Hi. rewrite (F i Hi).
      destruct (Nat.leb_spec x i), (Nat.ltb_spec i x); (done || lia).
    - simpl in L, Ps. apply andb_true_iff in Ps as [Pc Ps].
      destruct (print_ok x f t c A) as (t1 & E1 & A1 & S1 & F1); [lia|done|by apply G|done|].
      destruct (IH (x + 1) _ t1 A1 ltac:(lia) Ps F1) as (t2 & E2 & A2 & S2 & F2). exists t2. simpl. rewrite Pc. simpl. rewrite E1. simpl.
      split; [exact E2|]. replace (x + S (length s)) with (x + 1 + length s) by lia. split; [done|]. split; [congruence|].
      intros i Hi. rewrite (F2 i Hi). f_equal. destruct (Nat.eqb_spec i x) as [->|Ne].
      + destruct (Nat.leb_spec (x + 1) x); [lia|]. simpl. rewrite Nat.leb_refl. destruct (Nat.ltb_spec x (x + 1 + length s)); [|lia].
        simpl. by rewrite Nat.sub_diag.
      + destruct (Nat.leb_spec (x + 1) i), (Nat.leb_spec x i); try lia; simpl; [|done].
        destruct (Nat.ltb_spec i (x + 1 + length s)); [|done]. replace (i - x) with (S (i - (x + 1))) by lia. done. }
  apply (Gen s x (fun i => default SPACE (s0 !! i)) t A L Ps F).
Qed.

Lemma pad_lookup n (s : str) i : default SPACE (pad n s !! i) = default SPACE (s !! i).
Proof.
  unfold pad. destruct (decide (i < length s)) as [L|L]; [by rewrite lookup_app_l|].
  rewrite lookup_app_r, (lookup_ge_None_2 s) by lia. destruct (replicate _ _ !! _) eqn:E; [|done].
  by apply lookup_replicate in E as [-> _].
Qed.

Lemma text_lookup r s i : default SPACE (cells (act r (Text s)) !! i) = overwrite (cells r) (column r) s i.
Proof.
  unfold overwrite. rewrite <-(pad_lookup (column r) (cells r) i). simpl. set (ro := pad (column r) (cells r)).
  assert (L : column r <= length ro) by (unfold ro, pad; rewrite length_app, length_replicate; lia).
  assert (Lt : length (take (column r) ro) = column r) by (rewrite length_take; lia).
  destruct (Nat.leb_spec (column r) i); simpl; [|by rewrite lookup_app_l, lookup_take_lt by lia].
  rewrite lookup_app_r, Lt by lia. destruct (Nat.ltb_spec i (column r + length s)); [by rewrite lookup_app_l by lia|].
  rewrite lookup_app_r, lookup_drop by lia. do 2 f_equal. lia.
Qed.

Lemma row_text_lookup t y' i : size t = (Z.of_nat w, Z.of_nat h) ->
  row_text t y' !! i = if i <? w then look <$> char_buffer t !! (y' * w + i) else None.
Proof.
  intros S. unfold row_text. rewrite S. cbn [fst]. rewrite Nat2Z.id, list_lookup_fmap.
  destruct (Nat.ltb_spec i w); [by rewrite lookup_take_lt, lookup_drop by lia|by rewrite lookup_take_ge by lia].
Qed.

(** The terminal shows the row of the writer. *)
Record sim (sv : bool) (r : Row) (t : LFBTerminal) : Prop := {
  sim_at : at_row (column r) t;
  sim_shows : forall i, i < w -> look <$> char_buffer t !! (y * w + i) = Some (default SPACE (cells r !! i));
  sim_saved : sv = true -> saved_pos t = (Z.of_nat (saved r), Z.of_nat y) /\ saved r < w
}.

Lemma clear_sim sv r t : sim sv r t ->
  exists t', clear_line_from_cursor t = Ret t' /\ sim sv (act r ClearRight) t'.
Proof.
  intros [A Sh Sv]. pose proof A as [S L P C Fr]. unfold clear_line_from_cursor. rewrite (index_ok _ t A), S, P. unfold sub16. simpl.
  destruct (Z.leb_spec (Z.of_nat (column r)) (Z.of_nat w)); [|lia]. simpl. eexists. split; [reflexivity|].
  assert (Fl : forall k, fill (Z.of_nat (y * w + column r)) (Z.of_nat w - Z.of_nat (column r)) 0 (char_buffer t) !! k =
    (fun x => if (y * w + column r <=? k) && (k <? y * w + w) then 0%Z else x) <$> char_buffer t !! k).
  { intros k. unfold fill. rewrite list_lookup_imap. destruct (char_buffer t !! k); [|done]. simpl. f_equal.
    destruct (Nat.leb_spec (y * w + column r) k), (Nat.ltb_spec k (y * w + w)),
      (Z.leb_spec (Z.of_nat (y * w + column r)) (Z.of_nat k)),
      (Z.ltb_spec (Z.of_nat k) (Z.of_nat (y * w + column r) + (Z.of_nat w - Z.of_nat (column r)))); (done || lia). }
  split; [split; simpl; try done| |done].
  - unfold fill. by rewrite length_imap.
  - intros k Hk. rewrite Fl. rewrite (Fr k Hk). destruct (b0 !! k); [|done]. simpl. f_equal.
    destruct (Nat.leb_spec (y * w + column r) k), (Nat.ltb_spec k (y * w + w)); (done || lia).
  - intros i Hi. simpl. rewrite Fl. pose proof (Sh i Hi) as E. destruct (char_buffer t !! (y * w + i)) as [c|]; [|done].
    simpl in *. destruct (Nat.leb_spec (y * w + column r) (y * w + i)); simpl.
    + destruct (Nat.ltb_spec (y * w + i) (y * w + w)); [|lia]. rewrite lookup_take_ge by lia. done.
    + rewrite E, lookup_take_lt by lia. done.
Qed.

Context (Hg : forall c, printable c = true -> glyph_width c = DEFAULT_CHAR_WIDTH).

Lemma move_sim sv r t x' : sim sv r t -> x' < w ->
  sim sv {| cells := cells r; column := x'; saved := saved r |} (set_pos (Z.of_nat x', Z.of_nat y) t).
Proof. intros [A Sh Sv] Hx. split; [by eapply at_row_move|done|done]. Qed.

Ltac cursor_sequence S P :=
  unfold csi_dispatch, handle_ansi_cursor_sequence; rewrite S, P; cbn -[position move_by add16 sub16 Z.of_nat].

Lemma act_sim sv r t a : sim sv r t -> fits_act w sv r a = true ->
  exists t', perform_all glyph_width (act_performs a) t = Ret t' /\ sim (sv || saves a) (act r a) t'.
Proof.
  intros Sm Ft. pose proof Sm as [A Sh Sv]. pose proof A as [S L P C Fr]. destruct a as [s|n|n| | | | | |]; simpl in Ft; try done;
    rewrite ?orb_false_r; [|apply andb_true_iff in Ft as [F1 F2]; apply Nat.ltb_lt in F1..| | | |].
  - apply andb_true_iff in Ft as [F1 F2]. apply Nat.ltb_lt in F1.
    destruct (text_ok s (column r) (cells r) t A F1 F2 Hg Sh) as (t' & E & A' & Sv' & Sh'). exists t'. split; [exact E|].
    split; [exact A'|intros i Hi; by rewrite text_lookup, Sh'|]. simpl. by rewrite Sv'.
  - apply Nat.ltb_lt in F2. pose proof (move_sim sv r t (column r + n) Sm F2) as M.
    assert (E : csi_dispatch [Z.of_nat n] 67 t = Ret (set_pos (Z.of_nat (column r + n), Z.of_nat y) t)).
    { cursor_sequence S P. unfold move_by, add16, U16_MAX in *. destruct (Z.eqb_spec (Z.of_nat n) 0); [lia|].
      destruct (Z.leb_spec (Z.of_nat (column r) + Z.of_nat n) 65535); [|nia]. cbn -[position Z.of_nat].
      destruct (Z.ltb_spec (Z.of_nat (column r) + Z.of_nat n) (Z.of_nat w)); [|lia]. cbn -[position Z.of_nat].
      rewrite <-Nat2Z.inj_add. by eapply position_ok. }
    eexists. split; [simpl; rewrite E; reflexivity|exact M].
  - apply Nat.leb_le in F2. assert (Hc : column r - n < w) by lia. pose proof (move_sim sv r t (column r - n) Sm Hc) as M.
    assert (E : csi_dispatch [Z.of_nat n] 68 t = Ret (set_pos (Z.of_nat (column r - n), Z.of_nat y) t)).
    { cursor_sequence S P. unfold move_by, sub16. destruct (Z.eqb_spec (Z.of_nat n) 0); [lia|].
      destruct (Z.leb_spec (Z.of_nat n) (Z.of_nat (column r))); [|lia]. cbn -[position Z.of_nat].
      rewrite <-Nat2Z.inj_sub by lia. by eapply position_ok. }
    eexists. split; [simpl; rewrite E; reflexivity|exact M].
  - destruct (clear_sim sv r t Sm) as (t' & E & Sm'). exists t'. split; [|exact Sm']. simpl. change (csi_dispatch [0%Z] 75 t) with (clear_line_from_cursor t).
    by rewrite E.
  - pose proof (move_sim sv r t 0 Sm ltac:(lia)) as M.
    assert (E : csi_dispatch [0%Z] 71 t = Ret (set_pos (Z.of_nat 0, Z.of_nat y) t)).
    { cursor_sequence S P. destruct (Z.ltb_spec 0 (Z.of_nat w)); [|lia]. cbn -[position Z.of_nat]. exact (position_ok (column r) 0 t A ltac:(lia)). }
    eexists. split; [simpl; rewrite E; reflexivity|exact M].
  - eexists. split; [unfold act_performs; cbn [perform_all perform]; cursor_sequence S P; reflexivity|]. rewrite orb_true_r. split; [by split; simpl|done|]. simpl. intros _. split; [done|lia].
  - destruct (Sv Ft) as [Es Hs]. pose proof (move_sim sv r t (saved r) Sm Hs) as M.
    assert (E : csi_dispatch [0%Z] 117 t = Ret (set_pos (Z.of_nat (saved r), Z.of_nat y) t)).
    { cursor_sequence S P. rewrite Es. by eapply position_ok. }
    eexists. split; [simpl; rewrite E; reflexivity|exact M].
Qed.

(** ** The actions of a line *)

Lemma fits_length acts sv r : fits w sv r acts = true -> column r < w -> (sv = true -> saved r < w) -> length (cells r) <= w ->
  length (cells (foldl act r acts)) <= w.
Proof.
  revert sv r. induction acts as [|a acts IH]; intros sv r Ft C Sv L; [done|].
  simpl in Ft |- *. apply andb_true_iff in Ft as [Fa Ft]. apply (IH _ _ Ft); clear IH Ft;
    destruct a as [s|n|n| | | | | |]; simpl in *; rewrite ?orb_false_r, ?orb_true_r; try done; try lia;
    try (apply andb_true_iff in Fa as [F1 F2]; apply Nat.ltb_lt in F1; rewrite ?Nat.ltb_lt in F2); try lia; auto.
  - unfold pad. rewrite !length_app, length_take, length_drop, length_app, length_replicate. lia.
  - rewrite length_take. lia.
Qed.

Lemma perform_all_app ps ps' t : perform_all glyph_width (ps ++ ps') t = (t ← perform_all glyph_width ps t; perform_all glyph_width ps' t).
Proof. revert t. induction ps as [|p ps IH]; intros t; [done|]. simpl. destruct (perform glyph_width p t); [apply IH|done]. Qed.

Lemma acts_sim acts sv r t : sim sv r t -> fits w sv r acts = true ->
  exists t' sv', perform_all glyph_width (mjoin (act_performs <$> acts)) t = Ret t' /\ sim sv' (foldl act r acts) t'.
Proof.
  revert sv r t. induction acts as [|a acts IH]; intros sv r t Sm Ft; [by exists t, sv|].
  simpl in Ft. apply andb_true_iff in Ft as [Fa Ft]. destruct (act_sim sv r t a Sm Fa) as (t1 & E1 & S1).
  destruct (IH _ _ _ S1 Ft) as (t2 & sv2 & E2 & S2). exists t2, sv2. split; [|exact S2].
  rewrite fmap_cons. simpl mjoin. rewrite perform_all_app, E1. exact E2.
Qed.

(** From a blank row on, the row holds what the actions make of it. *)
Lemma acts_shown acts t : size t = (Z.of_nat w, Z.of_nat h) -> char_buffer t = b0 -> cpos t = (0%Z, Z.of_nat y) -> 0 < w ->
  row_text t y = replicate w SPACE -> fits w false row_new acts = true ->
  exists t', perform_all glyph_width (mjoin (act_performs <$> acts)) t = Ret t' /\
    row_text t' y = pad w (cells (foldl act row_new acts)) /\ cpos t' = (Z.of_nat (column (foldl act row_new acts)), Z.of_nat y) /\
    forall y', y' <> y -> row_text t' y' = row_text t y'.
Proof.
  intros S B P Hw Bl Ft. assert (Sm : sim false row_new t).
  { split; [split; rewrite ?B; done| |done]. intros i Hi. change (cells row_new !! i) with (@nil char !! i). simpl.
    pose proof (row_text_lookup t y i S) as E. rewrite Bl, lookup_replicate_2 in E by done.
    destruct (Nat.ltb_spec i w); [done|lia]. }
  destruct (acts_sim acts false row_new t Sm Ft) as (t' & sv & E & [A Sh _]). exists t'. split; [exact E|]. destruct A as [S' _ P' _ Fr].
  pose proof (fits_length acts false row_new Ft ltac:(done) ltac:(done) ltac:(simpl; lia)) as L.
  set (r := foldl act row_new acts) in *. split; [|split; [exact P'|]].
  - apply list_eq. intros i. rewrite row_text_lookup by done. pose proof (pad_lookup w (cells r) i) as Pl.
    assert (Lp : length (pad w (cells r)) = w) by (unfold pad; rewrite length_app, length_replicate; lia).
    destruct (Nat.ltb_spec i w); [|by rewrite lookup_ge_None_2 by lia]. rewrite Sh by done. rewrite <-Pl.
    destruct (lookup_lt_is_Some_2 (pad w (cells r)) i ltac:(lia)) as [x ->]. done.
  - intros y' Ne. apply list_eq. intros i. rewrite !row_text_lookup, B by done. destruct (Nat.ltb_spec i w); [|done].
    rewrite Fr; [done|]. clear -Ne H. assert (y' < y \/ y < y') by lia. nia.
Qed.
End sim.

(** ** The shell on the terminal *)

(** C36 At every rest of the shell, the terminal that performs what the writer sent since the last
    prompt has not panicked: its row holds the prompt, the whole line and either the suggestion or
    nothing, blanks behind it, its cursor is at the line's cursor or behind the focused suggestion,
    and every other row is as it was.  It needs a row below the status bar that was blank and text
    within the right margin. *)
Theorem terminal_shows_line (W : Type) (K : Kernel W) cfg apps keys (wo : W) sh (glyph_width : char -> Z) (w h y : nat) t :
  Forall app_ok apps -> Forall key_ok keys -> run EVENT_FUEL cfg apps keys wo = Ret (Some (Running sh)) ->
  ascii (prompt (sh_cwd sh)) ->
  (forall c, printable c = true -> glyph_width c = DEFAULT_CHAR_WIDTH) ->
  0 < w -> 1 <= y < h -> w * h <= length (char_buffer t) -> (Z.of_nat (w * h) <= U16_MAX)%Z ->
  size t = (Z.of_nat w, Z.of_nat h) -> cpos t = (0%Z, Z.of_nat y) -> row_text t y = replicate w SPACE ->
  fits w false row_new (sh_written sh).2 = true ->
  exists t' (fresh : bool),
    perform_all glyph_width (mjoin (act_performs <$> (sh_written sh).2)) t = Ret t' /\
    row_text t' y = pad w (prompt (sh_cwd sh) ++ line (sh_line sh) ++ (if fresh then suggestion (sh_suggestion sh) else [])) /\
    cpos t' = (Z.of_nat (length (prompt (sh_cwd sh)) +
      (if has_focus (sh_suggestion sh) then length (line (sh_line sh)) + length (suggestion (sh_suggestion sh))
       else cursor_position (sh_line sh))), Z.of_nat y) /\
    forall y', y' <> y -> row_text t' y' = row_text t y'.
Proof.
  intros A Ks E Pr Hg Hw Hy Hb Hu S P Bl Ft. destruct (screen_shows_line W K cfg apps keys wo sh A Ks E Pr) as (fresh & Dc & Dp).
  destruct (acts_shown glyph_width w h y _ Hy Hb Hu Hg _ t S eq_refl P Hw Bl Ft) as (t' & E' & R & C & O).
  exists t', fresh. split; [exact E'|]. change (foldl act row_new (sh_written sh).2) with (row (sh_written sh)) in *.
  rewrite R, C, Dc, Dp. done.
Qed.


(** A terminal with a blank screen, its cursor below the status bar. *)
Definition blank_terminal (w h : nat) : LFBTerminal :=
  {| size := (Z.of_nat w, Z.of_nat h); char_buffer := replicate (w * h) SPACE; cpos := (0%Z, 1%Z); saved_pos := (0%Z, 1%Z) |}.

(** A font whose characters all have one column. *)
Definition fixed_font (c : char) : Z := DEFAULT_CHAR_WIDTH.

Lemma terminal_shows_line_witness :
  exists sh, run (W := Log) EVENT_FUEL all_services APPLICATION_REGISTRY edit_keys [] = Ret (Some (Running sh)) /\
    exists t' (fresh : bool), perform_all fixed_font (mjoin (act_performs <$> (sh_written sh).2)) (blank_terminal 40 5) = Ret t' /\
      row_text t' 1 = pad 40 (prompt (sh_cwd sh) ++ line (sh_line sh) ++ (if fresh then suggestion (sh_suggestion sh) else [])) /\
      cpos t' = (Z.of_nat (length (prompt (sh_cwd sh)) +
        (if has_focus (sh_suggestion sh) then length (line (sh_line sh)) + length (suggestion (sh_suggestion sh))
         else cursor_position (sh_line sh))), Z.of_nat 1) /\
      forall y', y' <> 1 -> row_text t' y' = row_text (blank_terminal 40 5) y'.
Proof.
  eexists. split; [vm_compute; reflexivity|].
  apply (terminal_shows_line Log log_kernel all_services APPLICATION_REGISTRY edit_keys [] _ fixed_font 40 5 1 (blank_terminal 40 5));
    [exact registry_ok|exact edit_keys_ok|vm_compute; reflexivity|exact (lit_ascii "/> " eq_refl)|done|..].
  all: try (vm_compute; reflexivity). all: vm_compute; repeat constructor; discriminate.
Defined.

(** ** Beyond the margin *)

(** The keys of a line that is longer than a row of twenty columns. *)
Definition long_keys : list DecodedKey := typed "echo hello to all of them" ++ replicate 10 (RawKey ArrowLeft).

(** What the terminal makes of a shell that is at rest after the keys. *)
Definition performed (keys : list DecodedKey) (t : LFBTerminal) : option (outcome LFBTerminal) :=
  match run (W := Log) EVENT_FUEL all_services APPLICATION_REGISTRY keys [] with
  | Ret (Some (Running sh)) => Some (perform_all fixed_font (mjoin (act_performs <$> (sh_written sh).2)) t)
  | _ => None
  end.

(** Beyond the right margin the terminal wraps the line, but the writer goes back over it by
    moves to the left: a line longer than a row followed by arrows to the left over the wrapped
    part makes the terminal panic, while the shell is fine. *)
Theorem wrapped_line_panics :
  performed long_keys (blank_terminal 20 5) = Some (Panic "attempt to subtract with overflow").
Proof. vm_compute. reflexivity. Qed.
