(* ===== verification/HcaLayout.v ===== *)
(** * Tables of the adapter

    How the kernel driver lays out the tables of the adapter, and that the layout is right. *)

From stdpp Require Import sorting.
From S2P Require Import Prelude Intervals Dram.

Open Scope Z_scope.

(** * The capabilities of the adapter and the layout of its memory
      ([os/kernel/src/device/infiniband/mlx4/fw.rs], [profile.rs])

    The kernel driver of the mlx4 adapter lays out the memory that the adapter uses for its
    tables (ICM, interconnect context memory): one region per kind of resource, sized by what
    the firmware reports, sorted by size and packed.  Bit fields, which the
    [modular_bitfield_msb] crate packs, are records of numbers; setting a field to a number that
    is too large panics. *)

(** Setters of bit fields, [n] bits wide. *)
Definition bits (n v : Z) : outcome Z :=
  if (0 <=? v) && (v <? 2 ^ n) then Ret v else Panic "value out of bounds for field".

Definition mul64 (a b : Z) : outcome Z := expect (checked_mul a b) "attempt to multiply with overflow".
Definition add64 (a b : Z) : outcome Z := expect (checked_add a b) "attempt to add with overflow".

(** ** What the firmware reports *)

(** The fields that the driver uses, with their widths in bits. *)
(* [os/kernel/src/device/infiniband/mlx4/fw.rs:284-672] Capabilities *)
Record Capabilities := {
  log_max_qp_sz : Z; (* 8 *) log2_rsvd_qps : Z; (* 4 *) log2_rsvd_srqs : Z; (* 4 *) num_rsvd_eqs : Z; (* 8 *)
  log2_rsvd_cqs : Z; (* 4 *) log2_rsvd_mtts : Z; (* 4 *) log2_rsvd_mrws : Z; (* 4 *) num_ports : Z; (* 4 *)
  log_max_msg : Z; (* 5 *) num_rsvd_uars : Z; (* 4 *) uar_sz : Z; (* 6 *) bf : bool;
  num_rsvd_pds : Z; (* 4 *) log_max_pd : Z; (* 5 *)
  rdmarc_entry_sz : Z; qpc_entry_sz : Z; aux_entry_sz : Z; altc_entry_sz : Z; eqc_entry_sz : Z;
  cqc_entry_sz : Z; srq_entry_sz : Z; c_mpt_entry_sz : Z; mtt_entry_sz : Z; d_mpt_entry_sz : Z; (* 16 *)
  max_icm_sz : Z (* 64 *)
}.

(* os/kernel/src/device/infiniband/mlx4/fw.rs: Capabilities::uar_size *)
Definition uar_size (caps : Capabilities) : outcome Z :=
  if uar_sz caps + 20 <? 64 then Ret (2 ^ (uar_sz caps + 20)) else Panic "attempt to shift left with overflow".

(* os/kernel/src/device/infiniband/mlx4/fw.rs: Capabilities::num_uars *)
Definition num_uars (caps : Capabilities) : outcome Z := s ← uar_size caps; Ret (s / PAGE_SIZE).

(** ** Parameters of the initialisation of the adapter *)

(** The fields of the parameters that the driver sets. *)
(* [os/kernel/src/device/infiniband/mlx4/fw.rs:843-1051] InitHcaParameters *)
Inductive HcaField :=
| QPC_BASE_NUM | SRQC_BASE_NUM | CQC_BASE_NUM | EQC_BASE_NUM | RDMARC_BASE_NUM | ALTC_BASE | AUXC_BASE
| MC_BASE | MC_LOG_ENTRY_SZ | MC_LOG_HASH_SZ | MC_LOG_TABLE_SZ | DMPT_BASE | LOG_DMPT_SZ | MTT_BASE | CMPT_BASE
| VERSION | FLAGS | UAR_LOG_SZ.

#[global] Instance hca_field_eq_dec : EqDecision HcaField.
Proof. solve_decision. Defined.

Definition InitHcaParameters : Type := HcaField -> Z.
Definition init_hca_new : InitHcaParameters := fun _ => 0.
Definition set_field (f : HcaField) (v : Z) (h : InitHcaParameters) : InitHcaParameters :=
  fun g => if decide (g = f) then v else h g.

Definition BASE_MASK : Z := 0xffffffffffffffe0.

(** A base in the upper 59 bits and the logarithm of a number in the lower 5 bits. *)
(* os/kernel/src/device/infiniband/mlx4/fw.rs: InitHcaParameters::num_qps, num_srqs, num_cqs, num_eqs *)
Definition num_of (f : HcaField) (h : InitHcaParameters) : Z := 2 ^ Z.land (h f) 0x1f.

(* os/kernel/src/device/infiniband/mlx4/fw.rs: InitHcaParameters::set_qpc_log_qp, set_qpc_log_srq, set_qpc_log_cq, set_qpc_log_eq *)
Definition set_log_num (f : HcaField) (new : Z) (h : InitHcaParameters) : outcome InitHcaParameters :=
  _ ← rust_assert (Z.land new 0x1f =? new) "assertion `left == right` failed";
  Ret (set_field f (Z.lor (Z.land (h f) BASE_MASK) (Z.land new 0x1f)) h).

(* os/kernel/src/device/infiniband/mlx4/fw.rs: InitHcaParameters::qpc_base, qpc_srqc_base, qpc_cqc_base, qpc_eqc_base, qpc_rdmarc_base *)
Definition base_of (f : HcaField) (h : InitHcaParameters) : Z := Z.land (h f) BASE_MASK.

(* os/kernel/src/device/infiniband/mlx4/fw.rs: InitHcaParameters::set_qpc_base, set_qpc_srqc_base, set_qpc_cqc_base, set_qpc_eqc_base *)
Definition set_base (f : HcaField) (new : Z) (h : InitHcaParameters) : outcome InitHcaParameters :=
  _ ← rust_assert (Z.land new BASE_MASK =? new) "assertion `left == right` failed";
  Ret (set_field f (Z.lor (Z.land (h f) 0x1f) (Z.land new BASE_MASK)) h).

(* os/kernel/src/device/infiniband/mlx4/fw.rs: InitHcaParameters::set_qpc_log_rd *)
Definition set_qpc_log_rd (new : Z) (h : InitHcaParameters) : outcome InitHcaParameters :=
  _ ← rust_assert (Z.land new 0x7 =? new) "assertion `left == right` failed";
  Ret (set_field RDMARC_BASE_NUM (Z.lor (Z.land (h RDMARC_BASE_NUM) BASE_MASK) (Z.land new 0x7)) h).

(* os/kernel/src/device/infiniband/mlx4/fw.rs: InitHcaParameters::set_qpc_rdmarc_base *)
Definition set_qpc_rdmarc_base (new : Z) (h : InitHcaParameters) : outcome InitHcaParameters :=
  _ ← rust_assert (Z.land new BASE_MASK =? new) "assertion `left == right` failed";
  Ret (set_field RDMARC_BASE_NUM (Z.lor (Z.land (h RDMARC_BASE_NUM) 0x7) (Z.land new BASE_MASK)) h).

(** ** Resources *)

(* [os/kernel/src/device/infiniband/mlx4/profile.rs:12-25] ResourceType *)
Inductive ResourceType := QP | RDMARC | ALTC | AUXC | SRQ | CQ | EQ | DMPT | CMPT | MTT | MCG.

#[global] Instance resource_type_eq_dec : EqDecision ResourceType.
Proof. solve_decision. Defined.

Definition all_types : list ResourceType := [QP; RDMARC; ALTC; AUXC; SRQ; CQ; EQ; DMPT; CMPT; MTT; MCG].

(* [os/kernel/src/device/infiniband/mlx4/profile.rs:29-34] Resource *)
Record Resource := mkResource { res_size : Z; res_start : Z; res_typ : ResourceType; res_num : Z }.

(* os/kernel/src/device/infiniband/mlx4/profile.rs: Resource::lognum *)
Definition lognum (r : Resource) : Z := Z.log2 (res_num r).

Definition DEFAULT_NUM_QP : Z := 2 ^ 17.
Definition DEFAULT_NUM_SRQ : Z := 2 ^ 16.
Definition DEFAULT_RDMARC_PER_QP : Z := 2 ^ 4.
Definition DEFAULT_NUM_CQ : Z := 2 ^ 16.
Definition DEFAULT_NUM_MCG : Z := 2 ^ 13.
Definition DEFAULT_NUM_MPT : Z := 2 ^ 19.
Definition DEFAULT_NUM_MTT : Z := 2 ^ 20.
Definition MAX_NUM_EQS : Z := 2 ^ 9.
Definition LOG_MTT_PER_SEG : Z := 3.
Definition CMPT_TYPES : Z := 4.

(* [os/kernel/src/device/infiniband/mlx4/profile.rs:217-222] get_mgm_entry_size *)
Definition get_mgm_entry_size : Z := 2 ^ 10.

(** The size of an entry and the number of entries of a resource. *)
(* os/kernel/src/device/infiniband/mlx4/profile.rs: Profile::new *)
Definition entry_sz (caps : Capabilities) (t : ResourceType) : Z :=
  match t with
  | QP => qpc_entry_sz caps | RDMARC => rdmarc_entry_sz caps | ALTC => altc_entry_sz caps
  | AUXC => aux_entry_sz caps | SRQ => srq_entry_sz caps | CQ => cqc_entry_sz caps | EQ => eqc_entry_sz caps
  | DMPT => d_mpt_entry_sz caps | CMPT => c_mpt_entry_sz caps | MTT => mtt_entry_sz caps | MCG => get_mgm_entry_size
  end.

(* os/kernel/src/device/infiniband/mlx4/profile.rs: Profile::new *)
Definition default_num (t : ResourceType) : Z :=
  match t with
  | QP => DEFAULT_NUM_QP | RDMARC => DEFAULT_NUM_QP * DEFAULT_RDMARC_PER_QP | ALTC => DEFAULT_NUM_QP
  | AUXC => DEFAULT_NUM_QP | SRQ => DEFAULT_NUM_SRQ | CQ => DEFAULT_NUM_CQ | EQ => MAX_NUM_EQS
  | DMPT => DEFAULT_NUM_MPT | CMPT => Z.shiftl CMPT_TYPES 24 | MTT => DEFAULT_NUM_MTT * 2 ^ LOG_MTT_PER_SEG
  | MCG => DEFAULT_NUM_MCG
  end.

(** [checked_next_power_of_two] of a positive number. *)
Definition next_power_of_two (n : Z) : Z := 2 ^ Z.log2_up n.

(* os/kernel/src/device/infiniband/mlx4/profile.rs: Profile::new *)
Definition size_resource (caps : Capabilities) (t : ResourceType) : outcome Resource :=
  let num := next_power_of_two (default_num t) in
  size ← mul64 (entry_sz caps t) num;
  Ret (mkResource (if size <? PAGE_SIZE then PAGE_SIZE else size) 0 t num).

Fixpoint size_resources (caps : Capabilities) (ts : list ResourceType) : outcome (list Resource) :=
  match ts with
  | [] => Ret []
  | t :: ts' => r ← size_resource caps t; rs ← size_resources caps ts'; Ret (r :: rs)
  end.

(** Regions one behind the other. *)
(* os/kernel/src/device/infiniband/mlx4/profile.rs: Profile::new *)
Fixpoint place (max total : Z) (rs : list Resource) : outcome (result string (list Resource * Z)) :=
  match rs with
  | [] => Ret (Ok ([], total))
  | r :: rs' =>
      total' ← add64 total (res_size r);
      if max <? total' then Ret (Err "total size > maximum ICM size")
      else
        rest ← place max total' rs';
        Ret (match rest with
             | Ok (ps, t) => Ok (mkResource (res_size r) total (res_typ r) (res_num r) :: ps, t)
             | Err e => Err e
             end)
  end.

(* [os/kernel/src/device/infiniband/mlx4/profile.rs:63-76] Profile *)
Record Profile := {
  num_mpts : Z; num_mgms : Z; num_amgms : Z; num_mtts : Z; max_qp_dest_rdma : Z; rdmarc_shift : Z;
  init_hca : InitHcaParameters; total_size : Z
}.

(** [while DEFAULT_NUM_QP << rdmarc_shift < profile.num]: the largest destination count, the
    shift and the parameters. *)
(* os/kernel/src/device/infiniband/mlx4/profile.rs: Profile::new *)
Fixpoint rdmarc_loop (fuel : nat) (r : Resource) (dest shift : Z) (h : InitHcaParameters) : outcome (Z * Z * InitHcaParameters) :=
  match fuel with
  | O => Panic "out of fuel"
  | S fuel' =>
      if Z.shiftl DEFAULT_NUM_QP shift <? res_num r then
        h ← set_qpc_rdmarc_base (res_start r) h;
        h ← set_qpc_log_rd shift h;
        rdmarc_loop fuel' r (2 ^ shift) (shift + 1) h
      else Ret (dest, shift, h)
  end.

Definition with_hca (h : InitHcaParameters) (p : Profile) : Profile :=
  {| num_mpts := num_mpts p; num_mgms := num_mgms p; num_amgms := num_amgms p; num_mtts := num_mtts p;
     max_qp_dest_rdma := max_qp_dest_rdma p; rdmarc_shift := rdmarc_shift p; init_hca := h; total_size := total_size p |}.

(** What the placed regions say to the adapter. *)
(* os/kernel/src/device/infiniband/mlx4/profile.rs: Profile::new *)
Definition enter_resource (r : Resource) (p : Profile) : outcome Profile :=
  let h := init_hca p in
  let s := res_start r in
  match res_typ r with
  | CMPT => Ret (with_hca (set_field CMPT_BASE s h) p)
  | CQ => h ← set_base CQC_BASE_NUM s h; h ← set_log_num CQC_BASE_NUM (lognum r) h; Ret (with_hca h p)
  | SRQ => h ← set_base SRQC_BASE_NUM s h; h ← set_log_num SRQC_BASE_NUM (lognum r) h; Ret (with_hca h p)
  | QP => h ← set_base QPC_BASE_NUM s h; h ← set_log_num QPC_BASE_NUM (lognum r) h; Ret (with_hca h p)
  | ALTC => Ret (with_hca (set_field ALTC_BASE s h) p)
  | AUXC => Ret (with_hca (set_field AUXC_BASE s h) p)
  | MTT =>
      Ret {| num_mpts := num_mpts p; num_mgms := num_mgms p; num_amgms := num_amgms p; num_mtts := res_num r;
             max_qp_dest_rdma := max_qp_dest_rdma p; rdmarc_shift := rdmarc_shift p;
             init_hca := set_field MTT_BASE s h; total_size := total_size p |}
  | EQ => h ← set_base EQC_BASE_NUM s h; h ← set_log_num EQC_BASE_NUM (Z.log2 MAX_NUM_EQS) h; Ret (with_hca h p)
  | RDMARC =>
      '(dest, shift, h) ← rdmarc_loop 64 r (max_qp_dest_rdma p) (rdmarc_shift p) h;
      Ret {| num_mpts := num_mpts p; num_mgms := num_mgms p; num_amgms := num_amgms p; num_mtts := num_mtts p;
             max_qp_dest_rdma := dest; rdmarc_shift := shift; init_hca := h; total_size := total_size p |}
  | DMPT =>
      l ← bits 6 (lognum r);
      Ret {| num_mpts := res_num r; num_mgms := num_mgms p; num_amgms := num_amgms p; num_mtts := num_mtts p;
             max_qp_dest_rdma := max_qp_dest_rdma p; rdmarc_shift := rdmarc_shift p;
             init_hca := set_field LOG_DMPT_SZ l (set_field DMPT_BASE s h); total_size := total_size p |}
  | MCG =>
      e ← bits 5 (Z.log2 get_mgm_entry_size);
      t ← bits 5 (lognum r);
      s' ← bits 5 (lognum r - 1);
      Ret {| num_mpts := num_mpts p; num_mgms := Z.shiftr (res_num r) 1; num_amgms := Z.shiftr (res_num r) 1;
             num_mtts := num_mtts p; max_qp_dest_rdma := max_qp_dest_rdma p; rdmarc_shift := rdmarc_shift p;
             init_hca := set_field MC_LOG_HASH_SZ s' (set_field MC_LOG_TABLE_SZ t
               (set_field MC_LOG_ENTRY_SZ e (set_field MC_BASE s h)));
             total_size := total_size p |}
  end.

Fixpoint enter_resources (rs : list Resource) (p : Profile) : outcome Profile :=
  match rs with
  | [] => Ret p
  | r :: rs' => p ← enter_resource r p; enter_resources rs' p
  end.

Definition profile_empty (total : Z) : Profile :=
  {| num_mpts := 0; num_mgms := 0; num_amgms := 0; num_mtts := 0; max_qp_dest_rdma := 0; rdmarc_shift := 0;
     init_hca := init_hca_new; total_size := total |}.

(** [sort_by_size] is [sort_unstable_by_key] of the standard library, on the size. *)
(* [os/kernel/src/device/infiniband/mlx4/profile.rs:80-214] Profile::new *)
Definition profile_new (sort_by_size : list Resource -> list Resource) (caps : Capabilities) : outcome (result string Profile) :=
  rs ← size_resources caps all_types;
  placed ← place (max_icm_sz caps) 0 (reverse (sort_by_size rs));
  match placed with
  | Err e => Ret (Err e)
  | Ok (ps, total) => p ← enter_resources ps (profile_empty total); Ret (Ok p)
  end.

(** * The layout of the adapter's memory is sound

    The regions of the layout are aligned to their sizes, disjoint and within the memory the
    adapter has; the parameters of the initialisation say where they are. *)

(** ** Packed fields *)

Lemma land_low_base x : Z.land (Z.land x 0x1f) BASE_MASK = 0.
Proof. by rewrite <- Z.land_assoc, Z.land_0_r. Qed.

Lemma land_base_low x : Z.land (Z.land x BASE_MASK) 0x1f = 0.
Proof. by rewrite <- Z.land_assoc, Z.land_0_r. Qed.

Lemma land_base_idem x : Z.land (Z.land x BASE_MASK) BASE_MASK = Z.land x BASE_MASK.
Proof. by rewrite <- Z.land_assoc, Z.land_diag. Qed.

(** Multiples of 32 are bases. *)
Lemma land_base_aligned s : 0 <= s < 2 ^ 64 -> (32 | s) -> Z.land s BASE_MASK = s.
Proof.
  intros Hs [q ->]. replace BASE_MASK with (Z.shiftl (Z.ones 59) 5) by reflexivity.
  replace (q * 32) with (Z.shiftl q 5) by (rewrite Z.shiftl_mul_pow2 by lia; lia).
  rewrite <- Z.shiftl_land, Z.land_ones, Z.mod_small by lia. done.
Qed.

Lemma set_field_eq f v h : set_field f v h f = v.
Proof. unfold set_field. by rewrite decide_True. Qed.

Lemma set_field_ne f g v h : g <> f -> set_field f v h g = h g.
Proof. intros N. unfold set_field. by rewrite decide_False. Qed.

(** A base and a number set in one field are both read back. *)
Lemma set_base_num f s l h : 0 <= s < 2 ^ 64 -> (32 | s) -> 0 <= l < 32 ->
  exists h', (h ← set_base f s h; set_log_num f l h) = Ret h' /\ base_of f h' = s /\ num_of f h' = 2 ^ l /\
    forall g, g <> f -> h' g = h g.
Proof.
  intros Hs Ha Hl. unfold set_base, set_log_num. rewrite (land_base_aligned s Hs Ha), Z.eqb_refl.
  assert (Hl' : Z.land l 0x1f = l) by (change 0x1f with (Z.ones 5); rewrite Z.land_ones by lia; apply Z.mod_small; lia).
  cbn [rust_assert mbind outcome_bind]. rewrite Hl', Z.eqb_refl. cbn [rust_assert mbind outcome_bind].
  eexists. split; [reflexivity|]. unfold base_of, num_of. rewrite !set_field_eq.
  assert (Hm : Z.land l BASE_MASK = 0) by (rewrite <- Hl'; apply land_low_base).
  rewrite !Z.land_lor_distr_l, !land_base_idem, land_low_base, (land_base_aligned s Hs Ha), Hm, Z.lor_0_r, Z.lor_0_l.
  split; [done|]. split.
  - rewrite <- (land_base_aligned s Hs Ha) at 1. by rewrite land_base_low, Hl'.
  - intros g N. by rewrite !set_field_ne by done.
Qed.

(** ** What the parameters say *)

Definition type_field (t : ResourceType) : HcaField :=
  match t with
  | QP => QPC_BASE_NUM | RDMARC => RDMARC_BASE_NUM | ALTC => ALTC_BASE | AUXC => AUXC_BASE | SRQ => SRQC_BASE_NUM
  | CQ => CQC_BASE_NUM | EQ => EQC_BASE_NUM | DMPT => DMPT_BASE | CMPT => CMPT_BASE | MTT => MTT_BASE | MCG => MC_BASE
  end.

(** Where the adapter is told that the region of a resource starts. *)
Definition hca_base (h : InitHcaParameters) (t : ResourceType) : Z :=
  match t with
  | QP | SRQ | CQ | EQ | RDMARC => base_of (type_field t) h
  | _ => h (type_field t)
  end.

(** How many queues the adapter is told there are. *)
Definition hca_num (h : InitHcaParameters) (t : ResourceType) : Z := num_of (type_field t) h.

Definition counted (t : ResourceType) : bool := match t with QP | SRQ | CQ | EQ => true | _ => false end.

(** The bytes of a region. *)
Definition region_size (caps : Capabilities) (t : ResourceType) : Z := Z.max PAGE_SIZE (entry_sz caps t * default_num t).

Definition caps_sizes (caps : Capabilities) : Prop := forall t, 0 <= entry_sz caps t < 2 ^ 16.
Definition pow2_sizes (caps : Capabilities) : Prop := forall t, exists k, 0 <= k /\ entry_sz caps t = 2 ^ k.

Lemma next_default t : next_power_of_two (default_num t) = default_num t.
Proof. by destruct t. Qed.

Lemma default_num_bounds t : 2 ^ 9 <= default_num t <= 2 ^ 26.
Proof. destruct t; vm_compute; split; discriminate. Qed.

Lemma default_num_pow2 t : exists k, 9 <= k /\ default_num t = 2 ^ k.
Proof. exists (Z.log2 (default_num t)). destruct t; split; (reflexivity || (vm_compute; discriminate)). Qed.

Definition sized (caps : Capabilities) (t : ResourceType) : Resource := mkResource (region_size caps t) 0 t (default_num t).

Lemma size_resource_ok caps t : caps_sizes caps -> size_resource caps t = Ret (sized caps t).
Proof.
  intros Hc. specialize (Hc t). pose proof (default_num_bounds t). unfold size_resource, mul64, checked_mul, sized, region_size.
  rewrite next_default. destruct (Z.leb_spec (entry_sz caps t * default_num t) U64_MAX) as [_|Hgt]; [|unfold U64_MAX in Hgt; nia].
  cbn [expect mbind outcome_bind]. do 2 f_equal. case_test; lia.
Qed.

Lemma size_resources_ok caps ts : caps_sizes caps -> size_resources caps ts = Ret (sized caps <$> ts).
Proof. intros Hc. induction ts as [|t ts IH]; [done|]. cbn [size_resources]. by rewrite size_resource_ok, IH. Qed.

Lemma region_size_bounds caps t : caps_sizes caps -> PAGE_SIZE <= region_size caps t <= 2 ^ 42.
Proof.
  intros Hc. specialize (Hc t). pose proof (default_num_bounds t). unfold region_size, PAGE_SIZE. split; [lia|].
  apply Z.max_lub; [lia|]. nia.
Qed.

Lemma region_size_pow2 caps t : pow2_sizes caps -> exists k, 12 <= k /\ region_size caps t = 2 ^ k.
Proof.
  intros Hp. destruct (Hp t) as (k' & Hk' & Ek). destruct (default_num_pow2 t) as (j & Hj & Ej).
  unfold region_size, PAGE_SIZE. rewrite Ek, Ej, <- Z.pow_add_r by lia. change 4096 with (2 ^ 12).
  destruct (Z.le_gt_cases 12 (k' + j)).
  - exists (k' + j). split; [done|]. apply Z.max_r, Z.pow_le_mono_r; lia.
  - exists 12. split; [lia|]. apply Z.max_l, Z.pow_le_mono_r; lia.
Qed.

(** ** Placing *)

Fixpoint layout (total : Z) (rs : list Resource) : list Resource :=
  match rs with
  | [] => []
  | r :: rs' => mkResource (res_size r) total (res_typ r) (res_num r) :: layout (total + res_size r) rs'
  end.

Definition total_of (rs : list Resource) : Z := foldr (fun r n => res_size r + n) 0 rs.

Lemma total_of_perm rs rs' : rs ≡ₚ rs' -> total_of rs = total_of rs'.
Proof. unfold total_of. induction 1; simpl; lia. Qed.

Lemma total_of_nonneg rs : Forall (fun r => 0 <= res_size r) rs -> 0 <= total_of rs.
Proof. unfold total_of. induction 1; simpl; lia. Qed.

Lemma place_ok max rs total : Forall (fun r => 0 <= res_size r) rs -> total + total_of rs <= U64_MAX -> total <= max ->
  place max total rs = Ret (if max <? total + total_of rs then Err "total size > maximum ICM size"
                            else Ok (layout total rs, total + total_of rs)).
Proof.
  intros Hp. revert total. induction Hp as [|r rs Hr Hp IH]; intros total Hb Hm.
  - change (total_of []) with 0. rewrite Z.add_0_r. destruct (Z.ltb_spec max total); [lia|done].
  - pose proof (total_of_nonneg rs Hp) as Hn. change (total_of (r :: rs)) with (res_size r + total_of rs) in *.
    cbn [place layout]. unfold add64, checked_add. destruct (Z.leb_spec (total + res_size r) U64_MAX); [|lia].
    cbn [expect mbind outcome_bind]. rewrite Z.add_assoc. destruct (Z.ltb_spec max (total + res_size r)).
    + destruct (Z.ltb_spec max (total + res_size r + total_of rs)); [done|lia].
    + rewrite (IH (total + res_size r)) by lia. cbn [mbind outcome_bind]. by destruct (max <? total + res_size r + total_of rs).
Qed.

Lemma layout_typ total rs : res_typ <$> layout total rs = res_typ <$> rs.
Proof. revert total. induction rs as [|r rs IH]; intros total; [done|]. simpl. by rewrite IH. Qed.

Lemma layout_elem total rs p : p ∈ layout total rs -> exists r, r ∈ rs /\ res_size p = res_size r /\ res_typ p = res_typ r /\ res_num p = res_num r.
Proof.
  revert total. induction rs as [|r rs IH]; intros total; simpl; [by intros ?%elem_of_nil|]. intros [->|H]%elem_of_cons.
  - exists r. split; [left|done].
  - destruct (IH _ H) as (r' & ? & ?). exists r'. split; [by right|done].
Qed.

Lemma layout_bounds total rs : Forall (fun r => 0 <= res_size r) rs ->
  Forall (fun p => total <= res_start p /\ res_start p + res_size p <= total + total_of rs) (layout total rs).
Proof.
  intros Hp. revert total. induction Hp as [|r rs Hr Hp IH]; intros total; constructor; pose proof (total_of_nonneg rs Hp);
    change (total_of (r :: rs)) with (res_size r + total_of rs).
  - simpl. lia.
  - eapply Forall_impl; [apply IH|]. intros p. cbn beta. lia.
Qed.

Definition apart (p q : Resource) : Prop := res_start p + res_size p <= res_start q \/ res_start q + res_size q <= res_start p.

Lemma layout_apart total rs : Forall (fun r => 0 <= res_size r) rs -> StronglySorted apart (layout total rs).
Proof.
  intros Hp. revert total. induction Hp as [|r rs Hr Hp IH]; intros total; simpl; constructor; [apply IH|].
  eapply Forall_impl; [apply layout_bounds, Hp|]. intros p. unfold apart. simpl. lia.
Qed.

(** In descending order of powers of two, every region is aligned to its size. *)
Lemma layout_aligned total rs :
  StronglySorted (fun r s => res_size s <= res_size r) rs -> Forall (fun r => exists k, 0 <= k /\ res_size r = 2 ^ k) rs ->
  Forall (fun r => (res_size r | total)) rs -> Forall (fun p => (res_size p | res_start p)) (layout total rs).
Proof.
  intros Hs. revert total. induction Hs as [|r rs Hs IH Hle]; intros total Hp Hd; simpl; [constructor|].
  inversion Hp as [|? ? (k & Hk & Ek) Hp']; subst. inversion Hd; subst. constructor; [done|]. apply IH; [done|].
  rewrite Forall_forall in *. intros s Hs'. apply Z.divide_add_r; [auto|]. destruct (Hp' s Hs') as (j & Hj & Ej).
  specialize (Hle s Hs'). simpl in Hle. rewrite Ek, Ej in *. exists (2 ^ (k - j)). rewrite <- Z.pow_add_r; [f_equal; lia|..|lia].
  destruct (Z.le_gt_cases j k); [lia|]. pose proof (Z.pow_lt_mono_r 2 k j). lia.
Qed.

(** ** Entering *)

Lemma hca_base_other h h' t u :
  (forall g, g <> type_field u -> (u = DMPT -> g <> LOG_DMPT_SZ) -> (u = MCG -> g <> MC_LOG_HASH_SZ /\ g <> MC_LOG_TABLE_SZ /\ g <> MC_LOG_ENTRY_SZ) -> h' g = h g) ->
  t <> u -> hca_base h' t = hca_base h t /\ hca_num h' t = hca_num h t.
Proof.
  intros Ho N. assert (E : h' (type_field t) = h (type_field t)).
  { apply Ho; [by destruct t, u|..]; intros ->; by destruct t. }
  unfold hca_base, hca_num, base_of, num_of. rewrite E. by destruct t.
Qed.

Lemma rdmarc_entered r p : res_typ r = RDMARC -> res_num r = default_num RDMARC -> 0 <= res_start r < 2 ^ 64 -> (32 | res_start r) ->
  rdmarc_shift p = 0 ->
  exists h, rdmarc_loop 64 r (max_qp_dest_rdma p) (rdmarc_shift p) (init_hca p) = Ret (8, 4, h) /\
    base_of RDMARC_BASE_NUM h = res_start r /\ Z.land (h RDMARC_BASE_NUM) 0x7 = 3 /\
    forall g, g <> RDMARC_BASE_NUM -> h g = init_hca p g.
Proof.
  intros _ Hn Hs Ha Hz. rewrite Hz.
  assert (St : forall h shift, 0 <= shift < 8 -> exists h', (h ← set_qpc_rdmarc_base (res_start r) h; set_qpc_log_rd shift h) = Ret h' /\
    base_of RDMARC_BASE_NUM h' = res_start r /\ Z.land (h' RDMARC_BASE_NUM) 0x7 = shift /\ forall g, g <> RDMARC_BASE_NUM -> h' g = h g).
  { intros h shift Hsh. unfold set_qpc_rdmarc_base, set_qpc_log_rd. rewrite (land_base_aligned _ Hs Ha), Z.eqb_refl.
    assert (Hl : Z.land shift 0x7 = shift) by (change 0x7 with (Z.ones 3); rewrite Z.land_ones by lia; apply Z.mod_small; lia).
    cbn [rust_assert mbind outcome_bind]. rewrite Hl, Z.eqb_refl. cbn [rust_assert mbind outcome_bind].
    eexists. split; [reflexivity|]. unfold base_of. rewrite !set_field_eq.
    assert (Hm : Z.land shift BASE_MASK = 0) by (rewrite <- Hl, <- Z.land_assoc; apply Z.land_0_r).
    rewrite !Z.land_lor_distr_l, !land_base_idem, (land_base_aligned _ Hs Ha), Hm, Hl, Z.lor_0_r, <- Z.land_assoc.
    change (Z.land 7 BASE_MASK) with 0. rewrite Z.land_0_r, Z.lor_0_l. split; [done|]. split.
    - rewrite <- (land_base_aligned _ Hs Ha) at 1. rewrite <- Z.land_assoc. change (Z.land BASE_MASK 7) with 0. by rewrite Z.land_0_r.
    - intros g N. by rewrite !set_field_ne by done. }
  destruct (St (init_hca p) 0 ltac:(lia)) as (h0 & E0 & _ & _ & O0). destruct (St h0 1 ltac:(lia)) as (h1 & E1 & _ & _ & O1).
  destruct (St h1 2 ltac:(lia)) as (h2 & E2 & _ & _ & O2). destruct (St h2 3 ltac:(lia)) as (h3 & E3 & B3 & L3 & O3).
  assert (Turn : forall fuel d sh h h', (sh < 4)%Z -> 0 <= sh -> (h ← set_qpc_rdmarc_base (res_start r) h; set_qpc_log_rd sh h) = Ret h' ->
    rdmarc_loop (S fuel) r d sh h = rdmarc_loop fuel r (2 ^ sh) (sh + 1) h').
  { intros fuel d sh h h' H1 H2 E. cbn [rdmarc_loop]. rewrite Hn. unfold DEFAULT_NUM_QP at 1.
    destruct (Z.ltb_spec (Z.shiftl (2 ^ 17) sh) (default_num RDMARC)) as [_|Hg].
    - destruct (set_qpc_rdmarc_base (res_start r) h); [|done]. cbn [mbind outcome_bind] in *. by rewrite E.
    - rewrite Z.shiftl_mul_pow2 in Hg by lia. change (default_num RDMARC) with (2 ^ 17 * 2 ^ 4) in Hg.
      pose proof (Z.pow_lt_mono_r 2 sh 4). nia. }
  exists h3. rewrite (Turn _ _ 0 _ h0), (Turn _ _ 1 _ h1), (Turn _ _ 2 _ h2), (Turn _ _ 3 _ h3) by (done || lia).
  split; [|split; [done|split; [done|]]].
  - change (3 + 1) with 4. cbn [rdmarc_loop]. rewrite Hn. reflexivity.
  - intros g N. by rewrite O3, O2, O1, O0.
Qed.

(** The other parameters stay, the shift of the RDMARC table is its own. *)
Record entered (r : Resource) (p p' : Profile) : Prop := {
  en_total : total_size p' = total_size p;
  en_base : hca_base (init_hca p') (res_typ r) = res_start r;
  en_num : counted (res_typ r) = true -> hca_num (init_hca p') (res_typ r) = res_num r;
  en_shift : rdmarc_shift p' = if decide (res_typ r = RDMARC) then 4 else rdmarc_shift p;
  en_rd : Z.land (init_hca p' RDMARC_BASE_NUM) 0x7 =
    if decide (res_typ r = RDMARC) then 3 else Z.land (init_hca p RDMARC_BASE_NUM) 0x7;
  en_other : forall t, t <> res_typ r -> hca_base (init_hca p') t = hca_base (init_hca p) t /\
    hca_num (init_hca p') t = hca_num (init_hca p) t
}.

Lemma counted_entered f r p : type_field (res_typ r) = f -> counted (res_typ r) = true -> res_typ r <> RDMARC ->
  0 <= res_start r < 2 ^ 64 -> (32 | res_start r) -> res_num r = default_num (res_typ r) ->
  exists h, (h ← set_base f (res_start r) (init_hca p); set_log_num f (lognum r) h) = Ret h /\ entered r p (with_hca h p).
Proof.
  intros Hf Hc Hr Hs Ha Hn. assert (Hl : 0 <= lognum r < 32 /\ 2 ^ lognum r = res_num r).
  { unfold lognum. rewrite Hn. by destruct (res_typ r). }
  destruct (set_base_num f (res_start r) (lognum r) (init_hca p) Hs Ha (proj1 Hl)) as (h & E & B & N & O).
  exists h. split; [exact E|]. split; simpl; try done.
  - subst f. by destruct (res_typ r).
  - intros _. unfold hca_num. rewrite Hf, N. apply Hl.
  - by rewrite decide_False.
  - rewrite decide_False by done. rewrite O; [done|]. subst f. by destruct (res_typ r).
  - intros t Ht. apply (hca_base_other _ _ t (res_typ r)); [|done]. intros g G _ _. apply O. by rewrite <- Hf.
Qed.

Lemma enter_ok r p : 0 <= res_start r < 2 ^ 64 -> (32 | res_start r) -> res_num r = default_num (res_typ r) ->
  (res_typ r = RDMARC -> rdmarc_shift p = 0) ->
  exists p', enter_resource r p = Ret p' /\ entered r p p'.
Proof.
  intros Hs Ha Hn Hz.
  assert (Cnt : forall f, type_field (res_typ r) = f -> counted (res_typ r) = true -> res_typ r <> RDMARC ->
    exists p', (h ← set_base f (res_start r) (init_hca p); h ← set_log_num f (lognum r) h; Ret (with_hca h p)) = Ret p' /\ entered r p p').
  { intros f Hf Hc Hr. destruct (counted_entered f r p Hf Hc Hr Hs Ha Hn) as (h & E & En). exists (with_hca h p). split; [|done].
    destruct (set_base f (res_start r) (init_hca p)); [|done]. cbn [mbind outcome_bind] in *. by rewrite E. }
  unfold enter_resource. destruct (res_typ r) eqn:Et; try (apply Cnt; done).
  - destruct (rdmarc_entered r p Et Hn Hs Ha (Hz eq_refl)) as (h & -> & B & L & O). eexists. split; [reflexivity|].
    split; simpl; rewrite ?Et; try done. intros t Ht. apply (hca_base_other _ _ t RDMARC); [|done]. intros g G _ _. by apply O.
  - eexists. split; [reflexivity|]. split; simpl; rewrite ?Et; try done. intros t Ht.
    apply (hca_base_other _ _ t ALTC); [|done]. intros g G _ _. by apply set_field_ne.
  - eexists. split; [reflexivity|]. split; simpl; rewrite ?Et; try done. intros t Ht.
    apply (hca_base_other _ _ t AUXC); [|done]. intros g G _ _. by apply set_field_ne.
  - unfold lognum in Cnt. rewrite Hn in Cnt. by apply Cnt.
  - unfold lognum. rewrite Hn. cbn -[set_field]. eexists. split; [reflexivity|]. split; simpl; rewrite ?Et; try done. intros t Ht.
    apply (hca_base_other _ _ t DMPT); [|done]. intros g G Gl _. rewrite !set_field_ne; auto.
  - eexists. split; [reflexivity|]. split; simpl; rewrite ?Et; try done. intros t Ht.
    apply (hca_base_other _ _ t CMPT); [|done]. intros g G _ _. by apply set_field_ne.
  - eexists. split; [reflexivity|]. split; simpl; rewrite ?Et; try done. intros t Ht.
    apply (hca_base_other _ _ t MTT); [|done]. intros g G _ _. by apply set_field_ne.
  - unfold lognum. rewrite Hn. cbn -[set_field]. eexists. split; [reflexivity|]. split; simpl; rewrite ?Et; try done. intros t Ht.
    apply (hca_base_other _ _ t MCG); [|done]. intros g G _ Gm. destruct (Gm eq_refl) as (? & ? & ?). by rewrite !set_field_ne.
Qed.

Definition enterable (r : Resource) : Prop :=
  0 <= res_start r < 2 ^ 64 /\ (32 | res_start r) /\ res_num r = default_num (res_typ r).

Lemma enter_all rs p : NoDup (res_typ <$> rs) -> Forall enterable rs -> (RDMARC ∈ res_typ <$> rs -> rdmarc_shift p = 0) ->
  exists p', enter_resources rs p = Ret p' /\ total_size p' = total_size p /\
    (forall r, r ∈ rs -> hca_base (init_hca p') (res_typ r) = res_start r /\
      (counted (res_typ r) = true -> hca_num (init_hca p') (res_typ r) = res_num r)) /\
    (forall t, t ∉ res_typ <$> rs -> hca_base (init_hca p') t = hca_base (init_hca p) t /\ hca_num (init_hca p') t = hca_num (init_hca p) t) /\
    (if decide (RDMARC ∈ res_typ <$> rs) then rdmarc_shift p' = 4 /\ Z.land (init_hca p' RDMARC_BASE_NUM) 0x7 = 3
     else rdmarc_shift p' = rdmarc_shift p /\ Z.land (init_hca p' RDMARC_BASE_NUM) 0x7 = Z.land (init_hca p RDMARC_BASE_NUM) 0x7).
Proof.
  revert p. induction rs as [|r rs IH]; intros p Nd Fe Hz.
  { exists p. rewrite decide_False by (by intros ?%elem_of_nil). split; [done|]. split; [done|]. split; [by intros ? ?%elem_of_nil|]. by split. }
  rewrite fmap_cons in Nd, Hz. inversion Nd as [|? ? Ni Nd']; subst. inversion Fe as [|? ? (H1 & H2 & H3) Fe']; subst.
  destruct (enter_ok r p H1 H2 H3) as (p1 & E1 & [T1 B1 N1 S1 R1 O1]).
  { intros E. apply Hz. rewrite E. left. }
  destruct (IH p1 Nd' Fe') as (p' & E' & T' & In' & Out' & Rd').
  { intros Hin. rewrite S1. rewrite decide_False; [apply Hz; by right|]. intros E. by rewrite E in Ni. }
  exists p'. cbn [enter_resources]. rewrite E1. cbn [mbind outcome_bind]. split; [exact E'|]. split; [congruence|]. split; [|split].
  - intros r' [->|Hin]%elem_of_cons; [|by apply In']. destruct (Out' _ Ni) as [-> ->]. by split.
  - rewrite fmap_cons. intros t Ht. apply not_elem_of_cons in Ht as [Ht Ht']. destruct (Out' t Ht') as [-> ->]. by apply O1.
  - rewrite fmap_cons. destruct (decide (RDMARC ∈ res_typ <$> rs)) as [Hin|Hni].
    + rewrite decide_True by (by right). exact Rd'.
    + destruct Rd' as [-> ->]. rewrite S1, R1. destruct (decide (res_typ r = RDMARC)) as [E|N].
      * rewrite decide_True by (rewrite E; left). done.
      * rewrite decide_False; [done|]. intros [?|?]%elem_of_cons; congruence.
Qed.

(** ** The profile *)

Section profile.
Context (sort_by_size : list Resource -> list Resource).
Context (sort_perm : forall l, sort_by_size l ≡ₚ l).
Context (sort_sorted : forall l, StronglySorted (fun r s => res_size r <= res_size s) (sort_by_size l)).

Definition sorted_resources (caps : Capabilities) : list Resource := reverse (sort_by_size (sized caps <$> all_types)).

Lemma sorted_perm caps : sorted_resources caps ≡ₚ sized caps <$> all_types.
Proof. unfold sorted_resources. by rewrite reverse_Permutation, sort_perm. Qed.

Lemma StronglySorted_snoc {A} (R : A -> A -> Prop) l x : StronglySorted R l -> Forall (fun y => R y x) l -> StronglySorted R (l ++ [x]).
Proof.
  induction 1 as [|y l Hs IH Hy]; intros Hx; simpl; [by repeat constructor|]. inversion Hx; subst.
  constructor; [auto|]. apply Forall_app. split; [done|by constructor].
Qed.

Lemma StronglySorted_reverse {A} (R : A -> A -> Prop) l : StronglySorted R l -> StronglySorted (fun x y => R y x) (reverse l).
Proof.
  induction 1 as [|y l Hs IH Hy]; [constructor|]. rewrite reverse_cons. apply StronglySorted_snoc; [done|].
  apply Forall_reverse. eapply Forall_impl; [apply Hy|done].
Qed.

Lemma sorted_descending caps : StronglySorted (fun r s => res_size s <= res_size r) (sorted_resources caps).
Proof. apply StronglySorted_reverse, sort_sorted. Qed.

Definition icm_size (caps : Capabilities) : Z := foldr (fun t n => region_size caps t + n) 0 all_types.

Lemma icm_size_bounds caps : caps_sizes caps -> 0 <= icm_size caps <= 2 ^ 46.
Proof.
  intros Hc. pose proof (region_size_bounds caps) as Hb. unfold PAGE_SIZE in Hb. unfold icm_size, all_types. simpl.
  pose proof (Hb QP Hc). pose proof (Hb RDMARC Hc). pose proof (Hb ALTC Hc). pose proof (Hb AUXC Hc). pose proof (Hb SRQ Hc). pose proof (Hb CQ Hc).
  pose proof (Hb EQ Hc). pose proof (Hb DMPT Hc). pose proof (Hb CMPT Hc). pose proof (Hb MTT Hc). pose proof (Hb MCG Hc). lia.
Qed.

Lemma total_sorted caps : total_of (sorted_resources caps) = icm_size caps.
Proof. rewrite (total_of_perm _ _ (sorted_perm caps)). reflexivity. Qed.

Lemma sorted_Forall caps (P : Resource -> Prop) : (forall t, P (sized caps t)) -> Forall P (sorted_resources caps).
Proof. intros HP. rewrite (sorted_perm caps). apply Forall_fmap, Forall_true. exact HP. Qed.

Lemma sorted_types caps : res_typ <$> sorted_resources caps ≡ₚ all_types.
Proof. rewrite (sorted_perm caps). reflexivity. Qed.

Lemma all_types_complete t : t ∈ all_types.
Proof. destruct t; unfold all_types; set_solver. Qed.

(** What the profile promises of the memory of the adapter. *)
Record profile_ok (caps : Capabilities) (p : Profile) : Prop := {
  po_total : total_size p = icm_size caps /\ total_size p <= max_icm_sz caps;
  po_inside : forall t, 0 <= hca_base (init_hca p) t /\ hca_base (init_hca p) t + region_size caps t <= total_size p;
  po_aligned : forall t, (region_size caps t | hca_base (init_hca p) t);
  po_disjoint : forall t u, t <> u ->
    hca_base (init_hca p) t + region_size caps t <= hca_base (init_hca p) u \/
    hca_base (init_hca p) u + region_size caps u <= hca_base (init_hca p) t;
  po_numbers : forall t, counted t = true -> hca_num (init_hca p) t = default_num t
}.

Lemma layout_sized caps q : q ∈ layout 0 (sorted_resources caps) -> res_size q = region_size caps (res_typ q) /\ res_num q = default_num (res_typ q).
Proof.
  intros Hq. destruct (layout_elem _ _ _ Hq) as (r & Hr & -> & -> & ->). rewrite (sorted_perm caps) in Hr.
  apply list_elem_of_fmap in Hr as (t & -> & _). done.
Qed.

Lemma profile_spec caps : caps_sizes caps -> pow2_sizes caps -> 0 <= max_icm_sz caps ->
  profile_new sort_by_size caps =
    if max_icm_sz caps <? icm_size caps then Ret (Err "total size > maximum ICM size")
    else p ← enter_resources (layout 0 (sorted_resources caps)) (profile_empty (icm_size caps)); Ret (Ok p).
Proof.
  intros Hc Hp Hm. unfold profile_new. rewrite size_resources_ok by done. cbn [mbind outcome_bind].
  fold (sorted_resources caps). pose proof (region_size_bounds caps) as Hb.
  rewrite place_ok; [|apply sorted_Forall; intros t; specialize (Hb t Hc); unfold PAGE_SIZE in Hb; simpl; lia| |done].
  - rewrite total_sorted. cbn [mbind outcome_bind]. change (0 + icm_size caps) with (icm_size caps). by destruct (max_icm_sz caps <? icm_size caps).
  - rewrite total_sorted. pose proof (icm_size_bounds caps Hc). unfold U64_MAX. lia.
Qed.

Lemma StronglySorted_sym {A} (R : A -> A -> Prop) l x y : (forall a b, R a b -> R b a) -> StronglySorted R l ->
  x ∈ l -> y ∈ l -> x <> y -> R x y.
Proof.
  intros Sy. induction 1 as [|z l Hs IH Hz]; [by intros ?%elem_of_nil|]. rewrite Forall_forall in Hz.
  intros [->|Hx]%elem_of_cons [->|Hy]%elem_of_cons N; try done; auto.
Qed.

Lemma layout_facts caps : caps_sizes caps -> pow2_sizes caps ->
  let ps := layout 0 (sorted_resources caps) in
  NoDup (res_typ <$> ps) /\ (forall t, exists q, q ∈ ps /\ res_typ q = t) /\ StronglySorted apart ps /\
  Forall (fun q => (res_size q | res_start q) /\ 0 <= res_start q /\ res_start q + res_size q <= icm_size caps) ps.
Proof.
  intros Hc Hp ps. pose proof (region_size_bounds caps) as Hb. unfold PAGE_SIZE in Hb.
  assert (Nn : Forall (fun r => 0 <= res_size r) (sorted_resources caps)) by (apply sorted_Forall; intros t; specialize (Hb t Hc); simpl; lia).
  assert (Ht : res_typ <$> ps ≡ₚ all_types) by (unfold ps; rewrite layout_typ; apply sorted_types).
  split; [rewrite Ht; unfold all_types; by apply (bool_decide_unpack _)|]. split; [|split; [by apply layout_apart|]].
  - intros t. pose proof (all_types_complete t) as Hin. rewrite <- Ht in Hin. apply list_elem_of_fmap in Hin as (q & -> & Hq). by exists q.
  - pose proof (layout_bounds 0 _ Nn) as Lb. rewrite total_sorted in Lb. fold ps in Lb.
    assert (La : Forall (fun q => (res_size q | res_start q)) ps).
    { apply layout_aligned; [apply sorted_descending|..]; apply sorted_Forall; intros t; [|apply Z.divide_0_r].
      destruct (region_size_pow2 caps t Hp) as (k & Hk & E). exists k. split; [lia|done]. }
    rewrite Forall_forall in *. intros q Hq. specialize (La q Hq). specialize (Lb q Hq). simpl in Lb. split; [done|lia].
Qed.

Lemma profile_correct caps : caps_sizes caps -> pow2_sizes caps -> icm_size caps <= max_icm_sz caps ->
  exists p, profile_new sort_by_size caps = Ret (Ok p) /\ profile_ok caps p /\
    rdmarc_shift p = 4 /\ Z.land (init_hca p RDMARC_BASE_NUM) 0x7 = 3.
Proof.
  intros Hc Hp Hm. destruct (layout_facts caps Hc Hp) as (Nd & Hall & Hap & Hf). set (ps := layout 0 (sorted_resources caps)) in *.
  pose proof (region_size_bounds caps) as Hb. unfold PAGE_SIZE in Hb.
  pose proof (icm_size_bounds caps Hc) as Hi.
  assert (Hsz : forall q, q ∈ ps -> res_size q = region_size caps (res_typ q) /\ res_num q = default_num (res_typ q)) by apply layout_sized.
  rewrite Forall_forall in Hf.
  assert (He : Forall enterable ps).
  { apply Forall_forall. intros q Hq. destruct (Hf q Hq) as (D & ? & ?). destruct (Hsz q Hq) as [Es En]. split; [pose proof (Hb (res_typ q) Hc); lia|]. split; [|done].
    destruct (region_size_pow2 caps (res_typ q) Hp) as (k & Hk & Ek). etransitivity; [|exact D]. rewrite Es, Ek. exists (2 ^ (k - 5)).
    change 32 with (2 ^ 5). rewrite <- Z.pow_add_r by lia. f_equal. lia. }
  destruct (enter_all ps (profile_empty (icm_size caps)) Nd He) as (p & E & T & In & _ & Rd); [done|]. exists p. split.
  { rewrite profile_spec by (done || lia). destruct (Z.ltb_spec (max_icm_sz caps) (icm_size caps)); [lia|]. fold ps. by rewrite E. }
  assert (Hbase : forall t, exists q, q ∈ ps /\ res_typ q = t /\ hca_base (init_hca p) t = res_start q /\ res_size q = region_size caps t).
  { intros t. destruct (Hall t) as (q & Hq & <-). exists q. split_and!; [done|done|by apply In|by apply Hsz]. }
  split.
  - split.
    + rewrite T. split; [done|exact Hm].
    + intros t. destruct (Hbase t) as (q & Hq & _ & -> & <-). rewrite T. destruct (Hf q Hq) as (_ & ? & ?). simpl. lia.
    + intros t. destruct (Hbase t) as (q & Hq & _ & -> & <-). by apply Hf.
    + intros t u N. destruct (Hbase t) as (q & Hq & Et & -> & <-). destruct (Hbase u) as (q' & Hq' & Eu & -> & <-).
      apply (StronglySorted_sym apart ps q q'); [unfold apart; tauto|done|done|done|congruence].
    + intros t Ht. destruct (Hall t) as (q & Hq & <-). destruct (In q Hq) as [_ ->]; [|done]. by apply Hsz.
  - destruct (Hall RDMARC) as (q & Hq & Eq). rewrite decide_True in Rd; [exact Rd|]. rewrite <- Eq. by apply list_elem_of_fmap_2.
Qed.
End profile.


(** ** A ConnectX-3 *)

Definition connectx3 : Capabilities := {|
  log_max_qp_sz := 14; log2_rsvd_qps := 6; log2_rsvd_srqs := 6; num_rsvd_eqs := 60; log2_rsvd_cqs := 7; log2_rsvd_mtts := 4;
  log2_rsvd_mrws := 7; num_ports := 2; log_max_msg := 31; num_rsvd_uars := 8; uar_sz := 3; bf := true; num_rsvd_pds := 4; log_max_pd := 17;
  rdmarc_entry_sz := 32; qpc_entry_sz := 256; aux_entry_sz := 32; altc_entry_sz := 64; eqc_entry_sz := 64; cqc_entry_sz := 64;
  srq_entry_sz := 32; c_mpt_entry_sz := 64; mtt_entry_sz := 8; d_mpt_entry_sz := 64; max_icm_sz := 2 ^ 40 |}.

Definition size_le (r s : Resource) : Prop := res_size r <= res_size s.
#[global] Instance size_le_dec r s : Decision (size_le r s).
Proof. unfold size_le. apply _. Defined.
#[global] Instance size_le_total : Total size_le.
Proof. intros r s. unfold size_le. lia. Qed.
#[global] Instance size_le_trans : Transitive size_le.
Proof. intros r s t. unfold size_le. lia. Qed.

Lemma connectx3_sizes : caps_sizes connectx3.
Proof. intros t. destruct t; vm_compute; split; (discriminate || reflexivity). Qed.

Lemma connectx3_pow2 : pow2_sizes connectx3.
Proof. intros t. exists (Z.log2 (entry_sz connectx3 t)). destruct t; split; (reflexivity || (vm_compute; discriminate)). Qed.

Definition connectx3_profile : Profile :=
  match profile_new (merge_sort size_le) connectx3 with Ret (Ok p) => p | _ => profile_empty 0 end.


(** The number of outstanding reads per queue pair that the adapter is told is half of what the
    table behind it is laid out for. *)
Theorem rdmarc_half : rdmarc_shift connectx3_profile = 4 /\ Z.land (init_hca connectx3_profile RDMARC_BASE_NUM) 0x7 = 3.
Proof. split; vm_compute; reflexivity. Qed.
