(* ===== verification/HcaHw.v ===== *)
(** * The adapter and the code that drives it

    Commands and structures, the monad of the driver and its program logic. *)

From S2P Require Import Prelude Intervals Dram HcaLayout.

Open Scope Z_scope.

(** * Commands and structures of the adapter
      ([os/kernel/src/device/infiniband/mlx4/cmd.rs] and the bit fields of [icm.rs],
      [queue_pair.rs], [completion_queue.rs], [event_queue.rs])

    What the kernel driver hands to the adapter: commands with their parameters, and the
    contexts and table entries that it writes into the mailbox.  The bit fields are packed by the
    [modular_bitfield_msb] crate; here a bit field assigns a number to each name, and setting
    a field to a number that does not fit panics.  The adapter is not part of the sources: its
    state and its answers are a parameter. *)

(** ** Bit fields *)

Class BitField (F : Type) `{EqDecision F} := { width : F -> Z }.

Section bitfield.
Context {F : Type} `{BitField F}.

Definition bf_new : F -> Z := fun _ => 0.
Definition bf_upd (f : F) (v : Z) (c : F -> Z) : F -> Z := fun g => if decide (g = f) then v else c g.

(** [set_f] and [set_f_checked] *)
Definition bf_set (f : F) (v : Z) (c : F -> Z) : outcome (F -> Z) := v ← bits (width f) v; Ret (bf_upd f v c).
Definition bf_set_checked (f : F) (v : Z) (c : F -> Z) : option (F -> Z) :=
  if (0 <=? v) && (v <? 2 ^ width f) then Some (bf_upd f v c) else None.

Lemma bf_set_ok f v c : 0 <= v < 2 ^ width f -> bf_set f v c = Ret (bf_upd f v c).
Proof. intros Hv. unfold bf_set, bits. destruct (Z.leb_spec 0 v), (Z.ltb_spec v (2 ^ width f)); try lia. done. Qed.

Lemma bf_set_ret f v c c' : bf_set f v c = Ret c' -> c' = bf_upd f v c /\ 0 <= v < 2 ^ width f.
Proof.
  unfold bf_set, bits. destruct (Z.leb_spec 0 v), (Z.ltb_spec v (2 ^ width f)); cbn; try done. intros [= <-]. done.
Qed.

Lemma bf_upd_eq f v c : bf_upd f v c f = v.
Proof. unfold bf_upd. by rewrite decide_True. Qed.

Lemma bf_upd_ne f g v c : g <> f -> bf_upd f v c g = c g.
Proof. intros N. unfold bf_upd. by rewrite decide_False. Qed.
End bitfield.

#[export] Hint Resolve bf_set_ok : d3os.

Definition b2z (b : bool) : Z := if b then 1 else 0.

(** ** Table entries and contexts *)

(* [os/kernel/src/device/infiniband/mlx4/icm.rs:531-614] DmptEntry *)
Inductive DmptField :=
| MIO | REMOTE_WRITE | REMOTE_READ | LOCAL_WRITE | LOCAL_READ | REGION | QP_NUMBER | BOUND_TO_QP | INDEX | RAE | PD
| START | LENGTH | LKEY | MTT_ADDR | MTT_SIZE | ENTITY_SIZE.
#[global] Instance dmpt_field_eq_dec : EqDecision DmptField.
Proof. solve_decision. Defined.
#[global] Instance dmpt_bitfield : BitField DmptField := {|
  width f := match f with
             | QP_NUMBER | PD => 24 | INDEX | LKEY | MTT_SIZE => 32 | START | LENGTH => 64 | MTT_ADDR => 40 | ENTITY_SIZE => 21
             | _ => 1
             end |}.
Definition DmptEntry : Type := DmptField -> Z.

(* [os/kernel/src/device/infiniband/mlx4/queue_pair.rs:496-719] QueuePairContext *)
Inductive QpcField :=
| SERVICE_TYPE | PATH_MIGRATION_STATE | PROTECTION_DOMAIN | MTU | MSG_MAX | LOG_RQ_SIZE | LOG_RQ_STRIDE | SQ_NO_PREFETCH
| LOG_SQ_SIZE | LOG_SQ_STRIDE | RESERVED_LKEY | USR_PAGE | REMOTE_QPN | PRIMARY_PKEY_INDEX | PRIMARY_GRH | PRIMARY_MLID
| PRIMARY_RLID | PRIMARY_ACK_TIMEOUT | PRIMARY_SCHED_QUEUE | ALTERNATE_PKEY_INDEX | ALTERNATE_RLID | SRA_MAX | RNR_RETRY
| CQN_SEND | RRA_MAX | QPC_REMOTE_READ | QPC_REMOTE_WRITE | REMOTE_ATOMIC | PAGE_OFFSET | MIN_RNR_NAK | CQN_RECEIVE
| DB_RECORD_ADDR | QKEY | LOG_PAGE_SIZE | MTT_BASE_ADDR.
#[global] Instance qpc_field_eq_dec : EqDecision QpcField.
Proof. solve_decision. Defined.
#[global] Instance qpc_bitfield : BitField QpcField := {|
  width f := match f with
             | SERVICE_TYPE | PRIMARY_SCHED_QUEUE => 8 | PATH_MIGRATION_STATE => 2
             | PROTECTION_DOMAIN | USR_PAGE | REMOTE_QPN | CQN_SEND | CQN_RECEIVE => 24
             | MTU | LOG_RQ_STRIDE | LOG_SQ_STRIDE | SRA_MAX | RRA_MAX | RNR_RETRY => 3
             | MSG_MAX | PRIMARY_ACK_TIMEOUT | MIN_RNR_NAK => 5 | LOG_RQ_SIZE | LOG_SQ_SIZE => 4
             | SQ_NO_PREFETCH | RESERVED_LKEY | PRIMARY_GRH | QPC_REMOTE_READ | QPC_REMOTE_WRITE | REMOTE_ATOMIC => 1
             | PRIMARY_PKEY_INDEX | PRIMARY_MLID | ALTERNATE_PKEY_INDEX => 7 | PRIMARY_RLID | ALTERNATE_RLID => 16
             | PAGE_OFFSET | LOG_PAGE_SIZE => 6 | DB_RECORD_ADDR => 64 | QKEY => 32 | MTT_BASE_ADDR => 40
             end |}.
Definition QueuePairContext : Type := QpcField -> Z.

(* [os/kernel/src/device/infiniband/mlx4/completion_queue.rs:152-221] CompletionQueueContext *)
Inductive CqcField := CQ_PAGE_OFFSET | LOG_CQ_SIZE | CQ_USR_PAGE | C_EQN | CQ_LOG2_PAGE_SIZE | CQ_MTT_BASE_ADDR | DOORBELL_RECORD_ADDR.
#[global] Instance cqc_field_eq_dec : EqDecision CqcField.
Proof. solve_decision. Defined.
#[global] Instance cqc_bitfield : BitField CqcField := {|
  width f := match f with
             | CQ_PAGE_OFFSET => 16 | LOG_CQ_SIZE => 5 | CQ_USR_PAGE => 24 | C_EQN => 8 | CQ_LOG2_PAGE_SIZE => 6
             | CQ_MTT_BASE_ADDR => 40 | DOORBELL_RECORD_ADDR => 64
             end |}.
Definition CompletionQueueContext : Type := CqcField -> Z.

(* [os/kernel/src/device/infiniband/mlx4/event_queue.rs:370-414] EventQueueContext *)
Inductive EqcField := EQ_STATE | LOG_EQ_SIZE | INTR | EQ_LOG_PAGE_SIZE | EQ_MTT_BASE_ADDR.
#[global] Instance eqc_field_eq_dec : EqDecision EqcField.
Proof. solve_decision. Defined.
#[global] Instance eqc_bitfield : BitField EqcField := {|
  width f := match f with EQ_STATE => 4 | LOG_EQ_SIZE => 5 | INTR => 10 | EQ_LOG_PAGE_SIZE => 6 | EQ_MTT_BASE_ADDR => 40 end |}.
Definition EventQueueContext : Type := EqcField -> Z.

(* [os/kernel/src/device/infiniband/mlx4/port.rs:188-222] SetPortCommand *)
Inductive SetPortField := CHANGE_PORT_MTU | CHANGE_PORT_VL | CHANGE_PORT_PKEY | MTU_CAP | VL_CAP | CAPABILITIES | MAX_PKEY.
#[global] Instance set_port_field_eq_dec : EqDecision SetPortField.
Proof. solve_decision. Defined.
#[global] Instance set_port_bitfield : BitField SetPortField := {|
  width f := match f with MTU_CAP | VL_CAP => 4 | CAPABILITIES => 32 | MAX_PKEY => 16 | _ => 1 end |}.
Definition SetPortCommand : Type := SetPortField -> Z.

(** ** Commands *)

(** The operations that the driver uses, with their codes. *)
(* [os/kernel/src/device/infiniband/mlx4/cmd.rs:34-100] Opcode *)
Inductive Opcode :=
| InitHca | CloseHca | InitPort | ClosePort | QueryPort | SetPort | UnmapIcm | MapIcm | UnmapIcmAux | MapIcmAux | UnmapFa | SetIcmSize | MapFa | RunFw
| Sw2HwMpt | QueryMpt | Hw2SwMpt | MapEq | Sw2HwEq | Hw2SwEq | Sw2HwCq | Hw2SwCq | QueryCq
| Rst2InitQp | Init2RtrQp | Rtr2RtsQp | Any2RstQp | Init2InitQp | MadIfc.
#[global] Instance opcode_eq_dec : EqDecision Opcode.
Proof. solve_decision. Defined.

Definition opcode_code (o : Opcode) : Z :=
  match o with
  | InitHca => 0x07 | CloseHca => 0x08 | InitPort => 0x09 | ClosePort => 0x0a | QueryPort => 0x43 | SetPort => 0x0c
  | RunFw => 0xff6 | UnmapIcm => 0xff9 | MapIcm => 0xffa | UnmapIcmAux => 0xffb
  | MapIcmAux => 0xffc | UnmapFa => 0xffe | SetIcmSize => 0xffd | MapFa => 0xfff
  | Sw2HwMpt => 0x0d | QueryMpt => 0x0e | Hw2SwMpt => 0x0f | MapEq => 0x12 | Sw2HwEq => 0x13 | Hw2SwEq => 0x14
  | Sw2HwCq => 0x16 | Hw2SwCq => 0x17 | QueryCq => 0x18
  | Rst2InitQp => 0x19 | Init2RtrQp => 0x1a | Rtr2RtsQp => 0x1b | Any2RstQp => 0x21 | Init2InitQp => 0x2d | MadIfc => 0x24
  end.

(** What a mailbox holds: pairs of a virtual and a physical address, an entry, a context with the
    mask of its optional parameters, or bytes. *)
Inductive Mailbox :=
| MbEmpty | MbVpms (vpms : list (Z * Z)) | MbMpt (e : DmptEntry) | MbQpc (mask : Z) (c : QueuePairContext)
| MbCqc (c : CompletionQueueContext) | MbEqc (c : EventQueueContext) | MbHca (h : InitHcaParameters) | MbSetPort (c : SetPortCommand)
| MbBytes (bs : list Z).

(* [os/kernel/src/device/infiniband/mlx4/cmd.rs:238-242] InputParam *)
Inductive InputParam := InEmpty | InImmediate (v : Z) | InMailbox (m : Mailbox).
(* [os/kernel/src/device/infiniband/mlx4/cmd.rs:245-249] OutputParam *)
Inductive OutputParam := OutEmpty | OutImmediate | OutMailbox.

Record Command := mkCommand { c_op : Opcode; c_opmod : Z; c_in : InputParam; c_mod : Z; c_out : OutputParam }.

(* [os/kernel/src/device/infiniband/mlx4/cmd.rs:396-427] ReturnStatus *)
Definition status_name (status : Z) : option string :=
  match status with
  | 0x00 => Some "Ok" | 0x01 => Some "InternalErr" | 0x02 => Some "BadOp" | 0x03 => Some "BadParam"
  | 0x04 => Some "BadSysState" | 0x05 => Some "BadResource" | 0x06 => Some "ResourceBusy" | 0x08 => Some "ExceedLim"
  | 0x09 => Some "BadResState" | 0x0a => Some "BadIndex" | 0x0b => Some "BadNvmem" | 0x0c => Some "IcmError"
  | 0x0d => Some "BadPerm" | 0x10 => Some "BadQpState" | 0x21 => Some "RegBound" | 0x30 => Some "BadPkt"
  | 0x40 => Some "BadSize" | _ => None
  end%string.

(** The answer of the adapter: a status, an immediate value and the output mailbox; or none
    before the driver gives up waiting. *)
Inductive Reply := Done (status imm : Z) (out : Mailbox) | Late.

Class Card (C : Type) := { card_exec : Command -> C -> Reply * C }.

(** ** Code that changes a state, fails or panics *)

Definition M (S A : Type) : Type := S -> outcome (result string A * S).

#[global] Instance m_ret {S} : MRet (M S) := fun A a s => Ret (Ok a, s).
#[global] Instance m_bind {S} : MBind (M S) := fun A B f m s =>
  '(r, s) ← m s;
  match r with Ok a => f a s | Err e => Ret (Err e, s) end.

Section monad.
Context {S : Type}.
Definition fail {A} (e : string) : M S A := fun s => Ret (Err e, s).
Definition panic {A} (msg : string) : M S A := fun s => Panic msg.
Definition get : M S S := fun s => Ret (Ok s, s).
Definition modify (f : S -> S) : M S unit := fun s => Ret (Ok tt, f s).
(** A primitive step. *)
Definition prim {A} (f : S -> outcome (result string A * S)) : M S A := f.
Definition lift {A} (m : outcome A) : M S A := fun s => a ← m; Ret (Ok a, s).
Definition ok_or {A} (o : option A) (e : string) : M S A := match o with Some a => mret a | None => fail e end.
(** [if b { return Err(e) }] *)
Definition reject (b : bool) (e : string) : M S unit := if b then fail e else mret tt.
(** The result of a call, without returning its error. *)
Definition attempt {A} (m : M S A) : M S (result string A) := fun s => '(r, s) ← m s; Ret (Ok r, s).
End monad.

(** * Reasoning about the code of the driver

    Weakest preconditions for the monad of the driver.  [wp P m s Q]: from the state [s], [m]
    returns a result and a state that satisfy [Q], or it panics and [P] holds; so [P] is [True]
    where panics are left open and [False] where they are excluded. *)

Section wp.
Context {S : Type}.

Definition wp {A} (P : Prop) (m : M S A) (s : S) (Q : result string A -> S -> Prop) : Prop :=
  match m s with Ret (r, s') => Q r s' | Panic _ => P end.

Implicit Types (P : Prop) (s : S).

Lemma mwp_mono {A} P (m : M S A) s Q Q' : wp P m s Q -> (forall r s', Q r s' -> Q' r s') -> wp P m s Q'.
Proof. unfold wp. destruct (m s) as [[r s']|]; auto. Qed.

Lemma mwp_and {A} (m : M S A) s Q Q' : wp True m s Q -> wp True m s Q' -> wp True m s (fun r s' => Q r s' /\ Q' r s').
Proof. unfold wp. destruct (m s) as [[r s']|]; auto. Qed.

Lemma mwp_bind {A B} P (m : M S A) (f : A -> M S B) s Q :
  wp P m s (fun r s' => match r with Ok a => wp P (f a) s' Q | Err e => Q (Err e) s' end) -> wp P (m ≫= f) s Q.
Proof. unfold wp. unfold mbind at 1, m_bind. cbn. destruct (m s) as [[[a|e] s']|]; auto. Qed.

(** A step whose result and state do not matter. *)
Lemma wp_bind_any {A B} (m : M S A) (f : A -> M S B) s (Q : _ -> _ -> Prop) :
  (forall e s', Q (Err e) s') -> (forall a s', wp True (f a) s' Q) -> wp True (m ≫= f) s Q.
Proof. intros He Hf. apply mwp_bind. unfold wp at 1. destruct (m s) as [[[a|e] s']|]; auto. Qed.

Lemma mwp_ret {A} P (a : A) s (Q : _ -> _ -> Prop) : Q (Ok a) s -> wp P (mret a) s Q.
Proof. auto. Qed.
Lemma wp_fail {A} P e s (Q : result string A -> S -> Prop) : Q (Err e) s -> wp P (fail e) s Q.
Proof. auto. Qed.
Lemma mwp_panic {A} P msg s (Q : result string A -> S -> Prop) : P -> wp P (panic msg) s Q.
Proof. auto. Qed.
Lemma wp_get P s (Q : _ -> _ -> Prop) : Q (Ok s) s -> wp P get s Q.
Proof. auto. Qed.
Lemma mwp_modify P f s (Q : _ -> _ -> Prop) : Q (Ok tt) (f s) -> wp P (modify f) s Q.
Proof. auto. Qed.

Lemma wp_reject P (b : bool) e s (Q : _ -> _ -> Prop) :
  (b = true -> Q (Err e) s) -> (b = false -> Q (Ok tt) s) -> wp P (reject b e) s Q.
Proof. intros H1 H2. destruct b; [by apply H1|by apply H2]. Qed.

Lemma wp_ok_or {A} P (o : option A) e s (Q : _ -> _ -> Prop) :
  (o = None -> Q (Err e) s) -> (forall a, o = Some a -> Q (Ok a) s) -> wp P (ok_or o e) s Q.
Proof. intros H1 H2. destruct o; [by apply H2|by apply H1]. Qed.

Lemma wp_lift {A} P (m : outcome A) s (Q : _ -> _ -> Prop) :
  (forall msg, m = Panic msg -> P) -> (forall a, m = Ret a -> Q (Ok a) s) -> wp P (lift m) s Q.
Proof. destruct m; unfold wp; simpl; eauto. Qed.

Lemma wp_attempt {A} P (m : M S A) s (Q : _ -> _ -> Prop) : wp P m s (fun r s' => Q (Ok r) s') -> wp P (attempt m) s Q.
Proof. unfold wp, attempt. destruct (m s) as [[r s']|]; auto. Qed.

Lemma wp_prim {A} P (f : S -> outcome (result string A * S)) s (Q : _ -> _ -> Prop) :
  (forall msg, f s = Panic msg -> P) -> (forall r s', f s = Ret (r, s') -> Q r s') -> wp P (prim f) s Q.
Proof. unfold wp, prim. destruct (f s) as [[r s']|]; eauto. Qed.

Lemma wp_if {A} P (b : bool) (m n : M S A) s Q :
  (b = true -> wp P m s Q) -> (b = false -> wp P n s Q) -> wp P (if b then m else n) s Q.
Proof. destruct b; auto. Qed.

(** From a run to its result. *)
Lemma wp_run {A} P (m : M S A) s Q r s' : wp P m s Q -> m s = Ret (r, s') -> Q r s'.
Proof. unfold wp. intros Hw E. by rewrite E in Hw. Qed.

Lemma wp_returns {A} (m : M S A) s Q : wp False m s Q -> exists r s', m s = Ret (r, s') /\ Q r s'.
Proof. unfold wp. destruct (m s) as [[r s']|]; [eauto|done]. Qed.

Lemma wp_weaken {A} P (m : M S A) s Q : wp False m s Q -> wp P m s Q.
Proof. unfold wp. destruct (m s) as [[r s']|]; done. Qed.

(** A relation between the states before and after, whatever the result. *)
Definition steps {A} (R : S -> S -> Prop) (m : M S A) : Prop := forall s, wp True m s (fun _ s' => R s s').

Lemma steps_bind {A B} (R : S -> S -> Prop) `{!Transitive R} (m : M S A) (f : A -> M S B) :
  steps R m -> (forall a, steps R (f a)) -> steps R (m ≫= f).
Proof.
  intros Hm Hf s. apply mwp_bind. eapply mwp_mono; [apply Hm|]. intros [a|e] s' Hs; [|done].
  eapply mwp_mono; [apply Hf|]. intros r s2 H2. by etrans.
Qed.
Lemma steps_pure {A} (R : S -> S -> Prop) `{!Reflexive R} (m : M S A) :
  (forall s r s', m s = Ret (r, s') -> s' = s) -> steps R m.
Proof. intros Hm s. unfold wp. destruct (m s) as [[r s']|] eqn:E; [|done]. by rewrite (Hm _ _ _ E). Qed.
Lemma steps_attempt {A} (R : S -> S -> Prop) (m : M S A) : steps R m -> steps R (attempt m).
Proof. intros Hm s. apply wp_attempt, Hm. Qed.
End wp.

(** One step of symbolic execution. *)
Ltac wp_step :=
  lazymatch goal with
  | |- wp _ (_ ≫= _) _ _ => apply mwp_bind
  | |- wp _ (mret _) _ _ => apply mwp_ret
  | |- wp _ (fail _) _ _ => apply wp_fail
  | |- wp _ (panic _) _ _ => apply mwp_panic
  | |- wp _ get _ _ => apply wp_get
  | |- wp _ (modify _) _ _ => apply mwp_modify
  | |- wp _ (reject _ _) _ _ => apply wp_reject; intros ?
  | |- wp _ (ok_or _ _) _ _ => apply wp_ok_or; [intros ?|intros ? ?]
  | |- wp True (lift _) _ _ => apply wp_lift; [done|intros ? ?]
  | |- wp _ (lift _) _ _ => apply wp_lift; [intros ? ?|intros ? ?]
  | |- wp _ (attempt _) _ _ => apply wp_attempt
  | |- wp _ (if ?b then _ else _) _ _ => apply wp_if; intros ?
  | |- wp _ (let '(_, _) := ?x in _) _ _ => destruct x eqn:?
  | |- wp _ (match ?x with _ => _ end) _ _ => destruct x eqn:?
  end.

(** ** Running code *)

Section run.
Context {S : Type}.

(** The state after a run that returns, and its result. *)
Definition final {A} (m : M S A) (s : S) : S := match m s with Ret (_, s') => s' | Panic _ => s end.
Definition answer {A} (m : M S A) (s : S) : option (result string A) := match m s with Ret (r, _) => Some r | Panic _ => None end.
Definition runs {A} (m : M S A) (s : S) : bool := match m s with Ret _ => true | Panic _ => false end.

Lemma runs_final {A} (m : M S A) s : runs m s = true -> exists r, m s = Ret (r, final m s).
Proof. unfold runs, final. destruct (m s) as [[r s']|]; [eauto|done]. Qed.
Lemma answer_final {A} (m : M S A) s r : answer m s = Some r -> m s = Ret (r, final m s).
Proof. unfold answer, final. destruct (m s) as [[r' s']|]; [by intros [= ->]|done]. Qed.
End run.
