(* ===== verification/HcaIcm.v ===== *)
(** * The state of the kernel driver, and the tables of the adapter in host memory *)

From S2P Require Import Prelude Intervals Dram FrameAlloc Paging Vma Vmm Verbs HcaLayout HcaHw.
From S2P Require Import Bytes.

Open Scope Z_scope.

(** * The state of the kernel driver for the adapter
      ([os/kernel/src/device/infiniband/mlx4/mod.rs], [icm.rs], [queue_pair.rs],
      [completion_queue.rs])

    The device with everything the processes created on it, the adapter behind it, physical memory
    (which the kernel and the adapter address alike), the frame allocator and the address spaces of
    the processes.  Verbs run under the lock of the device list: each is one step. *)

(** ** Memory of the adapter's tables *)

(** [memory] is the first frame, which is also the first page: kernel memory is mapped one to one. *)
(* [os/kernel/src/device/infiniband/mlx4/icm.rs:628-632] MappedIcm *)
Record MappedIcm := mkIcm { mi_memory : option Z; card_virtual : Z; num_pages : Z }.

(* [os/kernel/src/device/infiniband/mlx4/icm.rs:218-223] IcmTable *)
Record IcmTable := { virt : Z; entry_size : Z; icm : list MappedIcm }.

(* os/kernel/src/device/infiniband/mlx4/icm.rs: MrTable *)
Record MrTable := { mtt_table : IcmTable; dmpt_table : IcmTable; reserved_mtts : Z; mtt_offset : Z }.

Definition bump_mtt (n : Z) (t : MrTable) : MrTable :=
  {| mtt_table := mtt_table t; dmpt_table := dmpt_table t; reserved_mtts := reserved_mtts t; mtt_offset := n |}.

(** ** Objects of a process *)

(* os/kernel/src/device/infiniband/mlx4/icm.rs: MemoryRegion *)
Record MemoryRegion := { mr_dmpt : option DmptEntry }.

(* os/kernel/src/device/infiniband/mlx4/icm.rs: MemoryRegion::index *)
Definition mr_index (mr : MemoryRegion) : option Z := (fun e : DmptEntry => e INDEX) <$> mr_dmpt mr.

(* [os/kernel/src/device/infiniband/mlx4/completion_queue.rs:27-34] CompletionQueue *)
Record CompletionQueue := { cq_number : Z; cq_mtt : option Z; cq_eq_number : option Z }.

(* [os/kernel/src/device/infiniband/mlx4/queue_pair.rs:26-44] QueuePair *)
Record QueuePair := {
  qp_number : Z; qp_state : QueuePairState; qp_type : QueuePairType; port_number : option Z; qp_pd : Z;
  send_cq_number : Z; receive_cq_number : Z; uar_index : Z; qp_mtt : option Z; page_offset : Z; doorbell_address : Z;
  log_sq_bb_count : Z; log_sq_stride : Z; log_rq_wqe_count : Z; log_rq_stride : Z
}.

(* [os/kernel/src/device/infiniband/mlx4/mod.rs:736-740] UarPage *)
Record UarPage := { uar_idx : Z; uar_doorbell : Z; uar_blueflame : option Z }.

(* [os/kernel/src/device/infiniband/mlx4/mod.rs:664-675] UContext *)
Record UContext := mkCtx {
  ctx_handle : Z; owner : Z; uar_page : UarPage; doorbell_page : Z; blueflame_page : Z;
  pds : list Z; cqs : list CompletionQueue; qps : list QueuePair; mrs : list MemoryRegion
}.

Definition with_pds (l : list Z) (c : UContext) : UContext :=
  mkCtx (ctx_handle c) (owner c) (uar_page c) (doorbell_page c) (blueflame_page c) l (cqs c) (qps c) (mrs c).
Definition with_cqs (l : list CompletionQueue) (c : UContext) : UContext :=
  mkCtx (ctx_handle c) (owner c) (uar_page c) (doorbell_page c) (blueflame_page c) (pds c) l (qps c) (mrs c).
Definition with_qps (l : list QueuePair) (c : UContext) : UContext :=
  mkCtx (ctx_handle c) (owner c) (uar_page c) (doorbell_page c) (blueflame_page c) (pds c) (cqs c) l (mrs c).
Definition with_mrs (l : list MemoryRegion) (c : UContext) : UContext :=
  mkCtx (ctx_handle c) (owner c) (uar_page c) (doorbell_page c) (blueflame_page c) (pds c) (cqs c) (qps c) l.

(** ** Numbers *)

(* [os/kernel/src/device/infiniband/mlx4/mod.rs:585-594] Offsets *)
Record Offsets := { base_qpn : Z; next_cqn : Z; next_qpn : Z; next_dmpt : Z; next_eqn : Z }.

Definition NUM_SPECIAL_QP : Z := 8.

(** [next_multiple_of] of a non-negative number. *)
Definition next_multiple (n m : Z) : Z := (n + m - 1) / m * m.

(* [os/kernel/src/device/infiniband/mlx4/mod.rs:598-615] Offsets::init *)
Definition offsets_init (caps : Capabilities) : Offsets :=
  let end_reserved_cpn := 2 ^ log2_rsvd_cqs caps in
  let base := next_multiple end_reserved_cpn NUM_SPECIAL_QP in
  {| base_qpn := base; next_cqn := base + NUM_SPECIAL_QP; next_qpn := 2 ^ log2_rsvd_qps caps;
     next_dmpt := 2 ^ log2_rsvd_mrws caps; next_eqn := num_rsvd_eqs caps |}.

(** ** The device *)

(** [consumer_index] of an event queue counts the events that were consumed. *)
(* [os/kernel/src/device/infiniband/mlx4/event_queue.rs:98-115] EventQueue *)
Record EventQueue := { eq_number : Z; num_entries : Z; eq_memory : option Z; eq_mtt : Z; consumer_index : Z; async_ev_mask : Z }.

(* os/kernel/src/device/infiniband/mlx4/mod.rs: Mlx4Device *)
Record Mlx4Device := {
  capabilities : Capabilities; offsets : Offsets; mr_table : MrTable; contexts : gmap Z UContext; next_context : Z;
  pd_numbers : gset Z; eqs : list EventQueue; uar_list : list UarPage
}.

Definition with_offsets (o : Offsets) (d : Mlx4Device) : Mlx4Device :=
  {| capabilities := capabilities d; offsets := o; mr_table := mr_table d; contexts := contexts d;
     next_context := next_context d; pd_numbers := pd_numbers d; eqs := eqs d; uar_list := uar_list d |}.
Definition with_mr_table (t : MrTable) (d : Mlx4Device) : Mlx4Device :=
  {| capabilities := capabilities d; offsets := offsets d; mr_table := t; contexts := contexts d;
     next_context := next_context d; pd_numbers := pd_numbers d; eqs := eqs d; uar_list := uar_list d |}.
Definition with_contexts (m : gmap Z UContext) (d : Mlx4Device) : Mlx4Device :=
  {| capabilities := capabilities d; offsets := offsets d; mr_table := mr_table d; contexts := m;
     next_context := next_context d; pd_numbers := pd_numbers d; eqs := eqs d; uar_list := uar_list d |}.
Definition with_next_context (n : Z) (d : Mlx4Device) : Mlx4Device :=
  {| capabilities := capabilities d; offsets := offsets d; mr_table := mr_table d; contexts := contexts d;
     next_context := n; pd_numbers := pd_numbers d; eqs := eqs d; uar_list := uar_list d |}.
Definition with_pd_numbers (s : gset Z) (d : Mlx4Device) : Mlx4Device :=
  {| capabilities := capabilities d; offsets := offsets d; mr_table := mr_table d; contexts := contexts d;
     next_context := next_context d; pd_numbers := s; eqs := eqs d; uar_list := uar_list d |}.
Definition with_uar_list (l : list UarPage) (d : Mlx4Device) : Mlx4Device :=
  {| capabilities := capabilities d; offsets := offsets d; mr_table := mr_table d; contexts := contexts d;
     next_context := next_context d; pd_numbers := pd_numbers d; eqs := eqs d; uar_list := l |}.

(** ** The world of a verb *)

Record World (C A : Type) := mkWorld {
  w_card : C; w_mem : Z -> Z; w_frames : A; w_spaces : Z -> VirtualAddressSpace; w_dev : Mlx4Device
}.
Arguments mkWorld {C A}.
Arguments w_card {C A}. Arguments w_mem {C A}. Arguments w_frames {C A}. Arguments w_spaces {C A}. Arguments w_dev {C A}.

Section world.
Context {C A : Type}.
Notation World := (World C A).

Definition set_card (c : C) (w : World) : World := mkWorld c (w_mem w) (w_frames w) (w_spaces w) (w_dev w).
Definition set_mem (m : Z -> Z) (w : World) : World := mkWorld (w_card w) m (w_frames w) (w_spaces w) (w_dev w).
Definition set_dev (d : Mlx4Device) (w : World) : World := mkWorld (w_card w) (w_mem w) (w_frames w) (w_spaces w) d.
Definition set_space (pid : Z) (v : VirtualAddressSpace) (a : A) (w : World) : World :=
  mkWorld (w_card w) (w_mem w) a (fun p => if p =? pid then v else w_spaces w p) (w_dev w).

Definition dev : M World Mlx4Device := fun w => Ret (Ok (w_dev w), w).
Definition upd_dev (f : Mlx4Device -> Mlx4Device) : M World unit := modify (fun w => set_dev (f (w_dev w)) w).
Definition space (pid : Z) : M World VirtualAddressSpace := fun w => Ret (Ok (w_spaces w pid), w).

(** A command and its answer: the immediate value and the output mailbox. *)
(* [os/kernel/src/device/infiniband/mlx4/cmd.rs:279-288] CommandInterface::execute_command *)
Definition execute_command_mod `{Card C} (op : Opcode) (opmod : Z) (input : InputParam) (input_modifier : Z) (output : OutputParam)
    : M World (Z * Mailbox) := fun w =>
  let '(reply, c) := card_exec (mkCommand op opmod input input_modifier output) (w_card w) in
  let w := set_card c w in
  match reply with
  | Late => Ret (Err "PrevTimeout"%string, w)
  | Done status imm out =>
      name ← expect (status_name status) "return status invalid";
      Ret (if status =? 0 then Ok (imm, out) else Err name, w)
  end.
(** Without an opcode modifier. *)
Definition execute_command `{Card C} (op : Opcode) : InputParam -> Z -> OutputParam -> M World (Z * Mailbox) := execute_command_mod op 0.

(** The next number of a kind. *)
(* [os/kernel/src/device/infiniband/mlx4/mod.rs:625-629] Offsets::alloc_cqn *)
Definition alloc_cqn : M World Z :=
  d ← dev;
  let o := offsets d in
  _ ← upd_dev (with_offsets {| base_qpn := base_qpn o; next_cqn := next_cqn o + 1; next_qpn := next_qpn o;
                               next_dmpt := next_dmpt o; next_eqn := next_eqn o |});
  mret (next_cqn o).
(* [os/kernel/src/device/infiniband/mlx4/mod.rs:632-636] Offsets::alloc_qpn *)
Definition alloc_qpn : M World Z :=
  d ← dev;
  let o := offsets d in
  _ ← upd_dev (with_offsets {| base_qpn := base_qpn o; next_cqn := next_cqn o; next_qpn := next_qpn o + 1;
                               next_dmpt := next_dmpt o; next_eqn := next_eqn o |});
  mret (next_qpn o).
(* [os/kernel/src/device/infiniband/mlx4/mod.rs:644-648] Offsets::alloc_dmpt *)
Definition alloc_dmpt_index : M World Z :=
  d ← dev;
  let o := offsets d in
  _ ← upd_dev (with_offsets {| base_qpn := base_qpn o; next_cqn := next_cqn o; next_qpn := next_qpn o;
                               next_dmpt := next_dmpt o + 1; next_eqn := next_eqn o |});
  mret (next_dmpt o).

(** [try_into::<u32>().unwrap()] *)
Definition to_u32 (n : Z) : M World Z := if n <=? U32_MAX then mret n else panic "called `Result::unwrap()` on an `Err` value".
End world.

(** * Tables of the adapter in host memory
      ([os/kernel/src/device/infiniband/mlx4/icm.rs], [utils.rs])

    The driver lends the adapter memory for its tables, in chunks of 64 pages that it maps into
    the adapter's own address space (ICM).  Of two tables it writes entries itself: the memory
    translation table (MTT), which lists the physical pages behind a buffer, and, by commands, the
    memory protection table (dMPT), which has an entry per memory region. *)

Definition TABLE_CHUNK_SIZE : Z := 2 ^ 18.
Definition MAX_CHUNK_SIZE : Z := PAGE_SIZE / 16.
Definition MTT_FLAG_PRESENT : Z := 1.

(** [Page + n] *)
Definition page_add (page n : Z) : outcome Z := _ ← virt_addr_add (page_address page) (n * PAGE_SIZE); Ret (page + n).

Section icm.
Context {C A : Type} `{Card C} `{FrameAllocator A}.
Notation World := (World C A).

(** ** Mapping *)

Definition NO_EXECUTE : Z := 2 ^ 63.
Definition DMA_FLAGS : Z := Z.lor (Z.lor NO_EXECUTE PRESENT) WRITABLE.
Definition tag_mlx_dma : list Z := [109; 108; 120; 95; 100; 109; 97].

(** Pages of the kernel for the adapter; [cur] is the process that initialises the device. *)
(* [os/kernel/src/device/infiniband/mlx4/utils.rs:108-127] create_cont_mapping_with_dma_flags *)
Definition create_cont_mapping (cur frame_count : Z) : M World Z :=
  _ ← reject (frame_count =? 0) "frame_count must not be zero";
  prim (fun w =>
    '(r, s, a) ← kernel_alloc_map_identity (w_frames w) (w_spaces w cur) frame_count DMA_FLAGS DeviceMemory tag_mlx_dma;
    Ret (if r_start r =? r_end r then Err "Failed to allocate pages"%string else Ok (r_start r), set_space cur s a w)).

(** The pairs of the pages of a chunk: where the adapter sees them and where they are. *)
Definition chunk_vpms (virt phys n : Z) : list (Z * Z) :=
  (fun i => (virt + i * PAGE_SIZE, phys + i * PAGE_SIZE)) <$> seqZ 0 n.

(* [os/kernel/src/device/infiniband/mlx4/icm.rs:258-297] IcmTable::map_chunk *)
Definition map_chunk (cur : Z) (t : IcmTable) (byte_offset num_pages : Z) : M World IcmTable :=
  _ ← lift (rust_assert (0 <? num_pages) "assertion failed: num_pages > 0");
  _ ← lift (rust_assert (num_pages <=? MAX_CHUNK_SIZE) "assertion failed: num_pages as usize <= MAX_CHUNK_SIZE");
  memory ← create_cont_mapping cur num_pages;
  let phys_start := start_address memory in
  let card_virtual := virt t + byte_offset in
  let vpms := chunk_vpms card_virtual phys_start num_pages ++ replicate (Z.to_nat (MAX_CHUNK_SIZE - num_pages)) (0, 0) in
  _ ← execute_command MapIcm (InMailbox (MbVpms vpms)) num_pages OutEmpty;
  mret {| virt := virt t; entry_size := entry_size t; icm := icm t ++ [mkIcm (Some memory) card_virtual num_pages] |}.

(** [for table_offset in (start..end).step_by(TABLE_CHUNK_SIZE)], with the table so far when a
    chunk fails. *)
(* [os/kernel/src/device/infiniband/mlx4/icm.rs:244-251] IcmTable::map_entries *)
Fixpoint map_offsets (cur : Z) (offs : list Z) (t : IcmTable) : M World (IcmTable * option string) :=
  match offs with
  | [] => mret (t, None)
  | o :: offs' =>
      r ← attempt (map_chunk cur t o (TABLE_CHUNK_SIZE / PAGE_SIZE));
      match r with Ok t => map_offsets cur offs' t | Err e => mret (t, Some e) end
  end.

Definition chunk_offsets (first last : Z) : list Z :=
  (fun i => first + i * TABLE_CHUNK_SIZE) <$> seqZ 0 ((last - first + TABLE_CHUNK_SIZE - 1) / TABLE_CHUNK_SIZE).

(** A table that is dropped while chunks are mapped panics. *)
(* [os/kernel/src/device/infiniband/mlx4/icm.rs:226-242] IcmTable::init *)
Definition icm_init (cur entry_size entry_capacity reserved virt : Z) : M World IcmTable :=
  _ ← lift (rust_assert (reserved <=? entry_capacity) "assertion failed: entry_capacity >= reserved");
  '(t, e) ← map_offsets cur (chunk_offsets 0 (reserved * entry_size)) {| virt := virt; entry_size := entry_size; icm := [] |};
  match e with
  | None => mret t
  | Some e => if decide (icm t = []) then fail e else panic "please unmap instead of dropping"
  end.

(** ** Unmapping *)

(** Unmapping takes the chunk: if the command fails, the chunk is dropped with its memory, which panics. *)
(* [os/kernel/src/device/infiniband/mlx4/icm.rs:636-647] MappedIcm::unmap *)
Definition unmap_chunk (m : MappedIcm) : M World unit :=
  r ← attempt (execute_command UnmapIcm (InImmediate (card_virtual m)) (num_pages m) OutEmpty);
  match r with
  | Err _ => if mi_memory m then panic "please unmap instead of dropping" else fail "unmap"
  | Ok _ => _ ← lift (expect (mi_memory m) "called `Option::unwrap()` on a `None` value"); mret tt
  end.

(** From the last chunk to the first. *)
(* [os/kernel/src/device/infiniband/mlx4/icm.rs:317-322] IcmTable::unmap *)
Fixpoint unmap_chunks (ms : list MappedIcm) : M World unit :=
  match ms with
  | [] => mret tt
  | m :: ms' => _ ← unmap_chunks ms'; unmap_chunk m
  end.

(** ** Entries of the translation table *)

(** The end of a chunk is its length, wherever it starts. *)
Definition chunk_covers (virt byte_offset : Z) (m : MappedIcm) : bool :=
  (card_virtual m - virt <=? byte_offset) && (byte_offset <? num_pages m * PAGE_SIZE).

(** Where in host memory [len] bytes of a table are. *)
(* [os/kernel/src/device/infiniband/mlx4/icm.rs:303-315] IcmTable::host_bytes_mut *)
Definition host_bytes_mut (t : IcmTable) (byte_offset len : Z) : result string Z :=
  match List.find (chunk_covers (virt t) byte_offset) (icm t) with
  | None => Err "chunk not found"%string
  | Some m =>
      match mi_memory m with
      | None => Err "ICM chunk has no memory"%string
      | Some memory =>
          let offset := byte_offset mod TABLE_CHUNK_SIZE in
          if num_pages m * PAGE_SIZE <? offset + len then Err "Doesn't fit within pages"%string
          else Ok (start_address memory + offset)
      end
  end.

Definition of_result {B} (r : result string B) : M World B := fun w => Ret (r, w).

(** The entries for pages [page], [page + 1], ... from the byte offset [addr] on. *)
(* [os/kernel/src/device/infiniband/mlx4/icm.rs:385-403] MrTable::alloc_mtt_for_pages *)
Fixpoint write_mtts (pid : Z) (n : nat) (page addr entry_sz : Z) : M World unit :=
  match n with
  | O => mret tt
  | S n' =>
      s ← space pid;
      phys ← lift (get_phys s (page_address page));
      physical ← ok_or phys "page not mapped";
      _ ← reject ((physical =? 0) || negb (physical mod PAGE_SIZE =? 0)) "invalid physical address for MTT entry";
      d ← dev;
      entry ← of_result (host_bytes_mut (mtt_table (mr_table d)) addr 8);
      _ ← modify (fun w => set_mem (write_mem (w_mem w) entry (be_bytes 8 (Z.lor physical MTT_FLAG_PRESENT))) w);
      write_mtts pid n' (page + 1) (addr + entry_sz) entry_sz
  end.

(** The byte offset of the first entry. *)
(* [os/kernel/src/device/infiniband/mlx4/icm.rs:372-406] MrTable::alloc_mtt_for_pages *)
Definition alloc_mtt_for_pages (pid : Z) (pages : range) : M World Z :=
  _ ← reject (range_len pages <=? 0) "No pages provides";
  d ← dev;
  let t := mr_table d in
  let sz := mtt_entry_sz (capabilities d) in
  n ← lift (add64 (reserved_mtts t) (mtt_offset t));
  addr ← lift (mul64 n sz);
  offset ← lift (add64 (mtt_offset t) (range_len pages));
  _ ← upd_dev (with_mr_table (bump_mtt offset t));
  _ ← write_mtts pid (Z.to_nat (range_len pages)) (r_start pages) addr sz;
  mret addr.

(** ** Memory regions *)

Definition LOCAL_WRITE_FLAG : Z := 1.
Definition REMOTE_WRITE_FLAG : Z := 2.
Definition REMOTE_READ_FLAG : Z := 4.
Definition REMOTE_ATOMIC_FLAG : Z := 8.

(** Rotated by a byte: the key of an index. *)
(* os/kernel/src/device/infiniband/mlx4/icm.rs: DmptEntry::key *)
Definition dmpt_key (e : DmptEntry) : Z := Z.lor (Z.shiftr (e INDEX) 24) (wrap32 (Z.shiftl (e INDEX) 8)).

Definition mailbox_mpt (m : Mailbox) : DmptEntry := match m with MbMpt e => e | _ => bf_new end.

(* os/library/rdma/src/ib_core.rs: MemoryRegionMetadata *)
Record MemoryRegionMetadata := { mr_handle : Z; mr_lkey : Z; mr_rkey : Z }.

(** The entry of a region in a protection domain. *)
(* [os/kernel/src/device/infiniband/mlx4/icm.rs:435-465] MrTable::alloc_dmpt *)
Definition fill_dmpt (index pd addr size mtt : Z) (pages : range) (access : Z) : outcome DmptEntry :=
  e ← bf_set INDEX index bf_new;
  e ← bf_set RAE 1 e;
  e ← bf_set PD pd e;
  e ← bf_set START addr e;
  e ← bf_set LENGTH size e;
  e ← bf_set ENTITY_SIZE 12 e;
  e ← bf_set MTT_ADDR mtt e;
  e ← bf_set MTT_SIZE (wrap32 (range_len pages)) e;
  e ← bf_set MIO 1 e;
  e ← bf_set REGION 1 e;
  e ← bf_set LOCAL_READ 1 e;
  e ← (if contains access LOCAL_WRITE_FLAG then bf_set LOCAL_WRITE 1 e else Ret e);
  e ← (if contains access REMOTE_READ_FLAG then bf_set REMOTE_READ 1 e else Ret e);
  (if contains access REMOTE_WRITE_FLAG then bf_set REMOTE_WRITE 1 e else Ret e).

(** No queue pair is bound to the region, as in every call. *)
(* [os/kernel/src/device/infiniband/mlx4/icm.rs:411-494] MrTable::alloc_dmpt *)
Definition alloc_dmpt (pid pd address size access : Z) : M World (MemoryRegion * MemoryRegionMetadata) :=
  _ ← reject ((address =? 0) || (size =? 0)) "MR must not be empty";
  _ ← reject (negb (canonical address)) "MR address is not canonical";
  s ← space pid;
  _ ← reject (negb (access_ok s address size)) "User has no access to MR";
  past ← lift (virt_addr_add address size);
  last ← lift (page_add ((past - 1) / PAGE_SIZE) 1);
  let pages := mkRange (address / PAGE_SIZE) last in
  mtt ← alloc_mtt_for_pages pid pages;
  n ← alloc_dmpt_index;
  index ← to_u32 n;
  dmpt ← lift (fill_dmpt index pd address size mtt pages access);
  _ ← execute_command Sw2HwMpt (InMailbox (MbMpt dmpt)) index OutEmpty;
  '(_, out) ← execute_command QueryMpt InEmpty index OutMailbox;
  let dmpt := mailbox_mpt out in
  _ ← lift (rust_assert (index =? dmpt INDEX) "assertion `left == right` failed");
  mret ({| mr_dmpt := Some dmpt |}, {| mr_handle := index; mr_lkey := dmpt_key dmpt; mr_rkey := dmpt_key dmpt |}).

(** The region afterwards, with the error if the adapter keeps it. *)
(* [os/kernel/src/device/infiniband/mlx4/icm.rs:511-517] MemoryRegion::destroy *)
Definition mr_destroy (mr : MemoryRegion) : M World MemoryRegion :=
  index ← ok_or (mr_index mr) "memory region already destroyed";
  _ ← execute_command Hw2SwMpt InEmpty index OutEmpty;
  mret {| mr_dmpt := None |}.
End icm.
