(* ===== verification/HcaDev.v ===== *)
(** * Queues, contexts and verbs of the kernel driver *)

From stdpp Require Import pretty sorting.
From S2P Require Import Prelude Intervals Dram FrameAlloc Paging Vma Vmm Bytes Verbs HcaLayout HcaHw HcaIcm.

Open Scope Z_scope.

(** * Completion queues and queue pairs of the kernel driver
      ([os/kernel/src/device/infiniband/mlx4/completion_queue.rs], [queue_pair.rs])

    Both are rings in memory of a process, which the driver checks, translates and hands to the
    adapter.  The state of a queue pair follows the states of InfiniBand; every change is one
    command with a context that is filled from the attributes of the process. *)

Definition CQE_SIZE : Z := 32.
Definition is_power_of_two (n : Z) : bool := (0 <? n) && (Z.land n (n - 1) =? 0).
Definition div_ceil (n m : Z) : Z := (n + m - 1) / m.

(* os/kernel/src/device/infiniband/mlx4/device.rs: uar_index_to_hw *)
Definition uar_index_to_hw (index : Z) : Z := index.

Section queues.
Context {C A : Type} `{Card C} `{FrameAllocator A}.
Notation World := (World C A).

(** ** Completion queues *)

(* [os/kernel/src/device/infiniband/mlx4/completion_queue.rs:84-93] CompletionQueue::new *)
Definition fill_cqc (buffer log_size uar_idx : Z) (eq : option Z) (mtt doorbell : Z) : outcome CompletionQueueContext :=
  c ← bf_set CQ_PAGE_OFFSET (buffer mod PAGE_SIZE) bf_new;
  c ← bf_set LOG_CQ_SIZE log_size c;
  c ← bf_set CQ_USR_PAGE (uar_index_to_hw uar_idx) c;
  c ← (match eq with Some eqn => bf_set C_EQN (eqn mod 256) c | None => Ret c end);
  c ← bf_set CQ_LOG2_PAGE_SIZE 0 c;
  c ← bf_set CQ_MTT_BASE_ADDR mtt c;
  bf_set DOORBELL_RECORD_ADDR doorbell c.

(* [os/kernel/src/device/infiniband/mlx4/completion_queue.rs:43-109] CompletionQueue::new *)
Definition cq_new (eq : option Z) (pid entries buffer doorbell_ptr uar_idx : Z) : M World CompletionQueue :=
  _ ← reject (negb (canonical doorbell_ptr)) "Doorbell address is not canonical";
  s ← space pid;
  _ ← reject (negb (access_ok s doorbell_ptr 8)) "User has no access to Doorbell";
  _ ← reject (negb (is_power_of_two entries)) "The number off CQE is not a power of 2";
  _ ← reject (2 ^ 22 <? entries) "Too many CQEs";
  _ ← reject (negb (canonical buffer)) "Buffer address is not canonical";
  _ ← reject (negb (buffer mod 4 =? 0)) "Buffer is not aligned to CQE stride";
  let buffer_size := entries * CQE_SIZE in
  _ ← reject (negb (access_ok s buffer buffer_size)) "User has no access to CQ buffer";
  let start := buffer / PAGE_SIZE in
  last ← lift (page_add start (div_ceil buffer_size PAGE_SIZE));
  mtt ← alloc_mtt_for_pages pid (mkRange start last);
  phys ← lift (get_phys s doorbell_ptr);
  doorbell ← ok_or phys "doorbell not mapped to physical address";
  n ← alloc_cqn;
  number ← to_u32 n;
  ctx ← lift (fill_cqc buffer (Z.log2 entries) uar_idx eq mtt doorbell);
  _ ← execute_command Sw2HwCq (InMailbox (MbCqc ctx)) number OutEmpty;
  mret {| cq_number := number; cq_mtt := Some mtt; cq_eq_number := eq |}.

(* [os/kernel/src/device/infiniband/mlx4/completion_queue.rs:114-126] CompletionQueue::destroy *)
Definition cq_destroy (cq : CompletionQueue) : M World CompletionQueue :=
  _ ← execute_command Hw2SwCq InEmpty (cq_number cq) OutEmpty;
  mret {| cq_number := cq_number cq; cq_mtt := None; cq_eq_number := cq_eq_number cq |}.

(** ** Queue pairs *)

(* [os/kernel/src/device/infiniband/mlx4/queue_pair.rs:56-122] QueuePair::new *)
Definition qp_new (pid : Z) (typ : QueuePairType) (pd send_cq receive_cq buffer doorbell_ptr uar_idx
    log_sq_bb_count log_sq_stride log_rq_wqe_count log_rq_stride : Z) : M World QueuePair :=
  _ ← reject (negb (canonical doorbell_ptr)) "Doorbell address is not canonical";
  s ← space pid;
  _ ← reject (negb (access_ok s doorbell_ptr 4)) "User has no access to Doorbell";
  _ ← reject ((log_sq_stride <? 4) || (log_rq_stride <? 4)) "stride is not multiple of 16 bytes";
  _ ← reject ((11 <? log_sq_stride) || (11 <? log_rq_stride)) "stride is larger than 2048 bytes";
  d ← dev;
  let log_max := Z.min (log_max_qp_sz (capabilities d)) 15 in
  _ ← reject ((log_max <? log_sq_bb_count) || (log_max <? log_rq_wqe_count)) "WQE count exceeds the HCA's max QP size";
  let buffer_size := 2 ^ (log_sq_bb_count + log_sq_stride) + 2 ^ (log_rq_wqe_count + log_rq_stride) in
  _ ← reject (negb (canonical buffer)) "Buffer address is not canonical";
  _ ← reject (negb (buffer mod 64 =? 0)) "buffer is not aligned to 64";
  _ ← reject (negb (access_ok s buffer buffer_size)) "User has no access to QP buffer";
  let start := buffer / PAGE_SIZE in
  last ← lift (page_add start (div_ceil buffer_size PAGE_SIZE));
  mtt ← alloc_mtt_for_pages pid (mkRange start last);
  phys ← lift (get_phys s doorbell_ptr);
  doorbell ← ok_or phys "doorbell not mapped to physical address";
  n ← alloc_qpn;
  number ← to_u32 n;
  mret {| qp_number := number; qp_state := StReset; qp_type := typ; port_number := None; qp_pd := pd;
          send_cq_number := send_cq; receive_cq_number := receive_cq; uar_index := uar_idx; qp_mtt := Some mtt;
          page_offset := Z.shiftr (buffer - page_address start) 6 mod 256; doorbell_address := doorbell;
          log_sq_bb_count := log_sq_bb_count; log_sq_stride := log_sq_stride;
          log_rq_wqe_count := log_rq_wqe_count; log_rq_stride := log_rq_stride |}.
End queues.

(** ** Changing the state of a queue pair *)

(** The fields that the driver reads; [path_mtu] is the code of the MTU. *)
(* os/library/rdma/src/ib_core.rs: QueuePairAttr *)
Record QueuePairAttr := {
  a_state : QueuePairState; path_mtu : Z; qkey : Z; dest_qp_num : Z; qp_access_flags : Z; ah_dlid : Z; ah_sl : Z; alt_dlid : Z;
  pkey_index : Z; alt_pkey_index : Z; max_rd_atomic : Z; max_dest_rd_atomic : Z; min_rnr_timer : Z; port_num : Z; timeout : Z; rnr_retry : Z
}.

(* [os/library/rdma/src/ib_core.rs:191-209] QueuePairAttrMask *)
Definition IBV_QP_STATE : Z := 2 ^ 0.
Definition IBV_QP_ACCESS_FLAGS : Z := 2 ^ 3.
Definition IBV_QP_PKEY_INDEX : Z := 2 ^ 4.
Definition IBV_QP_PORT : Z := 2 ^ 5.
Definition IBV_QP_QKEY : Z := 2 ^ 6.
Definition IBV_QP_AV : Z := 2 ^ 7.
Definition IBV_QP_PATH_MTU : Z := 2 ^ 8.
Definition IBV_QP_TIMEOUT : Z := 2 ^ 9.
Definition IBV_QP_RNR_RETRY : Z := 2 ^ 11.
Definition IBV_QP_MAX_QP_RD_ATOMIC : Z := 2 ^ 13.
Definition IBV_QP_ALT_PATH : Z := 2 ^ 14.
Definition IBV_QP_MIN_RNR_TIMER : Z := 2 ^ 15.
Definition IBV_QP_MAX_DEST_RD_ATOMIC : Z := 2 ^ 17.
Definition IBV_QP_DEST_QPN : Z := 2 ^ 20.

(* [os/kernel/src/device/infiniband/mlx4/queue_pair.rs:757-765] OptionalParameterMask *)
Definition OPT_ALTERNATE_PATH : Z := 2 ^ 0.
Definition OPT_REMOTE_READ : Z := 2 ^ 1.
Definition OPT_REMOTE_ATOMIC : Z := 2 ^ 2.
Definition OPT_REMOTE_WRITE : Z := 2 ^ 3.
Definition OPT_PKEY_INDEX : Z := 2 ^ 4.
Definition OPT_QKEY : Z := 2 ^ 5.
Definition OPT_MIN_RNR_NAK : Z := 2 ^ 6.

Definition with_port (n : Z) (q : QueuePair) : QueuePair :=
  {| qp_number := qp_number q; qp_state := qp_state q; qp_type := qp_type q; port_number := Some n; qp_pd := qp_pd q;
     send_cq_number := send_cq_number q; receive_cq_number := receive_cq_number q; uar_index := uar_index q; qp_mtt := qp_mtt q;
     page_offset := page_offset q; doorbell_address := doorbell_address q; log_sq_bb_count := log_sq_bb_count q;
     log_sq_stride := log_sq_stride q; log_rq_wqe_count := log_rq_wqe_count q; log_rq_stride := log_rq_stride q |}.
Definition with_state (s : QueuePairState) (q : QueuePair) : QueuePair :=
  {| qp_number := qp_number q; qp_state := s; qp_type := qp_type q; port_number := port_number q; qp_pd := qp_pd q;
     send_cq_number := send_cq_number q; receive_cq_number := receive_cq_number q; uar_index := uar_index q; qp_mtt := qp_mtt q;
     page_offset := page_offset q; doorbell_address := doorbell_address q; log_sq_bb_count := log_sq_bb_count q;
     log_sq_stride := log_sq_stride q; log_rq_wqe_count := log_rq_wqe_count q; log_rq_stride := log_rq_stride q |}.
Definition without_mtt (q : QueuePair) : QueuePair :=
  {| qp_number := qp_number q; qp_state := qp_state q; qp_type := qp_type q; port_number := port_number q; qp_pd := qp_pd q;
     send_cq_number := send_cq_number q; receive_cq_number := receive_cq_number q; uar_index := uar_index q; qp_mtt := None;
     page_offset := page_offset q; doorbell_address := doorbell_address q; log_sq_bb_count := log_sq_bb_count q;
     log_sq_stride := log_sq_stride q; log_rq_wqe_count := log_rq_wqe_count q; log_rq_stride := log_rq_stride q |}.

(** The code between the guards of [modify] changes the queue pair and may fail: what it has
    changed stays when it fails. *)
Notation Q := (M QueuePair).

Section modify.
Context (caps : Capabilities) (attr : QueuePairAttr) (mask : Z).

Definition has (f : Z) : bool := contains mask f.
Definition self : Q QueuePair := get.
Definition put (f : QpcField) (v : Z) (c : QueuePairContext) : Q QueuePairContext := lift (bf_set f v c).
Definition put_checked (f : QpcField) (v : Z) (c : QueuePairContext) (e : string) : Q QueuePairContext := ok_or (bf_set_checked f v c) e.
Definition access (f : Z) : Z := b2z (contains (qp_access_flags attr) f).

Definition is_rc (q : QueuePair) : bool := match qp_type q with RC => true | _ => false end.
Definition is_uc (q : QueuePair) : bool := match qp_type q with UC => true | _ => false end.
Definition is_ud (q : QueuePair) : bool := match qp_type q with UD => true | _ => false end.

Definition store_port : Q unit := if has IBV_QP_PORT then modify (with_port (port_num attr)) else mret tt.

(** Parameters that several transitions take, with their bits of the mask of optional parameters. *)
Definition put_pkey (cm : QueuePairContext * Z) : Q (QueuePairContext * Z) :=
  if has IBV_QP_PKEY_INDEX then
    _ ← reject (255 <? pkey_index attr) "pkey index out of range";
    c ← put_checked PRIMARY_PKEY_INDEX (pkey_index attr) cm.1 "pkey index out of range";
    mret (c, Z.lor cm.2 OPT_PKEY_INDEX)
  else mret cm.

Definition put_qkey (cm : QueuePairContext * Z) : Q (QueuePairContext * Z) :=
  q ← self;
  if is_ud q && has IBV_QP_QKEY then
    c ← put QKEY (qkey attr) cm.1;
    mret (c, Z.lor cm.2 OPT_QKEY)
  else mret cm.

Definition put_rnr_nak (cm : QueuePairContext * Z) : Q (QueuePairContext * Z) :=
  q ← self;
  if is_rc q && has IBV_QP_MIN_RNR_TIMER then
    c ← put_checked MIN_RNR_NAK (min_rnr_timer attr) cm.1 "min_rnr_timer out of range";
    mret (c, Z.lor cm.2 OPT_MIN_RNR_NAK)
  else mret cm.

(** [opt]: whether the bits of the mask are set too. *)
Definition put_access (opt : bool) (cm : QueuePairContext * Z) : Q (QueuePairContext * Z) :=
  q ← self;
  if (is_rc q || is_uc q) && has IBV_QP_ACCESS_FLAGS then
    c ← put QPC_REMOTE_WRITE (access REMOTE_WRITE_FLAG) cm.1;
    c ← put REMOTE_ATOMIC (access REMOTE_ATOMIC_FLAG) c;
    c ← put QPC_REMOTE_READ (access REMOTE_READ_FLAG) c;
    mret (c, if opt then Z.lor (Z.lor (Z.lor cm.2 OPT_REMOTE_WRITE) OPT_REMOTE_ATOMIC) OPT_REMOTE_READ else cm.2)
  else mret cm.

(* [os/kernel/src/device/infiniband/mlx4/queue_pair.rs:166-237] QueuePair::modify *)
Definition reset_to_init : Q (Opcode * Z * QueuePairContext) :=
  _ ← store_port;
  q ← self;
  c ← put SERVICE_TYPE (match qp_type q with RC => 0x0 | UC => 0x1 | UD => 0x3 end) bf_new;
  c ← put PATH_MIGRATION_STATE 0x3 c;
  c ← put USR_PAGE (uar_index_to_hw (uar_index q)) c;
  c ← put PROTECTION_DOMAIN (qp_pd q) c;
  c ← put CQN_SEND (send_cq_number q) c;
  c ← (if is_rc q then
         _ ← reject (negb (has IBV_QP_ACCESS_FLAGS)) "access flags are required";
         put QPC_REMOTE_READ (access REMOTE_READ_FLAG) c
       else mret c);
  c ← (if is_rc q || is_uc q then
         _ ← reject (negb (has IBV_QP_ACCESS_FLAGS)) "access flags are required";
         put QPC_REMOTE_WRITE (access REMOTE_WRITE_FLAG) c
       else mret c);
  c ← (if is_rc q then
         _ ← reject (negb (has IBV_QP_ACCESS_FLAGS)) "access flags are required";
         put REMOTE_ATOMIC (access REMOTE_ATOMIC_FLAG) c
       else mret c);
  c ← put CQN_RECEIVE (receive_cq_number q) c;
  c ← (if is_ud q then
         _ ← reject (negb (has IBV_QP_QKEY)) "qkey is required";
         put QKEY (qkey attr) c
       else mret c);
  c ← put LOG_SQ_SIZE (log_sq_bb_count q) c;
  c ← put LOG_RQ_SIZE (log_rq_wqe_count q) c;
  _ ← lift (rust_assert (4 <=? log_sq_stride q) "attempt to subtract with overflow");
  c ← put LOG_SQ_STRIDE (log_sq_stride q - 4) c;
  _ ← lift (rust_assert (4 <=? log_rq_stride q) "attempt to subtract with overflow");
  c ← put LOG_RQ_STRIDE (log_rq_stride q - 4) c;
  c ← put RESERVED_LKEY 0 c;
  c ← put SQ_NO_PREFETCH 0 c;
  c ← put PAGE_OFFSET (page_offset q) c;
  c ← put LOG_PAGE_SIZE 0 c;
  mtt ← ok_or (qp_mtt q) "queue pair has no MTT";
  c ← put MTT_BASE_ADDR mtt c;
  c ← put DB_RECORD_ADDR (doorbell_address q) c;
  mret (Rst2InitQp, 0, c).

(** [checked_next_power_of_two] of a [u8] *)
Definition next_power_of_two8 (n : Z) : option Z := if n <=? 1 then Some 1 else if n <=? 128 then Some (next_power_of_two n) else None.

Definition DEFAULT_SCHED_QUEUE : Z := 0x83.

(* [os/kernel/src/device/infiniband/mlx4/queue_pair.rs:244-335] QueuePair::modify *)
Definition init_to_rtr : Q (Opcode * Z * QueuePairContext) :=
  _ ← store_port;
  q ← self;
  c ← put MTU (if has IBV_QP_PATH_MTU then path_mtu attr else 5) bf_new;
  c ← put MSG_MAX (log_max_msg caps) c;
  c ← (if is_rc q || is_uc q then
         _ ← reject (negb (has IBV_QP_DEST_QPN)) "destination QPN is required";
         c ← put_checked REMOTE_QPN (dest_qp_num attr) c "destination QPN out of range";
         _ ← reject (negb (has IBV_QP_AV)) "address vector is required";
         put PRIMARY_RLID (ah_dlid attr) c
       else mret c);
  c ← (if is_rc q then
         _ ← reject (negb (has IBV_QP_MAX_DEST_RD_ATOMIC)) "max_dest_rd_atomic is required";
         rra_max ← ok_or (next_power_of_two8 (max_dest_rd_atomic attr)) "rra_max out of bounds";
         put_checked RRA_MAX (Z.log2 rra_max) c "rra_max out of bounds"
       else mret c);
  c ← put PRIMARY_GRH 0 c;
  c ← put PRIMARY_MLID 0 c;
  port ← ok_or (port_number q) "port number not set";
  _ ← lift (rust_assert (1 <=? port) "attempt to subtract with overflow");
  c ← put PRIMARY_SCHED_QUEUE
        (Z.lor (Z.lor DEFAULT_SCHED_QUEUE (Z.shiftl (port - 1) 6 mod 256)) (Z.shiftl (Z.land (ah_sl attr) 0xf) 2)) c;
  cm ← put_rnr_nak (c, 0);
  cm ← put_qkey cm;
  cm ← put_pkey cm;
  cm ← put_access true cm;
  cm ← (if (is_rc q || is_uc q) && has IBV_QP_ALT_PATH then
          _ ← reject (255 <? alt_pkey_index attr) "alternate pkey index out of range";
          c ← put_checked ALTERNATE_PKEY_INDEX (alt_pkey_index attr) cm.1 "alternate pkey index out of range";
          c ← put ALTERNATE_RLID (alt_dlid attr) c;
          mret (c, Z.lor cm.2 OPT_ALTERNATE_PATH)
        else mret cm);
  mret (Init2RtrQp, cm.2, cm.1).

(* [os/kernel/src/device/infiniband/mlx4/queue_pair.rs:337-362] QueuePair::modify *)
Definition stay_init : Q (Opcode * Z * QueuePairContext) :=
  cm ← put_qkey (bf_new, 0);
  cm ← put_pkey cm;
  cm ← put_access false cm;
  mret (Init2InitQp, cm.2, cm.1).

(* [os/kernel/src/device/infiniband/mlx4/queue_pair.rs:364-418] QueuePair::modify *)
Definition rtr_to_rts : Q (Opcode * Z * QueuePairContext) :=
  q ← self;
  c ← (if is_rc q then
         _ ← reject (negb (has IBV_QP_MAX_QP_RD_ATOMIC)) "max_rd_atomic is required";
         sra_max ← ok_or (next_power_of_two8 (max_rd_atomic attr)) "sra_max out of bounds";
         c ← put_checked SRA_MAX (Z.log2 sra_max) bf_new "sra_max out of bounds";
         _ ← reject (negb (has IBV_QP_RNR_RETRY)) "rnr_retry is required";
         c ← put_checked RNR_RETRY (rnr_retry attr) c "rnr_retry out of range";
         _ ← reject (negb (has IBV_QP_TIMEOUT)) "timeout is required";
         put_checked PRIMARY_ACK_TIMEOUT (timeout attr) c "timeout out of range"
       else mret bf_new);
  cm ← put_rnr_nak (c, 0);
  cm ← put_qkey cm;
  cm ← put_pkey cm;
  cm ← put_access true cm;
  mret (Rtr2RtsQp, cm.2, cm.1).

(** The command of a change, if there is one. *)
(* [os/kernel/src/device/infiniband/mlx4/queue_pair.rs:138-446] QueuePair::modify *)
Definition transition : Q (option (Opcode * Z * QueuePairContext)) :=
  _ ← reject (has IBV_QP_PORT && negb ((1 <=? port_num attr) && (port_num attr <=? num_ports caps))) "port number out of range";
  q ← self;
  match qp_state q, (if has IBV_QP_STATE then Some (a_state attr) else None) with
  | StReset, Some StInit => r ← reset_to_init; mret (Some r)
  | StReset, None => mret None
  | StInit, Some ReadyToReceive => r ← init_to_rtr; mret (Some r)
  | StInit, Some StInit | StInit, None => r ← stay_init; mret (Some r)
  | ReadyToReceive, Some ReadyToSend => r ← rtr_to_rts; mret (Some r)
  | ReadyToReceive, None => fail "modifying a QP in RTR is not supported"
  | ReadyToSend, Some ReadyToSend | ReadyToSend, None => fail "modifying a QP in RTS is not supported"
  | ReadyToSend, Some SQD | SQD, Some ReadyToSend | SQD, Some SQD | SQD, None => fail "the SQD state is not supported"
  | _, Some StReset => mret (Some (Any2RstQp, 0, bf_new))
  | StReset, Some _ => fail "Can not go from RESET to the supplied State"
  | StInit, Some _ => fail "Can not go from INIT to the supplied State"
  | ReadyToReceive, Some _ => fail "Can not go from RTR to the supplied State"
  | ReadyToSend, Some _ => fail "Can not go from RTS to the supplied State"
  | SQD, Some _ => fail "Can not go from SQD to the supplied State"
  end.
End modify.

Section modify_qp.
Context {C A : Type} `{Card C} `{FrameAllocator A}.
Notation World := (World C A).

(** The queue pair afterwards, also if it failed. *)
(* [os/kernel/src/device/infiniband/mlx4/queue_pair.rs:447-458] QueuePair::modify *)
Definition qp_modify (q : QueuePair) (attr : QueuePairAttr) (mask : Z) : M World (result string unit * QueuePair) :=
  d ← dev;
  '(r, q) ← lift (transition (capabilities d) attr mask q);
  match r with
  | Err e => mret (Err e, q)
  | Ok None => mret (Ok tt, q)
  | Ok (Some (op, m, c)) =>
      r ← attempt (execute_command op (InMailbox (MbQpc m c)) (qp_number q) OutEmpty);
      mret match r with
           | Ok _ => (Ok tt, if contains mask IBV_QP_STATE then with_state (a_state attr) q else q)
           | Err e => (Err e, q)
           end
  end.

(** [QueuePairAttr { qp_state: Reset, ..Default::default() }] *)
Definition reset_attr : QueuePairAttr :=
  {| a_state := StReset; path_mtu := 5; qkey := 0; dest_qp_num := 0; qp_access_flags := 0; ah_dlid := 0; ah_sl := 0; alt_dlid := 0;
     pkey_index := 0; alt_pkey_index := 0; max_rd_atomic := 0; max_dest_rd_atomic := 0; min_rnr_timer := 0; port_num := 0;
     timeout := 0; rnr_retry := 0 |}.

(* [os/kernel/src/device/infiniband/mlx4/queue_pair.rs:463-479] QueuePair::destroy *)
Definition qp_destroy (q : QueuePair) : M World (result string unit * QueuePair) :=
  '(r, q) ← (if decide (qp_state q = StReset) then mret (Ok tt, q) else qp_modify q reset_attr IBV_QP_STATE);
  mret match r with Ok _ => (Ok tt, without_mtt q) | Err e => (Err e, q) end.
End modify_qp.

(** * Verbs of the kernel driver ([os/kernel/src/device/infiniband/mlx4/mod.rs])

    What processes do with the adapter: open a context, create and destroy protection domains,
    completion queues, queue pairs and memory regions in it, and change the state of queue pairs.
    A context belongs to the process that opened it; when the process ends, [release] destroys
    everything it created. *)

(** [Vec::pop]: the last element and the others. *)
Definition pop {B} (l : list B) : option (B * list B) := x ← last l; Some (x, take (length l - 1) l).

Definition UAR_FLAGS : Z := Z.lor (Z.lor (Z.lor USER_ACCESSIBLE WRITABLE) NO_EXECUTE) NO_CACHE.

(** [format!("{prefix}{index}")] as bytes. *)
Definition uar_tag (prefix : string) (index : Z) : list Z :=
  (fun c => Z.of_N (Ascii.N_of_ascii c)) <$> String.list_ascii_of_string (prefix +:+ pretty index).

Section verbs.
Context {C A : Type} `{Card C} `{FrameAllocator A}.
Notation World := (World C A).

(** ** Contexts *)

(* [os/kernel/src/device/infiniband/mlx4/mod.rs:654-658] context_of *)
Definition context_of (handle pid : Z) : M World UContext :=
  d ← dev;
  ok_or (c ← contexts d !! handle; if owner c =? pid then Some c else None) "context not found".

(** The changes a verb makes to the context it got from [context_of]. *)
Definition put_context (handle : Z) (c : UContext) : M World unit :=
  upd_dev (fun d => with_contexts (<[handle := c]> (contexts d)) d).

(* os/kernel/src/device/infiniband/mlx4/mod.rs: UContext::uar_index *)
Definition ctx_uar_index (c : UContext) : Z := wrap32 (uar_idx (uar_page c)).

(* os/kernel/src/device/infiniband/mlx4/mod.rs: UContext::validate_pd *)
Definition validate_pd (c : UContext) (pd : Z) : M World unit := reject (negb (bool_decide (pd ∈ pds c))) "PD not found".

(** A page of the adapter in the address space of a process. *)
(* [os/kernel/src/device/infiniband/mlx4/mod.rs:751-765] UarPage::map_doorbell_page *)
Definition map_device_page (pid frame : Z) (tag : list Z) (no_area not_mapped : string) : M World Z :=
  area ← prim (fun w =>
    '(v, s) ← alloc_vma (w_spaces w pid) None 1 User DeviceMemory tag;
    Ret (match v with Some v => Ok v | None => Err no_area end, set_space pid s (w_frames w) w));
  _ ← lift (phys_addr_new (start_address (frame + 1)));
  prim (fun w =>
    '(r, s, a) ← map_pfr_for_vma (w_frames w) (w_spaces w pid) area (mkRange frame (frame + 1)) UAR_FLAGS;
    Ret (match r with Ok _ => Ok (r_start (vma_range area)) | Err _ => Err not_mapped end, set_space pid s a w)).

Definition map_doorbell_page (u : UarPage) (pid : Z) : M World Z :=
  map_device_page pid (uar_doorbell u) (uar_tag "db-" (uar_idx u)) "Failed to allocate VMA for UAR" "Failed to map UAR".

(* [os/kernel/src/device/infiniband/mlx4/mod.rs:770-785] UarPage::map_blueflame_page *)
Definition map_blueflame_page (u : UarPage) (pid : Z) : M World Z :=
  frame ← ok_or (uar_blueflame u) "No BlueFlame Page present";
  map_device_page pid frame (uar_tag "bf-" (uar_idx u)) "Failed to allocate VMA for BF" "Failed to map BF".

(* [os/kernel/src/device/infiniband/mlx4/mod.rs:284-309] Mlx4Device::open *)
Definition open (pid : Z) : M World UContext :=
  d ← dev;
  let handle := next_context d in
  _ ← reject (U32_MAX <? handle + 1) "No context handle available";
  '(page, rest) ← ok_or (pop (uar_list d)) "No UAR page available";
  _ ← upd_dev (with_uar_list rest);
  pages ← attempt (doorbell ← map_doorbell_page page pid; blueflame ← map_blueflame_page page pid; mret (doorbell, blueflame));
  match pages with
  | Err e => _ ← upd_dev (fun d => with_uar_list (uar_list d ++ [page]) d); fail e
  | Ok (doorbell, blueflame) =>
      _ ← upd_dev (with_next_context (handle + 1));
      d ← dev;
      match contexts d !! handle with
      | Some c => mret c
      | None =>
          let c := mkCtx handle pid page doorbell blueflame [] [] [] [] in
          _ ← put_context handle c;
          mret c
      end
  end.

(** ** Protection domains *)

(** [(pd..).take(n).find(|pd| !used.contains(pd))] *)
Fixpoint first_free (n : nat) (pd : Z) (used : gset Z) : option Z :=
  match n with
  | O => None
  | S n' => if bool_decide (pd ∈ used) then first_free n' (pd + 1) used else Some pd
  end.

(* [os/kernel/src/device/infiniband/mlx4/mod.rs:422-433] Mlx4Device::alloc_pd *)
Definition alloc_pd (pid handle : Z) : M World Z :=
  c ← context_of handle pid;
  d ← dev;
  let caps := capabilities d in
  pd ← ok_or (first_free (Z.to_nat (2 ^ log_max_pd caps)) (num_rsvd_pds caps) (pd_numbers d)) "No protection domains available";
  _ ← upd_dev (fun d => with_pd_numbers ({[pd]} ∪ pd_numbers d) d);
  _ ← put_context handle (with_pds (pds c ++ [pd]) c);
  mret pd.

(* [os/kernel/src/device/infiniband/mlx4/mod.rs:435-443] Mlx4Device::dealloc_pd *)
Definition dealloc_pd (pid handle pd : Z) : M World unit :=
  c ← context_of handle pid;
  '(index, _) ← ok_or (list_find (fun p => p = pd) (pds c)) "PD not found";
  _ ← put_context handle (with_pds (swap_remove (pds c) index) c);
  upd_dev (fun d => with_pd_numbers (pd_numbers d ∖ {[pd]}) d).

(** ** Objects *)

(** The destructors of the objects panic while the object is in use. *)
Definition drop_object {B} (o : option B) : M World unit :=
  lift (rust_assert (negb (bool_decide (is_Some o))) "please destroy instead of dropping").

(* [os/kernel/src/device/infiniband/mlx4/mod.rs:446-471] Mlx4Device::create_cq *)
Definition create_cq (pid handle entries buffer doorbell_ptr : Z) : M World Z :=
  c ← context_of handle pid;
  d ← dev;
  cq ← cq_new (eq_number <$> head (eqs d)) pid entries buffer doorbell_ptr (ctx_uar_index c);
  _ ← attempt (execute_command QueryCq InEmpty (cq_number cq) OutMailbox);
  _ ← put_context handle (with_cqs (cqs c ++ [cq]) c);
  mret (cq_number cq).

(* [os/kernel/src/device/infiniband/mlx4/mod.rs:474-480] Mlx4Device::destroy_cq *)
Definition destroy_cq (pid handle number : Z) : M World unit :=
  c ← context_of handle pid;
  '(index, cq) ← ok_or (list_find (fun cq => cq_number cq = number) (cqs c)) "completion queue not found";
  cq ← cq_destroy cq;
  _ ← drop_object (cq_mtt cq);
  put_context handle (with_cqs (delete index (cqs c)) c).

(** The arguments of [create_qp] after the queue numbers. *)
Record QpShape := {
  sh_buffer : Z; sh_doorbell : Z; sh_log_sq_bb_count : Z; sh_log_sq_stride : Z; sh_log_rq_wqe_count : Z; sh_log_rq_stride : Z
}.

(* [os/kernel/src/device/infiniband/mlx4/mod.rs:483-517] Mlx4Device::create_qp *)
Definition create_qp (pid handle pd : Z) (typ : QueuePairType) (send_cq receive_cq : Z) (sh : QpShape) : M World Z :=
  c ← context_of handle pid;
  _ ← validate_pd c pd;
  _ ← reject (negb (existsb (fun cq => cq_number cq =? send_cq) (cqs c))) "send completion queue not found";
  _ ← reject (negb (existsb (fun cq => cq_number cq =? receive_cq) (cqs c))) "receive completion queue not found";
  qp ← qp_new pid typ pd send_cq receive_cq (sh_buffer sh) (sh_doorbell sh) (ctx_uar_index c)
         (sh_log_sq_bb_count sh) (sh_log_sq_stride sh) (sh_log_rq_wqe_count sh) (sh_log_rq_stride sh);
  _ ← put_context handle (with_qps (qps c ++ [qp]) c);
  mret (qp_number qp).

Definition of_unit_result (r : result string unit) : M World unit := of_result r.

(* [os/kernel/src/device/infiniband/mlx4/mod.rs:522-526] Mlx4Device::modify_qp *)
Definition modify_qp (pid handle number : Z) (attr : QueuePairAttr) (mask : Z) : M World unit :=
  c ← context_of handle pid;
  '(index, qp) ← ok_or (list_find (fun qp => qp_number qp = number) (qps c)) "queue pair not found";
  '(r, qp) ← qp_modify qp attr mask;
  _ ← put_context handle (with_qps (<[index := qp]> (qps c)) c);
  of_unit_result r.

(* [os/kernel/src/device/infiniband/mlx4/mod.rs:529-535] Mlx4Device::destroy_qp *)
Definition destroy_qp (pid handle number : Z) : M World unit :=
  c ← context_of handle pid;
  '(index, qp) ← ok_or (list_find (fun qp => qp_number qp = number) (qps c)) "queue pair not found";
  '(r, qp) ← qp_destroy qp;
  match r with
  | Err e => _ ← put_context handle (with_qps (<[index := qp]> (qps c)) c); fail e
  | Ok _ =>
      _ ← drop_object (qp_mtt qp);
      put_context handle (with_qps (swap_remove (qps c) index) c)
  end.

(* [os/kernel/src/device/infiniband/mlx4/mod.rs:540-555] Mlx4Device::create_mr *)
Definition create_mr (pid handle pd address size access : Z) : M World MemoryRegionMetadata :=
  c ← context_of handle pid;
  _ ← validate_pd c pd;
  '(mr, metadata) ← alloc_dmpt pid pd address size access;
  _ ← put_context handle (with_mrs (mrs c ++ [mr]) c);
  mret metadata.

(* [os/kernel/src/device/infiniband/mlx4/mod.rs:558-564] Mlx4Device::destroy_mr *)
Definition destroy_mr (pid handle index : Z) : M World unit :=
  c ← context_of handle pid;
  '(position, mr) ← ok_or (list_find (fun mr => mr_index mr = Some index) (mrs c)) "dmpt entry not found";
  mr ← mr_destroy mr;
  _ ← drop_object (mr_dmpt mr);
  put_context handle (with_mrs (swap_remove (mrs c) position) c).

(** ** The end of a process *)

(** [retain_mut] with a destructor: the elements that could not be destroyed. *)
Fixpoint retain {B} (destroy : B -> M World (result string unit * B)) (l : list B) : M World (list B) :=
  match l with
  | [] => mret []
  | x :: l' =>
      '(r, x) ← destroy x;
      kept ← retain destroy l';
      mret match r with Ok _ => kept | Err _ => x :: kept end
  end.

Definition in_place {B} (destroy : B -> M World B) (x : B) : M World (result string unit * B) :=
  r ← attempt (destroy x);
  mret match r with Ok x' => (Ok tt, x') | Err e => (Err e, x) end.

Definition drop_if {B D} (part : B -> option D) (destroy : B -> M World (result string unit * B)) (x : B)
    : M World (result string unit * B) :=
  '(r, x) ← destroy x;
  _ ← (match r with Ok _ => drop_object (part x) | Err _ => mret tt end);
  mret (r, x).

(** The context afterwards, and whether everything is gone. *)
(* [os/kernel/src/device/infiniband/mlx4/mod.rs:706-733] UContext::destroy *)
Definition ctx_destroy (c : UContext) : M World (bool * UContext) :=
  qs ← retain (drop_if qp_mtt qp_destroy) (qps c);
  ms ← retain (drop_if mr_dmpt (in_place mr_destroy)) (mrs c);
  cs ← retain (drop_if cq_mtt (in_place cq_destroy)) (cqs c);
  mret (bool_decide (qs = []) && bool_decide (ms = []) && bool_decide (cs = []),
        with_qps qs (with_mrs ms (with_cqs cs c))).

(** The handles of the contexts of a process, in ascending order. *)
Definition handles_of (pid : Z) (m : gmap Z UContext) : list Z :=
  merge_sort Z.le ((map_to_list m ≫= fun '(h, c) => if owner c =? pid then [h] else [])).

(* [os/kernel/src/device/infiniband/mlx4/mod.rs:321-340] Mlx4Device::release *)
Fixpoint release_contexts (handles : list Z) (r : result string unit) : M World unit :=
  match handles with
  | [] => of_unit_result r
  | h :: handles' =>
      d ← dev;
      match contexts d !! h with
      | None => release_contexts handles' r
      | Some c =>
          _ ← upd_dev (with_contexts (delete h (contexts d)));
          '(gone, c) ← ctx_destroy c;
          if gone : bool then
            _ ← upd_dev (fun d => with_pd_numbers (pd_numbers d ∖ list_to_set (pds c)) d);
            _ ← upd_dev (fun d => with_uar_list (uar_list d ++ [uar_page c]) d);
            release_contexts handles' r
          else
            _ ← put_context h c;
            release_contexts handles' (Err "failed to destroy all resources of the context"%string)
      end
  end.

(* [os/kernel/src/device/infiniband/mlx4/mod.rs:318-341] Mlx4Device::release *)
Definition release (pid : Z) : M World unit :=
  d ← dev;
  release_contexts (handles_of pid (contexts d)) (Ok tt).
End verbs.

(** ** The pages for doorbells *)

(** The pages of the second BAR that are handed out: doorbells from the first page that is not
    reserved, with the BlueFlame pages in the second half. *)
(* [os/kernel/src/device/infiniband/mlx4/mod.rs:183-197] Mlx4Device::init *)
Fixpoint uar_pages (n : nat) (caps : Capabilities) (bar num index : Z) : outcome (list UarPage) :=
  match n with
  | O => Ret []
  | S n' =>
      db ← phys_addr_new (bar + PAGE_SIZE * index);
      doorbell ← expect (from_start_address db) "Doorbell page not aligned";
      blueflame ← (if bf caps then
                     a ← phys_addr_new (bar + PAGE_SIZE * (num + index));
                     f ← expect (from_start_address a) "BlueFlame page not aligned";
                     Ret (Some f)
                   else Ret None);
      rest ← uar_pages n' caps bar num (index + 1);
      Ret ({| uar_idx := index; uar_doorbell := doorbell; uar_blueflame := blueflame |} :: rest)
  end.

Definition init_uar_list (caps : Capabilities) (bar : Z) : outcome (list UarPage) :=
  num ← num_uars caps;
  uar_pages (Z.to_nat (num - num_rsvd_uars caps)) caps bar num (num_rsvd_uars caps).
