(* ===== verification/HcaIsolation.v ===== *)
(** * The invariant of the kernel driver

    What the operations below the verbs leave alone, and who owns what. *)

From S2P Require Import Prelude Intervals Dram FrameAlloc Paging Vma Vmm Bytes Verbs HcaLayout HcaHw.
From S2P Require Import HcaIcm HcaDev.

Open Scope Z_scope.

(** * What the operations below the verbs leave alone

    Every operation that a verb is made of keeps the contexts, the tables and the address spaces,
    hands out increasing numbers, and writes only entries of the translation table that were
    not handed out before. *)

Create HintDb hca.

(** A table whose first chunk is at the frame [m0]; the others follow it. *)
Definition table_ok (t : IcmTable) (m0 : Z) : Prop :=
  exists rest, icm t = mkIcm (Some m0) (virt t) 64 :: rest /\
    Forall (fun m => TABLE_CHUNK_SIZE <= card_virtual m - virt t /\ num_pages m = 64) rest.

(** The end of the entries that were handed out. *)
Definition mtt_end (d : Mlx4Device) : Z := (reserved_mtts (mr_table d) + mtt_offset (mr_table d)) * mtt_entry_sz (capabilities d).

Lemma host_bytes_ok t m0 off a : table_ok t m0 -> 0 <= off -> host_bytes_mut t off 8 = Ok a ->
  a = start_address m0 + off /\ off + 8 <= TABLE_CHUNK_SIZE.
Proof.
  intros (rest & Ht & Hr) H0 Hh. unfold host_bytes_mut in Hh. rewrite Ht in Hh. simpl List.find in Hh.
  destruct (chunk_covers (virt t) off (mkIcm (Some m0) (virt t) 64)) eqn:Hc.
  - unfold chunk_covers in Hc. cbn [card_virtual num_pages mi_memory] in *. apply andb_true_iff in Hc as [_ Hc].
    apply Z.ltb_lt in Hc. unfold PAGE_SIZE, TABLE_CHUNK_SIZE in *.
    rewrite (Z.mod_small off) in Hh by lia. destruct (Z.ltb_spec (64 * 4096) (off + 8)); [done|].
    injection Hh as <-. split; [done|lia].
  - assert (List.find (chunk_covers (virt t) off) rest = None) as Hn.
    { clear Ht Hh. induction Hr as [|m l [H1 H2] _ IH]; [done|]. simpl.
      unfold chunk_covers at 1. rewrite H2. unfold PAGE_SIZE, TABLE_CHUNK_SIZE in *.
      destruct (Z.leb_spec (card_virtual m - virt t) off), (Z.ltb_spec off (64 * 4096)); cbn; try lia; exact IH. }
    by rewrite Hn in Hh.
Qed.

Lemma host_bytes_fits t m0 off : table_ok t m0 -> 0 <= off -> off + 8 <= TABLE_CHUNK_SIZE ->
  host_bytes_mut t off 8 = Ok (start_address m0 + off).
Proof.
  intros (rest & Ht & _) H0 H1. unfold host_bytes_mut. rewrite Ht. simpl List.find. unfold chunk_covers.
  cbn [card_virtual num_pages mi_memory]. unfold PAGE_SIZE, TABLE_CHUNK_SIZE in *.
  destruct (Z.leb_spec (virt t - virt t) off), (Z.ltb_spec off (64 * 4096)); try lia. cbn.
  rewrite (Z.mod_small off) by lia. destruct (Z.ltb_spec (64 * 4096) (off + 8)); [lia|done].
Qed.

Lemma write_mem_outside mem a bytes x : ~ (a <= x < a + Z.of_nat (length bytes)) -> write_mem mem a bytes x = mem x.
Proof. intros Hx. unfold write_mem. by rewrite decide_False. Qed.

Lemma add64_ret a b c : add64 a b = Ret c -> c = a + b.
Proof. unfold add64, checked_add. intros E. case_match; [by injection E as <-|done]. Qed.
Lemma mul64_ret a b c : mul64 a b = Ret c -> c = a * b.
Proof. unfold mul64, checked_mul. intros E. case_match; [by injection E as <-|done]. Qed.

Section frame.
Context {C A : Type} `{Card C} `{FrameAllocator A}.
Notation World := (World C A).
Implicit Types w : World.

Record low (w w' : World) : Prop := {
  low_spaces : w_spaces w' = w_spaces w;
  low_frames : w_frames w' = w_frames w;
  low_caps : capabilities (w_dev w') = capabilities (w_dev w);
  low_contexts : contexts (w_dev w') = contexts (w_dev w);
  low_next : next_context (w_dev w') = next_context (w_dev w);
  low_pds : pd_numbers (w_dev w') = pd_numbers (w_dev w);
  low_eqs : eqs (w_dev w') = eqs (w_dev w);
  low_uars : uar_list (w_dev w') = uar_list (w_dev w);
  low_cqn : next_cqn (offsets (w_dev w)) <= next_cqn (offsets (w_dev w'));
  low_qpn : next_qpn (offsets (w_dev w)) <= next_qpn (offsets (w_dev w'));
  low_dmpt : next_dmpt (offsets (w_dev w)) <= next_dmpt (offsets (w_dev w'));
  low_mtt : mtt_table (mr_table (w_dev w')) = mtt_table (mr_table (w_dev w));
  low_dmpts : dmpt_table (mr_table (w_dev w')) = dmpt_table (mr_table (w_dev w));
  low_rsvd : reserved_mtts (mr_table (w_dev w')) = reserved_mtts (mr_table (w_dev w));
  low_off : mtt_offset (mr_table (w_dev w)) <= mtt_offset (mr_table (w_dev w'));
  low_mem m0 x : table_ok (mtt_table (mr_table (w_dev w))) m0 -> 8 <= mtt_entry_sz (capabilities (w_dev w)) ->
    0 <= mtt_end (w_dev w) -> ~ (mtt_end (w_dev w) <= x - start_address m0 < mtt_end (w_dev w')) -> w_mem w' x = w_mem w x
}.

#[export] Instance low_refl : Reflexive low.
Proof. intros w. split; try done; lia. Qed.

Lemma mtt_end_mono w w' : low w w' -> 8 <= mtt_entry_sz (capabilities (w_dev w)) -> mtt_end (w_dev w) <= mtt_end (w_dev w').
Proof.
  intros L Hs. unfold mtt_end. rewrite (low_caps _ _ L), (low_rsvd _ _ L). pose proof (low_off _ _ L). nia.
Qed.

#[export] Instance low_trans : Transitive low.
Proof.
  intros w1 w2 w3 L1 L2. pose proof (mtt_end_mono _ _ L1) as M1. pose proof (mtt_end_mono _ _ L2) as M2.
  destruct L1 as [], L2 as []. split; try congruence; try lia.
  intros m0 x Ht Hs Hp Hx. specialize (M1 Hs). rewrite low_caps0 in M2. specialize (M2 Hs).
  rewrite (low_mem1 m0); [apply (low_mem0 m0); [done|done|done|lia]|congruence|congruence|lia|lia].
Qed.

Lemma low_set_card c w : low w (set_card c w).
Proof. split; try done; simpl; lia. Qed.

(** Changes of the device that only hand out numbers. *)
Lemma low_set_dev d w :
  capabilities d = capabilities (w_dev w) -> contexts d = contexts (w_dev w) -> next_context d = next_context (w_dev w) ->
  pd_numbers d = pd_numbers (w_dev w) -> eqs d = eqs (w_dev w) -> uar_list d = uar_list (w_dev w) ->
  next_cqn (offsets (w_dev w)) <= next_cqn (offsets d) -> next_qpn (offsets (w_dev w)) <= next_qpn (offsets d) ->
  next_dmpt (offsets (w_dev w)) <= next_dmpt (offsets d) ->
  mtt_table (mr_table d) = mtt_table (mr_table (w_dev w)) -> dmpt_table (mr_table d) = dmpt_table (mr_table (w_dev w)) ->
  reserved_mtts (mr_table d) = reserved_mtts (mr_table (w_dev w)) -> mtt_offset (mr_table (w_dev w)) <= mtt_offset (mr_table d) ->
  low w (set_dev d w).
Proof. intros. by split. Qed.

(** ** Primitive operations *)

Lemma wp_dev P w (Q : _ -> _ -> Prop) : Q (Ok (w_dev w)) w -> wp P dev w Q.
Proof. done. Qed.
Lemma wp_space P pid w (Q : _ -> _ -> Prop) : Q (Ok (w_spaces w pid)) w -> wp P (space pid) w Q.
Proof. done. Qed.
Lemma wp_upd_dev P f w (Q : _ -> _ -> Prop) : Q (Ok tt) (set_dev (f (w_dev w)) w) -> wp P (upd_dev f) w Q.
Proof. done. Qed.
Lemma wp_of_result {B} P (r : result string B) w (Q : _ -> _ -> Prop) : Q r w -> wp P (of_result r) w Q.
Proof. done. Qed.
Lemma wp_execute P op i m o w (Q : _ -> _ -> Prop) :
  (forall msg, execute_command op i m o w = Panic msg -> P) -> (forall r c, execute_command op i m o w = Ret (r, set_card c w) -> Q r (set_card c w)) ->
  wp P (execute_command op i m o) w Q.
Proof.
  intros Hp Hq. unfold wp. destruct (execute_command op i m o w) as [[r w']|msg] eqn:E; [|by eapply Hp].
  assert (exists c, w' = set_card c w) as [c ->]; [|by apply Hq].
  unfold execute_command, execute_command_mod in E. destruct (card_exec _ _) as [[s imm out|] c]; [|injection E as <- <-; by exists c].
  destruct (status_name s); [|done]. injection E as <- <-. by exists c.
Qed.

Lemma low_execute_mod op om i m o : steps low (execute_command_mod (A := A) op om i m o).
Proof.
  intros w. unfold wp, execute_command_mod. destruct (card_exec _ _) as [[s imm out|] c]; [|apply low_set_card].
  destruct (status_name s); [apply low_set_card|done].
Qed.
Lemma low_execute op i m o : steps low (execute_command (A := A) op i m o).
Proof. apply low_execute_mod. Qed.

Lemma low_lift {B} (m : outcome B) : steps low (lift m).
Proof. intros w. wp_step. done. Qed.
Lemma low_reject b e : steps low (reject b e).
Proof. intros w. wp_step; done. Qed.
Lemma low_ok_or {B} (o : option B) e : steps low (ok_or o e).
Proof. intros w. wp_step; done. Qed.
Lemma low_ret {B} (b : B) : steps low (mret b).
Proof. intros w. wp_step. done. Qed.
Lemma low_fail {B} e : steps low (fail (A := B) e).
Proof. intros w. wp_step. done. Qed.
Lemma low_dev : steps low dev.
Proof. intros w. unfold wp, dev. done. Qed.
Lemma low_space pid : steps low (space pid).
Proof. intros w. unfold wp, space. done. Qed.
Lemma low_of_result {B} (r : result string B) : steps low (of_result r).
Proof. intros w. unfold wp, of_result. done. Qed.
Lemma low_to_u32 n : steps low (to_u32 n).
Proof. intros w. unfold to_u32. repeat wp_step; done. Qed.
Lemma low_alloc_cqn : steps low alloc_cqn.
Proof. intros w. unfold wp, alloc_cqn. cbn. apply low_set_dev; try done; simpl; lia. Qed.
Lemma low_alloc_qpn : steps low alloc_qpn.
Proof. intros w. unfold wp, alloc_qpn. cbn. apply low_set_dev; try done; simpl; lia. Qed.
Lemma low_alloc_dmpt_index : steps low alloc_dmpt_index.
Proof. intros w. unfold wp, alloc_dmpt_index. cbn. apply low_set_dev; try done; simpl; lia. Qed.
End frame.

Ltac hca_step :=
  lazymatch goal with
  | |- wp _ dev _ _ => apply wp_dev
  | |- wp _ (space _) _ _ => apply wp_space
  | |- wp _ (upd_dev _) _ _ => apply wp_upd_dev
  | |- wp _ (of_result _) _ _ => apply wp_of_result
  | |- wp True (execute_command _ _ _ _) _ _ => apply wp_execute; [done|let r := fresh "r" in let c := fresh "c" in let Ex := fresh "Ex" in intros r c Ex]
  | |- _ => wp_step
  end.

#[export] Hint Resolve low_execute low_execute_mod low_lift low_reject low_ok_or low_ret low_fail low_dev low_space low_of_result low_to_u32
  low_alloc_cqn low_alloc_qpn low_alloc_dmpt_index : hca.

(** ** The translation table *)

(** A big-endian number in physical memory. *)
Definition read_be64 (mem : Z -> Z) (a : Z) : Z := be_value ((fun i => mem (a + i)) <$> seqZ 0 8).

Lemma read_be64_ext mem mem' a : (forall x, a <= x < a + 8 -> mem x = mem' x) -> read_be64 mem a = read_be64 mem' a.
Proof.
  intros Hx. unfold read_be64. f_equal. apply list_fmap_ext. intros i y Hi.
  apply list_elem_of_lookup_2, elem_of_seqZ in Hi. apply Hx. lia.
Qed.

Lemma read_be64_write mem a v : 0 <= v < 2 ^ 64 -> read_be64 (write_mem mem a (be_bytes 8 v)) a = v.
Proof.
  intros Hv. rewrite <- (be_value_bytes 8 v) at 2 by (change (256 ^ Z.of_nat 8) with (2 ^ 64); lia).
  unfold read_be64. f_equal. change (seqZ 0 8) with [0; 1; 2; 3; 4; 5; 6; 7].
  assert (forall i, 0 <= i < 8 -> write_mem mem a (be_bytes 8 v) (a + i) = nth (Z.to_nat i) (be_bytes 8 v) 0) as Hw.
  { intros i Hi. unfold write_mem. rewrite decide_True by (rewrite be_bytes_length; lia). f_equal. lia. }
  cbn [fmap list_fmap]. by rewrite !Hw by lia.
Qed.

(** The pages of a buffer have physical addresses of 52 bits. *)
Definition phys_ok (s : VirtualAddressSpace) (page : Z) (n : nat) : Prop :=
  forall i p, 0 <= i < Z.of_nat n -> get_phys s (page_address (page + i)) = Ret (Some p) -> 0 <= p < 2 ^ 52.

(** Entry [i] of a range is the page [i] of the buffer, marked as present. *)
Definition entries_ok (s : VirtualAddressSpace) (mem : Z -> Z) (base page sz : Z) (n : nat) : Prop :=
  forall i, 0 <= i < Z.of_nat n -> exists p, get_phys s (page_address (page + i)) = Ret (Some p) /\
    p mod PAGE_SIZE = 0 /\ p <> 0 /\ read_be64 mem (base + i * sz) = Z.lor p MTT_FLAG_PRESENT.

Section mtt.
Context {C A : Type} `{Card C} `{FrameAllocator A}.
Notation World := (World C A).
Implicit Types w : World.

(** Entries are written one after the other, each within the first chunk. *)
Definition mtts_written (pid : Z) (n : nat) (page addr sz : Z) (w : World) (r : result string unit) (mem : Z -> Z) : Prop :=
  forall m0, table_ok (mtt_table (mr_table (w_dev w))) m0 -> 8 <= sz -> 0 <= addr ->
    (forall x, ~ (addr <= x - start_address m0 < addr + Z.of_nat n * sz) -> mem x = w_mem w x) /\
    (r = Ok tt -> (forall i, 0 <= i < Z.of_nat n -> addr + i * sz + 8 <= TABLE_CHUNK_SIZE) /\
      (phys_ok (w_spaces w pid) page n -> entries_ok (w_spaces w pid) mem (start_address m0 + addr) page sz n)).

Lemma mtts_written_err pid n page addr sz w e : mtts_written pid n page addr sz w (Err e) (w_mem w).
Proof. by intros m0 _ _ _. Qed.

Lemma set_mem_self w : set_mem (w_mem w) w = w.
Proof. by destruct w. Qed.

Lemma mtts_written_step pid n page addr sz w r phys a mem :
  get_phys (w_spaces w pid) (page_address page) = Ret (Some phys) -> phys <> 0 -> phys mod PAGE_SIZE = 0 ->
  host_bytes_mut (mtt_table (mr_table (w_dev w))) addr 8 = Ok a ->
  mtts_written pid n (page + 1) (addr + sz) sz (set_mem (write_mem (w_mem w) a (be_bytes 8 (Z.lor phys MTT_FLAG_PRESENT))) w) r mem ->
  mtts_written pid (S n) page addr sz w r mem.
Proof.
  intros Hp Hp0 Hpa Ha IH m0 Ht Hs Haddr. destruct (host_bytes_ok _ _ _ _ Ht Haddr Ha) as [-> Hfit].
  destruct (IH m0 Ht Hs ltac:(lia)) as [IHm IHr]. cbn [w_mem set_mem w_spaces w_dev] in *. split.
  - intros x Hx. rewrite IHm by lia. apply write_mem_outside. rewrite be_bytes_length. lia.
  - intros Hr. destruct (IHr Hr) as [IHf IHe]. split.
    + intros i Hi. destruct (decide (i = 0)) as [->|]; [lia|]. specialize (IHf (i - 1) ltac:(lia)). lia.
    + intros Hk. assert (phys_ok (w_spaces w pid) (page + 1) n) as Hk'.
      { intros i p Hi E. apply (Hk (i + 1)); [lia|]. by replace (page + (i + 1)) with (page + 1 + i) by lia. }
      intros i Hi. destruct (decide (i = 0)) as [->|].
      * exists phys. replace (page + 0) with page by lia. split_and!; [done|done|done|].
        rewrite (read_be64_ext _ (write_mem (w_mem w) (start_address m0 + addr) (be_bytes 8 (Z.lor phys MTT_FLAG_PRESENT))))
          by (intros x Hx; apply IHm; lia).
        replace (start_address m0 + addr + 0 * sz) with (start_address m0 + addr) by lia.
        apply read_be64_write. specialize (Hk 0 phys ltac:(lia)). replace (page + 0) with page in Hk by lia. specialize (Hk Hp).
        unfold MTT_FLAG_PRESENT. split; [by apply Z.lor_nonneg; lia|].
        apply Z.log2_lt_cancel. rewrite Z.log2_lor, Z.log2_pow2 by lia. apply Z.max_lub_lt; [|done].
        destruct (decide (phys = 0)) as [->|]; [done|]. apply Z.log2_lt_pow2; lia.
      * destruct (IHe Hk' (i - 1) ltac:(lia)) as (p & E & Hm & Hn & Hr'). exists p.
        replace (page + 1 + (i - 1)) with (page + i) in E by lia.
        replace (start_address m0 + (addr + sz) + (i - 1) * sz) with (start_address m0 + addr + i * sz) in Hr' by lia. done.
Qed.

Lemma write_mtts_spec pid n page addr sz w :
  wp True (write_mtts pid n page addr sz) w (fun r w' => exists mem, w' = set_mem mem w /\ mtts_written pid n page addr sz w r mem).
Proof.
  revert page addr w. induction n as [|n IH]; intros page addr w; cbn [write_mtts].
  { wp_step. exists (w_mem w). rewrite set_mem_self. split; [done|]. intros m0 _ _ _. split; [done|]. intros _. split; [lia|]. intros _ i Hi. lia. }
  assert (forall e, exists mem, w = set_mem mem w /\ mtts_written pid (S n) page addr sz w (Err e) mem) as Herr.
  { intros e. exists (w_mem w). rewrite set_mem_self. split; [done|]. apply mtts_written_err. }
  do 4 hca_step. hca_step. hca_step; [done|]. hca_step. hca_step; [done|]. do 3 hca_step. hca_step.
  destruct (host_bytes_mut _ _ _) as [a1|e] eqn:Ha; [|done]. do 2 hca_step.
  eapply mwp_mono; [apply IH|]. intros r w' (mem & -> & Hw). exists mem. split; [done|].
  match goal with H : _ || _ = false |- _ => apply orb_false_iff in H as [Hz%Z.eqb_neq Hal] end. apply negb_false_iff, Z.eqb_eq in Hal.
  eapply mtts_written_step; try done. by subst.
Qed.

(** A range of fresh entries for pages of a process. *)
Record mtt_allocated (pid : Z) (pages : range) (w : World) (addr : Z) (w' : World) : Prop := {
  ma_pages : 0 < range_len pages;
  ma_addr : addr = mtt_end (w_dev w);
  ma_end : mtt_end (w_dev w') = addr + range_len pages * mtt_entry_sz (capabilities (w_dev w));
  ma_card : w_card w' = w_card w;
  ma_offsets : offsets (w_dev w') = offsets (w_dev w);
  ma_entries m0 : table_ok (mtt_table (mr_table (w_dev w))) m0 -> 8 <= mtt_entry_sz (capabilities (w_dev w)) -> 0 <= addr ->
    (forall i, 0 <= i < range_len pages -> addr + i * mtt_entry_sz (capabilities (w_dev w)) + 8 <= TABLE_CHUNK_SIZE) /\
    (phys_ok (w_spaces w pid) (r_start pages) (Z.to_nat (range_len pages)) ->
     entries_ok (w_spaces w pid) (w_mem w') (start_address m0 + addr) (r_start pages) (mtt_entry_sz (capabilities (w_dev w)))
       (Z.to_nat (range_len pages)))
}.

Lemma alloc_mtt_spec pid pages w :
  wp True (alloc_mtt_for_pages pid pages) w (fun r w' => low w w' /\ forall addr, r = Ok addr -> mtt_allocated pid pages w addr w').
Proof.
  unfold alloc_mtt_for_pages. do 2 hca_step; [by split|]. do 2 hca_step. cbv zeta.
  do 6 hca_step. hca_step. hca_step. hca_step.
  match goal with H : add64 _ _ = Ret a |- _ => apply add64_ret in H as -> end.
  match goal with H : mul64 _ _ = Ret a0 |- _ => apply mul64_ret in H as -> end.
  match goal with H : add64 _ _ = Ret a1 |- _ => apply add64_ret in H as -> end.
  match goal with H : (_ <=? 0) = false |- _ => apply Z.leb_gt in H as Hlen end.
  eapply mwp_mono; [apply write_mtts_spec|]. intros r w' (mem & -> & Hw). cbn [w_dev set_dev w_spaces] in Hw.
  set (d := w_dev w) in *. set (sz := mtt_entry_sz (capabilities d)) in *.
  assert (low w (set_mem mem (set_dev (with_mr_table (bump_mtt (mtt_offset (mr_table d) + range_len pages) (mr_table d)) d) w))) as L.
  { split; try done; cbn; [unfold d; lia|]. intros m0 x Ht Hs Hp Hx.
    destruct (Hw m0 Ht Hs Hp) as [Hm _]. apply Hm. unfold mtt_end in Hx. cbn in Hx. fold d sz in Hx.
    rewrite Z2Nat.id by lia. lia. }
  destruct r as [[]|e]; [|by split]. wp_step. split; [done|]. intros addr [= <-]. split; try done.
  - unfold mtt_end. cbn. fold d sz. lia.
  - intros m0 Ht Hs Hp. destruct (Hw m0 Ht Hs Hp) as [_ Hr]. destruct (Hr eq_refl) as [Hf He].
    rewrite Z2Nat.id in Hf by lia. done.
Qed.

Lemma low_alloc_mtt pid pages : steps (S := World) low (alloc_mtt_for_pages pid pages).
Proof. intros w. eapply mwp_mono; [apply alloc_mtt_spec|]. by intros r w' [L _]. Qed.
End mtt.

#[export] Hint Resolve low_alloc_mtt : hca.

(** ** Operations on objects *)

Ltac low_auto :=
  repeat lazymatch goal with
  | |- steps low (_ ≫= _) => apply (steps_bind low); [|intros ?]
  | |- steps low (attempt _) => apply steps_attempt
  | |- steps low (let '(_, _) := ?x in _) => destruct x
  | |- steps low (if ?b then _ else _) => destruct b
  | |- steps low (match ?x with _ => _ end) => destruct x
  | |- steps low _ => solve [eauto with hca]
  end.

Section objects.
Context {C A : Type} `{Card C} `{FrameAllocator A}.
Notation World := (World C A).

Lemma low_cq_new eq pid entries buffer doorbell uar : steps (S := World) low (cq_new eq pid entries buffer doorbell uar).
Proof. unfold cq_new. low_auto. Qed.
Lemma low_cq_destroy cq : steps (S := World) low (cq_destroy cq).
Proof. unfold cq_destroy. low_auto. Qed.
Lemma low_qp_new pid typ pd scq rcq buffer doorbell uar a b c d :
  steps (S := World) low (qp_new pid typ pd scq rcq buffer doorbell uar a b c d).
Proof. unfold qp_new. low_auto. Qed.
Lemma low_qp_modify q attr mask : steps (S := World) low (qp_modify q attr mask).
Proof. unfold qp_modify. low_auto. Qed.
Lemma low_qp_destroy q : steps (S := World) low (qp_destroy q).
Proof. pose proof low_qp_modify. unfold qp_destroy. low_auto. Qed.
Lemma low_alloc_dmpt pid pd address size access : steps (S := World) low (alloc_dmpt pid pd address size access).
Proof. unfold alloc_dmpt. low_auto. Qed.
Lemma low_mr_destroy mr : steps (S := World) low (mr_destroy mr).
Proof. unfold mr_destroy. low_auto. Qed.
Lemma low_drop {B} (o : option B) : steps (S := World) low (drop_object o).
Proof. unfold drop_object. low_auto. Qed.
Lemma low_retain {B} (f : B -> M World (result string unit * B)) l : (forall x, steps low (f x)) -> steps low (retain f l).
Proof. intros Hf. induction l as [|x l IH]; cbn [retain]; low_auto. Qed.
Lemma low_in_place {B} (f : B -> M World B) x : steps low (f x) -> steps low (in_place f x).
Proof. intros Hf. unfold in_place. low_auto. Qed.
Lemma low_drop_if {B D} (p : B -> option D) (f : B -> M World (result string unit * B)) x : steps low (f x) -> steps low (drop_if p f x).
Proof. pose proof @low_drop. intros Hf. unfold drop_if. low_auto. Qed.
Lemma low_ctx_destroy c : steps (S := World) low (ctx_destroy c).
Proof.
  pose proof low_qp_destroy. pose proof low_cq_destroy. pose proof low_mr_destroy. unfold ctx_destroy.
  repeat (apply (steps_bind low); [apply low_retain; intros ?; apply low_drop_if; try apply low_in_place; auto|intros ?]). apply low_ret.
Qed.
End objects.

#[export] Hint Resolve low_cq_new low_cq_destroy low_qp_new low_qp_modify low_qp_destroy low_alloc_dmpt low_mr_destroy low_drop
  low_ctx_destroy : hca.

(** * Processes on the adapter are kept apart

    An invariant of the device over every sequence of verbs of every process, whatever the adapter
    answers: contexts, doorbell pages, protection domains, queues and regions have one owner.  A
    verb of a process changes nothing of the contexts, the address spaces and the translation
    entries of the others. *)

(** ** Numbers with one owner *)

Section owned.
Context (f : UContext -> list Z).

(** No number occurs twice, in one context or in two. *)
Definition owned (m : gmap Z UContext) : Prop :=
  (forall h c, m !! h = Some c -> NoDup (f c)) /\
  (forall h h' c c' x, m !! h = Some c -> m !! h' = Some c' -> x ∈ f c -> x ∈ f c' -> h = h').

(** A number no context has. *)
Definition unowned (m : gmap Z UContext) (x : Z) : Prop := forall h c, m !! h = Some c -> x ∉ f c.

Lemma owned_empty : owned ∅.
Proof. split; intros *; by rewrite lookup_empty. Qed.

Lemma owned_insert m h c : owned m -> NoDup (f c) ->
  (forall x, x ∈ f c -> (exists c0, m !! h = Some c0 /\ x ∈ f c0) \/ unowned m x) -> owned (<[h := c]> m).
Proof.
  intros [Hn Hd] Hc Hx. split.
  - intros h' c' [[-> ->]|[? ?]]%lookup_insert_Some; eauto.
  - intros h1 h2 c1 c2 x [[<- <-]|[N1 E1]]%lookup_insert_Some [[<- <-]|[N2 E2]]%lookup_insert_Some X1 X2; try done.
    + destruct (Hx x X1) as [(c0 & E0 & X0)|Hu]; [eauto|]. by destruct (Hu _ _ E2).
    + destruct (Hx x X2) as [(c0 & E0 & X0)|Hu]; [eauto|]. by destruct (Hu _ _ E1).
    + eauto.
Qed.

Lemma owned_sub m h c c0 : owned m -> m !! h = Some c0 -> NoDup (f c) -> f c ⊆ f c0 -> owned (<[h := c]> m).
Proof. intros Ho E Hn Hs. apply owned_insert; [done..|]. intros x Hx. left. eauto. Qed.

Lemma owned_same m h c c0 : owned m -> m !! h = Some c0 -> f c = f c0 -> owned (<[h := c]> m).
Proof. intros Ho E Hf. eapply owned_sub; [done..| |by rewrite Hf]. rewrite Hf. by eapply Ho. Qed.

Lemma owned_snoc m h c c0 x : owned m -> m !! h = Some c0 -> f c = f c0 ++ [x] -> unowned m x -> owned (<[h := c]> m).
Proof.
  intros Ho E Hf Hx. apply owned_insert; [done|..]; rewrite Hf.
  - apply NoDup_app. split_and!; [by eapply Ho| |by apply NoDup_singleton].
    intros y Hy ->%list_elem_of_singleton. by eapply Hx.
  - intros y [Hy| ->%list_elem_of_singleton]%elem_of_app; [left; eauto|by right].
Qed.

Lemma owned_delete m h : owned m -> owned (delete h m).
Proof. intros [Hn Hd]. split; intros *; rewrite !lookup_delete_Some; naive_solver. Qed.

Lemma unowned_insert m h c x : unowned m x -> x ∉ f c -> unowned (<[h := c]> m) x.
Proof. intros Hm Hc h' c' [[-> ->]|[? ?]]%lookup_insert_Some; eauto. Qed.
Lemma unowned_delete m h x : unowned m x -> unowned (delete h m) x.
Proof. intros Hm h' c'. rewrite lookup_delete_Some. intros [_ E]. eauto. Qed.
End owned.

(** A property of every context. *)
Definition each (P : UContext -> Prop) (m : gmap Z UContext) : Prop := map_Forall (fun _ => P) m.

(** ** The invariant *)

Definition cq_numbers (c : UContext) : list Z := cq_number <$> cqs c.
Definition qp_numbers (c : UContext) : list Z := qp_number <$> qps c.
Definition mr_indices (c : UContext) : list Z := omap mr_index (mrs c).
Definition uar_key (k : UarPage -> Z) (c : UContext) : list Z := [k (uar_page c)].

(** The queues of a context are numbered below [cqn] and [qpn], its regions below [dmpt]; its
    queue pairs ring its doorbells. *)
Record ctx_ok (cqn qpn dmpt : Z) (c : UContext) : Prop := {
  co_cqs : Forall (fun n => n < cqn) (cq_numbers c);
  co_qps : Forall (fun n => n < qpn) (qp_numbers c);
  co_mrs : Forall (fun mr => exists i, mr_index mr = Some i /\ i < dmpt) (mrs c);
  co_uar : Forall (fun q => uar_index q = ctx_uar_index c) (qps c);
  co_cqn : Forall (fun q => send_cq_number q < cqn /\ receive_cq_number q < cqn) (qps c)
}.

(** A page is free or has one owner. *)
Definition uars_ok (k : UarPage -> Z) (d : Mlx4Device) : Prop :=
  NoDup (k <$> uar_list d) /\ owned (uar_key k) (contexts d) /\
  forall u, u ∈ uar_list d -> unowned (uar_key k) (contexts d) (k u).

Record dev_ok (d : Mlx4Device) : Prop := {
  do_handles h c : contexts d !! h = Some c -> ctx_handle c = h /\ h < next_context d;
  do_uars : uars_ok uar_idx d;
  do_doorbells : uars_ok uar_doorbell d;
  do_pds : owned pds (contexts d);
  do_pd_numbers x : x ∈ pd_numbers d <-> exists h c, contexts d !! h = Some c /\ x ∈ pds c;
  do_cqs : owned cq_numbers (contexts d);
  do_qps : owned qp_numbers (contexts d);
  do_mrs : owned mr_indices (contexts d);
  do_ctx : each (ctx_ok (next_cqn (offsets d)) (next_qpn (offsets d)) (next_dmpt (offsets d))) (contexts d);
  do_send h h' c c' q cq : contexts d !! h = Some c -> contexts d !! h' = Some c' -> q ∈ qps c -> cq ∈ cqs c' ->
    send_cq_number q = cq_number cq \/ receive_cq_number q = cq_number cq -> h = h'
}.

Lemma ctx_ok_mono cqn qpn dmpt cqn' qpn' dmpt' c : cqn <= cqn' -> qpn <= qpn' -> dmpt <= dmpt' ->
  ctx_ok cqn qpn dmpt c -> ctx_ok cqn' qpn' dmpt' c.
Proof.
  intros H1 H2 H3 [Hc Hq Hm Hu Hn]. split; [..|done|]; eapply Forall_impl; try done; intros ?; cbn beta; [lia|lia| |lia].
  intros (i & E & Hi). exists i. split; [done|lia].
Qed.

(** The change of one context by a verb. *)
Record ctx_change (d d' : Mlx4Device) (h : Z) (c c' : UContext) : Prop := {
  cc_contexts : contexts d' = <[h := c']> (contexts d);
  cc_next : next_context d' = next_context d;
  cc_uars : uar_list d' = uar_list d;
  cc_handle : ctx_handle c' = ctx_handle c;
  cc_page : uar_page c' = uar_page c;
  cc_cqn : next_cqn (offsets d) <= next_cqn (offsets d');
  cc_qpn : next_qpn (offsets d) <= next_qpn (offsets d');
  cc_dmpt : next_dmpt (offsets d) <= next_dmpt (offsets d');
  cc_cqs : NoDup (cq_numbers c');
  cc_cqs_new x : x ∈ cq_numbers c' -> x ∈ cq_numbers c \/ next_cqn (offsets d) <= x < next_cqn (offsets d');
  cc_qps : NoDup (qp_numbers c');
  cc_qps_new x : x ∈ qp_numbers c' -> x ∈ qp_numbers c \/ next_qpn (offsets d) <= x < next_qpn (offsets d');
  cc_mrs : NoDup (mr_indices c');
  cc_mrs_some mr : mr ∈ mrs c' -> exists i, mr_index mr = Some i /\ (i ∈ mr_indices c \/ next_dmpt (offsets d) <= i < next_dmpt (offsets d'));
  cc_uar : Forall (fun q => uar_index q = ctx_uar_index c) (qps c');
  cc_send q : q ∈ qps c' ->
    (exists q0, q0 ∈ qps c /\ send_cq_number q = send_cq_number q0 /\ receive_cq_number q = receive_cq_number q0) \/
    (send_cq_number q ∈ cq_numbers c /\ receive_cq_number q ∈ cq_numbers c)
}.

Section change.
Context (d d' : Mlx4Device) (h : Z) (c c' : UContext).
Context (I : dev_ok d) (Hc : contexts d !! h = Some c) (Ch : ctx_change d d' h c c').

Lemma mr_indices_in x mr : mr_index mr = Some x -> mr ∈ mrs c -> x ∈ mr_indices c.
Proof. intros E Hm. apply list_elem_of_omap. eauto. Qed.

Lemma ctx_bounds h1 c1 : contexts d !! h1 = Some c1 ->
  ctx_ok (next_cqn (offsets d)) (next_qpn (offsets d)) (next_dmpt (offsets d)) c1.
Proof. intros E. apply (do_ctx d I h1 c1 E). Qed.

Lemma cq_below h1 c1 x : contexts d !! h1 = Some c1 -> x ∈ cq_numbers c1 -> x < next_cqn (offsets d).
Proof. intros E Hx. pose proof (co_cqs _ _ _ _ (ctx_bounds _ _ E)) as F. rewrite Forall_forall in F. auto. Qed.
Lemma qp_below h1 c1 x : contexts d !! h1 = Some c1 -> x ∈ qp_numbers c1 -> x < next_qpn (offsets d).
Proof. intros E Hx. pose proof (co_qps _ _ _ _ (ctx_bounds _ _ E)) as F. rewrite Forall_forall in F. auto. Qed.
Lemma mr_below h1 c1 x : contexts d !! h1 = Some c1 -> x ∈ mr_indices c1 -> x < next_dmpt (offsets d).
Proof.
  intros E (mr & Hm & Hi)%list_elem_of_omap. pose proof (co_mrs _ _ _ _ (ctx_bounds _ _ E)) as F. rewrite Forall_forall in F.
  destruct (F mr Hm) as (i & E1 & Hlt). congruence.
Qed.

Lemma change_cqs : owned cq_numbers (contexts d').
Proof.
  rewrite (cc_contexts _ _ _ _ _ Ch). apply owned_insert; [apply I|apply Ch|].
  intros x [Hx|Hx]%(cc_cqs_new _ _ _ _ _ Ch); [eauto|right]. intros h1 c1 E X1%(cq_below _ _ _ E). lia.
Qed.
Lemma change_qps : owned qp_numbers (contexts d').
Proof.
  rewrite (cc_contexts _ _ _ _ _ Ch). apply owned_insert; [apply I|apply Ch|].
  intros x [Hx|Hx]%(cc_qps_new _ _ _ _ _ Ch); [eauto|right]. intros h1 c1 E X1%(qp_below _ _ _ E). lia.
Qed.
Lemma change_mrs : owned mr_indices (contexts d').
Proof.
  rewrite (cc_contexts _ _ _ _ _ Ch). apply owned_insert; [apply I|apply Ch|].
  intros x (mr & Hm & Hi)%list_elem_of_omap. destruct (cc_mrs_some _ _ _ _ _ Ch mr Hm) as (i & Ei & [Hx|Hx]); simplify_eq; [eauto|right].
  intros h1 c1 E X1%(mr_below _ _ _ E). lia.
Qed.

Lemma change_uars k : uars_ok k d -> uars_ok k d'.
Proof.
  intros (Hn & Ho & Hu). split_and!; rewrite ?(cc_contexts _ _ _ _ _ Ch), ?(cc_uars _ _ _ _ _ Ch).
  - done.
  - eapply owned_same; [done..|]. unfold uar_key. by rewrite (cc_page _ _ _ _ _ Ch).
  - intros u Hin. apply unowned_insert; [auto|]. unfold uar_key. rewrite (cc_page _ _ _ _ _ Ch). eapply Hu; eauto.
Qed.

Lemma cq_send_below q : q ∈ qps c' -> send_cq_number q < next_cqn (offsets d) /\ receive_cq_number q < next_cqn (offsets d).
Proof.
  intros Hq. destruct (cc_send _ _ _ _ _ Ch q Hq) as [(q0 & Hq0 & -> & ->)|[H1 H2]].
  - pose proof (co_cqn _ _ _ _ (ctx_bounds _ _ Hc)) as F. rewrite Forall_forall in F. auto.
  - split; by eapply cq_below.
Qed.

Lemma change_ctx : ctx_ok (next_cqn (offsets d')) (next_qpn (offsets d')) (next_dmpt (offsets d')) c'.
Proof.
  destruct Ch. split; rewrite ?Forall_forall.
  - intros x [Hx%(cq_below _ _ _ Hc)|Hx]%cc_cqs_new0; lia.
  - intros x [Hx%(qp_below _ _ _ Hc)|Hx]%cc_qps_new0; lia.
  - intros mr Hm. destruct (cc_mrs_some0 mr Hm) as (i & E & [Hx%(mr_below _ _ _ Hc)|Hx]); exists i; split; [done|lia|done|lia].
  - unfold ctx_uar_index. rewrite cc_page0. by apply Forall_forall.
  - intros q Hq. destruct (cq_send_below q Hq). lia.
Qed.

Lemma change_send h1 h2 c1 c2 q cq : contexts d' !! h1 = Some c1 -> contexts d' !! h2 = Some c2 -> q ∈ qps c1 -> cq ∈ cqs c2 ->
  send_cq_number q = cq_number cq \/ receive_cq_number q = cq_number cq -> h1 = h2.
Proof.
  rewrite !(cc_contexts _ _ _ _ _ Ch).
  intros [[<- <-]|[N1 E1]]%lookup_insert_Some [[<- <-]|[N2 E2]]%lookup_insert_Some Hq Hcq Heq; try done.
  - assert (cq_number cq ∈ cq_numbers c2) as Hin by by apply list_elem_of_fmap_2.
    destruct (cc_send _ _ _ _ _ Ch q Hq) as [(q0 & Hq0 & S1 & S2)|[H1 H2]].
    + rewrite S1, S2 in Heq. by eapply (do_send d I).
    + destruct Heq as [Heq|Heq]; rewrite Heq in *; by apply (proj2 (do_cqs d I) h h2 c c2 (cq_number cq)).
  - assert (cq_number cq ∈ cq_numbers c') as [Hin|Hin]%(cc_cqs_new _ _ _ _ _ Ch) by by apply list_elem_of_fmap_2.
    + apply list_elem_of_fmap in Hin as (cq0 & Ecq & Hcq0). rewrite Ecq in Heq. by eapply (do_send d I).
    + pose proof (co_cqn _ _ _ _ (ctx_bounds _ _ E1)) as F. rewrite Forall_forall in F. destruct (F q Hq). lia.
  - by eapply (do_send d I).
Qed.

(** Only the protection domains are left to be shown. *)
Lemma dev_ok_change : owned pds (contexts d') ->
  (forall x, x ∈ pd_numbers d' <-> exists h c, contexts d' !! h = Some c /\ x ∈ pds c) -> dev_ok d'.
Proof.
  intros Hpd Hpn. split; [|apply change_uars, I|apply change_uars, I|done|done|apply change_cqs|apply change_qps|apply change_mrs| |apply change_send].
  - intros h1 c1. rewrite (cc_contexts _ _ _ _ _ Ch), (cc_next _ _ _ _ _ Ch).
    intros [[<- <-]|[N1 E1]]%lookup_insert_Some; [rewrite (cc_handle _ _ _ _ _ Ch)|]; by apply (do_handles d I).
  - unfold each. rewrite (cc_contexts _ _ _ _ _ Ch). apply map_Forall_insert_2; [apply change_ctx|].
    eapply map_Forall_impl; [apply (do_ctx d I)|]. intros h1 c1. apply ctx_ok_mono; apply Ch.
Qed.

(** A change that keeps the protection domains. *)
Lemma dev_ok_change_same : pds c' = pds c -> pd_numbers d' = pd_numbers d -> dev_ok d'.
Proof.
  intros Hp Hn. apply dev_ok_change; rewrite (cc_contexts _ _ _ _ _ Ch).
  - by eapply owned_same; [apply I|..].
  - intros x. rewrite Hn, (do_pd_numbers d I). split; intros (h1 & c1 & E & Hx).
    + destruct (decide (h1 = h)) as [->|]; [exists h, c'; rewrite lookup_insert_eq; split; [done|]; congruence|].
      exists h1, c1. by rewrite lookup_insert_ne.
    + apply lookup_insert_Some in E as [[<- <-]|[N E]]; [exists h, c; split; [done|]; congruence|eauto].
Qed.
End change.

(** ** New objects *)

Section fresh.
Context {C A : Type} `{Card C} `{FrameAllocator A}.
Notation World := (World C A).
Implicit Types w : World.

Lemma wp_bind_low {B D} (m : M World B) (f : B -> M World D) w Q :
  steps low m -> (forall e w', low w w' -> Q (Err e) w') -> (forall a w', low w w' -> wp True (f a) w' Q) -> wp True (m ≫= f) w Q.
Proof. intros Hm He Hf. apply mwp_bind. eapply mwp_mono; [apply Hm|]. intros [a|e] w' L; auto. Qed.

(** The number in a result lies between the next numbers before and after. *)
Definition numbered {B} (next : Offsets -> Z) (number : B -> Z) (w : World) (r : result string B) (w' : World) : Prop :=
  low w w' /\ forall b, r = Ok b -> next (offsets (w_dev w)) <= number b < next (offsets (w_dev w')).

Lemma numbered_err {B} next (number : B -> Z) w e w' : low w w' -> numbered next number w (Err e) w'.
Proof. by split. Qed.

Lemma numbered_low {B} next (number : B -> Z) w w1 r w' : low w w1 ->
  next (offsets (w_dev w)) <= next (offsets (w_dev w1)) -> numbered next number w1 r w' -> numbered next number w r w'.
Proof. intros L Hn [L' Hb]. split; [by etrans|]. intros b E. specialize (Hb b E). lia. Qed.
End fresh.

(** Steps before the number is taken. *)
Ltac numbered_prefix mono :=
  repeat (lazymatch goal with
          | |- wp _ (alloc_cqn ≫= _) _ _ => fail
          | |- wp _ (alloc_qpn ≫= _) _ _ => fail
          | |- wp _ (alloc_dmpt_index ≫= _) _ _ => fail
          | |- _ => apply wp_bind_low; [solve [eauto with hca]|intros; by apply numbered_err|]
          end;
          let w' := fresh "w" in let L := fresh "L" in intros ? w' L;
          eapply mwp_mono; [|intros ? ?; apply numbered_low; [exact L|exact (mono _ _ L)]]; cbv zeta).

Section fresh_objects.
Context {C A : Type} `{Card C} `{FrameAllocator A}.
Notation World := (World C A).
Implicit Types w : World.

Lemma numbered_suffix {D} next (number : D -> Z) (alloc : M World Z) (f : Z -> M World D) w :
  (forall w w' : World, low w w' -> next (offsets (w_dev w)) <= next (offsets (w_dev w'))) ->
  (forall w, exists w', alloc w = Ret (Ok (next (offsets (w_dev w))), w') /\ low w w' /\ next (offsets (w_dev w')) = next (offsets (w_dev w)) + 1) ->
  (forall n, steps low (f n)) -> (forall n w, wp True (f n) w (fun r _ => forall b, r = Ok b -> number b = n)) ->
  wp True (alloc ≫= f) w (numbered next number w).
Proof.
  intros Hm Ha Hl Hf. destruct (Ha w) as (w1 & E & L & Hn). apply mwp_bind. unfold wp at 1. rewrite E.
  eapply mwp_mono; [apply mwp_and; [apply Hl|apply Hf]|]. intros r w' [L' Hb].
  split; [by etrans|]. intros b Er. rewrite (Hb b Er). specialize (Hm _ _ L'). lia.
Qed.

Lemma alloc_cqn_next w : exists w', alloc_cqn w = Ret (Ok (next_cqn (offsets (w_dev w))), w') /\ low w w' /\
  next_cqn (offsets (w_dev w')) = next_cqn (offsets (w_dev w)) + 1.
Proof.
  pose proof (low_alloc_cqn w) as L. unfold wp in L. destruct (alloc_cqn w) as [[r w']|] eqn:E; [|by unfold alloc_cqn in E].
  unfold alloc_cqn in E. cbn in E. injection E as <- <-. by eexists.
Qed.
Lemma alloc_qpn_next w : exists w', alloc_qpn w = Ret (Ok (next_qpn (offsets (w_dev w))), w') /\ low w w' /\
  next_qpn (offsets (w_dev w')) = next_qpn (offsets (w_dev w)) + 1.
Proof.
  pose proof (low_alloc_qpn w) as L. unfold wp in L. destruct (alloc_qpn w) as [[r w']|] eqn:E; [|by unfold alloc_qpn in E].
  unfold alloc_qpn in E. cbn in E. injection E as <- <-. by eexists.
Qed.
Lemma alloc_dmpt_index_next w : exists w', alloc_dmpt_index w = Ret (Ok (next_dmpt (offsets (w_dev w))), w') /\ low w w' /\
  next_dmpt (offsets (w_dev w')) = next_dmpt (offsets (w_dev w)) + 1.
Proof.
  pose proof (low_alloc_dmpt_index w) as L. unfold wp in L. destruct (alloc_dmpt_index w) as [[r w']|] eqn:E; [|by unfold alloc_dmpt_index in E].
  unfold alloc_dmpt_index in E. cbn in E. injection E as <- <-. by eexists.
Qed.

Lemma cq_new_number eq pid entries buffer doorbell uar w :
  wp True (cq_new eq pid entries buffer doorbell uar) w (numbered next_cqn cq_number w).
Proof.
  unfold cq_new. numbered_prefix (@low_cqn C A). apply numbered_suffix.
  - apply low_cqn.
  - apply alloc_cqn_next.
  - intros n. low_auto.
  - intros n w'. unfold to_u32. hca_step. hca_step; [|by hca_step]. do 5 hca_step.
    destruct r; [|done]. hca_step. by intros b [= <-].
Qed.

Lemma qp_new_number pid typ pd scq rcq buffer doorbell uar a b c d w :
  wp True (qp_new pid typ pd scq rcq buffer doorbell uar a b c d) w (numbered next_qpn qp_number w).
Proof.
  unfold qp_new. numbered_prefix (@low_qpn C A). apply numbered_suffix.
  - apply low_qpn.
  - apply alloc_qpn_next.
  - intros n. low_auto.
  - intros n w'. unfold to_u32. hca_step. hca_step; [|by hca_step]. do 2 hca_step. by intros q [= <-].
Qed.

(** What the new queue pair refers to. *)
Lemma qp_new_refs pid typ pd scq rcq buffer doorbell uar a b c d w :
  wp True (qp_new pid typ pd scq rcq buffer doorbell uar a b c d) w (fun r _ => forall q, r = Ok q ->
    send_cq_number q = scq /\ receive_cq_number q = rcq /\ uar_index q = uar /\ qp_pd q = pd).
Proof.
  unfold qp_new. repeat first [apply wp_bind_low; [solve [eauto with hca]|done|intros ? ? _; cbv zeta] | hca_step].
  by intros q [= <-].
Qed.

Definition region_index (p : MemoryRegion * MemoryRegionMetadata) : Z := default (-1) (mr_index p.1).

Lemma alloc_dmpt_number pid pd address size access w :
  wp True (alloc_dmpt pid pd address size access) w (fun r w' => numbered next_dmpt region_index w r w' /\
    forall p, r = Ok p -> is_Some (mr_index p.1) /\ mr_index p.1 = Some (mr_handle p.2)).
Proof.
  apply mwp_and.
  - unfold alloc_dmpt. numbered_prefix (@low_dmpt C A). apply numbered_suffix.
    + apply low_dmpt.
    + apply alloc_dmpt_index_next.
    + intros n. low_auto.
    + intros n w'. unfold to_u32. hca_step. hca_step; [|by hca_step]. do 5 hca_step. destruct r; [|done]. do 2 hca_step.
      destruct r as [[imm out]|]; [|done]. do 3 hca_step.
      match goal with E : rust_assert _ _ = Ret _ |- _ => rename E into Ha end.
      unfold rust_assert in Ha. destruct (Z.eqb_spec n (mailbox_mpt out INDEX)) as [->|]; [|done]. by intros b [= <-].
  - unfold alloc_dmpt. repeat (apply wp_bind_low; [solve [eauto with hca]|done|intros ? ? _; cbv zeta]).
    destruct a10 as [imm out]. do 3 hca_step.
    match goal with E : rust_assert _ _ = Ret _ |- _ => rename E into Ha end.
    unfold rust_assert in Ha. destruct (Z.eqb_spec a7 (mailbox_mpt out INDEX)) as [->|]; [|done]. by intros b [= <-].
Qed.
End fresh_objects.
