(* ===== verification/HcaRun.v ===== *)
(** * Every verb and the end of a process keep the invariant *)

From stdpp Require Import sorting.
From S2P Require Import Prelude Intervals Dram FrameAlloc Paging Vma Vmm Bytes Verbs HcaLayout HcaHw.
From S2P Require Import HcaIcm HcaDev HcaIsolation.

Open Scope Z_scope.

(** * Every sequence of verbs keeps processes apart

    The verbs as steps of a system with any number of processes, and the invariant of the device
    over all of its runs. *)

(** ** A queue pair keeps its identity *)

(** What [modify] never changes. *)
Record qp_same (q q' : QueuePair) : Prop := {
  qs_number : qp_number q' = qp_number q;
  qs_pd : qp_pd q' = qp_pd q;
  qs_send : send_cq_number q' = send_cq_number q;
  qs_receive : receive_cq_number q' = receive_cq_number q;
  qs_uar : uar_index q' = uar_index q;
  qs_type : qp_type q' = qp_type q
}.
#[export] Instance qp_same_refl : Reflexive qp_same.
Proof. done. Qed.
#[export] Instance qp_same_trans : Transitive qp_same.
Proof. intros q1 q2 q3 [] []. split; congruence. Qed.

(** Filling a context changes at most the port, and the state only with the command. *)
Record qp_filled (q q' : QueuePair) : Prop := {
  qf_same : qp_same q q';
  qf_state : qp_state q' = qp_state q;
  qf_mtt : qp_mtt q' = qp_mtt q
}.
#[export] Instance qp_filled_refl : Reflexive qp_filled.
Proof. done. Qed.
#[export] Instance qp_filled_trans : Transitive qp_filled.
Proof. intros q1 q2 q3 [? ? ?] [? ? ?]. split; [by etrans|congruence|congruence]. Qed.

Ltac filled_auto :=
  repeat lazymatch goal with
  | |- steps qp_filled (_ ≫= _) => apply (steps_bind qp_filled); [|intros ?]
  | |- steps qp_filled (if ?b then _ else _) => destruct b
  | |- steps qp_filled (match ?x with _ => _ end) => destruct x
  | |- steps qp_filled (modify _) => intros ?; by wp_step
  | |- steps qp_filled (reject _ _) => intros ?; by wp_step
  | |- steps qp_filled (ok_or _ _) => intros ?; by wp_step
  | |- steps qp_filled (lift _) => intros ?; by wp_step
  | |- steps qp_filled (mret _) => intros ?; by wp_step
  | |- steps qp_filled (fail _) => intros ?; by wp_step
  | |- steps qp_filled get => intros ?; by wp_step
  | |- steps qp_filled ?m => let m' := eval red in m in change (steps qp_filled m')
  end.

Lemma transition_filled caps attr mask : steps qp_filled (transition caps attr mask).
Proof. unfold transition. filled_auto. Qed.

Section steps.
Context {C A : Type} `{Card C} `{FrameAllocator A}.
Notation World := (World C A).
Implicit Types w : World.

Lemma qp_modify_same q attr mask w :
  wp True (qp_modify q attr mask) w (fun r _ => match r with Ok (_, q') => qp_same q q' | Err _ => False end).
Proof.
  unfold qp_modify. do 2 hca_step. do 2 hca_step.
  match goal with E : transition _ _ _ _ = Ret _ |- _ => rename E into Et end.
  destruct a as [r q']. destruct (wp_run _ _ _ _ _ _ (transition_filled _ _ _ q) Et) as [Hs _ _].
  destruct r as [[[[op m] c]|]|e]; [|by wp_step|by wp_step]. do 3 hca_step. wp_step. destruct r; [|done].
  destruct (contains mask IBV_QP_STATE); [|done]. destruct Hs. by split.
Qed.

Lemma qp_destroy_same q w :
  wp True (qp_destroy q) w (fun r _ => match r with Ok (_, q') => qp_same q q' | Err _ => False end).
Proof.
  unfold qp_destroy. wp_step. eapply (mwp_mono _ _ _ (fun r _ => match r with Ok (_, q') => qp_same q q' | Err _ => False end)).
  - case_decide; [by wp_step|]. apply qp_modify_same.
  - intros [[r q']|e] w' Hs; [|done]. wp_step. destruct r; [|done]. destruct Hs. by split.
Qed.
End steps.

(** ** Changes of one context *)

Lemma submseteq_nodup {B} (l k : list B) : NoDup k -> l ⊆+ k -> NoDup l.
Proof. intros Hk (k' & E)%submseteq_Permutation. rewrite E in Hk. by apply NoDup_app in Hk as [? _]. Qed.
Lemma omap_sub {B D} (f : B -> option D) (l k : list B) : l ⊆+ k -> omap f l ⊆+ omap f k.
Proof. intros (k' & E)%submseteq_Permutation. rewrite E, omap_app. apply submseteq_inserts_r. done. Qed.

Section parts.
Context (d d' : Mlx4Device) (h : Z) (c c' : UContext).
Context (I : dev_ok d) (Hc : contexts d !! h = Some c).

Definition cqs_part : Prop :=
  NoDup (cq_numbers c') /\ forall x, x ∈ cq_numbers c' -> x ∈ cq_numbers c \/ next_cqn (offsets d) <= x < next_cqn (offsets d').
Definition mrs_part : Prop :=
  NoDup (mr_indices c') /\ forall mr, mr ∈ mrs c' -> exists i, mr_index mr = Some i /\
    (i ∈ mr_indices c \/ next_dmpt (offsets d) <= i < next_dmpt (offsets d')).
Definition qps_part : Prop :=
  NoDup (qp_numbers c') /\
  (forall x, x ∈ qp_numbers c' -> x ∈ qp_numbers c \/ next_qpn (offsets d) <= x < next_qpn (offsets d')) /\
  forall q, q ∈ qps c' -> (exists q0, q0 ∈ qps c /\ qp_same q0 q) \/
    (uar_index q = ctx_uar_index c /\ send_cq_number q ∈ cq_numbers c /\ receive_cq_number q ∈ cq_numbers c).

Lemma cqs_part_sub l : cqs c' = l -> (cq_number <$> l) ⊆+ cq_numbers c -> cqs_part.
Proof.
  intros E Hl. unfold cqs_part, cq_numbers at 1 2. rewrite E. split.
  - apply (submseteq_nodup _ (cq_numbers c)); [|done]. by eapply (do_cqs d I).
  - intros x Hx. left. by eapply elem_of_submseteq.
Qed.
Lemma cqs_part_same : cqs c' = cqs c -> cqs_part.
Proof. intros E. by eapply cqs_part_sub. Qed.
Lemma cqs_part_new cq : cqs c' = cqs c ++ [cq] -> next_cqn (offsets d) <= cq_number cq < next_cqn (offsets d') -> cqs_part.
Proof.
  intros E Hn. unfold cqs_part. unfold cq_numbers at 1 2. rewrite E, fmap_app. cbn [fmap list_fmap]. split.
  - apply NoDup_app. split_and!; [by eapply (do_cqs d I)| |by apply NoDup_singleton].
    intros x Hx ->%list_elem_of_singleton. apply (cq_below d I _ _ _ Hc) in Hx. lia.
  - intros x [Hx| ->%list_elem_of_singleton]%elem_of_app; auto.
Qed.

Lemma mrs_part_sub l : mrs c' = l -> l ⊆+ mrs c -> mrs_part.
Proof.
  intros E Hl. unfold mrs_part, mr_indices at 1. rewrite E. split.
  - apply (submseteq_nodup _ (mr_indices c)); [by eapply (do_mrs d I)|]. by apply omap_sub.
  - intros mr Hm. assert (mr ∈ mrs c) as Hm' by by eapply elem_of_submseteq.
    pose proof (co_mrs _ _ _ _ (ctx_bounds d I _ _ Hc)) as F. rewrite Forall_forall in F.
    destruct (F mr Hm') as (i & Ei & _). exists i. split; [done|]. left. by eapply mr_indices_in.
Qed.
Lemma mrs_part_same : mrs c' = mrs c -> mrs_part.
Proof. intros E. by eapply mrs_part_sub. Qed.
Lemma mrs_part_new mr i : mrs c' = mrs c ++ [mr] -> mr_index mr = Some i -> next_dmpt (offsets d) <= i < next_dmpt (offsets d') -> mrs_part.
Proof.
  intros E Ei Hn. split.
  - unfold mr_indices. rewrite E, omap_app. cbn. rewrite Ei.
    apply NoDup_app. split_and!; [by eapply (do_mrs d I)| |by apply NoDup_singleton].
    intros x Hx ->%list_elem_of_singleton. apply (mr_below d I _ _ _ Hc) in Hx. lia.
  - rewrite E. intros mr' [Hm| ->%list_elem_of_singleton]%elem_of_app; [|eauto].
    pose proof (co_mrs _ _ _ _ (ctx_bounds d I _ _ Hc)) as F. rewrite Forall_forall in F.
    destruct (F mr' Hm) as (j & Ej & _). exists j. split; [done|]. left. by eapply mr_indices_in.
Qed.

Lemma qps_part_sub l : qps c' = l -> (qp_number <$> l) ⊆+ qp_numbers c -> (forall q, q ∈ l -> exists q0, q0 ∈ qps c /\ qp_same q0 q) -> qps_part.
Proof.
  intros E Hl Hs. unfold qps_part. unfold qp_numbers at 1 2. rewrite E. split_and!.
  - apply (submseteq_nodup _ (qp_numbers c)); [|done]. by eapply (do_qps d I).
  - intros x Hx. left. by eapply elem_of_submseteq.
  - auto.
Qed.
Lemma qps_part_same : qps c' = qps c -> qps_part.
Proof. intros E. eapply qps_part_sub; [done..|]. intros q Hq. by exists q. Qed.
Lemma qps_part_new q : qps c' = qps c ++ [q] -> next_qpn (offsets d) <= qp_number q < next_qpn (offsets d') ->
  uar_index q = ctx_uar_index c -> send_cq_number q ∈ cq_numbers c -> receive_cq_number q ∈ cq_numbers c -> qps_part.
Proof.
  intros E Hn Hu Hs Hr. unfold qps_part. unfold qp_numbers at 1 2. rewrite E, fmap_app. cbn [fmap list_fmap]. split_and!.
  - apply NoDup_app. split_and!; [by eapply (do_qps d I)| |by apply NoDup_singleton].
    intros x Hx ->%list_elem_of_singleton. apply (qp_below d I _ _ _ Hc) in Hx. lia.
  - intros x [Hx| ->%list_elem_of_singleton]%elem_of_app; auto.
  - intros q' [Hq| ->%list_elem_of_singleton]%elem_of_app; [left; by exists q'|by right].
Qed.
(** A queue pair in place of itself. *)
Lemma qps_part_insert i q q' : qps c' = <[i := q']> (qps c) -> qps c !! i = Some q -> qp_same q q' -> qps_part.
Proof.
  intros E Hi Hs. eapply qps_part_sub; [exact E|..].
  - rewrite list_fmap_insert, (qs_number _ _ Hs), list_insert_id; [done|]. by rewrite list_lookup_fmap, Hi.
  - intros q1 (j & Hj)%list_elem_of_lookup. apply list_lookup_insert_Some in Hj as [(<- & <- & _)|[_ Hj]].
    + exists q. split; [by eapply list_elem_of_lookup_2|done].
    + exists q1. split; [by eapply list_elem_of_lookup_2|done].
Qed.
End parts.

(** * Runs of verbs

    A system of any number of processes that call verbs on one adapter, end, and change their
    memory in between.  Every state it reaches satisfies the invariant of [HcaIsolation], and a
    verb of a process is local to it. *)

Inductive Verb :=
| VOpen
| VAllocPd (handle : Z) | VDeallocPd (handle pd : Z)
| VCreateCq (handle entries buffer doorbell : Z) | VDestroyCq (handle number : Z)
| VCreateQp (handle pd : Z) (typ : QueuePairType) (send_cq receive_cq : Z) (sh : QpShape)
| VModifyQp (handle number : Z) (attr : QueuePairAttr) (mask : Z) | VDestroyQp (handle number : Z)
| VCreateMr (handle pd address size access : Z) | VDestroyMr (handle index : Z).

Section run.
Context {C A : Type} `{Card C} `{FrameAllocator A}.
Notation World := (World C A).
Implicit Types w : World.

(** The number a verb returns; 0 if it returns none. *)
Definition run_verb (pid : Z) (v : Verb) : M World Z :=
  match v with
  | VOpen => c ← open pid; mret (ctx_handle c)
  | VAllocPd h => alloc_pd pid h
  | VDeallocPd h pd => _ ← dealloc_pd pid h pd; mret 0
  | VCreateCq h entries buffer doorbell => create_cq pid h entries buffer doorbell
  | VDestroyCq h number => _ ← destroy_cq pid h number; mret 0
  | VCreateQp h pd typ scq rcq sh => create_qp pid h pd typ scq rcq sh
  | VModifyQp h number attr mask => _ ← modify_qp pid h number attr mask; mret 0
  | VDestroyQp h number => _ ← destroy_qp pid h number; mret 0
  | VCreateMr h pd address size access => md ← create_mr pid h pd address size access; mret (mr_handle md)
  | VDestroyMr h index => _ ← destroy_mr pid h index; mret 0
  end.

(** ** Local changes *)

(** What a verb of [pid] leaves alone. *)
Record local (pid : Z) (w w' : World) : Prop := {
  lc_contexts h c : contexts (w_dev w) !! h = Some c -> owner c <> pid -> contexts (w_dev w') !! h = Some c;
  lc_new h c : contexts (w_dev w') !! h = Some c -> owner c <> pid -> contexts (w_dev w) !! h = Some c;
  lc_spaces p : p <> pid -> w_spaces w' p = w_spaces w p;
  lc_caps : capabilities (w_dev w') = capabilities (w_dev w);
  lc_table : mtt_table (mr_table (w_dev w')) = mtt_table (mr_table (w_dev w));
  lc_end : 8 <= mtt_entry_sz (capabilities (w_dev w)) -> mtt_end (w_dev w) <= mtt_end (w_dev w');
  lc_mem m0 x : table_ok (mtt_table (mr_table (w_dev w))) m0 -> 8 <= mtt_entry_sz (capabilities (w_dev w)) ->
    0 <= mtt_end (w_dev w) -> ~ (mtt_end (w_dev w) <= x - start_address m0 < mtt_end (w_dev w')) -> w_mem w' x = w_mem w x
}.

Lemma local_low pid w w' : low w w' -> local pid w w'.
Proof.
  intros L. pose proof (mtt_end_mono _ _ L). destruct L. split; try congruence; try done.
Qed.

#[export] Instance local_refl pid : Reflexive (local pid).
Proof. intros w. by apply local_low. Qed.

#[export] Instance local_trans pid : Transitive (local pid).
Proof.
  intros w1 w2 w3 L1 L2. destruct L1 as [A1 B1 C1 D1 E1 F1 G1], L2 as [A2 B2 C2 D2 E2 F2 G2]. split.
  - eauto.
  - eauto.
  - intros p Hp. rewrite C2; auto.
  - congruence.
  - congruence.
  - intros Hs. specialize (F1 Hs). rewrite D1 in F2. specialize (F2 Hs). lia.
  - intros m0 x Ht Hs Hp Hx. specialize (F1 Hs). rewrite D1 in F2, G2. specialize (F2 Hs). rewrite E1 in G2.
    rewrite (G2 m0) by (done || lia). apply (G1 m0); (done || lia).
Qed.

(** A change of the device outside the contexts of others and the tables. *)
Lemma local_dev pid w d :
  (forall h c, contexts (w_dev w) !! h = Some c -> owner c <> pid -> contexts d !! h = Some c) ->
  (forall h c, contexts d !! h = Some c -> owner c <> pid -> contexts (w_dev w) !! h = Some c) ->
  capabilities d = capabilities (w_dev w) -> mr_table d = mr_table (w_dev w) -> local pid w (set_dev d w).
Proof.
  intros Ha Hb Hc Hm. split; cbn; try done; [congruence|].
  intros _. unfold mtt_end. by rewrite Hc, Hm.
Qed.

Definition put (h : Z) (c : UContext) w : World := set_dev (with_contexts (<[h := c]> (contexts (w_dev w))) (w_dev w)) w.

Lemma local_put pid h c c' w : contexts (w_dev w) !! h = Some c -> owner c = pid -> owner c' = pid -> local pid w (put h c' w).
Proof.
  intros E Ho Ho'. apply local_dev; cbn; try done.
  - intros h1 c1 E1 N. rewrite lookup_insert_ne; [done|]. intros <-. congruence.
  - intros h1 c1 [[<- <-]|[N E1]]%lookup_insert_Some N1; [congruence|done].
Qed.

(** ** The invariant through a verb *)

Definition keeps (pid : Z) w (w' : World) : Prop := dev_ok (w_dev w') /\ local pid w w'.

Lemma dev_ok_low w w' : dev_ok (w_dev w) -> low w w' -> dev_ok (w_dev w').
Proof.
  intros [Ih Iu Id Ip Ipn Iq Iqp Im Ic Is] L. unfold uars_ok in *.
  split; unfold uars_ok; rewrite ?(low_contexts _ _ L), ?(low_uars _ _ L), ?(low_next _ _ L), ?(low_pds _ _ L); try done.
  eapply map_Forall_impl; [exact Ic|]. intros h1 c1. apply ctx_ok_mono; apply L.
Qed.

Lemma keeps_low pid w w' : dev_ok (w_dev w) -> low w w' -> keeps pid w w'.
Proof. intros I L. split; [by eapply dev_ok_low|by apply local_low]. Qed.

Lemma change_parts d d' h c c' : dev_ok d -> contexts d !! h = Some c ->
  contexts d' = <[h := c']> (contexts d) -> next_context d' = next_context d -> uar_list d' = uar_list d ->
  ctx_handle c' = ctx_handle c -> uar_page c' = uar_page c ->
  next_cqn (offsets d) <= next_cqn (offsets d') -> next_qpn (offsets d) <= next_qpn (offsets d') ->
  next_dmpt (offsets d) <= next_dmpt (offsets d') ->
  cqs_part d d' c c' -> mrs_part d d' c c' -> qps_part d d' c c' -> ctx_change d d' h c c'.
Proof.
  intros I Hc Hm Hn Hu Hh Hp N1 N2 N3 [Q1 Q2] [M1 M2] (P1 & P2 & P3). split; try done.
  - apply Forall_forall. intros q Hq. destruct (P3 q Hq) as [(q0 & Hq0 & Hs)|[Hi _]]; [|done].
    rewrite (qs_uar _ _ Hs). pose proof (co_uar _ _ _ _ (ctx_bounds _ I _ _ Hc)) as F. rewrite Forall_forall in F. auto.
  - intros q Hq. destruct (P3 q Hq) as [(q0 & Hq0 & Hs)|[_ Hi]]; [|by right]. left. exists q0. destruct Hs. done.
Qed.

(** A context that a verb changed after operations below it. *)
Lemma keeps_put pid w w1 h c c' : dev_ok (w_dev w) -> low w w1 -> contexts (w_dev w) !! h = Some c -> owner c = pid ->
  ctx_handle c' = ctx_handle c -> owner c' = owner c -> uar_page c' = uar_page c -> pds c' = pds c ->
  cqs_part (w_dev w) (w_dev w1) c c' -> mrs_part (w_dev w) (w_dev w1) c c' -> qps_part (w_dev w) (w_dev w1) c c' ->
  keeps pid w (put h c' w1).
Proof.
  intros I L Hc Ho Hh Ho' Hp Hpds Hq Hm Hqp. pose proof (low_contexts _ _ L) as Ec. split.
  - eapply (dev_ok_change_same (w_dev w) _ h c c'); try done; [|cbn; apply L].
    eapply change_parts; cbn; try done; try apply L. by rewrite Ec.
  - etrans; [by apply local_low|]. eapply local_put; [by rewrite Ec|done|congruence].
Qed.

Lemma wp_context_of P h pid w (Q : _ -> _ -> Prop) : Q (Err "context not found"%string) w ->
  (forall c, contexts (w_dev w) !! h = Some c -> owner c = pid -> Q (Ok c) w) -> wp P (context_of h pid) w Q.
Proof.
  intros He Hc. unfold context_of. hca_step. hca_step. hca_step; [done|].
  destruct (contexts (w_dev w) !! h) as [c|] eqn:E; [|done]. cbn in *. destruct (Z.eqb_spec (owner c) pid); [|done].
  simplify_eq. by apply Hc.
Qed.

Lemma wp_put_context P h c w (Q : _ -> _ -> Prop) : Q (Ok tt) (put h c w) -> wp P (put_context h c) w Q.
Proof. done. Qed.
End run.

Ltac verb_step :=
  cbn beta iota;
  lazymatch goal with
  | |- wp _ (context_of _ _) _ _ =>
      apply wp_context_of; [|let c := fresh "c" in let Hc := fresh "Hc" in let Ho := fresh "Ho" in intros c Hc Ho]
  | |- wp _ (put_context _ _) _ _ => apply wp_put_context
  | |- wp _ (drop_object _) _ _ => unfold drop_object; hca_step
  | |- _ => hca_step
  end.

Section verbs.
Context {C A : Type} `{Card C} `{FrameAllocator A}.
Notation World := (World C A).
Implicit Types w : World.

Lemma existsb_number n (l : list CompletionQueue) : negb (existsb (fun cq => cq_number cq =? n) l) = false -> n ∈ cq_number <$> l.
Proof.
  intros (cq & Hin & E%Z.eqb_eq)%negb_false_iff%existsb_exists. apply list_elem_of_fmap. exists cq.
  split; [done|]. by apply list_elem_of_In.
Qed.

Lemma keeps_create_cq pid h entries buffer doorbell w : dev_ok (w_dev w) ->
  wp True (create_cq pid h entries buffer doorbell) w (fun _ => keeps pid w).
Proof.
  intros I. unfold create_cq. verb_step. verb_step; [by apply keeps_low|]. do 3 verb_step.
  eapply mwp_mono; [apply cq_new_number|]. intros [cq|e] w1 [L1 Hn]; [|by apply keeps_low]. specialize (Hn cq eq_refl).
  do 3 verb_step. assert (low w (set_card c0 w1)) as L by (etrans; [done|apply low_set_card]).
  do 3 verb_step. eapply (keeps_put pid w (set_card c0 w1) h c); try done.
  - by eapply cqs_part_new.
  - by eapply mrs_part_same.
  - by eapply qps_part_same.
Qed.

Lemma keeps_destroy_cq pid h number w : dev_ok (w_dev w) -> wp True (destroy_cq pid h number) w (fun _ => keeps pid w).
Proof.
  intros I. unfold destroy_cq. verb_step. verb_step; [by apply keeps_low|]. verb_step. verb_step; [by apply keeps_low|].
  destruct a as [i cq]. verb_step. eapply mwp_mono; [apply low_cq_destroy|]. intros [cq'|e] w1 L; [|by apply keeps_low].
  do 2 verb_step. verb_step. eapply (keeps_put pid w w1 h c); try done.
  - eapply cqs_part_sub; try done. unfold cq_numbers, with_cqs. cbn. apply sublist_submseteq, fmap_sublist, sublist_delete.
  - by eapply mrs_part_same.
  - by eapply qps_part_same.
Qed.

Lemma keeps_create_qp pid h pd typ scq rcq sh w : dev_ok (w_dev w) ->
  wp True (create_qp pid h pd typ scq rcq sh) w (fun _ => keeps pid w).
Proof.
  intros I. unfold create_qp. verb_step. verb_step; [by apply keeps_low|]. unfold validate_pd.
  do 2 verb_step; [by apply keeps_low|]. do 2 verb_step; [by apply keeps_low|]. do 2 verb_step; [by apply keeps_low|]. verb_step.
  eapply mwp_mono; [apply mwp_and; [apply qp_new_number|apply qp_new_refs]|].
  intros [q|e] w1 [[L Hn] Hr]; [|by apply keeps_low]. specialize (Hn q eq_refl). destruct (Hr q eq_refl) as (Hs & Hrc & Hu & _).
  do 3 verb_step. eapply (keeps_put pid w w1 h c); try done.
  - by eapply cqs_part_same.
  - by eapply mrs_part_same.
  - eapply qps_part_new; try done; rewrite ?Hs, ?Hrc; by apply existsb_number.
Qed.

Lemma keeps_modify_qp pid h number attr mask w : dev_ok (w_dev w) ->
  wp True (modify_qp pid h number attr mask) w (fun _ => keeps pid w).
Proof.
  intros I. unfold modify_qp. verb_step. verb_step; [by apply keeps_low|]. verb_step. verb_step; [by apply keeps_low|].
  destruct a as [i q]. match goal with E : list_find _ _ = Some _ |- _ => apply list_find_Some in E as (Hi & _ & _) end.
  verb_step. eapply mwp_mono; [apply mwp_and; [apply low_qp_modify|apply qp_modify_same]|].
  intros [[r q']|e] w1 [L Hs]; [|by apply keeps_low].
  assert (keeps pid w (put h (with_qps (<[i:=q']> (qps c)) c) w1)) as K.
  { eapply (keeps_put pid w w1 h c); try done; [by eapply cqs_part_same|by eapply mrs_part_same|by eapply qps_part_insert]. }
  do 2 verb_step. unfold of_unit_result. by verb_step.
Qed.

Lemma keeps_destroy_qp pid h number w : dev_ok (w_dev w) -> wp True (destroy_qp pid h number) w (fun _ => keeps pid w).
Proof.
  intros I. unfold destroy_qp. verb_step. verb_step; [by apply keeps_low|]. verb_step. verb_step; [by apply keeps_low|].
  destruct a as [i q]. match goal with E : list_find _ _ = Some _ |- _ => apply list_find_Some in E as (Hi & _ & _) end.
  verb_step. eapply mwp_mono; [apply mwp_and; [apply low_qp_destroy|apply qp_destroy_same]|].
  intros [[r q']|e] w1 [L Hs]; [|by apply keeps_low]. destruct r as [[]|e].
  - do 3 verb_step. eapply (keeps_put pid w w1 h c); try done; [by eapply cqs_part_same|by eapply mrs_part_same|].
    assert (swap_remove (qps c) i ⊆+ qps c) as Hsub by (rewrite (swap_remove_perm _ _ _ Hi) at 2; by apply submseteq_cons).
    eapply qps_part_sub; [done..|by apply fmap_submseteq|]. intros q1 Hq. exists q1. split; [by eapply elem_of_submseteq|done].
  - do 3 verb_step. eapply (keeps_put pid w w1 h c); try done; [by eapply cqs_part_same|by eapply mrs_part_same|by eapply qps_part_insert].
Qed.

Lemma keeps_create_mr pid h pd address size access w : dev_ok (w_dev w) ->
  wp True (create_mr pid h pd address size access) w (fun _ => keeps pid w).
Proof.
  intros I. unfold create_mr. verb_step. verb_step; [by apply keeps_low|]. unfold validate_pd.
  do 2 verb_step; [by apply keeps_low|]. verb_step. eapply mwp_mono; [apply alloc_dmpt_number|].
  intros [[mr md]|e] w1 [[L Hn] Hr]; [|by apply keeps_low]. specialize (Hn _ eq_refl). destruct (Hr _ eq_refl) as [_ Hi].
  do 3 verb_step. eapply (keeps_put pid w w1 h c); try done; [by eapply cqs_part_same| |by eapply qps_part_same].
  unfold region_index in Hn. cbn in Hi, Hn. rewrite Hi in Hn. by eapply mrs_part_new.
Qed.

Lemma keeps_destroy_mr pid h index w : dev_ok (w_dev w) -> wp True (destroy_mr pid h index) w (fun _ => keeps pid w).
Proof.
  intros I. unfold destroy_mr. verb_step. verb_step; [by apply keeps_low|]. verb_step. verb_step; [by apply keeps_low|].
  destruct a as [i mr]. match goal with E : list_find _ _ = Some _ |- _ => apply list_find_Some in E as (Hi & _ & _) end.
  verb_step. eapply mwp_mono; [apply low_mr_destroy|]. intros [mr'|e] w1 L; [|by apply keeps_low].
  do 3 verb_step. eapply (keeps_put pid w w1 h c); try done; [by eapply cqs_part_same| |by eapply qps_part_same].
  eapply mrs_part_sub; [done..|]. cbn. rewrite (swap_remove_perm _ _ _ Hi) at 2. by apply submseteq_cons.
Qed.

(** ** Protection domains *)

Lemma first_free_spec n pd used x : first_free n pd used = Some x -> pd <= x < pd + Z.of_nat n /\ x ∉ used.
Proof.
  revert pd. induction n as [|n IH]; intros pd E; [done|]. cbn in E. case_bool_decide as Hu.
  - apply IH in E. lia || (destruct E; split; [lia|done]).
  - injection E as <-. split; [lia|done].
Qed.

(** The protection domains of one context change with the numbers in use. *)
Lemma keeps_pds pid w h c l s : dev_ok (w_dev w) -> contexts (w_dev w) !! h = Some c -> owner c = pid ->
  owned pds (<[h := with_pds l c]> (contexts (w_dev w))) ->
  (forall x, x ∈ s <-> x ∈ l \/ exists h' c', h' <> h /\ contexts (w_dev w) !! h' = Some c' /\ x ∈ pds c') ->
  keeps pid w (set_dev (with_pd_numbers s (with_contexts (<[h := with_pds l c]> (contexts (w_dev w))) (w_dev w))) w).
Proof.
  intros I Hc Ho Hn Hs. split.
  - eapply (dev_ok_change (w_dev w) _ h c (with_pds l c)); try done.
    + eapply change_parts; cbn; try done; [by eapply cqs_part_same|by eapply mrs_part_same|by eapply qps_part_same].
    + cbn. intros x. rewrite Hs. split.
      * intros [Hx|(h' & c' & N & E & Hx)]; [exists h, (with_pds l c); by rewrite lookup_insert_eq|].
        exists h', c'. by rewrite lookup_insert_ne.
      * intros (h' & c' & [[<- <-]|[N E]]%lookup_insert_Some & Hx); [by left|right]. by exists h', c'.
  - apply local_dev; cbn; try done.
    + intros h1 c1 E1 N. rewrite lookup_insert_ne; [done|]. intros <-. congruence.
    + intros h1 c1 [[<- <-]|[N E1]]%lookup_insert_Some N1; [done|done].
Qed.

Lemma keeps_alloc_pd pid h w : dev_ok (w_dev w) -> wp True (alloc_pd pid h) w (fun _ => keeps pid w).
Proof.
  intros I. unfold alloc_pd. verb_step. verb_step; [by apply keeps_low|]. do 2 verb_step. cbv zeta. verb_step. verb_step; [by apply keeps_low|].
  match goal with E : first_free _ _ _ = Some _ |- _ => apply first_free_spec in E as [_ Hfree] end.
  do 5 verb_step. apply (keeps_pds pid w h c (pds c ++ [a]) ({[a]} ∪ pd_numbers (w_dev w))); try done.
  - eapply owned_snoc; [apply I|done|done|]. intros h1 c1 E1 Hx. apply Hfree, (do_pd_numbers _ I). eauto.
  - intros x. rewrite elem_of_union, elem_of_singleton, elem_of_app, list_elem_of_singleton, (do_pd_numbers _ I). split.
    + intros [->|(h' & c' & E & Hx)]; [by left; right|]. destruct (decide (h' = h)) as [->|]; [simplify_eq; by left; left|].
      right. by exists h', c'.
    + intros [[Hx| ->]|(h' & c' & N & E & Hx)]; [right; eauto|by left|right; eauto].
Qed.

Lemma keeps_dealloc_pd pid h pd w : dev_ok (w_dev w) -> wp True (dealloc_pd pid h pd) w (fun _ => keeps pid w).
Proof.
  intros I. unfold dealloc_pd. verb_step. verb_step; [by apply keeps_low|]. verb_step. verb_step; [by apply keeps_low|].
  destruct a as [i pd']. match goal with E : list_find _ _ = Some _ |- _ => apply list_find_Some in E as (Hi & -> & _) end.
  pose proof (swap_remove_perm _ _ _ Hi) as Hp. assert (NoDup (pds c)) as Hnd by by eapply (do_pds _ I).
  rewrite Hp in Hnd. apply NoDup_cons in Hnd as [Hni Hnd].
  do 3 verb_step. apply (keeps_pds pid w h c (swap_remove (pds c) i) (pd_numbers (w_dev w) ∖ {[pd]})); try done.
  - eapply owned_sub; [apply I|done|done|]. cbn. intros x Hx. rewrite Hp. by right.
  - intros x. rewrite elem_of_difference, elem_of_singleton, (do_pd_numbers _ I). split.
    + intros [(h' & c' & E & Hx) N]. destruct (decide (h' = h)) as [->|]; [|right; by exists h', c'].
      simplify_eq. left. rewrite Hp in Hx. by apply elem_of_cons in Hx as [->|].
    + intros [Hx|(h' & c' & N & E & Hx)]; split.
      * exists h, c. split; [done|]. rewrite Hp. by right.
      * by intros ->.
      * eauto.
      * intros ->. apply N. eapply (proj2 (do_pds _ I)); [done..|]. rewrite Hp. by left.
Qed.

(** ** Opening a context *)

Lemma pop_spec {B} (l rest : list B) x : pop l = Some (x, rest) -> l = rest ++ [x].
Proof.
  unfold pop. destruct l as [|y l _] using rev_ind; [done|]. rewrite last_snoc, length_app. cbn. intros [= <- <-].
  by rewrite Nat.add_sub, take_app_length.
Qed.

(** Mapping a page changes the address space of the process and the free frames. *)
Record on_space (pid : Z) (w w' : World) : Prop := {
  os_card : w_card w' = w_card w;
  os_mem : w_mem w' = w_mem w;
  os_dev : w_dev w' = w_dev w;
  os_spaces p : p <> pid -> w_spaces w' p = w_spaces w p
}.
#[local] Instance on_space_refl pid : Reflexive (on_space pid).
Proof. done. Qed.
#[local] Instance on_space_trans pid : Transitive (on_space pid).
Proof. intros w1 w2 w3 [A1 B1 C1 D1] [A2 B2 C2 D2]. split; try congruence. intros p Hp. rewrite D2; auto. Qed.

Lemma on_space_set pid s a w : on_space pid w (set_space pid s a w).
Proof. split; try done. intros p Hp. cbn. by destruct (Z.eqb_spec p pid). Qed.

Lemma map_device_page_space pid frame tag e1 e2 : steps (on_space pid) (map_device_page pid frame tag e1 e2).
Proof.
  unfold map_device_page. apply (steps_bind (on_space pid)); [|intros v; apply (steps_bind (on_space pid)); [intros w; by wp_step|intros _]].
  - intros w. apply wp_prim; [done|]. intros r w1 E. inv_bind E. destruct a as [v s]. injection E as <- <-. apply on_space_set.
  - intros w. apply wp_prim; [done|]. intros r w1 E. inv_bind E. destruct a as [[r' s] a']. injection E as <- <-. apply on_space_set.
Qed.

Lemma map_blueflame_space pid u : steps (on_space pid) (map_blueflame_page u pid).
Proof.
  unfold map_blueflame_page. apply (steps_bind (on_space pid)); [intros w; by wp_step|]. intros f. apply map_device_page_space.
Qed.

Lemma map_pages_space pid u :
  steps (on_space pid) (doorbell ← map_doorbell_page u pid; blueflame ← map_blueflame_page u pid; mret (doorbell, blueflame)).
Proof.
  apply (steps_bind (on_space pid)); [apply map_device_page_space|intros ?].
  apply (steps_bind (on_space pid)); [apply map_blueflame_space|intros ? w; by wp_step].
Qed.

(** A page that was free gets an owner. *)
Lemma uars_ok_open k d d' u rest n c : uars_ok k d -> uar_list d = rest ++ [u] -> contexts d !! n = None ->
  uar_list d' = rest -> contexts d' = <[n := c]> (contexts d) -> uar_page c = u -> uars_ok k d'.
Proof.
  intros (Hn & Ho & Hu) Hl Hc Hl' Hc' Hp. rewrite Hl, fmap_app in Hn. cbn in Hn. apply NoDup_app in Hn as (Hn & Hd & _).
  unfold uars_ok. rewrite Hl', Hc'. split_and!; [done|..].
  - apply owned_insert; [done|apply NoDup_singleton|]. intros x ->%list_elem_of_singleton. right. rewrite Hp. apply Hu.
    rewrite Hl. apply elem_of_app. right. by apply list_elem_of_singleton.
  - intros u' Hin. apply unowned_insert; [apply Hu; rewrite Hl; apply elem_of_app; by left|].
    unfold uar_key. rewrite Hp. intros E%list_elem_of_singleton. apply (Hd (k u')); [by apply list_elem_of_fmap_2|].
    rewrite E. by apply list_elem_of_singleton.
Qed.

Lemma dev_ok_open d d' u rest c : dev_ok d -> uar_list d = rest ++ [u] -> uar_list d' = rest ->
  contexts d' = <[next_context d := c]> (contexts d) -> next_context d' = next_context d + 1 ->
  pd_numbers d' = pd_numbers d -> offsets d' = offsets d ->
  ctx_handle c = next_context d -> uar_page c = u -> pds c = [] -> cqs c = [] -> qps c = [] -> mrs c = [] -> dev_ok d'.
Proof.
  intros I Hl Hl' Hc Hn Hp Hof Hh Hu Kp Kc Kq Km.
  assert (contexts d !! next_context d = None) as Hnone.
  { destruct (contexts d !! next_context d) eqn:E; [|done]. apply (do_handles d I) in E as [_ E]. lia. }
  assert (forall f : UContext -> list Z, f c = [] -> owned f (contexts d) -> owned f (contexts d')) as Hown.
  { intros f Hf Ho. rewrite Hc. apply owned_insert; [done|rewrite Hf; apply NoDup_nil_2|]. intros x Hx. rewrite Hf in Hx. by apply not_elem_of_nil in Hx. }
  split.
  - intros h c'. rewrite Hc, Hn. intros [[<- <-]|[N E]]%lookup_insert_Some; [split; [done|lia]|].
    apply (do_handles d I) in E. lia.
  - eapply uars_ok_open; try done. apply I.
  - eapply uars_ok_open; try done. apply I.
  - apply Hown; [done|apply I].
  - intros x. rewrite Hp, Hc, (do_pd_numbers d I). split; intros (h & c' & E & Hx).
    + exists h, c'. rewrite lookup_insert_ne; [done|]. intros <-. congruence.
    + apply lookup_insert_Some in E as [[<- <-]|[N E]]; [rewrite Kp in Hx; by apply not_elem_of_nil in Hx|]. eauto.
  - apply Hown; [|apply I]. unfold cq_numbers. by rewrite Kc.
  - apply Hown; [|apply I]. unfold qp_numbers. by rewrite Kq.
  - apply Hown; [|apply I]. unfold mr_indices. by rewrite Km.
  - unfold each. rewrite Hc, Hof. apply map_Forall_insert_2; [|apply I].
    split; unfold cq_numbers, qp_numbers; rewrite ?Kc, ?Kq, ?Km; by constructor.
  - intros h1 h2 c1 c2 q cq. rewrite !Hc.
    intros [[<- <-]|[N1 E1]]%lookup_insert_Some [[<- <-]|[N2 E2]]%lookup_insert_Some; rewrite ?Kq, ?Kc.
    + done.
    + by intros Hq%not_elem_of_nil.
    + by intros _ Hq%not_elem_of_nil.
    + apply (do_send d I h1 h2 c1 c2 q cq E1 E2).
Qed.

Lemma local_on_space pid w w' : on_space pid w w' -> local pid w w'.
Proof. intros [A1 B1 C1 D1]. split; rewrite ?B1, ?C1; try done. Qed.

(** The device of [w1] in place of that of [w], with other free pages and another context. *)
Lemma local_open pid w w1 l n c : on_space pid (set_dev (with_uar_list l (w_dev w)) w) w1 -> contexts (w_dev w) !! n = None ->
  owner c = pid -> local pid w (put n c (set_dev (with_next_context (n + 1) (with_uar_list l (w_dev w))) w1)).
Proof.
  intros S1 Hn Ho. etrans; [apply (local_dev pid w (with_uar_list l (w_dev w))); done|]. etrans; [by apply local_on_space|].
  apply (local_dev pid w1 (with_contexts (<[n:=c]> (contexts (w_dev w))) (with_next_context (n + 1) (with_uar_list l (w_dev w)))));
    rewrite (os_dev _ _ _ S1); try done; cbn.
  - intros h1 c1 E1 N. rewrite lookup_insert_ne; [done|]. intros <-. congruence.
  - intros h1 c1 [[<- <-]|[N E1]]%lookup_insert_Some N1; done.
Qed.

Lemma keeps_open pid w : dev_ok (w_dev w) -> wp True (open pid) w (fun _ => keeps pid w).
Proof.
  intros I. unfold open. do 2 verb_step. cbv zeta. verb_step. verb_step; [by apply keeps_low|].
  verb_step. verb_step; [by apply keeps_low|]. destruct a as [u rest].
  match goal with E : pop _ = Some _ |- _ => apply pop_spec in E as Hl end. do 4 verb_step.
  eapply mwp_mono; [apply map_pages_space|]. intros [[db bf]|e] w1 S1; cbn beta iota.
  - do 4 verb_step. rewrite (os_dev _ _ _ S1). cbn [set_dev w_dev with_uar_list with_next_context contexts].
    assert (contexts (w_dev w) !! next_context (w_dev w) = None) as Hn.
    { destruct (contexts (w_dev w) !! next_context (w_dev w)) eqn:E; [|done]. apply (do_handles _ I) in E as [_ E]. lia. }
    rewrite Hn. do 3 verb_step. split; [|by apply local_open]. by eapply dev_ok_open.
  - do 3 verb_step. rewrite (os_dev _ _ _ S1).
    assert (with_uar_list (uar_list (with_uar_list rest (w_dev w)) ++ [u]) (with_uar_list rest (w_dev w)) = w_dev w) as Ed.
    { cbn. rewrite <- Hl. by destruct (w_dev w). }
    cbn [set_dev w_dev]. rewrite Ed. split; [done|].
    etrans; [apply (local_dev pid w (with_uar_list rest (w_dev w))); done|]. etrans; [by apply local_on_space|].
    apply local_dev; rewrite (os_dev _ _ _ S1); done.
Qed.
End verbs.

(** * The end of a process on the adapter

    [release] destroys what a process created and closes its contexts; with it, the invariant of
    the device holds over all runs of the system. *)

Section release.
Context {C A : Type} `{Card C} `{FrameAllocator A}.
Notation World := (World C A).
Implicit Types w : World.

(** ** Destroying the objects of a context *)

(** The result of a destructor on [x], with what holds of an object that stays. *)
Definition destroyed {B} (R : B -> B -> Prop) (x : B) (r : result string (result string unit * B)) : Prop :=
  match r with Ok (Ok _, _) => True | Ok (Err _, x') => R x x' | Err _ => False end.

Lemma retain_spec {B} (R : B -> B -> Prop) (f : B -> M World (result string unit * B)) l w :
  (forall x w, wp True (f x) w (fun r _ => destroyed R x r)) ->
  wp True (retain f l) w (fun r _ => exists l0 l', r = Ok l' /\ sublist l0 l /\ Forall2 R l0 l').
Proof.
  intros Hf. revert w. induction l as [|x l IH]; intros w; cbn [retain].
  { wp_step. by exists [], []. }
  wp_step. eapply mwp_mono; [apply Hf|]. intros [[r x']|e] w1 Hd; [|done]. cbn beta iota. wp_step.
  eapply mwp_mono; [apply IH|]. intros _ w2 (l0 & l' & -> & Hs & HR). wp_step. destruct r as [[]|e].
  - exists l0, l'. split_and!; [done| |done]. by constructor.
  - exists (x :: l0), (x' :: l'). split_and!; [done|by constructor|by constructor].
Qed.

Lemma in_place_destroyed {B} (f : B -> M World B) x w : wp True (in_place f x) w (fun r _ => destroyed eq x r).
Proof.
  unfold in_place. wp_step. wp_step. unfold wp. destruct (f x w) as [[[x'|e] w']|]; done.
Qed.

Lemma drop_if_destroyed {B D} (p : B -> option D) (R : B -> B -> Prop) f x w :
  (forall w : World, wp True (f x) w (fun r _ => destroyed R x r)) -> wp True (drop_if p f x) w (fun r _ => destroyed R x r).
Proof.
  intros Hf. unfold drop_if. wp_step. eapply mwp_mono; [apply Hf|]. intros [[[[]|e] x']|e] w1 Hd; [..|done]; cbn beta iota.
  - verb_step. verb_step. by verb_step.
  - wp_step. wp_step. by wp_step.
Qed.

Lemma qp_destroyed q w : wp True (qp_destroy q) w (fun r _ => destroyed qp_same q r).
Proof. eapply mwp_mono; [apply qp_destroy_same|]. by intros [[[[]|e] q']|e] w' Hs. Qed.

(** What is left of a context. *)
Record ctx_left (c c' : UContext) : Prop := {
  cl_handle : ctx_handle c' = ctx_handle c;
  cl_owner : owner c' = owner c;
  cl_page : uar_page c' = uar_page c;
  cl_pds : pds c' = pds c;
  cl_cqs : sublist (cqs c') (cqs c);
  cl_mrs : sublist (mrs c') (mrs c);
  cl_qps : exists l, sublist l (qps c) /\ Forall2 qp_same l (qps c')
}.

Lemma ctx_destroy_left c w :
  wp True (ctx_destroy c) w (fun r _ => exists gone c', r = Ok (gone, c') /\ ctx_left c c' /\
    (gone = true <-> qps c' = [] /\ mrs c' = [] /\ cqs c' = [])).
Proof.
  unfold ctx_destroy. wp_step. eapply mwp_mono; [apply (retain_spec qp_same); intros x w1; apply drop_if_destroyed, qp_destroyed|].
  intros _ w1 (l1 & q' & -> & Hs1 & HR1). cbn beta iota.
  wp_step. eapply mwp_mono; [apply (retain_spec eq); intros x w2; apply drop_if_destroyed, in_place_destroyed|].
  intros _ w2 (l2 & m' & -> & Hs2 & HR2%list_eq_Forall2). cbn beta iota.
  wp_step. eapply mwp_mono; [apply (retain_spec eq); intros x w3; apply drop_if_destroyed, in_place_destroyed|].
  intros _ w3 (l3 & k' & -> & Hs3 & HR3%list_eq_Forall2). cbn beta iota. wp_step. subst.
  eexists _, _. split; [reflexivity|]. split; [split; try done; cbn; eauto|]. cbn. repeat case_bool_decide; naive_solver.
Qed.

(** ** Closing a context *)

(** The context with the handle [h] is gone; its page and its domains are free. *)
Definition close (h : Z) (c : UContext) w : World :=
  let d := w_dev w in
  set_dev (with_uar_list (uar_list d ++ [uar_page c]) (with_pd_numbers (pd_numbers d ∖ list_to_set (pds c))
             (with_contexts (delete h (contexts d)) d))) w.

Lemma uars_ok_close k d d' h c : uars_ok k d -> contexts d !! h = Some c ->
  uar_list d' = uar_list d ++ [uar_page c] -> contexts d' = delete h (contexts d) -> uars_ok k d'.
Proof.
  intros (Hn & Ho & Hu) Hc Hl Hm. unfold uars_ok. rewrite Hl, Hm. split_and!.
  - rewrite fmap_app. cbn. apply NoDup_app. split_and!; [done| |apply NoDup_singleton].
    intros x (u & -> & Hin)%list_elem_of_fmap Hx%list_elem_of_singleton. apply (Hu u Hin h c Hc).
    unfold uar_key. rewrite Hx. by apply list_elem_of_singleton.
  - by apply owned_delete.
  - intros u [Hin| ->%list_elem_of_singleton]%elem_of_app; [by apply unowned_delete, Hu|].
    intros h1 c1 [N E1]%lookup_delete_Some Hx%list_elem_of_singleton. apply N.
    apply (proj2 Ho h h1 c c1 (k (uar_page c))); try done; [by apply list_elem_of_singleton|].
    unfold uar_key. rewrite Hx. by apply list_elem_of_singleton.
Qed.

Lemma dev_ok_close w h c : dev_ok (w_dev w) -> contexts (w_dev w) !! h = Some c -> dev_ok (w_dev (close h c w)).
Proof.
  intros I Hc. split; cbn.
  - intros h1 c1 [N E]%lookup_delete_Some. by apply (do_handles _ I).
  - eapply uars_ok_close; [apply I|done|done|done].
  - eapply uars_ok_close; [apply I|done|done|done].
  - apply owned_delete, I.
  - intros x. rewrite elem_of_difference, elem_of_list_to_set, (do_pd_numbers _ I). split.
    + intros [(h1 & c1 & E & Hx) Hn]. exists h1, c1. split; [|done]. rewrite lookup_delete_ne; [done|]. intros <-. congruence.
    + intros (h1 & c1 & [N E]%lookup_delete_Some & Hx). split; [eauto|]. intros Hx'. apply N.
      by apply (proj2 (do_pds _ I) h h1 c c1 x).
  - apply owned_delete, I.
  - apply owned_delete, I.
  - apply owned_delete, I.
  - apply map_Forall_delete, I.
  - intros h1 h2 c1 c2 q cq [N1 E1]%lookup_delete_Some [N2 E2]%lookup_delete_Some. by apply (do_send _ I h1 h2 c1 c2 q cq).
Qed.

Lemma local_close pid w h c : contexts (w_dev w) !! h = Some c -> owner c = pid -> local pid w (close h c w).
Proof.
  intros Hc Ho. unfold close. apply local_dev; try done; cbn.
  - intros h1 c1 E1 N. rewrite lookup_delete_ne; [done|]. intros <-. congruence.
  - by intros h1 c1 [N E1]%lookup_delete_Some.
Qed.

(** While its objects are destroyed, the context is not in the table. *)
Lemma low_restore m w w1 : low (set_dev (with_contexts m (w_dev w)) w) w1 ->
  low w (set_dev (with_contexts (contexts (w_dev w)) (w_dev w1)) w1).
Proof. intros []. by split. Qed.

Lemma close_restored h c m w1 : contexts (w_dev w1) = delete h m ->
  close h c (set_dev (with_contexts m (w_dev w1)) w1)
    = set_dev (with_uar_list (uar_list (w_dev w1) ++ [uar_page c])
                 (with_pd_numbers (pd_numbers (w_dev w1) ∖ list_to_set (pds c)) (w_dev w1))) w1.
Proof. intros E. unfold close, set_dev, with_uar_list, with_pd_numbers, with_contexts. cbn. by rewrite E. Qed.

Lemma put_restored h c m w1 : contexts (w_dev w1) = delete h m ->
  put h c (set_dev (with_contexts m (w_dev w1)) w1) = put h c w1.
Proof. intros E. unfold put, set_dev, with_contexts. cbn. by rewrite E, insert_delete_eq. Qed.

Lemma keeps_trans pid w1 w2 w3 : keeps pid w1 w2 -> keeps pid w2 w3 -> keeps pid w1 w3.
Proof. intros [_ L1] [I2 L2]. split; [done|by etrans]. Qed.

(** One context of the loop. *)
Lemma keeps_left pid w w1 h c c' : dev_ok (w_dev w) -> contexts (w_dev w) !! h = Some c -> owner c = pid -> ctx_left c c' ->
  low w w1 -> keeps pid w (put h c' w1).
Proof.
  intros I Hc Ho Hl L. destruct (cl_qps _ _ Hl) as (l & Hs & HR). eapply keeps_put; try done; try apply Hl.
  - eapply cqs_part_sub; [done..|]. apply sublist_submseteq, fmap_sublist, Hl.
  - eapply mrs_part_sub; [done..|]. apply sublist_submseteq, Hl.
  - eapply qps_part_sub; [done|done|done|..].
    + replace (qp_number <$> qps c') with (qp_number <$> l); [by apply sublist_submseteq, fmap_sublist|].
      clear Hs. induction HR as [|q q' l l' Hq HR IH]; [done|]. cbn. rewrite IH. by rewrite (qs_number _ _ Hq).
    + intros q' Hq'. apply list_elem_of_lookup in Hq' as (i & Hi). destruct (Forall2_lookup_r _ _ _ _ _ HR Hi) as (q & Hq & Hqq).
      exists q. split; [|done]. eapply elem_of_submseteq; [by eapply list_elem_of_lookup_2|by apply sublist_submseteq].
Qed.

Lemma keeps_close pid w w1 h c c' : dev_ok (w_dev w) -> contexts (w_dev w) !! h = Some c -> owner c = pid -> ctx_left c c' ->
  low w w1 -> keeps pid w (close h c' w1).
Proof.
  intros I Hc Ho Hl L. apply (keeps_trans _ _ w1); [by apply keeps_low|].
  pose proof (dev_ok_low _ _ I L) as I1. rewrite <- (low_contexts _ _ L) in Hc.
  assert (close h c' w1 = close h c w1) as ->; [|split; [by apply dev_ok_close|by apply local_close]].
  unfold close. by rewrite (cl_page _ _ Hl), (cl_pds _ _ Hl).
Qed.

Lemma keeps_release_contexts pid hs r w : dev_ok (w_dev w) ->
  (forall h c, h ∈ hs -> contexts (w_dev w) !! h = Some c -> owner c = pid) ->
  wp True (release_contexts hs r) w (fun _ => keeps pid w).
Proof.
  revert r w. induction hs as [|h hs IH]; intros r w I Hh; cbn [release_contexts].
  { unfold of_unit_result. verb_step. by apply keeps_low. }
  assert (forall w', keeps pid w w' -> forall r, wp True (release_contexts hs r) w' (fun _ => keeps pid w)) as Hk.
  { intros w' K r'. eapply mwp_mono; [apply IH; [apply K|]|].
    - intros h1 c1 Hin E1. destruct (decide (owner c1 = pid)) as [|N]; [done|]. apply (lc_new _ _ _ (proj2 K)) in E1; [|done].
      eapply Hh; [by right|done].
    - intros ? w2 K2. by eapply keeps_trans. }
  do 2 verb_step. destruct (contexts (w_dev w) !! h) as [c|] eqn:Hc; [|by apply Hk, keeps_low].
  assert (owner c = pid) as Ho by (eapply Hh; [by left|done]).
  do 3 verb_step. eapply mwp_mono; [apply mwp_and; [apply low_ctx_destroy|apply ctx_destroy_left]|].
  intros _ w1 [L (gone & c' & -> & Hl & _)]. pose proof (low_contexts _ _ L) as Ec. cbn in Ec. apply low_restore in L.
  cbn beta iota. destruct gone.
  - do 4 verb_step. apply Hk. pose proof (keeps_close pid w _ h c c' I Hc Ho Hl L) as K.
    rewrite (close_restored h c' _ _ Ec) in K. exact K.
  - do 2 verb_step. apply Hk. rewrite <- (put_restored h c' _ _ Ec). by eapply keeps_left.
Qed.

Lemma handles_of_spec pid m h : h ∈ handles_of pid m <-> exists c, m !! h = Some c /\ owner c = pid.
Proof.
  unfold handles_of. rewrite merge_sort_Permutation, list_elem_of_bind. split.
  - intros ([h' c] & Hx & E%elem_of_map_to_list). destruct (Z.eqb_spec (owner c) pid); [|by apply not_elem_of_nil in Hx].
    apply list_elem_of_singleton in Hx as ->. eauto.
  - intros (c & E & Ho). exists (h, c). split; [|by apply elem_of_map_to_list]. rewrite (proj2 (Z.eqb_eq _ _) Ho).
    by apply list_elem_of_singleton.
Qed.

Lemma keeps_release pid w : dev_ok (w_dev w) -> wp True (release pid) w (fun _ => keeps pid w).
Proof.
  intros I. unfold release. do 2 verb_step. apply keeps_release_contexts; [done|].
  intros h c (c' & E & Ho)%handles_of_spec E'. congruence.
Qed.

Lemma keeps_verb pid v w : dev_ok (w_dev w) -> wp True (run_verb pid v) w (fun _ => keeps pid w).
Proof.
  intros I. assert (forall B (m : M World B) (f : B -> Z), wp True m w (fun _ => keeps pid w) ->
                      wp True (b ← m; mret (f b)) w (fun _ => keeps pid w)) as Hret.
  { intros B m f Hm. apply mwp_bind. eapply mwp_mono; [exact Hm|]. by intros [b|e] w' K. }
  destruct v; cbn [run_verb];
    eauto using keeps_open, keeps_alloc_pd, keeps_dealloc_pd, keeps_create_cq, keeps_destroy_cq, keeps_create_qp, keeps_modify_qp,
      keeps_destroy_qp, keeps_create_mr, keeps_destroy_mr.
  all: try (apply Hret; eauto using keeps_open, keeps_dealloc_pd, keeps_destroy_cq, keeps_modify_qp, keeps_destroy_qp, keeps_create_mr, keeps_destroy_mr).
Qed.
End release.
