(* ===== verification/HcaSystem.v ===== *)
(** * The adapter from its initialisation on *)

From S2P Require Import Prelude Intervals Dram FrameAlloc Paging Vma Vmm Bytes Verbs HcaLayout HcaHw.
From S2P Require Import HcaIcm HcaDev HcaIsolation.
From S2P Require Import HcaRun.

Open Scope Z_scope.

(** * The tables of the adapter and the device after its initialisation
      ([os/kernel/src/device/infiniband/mlx4/icm.rs: map_icm_tables], [mod.rs: init])

    The tables that are mapped before the adapter runs, with the place of each in its address space
    from the profile; and the state in which the device is handed to processes. *)

(* [os/kernel/src/device/infiniband/mlx4/icm.rs:325-356] CqTable, QpTable, EqTable, SrqTable, MrTable *)
Record IcmTables := {
  cq_table : IcmTable; cq_cmpt_table : IcmTable;
  qp_table : IcmTable; qp_cmpt_table : IcmTable; auxc_table : IcmTable; altc_table : IcmTable; rdmarc_table : IcmTable;
  eq_table : IcmTable; eq_cmpt_table : IcmTable;
  srq_table : IcmTable; srq_cmpt_table : IcmTable;
  memory_regions : MrTable;
  mcg_table : IcmTable
}.

(** Where the table of a kind of context entries starts; the shift applies to the sum. *)
Definition cmpt_base (h : InitHcaParameters) (caps : Capabilities) (typ : Z) : outcome Z :=
  s ← add64 (h CMPT_BASE) (typ * c_mpt_entry_sz caps);
  Ret (wrap64 (Z.shiftl s 24)).

(** Entries for the firmware, up to the end of a cache line. *)
Definition reserved_mtt_count (caps : Capabilities) : outcome Z :=
  _ ← rust_assert (negb (mtt_entry_sz caps =? 0)) "attempt to divide by zero";
  Ret (next_multiple (2 ^ log2_rsvd_mtts caps * mtt_entry_sz caps) 64 / mtt_entry_sz caps).

Section tables.
Context {C A : Type} `{Card C} `{FrameAllocator A}.
Notation World := (World C A).

(** [?] with tables that are dropped if it returns. *)
Definition or_drop (live : list IcmTable) (m : M World IcmTable) : M World IcmTable :=
  r ← attempt m;
  match r with
  | Ok t => mret t
  | Err e => if forallb (fun t => bool_decide (icm t = [])) live then fail e else panic "please unmap instead of dropping"
  end.

(* [os/kernel/src/device/infiniband/mlx4/icm.rs:32-172] map_icm_tables *)
Definition map_icm_tables (cur : Z) (p : Profile) (caps : Capabilities) : M World IcmTables :=
  let h := init_hca p in
  let rsvd_qps := 2 ^ log2_rsvd_qps caps in
  b0 ← lift (cmpt_base h caps 0);
  qp_cmpt ← icm_init cur (c_mpt_entry_sz caps) (num_of QPC_BASE_NUM h) rsvd_qps b0;
  b1 ← lift (cmpt_base h caps 1);
  srq_cmpt ← or_drop [qp_cmpt] (icm_init cur (c_mpt_entry_sz caps) (num_of SRQC_BASE_NUM h) (2 ^ log2_rsvd_srqs caps) b1);
  b2 ← lift (cmpt_base h caps 2);
  cq_cmpt ← or_drop [qp_cmpt; srq_cmpt] (icm_init cur (c_mpt_entry_sz caps) (num_of CQC_BASE_NUM h) (2 ^ log2_rsvd_cqs caps) b2);
  b3 ← lift (cmpt_base h caps 3);
  let num_eqs := num_of EQC_BASE_NUM h in
  let live := [qp_cmpt; srq_cmpt; cq_cmpt] in
  eq_cmpt ← or_drop live (icm_init cur (c_mpt_entry_sz caps) num_eqs num_eqs b3);
  let live := eq_cmpt :: live in
  eq ← or_drop live (icm_init cur (eqc_entry_sz caps) num_eqs num_eqs (base_of EQC_BASE_NUM h));
  reserved ← lift (reserved_mtt_count caps);
  let live := eq :: live in
  mtt ← or_drop live (icm_init cur (mtt_entry_sz caps) (num_mtts p) reserved (h MTT_BASE));
  let live := mtt :: live in
  dmpt ← or_drop live (icm_init cur (d_mpt_entry_sz caps) (num_mpts p) (2 ^ log2_rsvd_mrws caps) (h DMPT_BASE));
  let live := dmpt :: live in
  qp ← or_drop live (icm_init cur (qpc_entry_sz caps) (num_of QPC_BASE_NUM h) rsvd_qps (base_of QPC_BASE_NUM h));
  let live := qp :: live in
  auxc ← or_drop live (icm_init cur (aux_entry_sz caps) (num_of QPC_BASE_NUM h) rsvd_qps (h AUXC_BASE));
  let live := auxc :: live in
  altc ← or_drop live (icm_init cur (altc_entry_sz caps) (num_of QPC_BASE_NUM h) rsvd_qps (h ALTC_BASE));
  let live := altc :: live in
  _ ← lift (rust_assert (rdmarc_shift p <? 16) "attempt to shift left with overflow");
  rdmarc ← or_drop live (icm_init cur (Z.shiftl (rdmarc_entry_sz caps) (rdmarc_shift p) mod 2 ^ 16) (num_of QPC_BASE_NUM h) rsvd_qps
                           (base_of RDMARC_BASE_NUM h));
  let live := rdmarc :: live in
  cq ← or_drop live (icm_init cur (cqc_entry_sz caps) (num_of CQC_BASE_NUM h) (2 ^ log2_rsvd_cqs caps) (base_of CQC_BASE_NUM h));
  let live := cq :: live in
  srq ← or_drop live (icm_init cur (srq_entry_sz caps) (num_of SRQC_BASE_NUM h) (2 ^ log2_rsvd_srqs caps) (base_of SRQC_BASE_NUM h));
  let live := srq :: live in
  let num_mcgs := num_mgms p + num_amgms p in
  mcg ← or_drop live (icm_init cur get_mgm_entry_size num_mcgs num_mcgs (h MC_BASE));
  mret {| cq_table := cq; cq_cmpt_table := cq_cmpt; qp_table := qp; qp_cmpt_table := qp_cmpt; auxc_table := auxc; altc_table := altc;
          rdmarc_table := rdmarc; eq_table := eq; eq_cmpt_table := eq_cmpt; srq_table := srq; srq_cmpt_table := srq_cmpt;
          memory_regions := {| mtt_table := mtt; dmpt_table := dmpt; reserved_mtts := reserved; mtt_offset := 0 |}; mcg_table := mcg |}.

(* [os/kernel/src/device/infiniband/mlx4/icm.rs:669-699] MappedIcmTables::unmap *)
Definition icm_tables_unmap (t : IcmTables) : M World unit :=
  let unmap tbl := unmap_chunks (icm tbl) in
  _ ← unmap (eq_table t); _ ← unmap (eq_cmpt_table t);
  _ ← unmap (cq_table t); _ ← unmap (cq_cmpt_table t);
  _ ← unmap (qp_table t); _ ← unmap (rdmarc_table t); _ ← unmap (altc_table t); _ ← unmap (auxc_table t); _ ← unmap (qp_cmpt_table t);
  _ ← unmap (dmpt_table (memory_regions t)); _ ← unmap (mtt_table (memory_regions t));
  _ ← unmap (mcg_table t);
  _ ← unmap (srq_table t); unmap (srq_cmpt_table t).

(** ** Where the chunks of a table are *)

(** A chunk at the byte offset [o] of a table. *)
Definition chunk_at (base o : Z) (m : MappedIcm) : Prop :=
  card_virtual m = base + o /\ num_pages m = TABLE_CHUNK_SIZE / PAGE_SIZE /\ is_Some (mi_memory m).

Lemma map_chunk_spec cur t o n (w : World) :
  wp True (map_chunk cur t o n) w (fun r _ => forall t', r = Ok t' -> virt t' = virt t /\ entry_size t' = entry_size t /\
    exists memory, icm t' = icm t ++ [mkIcm (Some memory) (virt t + o) n]).
Proof.
  unfold map_chunk. do 2 hca_step. do 2 hca_step. wp_step.
  unfold wp at 1. destruct (create_cont_mapping cur n w) as [[[m|e] w1]|]; [|done|done].
  cbv zeta. do 2 hca_step. destruct r; [|done]. hca_step. intros t' [= <-]. cbn. split_and!; [done|done|]. by exists m.
Qed.

Lemma map_offsets_spec cur offs t (w : World) :
  wp True (map_offsets cur offs t) w (fun r _ => forall t', r = Ok (t', None) -> virt t' = virt t /\
    exists ms, icm t' = icm t ++ ms /\ Forall2 (chunk_at (virt t)) offs ms).
Proof.
  revert t w. induction offs as [|o offs IH]; intros t w; cbn [map_offsets].
  { hca_step. intros t' [= <-]. split; [done|]. exists []. by rewrite app_nil_r. }
  do 2 hca_step. eapply mwp_mono; [apply map_chunk_spec|]. intros [t1|e] w1 Hc; cbn beta iota; [|hca_step; done].
  destruct (Hc t1 eq_refl) as (Hv & _ & memory & Hi).
  eapply mwp_mono; [apply IH|]. intros r w2 Hr t' Et. destruct (Hr t' Et) as (Hv' & ms & Hm & HF).
  split; [congruence|]. exists (mkIcm (Some memory) (virt t + o) (TABLE_CHUNK_SIZE / PAGE_SIZE) :: ms). split.
  - by rewrite Hm, Hi, <- app_assoc.
  - rewrite Hv in HF. constructor; [|done]. by split_and!.
Qed.

Lemma icm_init_spec cur sz cap n base (w : World) :
  wp True (icm_init cur sz cap n base) w (fun r _ => forall t, r = Ok t -> virt t = base /\
    Forall2 (chunk_at base) (chunk_offsets 0 (n * sz)) (icm t)).
Proof.
  unfold icm_init. do 2 hca_step. hca_step. eapply mwp_mono; [apply map_offsets_spec|].
  intros [[t [e|]]|e] w1 Hr; [..|done]; cbn beta iota.
  - case_decide; by hca_step.
  - hca_step. intros t' [= <-]. destruct (Hr t eq_refl) as (Hv & ms & Hm & HF). cbn in Hv, Hm, HF. split; [done|]. by rewrite Hm.
Qed.

(** A table with reserved entries has a first chunk, and the driver finds only that. *)
Lemma icm_init_table_ok cur sz cap n base (w : World) : 0 < n * sz ->
  wp True (icm_init cur sz cap n base) w (fun r _ => forall t, r = Ok t -> exists m0, table_ok t m0).
Proof.
  intros Hn. eapply mwp_mono; [apply icm_init_spec|]. intros r w1 Hr t Et. destruct (Hr t Et) as [Hv HF].
  unfold chunk_offsets in HF. set (k := (n * sz - 0 + TABLE_CHUNK_SIZE - 1) / TABLE_CHUNK_SIZE) in HF.
  assert (1 <= k) as Hk by (unfold k, TABLE_CHUNK_SIZE; apply Z.div_le_lower_bound; lia).
  rewrite seqZ_cons in HF by lia. cbn [fmap list_fmap] in HF. apply Forall2_cons_inv_l in HF as (m & ms & (Hm1 & Hm2 & memory & Hm3) & HF & Hi).
  exists memory, ms. split.
  - rewrite Hi, Hv. f_equal. destruct m as [mm cv np]. cbn in *. subst. f_equal. lia.
  - apply Forall_forall. intros m' (i & Hi')%list_elem_of_lookup. destruct (Forall2_lookup_r _ _ _ _ _ HF Hi') as (o & Ho & H1 & H2 & _).
    apply list_lookup_fmap_Some in Ho as (j & -> & Hj). apply lookup_seqZ in Hj as [-> Hj]. rewrite H1, Hv. unfold TABLE_CHUNK_SIZE in *.
    split; [lia|done].
Qed.

Lemma or_drop_ok live m (w : World) (Q : IcmTable -> Prop) :
  wp True m w (fun r _ => forall t, r = Ok t -> Q t) -> wp True (or_drop live m) w (fun r _ => forall t, r = Ok t -> Q t).
Proof.
  intros Hm. unfold or_drop. hca_step. hca_step. eapply mwp_mono; [exact Hm|]. intros [t|e] w1 Hr; cbn beta iota; [hca_step; auto|].
  repeat hca_step; done.
Qed.

Ltac skip :=
  apply mwp_bind; unfold wp at 1;
  match goal with |- match ?r with _ => _ end => destruct r as [[[?|?] ?]|]; [|done|done] end.

(** The translation table of an initialised adapter. *)
Lemma map_icm_tables_mtt cur p caps (w : World) : 0 < mtt_entry_sz caps -> 0 <= log2_rsvd_mtts caps ->
  wp True (map_icm_tables cur p caps) w (fun r _ => forall t, r = Ok t ->
    (exists m0, table_ok (mtt_table (memory_regions t)) m0) /\ 0 < reserved_mtts (memory_regions t) /\ mtt_offset (memory_regions t) = 0).
Proof.
  intros Hs Hl. unfold map_icm_tables. cbv zeta. do 9 skip. do 2 hca_step.
  assert (0 < a8) as Hr.
  { unfold reserved_mtt_count in *. destruct (Z.eqb_spec (mtt_entry_sz caps) 0); [lia|]. cbn in *. simplify_eq.
    apply Z.div_str_pos. split; [done|]. unfold next_multiple. pose proof (Z.pow_pos_nonneg 2 (log2_rsvd_mtts caps)).
    set (m := 2 ^ log2_rsvd_mtts caps * mtt_entry_sz caps). assert (mtt_entry_sz caps <= m) by (unfold m; nia).
    pose proof (Z.div_mod (m + 64 - 1) 64). pose proof (Z.mod_pos_bound (m + 64 - 1) 64). lia. }
  apply mwp_bind. eapply mwp_mono; [apply or_drop_ok; apply icm_init_table_ok; nia|]. intros [mtt|e] ? Ht; cbn beta iota; [|done].
  specialize (Ht mtt eq_refl). do 4 skip. hca_step. hca_step. do 4 skip. hca_step. intros t [= <-]. by split_and!.
Qed.
End tables.

(** The device that is added to the list. *)
(* [os/kernel/src/device/infiniband/mlx4/mod.rs:234-251] Mlx4Device::init *)
Definition new_device (caps : Capabilities) (offs : Offsets) (tables : IcmTables) (queues : list EventQueue) (uars : list UarPage)
    : Mlx4Device :=
  {| capabilities := caps; offsets := offs; mr_table := memory_regions tables; contexts := ∅; next_context := 1; pd_numbers := ∅;
     eqs := queues; uar_list := uars |}.

(** * Processes on one adapter

    The system from the initialisation of the device on: any process calls any verb with any
    arguments, processes end, and in between address spaces and memory change. *)

(** ** Free pages at the start *)

Lemma uar_pages_spec n caps bar num index l : uar_pages n caps bar num index = Ret l ->
  uar_idx <$> l = seqZ index (Z.of_nat n) /\ Forall (fun u => start_address (uar_doorbell u) = bar + PAGE_SIZE * uar_idx u) l.
Proof.
  revert index l. induction n as [|n IH]; intros index l E; cbn [uar_pages] in E; [by injection E as <-|].
  inv_bind E. inv_bind E. inv_bind E. inv_bind E. injection E as <-. destruct (IH _ _ E3) as [Hi HF]. split.
  - rewrite seqZ_cons by lia. cbn. rewrite Hi. repeat f_equal; lia.
  - constructor; [|done]. cbn [uar_doorbell uar_idx]. unfold phys_addr_new in E0. destruct (_ <? 2 ^ 52); [|done]. injection E0 as <-.
    unfold from_start_address, start_address in *. destruct (Z.eqb_spec ((bar + PAGE_SIZE * index) mod PAGE_SIZE) 0); [|done].
    injection E1 as <-. pose proof (Z.div_mod (bar + PAGE_SIZE * index) PAGE_SIZE ltac:(done)). lia.
Qed.

(** The pages have different numbers and are different frames. *)
Lemma init_uar_list_nodup caps bar l : init_uar_list caps bar = Ret l -> NoDup (uar_idx <$> l) /\ NoDup (uar_doorbell <$> l).
Proof.
  intros E. unfold init_uar_list in E. inv_bind E. apply uar_pages_spec in E as [Hi HF]. rewrite Hi. split; [apply NoDup_seqZ|].
  assert (NoDup (uar_idx <$> l)) as Hn by (rewrite Hi; apply NoDup_seqZ). clear Hi.
  induction HF as [|u l Hu HF IH]; [apply NoDup_nil_2|]. cbn in *. apply NoDup_cons in Hn as [Hni Hn].
  constructor; [|auto]. intros (u' & Eu & Hin)%list_elem_of_fmap. apply Hni. rewrite Forall_forall in HF. specialize (HF u' Hin).
  apply list_elem_of_fmap. exists u'. split; [|done]. rewrite Eu in Hu. unfold start_address, PAGE_SIZE in *. lia.
Qed.

Lemma new_device_ok caps offs tables queues bar uars : init_uar_list caps bar = Ret uars ->
  dev_ok (new_device caps offs tables queues uars).
Proof.
  intros [Hi Hd]%init_uar_list_nodup.
  assert (forall k, NoDup (k <$> uars) -> uars_ok k (new_device caps offs tables queues uars)) as Hk.
  { intros k Hn. split_and!; [done|apply owned_empty|]. intros u _ h c. cbn. by rewrite lookup_empty. }
  split; [|by apply Hk|by apply Hk|apply owned_empty| |apply owned_empty|apply owned_empty|apply owned_empty| |].
  - intros h c. cbn. by rewrite lookup_empty.
  - intros x. cbn. split; [by intros ?%elem_of_empty|]. intros (h & c & E & _). by rewrite lookup_empty in E.
  - apply map_Forall_empty.
  - intros h h' c c' q cq E. cbn in E. by rewrite lookup_empty in E.
Qed.

(** ** Runs *)

Section system.
Context {C A : Type} `{Card C} `{FrameAllocator A}.
Notation World := (World C A).
Implicit Types w : World.

(** Between verbs the adapter works and processes change their memory, but only the driver writes
    the translation table. *)
Inductive step : World -> World -> Prop :=
| step_verb pid v r w w' : run_verb pid v w = Ret (r, w') -> step w w'
| step_release pid r w w' : release pid w = Ret (r, w') -> step w w'
| step_other w w' : w_dev w' = w_dev w ->
    (forall m0 x, table_ok (mtt_table (mr_table (w_dev w))) m0 ->
       start_address m0 <= x < start_address m0 + TABLE_CHUNK_SIZE -> w_mem w' x = w_mem w x) -> step w w'.

Lemma sys_step_ok w w' : step w w' -> dev_ok (w_dev w) -> dev_ok (w_dev w').
Proof.
  intros [pid v r w1 w2 E|pid r w1 w2 E|w1 w2 E _] I; [..|by rewrite E].
  - apply (wp_run _ _ _ _ _ _ (keeps_verb pid v _ I) E).
  - apply (wp_run _ _ _ _ _ _ (keeps_release pid _ I) E).
Qed.

Lemma sys_steps_ok w w' : rtc step w w' -> dev_ok (w_dev w) -> dev_ok (w_dev w').
Proof. induction 1; eauto using sys_step_ok. Qed.

(** C7 Isolation of processes on the adapter.  After any sequence of verbs of any processes with any
    arguments, ends of processes and changes of memory in between, whatever the adapter answers:
    every context has its own handle, doorbell page and frame; every protection domain, queue pair,
    completion queue and memory region belongs to one context; the domains in use are those of
    open contexts; queue pairs ring the doorbells of their context and complete to no
    queue of another one.  A verb of a process, and the end of a process, leave the contexts and the
    address spaces of all others and all translation entries handed out before as they are. *)
Theorem processes_isolated caps offs tables queues bar uars w0 w :
  init_uar_list caps bar = Ret uars -> w_dev w0 = new_device caps offs tables queues uars -> rtc step w0 w ->
  dev_ok (w_dev w) /\
  (forall pid v r w', run_verb pid v w = Ret (r, w') -> local pid w w') /\
  (forall pid r w', release pid w = Ret (r, w') -> local pid w w').
Proof.
  intros Hu Hd Hr. assert (dev_ok (w_dev w)) as I by (eapply sys_steps_ok; [done|]; rewrite Hd; by eapply new_device_ok).
  split_and!; [done|..].
  - intros pid v r w' E. apply (wp_run _ _ _ _ _ _ (keeps_verb pid v _ I) E).
  - intros pid r w' E. apply (wp_run _ _ _ _ _ _ (keeps_release pid _ I) E).
Qed.
End system.
