(* ===== verification/HcaLedger.v ===== *)
(** * What the adapter has registered is what the contexts hold *)

From stdpp Require Import sorting.
From S2P Require Import Prelude Intervals Dram FrameAlloc Paging Vma Vmm Bytes Verbs HcaLayout HcaHw.
From S2P Require Import HcaIcm HcaDev HcaIsolation HcaRun HcaSystem.

Open Scope Z_scope.

(** * What the adapter holds

    Documented behaviour of the adapter: it owns the regions and completion queues that were
    handed to it and the queue pairs that left the reset state, until a command takes them back;
    a command that fails changes nothing.  With it, the objects in the contexts of the driver are
    at all times exactly those that the adapter holds. *)

(** ** Objects of the adapter *)

Record Hw := mkHw {
  hw_mpts : gmap Z DmptEntry;
  hw_cqs : gmap Z CompletionQueueContext;
  hw_qps : gmap Z QueuePairContext
}.

(** The effect of a command that succeeds. *)
Definition hw_effect (cmd : Command) (s : Hw) : Hw :=
  let n := c_mod cmd in
  match c_op cmd, c_in cmd with
  | Sw2HwMpt, InMailbox (MbMpt e) => mkHw (<[n := e]> (hw_mpts s)) (hw_cqs s) (hw_qps s)
  | Hw2SwMpt, _ => mkHw (delete n (hw_mpts s)) (hw_cqs s) (hw_qps s)
  | Sw2HwCq, InMailbox (MbCqc q) => mkHw (hw_mpts s) (<[n := q]> (hw_cqs s)) (hw_qps s)
  | Hw2SwCq, _ => mkHw (hw_mpts s) (delete n (hw_cqs s)) (hw_qps s)
  | Rst2InitQp, InMailbox (MbQpc _ q) => mkHw (hw_mpts s) (hw_cqs s) (<[n := q]> (hw_qps s))
  | Any2RstQp, _ => mkHw (hw_mpts s) (hw_cqs s) (delete n (hw_qps s))
  | _, _ => s
  end.

Class CardLaws (C : Type) `{Card C} := {
  hw : C -> Hw;
  (** Every command is answered in time, with a status of the manual. *)
  card_answers cmd c : exists status imm out c', card_exec cmd c = (Done status imm out, c') /\ is_Some (status_name status);
  card_effect cmd c status imm out c' : card_exec cmd c = (Done status imm out, c') ->
    hw c' = if status =? 0 then hw_effect cmd (hw c) else hw c;
  (** The entry of a region can be read back. *)
  card_query i e out c : hw_mpts (hw c) !! i = Some e ->
    exists imm e' c', card_exec (mkCommand QueryMpt 0 InEmpty i out) c = (Done 0 imm (MbMpt e'), c') /\ e' INDEX = e INDEX
}.

Section exec.
Context {C A : Type} `{CardLaws C} `{FrameAllocator A}.
Notation World := (World C A).
Implicit Types w : World.

Definition whw w : Hw := hw (w_card w).

(** A command has its effect or fails without one, and does not panic. *)
Lemma wp_command P op i m o w (Q : _ -> _ -> Prop) :
  (forall x c, hw c = hw_effect (mkCommand op 0 i m o) (whw w) -> Q (Ok x) (set_card c w)) ->
  (forall e c, hw c = whw w -> Q (Err e) (set_card c w)) -> wp P (execute_command op i m o) w Q.
Proof.
  intros Ho He. unfold wp, execute_command, execute_command_mod.
  destruct (card_answers (mkCommand op 0 i m o) (w_card w)) as (s & imm & out & c & E & [name Hn]).
  pose proof (card_effect _ _ _ _ _ _ E) as Hf. rewrite E, Hn. cbn. destruct (s =? 0); [by apply Ho|by apply He].
Qed.

Lemma wp_query P i e w (Q : _ -> _ -> Prop) : hw_mpts (whw w) !! i = Some e ->
  (forall imm e' c, e' INDEX = e INDEX -> hw c = whw w -> Q (Ok (imm, MbMpt e')) (set_card c w)) ->
  wp P (execute_command QueryMpt InEmpty i OutMailbox) w Q.
Proof.
  intros Hi HQ. unfold wp, execute_command, execute_command_mod. destruct (card_query i e OutMailbox (w_card w) Hi) as (imm & e' & c & E & Hx).
  pose proof (card_effect _ _ _ _ _ _ E) as Hf. rewrite E. cbn. by apply HQ.
Qed.
End exec.

(** ** Contexts that mirror the adapter *)

Section mirrors.
Context (f : UContext -> list Z).

Definition mirrors (m : gmap Z UContext) (s : gset Z) : Prop := forall x, x ∈ s <-> exists h c, m !! h = Some c /\ x ∈ f c.

Lemma mirrors_change m h c c' s s' : owned f m -> m !! h = Some c -> mirrors m s ->
  (forall x, x ∈ s' <-> x ∈ f c' \/ x ∈ s /\ x ∉ f c) -> mirrors (<[h := c']> m) s'.
Proof.
  intros [_ Hd] Hc Hm Hs x. rewrite Hs, (Hm x). split.
  - intros [Hx|[(h1 & c1 & E & Hx) Hn]]; [exists h, c'; by rewrite lookup_insert_eq|].
    exists h1, c1. rewrite lookup_insert_ne; [done|]. intros <-. congruence.
  - intros (h1 & c1 & [[<- <-]|[N E]]%lookup_insert_Some & Hx); [by left|right]. split; [eauto|].
    intros Hx'. apply N. by apply (Hd h h1 c c1 x).
Qed.

Lemma mirrors_same m h c c' s : owned f m -> m !! h = Some c -> mirrors m s -> f c' = f c -> mirrors (<[h := c']> m) s.
Proof.
  intros Ho Hc Hm E. eapply mirrors_change; [done..|]. intros x. rewrite E. split; [|intros [Hx|[Hx _]]; [|done]].
  - intros Hx. destruct (decide (x ∈ f c)); auto.
  - apply Hm. eauto.
Qed.

Lemma mirrors_delete m h c s : m !! h = Some c -> f c = [] -> mirrors m s -> mirrors (delete h m) s.
Proof.
  intros Hc E Hm x. rewrite (Hm x). split; intros (h1 & c1 & E1 & Hx).
  - exists h1, c1. split; [|done]. rewrite lookup_delete_ne; [done|]. intros <-. assert (c1 = c) as -> by congruence.
    rewrite E in Hx. by apply not_elem_of_nil in Hx.
  - apply lookup_delete_Some in E1 as [_ E1]. eauto.
Qed.

Lemma mirrors_new m n c s : m !! n = None -> f c = [] -> mirrors m s -> mirrors (<[n := c]> m) s.
Proof.
  intros Hn E Hm x. rewrite (Hm x). split; intros (h1 & c1 & E1 & Hx).
  - exists h1, c1. rewrite lookup_insert_ne; [done|]. intros <-. congruence.
  - apply lookup_insert_Some in E1 as [[<- <-]|[_ E1]]; [|eauto]. rewrite E in Hx. by apply not_elem_of_nil in Hx.
Qed.
End mirrors.

(** The queue pairs that left the reset state. *)
Definition live (q : QueuePair) : Prop := qp_state q <> StReset.
#[global] Instance live_dec q : Decision (live q).
Proof. unfold live. apply _. Defined.
Definition live_qps (c : UContext) : list Z := qp_number <$> filter live (qps c).

Record mirrored (m : gmap Z UContext) (s : Hw) : Prop := {
  mi_mrs : mirrors mr_indices m (dom (hw_mpts s));
  mi_cqs : mirrors cq_numbers m (dom (hw_cqs s));
  mi_qps : mirrors live_qps m (dom (hw_qps s))
}.

Lemma live_qps_sub c : live_qps c ⊆ qp_numbers c.
Proof.
  intros x (q & -> & Hq)%list_elem_of_fmap. apply list_elem_of_filter in Hq as [_ Hq]. by apply list_elem_of_fmap_2.
Qed.

Lemma owned_live m : owned qp_numbers m -> owned live_qps m.
Proof.
  intros [Hn Hd]. split.
  - intros h c E. specialize (Hn h c E). unfold live_qps, qp_numbers in *. eapply submseteq_nodup; [exact Hn|].
    apply sublist_submseteq, fmap_sublist, sublist_filter.
  - intros h h' c c' x E E' Hx Hx'. eapply (Hd h h' c c' x); [done|done|by apply live_qps_sub|by apply live_qps_sub].
Qed.

(** ** Operations and the adapter *)

Create HintDb hcard.

Section same.
Context {C A : Type} `{CardLaws C} `{FrameAllocator A}.
Notation World := (World C A).
Implicit Types w : World.

(** Steps that do not reach the adapter. *)
Definition same_card w (w' : World) : Prop := w_card w' = w_card w.
#[export] Instance same_card_refl : Reflexive same_card.
Proof. done. Qed.
#[export] Instance same_card_trans : Transitive same_card.
Proof. unfold same_card. intros w1 w2 w3. congruence. Qed.

Lemma same_lift {B} (m : outcome B) : steps same_card (lift m).
Proof. intros w. by wp_step. Qed.
Lemma same_reject b e : steps same_card (reject b e).
Proof. intros w. by wp_step. Qed.
Lemma same_ok_or {B} (o : option B) e : steps same_card (ok_or o e).
Proof. intros w. by wp_step. Qed.
Lemma same_ret {B} (b : B) : steps same_card (mret b).
Proof. intros w. by wp_step. Qed.
Lemma same_modify (f : World -> World) : (forall w, w_card (f w) = w_card w) -> steps same_card (modify f).
Proof. intros Hf w. wp_step. apply Hf. Qed.
Lemma same_dev : steps same_card dev.
Proof. by intros w. Qed.
Lemma same_space pid : steps same_card (space pid).
Proof. by intros w. Qed.
Lemma same_of_result {B} (r : result string B) : steps same_card (of_result r).
Proof. by intros w. Qed.
Lemma same_upd_dev f : steps same_card (upd_dev f).
Proof. by intros w. Qed.
Lemma same_to_u32 n : steps same_card (to_u32 n).
Proof. intros w. unfold to_u32. repeat wp_step; done. Qed.

Lemma wp_bind_same {B D} (m : M World B) (f : B -> M World D) w Q : steps same_card m ->
  (forall e w', w_card w' = w_card w -> Q (Err e) w') ->
  (forall a w', w_card w' = w_card w -> wp True (f a) w' Q) -> wp True (m ≫= f) w Q.
Proof. intros Hm He Hf. apply mwp_bind. eapply mwp_mono; [apply Hm|]. intros [a|e] w' E; auto. Qed.
End same.

#[export] Hint Resolve same_lift same_reject same_ok_or same_ret same_dev same_space same_of_result same_upd_dev same_to_u32 : hcard.

Ltac same_auto :=
  repeat lazymatch goal with
  | |- steps same_card (_ ≫= _) => apply (steps_bind same_card); [|intros ?]
  | |- steps same_card (modify _) => apply same_modify; done
  | |- steps same_card (let '(_, _) := ?x in _) => destruct x
  | |- steps same_card (if ?b then _ else _) => destruct b
  | |- steps same_card (match ?x with _ => _ end) => destruct x
  | |- steps same_card _ => solve [eauto with hcard]
  end.

Section hardware.
Context {C A : Type} `{CardLaws C} `{FrameAllocator A}.
Notation World := (World C A).
Implicit Types w : World.

Lemma same_write_mtts pid n page addr sz : steps (S := World) same_card (write_mtts pid n page addr sz).
Proof. revert page addr. induction n as [|n IH]; intros page addr; cbn [write_mtts]; same_auto. Qed.
Hint Resolve same_write_mtts : hcard.
Lemma same_alloc_mtt pid pages : steps (S := World) same_card (alloc_mtt_for_pages pid pages).
Proof. unfold alloc_mtt_for_pages. same_auto. Qed.
Lemma same_alloc_cqn : steps (S := World) same_card alloc_cqn.
Proof. unfold alloc_cqn. same_auto. Qed.
Lemma same_alloc_qpn : steps (S := World) same_card alloc_qpn.
Proof. unfold alloc_qpn. same_auto. Qed.
Lemma same_alloc_dmpt_index : steps (S := World) same_card alloc_dmpt_index.
Proof. unfold alloc_dmpt_index. same_auto. Qed.
Hint Resolve same_alloc_mtt same_alloc_cqn same_alloc_qpn same_alloc_dmpt_index : hcard.

Lemma same_qp_new pid typ pd scq rcq buffer doorbell uar a b c d :
  steps (S := World) same_card (qp_new pid typ pd scq rcq buffer doorbell uar a b c d).
Proof. unfold qp_new. same_auto. Qed.

(** Steps before a command. *)
Ltac same_prefix :=
  repeat (apply wp_bind_same; [solve [eauto with hcard]|intros ? ? ?; unfold whw; congruence|intros ? ? ?; cbv zeta]).

Lemma cq_new_hw eq pid entries buffer doorbell uar w :
  wp True (cq_new eq pid entries buffer doorbell uar) w (fun r w' => match r with
    | Ok cq => exists q, whw w' = mkHw (hw_mpts (whw w)) (<[cq_number cq := q]> (hw_cqs (whw w))) (hw_qps (whw w))
    | Err _ => whw w' = whw w end).
Proof.
  unfold cq_new. same_prefix.
  wp_step. apply wp_command; [|intros e c E; cbn beta iota; unfold whw in *; cbn; congruence].
  intros _ c E. cbn beta iota. wp_step. eexists. unfold whw in *. cbn [w_card set_card cq_number]. rewrite E. cbn.
  repeat match goal with H : w_card _ = w_card _ |- _ => rewrite H; clear H end. done.
Qed.

(** The entry that the adapter gets for a region. *)
Record entry_for (index pd addr size mtt access : Z) (pages : range) (e : DmptEntry) : Prop := {
  ef_index : e INDEX = index;
  ef_pd : e PD = pd;
  ef_start : e START = addr;
  ef_length : e LENGTH = size;
  ef_entity : e ENTITY_SIZE = 12;
  ef_mtt : e MTT_ADDR = mtt;
  ef_mtts : e MTT_SIZE = wrap32 (range_len pages);
  ef_local_write : e LOCAL_WRITE = b2z (contains access LOCAL_WRITE_FLAG);
  ef_remote_read : e REMOTE_READ = b2z (contains access REMOTE_READ_FLAG);
  ef_remote_write : e REMOTE_WRITE = b2z (contains access REMOTE_WRITE_FLAG)
}.

Lemma fill_dmpt_entry index pd addr size mtt pages access e :
  fill_dmpt index pd addr size mtt pages access = Ret e -> entry_for index pd addr size mtt access pages e.
Proof.
  unfold fill_dmpt. intros E.
  destruct (contains access LOCAL_WRITE_FLAG) eqn:B1, (contains access REMOTE_READ_FLAG) eqn:B2, (contains access REMOTE_WRITE_FLAG) eqn:B3;
    repeat (inv_bind E);
    repeat match goal with
    | H : bf_set _ _ _ = Ret _ |- _ => apply bf_set_ret in H as [-> _]
    | H : bits (width REMOTE_WRITE) 1 = Ret _ |- _ => vm_compute in H
    | H : Ret _ = Ret _ |- _ => injection H as <-
    end; split; rewrite ?B1, ?B2, ?B3; reflexivity.
Qed.

Lemma alloc_dmpt_hw pid pd address size access w :
  wp True (alloc_dmpt pid pd address size access) w (fun r w' => match r with
    | Ok (mr, _) => exists i e, mr_index mr = Some i /\
        whw w' = mkHw (<[i := e]> (hw_mpts (whw w))) (hw_cqs (whw w)) (hw_qps (whw w))
    | Err _ => whw w' = whw w end).
Proof.
  unfold alloc_dmpt. do 9 (apply wp_bind_same; [solve [eauto with hcard]|intros ? ? ?; unfold whw; congruence|intros ? ? ?; cbv zeta]).
  do 2 hca_step. match goal with H : fill_dmpt _ _ _ _ _ _ _ = Ret _ |- _ => apply fill_dmpt_entry in H as Hf end.
  match goal with |- wp _ _ ?v _ => assert (whw v = whw w) as Hw by (unfold whw; congruence) end.
  wp_step. apply wp_command; [|intros e c E; cbn beta iota; unfold whw in *; cbn; congruence]. intros _ c E. cbn beta iota.
  wp_step. eapply wp_query; [unfold whw; cbn [w_card set_card]; rewrite E; cbn; by rewrite lookup_insert_eq|].
  intros imm e' c' Hi E'. cbn beta iota. do 2 hca_step. hca_step. eexists _, _. split.
  - unfold mr_index. cbn. rewrite Hi, (ef_index _ _ _ _ _ _ _ _ Hf). reflexivity.
  - unfold whw in *. cbn [w_card set_card] in *. rewrite E', E. cbn. by rewrite Hw.
Qed.

Lemma cq_destroy_hw cq w : wp True (cq_destroy cq) w (fun r w' => whw w' = match r with
    | Ok _ => mkHw (hw_mpts (whw w)) (delete (cq_number cq) (hw_cqs (whw w))) (hw_qps (whw w)) | Err _ => whw w end).
Proof. unfold cq_destroy. wp_step. apply wp_command; intros; cbn beta iota; [by wp_step|done]. Qed.

Lemma mr_destroy_hw mr i w : mr_index mr = Some i -> wp True (mr_destroy mr) w (fun r w' => whw w' = match r with
    | Ok _ => mkHw (delete i (hw_mpts (whw w))) (hw_cqs (whw w)) (hw_qps (whw w)) | Err _ => whw w end).
Proof.
  intros Hi. unfold mr_destroy. rewrite Hi. wp_step. wp_step; [done|]. simplify_eq. wp_step.
  apply wp_command; intros; cbn beta iota; [by wp_step|done].
Qed.

(** ** States of a queue pair *)

(** What the adapter has of a queue pair after [modify] made [q'] of [q]: it enters the adapter
    when it leaves the reset state, and leaves it again on the way back. *)
Definition qp_moved (q q' : QueuePair) (s s' : Hw) : Prop :=
  hw_mpts s' = hw_mpts s /\ hw_cqs s' = hw_cqs s /\
  ((live q -> qp_number q ∈ dom (hw_qps s)) -> (qp_number q ∈ dom (hw_qps s) -> live q) ->
   forall x, x ∈ dom (hw_qps s') <-> if decide (x = qp_number q) then live q' else x ∈ dom (hw_qps s)).

Lemma qp_moved_same q q' s : (live q' <-> live q) -> qp_moved q q' s s.
Proof. intros E. split_and!; [done|done|]. intros L1 L2 x. case_decide; [|done]. subst. rewrite E. split; auto. Qed.

Ltac any := repeat (apply wp_bind_any; [done|intros ? ?; cbv zeta]).

Lemma reset_to_init_op attr mask q : wp True (reset_to_init attr mask) q (fun r _ => forall x, r = Ok x -> x.1.1 = Rst2InitQp).
Proof. unfold reset_to_init. any. wp_step. by intros x [= <-]. Qed.
Lemma init_to_rtr_op caps attr mask q : wp True (init_to_rtr caps attr mask) q (fun r _ => forall x, r = Ok x -> x.1.1 = Init2RtrQp).
Proof. unfold init_to_rtr. any. wp_step. by intros x [= <-]. Qed.
Lemma stay_init_op attr mask q : wp True (stay_init attr mask) q (fun r _ => forall x, r = Ok x -> x.1.1 = Init2InitQp).
Proof. unfold stay_init. any. wp_step. by intros x [= <-]. Qed.
Lemma rtr_to_rts_op attr mask q : wp True (rtr_to_rts attr mask) q (fun r _ => forall x, r = Ok x -> x.1.1 = Rtr2RtsQp).
Proof. unfold rtr_to_rts. any. wp_step. by intros x [= <-]. Qed.

(** The command of a transition, with the states before and after. *)
Definition command_states (q : QueuePair) (attr : QueuePairAttr) (mask : Z) (op : Opcode) : Prop :=
  match op with
  | Rst2InitQp => qp_state q = StReset /\ contains mask IBV_QP_STATE = true /\ a_state attr = StInit
  | Any2RstQp => contains mask IBV_QP_STATE = true /\ a_state attr = StReset
  | Init2RtrQp | Init2InitQp | Rtr2RtsQp => live q /\ (contains mask IBV_QP_STATE = true -> a_state attr <> StReset)
  | _ => False
  end.

Lemma transition_command caps attr mask q :
  wp True (transition caps attr mask) q (fun r _ => forall op m c, r = Ok (Some (op, m, c)) -> command_states q attr mask op).
Proof.
  unfold transition. do 2 wp_step; [done|]. unfold self. do 2 wp_step.
  assert (forall (m : M QueuePair (Opcode * Z * QueuePairContext)) op', (wp True m q (fun r _ => forall x, r = Ok x -> x.1.1 = op')) ->
    command_states q attr mask op' ->
    wp True (r ← m; mret (Some r)) q (fun r _ => forall op k c, r = Ok (Some (op, k, c)) -> command_states q attr mask op)) as Hb.
  { intros m op' Hm Hs. wp_step. eapply mwp_mono; [exact Hm|]. intros [x|e] s' Hx; cbn beta iota; [|done]. wp_step.
    intros op k c [= ->]. specialize (Hx _ eq_refl). cbn in Hx. by subst. }
  unfold has. destruct (contains mask IBV_QP_STATE) eqn:Em.
  - destruct (qp_state q) eqn:Es, (a_state attr) eqn:Ea; try (by wp_step);
      try (wp_step; intros op m c [= <- <- <-]; cbn; by rewrite Em, Ea).
    + apply (Hb _ _ (reset_to_init_op _ _ _)). cbn. by rewrite Em.
    + apply (Hb _ _ (stay_init_op _ _ _)). cbn. unfold live. by rewrite Es, Ea.
    + apply (Hb _ _ (init_to_rtr_op _ _ _ _)). cbn. unfold live. by rewrite Es, Ea.
    + apply (Hb _ _ (rtr_to_rts_op _ _ _)). cbn. unfold live. by rewrite Es, Ea.
  - destruct (qp_state q) eqn:Es; try (by wp_step).
    apply (Hb _ _ (stay_init_op _ _ _)). cbn. unfold live. by rewrite Es, Em.
Qed.

Lemma live_filled q q' : qp_filled q q' -> live q' <-> live q.
Proof. intros [_ Hs _]. unfold live. by rewrite Hs. Qed.

(** The effect of a command on the queue pairs of the adapter. *)
Lemma qp_moved_command q q' attr mask op m c s : command_states q attr mask op -> qp_filled q q' ->
  qp_moved q (if contains mask IBV_QP_STATE then with_state (a_state attr) q' else q') s
    (hw_effect (mkCommand op 0 (InMailbox (MbQpc m c)) (qp_number q') OutEmpty) s).
Proof.
  intros Hc Hf. rewrite (qs_number _ _ (qf_same _ _ Hf)). pose proof (live_filled _ _ Hf) as Hl.
  destruct op; cbn in Hc; try done.
  - destruct Hc as (_ & -> & Ha). split_and!; [done|done|]. intros _ _ x. cbn. rewrite dom_insert, elem_of_union, elem_of_singleton.
    unfold live. cbn. rewrite Ha. case_decide; naive_solver.
  - destruct Hc as [Hq Ha]. apply qp_moved_same. destruct (contains mask IBV_QP_STATE); [|done]. unfold live in *. cbn. naive_solver.
  - destruct Hc as [Hq Ha]. apply qp_moved_same. destruct (contains mask IBV_QP_STATE); [|done]. unfold live in *. cbn. naive_solver.
  - destruct Hc as [-> Ha]. split_and!; [done|done|]. intros _ _ x. cbn. rewrite dom_delete, elem_of_difference, elem_of_singleton.
    unfold live. cbn. rewrite Ha. case_decide; naive_solver.
  - destruct Hc as [Hq Ha]. apply qp_moved_same. destruct (contains mask IBV_QP_STATE); [|done]. unfold live in *. cbn. naive_solver.
Qed.

Lemma qp_modify_hw q attr mask w :
  wp True (qp_modify q attr mask) w (fun r w' => exists r0 q', r = Ok (r0, q') /\ qp_moved q q' (whw w) (whw w')).
Proof.
  unfold qp_modify. do 2 hca_step. do 2 hca_step. destruct a as [r q'].
  match goal with E : transition _ _ _ _ = Ret _ |- _ =>
    pose proof (wp_run _ _ _ _ _ _ (transition_filled _ _ _ q) E) as Hf; pose proof (wp_run _ _ _ _ _ _ (transition_command _ _ _ q) E) as Hc end.
  pose proof (live_filled _ _ Hf) as Hl. cbn beta iota.
  destruct r as [[[[op m] c]|]|e]; cbn beta iota; [|wp_step; eexists _, _; split; [done|by apply qp_moved_same]..].
  specialize (Hc _ _ _ eq_refl). do 2 wp_step. apply wp_command.
  - intros _ c' E. cbn beta iota. wp_step. eexists _, _. split; [done|]. unfold whw in *. cbn [w_card set_card]. rewrite E.
    by apply qp_moved_command.
  - intros e c' E. cbn beta iota. wp_step. eexists _, _. split; [done|]. unfold whw in *. cbn [w_card set_card]. rewrite E.
    by apply qp_moved_same.
Qed.

Lemma transition_reset caps q : live q -> transition caps reset_attr IBV_QP_STATE q = Ret (Ok (Some (Any2RstQp, 0, bf_new)), q).
Proof.
  unfold live. intros Hq. destruct q as [n st t p pd sc rc u m o d b s r k]. cbn in Hq. destruct st; done || reflexivity.
Qed.

Lemma qp_destroy_hw q w :
  wp True (qp_destroy q) w (fun r w' => exists r0 q', r = Ok (r0, q') /\ qp_moved q q' (whw w) (whw w') /\ (r0 = Ok tt -> ~ live q')).
Proof.
  unfold qp_destroy. wp_step. case_decide as Hs.
  { do 2 wp_step. eexists _, _. split; [done|]. unfold live. split; [by apply qp_moved_same|cbn; naive_solver]. }
  unfold qp_modify. do 2 hca_step. do 2 hca_step. match goal with E : transition _ _ _ _ = Ret _ |- _ => rewrite transition_reset in E by done end.
  simplify_eq. cbn beta iota. do 2 wp_step. apply wp_command.
  - intros _ c' E. cbn beta iota. do 2 wp_step. eexists _, _. split; [done|]. unfold whw in *. cbn [w_card set_card]. rewrite E.
    split; [|by intros _ Hl; apply Hl].
    apply (qp_moved_command q q reset_attr IBV_QP_STATE Any2RstQp 0 bf_new); done.
  - intros e c' E. cbn beta iota. do 2 wp_step. eexists _, _. split; [done|]. unfold whw in *. cbn [w_card set_card]. rewrite E.
    split; [by apply qp_moved_same|done].
Qed.
End hardware.

(** * The contexts of the driver mirror the adapter

    Through every verb and every end of a process, the regions, completion queues and active
    queue pairs of the open contexts are those that the adapter holds; so a process whose contexts
    are released has nothing left on the adapter. *)

(** ** Sets and lists of numbers *)

Section numbers.
Context (l : list Z) (s : gset Z) (Hl : forall x, x ∈ l -> x ∈ s).

Lemma iff_same x : x ∈ s <-> x ∈ l \/ x ∈ s /\ x ∉ l.
Proof. destruct (decide (x ∈ l)); naive_solver. Qed.
Lemma iff_snoc n x : x ∈ {[n]} ∪ s <-> x ∈ l ++ [n] \/ x ∈ s /\ x ∉ l.
Proof. rewrite elem_of_union, elem_of_singleton, elem_of_app, list_elem_of_singleton. destruct (decide (x ∈ l)); naive_solver. Qed.
Lemma iff_remove n l' x : NoDup l -> l ≡ₚ n :: l' -> x ∈ s ∖ {[n]} <-> x ∈ l' \/ x ∈ s /\ x ∉ l.
Proof.
  intros Hn Hp. rewrite Hp in Hn. apply NoDup_cons in Hn as [Hni _].
  assert (x ∈ l <-> x = n \/ x ∈ l') as Hx by (by rewrite Hp, elem_of_cons).
  rewrite elem_of_difference, elem_of_singleton. destruct (decide (x = n)) as [->|]; [naive_solver|].
  destruct (decide (x ∈ l')); naive_solver.
Qed.
End numbers.

Lemma mirrors_in f m s h c x : mirrors f m s -> m !! h = Some c -> x ∈ f c -> x ∈ s.
Proof. intros Hm Hc Hx. apply Hm. eauto. Qed.

Lemma mirrored_change d h c c' s s' : dev_ok d -> contexts d !! h = Some c -> mirrored (contexts d) s ->
  (forall x, x ∈ dom (hw_mpts s') <-> x ∈ mr_indices c' \/ x ∈ dom (hw_mpts s) /\ x ∉ mr_indices c) ->
  (forall x, x ∈ dom (hw_cqs s') <-> x ∈ cq_numbers c' \/ x ∈ dom (hw_cqs s) /\ x ∉ cq_numbers c) ->
  (forall x, x ∈ dom (hw_qps s') <-> x ∈ live_qps c' \/ x ∈ dom (hw_qps s) /\ x ∉ live_qps c) ->
  mirrored (<[h := c']> (contexts d)) s'.
Proof.
  intros I Hc [M1 M2 M3] H1 H2 H3. split; eapply mirrors_change; try done; [apply I|apply I|apply owned_live, I].
Qed.

Section mirror.
Context {C A : Type} `{CardLaws C} `{FrameAllocator A}.
Notation World := (World C A).
Implicit Types w : World.

Definition mirror w : Prop := mirrored (contexts (w_dev w)) (whw w).

(** A context put back after operations below the verbs. *)
Lemma mirror_put w w1 h c c' : dev_ok (w_dev w) -> contexts (w_dev w) !! h = Some c -> mirror w -> low w w1 ->
  (forall x, x ∈ dom (hw_mpts (whw w1)) <-> x ∈ mr_indices c' \/ x ∈ dom (hw_mpts (whw w)) /\ x ∉ mr_indices c) ->
  (forall x, x ∈ dom (hw_cqs (whw w1)) <-> x ∈ cq_numbers c' \/ x ∈ dom (hw_cqs (whw w)) /\ x ∉ cq_numbers c) ->
  (forall x, x ∈ dom (hw_qps (whw w1)) <-> x ∈ live_qps c' \/ x ∈ dom (hw_qps (whw w)) /\ x ∉ live_qps c) ->
  mirror (put h c' w1).
Proof.
  intros I Hc Hm L H1' H2' H3'. unfold mirror. cbn [put set_dev w_dev with_contexts contexts]. rewrite (low_contexts _ _ L).
  by eapply (mirrored_change (w_dev w) h c c' (whw w)).
Qed.

Lemma mirror_low w w' : mirror w -> low w w' -> whw w' = whw w -> mirror w'.
Proof. intros Hm L E. unfold mirror. by rewrite (low_contexts _ _ L), E. Qed.

Section parts.
Context w h c (I : dev_ok (w_dev w)) (Hc : contexts (w_dev w) !! h = Some c) (Hm : mirror w).

Lemma mrs_held x : x ∈ mr_indices c -> x ∈ dom (hw_mpts (whw w)).
Proof. intros Hx. eapply mirrors_in; [apply (mi_mrs _ _ Hm)|done|done]. Qed.
Lemma cqs_held x : x ∈ cq_numbers c -> x ∈ dom (hw_cqs (whw w)).
Proof. intros Hx. eapply mirrors_in; [apply (mi_cqs _ _ Hm)|done|done]. Qed.
Lemma qps_held x : x ∈ live_qps c -> x ∈ dom (hw_qps (whw w)).
Proof. intros Hx. eapply mirrors_in; [apply (mi_qps _ _ Hm)|done|done]. Qed.

(** A queue pair is active exactly if the adapter has it. *)
Lemma qp_held q : q ∈ qps c -> live q <-> qp_number q ∈ dom (hw_qps (whw w)).
Proof.
  intros Hq. split.
  - intros Hl. apply qps_held. apply list_elem_of_fmap_2. by apply list_elem_of_filter.
  - intros Hx. apply (mi_qps _ _ Hm) in Hx as (h1 & c1 & E1 & Hx). pose proof (live_qps_sub _ _ Hx) as Hx'.
    assert (h1 = h) as ->.
    { apply (proj2 (do_qps _ I) h1 h c1 c (qp_number q)); [done|done|done|]. by apply list_elem_of_fmap_2. }
    assert (c1 = c) as -> by congruence. apply list_elem_of_fmap in Hx as (q1 & En & Hq1). apply list_elem_of_filter in Hq1 as [Hl Hq1].
    assert (q1 = q) as ->; [|done]. pose proof (proj1 (do_qps _ I) h c Hc) as Hn. unfold qp_numbers in Hn.
    apply list_elem_of_lookup in Hq as (i & Hi). apply list_elem_of_lookup in Hq1 as (j & Hj).
    assert (i = j) as ->; [|congruence]. eapply NoDup_lookup; [exact Hn|..]; rewrite list_lookup_fmap; [rewrite Hi|rewrite Hj; cbn; rewrite <- En]; done.
Qed.
End parts.

Lemma qp_new_reset pid typ pd scq rcq buffer doorbell uar a b c d w :
  wp True (qp_new pid typ pd scq rcq buffer doorbell uar a b c d) w (fun r _ => forall q, r = Ok q -> qp_state q = StReset).
Proof. unfold qp_new. repeat (apply wp_bind_any; [done|intros ? ?; cbv zeta]). wp_step. by intros q [= <-]. Qed.

Lemma mirror_create_cq pid h entries buffer doorbell w : dev_ok (w_dev w) -> mirror w ->
  wp True (create_cq pid h entries buffer doorbell) w (fun _ => mirror).
Proof.
  intros I Hm. unfold create_cq. verb_step. verb_step; [done|]. do 3 verb_step.
  eapply mwp_mono; [apply mwp_and; [apply low_cq_new|apply cq_new_hw]|]. intros [cq|e] w1 [L E]; [|by eapply mirror_low].
  destruct E as [q E]. cbn beta iota. do 2 verb_step.
  assert (forall w2, low w1 w2 -> whw w2 = whw w1 -> mirror (put h (with_cqs (cqs c ++ [cq]) c) w2)) as Hput.
  { intros w2 L2 E2. eapply (mirror_put w w2 h c); [done..|by etrans| | |]; rewrite E2, E; cbn [hw_mpts hw_cqs hw_qps].
    - apply iff_same. by eapply mrs_held.
    - intros x. rewrite dom_insert. unfold cq_numbers at 1. cbn. rewrite fmap_app. apply iff_snoc. by eapply cqs_held.
    - apply iff_same. by eapply qps_held. }
  apply wp_command; intros ? c' E'; do 3 verb_step; (apply Hput; [apply low_set_card|done]).
Qed.

Lemma mirror_destroy_cq pid h number w : dev_ok (w_dev w) -> mirror w -> wp True (destroy_cq pid h number) w (fun _ => mirror).
Proof.
  intros I Hm. unfold destroy_cq. verb_step. verb_step; [done|]. verb_step. verb_step; [done|].
  destruct a as [i cq]. match goal with E : list_find _ _ = Some _ |- _ => apply list_find_Some in E as (Hi & _ & _) end.
  verb_step. eapply mwp_mono; [apply mwp_and; [apply low_cq_destroy|apply cq_destroy_hw]|]. intros [cq'|e] w1 [L E]; [|by eapply mirror_low].
  do 3 verb_step. eapply (mirror_put w w1 h c); [done..| | |]; rewrite E; cbn [hw_mpts hw_cqs hw_qps].
  - apply iff_same. by eapply mrs_held.
  - intros x. rewrite dom_delete. apply iff_remove; [by eapply cqs_held|by apply (proj1 (do_cqs _ I) h)|].
    apply (fmap_Permutation cq_number _ (cq :: delete i (cqs c))), delete_Permutation, Hi.
  - apply iff_same. by eapply qps_held.
Qed.

Lemma mirror_create_qp pid h pd typ scq rcq sh w : dev_ok (w_dev w) -> mirror w ->
  wp True (create_qp pid h pd typ scq rcq sh) w (fun _ => mirror).
Proof.
  intros I Hm. unfold create_qp. verb_step. verb_step; [done|]. unfold validate_pd.
  do 2 verb_step; [done|]. do 2 verb_step; [done|]. do 2 verb_step; [done|]. verb_step.
  eapply mwp_mono; [apply mwp_and; [apply mwp_and; [apply low_qp_new|apply same_qp_new]|apply qp_new_reset]|].
  intros [q|e] w1 [[L E] Hr]; [|eapply mirror_low; [done..|]; unfold whw; by rewrite E].
  specialize (Hr q eq_refl). do 3 verb_step.
  eapply (mirror_put w w1 h c); [done..| | |]; replace (whw w1) with (whw w) by (unfold whw; by rewrite E).
  - apply iff_same. by eapply mrs_held.
  - apply iff_same. by eapply cqs_held.
  - unfold live_qps at 1. cbn [qps with_qps]. rewrite filter_app, (filter_cons_False live) by (by intros Hl; apply Hl). cbn [filter list_filter]. rewrite app_nil_r.
    apply iff_same. by eapply qps_held.
Qed.

Lemma mirror_create_mr pid h pd address size access w : dev_ok (w_dev w) -> mirror w ->
  wp True (create_mr pid h pd address size access) w (fun _ => mirror).
Proof.
  intros I Hm. unfold create_mr. verb_step. verb_step; [done|]. unfold validate_pd. do 2 verb_step; [done|]. verb_step.
  eapply mwp_mono; [apply mwp_and; [apply low_alloc_dmpt|apply alloc_dmpt_hw]|]. intros [[mr md]|e] w1 [L E]; [|by eapply mirror_low].
  destruct E as (i & e & Ei & E). do 3 verb_step.
  eapply (mirror_put w w1 h c); [done..| | |]; rewrite E; cbn [hw_mpts hw_cqs hw_qps].
  - intros x. rewrite dom_insert. unfold mr_indices at 1. cbn. rewrite omap_app. cbn. rewrite Ei. apply iff_snoc. by eapply mrs_held.
  - apply iff_same. by eapply cqs_held.
  - apply iff_same. by eapply qps_held.
Qed.

Lemma mirror_destroy_mr pid h index w : dev_ok (w_dev w) -> mirror w -> wp True (destroy_mr pid h index) w (fun _ => mirror).
Proof.
  intros I Hm. unfold destroy_mr. verb_step. verb_step; [done|]. verb_step. verb_step; [done|].
  destruct a as [i mr]. match goal with E : list_find _ _ = Some _ |- _ => apply list_find_Some in E as (Hi & Hx & _) end.
  verb_step. eapply mwp_mono; [apply mwp_and; [apply low_mr_destroy|by apply mr_destroy_hw]|]. intros [mr'|e] w1 [L E]; [|by eapply mirror_low].
  do 3 verb_step. eapply (mirror_put w w1 h c); [done..| | |]; rewrite E; cbn [hw_mpts hw_cqs hw_qps].
  - intros x. rewrite dom_delete. apply iff_remove; [by eapply mrs_held|by apply (proj1 (do_mrs _ I) h)|].
    trans (omap mr_index (mr :: swap_remove (mrs c) i)); [by apply omap_Permutation, swap_remove_perm|cbn; by rewrite Hx].
  - apply iff_same. by eapply cqs_held.
  - apply iff_same. by eapply qps_held.
Qed.

(** A queue pair moved between the states, at its place in the context. *)
Lemma live_insert w h c i q q' x : dev_ok (w_dev w) -> contexts (w_dev w) !! h = Some c -> qps c !! i = Some q -> qp_same q q' ->
  x ∈ live_qps (with_qps (<[i := q']> (qps c)) c) <-> if decide (x = qp_number q) then live q' else x ∈ live_qps c.
Proof.
  intros I Hc Hi Hs. pose proof (proj1 (do_qps _ I) h c Hc) as Hn. unfold qp_numbers in Hn.
  unfold live_qps. cbn. split.
  - intros (q1 & -> & [Hl Hq1]%list_elem_of_filter)%list_elem_of_fmap. apply list_elem_of_lookup in Hq1 as (j & Hj).
    apply list_lookup_insert_Some in Hj as [(<- & <- & _)|[N Hj]].
    + rewrite (qs_number _ _ Hs). by rewrite decide_True.
    + rewrite decide_False.
      * apply list_elem_of_fmap_2, list_elem_of_filter. split; [done|]. by eapply list_elem_of_lookup_2.
      * intros En. apply N. eapply NoDup_lookup; [exact Hn|..]; rewrite list_lookup_fmap; [rewrite Hi|rewrite Hj; cbn; rewrite En]; done.
  - case_decide as Hx.
    + intros Hl. subst. rewrite <- (qs_number _ _ Hs). apply list_elem_of_fmap_2, list_elem_of_filter. split; [done|].
      eapply list_elem_of_lookup_2, list_lookup_insert_eq. by eapply lookup_lt_Some.
    + intros (q1 & -> & [Hl Hq1]%list_elem_of_filter)%list_elem_of_fmap. apply list_elem_of_lookup in Hq1 as (j & Hj).
      apply list_elem_of_fmap_2, list_elem_of_filter. split; [done|]. apply list_elem_of_lookup. exists j.
      rewrite list_lookup_insert_ne; [done|]. intros <-. congruence.
Qed.

(** The adapter has [q'] as its state says, and the others as before. *)
Lemma qp_moved_iff w h c q q' s' : dev_ok (w_dev w) -> contexts (w_dev w) !! h = Some c -> mirror w -> q ∈ qps c ->
  qp_moved q q' (whw w) s' ->
  forall x, x ∈ dom (hw_qps s') <-> if decide (x = qp_number q) then live q' else x ∈ dom (hw_qps (whw w)).
Proof. intros I Hc Hm Hq (_ & _ & Hx). apply Hx; by apply (qp_held w h c). Qed.

Lemma mirror_put_qp w w1 h c i q q' : dev_ok (w_dev w) -> contexts (w_dev w) !! h = Some c -> mirror w -> low w w1 ->
  qps c !! i = Some q -> qp_same q q' -> qp_moved q q' (whw w) (whw w1) -> mirror (put h (with_qps (<[i := q']> (qps c)) c) w1).
Proof.
  intros I Hc Hm L Hi Hs Hmv. assert (q ∈ qps c) as Hq by by eapply list_elem_of_lookup_2.
  pose proof (qp_moved_iff _ _ _ _ _ _ I Hc Hm Hq Hmv) as Hx. destruct Hmv as (E1 & E2 & _).
  eapply (mirror_put w w1 h c); [done..| | |].
  - rewrite E1. apply iff_same. by eapply mrs_held.
  - rewrite E2. apply iff_same. by eapply cqs_held.
  - intros x. rewrite Hx, (live_insert w h c i q q' x I Hc Hi Hs). case_decide as D; [|apply iff_same; by eapply qps_held].
    split; [by left|]. intros [Hl|[Hd Hn]]; [done|]. destruct Hn. subst. apply list_elem_of_fmap_2, list_elem_of_filter.
    split; [|done]. by apply (qp_held w h c).
Qed.

Lemma mirror_modify_qp pid h number attr mask w : dev_ok (w_dev w) -> mirror w ->
  wp True (modify_qp pid h number attr mask) w (fun _ => mirror).
Proof.
  intros I Hm. unfold modify_qp. verb_step. verb_step; [done|]. verb_step. verb_step; [done|].
  destruct a as [i q]. match goal with E : list_find _ _ = Some _ |- _ => apply list_find_Some in E as (Hi & _ & _) end.
  verb_step. eapply mwp_mono; [apply mwp_and; [apply mwp_and; [apply low_qp_modify|apply qp_modify_same]|apply qp_modify_hw]|].
  intros _ w1 [[L Hs] (r0 & q' & -> & Hmv)]. do 2 verb_step. unfold of_unit_result. verb_step. by eapply mirror_put_qp.
Qed.

Lemma live_remove w h c i q x : dev_ok (w_dev w) -> contexts (w_dev w) !! h = Some c -> qps c !! i = Some q ->
  x ∈ live_qps (with_qps (swap_remove (qps c) i) c) <-> x ∈ live_qps c /\ x <> qp_number q.
Proof.
  intros I Hc Hi. pose proof (swap_remove_perm _ _ _ Hi) as Hp. pose proof (proj1 (do_qps _ I) h c Hc) as Hn.
  unfold qp_numbers in Hn. rewrite Hp in Hn. cbn in Hn. apply NoDup_cons in Hn as [Hni _].
  unfold live_qps. cbn. rewrite !list_elem_of_fmap. split.
  - intros (q1 & -> & [Hl Hq1]%list_elem_of_filter). split.
    + exists q1. split; [done|]. apply list_elem_of_filter. split; [done|]. rewrite Hp. by right.
    + intros E. apply Hni. rewrite <- E. by apply list_elem_of_fmap_2.
  - intros [(q1 & -> & [Hl Hq1]%list_elem_of_filter) N]. exists q1. split; [done|]. apply list_elem_of_filter. split; [done|].
    rewrite Hp in Hq1. apply elem_of_cons in Hq1 as [->|]; done.
Qed.

Lemma mirror_destroy_qp pid h number w : dev_ok (w_dev w) -> mirror w -> wp True (destroy_qp pid h number) w (fun _ => mirror).
Proof.
  intros I Hm. unfold destroy_qp. verb_step. verb_step; [done|]. verb_step. verb_step; [done|].
  destruct a as [i q]. match goal with E : list_find _ _ = Some _ |- _ => apply list_find_Some in E as (Hi & _ & _) end.
  verb_step. eapply mwp_mono; [apply mwp_and; [apply mwp_and; [apply low_qp_destroy|apply qp_destroy_same]|apply qp_destroy_hw]|].
  intros _ w1 [[L Hs] (r0 & q' & -> & Hmv & Hd)]. cbn beta iota. destruct r0 as [[]|e].
  - assert (q ∈ qps c) as Hq by by eapply list_elem_of_lookup_2.
    pose proof (qp_moved_iff _ _ _ _ _ _ I Hc Hm Hq Hmv) as Hx. destruct Hmv as (E1 & E2 & _). specialize (Hd eq_refl).
    do 3 verb_step. eapply (mirror_put w w1 h c); [done..| | |].
    + rewrite E1. apply iff_same. by eapply mrs_held.
    + rewrite E2. apply iff_same. by eapply cqs_held.
    + intros x. rewrite Hx, (live_remove w h c i q x I Hc Hi).
      pose proof (iff_same (live_qps c) (dom (hw_qps (whw w))) (qps_held w h c Hc Hm) x) as Hsame.
      case_decide as D; [|tauto]. split; [done|]. intros [[_ N]|[Hd' Hn]]; [done|]. destruct Hn. subst.
      apply list_elem_of_fmap_2, list_elem_of_filter. split; [|done]. by apply (qp_held w h c).
  - do 3 verb_step. by eapply mirror_put_qp.
Qed.

(** Verbs that change no object. *)
Lemma mirror_alloc_pd pid h w : dev_ok (w_dev w) -> mirror w -> wp True (alloc_pd pid h) w (fun _ => mirror).
Proof.
  intros I Hm. unfold alloc_pd. verb_step. verb_step; [done|]. do 2 verb_step. cbv zeta. verb_step. verb_step; [done|].
  do 5 verb_step. destruct Hm as [M1 M2 M3].
  split; eapply mirrors_same; try done; [apply I|apply I|apply owned_live, I].
Qed.

Lemma mirror_dealloc_pd pid h pd w : dev_ok (w_dev w) -> mirror w -> wp True (dealloc_pd pid h pd) w (fun _ => mirror).
Proof.
  intros I Hm. unfold dealloc_pd. verb_step. verb_step; [done|]. verb_step. verb_step; [done|].
  destruct a as [i pd']. do 3 verb_step. destruct Hm as [M1 M2 M3].
  split; eapply mirrors_same; try done; [apply I|apply I|apply owned_live, I].
Qed.

Lemma mirror_open pid w : dev_ok (w_dev w) -> mirror w -> wp True (open pid) w (fun _ => mirror).
Proof.
  intros I Hm. unfold open. do 2 verb_step. cbv zeta. verb_step. verb_step; [done|]. verb_step. verb_step; [done|].
  destruct a as [u rest]. do 4 verb_step. eapply mwp_mono; [apply map_pages_space|]. intros [[db bf]|e] w1 S1; cbn beta iota.
  - do 4 verb_step. rewrite (os_dev _ _ _ S1). cbn [set_dev w_dev with_uar_list with_next_context contexts].
    assert (contexts (w_dev w) !! next_context (w_dev w) = None) as Hn.
    { destruct (contexts (w_dev w) !! next_context (w_dev w)) eqn:E; [|done]. apply (do_handles _ I) in E as [_ E]. lia. }
    rewrite Hn. do 3 verb_step. destruct Hm as [M1 M2 M3].
    unfold mirror, whw. cbn [put set_dev w_dev w_card with_contexts contexts with_next_context with_uar_list]. rewrite (os_card _ _ _ S1).
    split; by apply mirrors_new.
  - do 3 verb_step. unfold mirror, whw. cbn [set_dev w_dev w_card with_uar_list contexts]. rewrite (os_card _ _ _ S1), (os_dev _ _ _ S1).
    exact Hm.
Qed.
End mirror.

(** * A process that ends leaves nothing on the adapter

    [release] and what the adapter holds: the objects that could not be destroyed stay in their
    context, all others are gone from the adapter too. *)

Section let_go.
Context {C A : Type} `{CardLaws C} `{FrameAllocator A}.
Notation World := (World C A).
Implicit Types w : World.

(** ** Destroying a list of objects *)

Section retain.
Context {B : Type} (key : B -> Z) (act : B -> Prop) (sel : Hw -> gset Z) (frame : Hw -> Hw -> Prop).
Context `{!Reflexive frame, !Transitive frame}.

(** What a destructor does to the adapter, for an object that the adapter has if it is active. *)
Definition destroys (f : B -> M World (result string unit * B)) (x : B) : Prop := forall w,
  (act x <-> key x ∈ sel (whw w)) ->
  wp True (f x) w (fun r w' => exists r0 x', r = Ok (r0, x') /\ frame (whw w) (whw w') /\
    (forall y, y <> key x -> y ∈ sel (whw w') <-> y ∈ sel (whw w)) /\
    match r0 with Ok _ => key x ∉ sel (whw w') | Err _ => key x' = key x /\ (act x' <-> key x ∈ sel (whw w')) end).

Lemma retain_hw f l w : (forall x, x ∈ l -> destroys f x) -> NoDup (key <$> l) ->
  (forall x, x ∈ l -> act x <-> key x ∈ sel (whw w)) ->
  wp True (retain f l) w (fun r w' => exists l', r = Ok l' /\ frame (whw w) (whw w') /\
    forall y, y ∈ sel (whw w') <-> (exists x, x ∈ l' /\ key x = y /\ act x) \/ y ∈ sel (whw w) /\ y ∉ key <$> l).
Proof.
  revert w. induction l as [|x l IH]; intros w Hf Hn Ha; cbn [retain].
  { wp_step. exists []. split_and!; [done|done|]. intros y. split; [intros Hy; right; split; [done|apply not_elem_of_nil]|].
    intros [(x & Hx & _)|[Hy _]]; [by apply not_elem_of_nil in Hx|done]. }
  cbn in Hn. apply NoDup_cons in Hn as [Hx Hn].
  wp_step. eapply mwp_mono; [apply Hf; [by left|apply Ha; by left]|].
  intros _ w1 (r0 & x' & -> & Hfr & Hne & Hr). cbn beta iota. wp_step. eapply mwp_mono; [apply IH|].
  - intros y Hy. apply Hf. by right.
  - done.
  - intros y Hy. rewrite Hne; [apply Ha; by right|]. intros E. apply Hx. rewrite <- E. by apply list_elem_of_fmap_2.
  - intros _ w2 (l' & -> & Hfr' & Hs). cbn beta iota. wp_step. eexists. split; [done|]. split; [by etrans|]. intros y. rewrite Hs. cbn [fmap list_fmap].
    rewrite not_elem_of_cons. destruct (decide (y = key x)) as [->|N].
    + destruct r0 as [u|e].
      * split; [|by intros [?|(_ & ? & _)]; [left|]]. intros [(z & Hz & Ez)|[Hin _]]; [left; by exists z|done].
      * split.
        -- intros [(z & Hz & Ez)|[Hin _]]; left; [exists z; split; [by right|done]|]. exists x'. split; [by left|]. split; [apply Hr|by apply Hr].
        -- intros [(z & [->|Hz]%elem_of_cons & Ez & Hz')|[Hin [? ?]]]; [right; split; [by apply Hr|done]|left; by exists z|done].
    + rewrite (Hne y N). destruct r0 as [u|e].
      * split; (intros [?|[? ?]]; [by left|right]); [done|tauto].
      * split.
        -- intros [(z & Hz & Ez)|[Hin Hn']]; [left; exists z; split; [by right|done]|right; done].
        -- intros [(z & [->|Hz]%elem_of_cons & Ez & Hz')|[Hin [? ?]]]; [destruct Hr; congruence|left; by exists z|right; done].
Qed.

Lemma drop_if_destroys {D} (p : B -> option D) f x : destroys f x -> destroys (drop_if p f) x.
Proof.
  intros Hd w Ha. unfold drop_if. wp_step. eapply mwp_mono; [by apply Hd|]. intros _ w1 (r0 & x' & -> & Hx). cbn beta iota.
  destruct r0 as [[]|e].
  - verb_step. verb_step. verb_step. by eexists _, _.
  - do 3 wp_step. by eexists _, _.
Qed.
End retain.

#[local] Instance only_refl {D E} (f : Hw -> D) (g : Hw -> E) : Reflexive (fun s s' => f s' = f s /\ g s' = g s).
Proof. done. Qed.
#[local] Instance only_trans {D E} (f : Hw -> D) (g : Hw -> E) : Transitive (fun s s' => f s' = f s /\ g s' = g s).
Proof. intros s1 s2 s3 [? ?] [? ?]. split; congruence. Qed.

Definition only_qps (s s' : Hw) : Prop := hw_mpts s' = hw_mpts s /\ hw_cqs s' = hw_cqs s.
Definition only_mrs (s s' : Hw) : Prop := hw_qps s' = hw_qps s /\ hw_cqs s' = hw_cqs s.
Definition only_cqs (s s' : Hw) : Prop := hw_qps s' = hw_qps s /\ hw_mpts s' = hw_mpts s.

Lemma qp_destroys q : destroys qp_number live (fun s => dom (hw_qps s)) only_qps qp_destroy q.
Proof.
  intros w Ha. eapply mwp_mono; [apply mwp_and; [apply qp_destroy_same|apply qp_destroy_hw]|].
  intros _ w' [Hs (r0 & q' & -> & (E1 & E2 & Hx) & Hd)]. specialize (Hx (proj1 Ha) (proj2 Ha)).
  eexists _, _. split; [done|]. split; [done|]. split.
  - intros y N. rewrite Hx. by rewrite decide_False.
  - destruct r0 as [[]|e]; rewrite Hx, decide_True by done; [by apply Hd|]. split; [apply Hs|done].
Qed.

Definition mr_key (mr : MemoryRegion) : Z := default (-1) (mr_index mr).

Lemma mr_destroys mr i : mr_index mr = Some i ->
  destroys mr_key (fun _ => True) (fun s => dom (hw_mpts s)) only_mrs (in_place mr_destroy) mr.
Proof.
  intros Hi w Ha. assert (mr_key mr = i) as Hk by (unfold mr_key; by rewrite Hi).
  unfold in_place. do 2 wp_step. eapply mwp_mono; [by apply mr_destroy_hw|]. subst i.
  intros [mr'|e] w' E; wp_step; eexists _, _; (split; [done|]); unfold only_mrs; rewrite E; cbn [hw_mpts hw_cqs hw_qps].
  - split_and!; [done|done|..].
    + intros y N. rewrite dom_delete, elem_of_difference, elem_of_singleton. tauto.
    + rewrite dom_delete, elem_of_difference, elem_of_singleton. tauto.
  - by split_and!.
Qed.

Lemma cq_destroys cq : destroys cq_number (fun _ => True) (fun s => dom (hw_cqs s)) only_cqs (in_place cq_destroy) cq.
Proof.
  intros w Ha. unfold in_place. do 2 wp_step. eapply mwp_mono; [by apply cq_destroy_hw|].
  intros [cq'|e] w' E; wp_step; eexists _, _; (split; [done|]); unfold only_cqs; rewrite E; cbn [hw_mpts hw_cqs hw_qps].
  - split_and!; [done|done|..].
    + intros y N. rewrite dom_delete, elem_of_difference, elem_of_singleton. tauto.
    + rewrite dom_delete, elem_of_difference, elem_of_singleton. tauto.
  - by split_and!.
Qed.

(** ** The objects of a context *)

Lemma live_qps_spec c x : x ∈ live_qps c <-> exists q, q ∈ qps c /\ qp_number q = x /\ live q.
Proof.
  unfold live_qps. rewrite list_elem_of_fmap. split.
  - intros (q & -> & [Hl Hq]%list_elem_of_filter). eauto.
  - intros (q & Hq & <- & Hl). exists q. split; [done|]. by apply list_elem_of_filter.
Qed.

Lemma cq_numbers_spec c x : x ∈ cq_numbers c <-> exists cq, cq ∈ cqs c /\ cq_number cq = x /\ True.
Proof. unfold cq_numbers. rewrite list_elem_of_fmap. naive_solver. Qed.

Definition all_indexed (c : UContext) : Prop := forall mr, mr ∈ mrs c -> is_Some (mr_index mr).

Lemma mr_indices_keys c : all_indexed c -> mr_indices c = mr_key <$> mrs c.
Proof.
  unfold all_indexed, mr_indices. induction (mrs c) as [|mr l IH]; intros Ha; [done|]. cbn.
  destruct (Ha mr ltac:(by left)) as [i Hi]. unfold mr_key at 1. rewrite Hi. cbn. f_equal. apply IH. intros m Hm. apply Ha. by right.
Qed.

Lemma mr_indices_spec c x : all_indexed c -> x ∈ mr_indices c <-> exists mr, mr ∈ mrs c /\ mr_key mr = x /\ True.
Proof. intros Ha. rewrite (mr_indices_keys c Ha), list_elem_of_fmap. naive_solver. Qed.

(** What the adapter has of a context. *)
Record ctx_held (c : UContext) (s : Hw) : Prop := {
  ch_qps q : q ∈ qps c -> live q <-> qp_number q ∈ dom (hw_qps s);
  ch_mrs x : x ∈ mr_indices c -> x ∈ dom (hw_mpts s);
  ch_cqs x : x ∈ cq_numbers c -> x ∈ dom (hw_cqs s);
  ch_indexed : all_indexed c;
  ch_qp_nodup : NoDup (qp_numbers c);
  ch_mr_nodup : NoDup (mr_indices c);
  ch_cq_nodup : NoDup (cq_numbers c)
}.

Lemma ctx_held_mirror w h c : dev_ok (w_dev w) -> mirror w -> contexts (w_dev w) !! h = Some c -> ctx_held c (whw w).
Proof.
  intros I Hm Hc. split.
  - by apply (qp_held w h c).
  - by eapply mrs_held.
  - by eapply cqs_held.
  - intros mr Hmr. pose proof (co_mrs _ _ _ _ (ctx_bounds _ I _ _ Hc)) as F. rewrite Forall_forall in F. destruct (F mr Hmr) as (i & -> & _). done.
  - by apply (proj1 (do_qps _ I) h).
  - by apply (proj1 (do_mrs _ I) h).
  - by apply (proj1 (do_cqs _ I) h).
Qed.

(** What is left of the context is what the adapter still has of it. *)
Record ctx_gone (c c' : UContext) (s s' : Hw) : Prop := {
  cg_mrs x : x ∈ dom (hw_mpts s') <-> x ∈ mr_indices c' \/ x ∈ dom (hw_mpts s) /\ x ∉ mr_indices c;
  cg_cqs x : x ∈ dom (hw_cqs s') <-> x ∈ cq_numbers c' \/ x ∈ dom (hw_cqs s) /\ x ∉ cq_numbers c;
  cg_qps x : x ∈ dom (hw_qps s') <-> x ∈ live_qps c' \/ x ∈ dom (hw_qps s) /\ x ∉ live_qps c
}.

Lemma ctx_destroy_hw c w : ctx_held c (whw w) ->
  wp True (ctx_destroy c) w (fun r w' => exists gone c', r = Ok (gone, c') /\
    (sublist (mrs c') (mrs c) -> ctx_gone c c' (whw w) (whw w'))).
Proof.
  intros [Hq Hmr Hcq Hall Nq Nm Nc]. unfold ctx_destroy. wp_step. eapply mwp_mono.
  { apply (retain_hw qp_number live (fun s => dom (hw_qps s)) only_qps); [intros q _; apply drop_if_destroys, qp_destroys|done|done]. }
  intros _ w1 (q' & -> & [A1 A2] & Q1). cbn beta iota. wp_step. eapply mwp_mono.
  { apply (retain_hw mr_key (fun _ => True) (fun s => dom (hw_mpts s)) only_mrs).
    - intros mr Hin. destruct (Hall mr Hin) as [i Hi]. by eapply drop_if_destroys, mr_destroys.
    - by rewrite <- mr_indices_keys.
    - intros mr Hin. split; [|done]. intros _. rewrite A1. apply Hmr, mr_indices_spec; eauto. }
  intros _ w2 (m' & -> & [B1 B2] & Q2). cbn beta iota. wp_step. eapply mwp_mono.
  { apply (retain_hw cq_number (fun _ => True) (fun s => dom (hw_cqs s)) only_cqs); [intros cq _; apply drop_if_destroys, cq_destroys|done|].
    intros cq Hin. split; [|done]. intros _. rewrite B2, A2. apply Hcq, cq_numbers_spec. eauto. }
  intros _ w3 (k' & -> & [C1 C2] & Q3). cbn beta iota. wp_step. eexists _, _. split; [done|]. cbn [mrs with_qps with_mrs with_cqs].
  intros Hsub. assert (all_indexed (with_qps q' (with_mrs m' (with_cqs k' c)))) as Hall'.
  { intros mr Hin. apply Hall. eapply elem_of_submseteq; [exact Hin|]. by apply sublist_submseteq. }
  split; intros x.
  - rewrite (mr_indices_spec _ x Hall'), (mr_indices_keys c Hall), C2, Q2, A1. done.
  - rewrite (cq_numbers_spec (with_qps q' _)), Q3, B2, A2. done.
  - rewrite (live_qps_spec (with_qps q' _)), C1, B1, Q1. cbn [qps with_qps].
    split; (intros [Hl|[Hd Hn]]; [by left|]); right; (split; [done|]).
    + intros Hx%live_qps_sub. done.
    + intros (q & -> & Hqi)%list_elem_of_fmap. apply Hn, live_qps_spec. exists q. split_and!; [done|done|]. by apply Hq.
Qed.

(** ** Releasing the contexts of a process *)

(** The state when a context is done: [m] are the contexts before. *)
Lemma mirrored_left d h c c' s s' : dev_ok d -> contexts d !! h = Some c -> mirrored (contexts d) s -> ctx_gone c c' s s' ->
  mirrored (<[h := c']> (contexts d)) s'.
Proof. intros I Hc Hm []. by eapply mirrored_change. Qed.

Lemma mirrored_closed d h c c' s s' : dev_ok d -> contexts d !! h = Some c -> mirrored (contexts d) s -> ctx_gone c c' s s' ->
  qps c' = [] -> mrs c' = [] -> cqs c' = [] -> mirrored (delete h (contexts d)) s'.
Proof.
  intros I Hc Hm Hg Eq Em Ec. destruct (mirrored_left _ _ _ _ _ _ I Hc Hm Hg) as [M1 M2 M3].
  rewrite <- (delete_insert_eq (contexts d) h c').
  split; (eapply mirrors_delete; [by rewrite lookup_insert_eq| |done]); unfold mr_indices, cq_numbers, live_qps; by rewrite ?Eq, ?Em, ?Ec.
Qed.

Definition released (hs : list Z) (r : result string unit) w (r' : result string unit) (w' : World) : Prop :=
  mirror w' /\ (forall h, h ∉ hs -> contexts (w_dev w') !! h = contexts (w_dev w) !! h) /\
  (r' = Ok tt -> r = Ok tt /\ forall h, h ∈ hs -> contexts (w_dev w') !! h = None).

Lemma released_next h hs r r1 w w1 r' w' :
  (r1 = Ok tt -> r = Ok tt /\ contexts (w_dev w1) !! h = None) ->
  (forall h', h' <> h -> contexts (w_dev w1) !! h' = contexts (w_dev w) !! h') ->
  released hs r1 w1 r' w' -> released (h :: hs) r w r' w'.
Proof.
  intros H1' H2' (Hm & Hk & Hr). split; [done|]. split.
  - intros h' [N1 N2]%not_elem_of_cons. by rewrite Hk, H2'.
  - intros E. destruct (Hr E) as [E1 Hn]. destruct (H1' E1) as [E0 Hh]. split; [done|].
    intros h' [->|Hin]%elem_of_cons; [|auto]. destruct (decide (h ∈ hs)); [auto|]. by rewrite Hk.
Qed.

Lemma mirror_release_contexts pid hs r w : dev_ok (w_dev w) -> mirror w ->
  (forall h c, h ∈ hs -> contexts (w_dev w) !! h = Some c -> owner c = pid) ->
  wp True (release_contexts hs r) w (released hs r w).
Proof.
  revert r w. induction hs as [|h hs IH]; intros r w I Hm Hh; cbn [release_contexts].
  { unfold of_unit_result. verb_step. split_and!; [done|done|]. intros ->. split; [done|]. by intros h ?%not_elem_of_nil. }
  assert (forall w1 r1, keeps pid w w1 -> mirror w1 -> (r1 = Ok tt -> r = Ok tt /\ contexts (w_dev w1) !! h = None) ->
    (forall h', h' <> h -> contexts (w_dev w1) !! h' = contexts (w_dev w) !! h') ->
    wp True (release_contexts hs r1) w1 (released (h :: hs) r w)) as Hk.
  { intros w1 r1 [I1 L1] M1 H1' H2'. eapply mwp_mono; [apply IH; [done|done|]|].
    - intros h1 c1 Hin E1. destruct (decide (owner c1 = pid)) as [|N]; [done|]. apply (lc_new _ _ _ L1) in E1; [|done].
      eapply Hh; [by right|done].
    - intros r' w' Hrel. by eapply released_next. }
  do 2 verb_step. destruct (contexts (w_dev w) !! h) as [c|] eqn:Hc; [|by apply Hk; [apply keeps_low| | |]].
  assert (owner c = pid) as Ho by (eapply Hh; [by left|done]).
  do 3 verb_step. eapply mwp_mono.
  { apply mwp_and; [apply mwp_and; [apply low_ctx_destroy|apply ctx_destroy_left]|]. apply ctx_destroy_hw. by eapply (ctx_held_mirror w h). }
  intros _ w1 [[L (gone & c' & -> & Hl & Hgone)] (g2 & c2 & [= <- <-] & Hg)]. specialize (Hg (cl_mrs _ _ Hl)).
  change (whw (set_dev _ w)) with (whw w) in Hg.
  pose proof (low_contexts _ _ L) as Ec. cbn in Ec. apply low_restore in L. cbn beta iota. destruct gone.
  - destruct (proj1 Hgone eq_refl) as (Eq & Em & Ecq). do 4 verb_step. apply Hk.
    + pose proof (keeps_close pid w _ h c c' I Hc Ho Hl L) as K. rewrite (close_restored h c' _ _ Ec) in K. exact K.
    + unfold mirror. cbn. rewrite Ec. by eapply mirrored_closed.
    + intros ->. split; [done|]. cbn. by rewrite Ec, lookup_delete_eq.
    + intros h' N. cbn. by rewrite Ec, lookup_delete_ne.
  - do 2 verb_step. apply Hk.
    + rewrite <- (put_restored h c' _ _ Ec). by eapply keeps_left.
    + unfold mirror. cbn. rewrite Ec, insert_delete_eq. by eapply mirrored_left.
    + done.
    + intros h' N. cbn. by rewrite Ec, lookup_insert_ne, lookup_delete_ne.
Qed.

(** What [release] of [pid] does to the contexts. *)
Lemma mirror_release pid w : dev_ok (w_dev w) -> mirror w ->
  wp True (release pid) w (fun r w' => mirror w' /\ (r = Ok tt -> forall h c, contexts (w_dev w') !! h = Some c -> owner c <> pid)).
Proof.
  intros I Hm. unfold release. do 2 verb_step. eapply mwp_mono; [apply (mirror_release_contexts pid); [done|done|]|].
  - intros h c (c' & E & Ho)%handles_of_spec E'. congruence.
  - intros r w' (Hm' & Hk & Hr). split; [done|]. intros E h c Ec Ho. destruct (Hr E) as [_ Hn].
    destruct (decide (h ∈ handles_of pid (contexts (w_dev w)))) as [Hin|Hni]; [by rewrite (Hn h Hin) in Ec|].
    apply Hni, handles_of_spec. exists c. rewrite <- Hk; done.
Qed.

Lemma mirror_verb pid v w : dev_ok (w_dev w) -> mirror w -> wp True (run_verb pid v) w (fun _ => mirror).
Proof.
  intros I Hm. assert (forall B (m : M World B) (f : B -> Z), wp True m w (fun _ => mirror) ->
                         wp True (b ← m; mret (f b)) w (fun _ => mirror)) as Hret.
  { intros B m f Hx. apply mwp_bind. eapply mwp_mono; [exact Hx|]. by intros [b|e] w' K. }
  destruct v; cbn [run_verb];
    [apply Hret, mirror_open|apply mirror_alloc_pd|apply (Hret _ _ (fun _ => 0)), mirror_dealloc_pd|apply mirror_create_cq
    |apply (Hret _ _ (fun _ => 0)), mirror_destroy_cq|apply mirror_create_qp|apply (Hret _ _ (fun _ => 0)), mirror_modify_qp
    |apply (Hret _ _ (fun _ => 0)), mirror_destroy_qp|apply Hret, mirror_create_mr|apply (Hret _ _ (fun _ => 0)), mirror_destroy_mr]; done.
Qed.
End let_go.

(** ** Runs with an adapter that keeps account *)

Section system.
Context {C A : Type} `{CardLaws C} `{FrameAllocator A}.
Notation World := (World C A).
Implicit Types w : World.

(** Between verbs the adapter does not take objects or give them up. *)
Inductive hw_step : World -> World -> Prop :=
| hw_step_verb pid v r w w' : run_verb pid v w = Ret (r, w') -> hw_step w w'
| hw_step_release pid r w w' : release pid w = Ret (r, w') -> hw_step w w'
| hw_step_other w w' : w_dev w' = w_dev w -> whw w' = whw w -> hw_step w w'.

Lemma hw_steps_mirror w w' : rtc hw_step w w' -> dev_ok (w_dev w) -> mirror w -> dev_ok (w_dev w') /\ mirror w'.
Proof.
  induction 1 as [|w1 w2 w3 Hs Hr IH]; [done|]. intros I Hm. apply IH; destruct Hs as [pid v r w1 w2 E|pid r w1 w2 E|w1 w2 E1 E2].
  - apply (wp_run _ _ _ _ _ _ (keeps_verb pid v _ I) E).
  - apply (wp_run _ _ _ _ _ _ (keeps_release pid _ I) E).
  - by rewrite E1.
  - apply (wp_run _ _ _ _ _ _ (mirror_verb pid v _ I Hm) E).
  - apply (wp_run _ _ _ _ _ _ (mirror_release pid _ I Hm) E).
  - unfold mirror. by rewrite E1, E2.
Qed.

(** The objects of a kind that the adapter holds belong to contexts of processes other than [pid]. *)
Definition held_by_others (pid : Z) (f : UContext -> list Z) (s : gset Z) (m : gmap Z UContext) : Prop :=
  forall x, x ∈ s -> exists h c, m !! h = Some c /\ owner c <> pid /\ x ∈ f c.

End system.
