(* ===== verification/HcaReach.v ===== *)
(** * The memory that the adapter reaches

    How the adapter gets from an address of a process to physical memory, by its documentation:
    through the entry of the region, and the entries of the translation table that it reads from
    host memory.  For a registered region, and for queues in whole pages, it reaches
    what the page tables of the process say; queues that start within a page are the exception. *)

From S2P Require Import Prelude Intervals Dram FrameAlloc Paging Vma Vmm Bytes Verbs HcaLayout HcaHw.
From S2P Require Import HcaIcm HcaDev HcaIsolation HcaRun HcaSystem HcaLedger.

Open Scope Z_scope.

(** ** The view of the adapter *)

(** Host memory behind the byte [off] of a table, through the chunks that were mapped. *)
Definition icm_host (t : IcmTable) (off : Z) : option Z :=
  m ← List.find (fun m => (card_virtual m <=? virt t + off) && (virt t + off <? card_virtual m + num_pages m * PAGE_SIZE)) (icm t);
  memory ← mi_memory m;
  Some (start_address memory + (virt t + off - card_virtual m)).

(** The page behind an entry of the translation table; entries have eight bytes. *)
Definition mtt_page (t : IcmTable) (mem : Z -> Z) (off : Z) : option Z :=
  a ← icm_host t off;
  let e := read_be64 mem a in
  if Z.testbit e 0 then Some (e - e mod PAGE_SIZE) else None.

(** A buffer whose entries start at [mtt], [off] bytes into its first page. *)
Definition buffer_reach (t : IcmTable) (mem : Z -> Z) (mtt off : Z) : option Z :=
  p ← mtt_page t mem (mtt + off / PAGE_SIZE * 8);
  Some (p + off mod PAGE_SIZE).

(** An address in a region. *)
Definition region_reach (t : IcmTable) (mem : Z -> Z) (e : DmptEntry) (va : Z) : option Z :=
  if (e START <=? va) && (va <? e START + e LENGTH)
  then buffer_reach t mem (e MTT_ADDR) (e START mod PAGE_SIZE + (va - e START)) else None.

Lemma icm_host_ok t m0 off : table_ok t m0 -> 0 <= off < TABLE_CHUNK_SIZE -> icm_host t off = Some (start_address m0 + off).
Proof.
  intros (rest & Ht & _) Ho. unfold icm_host. rewrite Ht. cbn [List.find card_virtual num_pages].
  destruct (Z.leb_spec (virt t) (virt t + off)), (Z.ltb_spec (virt t + off) (virt t + 64 * PAGE_SIZE));
    unfold TABLE_CHUNK_SIZE, PAGE_SIZE in *; try lia. cbn. f_equal. lia.
Qed.

(** ** Translation within a page *)

Lemma translate_offset n (t : table n) addr p : translate_in_table n t (page_address (addr / PAGE_SIZE)) = Ret (Some p) ->
  translate_in_table n t addr = Ret (Some (p + addr mod PAGE_SIZE)).
Proof.
  assert (page_address (addr / PAGE_SIZE) / PAGE_SIZE = addr / PAGE_SIZE) as Hp by (unfold page_address; by rewrite Z.div_mul).
  revert t. induction n as [|n IH]; intros t; cbn [translate_in_table]; rewrite Hp; intros E; inv_bind E; rewrite E0; cbn.
  - destruct (is_unused a); [done|]. injection E as <-. f_equal. f_equal. unfold page_address.
    pose proof (Z.div_mod addr PAGE_SIZE ltac:(done)). lia.
  - destruct a as [[e sub]|]; [|done]. by apply IH.
Qed.

Lemma get_phys_translate s addr p : get_phys s (page_address (addr / PAGE_SIZE)) = Ret (Some p) ->
  paging_translate (page_tables s) addr = Ret (Some (p + addr mod PAGE_SIZE)).
Proof. unfold get_phys. intros E. inv_bind E. unfold virt_addr_new in E0. destruct (canonical _); [|done]. injection E0 as <-. by apply translate_offset. Qed.

(** An entry for a page is read back as that page. *)
Lemma entry_page p : 0 <= p -> p mod PAGE_SIZE = 0 -> Z.testbit (Z.lor p MTT_FLAG_PRESENT) 0 = true /\
  Z.lor p MTT_FLAG_PRESENT - Z.lor p MTT_FLAG_PRESENT mod PAGE_SIZE = p.
Proof.
  intros H0 Hp. split; [by rewrite Z.lor_spec, orb_true_r|].
  unfold MTT_FLAG_PRESENT, PAGE_SIZE in *. assert (Z.land p 1 = 0) as Hl.
  { change 1 with (Z.ones 1). rewrite Z.land_ones by done. change (2 ^ 1) with 2.
    rewrite (Z.div_mod p 4096), Hp by done. replace (4096 * (p / 4096) + 0) with (2048 * (p / 4096) * 2) by lia. by apply Z.mod_mul. }
  rewrite <- Z.lxor_lor, <- Z.add_nocarry_lxor by done.
  rewrite Z.add_mod, Hp by done. change ((0 + 1 mod 4096) mod 4096) with 1. lia.
Qed.

(** Entries of pages are reached page by page. *)
Lemma entries_reach t m0 mem s mtt page n off p : table_ok t m0 -> 0 <= mtt -> 0 <= off < Z.of_nat n * PAGE_SIZE ->
  (forall i, 0 <= i < Z.of_nat n -> mtt + i * 8 + 8 <= TABLE_CHUNK_SIZE) -> phys_ok s page n ->
  entries_ok s mem (start_address m0 + mtt) page 8 n ->
  get_phys s (page_address (page + off / PAGE_SIZE)) = Ret (Some p) -> buffer_reach t mem mtt off = Some (p + off mod PAGE_SIZE).
Proof.
  intros Ht H0 Hoff Hfit Hk He Hp. set (i := off / PAGE_SIZE) in *.
  assert (0 <= i < Z.of_nat n) as Hi by (unfold i; split; [apply Z.div_pos; (done || lia)|apply Z.div_lt_upper_bound; (done || lia)]).
  destruct (He i Hi) as (p' & E & Hm & _ & Hr). assert (p' = p) as -> by congruence. pose proof (Hk i p Hi Hp) as Hb.
  unfold buffer_reach, mtt_page. fold i. rewrite (icm_host_ok t m0) by (try done; specialize (Hfit i Hi); lia). cbn [mbind option_bind].
  replace (start_address m0 + (mtt + i * 8)) with (start_address m0 + mtt + i * 8) by lia. rewrite Hr.
  destruct (entry_page p ltac:(lia) Hm) as [-> ->]. done.
Qed.

(** ** Registered regions *)

Definition region_pages (address size : Z) : range := mkRange (address / PAGE_SIZE) ((address + size - 1) / PAGE_SIZE + 1).

(** The key of an index: rotated by a byte. *)
Definition region_key (index : Z) : Z := Z.lor (Z.shiftr index 24) (wrap32 (Z.shiftl index 8)).

Lemma virt_addr_add_ret a n r : virt_addr_add a n = Ret r -> r = a + n.
Proof.
  unfold virt_addr_add, checked_add, virt_addr_new. intros E. inv_bind E. unfold expect in E0. repeat case_match; by simplify_eq.
Qed.
Lemma page_add_ret page n r : page_add page n = Ret r -> r = page + n.
Proof. unfold page_add. intros E. inv_bind E. by injection E. Qed.

Section regions.
Context {C A : Type} `{CardLaws C} `{FrameAllocator A}.
Notation World := (World C A).
Implicit Types w : World.

(** The entries of a buffer in the world afterwards. *)
Definition buffer_entries (pid : Z) (pages : range) w (w' : World) : Prop :=
  let sz := mtt_entry_sz (capabilities (w_dev w)) in
  let n := Z.to_nat (range_len pages) in
  mtt_end (w_dev w') = mtt_end (w_dev w) + range_len pages * sz /\
  forall m0, table_ok (mtt_table (mr_table (w_dev w))) m0 -> 8 <= sz -> 0 <= mtt_end (w_dev w) ->
    (forall i, 0 <= i < range_len pages -> mtt_end (w_dev w) + i * sz + 8 <= TABLE_CHUNK_SIZE) /\
    (phys_ok (w_spaces w pid) (r_start pages) n ->
     entries_ok (w_spaces w pid) (w_mem w') (start_address m0 + mtt_end (w_dev w)) (r_start pages) sz n).

Lemma mtt_allocated_entries pid pages w addr w1 w' : mtt_allocated pid pages w addr w1 ->
  mtt_end (w_dev w') = mtt_end (w_dev w1) -> w_mem w' = w_mem w1 -> buffer_entries pid pages w w'.
Proof. intros [? -> E ? ? He] E1 E2. unfold buffer_entries. rewrite E1, E2, E. split; [done|]. exact He. Qed.

Lemma alloc_dmpt_region pid pd address size access w :
  wp True (alloc_dmpt pid pd address size access) w (fun r w' => forall mr md, r = Ok (mr, md) ->
    address <> 0 /\ size <> 0 /\ access_ok (w_spaces w pid) address size = true /\
    buffer_entries pid (region_pages address size) w w' /\
    exists e, entry_for (mr_handle md) pd address size (mtt_end (w_dev w)) access (region_pages address size) e /\
      hw_mpts (whw w') !! mr_handle md = Some e /\ mr_lkey md = region_key (mr_handle md) /\ mr_rkey md = region_key (mr_handle md)).
Proof.
  unfold alloc_dmpt. do 2 hca_step; [done|]. do 2 hca_step; [done|]. do 2 hca_step. do 2 hca_step; [done|]. do 2 hca_step. do 2 hca_step.
  repeat match goal with
  | E : virt_addr_add _ _ = Ret _ |- _ => apply virt_addr_add_ret in E as ->
  | E : page_add _ _ = Ret _ |- _ => apply page_add_ret in E as ->
  | E : _ || _ = false |- _ => apply orb_false_iff in E as [?%Z.eqb_neq ?%Z.eqb_neq]
  | E : negb (access_ok _ _ _) = false |- _ => apply negb_false_iff in E
  end.
  cbv zeta. fold (region_pages address size). wp_step. eapply mwp_mono; [apply alloc_mtt_spec|].
  intros [mtt|e] w1 [L Ha]; cbn beta iota; [|done]. specialize (Ha mtt eq_refl). pose proof (ma_addr _ _ _ _ _ Ha) as Em.
  wp_step. unfold alloc_dmpt_index. do 6 hca_step. cbv zeta. unfold to_u32. hca_step; [|by hca_step]. do 2 hca_step. hca_step.
  match goal with E : fill_dmpt _ _ _ _ _ _ _ = Ret _ |- _ => apply fill_dmpt_entry in E as Hf end. rewrite Em in Hf.
  set (n := next_dmpt (offsets (w_dev w1))) in *. set (w2 := set_dev _ w1).
  wp_step. apply wp_command; [|by intros]. intros _ c E. cbn beta iota. wp_step.
  eapply wp_query; [unfold whw; cbn [w_card set_card]; rewrite E; cbn; by rewrite lookup_insert_eq|].
  intros imm e' c' Hi E'. cbn beta iota. do 2 hca_step. hca_step. intros mr md [= <- <-]. cbn [mr_handle mr_lkey mr_rkey mailbox_mpt].
  split_and!; [done..| |].
  - by eapply mtt_allocated_entries.
  - exists a. split; [done|]. split.
    + unfold whw in *. cbn [w_card set_card] in *. rewrite E', E. cbn. by rewrite lookup_insert_eq.
    + unfold dmpt_key, region_key. by rewrite Hi, (ef_index _ _ _ _ _ _ _ _ Hf).
Qed.

(** ** What stays *)

(** In a later state the driver has the same tables, and the entries handed out are as they were. *)
Record later w (w' : World) : Prop := {
  lt_caps : capabilities (w_dev w') = capabilities (w_dev w);
  lt_table : mtt_table (mr_table (w_dev w')) = mtt_table (mr_table (w_dev w));
  lt_end : mtt_end (w_dev w) <= mtt_end (w_dev w');
  lt_mem m0 x : table_ok (mtt_table (mr_table (w_dev w))) m0 -> start_address m0 <= x < start_address m0 + Z.min (mtt_end (w_dev w)) TABLE_CHUNK_SIZE ->
    w_mem w' x = w_mem w x
}.

Lemma later_step w w' : dev_ok (w_dev w) -> 8 <= mtt_entry_sz (capabilities (w_dev w)) -> 0 <= mtt_end (w_dev w) -> step w w' -> later w w'.
Proof.
  intros I Hs H0' Hst. assert (forall pid, local pid w w' -> later w w') as Hl.
  { intros pid [_ _ _ A1 A2 A3 A4]. split; [done|done|auto|]. intros m0 x Ht Hx. apply (A4 m0); [done..|lia]. }
  destruct Hst as [pid v r w w' E|pid r w w' E|w w' E Hmem].
  - apply (Hl pid). apply (wp_run _ _ _ _ _ _ (keeps_verb pid v _ I) E).
  - apply (Hl pid). apply (wp_run _ _ _ _ _ _ (keeps_release pid _ I) E).
  - split; rewrite ?E; [done|done|done|]. intros m0 x Ht Hx. apply (Hmem m0); [done|lia].
Qed.

Lemma later_steps w w' : dev_ok (w_dev w) -> 8 <= mtt_entry_sz (capabilities (w_dev w)) -> 0 <= mtt_end (w_dev w) -> rtc step w w' -> later w w'.
Proof.
  intros I Hs H0' Hr. revert I Hs H0'. induction Hr as [|w1 w2 w3 Hst Hr IH]; intros I Hs H0'; [by split|].
  pose proof (later_step _ _ I Hs H0' Hst) as [A1 A2 A3 A4].
  destruct (IH (sys_step_ok _ _ Hst I)) as [B1 B2 B3 B4]; [by rewrite A1|lia|].
  split; [congruence|congruence|lia|]. intros m0 x Ht Hx. rewrite (B4 m0); [by apply (A4 m0)|by rewrite A2|lia].
Qed.

Lemma entries_later w w' m0 s mtt page n : later w w' -> table_ok (mtt_table (mr_table (w_dev w))) m0 -> 0 <= mtt ->
  mtt + Z.of_nat n * 8 <= mtt_end (w_dev w) -> (forall i, 0 <= i < Z.of_nat n -> mtt + i * 8 + 8 <= TABLE_CHUNK_SIZE) ->
  entries_ok s (w_mem w) (start_address m0 + mtt) page 8 n -> entries_ok s (w_mem w') (start_address m0 + mtt) page 8 n.
Proof.
  intros [_ _ _ Hm] Ht Hmt He Hfit Hok i Hi. destruct (Hok i Hi) as (p & E & H1' & H2' & Hr). exists p. split_and!; [done..|].
  rewrite <- Hr. apply read_be64_ext. intros x Hx. specialize (Hfit i Hi). apply (Hm m0); [done|]. lia.
Qed.

(** The system after the initialisation of the device; [m0] is the first frame of the translation table. *)
Definition booted (m0 : Z) w : Prop := exists caps offs tables queues bar uars,
  init_uar_list caps bar = Ret uars /\ w_dev w = new_device caps offs tables queues uars /\ mtt_entry_sz caps = 8 /\
  0 <= reserved_mtts (memory_regions tables) /\ mtt_offset (memory_regions tables) = 0 /\ table_ok (mtt_table (memory_regions tables)) m0.

(** What every later state has of it. *)
Record running (m0 : Z) w : Prop := {
  rn_dev : dev_ok (w_dev w);
  rn_sz : mtt_entry_sz (capabilities (w_dev w)) = 8;
  rn_end : 0 <= mtt_end (w_dev w);
  rn_table : table_ok (mtt_table (mr_table (w_dev w))) m0
}.

Lemma running_steps m0 w w' : running m0 w -> rtc step w w' -> running m0 w' /\ later w w'.
Proof.
  intros [I Hs He Ht] Hr. pose proof (later_steps w w' I ltac:(lia) He Hr) as L. split; [|done]. destruct L as [A1 A2 A3 _].
  split; [by eapply sys_steps_ok|by rewrite A1|lia|by rewrite A2].
Qed.

Lemma booted_running m0 w0 w : booted m0 w0 -> rtc step w0 w -> running m0 w.
Proof.
  intros (caps & offs & tables & queues & bar & uars & Hu & Hd & Hs & Hr & Ho & Ht) Hst.
  apply (running_steps m0 w0 w); [|done]. split; rewrite Hd; [by eapply new_device_ok|done| |done].
  unfold mtt_end. cbn. rewrite Hs, Ho. lia.
Qed.

Lemma create_mr_region pid h pd address size access w :
  wp True (create_mr pid h pd address size access) w (fun r w' => forall md, r = Ok md ->
    address <> 0 /\ size <> 0 /\ access_ok (w_spaces w pid) address size = true /\
    buffer_entries pid (region_pages address size) w w' /\
    exists e, entry_for (mr_handle md) pd address size (mtt_end (w_dev w)) access (region_pages address size) e /\
      hw_mpts (whw w') !! mr_handle md = Some e /\ mr_lkey md = region_key (mr_handle md) /\ mr_rkey md = region_key (mr_handle md)).
Proof.
  unfold create_mr. verb_step. verb_step; [done|]. unfold validate_pd. do 2 verb_step; [done|]. verb_step.
  eapply mwp_mono; [apply alloc_dmpt_region|]. intros [[mr md]|e] w1 Hr; cbn beta iota; [|done]. do 3 verb_step.
  intros md' [= <-]. by destruct (Hr mr md eq_refl).
Qed.

(** The offset of an address in the pages of its region. *)
Lemma region_offset address size va : 0 <= address -> address <= va < address + size ->
  let off := address mod PAGE_SIZE + (va - address) in
  off / PAGE_SIZE = va / PAGE_SIZE - address / PAGE_SIZE /\ off mod PAGE_SIZE = va mod PAGE_SIZE /\
  0 <= off < range_len (region_pages address size) * PAGE_SIZE.
Proof.
  intros H0' Hva off. assert (off = va + - (address / PAGE_SIZE) * PAGE_SIZE) as ->.
  { unfold off. pose proof (Z.div_mod address PAGE_SIZE ltac:(done)). lia. }
  rewrite Z.div_add, Z.mod_add by done. unfold range_len, region_pages. cbn [r_start r_end].
  pose proof (Z.mul_div_le address PAGE_SIZE ltac:(done)). pose proof (Z.mul_succ_div_gt (address + size - 1) PAGE_SIZE ltac:(done)).
  unfold PAGE_SIZE in *. split_and!; lia.
Qed.

(** C26 Registered memory.  If registering [size] bytes at [address] succeeds, the adapter holds an entry for the
    returned handle with the protection domain and exactly the rights to write locally and to read and write remotely
    that were asked for; the returned keys are the rotated handle; and through the entry the adapter reaches every
    address of the region at the physical address that the page tables of the process had for it, and no other address.
    That remains so through all further verbs of all processes. *)
Theorem registered_region_reached m0 w0 w pid h pd address size access md w' w'' :
  booted m0 w0 -> rtc step w0 w -> 0 <= address -> 0 <= size ->
  phys_ok (w_spaces w pid) (address / PAGE_SIZE) (Z.to_nat (range_len (region_pages address size))) ->
  create_mr pid h pd address size access w = Ret (Ok md, w') -> rtc step w' w'' ->
  exists e, hw_mpts (whw w') !! mr_handle md = Some e /\ e PD = pd /\
    e LOCAL_WRITE = b2z (contains access LOCAL_WRITE_FLAG) /\ e REMOTE_READ = b2z (contains access REMOTE_READ_FLAG) /\
    e REMOTE_WRITE = b2z (contains access REMOTE_WRITE_FLAG) /\
    mr_lkey md = region_key (mr_handle md) /\ mr_rkey md = region_key (mr_handle md) /\
    forall va, if decide (address <= va < address + size)
      then exists p, paging_translate (page_tables (w_spaces w pid)) va = Ret (Some p) /\
             region_reach (mtt_table (mr_table (w_dev w''))) (w_mem w'') e va = Some p
      else region_reach (mtt_table (mr_table (w_dev w''))) (w_mem w'') e va = None.
Proof.
  intros Hb Hr0 Ha Hs Hph E Hr. destruct (booted_running _ _ _ Hb Hr0) as [I Esz He Ht].
  destruct (wp_run _ _ _ _ _ _ (create_mr_region pid h pd address size access w) E md eq_refl) as (_ & Hs0 & _ & [Hend Hbuf] & e & Hf & Hh & Hk).
  destruct (Hbuf m0 Ht ltac:(lia) He) as [Hfit Hok]. rewrite Esz in *. specialize (Hok Hph).
  assert (step w w') as Hst by (apply (step_verb pid (VCreateMr h pd address size access) (Ok (mr_handle md))); cbn [run_verb]; unfold mbind, m_bind; by rewrite E).
  destruct (running_steps m0 w w' ltac:(by split) ltac:(by apply rtc_once)) as [R' _].
  destruct (running_steps m0 w' w'' R' Hr) as [R'' L]. pose proof (rn_table _ _ R') as Ht'. pose proof (rn_table _ _ R'') as Ht''.
  set (n := range_len (region_pages address size)) in *.
  assert (0 < n) as Hn by (unfold n, range_len, region_pages; cbn [r_start r_end]; pose proof (Z.div_le_mono address (address + size - 1) PAGE_SIZE ltac:(done) ltac:(lia)); lia).
  exists e. destruct Hf. split_and!; try done; try apply Hk. intros va. unfold region_reach. rewrite ef_start, ef_length, ef_mtt.
  case_decide as Hva.
  - destruct (Z.leb_spec address va), (Z.ltb_spec va (address + size)); try lia. cbn [andb].
    destruct (region_offset address size va Ha Hva) as (E1 & E2 & E3). fold n in E3. cbn in E1, E2, E3. set (off := address mod PAGE_SIZE + (va - address)) in *.
    assert (Z.of_nat (Z.to_nat n) = n) as En by lia.
    assert (0 <= off / PAGE_SIZE < n) as Hi by (split; [apply Z.div_pos; (done || lia)|apply Z.div_lt_upper_bound; (done || lia)]).
    destruct (Hok (off / PAGE_SIZE) ltac:(lia)) as (p & Ep & _). exists (p + va mod PAGE_SIZE). split.
    + apply get_phys_translate. rewrite <- Ep. f_equal. f_equal. cbn [region_pages r_start]. lia.
    + rewrite <- E2. eapply (entries_reach _ m0 _ (w_spaces w pid) _ (address / PAGE_SIZE) (Z.to_nat n)); rewrite ?En; try done.
      eapply entries_later; rewrite ?En; try done. lia.
  - destruct (Z.leb_spec address va), (Z.ltb_spec va (address + size)); try lia; done.
Qed.

(** ** Completion queues *)

(** The pages for which the driver makes entries. *)
Definition queue_pages (buffer size : Z) : range := mkRange (buffer / PAGE_SIZE) (buffer / PAGE_SIZE + div_ceil size PAGE_SIZE).

Lemma fill_cqc_fields buffer log_size uar eq mtt doorbell c : fill_cqc buffer log_size uar eq mtt doorbell = Ret c ->
  c CQ_PAGE_OFFSET = buffer mod PAGE_SIZE /\ c LOG_CQ_SIZE = log_size /\ c CQ_MTT_BASE_ADDR = mtt /\ c DOORBELL_RECORD_ADDR = doorbell.
Proof.
  unfold fill_cqc. intros E. destruct eq; repeat (inv_bind E);
    repeat match goal with
    | H : bf_set _ _ _ = Ret _ |- _ => apply bf_set_ret in H as [-> _]
    | H : bits _ _ = Ret _ |- _ => unfold bits in H; repeat case_match; simplify_eq
    | H : Ret _ = Ret _ |- _ => injection H as <-
    end; done.
Qed.

Lemma create_cq_buffer pid h entries buffer doorbell w :
  wp True (create_cq pid h entries buffer doorbell) w (fun r w' => forall n, r = Ok n ->
    buffer_entries pid (queue_pages buffer (entries * CQE_SIZE)) w w' /\
    exists c, hw_cqs (whw w') !! n = Some c /\ c CQ_PAGE_OFFSET = buffer mod PAGE_SIZE /\ c CQ_MTT_BASE_ADDR = mtt_end (w_dev w) /\
      c LOG_CQ_SIZE = Z.log2 entries).
Proof.
  unfold create_cq. verb_step. verb_step; [done|]. do 3 verb_step. unfold cq_new.
  do 2 hca_step; [done|]. do 2 hca_step. do 2 hca_step; [done|]. do 2 hca_step; [done|]. do 2 hca_step; [done|]. do 2 hca_step; [done|].
  do 2 hca_step; [done|]. cbv zeta. do 2 hca_step; [done|]. do 2 hca_step.
  match goal with E : page_add _ _ = Ret _ |- _ => apply page_add_ret in E as -> end. fold (queue_pages buffer (entries * CQE_SIZE)).
  wp_step. eapply mwp_mono; [apply alloc_mtt_spec|]. intros [mtt|e] w1 [L Ha]; cbn beta iota; [|done]. specialize (Ha mtt eq_refl).
  pose proof (ma_addr _ _ _ _ _ Ha) as Em. do 2 hca_step. do 2 hca_step; [done|].
  wp_step. unfold alloc_cqn. do 6 hca_step. cbv zeta. unfold to_u32. hca_step; [|by hca_step]. do 2 hca_step. hca_step.
  match goal with E : fill_cqc _ _ _ _ _ _ = Ret _ |- _ => apply fill_cqc_fields in E as (F1 & F2 & F3 & _) end.
  set (k := next_cqn (offsets (w_dev w1))) in *. set (w2 := set_dev _ w1).
  wp_step. apply wp_command; [|by intros]. intros _ c' E. cbn beta iota. wp_step. cbn beta iota.
  do 2 verb_step. rewrite Em in F3.
  assert (forall c2, hw c2 = hw c' -> forall n, (Ok k : result string Z) = Ok n ->
    buffer_entries pid (queue_pages buffer (entries * CQE_SIZE)) w
      (put h (with_cqs (cqs c ++ [{| cq_number := k; cq_mtt := Some mtt; cq_eq_number := eq_number <$> head (eqs (w_dev w)) |}]) c)
         (set_card c2 (set_card c' w2))) /\
    exists q, hw_cqs (hw c2) !! n = Some q /\ q CQ_PAGE_OFFSET = buffer mod PAGE_SIZE /\ q CQ_MTT_BASE_ADDR = mtt_end (w_dev w) /\
      q LOG_CQ_SIZE = Z.log2 entries) as Hdone.
  { intros c2 E2 n En. assert (n = k) as -> by congruence. split; [by eapply mtt_allocated_entries|].
    exists a1. rewrite E2, E. cbn. rewrite lookup_insert_eq. done. }
  apply wp_command; intros ? c2 E2; do 3 verb_step; cbn [cq_number]; by apply Hdone.
Qed.

Lemma div_ceil_bounds n m : 0 < m -> n <= div_ceil n m * m < n + m.
Proof. intros Hm. unfold div_ceil. pose proof (Z.div_mod (n + m - 1) m ltac:(lia)). pose proof (Z.mod_pos_bound (n + m - 1) m Hm). nia. Qed.

(** C27 Completion queues.  If creating a completion queue in a buffer that starts on a page succeeds, the adapter
    reaches every byte of the ring at the physical address that the page tables of the process had for it, also
    through all further verbs of all processes. *)
Theorem completion_queue_reached m0 w0 w pid h entries buffer doorbell n w' w'' :
  booted m0 w0 -> rtc step w0 w -> 0 <= buffer -> buffer mod PAGE_SIZE = 0 ->
  phys_ok (w_spaces w pid) (buffer / PAGE_SIZE) (Z.to_nat (div_ceil (entries * CQE_SIZE) PAGE_SIZE)) ->
  create_cq pid h entries buffer doorbell w = Ret (Ok n, w') -> rtc step w' w'' ->
  exists q, hw_cqs (whw w') !! n = Some q /\ q LOG_CQ_SIZE = Z.log2 entries /\
    forall off, 0 <= off < entries * CQE_SIZE ->
      exists p, paging_translate (page_tables (w_spaces w pid)) (buffer + off) = Ret (Some p) /\
        buffer_reach (mtt_table (mr_table (w_dev w''))) (w_mem w'') (q CQ_MTT_BASE_ADDR) (q CQ_PAGE_OFFSET + off) = Some p.
Proof.
  intros Hb Hr0 Ha Hal Hph E Hr. destruct (booted_running _ _ _ Hb Hr0) as [I Esz He Ht].
  destruct (wp_run _ _ _ _ _ _ (create_cq_buffer pid h entries buffer doorbell w) E n eq_refl) as ([Hend Hbuf] & q & Hq & F1 & F2 & F3).
  destruct (Hbuf m0 Ht ltac:(lia) He) as [Hfit Hok]. rewrite Esz in *.
  unfold queue_pages, range_len in Hfit, Hok, Hend. cbn [r_start r_end] in Hfit, Hok, Hend.
  replace (buffer / PAGE_SIZE + div_ceil (entries * CQE_SIZE) PAGE_SIZE - buffer / PAGE_SIZE) with (div_ceil (entries * CQE_SIZE) PAGE_SIZE) in * by lia.
  set (k := div_ceil (entries * CQE_SIZE) PAGE_SIZE) in *. specialize (Hok Hph).
  assert (step w w') as Hst by (by apply (step_verb pid (VCreateCq h entries buffer doorbell) (Ok n))).
  destruct (running_steps m0 w w' ltac:(by split) ltac:(by apply rtc_once)) as [R' _].
  destruct (running_steps m0 w' w'' R' Hr) as [R'' L]. pose proof (rn_table _ _ R') as Ht'. pose proof (rn_table _ _ R'') as Ht''.
  exists q. split_and!; [done|done|]. intros off Hoff. rewrite F1, F2, Hal, Z.add_0_l.
  pose proof (div_ceil_bounds (entries * CQE_SIZE) PAGE_SIZE ltac:(done)) as Hk. fold k in Hk.
  assert (Z.of_nat (Z.to_nat k) = k) as Ek by (unfold PAGE_SIZE, CQE_SIZE in *; lia).
  assert (0 <= off / PAGE_SIZE < k) as Hi by (split; [apply Z.div_pos; (done || lia)|apply Z.div_lt_upper_bound; (done || lia)]).
  destruct (Hok (off / PAGE_SIZE) ltac:(lia)) as (p & Ep & _). exists (p + off mod PAGE_SIZE).
  assert (buffer = buffer / PAGE_SIZE * PAGE_SIZE) as Eb by (pose proof (Z.div_mod buffer PAGE_SIZE ltac:(done)); lia). split.
  - replace (off mod PAGE_SIZE) with ((buffer + off) mod PAGE_SIZE) by (rewrite Eb, Z.add_comm; by apply Z.mod_add).
    apply get_phys_translate. rewrite <- Ep. f_equal. f_equal. rewrite Eb at 1. rewrite Z.add_comm, Z.div_add by done. lia.
  - eapply (entries_reach _ m0 _ (w_spaces w pid) _ (buffer / PAGE_SIZE) (Z.to_nat k)); rewrite ?Ek; try done; [lia|].
    eapply entries_later; rewrite ?Ek; try done. lia.
Qed.

Lemma buffer_reach_shift t mem mtt k : buffer_reach t mem mtt (k * PAGE_SIZE) = buffer_reach t mem (mtt + k * 8) 0.
Proof. unfold buffer_reach. rewrite Z.div_mul, Z.mod_mul by done. by rewrite Z.div_0_l, Z.mul_0_l, Z.add_0_r. Qed.

(** C39 A ring that does not start on a page overlaps the memory of others.  The driver makes entries for as many pages as
    the size of the ring needs, not for those it touches; if the ring touches one more, the adapter takes for its last page
    the entry that the next registration of any process gets: it writes completions into memory of that process. *)
Theorem unaligned_ring_reaches_others m0 w0 w pid h entries buffer doorbell n w1 pid2 h2 pd address size access md w2 :
  let k := div_ceil (entries * CQE_SIZE) PAGE_SIZE in
  booted m0 w0 -> rtc step w0 w -> 0 <= buffer -> 0 < entries -> k * PAGE_SIZE < buffer mod PAGE_SIZE + entries * CQE_SIZE ->
  create_cq pid h entries buffer doorbell w = Ret (Ok n, w1) ->
  0 <= address -> 0 <= size -> phys_ok (w_spaces w1 pid2) (address / PAGE_SIZE) (Z.to_nat (range_len (region_pages address size))) ->
  create_mr pid2 h2 pd address size access w1 = Ret (Ok md, w2) ->
  exists q off p, hw_cqs (whw w1) !! n = Some q /\ 0 <= off < entries * CQE_SIZE /\
    buffer_reach (mtt_table (mr_table (w_dev w2))) (w_mem w2) (q CQ_MTT_BASE_ADDR) (q CQ_PAGE_OFFSET + off) = Some p /\
    paging_translate (page_tables (w_spaces w1 pid2)) (page_address (address / PAGE_SIZE)) = Ret (Some p).
Proof.
  intros k Hb Hr0 Ha Hent Hover E Had Hs Hph E2. destruct (booted_running _ _ _ Hb Hr0) as [I Esz He Ht].
  destruct (wp_run _ _ _ _ _ _ (create_cq_buffer pid h entries buffer doorbell w) E n eq_refl) as ([Hend _] & q & Hq & F1 & F2 & _).
  rewrite Esz in Hend. unfold queue_pages, range_len in Hend. cbn [r_start r_end] in Hend. fold k in Hend.
  assert (step w w1) as Hst by (by apply (step_verb pid (VCreateCq h entries buffer doorbell) (Ok n))).
  assert (step w1 w2) as Hst2 by (apply (step_verb pid2 (VCreateMr h2 pd address size access) (Ok (mr_handle md))); cbn [run_verb]; unfold mbind, m_bind; by rewrite E2).
  destruct (running_steps m0 w w1 ltac:(by split) ltac:(by apply rtc_once)) as [R1 _].
  destruct (running_steps m0 w1 w2 R1 ltac:(by apply rtc_once)) as [R2 _]. destruct R1 as [I1 Esz1 He1 Ht1].
  destruct (wp_run _ _ _ _ _ _ (create_mr_region pid2 h2 pd address size access w1) E2 md eq_refl) as (_ & Hs0 & _ & [_ Hbuf] & _).
  destruct (Hbuf m0 Ht1 ltac:(lia) He1) as [Hfit Hok]. rewrite Esz1 in *. specialize (Hok Hph).
  set (len := range_len (region_pages address size)) in *.
  assert (0 < len) as Hlen by (unfold len, range_len, region_pages; cbn [r_start r_end]; pose proof (Z.div_le_mono address (address + size - 1) PAGE_SIZE ltac:(done) ltac:(lia)); lia).
  destruct (Hok 0 ltac:(lia)) as (p & Ep & _). cbn [region_pages r_start] in Ep, Hok. rewrite Z.add_0_r in Ep.
  pose proof (Z.mod_pos_bound buffer PAGE_SIZE ltac:(done)) as Hm. pose proof (div_ceil_bounds (entries * CQE_SIZE) PAGE_SIZE ltac:(done)) as Hk. fold k in Hk.
  exists q, (k * PAGE_SIZE - buffer mod PAGE_SIZE), p. split_and!; [done|unfold PAGE_SIZE, CQE_SIZE in *; lia|lia| |].
  - rewrite F1, F2. replace (buffer mod PAGE_SIZE + (k * PAGE_SIZE - buffer mod PAGE_SIZE)) with (k * PAGE_SIZE) by lia.
    rewrite buffer_reach_shift. replace (mtt_end (w_dev w) + k * 8) with (mtt_end (w_dev w1)) by lia.
    rewrite (entries_reach _ m0 _ (w_spaces w1 pid2) _ (address / PAGE_SIZE) (Z.to_nat len) 0 p); rewrite ?Z2Nat.id by lia; try done.
    + by rewrite Z.mod_0_l, Z.add_0_r.
    + apply R2.
    + unfold PAGE_SIZE. lia.
    + by rewrite Z.div_0_l, Z.add_0_r.
  - unfold get_phys in Ep. inv_bind Ep. unfold virt_addr_new in E0. destruct (canonical _); [|done]. injection E0 as <-. exact Ep.
Qed.

(** ** Protection domains *)

Lemma first_free_found n pd used x : pd <= x < pd + Z.of_nat n -> x ∉ used -> (forall y, pd <= y < x -> y ∈ used) ->
  first_free n pd used = Some x.
Proof.
  revert pd. induction n as [|n IH]; intros pd Hx Hn Hu; [lia|]. cbn. destruct (decide (pd = x)) as [->|N].
  - by rewrite bool_decide_eq_false_2.
  - rewrite bool_decide_eq_true_2 by (apply Hu; lia). apply IH; [lia|done|]. intros y Hy. apply Hu. lia.
Qed.

(** C38 A protection domain can be freed while regions and queue pairs are in it.  Then the next process that
    asks for a domain gets the same number, while the adapter keeps the regions: those of the first process are in the domain
    of the second, whose queue pairs may access them. *)
Theorem freed_domain_reused w p1 h1 c1 pd p2 h2 c2 :
  dev_ok (w_dev w) -> contexts (w_dev w) !! h1 = Some c1 -> owner c1 = p1 -> pd ∈ pds c1 ->
  contexts (w_dev w) !! h2 = Some c2 -> owner c2 = p2 -> p1 <> p2 ->
  let first := num_rsvd_pds (capabilities (w_dev w)) in
  first <= pd < first + 2 ^ log_max_pd (capabilities (w_dev w)) -> (forall y, first <= y < pd -> y ∈ pd_numbers (w_dev w)) ->
  exists w1 w2, dealloc_pd p1 h1 pd w = Ret (Ok tt, w1) /\ alloc_pd p2 h2 w1 = Ret (Ok pd, w2) /\
    (exists c, contexts (w_dev w2) !! h2 = Some c /\ pd ∈ pds c) /\ hw_mpts (whw w2) = hw_mpts (whw w) /\ hw_qps (whw w2) = hw_qps (whw w).
Proof.
  intros I Hc1 Ho1 Hpd Hc2 Ho2 Np first Hrange Hused. assert (h1 <> h2) as Nh by (intros <-; congruence).
  destruct (list_find (fun p => p = pd) (pds c1)) as [[i x]|] eqn:Ei; [|eapply list_find_None in Ei; rewrite Forall_forall in Ei; by destruct (Ei pd)].
  eexists _, _. split; [|split; [|split; [|split]]].
  - unfold dealloc_pd, context_of, mbind, m_bind, dev. cbn. rewrite Hc1. cbn. rewrite (proj2 (Z.eqb_eq _ _) Ho1). cbn. rewrite Ei. reflexivity.
  - unfold alloc_pd, context_of, mbind, m_bind, dev. cbn. rewrite lookup_insert_ne by done. rewrite Hc2. cbn.
    rewrite (proj2 (Z.eqb_eq _ _) Ho2). cbn. rewrite (first_free_found _ _ _ pd); [reflexivity|rewrite Z2Nat.id by lia; done|set_solver|].
    intros y Hy. apply elem_of_difference. split; [by apply Hused|]. rewrite elem_of_singleton. lia.
  - cbn. eexists. rewrite lookup_insert_eq. split; [done|]. cbn. apply elem_of_app. right. by apply list_elem_of_singleton.
  - done.
  - done.
Qed.
End regions.
