(* ===== verification/HcaModify.v ===== *)
(** * Changing the state of a queue pair is safe and follows the states of InfiniBand

    Whatever attributes of their types a process passes, the driver fills the context without a
    panic, and the state changes only along the transitions of InfiniBand. *)

From S2P Require Import Prelude Intervals Dram FrameAlloc Paging Vma Vmm Bytes Verbs HcaLayout HcaHw.
From S2P Require Import HcaRun HcaIcm HcaDev HcaIsolation HcaLedger.

Open Scope Z_scope.

(** ** Ranges *)

(** Attributes within their types; [path_mtu] is one of the five codes. *)
Record attr_wf (a : QueuePairAttr) : Prop := {
  aw_mtu : 1 <= path_mtu a <= 5;
  aw_qkey : 0 <= qkey a < 2 ^ 32;
  aw_dlid : 0 <= ah_dlid a < 2 ^ 16;
  aw_alt_dlid : 0 <= alt_dlid a < 2 ^ 16;
  aw_sl : 0 <= ah_sl a < 2 ^ 8;
  aw_port : 0 <= port_num a < 2 ^ 8
}.

(** A queue pair whose parts fit into its context. *)
Record qp_wf (q : QueuePair) : Prop := {
  qw_pd : 0 <= qp_pd q < 2 ^ 24;
  qw_send : 0 <= send_cq_number q < 2 ^ 24;
  qw_receive : 0 <= receive_cq_number q < 2 ^ 24;
  qw_uar : 0 <= uar_index q < 2 ^ 24;
  qw_sq : 0 <= log_sq_bb_count q < 2 ^ 4;
  qw_rq : 0 <= log_rq_wqe_count q < 2 ^ 4;
  qw_sq_stride : 4 <= log_sq_stride q <= 11;
  qw_rq_stride : 4 <= log_rq_stride q <= 11;
  qw_offset : 0 <= page_offset q < 2 ^ 6;
  qw_mtt m : qp_mtt q = Some m -> 0 <= m < 2 ^ 40;
  qw_doorbell : 0 <= doorbell_address q < 2 ^ 64;
  qw_port p : port_number q = Some p -> 1 <= p < 2 ^ 8
}.

Section total.
Context (caps : Capabilities) (attr : QueuePairAttr) (mask : Z).
Context (Hattr : attr_wf attr) (Hmsg : 0 <= log_max_msg caps < 2 ^ 5).

(** Code that does not panic and keeps the queue pair in its ranges. *)
Definition total {B} (m : M QueuePair B) : Prop := forall q, qp_wf q -> wp False m q (fun _ q' => qp_wf q').

Lemma total_bind {B D} (m : M QueuePair B) (f : B -> M QueuePair D) : total m -> (forall b, total (f b)) -> total (m ≫= f).
Proof.
  intros Hm Hf q Hq. apply mwp_bind. eapply mwp_mono; [by apply Hm|]. intros [b|e] q' Hq'; [by apply Hf|done].
Qed.
Lemma total_self {D} (f : QueuePair -> M QueuePair D) : (forall q, qp_wf q -> total (f q)) -> total (self ≫= f).
Proof. intros Hf q Hq. apply mwp_bind. by apply Hf. Qed.
Lemma total_bind_ok_or {B D} (o : option B) e (f : B -> M QueuePair D) :
  (forall b, o = Some b -> total (f b)) -> total (ok_or o e ≫= f).
Proof. intros Hf q Hq. apply mwp_bind. wp_step; [done|]. by apply Hf. Qed.
Lemma total_ret {B} (b : B) : total (mret b).
Proof. intros q Hq. by wp_step. Qed.
Lemma total_fail {B} e : total (fail (A := B) e).
Proof. intros q Hq. by wp_step. Qed.
Lemma total_reject b e : total (reject b e).
Proof. intros q Hq. by wp_step. Qed.
Lemma total_ok_or {B} (o : option B) e : total (ok_or o e).
Proof. intros q Hq. by wp_step. Qed.
Lemma total_put f v c : 0 <= v < 2 ^ width f -> total (put f v c).
Proof. intros Hv q Hq. unfold put. rewrite (bf_set_ok f v c Hv). wp_step; [done|]. by simplify_eq. Qed.
Lemma total_put_checked f v c e : total (put_checked f v c e).
Proof. apply total_ok_or. Qed.
Lemma total_assert b msg : b = true -> total (lift (rust_assert b msg)).
Proof. intros -> q Hq. wp_step; [done|]. done. Qed.

(** The port was checked to exist. *)
Lemma total_store_port : (has mask IBV_QP_PORT = true -> 1 <= port_num attr) -> total (store_port attr mask).
Proof.
  intros Hp q Hq. unfold store_port. wp_step; wp_step; [|done]. destruct Hq. split; try done. intros p [= <-]. split; [auto|apply Hattr].
Qed.

Lemma b2z_bit b : 0 <= b2z b < 2 ^ 1.
Proof. destruct b; cbn; lia. Qed.
Lemma access_bit f : 0 <= access attr f < 2 ^ 1.
Proof. apply b2z_bit. Qed.
End total.

Ltac total_step :=
  lazymatch goal with
  | |- total (self ≫= _) => apply total_self; let q := fresh "q" in let Hq := fresh "Hq" in intros q Hq
  | |- total (ok_or _ _ ≫= _) => apply total_bind_ok_or; intros ? ?
  | |- total (_ ≫= _) => apply total_bind; [|intros ?]
  | |- total (mret _) => apply total_ret
  | |- total (fail _) => apply total_fail
  | |- total (reject _ _) => apply total_reject
  | |- total (ok_or _ _) => apply total_ok_or
  | |- total (put_checked _ _ _ _) => apply total_put_checked
  | |- total (put _ _ _) => apply total_put
  | |- total (lift (rust_assert _ _)) => apply total_assert, Z.leb_le
  | |- total (if ?b then _ else _) => destruct b eqn:?
  | |- total (match ?x with _ => _ end) => destruct x eqn:?
  end.

Section transitions.
Context (caps : Capabilities) (attr : QueuePairAttr) (mask : Z).
Context (Hattr : attr_wf attr) (Hmsg : 0 <= log_max_msg caps < 2 ^ 5).
Context (Hport : has mask IBV_QP_PORT = true -> 1 <= port_num attr).

Ltac ranges := try (exact (access_bit attr _)); try (cbn [width qpc_bitfield]; try apply Hattr; try lia).

Lemma total_put_pkey cm : total (put_pkey attr mask cm).
Proof. unfold put_pkey. repeat total_step. Qed.
Lemma total_put_qkey cm : total (put_qkey attr mask cm).
Proof. unfold put_qkey. repeat total_step. ranges. Qed.
Lemma total_put_rnr_nak cm : total (put_rnr_nak attr mask cm).
Proof. unfold put_rnr_nak. repeat total_step. Qed.
Lemma total_put_access opt cm : total (put_access attr mask opt cm).
Proof. unfold put_access. repeat total_step; ranges. Qed.

Lemma total_reset_to_init : total (reset_to_init attr mask).
Proof.
  unfold reset_to_init. apply total_bind; [by apply total_store_port|intros _]. apply total_self. intros q Hq.
  repeat total_step; ranges; try apply Hq; try done; try (destruct (qp_type q); lia); destruct Hq; (lia || eauto).
Qed.

Lemma lor_range n a b : 0 <= n -> 0 <= a < 2 ^ n -> 0 <= b < 2 ^ n -> 0 <= Z.lor a b < 2 ^ n.
Proof.
  intros Hn Ha Hb. rewrite <-(Z.mod_small a (2 ^ n)), <-(Z.mod_small b (2 ^ n)) by done.
  rewrite <-!Z.land_ones, <-Z.land_lor_distr_l, Z.land_ones by done. apply Z.mod_pos_bound. lia.
Qed.

Lemma sched_queue_range port sl : 0 <= sl ->
  0 <= Z.lor (Z.lor DEFAULT_SCHED_QUEUE (Z.shiftl port 6 mod 256)) (Z.shiftl (Z.land sl 0xf) 2) < 2 ^ 8.
Proof.
  intros Hsl. change 0xf with (Z.ones 4). rewrite Z.land_ones by lia. rewrite (Z.shiftl_mul_pow2 (sl mod _)) by lia.
  apply lor_range; [lia|apply lor_range; [lia|done|apply Z.mod_pos_bound; lia]|].
  pose proof (Z.mod_pos_bound sl (2 ^ 4) ltac:(lia)). lia.
Qed.

Lemma total_init_to_rtr : total (init_to_rtr caps attr mask).
Proof.
  unfold init_to_rtr. apply total_bind; [by apply total_store_port|intros _]. apply total_self. intros q Hq.
  repeat total_step; ranges; try apply total_put_rnr_nak; try apply total_put_qkey; try apply total_put_pkey; try apply total_put_access.
  - pose proof (aw_mtu _ Hattr). destruct (has mask IBV_QP_PATH_MTU); lia.
  - by eapply qw_port.
  - apply sched_queue_range, Hattr.
Qed.

Lemma total_stay_init : total (stay_init attr mask).
Proof.
  unfold stay_init. repeat total_step; auto using total_put_qkey, total_put_pkey, total_put_access.
Qed.

Lemma total_rtr_to_rts : total (rtr_to_rts attr mask).
Proof.
  unfold rtr_to_rts. repeat total_step; auto using total_put_rnr_nak, total_put_qkey, total_put_pkey, total_put_access.
Qed.
End transitions.

Lemma total_transition caps attr mask : attr_wf attr -> 0 <= log_max_msg caps < 2 ^ 5 -> total (transition caps attr mask).
Proof.
  intros Ha Hm q Hq. unfold transition. wp_step. wp_step; [done|]. cbn beta iota. revert q Hq.
  assert (has mask IBV_QP_PORT = true -> 1 <= port_num attr) as Hp by (intros E; rewrite E in *; cbn in *; lia).
  refine (total_self _ _). intros q Hq.
  destruct (qp_state q), (if has mask IBV_QP_STATE then Some (a_state attr) else None) as [[]|]; repeat total_step;
    auto using total_reset_to_init, total_init_to_rtr, total_stay_init, total_rtr_to_rts.
Qed.

(** ** States *)

(** The changes of InfiniBand that the driver makes. *)
Inductive ib_edge : QueuePairState -> QueuePairState -> Prop :=
| edge_init : ib_edge StReset StInit
| edge_init_again : ib_edge StInit StInit
| edge_receive : ib_edge StInit ReadyToReceive
| edge_send : ib_edge ReadyToReceive ReadyToSend
| edge_reset s : ib_edge s StReset.
#[local] Hint Constructors ib_edge : hca.

(** The context that the adapter gets for a queue pair: its rings, its queues, its domain. *)
Record context_for (q : QueuePair) (c : QueuePairContext) : Prop := {
  cf_pd : c PROTECTION_DOMAIN = qp_pd q;
  cf_uar : c USR_PAGE = uar_index q;
  cf_send : c CQN_SEND = send_cq_number q;
  cf_receive : c CQN_RECEIVE = receive_cq_number q;
  cf_mtt : Some (c MTT_BASE_ADDR) = qp_mtt q;
  cf_offset : c PAGE_OFFSET = page_offset q;
  cf_doorbell : c DB_RECORD_ADDR = doorbell_address q;
  cf_sq : c LOG_SQ_SIZE = log_sq_bb_count q /\ c LOG_SQ_STRIDE = log_sq_stride q - 4;
  cf_rq : c LOG_RQ_SIZE = log_rq_wqe_count q /\ c LOG_RQ_STRIDE = log_rq_stride q - 4
}.

Definition edge_taken (q : QueuePair) (attr : QueuePairAttr) (mask : Z) : Prop :=
  if contains mask IBV_QP_STATE then ib_edge (qp_state q) (a_state attr) else qp_state q = StReset \/ qp_state q = StInit.

Lemma transition_edges caps attr mask q :
  wp True (transition caps attr mask) q (fun r _ => forall o, r = Ok o -> edge_taken q attr mask /\ (o = None -> contains mask IBV_QP_STATE = false)).
Proof.
  assert (forall (m : M QueuePair (Opcode * Z * QueuePairContext)), edge_taken q attr mask ->
    wp True (r ← m; mret (Some r)) q (fun r _ => forall o, r = Ok o -> edge_taken q attr mask /\ (o = None -> contains mask IBV_QP_STATE = false))) as Hb.
  { intros m Hm. apply wp_bind_any; [done|]. intros x s'. wp_step. by intros ? [= <-]. }
  unfold transition, has, edge_taken in *. do 2 wp_step; [done|]. unfold self. do 2 wp_step.
  destruct (contains mask IBV_QP_STATE), (qp_state q), (a_state attr); try (by wp_step); try (apply Hb; auto with hca);
    wp_step; intros ? [= <-]; split; auto with hca; done.
Qed.

Lemma wp_put f v c q (Q : _ -> _ -> Prop) : Q (Ok (bf_upd f v c)) q -> wp True (put f v c) q Q.
Proof. intros HQ. unfold put. wp_step. match goal with E : bf_set _ _ _ = _ |- _ => apply bf_set_ret in E as [-> _] end. done. Qed.

Lemma reset_to_init_context attr mask q :
  wp True (reset_to_init attr mask) q (fun r q' => forall x, r = Ok x -> context_for q x.2).
Proof.
  unfold reset_to_init, is_rc, is_uc, is_ud. wp_step.
  assert (wp True (store_port attr mask) q (fun r q' => r = Ok tt /\ (q' = q \/ q' = with_port (port_num attr) q))) as Hp.
  { unfold store_port. wp_step; wp_step; auto. }
  eapply mwp_mono; [exact Hp|]. intros ? q' [-> Hq']. wp_step. apply wp_get.
  destruct (qp_type q'); cbn [orb]; repeat first [apply wp_put | wp_step]; try done; cbn beta; intros x [= <-].
  all: destruct Hq' as [->| ->]; split; try reflexivity; try (split; reflexivity); symmetry; assumption.
Qed.

(** The command that takes a queue pair out of Reset carries its context. *)
Lemma transition_context caps attr mask q : qp_state q = StReset -> contains mask IBV_QP_STATE = true -> a_state attr = StInit ->
  wp True (transition caps attr mask) q (fun r _ => forall x, r = Ok (Some x) -> context_for q x.2).
Proof.
  intros Es Em Ea. unfold transition, has, self. rewrite Em. wp_step. wp_step; [done|]. do 2 wp_step. rewrite Es, Ea. wp_step.
  eapply mwp_mono; [apply reset_to_init_context|]. intros [x|e] q' Hx; cbn beta iota; [|done]. wp_step. intros ? [= <-]. by apply Hx.
Qed.

Section modify_hw.
Context {C A : Type} `{CardLaws C} `{FrameAllocator A}.
Notation World := (World C A).
Implicit Types w : World.

(** What a call of [modify] does to the queue pair [q] and the adapter. *)
Definition modified (q : QueuePair) attr mask (r : result string unit) (q' : QueuePair) (s s' : Hw) : Prop :=
  match r with
  | Err _ => qp_state q' = qp_state q /\ s' = s
  | Ok _ => edge_taken q attr mask /\ qp_state q' = (if contains mask IBV_QP_STATE then a_state attr else qp_state q) /\
      (qp_state q = StReset -> qp_state q' = StInit -> exists c, hw_qps s' !! qp_number q = Some c /\ context_for q c)
  end.

Lemma qp_modify_spec q attr mask w : attr_wf attr -> 0 <= log_max_msg (capabilities (w_dev w)) < 2 ^ 5 -> qp_wf q ->
  wp False (qp_modify q attr mask) w (fun r w' => w_dev w' = w_dev w /\
    exists r0 q', r = Ok (r0, q') /\ qp_wf q' /\ modified q attr mask r0 q' (whw w) (whw w')).
Proof.
  intros Ha Hm Hq. unfold qp_modify. do 2 hca_step. wp_step.
  destruct (wp_returns _ _ _ (total_transition _ attr mask Ha Hm q Hq)) as (r & q' & E & Hq').
  pose proof (wp_run _ _ _ _ _ _ (transition_filled _ _ _ q) E) as [Hs Hst _].
  pose proof (wp_run _ _ _ _ _ _ (transition_command _ _ _ q) E) as Hc. pose proof (wp_run _ _ _ _ _ _ (transition_edges _ _ _ q) E) as He.
  rewrite E. cbn beta iota in *. apply wp_lift; [done|]. intros ? [= <-]. cbn beta iota.
  destruct r as [[[[op m] c]|]|e]; cbn beta iota.
  - destruct (He _ eq_refl) as [Hed _]. specialize (Hc _ _ _ eq_refl). do 2 wp_step. apply wp_command.
    + intros _ c' Ex. wp_step. split; [done|]. eexists _, _. split; [done|].
      destruct (contains mask IBV_QP_STATE) eqn:Em.
      * split; [by destruct Hq'|]. split; [done|]. cbn. rewrite Em. split; [done|]. intros Hr Hi.
        exists c. pose proof (wp_run _ _ _ _ _ _ (transition_context _ _ _ _ Hr Em Hi) E _ eq_refl) as Hcf. split; [|done].
        unfold whw. cbn [w_card set_card]. rewrite Ex. destruct op; cbn in Hc; try done; try (destruct Hc as [Hc _]; unfold live in Hc; congruence).
        -- cbn. rewrite (qs_number _ _ Hs). apply lookup_insert_eq.
        -- destruct Hc. congruence.
      * split; [done|]. split; [done|]. rewrite Em. split; [done|]. congruence.
    + intros e c' Ex. wp_step. split; [done|]. by eexists _, _.
  - wp_step. split; [done|]. eexists _, _. split; [done|]. split; [done|]. destruct (He _ eq_refl) as [Hed Hn]. specialize (Hn eq_refl).
    split; [done|]. rewrite Hn. split; [done|]. congruence.
  - wp_step. split; [done|]. by eexists _, _.
Qed.

(** C28 A process changes the state of a queue pair ([Mlx4Device::modify_qp]): for every queue pair
    that fits into its context, all attributes of their types and every mask the driver returns,
    it never panics.  The queue pair stays well-formed, and no other queue pair or context of
    the driver changes.  If the call succeeds, the change was one of InfiniBand (Reset to Init, Init to
    Init, Init to ready-to-receive, that to ready-to-send, anything to Reset), and the state is
    the requested one; a queue pair that left Reset has at the adapter the rings, the queues, the domain
    and the doorbell it was created with.  If it fails, the state and the adapter's queues are unchanged. *)
Theorem modify_follows_states pid handle number attr mask (w : World) c i q :
  contexts (w_dev w) !! handle = Some c -> owner c = pid -> list_find (fun q => qp_number q = number) (qps c) = Some (i, q) ->
  qp_wf q -> attr_wf attr -> 0 <= log_max_msg (capabilities (w_dev w)) < 2 ^ 5 ->
  exists r q' w', modify_qp pid handle number attr mask w = Ret (r, w') /\
    w_dev w' = with_contexts (<[handle := with_qps (<[i := q']> (qps c)) c]> (contexts (w_dev w))) (w_dev w) /\
    qp_wf q' /\ modified q attr mask r q' (whw w) (whw w').
Proof.
  intros Hc Ho Hf Hq Ha Hm.
  assert (wp False (modify_qp pid handle number attr mask) w (fun r w' => exists q',
    w_dev w' = with_contexts (<[handle := with_qps (<[i := q']> (qps c)) c]> (contexts (w_dev w))) (w_dev w) /\
    qp_wf q' /\ modified q attr mask r q' (whw w) (whw w'))) as HW.
  { unfold modify_qp, context_of. wp_step. do 2 hca_step. rewrite Hc. cbn. rewrite Ho, Z.eqb_refl.
    apply wp_ok_or; [done|]. intros ? [= <-]. wp_step. rewrite Hf. apply wp_ok_or; [done|]. intros ? [= <-]. wp_step.
    eapply mwp_mono; [by apply qp_modify_spec|]. intros ? w1 [Ed (r0 & q' & -> & Hq' & Hmod)]. wp_step. apply wp_put_context.
    unfold of_unit_result. hca_step. exists q'. cbn. by rewrite Ed. }
  destruct (wp_returns _ _ _ HW) as (r & w' & E & q' & Hx). by exists r, q', w'.
Qed.
End modify_hw.
