(* ===== verification/HcaPort.v ===== *)
(** * Ports of the adapter ([os/kernel/src/device/infiniband/mlx4/port.rs])

    A port is brought up with its MTU and asked for its state with a management datagram.
    Datagrams are bytes here, their fields big-endian and their bit fields from the most significant bit on. *)

From S2P Require Import Prelude Intervals Dram FrameAlloc Paging Vma Vmm Bytes HcaLayout HcaHw.
From S2P Require Import HcaIcm HcaDev HcaIsolation.

Open Scope Z_scope.

(** ** Data *)

(** The bytes of the last answers, for the log. *)
(* [os/kernel/src/device/infiniband/mlx4/port.rs:14-24] Port *)
Record Port := mkPort { p_number : Z; p_open : bool; p_capabilities : option (list Z); madifc_output : option (list Z) }.

Definition with_answers (caps mad : option (list Z)) (p : Port) : Port := mkPort (p_number p) (p_open p) caps mad.
Definition with_open (b : bool) (p : Port) : Port := mkPort (p_number p) b (p_capabilities p) (madifc_output p).

(** Enums by their codes: [PortState] up to 5, [Mtu] from 1 to 5, [PhysicalPortState] up to 7. *)
(* [os/library/rdma/src/ib_core.rs:214-224] PortAttr *)
Record PortAttr := {
  pa_state : Z; max_mtu : Z; active_mtu : Z; port_cap_flags : Z; lid : Z; sm_lid : Z; lmc : Z; link_layer : Z; phys_state : Z
}.

(** [FromRepr::from_repr] of an enum whose codes are [lo] to [hi]. *)
Definition from_repr (lo hi v : Z) : option Z := if (lo <=? v) && (v <=? hi) then Some v else None.

(** ** Datagrams *)

(* [os/kernel/src/device/infiniband/mlx4/port.rs:292-311] MadPacket *)
Definition mad_packet (number : Z) : list Z :=
  [1; 1; 1; 1] ++ be_bytes 2 0 ++ [0; 0] ++ be_bytes 8 0 ++ be_bytes 2 0x15 ++ be_bytes 2 0 ++ be_bytes 4 number ++ replicate 232 0.

Definition byte_at (bs : list Z) (i : nat) : Z := default 0 (bs !! i).
Definition be_at (bs : list Z) (i n : nat) : Z := be_value (byte_at bs <$> seq i n).

Definition mad_status (bs : list Z) : Z := be_at bs 4 2.
(** [MadPacket::data] begins at byte 64. *)
Definition mad_data (bs : list Z) : list Z := slice bs 64 64.

(* [os/kernel/src/device/infiniband/mlx4/port.rs:320-375] MadPacketData *)
Definition mad_port_attr (d : list Z) : result string PortAttr :=
  match from_repr 0 5 (byte_at d 32 mod 16) with
  | None => Err "invalid state"%string
  | Some st =>
  match from_repr 1 5 (byte_at d 41 mod 16) with
  | None => Err "invalid max MTU"%string
  | Some mx =>
  match from_repr 1 5 (byte_at d 36 / 16) with
  | None => Err "invalid MTU"%string
  | Some ac =>
  match from_repr 0 7 (byte_at d 33 / 16) with
  | None => Err "invalid physical port state"%string
  | Some ph => Ok {| pa_state := st; max_mtu := mx; active_mtu := ac; port_cap_flags := be_at d 20 4; lid := be_at d 16 2;
                     sm_lid := be_at d 18 2; lmc := byte_at d 34 mod 8; link_layer := 0; phys_state := ph |}
  end end end end.

(** ** Operations *)

Section port.
Context {C A : Type} `{Card C} `{FrameAllocator A}.
Notation World := (World C A).

Definition MAD_IFC_MODIFIER : Z := Z.lor (2 ^ 0) (2 ^ 1).

(** The output mailbox as bytes. *)
Definition mailbox_bytes (m : Mailbox) : list Z := match m with MbBytes bs => bs | _ => [] end.

(** The port afterwards, also if it failed. *)
(* [os/kernel/src/device/infiniband/mlx4/port.rs:111-176] Port::query_single *)
Definition query_single (p : Port) : M World (result string PortAttr * Port) :=
  r ← attempt (execute_command QueryPort InEmpty (p_number p) OutMailbox);
  match r with
  | Err e => mret (Err e, p)
  | Ok (_, out) =>
      let p := with_answers (Some (take 24 (mailbox_bytes out))) (madifc_output p) p in
      r ← attempt (execute_command_mod MadIfc MAD_IFC_MODIFIER (InMailbox (MbBytes (mad_packet (p_number p)))) (p_number p) OutMailbox);
      match r with
      | Err e => mret (Err e, p)
      | Ok (_, out) =>
          let mad := mailbox_bytes out in
          if negb (mad_status mad =? 0) then mret (Err "PortInfo MAD returned an error status"%string, p) else
          mret (mad_port_attr (mad_data mad), with_answers (p_capabilities p) (Some mad) p)
      end
  end.

(** [n] attempts are left; between two of them the thread sleeps. *)
(* [os/kernel/src/device/infiniband/mlx4/port.rs:88-108] Port::query *)
Fixpoint query_attempts (n : nat) (err : string) (p : Port) : M World (result string PortAttr * Port) :=
  match n with
  | O => mret (Err err, p)
  | S n' =>
      '(r, p) ← query_single p;
      match r with Ok attr => mret (Ok attr, p) | Err e => query_attempts n' e p end
  end.
Definition port_query (p : Port) : M World (result string PortAttr * Port) := query_attempts 5 "" p.

(** If the command fails, the port is dropped while it is open. *)
(* [os/kernel/src/device/infiniband/mlx4/port.rs:79-83] Port::close *)
Definition port_close (p : Port) : M World unit :=
  r ← attempt (execute_command ClosePort InEmpty (p_number p) OutEmpty);
  match r with
  | Ok _ => mret tt
  | Err e => if p_open p then panic "Please close instead of dropping" else fail e
  end.

(** [for vl_cap_shift in (0..=3).rev()] *)
Fixpoint set_port_vls (shifts : list Z) (number : Z) (c : SetPortCommand) : M World unit :=
  match shifts with
  | [] => mret tt
  | s :: rest =>
      c ← lift (bf_set VL_CAP (2 ^ s) c);
      _ ← execute_command SetPort (InMailbox (MbSetPort c)) number OutEmpty;
      set_port_vls rest number c
  end.

(** A query whose error is returned. *)
Definition query_or_fail (p : Port) : M World (PortAttr * Port) :=
  '(r, p) ← port_query p;
  a ← of_result r;
  mret (a, p).

(* [os/kernel/src/device/infiniband/mlx4/port.rs:27-77] Port::new *)
Definition port_new (number mtu : Z) (pkey_table_size : option Z) : M World Port :=
  '(attr, p) ← query_or_fail (mkPort number false None None);
  c ← lift (bf_set CAPABILITIES (port_cap_flags attr) bf_new);
  c ← lift match pkey_table_size with
           | Some size => c ← bf_set CHANGE_PORT_PKEY 1 c; bf_set MAX_PKEY size c
           | None => Ret c
           end;
  c ← lift (bf_set CHANGE_PORT_MTU 1 c);
  c ← lift (bf_set CHANGE_PORT_VL 1 c);
  c ← lift (bf_set MTU_CAP mtu c);
  _ ← set_port_vls [3; 2; 1; 0] number c;
  '(_, p) ← query_or_fail p;
  _ ← execute_command InitPort InEmpty number OutEmpty;
  let p := with_open true p in
  '(r, p) ← port_query p;
  match r with
  | Ok _ => mret p
  | Err e => _ ← port_close p; fail e
  end.

(** [while let Some(port) = ports.pop()] *)
Fixpoint close_ports (ports : list Port) : M World unit :=
  match ports with
  | [] => mret tt
  | p :: rest => _ ← close_ports rest; _ ← attempt (port_close p); mret tt
  end.

(** [n] ports are left, of which [number] is the first. *)
(* [os/kernel/src/device/infiniband/mlx4/fw.rs:1231-1248] Hca::init_ports *)
Fixpoint init_ports_from (n : nat) (number : Z) (ports : list Port) : M World (list Port) :=
  match n with
  | O => mret ports
  | S n' =>
      r ← attempt (port_new number 5 None);
      match r with
      | Ok p => init_ports_from n' (number + 1) (ports ++ [p])
      | Err e => _ ← close_ports ports; fail e
      end
  end.
(* [os/kernel/src/device/infiniband/mlx4/fw.rs:1222-1230] Hca::init_ports *)
Definition init_ports (caps : Capabilities) : M World (list Port) :=
  _ ← lift (rust_assert (num_ports caps <=? 2) "assertion failed: caps.num_ports() <= 2");
  init_ports_from (Z.to_nat (num_ports caps)) 1 [].
End port.

(** ** Bringing up the ports *)

(** The adapter, as far as ports are concerned: it answers every command in time with a status of the
    manual, its mailbox holds bytes, it counts the ports that are up, and it closes a port that is up. *)
Class PortLaws (C : Type) `{Card C} := {
  ports_up : C -> gset Z;
  port_answers cmd c : exists status imm out c', card_exec cmd c = (Done status imm out, c') /\ is_Some (status_name status);
  port_bytes cmd c status imm bs c' : card_exec cmd c = (Done status imm (MbBytes bs), c') -> Forall (fun b => 0 <= b < 256) bs;
  port_effect cmd c status imm out c' : card_exec cmd c = (Done status imm out, c') ->
    ports_up c' = match c_op cmd, status with
                  | InitPort, 0 => {[c_mod cmd]} ∪ ports_up c
                  | ClosePort, 0 => ports_up c ∖ {[c_mod cmd]}
                  | _, _ => ports_up c
                  end;
  port_closes n c : n ∈ ports_up c -> exists imm out c', card_exec (mkCommand ClosePort 0 InEmpty n OutEmpty) c = (Done 0 imm out, c')
}.

Lemma byte_at_range bs i : Forall (fun b => 0 <= b < 256) bs -> 0 <= byte_at bs i < 256.
Proof. intros HF. unfold byte_at. destruct (bs !! i) eqn:E; cbn; [|lia]. by eapply Forall_lookup_1 in HF. Qed.

Lemma be_value_range bs : Forall (fun b => 0 <= b < 256) bs -> 0 <= be_value bs < 256 ^ Z.of_nat (length bs).
Proof.
  induction bs as [|b bs IH] using rev_ind; [done|]. intros [HF Hb]%Forall_app. apply Forall_cons in Hb as [Hb _].
  specialize (IH HF). unfold be_value in *. rewrite fold_left_app, length_app, Nat2Z.inj_add, Z.pow_add_r by (cbn; lia). cbn. lia.
Qed.

Lemma be_at_range bs i n : Forall (fun b => 0 <= b < 256) bs -> 0 <= be_at bs i n < 256 ^ Z.of_nat n.
Proof.
  intros HF. unfold be_at. pose proof (be_value_range (byte_at bs <$> seq i n)) as Hr. rewrite length_fmap, length_seq in Hr. apply Hr.
  apply Forall_fmap, Forall_true. intros j. by apply byte_at_range.
Qed.

Lemma Forall_slice {B} (P : B -> Prop) (bs : list B) off n : Forall P bs -> Forall P (take n (drop off bs)).
Proof. intros HF. by apply Forall_take, Forall_drop. Qed.

Lemma mad_port_attr_flags d a : Forall (fun b => 0 <= b < 256) d -> mad_port_attr d = Ok a -> 0 <= port_cap_flags a < 2 ^ 32.
Proof.
  intros HF. unfold mad_port_attr. repeat (destruct (from_repr _ _ _); [|done]). intros [= <-]. cbn. by apply (be_at_range d 20 4).
Qed.

Section bring_up.
Context {C A : Type} `{PortLaws C} `{FrameAllocator A}.
Notation World := (World C A).
Implicit Types w : World.

Definition up w : gset Z := ports_up (w_card w).
Definition bytes_ok (m : Mailbox) : Prop := Forall (fun b => 0 <= b < 256) (mailbox_bytes m).

(** A command other than opening and closing leaves the ports as they are. *)
Lemma wp_port_command op opmod i m o w (Q : _ -> _ -> Prop) : op <> InitPort -> op <> ClosePort ->
  (forall r w', up w' = up w -> (forall imm out, r = Ok (imm, out) -> bytes_ok out) -> Q r w') ->
  wp False (execute_command_mod op opmod i m o) w Q.
Proof.
  intros N1 N2 HQ. unfold wp, execute_command_mod.
  destruct (port_answers (mkCommand op opmod i m o) (w_card w)) as (status & imm & out & c & E & [name Hn]). rewrite E, Hn. cbn [expect mbind outcome_bind].
  apply HQ; [unfold up; cbn; rewrite (port_effect _ _ _ _ _ _ E); by destruct op|].
  intros imm' out'. destruct (status =? 0); [|done]. intros [= <- <-]. unfold bytes_ok. destruct out; try constructor. by eapply port_bytes.
Qed.

Lemma wp_init_port n w (Q : _ -> _ -> Prop) :
  (forall x w', up w' = {[n]} ∪ up w -> Q (Ok x) w') -> (forall e w', up w' = up w -> Q (Err e) w') ->
  wp False (execute_command InitPort InEmpty n OutEmpty) w Q.
Proof.
  intros Ho He. unfold wp, execute_command, execute_command_mod.
  destruct (port_answers (mkCommand InitPort 0 InEmpty n OutEmpty) (w_card w)) as (status & imm & out & c & E & [name Hn]). rewrite E, Hn.
  cbn [expect mbind outcome_bind]. pose proof (port_effect _ _ _ _ _ _ E) as Hf. cbn in Hf.
  destruct (Z.eqb_spec status 0) as [->|N]; [by apply Ho|]. apply He. unfold up. cbn. rewrite Hf. by destruct status.
Qed.

Lemma wp_port_close p w (Q : _ -> _ -> Prop) : p_number p ∈ up w ->
  (forall w', up w' = up w ∖ {[p_number p]} -> Q (Ok tt) w') -> wp False (port_close p) w Q.
Proof.
  intros Hi HQ. unfold port_close. wp_step. wp_step. unfold wp at 1, execute_command, execute_command_mod.
  destruct (port_closes _ _ Hi) as (imm & out & c & E). rewrite E. cbn. apply HQ. unfold up. cbn. by rewrite (port_effect _ _ _ _ _ _ E).
Qed.

(** What a query returns. *)
Definition queried (p : Port) (r : result string (result string PortAttr * Port)) : Prop :=
  exists r0 p', r = Ok (r0, p') /\ p_number p' = p_number p /\ p_open p' = p_open p /\
    forall a, r0 = Ok a -> 0 <= port_cap_flags a < 2 ^ 32.

Lemma query_single_spec p w : wp False (query_single p) w (fun r w' => up w' = up w /\ queried p r).
Proof.
  unfold query_single. do 2 wp_step. apply wp_port_command; [done..|]. intros [[imm out]|e] w1 E1 B1; cbn beta iota.
  2: { wp_step. split; [done|]. by eexists _, _. }
  do 2 wp_step. apply wp_port_command; [done..|]. intros [[imm' out']|e] w2 E2 B2; cbn beta iota.
  2: { wp_step. split; [congruence|]. by eexists _, _. }
  wp_step; wp_step; (split; [congruence|]); eexists _, _; split_and!; try done.
  intros a Ha. eapply mad_port_attr_flags; [|done]. by eapply Forall_slice, B2.
Qed.

Lemma query_attempts_spec n e p w : wp False (query_attempts n e p) w (fun r w' => up w' = up w /\ queried p r).
Proof.
  revert e p w. induction n as [|n IH]; intros e p w; cbn [query_attempts]; [wp_step; split; [done|]; by eexists _, _|].
  wp_step. eapply mwp_mono; [apply query_single_spec|]. intros r w1 [E1 (r0 & p1 & -> & Hn & Ho & Hr)]. cbn beta iota.
  destruct r0 as [a|e']; [wp_step; split; [done|]; by eexists _, _|]. eapply mwp_mono; [apply IH|].
  intros r w2 [E2 (r2 & p2 & -> & Hn2 & Ho2 & Hr2)]. split; [congruence|]. eexists _, _. split_and!; (congruence || done).
Qed.

Lemma query_or_fail_spec p w : wp False (query_or_fail p) w (fun r w' => up w' = up w /\
  forall a p', r = Ok (a, p') -> p_number p' = p_number p /\ p_open p' = p_open p /\ 0 <= port_cap_flags a < 2 ^ 32).
Proof.
  unfold query_or_fail, port_query. wp_step. eapply mwp_mono; [apply query_attempts_spec|]. intros r w1 [E1 (r0 & p1 & -> & Hn & Ho & Hr)]. cbn beta iota.
  wp_step. hca_step. destruct r0 as [a|e]; [|done]. wp_step. split; [done|]. intros ? ? [= <- <-]. auto.
Qed.

Lemma set_port_vls_spec l n c w : Forall (fun s => 0 <= s < 4) l ->
  wp False (set_port_vls l n c) w (fun _ w' => up w' = up w).
Proof.
  revert c w. induction l as [|s l IH]; intros c w HF; cbn [set_port_vls]; [by wp_step|]. inversion HF as [|? ? Hs HF']; subst.
  assert (0 <= 2 ^ s < 2 ^ 4) by (split; [|apply Z.pow_lt_mono_r]; lia).
  rewrite bf_set_ok by done. do 2 wp_step; [done|]. wp_step. apply wp_port_command; [done..|]. intros [r|e] w1 E1 _; [|done].
  eapply mwp_mono; [by apply IH|]. intros; congruence.
Qed.

Lemma up_again (n : Z) (X : gset Z) : n ∉ X -> ({[n]} ∪ X) ∖ {[n]} = X.
Proof. set_solver. Qed.

Lemma port_new_spec n w : n ∉ up w -> wp False (port_new n 5 None) w (fun r w' =>
  match r with Ok p => p_number p = n /\ p_open p = true /\ up w' = {[n]} ∪ up w | Err _ => up w' = up w end).
Proof.
  intros Hn. unfold port_new. wp_step. eapply mwp_mono; [apply query_or_fail_spec|]. intros [[a p]|e] w1 [E1 Hq]; [|done].
  destruct (Hq _ _ eq_refl) as (Hpn & _ & Hf). cbn beta iota. rewrite bf_set_ok by done.
  do 2 wp_step; [done|]. simplify_eq. do 2 wp_step; [done|]. simplify_eq.
  do 3 (rewrite bf_set_ok by (cbn; lia); do 2 wp_step; [done|]; simplify_eq).
  wp_step. eapply mwp_mono; [apply set_port_vls_spec; repeat constructor; lia|]. intros [[]|e] w2 E2; [|congruence].
  wp_step. eapply mwp_mono; [apply query_or_fail_spec|]. intros [[a' p']|e] w3 [E3 Hq']; [|congruence].
  destruct (Hq' _ _ eq_refl) as (Hpn' & _ & _). cbn beta iota.
  wp_step. apply wp_init_port; [|congruence]. intros _ w4 E4. cbn beta iota zeta. wp_step. eapply mwp_mono; [apply query_attempts_spec|].
  intros ? w5 [E5 (r & p5 & -> & Hn5 & Ho5 & _)]. cbn beta iota. cbn in Hpn, Hn5, Ho5.
  assert (up w5 = {[n]} ∪ up w) as Eu by congruence. assert (p_number p5 = n) as Ep by congruence.
  destruct r; wp_step; [split_and!; congruence|]. apply wp_port_close; rewrite Eu, Ep; [apply elem_of_union_l, elem_of_singleton_2; done|].
  intros w6 E6. wp_step. rewrite E6. by apply up_again.
Qed.

(** The open ports that the driver holds. *)
Definition holds (ports : list Port) w : Prop :=
  up w = list_to_set (p_number <$> ports) /\ NoDup (p_number <$> ports) /\ Forall (fun p => p_open p = true) ports.

Lemma close_ports_spec ports w : NoDup (p_number <$> ports) -> Forall (fun p => p_number p ∈ up w) ports ->
  wp False (close_ports ports) w (fun r w' => r = Ok tt /\ up w' = up w ∖ list_to_set (p_number <$> ports)).
Proof.
  revert w. induction ports as [|p ports IH]; intros w Hn HF; cbn [close_ports]; [wp_step; split; [done|set_solver]|].
  apply NoDup_cons in Hn as [Hni Hn]. apply Forall_cons in HF as [Hp HF]. wp_step. eapply mwp_mono; [by apply IH|].
  intros ? w1 [-> E1]. cbn beta iota. do 2 wp_step. apply wp_port_close; [rewrite E1; set_solver|].
  intros w2 E2. wp_step. split; [done|]. rewrite E2, E1. set_solver.
Qed.

Lemma init_ports_from_spec n number ports w : holds ports w -> Forall (fun p => p_number p < number) ports ->
  wp False (init_ports_from n number ports) w (fun r w' =>
    match r with
    | Ok ports' => holds ports' w' /\ p_number <$> ports' = (p_number <$> ports) ++ seqZ number (Z.of_nat n)
    | Err _ => up w' = ∅
    end).
Proof.
  revert number ports w. induction n as [|n IH]; intros number ports w Hh HF; cbn [init_ports_from].
  { wp_step. split; [done|]. by rewrite app_nil_r. }
  destruct Hh as (Hu & Hn & Ho).
  assert (number ∉ p_number <$> ports) as Hni.
  { intros (p & -> & Hp)%list_elem_of_fmap. rewrite Forall_forall in HF. specialize (HF p Hp). lia. }
  do 2 wp_step. eapply mwp_mono; [apply port_new_spec; rewrite Hu; set_solver|]. intros [p|e] w1; cbn beta iota.
  - intros (Hp & Hop & E1). eapply mwp_mono; [apply IH|].
    + split_and!; rewrite ?fmap_app; cbn; [set_solver| |by apply Forall_app; split; [|repeat constructor]].
      apply NoDup_app. split_and!; [done| |apply NoDup_singleton]. intros x Hx ->%list_elem_of_singleton. by rewrite Hp in Hx.
    + apply Forall_app. split; [eapply Forall_impl; [exact HF|cbn; lia]|]. repeat constructor. lia.
    + intros [ports'|e] w2; [|done]. intros [Hh Hx]. split; [done|]. rewrite Hx, fmap_app, <-app_assoc. f_equal. cbn.
      rewrite (seqZ_cons number (Z.of_nat (S n))) by lia. rewrite Hp, Nat2Z.inj_succ, Z.pred_succ. done.
  - intros E1. wp_step. eapply mwp_mono; [apply close_ports_spec; [done|]|].
    + apply Forall_forall. intros p Hp. rewrite E1, Hu. apply elem_of_list_to_set, list_elem_of_fmap_2, Hp.
    + intros ? w2 [-> E2]. cbn beta iota. wp_step. rewrite E2, E1, Hu. set_solver.
Qed.

End bring_up.

(** ** An adapter with two ports *)

Record PortSim := mkPortSim { sim_up : gset Z }.

(** The link is up, with an MTU of 4096. *)
Definition sim_mad : list Z := replicate 96 0 ++ [4; 0x50; 0; 0; 0x50; 0; 0; 0; 0; 5] ++ replicate 150 0.

Definition sim_port_exec (cmd : Command) (s : PortSim) : Reply * PortSim :=
  match c_op cmd with
  | InitPort => (Done 0 0 MbEmpty, mkPortSim ({[c_mod cmd]} ∪ sim_up s))
  | ClosePort => if bool_decide (c_mod cmd ∈ sim_up s) then (Done 0 0 MbEmpty, mkPortSim (sim_up s ∖ {[c_mod cmd]})) else (Done 0x0a 0 MbEmpty, s)
  | MadIfc => (Done 0 0 (MbBytes sim_mad), s)
  | _ => (Done 0 0 MbEmpty, s)
  end.
#[global] Instance port_sim_card : Card PortSim := {| card_exec := sim_port_exec |}.

Lemma sim_mad_bytes : Forall (fun b => 0 <= b < 256) sim_mad.
Proof. apply Forall_app. split; [by apply Forall_replicate|]. apply Forall_app. split; [repeat constructor; lia|by apply Forall_replicate]. Qed.

#[global] Program Instance port_sim_laws : PortLaws PortSim := {| ports_up := sim_up |}.
Next Obligation.
  intros [op om i m o] c. cbn. unfold sim_port_exec. destruct op; cbn; try case_bool_decide; eexists _, _, _, _; (split; [reflexivity|]; eexists; reflexivity).
Qed.
Next Obligation.
  intros [op om i m o] c status imm bs c' E. cbn in E. unfold sim_port_exec in E. destruct op; cbn in E; try case_bool_decide; simplify_eq.
  apply sim_mad_bytes.
Qed.
Next Obligation.
  intros [op om i m o] c status imm out c' E. cbn in E. unfold sim_port_exec in E. destruct op; cbn in E; try case_bool_decide; by simplify_eq.
Qed.
Next Obligation.
  intros n c Hn. cbn. unfold sim_port_exec. cbn. rewrite bool_decide_eq_true_2 by done. by eexists _, _, _.
Qed.
