(* ===== verification/HcaEvents.v ===== *)
(** * Event queues of the adapter ([os/kernel/src/device/infiniband/mlx4/event_queue.rs])

    The adapter reports events in a ring of 4096 entries in host memory.  An entry carries an
    owner bit that the adapter flips with every round through the ring; the driver counts the entries
    it consumed and tells the adapter by a doorbell, of which only 24 bits count.  The adapter
    writes while the driver reads, so both are steps of a system. *)

From S2P Require Import Prelude Intervals Dram FrameAlloc Paging Vma Vmm Bytes HcaLayout HcaHw.
From S2P Require Import HcaIcm HcaDev HcaIsolation.

Open Scope Z_scope.

(** ** Creating and destroying *)

Definition EQ_ENTRIES : Z := 4096.
Definition EQE_SIZE : Z := 32.

(** All events of [EventType] that are bits of the mask. *)
(* [os/kernel/src/device/infiniband/mlx4/event_queue.rs:520-548] AsyncEventMask *)
Definition all_events : Z :=
  fold_left (fun m t => Z.lor m (2 ^ t))
    [0x01; 0x02; 0x03; 0x13; 0x14; 0x04; 0x05; 0x06; 0x07; 0x10; 0x11; 0x12; 0x08; 0x09; 0x1b; 0x1c; 0x1d; 0x3e; 0x0a; 0x18] 0.

(** [EventQueueState::Fired]: polled queues start disarmed. *)
Definition EQ_FIRED : Z := 0xa.

Section queues.
Context {C A : Type} `{Card C} `{FrameAllocator A}.
Notation World := (World C A).

(* os/kernel/src/device/infiniband/mlx4/mod.rs: Offsets::alloc_eqn *)
Definition alloc_eqn : M World Z :=
  d ← dev;
  let o := offsets d in
  _ ← upd_dev (with_offsets {| base_qpn := base_qpn o; next_cqn := next_cqn o; next_qpn := next_qpn o;
                               next_dmpt := next_dmpt o; next_eqn := next_eqn o + 1 |});
  mret (next_eqn o).

(** [kernel]: the kernel's process, whose pages are translated. *)
(* [os/kernel/src/device/infiniband/mlx4/event_queue.rs:128-180] EventQueue::new *)
Definition eq_new (cur kernel : Z) : M World EventQueue :=
  number ← alloc_eqn;
  let num_pages := div_ceil (EQ_ENTRIES * EQE_SIZE) PAGE_SIZE in
  memory ← create_cont_mapping cur num_pages;
  _ ← modify (fun w => set_mem (write_mem (w_mem w) (start_address memory) (replicate (Z.to_nat (num_pages * PAGE_SIZE)) 0)) w);
  mtt ← alloc_mtt_for_pages kernel (mkRange memory (memory + num_pages));
  ctx ← lift (bf_set EQ_STATE EQ_FIRED bf_new);
  ctx ← lift (bf_set LOG_EQ_SIZE (Z.log2 EQ_ENTRIES) ctx);
  ctx ← lift (bf_set EQ_LOG_PAGE_SIZE 0 ctx);
  ctx ← lift (bf_set EQ_MTT_BASE_ADDR mtt ctx);
  n ← to_u32 number;
  _ ← execute_command Sw2HwEq (InMailbox (MbEqc ctx)) n OutEmpty;
  mret {| eq_number := number; num_entries := EQ_ENTRIES; eq_memory := Some memory; eq_mtt := mtt; consumer_index := 0; async_ev_mask := 0 |}.

Definition with_mask (m : Z) (q : EventQueue) : EventQueue :=
  {| eq_number := eq_number q; num_entries := num_entries q; eq_memory := eq_memory q; eq_mtt := eq_mtt q;
     consumer_index := consumer_index q; async_ev_mask := m |}.

(** The queue afterwards, also if the command failed. *)
(* [os/kernel/src/device/infiniband/mlx4/event_queue.rs:185-197] EventQueue::map_all_events *)
Definition map_all_events (q : EventQueue) : M World (result string unit * EventQueue) :=
  let q := with_mask all_events q in
  n ← to_u32 (eq_number q);
  r ← attempt (execute_command MapEq (InImmediate (async_ev_mask q)) n OutEmpty);
  mret (match r with Ok _ => Ok tt | Err e => Err e end, q).

(* [os/kernel/src/device/infiniband/mlx4/event_queue.rs:200-211] EventQueue::unmap *)
Definition unmap_events (q : EventQueue) : M World EventQueue :=
  n ← to_u32 (eq_number q);
  _ ← execute_command MapEq (InImmediate (async_ev_mask q)) (Z.lor (2 ^ 31) n) OutEmpty;
  mret (with_mask 0 q).

(** The queue afterwards, also if it failed. *)
(* [os/kernel/src/device/infiniband/mlx4/event_queue.rs:214-228] EventQueue::destroy *)
Definition eq_destroy (q : EventQueue) : M World (result string unit * EventQueue) :=
  r ← attempt (if async_ev_mask q =? 0 then mret q else unmap_events q);
  match r with
  | Err e => mret (Err e, q)
  | Ok q =>
      n ← to_u32 (eq_number q);
      r ← attempt (execute_command Hw2SwEq InEmpty n OutEmpty);
      match r with
      | Err e => mret (Err e, q)
      | Ok _ =>
          _ ← lift (expect (eq_memory q) "called `Option::unwrap()` on a `None` value");
          mret (Ok tt, {| eq_number := eq_number q; num_entries := num_entries q; eq_memory := None; eq_mtt := eq_mtt q;
                          consumer_index := consumer_index q; async_ev_mask := async_ev_mask q |})
      end
  end.
End queues.

(** ** The ring *)

(** An event is the part of an entry before the owner bit: 31 bytes. *)
Definition EqEvent : Type := list Z.

(** The bit of the last word of an entry that tells whether it was written. *)
Definition eqe_owner (entry : list Z) : Z := Z.land (Z.shiftr (be_value (slice entry 28 4)) 7) 1.
Definition eqe_event (entry : list Z) : EqEvent := take 31 entry.

(** The first half of [consume_entry], with the count locked: check the owner and take the entry. *)
(* [os/kernel/src/device/infiniband/mlx4/event_queue.rs:259-272] EventQueue::consume_entry *)
Definition take_entry (ring : list (list Z)) (index : Z) : outcome (option nat * Z) :=
  let slot := Z.to_nat (Z.land index (EQ_ENTRIES - 1)) in
  entry ← arr_get ring slot;
  let owner := eqe_owner entry in
  let round := Z.land (index / EQ_ENTRIES) 1 in
  if owner =? round then Ret (None, index) else
  index ← expect (if index + 1 <=? U32_MAX then Some (index + 1) else None) "attempt to add with overflow";
  Ret (Some slot, index).

(** The second half reads it. *)
(* [os/kernel/src/device/infiniband/mlx4/event_queue.rs:259-280] EventQueue::consume_entry *)
Definition consume_entry (ring : list (list Z)) (index : Z) : outcome (option (list Z) * Z) :=
  '(slot, index) ← take_entry ring index;
  match slot with
  | None => Ret (None, index)
  | Some slot => entry ← arr_get ring slot; Ret (Some entry, index)
  end.

(** What [ring] writes. *)
(* [os/kernel/src/device/infiniband/mlx4/event_queue.rs:234-241] EventQueue::ring *)
Definition doorbell (index : Z) (arm : bool) : Z := Z.lor (Z.land index 0xffffff) (Z.shiftl (b2z arm) 31).

(** The events that were reported, the count and the doorbell afterwards, and how many events there were.
    [fuel] bounds the entries that are consumed. *)
(* [os/kernel/src/device/infiniband/mlx4/event_queue.rs:246-256] EventQueue::handle_events *)
Fixpoint handle_events (fuel : nat) (ring : list (list Z)) (index : Z) (reported : list (list Z)) (handled : Z)
    : outcome (option (list (list Z) * Z * Z * Z)) :=
  match fuel with
  | O => Ret None
  | S fuel' =>
      '(entry, index) ← consume_entry ring index;
      match entry with
      | Some entry => handle_events fuel' ring index (reported ++ [entry]) (handled + 1)
      | None => Ret (Some (reported, index, doorbell index true, handled))
      end
  end.

(** ** The driver and the adapter *)

(** [eq_posted] and [eq_reported]: the events so far; [eq_taken]: an entry that is being read. *)
Record EqState := mkEq {
  eq_ring : list (list Z); eq_index : Z; eq_doorbell : Z; eq_taken : option nat; eq_posted : list EqEvent; eq_reported : list EqEvent
}.

(** The entry with which the adapter posts its [n]th event. *)
Definition eqe_of (n : nat) (e : EqEvent) : list Z := e ++ [if Z.odd (Z.of_nat n / EQ_ENTRIES) then 0 else 128].

(** The adapter posts an event where it knows the entry to be free; the driver takes an entry,
    reads it, and rings the doorbell; a thread that handles events holds the lock of the count
    while it takes and reads. *)
Inductive eq_step : EqState -> EqState -> Prop :=
| eq_post s e slot : length e = 31%nat -> slot = (length (eq_posted s) mod Z.to_nat EQ_ENTRIES)%nat ->
    (Z.of_nat (length (eq_posted s)) - Z.land (eq_doorbell s) 0xffffff) mod 2 ^ 24 < EQ_ENTRIES ->
    eq_step s (mkEq (<[slot := eqe_of (length (eq_posted s)) e]> (eq_ring s)) (eq_index s) (eq_doorbell s) (eq_taken s)
                 (eq_posted s ++ [e]) (eq_reported s))
| eq_take s slot index : eq_taken s = None -> take_entry (eq_ring s) (eq_index s) = Ret (slot, index) ->
    eq_step s (mkEq (eq_ring s) index (eq_doorbell s) slot (eq_posted s) (eq_reported s))
| eq_read s slot entry : eq_taken s = Some slot -> arr_get (eq_ring s) slot = Ret entry ->
    eq_step s (mkEq (eq_ring s) (eq_index s) (eq_doorbell s) None (eq_posted s) (eq_reported s ++ [eqe_event entry]))
| eq_bell s arm : eq_taken s = None ->
    eq_step s (mkEq (eq_ring s) (eq_index s) (doorbell (eq_index s) arm) (eq_taken s) (eq_posted s) (eq_reported s)).

Definition eq_start : EqState := mkEq (replicate (Z.to_nat EQ_ENTRIES) (replicate 32 0)) 0 (doorbell 0 true) None [] [].

(** ** Invariant *)

(** What a slot holds when [l] was posted: the last event that was written there. *)
Definition slot_holds (l : list EqEvent) (slot : nat) (entry : list Z) : Prop :=
  (exists k e, l !! k = Some e /\ (k mod Z.to_nat EQ_ENTRIES = slot)%nat /\ (length l <= k + Z.to_nat EQ_ENTRIES)%nat /\ entry = eqe_of k e) \/
  (length l <= slot)%nat /\ entry = replicate 32 0.

Record eq_inv (s : EqState) : Prop := {
  qi_length : length (eq_ring s) = Z.to_nat EQ_ENTRIES;
  qi_events : Forall (fun e => length e = 31%nat) (eq_posted s);
  qi_slots slot entry : eq_ring s !! slot = Some entry -> slot_holds (eq_posted s) slot entry;
  qi_prefix : eq_reported s `prefix_of` eq_posted s;
  qi_index : eq_index s = Z.of_nat (length (eq_reported s)) + (if eq_taken s then 1 else 0);
  qi_taken slot : eq_taken s = Some slot -> slot = (length (eq_reported s) mod Z.to_nat EQ_ENTRIES)%nat /\ (length (eq_reported s) < length (eq_posted s))%nat;
  qi_acked : exists acked : nat, (acked <= length (eq_reported s))%nat /\ (length (eq_posted s) <= acked + Z.to_nat EQ_ENTRIES)%nat /\
    Z.land (eq_doorbell s) 0xffffff = Z.of_nat acked mod 2 ^ 24
}.

Lemma doorbell_low index arm : 0 <= index -> Z.land (doorbell index arm) 0xffffff = index mod 2 ^ 24.
Proof.
  intros Hi. change 0xffffff with (Z.ones 24). unfold doorbell. rewrite Z.land_lor_distr_l, <-Z.land_assoc.
  change (Z.land 0xffffff (Z.ones 24)) with (Z.ones 24). rewrite Z.land_ones by lia.
  assert (Z.land (Z.shiftl (b2z arm) 31) (Z.ones 24) = 0) as -> by by destruct arm.
  apply Z.lor_0_r.
Qed.

Lemma eqe_owner_of n e : length e = 31%nat -> eqe_owner (eqe_of n e) = if Z.odd (Z.of_nat n / EQ_ENTRIES) then 0 else 1.
Proof.
  intros He. unfold eqe_owner, eqe_of, slice. rewrite drop_app_le by lia.
  assert (exists a b c, drop 28 e = [a; b; c]) as (a & b & c & ->).
  { assert (length (drop 28 e) = 3%nat) as Hd by (rewrite length_drop; lia). destruct (drop 28 e) as [|a [|b [|c [|]]]]; try done. by exists a, b, c. }
  cbn [be_value fold_left app take].
  match goal with |- Z.land (Z.shiftr (?x * 256 + ?v) 7) 1 = _ => generalize x end. intros x.
  rewrite Z.shiftr_div_pow2 by lia. change 1 with (Z.ones 1) at 1. rewrite Z.land_ones by lia.
  destruct (Z.odd _).
  - replace ((x * 256 + 0) / 2 ^ 7) with (x * 2) by (apply Z.div_unique_exact; lia). by rewrite Z.mod_mul.
  - replace ((x * 256 + 128) / 2 ^ 7) with (1 + x * 2) by (apply Z.div_unique_exact; lia). by rewrite Z.mod_add.
Qed.

Lemma round_odd n : Z.land (n / EQ_ENTRIES) 1 = if Z.odd (n / EQ_ENTRIES) then 1 else 0.
Proof. change 1 with (Z.ones 1) at 1. rewrite Z.land_ones, Zmod_odd by lia. done. Qed.

Lemma entries_pos : (0 < Z.to_nat EQ_ENTRIES)%nat.
Proof. unfold EQ_ENTRIES. lia. Qed.

Lemma slot_of n : Z.to_nat (Z.land (Z.of_nat n) (EQ_ENTRIES - 1)) = (n mod Z.to_nat EQ_ENTRIES)%nat.
Proof.
  change (EQ_ENTRIES - 1) with (Z.ones 12). rewrite Z.land_ones by lia. change (2 ^ 12) with EQ_ENTRIES.
  rewrite <-(Z2Nat.id EQ_ENTRIES) at 1 by done. by rewrite <-Nat2Z.inj_mod, Nat2Z.id.
Qed.

(** Two numbers of a window of one round in the same slot are equal. *)
Lemma same_slot (N k n m : nat) : (0 < N)%nat -> (k mod N = n mod N)%nat -> (m <= k + N)%nat -> (k < m)%nat -> (m <= n + N)%nat -> (n < m)%nat -> k = n.
Proof.
  intros HN E H1 H2 H3 H4. pose proof (Nat.div_mod_eq k N). pose proof (Nat.div_mod_eq n N). rewrite E in *.
  assert (k / N = n / N)%nat by nia. congruence.
Qed.

Lemma previous_round (N k n : nat) : (0 < N)%nat -> (k mod N = n mod N)%nat -> (n <= k + N)%nat -> (k < n)%nat -> n = (k + N)%nat.
Proof.
  intros HN E H1 H2. pose proof (Nat.div_mod_eq k N). pose proof (Nat.div_mod_eq n N). rewrite E in *.
  assert (n / N = S (k / N))%nat by nia. nia.
Qed.

Section taking.
Context (s : EqState) (I : eq_inv s).

Lemma slot_full n e : (length (eq_reported s) <= n)%nat -> eq_posted s !! n = Some e ->
  eq_ring s !! (n mod Z.to_nat EQ_ENTRIES)%nat = Some (eqe_of n e).
Proof.
  intros Hn He. pose proof entries_pos as HN. pose proof (lookup_lt_Some _ _ _ He).
  destruct (lookup_lt_is_Some_2 (eq_ring s) (n mod Z.to_nat EQ_ENTRIES)) as [x Hx].
  { rewrite (qi_length _ I). by apply Nat.mod_upper_bound, Nat.neq_0_lt_0. }
  destruct (qi_acked _ I) as (acked & Ha & Hp & _).
  rewrite Hx. f_equal. destruct (qi_slots _ I _ _ Hx) as [(k & e' & Hk & Hm & Hl & ->)|[Hl _]].
  - pose proof (lookup_lt_Some _ _ _ Hk). assert (k = n) as -> by (apply (same_slot _ k n (length (eq_posted s)) HN Hm); lia). congruence.
  - pose proof (Nat.Div0.mod_le n (Z.to_nat EQ_ENTRIES)). lia.
Qed.

Lemma slot_old entry : eq_ring s !! (length (eq_posted s) mod Z.to_nat EQ_ENTRIES)%nat = Some entry ->
  eqe_owner entry = Z.land (Z.of_nat (length (eq_posted s)) / EQ_ENTRIES) 1.
Proof.
  intros Hx. pose proof entries_pos as HN. set (n := length (eq_posted s)) in *. rewrite round_odd.
  destruct (qi_slots _ I _ _ Hx) as [(k & e' & Hk & Hm & Hl & ->)|[Hl ->]].
  - pose proof (lookup_lt_Some _ _ _ Hk). pose proof (qi_events _ I) as HF. rewrite eqe_owner_of by by eapply Forall_lookup_1 in HF.
    assert (n = (k + Z.to_nat EQ_ENTRIES)%nat) as -> by (eapply previous_round; [exact HN|exact Hm|..]; unfold n in *; lia).
    rewrite Nat2Z.inj_add, Z2Nat.id by done. replace (Z.of_nat k + EQ_ENTRIES) with (Z.of_nat k + 1 * EQ_ENTRIES) by lia.
    rewrite Z.div_add, Z.add_1_r, Z.odd_succ, <-Z.negb_odd by done. by destruct (Z.odd _).
  - assert (n < Z.to_nat EQ_ENTRIES)%nat as Hs by (pose proof (Nat.mod_upper_bound n (Z.to_nat EQ_ENTRIES) ltac:(lia)); unfold n in *; lia).
    rewrite Z.div_small by lia. done.
Qed.

Lemma take_entry_spec n : eq_taken s = None -> n = length (eq_reported s) ->
  take_entry (eq_ring s) (eq_index s) =
    if decide (n < length (eq_posted s))%nat then
      if Z.of_nat n + 1 <=? U32_MAX then Ret (Some (n mod Z.to_nat EQ_ENTRIES)%nat, Z.of_nat n + 1) else Panic "attempt to add with overflow"
    else Ret (None, Z.of_nat n).
Proof.
  intros Ht En. unfold take_entry. rewrite (qi_index _ I), Ht, Z.add_0_r, <-En. rewrite slot_of.
  destruct (qi_prefix _ I) as [rest Hr]. destruct (decide (n < length (eq_posted s))%nat) as [Hn|Hn].
  - destruct (lookup_lt_is_Some_2 (eq_posted s) n Hn) as [e He]. unfold arr_get. rewrite (slot_full n e) by (done || lia). cbn [expect mbind outcome_bind].
    pose proof (qi_events _ I) as HF. rewrite eqe_owner_of by by eapply Forall_lookup_1 in HF. rewrite round_odd.
    destruct (_ <=? _); by destruct (Z.odd _).
  - assert (n = length (eq_posted s)) as En' by (rewrite Hr, length_app in *; lia).
    destruct (lookup_lt_is_Some_2 (eq_ring s) (n mod Z.to_nat EQ_ENTRIES)) as [x Hx].
    { rewrite (qi_length _ I). apply Nat.mod_upper_bound, Nat.neq_0_lt_0, entries_pos. }
    unfold arr_get. rewrite Hx. cbn [expect mbind outcome_bind]. rewrite En' in Hx |- *. rewrite (slot_old _ Hx), Z.eqb_refl. done.
Qed.
End taking.

(** ** Steps *)

Lemma slot_holds_post l e slot slot' entry : slot = (length l mod Z.to_nat EQ_ENTRIES)%nat -> slot' <> slot -> (slot' < Z.to_nat EQ_ENTRIES)%nat ->
  slot_holds l slot' entry -> slot_holds (l ++ [e]) slot' entry.
Proof.
  intros -> N Hs [(k & e' & Hk & Hm & Hl & ->)|[Hl ->]].
  - left. exists k, e'. split_and!; [by apply lookup_app_l_Some|done| |done]. rewrite length_app. cbn.
    destruct (decide (length l = k + Z.to_nat EQ_ENTRIES)%nat) as [E|]; [|lia]. exfalso. apply N. rewrite E, <-Hm.
    by rewrite <-(Nat.mul_1_l (Z.to_nat EQ_ENTRIES)) at 2; rewrite Nat.Div0.mod_add.
  - right. split; [|done]. rewrite length_app. cbn. destruct (decide (length l = slot')) as [<-|]; [|lia]. by rewrite Nat.mod_small in N.
Qed.

Lemma post_free s : eq_inv s -> (Z.of_nat (length (eq_posted s)) - Z.land (eq_doorbell s) 0xffffff) mod 2 ^ 24 < EQ_ENTRIES ->
  exists acked : nat, (acked <= length (eq_reported s))%nat /\ (length (eq_posted s) < acked + Z.to_nat EQ_ENTRIES)%nat /\
    Z.land (eq_doorbell s) 0xffffff = Z.of_nat acked mod 2 ^ 24.
Proof.
  intros I Hg. destruct (qi_acked _ I) as (acked & Ha & Hp & Hd). exists acked. split_and!; [done| |done].
  rewrite Hd, Zminus_mod_idemp_r in Hg. pose proof (prefix_length _ _ (qi_prefix _ I)).
  rewrite Z.mod_small in Hg; unfold EQ_ENTRIES in *; lia.
Qed.

#[local] Arguments Z.to_nat : simpl never.

Lemma ret_pair {X Y} (a c : X) (b d : Y) : Ret (a, b) = Ret (c, d) -> a = c /\ b = d.
Proof. by intros [= -> ->]. Qed.

Lemma eq_step_inv s s' : eq_inv s -> eq_step s s' -> eq_inv s'.
Proof.
  intros I St. revert I. destruct St as [s0 e slot He Hs Hg|s0 slot index Ht E|s0 slot entry Ht E|s0 arm Ht]; intros I; pose proof entries_pos as HN.
  - destruct (post_free _ I Hg) as (acked & Ha & Hp & Hd). pose proof (prefix_length _ _ (qi_prefix _ I)). split; cbn; try apply I.
    + rewrite length_insert. apply I.
    + apply Forall_app. split; [apply I|by constructor].
    + intros slot' entry Hx. destruct (decide (slot' = slot)) as [->|N].
      * rewrite list_lookup_insert_eq in Hx by (rewrite (qi_length _ I), Hs; apply Nat.mod_upper_bound; lia). injection Hx as <-.
        left. exists (length (eq_posted s0)), e. split_and!; [by apply list_lookup_middle|done| |done]. rewrite length_app. cbn. lia.
      * rewrite list_lookup_insert_ne in Hx by done. eapply slot_holds_post; [exact Hs|done| |by apply I].
        rewrite <-(qi_length _ I). by eapply lookup_lt_Some.
    + apply prefix_app_r, I.
    + intros slot' Ht. rewrite length_app. destruct (qi_taken _ I _ Ht). split; [done|lia].
    + exists acked. rewrite length_app. cbn. split_and!; [done|lia|done].
  - rewrite (take_entry_spec _ I _ Ht eq_refl) in E. pose proof (prefix_length _ _ (qi_prefix _ I)).
    destruct (decide _) as [Hn|Hn]; [destruct (_ <=? _); [|discriminate E]|]; apply ret_pair in E as [<- <-];
      (split; cbn [eq_ring eq_index eq_doorbell eq_taken eq_posted eq_reported];
       [apply (qi_length _ I)|apply (qi_events _ I)|apply (qi_slots _ I)|apply (qi_prefix _ I)|lia| |apply (qi_acked _ I)]); intros slot Hs.
    + apply (inj Some) in Hs as <-. split; [reflexivity|exact Hn].
    + discriminate Hs.
  - destruct (qi_taken _ I _ Ht) as [-> Hn]. destruct (lookup_lt_is_Some_2 (eq_posted s0) _ Hn) as [e He].
    unfold arr_get in E. rewrite (slot_full _ I _ e) in E by (done || lia). injection E as <-.
    pose proof (qi_events _ I) as HF. assert (length e = 31%nat) as Hl by by eapply Forall_lookup_1 in HF.
    assert (eqe_event (eqe_of (length (eq_reported s0)) e) = e) as Ee by (unfold eqe_event, eqe_of; by rewrite <-Hl, take_app_length).
    destruct (qi_prefix _ I) as [rest Hr]. split; cbn; rewrite ?Ee; try apply I.
    + rewrite Hr in He. rewrite lookup_app_r, Nat.sub_diag in He by lia. destruct rest as [|e' rest]; [done|]. injection He as ->.
      exists rest. by rewrite Hr, <-app_assoc.
    + rewrite length_app, (qi_index _ I), Ht. cbn. lia.
    + done.
    + destruct (qi_acked _ I) as (acked & Ha & Hp & Hd). exists acked. rewrite length_app. split_and!; [lia|done..].
  - split; cbn; try apply I. pose proof (prefix_length _ _ (qi_prefix _ I)).
    exists (length (eq_reported s0)). destruct (qi_acked _ I) as (acked & Ha & Hp & _). split_and!; [lia..|].
    assert (eq_index s0 = Z.of_nat (length (eq_reported s0))) as -> by (rewrite (qi_index _ I), Ht; lia). apply doorbell_low. lia.
Qed.

Lemma eq_start_inv : eq_inv eq_start.
Proof.
  split; cbn [eq_ring eq_index eq_doorbell eq_taken eq_posted eq_reported eq_start length].
  - by rewrite length_replicate.
  - constructor.
  - intros slot entry [-> _]%lookup_replicate_1. right. split; [cbn; lia|done].
  - done.
  - done.
  - done.
  - exists 0%nat. split_and!; [lia|lia|done].
Qed.

Lemma eq_steps_inv s : rtc eq_step eq_start s -> eq_inv s.
Proof.
  intros Hr. pose proof eq_start_inv as I. revert Hr I. generalize eq_start. induction 1 as [|s1 s2 s3 Hs _ IH]; [done|]. eauto using eq_step_inv.
Qed.

(** ** Handling events *)

Lemma handle_events_spec rest : forall s fuel reported handled, eq_inv s -> eq_taken s = None -> eq_posted s = eq_reported s ++ rest ->
  Z.of_nat (length (eq_posted s)) <= U32_MAX -> (length rest < fuel)%nat ->
  exists entries, handle_events fuel (eq_ring s) (eq_index s) reported handled =
    Ret (Some (reported ++ entries, Z.of_nat (length (eq_posted s)), doorbell (Z.of_nat (length (eq_posted s))) true, handled + Z.of_nat (length rest))) /\
    eqe_event <$> entries = rest.
Proof.
  induction rest as [|e rest IH]; intros s fuel reported handled I Ht Hp Hu Hf; (destruct fuel as [|fuel]; [cbn in Hf; lia|]);
    cbn [handle_events]; unfold consume_entry; rewrite (take_entry_spec _ I _ Ht eq_refl).
  - rewrite app_nil_r in Hp. rewrite decide_False by (rewrite Hp; lia). cbn. exists []. by rewrite app_nil_r, Hp, Z.add_0_r.
  - assert (length (eq_reported s) < length (eq_posted s))%nat as Hn by (rewrite Hp, length_app; cbn; lia).
    rewrite decide_True by done. rewrite (proj2 (Z.leb_le _ _)) by lia. cbn [mbind outcome_bind].
    assert (eq_posted s !! length (eq_reported s) = Some e) as He by (rewrite Hp; by apply list_lookup_middle).
    unfold arr_get. rewrite (slot_full _ I _ e) by (done || lia). cbn [expect mbind outcome_bind].
    set (n := length (eq_reported s)) in *. set (entry := eqe_of n e).
    set (s1 := mkEq (eq_ring s) (Z.of_nat n + 1) (eq_doorbell s) (Some (n mod Z.to_nat EQ_ENTRIES)%nat) (eq_posted s) (eq_reported s)).
    set (s2 := mkEq (eq_ring s) (Z.of_nat n + 1) (eq_doorbell s) None (eq_posted s) (eq_reported s ++ [eqe_event entry])).
    assert (eq_inv s1) as I1.
    { apply (eq_step_inv s); [done|]. apply eq_take; [done|]. rewrite (take_entry_spec _ I _ Ht eq_refl). fold n.
      rewrite decide_True by done. by rewrite (proj2 (Z.leb_le _ _)) by lia. }
    assert (eq_inv s2) as I2.
    { apply (eq_step_inv s1); [done|]. apply (eq_read s1 (n mod Z.to_nat EQ_ENTRIES)%nat); [done|]. unfold arr_get. cbn.
      by rewrite (slot_full _ I _ e) by (done || lia). }
    assert (eqe_event entry = e) as Ee.
    { pose proof (qi_events _ I) as HF. eapply Forall_lookup_1 in HF; [|exact He]. cbn in HF. unfold entry, eqe_event, eqe_of. by rewrite <-HF, take_app_length. }
    destruct (IH s2 fuel (reported ++ [entry]) (handled + 1) I2 eq_refl) as (entries & E & Hm); cbn; rewrite ?Ee.
    + by rewrite Hp, <-app_assoc.
    + done.
    + cbn in Hf. lia.
    + exists (entry :: entries). cbn [fmap list_fmap]. cbn in E. rewrite Ee. rewrite E, <-app_assoc, Hm. cbn [app length]. split; [|done].
      by replace (handled + 1 + Z.of_nat (length rest)) with (handled + Z.of_nat (S (length rest))) by lia.
Qed.

(** C30 The driver handles the events of the adapter in order, each once, and misses none,
    while the adapter writes new ones into the ring: in every state that adapter and driver reach, in whatever order
    they write, take, read and ring, the events handled so far are the first ones posted, and at most 4096 are
    waiting.  A run of the interrupt handler then handles exactly the waiting ones in order,
    returns their number and acknowledges all with the doorbell. *)
Theorem events_in_order s : rtc eq_step eq_start s ->
  eq_reported s `prefix_of` eq_posted s /\ (length (eq_posted s) <= length (eq_reported s) + Z.to_nat EQ_ENTRIES)%nat /\
  (eq_taken s = None -> Z.of_nat (length (eq_posted s)) <= U32_MAX ->
   exists entries, handle_events (S (Z.to_nat EQ_ENTRIES)) (eq_ring s) (eq_index s) [] 0 =
     Ret (Some (entries, Z.of_nat (length (eq_posted s)), doorbell (Z.of_nat (length (eq_posted s))) true, Z.of_nat (length entries))) /\
     eq_posted s = eq_reported s ++ (eqe_event <$> entries)).
Proof.
  intros I%eq_steps_inv. destruct (qi_acked _ I) as (acked & Ha & Hp & _). split_and!; [apply I|lia|]. intros Ht Hu.
  destruct (qi_prefix _ I) as [rest Hr]. destruct (handle_events_spec rest s (S (Z.to_nat EQ_ENTRIES)) [] 0 I Ht Hr Hu) as (entries & E & Hm).
  - rewrite Hr, length_app in Hp. lia.
  - exists entries. rewrite E, Hm. split; [|done]. rewrite <-Hm, length_fmap. done.
Qed.

(** Port 1 went down. *)
Definition port_down : EqEvent := [0; 9; 0; 1; 0; 0; 0; 0; 0; 0; 0; 0; 16] ++ replicate 18 0.
Definition eq_one : EqState := mkEq (<[0%nat := eqe_of 0 port_down]> (eq_ring eq_start)) 0 (doorbell 0 true) None [port_down] [].

Lemma eq_one_reached : rtc eq_step eq_start eq_one.
Proof.
  apply rtc_once. apply (eq_post eq_start port_down 0); [reflexivity| |vm_compute; reflexivity].
  cbn [eq_posted eq_start length]. by rewrite Nat.Div0.mod_0_l.
Qed.

Lemma events_in_order_witness : exists entries, eqe_event <$> entries = [port_down] /\
  handle_events (S (Z.to_nat EQ_ENTRIES)) (eq_ring eq_one) 0 [] 0 = Ret (Some (entries, 1, doorbell 1 true, Z.of_nat (length entries))).
Proof.
  destruct (events_in_order eq_one eq_one_reached) as (_ & _ & Hh).
  destruct (Hh eq_refl ltac:(vm_compute; discriminate)) as (entries & E & Hp). exists entries. split; [symmetry; exact Hp|exact E].
Defined.
