(* ===== verification/HcaUverbs.v ===== *)
(** * The system call of the verbs, and what it can do *)

From S2P Require Import Prelude Errno Intervals Dram FrameAlloc Paging Vma Vmm Bytes Verbs HcaLayout HcaHw.
From S2P Require Import HcaIcm HcaDev HcaRun HcaPort.
From S2P Require Import VmmProofs.
From S2P Require Import HcaIsolation.

Open Scope Z_scope.

(** * The system call of the verbs
      ([os/kernel/src/device/infiniband/uverbs.rs], [uverbs_cmd.rs], [os/kernel/src/syscall/sys_uverbs.rs])

    A process passes a command, a buffer with the request and a buffer for the response.  The
    kernel copies the request from the memory of the process, runs the verb on the device and
    copies the response back.  Requests and responses are the bytes of [repr(C)] structs; the bytes between their
    fields and the layout of the one struct without [repr(C)] are the choice of the compiler, here
    parameters.  The list of devices has one device, with handle 1. *)

(** ** Commands and buffers *)

(* [os/library/rdma/src/uverbs_uapi.rs:6-36] UverbsCmd *)
Inductive UverbsCmd :=
| CmdQueryDevice | CmdQueryPort | CmdQueryDevices | CmdOpenDevice | CmdAllocPd | CmdDeallocPd | CmdCreateCq | CmdDestroyCq
| CmdCreateQp | CmdModifyQp | CmdQueryQp | CmdDestroyQp | CmdRegMr | CmdDeregMr | CmdSetMrSize.

(** The derived [UverbsCmd::from_repr] *)
Definition cmd_from_repr (n : Z) : option UverbsCmd :=
  match n with
  | 1 => Some CmdQueryDevice | 2 => Some CmdQueryPort | 3 => Some CmdQueryDevices | 4 => Some CmdOpenDevice | 5 => Some CmdAllocPd
  | 6 => Some CmdDeallocPd | 7 => Some CmdCreateCq | 8 => Some CmdDestroyCq | 9 => Some CmdCreateQp | 10 => Some CmdModifyQp
  | 11 => Some CmdQueryQp | 12 => Some CmdDestroyQp | 13 => Some CmdRegMr | 14 => Some CmdDeregMr | 15 => Some CmdSetMrSize
  | _ => None
  end.

(* [os/library/rdma/src/uverbs_uapi.rs:47-52] UserSlice *)
Record UserSlice := mkSlice { us_address : Z; us_size : Z }.

(* os/kernel/src/device/infiniband/mlx4/mod.rs: device_in_range *)
Definition device_in_range (handle : Z) : bool := (1 <=? handle) && (handle <=? 10).

(** ** Bytes of structs *)

(** A little-endian number of [n] bytes at offset [off]. *)
Definition le_at (bs : list Z) (off n : nat) : Z := be_value (rev (slice bs off n)).
Definition le_bytes (n : nat) (v : Z) : list Z := rev (be_bytes n v).
(** An [i32] *)
Definition i32_at (bs : list Z) (off : nat) : Z := let v := le_at bs off 4 in if v <? 2 ^ 31 then v else v - 2 ^ 32.

(** A byte that is not the code of a variant is undefined behaviour: the code has no meaning then. *)
Definition undefined {B} : outcome B := Panic "undefined behaviour: invalid enum value".

Definition qp_type_of (b : Z) : outcome QueuePairType := match b with 0 => Ret RC | 1 => Ret UC | 2 => Ret UD | _ => undefined end.
Definition qp_state_of (b : Z) : outcome QueuePairState :=
  match b with 0 => Ret StReset | 1 => Ret StInit | 2 => Ret ReadyToReceive | 3 => Ret ReadyToSend | 4 => Ret SQD | _ => undefined end.
Definition mtu_of (b : Z) : outcome Z := if (1 <=? b) && (b <=? 5) then Ret b else undefined.

(* [os/library/rdma/src/uverbs_uapi.rs:148-173] CreateQpRequest *)
Definition qp_shape_of (bs : list Z) : QpShape :=
  {| sh_buffer := le_at bs 24 8; sh_doorbell := le_at bs 32 8; sh_log_sq_bb_count := le_at bs 40 1; sh_log_sq_stride := le_at bs 41 1;
     sh_log_rq_wqe_count := le_at bs 44 1; sh_log_rq_stride := le_at bs 45 1 |}.

(** [QueuePairAttr] with its two [AddressHandleAttr], 88 bytes. *)
(* [os/library/rdma/src/ib_core.rs:133-186] AddressHandleAttr, QueuePairAttr *)
Definition qp_attr_of (bs : list Z) : outcome QueuePairAttr :=
  state ← qp_state_of (le_at bs 0 1);
  mtu ← mtu_of (le_at bs 1 1);
  Ret {| a_state := state; path_mtu := mtu; qkey := le_at bs 4 4; dest_qp_num := le_at bs 16 4; qp_access_flags := i32_at bs 20;
         ah_dlid := le_at bs 42 2; ah_sl := le_at bs 44 1; alt_dlid := le_at bs 66 2; pkey_index := le_at bs 72 2;
         alt_pkey_index := le_at bs 74 2; max_rd_atomic := le_at bs 76 1; max_dest_rd_atomic := le_at bs 77 1;
         min_rnr_timer := le_at bs 78 1; port_num := le_at bs 79 1; timeout := le_at bs 80 1; rnr_retry := le_at bs 82 1 |}.

(** The size of a request. *)
Definition request_size (cmd : UverbsCmd) : Z :=
  match cmd with
  | CmdQueryPort => 1 | CmdAllocPd => 4 | CmdDeallocPd | CmdDestroyCq | CmdDestroyQp | CmdDeregMr => 8
  | CmdRegMr => 32 | CmdCreateCq => 24 | CmdCreateQp => 48 | CmdModifyQp => 100
  | _ => 0
  end.

(** ** State *)

(* [os/kernel/src/device/infiniband/mlx4/mod.rs:91-113] Mlx4Device *)
Record Driver (C A : Type) := mkDriver { dr_world : World C A; fw_major : Z; fw_minor : Z; fw_sub_minor : Z; dr_ports : list Port }.
Arguments mkDriver {C A}.
Arguments dr_world {C A}. Arguments fw_major {C A}. Arguments fw_minor {C A}. Arguments fw_sub_minor {C A}. Arguments dr_ports {C A}.

Section uverbs.
Context {C A : Type} `{Card C} `{FrameAllocator A}.
Notation World := (World C A).
Notation Driver := (Driver C A).

Definition set_world (w : World) (d : Driver) : Driver := mkDriver w (fw_major d) (fw_minor d) (fw_sub_minor d) (dr_ports d).
Definition set_ports (l : list Port) (d : Driver) : Driver := mkDriver (dr_world d) (fw_major d) (fw_minor d) (fw_sub_minor d) l.

(** Code that changes the driver and fails with a number for the process. *)
Definition U (B : Type) : Type := Driver -> outcome (result Errno B * Driver).
#[global] Instance u_ret : MRet U := fun B b d => Ret (Ok b, d).
#[global] Instance u_bind : MBind U := fun B D f m d =>
  '(r, d) ← m d;
  match r with Ok b => f b d | Err e => Ret (Err e, d) end.

Definition ufail {B} (e : Errno) : U B := fun d => Ret (Err e, d).
Definition ulift {B} (m : outcome B) : U B := fun d => b ← m; Ret (Ok b, d).
Definition uguard (b : bool) (e : Errno) : U unit := if b then ufail e else mret tt.

(** A verb; its error is logged and becomes [EINVAL]. *)
(* os/kernel/src/device/infiniband/uverbs.rs: log_error_and_invalid *)
Definition or_invalid {B} (m : M World B) : U B := fun d =>
  '(r, w) ← m (dr_world d);
  Ret (match r with Ok b => Ok b | Err _ => Err EINVAL end, set_world w d).

(** ** Copying *)

(** Bytes at user addresses; the pages were found mapped before. *)
Fixpoint load (s : VirtualAddressSpace) (mem : Z -> Z) (a : Z) (n : nat) : outcome (list Z) :=
  match n with
  | O => Ret []
  | S n' =>
      p ← paging_translate (page_tables s) a;
      p ← expect p "page fault";
      bs ← load s mem (a + 1) n';
      Ret (mem p :: bs)
  end.
Fixpoint store (s : VirtualAddressSpace) (a : Z) (bs : list Z) (mem : Z -> Z) : outcome (Z -> Z) :=
  match bs with
  | [] => Ret mem
  | b :: rest =>
      p ← paging_translate (page_tables s) a;
      p ← expect p "page fault";
      store s (a + 1) rest (fun x => if x =? p then b else mem x)
  end.

(* [os/kernel/src/device/infiniband/uverbs.rs:119-139] copy_from_user *)
Definition copy_from_user (pid : Z) (user_in : UserSlice) (size : Z) : U (list Z) := fun d =>
  if (us_address user_in =? 0) || (us_size user_in <? size) then Ret (Err EINVAL, d) else
  let s := w_spaces (dr_world d) pid in
  src ← virt_addr_new (us_address user_in);
  r ← copy_bytes_user s src size;
  match r with
  | Err _ => Ret (Err EFAULT, d)
  | Ok _ => bs ← load s (w_mem (dr_world d)) src (Z.to_nat size); Ret (Ok bs, d)
  end.

(** [copy_slice_to_user] is the same and returns the number of elements. *)
(* [os/kernel/src/device/infiniband/uverbs.rs:142-183] copy_to_user, copy_slice_to_user *)
Definition copy_to_user (pid : Z) (user_out : UserSlice) (resp : list Z) (count : Z) : U Z := fun d =>
  let size := Z.of_nat (length resp) in
  if (us_address user_out =? 0) || (us_size user_out <? size) then Ret (Err EINVAL, d) else
  let w := dr_world d in
  let s := w_spaces w pid in
  dst ← virt_addr_new (us_address user_out);
  r ← copy_bytes_user s dst size;
  match r with
  | Err _ => Ret (Err EFAULT, d)
  | Ok _ => mem ← store s dst resp (w_mem w); Ret (Ok count, set_world (set_mem mem w) d)
  end.

(** ** Commands *)

(** [padding i]: the byte at offset [i] of a struct that belongs to no field; [device_attr]: the bytes of a [DeviceAttr]. *)
Context (padding : Z -> Z) (device_attr : Z -> Z -> Z -> Z -> list Z).

(** [get_mut(device_handle_to_idx(device_handle)).ok_or(DEVICE_NOT_FOUND)] *)
Definition with_device {B} (handle : Z) (m : M World B) : M World B :=
  _ ← reject (negb (handle =? 1)) "Device not found";
  m.

(* [os/kernel/src/device/infiniband/uverbs_cmd.rs:16-24] uverbs_open_device *)
Definition uverbs_open_device (handle pid : Z) : M World (list Z) :=
  ctx ← with_device handle (open pid);
  mret (le_bytes 4 (ctx_handle ctx) ++ (padding <$> [4; 5; 6; 7]) ++ le_bytes 8 (page_address (doorbell_page ctx)) ++
        le_bytes 8 (page_address (blueflame_page ctx))).

(* os/kernel/src/device/infiniband/mlx4/mod.rs: Mlx4Device::query_device *)
Definition query_device (handle : Z) : U (list Z) := fun d =>
  if negb (handle =? 1) then Ret (Err EINVAL, d) else
  count ← expect (if Z.of_nat (length (dr_ports d)) <? 256 then Some (Z.of_nat (length (dr_ports d))) else None)
            "called `Result::unwrap()` on an `Err` value";
  Ret (Ok (device_attr (fw_major d) (fw_minor d) (fw_sub_minor d) count), d).

Definition port_attr_bytes (a : PortAttr) : list Z :=
  le_bytes 4 (pa_state a) ++ [max_mtu a; active_mtu a] ++ (padding <$> [6; 7]) ++ le_bytes 4 (port_cap_flags a) ++
  le_bytes 2 (lid a) ++ le_bytes 2 (sm_lid a) ++ [lmc a; link_layer a; phys_state a] ++ (padding <$> [19]).

(** Checking the error buffer of the adapter only reads and logs. *)
(* [os/kernel/src/device/infiniband/mlx4/mod.rs:409-420] Mlx4Device::query_port *)
Definition query_port (handle number : Z) : U (list Z) := fun d =>
  if negb (handle =? 1) then Ret (Err EINVAL, d) else
  match (if number =? 0 then None else dr_ports d !! Z.to_nat (number - 1)) with
  | None => Ret (Err EINVAL, d)
  | Some p =>
      '(r, w) ← port_query p (dr_world d);
      match r with
      | Err _ => Ret (Err EINVAL, set_world w d)
      | Ok (r, p) =>
          Ret (match r with Ok a => Ok (port_attr_bytes a) | Err _ => Err EINVAL end,
               set_ports (<[Z.to_nat (number - 1) := p]> (dr_ports d)) (set_world w d))
      end
  end.

(* [os/kernel/src/device/infiniband/uverbs_cmd.rs:38-48] uverbs_register_mem_region *)
Definition uverbs_register_mem_region (handle pid : Z) (req : list Z) : M World (list Z) :=
  md ← with_device handle (create_mr pid (le_at req 0 4) (le_at req 4 4) (le_at req 16 8) (le_at req 24 8) (i32_at req 8));
  mret (le_bytes 4 (mr_handle md) ++ le_bytes 4 (mr_lkey md) ++ le_bytes 4 (mr_rkey md)).

(* [os/kernel/src/device/infiniband/uverbs_cmd.rs:50-58] uverbs_create_cq *)
Definition uverbs_create_cq (handle pid : Z) (req : list Z) : M World (list Z) :=
  n ← with_device handle (create_cq pid (le_at req 0 4) (le_at req 4 4) (le_at req 8 8) (le_at req 16 8));
  mret (le_bytes 4 n).

(* [os/kernel/src/device/infiniband/uverbs_cmd.rs:60-78] uverbs_create_qp *)
Definition uverbs_create_qp (handle pid : Z) (typ : QueuePairType) (req : list Z) : M World (list Z) :=
  n ← with_device handle (create_qp pid (le_at req 0 4) (le_at req 4 4) typ (le_at req 8 4) (le_at req 12 4) (qp_shape_of req));
  mret (le_bytes 4 n).

(* [os/kernel/src/device/infiniband/uverbs_cmd.rs:80-90] uverbs_modify_qp *)
Definition uverbs_modify_qp (handle pid : Z) (attr : QueuePairAttr) (req : list Z) : M World unit :=
  with_device handle (modify_qp pid (le_at req 0 4) (le_at req 4 4) attr (le_at req 96 4)).

(* [os/kernel/src/device/infiniband/uverbs_cmd.rs:92-100] uverbs_destroy *)
Definition uverbs_destroy (handle pid : Z) (destroy_spec_fn : Z -> Z -> Z -> M World unit) (req : list Z) : M World unit :=
  with_device handle (destroy_spec_fn pid (le_at req 0 4) (le_at req 4 4)).

(* [os/kernel/src/device/infiniband/uverbs_cmd.rs:102-108] uverbs_alloc_pd *)
Definition uverbs_alloc_pd (handle pid : Z) (req : list Z) : M World (list Z) :=
  pd ← with_device handle (alloc_pd pid (le_at req 0 4));
  mret (le_bytes 4 pd).

(* [os/kernel/src/device/infiniband/uverbs_cmd.rs:110-115] uverbs_dealloc_pd *)
Definition uverbs_dealloc_pd (handle pid : Z) (req : list Z) : M World unit :=
  with_device handle (dealloc_pd pid (le_at req 0 4) (le_at req 4 4)).

(** A handle for every device that fits; there is one. *)
(* os/kernel/src/device/infiniband/uverbs_cmd.rs: uverbs_query_devices *)
Definition uverbs_query_devices (max_len : Z) : list Z := if 1 <=? max_len then [1] else [].

(** A verb without and with a response. *)
Definition run_unit (m : M World unit) : U Z := _ ← or_invalid m; mret 0.
Definition run_resp (pid : Z) (user_out : UserSlice) (m : M World (list Z)) : U Z :=
  resp ← or_invalid m;
  copy_to_user pid user_out resp 0.

(* [os/kernel/src/device/infiniband/uverbs.rs:42-111] dispatch *)
Definition dispatch (pid handle : Z) (cmd : UverbsCmd) (user_in user_out : UserSlice) : U Z :=
  let copy_request := copy_from_user pid user_in (request_size cmd) in
  match cmd with
  | CmdQueryDevices =>
      let devices := uverbs_query_devices (us_size user_out / 8) in
      copy_to_user pid user_out (mjoin (le_bytes 8 <$> devices)) (Z.of_nat (length devices))
  | CmdQueryDevice => attr ← query_device handle; copy_to_user pid user_out attr 0
  | CmdQueryPort =>
      req ← copy_request;
      attr ← query_port handle (le_at req 0 1);
      copy_to_user pid user_out attr 0
  | CmdRegMr => req ← copy_request; run_resp pid user_out (uverbs_register_mem_region handle pid req)
  | CmdCreateCq => req ← copy_request; run_resp pid user_out (uverbs_create_cq handle pid req)
  | CmdCreateQp =>
      req ← copy_request;
      typ ← ulift (qp_type_of (le_at req 16 1));
      run_resp pid user_out (uverbs_create_qp handle pid typ req)
  | CmdModifyQp =>
      req ← copy_request;
      attr ← ulift (qp_attr_of (slice req 8 88));
      run_unit (uverbs_modify_qp handle pid attr req)
  | CmdDestroyCq => req ← copy_request; run_unit (uverbs_destroy handle pid destroy_cq req)
  | CmdDestroyQp => req ← copy_request; run_unit (uverbs_destroy handle pid destroy_qp req)
  | CmdDeregMr => req ← copy_request; run_unit (uverbs_destroy handle pid destroy_mr req)
  | CmdQueryQp | CmdSetMrSize => ufail ENOTSUP
  | CmdOpenDevice => run_resp pid user_out (uverbs_open_device handle pid)
  | CmdAllocPd => req ← copy_request; run_resp pid user_out (uverbs_alloc_pd handle pid req)
  | CmdDeallocPd => req ← copy_request; run_unit (uverbs_dealloc_pd handle pid req)
  end.

Definition requires_device_handle (cmd : UverbsCmd) : bool := match cmd with CmdQueryDevices => false | _ => true end.

(* [os/kernel/src/device/infiniband/uverbs.rs:18-40] uverbs_ctl *)
Definition uverbs_ctl (pid handle : Z) (cmd : UverbsCmd) (user_in user_out : UserSlice) : U Z :=
  _ ← uguard (requires_device_handle cmd && negb (device_in_range handle)) EINVAL;
  _ ← uguard (negb (requires_device_handle cmd) && negb (handle =? 0)) EINVAL;
  dispatch pid handle cmd user_in user_out.

(* [os/kernel/src/syscall/sys_uverbs.rs:4-24] sys_uverbs_ctl *)
Definition sys_uverbs_ctl (pid handle cmd in_address in_size out_address out_size : Z) (d : Driver) : outcome (Z * Driver) :=
  match cmd_from_repr cmd with
  | None => Ret (errno_to_isize EINVAL, d)
  | Some cmd =>
      '(r, d) ← uverbs_ctl pid handle cmd (mkSlice in_address in_size) (mkSlice out_address out_size) d;
      Ret (convert_syscall_result_to_ret_code r, d)
  end.
End uverbs.

(** * System calls of processes are verbs, and stay local

    Every call with a device runs the verb that its request encodes, and whatever a process passes,
    the call changes contexts of this process only and memory only in its response buffer. *)

(** ** Copying *)

Lemma store_frame s bs : forall a mem mem', store s a bs mem = Ret mem' ->
  forall x, mem' x <> mem x -> exists a', a <= a' < a + Z.of_nat (length bs) /\ paging_translate (page_tables s) a' = Ret (Some x).
Proof.
  induction bs as [|b bs IH]; intros a mem mem' E x Hx; cbn [store] in E; [by injection E as <-|].
  inv_bind E. inv_bind E. destruct a0 as [p|]; [|done]. injection E1 as ->.
  destruct (decide (mem' x = (if x =? a1 then b else mem x))) as [Ex|N].
  - destruct (Z.eqb_spec x a1) as [->|]; [|done]. exists a. cbn [length]. split; [lia|done].
  - destruct (IH _ _ _ E x N) as (a' & Ha & Ht). exists a'. cbn [length]. split; [lia|done].
Qed.

Section calls.
Context {C A : Type} `{Card C} `{FrameAllocator A}.
Context (padding : Z -> Z) (device_attr : Z -> Z -> Z -> Z -> list Z).
Notation World := (World C A).
Notation Driver := (Driver C A).
Implicit Types (d : Driver) (w : World).

(** The response went to the buffer of the process. *)
Definition responded (pid : Z) (out : UserSlice) w w' : Prop :=
  w_dev w' = w_dev w /\ w_card w' = w_card w /\ w_spaces w' = w_spaces w /\ w_frames w' = w_frames w /\
  forall x, w_mem w' x <> w_mem w x -> exists a, us_address out <= a < us_address out + us_size out /\
    first_usable_user_addr (w_spaces w pid) <= a <= last_usable_user_addr (w_spaces w pid) /\
    paging_translate (page_tables (w_spaces w pid)) a = Ret (Some x).

Lemma responded_refl pid out w : responded pid out w w.
Proof. done. Qed.

Lemma access_ok_range s a n : access_ok s a n = true -> first_usable_user_addr s <= a /\ a + n - 1 <= last_usable_user_addr s.
Proof.
  unfold access_ok, checked_add. destruct (n =? 0); [done|]. destruct (_ <=? _); [|done]. rewrite andb_true_iff, !Z.leb_le. lia.
Qed.

Lemma copy_to_user_spec pid out resp n d r d' : copy_to_user pid out resp n d = Ret (r, d') ->
  responded pid out (dr_world d) (dr_world d').
Proof.
  unfold copy_to_user. destruct ((us_address out =? 0) || _) eqn:Eg; [by intros [= <- <-]|].
  apply orb_false_iff in Eg as [_ Hs%Z.ltb_ge]. intros E. inv_bind E. inv_bind E.
  unfold virt_addr_new in E0. destruct (canonical _); [|done]. injection E0 as <-.
  destruct a0 as [[]|e]; [|by injection E as <- <-]. inv_bind E. injection E as <- <-. cbn. split_and!; try done.
  intros x Hx. destruct (store_frame _ _ _ _ _ E0 x Hx) as (b & Ha & Ht). exists b. cbn in Hs.
  unfold copy_bytes_user in E1. destruct (access_ok _ _ _) eqn:Ea; [|done]. apply access_ok_range in Ea.
  split_and!; (done || lia).
Qed.

(** ** Locality *)

Definition calls_ok {B} (pid : Z) (m : U (C := C) (A := A) B) : Prop := forall d r d', dev_ok (w_dev (dr_world d)) -> m d = Ret (r, d') ->
  keeps pid (dr_world d) (dr_world d').

(** The verb, then the response. *)
Definition served (pid : Z) (out : UserSlice) w w' : Prop := exists w1, keeps pid w w1 /\ responded pid out w1 w'.
Definition call_ok (pid : Z) (out : UserSlice) (m : U (C := C) (A := A) Z) : Prop := forall d r d',
  dev_ok (w_dev (dr_world d)) -> m d = Ret (r, d') -> served pid out (dr_world d) (dr_world d').

Lemma u_bind_inv {B D} (m : U (C := C) (A := A) B) (f : B -> U D) d r d' : (m ≫= f) d = Ret (r, d') ->
  (exists e, m d = Ret (Err e, d') /\ r = Err e) \/ exists b d1, m d = Ret (Ok b, d1) /\ f b d1 = Ret (r, d').
Proof.
  unfold mbind at 1, u_bind. intros E. inv_bind E. destruct a as [[b|e] d1]; [right; eauto|left]. injection E as <- <-. eauto.
Qed.

Lemma keeps_refl pid w : dev_ok (w_dev w) -> keeps pid w w.
Proof. intros I. by apply keeps_low. Qed.

Lemma calls_call pid out m : calls_ok pid m -> call_ok pid out m.
Proof. intros Hm d r d' I E. exists (dr_world d'). split; [by eapply Hm|apply responded_refl]. Qed.

Lemma call_bind {B} pid out (m : U B) (f : B -> U Z) : calls_ok pid m -> (forall b, call_ok pid out (f b)) -> call_ok pid out (m ≫= f).
Proof.
  intros Hm Hf d r d' I [(e & E & _)|(b & d1 & E & Ef)]%u_bind_inv.
  - exists (dr_world d'). split; [by eapply Hm|apply responded_refl].
  - pose proof (Hm _ _ _ I E) as K. destruct (Hf b _ _ _ (proj1 K) Ef) as (w1 & K1 & Hr). exists w1. split; [|done]. by eapply keeps_trans.
Qed.

Lemma calls_same {B} pid (m : U B) : (forall d r d', m d = Ret (r, d') -> dr_world d' = dr_world d) -> calls_ok pid m.
Proof. intros Hm d r d' I E. rewrite (Hm _ _ _ E). by apply keeps_refl. Qed.

Lemma copy_from_user_same p slice size d r d' : copy_from_user p slice size d = Ret (r, d') -> d' = d.
Proof.
  intros E. unfold copy_from_user in E. destruct (_ || _); [by injection E as <- <-|].
  inv_bind E. inv_bind E. destruct a0; [inv_bind E|]; by injection E as <- <-.
Qed.
Lemma calls_copy_from pid p slice size : calls_ok pid (copy_from_user p slice size).
Proof. apply calls_same. intros d r d' E. by rewrite (copy_from_user_same _ _ _ _ _ _ E). Qed.
Lemma calls_ulift {B} pid (m : outcome B) : calls_ok pid (ulift m).
Proof. apply calls_same. intros d r d' E. unfold ulift in E. inv_bind E. by injection E as <- <-. Qed.
Lemma calls_ret {B} pid (b : B) : calls_ok pid (mret b).
Proof. apply calls_same. by intros d r d' [= <- <-]. Qed.
Lemma calls_fail {B} pid e : calls_ok (B := B) pid (ufail e).
Proof. apply calls_same. by intros d r d' [= <- <-]. Qed.
Lemma calls_guard pid b e : calls_ok pid (uguard b e).
Proof. unfold uguard. destruct b; [apply calls_fail|apply calls_ret]. Qed.
Lemma calls_query_device pid h : calls_ok pid (query_device device_attr h).
Proof. apply calls_same. intros d r d' E. unfold query_device in E. destruct (negb _); [|inv_bind E]; by injection E as <- <-. Qed.

Lemma calls_or_invalid {B} pid (m : M World B) : (forall w, dev_ok (w_dev w) -> wp True m w (fun _ => keeps pid w)) -> calls_ok pid (or_invalid m).
Proof.
  intros Hm d r d' I E. unfold or_invalid in E. inv_bind E. destruct a as [r0 w1]. injection E as <- <-. cbn.
  exact (wp_run _ _ _ _ _ _ (Hm _ I) E0).
Qed.

Lemma low_port_query p : steps (S := World) low (port_query p).
Proof.
  assert (forall p, steps (S := World) low (query_single p)) as Hq by (intros q; unfold query_single; low_auto).
  unfold port_query. generalize ""%string as e, 5%nat as n. intros e n. revert e p.
  induction n as [|n IH]; intros e p; cbn [query_attempts]; low_auto; auto.
Qed.

Lemma calls_query_port pid h n : calls_ok pid (query_port padding h n).
Proof.
  intros d r d' I E. unfold query_port in E. destruct (negb _); [injection E as <- <-; by apply keeps_refl|].
  destruct (if n =? 0 then None else _) as [p|]; [|injection E as <- <-; by apply keeps_refl]. inv_bind E. destruct a as [r0 w1].
  pose proof (wp_run _ _ _ _ _ _ (low_port_query p _) E0) as L. destruct r0 as [[r0 p']|e]; injection E as <- <-; by apply keeps_low.
Qed.

Definition kept {B} (pid : Z) (m : M World B) : Prop := forall w, dev_ok (w_dev w) -> wp True m w (fun _ => keeps pid w).

Lemma kept_device {B} pid h (m : M World B) : kept pid m -> kept pid (with_device h m).
Proof. intros Hm w I. unfold with_device. wp_step. wp_step; [by apply keeps_refl|]. by apply Hm. Qed.
Lemma kept_map {B D} pid (m : M World B) (f : B -> D) : kept pid m -> kept pid (b ← m; mret (f b)).
Proof. intros Hm w I. wp_step. eapply mwp_mono; [by apply Hm|]. by intros [b|e] w' K; [wp_step|]. Qed.

Lemma call_resp pid out m : kept pid m -> call_ok pid out (run_resp pid out m).
Proof.
  intros Hm. apply call_bind; [by apply calls_or_invalid|]. intros resp d r d' I E. exists (dr_world d).
  split; [by apply keeps_refl|by eapply copy_to_user_spec].
Qed.
Lemma call_unit pid out m : kept pid m -> call_ok pid out (run_unit m).
Proof. intros Hm. apply call_bind; [by apply calls_or_invalid|]. intros _. apply calls_call, calls_ret. Qed.
Lemma call_copy pid out resp n : call_ok pid out (copy_to_user pid out resp n).
Proof. intros d r d' I E. exists (dr_world d). split; [by apply keeps_refl|by eapply copy_to_user_spec]. Qed.

Lemma call_request pid p slice n out (f : list Z -> U Z) : (forall req, call_ok pid out (f req)) ->
  call_ok pid out (copy_from_user p slice n ≫= f).
Proof. apply call_bind, calls_copy_from. Qed.

Lemma dispatch_ok pid h cmd i out : call_ok pid out (dispatch padding device_attr pid h cmd i out).
Proof.
  unfold dispatch. destruct cmd; try (apply calls_call, calls_fail); try apply call_copy; try (apply call_request; intros req).
  1: { apply call_bind; [apply calls_query_device|]. intros attr. apply call_copy. }
  1: { apply call_bind; [apply calls_query_port|]. intros attr. apply call_copy. }
  all: try (apply call_bind; [apply calls_ulift|intros x]); try apply call_resp; try apply call_unit; try apply kept_map; try apply kept_device.
  all: intros w I.
  all: eauto using keeps_open, keeps_alloc_pd, keeps_dealloc_pd, keeps_create_cq, keeps_destroy_cq, keeps_create_qp, keeps_modify_qp,
      keeps_destroy_qp, keeps_create_mr, keeps_destroy_mr.
Qed.

(** C9 Every system call of a process on the adapter, whatever command, device, addresses and sizes
    it passes and whatever its request holds, keeps the invariant of the driver and is local to the
    process: contexts and address spaces of other processes and the translation entries handed out before
    stay as they are, and beyond that memory changes only at bytes that the process itself has mapped, in user
    space, within the response buffer it passed. *)
Theorem system_call_isolated pid handle cmd in_address in_size out_address out_size d code d' :
  dev_ok (w_dev (dr_world d)) ->
  sys_uverbs_ctl padding device_attr pid handle cmd in_address in_size out_address out_size d = Ret (code, d') ->
  dev_ok (w_dev (dr_world d')) /\ exists w1, local pid (dr_world d) w1 /\ responded pid (mkSlice out_address out_size) w1 (dr_world d').
Proof.
  intros I E. assert (served pid (mkSlice out_address out_size) (dr_world d) (dr_world d')) as (w1 & [I1 L] & R).
  { unfold sys_uverbs_ctl in E. destruct (cmd_from_repr cmd) as [c|].
    - inv_bind E. destruct a as [r d1]. injection E as _ <-. revert E0. unfold uverbs_ctl.
      apply (call_bind pid); [apply calls_guard| |done]. intros _. apply (call_bind pid); [apply calls_guard|]. intros _. apply dispatch_ok.
    - injection E as _ <-. exists (dr_world d). split; [by apply keeps_refl|apply responded_refl]. }
  split; [|by exists w1]. destruct R as (-> & _). done.
Qed.

(** ** What a call does *)

(** The verb that a request asks for. *)
Definition requested (cmd : UverbsCmd) (req : list Z) : option Verb :=
  let context := le_at req 0 4 in
  match cmd with
  | CmdOpenDevice => Some VOpen
  | CmdAllocPd => Some (VAllocPd context)
  | CmdDeallocPd => Some (VDeallocPd context (le_at req 4 4))
  | CmdCreateCq => Some (VCreateCq context (le_at req 4 4) (le_at req 8 8) (le_at req 16 8))
  | CmdDestroyCq => Some (VDestroyCq context (le_at req 4 4))
  | CmdCreateQp =>
      match qp_type_of (le_at req 16 1) with
      | Ret typ => Some (VCreateQp context (le_at req 4 4) typ (le_at req 8 4) (le_at req 12 4) (qp_shape_of req))
      | Panic _ => None
      end
  | CmdModifyQp =>
      match qp_attr_of (slice req 8 88) with Ret attr => Some (VModifyQp context (le_at req 4 4) attr (le_at req 96 4)) | Panic _ => None end
  | CmdDestroyQp => Some (VDestroyQp context (le_at req 4 4))
  | CmdRegMr => Some (VCreateMr context (le_at req 4 4) (le_at req 16 8) (le_at req 24 8) (i32_at req 8))
  | CmdDeregMr => Some (VDestroyMr context (le_at req 4 4))
  | _ => None
  end.

Definition responds (cmd : UverbsCmd) : bool :=
  match cmd with CmdOpenDevice | CmdAllocPd | CmdCreateCq | CmdCreateQp | CmdRegMr => true | _ => false end.

(** How a call ends after the verb returned [r]. *)
Definition answered (pid : Z) (cmd : UverbsCmd) (out : UserSlice) (r : result string Z) (d1 : Driver) (o : outcome (result Errno Z * Driver)) : Prop :=
  match r with
  | Err _ => o = Ret (Err EINVAL, d1)
  | Ok k => if responds cmd then exists resp, take 4 resp = le_bytes 4 k /\ o = copy_to_user pid out resp 0 d1 else o = Ret (Ok 0, d1)
  end.

Lemma run_resp_spec {B} pid cmd out (m : M World B) enc (num : B -> Z) d r w1 : responds cmd = true ->
  (b ← m; mret (num b)) (dr_world d) = Ret (r, w1) -> (forall b, take 4 (enc b) = le_bytes 4 (num b)) ->
  answered pid cmd out r (set_world w1 d) (run_resp pid out (b ← with_device 1 m; mret (enc b)) d).
Proof.
  intros Hc E He. unfold run_resp, or_invalid, with_device. unfold mbind, u_bind, m_bind in *. cbn in *.
  destruct (m (dr_world d)) as [[[b|e] w2]|]; cbn in *; [..|done]; injection E as <- <-; cbn; [|done].
  rewrite Hc. by exists (enc b).
Qed.

Lemma run_unit_spec pid cmd out (m : M World unit) d r w1 : responds cmd = false ->
  (_ ← m; mret 0) (dr_world d) = Ret (r, w1) -> answered pid cmd out r (set_world w1 d) (run_unit (with_device 1 m) d).
Proof.
  intros Hc E. unfold run_unit, or_invalid, with_device. unfold mbind, u_bind, m_bind in *. cbn in *.
  destruct (m (dr_world d)) as [[[b|e] w2]|]; cbn in *; [..|done]; injection E as <- <-; cbn; [|done]. by rewrite Hc.
Qed.

Lemma m_bind_id (m : M World Z) w : (b ← m; mret b) w = m w.
Proof. unfold mbind, m_bind. cbn. destruct (m w) as [[[b|e] w1]|]; done. Qed.

Lemma le4_take k l : take 4 (le_bytes 4 k ++ l) = le_bytes 4 k.
Proof. unfold le_bytes. rewrite take_app_le by (rewrite length_rev, be_bytes_length; lia). apply take_ge. by rewrite length_rev, be_bytes_length. Qed.

Lemma dispatch_verb pid cmd i out req v d r w1 :
  requested cmd req = Some v -> (cmd <> CmdOpenDevice -> copy_from_user pid i (request_size cmd) d = Ret (Ok req, d)) ->
  run_verb pid v (dr_world d) = Ret (r, w1) ->
  answered pid cmd out r (set_world w1 d) (dispatch padding device_attr pid 1 cmd i out d).
Proof.
  intros Hv Hc E. unfold dispatch.
  assert (forall (f : list Z -> U Z), cmd <> CmdOpenDevice -> (copy_from_user pid i (request_size cmd) ≫= f) d = f req d) as Hb.
  { intros f N. unfold mbind, u_bind. by rewrite (Hc N). }
  assert (forall n, take 4 (le_bytes 4 n) = le_bytes 4 n) as Ht by (intros n; by rewrite <-(app_nil_r (le_bytes 4 n)) at 1; apply le4_take).
  assert (forall B (x : B) (f : B -> U Z), (ulift (Ret x) ≫= f) d = f x d) as Hl by done.
  destruct cmd; try done; cbn [requested] in Hv; cbv zeta in Hv |- *; try (rewrite Hb by done).
  6: destruct (qp_type_of _); [|done]; rewrite Hl.
  7: destruct (qp_attr_of _); [|done]; rewrite Hl.
  all: injection Hv as <-; cbn [run_verb] in E; unfold uverbs_open_device, uverbs_alloc_pd, uverbs_dealloc_pd, uverbs_create_cq,
    uverbs_create_qp, uverbs_register_mem_region, uverbs_modify_qp, uverbs_destroy.
  all: try (apply run_unit_spec; done).
  all: first [eapply run_resp_spec; [done|exact E|] | rewrite <-m_bind_id in E; eapply run_resp_spec; [done|exact E|]].
  all: intros; first [apply le4_take | apply Ht].
Qed.

(** C10 A system call on the device runs exactly the verb that the bytes of its request encode: for every
    command with a verb, if the request can be copied from the process and asks for the verb [v],
    and [v] returns, then the call returns.  An error of the verb becomes [EINVAL]; the number it returns
    is the first field of the response that is copied to the process, or the call returns 0.
    So a verb that succeeded is not undone when its response cannot be copied. *)
Theorem system_call_runs_verb pid n cmd in_address in_size out_address out_size req v d r w1 :
  cmd_from_repr n = Some cmd -> requested cmd req = Some v ->
  (cmd <> CmdOpenDevice -> copy_from_user pid (mkSlice in_address in_size) (request_size cmd) d = Ret (Ok req, d)) ->
  run_verb pid v (dr_world d) = Ret (r, w1) ->
  exists o, sys_uverbs_ctl padding device_attr pid 1 n in_address in_size out_address out_size d =
              ('(r', d') ← o; Ret (convert_syscall_result_to_ret_code r', d')) /\
            answered pid cmd (mkSlice out_address out_size) r (set_world w1 d) o.
Proof.
  intros Hn Hv Hc E. unfold sys_uverbs_ctl. rewrite Hn. eexists. split; [reflexivity|]. unfold uverbs_ctl.
  assert (requires_device_handle cmd = true) as Hd by (by destruct cmd). rewrite Hd. cbn [andb negb].
  change (uguard false EINVAL) with (mret tt : U (C := C) (A := A) unit).
  exact (dispatch_verb pid cmd (mkSlice in_address in_size) (mkSlice out_address out_size) req v d r w1 Hv Hc E).
Qed.

(** A process can make the kernel panic: a request buffer at an address that is not
    canonical, as a number in a register can be, panics in [VirtAddr::new] before the buffer is checked. *)
Theorem bad_request_address_panics pid handle address size d :
  device_in_range handle = true -> 2 ^ 47 <= address < 2 ^ 64 - 2 ^ 47 -> 4 <= size ->
  panics (sys_uverbs_ctl padding device_attr pid handle 5 address size 0 0 d).
Proof.
  intros Hh Ha Hs.
  assert (exists msg, copy_from_user pid (mkSlice address size) 4 d = Panic msg) as [msg E].
  { unfold copy_from_user. cbn. destruct (Z.eqb_spec address 0); [lia|]. destruct (Z.ltb_spec size 4); [lia|]. cbn. unfold virt_addr_new, canonical.
    destruct (Z.ltb_spec address (2 ^ 47)); [lia|]. destruct (Z.leb_spec (2 ^ 64 - 2 ^ 47) address); [lia|]. eexists. reflexivity. }
  exists msg. unfold sys_uverbs_ctl. cbn [cmd_from_repr]. unfold uverbs_ctl. cbn [requires_device_handle]. rewrite Hh. cbn [negb andb].
  assert ((copy_from_user pid (mkSlice address size) 4 ≫= fun req => run_resp pid (mkSlice 0 0) (uverbs_alloc_pd handle pid req)) d = Panic msg)
    as Hp by (unfold mbind at 1, u_bind; by rewrite E).
  unfold mbind at 1, outcome_bind. match goal with |- match ?x with _ => _ end = _ => change x with
    ((copy_from_user pid (mkSlice address size) 4 ≫= fun req => run_resp pid (mkSlice 0 0) (uverbs_alloc_pd handle pid req)) d) end.
  by rewrite Hp.
Qed.
End calls.
