(* ===== verification/HcaExample.v ===== *)
(** * An adapter and two processes

    A small adapter that keeps account of regions and queues, and a system of two processes with
    a few pages of memory each, for examples. *)

From S2P Require Import Prelude Errno Intervals Dram FrameAlloc Frames Paging PagingProofs Vma Vmm VmmLife Bytes Verbs HcaLayout HcaHw.
From S2P Require Import HcaIcm HcaDev HcaIsolation HcaRun HcaSystem HcaLedger HcaReach HcaModify HcaPort HcaUverbs.

Open Scope Z_scope.

(** ** The adapter *)

(** It refuses to give back or to show what it does not have. *)
Definition sim_refuses (cmd : Command) (s : Hw) : bool :=
  match c_op cmd with
  | QueryMpt | Hw2SwMpt => negb (bool_decide (is_Some (hw_mpts s !! c_mod cmd)))
  | Hw2SwCq => negb (bool_decide (is_Some (hw_cqs s !! c_mod cmd)))
  | _ => false
  end.

Definition sim_output (cmd : Command) (s : Hw) : Mailbox :=
  match c_op cmd with QueryMpt => MbMpt (default bf_new (hw_mpts s !! c_mod cmd)) | _ => MbEmpty end.

Definition sim_exec (cmd : Command) (s : Hw) : Reply * Hw :=
  if sim_refuses cmd s then (Done 0x0a 0 MbEmpty, s) else (Done 0 0 (sim_output cmd s), hw_effect cmd s).
#[global] Instance sim_card : Card Hw := {| card_exec := sim_exec |}.

#[global] Program Instance sim_laws : CardLaws Hw := {| hw := id |}.
Next Obligation.
  intros cmd c. cbn. unfold sim_exec. destruct (sim_refuses cmd c); eexists _, _, _, _; (split; [reflexivity|]; eexists; reflexivity).
Qed.
Next Obligation.
  intros cmd c status imm out c' E. cbn in E. unfold sim_exec in E. destruct (sim_refuses cmd c); by injection E as <- <- <- <-.
Qed.
Next Obligation.
  intros i e out c Hi. unfold id in Hi. cbn [card_exec sim_card]. unfold sim_exec, sim_refuses, sim_output. cbn [c_op c_mod].
  rewrite Hi, bool_decide_eq_true_2 by done. by eexists _, _, _.
Qed.

(** ** Two processes *)

Definition user_page : Z := USER_SPACE_START.

Definition ex_spaces : Z -> VirtualAddressSpace * FrameState := fun pid =>
  let s0 := mkVas [] (mkPaging 3 (5 + pid) (zero_table 3)) USER_SPACE_START (2 ^ 47 - 1) in
  match user_alloc_map_full (mkFrameState [mkNode (1000 * pid) 500] 500) s0 None 6 Heap tag_heap with
  | Ret (_, s, a) => (s, a)
  | Panic _ => (s0, example_frames)
  end.

(** Evaluated once. *)
Definition ex_space1 : VirtualAddressSpace := Eval vm_compute in (ex_spaces 1).1.
Definition ex_space2 : VirtualAddressSpace := Eval vm_compute in (ex_spaces 2).1.

(** A smaller adapter. *)
Definition ex_caps : Capabilities := {|
  log_max_qp_sz := 14; log2_rsvd_qps := 6; log2_rsvd_srqs := 6; num_rsvd_eqs := 60; log2_rsvd_cqs := 7; log2_rsvd_mtts := 4;
  log2_rsvd_mrws := 7; num_ports := 2; log_max_msg := 31; num_rsvd_uars := 8; uar_sz := 0; bf := true; num_rsvd_pds := 4; log_max_pd := 3;
  rdmarc_entry_sz := 32; qpc_entry_sz := 256; aux_entry_sz := 32; altc_entry_sz := 64; eqc_entry_sz := 64; cqc_entry_sz := 64;
  srq_entry_sz := 32; c_mpt_entry_sz := 64; mtt_entry_sz := 8; d_mpt_entry_sz := 64; max_icm_sz := 2 ^ 40 |}.

Definition ex_tables : IcmTables :=
  {| cq_table := Build_IcmTable 0 64 []; cq_cmpt_table := Build_IcmTable 0 64 []; qp_table := Build_IcmTable 0 256 [];
     qp_cmpt_table := Build_IcmTable 0 64 []; auxc_table := Build_IcmTable 0 32 []; altc_table := Build_IcmTable 0 64 [];
     rdmarc_table := Build_IcmTable 0 512 []; eq_table := Build_IcmTable 0 64 []; eq_cmpt_table := Build_IcmTable 0 64 [];
     srq_table := Build_IcmTable 0 32 []; srq_cmpt_table := Build_IcmTable 0 64 [];
     memory_regions := {| mtt_table := Build_IcmTable (2 ^ 30) 8 [mkIcm (Some 9000) (2 ^ 30) 64];
                          dmpt_table := Build_IcmTable 0 64 []; reserved_mtts := 16; mtt_offset := 0 |};
     mcg_table := Build_IcmTable 0 1024 [] |}.
Definition ex_uars : list UarPage := match init_uar_list ex_caps 0xe0000000 with Ret l => l | Panic _ => [] end.

Lemma ex_uars_init : init_uar_list ex_caps 0xe0000000 = Ret ex_uars.
Proof. vm_compute. reflexivity. Qed.

Definition ex_world0 : World Hw FrameState :=
  mkWorld (mkHw ∅ ∅ ∅) (fun _ => 0) (mkFrameState [mkNode 8000 500] 500) (fun p => if p =? 1 then ex_space1 else ex_space2)
    (new_device ex_caps (offsets_init ex_caps) ex_tables [] ex_uars).

(** Verbs one after the other, whatever each returns. *)
Fixpoint run_verbs {C A} `{Card C} `{FrameAllocator A} (l : list (Z * Verb)) : M (World C A) (list (result string Z)) :=
  match l with
  | [] => mret []
  | (pid, v) :: l' => r ← attempt (run_verb pid v); rs ← run_verbs l'; mret (r :: rs)
  end.

Definition ex_addr : Z := 2 ^ 40.
Definition ex_shape : QpShape := {| sh_buffer := ex_addr; sh_doorbell := ex_addr + 5 * 4096; sh_log_sq_bb_count := 4; sh_log_sq_stride := 6;
   sh_log_rq_wqe_count := 4; sh_log_rq_stride := 6 |}.

Definition ex_verbs : list (Z * Verb) :=
  [(1, VOpen); (2, VOpen); (1, VAllocPd 1); (2, VAllocPd 2); (1, VAllocPd 2);
   (1, VCreateCq 1 64 (ex_addr + 4096) (ex_addr + 5 * 4096)); (1, VCreateQp 1 4 RC 136 136 ex_shape);
   (2, VCreateMr 2 5 (ex_addr + 100) 5000 7)].

Lemma run_verbs_steps {C A} `{Card C} `{FrameAllocator A} l (w w' : World C A) rs : run_verbs l w = Ret (rs, w') -> rtc step w w'.
Proof.
  revert w w' rs. induction l as [|[pid v] l IH]; intros w w' rs E; cbn [run_verbs] in E; [by injection E as _ <-|].
  unfold mbind, m_bind, attempt in E. cbn in E. destruct (run_verb pid v w) as [[r w1]|] eqn:E1; [|done]. cbn in E.
  destruct (run_verbs l w1) as [[r2 w2]|] eqn:E2; [|done]. cbn in E.
  eapply rtc_l; [by eapply step_verb|]. eapply IH. rewrite E2. destruct r2; by injection E as _ <-.
Qed.

Definition ex_world : World Hw FrameState := final (run_verbs ex_verbs) ex_world0.

Lemma ex_runs : runs (run_verbs ex_verbs) ex_world0 = true.
Proof. vm_compute. reflexivity. Qed.

Lemma ex_steps : rtc step ex_world0 ex_world.
Proof. destruct (runs_final _ _ ex_runs) as [r E]. by eapply run_verbs_steps. Qed.

Lemma processes_isolated_witness :
  dev_ok (w_dev ex_world) /\ (forall w', run_verb 2 (VDestroyMr 2 128) ex_world = Ret (Ok 0, w') -> local 2 ex_world w').
Proof.
  destruct (processes_isolated ex_caps (offsets_init ex_caps) ex_tables [] 0xe0000000 ex_uars ex_world0 ex_world
    ex_uars_init eq_refl ex_steps) as (I & L & _).
  split; [exact I|]. intros w' E. exact (L _ _ _ _ E).
Defined.

(** ** Examples *)

Lemma run_verbs_hw_steps {C A} `{CardLaws C} `{FrameAllocator A} l (w w' : World C A) rs : run_verbs l w = Ret (rs, w') -> rtc hw_step w w'.
Proof.
  revert w w' rs. induction l as [|[pid v] l IH]; intros w w' rs E; cbn [run_verbs] in E; [by injection E as _ <-|].
  unfold mbind, m_bind, attempt in E. cbn in E. destruct (run_verb pid v w) as [[r w1]|] eqn:E1; [|done]. cbn in E.
  destruct (run_verbs l w1) as [[r2 w2]|] eqn:E2; [|done]. cbn in E.
  eapply rtc_l; [by eapply hw_step_verb|]. eapply IH. rewrite E2. destruct r2; by injection E as _ <-.
Qed.

Lemma ex_hw_steps : rtc hw_step ex_world0 ex_world.
Proof. destruct (runs_final _ _ ex_runs) as [r E]. by eapply run_verbs_hw_steps. Qed.

Lemma ex_hw0 : whw ex_world0 = mkHw ∅ ∅ ∅.
Proof. reflexivity. Qed.

Lemma ex_release : answer (release 1) ex_world = Some (Ok tt).
Proof. vm_compute. reflexivity. Qed.


Lemma ex_booted : booted 9000 ex_world0.
Proof.
  exists ex_caps, (offsets_init ex_caps), ex_tables, [], 0xe0000000, ex_uars. split; [apply ex_uars_init|]. split_and!; try done.
  exists []. done.
Qed.

Notation ex_region := (create_mr (C := Hw) (A := FrameState) 2 2 5 (ex_addr + 100) 5000 7).
Definition ex_md : MemoryRegionMetadata := {| mr_handle := 129; mr_lkey := 33024; mr_rkey := 33024 |}.

Lemma ex_region_ok : answer ex_region ex_world = Some (Ok ex_md).
Proof. vm_compute. reflexivity. Qed.

Definition phys_check (s : VirtualAddressSpace) (page : Z) (n : nat) : bool :=
  forallb (fun i => match get_phys s (page_address (page + i)) with Ret (Some p) => (0 <=? p) && (p <? 2 ^ 52) | _ => true end) (seqZ 0 (Z.of_nat n)).

Lemma phys_check_ok s page n : phys_check s page n = true -> phys_ok s page n.
Proof.
  intros Hc i p Hi E. unfold phys_check in Hc. rewrite forallb_forall in Hc.
  specialize (Hc i ltac:(apply list_elem_of_In, elem_of_seqZ; lia)). rewrite E in Hc. lia.
Qed.

Lemma ex_phys : phys_ok (w_spaces ex_world 2) ((ex_addr + 100) / PAGE_SIZE) 2.
Proof. apply phys_check_ok. vm_compute. reflexivity. Qed.

Lemma registered_region_reached_witness :
  exists e, hw_mpts (whw (final ex_region ex_world)) !! 129 = Some e /\ e PD = 5 /\
    exists p, region_reach (mtt_table (mr_table (w_dev (final ex_region ex_world)))) (w_mem (final ex_region ex_world)) e (ex_addr + 100) = Some p.
Proof.
  destruct (registered_region_reached 9000 ex_world0 ex_world 2 2 5 (ex_addr + 100) 5000 7 ex_md (final ex_region ex_world)
    (final ex_region ex_world) ex_booted ex_steps ltac:(vm_compute; discriminate) ltac:(vm_compute; discriminate) ex_phys
    (answer_final _ _ _ ex_region_ok) (rtc_refl _ _)) as (e & He & Hpd & _ & _ & _ & _ & _ & Hr).
  exists e. split; [exact He|]. split; [exact Hpd|]. specialize (Hr (ex_addr + 100)). rewrite decide_True in Hr by (vm_compute; split; congruence).
  destruct Hr as (p & _ & Hp). exists p. exact Hp.
Defined.

(** A ring of one page in the second page of process 1. *)
Notation ex_cq := (create_cq (C := Hw) (A := FrameState) 1 1 128 (ex_addr + 4096) (ex_addr + 5 * 4096)).

Lemma ex_cq_ok : answer ex_cq ex_world = Some (Ok 137).
Proof. vm_compute. reflexivity. Qed.
Lemma ex_phys_cq : phys_ok (w_spaces ex_world 1) ((ex_addr + 4096) / PAGE_SIZE) 1.
Proof. apply phys_check_ok. vm_compute. reflexivity. Qed.

Lemma completion_queue_reached_witness :
  exists q p, hw_cqs (whw (final ex_cq ex_world)) !! 137 = Some q /\
    paging_translate (page_tables (w_spaces ex_world 1)) (ex_addr + 4096 + 32) = Ret (Some p) /\
    buffer_reach (mtt_table (mr_table (w_dev (final ex_cq ex_world)))) (w_mem (final ex_cq ex_world)) (q CQ_MTT_BASE_ADDR)
      (q CQ_PAGE_OFFSET + 32) = Some p.
Proof.
  destruct (completion_queue_reached 9000 ex_world0 ex_world 1 1 128 (ex_addr + 4096) (ex_addr + 5 * 4096) 137 (final ex_cq ex_world)
    (final ex_cq ex_world) ex_booted ex_steps ltac:(vm_compute; discriminate) ltac:(vm_compute; reflexivity) ex_phys_cq
    (answer_final _ _ _ ex_cq_ok) (rtc_refl _ _)) as (q & Hq & _ & Hr).
  destruct (Hr 32 ltac:(vm_compute; split; congruence)) as (p & Hp). exists q, p. exact (conj Hq Hp).
Defined.

(** The same ring four bytes into the page, and a region of process 2 after it. *)
Notation ex_bad_cq := (create_cq (C := Hw) (A := FrameState) 1 1 128 (ex_addr + 4100) (ex_addr + 5 * 4096)).
Definition ex_world_bad : World Hw FrameState := final ex_bad_cq ex_world.

Lemma ex_bad_cq_ok : answer ex_bad_cq ex_world = Some (Ok 137).
Proof. vm_compute. reflexivity. Qed.
Lemma ex_bad_region_ok : answer ex_region ex_world_bad = Some (Ok ex_md).
Proof. vm_compute. reflexivity. Qed.
Lemma ex_bad_phys : phys_ok (w_spaces ex_world_bad 2) ((ex_addr + 100) / PAGE_SIZE) 2.
Proof. apply phys_check_ok. vm_compute. reflexivity. Qed.

Lemma unaligned_ring_reaches_others_witness :
  exists q off p, hw_cqs (whw ex_world_bad) !! 137 = Some q /\ 0 <= off < 128 * CQE_SIZE /\
    buffer_reach (mtt_table (mr_table (w_dev (final ex_region ex_world_bad)))) (w_mem (final ex_region ex_world_bad))
      (q CQ_MTT_BASE_ADDR) (q CQ_PAGE_OFFSET + off) = Some p /\
    paging_translate (page_tables (w_spaces ex_world_bad 2)) (page_address ((ex_addr + 100) / PAGE_SIZE)) = Ret (Some p).
Proof.
  exact (unaligned_ring_reaches_others 9000 ex_world0 ex_world 1 1 128 (ex_addr + 4100) (ex_addr + 5 * 4096) 137 ex_world_bad
    2 2 5 (ex_addr + 100) 5000 7 ex_md (final ex_region ex_world_bad)
    ex_booted ex_steps ltac:(vm_compute; discriminate) ltac:(done) ltac:(vm_compute; reflexivity) (answer_final _ _ _ ex_bad_cq_ok)
    ltac:(vm_compute; discriminate) ltac:(done) ex_bad_phys (answer_final _ _ _ ex_bad_region_ok)).
Defined.

Definition ex_ctx (h : Z) : UContext := default (mkCtx 0 0 (Build_UarPage 0 0 None) 0 0 [] [] [] []) (contexts (w_dev ex_world) !! h).

Lemma ex_ctx_lookup h : bool_decide (is_Some (contexts (w_dev ex_world) !! h)) = true -> contexts (w_dev ex_world) !! h = Some (ex_ctx h).
Proof. intros [c Hc]%bool_decide_eq_true. unfold ex_ctx. by rewrite Hc. Qed.

Lemma ex_dev_ok : dev_ok (w_dev ex_world).
Proof. eapply sys_steps_ok; [apply ex_steps|]. eapply new_device_ok, ex_uars_init. Qed.

Lemma ex_first : num_rsvd_pds (capabilities (w_dev ex_world)) = 4.
Proof. vm_compute. reflexivity. Qed.

Lemma freed_domain_reused_witness :
  exists w1 w2, dealloc_pd 1 1 4 ex_world = Ret (Ok tt, w1) /\ alloc_pd 2 2 w1 = Ret (Ok 4, w2) /\ hw_mpts (whw w2) = hw_mpts (whw ex_world).
Proof.
  destruct (freed_domain_reused ex_world 1 1 (ex_ctx 1) 4 2 2 (ex_ctx 2) ex_dev_ok
    (ex_ctx_lookup 1 ltac:(vm_compute; reflexivity)) ltac:(vm_compute; reflexivity) ltac:(apply list_elem_of_In; vm_compute; left; reflexivity)
    (ex_ctx_lookup 2 ltac:(vm_compute; reflexivity)) ltac:(vm_compute; reflexivity) ltac:(discriminate)
    ltac:(vm_compute; split; congruence) ltac:(intros y Hy; rewrite ex_first in Hy; exfalso; lia)) as (w1 & w2 & E1 & E2 & _ & E3 & _).
  exists w1, w2. exact (conj E1 (conj E2 E3)).
Defined.

(** ** The queue pair of process 1 *)

Definition ex_qp : QueuePair := Eval vm_compute in match qps (ex_ctx 1) with q :: _ => q | [] =>
  {| qp_number := 0; qp_state := StReset; qp_type := RC; port_number := None; qp_pd := 0; send_cq_number := 0; receive_cq_number := 0;
     uar_index := 0; qp_mtt := None; page_offset := 0; doorbell_address := 0; log_sq_bb_count := 0; log_sq_stride := 4;
     log_rq_wqe_count := 0; log_rq_stride := 4 |} end.

Lemma ex_qp_wf : qp_wf ex_qp.
Proof. split; cbn; try lia; intros ? [=]; lia. Qed.

(** To Init, with port 1 and all access flags. *)
Definition ex_attr : QueuePairAttr :=
  {| a_state := StInit; path_mtu := 5; qkey := 0; dest_qp_num := 0; qp_access_flags := 15; ah_dlid := 0; ah_sl := 0; alt_dlid := 0;
     pkey_index := 0; alt_pkey_index := 0; max_rd_atomic := 0; max_dest_rd_atomic := 0; min_rnr_timer := 0; port_num := 1;
     timeout := 0; rnr_retry := 0 |}.
Definition ex_mask : Z := IBV_QP_STATE + IBV_QP_ACCESS_FLAGS + IBV_QP_PORT.

Lemma ex_attr_wf : attr_wf ex_attr.
Proof. split; cbn; lia. Qed.

Notation ex_modify := (modify_qp (C := Hw) (A := FrameState) 1 1 (qp_number ex_qp) ex_attr ex_mask).
Lemma ex_modify_ok : answer ex_modify ex_world = Some (Ok tt).
Proof. vm_compute. reflexivity. Qed.

Lemma modify_follows_states_witness :
  exists q' w', ex_modify ex_world = Ret (Ok tt, w') /\ qp_state q' = StInit /\
    exists c, hw_qps (whw w') !! qp_number ex_qp = Some c /\ context_for ex_qp c.
Proof.
  destruct (modify_follows_states 1 1 (qp_number ex_qp) ex_attr ex_mask ex_world (ex_ctx 1) 0 ex_qp
    (ex_ctx_lookup 1 ltac:(vm_compute; reflexivity)) ltac:(vm_compute; reflexivity) ltac:(vm_compute; reflexivity)
    ex_qp_wf ex_attr_wf ltac:(vm_compute; split; congruence)) as (r & q' & w' & E & _ & _ & Hm).
  pose proof ex_modify_ok as Ha. unfold answer in Ha. rewrite E in Ha. injection Ha as ->. destruct Hm as (_ & Hs & Hc).
  exists q', w'. split; [exact E|]. split; [exact Hs|]. exact (Hc eq_refl Hs).
Defined.

(** ** Two ports *)

Definition ex_port_world : World PortSim FrameState :=
  mkWorld (mkPortSim ∅) (w_mem ex_world0) (w_frames ex_world0) (w_spaces ex_world0) (w_dev ex_world0).

Lemma ex_port_up : up ex_port_world = ∅.
Proof. reflexivity. Qed.


(** ** System calls *)

(** Process 2 asks for a protection domain in its context; the request is in its memory. *)
Definition ex_request_frame : Z := match paging_translate (page_tables ex_space2) (ex_addr + 200) with Ret (Some p) => p | _ => 0 end.
Definition ex_driver : Driver Hw FrameState :=
  mkDriver (set_mem (fun x => if x =? ex_request_frame then 2 else w_mem ex_world x) ex_world) 2 42 5000 [].

Notation ex_call := (sys_uverbs_ctl (fun _ => 0) (fun _ _ _ _ => []) 2 1 5 (ex_addr + 200) 4 (ex_addr + 300) 4).

Lemma ex_call_ok : (match ex_call ex_driver with Ret (code, _) => Some code | Panic _ => None end) = Some 0.
Proof. vm_compute. reflexivity. Qed.

Lemma driver_dev_ok (w : World Hw FrameState) mem a b c l : dev_ok (w_dev w) -> dev_ok (w_dev (dr_world (mkDriver (set_mem mem w) a b c l))).
Proof. done. Qed.
Lemma ex_driver_ok : dev_ok (w_dev (dr_world ex_driver)).
Proof. exact (driver_dev_ok ex_world _ 2 42 5000 [] ex_dev_ok). Qed.

Lemma system_call_isolated_witness : exists d', ex_call ex_driver = Ret (0, d') /\ dev_ok (w_dev (dr_world d')).
Proof.
  pose proof ex_call_ok as Ho. destruct (ex_call ex_driver) as [[code d']|] eqn:E; [|discriminate Ho]. injection Ho as ->.
  exists d'. split; [reflexivity|]. exact (proj1 (system_call_isolated (fun _ => 0) (fun _ _ _ _ => []) 2 1 5 (ex_addr + 200) 4 (ex_addr + 300) 4
    ex_driver 0 d' ex_driver_ok E)).
Defined.

Notation ex_copy := (copy_from_user 2 (mkSlice (ex_addr + 200) 4) 4 ex_driver).
Lemma ex_copy_bytes : (match ex_copy with Ret (Ok bs, _) => bs | _ => [] end) = [2; 0; 0; 0].
Proof. vm_compute. reflexivity. Qed.
Lemma ex_copy_ok : ex_copy = Ret (Ok [2; 0; 0; 0], ex_driver).
Proof.
  pose proof ex_copy_bytes as Hb. destruct ex_copy as [[[bs|e] d']|] eqn:E; try discriminate Hb. subst bs.
  by rewrite (copy_from_user_same _ _ _ _ _ _ E).
Qed.
Lemma ex_pd_ok : answer (run_verb 2 (VAllocPd 2)) (dr_world ex_driver) = Some (Ok 6).
Proof. vm_compute. reflexivity. Qed.

Lemma system_call_runs_verb_witness : exists o resp, ex_call ex_driver = ('(r, d') ← o; Ret (convert_syscall_result_to_ret_code r, d')) /\
  take 4 resp = [6; 0; 0; 0] /\
  o = copy_to_user 2 (mkSlice (ex_addr + 300) 4) resp 0 (set_world (final (run_verb 2 (VAllocPd 2)) (dr_world ex_driver)) ex_driver).
Proof.
  destruct (system_call_runs_verb (fun _ => 0) (fun _ _ _ _ => []) 2 5 CmdAllocPd (ex_addr + 200) 4 (ex_addr + 300) 4 [2; 0; 0; 0] (VAllocPd 2)
    ex_driver (Ok 6) _ eq_refl eq_refl (fun _ => ex_copy_ok) (answer_final _ _ _ ex_pd_ok)) as (o & E & resp & Ht & Ho).
  exists o, resp. exact (conj E (conj Ht Ho)).
Defined.

Lemma bad_request_address_panics_witness : panics (sys_uverbs_ctl (fun _ => 0) (fun _ _ _ _ => []) 2 1 5 (2 ^ 63) 4 0 0 ex_driver).
Proof. exact (bad_request_address_panics (fun _ => 0) (fun _ _ _ _ => []) 2 1 (2 ^ 63) 4 ex_driver eq_refl ltac:(lia) ltac:(lia)). Defined.
